(* ===== verification/_CoqProject ===== *)
-Q . S2P
Prelude.v
SymTab.v
Trie.v
Header.v
Chunk.v
Memory.v
Expr.v
PrintSmt2.v
SmtSpec.v
SccWriter.v
LibWriter.v
Lexer.v
World.v
Code.v
Run.v
SccCode.v
Check.v
CheckFile.v
Sample.v
RefCount.v
LexerSpec.v
Follow.v
Alpha.v
Owned.v
SccRules.v
ClauseSpec.v
KindSpec.v
Whr.v
RunSpec.v
Frame.v
Parens.v
Scope.v
Locals.v
Contract.v
HeadFlag.v
Lockstep.v
Writers.v
TypeSpec.v
Examples.v
ZmqWire.v
ZmqEncoder.v
ZmqMsg.v
ZmqMsgSpec.v
ZmqDecoder.v
ZmqDecoderSpec.v
ZmqInput.v
ZmqOverflow.v
ZmqYpipe.v
ZmqYpipeSpec.v
ZmqPipe.v
ZmqPipeSpec.v
ZmqPipeFlow.v
ZmqPipeEnd.v
ZmqPipeQuiet.v
ZmqPipeMarks.v
ZmqTrie.v
ZmqTrieSpec.v
ZmqMtrieSpec.v
ZmqZ85.v
ZmqArray.v
ZmqDist.v
ZmqDistPipes.v
