(* ===== verification/Prelude.v ===== *)
(** * The C++ parts of Kind 2: a verification library

    Kind 2 can emit proofs in LFSC, a dependently typed language with computed
    side conditions; src/lfsc/checker is the C++ program that checks them.  The
    processes of Kind 2 exchange messages with ZeroMQ; src/ocamlczmq/libzmq is the
    C++ library that does this.  This library models the checker and the core of
    libzmq and proves what makes them correct, and shows where they are not.

    ** The checker and the files that model it

    The checker reads a file of commands.  [declare] and [define] enter symbols
    in a table, [program] enters a side condition, [check] checks a term,
    [opaque] checks a term and keeps only its type, [run] runs code.  Terms are
    checked while they are read: no syntax tree is built unless a type depends
    on the term.  Expressions are reference-counted objects that are updated in
    place: variables, holes and definitions all point to their values.

    - Prelude.v (this file): results, the state-and-error monad, the relation
      [keeps] with its tactic, characters and strings.
    - SymTab.v: the interface of the symbol table, a class with its laws, and
      its finite-map instance.  An insertion may fail; a table says for which names
      it does not.  Trie.v: the trie of trie.h, the instance the program uses.
    - Header.v: the word of expr.h that packs class, operator, flag and count.
    - Chunk.v: the allocator of chunking_memory_management.h, which gives [CExpr]
      its memory.
    - Memory.v: the subclasses of [Expr] as objects of a store, the accesses to
      their fields, [inc], [dec] and [destroy], the mark map.
    - Expr.v: the member functions of [Expr] and [CExpr] in expr.cpp and expr.h:
      applications, [clone], [whr], [defeq], [free_in], printing.
      PrintSmt2.v: the printer of print_smt2.cpp for formulas in holes.
    - SccWriter.v and LibWriter.v: the writers of C++ text, sccwriter.cpp for
      compiled side conditions and libwriter.cpp for constructors of proofs.
    - Lexer.v: the reader in check.h, [eat_str] and [read_index] of code.cpp.
    - World.v: the globals of check.cpp.
    - Code.v: [read_case], [read_code] and [check_code] of code.cpp.
      Run.v: [run_code].  SccCode.v: the compiled side conditions of scccode.cpp,
      which [run_code] calls with [--run-scc].
    - Check.v: [check] of check.cpp, a definition for each case of its switch.
    - CheckFile.v: [check_file] and [init] of check.cpp, main.cpp, position.h.
      [main] also gives the writers the programs and declarations and has them
      write their files.
    - Sample.v: the parameters instantiated, to evaluate the checker on inputs.
    - The other files hold specifications and theorems; see below.

    ** The messaging library and the files that model it

    A message that is sent goes through a pipe, two lock-free queues with the
    commands that the two ends send each other, to an engine; the encoder of the
    engine turns it into bytes for the socket.  On the other side the engine reads
    bytes, the decoder finds the messages in them, and a pipe brings them to the
    application.  Subscriptions are kept in tries.  All names are those of files in
    src/ocamlczmq/libzmq/src.

    - ZmqWire.v: wire.hpp, integers in network byte order.
    - ZmqEncoder.v: encoder.hpp, the three encoders (v1_encoder.cpp,
      v2_encoder.cpp, raw_encoder.cpp), [out_event] of stream_engine.cpp.
    - ZmqMsg.v: msg.cpp, atomic_counter.hpp, metadata.cpp: the five kinds of message
      and the memory they share, with its counters.
    - ZmqDecoder.v: decoder.hpp, decoder_allocators.cpp, the three decoders,
      [in_event] and [restart_input] of stream_engine.cpp.  Received data stays in
      the receive buffer, and messages refer to it.
    - ZmqYpipe.v: yqueue.hpp, ypipe.hpp and what they use of atomic_ptr.hpp.  The
      state is the memory of the queue and where each thread is in its operation.
    - ZmqPipe.v: pipe.cpp.  The state is both ends, the ypipes between them and the
      commands under way; each owner calls methods, and each command is delivered at
      some later time.
    - ZmqTrie.v: trie.cpp and mtrie.cpp, the sets of prefixes in subscribers and
      publishers.
    - ZmqZ85.v: the Z85 codec of zmq_utils.cpp.
    - ZmqArray.v: array.hpp, and the interface through which the distributor sees its
      pipes, with the pipes of ZmqPipe.v as an instance.  ZmqDist.v: dist.cpp, which
      sends a message to all pipes that match.

    ** How the code is translated

    A routine is a function from states to results: a value and a new state, or
    the way the run ended.  [Fatal] is a call of [report_error]; [Undefined] is
    undefined behaviour (a null or dangling pointer, a field of another class, an
    index out of range), which the model detects at the point where the C++
    program would go wrong; [DivisionByZero] is the signal GMP raises;
    [OutOfFuel] is a bound of the model, see below.  The order of statements, the
    early returns and the fall-throughs are those of the source; [goto] to the
    start of a function is a recursive call with the new parameters.  An error
    message is kept up to the terms it prints.

    The store is a finite map from addresses to objects.  The address of a
    deleted object is not used again, so a use after free is an error and never a
    use of another object.  The header word of an object is kept as separate
    fields; Header.v proves that the packed word acts on them field by field.
    Integers and rationals of GMP are [Z] and [Q]; the word of the header is a
    32-bit integer with its masks and shifts; a character is a byte, signed as
    [char] is.  The configuration is the one the sources select: [USE_FLAT_APP],
    [MARKVAR_32], [DEBUG_SYM_NAMES], [USE_HOLE_PATH_COMPRESSION] and [PRINT_SMT2]
    are defined, [USE_HASH_MAPS] is not.

    [check], [run_code] and what calls them take the compiled side conditions as
    arguments, an entry point [scc] and an initialisation; SccCode.v defines the
    ones of scccode.cpp, and theorems about whole runs are about these.  The
    generated functions are put together from one definition per construct of the
    side-condition language, as the writer of SccWriter.v puts them together.  The
    file system is a function from names to contents, and [malloc] of Chunk.v a
    function that gives memory apart from what it gave before.

    For libzmq, [zmq_assert] that fails is [Fatal]; memory, the socket and the session
    are arguments or inputs of the operations: [malloc] may fail at any call, the socket
    takes or delivers any number of bytes, the session has room or not.  The two threads
    of a ypipe are interleaved access by access, with sequentially consistent atomic
    operations and a check that plain accesses do not race.  Above that, a pipe uses the
    sequential queue that [ypipe_linearizable] shows a ypipe to be, and a method of an
    end is one step.  Unsigned counters and addresses wrap around at their width.

    ** What is proved

    - Trie.v: [trie_insert_correct], [trie_refines_map] (the trie is a map, unless
      a name with the byte 0xFF is inserted); [trie_top_byte_out_of_bounds] (what
      that byte does) and [trie_non_ascii_slots] (its size for bytes above 127).
    - Header.v: [header_word_refines], [inc_never_overflows],
      [saturated_count_frees_early].
    - RefCount.v: [dec_safe], [dec_last_reclaims], [extend_app_safe].  A state
      is accounted for when every reference, from an object or held by the code,
      is covered by the count of a live object; dropping and making references
      keeps it so.
    - LexerSpec.v: [non_ws_scans], [prefix_id_reads], [pushback_roundtrip],
      [pushback_loses_negative].
    - Follow.v: [followDefs_spec].  Whr.v: [whr_beta], [whr_partial_application].
    - Alpha.v: [defeq_decides_alpha], [defeq_literal_bad_cast].  Terms in the
      store are read as trees with de Bruijn indices, unless they have holes,
      redexes or named partial applications; on terms that share no binder the
      in-place algorithm decides equality of the trees.
    - TypeSpec.v: [check_code_sound].  [check_code] follows the typing rules of the
      side-condition language and leaves memory and table as they were.
    - RunSpec.v: [run_code_refines_eval].  Running arithmetic code computes what
      an evaluator computes, and gives back every reference.
    - Owned.v is a logic for code that owns references: [held] says which terms the
      references of the code stand for and that they are all counted, with rules
      for [inc], [dec] and the constructors.  SccRules.v has the rules for the
      constructs of compiled code.  With them ClauseSpec.v shows that the compiled
      clause functions compute what they should and no clause that does not follow
      by resolution, given a constructor [concat_cl] ([f_append_correct], [f_simplify_clause_correct],
      [f_simplify_clause_rejects], [resolution_sound]), and KindSpec.v that the
      compiled functions for k-induction build sound proof obligations
      ([f_base_correct], [f_step_correct], [kinduction_sound]).  Defects of the
      compiled code: [simplify_without_concat_cl], [f_step_negative_accepted],
      [f_base_rational_bad_cast].
    - Chunk.v: [blocks_in_use_apart], [freed_blocks_reused].  SmtSpec.v:
      [print_smt2_spec], against a printer without modes.
    - Lockstep.v relates two runs of the checker that differ in what they give to
      the writers.  Writers.v: [compiling_does_not_interfere] (the files are checked
      as without the writers, which run afterwards and only print),
      [append_is_compiled] (the writer gives the text that is in scccode.cpp),
      [rule_args_spec], [get_var_name_ident],
      [division_is_compiled_to_multiplication].
    - Frame.v holds what reading code leaves alone, for any relation on states.
      Parens.v: [open_parens_exact].  Scope.v: [create_leaks_no_hypothesis].
      Locals.v: [restore_locals_spec].  Contract.v: [check_contract_holds],
      [ascription_checked_fails].  HeadFlag.v: [first_argument_always_built].
    - Examples.v: runs of the whole program on given files, one that works as
      intended and some that show from the outside the defects that the theorems
      above are about.
    - ZmqEncoder.v: [output_is_frames], the engine sends the frames of the messages.
      ZmqMsgSpec.v: [messages_refine_values], shared and counted messages behave as
      values.  ZmqDecoderSpec.v relates the decoder to a parser of single bytes, and
      ZmqInput.v has [messages_cross_the_wire], which joins the two sides.
      ZmqOverflow.v: [size_ready_overflow], the headers that make the engine write
      out of bounds.
    - ZmqYpipeSpec.v: [ypipe_linearizable], [ypipe_destroy_frees].
    - ZmqPipeSpec.v cuts the methods of a pipe into small moves and proves an invariant
      of these: [pipes_part_in_order], nothing fails and nothing is used after it was
      deleted.  ZmqPipeFlow.v and ZmqPipeEnd.v follow one direction of a pipe:
      [reader_gets_what_was_sent].  ZmqPipeQuiet.v: [shutdown_completes], and
      [hiccup_loses_the_delimiter], where it does not.  ZmqPipeMarks.v:
      [high_water_mark_holds], [writer_is_woken], [credentials_fill_the_pipe], while
      the marks stay as they are.  The theorems of ZmqPipeEnd.v and ZmqPipeMarks.v are
      about runs in which the reader does not call [hiccup].
    - ZmqTrieSpec.v: the invariant of nodes and [trie_refines_multiset].
      ZmqMtrieSpec.v: [mtrie_refines_subscriptions], which also says when the process
      is ended by an assertion, and [foreign_unsubscription_aborts].
    - ZmqZ85.v: [z85_roundtrip]; [z85_decode_checks], what decoding does not refuse.
    - ZmqDist.v: [dist_refines_sets], the array partitioned by swapping acts as four
      nested sets, for any pipes.  ZmqDistPipes.v: [distribution_never_fails], with the
      pipes of pipe.cpp.

    ** Bounds

    A recursion that is not structural takes a bound [fuel] and gives [OutOfFuel]
    when it is used up.  Where the bound is part of a definition it is enough:
    [followDefs], [get_head], [get_body], [isType] and [dec] take the number of
    objects, and a chain without a cycle visits each object once (proved for
    [followDefs] and [dec]); the reader takes the length of the input.  Elsewhere
    it is an argument, and the theorems say how much is enough
    ([run_code_refines_eval], [defeq_decides_alpha], [print_smt2_spec], and the
    theorems on compiled code) or hold for every amount.  The theorems on compiled
    code also assume room for the references they make, [k] of [held], since a
    count that reaches its bound is no longer exact.

    In libzmq the loops of the encoders, decoders and the engine take the number of
    bytes they can still handle, those of a pipe the number of items in its ypipe, the
    destructor of the queue the number of chunks, and the Z85 loops the length of their
    input, and the distributor the number of matching pipes; that no run ends in
    [OutOfFuel] is part of the theorems about them.

    ** What is not modelled

    The destructor of the trie and [cleanup] (run in a [DEBUG] build only),
    [debug_write_code] of sccwriter.cpp (nothing calls it), the path of a file named
    relative to another file (a file never reads another one), and signals.  The
    store of Memory.v gives each object a fresh address and does not go through
    the allocator of Chunk.v.  The signatures are input.

    Of libzmq: the handshake, the mechanisms, heartbeats and timers of the engine and an
    error of the connection while its input is stopped; pipes with [conflate], routing
    ids and identities of pipes; the destructors of the tries; the fair queue and the
    load balancer; the sockets and their
    patterns, sessions, pollers, transports and threads, which are mostly calls of the
    operating system, and the czmq library above them.  The OCaml sources of Kind 2 are
    another program. *)

From stdpp Require Import base tactics list strings gmap fin_maps numbers.

(** ** Results and the state-and-error monad

    Every routine of the checker is a partial state transformer: it either
    returns, with a new state, or the run ends for one of the reasons of
    [error]. *)

(** Why the C++ program has no defined behaviour at a point. *)
Inductive ub :=
  | NullDeref        (* a null pointer is dereferenced *)
  | Dangling         (* the object was deleted *)
  | BadCast          (* a field of another class is accessed *)
  | OutOfBounds      (* an array or vector is read past its end *)
  | Uninitialised.   (* a variable that was never assigned is read *)

Inductive error :=
  | Fatal (msg : string)      (* report_error: the message is printed, exit(1) *)
  | Undefined (why : ub)      (* undefined behaviour *)
  | DivisionByZero            (* GMP raises SIGFPE *)
  | OutOfFuel.                (* the model's recursion bound was too small *)

Inductive result (A : Type) :=
  | Ok (a : A)
  | Err (e : error).
Arguments Ok {_} _.
Arguments Err {_} _.

#[global] Instance ub_eq_dec : EqDecision ub.
Proof. solve_decision. Defined.
#[global] Instance error_eq_dec : EqDecision error.
Proof. solve_decision. Defined.

(** [M S A]: computations over a state [S]. *)
Definition M (S A : Type) : Type := S → result (A * S).

#[global] Instance M_ret {S} : MRet (M S) := λ A a w, Ok (a, w).
#[global] Instance M_bind {S} : MBind (M S) := λ A B f m w,
  match m w with
  | Ok (a, w') => f a w'
  | Err e => Err e
  end.
#[global] Instance M_fmap {S} : FMap (M S) := λ A B f m, m ≫= λ a, mret (f a).

Definition get_st {S} : M S S := λ w, Ok (w, w).
Definition put_st {S} (w : S) : M S () := λ _, Ok ((), w).
Definition gets {S A} (f : S → A) : M S A := λ w, Ok (f w, w).
Definition modify {S} (f : S → S) : M S () := λ w, Ok ((), f w).
Definition throw {S A} (e : error) : M S A := λ _, Err e.
Definition undefined {S A} (why : ub) : M S A := throw (Undefined why).
(** [report_error]: the message is printed and the program exits.  The model
    keeps the fixed text of the message. *)
Definition report_error {S A} (msg : string) : M S A := throw (Fatal msg).

Definition when {S} (b : bool) (m : M S ()) : M S () := if b then m else mret ().

(** [for_each f l]: a loop over a vector, in order. *)
Fixpoint for_each {S A} (f : A → M S ()) (l : list A) : M S () :=
  match l with
  | [] => mret ()
  | a :: l => f a;; for_each f l
  end.

(** [map_m f l]: collect the results of [f] over a vector, in order. *)
Fixpoint map_m {S A B} (f : A → M S B) (l : list A) : M S (list B) :=
  match l with
  | [] => mret []
  | a :: l => b ← f a; bs ← map_m f l; mret (b :: bs)
  end.

(** Run a computation on a component of a larger state. *)
Definition zoom {S W A} (get : W → S) (set : S → W → W) (m : M S A) : M W A := λ w,
  match m (get w) with
  | Ok (a, s) => Ok (a, set s w)
  | Err e => Err e
  end.

(** ** Inversion of successful runs *)

Lemma bind_ok {S A B} (m : M S A) (f : A → M S B) w b w2 :
  (m ≫= f) w = Ok (b, w2) ↔ ∃ a w1, m w = Ok (a, w1) ∧ f a w1 = Ok (b, w2).
Proof.
  unfold mbind, M_bind. split.
  - destruct (m w) as [[a w1]|]; [eauto|done].
  - by intros (a & w1 & -> & ?).
Qed.

Lemma bind_run {S A B} (m : M S A) (f : A → M S B) w a w1 :
  m w = Ok (a, w1) → (m ≫= f) w = f a w1.
Proof. unfold mbind, M_bind. by intros ->. Qed.

Lemma bind_err {S A B} (m : M S A) (f : A → M S B) w e :
  m w = Err e → (m ≫= f) w = Err e.
Proof. unfold mbind, M_bind. by intros ->. Qed.

Lemma ret_ok {S A} (a b : A) (w w' : S) :
  (mret a : M S A) w = Ok (b, w') ↔ a = b ∧ w = w'.
Proof. unfold mret, M_ret. split; [by intros [= -> ->]|by intros [-> ->]]. Qed.

Lemma gets_ok {S A} (f : S → A) w a w' :
  gets f w = Ok (a, w') ↔ a = f w ∧ w' = w.
Proof. unfold gets. split; [by intros [= <- <-]|by intros [-> ->]]. Qed.

Lemma modify_ok {S} (f : S → S) w u w' :
  modify f w = Ok (u, w') ↔ w' = f w.
Proof. unfold modify. destruct u. split; [by intros [= <-]|by intros ->]. Qed.

Lemma throw_ok {S A} e (w : S) (r : A * S) : throw e w = Ok r ↔ False.
Proof. unfold throw. naive_solver. Qed.

Lemma undefined_ok {S A} e (w : S) (r : A * S) : undefined e w = Ok r ↔ False.
Proof. unfold undefined, throw. naive_solver. Qed.

Lemma report_error_ok {S A} e (w : S) (r : A * S) : report_error e w = Ok r ↔ False.
Proof. apply throw_ok. Qed.

Lemma get_st_ok {S} (w a w' : S) : get_st w = Ok (a, w') ↔ a = w ∧ w' = w.
Proof. unfold get_st. split; [by intros [= <- <-]|by intros [-> ->]]. Qed.

Lemma zoom_ok {S W A} (get : W → S) (set : S → W → W) (m : M S A) w a w' :
  zoom get set m w = Ok (a, w') ↔ ∃ s, m (get w) = Ok (a, s) ∧ w' = set s w.
Proof.
  unfold zoom. split.
  - destruct (m (get w)) as [[? ?]|] eqn:E; intros [=]; subst. eauto.
  - by intros (s & -> & ->).
Qed.

Lemma fmap_ok {S A B} (f : A → B) (m : M S A) w b w' :
  (f <$> m) w = Ok (b, w') ↔ ∃ a, m w = Ok (a, w') ∧ b = f a.
Proof.
  unfold fmap, M_fmap. rewrite bind_ok. split.
  - intros (a & w1 & Hm & [<- <-]%ret_ok). eauto.
  - intros (a & Hm & ->). exists a, w'. by rewrite ret_ok.
Qed.

(** [inv_run]: break the hypotheses [m w = Ok _] of straight-line code into
    the runs of its statements. *)
Ltac inv_run_step :=
  match goal with
  | H : (_ ≫= _) _ = Ok _ |- _ =>
      apply bind_ok in H; destruct H as (? & ? & ? & ?)
  | H : (_ <$> _) _ = Ok _ |- _ => apply fmap_ok in H; destruct H as (? & ? & ?); subst
  | H : mret _ _ = Ok _ |- _ => apply ret_ok in H; destruct H; subst
  | H : gets _ _ = Ok _ |- _ => apply gets_ok in H; destruct H; subst
  | H : get_st _ = Ok _ |- _ => apply get_st_ok in H; destruct H; subst
  | H : modify _ _ = Ok _ |- _ => apply modify_ok in H; subst
  | H : throw _ _ = Ok _ |- _ => by apply throw_ok in H
  | H : undefined _ _ = Ok _ |- _ => by apply undefined_ok in H
  | H : report_error _ _ = Ok _ |- _ => by apply report_error_ok in H
  | H : Ok _ = Ok _ |- _ => injection H as H; subst
  | H : Err _ = Ok _ |- _ => discriminate H
  end.
Ltac inv_run := repeat inv_run_step.

(** [inv_branch]: the same, with a case for each branch of the code. *)
Ltac inv_branch_step :=
  match goal with
  | H : (if ?b then _ else _) _ = Ok _ |- _ => let E := fresh "E" in destruct b eqn:E
  | H : match ?x with _ => _ end _ = Ok _ |- _ => destruct x
  end.
Ltac inv_branch := repeat first [inv_run_step | inv_branch_step].

(** ** Relations kept by a computation

    [keeps R m]: every successful run of [m] takes a state to a state related
    by [R].  For a preorder [R] the property is closed under sequencing, so a
    frame property of a routine follows from that of its statements; the hint
    database [keeps] holds one lemma per operation. *)

Definition keeps {S A} (R : relation S) (m : M S A) : Prop :=
  ∀ w a w', m w = Ok (a, w') → R w w'.

Create HintDb keeps.

Section keeps.
Context {S : Type} (R : relation S) `{!PreOrder R}.

Lemma keeps_ret {A} (a : A) : keeps R (mret a).
Proof. intros w b w' H. inv_run. reflexivity. Qed.

Lemma keeps_bind {A B} (m : M S A) (f : A → M S B) :
  keeps R m → (∀ a, keeps R (f a)) → keeps R (m ≫= f).
Proof. intros Hm Hf w b w2 H. inv_run. etrans; [by eapply Hm|by eapply Hf]. Qed.

Lemma keeps_fmap {A B} (f : A → B) (m : M S A) : keeps R m → keeps R (f <$> m).
Proof. intros H. apply keeps_bind; [done|]. intros a. apply keeps_ret. Qed.

Lemma keeps_get : keeps R get_st.
Proof. intros w b w' H. inv_run. reflexivity. Qed.

Lemma keeps_gets {A} (f : S → A) : keeps R (gets f).
Proof. intros w b w' H. inv_run. reflexivity. Qed.

Lemma keeps_throw {A} e : keeps R (throw (A:=A) e).
Proof. intros w b w' H. inv_run. Qed.

Lemma keeps_undefined {A} e : keeps R (undefined (A:=A) e).
Proof. intros w b w' H. inv_run. Qed.

Lemma keeps_when b (m : M S ()) : keeps R m → keeps R (when b m).
Proof. destruct b; [done|]. intros _. apply keeps_ret. Qed.

Lemma keeps_for_each {A} (f : A → M S ()) l :
  (∀ a, keeps R (f a)) → keeps R (for_each f l).
Proof.
  intros Hf. induction l as [|a l IH]; [apply keeps_ret|].
  apply keeps_bind; [apply Hf|by intros _].
Qed.

Lemma keeps_map_m {A B} (f : A → M S B) l :
  (∀ a, keeps R (f a)) → keeps R (map_m f l).
Proof.
  intros Hf. induction l as [|a l IH]; [apply keeps_ret|].
  apply keeps_bind; [apply Hf|intros b]. apply keeps_bind; [done|].
  intros bs. apply keeps_ret.
Qed.
End keeps.

#[export] Hint Resolve keeps_ret keeps_get keeps_gets keeps_throw keeps_undefined : keeps.
#[export] Hint Extern 0 (PreOrder _) => typeclasses eauto : keeps.

Lemma keeps_zoom {S W A} (get : W → S) (set : S → W → W) (R : relation W) (m : M S A) :
  (∀ w a s, m (get w) = Ok (a, s) → R w (set s w)) → keeps R (zoom get set m).
Proof. intros Hm w a w' H. apply zoom_ok in H as (s & H & ->). by eapply Hm. Qed.

(** [keeps_tac]: decompose sequencing, branching and loops; [keeps] hints
    close the statements. *)
Ltac keeps_step :=
  lazymatch goal with
  | |- keeps _ (_ ≫= _) => apply keeps_bind; [typeclasses eauto| |intros ?]
  | |- keeps _ (_ <$> _) => apply keeps_fmap; [typeclasses eauto|]
  | |- keeps _ (when _ _) => apply keeps_when; [typeclasses eauto|]
  | |- keeps _ (for_each _ _) => apply keeps_for_each; [typeclasses eauto|intros ?]
  | |- keeps _ (map_m _ _) => apply keeps_map_m; [typeclasses eauto|intros ?]
  | |- keeps _ (match ?x with _ => _ end) => destruct x
  | |- keeps _ (let '_ := ?x in _) => destruct x
  end.
Ltac keeps_tac := repeat first [solve [eauto 3 with keeps nocore] | keeps_step].

(** ** Characters and strings

    [char] is signed on the platforms the checker is built for; a character is
    an [ascii], whose value as a [char] is [char_val]. *)

Definition char_val (c : Ascii.ascii) : Z :=
  let n := Z.of_nat (Ascii.nat_of_ascii c) in if (n <? 128)%Z then n else (n - 256)%Z.

(** [(unsigned) c] for a [char] [c]: sign extension, then reduction modulo 2^32. *)
Definition char_unsigned (c : Ascii.ascii) : Z := (char_val c `mod` 2 ^ 32)%Z.

(** [std::endl] *)
Definition NL : Ascii.ascii := Ascii.ascii_of_nat 10.
Definition nl : string := String NL EmptyString.

(** ** Strings *)

Lemma string_app_empty_r (s : string) : s +:+ EmptyString = s.
Proof.
  induction s as [|a s IH]; [done|]. change (String a (s +:+ EmptyString) = String a s). by rewrite IH.
Qed.

Lemma string_app_assoc (s1 s2 s3 : string) : s1 +:+ (s2 +:+ s3) = (s1 +:+ s2) +:+ s3.
Proof.
  induction s1 as [|a s1 IH]; [done|].
  change (String a (s1 +:+ (s2 +:+ s3)) = String a ((s1 +:+ s2) +:+ s3)). by rewrite IH.
Qed.

Lemma nat_of_ascii_bound c : (Ascii.nat_of_ascii c < 256)%nat.
Proof. apply Ascii.nat_ascii_bounded. Qed.

Lemma char_val_range c : (-128 ≤ char_val c < 128)%Z.
Proof.
  pose proof (nat_of_ascii_bound c). unfold char_val. destruct (Z.ltb_spec (Z.of_nat (Ascii.nat_of_ascii c)) 128); lia.
Qed.

Lemma char_val_inj c c' : char_val c = char_val c' → c = c'.
Proof.
  pose proof (nat_of_ascii_bound c). pose proof (nat_of_ascii_bound c'). unfold char_val.
  destruct (Z.ltb_spec (Z.of_nat (Ascii.nat_of_ascii c)) 128),
    (Z.ltb_spec (Z.of_nat (Ascii.nat_of_ascii c')) 128); intros E; try lia;
    rewrite <-(Ascii.ascii_nat_embedding c), <-(Ascii.ascii_nat_embedding c'); f_equal; lia.
Qed.

Lemma char_unsigned_inj c c' : char_unsigned c = char_unsigned c' → c = c'.
Proof.
  intros E. apply char_val_inj. pose proof (char_val_range c). pose proof (char_val_range c').
  unfold char_unsigned in E. change (2 ^ 32)%Z with 4294967296%Z in E.
  Z.div_mod_to_equations. lia.
Qed.

Lemma char_unsigned_range c : (0 ≤ char_unsigned c < 2 ^ 32)%Z.
Proof. by apply Z.mod_pos_bound. Qed.
