(* ===== verification/SymTab.v ===== *)
(** * The symbol table interface

    The checker looks identifiers up in one table from names to pairs of
    pointers, built either on [Trie] (the default) or on hash maps
    ([USE_HASH_MAPS] in check.cpp).  The rest of the checker relies on two
    operations only: [get], which gives a default value for a name that is not
    bound, and [insert], which returns the value it replaces.  This file states
    what they promise; the trie of Trie.v and a finite map both keep it.  An
    insertion may have no defined behaviour, so the interface also names the
    strings that every table with only such strings in it can take. *)

From stdpp Require Import base tactics strings gmap.
From S2P Require Import Prelude.

(** The value-initialised [Data()] of a C++ type. *)
Class Default (V : Type) := dflt : V.

#[global] Instance default_prod {A B} `{Default A, Default B} : Default (A * B) := (dflt, dflt).
#[global] Instance default_N : Default N := 0%N.

Class SymTab (T V : Type) := {
  st_wf : T → Prop;
  st_name : string → bool;
  st_plain : T → Prop;
  st_empty : T;
  st_get : T → string → V;
  st_insert : T → string → V → result (V * T)
}.

(** [st_plain t]: only names of [st_name] were inserted in [t]. *)
Class SymTabLaws (T V : Type) `{Default V} `{SymTab T V} := {
  st_empty_wf : st_wf st_empty;
  st_empty_plain : st_plain st_empty;
  st_get_empty s : st_get st_empty s = dflt;
  st_insert_ok t s x old t' : st_wf t → st_insert t s x = Ok (old, t') →
    old = st_get t s ∧ st_wf t' ∧ ∀ s', st_get t' s' = if decide (s = s') then x else st_get t s';
  st_insert_plain t s x : st_wf t → st_plain t → st_name s = true →
    ∃ old t', st_insert t s x = Ok (old, t') ∧ st_plain t'
}.

(** ** The finite-map table

    [symbols[id]] of a hash map: an absent key reads as the default value. *)
Section map_table.
Context {V : Type} `{Default V}.

Definition map_get (m : gmap string V) (s : string) : V := default dflt (m !! s).
Definition map_insert (m : gmap string V) (s : string) (x : V) : result (V * gmap string V) :=
  Ok (map_get m s, <[s := x]> m).

#[global] Instance map_symtab : SymTab (gmap string V) V := {|
  st_wf := λ _, True;
  st_name := λ _, true;
  st_plain := λ _, True;
  st_empty := ∅;
  st_get := map_get;
  st_insert := map_insert
|}.

#[global] Instance map_symtab_laws : SymTabLaws (gmap string V) V.
Proof.
  split; simpl; unfold map_get, map_insert; try done.
  - intros m s x old t' _ [= <- <-]. split_and!; [done..|]. intros s'. rewrite lookup_insert. by case_decide.
  - eauto.
Qed.
End map_table.

(** ** Scripts of operations and their refinement

    A client is a sequence of insertions and lookups; what it observes is the
    list of the values they return. *)
Inductive st_op (V : Type) := OpInsert (s : string) (x : V) | OpGet (s : string).
Arguments OpInsert {_} _ _.
Arguments OpGet {_} _.

Fixpoint run_ops {T V} `{SymTab T V} (t : T) (ops : list (st_op V)) : result (list V * T) :=
  match ops with
  | [] => Ok ([], t)
  | OpInsert s x :: ops =>
      match st_insert t s x with
      | Ok (old, t') => match run_ops t' ops with Ok (outs, t'') => Ok (old :: outs, t'') | Err e => Err e end
      | Err e => Err e
      end
  | OpGet s :: ops => match run_ops t ops with Ok (outs, t') => Ok (st_get t s :: outs, t') | Err e => Err e end
  end.

(** Any two lawful tables that agree on every name stay indistinguishable, as
    long as both take the names. *)
Lemma run_ops_refines {T1 T2 V} `{SymTabLaws T1 V} `{!SymTab T2 V, !SymTabLaws T2 V} ops :
  ∀ (t1 : T1) (t2 : T2) r1 t1' r2 t2', st_wf t1 → st_wf t2 →
  (∀ s, st_get t1 s = st_get t2 s) →
  run_ops t1 ops = Ok (r1, t1') → run_ops t2 ops = Ok (r2, t2') → r1 = r2.
Proof.
  induction ops as [|[s x|s] ops IH]; intros t1 t2 r1 t1' r2 t2' W1 W2 E; simpl; [by intros [= <- _] [= <- _]|..].
  - destruct (st_insert t1 s x) as [[o1 u1]|] eqn:I1, (st_insert t2 s x) as [[o2 u2]|] eqn:I2; try done.
    apply st_insert_ok in I1 as (-> & V1 & G1); [|done]. apply st_insert_ok in I2 as (-> & V2 & G2); [|done].
    destruct (run_ops u1 ops) as [[q1 v1]|] eqn:R1, (run_ops u2 ops) as [[q2 v2]|] eqn:R2; try done.
    intros [= <- <-] [= <- <-]. f_equal; [apply E|]. eapply (IH u1 u2); [done..| |done|done]. intros s'. by rewrite G1, G2, E.
  - destruct (run_ops t1 ops) as [[q1 v1]|] eqn:R1, (run_ops t2 ops) as [[q2 v2]|] eqn:R2; try done.
    intros [= <- <-] [= <- <-]. f_equal; [apply E|]. by eapply (IH t1 t2).
Qed.
