(* ===== verification/Trie.v ===== *)
(** * The trie of trie.h

    [Trie<Data>] keeps at most one string in a node and the rest in the vector
    [next], indexed by the first character; a string is stored high in the tree
    while it is alone and pushed one level down when another one arrives.

    The file models the class (its members [insert], [insert_next], [get],
    [get_next] and [eqstr]), states the invariant of its nodes and shows that
    the trie keeps the interface of SymTab.v. *)

From stdpp Require Import base tactics list strings gmap numbers.
From S2P Require Import Prelude SymTab.

Set Warnings "-register-all".

Section trie.
Context {V : Type} `{Default V}.

(** [str] is null or owns a C string; [next] is a vector of possibly null
    pointers to child nodes. *)
Inductive trie :=
  | Trie (str : option string) (d : V) (using_next : bool) (next : list (option trie)).

(** [Trie()] *)
Definition trie_empty : trie := Trie None dflt false [].

(** The index of a character in [next]: [unsigned c = s[0]]. *)
Definition idx (c : Ascii.ascii) : nat := Z.to_nat (char_unsigned c).

(** The loop of [eqstr]: advance while both strings have equal characters. *)
Fixpoint eqstr (s1 s2 : string) : bool :=
  match s1, s2 with
  | String c1 s1, String c2 s2 => if decide (c1 = c2) then eqstr s1 s2 else false
  | EmptyString, EmptyString => true
  | _, _ => false
  end.

Definition is_empty (s : string) : bool := match s with EmptyString => true | _ => false end.

(** [!str || !str[0]] *)
Definition no_str (str : option string) : bool :=
  match str with None => true | Some s => is_empty s end.

(** [get_next] is entered with a non-empty string. *)
Definition get_next (get : trie → string → V) (next : list (option trie)) (s : string) : V :=
  match s with
  | EmptyString => dflt
  | String c s' =>
      match next !! idx c with
      | Some (Some n) => get n s'
      | _ => dflt
      end
  end.

Fixpoint get (t : trie) (s : string) {struct s} : V :=
  let '(Trie str d using_next next) := t in
  if is_empty s && no_str str then d
  else if match str with Some s1 => eqstr s1 s | None => false end then d
  else if using_next then get_next get next s
  else dflt.

(** [insert_next] grows the vector up to the index, or fills an empty slot, then
    inserts in the child; it returns the replaced value and the two fields it
    assigns.  It is entered with a non-empty string.  [c+1] is a 32-bit sum: for
    the byte 0xFF the vector is emptied, and its entry [c] is not there. *)
Definition insert_next (insert : trie → string → V → result (V * trie))
    (using_next : bool) (next : list (option trie)) (s : string) (x : V)
    : result (V * bool * list (option trie)) :=
  match s with
  | EmptyString => Err (Undefined OutOfBounds)
  | String c s' =>
      let i := idx c in
      let '(using_next, next) :=
        if decide (length next ≤ i) then
          (true, <[i := Some trie_empty]> (resize (Z.to_nat ((char_unsigned c + 1) `mod` 2 ^ 32)) None next))
        else match next !! i with
             | Some None => (using_next, <[i := Some trie_empty]> next)
             | _ => (using_next, next)
             end in
      match next !! i with
      | Some (Some n) =>
          match insert n s' x with
          | Ok (old, n') => Ok (old, using_next, <[i := Some n']> next)
          | Err e => Err e
          end
      | _ => Err (Undefined OutOfBounds)
      end
  end.

(** [insert], with a bound on the depth of the recursion. *)
Fixpoint insert_fuel (fuel : nat) (t : trie) (s : string) (x : V) : result (V * trie) :=
  match fuel with
  | 0 => Err OutOfFuel
  | S fuel =>
      let '(Trie str d using_next next) := t in
      if is_empty s then
        match str with
        | Some str' =>
            if is_empty str' then Ok (d, Trie str x using_next next)
            else
              match insert_next (insert_fuel fuel) using_next next str' d with
              | Ok (_, using_next, next) => Ok (dflt, Trie (Some EmptyString) x using_next next)
              | Err e => Err e
              end
        | None => Ok (dflt, Trie (Some EmptyString) x using_next next)
        end
      else
        match str with
        | Some str' =>
            if is_empty str' then
              match insert_next (insert_fuel fuel) using_next next s x with
              | Ok (old, using_next, next) => Ok (old, Trie str d using_next next)
              | Err e => Err e
              end
            else
              match insert_next (insert_fuel fuel) using_next next str' d with
              | Ok (_, using_next, next) =>
                  match insert_next (insert_fuel fuel) using_next next s x with
                  | Ok (old, using_next, next) => Ok (old, Trie None dflt using_next next)
                  | Err e => Err e
                  end
              | Err e => Err e
              end
        | None =>
            if using_next then
              match insert_next (insert_fuel fuel) using_next next s x with
              | Ok (old, using_next, next) => Ok (old, Trie None d using_next next)
              | Err e => Err e
              end
            else Ok (dflt, Trie (Some s) x using_next next)
        end
  end.

(** Two levels more than the string is long are enough: a string that has to
    make room goes into a new child. *)
Definition insert (t : trie) (s : string) (x : V) : result (V * trie) :=
  insert_fuel (S (S (String.length s))) t s x.

(** ** The invariant of a node *)
Inductive wf : trie → Prop :=
  | wf_Trie str d using_next next :
      (using_next = true ↔ next ≠ []) →
      (using_next = true → no_str str = true) →
      (str = None → d = dflt) →
      (∀ i n, next !! i = Some (Some n) → wf n) →
      wf (Trie str d using_next next).

(** Strings without the byte 0xFF, and tries that hold only such strings. *)
Fixpoint plain_name (s : string) : bool :=
  match s with EmptyString => true | String c s => negb (char_unsigned c =? 2 ^ 32 - 1)%Z && plain_name s end.

Inductive plain : trie → Prop :=
  | plain_Trie str d using_next next :
      (∀ s, str = Some s → plain_name s = true) →
      (∀ i n, next !! i = Some (Some n) → plain n) →
      plain (Trie str d using_next next).

Lemma idx_inj c c' : idx c = idx c' → c = c'.
Proof.
  unfold idx. intros E. pose proof (char_unsigned_range c). pose proof (char_unsigned_range c').
  apply char_unsigned_inj. lia.
Qed.

Lemma eqstr_spec s1 s2 : eqstr s1 s2 = bool_decide (s1 = s2).
Proof.
  revert s2. induction s1 as [|c1 s1 IH]; intros [|c2 s2]; simpl; try done.
  case_decide; [subst; rewrite IH|]; repeat case_bool_decide; naive_solver.
Qed.

Lemma wf_empty : wf trie_empty.
Proof. by constructor; [split|..]. Qed.

Lemma get_empty s : get trie_empty s = dflt.
Proof. by destruct s. Qed.

(** A lone string is stored in the node itself. *)
Lemma get_leaf s x s' :
  get (Trie (Some s) x false []) s' = if decide (s = s') then x else dflt.
Proof.
  destruct s' as [|c s']; simpl; rewrite eqstr_spec;
    repeat case_bool_decide; repeat case_decide; destruct s; naive_solver.
Qed.

Lemma wf_leaf s x : wf (Trie (Some s) x false []).
Proof. by constructor; [split|..]. Qed.

Lemma insert_fuel_empty n s x :
  insert_fuel (S n) trie_empty s x = Ok (dflt, Trie (Some s) x false []).
Proof. by destruct s. Qed.

(** In a node that uses [next] a non-empty string lives below. *)
Lemma get_below str d next c s :
  no_str str = true →
  get (Trie str d true next) (String c s) = get_next get next (String c s).
Proof. destruct str as [[|? ?]|]; simpl; naive_solver. Qed.

(** In such a node the empty string is the node's own. *)
Lemma get_here str d u next :
  no_str str = true → get (Trie str d u next) EmptyString = d.
Proof. by intros E; simpl; rewrite E. Qed.

(** What an insertion is to do: the name is bound, or the vector was indexed out
    of its bounds, which takes a byte 0xFF in the name or in the trie. *)
Definition inserts (t : trie) (s : string) (x : V) (r : result (V * trie)) : Prop :=
  (∃ t', r = Ok (get t s, t') ∧ wf t' ∧ (plain t → plain_name s = true → plain t') ∧
    ∀ s', get t' s' = if decide (s = s') then x else get t s') ∨
  (r = Err (Undefined OutOfBounds) ∧ ¬ (plain t ∧ plain_name s = true)).

(** The child a character leads to; a missing one is created empty. *)
Definition child (next : list (option trie)) (c : Ascii.ascii) : trie :=
  match next !! idx c with Some (Some n) => n | _ => trie_empty end.

Definition below_wf (next : list (option trie)) : Prop :=
  ∀ i n, next !! i = Some (Some n) → wf n.

Lemma child_wf next c : below_wf next → wf (child next c).
Proof. intros W. unfold child. repeat case_match; eauto using wf_empty. Qed.

Lemma get_next_child next c s : get_next get next (String c s) = get (child next c) s.
Proof. simpl. unfold child. repeat case_match; by rewrite ?get_empty. Qed.

(** The vector after the slot of [c] holds [n']. *)
Definition set_child (next : list (option trie)) (c : Ascii.ascii) (n' : trie) :=
  <[idx c := Some n']>
    (if decide (length next ≤ idx c) then resize (S (idx c)) None next else next).

Lemma set_child_lookup next c n' i :
  set_child next c n' !! i =
    if decide (i = idx c) then Some (Some n')
    else if decide (length next ≤ idx c) then resize (S (idx c)) None next !! i
    else next !! i.
Proof.
  unfold set_child. destruct (decide (i = idx c)) as [->|E].
  - apply list_lookup_insert_eq. case_decide; [rewrite length_resize|]; lia.
  - rewrite list_lookup_insert_ne by done. by case_decide.
Qed.

Lemma resize_slot (next : list (option trie)) m i n :
  resize m None next !! i = Some (Some n) → next !! i = Some (Some n).
Proof.
  intros E. destruct (decide (i < m)) as [?|?].
  - destruct (decide (i < length next)) as [?|?]; [by rewrite lookup_resize in E by lia|].
    rewrite lookup_resize_new in E by lia. done.
  - by rewrite lookup_resize_old in E by lia.
Qed.

Lemma set_child_wf next c n' : below_wf next → wf n' → below_wf (set_child next c n').
Proof.
  intros W Wn i n. rewrite set_child_lookup. repeat case_decide; [naive_solver| |apply W].
  intros E%resize_slot. eauto.
Qed.

Lemma child_set_child next c n' c' :
  child (set_child next c n') c' = if decide (c = c') then n' else child next c'.
Proof.
  unfold child at 1. rewrite set_child_lookup.
  destruct (decide (c = c')) as [<-|Hne]; [by rewrite decide_True|].
  rewrite decide_False by (by intros ?%idx_inj). case_decide; [|done]. unfold child.
  destruct (decide (idx c' < length next)) as [?|?].
  - by rewrite lookup_resize by lia.
  - rewrite (lookup_ge_None_2 next) by lia.
    destruct (resize (S (idx c)) None next !! idx c') as [[m|]|] eqn:E; [|done..].
    apply resize_slot in E. rewrite lookup_ge_None_2 in E by lia. done.
Qed.

(** The index 2^32 - 1 is not reached by growing. *)
Definition reachable (next : list (option trie)) (c : Ascii.ascii) : bool :=
  negb (char_unsigned c =? 2 ^ 32 - 1)%Z || bool_decide (idx c < length next).

Lemma insert_next_eq ins u next c s x :
  (u = true ↔ next ≠ []) →
  insert_next ins u next (String c s) x =
    if reachable next c then
      match ins (child next c) s x with Ok (old, n') => Ok (old, true, set_child next c n') | Err e => Err e end
    else Err (Undefined OutOfBounds).
Proof.
  intros Hu. simpl. unfold reachable, child, set_child. pose proof (char_unsigned_range c) as Hr.
  destruct (decide (length next ≤ idx c)) as [Hl|Hl].
  - rewrite (bool_decide_false (idx c < length next)), orb_false_r by lia. destruct (Z.eqb_spec (char_unsigned c) (2 ^ 32 - 1)) as [E|E]; simpl.
    + rewrite E. change ((2 ^ 32 - 1 + 1) `mod` 2 ^ 32)%Z with 0%Z. by rewrite lookup_ge_None_2 by (rewrite length_insert, length_resize; simpl; lia).
    + rewrite Z.mod_small by lia. assert (Z.to_nat (char_unsigned c + 1) = S (idx c)) as -> by (unfold idx; lia).
      rewrite list_lookup_insert_eq by (rewrite length_resize; lia).
      rewrite (lookup_ge_None_2 next) by lia.
      destruct (ins trie_empty s x) as [[old n']|]; simpl; [|done]. by rewrite list_insert_insert_eq.
  - rewrite (bool_decide_true (idx c < length next)), orb_true_r by lia.
    assert (u = true) as -> by (apply Hu; intros ->; simpl in Hl; lia).
    destruct (lookup_lt_is_Some_2 next (idx c)) as [[n|] E]; [lia|..]; rewrite E; simpl.
    + rewrite E. by destruct (ins n s x) as [[old n']|].
    + rewrite list_lookup_insert_eq by lia.
      destruct (ins trie_empty s x) as [[old n']|]; simpl; [|done].
      by rewrite list_insert_insert_eq.
Qed.

Lemma set_child_ne next c n' : set_child next c n' ≠ [].
Proof.
  intros E. pose proof (set_child_lookup next c n' (idx c)) as L.
  rewrite decide_True in L by done. by rewrite E in L.
Qed.

Definition below_plain (next : list (option trie)) : Prop := ∀ i n, next !! i = Some (Some n) → plain n.

Lemma plain_empty : plain trie_empty.
Proof. by constructor. Qed.
Lemma child_plain next c : below_plain next → plain (child next c).
Proof. intros W. unfold child. repeat case_match; eauto using plain_empty. Qed.
Lemma set_child_plain next c n' : below_plain next → plain n' → below_plain (set_child next c n').
Proof.
  intros W Wn i n. rewrite set_child_lookup. repeat case_decide; [naive_solver| |apply W].
  intros E%resize_slot. eauto.
Qed.

(** A string inserted below a node, or the out-of-bounds access. *)
Lemma insert_next_spec ins u next c s x :
  (u = true ↔ next ≠ []) → below_wf next →
  inserts (child next c) s x (ins (child next c) s x) →
  (∃ next', insert_next ins u next (String c s) x
             = Ok (get_next get next (String c s), true, next') ∧
    next' ≠ [] ∧ below_wf next' ∧ (below_plain next → plain_name (String c s) = true → below_plain next') ∧
    ∀ c' s', get_next get next' (String c' s') =
      if decide (String c s = String c' s') then x else get_next get next (String c' s')) ∨
  (insert_next ins u next (String c s) x = Err (Undefined OutOfBounds) ∧
   ¬ (below_plain next ∧ plain_name (String c s) = true)).
Proof.
  intros Hu W Hi. rewrite insert_next_eq by done. destruct (reachable next c) eqn:Hr.
  2:{ right. split; [done|]. unfold reachable in Hr. apply orb_false_iff in Hr as [Hr _]. simpl. rewrite Hr. by intros [_ ?]. }
  destruct Hi as [(n' & -> & Wn & Hp & G)|[-> Hn]].
  - left. exists (set_child next c n'). split_and!.
    + by rewrite <-get_next_child.
    + apply set_child_ne.
    + by apply set_child_wf.
    + intros Hb [_ Hs]%andb_true_iff. apply set_child_plain, Hp; [done|by apply child_plain|done].
    + intros c' s'. rewrite !get_next_child, child_set_child.
      clear Hu. repeat case_decide; rewrite ?G; repeat case_decide; naive_solver.
  - right. split; [done|]. intros [Hb [_ Hs]%andb_true_iff]. apply Hn. split; [by apply child_plain|done].
Qed.

(** ** An insertion binds its name and nothing else *)

Lemma inserts_empty fuel s x : 0 < fuel → inserts trie_empty s x (insert_fuel fuel trie_empty s x).
Proof.
  intros Hf. destruct fuel as [|fuel]; [lia|]. rewrite insert_fuel_empty. left. eexists. rewrite get_empty.
  split; [done|]. split; [apply wf_leaf|]. split; [|intros s'; by rewrite get_leaf, get_empty].
  intros _ Hs. constructor; [by intros ? [= <-]|by intros i n].
Qed.

(** A string that has to make room: its node had no children, so it becomes the
    only string below. *)
Lemma push_down fuel c s d :
  0 < fuel →
  (∃ next', insert_next (insert_fuel fuel) false [] (String c s) d = Ok (dflt, true, next') ∧
    next' ≠ [] ∧ below_wf next' ∧ (plain_name (String c s) = true → below_plain next') ∧
    ∀ c' s', get_next get next' (String c' s') = if decide (String c s = String c' s') then d else dflt) ∨
  (insert_next (insert_fuel fuel) false [] (String c s) d = Err (Undefined OutOfBounds) ∧ plain_name (String c s) = false).
Proof.
  intros Hf. assert (below_plain []) as Hp by (by intros i n). assert (below_wf []) as Hw by (by intros i n).
  destruct (insert_next_spec (insert_fuel fuel) false [] c s d) as [(next' & E & Hn & W & P & G)|[E Hn]]; [by split|done|by apply inserts_empty|left|right].
  - exists next'. split; [by rewrite E|]. split_and!; [done..|by apply P|]. intros c' s'. by rewrite G.
  - split; [done|]. destruct (plain_name _); [|done]. by destruct Hn.
Qed.

Lemma insert_below fuel str d next c s x :
  (∀ t s x, wf t → String.length s + 2 ≤ fuel → inserts t s x (insert_fuel fuel t s x)) →
  no_str str = true → (str = None → d = dflt) → next ≠ [] → below_wf next →
  String.length s + 2 ≤ fuel →
  (∃ next', insert_next (insert_fuel fuel) true next (String c s) x
             = Ok (get (Trie str d true next) (String c s), true, next') ∧
    wf (Trie str d true next') ∧ (below_plain next → plain_name (String c s) = true → below_plain next') ∧
    ∀ s', get (Trie str d true next') s' =
      if decide (String c s = s') then x else get (Trie str d true next) s') ∨
  (insert_next (insert_fuel fuel) true next (String c s) x = Err (Undefined OutOfBounds) ∧
   ¬ (below_plain next ∧ plain_name (String c s) = true)).
Proof.
  intros IH Hs Hd Hn W Hf.
  destruct (insert_next_spec (insert_fuel fuel) true next c s x) as [(next' & E & Hn' & W' & P & G)|Hno];
    [done..|by apply IH; [apply child_wf|]|left|by right].
  exists next'. split_and!.
  - by rewrite get_below.
  - constructor; [by split|done..].
  - done.
  - intros [|c' s']; [by rewrite !get_here, decide_False by done|].
    by rewrite !get_below, G by done.
Qed.

(** The node after a string was pushed into a childless node. *)
Lemma get_node_pushed str x next c s d s' :
  no_str str = true →
  (∀ c' s', get_next get next (String c' s') = if decide (String c s = String c' s') then d else dflt) →
  get (Trie str x true next) s' =
    match s' with
    | EmptyString => x
    | _ => if decide (String c s = s') then d else dflt
    end.
Proof. intros Hs G. destruct s' as [|c' s']; [by apply get_here|]. by rewrite get_below, G. Qed.

(** The empty string takes the place of [str] in a node. *)
Lemma insert_here str d u next x s' :
  no_str str = true →
  get (Trie (Some EmptyString) x u next) s' =
    if decide (EmptyString = s') then x else get (Trie str d u next) s'.
Proof.
  intros Hs. destruct s' as [|c' s']; [by rewrite decide_True, get_here|].
  rewrite decide_False by done. destruct u; [by rewrite !get_below|].
  destruct str as [[|? ?]|]; done.
Qed.

Lemma plain_parts str d u next : plain (Trie str d u next) → (∀ s, str = Some s → plain_name s = true) ∧ below_plain next.
Proof. by inversion 1. Qed.
Lemma plain_one str d u next : (∀ s, str = Some s → plain_name s = true) → below_plain next → plain (Trie str d u next).
Proof. by constructor. Qed.

(** Insertions in a childless node with a string of its own: it is pushed down first. *)
Section pushing.
Context (fuel : nat) (c0 : Ascii.ascii) (s0 : string) (d : V).
Context (IH : ∀ t s x, wf t → String.length s + 2 ≤ fuel → inserts t s x (insert_fuel fuel t s x)).

Lemma insert_empty_pushing x : 0 < fuel →
  inserts (Trie (Some (String c0 s0)) d false []) EmptyString x
    (insert_fuel (S fuel) (Trie (Some (String c0 s0)) d false []) EmptyString x).
Proof using Type.
  intros Hf. cbn [insert_fuel is_empty]. destruct (push_down fuel c0 s0 d Hf) as [(next' & -> & Hn & W & P & G)|[-> Hn]]; [left|right].
  - eexists. split; [done|]. split; [constructor; [by split|done..]|]. split.
    + intros [Hs _]%plain_parts _. apply plain_one; [by intros ? [= <-]|]. apply P, (Hs _ eq_refl).
    + intros s'. rewrite (get_node_pushed _ _ _ c0 s0 d), get_leaf by done. destruct s'; repeat case_decide; congruence.
  - split; [done|]. intros [[Hs _]%plain_parts _]. by rewrite (Hs _ eq_refl) in Hn.
Qed.

Lemma insert_other_pushing c s x : String.length s + 2 ≤ fuel →
  inserts (Trie (Some (String c0 s0)) d false []) (String c s) x
    (insert_fuel (S fuel) (Trie (Some (String c0 s0)) d false []) (String c s) x).
Proof using IH.
  intros Hf. cbn [insert_fuel is_empty]. destruct (push_down fuel c0 s0 d) as [(next & -> & Hn & W & P & G)|[-> Hn]]; [lia|..].
  2:{ right. split; [done|]. intros [[Hs _]%plain_parts _]. by rewrite (Hs _ eq_refl) in Hn. }
  destruct (insert_below fuel None dflt next c s x) as [(next' & -> & W' & P' & G')|[-> Hn']]; [done..|left|right].
  - eexists. rewrite (get_node_pushed _ _ _ c0 s0 d), get_leaf by done. split; [done|]. split; [done|]. split.
    + intros [Hs _]%plain_parts Hc. apply plain_one; [done|]. apply P'; [by apply P, (Hs _ eq_refl)|done].
    + intros s'. rewrite G', (get_node_pushed _ _ _ c0 s0 d), get_leaf by done. destruct s'; repeat case_decide; congruence.
  - split; [done|]. intros [[Hs _]%plain_parts Hc]. apply Hn'. split; [by apply P, (Hs _ eq_refl)|done].
Qed.
End pushing.

(** Insertions of a non-empty string in a node without one. *)
Lemma insert_in_children fuel str d u next c s x :
  (∀ t s x, wf t → String.length s + 2 ≤ fuel → inserts t s x (insert_fuel fuel t s x)) →
  no_str str = true → (str = None → d = dflt) → (u = true ↔ next ≠ []) → below_wf next → String.length s + 2 ≤ fuel →
  inserts (Trie str d u next) (String c s) x
    match insert_next (insert_fuel fuel) u next (String c s) x with
    | Ok (old, using_next, next) => Ok (old, Trie str d using_next next)
    | Err e => Err e
    end.
Proof.
  intros IH Hs Hd Hu W Hf. assert (∀ s0, str = Some s0 → plain_name s0 = true) as Hstr by (intros [|? ?] ->; done). destruct u.
  - destruct (insert_below fuel str d next c s x) as [(next' & -> & W' & P' & G')|[-> Hn']]; [done..|by apply Hu|done|done|left|right].
    + eexists. split; [done|]. split; [done|]. split; [|done]. intros Hb Hc. apply plain_parts in Hb as [_ Hb]. apply plain_one; [done|by apply P'].
    + split; [done|]. intros [Hb Hc]. apply plain_parts in Hb as [_ Hb]. by apply Hn'.
  - assert (next = []) as -> by (destruct next; [done|]; by discriminate (proj2 Hu)).
    assert (∀ s', get (Trie str d false []) s' = match s' with EmptyString => d | _ => dflt end) as E0.
    { intros [|c' s']; [by apply get_here|]. destruct str as [[|? ?]|]; done. }
    destruct (push_down fuel c s x) as [(next' & -> & Hn & W' & P & G)|[-> Hn]]; [lia|left|right].
    + eexists. rewrite E0. split; [done|]. split; [constructor; [by split|done..]|]. split.
      * intros _ Hc. apply plain_one; [done|by apply P].
      * intros s'. rewrite (get_node_pushed _ _ _ c s x), E0 by done. destruct s'; repeat case_decide; congruence.
    + split; [done|]. intros [_ Hc]. congruence.
Qed.

Lemma insert_fuel_spec fuel t s x :
  wf t → String.length s + 2 ≤ fuel → inserts t s x (insert_fuel fuel t s x).
Proof.
  revert t s x. induction fuel as [|fuel IH]; intros t s x Wt Hf; [lia|].
  destruct Wt as [str d u next Hu Hstr Hd W].
  assert (no_str str = false → u = false ∧ next = []) as Hchild.
  { intros E. destruct u; [by rewrite Hstr in E|]. split; [done|]. destruct next; [done|]. by discriminate (proj2 Hu). }
  destruct s as [|c s]; simpl in Hf.
  - destruct str as [[|c0 s0]|]; [|by destruct (Hchild eq_refl) as [-> ->]; apply insert_empty_pushing; lia|]; cbn [insert_fuel is_empty].
    + left. eexists. split; [done|split; [by constructor|]]. split; [|intros s'; by apply insert_here].
      intros [? ?]%plain_parts _. by apply plain_one.
    + rewrite Hd by done. left. eexists. split; [done|split; [by constructor|]]. split; [|intros s'; by apply insert_here].
      intros [? ?]%plain_parts _. apply plain_one; [by intros ? [= <-]|done].
  - destruct str as [[|c0 s0]|]; [|by destruct (Hchild eq_refl) as [-> ->]; apply insert_other_pushing; [done|lia]|].
    + cbn [insert_fuel is_empty]. apply insert_in_children; (done || lia).
    + destruct u.
      * cbn [insert_fuel is_empty]. apply insert_in_children; (done || lia).
      * assert (next = []) as -> by (destruct next; [done|]; by discriminate (proj2 Hu)). rewrite (Hd eq_refl).
        replace (insert_fuel (S fuel) (Trie None dflt false []) (String c s) x) with (insert_fuel (S fuel) trie_empty (String c s) x) by done.
        apply inserts_empty. lia.
Qed.

Lemma insert_spec t s x : wf t → inserts t s x (insert t s x).
Proof. intros Wt. apply insert_fuel_spec; [done|lia]. Qed.

#[global] Instance trie_symtab : SymTab trie V := {|
  st_wf := wf;
  st_name := plain_name;
  st_plain := plain;
  st_empty := trie_empty;
  st_get := get;
  st_insert := insert
|}.

#[global] Instance trie_symtab_laws : SymTabLaws trie V.
Proof.
  split; simpl.
  - apply wf_empty.
  - apply plain_empty.
  - apply get_empty.
  - intros t s x old t' W E. destruct (insert_spec t s x W) as [(t1 & E' & W' & _ & G)|[E' _]]; rewrite E in E'; [|done].
    by injection E' as -> ->.
  - intros t s x W P Hs. destruct (insert_spec t s x W) as [(t1 & E' & W' & P' & G)|[_ Hn]]; [|by destruct Hn].
    exists (get t s), t1. by split; [|apply P'].
Qed.
End trie.
Arguments trie : clear implicits.

(** ** Properties *)

(** The steps of [unit_test_trie] in trie.cpp. *)
Definition unit_test_trie : result (list N * trie N) :=
  run_ops trie_empty [OpInsert "a" 1%N; OpInsert "b" 2%N; OpInsert "abc" 3%N; OpInsert "b" 0%N; OpGet "a"; OpGet "b"; OpGet "abc"].

(** On a well-formed trie, [insert] returns the value the name had, keeps
    the trie well formed, binds the name to the new value and leaves every
    other name as it was; or it indexes [next] out of its bounds, which takes a
    byte 0xFF in the name or in one that the trie holds. *)
Theorem trie_insert_correct {V} `{Default V} (t : trie V) (s : string) (x : V) :
  wf t →
  (∃ t', insert t s x = Ok (get t s, t') ∧ wf t' ∧ ∀ s', get t' s' = if decide (s = s') then x else get t s') ∨
  (insert t s x = Err (Undefined OutOfBounds) ∧ ¬ (plain t ∧ plain_name s = true)).
Proof. intros W. destruct (insert_spec t s x W) as [(t' & E & W' & _ & G)|?]; [left; by exists t'|by right]. Qed.

Lemma trie_insert_correct_witness :
  let t : trie N := Trie (Some "clause") 7%N false [] in
  (∃ t', insert t "cln" 8%N = Ok (get t "cln", t') ∧ wf t' ∧ ∀ s', get t' s' = if decide ("cln"%string = s') then 8%N else get t s') ∨
  (insert t "cln" 8%N = Err (Undefined OutOfBounds) ∧ ¬ (plain t ∧ plain_name "cln" = true)).
Proof. exact (trie_insert_correct (Trie (Some "clause"%string) 7%N false []) "cln" 8%N (wf_leaf _ _)). Defined.

(** The names a client inserts. *)
Definition inserted_names {V} (ops : list (st_op V)) : list string :=
  ops ≫= λ o, match o with OpInsert s _ => [s] | OpGet _ => [] end.

Lemma run_ops_trie {V} `{Default V} (ops : list (st_op V)) : ∀ t : trie V, wf t →
  (∃ r, run_ops t ops = Ok r) ∨
  (run_ops t ops = Err (Undefined OutOfBounds) ∧ (plain t → ∃ s, s ∈ inserted_names ops ∧ plain_name s = false)).
Proof.
  induction ops as [|[s x|s] ops IH]; intros t W; simpl; [by left; eexists|..].
  - destruct (insert_spec t s x W) as [(t' & -> & W' & P' & _)|[-> Hn]].
    + destruct (IH t' W') as [[[outs t2] ->]|[-> Hs]]; [left; by eexists|right]. split; [done|]. intros Hp.
      destruct (plain_name s) eqn:E; [|by exists s; split; [left|]]. destruct (Hs (P' Hp eq_refl)) as (s' & ? & ?). exists s'. split; [by right|done].
    + right. split; [done|]. intros Hp. exists s. split; [left|]. destruct (plain_name s); [|done]. by destruct Hn.
  - destruct (IH t W) as [[[outs t2] ->]|[-> Hs]]; [left; by eexists|by right].
Qed.

(** C31: refinement.  A sequence of insertions and lookups, started on an empty
    trie, gives what it gives on the finite map of the hash-map build; or it ends
    with an access out of the bounds of [next], which happens only if one of the
    inserted names has a byte 0xFF. *)
Theorem trie_refines_map {V} `{Default V} (ops : list (st_op V)) :
  (∃ outs t m, run_ops (trie_empty : trie V) ops = Ok (outs, t) ∧ run_ops (∅ : gmap string V) ops = Ok (outs, m)) ∨
  (run_ops (trie_empty : trie V) ops = Err (Undefined OutOfBounds) ∧ ∃ s, s ∈ inserted_names ops ∧ plain_name s = false).
Proof.
  assert (∀ m : gmap string V, ∃ r, run_ops m ops = Ok r) as Hmap.
  { induction ops as [|[s x|s] ops IH]; intros m; simpl; [by eexists|..].
    - destruct (IH (<[s:=x]> m)) as [[outs m'] ->]. by eexists.
    - destruct (IH m) as [[outs m'] ->]. by eexists. }
  destruct (Hmap ∅) as [[outs' m] Em]. destruct (run_ops_trie ops trie_empty wf_empty) as [[[outs t] Et]|[Et Hs]].
  - left. exists outs, t, m. split; [done|]. rewrite Em. do 2 f_equal. symmetry.
    eapply (run_ops_refines ops (trie_empty : trie V) (∅ : gmap string V)); [apply wf_empty|done|intros s; apply get_empty|done..].
  - right. split; [done|]. by apply Hs, plain_empty.
Qed.

(** C39: the byte 0xFF breaks the trie.  Once a name that starts with it is in an
    empty trie, the next insertion, of whatever name, makes room for it in [next]:
    the size [c+1] wraps around to 0 and the entry [c] is written and read
    outside of the vector. *)
Theorem trie_top_byte_out_of_bounds {V} `{Default V} (c : Ascii.ascii) (s s' : string) (x y : V) :
  char_unsigned c = (2 ^ 32 - 1)%Z →
  ∃ t, insert (trie_empty : trie V) (String c s) x = Ok (dflt, t) ∧ insert t s' y = Err (Undefined OutOfBounds).
Proof.
  intros Hc. eexists. split; [by apply insert_fuel_empty|]. unfold insert.
  assert (∀ f, insert_next (insert_fuel f) false [] (String c s) x = Err (Undefined OutOfBounds)) as Hn.
  { intros f. rewrite insert_next_eq by (by split). unfold reachable. by rewrite (proj2 (Z.eqb_eq _ _) Hc). }
  generalize (S (String.length s')). intros f. specialize (Hn f). destruct s'; simpl in *; by rewrite Hn.
Qed.

Lemma trie_top_byte_out_of_bounds_witness :
  let c := Ascii.ascii_of_nat 255 in
  ∃ t, insert (trie_empty : trie N) (String c "x") 1%N = Ok (0%N, t) ∧ insert t "a" 2%N = Err (Undefined OutOfBounds).
Proof. exact (trie_top_byte_out_of_bounds (Ascii.ascii_of_nat 255) "x" "a" 1%N 2%N eq_refl). Defined.

(** A negative [char] (a byte of 0x80 or more) is sign-extended before it
    indexes [next]: the first insertion that has to branch on it asks for a
    vector of at least 2^32 - 128 slots. *)
Theorem trie_non_ascii_slots {V} `{Default V} (ins : trie V → string → V → result (V * trie V))
    (c : Ascii.ascii) (s : string) (x : V) old u next :
  (char_val c < 0)%Z →
  insert_next ins false [] (String c s) x = Ok (old, u, next) →
  (2 ^ 32 - 128 ≤ Z.of_nat (length next))%Z.
Proof.
  intros Hc E. rewrite insert_next_eq in E by by split. destruct (reachable [] c); [|done].
  destruct (ins (child [] c) s x) as [[? n']|]; [|done]. injection E as _ _ <-.
  unfold set_child. rewrite decide_True by (simpl; lia). rewrite length_insert, length_resize.
  pose proof (char_val_range c). unfold idx, char_unsigned.
  rewrite <-(Z_mod_plus_full _ 1), Z.mod_small by lia. lia.
Qed.

Lemma trie_non_ascii_slots_witness :
  let c := Ascii.ascii_of_nat 195 in
  (char_val c < 0)%Z ∧
  ∃ next, insert_next (insert_fuel 1) false [] (String c "x") 5%N = Ok (0%N, true, next) ∧
    (2 ^ 32 - 128 ≤ Z.of_nat (length next))%Z.
Proof.
  split; [reflexivity|].
  assert (E : insert_next (insert_fuel 1) false [] (String (Ascii.ascii_of_nat 195) "x") 5%N
    = Ok (dflt, true, set_child [] (Ascii.ascii_of_nat 195) (Trie (Some "x"%string) 5%N false []))).
  { rewrite insert_next_eq by (by split). unfold reachable. rewrite (bool_decide_false (idx _ < _)) by (simpl; lia). reflexivity. }
  eexists. split; [exact E|].
  apply (trie_non_ascii_slots (insert_fuel 1) (Ascii.ascii_of_nat 195) "x" 5%N _ _ _
    (eq_refl : (char_val (Ascii.ascii_of_nat 195) < 0)%Z) E).
Defined.
