(* ===== verification/Header.v ===== *)
(** * The header word of an expression (expr.h)

    Every [Expr] starts with one 32-bit [int data]: bits 0-2 the class, bits 3-7
    the operator, bit 8 a flag, bits 9-31 the reference count.  The file models
    the word and its accessors, gives the record of fields it stands for, and
    shows that each accessor does to the word what it should do to the fields. *)

From stdpp Require Import base tactics list numbers.
From S2P Require Import Prelude.

Local Open Scope Z_scope.

(** The two enumerations, in the order of expr.h. *)
Inductive eclass := CEXPR | INT_EXPR | RAT_EXPR | HOLE_EXPR | SYM_EXPR | SYMS_EXPR.

Inductive op :=
  | NOT_CEXPR | APP | PI | LAM | TYPE | KIND | ASCRIBE | MPZ | MPQ
  | PROG | PROGVARS | MATCH | CASE | PAT | DO | ADD | MUL | DIV | NEG | IFNEG
  | IFZERO | LET | RUN | FAIL | MARKVAR | IFMARKED | COMPARE.

#[global] Instance eclass_eq_dec : EqDecision eclass.
Proof. solve_decision. Defined.
#[global] Instance op_eq_dec : EqDecision op.
Proof. solve_decision. Defined.

Definition class_code (c : eclass) : Z :=
  match c with
  | CEXPR => 0 | INT_EXPR => 1 | RAT_EXPR => 2 | HOLE_EXPR => 3 | SYM_EXPR => 4 | SYMS_EXPR => 5
  end.

Definition op_code (o : op) : Z :=
  match o with
  | NOT_CEXPR => 0 | APP => 1 | PI => 2 | LAM => 3 | TYPE => 4 | KIND => 5 | ASCRIBE => 6
  | MPZ => 7 | MPQ => 8 | PROG => 9 | PROGVARS => 10 | MATCH => 11 | CASE => 12 | PAT => 13
  | DO => 14 | ADD => 15 | MUL => 16 | DIV => 17 | NEG => 18 | IFNEG => 19 | IFZERO => 20
  | LET => 21 | RUN => 22 | FAIL => 23 | MARKVAR => 24 | IFMARKED => 25 | COMPARE => 26
  end.

(** ** The word and its accessors *)

(** [Expr(_class, _op) : data(1 << 9 | (_op << 3) | _class)] *)
Definition mk_data (cls : eclass) (o : op) : Z :=
  Z.lor (Z.lor (Z.shiftl 1 9) (Z.shiftl (op_code o) 3)) (class_code cls).

Definition getclass_w (data : Z) : Z := Z.land data 7.
Definition getop_w (data : Z) : Z := Z.land (Z.shiftr data 3) 31.
Definition getexmark_w (data : Z) : Z := Z.land data 256.
Definition setexmark_w (data : Z) : Z := Z.lor data 256.
Definition clearexmark_w (data : Z) : Z := Z.land data (Z.lnot 256).
Definition getrefcnt_w (data : Z) : Z := Z.shiftr data 9.

Definition max_refcnt : Z := 4194303.

Definition inc_ref (ref : Z) : Z := if ref <? max_refcnt then ref + 1 else ref.

(** [inc()]: the count stays where it is once it is [max_refcnt]. *)
Definition inc_w (data : Z) : Z :=
  Z.lor (Z.shiftl (inc_ref (getrefcnt_w data)) 9) (Z.land data 511).

(** [dec()]: [None] when the count reaches zero and the object is destroyed. *)
Definition dec_w (data : Z) : option Z :=
  let ref := getrefcnt_w data - 1 in
  if ref =? 0 then None else Some (Z.lor (Z.shiftl ref 9) (Z.land data 511)).

(** ** The fields *)
Record fields := Fields { f_class : eclass; f_op : op; f_mark : bool; f_ref : Z }.

Definition pack (f : fields) : Z :=
  f_ref f * 512 + (if f_mark f then 256 else 0) + op_code (f_op f) * 8 + class_code (f_class f).

(** The counts a word can hold. *)
Definition ref_ok (r : Z) : Prop := 0 ≤ r ≤ max_refcnt.

Lemma op_code_range o : 0 ≤ op_code o < 32.
Proof. destruct o; simpl; lia. Qed.
Lemma class_code_range c : 0 ≤ class_code c < 8.
Proof. destruct c; simpl; lia. Qed.
Lemma op_code_inj o o' : op_code o = op_code o' → o = o'.
Proof. by destruct o, o'. Qed.
Lemma class_code_inj c c' : class_code c = class_code c' → c = c'.
Proof. by destruct c, c'. Qed.

(** Disjoint bits: or is addition. *)
Lemma lor_shiftl_add a b k : 0 ≤ k → 0 ≤ b < 2 ^ k → Z.lor (Z.shiftl a k) b = a * 2 ^ k + b.
Proof.
  intros Hk Hb. rewrite <-Z.shiftl_mul_pow2 by done. symmetry.
  rewrite Z.add_nocarry_lxor, Z.lxor_lor; [done|..];
    apply Z.bits_inj'; intros n Hn; rewrite Z.land_spec, Z.bits_0, Z.shiftl_spec by done;
    (destruct (Z.lt_ge_cases n k) as [?|?];
      [by rewrite Z.testbit_neg_r by lia
      |rewrite <-(Z.mod_small b (2 ^ k)), Z.mod_pow2_bits_high by lia; apply andb_false_r]).
Qed.

Lemma land_mod a k : 0 ≤ k → Z.land a (Z.ones k) = a `mod` 2 ^ k.
Proof. apply Z.land_ones. Qed.

(** A word as the sum of its parts. *)
Lemma word_parts r m o c :
  0 ≤ m ≤ 1 → 0 ≤ o < 32 → 0 ≤ c < 8 →
  let d := r * 512 + m * 256 + o * 8 + c in
  Z.land d 7 = c ∧ Z.land (Z.shiftr d 3) 31 = o ∧ Z.land d 511 = m * 256 + o * 8 + c ∧
  Z.shiftr d 9 = r.
Proof.
  intros Hm Ho Hc d. subst d.
  change 7 with (Z.ones 3). change 31 with (Z.ones 5). change 511 with (Z.ones 9).
  rewrite !land_mod, !Z.shiftr_div_pow2 by done.
  change (2 ^ 3) with 8. change (2 ^ 5) with 32. change (2 ^ 9) with 512.
  split_and!; Z.div_mod_to_equations; lia.
Qed.

Lemma mark_bit (m : bool) : (if m then 256 else 0) = (if m then 1 else 0) * 256.
Proof. by destruct m. Qed.

Lemma pack_parts f :
  let d := pack f in
  getclass_w d = class_code (f_class f) ∧ getop_w d = op_code (f_op f) ∧
  Z.land d 511 = (if f_mark f then 256 else 0) + op_code (f_op f) * 8 + class_code (f_class f) ∧
  getrefcnt_w d = f_ref f.
Proof.
  unfold pack, getclass_w, getop_w, getrefcnt_w. rewrite mark_bit.
  apply word_parts; [by destruct (f_mark f)|apply op_code_range|apply class_code_range].
Qed.

Lemma repack r f :
  Z.lor (Z.shiftl r 9) (Z.land (pack f) 511)
    = pack (Fields (f_class f) (f_op f) (f_mark f) r).
Proof.
  destruct (pack_parts f) as (_ & _ & -> & _).
  pose proof (op_code_range (f_op f)). pose proof (class_code_range (f_class f)).
  rewrite lor_shiftl_add; [unfold pack; simpl; lia|done|].
  change (2 ^ 9) with 512. destruct (f_mark f); lia.
Qed.

Definition with_ref (f : fields) (r : Z) : fields := Fields (f_class f) (f_op f) (f_mark f) r.
Definition with_mark (f : fields) (m : bool) : fields := Fields (f_class f) (f_op f) m (f_ref f).

Lemma inc_w_pack f : inc_w (pack f) = pack (with_ref f (inc_ref (f_ref f))).
Proof. unfold inc_w. destruct (pack_parts f) as (_ & _ & _ & ->). apply repack. Qed.

Lemma dec_w_pack f :
  dec_w (pack f) = if f_ref f =? 1 then None else Some (pack (with_ref f (f_ref f - 1))).
Proof.
  unfold dec_w. destruct (pack_parts f) as (_ & _ & _ & ->). rewrite repack.
  destruct (Z.eqb_spec (f_ref f - 1) 0), (Z.eqb_spec (f_ref f) 1); naive_solver lia.
Qed.

Lemma pack_mark_bit f : Z.testbit (pack f) 8 = f_mark f.
Proof.
  pose proof (op_code_range (f_op f)). pose proof (class_code_range (f_class f)).
  rewrite Z.testbit_odd, Z.shiftr_div_pow2 by done. change (2 ^ 8) with 256. unfold pack.
  replace ((f_ref f * 512 + (if f_mark f then 256 else 0) + op_code (f_op f) * 8
    + class_code (f_class f)) / 256) with (2 * f_ref f + (if f_mark f then 1 else 0)).
  2: { destruct (f_mark f); Z.div_mod_to_equations; lia. }
  rewrite Z.add_comm, Z.odd_add_mul_2. by destruct (f_mark f).
Qed.

Lemma getexmark_w_pack f : getexmark_w (pack f) = if f_mark f then 256 else 0.
Proof.
  unfold getexmark_w. change 256 with (2 ^ 8). apply Z.bits_inj'. intros n Hn.
  rewrite Z.land_spec, Z.pow2_bits_eqb by done. destruct (Z.eqb_spec 8 n) as [<-|Hne].
  - rewrite pack_mark_bit. by destruct (f_mark f).
  - rewrite andb_false_r. destruct (f_mark f); [|by rewrite Z.bits_0].
    by rewrite Z.pow2_bits_false.
Qed.

Lemma setexmark_w_pack f : setexmark_w (pack f) = pack (with_mark f true).
Proof.
  unfold setexmark_w. pose proof (getexmark_w_pack f) as G. unfold getexmark_w in G.
  destruct (f_mark f) eqn:E.
  - destruct f; simpl in *; subst. unfold with_mark; simpl.
    apply Z.bits_inj'. intros n Hn. rewrite Z.lor_spec.
    destruct (Z.eqb_spec n 8) as [->|Hne]; [by rewrite pack_mark_bit|].
    change 256 with (2 ^ 8). rewrite (Z.pow2_bits_false 8 n) by lia. by rewrite orb_false_r.
  - rewrite <-Z.lxor_lor, <-Z.add_nocarry_lxor by done.
    destruct f; simpl in *; subst. unfold pack; simpl. lia.
Qed.

Lemma clearexmark_w_pack f : clearexmark_w (pack f) = pack (with_mark f false).
Proof.
  unfold clearexmark_w. rewrite <-Z.ldiff_land. pose proof (getexmark_w_pack f) as G.
  unfold getexmark_w in G. destruct (f_mark f) eqn:E.
  - rewrite <-Z.sub_nocarry_ldiff.
    + destruct f; simpl in *; subst. unfold pack; simpl. lia.
    + apply Z.bits_inj'. intros n Hn. rewrite Z.ldiff_spec, Z.bits_0.
      change 256 with (2 ^ 8). rewrite Z.pow2_bits_eqb by done.
      destruct (Z.eqb_spec 8 n) as [<-|?]; [by rewrite pack_mark_bit, E|done].
  - apply Z.bits_inj'. intros n Hn. rewrite Z.ldiff_spec. change 256 with (2 ^ 8).
    rewrite Z.pow2_bits_eqb by done.
    replace (pack (with_mark f false)) with (pack f) by (destruct f; simpl in *; by subst).
    destruct (Z.eqb_spec 8 n) as [<-|?]; [by rewrite !pack_mark_bit, E|apply andb_true_r].
Qed.

Lemma mk_data_pack c o : mk_data c o = pack (Fields c o false 1).
Proof. by destruct c, o. Qed.

Lemma inc_ref_ok r : ref_ok r → ref_ok (inc_ref r).
Proof. unfold ref_ok, inc_ref. destruct (Z.ltb_spec r max_refcnt); lia. Qed.

Lemma pack_range f : ref_ok (f_ref f) → 0 ≤ pack f < 2 ^ 31.
Proof.
  unfold ref_ok, max_refcnt, pack. pose proof (op_code_range (f_op f)).
  pose proof (class_code_range (f_class f)). intros ?. change (2 ^ 31) with 2147483648.
  destruct (f_mark f); lia.
Qed.

(** ** Saturation *)

Fixpoint incs (k : nat) (data : Z) : Z :=
  match k with O => data | S k => incs k (inc_w data) end.

Fixpoint decs (k : nat) (data : Z) : option Z :=
  match k with O => Some data | S k => data ← dec_w data; decs k data end.

Lemma incs_pack k f :
  ref_ok (f_ref f) →
  incs k (pack f) = pack (with_ref f (Z.min (f_ref f + Z.of_nat k) max_refcnt)).
Proof.
  revert f. induction k as [|k IH]; intros f Hr; simpl.
  - destruct f; unfold with_ref, ref_ok in *; simpl in *. f_equal; f_equal; lia.
  - rewrite inc_w_pack, IH by by apply inc_ref_ok. destruct f as [c o m r]. unfold with_ref, ref_ok in *. simpl in *.
    unfold inc_ref. destruct (Z.ltb_spec r max_refcnt); f_equal; f_equal; lia.
Qed.

(** As many [dec] calls as the count says destroy the object. *)
Lemma decs_all n f : f_ref f = Z.of_nat (S n) → decs (S n) (pack f) = None.
Proof.
  revert f. induction n as [|n IH]; intros f Hf; cbn [decs]; rewrite dec_w_pack.
  - by rewrite (proj2 (Z.eqb_eq _ _)).
  - rewrite (proj2 (Z.eqb_neq _ _)) by lia. cbn [mbind option_bind]. apply IH. simpl. lia.
Qed.

(** ** Properties *)

(** C34: refinement of the packed word.  A constructor builds the word of the
    given class and operator with one reference, and every accessor and update
    of [data] acts on the packed word as it acts on the fields. *)
Theorem header_word_refines (f : fields) (c : eclass) (o : op) :
  mk_data c o = pack (Fields c o false 1) ∧
  getclass_w (pack f) = class_code (f_class f) ∧
  getop_w (pack f) = op_code (f_op f) ∧
  getexmark_w (pack f) = (if f_mark f then 256 else 0) ∧
  getrefcnt_w (pack f) = f_ref f ∧
  setexmark_w (pack f) = pack (with_mark f true) ∧
  clearexmark_w (pack f) = pack (with_mark f false) ∧
  inc_w (pack f) = pack (with_ref f (inc_ref (f_ref f))) ∧
  dec_w (pack f) = (if f_ref f =? 1 then None else Some (pack (with_ref f (f_ref f - 1)))).
Proof.
  destruct (pack_parts f) as (? & ? & _ & ?).
  split_and!; auto using mk_data_pack, getexmark_w_pack, setexmark_w_pack, clearexmark_w_pack,
    inc_w_pack, dec_w_pack.
Qed.

(** No sequence of [inc] calls overflows the 32-bit word, whatever the
    number of references taken. *)
Theorem inc_never_overflows (f : fields) (k : nat) :
  ref_ok (f_ref f) → 0 ≤ incs k (pack f) < 2 ^ 31.
Proof.
  intros Hr. rewrite incs_pack by done. apply pack_range. unfold ref_ok in *. simpl.
  unfold max_refcnt in *. lia.
Qed.

Lemma inc_never_overflows_witness :
  ref_ok (f_ref (Fields SYMS_EXPR NOT_CEXPR true 4194302)) ∧
  0 ≤ incs 5 (pack (Fields SYMS_EXPR NOT_CEXPR true 4194302)) < 2 ^ 31.
Proof.
  assert (H : ref_ok (f_ref (Fields SYMS_EXPR NOT_CEXPR true 4194302))) by (split; unfold max_refcnt; simpl; lia).
  split; [exact H|]. exact (inc_never_overflows _ 5 H).
Defined.

(** The count saturates but does not stick.  A new object to which [k]
    further references are taken, with [k] at least [max_refcnt], is destroyed
    by the [max_refcnt]-th [dec], while [k + 1 - max_refcnt] of its references
    are still held. *)
Theorem saturated_count_frees_early (c : eclass) (o : op) (k : nat) :
  max_refcnt ≤ Z.of_nat k →
  decs (Z.to_nat max_refcnt) (incs k (mk_data c o)) = None ∧
  0 < Z.of_nat k + 1 - max_refcnt.
Proof.
  intros Hk. split; [|unfold max_refcnt in *; lia].
  rewrite mk_data_pack, incs_pack by (unfold ref_ok, max_refcnt; simpl; lia).
  rewrite Z.min_r by (simpl; lia).
  assert (∃ n, Z.to_nat max_refcnt = S n) as [n Hn].
  { destruct (Z.to_nat max_refcnt) as [|n] eqn:E; [|by exists n].
    apply (f_equal Z.of_nat) in E. by rewrite Z2Nat.id in E. }
  rewrite Hn. apply decs_all. rewrite <-Hn. symmetry. by apply Z2Nat.id.
Qed.

Lemma saturated_count_frees_early_witness :
  max_refcnt ≤ Z.of_nat (Z.to_nat max_refcnt) ∧
  decs (Z.to_nat max_refcnt) (incs (Z.to_nat max_refcnt) (mk_data SYMS_EXPR NOT_CEXPR)) = None.
Proof.
  assert (H : max_refcnt ≤ Z.of_nat (Z.to_nat max_refcnt)).
  { rewrite Z2Nat.id by (unfold max_refcnt; discriminate). apply Z.le_refl. }
  split; [exact H|]. exact (proj1 (saturated_count_frees_early SYMS_EXPR NOT_CEXPR _ H)).
Defined.
