(* ===== verification/Chunk.v ===== *)
(** * The allocator of applications (chunking_memory_management.h)

    The macros of this file give a class its own [new] and [delete]; the checker
    uses them for [CExpr], with 32768 blocks in a chunk.  A chunk comes from
    [malloc] and is handed out block by block; a deleted block is linked into a
    free list through one of its own fields and is handed out first.

    The model has the static members of the class, the field that holds the link,
    and the chunks that were taken from [malloc], the last one first.  [malloc]
    itself is a parameter: it is given the earlier chunks and the size, and returns
    a null pointer or the address of memory that does not meet theirs. *)

From Stdlib Require Import ZArith Lia.
From stdpp Require Import base tactics list strings gmap numbers sorting.
From S2P Require Import Prelude.

#[local] Open Scope Z_scope.

Record alloc := Alloc {
  freelist : Z;
  next_free_block : Z;
  end_of_current_chunk : Z;
  initialized : bool;
  the_field : gmap Z Z;             (* THE_FIELD of the block at an address *)
  chunks : list Z
}.

Definition set_freelist (p : Z) (σ : alloc) : alloc :=
  Alloc p (next_free_block σ) (end_of_current_chunk σ) (initialized σ) (the_field σ) (chunks σ).
Definition set_field (p v : Z) (σ : alloc) : alloc :=
  Alloc (freelist σ) (next_free_block σ) (end_of_current_chunk σ) (initialized σ)
    (<[p := v]> (the_field σ)) (chunks σ).

Definition alloc_start : alloc := Alloc 0 0 0 false ∅ [].

Section chunking.
Context (malloc : list Z → Z → Z).
Context (CHUNK_SIZE BLOCK_SIZE : Z).

(** [CHUNK_SIZE * BLOCK_SIZE], an unsigned product. *)
Definition chunk_bytes : Z := (CHUNK_SIZE * BLOCK_SIZE) `mod` 2 ^ 32.

Definition allocate_new_chunk : M alloc () := λ σ,
  let chunk := malloc (chunks σ) chunk_bytes in
  if decide (chunk = 0) then Err (Fatal "Assertion failed: chunk != NULL")
  else Ok ((), Alloc (freelist σ) chunk (chunk + chunk_bytes) (initialized σ) (the_field σ)
                 (chunk :: chunks σ)).

Definition init_chunks : M alloc () :=
  σ ← get_st;
  if initialized σ then mret ()
  else
    allocate_new_chunk;;
    modify (λ σ, Alloc (freelist σ) (next_free_block σ) (end_of_current_chunk σ) true (the_field σ)
                   (chunks σ)).

(** [THE_FIELD] of a block that was never written holds no pointer. *)
Definition load_field (p : Z) : M alloc Z := λ σ,
  match the_field σ !! p with Some v => Ok (v, σ) | None => Err (Undefined Uninitialised) end.

Definition operator_new (h : Z) : M alloc Z :=
  if decide (h ≠ 0) then mret h
  else
    σ ← get_st;
    if decide (freelist σ ≠ 0) then
      let new_block := freelist σ in
      next ← load_field new_block;
      modify (set_freelist next);;
      mret new_block
    else
      when (bool_decide (next_free_block σ = end_of_current_chunk σ)) allocate_new_chunk;;
      σ ← get_st;
      let new_block := next_free_block σ in
      modify (λ σ, Alloc (freelist σ) (new_block + BLOCK_SIZE) (end_of_current_chunk σ) (initialized σ)
                     (the_field σ) (chunks σ));;
      mret new_block.

Definition operator_delete (p : Z) : M alloc () :=
  σ ← get_st;
  modify (set_field p (freelist σ));;
  modify (set_freelist p).

(** ** Blocks *)

Context (Hchunk : 0 < CHUNK_SIZE) (Hblock : 0 < BLOCK_SIZE) (Hfits : CHUNK_SIZE * BLOCK_SIZE < 2 ^ 32).

(** Memory of [n] bytes at [p] and at [q] does not meet. *)
Definition apart (n p q : Z) : Prop := p + n <= q ∨ q + n <= p.

(** What the standard says of [malloc]. *)
Context (malloc_ok : ∀ cs n, 0 < n →
  malloc cs n = 0 ∨ 0 < malloc cs n ∧ Forall (apart n (malloc cs n)) cs).

(** The first [j] blocks of the chunk [c], and all the blocks of some chunks. *)
Definition block_of (c j p : Z) : Prop := ∃ i, 0 <= i < j ∧ p = c + i * BLOCK_SIZE.
Definition used (cs : list Z) (j p : Z) : Prop :=
  match cs with
  | [] => False
  | c :: cs => block_of c j p ∨ ∃ c', c' ∈ cs ∧ block_of c' CHUNK_SIZE p
  end.

Inductive apart_chunks : list Z → Prop :=
  | apart_nil : apart_chunks []
  | apart_cons c cs : 0 < c → Forall (apart (CHUNK_SIZE * BLOCK_SIZE) c) cs → apart_chunks cs →
      apart_chunks (c :: cs).

(** The free list. *)
Inductive chain (f : gmap Z Z) : Z → list Z → Prop :=
  | chain_nil : chain f 0 []
  | chain_cons p v l : p ≠ 0 → f !! p = Some v → chain f v l → chain f p (p :: l).

(** The blocks in use are [live], the free ones are [free]; they are different
    blocks of the chunks, before the next one that was not handed out, which is
    block [j] of the current chunk. *)
Record inv_at (j : Z) (free live : list Z) (σ : alloc) : Prop := Inv {
  inv_chunks : apart_chunks (chunks σ);
  inv_j : 0 <= j <= CHUNK_SIZE;
  inv_chain : chain (the_field σ) (freelist σ) free;
  inv_nodup : NoDup (free ++ live);
  inv_used : Forall (used (chunks σ) j) (free ++ live);
  inv_next :
    match chunks σ with
    | [] => next_free_block σ = end_of_current_chunk σ
    | c :: _ => next_free_block σ = c + j * BLOCK_SIZE ∧
                end_of_current_chunk σ = c + CHUNK_SIZE * BLOCK_SIZE
    end
}.
Definition inv (live : list Z) (σ : alloc) : Prop := ∃ j free, inv_at j free live σ.

Lemma chunk_bytes_eq : chunk_bytes = CHUNK_SIZE * BLOCK_SIZE.
Proof. unfold chunk_bytes. apply Z.mod_small. nia. Qed.

(** Block [i] ends where a later one starts at the latest. *)
Lemma block_lt i j : i < j → i * BLOCK_SIZE + BLOCK_SIZE <= j * BLOCK_SIZE.
Proof. nia. Qed.

Lemma used_block cs j p :
  j <= CHUNK_SIZE → used cs j p → ∃ c, c ∈ cs ∧ block_of c CHUNK_SIZE p.
Proof.
  destruct cs as [|c cs]; [done|]. intros Hj [(i & Hi & ->)|(c' & Hc' & Hb)].
  - exists c. split; [by apply elem_of_cons; left|]. exists i. split; [lia|done].
  - exists c'. split; [by apply elem_of_cons; right|done].
Qed.

Lemma chunks_apart cs c c' :
  apart_chunks cs → c ∈ cs → c' ∈ cs → c = c' ∨ apart (CHUNK_SIZE * BLOCK_SIZE) c c'.
Proof.
  induction 1 as [|d cs Hd Hall Hcs IH]; [by intros ?%not_elem_of_nil|].
  rewrite Forall_forall in Hall. unfold apart in *.
  intros [->|Hc]%elem_of_cons [->|Hc']%elem_of_cons; auto.
  destruct (Hall c Hc); auto.
Qed.

Lemma chunks_positive cs c : apart_chunks cs → c ∈ cs → 0 < c.
Proof.
  induction 1 as [|d cs Hd Hall Hcs IH]; [by intros ?%not_elem_of_nil|].
  intros [->|Hc]%elem_of_cons; auto.
Qed.

Lemma blocks_apart cs j p q :
  apart_chunks cs → j <= CHUNK_SIZE → used cs j p → used cs j q → p ≠ q → apart BLOCK_SIZE p q.
Proof.
  intros Hcs Hj (c & Hc & i & Hi & ->)%used_block (c' & Hc' & i' & Hi' & ->)%used_block Hne; try done.
  destruct (chunks_apart cs c c') as [->|Ha]; [done..| |]; unfold apart in *.
  - destruct (Z.lt_trichotomy i i') as [H%block_lt|[->|H%block_lt]]; [lia|done|lia].
  - destruct Hi as [Hi0 Hi%block_lt], Hi' as [Hi0' Hi'%block_lt]. nia.
Qed.

(** A block is not the next one. *)
Lemma used_not_next c cs j p :
  apart_chunks (c :: cs) → 0 <= j → j < CHUNK_SIZE → used (c :: cs) j p → p ≠ c + j * BLOCK_SIZE.
Proof.
  intros Hcs Hj0 Hj [(i & Hi & ->)|(c' & Hc' & i & Hi & ->)]; [nia|].
  inversion Hcs as [|? ? _ Hall _]; subst. rewrite Forall_forall in Hall.
  apply block_lt in Hj. destruct Hi as [Hi0 Hi%block_lt], (Hall c' Hc'); nia.
Qed.

Lemma used_positive cs j p : apart_chunks cs → j <= CHUNK_SIZE → used cs j p → 0 < p.
Proof.
  intros Hcs Hj (c & Hc & i & Hi & ->)%used_block; [|done]. pose proof (chunks_positive _ _ Hcs Hc). nia.
Qed.

Lemma used_mono c cs j j' p : j <= j' → used (c :: cs) j p → used (c :: cs) j' p.
Proof. intros Hj [(i & Hi & ->)|H]; [left; exists i; split; [lia|done]|by right]. Qed.

(** ** The operations *)

(** The next block of the current chunk is handed out. *)
Lemma take_block c cs j live σ :
  inv_at j [] live σ → chunks σ = c :: cs → j < CHUNK_SIZE → freelist σ = 0 →
  let p := next_free_block σ in
  inv_at (j + 1) [] (p :: live)
    (Alloc 0 (p + BLOCK_SIZE) (end_of_current_chunk σ) (initialized σ) (the_field σ) (chunks σ)).
Proof.
  intros [Hcs Hj Hch Hnd Hus Hnx] Hc Hlt Hf p. rewrite Hc in *. destruct Hnx as [Hn He].
  simpl in *. split; simpl; rewrite ?Hc; simpl; [done|lia|constructor| | |subst p; lia].
  - constructor; [|done]. intros Hin. rewrite Forall_forall in Hus.
    apply (used_not_next c cs j p); [done|lia|done|by apply Hus|done].
  - constructor.
    + left. exists j. split; [lia|done].
    + eapply Forall_impl; [exact Hus|]. intros q. apply used_mono. lia.
Qed.

Lemma new_chunk j free live σ σ' :
  inv_at j free live σ → allocate_new_chunk σ = Ok ((), σ') →
  inv_at 0 free live σ' ∧ freelist σ' = freelist σ ∧ ∃ c, chunks σ' = c :: chunks σ.
Proof.
  intros [Hcs Hj Hch Hnd Hus Hnx]. unfold allocate_new_chunk. rewrite chunk_bytes_eq.
  case_decide as Hnull; [done|]. intros [= <-].
  destruct (malloc_ok (chunks σ) (CHUNK_SIZE * BLOCK_SIZE)) as [?|[Hpos Hap]]; [nia|done|].
  split_and!; [|done|by eexists]. split; simpl; [by constructor|lia|done|done| |split; lia].
  eapply Forall_impl; [exact Hus|]. intros p Hp. right.
  destruct (used_block (chunks σ) j p) as (c & Hc & Hb); [lia|done|by exists c].
Qed.

(** [new] and [delete]. *)
Lemma operator_new_inv live σ p σ' :
  inv live σ → operator_new 0 σ = Ok (p, σ') → inv (p :: live) σ'.
Proof.
  intros (j & free & H). unfold operator_new. rewrite decide_False by (by intros []).
  rewrite (bind_run _ _ σ _ σ eq_refl). destruct (decide (freelist σ ≠ 0)) as [Hf|Hf%dec_stable].
  - intros (v & σ1 & Hv & Hr)%bind_ok. unfold load_field in Hv.
    destruct (the_field σ !! freelist σ) as [v'|] eqn:E; [|done]. injection Hv as -> <-.
    injection Hr as <- <-. destruct H as [Hcs Hj Hch Hnd Hus Hnx].
    inversion Hch as [Hz|? v'' l Hp Hl Hc]; subst; [done|]. rewrite E in Hl. injection Hl as <-.
    exists j, l. assert (l ++ freelist σ :: live ≡ₚ (freelist σ :: l) ++ live) as HP by solve_Permutation.
    split; simpl; [done..| | |done]; by rewrite HP.
  - assert (free = []) as ->.
    { pose proof (inv_chain _ _ _ _ H) as Hch. rewrite Hf in Hch. by inversion Hch. }
    intros ([] & σ1 & Hw & Hr)%bind_ok. rewrite (bind_run _ _ σ1 _ σ1 eq_refl) in Hr. injection Hr as <- <-.
    case_bool_decide as Hend.
    + destruct (new_chunk _ _ _ _ _ H Hw) as (H1 & Hf1 & c & Hc). rewrite Hf1, Hf.
      exists (0 + 1), []. by eapply take_block; [..|rewrite Hf1].
    + injection Hw as <-. rewrite Hf. exists (j + 1), [].
      pose proof (inv_next _ _ _ _ H) as Hnx. pose proof (inv_j _ _ _ _ H) as Hj.
      destruct (chunks σ) as [|c cs] eqn:Hc; [done|]. destruct Hnx as [Hn He].
      rewrite <-Hc. eapply take_block; [done..| |done].
      destruct (Z.eq_dec j CHUNK_SIZE) as [->|]; [congruence|lia].
Qed.

Lemma chain_insert f p v l x : p ∉ l → chain f x l → chain (<[p := v]> f) x l.
Proof.
  intros Hp H. induction H as [|q w l Hq Hw H IH]; [constructor|].
  apply not_elem_of_cons in Hp as [Hne Hp]. econstructor; [done| |by apply IH].
  by rewrite lookup_insert_ne.
Qed.

Lemma operator_delete_inv live live' p σ σ' :
  inv live σ → live ≡ₚ p :: live' → operator_delete p σ = Ok ((), σ') → inv live' σ'.
Proof.
  intros (j & free & [Hcs Hj Hch Hnd Hus Hnx]) HP. unfold operator_delete.
  rewrite (bind_run _ _ σ _ σ eq_refl). intros [= <-].
  assert (free ++ live ≡ₚ (p :: free) ++ live') as HQ by (rewrite HP; solve_Permutation).
  rewrite HQ in Hnd, Hus. exists j, (p :: free). split; simpl; try done.
  inversion Hnd as [|? ? Hp Hnd']; subst. inversion Hus as [|? ? Hup _]; subst.
  econstructor; [|by rewrite lookup_insert_eq|].
  - pose proof (used_positive _ _ _ Hcs (proj2 Hj) Hup). lia.
  - apply chain_insert; [|done]. intros Hin. apply Hp, elem_of_app. by left.
Qed.

Lemma write_inv live p v σ : inv live σ → p ∈ live → inv live (set_field p v σ).
Proof.
  intros (j & free & [Hcs Hj Hch Hnd Hus Hnx]) Hp. exists j, free. split; simpl; try done.
  apply chain_insert; [|done]. intros Hin. apply NoDup_app in Hnd as (_ & Hd & _). by apply (Hd p).
Qed.

Lemma init_chunks_inv live σ σ' : inv live σ → init_chunks σ = Ok ((), σ') → inv live σ'.
Proof.
  intros (j & free & H). unfold init_chunks. rewrite (bind_run _ _ σ _ σ eq_refl).
  destruct (initialized σ); [intros [= <-]; by exists j, free|].
  intros ([] & σ1 & Ha & [= <-])%bind_ok. destruct (new_chunk _ _ _ _ _ H Ha) as ([] & _ & _).
  exists 0, free. by split.
Qed.

(** ** Programs that use the allocator *)

(** A program takes blocks, writes to the field of blocks it has, and gives
    blocks back. *)
Inductive client_step : list Z * alloc → list Z * alloc → Prop :=
  | step_init live σ σ' : init_chunks σ = Ok ((), σ') → client_step (live, σ) (live, σ')
  | step_new live σ p σ' : operator_new 0 σ = Ok (p, σ') → client_step (live, σ) (p :: live, σ')
  | step_write live σ p v : p ∈ live → client_step (live, σ) (live, set_field p v σ)
  | step_delete live live' σ p σ' : live ≡ₚ p :: live' → operator_delete p σ = Ok ((), σ') →
      client_step (live, σ) (live', σ').

Lemma step_inv s s' : client_step s s' → inv s.1 s.2 → inv s'.1 s'.2.
Proof.
  destruct 1; simpl; intros Hi; [by eapply init_chunks_inv|by eapply operator_new_inv|by apply write_inv|].
  by eapply operator_delete_inv.
Qed.

Lemma start_inv : inv [] alloc_start.
Proof. exists 0, []. split; simpl; try done; [constructor|lia|constructor|constructor]. Qed.

Lemma reachable_inv live σ : rtc client_step ([], alloc_start) (live, σ) → inv live σ.
Proof.
  intros H. apply (rtc_ind_r (λ s, inv s.1 s.2) ([], alloc_start)) in H; [done|apply start_inv|].
  intros s s' _ Hs. by apply step_inv.
Qed.
End chunking.

(** C29: The blocks in use never meet.  Whatever a program does with [new] and
    [delete] and writes to the blocks it has, every block it has lies in a chunk
    that came from [malloc], no block is handed out twice, and two blocks have no
    byte in common; for a [malloc] whose results do not meet, and as long as the
    size of a chunk is one of 32 bits. *)
Theorem blocks_in_use_apart malloc CHUNK_SIZE BLOCK_SIZE :
  0 < CHUNK_SIZE → 0 < BLOCK_SIZE → CHUNK_SIZE * BLOCK_SIZE < 2 ^ 32 →
  (∀ cs n, 0 < n → malloc cs n = 0 ∨ 0 < malloc cs n ∧ Forall (apart n (malloc cs n)) cs) →
  ∀ live σ, rtc (client_step malloc CHUNK_SIZE BLOCK_SIZE) ([], alloc_start) (live, σ) →
  NoDup live ∧
  (∀ p q, p ∈ live → q ∈ live → p ≠ q → apart BLOCK_SIZE p q) ∧
  (∀ p, p ∈ live → ∃ c, c ∈ chunks σ ∧ c <= p ∧ p + BLOCK_SIZE <= c + CHUNK_SIZE * BLOCK_SIZE).
Proof.
  intros Hc Hb Hf Hm live σ H. apply reachable_inv in H as (j & free & [Hcs Hj Hch Hnd Hus Hnx]); try done.
  apply NoDup_app in Hnd as (_ & _ & Hnd). apply Forall_app in Hus as [_ Hus].
  rewrite Forall_forall in Hus. split_and!; [done| |].
  - intros p q Hp%Hus Hq%Hus Hne. destruct Hj. by eapply blocks_apart.
  - intros p (c & Hin & i & [Hi0 Hi] & ->)%Hus%used_block; [|done..|lia].
    exists c. split_and!; [done|nia|nia].
Qed.

(** A [malloc] that never fails: after all the memory it has given. *)
Definition bump_malloc (cs : list Z) (n : Z) : Z := 8 + n + foldr Z.max 0 cs.

Lemma bump_malloc_ok cs n : 0 < n → bump_malloc cs n = 0 ∨ 0 < bump_malloc cs n ∧ Forall (apart n (bump_malloc cs n)) cs.
Proof.
  intros Hn. right. unfold bump_malloc. assert (0 <= foldr Z.max 0 cs ∧ ∀ c, c ∈ cs → c <= foldr Z.max 0 cs) as [H0 H].
  { clear Hn. induction cs as [|c cs [H0 H]]; simpl; [split; [lia|by intros ? ?%not_elem_of_nil]|].
    split; [lia|]. intros d [->|Hd]%elem_of_cons; [lia|]. specialize (H d Hd). lia. }
  split; [lia|]. apply Forall_forall. intros c Hc%H. right. lia.
Qed.

(** Three blocks from chunks of two, with one given back in between. *)
Definition three_blocks : alloc :=
  match (p ← operator_new bump_malloc 2 24 0; _ ← operator_new bump_malloc 2 24 0; operator_delete p;;
         _ ← operator_new bump_malloc 2 24 0; operator_new bump_malloc 2 24 0) alloc_start with
  | Ok (_, σ) => σ
  | Err _ => alloc_start
  end.

Lemma three_blocks_reached : rtc (client_step bump_malloc 2 24) ([], alloc_start) ([112; 56; 80], three_blocks).
Proof.
  eapply rtc_l; [eapply step_new; vm_compute; reflexivity|].
  eapply rtc_l; [eapply step_new; vm_compute; reflexivity|].
  eapply rtc_l; [eapply (step_delete _ _ _ _ [80] _ 56); [apply Permutation_swap|vm_compute; reflexivity]|].
  eapply rtc_l; [eapply step_new; vm_compute; reflexivity|].
  eapply rtc_l; [eapply step_new; vm_compute; reflexivity|].
  apply rtc_refl.
Qed.

Lemma blocks_in_use_apart_witness :
  NoDup [112; 56; 80] ∧
  (∀ p q, p ∈ [112; 56; 80] → q ∈ [112; 56; 80] → p ≠ q → apart 24 p q) ∧
  (∀ p, p ∈ [112; 56; 80] → ∃ c, c ∈ chunks three_blocks ∧ c <= p ∧ p + 24 <= c + 2 * 24).
Proof.
  apply (blocks_in_use_apart bump_malloc 2 24); [lia|lia|lia|apply bump_malloc_ok|apply three_blocks_reached].
Defined.

(** ** Free blocks are used again *)

Section reuse.
Context (malloc : list Z → Z → Z) (CHUNK_SIZE BLOCK_SIZE : Z).

(** [n] blocks, one after the other. *)
Fixpoint news (n : nat) : M alloc (list Z) :=
  match n with
  | O => mret []
  | S n => p ← operator_new malloc CHUNK_SIZE BLOCK_SIZE 0; ps ← news n; mret (p :: ps)
  end.

(** The links from [x] through the blocks of [l] to [y]. *)
Inductive links (f : gmap Z Z) (y : Z) : Z → list Z → Prop :=
  | links_nil : links f y y []
  | links_cons p v l : p ≠ 0 → f !! p = Some v → links f y v l → links f y p (p :: l).

Lemma links_insert f y p v x l : p ∉ l → links f y x l → links (<[p := v]> f) y x l.
Proof.
  intros Hp H. induction H as [|q w l Hq Hw H IH]; [constructor|].
  apply not_elem_of_cons in Hp as [Hne Hp]. econstructor; [done| |by apply IH].
  by rewrite lookup_insert_ne.
Qed.

Lemma deletes_link ps : ∀ σ y acc,
  links (the_field σ) y (freelist σ) acc → NoDup (ps ++ acc) → Forall (.≠ 0) ps →
  ∃ σ', for_each operator_delete ps σ = Ok ((), σ') ∧
    links (the_field σ') y (freelist σ') (reverse ps ++ acc) ∧ chunks σ' = chunks σ ∧
    next_free_block σ' = next_free_block σ.
Proof.
  induction ps as [|p ps IH]; intros σ y acc Hl Hnd Hnz; [by exists σ|].
  inversion Hnz as [|? ? Hp Hps]; subst. simpl in Hnd. inversion Hnd as [|? ? Hin Hnd']; subst.
  destruct (IH (set_freelist p (set_field p (freelist σ) σ)) y (p :: acc)) as (σ' & Hr & Hl' & Hc & Hn);
    [|by rewrite <-Permutation_middle; constructor|done|].
  - simpl. econstructor; [done|by rewrite lookup_insert_eq|]. apply links_insert; [|done].
    intros ?. apply Hin, elem_of_app. by right.
  - exists σ'. split_and!; [exact Hr|by rewrite reverse_cons, <-app_assoc|done|done].
Qed.

Lemma operator_new_free σ v :
  freelist σ ≠ 0 → the_field σ !! freelist σ = Some v →
  operator_new malloc CHUNK_SIZE BLOCK_SIZE 0 σ = Ok (freelist σ, set_freelist v σ).
Proof.
  intros Hf Hv. unfold operator_new. rewrite decide_False by (by intros []).
  rewrite (bind_run _ _ σ _ σ eq_refl), decide_True by done.
  unfold load_field, mbind, M_bind. by rewrite Hv.
Qed.

Lemma news_links l : ∀ σ y,
  links (the_field σ) y (freelist σ) l → news (length l) σ = Ok (l, set_freelist y σ).
Proof.
  induction l as [|p l IH]; intros σ y H; inversion H as [E|? v ? Hp Hv Hl]; subst.
  { by destruct σ. }
  simpl. rewrite (bind_run _ _ _ _ _ (operator_new_free _ _ Hp Hv)).
  by rewrite (bind_run _ _ _ _ _ (IH (set_freelist v σ) y Hl)).
Qed.
End reuse.

(** Every block that is given back is handed out again.  When a program gives
    back some of its blocks, as many calls of [new] as there are give just these
    blocks, the last one first; they succeed without a call of [malloc]. *)
Theorem freed_blocks_reused malloc CHUNK_SIZE BLOCK_SIZE :
  0 < CHUNK_SIZE → 0 < BLOCK_SIZE → CHUNK_SIZE * BLOCK_SIZE < 2 ^ 32 →
  (∀ cs n, 0 < n → malloc cs n = 0 ∨ 0 < malloc cs n ∧ Forall (apart n (malloc cs n)) cs) →
  ∀ live σ ps rest, rtc (client_step malloc CHUNK_SIZE BLOCK_SIZE) ([], alloc_start) (live, σ) →
  live ≡ₚ ps ++ rest →
  ∃ σ', (for_each operator_delete ps;; news malloc CHUNK_SIZE BLOCK_SIZE (length ps)) σ =
          Ok (reverse ps, σ') ∧
    chunks σ' = chunks σ ∧ next_free_block σ' = next_free_block σ ∧ freelist σ' = freelist σ.
Proof.
  intros Hc Hb Hf Hm live σ ps rest H HP.
  apply reachable_inv in H as (j & free & [Hcs Hj Hch Hnd Hus Hnx]); try done.
  rewrite HP in Hnd, Hus. apply NoDup_app in Hnd as (_ & _ & Hnd). apply NoDup_app in Hnd as (Hnd & _ & _).
  apply Forall_app in Hus as [_ [Hus _]%Forall_app].
  destruct (deletes_link ps σ (freelist σ) []) as (σ1 & Hr & Hl & Hc1 & Hn1).
  - constructor.
  - by rewrite app_nil_r.
  - eapply Forall_impl; [exact Hus|]. intros p Hp ->. destruct Hj. by eapply used_positive in Hp.
  - rewrite app_nil_r in Hl. rewrite (bind_run _ _ _ _ _ Hr), <-(length_reverse ps).
    exists (set_freelist (freelist σ) σ1). split_and!; [by apply news_links|done..].
Qed.

Lemma freed_blocks_reused_witness :
  ∃ σ', (for_each operator_delete [56; 112];; news bump_malloc 2 24 2) three_blocks = Ok ([112; 56], σ') ∧
    chunks σ' = chunks three_blocks ∧ next_free_block σ' = next_free_block three_blocks ∧
    freelist σ' = freelist three_blocks.
Proof.
  apply (freed_blocks_reused bump_malloc 2 24 ltac:(lia) ltac:(lia) ltac:(lia) bump_malloc_ok [112; 56; 80]
           three_blocks [56; 112] [80]).
  - apply three_blocks_reached.
  - apply Permutation_swap.
Defined.
