(* ===== verification/Memory.v ===== *)
(** * Expression objects in memory (expr.h, expr.cpp)

    Expressions are heap objects that point to each other and are updated in
    place, so the model keeps the store: a finite map from addresses to objects.
    An address is a positive number, 0 is the null pointer, and the address of a
    deleted object is not given out again, so a use of a deleted object is an
    error and never a use of another one.

    The file has the classes of expr.h, loads and stores with the errors of the
    casts the code makes, reference counting with [destroy], and the mark map of
    the side condition variables. *)

From Stdlib Require Import QArith_base Qreduction.
From stdpp Require Import base tactics list strings gmap numbers.
From S2P Require Import Prelude Header.

Abbreviation ptr := N (only parsing).
Abbreviation null := 0%N.

(** The fields of the subclasses of [Expr]; [kids] is the whole array with its
    null terminator. *)
Inductive payload :=
  | PC (o : op) (kids : list ptr)          (* CExpr *)
  | PInt (n : Z)                           (* IntExpr *)
  | PRat (n : Q)                           (* RatExpr *)
  | PHole (val : ptr)                      (* HoleExpr *)
  | PSym (val : ptr)                       (* SymExpr *)
  | PSymS (s : string) (val : ptr).        (* SymSExpr *)

(** An object: the reference count and the flag of the header, and the fields;
    class and operator are fixed by the constructor. *)
Record node := Node { refcnt : Z; exmark : bool; body : payload }.

Definition class_of (b : payload) : eclass :=
  match b with
  | PC _ _ => CEXPR | PInt _ => INT_EXPR | PRat _ => RAT_EXPR | PHole _ => HOLE_EXPR
  | PSym _ => SYM_EXPR | PSymS _ _ => SYMS_EXPR
  end.
Definition op_of (b : payload) : op := match b with PC o _ => o | _ => NOT_CEXPR end.

(** The header word of an object. *)
Definition node_fields (n : node) : fields :=
  Fields (class_of (body n)) (op_of (body n)) (exmark n) (refcnt n).

(** The globals of scccode.cpp: the constructors and programs the compiled side
    conditions know, null until [init_compiled_scc] looks them up. *)
Record scc_globals := SccGlobals {
  e_cln : ptr; e_clc : ptr; e_concat_cl : ptr; e_clr : ptr; e_pos : ptr; e_neg : ptr;
  e_tt : ptr; e_ff : ptr; e_and : ptr; e_not : ptr; e_or : ptr;
  e_append : ptr; e_simplify_clause : ptr; e_unroll_from : ptr; e_base_k : ptr; e_base : ptr;
  e_unroll_with : ptr; e_step : ptr
}.
Definition scc_none : scc_globals :=
  SccGlobals null null null null null null null null null null null null null null null null
    null null.

Record mem := Mem {
  heap : gmap N node;
  next_addr : N;
  mark_map : gmap N Z;                     (* std::map<SymExpr*, int> mark_map *)
  cout : string;                           (* what was printed *)
  dbg_prog : bool;
  run_scc : bool;
  dbg_prog_indent_lvl : Z;
  scc_vars : scc_globals
}.

Definition set_heap (h : gmap N node) (m : mem) : mem :=
  Mem h (next_addr m) (mark_map m) (cout m) (dbg_prog m) (run_scc m) (dbg_prog_indent_lvl m)
    (scc_vars m).
Definition set_marks (k : gmap N Z) (m : mem) : mem :=
  Mem (heap m) (next_addr m) k (cout m) (dbg_prog m) (run_scc m) (dbg_prog_indent_lvl m)
    (scc_vars m).
Definition set_cout (s : string) (m : mem) : mem :=
  Mem (heap m) (next_addr m) (mark_map m) s (dbg_prog m) (run_scc m) (dbg_prog_indent_lvl m)
    (scc_vars m).
Definition set_indent (i : Z) (m : mem) : mem :=
  Mem (heap m) (next_addr m) (mark_map m) (cout m) (dbg_prog m) (run_scc m) i (scc_vars m).

Definition set_scc_vars (g : scc_globals) (m : mem) : mem :=
  Mem (heap m) (next_addr m) (mark_map m) (cout m) (dbg_prog m) (run_scc m) (dbg_prog_indent_lvl m) g.

Definition mem_empty : mem := Mem ∅ 1%N ∅ EmptyString false false 0 scc_none.

(** ** Loads and stores *)

Definition load (e : ptr) : M mem node := λ m,
  if decide (e = null) then Err (Undefined NullDeref)
  else match heap m !! e with Some n => Ok (n, m) | None => Err (Undefined Dangling) end.

Definition store (e : ptr) (n : node) : M mem () :=
  modify (λ m, set_heap (<[e := n]> (heap m)) m).

(** [delete e] *)
Definition free (e : ptr) : M mem () :=
  modify (λ m, set_heap (delete e (heap m)) m).

(** [new]: one reference, flag clear. *)
Definition new (b : payload) : M mem ptr := λ m,
  let a := next_addr m in
  Ok (a, Mem (<[a := Node 1 false b]> (heap m)) (a + 1)%N (mark_map m) (cout m)
           (dbg_prog m) (run_scc m) (dbg_prog_indent_lvl m) (scc_vars m)).

Definition print_out (s : string) : M mem () := modify (λ m, set_cout (cout m +:+ s) m).

Definition getclass (e : ptr) : M mem eclass := n ← load e; mret (class_of (body n)).
Definition getop (e : ptr) : M mem op := n ← load e; mret (op_of (body n)).
Definition getexmark (e : ptr) : M mem bool := n ← load e; mret (exmark n).
Definition setexmark (e : ptr) : M mem () :=
  n ← load e; store e (Node (refcnt n) true (body n)).
Definition clearexmark (e : ptr) : M mem () :=
  n ← load e; store e (Node (refcnt n) false (body n)).

(** [cloned], [setcloned] and [get_free_in] read and write the same flag. *)
Definition cloned (e : ptr) : M mem bool := getexmark e.
Definition setcloned (e : ptr) : M mem () := setexmark e.
Definition get_free_in (e : ptr) : M mem bool := getexmark e.

Definition set_body (e : ptr) (b : payload) : M mem () :=
  n ← load e; store e (Node (refcnt n) (exmark n) b).

(** [e->kids], for [e] cast to [CExpr]. *)
Definition kids_of (e : ptr) : M mem (list ptr) :=
  n ← load e; match body n with PC _ ks => mret ks | _ => undefined BadCast end.

(** [e->kids[i]] *)
Definition kid (e : ptr) (i : nat) : M mem ptr :=
  ks ← kids_of e; match ks !! i with Some k => mret k | None => undefined OutOfBounds end.

(** The entries a loop [while ((tmp = *cur++))] visits. *)
Fixpoint upto_null (ks : list ptr) : option (list ptr) :=
  match ks with
  | [] => None
  | k :: ks => if decide (k = null) then Some [] else (k ::.) <$> upto_null ks
  end.

Definition kid_list (ks : list ptr) : M mem (list ptr) :=
  match upto_null ks with Some l => mret l | None => undefined OutOfBounds end.

Definition kids_list (e : ptr) : M mem (list ptr) := ks ← kids_of e; kid_list ks.

(** [e->val], for [e] cast to [SymExpr], and its assignment. *)
Definition sym_val (e : ptr) : M mem ptr :=
  n ← load e;
  match body n with PSym v | PSymS _ v => mret v | _ => undefined BadCast end.
Definition set_sym_val (e v : ptr) : M mem () :=
  n ← load e;
  match body n with
  | PSym _ => store e (Node (refcnt n) (exmark n) (PSym v))
  | PSymS s _ => store e (Node (refcnt n) (exmark n) (PSymS s v))
  | _ => undefined BadCast
  end.

(** [e->val], for [e] cast to [HoleExpr], and its assignment. *)
Definition hole_val (e : ptr) : M mem ptr :=
  n ← load e; match body n with PHole v => mret v | _ => undefined BadCast end.
Definition set_hole_val (e v : ptr) : M mem () :=
  n ← load e;
  match body n with
  | PHole _ => store e (Node (refcnt n) (exmark n) (PHole v))
  | _ => undefined BadCast
  end.

(** [e->s], for [e] cast to [SymSExpr]. *)
Definition sym_name (e : ptr) : M mem string :=
  n ← load e; match body n with PSymS s _ => mret s | _ => undefined BadCast end.

(** [e->n], for [e] cast to [IntExpr] or [RatExpr]. *)
Definition int_of (e : ptr) : M mem Z :=
  n ← load e; match body n with PInt z => mret z | _ => undefined BadCast end.
Definition rat_of (e : ptr) : M mem Q :=
  n ← load e; match body n with PRat q => mret q | _ => undefined BadCast end.

(** ** Constructors of the subclasses *)

(** [CExpr(_op, e1, ..., en)]: the kids are null-terminated. *)
Definition new_cexpr (o : op) (ks : list ptr) : M mem ptr := new (PC o (ks ++ [null])).
Definition new_int (n : Z) : M mem ptr := new (PInt n).
(** [RatExpr(mpq_t)] canonicalises its value. *)
Definition new_rat (q : Q) : M mem ptr := new (PRat (Qred q)).
Definition new_hole : M mem ptr := new (PHole null).
Definition new_sym : M mem ptr := new (PSym null).
Definition new_syms (s : string) : M mem ptr := new (PSymS s null).

(** ** Reference counting *)

Definition inc (e : ptr) : M mem () :=
  n ← load e; store e (Node (inc_ref (refcnt n)) (exmark n) (body n)).

(** [destroydec]: drop a reference; the last one destroys the object. *)
Definition dec_then (destroy : ptr → M mem ()) (e : ptr) : M mem () :=
  n ← load e;
  let ref := (refcnt n - 1)%Z in
  if (ref =? 0)%Z then destroy e else store e (Node ref (exmark n) (body n)).

(** The destructor of a symbol keeps the programs it names. *)
Definition destroy_sym (destroydec : ptr → M mem ()) (e v : ptr) : M mem () :=
  if decide (v = null) then free e
  else
    o ← getop v;
    if decide (o = PROG) then free e else free e;; destroydec v.

(** The loop over the kids of a [CExpr]: all but the last are dropped, then the
    object is deleted, then the last is dropped. *)
Fixpoint destroy_kids (dec destroydec : ptr → M mem ()) (e : ptr) (ks : list ptr) : M mem () :=
  match ks with
  | [] => mret ()
  | [k] => free e;; destroydec k
  | k :: ks => dec k;; destroy_kids dec destroydec e ks
  end.

Fixpoint destroy (fuel : nat) (dec_kids : bool) (e : ptr) {struct fuel} : M mem () :=
  match fuel with
  | 0 => throw OutOfFuel
  | S fuel =>
      let dec := dec_then (destroy fuel true) in
      let destroydec := dec_then (destroy fuel dec_kids) in
      n ← load e;
      match body n with
      | PInt _ => free e
      | PSymS _ v | PSym v => destroy_sym destroydec e v
      | PHole v => if decide (v = null) then free e else free e;; destroydec v
      | PC _ ks =>
          if dec_kids then l ← kid_list ks; destroy_kids dec destroydec e l
          else free e
      | PRat _ => mret ()
      end
  end.

(** One level for each object: the bound that acyclic stores need. *)
Definition dec (e : ptr) : M mem () :=
  m ← get_st; dec_then (destroy (S (size (heap m))) true) e.

(** ** Marks of variables *)

Definition wrap32 (z : Z) : Z := ((z + 2 ^ 31) `mod` 2 ^ 32 - 2 ^ 31)%Z.

Definition mark (e : ptr) : M mem Z := λ m,
  match mark_map m !! e with
  | Some k => Ok (k, m)
  | None => Ok (0%Z, set_marks (<[e := 0%Z]> (mark_map m)) m)
  end.
Definition smark (e : ptr) (k : Z) : M mem () :=
  modify (λ m, set_marks (<[e := k]> (mark_map m)) m).

Definition bit_get (k i : Z) : Z := Z.land (Z.shiftr k i) 1.
Definition bit_set (k i : Z) : Z := Z.lor k (wrap32 (Z.shiftl 1 i)).
Definition bit_clear (k i : Z) : Z := Z.land k (Z.lnot (wrap32 (Z.shiftl 1 i))).

Definition getmark (e : ptr) (i : Z) : M mem Z := k ← mark e; mret (bit_get k i).
Definition setmark (e : ptr) (i : Z) : M mem () := k ← mark e; smark e (bit_set k i).
Definition clearmark (e : ptr) (i : Z) : M mem () := k ← mark e; smark e (bit_clear k i).
