(* ===== verification/Expr.v ===== *)
(** * Operations on expressions (expr.cpp)

    One definition per member function of [Expr] and [CExpr], in the build the
    header file selects: [USE_FLAT_APP], [MARKVAR_32], [DEBUG_SYM_NAMES] and
    [USE_HOLE_PATH_COMPRESSION] are defined.  A function that follows pointers
    without a bound of its own takes [fuel]. *)

From Stdlib Require Import QArith_base Qreduction.

From stdpp Require Import base tactics list strings gmap numbers pretty.
From S2P Require Import Prelude Header Memory.

(** ** Following definitions *)

(** [followDefs]: go through the values of holes and symbols. *)
Fixpoint follow_defs (fuel : nat) (e : ptr) : M mem ptr :=
  match fuel with
  | 0 => throw OutOfFuel
  | S fuel =>
      n ← load e;
      match body n with
      | PHole v | PSymS _ v | PSym v =>
          if decide (v = null) then mret e else follow_defs fuel v
      | _ => mret e
      end
  end.

(** A chain of values that does not repeat visits each object once. *)
Definition followDefs (e : ptr) : M mem ptr :=
  m ← get_st; follow_defs (S (size (heap m))) e.

(** ** Applications *)

(** [build_app(hd, args, start)] *)
Definition build_app (hd : ptr) (args : list ptr) (start : nat) : M mem ptr :=
  if decide (length args ≤ start) then mret hd
  else new_cexpr APP (hd :: drop start args).

(** [make_app(e1, e2)]: the kids of a [CExpr] are copied and [e2] is added. *)
Definition make_app (e1 e2 : ptr) : M mem ptr :=
  c ← getclass e1;
  if decide (c = CEXPR) then
    ks ← kids_list e1;
    for_each inc ks;;
    new_cexpr APP (ks ++ [e2])
  else new_cexpr APP [e1; e2].

(** [collect_args(args, follow_defs)]: the head and the arguments. *)
Definition collect_args (e : ptr) (follow : bool) : M mem (ptr * list ptr) :=
  o ← getop e;
  '(hd, args) ← (if decide (o = APP) then
                   k0 ← kid e 0;
                   ks ← kids_list e;
                   mret (k0, drop 1 ks)
                 else mret (e, []));
  if follow : bool then hd' ← followDefs hd; mret (hd', args) else mret (hd, args).

(** The loop of [get_head] and [get_body]: while the operator is [o], move to
    kid [i]. *)
Fixpoint descend (fuel : nat) (o : op) (i : nat) (follow : bool) (e : ptr) : M mem ptr :=
  match fuel with
  | 0 => throw OutOfFuel
  | S fuel =>
      o' ← getop e;
      if decide (o' = o) then
        k ← kid e i;
        k ← (if follow then followDefs k else mret k);
        descend fuel o i follow k
      else mret e
  end.

Definition get_head (e : ptr) (follow : bool) : M mem ptr :=
  m ← get_st; descend (S (size (heap m))) APP 0 follow e.

Definition get_body (e : ptr) (o : op) (follow : bool) : M mem ptr :=
  m ← get_st; descend (S (size (heap m))) o 2 follow e.

(** ** Copying *)

(** [clone]: abstractions are duplicated with a new variable, which the old one
    points to while the body is copied; a kid-by-kid copy that changes nothing
    is thrown away. *)
Fixpoint clone (fuel : nat) (e : ptr) : M mem ptr :=
  match fuel with
  | 0 => throw OutOfFuel
  | S fuel =>
      n ← load e;
      match body n with
      | PInt _ | PRat _ => inc e;; mret e
      | PSymS _ v | PSym v =>
          if decide (v = null) then inc e;; mret e
          else
            o ← getop v;
            if decide (o = PROG) then inc e;; mret e else clone fuel v
      | PHole v => if decide (v = null) then inc e;; mret e else clone fuel v
      | PC LAM _ =>
          var ← kid e 0;
          s ← sym_name var;
          newvar ← new_syms s;
          prev ← sym_val var;
          set_sym_val var newvar;;
          k1 ← kid e 1;
          bod ← clone fuel k1;
          set_sym_val var prev;;
          new_cexpr LAM [newvar; bod]
      | PC PI _ =>
          var ← kid e 0;
          s ← sym_name var;
          newvar ← new_syms s;
          k1 ← kid e 1;
          tp ← clone fuel k1;
          prev ← sym_val var;
          set_sym_val var newvar;;
          k2 ← kid e 2;
          bod ← clone fuel k2;
          set_sym_val var prev;;
          ret ← new_cexpr PI [newvar; tp; bod];
          b ← getexmark e;
          when b (setexmark ret);;
          mret ret
      | PC o ks =>
          l ← kid_list ks;
          l' ← map_m (clone fuel) l;
          if decide (l = l') then for_each dec l';; inc e;; mret e
          else new_cexpr o l'
      end
  end.

(** ** Weak head reduction *)

(** The loop of [whr]: give the bound variables of nested abstractions their
    arguments. *)
Fixpoint beta_loop (head : ptr) (args : list ptr) : M mem (ptr * list ptr) :=
  match args with
  | [] => mret (head, [])
  | a :: args =>
      tmp ← followDefs a;
      x ← kid head 0;
      set_sym_val x tmp;;
      inc tmp;;
      head' ← kid head 1;
      o ← getop head';
      if decide (o = LAM) then
        match args with [] => mret (head', []) | _ => beta_loop head' args end
      else mret (head', args)
  end.

(** [whr]: the result is a new reference when it differs from [e]. *)
Definition whr (fuel : nat) (e : ptr) : M mem ptr :=
  h ← get_head e true;
  o ← getop h;
  if decide (o = LAM) then
    '(head, args) ← collect_args e true;
    c ← cloned head;
    '(head, cloned_head) ←
      (if (c : bool) then h' ← clone fuel head; mret (h', h')
       else setcloned head;; mret (head, null));
    match args with
    | [] => undefined OutOfBounds
    | _ =>
        '(head, rest) ← beta_loop head args;
        for_each inc rest;;
        inc head;;
        (if decide (cloned_head = null) then mret () else dec cloned_head);;
        build_app head rest 0
    end
  else mret e.

(** ** Conversions between application forms *)

Fixpoint convert_to_tree_app (fuel : nat) (e : ptr) : M mem ptr :=
  match fuel with
  | 0 => throw OutOfFuel
  | S fuel =>
      o ← getop e;
      if decide (o = APP) then
        ks ← kids_list e;
        kds ← map_m (convert_to_tree_app fuel) (drop 1 ks);
        h ← get_head e true;
        build_app h kds 0
      else mret e
  end.

Fixpoint convert_to_flat_app (fuel : nat) (e : ptr) : M mem ptr :=
  match fuel with
  | 0 => throw OutOfFuel
  | S fuel =>
      o ← getop e;
      if decide (o = APP) then
        '(hd, args) ← collect_args e true;
        args' ← map_m (convert_to_flat_app fuel) args;
        nce ← new_cexpr APP (hd :: args');
        inc nce;;
        mret nce
      else mret e
  end.

(** ** Definitional equality *)

(** [((HoleExpr)head) applied to variables]: abstract [e] over the arguments.
    An argument that is not a [SYM_EXPR], or occurs twice, makes the comparison
    fail; the flags set before that stay set. *)
Fixpoint hole_abstract (args : list ptr) (t : ptr) : M mem (option ptr) :=
  match args with
  | [] => mret (Some t)
  | a :: args =>
      c ← getclass a;
      if decide (c ≠ SYM_EXPR) then mret None
      else
        b ← getexmark a;
        if (b : bool) then mret None
        else
          v ← sym_val a;
          let tmp := if decide (v = null) then a else v in
          inc tmp;;
          t' ← new_cexpr LAM [tmp; t];
          setexmark a;;
          hole_abstract args t'
  end.

Definition defeq_hole_app (e1 e2 : ptr) : M mem bool :=
  '(head, args) ← collect_args e1 true;
  inc e2;;
  ot ← hole_abstract args e2;
  match ot with
  | None => mret false
  | Some t =>
      for_each clearexmark args;;
      set_hole_val head t;;
      mret true
  end.

(** Fill an unfilled hole with what the other side stands for. *)
Definition fill_hole (h e : ptr) : M mem bool :=
  tmp ← followDefs e;
  set_hole_val h tmp;;
  inc tmp;;
  mret true.

(** The first switch: cases where [e1] is not in a form to compare. *)
Definition defeq_left (rec : ptr → ptr → M mem bool) (fuel : nat) (e1 e2 : ptr)
    : M mem (option bool) :=
  n ← load e1;
  match body n with
  | PC ASCRIBE _ => k ← kid e1 0; Some <$> rec k e2
  | PC APP _ =>
      tmp ← whr fuel e1;
      if decide (tmp = e1) then
        h ← get_head e1 true;
        c ← getclass h;
        if decide (c = HOLE_EXPR) then Some <$> defeq_hole_app e1 e2 else mret None
      else
        b ← rec tmp e2;
        dec tmp;;
        mret (Some b)
  | PHole v =>
      if decide (v = null) then Some <$> fill_hole e1 e2 else Some <$> rec v e2
  | PSymS _ v | PSym v => if decide (v = null) then mret None else Some <$> rec v e2
  | _ => mret None
  end.

(** The second switch: the same for [e2]. *)
Definition defeq_right (rec : ptr → ptr → M mem bool) (fuel : nat) (e1 e2 : ptr)
    : M mem (option bool) :=
  n ← load e2;
  match body n with
  | PC ASCRIBE _ => k ← kid e2 0; Some <$> rec e1 k
  | PC APP _ =>
      tmp ← whr fuel e2;
      if decide (tmp = e2) then mret None
      else
        b ← rec e1 tmp;
        dec tmp;;
        mret (Some b)
  | PHole v =>
      if decide (v = null) then Some <$> fill_hole e2 e1 else Some <$> rec e1 v
  | PSymS _ v | PSym v => if decide (v = null) then mret None else Some <$> rec e1 v
  | _ => mret None
  end.

(** The kids of two applications, from position [i] on. *)
Fixpoint defeq_kids (rec : ptr → ptr → M mem bool) (steps i : nat) (e1 e2 : ptr) : M mem bool :=
  match steps with
  | 0 => undefined OutOfBounds
  | S steps =>
      k1 ← kid e1 i;
      if decide (k1 = null) then k2 ← kid e2 i; mret (bool_decide (k2 = null))
      else
        k2 ← kid e2 i;
        if decide (k2 = null) then mret false
        else
          b ← rec k1 k2;
          if (b : bool) then defeq_kids rec steps (S i) e1 e2 else mret false
  end.

(** Two abstractions: the variable of [e1] stands for that of [e2] while kid
    [last] is compared. *)
Definition defeq_binder (rec : ptr → ptr → M mem bool) (last : nat) (e1 e2 : ptr) : M mem bool :=
  v1 ← kid e1 0;
  prev ← sym_val v1;
  v2 ← kid e2 0;
  v2' ← followDefs v2;
  set_sym_val v1 v2';;
  b1 ← kid e1 last;
  b2 ← kid e2 last;
  bodies_equal ← rec b1 b2;
  set_sym_val v1 prev;;
  mret bodies_equal.

(** Both sides have the same operator. *)
Definition defeq_same (rec : ptr → ptr → M mem bool) (e1 e2 : ptr) : M mem bool :=
  n ← load e1;
  match body n with
  | PInt i1 => i2 ← int_of e2; mret (i1 =? i2)%Z
  | PRat r1 => r2 ← rat_of e2; mret (Qeq_bool r1 r2)
  | PSymS _ _ | PSym _ => mret (bool_decide (e1 = e2))
  | PHole _ => mret false
  | PC PI _ =>
      d1 ← kid e1 1;
      d2 ← kid e2 1;
      b ← rec d1 d2;
      if (b : bool) then defeq_binder rec 2 e1 e2 else mret false
  | PC LAM _ => defeq_binder rec 1 e1 e2
  | PC APP ks => defeq_kids rec (length ks) 0 e1 e2
  | PC TYPE _ | PC KIND _ | PC MPZ _ => mret true
  | PC _ _ => mret false
  end.

Fixpoint defeq (fuel : nat) (e1 e2 : ptr) : M mem bool :=
  match fuel with
  | 0 => throw OutOfFuel
  | S fuel =>
      if decide (e1 = e2) then mret true
      else
        op1 ← getop e1;
        op2 ← getop e2;
        r ← defeq_left (defeq fuel) fuel e1 e2;
        match r with
        | Some b => mret b
        | None =>
            r ← defeq_right (defeq fuel) fuel e1 e2;
            match r with
            | Some b => mret b
            | None => if decide (op1 = op2) then defeq_same (defeq fuel) e1 e2 else mret false
            end
        end
  end.

(** ** Free variables *)

(** Whether one of the kids passes the test, from left to right. *)
Fixpoint any_kid (f : ptr → M mem bool) (ks : list ptr) : M mem bool :=
  match ks with
  | [] => mret false
  | k :: ks => b ← f k; if (b : bool) then mret true else any_kid f ks
  end.

Fixpoint free_in (fuel : nat) (e x : ptr) : M mem bool :=
  match fuel with
  | 0 => throw OutOfFuel
  | S fuel =>
      n ← load e;
      match body n with
      | PHole v => if decide (v = null) then mret (bool_decide (e = x)) else free_in fuel v x
      | PSymS _ v | PSym v =>
          if decide (v = null) then mret (bool_decide (e = x))
          else
            c ← getclass v;
            if decide (c = HOLE_EXPR) then free_in fuel v x else mret (bool_decide (e = x))
      | PInt _ | PRat _ => mret false
      | PC o ks =>
          k0 ← (if decide (o = LAM ∨ o = PI) then kid e 0 else mret null);
          if decide ((o = LAM ∨ o = PI) ∧ x = k0) then mret false
          else
            l ← kid_list ks;
            any_kid (λ k, free_in fuel k x) l
      end
  end.

(** [calc_free_in]: the flag of a pi says whether its variable occurs in the range. *)
Definition calc_free_in (fuel : nat) (e : ptr) : M mem () :=
  clearexmark e;;
  range ← kid e 2;
  var ← kid e 0;
  b ← free_in fuel range var;
  when b (setexmark e).

(** [isType(statType)]: a chain of pis that ends in [type]. *)
Fixpoint is_type (fuel : nat) (statType typ : ptr) : M mem bool :=
  match fuel with
  | 0 => throw OutOfFuel
  | S fuel =>
      if decide (typ = statType) then mret true
      else
        o ← getop typ;
        if decide (o = PI) then k ← kid typ 2; is_type fuel statType k else mret false
  end.

Definition isType (statType typ : ptr) : M mem bool :=
  m ← get_st; is_type (S (size (heap m))) statType typ.

Definition isDatatype (e : ptr) : M mem bool :=
  c ← getclass e;
  o ← getop e;
  mret (bool_decide (c = SYMS_EXPR ∨ o = MPZ ∨ o = MPQ)).

Definition isArithTerm (e : ptr) : M mem bool :=
  o ← getop e; mret (bool_decide (o = ADD ∨ o = NEG)).

(** ** Printing *)

(** [mpz_get_str] and [mpq_get_str] in base 10. *)
Definition mpz_str (z : Z) : string := pretty z.
Definition mpq_str (q : Q) : string :=
  if decide (Qden q = 1%positive) then pretty (Qnum q)
  else pretty (Qnum q) +:+ "/" +:+ pretty (Zpos (Qden q)).

(** What precedes the kids of an operator that is printed as a list. *)
Definition op_prefix (o : op) : option string :=
  match o with
  | LAM => Some "(\" | PI => Some "(!" | ADD => Some "(mp_add" | MUL => Some "(mp_mul"
  | DIV => Some "(mp_div" | NEG => Some "(mp_neg" | IFNEG => Some "(ifneg"
  | IFZERO => Some "(ifzero" | RUN => Some "(run" | PROG => Some "(prog" | PROGVARS => Some "("
  | MATCH => Some "(match" | CASE => Some "(" | LET => Some "(let" | DO => Some "(do"
  | IFMARKED => Some "(ifmarked" | COMPARE => Some "(compare" | MARKVAR => Some "(markvar"
  | FAIL => Some "(fail " | ASCRIBE => Some "(:"
  | _ => None
  end%string.

(** An integer literal: [(~ n)] when negative. *)
Definition int_str (z : Z) : string :=
  if (z <? 0)%Z then "(~ " +:+ mpz_str (- z) +:+ ")" else mpz_str z.

(** A rational literal: the code prints the value once, and then again. *)
Definition rat_str (q : Q) : string :=
  mpq_str q +:+
  (if (Qnum q <? 0)%Z then "(~ " +:+ mpq_str (Qopp q) +:+ ")" else mpq_str q).

(** [print_kids] and [print_vector]: each entry after a space. *)
Fixpoint spaced (f : ptr → M mem string) (ks : list ptr) : M mem string :=
  match ks with
  | [] => mret EmptyString
  | k :: ks => s ← f k; s' ← spaced f ks; mret (" " +:+ s +:+ s')
  end.

Fixpoint toString (fuel : nat) (e : ptr) : M mem string :=
  match fuel with
  | 0 => throw OutOfFuel
  | S fuel =>
      n ← load e;
      match body n with
      | PInt z => mret (int_str z)
      | PRat q => mret (rat_str q)
      | PSymS s v =>
          if decide (v = null) then mret s
          else
            o ← getop v;
            if decide (o = PROG) then mret s else toString fuel v
      | PSym v => undefined BadCast
      | PHole v =>
          if decide (v = null) then mret ("_[ " +:+ pretty e +:+ "]") else toString fuel v
      | PC APP _ =>
          '(head, args) ← collect_args e false;
          h ← toString fuel head;
          a ← spaced (toString fuel) args;
          mret ("(" +:+ h +:+ a +:+ ")")
      | PC TYPE _ => mret "type"%string
      | PC KIND _ => mret "kind"%string
      | PC MPZ _ => mret "mpz"%string
      | PC MPQ _ => mret "mpq"%string
      | PC o ks =>
          match op_prefix o with
          | Some pre => l ← kid_list ks; s ← spaced (toString fuel) l; mret (pre +:+ s +:+ ")")
          | None =>
              mret ("; unrecognized form of expr(2) " +:+ pretty (op_code o) +:+ " "
                    +:+ pretty (class_code CEXPR))
          end
      end
  end.

Definition print (fuel : nat) (e : ptr) : M mem () := s ← toString fuel e; print_out s.
