(* ===== verification/PrintSmt2.v ===== *)
(** * Printing formulas for SMT-LIB (print_smt2.cpp)

    After a successful check the checker prints the terms that stand for the
    holes of ascriptions in the syntax of SMT-LIB.  The mode of a call says which
    operator the enclosing application has, so that nested conjunctions and
    disjunctions, and curried applications, are printed as one list. *)

From stdpp Require Import base tactics list strings gmap numbers pretty.
From S2P Require Import Prelude Header Memory Expr.

(** [is_smt2_poly_formula]: the operators whose first argument is a sort. *)
Definition is_smt2_poly_formula (e : ptr) : M mem bool :=
  c ← getclass e;
  if decide (c = SYMS_EXPR) then
    s ← sym_name e; mret (bool_decide (s = "="%string) || bool_decide (s = "distinct"%string))
  else mret false.

Definition get_mode (e : ptr) : M mem Z :=
  c ← getclass e;
  if decide (c = SYMS_EXPR) then
    s ← sym_name e;
    mret (if decide (s = "apply"%string) then 1 else if decide (s = "and"%string) then 2
          else if decide (s = "or"%string) then 3 else if decide (s = "impl"%string) then 4 else 0)%Z
  else mret 0%Z.

(** [args[i]]; the vector is not checked. *)
Definition nth_ptr (args : list ptr) (i : nat) : M mem ptr :=
  match args !! i with Some a => mret a | None => undefined OutOfBounds end.

(** The loop over the arguments: a space between two of them. *)
Fixpoint print_args (f : ptr → M mem ()) (args : list ptr) : M mem () :=
  match args with
  | [] => mret ()
  | [a] => f a
  | a :: args => f a;; print_out " ";; print_args f args
  end.

(** The cases of an application. *)
Definition print_smt2_app (rec : ptr → Z → M mem ()) (fuel : nat) (p : ptr) (mode : Z) : M mem () :=
  '(head, args) ← collect_args p false;
  newMode ← get_mode head;
  poly ← is_smt2_poly_formula head;
  if (poly : bool) then
    print_out "(";;
    print fuel head;;
    print_out " ";;
    a ← nth_ptr args 1;
    rec a newMode;;
    print_out " ";;
    b ← nth_ptr args 2;
    rec b newMode;;
    print_out ")"
  else if decide ((mode = 2 ∨ mode = 3)%Z ∧ mode = newMode) then
    a ← nth_ptr args 0;
    rec a newMode;;
    print_out " ";;
    b ← nth_ptr args 1;
    rec b newMode
  else if decide (newMode = 1%Z) then
    let outer := bool_decide (mode ≠ 1%Z ∨ newMode ≠ mode) in
    when outer (print_out "(");;
    a ← nth_ptr args 2;
    rec a newMode;;
    print_out " ";;
    b ← nth_ptr args 3;
    rec b 0%Z;;
    when outer (print_out ")")
  else
    print_out "(";;
    (if decide (newMode = 4%Z) then print_out "=>" else print fuel head);;
    print_out " ";;
    print_args (λ a, rec a newMode) args;;
    print_out ")".

Fixpoint print_smt2 (fuel : nat) (p : ptr) (mode : Z) : M mem () :=
  match fuel with
  | 0 => throw OutOfFuel
  | S fuel =>
      let rec := print_smt2 fuel in
      n ← load p;
      match body n with
      | PC APP _ => print_smt2_app rec fuel p mode
      | PC o _ => print_out ("Unhandled op " +:+ pretty (op_code o) +:+ nl)
      | PHole v => if decide (v = null) then print_out "_" else rec v mode
      | PSymS _ v | PSym v => if decide (v = null) then print fuel p else rec v mode
      | b => print_out ("Unhandled class " +:+ pretty (class_code (class_of b)) +:+ nl)
      end
  end.
