(* ===== verification/SmtSpec.v ===== *)
(** * What is printed for SMT-LIB

    [print_smt2] threads a mode through its recursion to leave out parentheses.
    Here its output is shown to be the text of an S-expression that is defined
    without modes: nested conjunctions and disjunctions are one list, so are
    curried applications, an implication has the SMT-LIB name and the sort of an
    equation is dropped. *)

From stdpp Require Import base tactics list strings gmap numbers.
From S2P Require Import Prelude Header Memory Expr PrintSmt2.

(** ** Formulas and their S-expressions *)

Inductive conn := CAnd | COr.
#[global] Instance conn_eq_dec : EqDecision conn.
Proof. solve_decision. Defined.

Inductive fml :=
  | FSym (s : string)
  | FConn (c : conn) (a b : fml)
  | FImpl (a b : fml)
  | FOp1 (s : string) (a : fml)
  | FOp2 (s : string) (a b : fml)
  | FPoly (s : string) (a b : fml)      (* [(= sort a b)] and [(distinct sort a b)] *)
  | FApply (f a : fml).                 (* [(apply sort sort f a)] *)

Inductive sexp := SAtom (s : string) | SList (l : list sexp).

Definition words : list string → string := String.concat " ".

Fixpoint show (x : sexp) : string :=
  match x with SAtom s => s | SList l => "(" +:+ words (map show l) +:+ ")" end.

Definition conn_name (c : conn) : string := match c with CAnd => "and" | COr => "or" end.
Definition conn_mode (c : conn) : Z := match c with CAnd => 2 | COr => 3 end.

(** The elements of a list after its head, and all of them. *)
Definition operands (x : sexp) : list sexp := match x with SList (_ :: l) => l | x => [x] end.
Definition elements (x : sexp) : list sexp := match x with SList l => l | x => [x] end.

Definition is_conn (c : conn) (a : fml) : bool := match a with FConn c' _ _ => bool_decide (c' = c) | _ => false end.
Definition is_apply (a : fml) : bool := match a with FApply _ _ => true | _ => false end.

Fixpoint sexp_of (φ : fml) : sexp :=
  match φ with
  | FSym s => SAtom s
  | FConn c a b =>
      SList (SAtom (conn_name c) :: (if is_conn c a then operands (sexp_of a) else [sexp_of a]) ++
                                    (if is_conn c b then operands (sexp_of b) else [sexp_of b]))
  | FImpl a b => SList [SAtom "=>"; sexp_of a; sexp_of b]
  | FOp1 s a => SList [SAtom s; sexp_of a]
  | FOp2 s a b | FPoly s a b => SList [SAtom s; sexp_of a; sexp_of b]
  | FApply f a => SList ((if is_apply f then elements (sexp_of f) else [sexp_of f]) ++ [sexp_of a])
  end.

(** ** Formulas in memory *)

Definition plain_op (s : string) : bool :=
  bool_decide (s ∉ ["apply"; "and"; "or"; "impl"; "="; "distinct"]%string).

Definition sym_at (h : gmap N node) (p : ptr) (s : string) : Prop :=
  ∃ n, p ≠ null ∧ h !! p = Some n ∧ body n = PSymS s null.
Definition app_at (h : gmap N node) (p : ptr) (s : string) (args : list ptr) : Prop :=
  ∃ n hd, p ≠ null ∧ h !! p = Some n ∧ body n = PC APP (hd :: args ++ [null]) ∧ sym_at h hd s ∧
    Forall (.≠ null) args.

(** [fml_at h k p φ]: [p] stands for [φ]; [k] is the depth, with the values of
    holes and defined symbols counted. *)
Inductive fml_at (h : gmap N node) : nat → ptr → fml → Prop :=
  | at_sym p s : sym_at h p s → fml_at h 2 p (FSym s)
  | at_val p n v k φ : p ≠ null → h !! p = Some n → v ≠ null →
      body n = PHole v ∨ body n = PSym v ∨ (∃ s, body n = PSymS s v) →
      fml_at h k v φ → fml_at h (S k) p φ
  | at_conn p c pa pb j k a b : app_at h p (conn_name c) [pa; pb] → fml_at h j pa a → fml_at h k pb b →
      fml_at h (S (j `max` k)) p (FConn c a b)
  | at_impl p pa pb j k a b : app_at h p "impl" [pa; pb] → fml_at h j pa a → fml_at h k pb b →
      fml_at h (S (j `max` k)) p (FImpl a b)
  | at_op1 p s pa k a : plain_op s = true → app_at h p s [pa] → fml_at h k pa a → fml_at h (S k) p (FOp1 s a)
  | at_op2 p s pa pb j k a b : plain_op s = true → app_at h p s [pa; pb] → fml_at h j pa a → fml_at h k pb b →
      fml_at h (S (j `max` k)) p (FOp2 s a b)
  | at_poly p s srt pa pb j k a b : s = "="%string ∨ s = "distinct"%string →
      app_at h p s [srt; pa; pb] → fml_at h j pa a → fml_at h k pb b →
      fml_at h (S (j `max` k)) p (FPoly s a b)
  | at_apply p s1 s2 pf pa j k f a : app_at h p "apply" [s1; s2; pf; pa] → fml_at h j pf f → fml_at h k pa a →
      fml_at h (S (j `max` k)) p (FApply f a).

(** ** Steps *)

(** More text printed. *)
Definition say (s : string) (m : mem) : mem := set_cout (cout m +:+ s) m.

Lemma say_say s s' m : say s' (say s m) = say (s +:+ s') m.
Proof. unfold say, set_cout. simpl. by rewrite string_app_assoc. Qed.
Lemma print_out_say s m : print_out s m = Ok ((), say s m).
Proof. done. Qed.

Lemma load_at m p n : p ≠ null → heap m !! p = Some n → load p m = Ok (n, m).
Proof. intros Hp Hn. unfold load. by rewrite decide_False, Hn. Qed.

Section steps.
Context (m : mem).

Lemma print_sym fuel p s : sym_at (heap m) p s → print (S fuel) p m = Ok ((), say s m).
Proof.
  intros (n & Hp & Hn & Eb). unfold print. simpl.
  unfold mbind at 1, M_bind at 1. by rewrite (bind_run _ _ _ _ _ (load_at _ _ _ Hp Hn)), Eb.
Qed.
Lemma get_mode_at p s :
  sym_at (heap m) p s → get_mode p m =
    Ok ((if decide (s = "apply"%string) then 1 else if decide (s = "and"%string) then 2
         else if decide (s = "or"%string) then 3 else if decide (s = "impl"%string) then 4 else 0)%Z, m).
Proof.
  intros (n & Hp & Hn & Eb). pose proof (load_at _ _ _ Hp Hn) as Hl. unfold get_mode, getclass, sym_name.
  unfold mbind, M_bind. rewrite Hl, Eb. simpl. by rewrite Hl, Eb.
Qed.
Lemma is_poly_at p s :
  sym_at (heap m) p s →
  is_smt2_poly_formula p m = Ok (bool_decide (s = "="%string) || bool_decide (s = "distinct"%string), m).
Proof.
  intros (n & Hp & Hn & Eb). pose proof (load_at _ _ _ Hp Hn) as Hl.
  unfold is_smt2_poly_formula, getclass, sym_name.
  unfold mbind, M_bind. rewrite Hl, Eb. simpl. by rewrite Hl, Eb.
Qed.
Lemma collect_args_at p s args :
  app_at (heap m) p s args → ∃ hd, sym_at (heap m) hd s ∧ collect_args p false m = Ok ((hd, args), m).
Proof.
  intros (n & hd & Hp & Hn & Eb & Hh & Hnz). exists hd. split; [done|].
  assert (upto_null (hd :: args ++ [null]) = Some (hd :: args)) as Hu.
  { destruct Hh as (? & Hh & _). simpl. rewrite decide_False by done.
    assert (upto_null (args ++ [null]) = Some args) as ->; [|done]. clear -Hnz.
    induction Hnz as [|a args Ha Hnz IH]; [done|]. simpl. by rewrite decide_False, IH. }
  pose proof (load_at _ _ _ Hp Hn) as Hl.
  assert (getop p m = Ok (APP, m)) as Ho by (unfold getop; by rewrite (bind_run _ _ _ _ _ Hl), Eb).
  assert (kids_of p m = Ok (hd :: args ++ [null], m)) as Hk
    by (unfold kids_of; by rewrite (bind_run _ _ _ _ _ Hl), Eb).
  assert (kid p 0 m = Ok (hd, m)) as H0 by (unfold kid; by rewrite (bind_run _ _ _ _ _ Hk)).
  assert (kids_list p m = Ok (hd :: args, m)) as Hks
    by (unfold kids_list, kid_list; by rewrite (bind_run _ _ _ _ _ Hk), Hu).
  unfold collect_args. rewrite (bind_run _ _ _ _ _ Ho), decide_True by done.
  unfold mbind at 1, M_bind at 1. by rewrite (bind_run _ _ _ _ _ H0), (bind_run _ _ _ _ _ Hks).
Qed.
End steps.

(** ** The text in a mode *)

(** Without the parentheses and the operator when the enclosing application has
    the same one. *)
Definition text_in (mode : Z) (φ : fml) : string :=
  match φ with
  | FConn c _ _ => if decide (mode = conn_mode c) then words (map show (operands (sexp_of φ)))
                   else show (sexp_of φ)
  | FApply _ _ => if decide (mode = 1%Z) then words (map show (elements (sexp_of φ)))
                  else show (sexp_of φ)
  | _ => show (sexp_of φ)
  end.

Lemma words_app l1 l2 : l1 ≠ [] → l2 ≠ [] → words (l1 ++ l2) = words l1 +:+ " " +:+ words l2.
Proof.
  intros H1 H2. induction l1 as [|s l1 IH]; [done|]. destruct l1 as [|s' l1].
  - by destruct l2.
  - change (words ((s :: s' :: l1) ++ l2)) with (s +:+ " " +:+ words ((s' :: l1) ++ l2)).
    change (words (s :: s' :: l1)) with (s +:+ " " +:+ words (s' :: l1)).
    rewrite IH by done. by rewrite !string_app_assoc.
Qed.

Lemma words_cons s l : l ≠ [] → words (s :: l) = s +:+ " " +:+ words l.
Proof. by destruct l. Qed.

Lemma words_one s : words [s] = s.
Proof. done. Qed.

(** The operands that come from one argument. *)
Lemma parts_text c a :
  words (map show (if is_conn c a then operands (sexp_of a) else [sexp_of a])) = text_in (conn_mode c) a.
Proof.
  destruct a as [s|c' a b|a b|s a|s a b|s a b|f a]; try done.
  - simpl. case_bool_decide as E; [subst; by rewrite decide_True|]. simpl.
    rewrite decide_False; [done|]. by destruct c, c'.
  - simpl. by destruct c.
Qed.
Lemma apply_text f :
  words (map show (if is_apply f then elements (sexp_of f) else [sexp_of f])) = text_in 1 f.
Proof. destruct f as [s|c' a b|a b|s a|s a b|s a b|f a]; try done. by destruct c'. Qed.

Lemma conn_parts_nonempty c a :
  map show (if is_conn c a then operands (sexp_of a) else [sexp_of a]) ≠ [].
Proof.
  induction a as [s|c' a IH b _|a _ b _|s a _|s a _ b _|s a _ b _|f _ a _]; try done. simpl.
  case_bool_decide as E; [subst c'|done]. simpl. rewrite map_app. by intros [? _]%app_eq_nil.
Qed.
Lemma apply_parts_nonempty f :
  map show (if is_apply f then elements (sexp_of f) else [sexp_of f]) ≠ [].
Proof.
  destruct f as [s|c' a b|a b|s a|s a b|s a b|f a]; try done. simpl. rewrite map_app.
  by intros [_ ?]%app_eq_nil.
Qed.

(** An operator and its operands, and the text without them. *)
Lemma conn_text c a b mode :
  text_in mode (FConn c a b) =
    if decide (mode = conn_mode c) then text_in (conn_mode c) a +:+ " " +:+ text_in (conn_mode c) b
    else "(" +:+ conn_name c +:+ " " +:+ text_in (conn_mode c) a +:+ " " +:+ text_in (conn_mode c) b +:+ ")".
Proof.
  assert (words (map show (operands (sexp_of (FConn c a b)))) =
    text_in (conn_mode c) a +:+ " " +:+ text_in (conn_mode c) b) as E.
  { simpl. by rewrite map_app, words_app, !parts_text by apply conn_parts_nonempty. }
  unfold text_in at 1. case_decide; [done|]. simpl in *.
  rewrite words_cons, E; [by rewrite <-!string_app_assoc|].
  rewrite map_app. intros [? _]%app_eq_nil. by eapply conn_parts_nonempty.
Qed.

Lemma apply_texts f a mode :
  text_in mode (FApply f a) =
    if decide (mode = 1%Z) then text_in 1 f +:+ " " +:+ text_in 0 a
    else "(" +:+ text_in 1 f +:+ " " +:+ text_in 0 a +:+ ")".
Proof.
  assert (text_in 0 a = show (sexp_of a)) as Ea by (by destruct a as [|[] | | | | |]).
  assert (words (map show (elements (sexp_of (FApply f a)))) = text_in 1 f +:+ " " +:+ text_in 0 a) as E.
  { simpl. by rewrite map_app, words_app, apply_text, Ea by (done || apply apply_parts_nonempty). }
  unfold text_in at 1. case_decide; [done|]. simpl in *. rewrite E. by rewrite <-!string_app_assoc.
Qed.

Lemma text_other mode φ : mode ≠ 1%Z → mode ≠ 2%Z → mode ≠ 3%Z → text_in mode φ = show (sexp_of φ).
Proof. intros. destruct φ as [|[] | | | | |]; try done; unfold text_in; by rewrite decide_False. Qed.

(** ** The printer *)

Section printer.
Context (h : gmap N node).

(** [c] prints [s] and does nothing else. *)
Definition says (c : M mem ()) (s : string) : Prop := ∀ m, heap m = h → c m = Ok ((), say s m).

Lemma says_out s : says (print_out s) s.
Proof. done. Qed.
Lemma says_bind c d s s' : says c s → says d s' → says (c;; d) (s +:+ s').
Proof.
  intros Hc Hd m E. rewrite (bind_run _ _ _ _ _ (Hc m E)), <-say_say. by apply Hd.
Qed.
Lemma says_read {A} (c : M mem A) (f : A → M mem ()) a s :
  (∀ m, heap m = h → c m = Ok (a, m)) → says (f a) s → says (c ≫= f) s.
Proof. intros Hc Hf m E. rewrite (bind_run _ _ _ _ _ (Hc m E)). by apply Hf. Qed.
Lemma says_nth l i a (f : ptr → M mem ()) s : l !! i = Some a → says (f a) s → says (nth_ptr l i ≫= f) s.
Proof. intros E. apply says_read. intros m _. unfold nth_ptr. by rewrite E. Qed.
Lemma says_sym fuel p s : sym_at h p s → says (print (S fuel) p) s.
Proof. intros H m <-. by apply print_sym. Qed.
Lemma says_when (b : bool) s : says (when b (print_out s)) (if b then s else EmptyString).
Proof.
  destruct b; [done|]. intros m _. unfold when, say. rewrite string_app_empty_r. by destruct m.
Qed.
Lemma says_eq c s s' : says c s → s = s' → says c s'.
Proof. by intros ? ->. Qed.

(** The number [get_mode] gives to a name. *)
Definition mode_of (s : string) : Z :=
  (if decide (s = "apply"%string) then 1 else if decide (s = "and"%string) then 2
   else if decide (s = "or"%string) then 3 else if decide (s = "impl"%string) then 4 else 0)%Z.

Lemma plain_op_mode s :
  plain_op s = true →
  bool_decide (s = "="%string) || bool_decide (s = "distinct"%string) = false ∧ mode_of s = 0%Z.
Proof.
  unfold plain_op. intros H%bool_decide_eq_true. rewrite !not_elem_of_cons in H.
  destruct H as (H1 & H2 & H3 & H4 & H5 & H6 & _). rewrite !bool_decide_false by done. unfold mode_of.
  by rewrite !decide_False.
Qed.

(** The cases of an application, for its head. *)
Definition app_body (rec : ptr → Z → M mem ()) (fuel : nat) (head : ptr) (poly : bool) (newMode : Z)
    (args : list ptr) (mode : Z) : M mem () :=
  if poly then
    print_out "(";; print fuel head;; print_out " ";;
    a ← nth_ptr args 1; rec a newMode;; print_out " ";;
    b ← nth_ptr args 2; rec b newMode;; print_out ")"
  else if decide ((mode = 2 ∨ mode = 3)%Z ∧ mode = newMode) then
    a ← nth_ptr args 0; rec a newMode;; print_out " ";; b ← nth_ptr args 1; rec b newMode
  else if decide (newMode = 1%Z) then
    let outer := bool_decide (mode ≠ 1%Z ∨ newMode ≠ mode) in
    when outer (print_out "(");;
    a ← nth_ptr args 2; rec a newMode;; print_out " ";; b ← nth_ptr args 3; rec b 0%Z;;
    when outer (print_out ")")
  else
    print_out "(";;
    (if decide (newMode = 4%Z) then print_out "=>" else print fuel head);;
    print_out " ";; print_args (λ a, rec a newMode) args;; print_out ")".

Lemma app_says fuel p s args mode t :
  app_at h p s args →
  (∀ head, sym_at h head s →
     says (app_body (print_smt2 fuel) fuel head
             (bool_decide (s = "="%string) || bool_decide (s = "distinct"%string)) (mode_of s) args mode) t) →
  says (print_smt2 (S fuel) p mode) t.
Proof.
  intros H Hb m Hm. rewrite <-Hm in H. destruct (collect_args_at m p s args H) as (head & Hh & Hc).
  assert (sym_at h head s) as Hh' by (by rewrite <-Hm). rewrite <-(Hb head Hh' m Hm).
  destruct H as (n & hd & Hp & Hn & Eb & _). cbn [print_smt2].
  rewrite (bind_run _ _ _ _ _ (load_at _ _ _ Hp Hn)), Eb. unfold print_smt2_app.
  rewrite (bind_run _ _ _ _ _ Hc), (bind_run _ _ _ _ _ (get_mode_at _ _ _ Hh)).
  by rewrite (bind_run _ _ _ _ _ (is_poly_at _ _ _ Hh)).
Qed.

(** [rec] prints [a] in every mode. *)
Definition prints (rec : ptr → Z → M mem ()) (p : ptr) (a : fml) : Prop :=
  ∀ mode, says (rec p mode) (text_in mode a).

Section bodies.
Context (rec : ptr → Z → M mem ()) (fuel : nat) (head : ptr) (mode : Z).

Lemma conn_says c pa pb a b :
  sym_at h head (conn_name c) → prints rec pa a → prints rec pb b →
  says (app_body rec (S fuel) head false (conn_mode c) [pa; pb] mode) (text_in mode (FConn c a b)).
Proof.
  intros Hh Ha Hb. rewrite conn_text. unfold app_body.
  destruct (decide (mode = conn_mode c)) as [E|E].
  - rewrite decide_True by (by destruct c; auto). eapply says_nth; [done|].
    apply says_bind, says_bind; [apply Ha|apply says_out|]. by eapply says_nth.
  - rewrite decide_False by tauto. rewrite !decide_False by (by destruct c).
    do 3 (apply says_bind; [first [apply says_out|by apply says_sym]|]).
    eapply says_eq; [apply says_bind; [|apply says_out]; apply says_bind, says_bind; [apply Ha|apply says_out|apply Hb]|].
    by rewrite !string_app_assoc.
Qed.

(** The texts of the operands in their modes, one after the other. *)
Lemma print_args_says nm ps φs :
  nm ≠ 1%Z → nm ≠ 2%Z → nm ≠ 3%Z → φs ≠ [] → Forall2 (prints rec) ps φs →
  says (print_args (λ a, rec a nm) ps) (words (map show (sexp_of <$> φs))).
Proof.
  intros H1 H2 H3 Hne H. induction H as [|p φ ps φs Hp H IH]; [done|].
  specialize (Hp nm). rewrite text_other in Hp by done. destruct H as [|p' φ' ps φs Hp' H]; [done|].
  change (says (rec p nm;; print_out " ";; print_args (λ a, rec a nm) (p' :: ps))
    (show (sexp_of φ) +:+ " " +:+ words (map show (sexp_of <$> (φ' :: φs))))).
  apply says_bind; [done|]. apply says_bind; [apply says_out|by apply IH].
Qed.

Lemma op_says s name nm ps φs :
  sym_at h head s → nm = 0%Z ∧ name = s ∨ nm = 4%Z ∧ name = "=>"%string → φs ≠ [] → Forall2 (prints rec) ps φs →
  says (app_body rec (S fuel) head false nm ps mode) (show (SList (SAtom name :: (sexp_of <$> φs)))).
Proof.
  intros Hh Hnm Hne H. unfold app_body.
  assert (nm ≠ 1 ∧ nm ≠ 2 ∧ nm ≠ 3)%Z as (H1 & H2 & H3) by (destruct Hnm as [[-> _]|[-> _]]; done).
  rewrite (decide_False (P:=_ ∧ _)) by (intros [[] ?]; congruence). rewrite (decide_False (P:=nm = 1%Z)) by done.
  eapply says_eq.
  - apply says_bind; [apply says_out|]. apply says_bind; [|apply says_bind; [apply says_out|]].
    + destruct Hnm as [[-> ->]|[-> ->]]; [by apply says_sym|apply says_out].
    + apply says_bind; [by apply print_args_says|apply says_out].
  - simpl. rewrite words_cons by (by destruct φs). by rewrite !string_app_assoc.
Qed.

Lemma poly_says s srt pa pb a b :
  sym_at h head s → prints rec pa a → prints rec pb b →
  says (app_body rec (S fuel) head true 0 [srt; pa; pb] mode) (text_in mode (FPoly s a b)).
Proof.
  intros Hh Ha Hb. unfold app_body. eapply says_eq.
  - apply says_bind; [apply says_out|]. apply says_bind; [by apply says_sym|].
    apply says_bind; [apply says_out|]. eapply says_nth; [done|]. apply says_bind; [apply Ha|].
    apply says_bind; [apply says_out|]. eapply says_nth; [done|]. apply says_bind; [apply Hb|apply says_out].
  - rewrite !(text_other 0) by done. simpl. rewrite !words_cons, words_one by done.
    by rewrite !string_app_assoc.
Qed.

Lemma apply_says s1 s2 pf pa f a :
  prints rec pf f → prints rec pa a →
  says (app_body rec (S fuel) head false 1 [s1; s2; pf; pa] mode) (text_in mode (FApply f a)).
Proof.
  intros Hf Ha. rewrite apply_texts. unfold app_body.
  rewrite decide_False by (intros [[] ?]; congruence). rewrite decide_True by done.
  assert (∀ (b : bool), says (when b (print_out "(");; x ← nth_ptr [s1; s2; pf; pa] 2; rec x 1%Z;; print_out " ";;
    y ← nth_ptr [s1; s2; pf; pa] 3; rec y 0%Z;; when b (print_out ")"))
    ((if b then "(" else "") +:+ text_in 1 f +:+ " " +:+ text_in 0 a +:+ (if b then ")" else ""))) as E.
  { intros b. apply says_bind; [apply says_when|].
    eapply says_nth; [done|]. apply says_bind; [apply Hf|]. apply says_bind; [apply says_out|].
    eapply says_nth; [done|]. apply says_bind; [apply Ha|apply says_when]. }
  case_decide; [subst; rewrite bool_decide_false by (intros [|]; congruence)|rewrite bool_decide_true by auto].
  - eapply says_eq; [apply (E false)|]. by rewrite string_app_empty_r.
  - apply (E true).
Qed.
End bodies.

Lemma print_smt2_prints k p φ : fml_at h k p φ → ∀ fuel, k ≤ fuel → prints (print_smt2 fuel) p φ.
Proof.
  induction 1 as [p s Hs|p n v k φ Hp Hn Hv Eb H IH|p c pa pb j k a b Hp Ha IHa Hb IHb
    |p pa pb j k a b Hp Ha IHa Hb IHb|p s pa k a Hpl Hp Ha IHa|p s pa pb j k a b Hpl Hp Ha IHa Hb IHb
    |p s srt pa pb j k a b Hs Hp Ha IHa Hb IHb|p s1 s2 pf pa j k f a Hp Hf IHf Ha IHa];
    intros [|fuel] Hfuel mode; try lia.
  - destruct fuel as [|fuel]; [lia|]. destruct Hs as (n & Hp & Hn & Eb). intros m Hm.
    cbn [print_smt2]. rewrite <-Hm in Hn. rewrite (bind_run _ _ _ _ _ (load_at _ _ _ Hp Hn)), Eb.
    rewrite decide_True by done. apply print_sym. by exists n.
  - intros m Hm. cbn [print_smt2]. rewrite <-Hm in Hn. rewrite (bind_run _ _ _ _ _ (load_at _ _ _ Hp Hn)).
    specialize (IH fuel ltac:(lia) mode m Hm).
    by destruct Eb as [->|[->|[s ->]]]; rewrite decide_False by done.
  - destruct fuel as [|fuel]; [by inversion Ha; lia|]. eapply app_says; [done|]. intros head Hh.
    replace (_ || _) with false by (by destruct c). replace (mode_of _) with (conn_mode c) by (by destruct c).
    apply conn_says; [done|apply IHa; lia|apply IHb; lia].
  - destruct fuel as [|fuel]; [by inversion Ha; lia|]. eapply app_says; [done|]. intros head Hh.
    apply (op_says _ _ _ _ "impl" "=>" 4 [pa; pb] [a; b]); [done|by right|done|].
    constructor; [apply IHa; lia|]. constructor; [apply IHb; lia|constructor].
  - destruct fuel as [|fuel]; [by inversion Ha; lia|]. eapply app_says; [done|]. intros head Hh.
    destruct (plain_op_mode s Hpl) as [-> ->].
    apply (op_says _ _ _ _ s s 0 [pa] [a]); [done|by left|done|]. constructor; [apply IHa; lia|constructor].
  - destruct fuel as [|fuel]; [by inversion Ha; lia|]. eapply app_says; [done|]. intros head Hh.
    destruct (plain_op_mode s Hpl) as [-> ->].
    apply (op_says _ _ _ _ s s 0 [pa; pb] [a; b]); [done|by left|done|].
    constructor; [apply IHa; lia|]. constructor; [apply IHb; lia|constructor].
  - destruct fuel as [|fuel]; [by inversion Ha; lia|]. eapply app_says; [done|]. intros head Hh.
    replace (_ || _) with true by (by destruct Hs as [->| ->]).
    replace (mode_of s) with 0%Z by (by destruct Hs as [->| ->]).
    apply poly_says; [done|apply IHa; lia|apply IHb; lia].
  - destruct fuel as [|fuel]; [by inversion Ha; lia|]. eapply app_says; [done|]. intros head Hh.
    apply apply_says; [apply IHf; lia|apply IHa; lia].
Qed.
End printer.

(** C32: What is printed for SMT-LIB.  For a formula in memory [print_smt2] prints
    the text of its S-expression and does nothing else: conjunctions directly
    under conjunctions, and disjunctions under disjunctions, are spliced into one
    list, curried applications too, an implication is written with [=>] and an
    equation without its sort; holes and defined symbols are printed by their
    values.  The fuel is enough when it is the depth of the formula. *)
Theorem print_smt2_spec fuel k p φ m :
  fml_at (heap m) k p φ → k ≤ fuel →
  print_smt2 fuel p 0 m = Ok ((), say (show (sexp_of φ)) m).
Proof.
  intros H Hk. rewrite <-(text_other 0 φ) by done. by apply (print_smt2_prints _ _ _ _ H fuel Hk 0%Z m).
Qed.

(** [(and (and p q) (impl p (not q)))], the value of the hole at 10. *)
Definition hole_mem : mem :=
  Mem {[1%N := Node 1 false (PSymS "and" 0); 2%N := Node 1 false (PSymS "p" 0);
        3%N := Node 1 false (PSymS "q" 0); 4%N := Node 1 false (PSymS "impl" 0);
        5%N := Node 1 false (PSymS "not" 0); 6%N := Node 1 false (PC APP [1; 2; 3; 0]%N);
        7%N := Node 1 false (PC APP [5; 3; 0]%N); 8%N := Node 1 false (PC APP [4; 2; 7; 0]%N);
        9%N := Node 1 false (PC APP [1; 6; 8; 0]%N); 10%N := Node 1 false (PHole 9)]} 11
    ∅ EmptyString false false 0 scc_none.

Definition hole_fml : fml :=
  FConn CAnd (FConn CAnd (FSym "p") (FSym "q")) (FImpl (FSym "p") (FOp1 "not" (FSym "q"))).

Lemma print_smt2_spec_witness :
  print_smt2 6 10%N 0 hole_mem = Ok ((), say "(and p q (=> p (not q)))" hole_mem).
Proof.
  apply (print_smt2_spec 6 6 10%N hole_fml hole_mem); [|lia].
  assert (∀ p s, heap hole_mem !! p = Some (Node 1 false (PSymS s 0)) → p ≠ null → sym_at (heap hole_mem) p s)
    as Hs by (intros p s E Hp; by exists (Node 1 false (PSymS s 0))).
  assert (∀ p hd s args, heap hole_mem !! p = Some (Node 1 false (PC APP (hd :: args ++ [null]))) → p ≠ null →
    sym_at (heap hole_mem) hd s → Forall (.≠ null) args → app_at (heap hole_mem) p s args) as Ha
    by (intros p hd s args E Hp ??; by exists (Node 1 false (PC APP (hd :: args ++ [null]))), hd).
  apply (at_val _ _ (Node 1 false (PHole 9)) 9); [done|done|done|by left|].
  apply (at_conn _ 9 CAnd 6 8 3 4).
  - apply (Ha 9%N 1%N "and"%string [6; 8]%N); [done|done|by apply Hs|by repeat constructor].
  - apply (at_conn _ 6 CAnd 2 3 2 2); [|by apply at_sym, Hs..].
    apply (Ha 6%N 1%N "and"%string [2; 3]%N); [done|done|by apply Hs|by repeat constructor].
  - apply (at_impl _ 8 2 7 2 3); [|by apply at_sym, Hs|].
    + apply (Ha 8%N 4%N "impl"%string [2; 7]%N); [done|done|by apply Hs|by repeat constructor].
    + apply (at_op1 _ 7 "not" 3 2); [done| |by apply at_sym, Hs].
      apply (Ha 7%N 5%N "not"%string [3]%N); [done|done|by apply Hs|by repeat constructor].
Defined.
