(* ===== verification/SccWriter.v ===== *)
(** * The writer for compiled side conditions (sccwriter.cpp)

    With [--compile-scc] the checker translates the programs it has read to C++
    and writes them to scccode.h and scccode.cpp.  The writer walks over the code
    of a program in memory and prints statements that leave the value of an
    expression in a C++ variable; it keeps counters for the names of the variables
    it makes up, the names that are in scope, and the constants it has seen.

    [write_code] and [write_expr] call each other; the first is the one with a
    bound.  The counter [strCount] is never read and is left out. *)

From Stdlib Require Import QArith_base.
From stdpp Require Import base tactics list strings gmap numbers pretty.
From S2P Require Import Prelude Header Memory Expr.

(** ** State and output *)

Record writer := Writer {
  wr_mem : mem;
  os : string;                      (* the stream that is written to *)
  exprCount : Z;
  argsCount : Z;
  rnumCount : Z;
  vars : list string;               (* variables in scope *)
  globalSyms : list string
}.

Definition set_wr_mem (m : mem) (w : writer) : writer :=
  Writer m (os w) (exprCount w) (argsCount w) (rnumCount w) (vars w) (globalSyms w).
Definition set_os (s : string) (w : writer) : writer :=
  Writer (wr_mem w) s (exprCount w) (argsCount w) (rnumCount w) (vars w) (globalSyms w).
Definition set_globalSyms (l : list string) (w : writer) : writer :=
  Writer (wr_mem w) (os w) (exprCount w) (argsCount w) (rnumCount w) (vars w) l.

(** Reading an expression. *)
Definition rd {A} : M mem A → M writer A := zoom wr_mem set_wr_mem.

Definition emit (s : string) : M writer () := modify (λ w, set_os (os w +:+ s) w).

(** [indent(os, ind)] *)
Fixpoint indentation (ind : nat) : string :=
  match ind with 0 => EmptyString | S ind => "   " +:+ indentation ind end.
Definition indent (ind : nat) : M writer () := emit (indentation ind).

(** [indent(os, ind); os << s << std::endl;] *)
Definition line (ind : nat) (s : string) : M writer () := emit (indentation ind +:+ s +:+ nl).

(** ["e" << exprCount++] and the like. *)
Definition fresh_expr : M writer string := λ w,
  Ok ("e" +:+ pretty (exprCount w),
      Writer (wr_mem w) (os w) (exprCount w + 1) (argsCount w) (rnumCount w) (vars w) (globalSyms w)).
Definition fresh_args : M writer string := λ w,
  Ok ("args" +:+ pretty (argsCount w),
      Writer (wr_mem w) (os w) (exprCount w) (argsCount w + 1) (rnumCount w) (vars w) (globalSyms w)).
Definition fresh_rnum : M writer string := λ w,
  Ok ("rnum" +:+ pretty (rnumCount w),
      Writer (wr_mem w) (os w) (exprCount w) (argsCount w) (rnumCount w + 1) (vars w) (globalSyms w)).

Definition push_var (s : string) : M writer () := modify (λ w,
  Writer (wr_mem w) (os w) (exprCount w) (argsCount w) (rnumCount w) (vars w ++ [s]) (globalSyms w)).

Definition is_var (s : string) : M writer bool := gets (λ w, bool_decide (s ∈ vars w)).

Definition add_global_sym (s : string) : M writer () := modify (λ w,
  if decide (s ∈ globalSyms w) then w else set_globalSyms (globalSyms w ++ [s]) w).

(** ** Names *)

(** A signed [char] after an assignment from [int]. *)
Definition to_char (n : Z) : Ascii.ascii := Ascii.ascii_of_nat (Z.to_nat (n `mod` 256)).

Definition var_char (a : Ascii.ascii) : Ascii.ascii :=
  let c := char_val a in
  let c := (if c <=? 47 then char_val (to_char (c + 65))
            else if (58 <=? c) && (c <=? 64) then char_val (to_char (c + (97 - 58))) else c)%Z in
  (if ((91 <=? c) && (c <=? 94)) || (c =? 96) then to_char (c + (104 - 91))
   else if 123 <=? c then to_char (c - 4) else to_char c)%Z.

Fixpoint get_var_name (n : string) : string :=
  match n with EmptyString => EmptyString | String a n => String (var_char a) (get_var_name n) end.

Definition get_function_name (pname : string) : string := "f_" +:+ pname.

(** [mpz_get_si]: the value if it fits, else its low bits with its sign. *)
Definition mpz_get_si (z : Z) : Z :=
  if (0 <=? z)%Z then (z `mod` 2 ^ 63)%Z else (-1 - ((- z - 1) `mod` 2 ^ 63))%Z.

(** [IntExpr::get_num], by [mpz_get_ui]: the low bits of the absolute value. *)
Definition get_num (e : ptr) : M mem Z := z ← int_of e; mret (Z.abs z `mod` 2 ^ 64)%Z.

(** A double quote. *)
Definition dq : string := String (Ascii.ascii_of_nat 34) EmptyString.

Definition join (l : list string) : string :=
  match l with
  | [] => EmptyString
  | s :: l => s +:+ foldr (λ x r, ", " +:+ x +:+ r) EmptyString l
  end.

Definition write_dec (expr : string) (ind : nat) : M writer () := line ind (expr +:+ "->dec();").

(** ** Options *)

Definition opt_write_case_body : Z := 1.
Definition opt_write_check_sym_expr : Z := 2.
Definition has_opt (opts o : Z) : bool := negb (Z.land opts o =? 0)%Z.


(** ** Code *)

Section write.
(** The programs the writer was given: their names and their code. *)
Context (progs : list (string * ptr)).

(** [progNames[get_prog_index_by_expr(e)]], if the index is not -1. *)
Definition prog_name_of (e : ptr) : option string :=
  head ((filter (λ p : string * ptr, p.2 = e) progs).*1).

(** [currProgram]: the name of the program that is being written. *)
Context (curr : string).

(** The statements that leave the value of [code] in the variable [ret]. *)
Local Abbreviation code_t := (ptr → nat → string → Z → M writer ()).

(** [write_expr]: the name of a variable that holds the value of [code]. *)
Definition write_expr (write_code : code_t) (code : ptr) (ind : nat) (opts : Z) : M writer string :=
  c ← rd (getclass code);
  v ← (if decide (c = SYMS_EXPR) then s ← rd (sym_name code); is_var s else mret false);
  if (v : bool) then
    s ← rd (sym_name code);
    let expr := get_var_name s in
    line ind (expr +:+ "->inc();");;
    mret expr
  else
    ss ← fresh_expr;
    line ind ((if decide (c = SYMS_EXPR) then "static " else EmptyString) +:+ "Expr* " +:+ ss +:+ ";");;
    write_code code ind ss opts;;
    (* the name of the variable is not yet known to the test *)
    when (has_opt opts opt_write_check_sym_expr)
      (line ind "if (->getclass() != SYM_EXPR) {";;
       line (ind + 1) "exit( 1 );";;
       line ind "}");;
    push_var ss;;
    mret ss.

(** [write_args]: the kids from [childCounter] on, up to the default case. *)
Fixpoint write_args (write_code : code_t) (kids : list ptr) (ind : nat) (encounterCase : bool)
    (opts : Z) : M writer (list string) :=
  match kids with
  | [] => mret []
  | k :: kids =>
      o ← rd (getop k);
      if encounterCase && negb (bool_decide (o = CASE)) then mret []
      else
        c ← rd (getclass k);
        a ← (if decide (c = SYMS_EXPR) then rd (sym_name k) else write_expr write_code k ind opts);
        rest ← write_args write_code kids ind (encounterCase || bool_decide (o = CASE)) opts;
        mret (a :: rest)
  end.

Definition write_app (rec : code_t) (code : ptr) (ind : nat) (ret : string) : M writer () :=
  '(_, argVector) ← rd (collect_args code true);
  args ← map_m (λ a, write_expr rec a ind 0) argVector;
  hd ← rd (get_head code true);
  o ← rd (getop hd);
  match (if decide (o = PROG) then prog_name_of hd else None) with
  | Some name =>
      line ind (ret +:+ " = " +:+ "f_" +:+ name +:+ "( " +:+ join args +:+ " );");;
      for_each (λ a, write_dec a ind) args
  | None =>
      expr ← write_expr rec hd ind 0;
      line ind (ret +:+ " = " +:+ "new CExpr( APP, " +:+ expr +:+ ", " +:+ join args +:+ " );")
  end.

(** The variables of a pattern: [kids[b+1]] of the scrutinee [expr]. *)
Fixpoint write_pattern (expr : string) (caseArgs : list ptr) (b : Z) (ind : nat) : M writer () :=
  match caseArgs with
  | [] => mret ()
  | x :: caseArgs =>
      s ← rd (sym_name x);
      line ind ("Expr* " +:+ get_var_name s +:+ " = ((CExpr*)" +:+ expr +:+ "->followDefs())->kids["
                +:+ pretty (b + 1)%Z +:+ "];");;
      push_var s;;
      write_pattern expr caseArgs (b + 1) ind
  end.

(** The chain of tests; whether there was a default case. *)
Fixpoint write_cases (rec : code_t) (sshd expr : string) (args : list string) (kids : list ptr)
    (a : nat) (ind : nat) (ret : string) : M writer bool :=
  match kids with
  | [] => mret false
  | k :: kids =>
      indent ind;;
      when (bool_decide (a ≠ 0)) (emit "}else");;
      o ← rd (getop k);
      d ← (if decide (o ≠ CASE) then
             emit ("{" +:+ nl);;
             rec k (ind + 1) ret 0%Z;;
             line ind "}";;
             mret true
           else
             when (bool_decide (a ≠ 0)) (emit " ");;
             arg ← match args !! a with Some x => mret x | None => undefined OutOfBounds end;
             emit ("if( " +:+ sshd +:+ "==" +:+ arg +:+ " ){" +:+ nl);;
             _ ← fresh_args;
             pat ← rd (kid k 0);
             '(_, caseArgs) ← rd (collect_args pat true);
             write_pattern expr caseArgs 0 (ind + 1);;
             rec k (ind + 1) ret opt_write_case_body;;
             mret false);
      rest ← write_cases rec sshd expr args kids (S a) ind ret;
      mret (d || rest)
  end.

Definition write_match (rec : code_t) (code : ptr) (ind : nat) (ret : string) : M writer () :=
  k0 ← rd (kid code 0);
  expr ← write_expr rec k0 ind 0;
  sshd ← fresh_expr;
  line ind ("Expr* " +:+ sshd +:+ " = " +:+ expr +:+ "->followDefs()->get_head();");;
  kids ← rd (kids_list code);
  args ← write_args rec (drop 1 kids) ind false 0;
  encounterDefault ← write_cases rec sshd expr args (drop 1 kids) 0 ind ret;
  when (negb encounterDefault)
    (line ind "}else{";;
     line (ind + 1) ("std::cout << " +:+ dq +:+ "Could not find match for expression in function f_"
                     +:+ curr +:+ " " +:+ dq +:+ ";");;
     line (ind + 1) (sshd +:+ "->print( std::cout );");;
     line (ind + 1) "std::cout << std::endl;";;
     line (ind + 1) "exit( 1 );";;
     line ind "}");;
  write_dec expr ind;;
  for_each (λ a, write_dec a ind) args.

Fixpoint write_do (rec : code_t) (kids : list ptr) (ind : nat) (ret : string) : M writer () :=
  match kids with
  | [] => mret ()
  | [k] => rec k ind ret 0%Z
  | k :: kids =>
      expr ← write_expr rec k ind 0;
      write_dec expr ind;;
      write_do rec kids ind ret
  end.

Definition write_let (rec : code_t) (code : ptr) (ind : nat) (ret : string) : M writer () :=
  x ← (rd (kid code 0) ≫= λ k, rd (sym_name k));
  line ind ("Expr* " +:+ get_var_name x +:+ ";");;
  k1 ← rd (kid code 1);
  rec k1 ind (get_var_name x) 0%Z;;
  push_var x;;
  k2 ← rd (kid code 2);
  rec k2 ind ret 0%Z;;
  line ind (get_var_name x +:+ "->dec();").

(** [((SymExpr* )expr->followDefs())->op(num)] *)
Definition mark_call (expr op num : string) : string :=
  "((SymExpr*)" +:+ expr +:+ "->followDefs())->" +:+ op +:+ "(" +:+ num +:+ ")".

Definition write_markvar (rec : code_t) (code : ptr) (ind : nat) (ret : string) : M writer () :=
  k1 ← rd (kid code 1);
  expr ← write_expr rec k1 ind opt_write_check_sym_expr;
  num ← pretty <$> rd (k0 ← kid code 0; get_num k0);
  line ind ("if ( " +:+ mark_call expr "getmark" num +:+ ")");;
  line (ind + 1) (mark_call expr "clearmark" num +:+ ";");;
  line ind "else";;
  line (ind + 1) (mark_call expr "setmark" num +:+ ";");;
  line ind (ret +:+ " = " +:+ expr +:+ ";");;
  line ind (ret +:+ "->inc();");;
  write_dec expr ind.

(** [if (cond){ ... }else{ ... }] *)
Definition write_branches (rec : code_t) (cond : string) (k1 k2 : ptr) (ind : nat) (ret : string)
    : M writer () :=
  line ind (cond +:+ "{");;
  rec k1 (ind + 1) ret 0%Z;;
  line ind "}else{";;
  rec k2 (ind + 1) ret 0%Z;;
  line ind "}".

Definition write_ifmarked (rec : code_t) (code : ptr) (ind : nat) (ret : string) : M writer () :=
  k1 ← rd (kid code 1);
  expr ← write_expr rec k1 ind opt_write_check_sym_expr;
  num ← pretty <$> rd (k0 ← kid code 0; get_num k0);
  k2 ← rd (kid code 2);
  k3 ← rd (kid code 3);
  write_branches rec ("if ( " +:+ mark_call expr "getmark" num +:+ ")") k2 k3 ind ret;;
  write_dec expr ind.

Definition write_compare (rec : code_t) (code : ptr) (ind : nat) (ret : string) : M writer () :=
  k0 ← rd (kid code 0);
  expr1 ← write_expr rec k0 ind opt_write_check_sym_expr;
  k1 ← rd (kid code 1);
  expr2 ← write_expr rec k1 ind opt_write_check_sym_expr;
  k2 ← rd (kid code 2);
  k3 ← rd (kid code 3);
  write_branches rec
    ("if( ((SymExpr*)" +:+ expr1 +:+ ")->followDefs() < ((SymExpr*)" +:+ expr2 +:+ ")->followDefs() )")
    k2 k3 ind ret;;
  write_dec expr1 ind;;
  write_dec expr2 ind.

Definition class_test (expr cls : string) : string :=
  "if( " +:+ expr +:+ "->followDefs()->getclass()==" +:+ cls +:+ " ){".

(** The statements for one class of numbers: [t] is [mpz] or [mpq]. *)
Definition write_number (t cls num args ret : string) (ind : nat) : M writer () :=
  line ind (t +:+ "_t " +:+ num +:+ ";");;
  line ind (t +:+ "_init(" +:+ num +:+ ");");;
  line ind (t +:+ "_" +:+ args);;
  line ind (ret +:+ " = new " +:+ cls +:+ "(" +:+ num +:+ ");").

(** [((cls* )expr->followDefs())->n] *)
Definition num_field (cls expr : string) : string :=
  "((" +:+ cls +:+ "*)" +:+ expr +:+ "->followDefs())->n".

(** The name of the function of GMP; there is none for the division of integers. *)
Definition mpz_fun (o : op) : string := match o with ADD => "add" | _ => "mul" end.
Definition mpq_fun (o : op) : string := match o with ADD => "add" | MUL => "mul" | _ => "div" end.

Definition write_arith (rec : code_t) (o : op) (code : ptr) (ind : nat) (ret : string) : M writer () :=
  k0 ← rd (kid code 0);
  expr1 ← write_expr rec k0 ind 0;
  k1 ← rd (kid code 1);
  expr2 ← write_expr rec k1 ind 0;
  ss ← fresh_rnum;
  line ind (class_test expr1 "INT_EXPR");;
  write_number "mpz" "IntExpr" ss (mpz_fun o +:+ "( " +:+ ss +:+ ", " +:+ num_field "IntExpr" expr1
    +:+ ", " +:+ num_field "IntExpr" expr2 +:+ ");") ret (ind + 1);;
  line ind ("}else " +:+ class_test expr1 "RAT_EXPR");;
  write_number "mpq" "RatExpr" ss (mpq_fun o +:+ "( " +:+ ss +:+ ", " +:+ num_field "RatExpr" expr1
    +:+ ", " +:+ num_field "RatExpr" expr2 +:+ ");") ret (ind + 1);;
  line ind "}";;
  write_dec expr1 ind;;
  write_dec expr2 ind.

Definition write_neg (rec : code_t) (code : ptr) (ind : nat) (ret : string) : M writer () :=
  k0 ← rd (kid code 0);
  expr1 ← write_expr rec k0 ind 0;
  ss ← fresh_rnum;
  line ind (class_test expr1 "INT_EXPR");;
  write_number "mpz" "IntExpr" ss ("neg( " +:+ ss +:+ ", " +:+ num_field "IntExpr" expr1 +:+ " );")
    ret (ind + 1);;
  line ind ("}else " +:+ class_test expr1 "RAT_EXPR");;
  write_number "mpq" "RatExpr" ss ("neg( " +:+ ss +:+ ", " +:+ num_field "RatExpr" expr1 +:+ " );")
    ret (ind + 1);;
  line ind "}";;
  write_dec expr1 ind.

Definition sign_cond (t cls expr : string) (o : op) : string :=
  "if( " +:+ t +:+ "_sgn( ((" +:+ cls +:+ " *)" +:+ expr +:+ "->followDefs())->n ) "
  +:+ (if decide (o = IFNEG) then "<" else "==") +:+ " 0 )".

Definition write_if (rec : code_t) (o : op) (code : ptr) (ind : nat) (ret : string) : M writer () :=
  k0 ← rd (kid code 0);
  expr1 ← write_expr rec k0 ind 0;
  k1 ← rd (kid code 1);
  k2 ← rd (kid code 2);
  line ind (class_test expr1 "INT_EXPR");;
  write_branches rec (sign_cond "mpz" "IntExpr" expr1 o) k1 k2 (ind + 1) ret;;
  line ind ("}else " +:+ class_test expr1 "RAT_EXPR");;
  write_branches rec (sign_cond "mpq" "RatExpr" expr1 o) k1 k2 (ind + 1) ret;;
  line ind "}";;
  write_dec expr1 ind.

Definition write_case (rec : code_t) (code : ptr) (ind : nat) (ret : string) (opts : Z) : M writer () :=
  if has_opt opts opt_write_case_body then k1 ← rd (kid code 1); rec k1 ind ret 0%Z
  else k0 ← rd (kid code 0); h ← rd (get_head k0 true); rec h ind ret 0%Z.

Definition write_sym (s : string) (ind : nat) (ret : string) : M writer () :=
  v ← is_var s;
  (if (v : bool) then line ind (ret +:+ " = " +:+ get_var_name s +:+ ";")
   else
     line ind (ret +:+ " = e_" +:+ get_var_name s +:+ ";");;
     add_global_sym (get_var_name s));;
  line ind (ret +:+ "->inc();").

Fixpoint write_code (fuel : nat) (code : ptr) (ind : nat) (ret : string) (opts : Z) : M writer () :=
  match fuel with
  | 0 => throw OutOfFuel
  | S fuel =>
      let rec := write_code fuel in
      n ← rd (load code);
      match body n with
      | PInt z =>
          line ind (ret +:+ " = new IntExpr( " +:+ pretty (mpz_get_si z) +:+ " );");;
          line ind (ret +:+ "->inc();")
      | PRat q =>
          line ind (ret +:+ " = new RatExpr( " +:+ pretty (mpz_get_si (Qnum q)) +:+ ", "
                    +:+ pretty (mpz_get_si (Zpos (Qden q))) +:+ " );");;
          line ind (ret +:+ "->inc();")
      | PSymS s _ => write_sym s ind ret
      | PC APP _ => write_app rec code ind ret
      | PC MATCH _ => write_match rec code ind ret
      | PC CASE _ => write_case rec code ind ret opts
      | PC DO _ => ks ← rd (kids_list code); write_do rec ks ind ret
      | PC LET _ => write_let rec code ind ret
      | PC FAIL _ => line ind (ret +:+ " = NULL;")
      | PC MARKVAR _ => write_markvar rec code ind ret
      | PC COMPARE _ => write_compare rec code ind ret
      | PC IFMARKED _ => write_ifmarked rec code ind ret
      | PC (ADD as o) _ | PC (MUL as o) _ | PC (DIV as o) _ => write_arith rec o code ind ret
      | PC NEG _ => write_neg rec code ind ret
      | PC (IFNEG as o) _ | PC (IFZERO as o) _ => write_if rec o code ind ret
      | _ => mret ()
      end
  end.
End write.

(** ** Files *)

Section write_file.
Context (progs : list (string * ptr)) (call_debug : bool).

(** [get_prog(n)]: the code that was stored last under a name, and its variables. *)
Definition prog_map : gmap string ptr := list_to_map (reverse progs).
Definition get_prog (name : string) : ptr := default null (prog_map !! name).
Definition prog_vars (name : string) : M writer (list string) :=
  vs ← rd (progvars ← kid (get_prog name) 1; kids_list progvars);
  map_m (λ v, rd (sym_name v)) vs.

(** The statements that print the arguments of a call. *)
Fixpoint print_vars (first : bool) (vs : list string) : M writer () :=
  match vs with
  | [] => mret ()
  | v :: vs =>
      when (negb first) (line 1 ("std::cout << " +:+ dq +:+ ", " +:+ dq +:+ ";"));;
      line 1 (get_var_name v +:+ "->print( std::cout );");;
      print_vars false vs
  end.

(** The options [opt_write_add_args] and [opt_write_call_debug] of the header. *)
Definition write_function_header (name : string) (add_args debug : bool) : M writer () :=
  let fname := get_function_name name in
  vs ← prog_vars name;
  emit ("Expr* " +:+ fname +:+ "( " +:+ join ((λ v, "Expr* " +:+ get_var_name v) <$> vs));;
  when add_args (for_each push_var vs);;
  emit " )";;
  when debug
    (emit ("{" +:+ nl);;
     line 1 ("std::cout << " +:+ dq +:+ "Call function " +:+ fname +:+ " with arguments " +:+ dq +:+ ";");;
     print_vars true vs;;
     line 1 "std::cout << std::endl;").

(** The declarations of scccode.h. *)
Definition write_h (names : list string) : M writer () :=
  line 0 "#ifndef SCC_CODE_H";;
  line 0 ("#define SCC_CODE_H" +:+ nl);;
  line 0 ("#include " +:+ dq +:+ "check.h" +:+ dq +:+ nl);;
  line 0 ("void init_compiled_scc();" +:+ nl);;
  line 0 ("Expr* run_compiled_scc( Expr* p, std::vector< Expr* >& args );" +:+ nl);;
  for_each (λ n, emit "inline ";; write_function_header n false false;; line 0 (";" +:+ nl)) names;;
  line 0 ("#endif" +:+ nl).

(** The counters and the variables start again for each program. *)
Definition reset_names : M writer () := modify (λ w,
  Writer (wr_mem w) (os w) 0 0 0 [] (globalSyms w)).

Definition write_function (fuel n : nat) (name : string) : M writer () :=
  reset_names;;
  rd (print_out ("program #" +:+ pretty n +:+ " " +:+ name +:+ nl));;
  write_function_header name true call_debug;;
  when (negb call_debug) (emit ("{" +:+ nl));;
  body ← rd (kid (get_prog name) 2);
  expr ← write_expr (write_code progs name fuel) body 1 0;
  line 1 ("return " +:+ expr +:+ ";");;
  line 0 ("}" +:+ nl).

Fixpoint write_functions (fuel n : nat) (names : list string) : M writer () :=
  match names with
  | [] => mret ()
  | name :: names => write_function fuel n name;; write_functions fuel (S n) names
  end.

(** One test of [run_compiled_scc]. *)
Fixpoint write_dispatch (first : bool) (names : list string) : M writer () :=
  match names with
  | [] => mret ()
  | name :: names =>
      indent 1;;
      when (negb first) (emit "}else ");;
      emit ("if( p==e_" +:+ name +:+ " ){" +:+ nl);;
      vs ← prog_vars name;
      line 2 ("return " +:+ get_function_name name +:+ "( "
              +:+ join (imap (λ i _, "args[" +:+ pretty i +:+ "]") vs) +:+ " );");;
      write_dispatch false names
  end.

(** scccode.cpp, for functions with the text [funcs]. *)
Definition write_cpp (names : list string) (funcs : string) : M writer () :=
  line 0 ("#include " +:+ dq +:+ "scccode.h" +:+ dq +:+ nl);;
  syms ← gets globalSyms;
  for_each (λ s, line 0 ("Expr* e_" +:+ s +:+ ";")) syms;;
  for_each (λ s, line 0 ("Expr* e_" +:+ s +:+ ";")) names;;
  line 0 EmptyString;;
  line 0 "void init_compiled_scc(){";;
  for_each (λ s, line 1 ("e_" +:+ s +:+ " = symbols->get(" +:+ dq +:+ s +:+ dq +:+ ").first;")) syms;;
  for_each (λ s, line 1 ("e_" +:+ s +:+ " = progs[" +:+ dq +:+ s +:+ dq +:+ "];")) names;;
  line 0 ("}" +:+ nl);;
  line 0 "Expr* run_compiled_scc( Expr* p, std::vector< Expr* >& args ){";;
  write_dispatch true names;;
  line 1 "}else{";;
  line 2 "return NULL;";;
  line 1 "}";;
  line 0 ("}" +:+ nl);;
  emit funcs.

(** Take what was written to the stream. *)
Definition take_os : M writer string := λ w, Ok (os w, set_os EmptyString w).

Definition write_scc (fuel : nat) : M writer (string * string) :=
  let names := take (size prog_map) progs.*1 in
  write_h names;;
  h ← take_os;
  write_functions fuel 0 names;;
  funcs ← take_os;
  write_cpp names funcs;;
  c ← take_os;
  mret (h, c).

(** [write_file]: the contents of scccode.h and scccode.cpp. *)
Definition scc_files (fuel : nat) : M mem (string * string) := λ m,
  match write_scc fuel (Writer m EmptyString 0 0 0 [] []) with
  | Ok (r, w) => Ok (r, wr_mem w)
  | Err e => Err e
  end.
End write_file.
