(* ===== verification/LibWriter.v ===== *)
(** * The writer for proof constructors (libwriter.cpp)

    With [--compile-lib] the checker writes a C++ class with one constructor for
    each proof rule that was declared, to lfsc_proof.h and lfsc_proof.cpp.  A
    declared symbol whose type is a pi type that ends in [type] is a judgement; one
    whose type ends in a judgement is a rule.  The constructor of a rule asks for
    the arguments that the types of the later ones do not determine. *)

From stdpp Require Import base tactics list strings gmap numbers pretty.
From S2P Require Import Prelude Header Memory Expr SccWriter.

(** The streams and the judgements met so far. *)
Record lib := Lib {
  os_enum : string;
  os_print : string;
  os_constructor_h : string;
  os_constructor_c : string;
  judgements : list ptr
}.

Definition ln (s : string) : string := s +:+ nl.

(** ** The arguments of a rule *)

(** Clear the flag of the arguments that occur in [t]. *)
Fixpoint mark_given (fuel : nat) (t : ptr) (args : list (ptr * bool)) : M mem (list (ptr * bool)) :=
  match args with
  | [] => mret []
  | (x, need) :: args =>
      b ← (if need : bool then free_in fuel t x else mret false);
      rest ← mark_given fuel t args;
      mret ((x, need && negb b) :: rest)
  end.

(** The loop over the pis of a type: the arguments with their flags [argsNeed],
    and the expression after the last pi.  The type of a side condition is its
    [RUN] expression; only the pattern, its second kid, is looked at. *)
Fixpoint rule_args (fuel n : nat) (c : ptr) (args : list (ptr * bool))
    : M mem (list (ptr * bool) * ptr) :=
  match n with
  | 0 => throw OutOfFuel
  | S n =>
      o ← getop c;
      if decide (o = PI) then
        k1 ← kid c 1;
        o1 ← getop k1;
        x ← kid c 0;
        t ← (if decide (o1 = RUN) then kid k1 1 else mret k1);
        args ← mark_given fuel t (if decide (o1 = RUN) then args else args ++ [(x, true)]);
        k2 ← kid c 2;
        rule_args fuel n k2 args
      else mret (args, c)
  end.

(** ** The constructor of a rule *)

(** The names of the arguments; [None] for one that is not asked for. *)
Definition arg_names (args : list (ptr * bool)) : M mem (list (option string)) :=
  map_m (λ a : ptr * bool,
    if a.2 then s ← sym_name a.1; mret (Some (get_var_name s)) else mret None) args.

Definition os_args (names : list (option string)) : string :=
  match omap id names with
  | [] => "()"
  | s :: l =>
      "( LFSCProof* " +:+ s +:+ foldr (λ x r, ", LFSCProof* " +:+ x +:+ r) EmptyString l +:+ " )"
  end.

Fixpoint set_kids (b : nat) (names : list (option string)) : string :=
  match names with
  | [] => EmptyString
  | n :: names => ln ("  kids[" +:+ pretty b +:+ "] = " +:+ default "hole"%string n +:+ ";")
                  +:+ set_kids (S b) names
  end.

Definition add_rule (s : string) (names : list (option string)) (l : lib) : lib :=
  Lib (os_enum l +:+ ln ("    rule_" +:+ s +:+ ","))
    (os_print l +:+ ln ("  case rule_" +:+ s +:+ ": os << " +:+ dq +:+ s +:+ dq +:+ ";break;"))
    (os_constructor_h l +:+ ln ("  static LFSCProof* make_" +:+ s +:+ os_args names +:+ ";"))
    (os_constructor_c l +:+
     ln ("LFSCProof* LFSCProof::make_" +:+ s +:+ os_args names +:+ "{") +:+
     ln ("  LFSCProof **kids = new LFSCProof *[" +:+ pretty (S (length names)) +:+ "];") +:+
     set_kids 0 names +:+
     ln ("  kids[" +:+ pretty (length names) +:+ "] = 0;") +:+
     ln ("  return new LFSCProofC( rule_" +:+ s +:+ ", kids );") +:+
     ln "}" +:+ ln EmptyString)
    (judgements l).

(** One symbol with its classifier. *)
Definition write_symbol (fuel : nat) (s t : ptr) (l : lib) : M mem lib :=
  cls ← getclass t;
  if decide (cls = CEXPR) then
    r ← rule_args fuel fuel t [];
    let '(args, c) := r in
    o ← getop t;
    oc ← getop c;
    if decide (o = PI ∧ oc = TYPE) then
      mret (Lib (os_enum l) (os_print l) (os_constructor_h l) (os_constructor_c l) (judgements l ++ [s]))
    else
      cc ← getclass c;
      k ← (if decide (cc = CEXPR) then kid c 0 else mret null);
      if decide (cc = CEXPR ∧ k ∈ judgements l) then
        name ← sym_name s;
        print_out ("Handle rule: " +:+ name +:+ nl);;
        names ← arg_names args;
        mret (add_rule name names l)
      else mret l
  else mret l.

(** ** The files *)

(** The header, lfsc_proof.h. *)
Definition proof_h (l : lib) : string :=
  ln "#ifndef LFSC_PROOF_LIB_H" +:+
  ln "#define LFSC_PROOF_LIB_H" +:+
  ln EmptyString +:+
  ln "#include <string>" +:+
  ln EmptyString +:+
  ln "class LFSCProof{" +:+
  ln "protected:" +:+
  ln "  enum{" +:+
  os_enum l +:+
  ln "  };" +:+
  ln "  static LFSCProof* hole;" +:+
  ln "  LFSCProof(){}" +:+
  ln "public:" +:+
  ln "  virtual ~LFSCProof(){}" +:+
  ln "  static void init();" +:+
  ln EmptyString +:+
  ln "  //functions to build LFSC proofs" +:+
  os_constructor_h l +:+
  ln EmptyString +:+
  ln "  virtual void set_child( int i, LFSCProof* e ) {}" +:+
  ln "  virtual void print( std::ostream& os ){}" +:+
  ln "};" +:+
  ln EmptyString +:+
  ln "class LFSCProofC : public LFSCProof{" +:+
  ln "  short id;" +:+
  ln "  LFSCProof **kids;" +:+
  ln "public:" +:+
  ln "  LFSCProofC( short d_id, LFSCProof **d_kids ) : id( d_id ), kids( d_kids ){}" +:+
  ln "  void set_child( int i, LFSCProof* e ) { kids[i] = e; }" +:+
  ln "  void print( std::ostream& os );" +:+
  ln "};" +:+
  ln EmptyString +:+
  ln "class LFSCProofSym : public LFSCProof{" +:+
  ln "private:" +:+
  ln "  std::string s;" +:+
  ln "  LFSCProofSym( std::string ss ) : s( ss ){}" +:+
  ln "public:" +:+
  ln "  static LFSCProofSym* make( std::string ss ) { return new LFSCProofSym( ss ); }" +:+
  ln "  static LFSCProofSym* make( const char* ss ) { return new LFSCProofSym( std::string( ss ) ); }" +:+
  ln "  ~LFSCProofSym(){}" +:+
  ln "  void print( std::ostream& os ) { os << s.c_str(); }" +:+
  ln "};" +:+
  ln EmptyString +:+
  ln "class LFSCProofLam : public LFSCProof{" +:+
  ln "  LFSCProofSym* var;" +:+
  ln "  LFSCProof* body;" +:+
  ln "  LFSCProof* typ;" +:+
  ln "  LFSCProofLam( LFSCProofSym* d_var, LFSCProof* d_body, LFSCProof* d_typ ) : var( d_var ), body( d_body ), typ( d_typ ){}" +:+
  ln "public:" +:+
  ln "  static LFSCProof* make( LFSCProofSym* d_var, LFSCProof* d_body, LFSCProof* d_typ = NULL ) {" +:+
  ln "    return new LFSCProofLam( d_var, d_body, d_typ );" +:+
  ln "  }" +:+
  ln "  ~LFSCProofLam(){}" +:+
  ln EmptyString +:+
  ln "  void print( std::ostream& os );" +:+
  ln "};" +:+
  ln EmptyString +:+
  ln "#endif".

(** The code, lfsc_proof.cpp. *)
Definition proof_cpp (l : lib) : string :=
  ln ("#include " +:+ dq +:+ "lfsc_proof.h" +:+ dq) +:+
  ln EmptyString +:+
  ln "LFSCProof* LFSCProof::hole = NULL;" +:+
  ln EmptyString +:+
  ln "void LFSCProof::init(){" +:+
  ln ("  hole = LFSCProofSym::make( " +:+ dq +:+ "_" +:+ dq +:+ " );") +:+
  ln "}" +:+
  ln EmptyString +:+
  ln "void LFSCProofC::print( std::ostream& os ){" +:+
  ln ("  os << " +:+ dq +:+ "(" +:+ dq +:+ ";") +:+
  ln "  switch( id ){" +:+
  os_print l +:+
  ln "  }" +:+
  ln "  int counter = 0;" +:+
  ln "  while( kids[counter] ){" +:+
  ln ("    os << " +:+ dq +:+ " " +:+ dq +:+ ";") +:+
  ln "    kids[counter]->print( os );" +:+
  ln "    counter++;" +:+
  ln "  }" +:+
  ln ("  os << " +:+ dq +:+ ")" +:+ dq +:+ ";") +:+
  ln "}" +:+
  ln EmptyString +:+
  ln "void LFSCProofLam::print( std::ostream& os ){" +:+
  ln ("  os << " +:+ dq +:+ "(" +:+ dq +:+ ";") +:+
  ln "  if( typ ){" +:+
  ln ("    os << " +:+ dq +:+ "% " +:+ dq +:+ ";") +:+
  ln "  }else{" +:+
  ln ("    os << " +:+ dq +:+ "\\ " +:+ dq +:+ ";") +:+
  ln "  }" +:+
  ln "  var->print( os );" +:+
  ln "  if( typ ){" +:+
  ln ("    os << " +:+ dq +:+ " " +:+ dq +:+ ";") +:+
  ln "    typ->print( os );" +:+
  ln "  }" +:+
  ln "  os << std::endl;" +:+
  ln "  body->print( os );" +:+
  ln ("  os << " +:+ dq +:+ ")" +:+ dq +:+ ";") +:+
  ln "}" +:+
  ln EmptyString +:+
  os_constructor_c l +:+
  ln EmptyString.

(** [write_file]: the contents of the two files.  They are written again after
    each symbol, so that the last ones stay; without a symbol there are none. *)
Fixpoint write_symbols (fuel : nat) (syms : list (ptr * ptr)) (l : lib) : M mem lib :=
  match syms with
  | [] => mret l
  | (s, t) :: syms => l ← write_symbol fuel s t l; write_symbols fuel syms l
  end.

Definition lib_files (fuel : nat) (syms : list (ptr * ptr)) : M mem (list (string * string)) :=
  match syms with
  | [] => mret []
  | _ =>
      l ← write_symbols fuel syms (Lib EmptyString EmptyString EmptyString EmptyString []);
      mret [("lfsc_proof.h"%string, proof_h l); ("lfsc_proof.cpp"%string, proof_cpp l)]
  end.
