(* ===== verification/Lexer.v ===== *)
(** * Reading characters and identifiers (check.h, code.cpp)

    The state of the reader: the unread characters of [curfile], the one
    character push-back buffer [our_getc_c] (0 when it is empty), the position
    and the count of open parentheses.  [EOF], as a [char], is the character of
    value -1, which a byte 0xFF of the file also is. *)

From Stdlib Require Import Ascii.
From stdpp Require Import base tactics list strings gmap numbers pretty.
From S2P Require Import Prelude.

Record lex := Lex {
  input : string;
  our_getc_c : Ascii.ascii;
  linenum : Z;
  colnum : Z;
  open_parens : Z
}.

Definition NUL : Ascii.ascii := Ascii.zero.
Definition EOFc : Ascii.ascii := Ascii.ascii_of_nat 255.
Definition TAB : Ascii.ascii := Ascii.ascii_of_nat 9.

(** [isspace] and [isdigit] in the C locale. *)
Definition isspace (c : Ascii.ascii) : bool :=
  let n := char_val c in ((9 <=? n) && (n <=? 13) || (n =? 32))%Z.
Definition isdigit (c : Ascii.ascii) : bool :=
  let n := char_val c in ((48 <=? n) && (n <=? 57))%Z.

(** [fgetc(curfile)] as a [char]. *)
Definition fgetc : M lex Ascii.ascii := λ l,
  match input l with
  | EmptyString => Ok (EOFc, l)
  | String c s => Ok (c, Lex s (our_getc_c l) (linenum l) (colnum l) (open_parens l))
  end.

(** [our_peekc]: [getc] then [ungetc] on the file itself. *)
Definition our_peekc : M lex Ascii.ascii :=
  gets (λ l, match input l with EmptyString => EOFc | String c _ => c end).

Definition set_pos (line col : Z) : M lex () :=
  modify (λ l, Lex (input l) (our_getc_c l) line col (open_parens l)).

Definition set_pushback (c : Ascii.ascii) : M lex () :=
  modify (λ l, Lex (input l) c (linenum l) (colnum l) (open_parens l)).

Definition our_ungetc (c : Ascii.ascii) : M lex () :=
  l ← get_st;
  if decide (our_getc_c l ≠ NUL) then report_error "Internal error: our_ungetc buffer full"
  else
    set_pushback c;;
    if decide (c = NL) then set_pos (linenum l - 1) (-1)
    else set_pos (linenum l) (colnum l - 1).

Definition our_getc : M lex Ascii.ascii :=
  l ← get_st;
  c ← (if (0 <? char_val (our_getc_c l))%Z then set_pushback NUL;; mret (our_getc_c l)
       else fgetc);
  (if decide (c = NL) then set_pos (linenum l + 1) 1
   else if decide (c = EOFc) then mret ()
   else set_pos (linenum l) (colnum l + 1));;
  mret c.

(** The loops of the reader stop at the end of the file at the latest: one more
    step than there are unread characters, and the push-back, are enough. *)
Definition lex_fuel (l : lex) : nat := S (S (String.length (input l))).

(** [while (isspace(c = our_getc()));] *)
Fixpoint skip_ws (fuel : nat) : M lex Ascii.ascii :=
  match fuel with
  | 0 => throw OutOfFuel
  | S fuel => c ← our_getc; if isspace c then skip_ws fuel else mret c
  end.

(** A comment: to the end of the line. *)
Fixpoint skip_line (fuel : nat) : M lex () :=
  match fuel with
  | 0 => throw OutOfFuel
  | S fuel => c ← our_getc; if decide (c = NL ∨ c = EOFc) then mret () else skip_line fuel
  end.

Fixpoint non_ws_fuel (fuel : nat) : M lex Ascii.ascii :=
  match fuel with
  | 0 => throw OutOfFuel
  | S fuel =>
      l ← get_st;
      c ← skip_ws (lex_fuel l);
      if decide (c = ";"%char) then
        l ← get_st;
        skip_line (lex_fuel l);;
        non_ws_fuel fuel
      else mret c
  end.

(** [non_ws]: the next character that is neither white space nor in a comment. *)
Definition non_ws : M lex Ascii.ascii := l ← get_st; non_ws_fuel (lex_fuel l).

Definition eat_char (expected : Ascii.ascii) : M lex () :=
  c ← non_ws;
  if decide (c = expected) then mret ()
  else report_error ("Expecting a '" +:+ String expected "'").

(** ** Identifiers *)

Definition IDBUF_LEN : nat := 2048.

Definition ends_id (c : Ascii.ascii) : bool :=
  isspace c || bool_decide (c = "("%char) || bool_decide (c = ")"%char) || bool_decide (c = EOFc).

(** The C string in a buffer: up to the first 0. *)
Fixpoint c_string (s : string) : string :=
  match s with
  | EmptyString => EmptyString
  | String c s => if decide (c = NUL) then EmptyString else String c (c_string s)
  end.

(** The loop of [prefix_id]: [i] characters are in [idbuf], the last is [c];
    the result is what was written after them, with the character that ended
    the identifier. *)
Fixpoint id_loop (steps : nat) (i : nat) (c : Ascii.ascii) : M lex (string * Ascii.ascii) :=
  match steps with
  | 0 => throw OutOfFuel
  | S steps =>
      if ends_id c then mret (EmptyString, c)
      else if decide (i = IDBUF_LEN) then report_error "Identifier is too long"
      else
        c' ← our_getc;
        '(s, e) ← id_loop steps (S i) c';
        mret (String c s, e)
  end.

(** [prefix_id]: the character that ends the identifier is pushed back and
    overwritten by 0 in the buffer. *)
Definition prefix_id : M lex string :=
  c ← non_ws;
  '(s, e) ← id_loop (S (S IDBUF_LEN)) 1 c;
  our_ungetc e;;
  mret (c_string s).

(** ** Keywords and digits (code.cpp) *)

(** [eat_str(str, check_end)]: [None] when the keyword was read (with the
    character after it), else the part of it that was. *)
Fixpoint eat_chars (str : string) : M lex (option string) :=
  match str with
  | EmptyString => mret None
  | String c str =>
      d ← our_getc;
      if decide (c = d) then
        r ← eat_chars str;
        mret (String d <$> r)
      else our_ungetc d;; mret (Some EmptyString)
  end.

Definition eat_str (str : string) (check_end : bool) : M lex (option string) :=
  r ← eat_chars str;
  match r with
  | Some s => mret (Some s)
  | None =>
      if check_end then
        d ← our_getc;
        if decide (d ≠ " "%char ∧ d ≠ "("%char ∧ d ≠ NL ∧ d ≠ TAB) then
          our_ungetc d;; mret (Some str)
        else mret None
      else mret None
  end.

(** [while (isdigit(c = our_getc())) v.push_back(c);] *)
Fixpoint read_digits (fuel : nat) : M lex (string * Ascii.ascii) :=
  match fuel with
  | 0 => throw OutOfFuel
  | S fuel =>
      c ← our_getc;
      if isdigit c then '(s, e) ← read_digits fuel; mret (String c s, e) else mret (EmptyString, c)
  end.

Definition digits : M lex (string * Ascii.ascii) := l ← get_st; read_digits (lex_fuel l).

Definition digit_val (c : Ascii.ascii) : Z := char_val c - 48.
Definition num_val (s : string) : Z :=
  (fix go (acc : Z) (s : string) : Z :=
     match s with EmptyString => acc | String c s => go (10 * acc + digit_val c)%Z s end) 0%Z s.

(** [atoi] on digits, as a 32-bit [int]. *)
Definition atoi (s : string) : Z := ((num_val s + 2 ^ 31) `mod` 2 ^ 32 - 2 ^ 31)%Z.

(** [read_index]: the number after [ifmarked] or [markvar], 1 when there is none. *)
Definition read_index : M lex Z :=
  '(v, c) ← digits;
  our_ungetc c;;
  mret (if decide (v = EmptyString) then 1%Z else atoi v).
