(* ===== verification/World.v ===== *)
(** * The globals of the checker (check.cpp)

    The state of a run: the memory, the reader, the symbol table, the programs
    and the other global variables of check.cpp.  The symbol table is any
    implementation [T] of the interface of SymTab.v. *)

From stdpp Require Import base tactics list strings gmap numbers.
From S2P Require Import Prelude SymTab Header Memory Lexer.

(** [std::pair<Expr *, Expr *>]: a symbol's expression and its classifier. *)
Definition entry : Type := ptr * ptr.
#[global] Instance entry_default : Default entry := (null, null).

(** The four expressions check.cpp allocates at start-up. *)
Record statics := Statics { statType : ptr; statKind : ptr; statMpz : ptr; statMpq : ptr }.

(** The writers for compiled code, which [main] makes when its options ask for
    them: the programs and the declarations they were given, and the files that
    were written. *)
Record writers := Writers {
  scw : option (list (string * ptr));      (* sccwriter: progNames, progPtrs *)
  lw : option (list (ptr * ptr));          (* libwriter: syms, defs *)
  written : list (string * string)
}.

Definition give_scc (pname : string) (exp : ptr) (o : writers) : writers :=
  Writers ((λ l, l ++ [(pname, exp)]) <$> scw o) (lw o) (written o).
Definition give_symbol (s t : ptr) (o : writers) : writers :=
  Writers (scw o) ((λ l, l ++ [(s, t)]) <$> lw o) (written o).

Record world (T : Type) := World {
  w_mem : mem;
  w_lex : lex;
  symbols : T;
  progs : gmap string ptr;
  stat : statics;
  allow_run : bool;
  tail_calls : bool;
  big_check : bool;
  ascHoles : list ptr;
  local_sym_names : list (string * entry);
  w_out : writers
}.
Arguments World {T} _ _ _ _ _ _ _ _ _ _ _.
Arguments w_mem {T} _.
Arguments w_lex {T} _.
Arguments symbols {T} _.
Arguments progs {T} _.
Arguments stat {T} _.
Arguments allow_run {T} _.
Arguments tail_calls {T} _.
Arguments big_check {T} _.
Arguments ascHoles {T} _.
Arguments local_sym_names {T} _.
Arguments w_out {T} _.

Section world.
Context {T : Type} {ST : SymTab T entry}.
Implicit Types w : world T.

Definition set_mem (m : mem) w : world T :=
  World m (w_lex w) (symbols w) (progs w) (stat w) (allow_run w) (tail_calls w) (big_check w)
    (ascHoles w) (local_sym_names w) (w_out w).
Definition set_lex (l : lex) w : world T :=
  World (w_mem w) l (symbols w) (progs w) (stat w) (allow_run w) (tail_calls w) (big_check w)
    (ascHoles w) (local_sym_names w) (w_out w).
Definition set_symbols (t : T) w : world T :=
  World (w_mem w) (w_lex w) t (progs w) (stat w) (allow_run w) (tail_calls w) (big_check w)
    (ascHoles w) (local_sym_names w) (w_out w).
Definition set_progs (p : gmap string ptr) w : world T :=
  World (w_mem w) (w_lex w) (symbols w) p (stat w) (allow_run w) (tail_calls w) (big_check w)
    (ascHoles w) (local_sym_names w) (w_out w).
Definition set_allow_run (b : bool) w : world T :=
  World (w_mem w) (w_lex w) (symbols w) (progs w) (stat w) b (tail_calls w) (big_check w)
    (ascHoles w) (local_sym_names w) (w_out w).
Definition set_big_check (b : bool) w : world T :=
  World (w_mem w) (w_lex w) (symbols w) (progs w) (stat w) (allow_run w) (tail_calls w) b
    (ascHoles w) (local_sym_names w) (w_out w).
Definition set_ascHoles (l : list ptr) w : world T :=
  World (w_mem w) (w_lex w) (symbols w) (progs w) (stat w) (allow_run w) (tail_calls w)
    (big_check w) l (local_sym_names w) (w_out w).
Definition set_locals (l : list (string * entry)) w : world T :=
  World (w_mem w) (w_lex w) (symbols w) (progs w) (stat w) (allow_run w) (tail_calls w)
    (big_check w) (ascHoles w) l (w_out w).
Definition set_out (o : writers) w : world T :=
  World (w_mem w) (w_lex w) (symbols w) (progs w) (stat w) (allow_run w) (tail_calls w)
    (big_check w) (ascHoles w) (local_sym_names w) o.

(** Computations on the memory and on the reader, in the whole state. *)
Definition lm {A} : M mem A → M (world T) A := zoom w_mem set_mem.
Definition lx {A} : M lex A → M (world T) A := zoom w_lex set_lex.

(** [symbols->get(s)] *)
Definition symbols_get (s : string) : M (world T) entry := gets (λ w, st_get (symbols w) s).

(** [symbols->insert(s, x)], which returns the entry it replaces. *)
Definition symbols_insert (s : string) (x : entry) : M (world T) entry := λ w,
  match st_insert (symbols w) s x with Ok (old, t) => Ok (old, set_symbols t w) | Err e => Err e end.

(** [progs[s]]: [operator[]] of the hash map adds a null entry for a new key. *)
Definition progs_get (s : string) : M (world T) ptr := λ w,
  match progs w !! s with
  | Some p => Ok (p, w)
  | None => Ok (null, set_progs (<[s := null]> (progs w)) w)
  end.

(** [scw->add_scc(pname, exp)] and [lw->add_symbol(s, t)], unless the pointer to
    the writer is null. *)
Definition add_scc (pname : string) (exp : ptr) : M (world T) () := modify (λ w,
  set_out (give_scc pname exp (w_out w)) w).
Definition add_symbol (s t : ptr) : M (world T) () := modify (λ w,
  set_out (give_symbol s t (w_out w)) w).

Definition get_stat (f : statics → ptr) : M (world T) ptr := gets (λ w, f (stat w)).
End world.
