(* ===== verification/Code.v ===== *)
(** * The language of side conditions (code.cpp)

    [read_code] parses a piece of code, [check_code] computes its type and
    [run_code] runs it.  The big switches of the source are cut into one
    definition per case; a case takes the recursive call as an argument [rec]
    and the function itself ties the knot, with fuel. *)

From Stdlib Require Import Ascii QArith_base Qreduction.
From stdpp Require Import base tactics list strings gmap numbers pretty.
From S2P Require Import Prelude SymTab Header Memory Expr Lexer World.

(** ** Numerals *)

(** The text of a numeral, and whether it has a denominator. *)
Definition read_numeral : M lex (string * option string) :=
  '(v, c) ← digits;
  if decide (c = "/"%char) then
    '(v2, c2) ← digits;
    our_ungetc c2;;
    mret (v, Some v2)
  else our_ungetc c;; mret (v, None).

(** The expression for a numeral.  [mpq_set_str] refuses an empty denominator;
    a zero denominator makes [mpq_canonicalize] raise SIGFPE. *)
Definition numeral_expr (msg v : string) (v2 : option string) : M mem ptr :=
  match v2 with
  | None => new_int (num_val v)
  | Some d =>
      if decide (d = EmptyString) then report_error msg
      else match num_val d with
           | Zpos p => new_rat (num_val v # p)
           | _ => throw DivisionByZero
           end
  end.

Section read_code.
Context {T : Type} {ST : SymTab T entry}.
Local Abbreviation W := (world T).

(** [read_ctor] *)
Definition read_ctor : M W ptr :=
  id ← lx prefix_id;
  '(s, stp) ← symbols_get id;
  if decide (stp = null) then report_error "Undeclared identifier parsing a pattern."
  else
    c ← lm (getclass s);
    v ← (if decide (c = SYMS_EXPR) then lm (sym_val s) else mret null);
    if decide (c ≠ SYMS_EXPR ∨ v ≠ null) then
      report_error "The head of a pattern is not a constructor."
    else lm (inc s);; mret s.

(** Take a reference from the previous application after [make_app] copied it. *)
Definition extend_app (pat k : ptr) : M mem ptr :=
  pat' ← make_app pat k;
  c ← getclass pat;
  (if decide (c = CEXPR) then dec pat else mret ());;
  mret pat'.

(** The variables of a pattern: each is entered in the symbol table. *)
Fixpoint read_pattern_vars (steps : nat) (pat : ptr) : M W (ptr * list (string * entry)) :=
  match steps with
  | 0 => throw OutOfFuel
  | S steps =>
      c ← lx non_ws;
      if decide (c = ")"%char) then mret (pat, [])
      else
        lx (our_ungetc c);;
        varstr ← lx prefix_id;
        var ← lm (new_syms varstr);
        prev ← symbols_insert varstr (var, null);
        pat' ← lm (extend_app pat var);
        '(pat'', prevs) ← read_pattern_vars steps pat';
        mret (pat'', (varstr, prev) :: prevs)
  end.

(** Put replaced entries back, first to last. *)
Definition restore_entries (prevs : list (string * entry)) : M W () :=
  for_each (λ '(s, prev), _ ← symbols_insert s prev; mret ()) prevs.

(** [read_case] *)
Definition read_case (rec : M W ptr) : M W ptr :=
  lx (eat_char "("%char);;
  d ← lx non_ws;
  '(pat, prevs) ←
    (if decide (d = "("%char) then
       s ← read_ctor;
       l ← gets w_lex;
       read_pattern_vars (lex_fuel l) s
     else if decide (d = "d"%char) then
       _ ← lx (eat_str "efault" true);
       mret (null, [])
     else if decide (d = EOFc) then report_error "Unexpected end of file parsing a pattern."
     else
       lx (our_ungetc d);;
       s ← read_ctor;
       mret (s, []));
  body ← rec;
  ret ← (if decide (pat = null) then mret body else lm (new_cexpr CASE [pat; body]));
  restore_entries prevs;;
  lx (eat_char ")"%char);;
  mret ret.

(** What a case of the switch on the character after a parenthesis does: return
    an expression, or leave the switch with the part of an identifier it read. *)
Inductive flow := FRet (e : ptr) | FBreak (pref : option string).

(** A keyword case: push the first letter back, try the keyword, and leave the
    switch with the prefix read when it is another identifier. *)
Definition keyword (first : Ascii.ascii) (str : string) (check_end : bool) (before : string)
    (k : M W ptr) : M W flow :=
  lx (our_ungetc first);;
  r ← lx (eat_str str check_end);
  match r with
  | Some s => mret (FBreak (Some (before +:+ s)))
  | None => FRet <$> k
  end.

(** [(do e1 ... en)] *)
Fixpoint do_loop (rec : M W ptr) (steps : nat) (ret : ptr) : M W ptr :=
  match steps with
  | 0 => throw OutOfFuel
  | S steps =>
      c ← lx non_ws;
      if decide (c = ")"%char) then mret ret
      else
        lx (our_ungetc c);;
        e ← rec;
        ret' ← lm (new_cexpr DO [ret; e]);
        do_loop rec steps ret'
  end.
Definition read_do (rec : M W ptr) : M W ptr :=
  ret ← rec;
  l ← gets w_lex;
  do_loop rec (lex_fuel l) ret.

Definition read_fail (rec : M W ptr) : M W ptr :=
  c ← rec;
  lx (eat_char ")"%char);;
  lm (new_cexpr FAIL [c]).

Definition read_let (rec : M W ptr) : M W ptr :=
  id ← lx prefix_id;
  var ← lm (new_syms id);
  t1 ← rec;
  prev ← symbols_insert id (var, null);
  t2 ← rec;
  _ ← symbols_insert id prev;
  lx (eat_char ")"%char);;
  lm (new_cexpr LET [var; t1; t2]).

Definition read_ifmarked (rec : M W ptr) : M W ptr :=
  index ← lx read_index;
  e1 ← rec;
  e2 ← rec;
  e3 ← rec;
  ret ← (if decide (1 ≤ index ≤ 32)%Z then
           i ← lm (new_int (index - 1)); lm (new_cexpr IFMARKED [i; e1; e2; e3])
         else
           lm (print_out ("Can't make IFMARKED with index = " +:+ pretty index +:+ String NL ""));;
           mret null);
  lx (eat_char ")"%char);;
  mret ret.

Definition read_markvar (rec : M W ptr) : M W ptr :=
  index ← lx read_index;
  ret ← (if decide (1 ≤ index ≤ 32)%Z then
           e ← rec; i ← lm (new_int (index - 1)); lm (new_cexpr MARKVAR [i; e])
         else
           lm (print_out ("Can't make MARKVAR with index = " +:+ pretty index +:+ String NL ""));;
           mret null);
  lx (eat_char ")"%char);;
  mret ret.

(** [(match scrutinee case ... case)]; a case that starts with [d] ends the list. *)
Fixpoint match_loop (rec : M W ptr) (steps : nat) : M W (list ptr * Ascii.ascii) :=
  match steps with
  | 0 => throw OutOfFuel
  | S steps =>
      c ← lx non_ws;
      if decide (c = ")"%char ∨ c = "d"%char) then mret ([], c)
      else
        lx (our_ungetc c);;
        k ← read_case rec;
        '(ks, e) ← match_loop rec steps;
        mret (k :: ks, e)
  end.
Definition read_match (rec : M W ptr) : M W ptr :=
  scrut ← rec;
  l ← gets w_lex;
  '(cases, c) ← match_loop rec (lex_fuel l);
  if decide (cases = []) then report_error "A match has no cases."
  else
    last ← (if decide (c = "d"%char) then
              lx (our_ungetc c);; k ← read_case rec; mret [k]
            else mret []);
    lm (new_cexpr MATCH (scrut :: cases ++ last)).

(** Operators with one, two or three operands. *)
Definition read_args1 (o : op) (rec : M W ptr) : M W ptr :=
  e1 ← rec; ret ← lm (new_cexpr o [e1]); lx (eat_char ")"%char);; mret ret.
Definition read_args2 (o : op) (rec : M W ptr) : M W ptr :=
  e1 ← rec; e2 ← rec; ret ← lm (new_cexpr o [e1; e2]); lx (eat_char ")"%char);; mret ret.
Definition read_args3 (o : op) (rec : M W ptr) : M W ptr :=
  e1 ← rec; e2 ← rec; e3 ← rec;
  ret ← lm (new_cexpr o [e1; e2; e3]); lx (eat_char ")"%char);; mret ret.

Definition read_compare (rec : M W ptr) : M W ptr :=
  e1 ← rec; e2 ← rec; e3 ← rec; e4 ← rec;
  lx (eat_char ")"%char);;
  lm (new_cexpr COMPARE [e1; e2; e3; e4]).

(** [case 'm'] inside [mp_]. *)
Definition read_mp_mul (rec : M W ptr) : M W flow :=
  keyword "m" "mul" true "mp_" (read_args2 MUL rec).

(** [case 'i'] inside [mp_]: [mp_ifneg] and [mp_ifzero].  Leaving the inner
    switch falls into [case 'm']. *)
Definition read_mp_if (rec : M W ptr) : M W flow :=
  c ← lx our_getc;
  if decide (c = "f"%char) then
    c ← lx our_getc;
    r ← (if decide (c = "n"%char) then keyword "n" "neg" true "mp_if" (read_args3 IFNEG rec)
         else if decide (c = "z"%char) then keyword "z" "zero" true "mp_if" (read_args3 IFZERO rec)
         else lx (our_ungetc c);; mret (FBreak (Some "mp_if"%string)));
    match r with
    | FRet e => mret (FRet e)
    | FBreak _ => read_mp_mul rec
    end
  else lx (our_ungetc c);; mret (FBreak (Some "mp_i"%string)).

(** The switch on the character after [mp_]. *)
Definition read_mp_op (rec : M W ptr) : M W flow :=
  c ← lx our_getc;
  if decide (c = "a"%char) then keyword "a" "add" true "mp_" (read_args2 ADD rec)
  else if decide (c = "n"%char) then keyword "n" "neg" true "mp_" (read_args1 NEG rec)
  else if decide (c = "i"%char) then read_mp_if rec
  else if decide (c = "m"%char) then read_mp_mul rec
  else if decide (c = "d"%char) then keyword "d" "div" true "mp_" (read_args2 DIV rec)
  else lx (our_ungetc c);; mret (FBreak (Some "mp_"%string)).

(** [default] of the switch on the character [c] after [m]. *)
Definition read_m_default (c : Ascii.ascii) : M W flow :=
  lx (our_ungetc c);; mret (FBreak (Some "m"%string)).

(** [case 'p'] of that switch: leaving the switch of [mp_] falls into its [default]. *)
Definition read_m_p (rec : M W ptr) (c : Ascii.ascii) : M W flow :=
  lx (our_ungetc "p"%char);;
  r ← lx (eat_str "p_" false);
  match r with
  | Some s => mret (FBreak (Some ("m" +:+ s)))
  | None =>
      r ← read_mp_op rec;
      match r with
      | FRet e => mret (FRet e)
      | FBreak _ => read_m_default c
      end
  end.

(** [case 'a'] of that switch: [match] and [markvar]; leaving the inner switch
    falls into [case 'p']. *)
Definition read_m_a (rec : M W ptr) (c : Ascii.ascii) : M W flow :=
  cc ← lx our_getc;
  r ← (if decide (cc = "t"%char) then keyword "t" "tch" true "ma" (read_match rec)
       else if decide (cc = "r"%char) then keyword "r" "rkvar" false "ma" (read_markvar rec)
       else lx (our_ungetc c);; mret (FBreak (Some "ma"%string)));
  match r with
  | FRet e => mret (FRet e)
  | FBreak _ => read_m_p rec c
  end.

Definition read_m (rec : M W ptr) : M W flow :=
  c ← lx our_getc;
  if decide (c = "a"%char) then read_m_a rec c
  else if decide (c = "p"%char) then read_m_p rec c
  else read_m_default c.

(** Negate a literal in place. *)
Definition negate_literal (e : ptr) : M mem ptr :=
  n ← load e;
  match body n with
  | PInt z => set_body e (PInt (- z));; mret e
  | PRat q => set_body e (PRat (Qopp q));; mret e
  | _ => report_error "Negative sign with expr that is not an int. literal."
  end.

Definition read_neg (rec : M W ptr) : M W ptr :=
  e ← rec;
  e' ← lm (negate_literal e);
  lx (eat_char ")"%char);;
  mret e'.

(** The switch on the character after a parenthesis. *)
Definition read_paren (rec : M W ptr) : M W flow :=
  c ← lx non_ws;
  if decide (c = "d"%char) then keyword "d" "do" true "" (read_do rec)
  else if decide (c = "f"%char) then keyword "f" "fail" true "" (read_fail rec)
  else if decide (c = "l"%char) then keyword "l" "let" true "" (read_let rec)
  else if decide (c = "i"%char) then keyword "i" "ifmarked" false "" (read_ifmarked rec)
  else if decide (c = "m"%char) then read_m rec
  else if decide (c = "~"%char) then FRet <$> read_neg rec
  else if decide (c = "c"%char) then keyword "c" "compare" true "" (read_compare rec)
  else if decide (c = EOFc) then report_error "Unexpected end of file."
  else lx (our_ungetc c);; mret (FBreak None).

(** The arguments of an application. *)
Fixpoint app_loop (rec : M W ptr) (steps : nat) (ret : ptr) : M W ptr :=
  match steps with
  | 0 => throw OutOfFuel
  | S steps =>
      c ← lx non_ws;
      if decide (c = ")"%char) then mret ret
      else
        lx (our_ungetc c);;
        ke ← rec;
        ret' ← lm (extend_app ret ke);
        app_loop rec steps ret'
  end.

(** "parse application" *)
Definition read_app (rec : M W ptr) (pref : option string) : M W ptr :=
  id ← lx prefix_id;
  let pref := default EmptyString pref +:+ id in
  p ← progs_get pref;
  ret ← (if decide (p = null) then e ← symbols_get pref; mret e.1 else mret p);
  if decide (ret = null) then
    report_error ("Undeclared identifier at head of an application: " +:+ pref)
  else
    lm (inc ret);;
    l ← gets w_lex;
    app_loop rec (lex_fuel l) ret.

(** An identifier that is not applied. *)
Definition read_ident : M W ptr :=
  id ← lx prefix_id;
  e ← symbols_get id;
  ret ← (if decide (e.1 = null) then progs_get id else mret e.1);
  if decide (ret = null) then report_error ("Undeclared identifier: " +:+ id)
  else lm (inc ret);; mret ret.

Fixpoint read_code (fuel : nat) : M W ptr :=
  match fuel with
  | 0 => throw OutOfFuel
  | S fuel =>
      d ← lx non_ws;
      if decide (d = "("%char) then
        r ← read_paren (read_code fuel);
        match r with
        | FRet e => mret e
        | FBreak pref => read_app (read_code fuel) pref
        end
      else if decide (d = EOFc) then report_error "Unexpected end of file."
      else if decide (d = "_"%char) then report_error "Holes may not be used in code."
      else if isdigit d then
        lx (our_ungetc d);;
        '(v, v2) ← lx read_numeral;
        lm (numeral_expr "Error reading a mpq numeral." v v2)
      else lx (our_ungetc d);; read_ident
  end.
End read_code.

(** ** Types of code *)
Section check_code.
Context {T : Type} {ST : SymTab T entry}.
Local Abbreviation W := (world T).
Local Abbreviation rec_t := (ptr → M W ptr).

(** [tp->getclass() == SYMS_EXPR && !tp->val] *)
Definition is_base_type (tp : ptr) : M mem bool :=
  c ← getclass tp;
  if decide (c = SYMS_EXPR) then v ← sym_val tp; mret (bool_decide (v = null)) else mret false.

(** The classifier of a type that is a symbol without a value, else null. *)
Definition kind_of (tp : ptr) : M W ptr :=
  b ← lm (is_base_type tp);
  if (b : bool) then s ← lm (sym_name tp); e ← symbols_get s; mret e.2 else mret null.

(** The test [tptp->isType(statType)], for a [tptp] that may be null. *)
Definition is_data_type (tp : ptr) : M W bool :=
  tptp ← kind_of tp;
  st ← get_stat statType;
  lm (isType st tptp).

Definition check_symbol (e : ptr) : M W ptr :=
  s ← lm (sym_name e);
  p ← symbols_get s;
  if decide (p.2 = null) then report_error "A symbol is missing a type in a piece of code."
  else mret p.2.

(** The loop over the pis of the head's type. *)
Fixpoint check_app_args (fuel : nat) (argtps : list ptr) (cur : ptr) : M mem ptr :=
  o ← getop cur;
  if decide (o = PI) then
    match argtps with
    | [] => report_error "A function is not being fully applied in code."
    | a :: argtps =>
        oa ← getop a;
        a' ← (if decide (oa = APP) then kid a 0 else mret a);
        dom ← kid cur 1;
        if decide (a' ≠ dom) then report_error "Type mismatch for argument in application in code."
        else
          b ← get_free_in cur;
          (if (b : bool) then
             calc_free_in fuel cur;;
             b' ← get_free_in cur;
             if (b' : bool) then
               report_error "A dependently typed function is being applied in code."
             else setexmark cur
           else mret ());;
          range ← kid cur 2;
          check_app_args fuel argtps range
    end
  else
    match argtps with
    | [] => mret cur
    | _ => report_error "A function is being fully applied to too many arguments in code."
    end.

Definition check_code_app (rec : rec_t) (fuel : nat) (e : ptr) : M W ptr :=
  k0 ← lm (kid e 0);
  h ← lm (followDefs k0);
  ks ← lm (kids_list e);
  argtps ← map_m rec (drop 1 ks);
  o ← lm (getop h);
  tp ← (if decide (o = PROG) then lm (kid h 0)
        else s ← lm (sym_name h); p ← symbols_get s; mret p.2);
  if decide (tp = null) then
    report_error "The head of an application is missing a type in code."
  else
    tp ← lm (followDefs tp);
    ot ← lm (getop tp);
    if decide (ot ≠ PI) then
      report_error "The head of an application does not have functional type in code."
    else lm (check_app_args fuel argtps tp).

Definition check_code_let (rec : rec_t) (e : ptr) : M W ptr :=
  var ← lm (kid e 0);
  k1 ← lm (kid e 1);
  tp1 ← rec k1;
  s ← lm (sym_name var);
  prev ← symbols_insert s (null, tp1);
  k2 ← lm (kid e 2);
  tp2 ← rec k2;
  _ ← symbols_insert s prev;
  mret tp2.

Definition is_num_type (tp : ptr) : M W bool :=
  z ← get_stat statMpz; q ← get_stat statMpq; mret (bool_decide (tp = z ∨ tp = q)).

Definition check_code_arith (rec : rec_t) (e : ptr) : M W ptr :=
  k0 ← lm (kid e 0);
  tp0 ← rec k0;
  k1 ← lm (kid e 1);
  tp1 ← rec k1;
  b ← is_num_type tp0;
  if negb b then report_error "Argument to mp_[arith] does not have type mpz or mpq."
  else if decide (tp0 ≠ tp1) then report_error "Arguments to mp_[arith] have differing types."
  else mret tp0.

Definition check_code_neg (rec : rec_t) (e : ptr) : M W ptr :=
  k0 ← lm (kid e 0);
  tp0 ← rec k0;
  b ← is_num_type tp0;
  if negb b then report_error "Argument to mp_neg does not have type mpz or mpq."
  else mret tp0.

(** The two branches of a conditional: equal simple datatypes. *)
Definition check_branches (rec : rec_t) (msg : string) (e : ptr) (i : nat) : M W ptr :=
  k1 ← lm (kid e i);
  tp1 ← rec k1;
  k2 ← lm (kid e (S i));
  tp2 ← rec k2;
  b ← lm (is_base_type tp1);
  if decide (b = false ∨ tp1 ≠ tp2) then report_error msg else mret tp1.

Definition check_code_if (rec : rec_t) (e : ptr) : M W ptr :=
  k0 ← lm (kid e 0);
  tp0 ← rec k0;
  b ← is_num_type tp0;
  if negb b then report_error "Argument to mp_if does not have type mpz or mpq."
  else check_branches rec "mp_if used with expressions that do not have equal simple datatypes" e 1.

Definition check_code_fail (rec : rec_t) (e : ptr) : M W ptr :=
  k0 ← lm (kid e 0);
  tp ← rec k0;
  st ← get_stat statType;
  if decide (tp ≠ st) then report_error "fail is used with an expression which is not a type."
  else mret k0.

Definition check_code_markvar (rec : rec_t) (e : ptr) : M W ptr :=
  k1 ← lm (kid e 1);
  tp ← rec k1;
  b ← is_data_type tp;
  if negb b then
    report_error "markvar is used with an expression which cannot be a lambda-bound variable."
  else mret tp.

Definition check_code_ifmarked (rec : rec_t) (e : ptr) : M W ptr :=
  k1 ← lm (kid e 1);
  tp ← rec k1;
  b ← is_data_type tp;
  if negb b then
    report_error "ifmarked is used with an expression which cannot be a lambda-bound variable."
  else check_branches rec "ifmarked used with expressions that do not have equal simple datatypes" e 2.

Definition check_code_compare (rec : rec_t) (e : ptr) : M W ptr :=
  k0 ← lm (kid e 0);
  tp0 ← rec k0;
  b0 ← lm (is_base_type tp0);
  if negb b0 then
    report_error "compare is used with a first expression which cannot be a lambda-bound variable."
  else
    k1 ← lm (kid e 1);
    tp1 ← rec k1;
    b1 ← lm (is_base_type tp1);
    if negb b1 then
      report_error "compare is used with a second expression which cannot be a lambda-bound variable."
    else
      check_branches rec "compare used with expressions that do not have equal simple datatypes" e 2.

(** The variables of a pattern get the domains of the constructor's type. *)
Fixpoint bind_pattern (vars : list ptr) (curtp : ptr) : M W (list (string * entry)) :=
  match vars with
  | [] => mret []
  | v :: vars =>
      tp ← lm (followDefs curtp);
      o ← lm (getop tp);
      if decide (o ≠ PI) then report_error "Too many arguments to a constructor in a pattern."
      else
        s ← lm (sym_name v);
        dom ← lm (kid tp 1);
        prev ← symbols_insert s (null, dom);
        range ← lm (kid tp 2);
        prevs ← bind_pattern vars range;
        mret ((s, prev) :: prevs)
  end.

(** The type of one case, or of the default. *)
Definition check_case (rec : rec_t) (c : ptr) : M W ptr :=
  o ← lm (getop c);
  if decide (o ≠ CASE) then rec c
  else
    pat ← lm (kid c 0);
    cls ← lm (getclass pat);
    if decide (cls = SYMS_EXPR) then b ← lm (kid c 1); rec b
    else
      '(ctor, vars) ← lm (collect_args pat true);
      s ← lm (sym_name ctor);
      p ← symbols_get s;
      prevs ← bind_pattern vars p.2;
      b ← lm (kid c 1);
      tp ← rec b;
      restore_entries prevs;;
      mret tp.

(** All cases have the type of the first one, [mtp]. *)
Fixpoint check_cases (rec : rec_t) (mtp : ptr) (cs : list ptr) : M W ptr :=
  match cs with
  | [] => mret mtp
  | c :: cs =>
      tp ← check_case rec c;
      if decide (mtp = null) then check_cases rec tp cs
      else if decide (mtp ≠ tp) then
        report_error "Types for bodies of match cases or the default differ."
      else check_cases rec mtp cs
  end.

Definition check_code_match (rec : rec_t) (e : ptr) : M W ptr :=
  k0 ← lm (kid e 0);
  scruttp ← rec k0;
  b ← is_data_type scruttp;
  if negb b then report_error "The scrutinee of a match is not a plain piece of data."
  else
    ks ← lm (kids_list e);
    check_cases rec null (drop 1 ks).

Fixpoint check_code (fuel : nat) (e : ptr) : M W ptr :=
  match fuel with
  | 0 => throw OutOfFuel
  | S fuel =>
      let rec := check_code fuel in
      n ← lm (load e);
      match body n with
      | PInt _ => get_stat statMpz
      | PRat _ => get_stat statMpq
      | PSym _ => report_error "Internal error: an LF variable is encountered in code"
      | PSymS _ _ => check_symbol e
      | PHole _ => report_error "Encountered a hole unexpectedly in code."
      | PC APP _ => check_code_app rec fuel e
      | PC MPZ _ | PC MPQ _ => get_stat statType
      | PC DO _ => k0 ← lm (kid e 0); _ ← rec k0; k1 ← lm (kid e 1); rec k1
      | PC LET _ => check_code_let rec e
      | PC ADD _ | PC MUL _ | PC DIV _ => check_code_arith rec e
      | PC NEG _ => check_code_neg rec e
      | PC IFNEG _ | PC IFZERO _ => check_code_if rec e
      | PC FAIL _ => check_code_fail rec e
      | PC MARKVAR _ => check_code_markvar rec e
      | PC IFMARKED _ => check_code_ifmarked rec e
      | PC COMPARE _ => check_code_compare rec e
      | PC MATCH _ => check_code_match rec e
      | PC _ _ => report_error "Type checking an unrecognized form of code (internal error)."
      end
  end.
End check_code.
