(* ===== verification/Run.v ===== *)
(** * Running side conditions (run_code in code.cpp)

    A run gives an owned reference to its result, or null when the side
    condition fails.  [scc] stands for [run_compiled_scc], the entry point of
    the compiled side conditions. *)

From Stdlib Require Import Ascii String QArith_base Qreduction.
From stdpp Require Import base tactics list strings gmap numbers pretty.
From S2P Require Import Prelude Header Memory Expr Lexer.

(** ** Arithmetic *)

(** [mpz_cdiv_q]: the quotient rounded up. *)
Definition cdiv_q (n d : Z) : Z := (- ((- n) / d))%Z.

Definition int_arith (o : op) (a b : Z) : M mem Z :=
  match o with
  | ADD => mret (a + b)%Z
  | MUL => mret (a * b)%Z
  | _ => if decide (b = 0%Z) then throw DivisionByZero else mret (cdiv_q a b)
  end.

Definition rat_arith (o : op) (a b : Q) : M mem Q :=
  match o with
  | ADD => mret (Qred (a + b)%Q)
  | MUL => mret (Qred (a * b)%Q)
  | _ => if decide (Qnum b = 0%Z) then throw DivisionByZero else mret (Qred (a / b)%Q)
  end.

(** The test of [mp_ifneg] ([IFNEG]) and [mp_ifzero] on the sign. *)
Definition sign_test (o : op) (s : Z) : bool :=
  match o with IFNEG => (s <? 0)%Z | _ => (s =? 0)%Z end.

Definition is_sym_class (c : eclass) : bool :=
  bool_decide (c = SYM_EXPR ∨ c = SYMS_EXPR).

Section run_code.
Context (scc : ptr → list ptr → M mem ptr).
Local Abbreviation rec_t := (ptr → M mem ptr).

(** A literal or a variable. *)
Definition run_leaf (e : ptr) (b : payload) : M mem ptr :=
  match b with
  | PHole _ =>
      tmp ← followDefs e;
      if decide (tmp = e) then report_error "Encountered an unfilled hole running code."
      else inc tmp;; mret tmp
  | PSymS _ _ | PSym _ => tmp ← followDefs e; inc tmp;; mret tmp
  | _ => inc e;; mret e
  end.

Definition run_do (rec : rec_t) (e : ptr) : M mem ptr :=
  k0 ← kid e 0;
  tmp ← rec k0;
  if decide (tmp = null) then mret null
  else dec tmp;; k1 ← kid e 1; rec k1.

Definition run_let (rec : rec_t) (e : ptr) : M mem ptr :=
  k1 ← kid e 1;
  r0 ← rec k1;
  if decide (r0 = null) then mret null
  else
    var ← kid e 0;
    prev ← sym_val var;
    set_sym_val var r0;;
    k2 ← kid e 2;
    r1 ← rec k2;
    set_sym_val var prev;;
    dec r0;;
    mret r1.

Definition run_arith (rec : rec_t) (o : op) (e : ptr) : M mem ptr :=
  k0 ← kid e 0;
  r1 ← rec k0;
  if decide (r1 = null) then mret null
  else
    k1 ← kid e 1;
    r2 ← rec k1;
    if decide (r2 = null) then mret null
    else
      n1 ← load r1;
      n2 ← load r2;
      match body n1, body n2 with
      | PInt a, PInt b => r ← int_arith o a b; dec r1;; dec r2;; new_int r
      | PRat a, PRat b => q ← rat_arith o a b; dec r1;; dec r2;; new_rat q
      | _, _ => dec r1;; dec r2;; mret null
      end.

Definition run_neg (rec : rec_t) (e : ptr) : M mem ptr :=
  k0 ← kid e 0;
  r1 ← rec k0;
  if decide (r1 = null) then mret null
  else
    n1 ← load r1;
    match body n1 with
    | PInt a => dec r1;; new_int (- a)
    | PRat a => dec r1;; new_rat (Qopp a)
    | b =>
        print_out ("An arithmetic negation failed. " +:+ pretty (class_code (class_of b)) +:+ nl);;
        v ← sym_val r1;
        print_out (pretty v +:+ nl);;
        dec r1;;
        mret null
    end.

Definition run_if (rec : rec_t) (o : op) (e : ptr) : M mem ptr :=
  k0 ← kid e 0;
  r1 ← rec k0;
  if decide (r1 = null) then mret null
  else
    n1 ← load r1;
    match body n1 with
    | PInt a =>
        dec r1;;
        k ← kid e (if sign_test o a then 1 else 2);
        rec k
    | PRat a =>
        dec r1;;
        k ← kid e (if sign_test o (Qnum a) then 1 else 2);
        rec k
    | b =>
        print_out ("An arithmetic if-expression failed. " +:+ pretty (class_code (class_of b))
                   +:+ nl);;
        dec r1;;
        mret null
    end.

(** [((IntExpr)e->kids[0])->get_num()] *)
Definition mark_index (e : ptr) : M mem Z := k ← kid e 0; int_of k.

Definition run_ifmarked (rec : rec_t) (e : ptr) : M mem ptr :=
  k1 ← kid e 1;
  r1 ← rec k1;
  if decide (r1 = null) then mret null
  else
    c ← getclass r1;
    if is_sym_class c then
      i ← mark_index e;
      b ← getmark r1 i;
      dec r1;;
      k ← kid e (if decide (b ≠ 0%Z) then 2 else 3);
      rec k
    else dec r1;; mret null.

Definition run_compare (rec : rec_t) (e : ptr) : M mem ptr :=
  k0 ← kid e 0;
  r1 ← rec k0;
  if decide (r1 = null) then mret null
  else
    c1 ← getclass r1;
    if is_sym_class c1 then
      k1 ← kid e 1;
      r2 ← rec k1;
      if decide (r2 = null) then mret null
      else
        c2 ← getclass r2;
        if is_sym_class c2 then
          if (r1 <? r2)%N then dec r1;; k ← kid e 2; rec k
          else dec r2;; k ← kid e 3; rec k
        else dec r2;; mret null
    else dec r1;; mret null.

Definition run_markvar (rec : rec_t) (e : ptr) : M mem ptr :=
  k1 ← kid e 1;
  r1 ← rec k1;
  if decide (r1 = null) then mret null
  else
    c ← getclass r1;
    if is_sym_class c then
      i ← mark_index e;
      b ← getmark r1 i;
      (if decide (b ≠ 0%Z) then clearmark r1 i else setmark r1 i);;
      mret r1
    else dec r1;; mret null.

(** Give variables values, keeping the old ones; a variable that is missing is
    a read past the end of the vector. *)
Fixpoint bind_vars (vars args : list ptr) : M mem (list ptr) :=
  match args with
  | [] => mret []
  | a :: args =>
      match vars with
      | [] => undefined OutOfBounds
      | x :: vars =>
          old ← sym_val x;
          set_sym_val x a;;
          inc a;;
          olds ← bind_vars vars args;
          mret (old :: olds)
      end
  end.

(** Put the old values back and drop the references the variables held. *)
Fixpoint unbind_vars (vars args olds : list ptr) : M mem () :=
  match vars, args, olds with
  | x :: vars, a :: args, old :: olds =>
      set_sym_val x old;; dec a;; unbind_vars vars args olds
  | _, _, _ => mret ()
  end.

(** The cases of a match, for a scrutinee with head [hd] and arguments [args];
    without a case for the head the match fails. *)
Fixpoint run_cases (rec : rec_t) (scrut hd : ptr) (args cases : list ptr) : M mem ptr :=
  match cases with
  | [] => mret null
  | c :: cases =>
      o ← getop c;
      if decide (o ≠ CASE) then rec c
      else
        p ← kid c 0;
        ph ← get_head p true;
        if decide (hd = ph) then
          '(_, vars) ← collect_args p true;
          olds ← bind_vars vars args;
          dec scrut;;
          bod ← kid c 1;
          ret ← rec bod;
          unbind_vars vars args olds;;
          mret ret
        else run_cases rec scrut hd args cases
  end.

Definition run_match (rec : rec_t) (e : ptr) : M mem ptr :=
  k0 ← kid e 0;
  scrut ← rec k0;
  if decide (scrut = null) then mret null
  else
    '(hd, args) ← collect_args scrut true;
    ks ← kids_list e;
    run_cases rec scrut hd args (drop 1 ks).

(** Run the arguments of a call in order; when one fails, drop the others. *)
Fixpoint run_args (rec : rec_t) (done args : list ptr) : M mem (option (list ptr)) :=
  match args with
  | [] => mret (Some done)
  | a :: args =>
      r ← rec a;
      if decide (r = null) then for_each dec done;; mret None
      else run_args rec (done ++ [r]) args
  end.

(** The parameters of a program take the arguments over. *)
Fixpoint bind_params (vars args : list ptr) : M mem (list ptr) :=
  match vars with
  | [] => mret []
  | x :: vars =>
      match args with
      | [] => undefined OutOfBounds
      | a :: args =>
          old ← sym_val x;
          set_sym_val x a;;
          olds ← bind_params vars args;
          mret (old :: olds)
      end
  end.

Fixpoint unbind_params (vars args olds : list ptr) : M mem () :=
  match vars, args, olds with
  | x :: vars, a :: args, old :: olds =>
      dec a;; set_sym_val x old;; unbind_params vars args olds
  | _, _, _ => mret ()
  end.

Definition add_indent (d : Z) : M mem () :=
  modify (λ m, set_indent (dbg_prog_indent_lvl m + d) m).
Definition dbg_prog_indent : M mem () :=
  m ← get_st;
  print_out (string_of_list_ascii (replicate (Z.to_nat (dbg_prog_indent_lvl m)) " "%char)).

(** A call of the program [prog] from the application [e]. *)
Definition run_prog (rec : rec_t) (fuel : nat) (e prog : ptr) (args : list ptr) : M mem ptr :=
  progvars ← kid prog 1;
  m ← get_st;
  compiled ← (if run_scc m then h ← get_head e false; c ← getclass h;
                                mret (bool_decide (c = SYMS_EXPR))
              else mret false);
  if (compiled : bool) then
    h ← get_head e false;
    ret ← scc h args;
    for_each dec args;;
    mret ret
  else
    vars ← kids_list progvars;
    olds ← bind_params vars args;
    when (dbg_prog m) (dbg_prog_indent;; print_out "[";; print fuel e;; print_out nl);;
    add_indent 1;;
    bod ← kid prog 2;
    ret ← rec bod;
    add_indent (-1);;
    when (dbg_prog m)
      (dbg_prog_indent;; print_out "= ";;
       (if decide (ret = null) then print_out "fail" else print fuel ret);;
       print_out ("]" +:+ nl));;
    unbind_params vars args olds;;
    mret ret.

Definition run_app (rec : rec_t) (fuel : nat) (e : ptr) : M mem ptr :=
  tmp ← whr fuel e;
  if decide (e ≠ tmp) then rec tmp
  else
    '(hd, args) ← collect_args e true;
    oargs ← run_args rec [] args;
    match oargs with
    | None => mret null
    | Some args =>
        o ← getop hd;
        if decide (o ≠ PROG) then inc hd;; build_app hd args 0
        else run_prog rec fuel e hd args
    end.

Fixpoint run_code (fuel : nat) (e : ptr) : M mem ptr :=
  match fuel with
  | 0 => throw OutOfFuel
  | S fuel =>
      let rec := run_code fuel in
      n ← load e;
      match body n with
      | PC FAIL _ => mret null
      | PC DO _ => run_do rec e
      | PC LET _ => run_let rec e
      | PC ADD _ => run_arith rec ADD e
      | PC MUL _ => run_arith rec MUL e
      | PC DIV _ => run_arith rec DIV e
      | PC NEG _ => run_neg rec e
      | PC IFNEG _ => run_if rec IFNEG e
      | PC IFZERO _ => run_if rec IFZERO e
      | PC IFMARKED _ => run_ifmarked rec e
      | PC COMPARE _ => run_compare rec e
      | PC MARKVAR _ => run_markvar rec e
      | PC MATCH _ => run_match rec e
      | PC APP _ => run_app rec fuel e
      | PC _ _ => mret null
      | b => run_leaf e b
      end
  end.
End run_code.
