(* ===== verification/SccCode.v ===== *)
(** * Compiled side conditions (scccode.cpp)

    The C++ functions that [--compile-scc] once wrote for the programs of sat.plf
    and kind.plf, and that [--run-scc] calls instead of interpreting the programs:
    clause simplification, and the formulas of the base case and the step of
    k-induction.  The file is generated, so every program construct has one
    translation that is repeated at each use; the [gen_] definitions are those
    translations, and the functions are put together from them as in the source.

    The generated code tests the class of a number twice, once per nested
    conditional, and copies both branches under each test; [gen_ifneg] and
    [gen_ifzero] make the same tests in the same order. *)

From Stdlib Require Import QArith_base Qreduction.
From stdpp Require Import base tactics list strings gmap numbers.
From S2P Require Import Prelude SymTab Header Memory Expr Lexer World Run.

(** ** The translations of the program constructs *)

(** [c->followDefs()->get_head()] *)
Definition head_of (c : ptr) : M mem ptr := d ← followDefs c; get_head d true.

(** [((CExpr* )c->followDefs())->kids[i]] *)
Definition arg_of (c : ptr) (i : nat) : M mem ptr := d ← followDefs c; kid d i.

(** A match without a case for the term: a message and [exit(1)]. *)
Definition no_match {A} (f : string) (e : ptr) : M mem A :=
  m ← get_st;
  s ← toString (S (size (heap m))) e;
  throw (Fatal ("Could not find match for expression in function " +:+ f +:+ " " +:+ s +:+ nl)).

(** [e = new IntExpr(n); e->inc();] *)
Definition gen_int (n : Z) : M mem ptr := e ← new_int n; inc e;; mret e.

(** [(do e ...)]: the value is dropped. *)
Definition gen_drop (c : M mem ptr) : M mem () := e ← c; dec e.

(** The value of a symbol. *)
Definition gen_sym (e : ptr) : M mem ptr := inc e;; mret e.

(** [(markvar v)], for the mark [i]. *)
Definition gen_markvar (v : ptr) (i : Z) : M mem ptr :=
  inc v;;
  d ← followDefs v;
  b ← getmark d i;
  d ← followDefs v;
  (if decide (b ≠ 0%Z) then clearmark d i else setmark d i);;
  inc v;;
  dec v;;
  mret v.

(** [(ifmarked v yes no)], for the mark [i]. *)
Definition gen_ifmarked (v : ptr) (i : Z) (yes no : M mem ptr) : M mem ptr :=
  inc v;;
  d ← followDefs v;
  b ← getmark d i;
  e ← (if decide (b ≠ 0%Z) then yes else no);
  dec v;;
  mret e.

(** A match of [c] with two constructors. *)
Definition gen_match2 (f : string) (c ct1 ct2 : ptr) (case1 case2 : M mem ptr) : M mem ptr :=
  inc c;;
  hd ← head_of c;
  inc ct1;;
  inc ct2;;
  e ← (if decide (hd = ct1) then case1 else if decide (hd = ct2) then case2 else no_match f hd);
  dec c;;
  dec ct1;;
  dec ct2;;
  mret e.

(** The test of a number's sign; a value of another class leaves the result
    uninitialised. *)
Definition gen_ifsign (test : Z → bool) (k : ptr) (yes no : M mem ptr) : M mem ptr :=
  inc k;;
  d ← followDefs k;
  c ← getclass d;
  e ← match c with
      | INT_EXPR => n ← (followDefs k ≫= int_of); if test (Z.sgn n) then yes else no
      | RAT_EXPR => q ← (followDefs k ≫= rat_of); if test (Z.sgn (Qnum q)) then yes else no
      | _ => undefined Uninitialised
      end;
  dec k;;
  mret e.

(** [(mp_ifneg k yes no)] and [(mp_ifzero k yes no)] *)
Definition gen_ifneg : ptr → M mem ptr → M mem ptr → M mem ptr := gen_ifsign (λ s, s <? 0)%Z.
Definition gen_ifzero : ptr → M mem ptr → M mem ptr → M mem ptr := gen_ifsign (λ s, s =? 0)%Z.

(** [(mp_add k n)], for a literal [n]: for a rational the literal is cast to a
    rational too. *)
Definition gen_add (k : ptr) (n : Z) : M mem ptr :=
  inc k;;
  e2 ← gen_int n;
  d ← followDefs k;
  c ← getclass d;
  j ← match c with
      | INT_EXPR =>
          a ← (followDefs k ≫= int_of);
          b ← (followDefs e2 ≫= int_of);
          new_int (a + b)
      | RAT_EXPR =>
          a ← (followDefs k ≫= rat_of);
          b ← (followDefs e2 ≫= rat_of);
          new_rat (Qplus a b)
      | _ => undefined Uninitialised
      end;
  dec k;;
  dec e2;;
  mret j.

(** [(f a)] and [(f a b)] for a function held in a variable: the arguments are
    owned, the function is not. *)
Definition gen_app (f : ptr) (args : list ptr) : M mem ptr := inc f;; new_cexpr APP (f :: args).

(** ** sat.plf *)

Fixpoint f_append (fuel : nat) (c1 c2 : ptr) : M mem ptr :=
  match fuel with
  | 0 => throw OutOfFuel
  | S fuel =>
      g ← gets scc_vars;
      gen_match2 "f_append" c1 (e_cln g) (e_clc g)
        (inc c2;; mret c2)
        (l ← arg_of c1 1;
         c1h ← arg_of c1 2;
         inc l;;
         inc c1h;;
         inc c2;;
         e4 ← f_append fuel c1h c2;
         dec c1h;;
         dec c2;;
         gen_app (e_clc g) [l; e4])
  end.

(** [(ifmarked v tt (do (markvar v) ff))] *)
Definition set_unmarked (g : scc_globals) (v : ptr) (i : Z) : M mem ptr :=
  gen_ifmarked v i (gen_sym (e_tt g)) (gen_drop (gen_markvar v i);; gen_sym (e_ff g)).

(** The case [clc] of [f_simplify_clause], for a literal [l] that uses the marks
    [i] and [j]: 0 and 2 if it is positive, 1 and 3 if it is negative. *)
Definition simplify_clc (rec : ptr → M mem ptr) (l c1 : ptr) (i j : Z) : M mem ptr :=
  g ← gets scc_vars;
  v ← arg_of l 1;
  m ← set_unmarked g v i;
  inc c1;;
  ch ← rec c1;
  dec c1;;
  e0 ← gen_match2 "f_simplify_clause" m (e_tt g) (e_ff g)
    (gen_drop (gen_ifmarked v j (gen_sym v) (gen_markvar v j));;
     inc ch;;
     mret ch)
    (gen_drop (gen_ifmarked v j (gen_markvar v j) (gen_sym v));;
     gen_drop (gen_markvar v i);;
     inc l;;
     inc ch;;
     gen_app (e_clc g) [l; ch]);
  dec ch;;
  dec m;;
  mret e0.

(** The case [clr], with the same marks. *)
Definition simplify_clr (rec : ptr → M mem ptr) (l c1 : ptr) (i j : Z) : M mem ptr :=
  g ← gets scc_vars;
  v ← arg_of l 1;
  m ← set_unmarked g v i;
  m3 ← gen_ifmarked v j (gen_drop (gen_markvar v j);; gen_sym (e_tt g)) (gen_sym (e_ff g));
  inc c1;;
  ch ← rec c1;
  dec c1;;
  e0 ← gen_ifmarked v j
    (gen_drop (gen_match2 "f_simplify_clause" m3 (e_tt g) (e_ff g) (gen_sym v) (gen_markvar v j));;
     gen_drop (gen_match2 "f_simplify_clause" m (e_tt g) (e_ff g) (gen_sym v) (gen_markvar v i));;
     inc ch;;
     mret ch)
    (mret null);
  dec ch;;
  dec m3;;
  dec m;;
  mret e0.

(** The cases of the outer match, for a clause [c] with the head [e1]. *)
Definition simplify_cases (rec : ptr → M mem ptr) (append : ptr → ptr → M mem ptr)
    (g : scc_globals) (c e1 : ptr) : M mem ptr :=
  if decide (e1 = e_cln g) then gen_sym (e_cln g)
  else if decide (e1 = e_clc g) then
    l ← arg_of c 1;
    c1 ← arg_of c 2;
    gen_match2 "f_simplify_clause" l (e_pos g) (e_neg g)
      (simplify_clc rec l c1 0 2) (simplify_clc rec l c1 1 3)
  else if decide (e1 = e_concat_cl g) then
    c1 ← arg_of c 1;
    c2 ← arg_of c 2;
    inc c1;;
    e25 ← rec c1;
    dec c1;;
    inc c2;;
    e26 ← rec c2;
    dec c2;;
    e0 ← append e25 e26;
    dec e25;;
    dec e26;;
    mret e0
  else if decide (e1 = e_clr g) then
    l ← arg_of c 1;
    c1 ← arg_of c 2;
    gen_match2 "f_simplify_clause" l (e_pos g) (e_neg g)
      (simplify_clr rec l c1 0 2) (simplify_clr rec l c1 1 3)
  else no_match "f_simplify_clause" e1.

Fixpoint f_simplify_clause (fuel : nat) (c : ptr) : M mem ptr :=
  match fuel with
  | 0 => throw OutOfFuel
  | S fuel =>
      g ← gets scc_vars;
      inc c;;
      e1 ← head_of c;
      inc (e_cln g);;
      inc (e_clc g);;
      inc (e_concat_cl g);;
      inc (e_clr g);;
      e0 ← simplify_cases (f_simplify_clause fuel) (f_append fuel) g c e1;
      dec c;;
      dec (e_cln g);;
      dec (e_clc g);;
      dec (e_concat_cl g);;
      dec (e_clr g);;
      mret e0
  end.

(** ** kind.plf *)

(** [T->inc(); ...; e = f(T, ...); T->dec(); ...]: a call holds its arguments. *)
Definition gen_call (args : list ptr) (f : M mem ptr) : M mem ptr :=
  for_each inc args;;
  e ← f;
  for_each dec args;;
  mret e.

(** [(T j k)] and [(P k)] for variables [j] and [k]. *)
Definition gen_rel (T j k : ptr) : M mem ptr := inc j;; inc k;; gen_app T [j; k].
Definition gen_set (P k : ptr) : M mem ptr := inc k;; gen_app P [k].

(** [(I 0)] *)
Definition gen_at (I : ptr) (n : Z) : M mem ptr := e ← gen_int n; gen_app I [e].

Fixpoint f_unroll_from (fuel : nat) (T I k : ptr) : M mem ptr :=
  match fuel with
  | 0 => throw OutOfFuel
  | S fuel =>
      g ← gets scc_vars;
      gen_ifneg k (mret null)
        (gen_ifzero k
          (gen_at I 0)
          (j ← gen_add k (-1);
           e3 ← gen_call [T; I; j] (f_unroll_from fuel T I j);
           e4 ← gen_rel T j k;
           e0 ← gen_app (e_and g) [e3; e4];
           dec j;;
           mret e0))
  end.

Fixpoint f_base_k (fuel : nat) (I T P k : ptr) : M mem ptr :=
  match fuel with
  | 0 => throw OutOfFuel
  | S fuel =>
      g ← gets scc_vars;
      gen_ifneg k (mret null)
        (gen_ifzero k
          (inc T;;
           inc I;;
           e2 ← gen_int 0;
           e1 ← f_unroll_from fuel T I e2;
           dec T;;
           dec I;;
           dec e2;;
           e4 ← gen_at P 0;
           e3 ← gen_app (e_not g) [e4];
           gen_app (e_and g) [e1; e3])
          (j ← gen_add k (-1);
           e9 ← gen_call [I; T; P; j] (f_base_k fuel I T P j);
           e11 ← gen_call [T; I; k] (f_unroll_from fuel T I k);
           e13 ← gen_set P k;
           e12 ← gen_app (e_not g) [e13];
           e10 ← gen_app (e_and g) [e11; e12];
           e0 ← gen_app (e_or g) [e9; e10];
           dec j;;
           mret e0))
  end.

Definition f_base (fuel : nat) (I T P k : ptr) : M mem ptr :=
  inc I;;
  inc T;;
  inc P;;
  e1 ← gen_add k (-1);
  e0 ← f_base_k fuel I T P e1;
  dec I;;
  dec T;;
  dec P;;
  dec e1;;
  mret e0.

Fixpoint f_unroll_with (fuel : nat) (T P k : ptr) : M mem ptr :=
  match fuel with
  | 0 => throw OutOfFuel
  | S fuel =>
      g ← gets scc_vars;
      gen_ifneg k (mret null)
        (gen_ifzero k
          (gen_at P 0)
          (j ← gen_add k (-1);
           e0 ← gen_ifzero j
             (e3 ← gen_at P 0;
              e6 ← gen_int 0;
              e7 ← gen_int 1;
              e5 ← gen_app T [e6; e7];
              gen_app (e_and g) [e3; e5])
             (e9 ← gen_call [T; P; j] (f_unroll_with fuel T P j);
              e11 ← gen_set P j;
              e12 ← gen_rel T j k;
              e10 ← gen_app (e_and g) [e11; e12];
              gen_app (e_and g) [e9; e10]);
           dec j;;
           mret e0))
  end.

Definition f_step (fuel : nat) (T P k : ptr) : M mem ptr :=
  g ← gets scc_vars;
  e1 ← gen_call [T; P; k] (f_unroll_with fuel T P k);
  e3 ← gen_set P k;
  e2 ← gen_app (e_not g) [e3];
  gen_app (e_and g) [e1; e2].

(** ** Choosing the function *)

(** [args[i]]; the vector is not checked. *)
Definition scc_arg (args : list ptr) (i : nat) : M mem ptr :=
  match args !! i with Some a => mret a | None => undefined OutOfBounds end.

Definition run_compiled_scc (fuel : nat) (p : ptr) (args : list ptr) : M mem ptr :=
  g ← gets scc_vars;
  let arg := scc_arg args in
  if decide (p = e_append g) then a ← arg 0; b ← arg 1; f_append fuel a b
  else if decide (p = e_simplify_clause g) then a ← arg 0; f_simplify_clause fuel a
  else if decide (p = e_unroll_from g) then
    a ← arg 0; b ← arg 1; c ← arg 2; f_unroll_from fuel a b c
  else if decide (p = e_base_k g) then
    a ← arg 0; b ← arg 1; c ← arg 2; d ← arg 3; f_base_k fuel a b c d
  else if decide (p = e_base g) then
    a ← arg 0; b ← arg 1; c ← arg 2; d ← arg 3; f_base fuel a b c d
  else if decide (p = e_unroll_with g) then
    a ← arg 0; b ← arg 1; c ← arg 2; f_unroll_with fuel a b c
  else if decide (p = e_step g) then a ← arg 0; b ← arg 1; c ← arg 2; f_step fuel a b c
  else mret null.

Section init.
Context {T : Type} {ST : SymTab T entry}.

(** [symbols->get(s).first] *)
Definition symbol (s : string) : M (world T) ptr := fst <$> symbols_get s.

Definition init_compiled_scc : M (world T) () :=
  cln ← symbol "cln";
  clc ← symbol "clc";
  concat_cl ← symbol "concat_cl";
  clr ← symbol "clr";
  pos ← symbol "pos";
  neg ← symbol "neg";
  tt ← symbol "tt";
  ff ← symbol "ff";
  and ← symbol "and";
  not ← symbol "not";
  or ← symbol "or";
  append ← progs_get "append";
  simplify_clause ← progs_get "simplify_clause";
  unroll_from ← progs_get "unroll_from";
  base_k ← progs_get "base_k";
  base ← progs_get "base";
  unroll_with ← progs_get "unroll_with";
  step ← progs_get "step";
  lm (modify (set_scc_vars
    (SccGlobals cln clc concat_cl clr pos neg tt ff and not or append simplify_clause
       unroll_from base_k base unroll_with step))).
End init.
