(* ===== verification/Check.v ===== *)
(** * Checking terms (check in check.cpp)

    [check] reads a term and checks it against an expected classifier, or
    computes its classifier.  It is cut into one definition per case of the
    switch; [goto start_check] is a call of [check] with the new parameters.  The
    text of an error message is kept up to the terms it prints. *)

From Stdlib Require Import Ascii QArith_base Qreduction.
From stdpp Require Import base tactics list strings gmap numbers pretty.
From S2P Require Import Prelude SymTab Header Memory Expr Lexer World Code Run.

(** The parameters of [check].  [computed] and [is_hole] say whether the
    pointers to the variables of the caller are non-null. *)
Record cargs := Cargs {
  create : bool;
  expected : ptr;
  computed : bool;
  is_hole : bool;
  return_pos : bool;
  inAsc : bool
}.

(** What a call gives back: the value it returns, what it stored in the
    caller's [computed], if anything, and whether it set the caller's [is_hole]. *)
Record outcome := Out { o_trm : ptr; o_computed : option ptr; o_hole : bool }.

(** ** Parentheses *)

Definition set_open_parens (n : Z) : M lex () :=
  modify (λ l, Lex (input l) (our_getc_c l) (linenum l) (colnum l) n).

Definition incr_open (d : Z) : M lex () := l ← get_st; set_open_parens (open_parens l + d).

Definition eat_rparen : M lex () := eat_char ")"%char;; incr_open (-1).

(** [eat_excess(prev)]: each round closes one parenthesis. *)
Fixpoint eat_rparens (n : nat) : M lex () :=
  match n with 0 => mret () | S n => eat_rparen;; eat_rparens n end.
Definition eat_excess (prev : Z) : M lex () :=
  l ← get_st; eat_rparens (Z.to_nat (open_parens l - prev)).

Section check.
Context {T : Type} {ST : SymTab T entry}.
Context (scc : ptr → list ptr → M mem ptr).
Local Abbreviation W := (world T).
Local Abbreviation rec_t := (cargs → M W outcome).

(** [if (e) e->dec();] *)
Definition dec_opt (e : ptr) : M mem () := if decide (e = null) then mret () else dec e.
Definition inc_opt (e : ptr) : M mem () := if decide (e = null) then mret () else inc e.

(** [*computed = tp] *)
Definition put_computed (p : cargs) (tp : ptr) : M W (option ptr) :=
  if computed p then mret (Some tp) else undefined NullDeref.

(** Reading the caller's [computed]: what the call stored, if it did. *)
Definition read_computed (c : option ptr) : M W ptr :=
  match c with Some tp => mret tp | None => undefined NullDeref end.

(** The calls [check(true, e)] and [check(create, 0, &computed)]. *)
Definition expect (create : bool) (e : ptr) : cargs := Cargs create e false false false false.
Definition infer (create return_pos : bool) : cargs := Cargs create null true false return_pos false.

Definition call_run_code (fuel : nat) (code : ptr) : M mem ptr :=
  m ← get_st;
  when (dbg_prog m) (print_out "[Running ";; print fuel code;; print_out nl);;
  computed_result ← run_code scc fuel code;
  when (dbg_prog m)
    (print_out "] returning ";;
     (if decide (computed_result = null) then print_out "fail" else print fuel computed_result);;
     print_out nl);;
  mret computed_result.

(** ** Abstractions *)

Definition is_classifier (o : op) : bool := bool_decide (o = TYPE ∨ o = KIND).

Definition make_pi (fuel : nat) (sym domain range : ptr) : M mem ptr :=
  ret ← new_cexpr PI [sym; domain; range];
  calc_free_in fuel ret;;
  mret ret.

(** [(! x domain range)] *)
Definition check_pi (rec : rec_t) (fuel : nat) (p : cargs) : M W outcome :=
  id ← lx prefix_id;
  sym ← lm (new_syms id);
  modify (set_allow_run true);;
  prevo ← gets (open_parens ∘ w_lex);
  ty ← get_stat statType;
  domain ← o_trm <$> rec (expect true ty);
  lx (eat_excess prevo);;
  modify (set_allow_run false);;
  prev ← symbols_insert id (sym, domain);
  lm (inc_opt (expected p));;
  r ← rec (Cargs (create p) (expected p) (computed p) false (return_pos p) false);
  lx (eat_excess prevo);;
  lx eat_rparen;;
  _ ← symbols_insert id prev;
  if decide (expected p ≠ null) then
    e ← lm (followDefs (expected p));
    o ← lm (getop e);
    lm (dec (expected p));;
    if is_classifier o then
      if create p then ret ← lm (make_pi fuel sym domain (o_trm r)); mret (Out ret (o_computed r) false)
      else mret (Out null (o_computed r) false)
    else report_error "The expected classifier for a pi abstraction is neither type nor kind."
  else if create p then
    ret ← lm (make_pi fuel sym domain (o_trm r));
    mret (Out ret (o_computed r) false)
  else
    c ← read_computed (o_computed r);
    e ← lm (followDefs c);
    o ← lm (getop e);
    if is_classifier o then mret (Out null (o_computed r) false)
    else
      _ ← lm (getclass (o_trm r));
      report_error "The classifier for the range of a pi abstraction is neither type nor kind.".

(** [(% x domain body)]: the variable stays in the symbol table until the end
    of the command. *)
Definition check_biglam (rec : rec_t) (p : cargs) : M W outcome :=
  bc ← gets big_check;
  if decide (expected p ≠ null ∨ create p = true ∨ return_pos p = false ∨ bc = false) then
    report_error "Big lambda abstractions can only be used in the return position of a bigcheck command."
  else
    id ← lx prefix_id;
    sym ← lm (new_syms id);
    prevo ← gets (open_parens ∘ w_lex);
    ty ← get_stat statType;
    dom ← o_trm <$> rec (expect true ty);
    lx (eat_excess prevo);;
    prevpr ← symbols_insert id (sym, dom);
    lm (inc dom);;
    modify (λ w, set_locals (local_sym_names w ++ [(id, prevpr)]) w);;
    lm (dec_opt prevpr.1);;
    lm (dec_opt prevpr.2);;
    rec (Cargs false null (computed p) false (return_pos p) (inAsc p)).

(** The end of a lambda abstraction that is not a tail call. *)
Definition close_lambda (p : cargs) (id : string) (prevpr : entry)
    (sym dom pivar prev_pivar_val range : ptr) : M W outcome :=
  lx eat_rparen;;
  _ ← symbols_insert id prevpr;
  lm (dec dom);;
  lm (set_sym_val pivar prev_pivar_val);;
  lm (dec (expected p));;
  lm (dec sym);;
  if create p then
    ret ← lm (new_cexpr LAM [sym; range]);
    mret (Out ret None false)
  else
    lm (dec sym);;
    mret (Out null None false).

(** [(\ x body)] against a pi type *)
Definition check_lambda (rec : rec_t) (p : cargs) : M W outcome :=
  if decide (expected p = null) then
    report_error "We are computing a type for a lambda abstraction, but we can only check such against a type.  Try inserting an ascription (using ':')."
  else
    pitp ← lm (followDefs (expected p));
    o ← lm (getop pitp);
    if decide (o ≠ PI) then
      report_error "We are type-checking a lambda abstraction, but the expected type is not a pi abstraction."
    else
      id ← lx prefix_id;
      sym ← lm (new_syms id);
      dom ← lm (kid pitp 1);
      range ← lm (kid pitp 2);
      pivar ← lm (kid pitp 0);
      r ← lm (followDefs range);
      ro ← lm (getop r);
      if decide (ro = TYPE) then
        report_error "The expected classifier for a lambda abstraction a kind, not a type."
      else
        prevpr ← symbols_insert id (sym, dom);
        prev_pivar_val ← lm (sym_val pivar);
        lm (inc sym);;
        lm (set_sym_val pivar sym);;
        lm (inc dom);;
        lm (inc range);;
        w ← get_st;
        if tail_calls w && big_check w && return_pos p && negb (create p) then
          modify (λ w, set_locals (local_sym_names w ++ [(id, prevpr)]) w);;
          lm (dec_opt prev_pivar_val);;
          lm (dec_opt prevpr.1);;
          lm (dec_opt prevpr.2);;
          lm (dec (expected p));;
          rec (Cargs false range false false (return_pos p) (inAsc p))
        else
          prev ← gets (open_parens ∘ w_lex);
          body ← o_trm <$> rec (Cargs (create p) range false false (return_pos p) false);
          lx (eat_excess prev);;
          close_lambda p id prevpr sym dom pivar prev_pivar_val body.

(** ** Run expressions, ascriptions, local definitions *)

(** The type of the result of [code], when the code says what it is. *)
Definition code_result_type (code : ptr) : M W ptr :=
  b ← lm (isArithTerm code);
  if (b : bool) then get_stat statMpz
  else
    o ← lm (getop code);
    if decide (o = APP) then
      prog ← lm (get_head code true);
      po ← lm (getop prog);
      if decide (po = PROG) then pt ← lm (kid prog 0); lm (get_body pt PI true)
      else mret null
    else mret null.

(** [(^ code term)] *)
Definition check_run (rec : rec_t) (fuel : nat) (p : cargs) : M W outcome :=
  ar ← gets allow_run;
  if decide (ar = false ∨ create p = false ∨ expected p = null) then
    report_error "A run expression (operator ^) appears in a disallowed position."
  else
    code ← read_code fuel;
    progret ← code_result_type code;
    prev ← gets (open_parens ∘ w_lex);
    lm (inc_opt progret);;
    trm ← o_trm <$> rec (expect true progret);
    lx (eat_excess prev);;
    lx eat_rparen;;
    o ← lm (getop (expected p));
    if decide (o ≠ TYPE) then report_error "The expected type for a run expression is not type."
    else
      lm (dec (expected p));;
      ret ← lm (new_cexpr RUN [code; trm]);
      mret (Out ret None false).

(** [(: type term)] *)
Definition check_ascription (rec : rec_t) (fuel : nat) (p : cargs) : M W outcome :=
  ty ← get_stat statType;
  lm (inc ty);;
  prev ← gets (open_parens ∘ w_lex);
  tp ← o_trm <$> rec (Cargs true ty false false false true);
  lx (eat_excess prev);;
  (if decide (expected p = null) then lm (inc tp) else mret ());;
  trm ← o_trm <$> rec (Cargs (create p) tp false false (return_pos p) false);
  lx (eat_excess prev);;
  lx eat_rparen;;
  if decide (expected p ≠ null) then
    b ← lm (defeq fuel (expected p) tp);
    if (b : bool) then
      lm (dec (expected p));;
      if create p then mret (Out trm None false)
      else lm (dec trm);; mret (Out null None false)
    else report_error "The expected type does not match the ascribed type in an ascription."
  else
    c ← put_computed p tp;
    mret (Out (if create p then trm else null) c false).

(** [(@ x term body)] *)
Definition check_local_def (rec : rec_t) (p : cargs) : M W outcome :=
  id ← lx prefix_id;
  sym ← lm (new_syms id);
  prev_open ← gets (open_parens ∘ w_lex);
  r ← rec (infer true false);
  lx (eat_excess prev_open);;
  lm (set_sym_val sym (o_trm r));;
  tp_of_trm ← read_computed (o_computed r);
  prevpr ← symbols_insert id (sym, tp_of_trm);
  w ← get_st;
  if tail_calls w && big_check w && return_pos p && negb (create p) then
    lm (dec_opt prevpr.1);;
    lm (dec_opt prevpr.2);;
    rec p
  else
    prev_open ← gets (open_parens ∘ w_lex);
    body ← rec (Cargs (create p) (expected p) (computed p) (is_hole p) (return_pos p) false);
    lx (eat_excess prev_open);;
    lx eat_rparen;;
    _ ← symbols_insert id prevpr;
    lm (dec tp_of_trm);;
    lm (dec sym);;
    mret body.

(** [(~ literal)]: the literal is negated in place. *)
Definition check_neg (rec : rec_t) (p : cargs) : M W outcome :=
  prev ← gets (open_parens ∘ w_lex);
  r ← rec (Cargs (create p) (expected p) (computed p) (is_hole p) (return_pos p) false);
  lx (eat_excess prev);;
  lx eat_rparen;;
  st ← gets stat;
  tp ← (if decide (expected p ≠ null) then mret (expected p) else read_computed (o_computed r));
  if decide (tp ≠ statMpz st ∧ tp ≠ statMpq st) then
    report_error "Negative sign where an numeric expression is expected."
  else if create p then
    n ← lm (load (o_trm r));
    match body n with
    | PInt z => lm (set_body (o_trm r) (PInt (- z)));; mret r
    | PRat q => lm (set_body (o_trm r) (PRat (Qopp q)));; mret r
    | _ => report_error "Negative sign with expr that is not an int. literal."
    end
  else mret (Out null (o_computed r) (o_hole r)).

(** ** Applications *)

(** Run the side condition [code] and compare its result with [expected]. *)
Definition side_condition (fuel : nat) (code expected_result : ptr) : M mem ptr :=
  computed_result ← call_run_code fuel code;
  if decide (computed_result = null) then report_error "A side condition failed."
  else
    b ← defeq fuel expected_result computed_result;
    if (b : bool) then mret computed_result
    else report_error "The expected result of a side condition does not match the computed result.".

(** What an argument leads to: a tail call for it, or the next state of the
    loop over the arguments. *)
Inductive arg_step :=
  | Tail (domain : ptr) (c : option ptr)
  | Next (headtrm headtp : ptr) (holes : list ptr).

(** The holes at a tail call: one that has no value must be in the type of the
    argument still to be checked. *)
Definition close_holes_tail (fuel : nat) (dom : ptr) (holes : list ptr) : M mem () :=
  for_each (λ h,
    v ← hole_val h;
    (if decide (v = null) then
       b ← free_in fuel dom h;
       if (b : bool) then mret ()
       else report_error "A hole was left unfilled after checking an application."
     else mret ());;
    dec h) holes.

(** The last argument, when no term is built and the type does not depend on it. *)
Definition app_tail (fuel : nat) (p : cargs) (headtp dom range : ptr) (holes : list ptr)
    : M W arg_step :=
  c ← (if decide (expected p ≠ null) then
         b ← lm (defeq fuel (expected p) range);
         if (b : bool) then lm (dec (expected p));; mret None
         else report_error "The type expected for an application does not match the computed type."
       else lm (inc range);; put_computed p range);
  lm (dec headtp);;
  lm (close_holes_tail fuel dom holes);;
  mret (Tail dom c).

(** Leave the head type for its range. *)
Definition next_headtp (headtp range : ptr) : M mem () := inc range;; dec headtp.

(** An argument that is checked by a call of its own. *)
Definition app_arg (rec : rec_t) (p : cargs) (prev : Z) (headtrm headtp var dom range : ptr)
    (var_in_range : bool) (holes : list ptr) : M W arg_step :=
  a ← rec (Cargs (create p || var_in_range) dom false true false false);
  lx (eat_excess prev);;
  headtrm' ← (if create p then lm (extend_app headtrm (o_trm a)) else mret headtrm);
  (if var_in_range then
     tmp ← lm (followDefs (o_trm a));
     lm (inc tmp);;
     lm (set_sym_val var tmp)
   else mret ());;
  holes' ← (if o_hole a then
              (if create p then lm (inc (o_trm a)) else mret ());;
              mret (holes ++ [o_trm a])
            else mret holes);
  lm (next_headtp headtp range);;
  mret (Next headtrm' range holes').

(** One round of the loop over the arguments: a side condition in the type of
    the head takes no argument. *)
Definition app_step (rec : rec_t) (fuel : nat) (p : cargs) (prev : Z) (headtrm headtp : ptr)
    (holes : list ptr) : M W arg_step :=
  o ← lm (getop headtp);
  if decide (o ≠ PI) then report_error "The type of an applied term is not a pi-type."
  else
    var ← lm (kid headtp 0);
    dom ← lm (kid headtp 1);
    range ← lm (kid headtp 2);
    d ← lm (getop dom);
    if decide (d = RUN) then
      code ← lm (kid dom 0);
      expected_result ← lm (kid dom 1);
      r ← lm (side_condition fuel code expected_result);
      lm (dec r);;
      lm (next_headtp headtp range);;
      mret (Next headtrm range holes)
    else
      var_in_range ← lm (get_free_in headtp);
      lm (inc dom);;
      ro ← lm (getop range);
      tc ← gets tail_calls;
      if tc && negb (create p || var_in_range) && bool_decide (ro ≠ PI) then
        app_tail fuel p headtp dom range holes
      else app_arg rec p prev headtrm headtp var dom range var_in_range holes.

(** The loop over the arguments. *)
Fixpoint app_args (rec : rec_t) (fuel steps : nat) (p : cargs) (prev : Z) (headtrm headtp : ptr)
    (holes : list ptr) : M W (outcome + ptr * ptr * list ptr) :=
  match steps with
  | 0 => throw OutOfFuel
  | S steps =>
      c ← lx non_ws;
      if decide (c = ")"%char) then mret (inr (headtrm, headtp, holes))
      else
        lx (our_ungetc c);;
        s ← app_step rec fuel p prev headtrm headtp holes;
        match s with
        | Tail dom cmp =>
            r ← rec (Cargs false dom false false (return_pos p) (inAsc p));
            mret (inl (Out (o_trm r) cmp false))
        | Next headtrm headtp holes => app_args rec fuel steps p prev headtrm headtp holes
        end
  end.

(** A side condition after the last argument. *)
Definition trailing_run (fuel : nat) (headtp : ptr) : M mem ptr :=
  o ← getop headtp;
  if decide (o = PI) then
    dom ← kid headtp 1;
    d ← getop dom;
    if decide (d = RUN) then
      k0 ← kid dom 0;
      code ← followDefs k0;
      expected_result ← kid dom 1;
      r ← side_condition fuel code expected_result;
      tmp ← kid headtp 2;
      inc tmp;;
      dec headtp;;
      dec r;;
      mret tmp
    else mret headtp
  else mret headtp.

(** The holes at the end of an application: unfilled ones are allowed in an
    ascription only, where they are kept to be printed. *)
Definition close_holes (inAsc : bool) (holes : list ptr) : M W () :=
  for_each (λ h,
    v ← lm (hole_val h);
    (if decide (v = null) then
       if inAsc then modify (λ w, set_ascHoles (ascHoles w ++ [h]) w)
       else report_error "A hole was left unfilled after checking an application (2)."
     else mret ());;
    lm (dec h)) holes.

Definition finish_app (fuel : nat) (p : cargs) (headtrm headtp : ptr) (holes : list ptr)
    : M W outcome :=
  headtp ← lm (trailing_run fuel headtp);
  c ← (if decide (expected p ≠ null) then
         b ← lm (defeq fuel (expected p) headtp);
         if (b : bool) then lm (dec (expected p));; lm (dec headtp);; mret None
         else report_error "The type expected for an application does not match the computed type.(2)"
       else put_computed p headtp);
  close_holes (inAsc p) holes;;
  mret (Out (if create p then headtrm else null) c false).

(** The type of the head: it is used in place the first time, and copied when an
    application is using it already. *)
Definition own_headtp (fuel : nat) (head_computed : ptr) : M mem ptr :=
  headtp ← followDefs head_computed;
  inc headtp;;
  dec head_computed;;
  b ← cloned headtp;
  if (b : bool) then
    headtp' ← clone fuel headtp;
    dec headtp;;
    mret headtp'
  else setcloned headtp;; mret headtp.

(** [(head arg1 ... argn)], the first character of the head being [c]. *)
Definition check_app (rec : rec_t) (fuel : nat) (p : cargs) (c : Ascii.ascii) : M W outcome :=
  lx (our_ungetc c);;
  prev ← gets (open_parens ∘ w_lex);
  h ← rec (infer (create p) false);
  lx (eat_excess prev);;
  head_computed ← read_computed (o_computed h);
  headtp ← lm (own_headtp fuel head_computed);
  r ← app_args rec fuel fuel p prev (o_trm h) headtp [];
  match r with
  | inl out => mret out
  | inr (headtrm, headtp, holes) =>
      lx (incr_open (-1));;
      finish_app fuel p headtrm headtp holes
  end.

(** ** Terms that are not in parentheses *)

Definition check_numeral (p : cargs) (d : Ascii.ascii) : M W outcome :=
  lx (our_ungetc d);;
  '(v, v2) ← lx read_numeral;
  i ← (if create p then lm (numeral_expr "Error reading a numeral." v v2) else mret null);
  tp ← get_stat (match v2 with Some _ => statMpq | None => statMpz end);
  if decide (expected p ≠ null) then
    if decide (expected p ≠ tp) then
      report_error "We parsed a numeric literal, but were expecting a term of a different type."
    else
      lm (dec (expected p));;
      mret (Out i None false)
  else
    lm (inc tp);;
    c ← put_computed p tp;
    mret (Out (if create p then i else tp) c false).

Definition check_hole (p : cargs) : M W outcome :=
  if is_hole p then
    lm (dec_opt (expected p));;
    h ← lm new_hole;
    mret (Out h None true)
  else report_error "A hole is being used in a disallowed position.".

Definition check_ident (fuel : nat) (p : cargs) (d : Ascii.ascii) : M W outcome :=
  lx (our_ungetc d);;
  id ← lx prefix_id;
  '(ret, rettp) ← symbols_get id;
  if decide (ret = null) then report_error ("Undeclared identifier: " +:+ id)
  else
    c ← (if decide (expected p ≠ null) then
           b ← lm (defeq fuel (expected p) rettp);
           if (b : bool) then lm (dec (expected p));; mret None
           else report_error "The type expected for a symbol does not match the symbol's type."
         else if computed p then lm (inc rettp);; mret (Some rettp)
         else mret None);
    if create p then lm (inc ret);; mret (Out ret c false)
    else mret (Out null c false).

(** The term after an open parenthesis. *)
Definition check_paren (rec : rec_t) (fuel : nat) (p : cargs) : M W outcome :=
  lx (incr_open 1);;
  c ← lx non_ws;
  if decide (c = EOFc) then report_error "Unexpected end of file."
  else if decide (c = "!"%char) then check_pi rec fuel p
  else if decide (c = "%"%char) then check_biglam rec p
  else if decide (c = "\"%char) then check_lambda rec p
  else if decide (c = "^"%char) then check_run rec fuel p
  else if decide (c = ":"%char) then check_ascription rec fuel p
  else if decide (c = "@"%char) then check_local_def rec p
  else if decide (c = "~"%char) then check_neg rec p
  else check_app rec fuel p c.

Fixpoint check (fuel : nat) (p : cargs) : M W outcome :=
  match fuel with
  | 0 => throw OutOfFuel
  | S fuel =>
      d ← lx non_ws;
      if decide (d = "("%char) then check_paren (check fuel) fuel p
      else if decide (d = EOFc) then report_error "Unexpected end of file."
      else if isdigit d then check_numeral p d
      else if decide (d = "_"%char) then
        c ← lx our_peekc;
        if isspace c || bool_decide (c = ")"%char) || bool_decide (c = "("%char) then check_hole p
        else check_ident fuel p d
      else check_ident fuel p d
  end.
End check.
