(* ===== verification/CheckFile.v ===== *)
(** * Commands and files (check_file and init in check.cpp, main.cpp)

    [check_file] reads the commands of a file and runs them one after the other;
    the contents of the file are an argument of the model.  [main] goes through
    the files named on the command line. *)

From Stdlib Require Import Ascii.
From stdpp Require Import base tactics list strings gmap numbers pretty.
From S2P Require Import Prelude SymTab Header Memory Expr PrintSmt2 SccWriter LibWriter Lexer World Code Run Check.

(** ** Options (check.h, main.cpp) *)

Record args := Args {
  files : list string;
  show_runs : bool;
  no_tail_calls : bool;
  compile_scc : bool;
  compile_scc_debug : bool;
  do_run_scc : bool;
  use_nested_app : bool;
  compile_lib : bool
}.

Definition args_init : args := Args [] false false false false false false false.

Definition set_flag (f : string) (a : args) : args :=
  let '(Args fs sr nt cs cd rs na cl) := a in
  if decide (f = "--show-runs") then Args fs true nt cs cd rs na cl
  else if decide (f = "--no-tail-calls") then Args fs sr true cs cd rs na cl
  else if decide (f = "--compile-scc") then Args fs sr nt true false rs na cl
  else if decide (f = "--compile-scc-debug") then Args fs sr nt true true rs na cl
  else if decide (f = "--compile-lib") then Args fs sr nt cs cd rs na true
  else if decide (f = "--run-scc") then Args fs sr nt cs cd true na cl
  else if decide (f = "--use-nested-app") then Args fs sr nt cs cd rs true cl
  else Args (fs ++ [f]) sr nt cs cd rs na cl.

(** [-h] and [--h] are recognised by their first characters. *)
Definition is_help (f : string) : bool :=
  bool_decide (String.substring 0 2 f = "-h") || bool_decide (String.substring 0 3 f = "--h").

(** [parse_args]: [None] when the usage message is printed. *)
Fixpoint parse_args (argv : list string) (a : args) : option args :=
  match argv with
  | [] => Some a
  | f :: argv => if is_help f then None else parse_args argv (set_flag f a)
  end.

(** [Position::print] *)
Definition position_str (filename : string) (line col : Z) : string :=
  "File " +:+ filename +:+ ", line " +:+ pretty line +:+
  (if decide (col = -1)%Z then ", end of column: "
   else ", character " +:+ pretty col +:+ ": ").

Section check_file.
Context {T : Type} {ST : SymTab T entry}.
Context (scc : ptr → list ptr → M mem ptr).
Context (init_compiled_scc : M (world T) ()).
Local Abbreviation W := (world T).

Definition bad_command {A} : M W A := report_error "Unexpected start of command.".

(** The rest of a keyword, character by character. *)
Fixpoint expect_chars (s : string) : M W () :=
  match s with
  | EmptyString => mret ()
  | String c s => d ← lx our_getc; if decide (d = c) then expect_chars s else bad_command
  end.

(** Enter a symbol and drop the entry it replaces. *)
Definition replace_symbol (id : string) (s tp : ptr) : M W () :=
  prev ← symbols_insert id (s, tp);
  lm (dec_opt prev.1);;
  lm (dec_opt prev.2).

(** A term in return position, with its classifier. *)
Definition check_top (fuel : nat) (create : bool) : M W (ptr * ptr) :=
  r ← check scc fuel (infer create true);
  tp ← read_computed (o_computed r);
  mret (o_trm r, tp).

Definition refuse_kind (ttp : ptr) : M W () :=
  e ← lm (followDefs ttp);
  o ← lm (getop e);
  if decide (o = KIND) then report_error "Kind-level definitions are not supported." else mret ().

Definition cmd_define (fuel : nat) : M W () :=
  expect_chars "ine";;
  id ← lx prefix_id;
  prevo ← gets (open_parens ∘ w_lex);
  '(t, ttp) ← check_top fuel true;
  lx (eat_excess prevo);;
  refuse_kind ttp;;
  s ← lm (new_syms id);
  lm (set_sym_val s t);;
  replace_symbol id s ttp.

Definition cmd_declare (fuel : nat) : M W () :=
  expect_chars "lare";;
  id ← lx prefix_id;
  prevo ← gets (open_parens ∘ w_lex);
  '(t, ttp) ← check_top fuel true;
  lx (eat_excess prevo);;
  ttp ← lm (followDefs ttp);
  o ← lm (getop ttp);
  if is_classifier o then
    lm (dec ttp);;
    s ← lm (new_syms id);
    prev ← symbols_insert id (s, t);
    add_symbol s t;;
    lm (dec_opt prev.1);;
    lm (dec_opt prev.2)
  else report_error "The expression declared is neither a type nor a kind.".

(** The holes of the ascriptions are printed after a successful check. *)
Definition print_holes (fuel : nat) : M W () :=
  hs ← gets ascHoles;
  for_each (λ h, lm (print_smt2 fuel h 0);; lm (print_out nl)) hs;;
  (if decide (hs = []) then mret () else lm (print_out nl));;
  modify (set_ascHoles []).

(** The names of a tail-called abstraction leave the symbol table, in the order
    in which they came. *)
Definition restore_locals : M W () :=
  ls ← gets local_sym_names;
  restore_entries ls;;
  modify (set_locals []).

Definition cmd_check (filename : string) (fuel : nat) : M W () :=
  expect_chars "heck";;
  m ← gets w_mem;
  when (run_scc m) init_compiled_scc;;
  modify (set_big_check true);;
  prev ← gets (open_parens ∘ w_lex);
  r ← check scc fuel (infer false true);
  l ← gets w_lex;
  lm (print_out (position_str filename (linenum l) (colnum l)));;
  lm (print_out ("Check successful" +:+ nl));;
  print_holes fuel;;
  restore_locals;;
  lm (modify (set_marks ∅));;
  lx (eat_excess prev);;
  tp ← read_computed (o_computed r);
  lm (dec tp).

Definition cmd_opaque (fuel : nat) : M W () :=
  expect_chars "paque";;
  id ← lx prefix_id;
  prevo ← gets (open_parens ∘ w_lex);
  '(_, ttp) ← check_top fuel false;
  lx (eat_excess prevo);;
  refuse_kind ttp;;
  s ← lm (new_syms id);
  replace_symbol id s ttp.

Definition cmd_run (fuel : nat) : M W () :=
  expect_chars "un";;
  code ← read_code fuel;
  _ ← check_code fuel code;
  lm (print_out "[Running-sc ";; print fuel code);;
  tmp ← lm (run_code scc fuel code);
  lm (print_out ("] = " +:+ nl));;
  (if decide (tmp = null) then lm (print_out "fail")
   else lm (print fuel tmp);; lm (dec tmp));;
  lm (print_out nl);;
  lm (dec code).

(** ** Programs *)

(** The type of a program variable: a declared type, or a datatype. *)
Definition check_param_type (tp : ptr) : M W () :=
  c ← lm (getclass tp);
  if decide (c = SYMS_EXPR) then
    s ← lm (sym_name tp);
    '(_, tptp) ← symbols_get s;
    ty ← get_stat statType;
    b ← lm (isType ty tptp);
    if (b : bool) then mret () else report_error "Bad argument for side condition"
  else
    b ← lm (isDatatype tp);
    if (b : bool) then mret () else report_error "Type for a program variable is not a datatype.".

(** [(x type)] *)
Definition read_param (fuel : nat) : M W (ptr * ptr) :=
  lx (eat_char "("%char);;
  varstr ← lx prefix_id;
  '(s, _) ← symbols_get varstr;
  if decide (s ≠ null) then
    report_error "A program variable is already declared (as a constant)."
  else
    var ← lm (new_syms varstr);
    ty ← get_stat statType;
    lm (inc ty);;
    prev ← gets (open_parens ∘ w_lex);
    tp ← o_trm <$> check scc fuel (infer true true);
    check_param_type tp;;
    lx (eat_excess prev);;
    lx (eat_char ")"%char);;
    _ ← symbols_insert varstr (var, tp);
    mret (var, tp).

Fixpoint read_params (fuel steps : nat) : M W (list (ptr * ptr)) :=
  match steps with
  | 0 => throw OutOfFuel
  | S steps =>
      d ← lx non_ws;
      if decide (d = ")"%char) then mret []
      else
        lx (our_ungetc d);;
        p ← read_param fuel;
        ps ← read_params fuel steps;
        mret (p :: ps)
  end.

(** The type of a program: pi over its variables, from the last to the first. *)
Fixpoint program_type (fuel : nat) (ps : list (ptr * ptr)) (progtp : ptr) : M mem ptr :=
  match ps with
  | [] => mret progtp
  | (var, tp) :: ps =>
      progtp' ← program_type fuel ps progtp;
      inc var;;
      make_pi fuel var tp progtp'
  end.

(** The variables of a program leave the symbol table. *)
Definition remove_params (ps : list (ptr * ptr)) : M W () :=
  for_each (λ p : ptr * ptr,
    s ← lm (sym_name p.1); _ ← symbols_insert s (null, null); mret ()) ps.

Definition cmd_program (fuel : nat) : M W () :=
  expect_chars "rogram";;
  progstr ← lx prefix_id;
  prog ← lm (new_syms progstr);
  pg ← gets progs;
  if decide (is_Some (pg !! progstr)) then report_error ("Redeclaring program " +:+ progstr +:+ ".")
  else
    modify (λ w, set_progs (<[progstr := prog]> (progs w)) w);;
    lx (eat_char "("%char);;
    ps ← read_params fuel fuel;
    if decide (ps = []) then report_error "A program lacks input variables."
    else
      ty ← get_stat statType;
      lm (inc ty);;
      prev ← gets (open_parens ∘ w_lex);
      ret ← o_trm <$> check scc fuel (Cargs true ty true false true false);
      lx (eat_excess prev);;
      b ← lm (isDatatype ret);
      if (b : bool) then
        progcode ← read_code fuel;
        progtp ← lm (program_type fuel ps ret);
        sig ← lm (new_cexpr PROG [progtp]);
        lm (set_sym_val prog sig);;
        _ ← check_code fuel progcode;
        pv ← lm (new_cexpr PROGVARS (ps.*1));
        full ← lm (new_cexpr PROG [progtp; pv; progcode]);
        add_scc progstr full;;
        remove_params ps;;
        lm (inc progtp);;
        v ← lm (sym_val prog);
        lm (dec v);;
        lm (set_sym_val prog full)
      else report_error "Return type for a program is not a datatype.".

(** ** Files *)

(** The command after an open parenthesis. *)
Definition command (filename : string) (fuel : nat) : M W () :=
  d ← lx non_ws;
  (if decide (d = "d"%char) then
     b ← lx our_getc;
     if decide (b ≠ "e"%char) then bad_command
     else
       b ← lx our_getc;
       if decide (b = "f"%char) then cmd_define fuel
       else if decide (b = "c"%char) then cmd_declare fuel
       else bad_command
   else if decide (d = "c"%char) then cmd_check filename fuel
   else if decide (d = "o"%char) then cmd_opaque fuel
   else if decide (d = "r"%char) then cmd_run fuel
   else if decide (d = "p"%char) then cmd_program fuel
   else bad_command);;
  lx (eat_char ")"%char).

Fixpoint commands (filename : string) (fuel steps : nat) : M W () :=
  match steps with
  | 0 => throw OutOfFuel
  | S steps =>
      c ← lx non_ws;
      if decide (c = NUL ∨ c = EOFc) then mret ()
      else if decide (c = "("%char) then command filename fuel;; commands filename fuel steps
      else if decide (c = ")"%char) then commands filename fuel steps
      else report_error ("Bad syntax (mismatched parentheses?): " +:+ String c EmptyString)
  end.

(** [check_file] on a file with the given contents.  The position of the file
    that was being read comes back at the end. *)
Definition check_file (filename contents : string) (a : args) (fuel : nat) : M W () :=
  l ← gets w_lex;
  modify (λ w,
    let m := w_mem w in
    World (Mem (heap m) (next_addr m) (mark_map m) (cout m) (show_runs a) (do_run_scc a)
             (dbg_prog_indent_lvl m) (scc_vars m))
      (Lex contents (our_getc_c l) 1 1 (open_parens l))
      (symbols w) (progs w) (stat w) (allow_run w) (negb (no_tail_calls a)) (big_check w)
      (ascHoles w) (local_sym_names w) (w_out w));;
  commands filename fuel fuel;;
  lx (modify (λ l', Lex (input l) (our_getc_c l') (linenum l) (colnum l) (open_parens l'))).

(** The four expressions allocated before [main], and [init]. *)
Definition init : M W () :=
  ty ← get_stat statType;
  ki ← get_stat statKind;
  mz ← get_stat statMpz;
  mq ← get_stat statMpq;
  _ ← symbols_insert "type" (ty, ki);
  lm (inc ty);;
  _ ← symbols_insert "mpz" (mz, ty);
  _ ← symbols_insert "mpq" (mq, ty);
  mret ().

Definition static_node (o : op) : node := Node 1 false (PC o [null; null]).
Definition world_start : W :=
  World (Mem {[1%N := static_node TYPE; 2%N := static_node KIND; 3%N := static_node MPZ;
               4%N := static_node MPQ]} 5 ∅ EmptyString false false 0 scc_none)
    (Lex EmptyString NUL 1 1 0) st_empty ∅ (Statics 1 2 3 4) false true true [] [] (Writers None None []).

(** The output files are added to [written]. *)
Definition write_out (fs : list (string * string)) : M W () := modify (λ w,
  set_out (Writers (scw (w_out w)) (lw (w_out w)) (written (w_out w) ++ fs)) w).

(** [scw->write_file()] and [lw->write_file()], if there is such a writer. *)
Definition write_scc_files (debug : bool) (fuel : nat) : M W () :=
  o ← gets (λ w, scw (w_out w));
  match o with
  | None => mret ()
  | Some ps =>
      r ← lm (scc_files ps debug fuel);
      write_out [("scccode.h"%string, r.1); ("scccode.cpp"%string, r.2)]
  end.
Definition write_lib_files (fuel : nat) : M W () :=
  o ← gets (λ w, lw (w_out w));
  match o with
  | None => mret ()
  | Some syms => r ← lm (lib_files fuel syms); write_out r
  end.

(** One file of the file system [fs]. *)
Definition process_file (fs : string → option string) (a : args) (fuel : nat) (f : string) : M W () :=
  match fs f with
  | None => report_error "Could not open file for reading."
  | Some contents => check_file f contents a fuel
  end.

(** The body of [main] between the options and the writers: the files are checked,
    or the standard input, which is the file [stdin]. *)
Definition check_files (fs : string → option string) (a : args) (fuel : nat) : M W () :=
  init;;
  match files a with
  | [] => process_file fs a fuel "stdin"
  | fl =>
      modify (set_out (Writers (if compile_scc a then Some [] else None)
                         (if compile_lib a then Some [] else None) []));;
      for_each (process_file fs a fuel) fl
  end.

(** The writers write their files. *)
Definition write_files (a : args) (fuel : nat) : M W () :=
  match files a with
  | [] => mret ()
  | _ => write_scc_files (compile_scc_debug a) fuel;; write_lib_files fuel
  end.

(** [main] on the arguments [argv], for a file system [fs]. *)
Definition main (fs : string → option string) (argv : list string) (fuel : nat) : M W () :=
  match parse_args argv args_init with
  | None => mret ()
  | Some a => check_files fs a fuel;; write_files a fuel
  end.
End check_file.
