(* ===== verification/Sample.v ===== *)
(** * A concrete checker

    The parameters of the model instantiated: finite maps for the symbol table,
    no compiled side conditions, and the state right after [init].  Used to
    evaluate the checker on given inputs. *)

From stdpp Require Import base tactics list strings gmap numbers.
From S2P Require Import Prelude SymTab Header Memory Lexer World Check CheckFile.

Abbreviation table := (gmap string entry).

(** There is no compiled side condition to call. *)
Definition no_scc (hd : ptr) (args : list ptr) : M mem ptr := mret null.

(** The state a computation ends in. *)
Definition final {S A} (m : M S A) (w : S) : S :=
  match m w with Ok (_, w') => w' | Err _ => w end.

(** The value a computation gives. *)
Definition value {S A} (m : M S A) (w : S) (d : A) : A :=
  match m w with Ok (a, _) => a | Err _ => d end.

Definition started : world table := final init world_start.

(** [started], reading from [s]. *)
Definition reading (s : string) : world table :=
  set_lex (Lex s NUL 1 1 0) started.

(** The whole program on one file with the contents [s]. *)
Definition run_on (s : string) : result (() * world table) :=
  main no_scc (mret ()) (λ _, Some s) [] 400 world_start.

(** What it printed, or how it ended. *)
Definition transcript (s : string) : string + error :=
  match run_on s with Ok (_, w) => inl (cout (w_mem w)) | Err e => inr e end.

(** A term read by itself: what [check] gives and the state it leaves. *)
Definition term_out (p : cargs) (s : string) : outcome :=
  value (check no_scc 100 p) (reading s) (Out null None false).
Definition term_final (p : cargs) (s : string) : world table :=
  final (check no_scc 100 p) (reading s).

Definition term_ok (p : cargs) (s : string) : bool :=
  match check no_scc 100 p (reading s) with Ok _ => true | Err _ => false end.

Lemma term_runs p s :
  term_ok p s = true → check no_scc 100 p (reading s) = Ok (term_out p s, term_final p s).
Proof.
  unfold term_ok, term_out, term_final, value, final.
  destruct (check no_scc 100 p (reading s)) as [[o w]|e]; [reflexivity|discriminate].
Qed.
