(* ===== verification/RefCount.v ===== *)
(** * Memory safety of reference counting (expr.h, expr.cpp)

    [covers h own]: in the heap [h] every pointer that is held, by a field of an
    object or by the code ([own] lists the references the code is responsible
    for), leads to a live object whose count is at least the number of holders.
    [inc], [dec] and the constructors move references in and out of [own]; under
    the invariant [dec] neither meets a dangling pointer nor runs for ever. *)

From stdpp Require Import base tactics list strings gmap numbers sorting.
From S2P Require Import Prelude Header Memory Expr Code.

(** ** Counting references *)

(** The references an object holds. *)
Definition outs (b : payload) : list ptr :=
  match b with
  | PC _ ks => default [] (upto_null ks)
  | PHole v | PSym v | PSymS _ v => if decide (v = null) then [] else [v]
  | PInt _ | PRat _ => []
  end.

(** The kids of a [CExpr] end with a null pointer. *)
Definition terminated (b : payload) : Prop :=
  match b with PC _ ks => is_Some (upto_null ks) | _ => True end.

Definition occ (a : ptr) (l : list ptr) : nat := length (filter (a =.) l).

Definition indeg (h : gmap N node) (a : ptr) : nat :=
  sum_list_with (λ p : N * node, occ a (outs (body p.2))) (map_to_list h).

Record covers (h : gmap N node) (own : list ptr) : Prop := Covers {
  cov_null : h !! null = None;
  cov_term : ∀ e n, h !! e = Some n → terminated (body n);
  cov_pos : ∀ e n, h !! e = Some n → (1 ≤ refcnt n)%Z;
  cov_live : ∀ a, 0 < indeg h a + occ a own →
    ∃ n, h !! a = Some n ∧ (Z.of_nat (indeg h a + occ a own) ≤ refcnt n)%Z
}.

(** The objects of [h'] are objects of [h] with the same fields and no more
    references. *)
Definition shrinks (h h' : gmap N node) : Prop :=
  ∀ a n', h' !! a = Some n' →
    ∃ n, h !! a = Some n ∧ body n' = body n ∧ exmark n' = exmark n ∧ (refcnt n' ≤ refcnt n)%Z.

#[global] Instance shrinks_preorder : PreOrder shrinks.
Proof.
  split; [intros h a n' H; eauto 10 with lia|].
  intros h1 h2 h3 H12 H23 a n3 H3.
  destruct (H23 a n3 H3) as (n2 & H2 & Eb2 & Ee2 & Hle2).
  destruct (H12 a n2 H2) as (n1 & H1 & Eb1 & Ee1 & Hle1).
  exists n1. split_and!; [done|congruence|congruence|lia].
Qed.

Lemma occ_nil a : occ a [] = 0.
Proof. done. Qed.
Lemma occ_cons a b l : occ a (b :: l) = (if decide (a = b) then 1 else 0) + occ a l.
Proof. unfold occ. rewrite filter_cons. by case_decide. Qed.
Lemma occ_cons_eq a l : occ a (a :: l) = S (occ a l).
Proof. rewrite occ_cons. by rewrite decide_True. Qed.
Lemma occ_cons_ne a b l : a ≠ b → occ a (b :: l) = occ a l.
Proof. intros. rewrite occ_cons. by rewrite decide_False. Qed.
Lemma occ_app a l k : occ a (l ++ k) = occ a l + occ a k.
Proof. unfold occ. by rewrite filter_app, length_app. Qed.
Lemma occ_elem a l : a ∈ l ↔ 0 < occ a l.
Proof.
  induction l as [|b l IH]; [rewrite occ_nil; split; [inversion 1|lia]|].
  rewrite elem_of_cons, IH, occ_cons. case_decide; intuition (lia || congruence).
Qed.

Lemma indeg_delete h e n a :
  h !! e = Some n → indeg h a = occ a (outs (body n)) + indeg (delete e h) a.
Proof.
  intros He. unfold indeg. rewrite <-(map_to_list_delete h e n He). done.
Qed.

Lemma indeg_insert_new h e n a :
  h !! e = None → indeg (<[e := n]> h) a = occ a (outs (body n)) + indeg h a.
Proof. intros He. unfold indeg. by rewrite (map_to_list_insert h e n He). Qed.

Lemma indeg_update h e n n' a :
  h !! e = Some n →
  indeg (<[e := n']> h) a + occ a (outs (body n)) = indeg h a + occ a (outs (body n')).
Proof.
  intros He. rewrite (indeg_delete h e n a He), <-insert_delete_eq.
  rewrite indeg_insert_new by apply lookup_delete_eq. lia.
Qed.

Lemma indeg_same_body h e n n' a :
  h !! e = Some n → body n' = body n → indeg (<[e := n']> h) a = indeg h a.
Proof. intros He Eb. pose proof (indeg_update h e n n' a He). rewrite Eb in *. lia. Qed.

(** ** The invariant under ghost moves *)

Lemma covers_weaken h own own' :
  (∀ a, occ a own' ≤ occ a own) → covers h own → covers h own'.
Proof.
  intros Hle [Hn Ht Hp Hl]. split; [done..|]. intros a Ha. specialize (Hle a).
  destruct (Hl a) as (n & En & ?); [lia|]. exists n. split; [done|lia].
Qed.

Lemma covers_perm h own own' : own ≡ₚ own' → covers h own → covers h own'.
Proof. intros HP. apply covers_weaken. intros a. unfold occ. by rewrite HP. Qed.

Lemma covers_drop h e own : covers h (e :: own) → covers h own.
Proof. apply covers_weaken. intros a. rewrite occ_cons. lia. Qed.

Lemma covers_own h e own :
  covers h (e :: own) → ∃ n, h !! e = Some n ∧ e ≠ null ∧ (1 ≤ refcnt n)%Z.
Proof.
  intros [Hn Ht Hp Hl]. destruct (Hl e) as (n & En & Hle); rewrite occ_cons_eq in *; [lia|].
  exists n. split_and!; [done|congruence|lia].
Qed.

Lemma covers_last h e n own :
  covers h (e :: own) → h !! e = Some n → (refcnt n - 1 = 0)%Z → indeg h e + occ e own = 0.
Proof.
  intros Hc He Hz. destruct (cov_live _ _ Hc e) as (n' & ? & ?); rewrite occ_cons_eq in *; [lia|].
  simplify_eq. lia.
Qed.

(** The object no reference to which is left: its references become
    the code's. *)
Lemma covers_delete h e n own :
  h !! e = Some n → indeg h e + occ e own = 0 →
  covers h own → covers (delete e h) (outs (body n) ++ own).
Proof.
  intros He Hz [Hn Ht Hp Hl]. split.
  - rewrite lookup_delete_ne; [done|congruence].
  - intros e' n' [_ ?]%lookup_delete_Some. eauto.
  - intros e' n' [_ ?]%lookup_delete_Some. eauto.
  - intros a Ha. rewrite occ_app in *. pose proof (indeg_delete h e n a He).
    destruct (Hl a) as (n' & En & Hle); [lia|]. exists n'.
    split; [|lia]. rewrite lookup_delete_ne; [done|]. intros ->. lia.
Qed.

(** Putting a deleted object without references back. *)
Lemma covers_undelete h e n own :
  h !! e = Some n → e ≠ null → terminated (body n) → (1 ≤ refcnt n)%Z → outs (body n) = [] →
  covers (delete e h) own → covers h own.
Proof.
  intros He Hne Htn Hpn Ho [Hn Ht Hp Hl]. split.
  - by rewrite lookup_delete_ne in Hn.
  - intros e' n' H'. destruct (decide (e = e')) as [<-|]; [congruence|].
    apply (Ht e'). by rewrite lookup_delete_ne.
  - intros e' n' H'. destruct (decide (e = e')) as [<-|]; [congruence|].
    apply (Hp e'). by rewrite lookup_delete_ne.
  - intros a Ha. rewrite (indeg_delete h e n a He), Ho, occ_nil in *.
    destruct (Hl a) as (n' & [_ En]%lookup_delete_Some & Hle); [lia|]. eauto.
Qed.

(** One reference given up, the count going down by one. *)
Lemma covers_dec h e n own :
  h !! e = Some n → (1 < refcnt n)%Z → covers h (e :: own) →
  covers (<[e := Node (refcnt n - 1) (exmark n) (body n)]> h) own.
Proof.
  intros He Hgt [Hn Ht Hp Hl]. split.
  - rewrite lookup_insert_ne; [done|congruence].
  - intros e' n' [[<- <-]|[? ?]]%lookup_insert_Some; [exact (Ht e n He)|eauto].
  - intros e' n' [[<- <-]|[? ?]]%lookup_insert_Some; [simpl; lia|eauto].
  - intros a. rewrite (indeg_same_body h e n) by done. intros Ha. specialize (Hl a).
    rewrite occ_cons in Hl. destruct Hl as (n' & En & Hle); [lia|].
    destruct (decide (a = e)) as [->|].
    + rewrite lookup_insert_eq. eexists. split; [done|]. simplify_eq/=. lia.
    + rewrite lookup_insert_ne by done. exists n'. split; [done|lia].
Qed.

(** ** Running [destroy]

    While [destroy] works on the kids of an object, the object is still in the
    heap.  [dead] holds the objects in that state: the invariant is about the
    rest [h], where nothing leads to them. *)

Definition splits (m : mem) (h dead : gmap N node) : Prop :=
  heap m = h ∪ dead ∧ h ##ₘ dead.

(** [m'] is [m] up to the heap, where [h] became [h'], which [own] is covered in. *)
Definition released (m m' : mem) (h dead : gmap N node) (own : list ptr) : Prop :=
  ∃ h', m' = set_heap (heap m') m ∧ splits m' h' dead ∧ covers h' own ∧ shrinks h h'.

(** Objects [destroy] gives back to the allocator: there is no case for
    rationals, and a [CExpr] without kids never reaches its [delete]. *)
Definition reclaimable (b : payload) : bool :=
  match b with PRat _ => false | PC _ _ => negb (bool_decide (outs b = [])) | _ => true end.

Definition without (h : gmap N node) (e : ptr) (b : payload) : gmap N node :=
  if reclaimable b then delete e h else h.

Lemma reclaimable_cexpr b o ks :
  b = PC o ks → reclaimable b = negb (bool_decide (outs b = [])).
Proof. by intros ->. Qed.

(** [f] destroys an object no reference to which is left, in a heap of at most
    [sz] objects. *)
Definition destroys (sz : nat) (f : ptr → M mem ()) : Prop :=
  ∀ m h dead e n own, splits m h dead → size h ≤ sz → h !! e = Some n → e ≠ null →
    terminated (body n) → (1 ≤ refcnt n)%Z → covers (delete e h) (outs (body n) ++ own) →
    ∃ m', f e m = Ok ((), m') ∧ released m m' (without h e (body n)) dead own.

Definition drops (sz : nat) (f : ptr → M mem ()) : Prop :=
  ∀ m h dead e own, splits m h dead → size h ≤ sz → covers h (e :: own) →
    ∃ m', f e m = Ok ((), m') ∧ released m m' h dead own.

Lemma set_heap_id m : set_heap (heap m) m = m.
Proof. by destruct m. Qed.

Lemma splits_lookup m h dead e n : splits m h dead → h !! e = Some n → heap m !! e = Some n.
Proof. intros [-> _] ?. by apply lookup_union_Some_l. Qed.

Lemma load_ok m e n : e ≠ null → heap m !! e = Some n → load e m = Ok (n, m).
Proof. intros Hne He. unfold load. by rewrite decide_False, He. Qed.

Lemma shrinks_size h h' : shrinks h h' → size h' ≤ size h.
Proof.
  intros H. rewrite <-!size_dom. apply subseteq_size. intros a.
  rewrite !elem_of_dom. intros [n' Hn']. destruct (H a n' Hn') as (n & -> & _). eauto.
Qed.

Lemma shrinks_delete h e : shrinks h (delete e h).
Proof. intros a n' [_ ?]%lookup_delete_Some. eauto 10 with lia. Qed.

Lemma shrinks_without h e b : shrinks h (without h e b).
Proof. unfold without. destruct (reclaimable b); [apply shrinks_delete|reflexivity]. Qed.

Lemma released_refl m h dead own :
  splits m h dead → covers h own → released m m h dead own.
Proof. intros. exists h. rewrite set_heap_id. split_and!; [done..|reflexivity]. Qed.

Lemma released_trans m1 m2 m3 h1 h2 dead own :
  m2 = set_heap (heap m2) m1 → shrinks h1 h2 → released m2 m3 h2 dead own →
  released m1 m3 h1 dead own.
Proof.
  intros E2 Hs (h3 & E3 & ? & ? & ?). exists h3. split_and!; [|done..|by etrans].
  rewrite E3, E2. by destruct m1, m3.
Qed.

(** Deleting an object that is out of the invariant's heap. *)
Lemma free_dead m h dead e n :
  splits m h (<[e := n]> dead) → dead !! e = None →
  ∃ m', free e m = Ok ((), m') ∧ m' = set_heap (heap m') m ∧ splits m' h dead.
Proof.
  intros [Em Hd] He. eexists. split_and!; [done|by destruct m|].
  apply map_disjoint_insert_r in Hd as [Hh Hd]. split; [|done]. simpl. rewrite Em.
  rewrite delete_union, delete_insert_eq. by rewrite !delete_id.
Qed.

(** Moving an object out of the invariant's heap. *)
Lemma splits_kill m h dead e n :
  splits m h dead → h !! e = Some n →
  splits m (delete e h) (<[e := n]> dead) ∧ dead !! e = None.
Proof.
  intros [Em Hd] He. assert (dead !! e = None) as Hn by (by eapply map_disjoint_Some_l).
  split; [|done]. split.
  - rewrite Em, <-insert_union_r by apply lookup_delete_eq.
    rewrite insert_union_l, insert_delete_id; done.
  - apply map_disjoint_insert_r. split; [apply lookup_delete_eq|].
    by apply map_disjoint_delete_l.
Qed.

Lemma dec_then_drops sz f : destroys sz f → drops sz (dec_then f).
Proof.
  intros Hf m h dead e own Hm Hsz Hc.
  destruct (covers_own _ _ _ Hc) as (n & He & Hne & Href).
  pose proof (splits_lookup _ _ _ _ _ Hm He) as Hl. unfold dec_then.
  rewrite (bind_run _ _ _ _ _ (load_ok _ _ _ Hne Hl)). simpl.
  destruct (Z.eqb_spec (refcnt n - 1) 0) as [Hz|Hz].
  - destruct (Hf m h dead e n own) as (m' & Hrun & Hrel);
      [done..|by eapply cov_term|done| |].
    { apply covers_delete; [done| |by eapply covers_drop]. by eapply covers_last. }
    exists m'. split; [done|]. eapply released_trans; [|apply shrinks_without|done].
    by rewrite set_heap_id.
  - eexists. split; [done|]. exists (<[e := Node (refcnt n - 1) (exmark n) (body n)]> h).
    split_and!; [by destruct m| |apply covers_dec; [done|lia|done]|].
    + destruct Hm as [Em Hd]. split; simpl; [by rewrite Em, insert_union_l|].
      apply map_disjoint_insert_l. split; [by eapply map_disjoint_Some_l|done].
    + intros a n' [[<- <-]|[? ?]]%lookup_insert_Some; [|eauto 10 with lia].
      exists n. simpl. split_and!; [done..|lia].
Qed.

(** The kids of a dying [CExpr]. *)
Lemma destroy_kids_drops sz decf ddec m h dead e n ks own :
  drops sz decf → drops sz ddec → ks ≠ [] → size h ≤ sz →
  splits m h (<[e := n]> dead) → dead !! e = None → covers h (ks ++ own) →
  ∃ m', destroy_kids decf ddec e ks m = Ok ((), m') ∧ released m m' h dead own.
Proof.
  intros Hdec Hddec Hks. revert m h own.
  induction ks as [|k ks IH]; intros m h own Hsz Hm He Hc; [done|].
  destruct ks as [|k' ks].
  - destruct (free_dead _ _ _ _ _ Hm He) as (m1 & Hfree & E1 & Hm1).
    destruct (Hddec m1 h dead k own Hm1 Hsz Hc) as (m2 & Hrun & Hrel).
    exists m2. split; [|by eapply released_trans].
    simpl. by rewrite (bind_run _ _ _ _ _ Hfree).
  - destruct (Hdec m h _ k ((k' :: ks) ++ own) Hm Hsz Hc) as (m1 & Hrun & h1 & E1 & Hm1 & Hc1 & Hs1).
    destruct (IH ltac:(done) m1 h1 own) as (m2 & Hrun2 & Hrel2); [|done..|].
    { apply shrinks_size in Hs1. lia. }
    exists m2. split; [|by eapply released_trans].
    by rewrite <-Hrun2, <-(bind_run _ (λ _, destroy_kids decf ddec e (k' :: ks)) _ _ _ Hrun).
Qed.

(** An object without kids or value to drop is just deleted. *)
Lemma free_leaf m h dead e n own :
  splits m h dead → h !! e = Some n → covers (delete e h) own →
  ∃ m', free e m = Ok ((), m') ∧ released m m' (delete e h) dead own.
Proof.
  intros Hm He Hc. destruct (splits_kill _ _ _ _ _ Hm He) as [Hm' Hd].
  destruct (free_dead _ _ _ _ _ Hm' Hd) as (m1 & Hrun & E1 & Hm1).
  exists m1. split; [done|]. exists (delete e h). by split_and!.
Qed.

(** An object with a value: it is deleted, then the value is dropped. *)
Lemma free_then_drop sz ddec m h dead e n v own :
  drops sz ddec → size (delete e h) ≤ sz → splits m h dead → h !! e = Some n →
  covers (delete e h) (v :: own) →
  ∃ m', (free e;; ddec v) m = Ok ((), m') ∧ released m m' (delete e h) dead own.
Proof.
  intros Hd Hsz Hm He Hc. destruct (splits_kill _ _ _ _ _ Hm He) as [Hm' Hde].
  destruct (free_dead _ _ _ _ _ Hm' Hde) as (m1 & Hrun & E1 & Hm1).
  destruct (Hd m1 _ dead v own Hm1 Hsz Hc) as (m2 & Hrun2 & Hrel).
  exists m2. rewrite (bind_run _ _ _ _ _ Hrun). split; [done|].
  by eapply released_trans.
Qed.

Lemma size_delete_le (h : gmap N node) e n sz :
  h !! e = Some n → size h ≤ S sz → size (delete e h) ≤ sz.
Proof. intros He Hs. rewrite map_size_delete_Some by eauto. lia. Qed.

Lemma destroy_sym_drops sz ddec m h dead e n v own :
  drops sz ddec → size (delete e h) ≤ sz → splits m h dead → h !! e = Some n →
  covers (delete e h) ((if decide (v = null) then [] else [v]) ++ own) →
  ∃ m', destroy_sym ddec e v m = Ok ((), m') ∧ released m m' (delete e h) dead own.
Proof.
  intros Hd Hsz Hm He Hc. unfold destroy_sym. case_decide; [by eapply free_leaf|].
  simpl in Hc. destruct (covers_own _ _ _ Hc) as (nv & Hv & Hne & _).
  apply lookup_delete_Some in Hv as [_ Hv]. unfold getop.
  rewrite (bind_run _ _ m (op_of (body nv)) m).
  2:{ rewrite (bind_run _ _ _ _ _ (load_ok m v nv Hne (splits_lookup _ _ _ _ _ Hm Hv))). done. }
  case_decide; [|by eapply free_then_drop].
  eapply free_leaf; [done..|]. by eapply covers_drop.
Qed.

Lemma destroy_cexpr_drops sz decf ddec m h dead e n o ks own :
  drops sz decf → drops sz ddec → size h ≤ S sz → splits m h dead → h !! e = Some n →
  e ≠ null → body n = PC o ks → terminated (body n) → (1 ≤ refcnt n)%Z →
  covers (delete e h) (outs (body n) ++ own) →
  ∃ m', (l ← kid_list ks; destroy_kids decf ddec e l) m = Ok ((), m') ∧
    released m m' (without h e (body n)) dead own.
Proof.
  intros Hd Hdd Hsz Hm He Hne Eb Ht Hp Hc. pose proof Ht as Ht'.
  rewrite Eb in Ht. destruct Ht as [l Hl].
  assert (outs (body n) = l) as Eo by (rewrite Eb; simpl; by rewrite Hl).
  unfold kid_list. rewrite Hl. rewrite (bind_run _ _ _ l m) by done.
  destruct (decide (l = [])) as [->|Hnil].
  - exists m. split; [done|]. rewrite Eo in Hc. unfold without.
    rewrite (reclaimable_cexpr _ _ _ Eb), Eo. apply released_refl; [done|]. by eapply covers_undelete.
  - unfold without. rewrite (reclaimable_cexpr _ _ _ Eb), Eo, bool_decide_false by done. simpl.
    destruct (splits_kill _ _ _ _ _ Hm He) as [Hm' Hde]. rewrite Eo in Hc.
    destruct (destroy_kids_drops sz decf ddec m (delete e h) dead e n l own)
      as (m' & Hrun & Hrel); [done|done|done|by eapply size_delete_le|done..|].
    eauto.
Qed.

Lemma destroy_destroys fuel : destroys fuel (destroy fuel true).
Proof.
  induction fuel as [|fuel IH]; intros m h dead e n own Hm Hsz He Hne Ht Hp Hc.
  { apply Nat.le_0_r, map_size_empty_iff in Hsz. by simplify_map_eq. }
  pose proof (dec_then_drops _ _ IH) as Hd.
  pose proof (size_delete_le _ _ _ _ He Hsz) as Hsz'. simpl.
  rewrite (bind_run _ _ _ _ _ (load_ok m e n Hne (splits_lookup _ _ _ _ _ Hm He))).
  destruct (body n) as [o ks|z|q|v|v|s v] eqn:Eb; simpl in Hc.
  - rewrite <-Eb. eapply destroy_cexpr_drops; rewrite ?Eb; eauto.
  - by eapply free_leaf.
  - exists m. split; [done|]. apply released_refl; [done|].
    eapply covers_undelete; rewrite ?Eb; eauto.
  - unfold without. simpl. case_decide; [by eapply free_leaf|by eapply free_then_drop].
  - by eapply destroy_sym_drops.
  - by eapply destroy_sym_drops.
Qed.

(** ** Ownership rules *)

(** The references [own] are covered, and new objects are outside the heap. *)
Record owns (m : mem) (own : list ptr) : Prop := Owns {
  owns_covers : covers (heap m) own;
  owns_fresh : ∀ a n, heap m !! a = Some n → (a < next_addr m)%N;
  owns_next : (0 < next_addr m)%N
}.

Lemma splits_top m : splits m (heap m) ∅.
Proof. split; [by rewrite map_union_empty|apply map_disjoint_empty_r]. Qed.

Lemma splits_top_inv m h : splits m h ∅ → h = heap m.
Proof. intros [-> _]. by rewrite map_union_empty. Qed.

Lemma dec_owns m e own :
  owns m (e :: own) →
  ∃ m', dec e m = Ok ((), m') ∧ m' = set_heap (heap m') m ∧ owns m' own ∧
    shrinks (heap m) (heap m').
Proof.
  intros [Hc Hf Hn].
  destruct (dec_then_drops _ _ (destroy_destroys (S (size (heap m)))) m (heap m) ∅ e own)
    as (m' & Hrun & h' & E & Hm' & Hc' & Hs); [apply splits_top|lia|done|].
  apply splits_top_inv in Hm' as ->. exists m'. split_and!; [done..| |done].
  split; [done| |by rewrite E]. intros a n Ha. destruct (Hs a n Ha) as (n0 & Ha0 & _).
  rewrite E. eauto.
Qed.

Lemma dec_last m e n own :
  owns m (e :: own) → heap m !! e = Some n → refcnt n = 1%Z →
  ∃ m', dec e m = Ok ((), m') ∧ shrinks (without (heap m) e (body n)) (heap m').
Proof.
  intros [Hc Hf Hn] He Hr. destruct (covers_own _ _ _ Hc) as (n' & He' & Hne & _).
  unfold dec, dec_then. rewrite (bind_run _ _ _ m m) by done.
  rewrite (bind_run _ _ _ _ _ (load_ok m e n Hne He)), Hr. simpl.
  destruct (destroy_destroys (S (size (heap m))) m (heap m) ∅ e n own)
    as (m' & Hrun & h' & E & Hm' & Hc' & Hs); [apply splits_top|lia|done..|by eapply cov_term|lia| |].
  - apply covers_delete; [done| |by eapply covers_drop]. eapply (covers_last _ _ n); [done..|lia].
  - exists m'. split; [done|]. by apply splits_top_inv in Hm' as ->.
Qed.

Lemma inc_owns m e n own :
  owns m own → e ≠ null → heap m !! e = Some n → (refcnt n < max_refcnt)%Z →
  ∃ m', inc e m = Ok ((), m') ∧ owns m' (e :: own) ∧
    heap m' = <[e := Node (refcnt n + 1) (exmark n) (body n)]> (heap m) ∧ next_addr m' = next_addr m.
Proof.
  intros [[Hnull Ht Hp Hl] Hf Hn] Hne He Hr. unfold inc.
  rewrite (bind_run _ _ _ _ _ (load_ok m e n Hne He)).
  assert (inc_ref (refcnt n) = refcnt n + 1)%Z as ->.
  { unfold inc_ref. by rewrite (proj2 (Z.ltb_lt _ _) Hr). }
  eexists. split_and!; [done| |done|done]. split; [split|..]; simpl.
  - by rewrite lookup_insert_ne.
  - intros e' n' [[<- <-]|[? ?]]%lookup_insert_Some; [exact (Ht e n He)|eauto].
  - intros e' n' [[<- <-]|[? ?]]%lookup_insert_Some; [specialize (Hp e n He); cbn [refcnt]; lia|eauto].
  - intros a. rewrite (indeg_same_body _ e n), occ_cons by done. intros Ha.
    destruct (decide (a = e)) as [->|].
    + rewrite lookup_insert_eq. eexists. split; [done|]. simpl.
      specialize (Hp e n He).
      destruct (decide (indeg (heap m) e + occ e own = 0)); [lia|].
      destruct (Hl e) as (n' & ? & ?); [lia|]. simplify_eq. lia.
    + rewrite lookup_insert_ne by done.
      destruct (Hl a) as (n' & ? & ?); [lia|]. eauto with lia.
  - intros a n' [[<- <-]|[? ?]]%lookup_insert_Some; eauto.
  - done.
Qed.

Lemma owns_perm m own own' : own ≡ₚ own' → owns m own → owns m own'.
Proof. intros HP [Hc ? ?]. split; [by eapply covers_perm|done..]. Qed.

Lemma covers_live h own a : covers h own → a ∈ own → ∃ n, h !! a = Some n ∧ a ≠ null.
Proof.
  intros [Hn _ _ Hl] Ha%occ_elem. destruct (Hl a) as (n & En & _); [lia|].
  exists n. split; congruence.
Qed.

Lemma upto_null_terminated ks : Forall (.≠ null) ks → upto_null (ks ++ [null]) = Some ks.
Proof.
  induction 1 as [|k ks Hk _ IH]; [done|]. simpl. rewrite decide_False by done. by rewrite IH.
Qed.

(** A constructor takes the references it stores and gives one to the object. *)
Lemma new_owns m b own :
  owns m (outs b ++ own) → terminated b →
  ∃ m', new b m = Ok (next_addr m, m') ∧ owns m' (next_addr m :: own) ∧
    heap m' = <[next_addr m := Node 1 false b]> (heap m).
Proof.
  intros [[Hnull Ht Hp Hl] Hf Hn] Htb. set (a := next_addr m).
  assert (Hfresh : heap m !! a = None).
  { destruct (heap m !! a) as [n|] eqn:E; [|done]. apply Hf in E. lia. }
  eexists. split_and!; [done| |done]. split; [split|..]; simpl.
  - rewrite lookup_insert_ne; [done|lia].
  - intros e n [[<- <-]|[? ?]]%lookup_insert_Some; eauto.
  - intros e n [[<- <-]|[? ?]]%lookup_insert_Some; [done|eauto].
  - intros a'. rewrite indeg_insert_new, occ_cons by done. simpl. specialize (Hl a').
    rewrite occ_app in Hl. intros Ha'. destruct (decide (a' = a)) as [->|Hne].
    + destruct (decide (0 < occ a (outs b) + indeg (heap m) a + occ a own)) as [Hlt|].
      { destruct Hl as (n & En & _); [lia|congruence]. }
      rewrite lookup_insert_eq. eexists. split; [done|]. simpl. lia.
    + rewrite lookup_insert_ne by done. destruct Hl as (n & ? & ?); [lia|]. eauto with lia.
  - intros e n [[<- <-]|[? He]]%lookup_insert_Some; [lia|]. specialize (Hf e n He). lia.
  - lia.
Qed.

Lemma new_cexpr_owns m o ks own :
  owns m (ks ++ own) →
  ∃ m', new_cexpr o ks m = Ok (next_addr m, m') ∧ owns m' (next_addr m :: own) ∧
    heap m' = <[next_addr m := Node 1 false (PC o (ks ++ [null]))]> (heap m).
Proof.
  intros Ho. assert (upto_null (ks ++ [null]) = Some ks) as Hu.
  { apply upto_null_terminated, Forall_forall. intros k Hk.
    destruct (covers_live _ _ k (owns_covers _ _ Ho)) as (n & _ & ?); [set_solver|done]. }
  apply new_owns; simpl; rewrite Hu; eauto.
Qed.

(** Every object can take the references [l] without reaching the bound of the
    count. *)
Definition room (m : mem) (l : list ptr) : Prop :=
  ∀ a n, heap m !! a = Some n → (refcnt n + Z.of_nat (occ a l) ≤ max_refcnt)%Z.

(** Objects keep their fields; counts may differ. *)
Definition same_objects (h h' : gmap N node) : Prop :=
  ∀ a, (λ n, (exmark n, body n)) <$> h' !! a = (λ n, (exmark n, body n)) <$> h !! a.

Lemma incs_owns l m own :
  owns m own → (∀ k, k ∈ l → k ≠ null ∧ is_Some (heap m !! k)) → room m l →
  ∃ m', for_each inc l m = Ok ((), m') ∧ owns m' (l ++ own) ∧ same_objects (heap m) (heap m') ∧
    next_addr m' = next_addr m.
Proof.
  revert m own. induction l as [|k l IH]; intros m own Ho Hk Hr.
  { exists m. by split_and!. }
  destruct (Hk k) as [Hne [n En]]; [by constructor|].
  assert (Hlt : (refcnt n < max_refcnt)%Z) by (specialize (Hr k n En); rewrite occ_cons_eq in Hr; lia).
  destruct (inc_owns m k n own Ho Hne En Hlt) as (m1 & Hrun & Ho1 & E1 & Hn1).
  destruct (IH m1 (k :: own) Ho1) as (m2 & Hrun2 & Ho2 & Hs2 & Hn2).
  - intros k' Hk'. split; [apply Hk; by constructor|].
    rewrite E1, lookup_insert_is_Some'. right. apply Hk. by constructor.
  - intros a n'. rewrite E1. intros [[<- <-]|[Hne' Ha]]%lookup_insert_Some; cbn [refcnt].
    + specialize (Hr k n En). rewrite occ_cons_eq in Hr. lia.
    + specialize (Hr a n' Ha). rewrite occ_cons_ne in Hr by done. lia.
  - exists m2. split_and!.
    + simpl. by rewrite (bind_run _ _ _ _ _ Hrun).
    + eapply owns_perm; [|done]. simpl. by rewrite Permutation_middle.
    + intros a. rewrite Hs2, E1. destruct (decide (a = k)) as [->|];
        [by rewrite lookup_insert_eq, En|by rewrite lookup_insert_ne].
    + congruence.
Qed.

Lemma getclass_ok m e n :
  e ≠ null → heap m !! e = Some n → getclass e m = Ok (class_of (body n), m).
Proof. intros Hne He. unfold getclass. by rewrite (bind_run _ _ _ _ _ (load_ok m e n Hne He)). Qed.

(** The kids of a terminated [CExpr] are the references it holds. *)
Lemma kids_list_ok m e n o ks :
  e ≠ null → heap m !! e = Some n → body n = PC o ks → terminated (body n) →
  kids_list e m = Ok (outs (body n), m).
Proof.
  intros Hne He Eb Ht. unfold kids_list, kids_of.
  rewrite (bind_run _ _ _ ks m).
  2:{ by rewrite (bind_run _ _ _ _ _ (load_ok m e n Hne He)), Eb. }
  rewrite Eb in *. destruct Ht as [l Hl]. unfold kid_list. simpl. by rewrite Hl.
Qed.

Lemma covers_outs h own e n k :
  covers h own → h !! e = Some n → k ∈ outs (body n) → k ≠ null ∧ is_Some (h !! k).
Proof.
  intros [Hn _ _ Hl] He Hk%occ_elem. pose proof (indeg_delete h e n k He).
  destruct (Hl k) as (nk & Ek & _); [lia|]. split; [congruence|eauto].
Qed.

(** What [make_app] stores: the kids of a [CExpr], or the term itself. *)
Definition app_kids (e : ptr) (b : payload) : list ptr :=
  match b with PC _ _ => outs b | _ => [e] end.

Lemma same_objects_lookup h h' a n :
  same_objects h h' → h !! a = Some n →
  ∃ n', h' !! a = Some n' ∧ exmark n' = exmark n ∧ body n' = body n.
Proof.
  intros Hs Ha. specialize (Hs a). rewrite Ha in Hs. destruct (h' !! a) as [n'|]; [|done].
  exists n'. simplify_eq/=. eauto.
Qed.

Lemma extend_app_leaf m e1 e2 n1 own :
  owns m (e1 :: e2 :: own) → heap m !! e1 = Some n1 → class_of (body n1) ≠ CEXPR →
  ∃ r m' n, extend_app e1 e2 m = Ok (r, m') ∧ owns m' (r :: own) ∧
    heap m' !! r = Some n ∧ body n = PC APP [e1; e2; null].
Proof.
  intros Ho He1 Hc. destruct (covers_own _ _ _ (owns_covers _ _ Ho)) as (? & _ & Hne & _).
  destruct (new_cexpr_owns m APP [e1; e2] own Ho) as (m1 & Hnew & Ho1 & E1).
  eexists (next_addr m), m1, _. split_and!; [|done|by rewrite E1, lookup_insert_eq|done].
  unfold extend_app. rewrite (bind_run _ _ m (next_addr m) m1).
  2:{ unfold make_app. rewrite (bind_run _ _ _ _ _ (getclass_ok m e1 n1 Hne He1)).
      by rewrite decide_False. }
  assert (heap m1 !! e1 = Some n1) as He1'.
  { rewrite E1, lookup_insert_ne; [done|]. intros Ea.
    pose proof (owns_fresh _ _ Ho _ _ He1). lia. }
  rewrite (bind_run _ _ _ _ _ (getclass_ok m1 e1 n1 Hne He1')).
  by rewrite decide_False.
Qed.

Lemma extend_app_cexpr m e1 e2 n1 own :
  owns m (e1 :: e2 :: own) → heap m !! e1 = Some n1 → class_of (body n1) = CEXPR →
  room m (outs (body n1)) →
  ∃ r m' n, extend_app e1 e2 m = Ok (r, m') ∧ owns m' (r :: own) ∧
    heap m' !! r = Some n ∧ body n = PC APP (outs (body n1) ++ [e2; null]).
Proof.
  intros Ho He1 Hc Hr. pose proof (owns_covers _ _ Ho) as Hcov.
  destruct (covers_own _ _ _ Hcov) as (? & _ & Hne & _).
  set (ks := outs (body n1)) in *.
  destruct (incs_owns ks m _ Ho) as (m1 & Hinc & Ho1 & Hs1 & Hn1);
    [intros k; exact (covers_outs _ _ _ _ k Hcov He1)|done|].
  destruct (new_cexpr_owns m1 APP (ks ++ [e2]) (e1 :: own)) as (m2 & Hnew & Ho2 & E2).
  { eapply owns_perm; [|exact Ho1]. rewrite <-(assoc_L (++)). apply Permutation_app_head. constructor. }
  set (r := next_addr m1) in *. rewrite <-(assoc_L (++)) in E2. simpl in E2.
  destruct (same_objects_lookup _ _ _ _ Hs1 He1) as (n1' & He1' & _ & Eb1).
  assert (heap m2 !! e1 = Some n1') as He12.
  { rewrite E2, lookup_insert_ne; [done|]. pose proof (owns_fresh _ _ Ho1 _ _ He1'). lia. }
  destruct (dec_owns m2 e1 (r :: own)) as (m3 & Hdec & _ & Ho3 & Hs3);
    [eapply owns_perm; [|exact Ho2]; constructor|].
  destruct (covers_own _ _ _ (owns_covers _ _ Ho3)) as (n & En & _).
  exists r, m3, n. split_and!; [|done..|].
  - unfold extend_app. rewrite (bind_run _ _ m r m2).
    2:{ unfold make_app. rewrite (bind_run _ _ _ _ _ (getclass_ok m e1 n1 Hne He1)).
        rewrite decide_True by done. destruct (body n1) as [o l| | | | |] eqn:Eb; try done.
        rewrite (bind_run _ _ _ ks m).
        - by rewrite (bind_run _ _ _ _ _ Hinc).
        - unfold ks. rewrite <-Eb. eapply kids_list_ok; [done..|]. by eapply cov_term. }
    rewrite (bind_run _ _ _ _ _ (getclass_ok m2 e1 n1' Hne He12)).
    rewrite decide_True by (by rewrite Eb1). by rewrite (bind_run _ _ _ _ _ Hdec).
  - destruct (Hs3 r n En) as (n2 & Hr2 & -> & _). rewrite E2, lookup_insert_eq in Hr2. by simplify_eq/=.
Qed.

(** Dropping the last reference to an object [destroy] has no [delete] for. *)
Lemma dec_unreclaimable m e n :
  heap m !! e = Some n → refcnt n = 1%Z → reclaimable (body n) = false →
  e ≠ null ∧ terminated (body n) → dec e m = Ok ((), m).
Proof.
  intros He Hr Hb [Hne Ht]. unfold dec, dec_then. rewrite (bind_run _ _ _ m m) by done.
  rewrite (bind_run _ _ _ _ _ (load_ok m e n Hne He)), Hr. simpl.
  rewrite (bind_run _ _ _ _ _ (load_ok m e n Hne He)).
  destruct (body n) as [o ks| | | | |]; try done. simpl in Hb, Ht. destruct Ht as [l Hl].
  rewrite Hl in Hb. unfold kid_list. rewrite Hl. by destruct l.
Qed.

(** ** Deciding the invariant *)

(** All the references there are: the code's and those of the objects. *)
Definition all_refs (h : gmap N node) (own : list ptr) : list ptr :=
  own ++ concat ((λ p : N * node, outs (body p.2)) <$> map_to_list h).

Definition node_okb (p : N * node) : bool :=
  match body p.2 with PC _ ks => if upto_null ks is Some _ then true else false | _ => true end
  && (1 <=? refcnt p.2)%Z.

Definition ownsb (m : mem) (own : list ptr) : bool :=
  let h := heap m in
  (if h !! null is Some _ then false else true)
  && forallb node_okb (map_to_list h)
  && forallb (λ a, if h !! a is Some n
                   then (Z.of_nat (indeg h a + occ a own) <=? refcnt n)%Z else false)
       (all_refs h own)
  && forallb (λ p : N * node, (p.1 <? next_addr m)%N) (map_to_list h)
  && (0 <? next_addr m)%N.

Lemma sum_list_with_pos {A} (f : A → nat) l :
  0 < sum_list_with f l → ∃ x, x ∈ l ∧ 0 < f x.
Proof.
  induction l as [|x l IH]; simpl; [lia|]. intros H.
  destruct (decide (0 < f x)); [exists x; split; [by constructor|done]|].
  destruct IH as (y & ? & ?); [lia|]. exists y. split; [by constructor|done].
Qed.

Lemma all_refs_complete h own a : 0 < indeg h a + occ a own → a ∈ all_refs h own.
Proof.
  intros Ha. unfold all_refs. apply elem_of_app.
  destruct (decide (0 < occ a own)) as [Ho|]; [left; by apply occ_elem|right].
  assert (0 < indeg h a) as (p & Hp & Hocc)%sum_list_with_pos by lia.
  apply list_elem_of_In, in_concat. exists (outs (body p.2)).
  split; apply list_elem_of_In; [|by apply occ_elem].
  by apply (list_elem_of_fmap_2 (λ p : N * node, outs (body p.2))).
Qed.

Lemma ownsb_sound m own : ownsb m own = true → owns m own.
Proof.
  unfold ownsb. rewrite !andb_true_iff, !forallb_forall.
  intros [[[[Hn Hok] Hl] Hf] Hx]. apply N.ltb_lt in Hx.
  split; [split|..]; [by destruct (_ !! null)|..|done].
  - intros e n He%elem_of_map_to_list%list_elem_of_In%Hok. unfold node_okb in He. simpl in He.
    destruct (body n) as [o ks| | | | |]; try done. simpl. destruct (upto_null ks); [eauto|done].
  - intros e n He%elem_of_map_to_list%list_elem_of_In%Hok.
    apply andb_true_iff in He as [_ He]. by apply Z.leb_le.
  - intros a Ha%all_refs_complete%list_elem_of_In%Hl. destruct (heap m !! a) as [n|]; [|done].
    exists n. split; [done|]. by apply Z.leb_le.
  - intros a n Ha%elem_of_map_to_list%list_elem_of_In%Hf. by apply N.ltb_lt.
Qed.

(** ** Properties *)

(** C28: memory safety of [dec].  When the code holds a reference to [e] and every
    reference is covered by the count of a live object, [dec e] runs to its end:
    it meets no null or dangling pointer and its recursion is bounded by the
    number of objects.  Afterwards the other references are still covered, the
    surviving objects have their old fields, and only the heap has changed. *)
Theorem dec_safe m e own :
  owns m (e :: own) →
  ∃ m', dec e m = Ok ((), m') ∧ m' = set_heap (heap m') m ∧ owns m' own ∧
    shrinks (heap m) (heap m').
Proof. apply dec_owns. Qed.

(** A small store: an application [(f a)] of two symbols, one of which the code
    holds as well, and a defined symbol [d] that stands for the application. *)
Definition demo_mem : mem :=
  Mem {[1%N := Node 2 false (PC APP [2; 3; 0]%N); 2%N := Node 1 false (PSymS "f" 0);
        3%N := Node 2 false (PSymS "a" 0); 4%N := Node 1 false (PSymS "d" 1)]}
    5 ∅ EmptyString false false 0 scc_none.

Lemma dec_safe_witness : ∃ m', dec 4%N demo_mem = Ok ((), m') ∧ owns m' [1; 3]%N.
Proof.
  destruct (dec_safe demo_mem 4%N [1; 3]%N) as (m' & Hrun & _ & Ho & _).
  - apply ownsb_sound. vm_compute. reflexivity.
  - exists m'. split; [exact Hrun|exact Ho].
Defined.

(** What dropping the last reference gives back.  An object whose count is
    one is gone after [dec], except a rational literal and a [CExpr] without
    kids, for which the store does not change at all. *)
Theorem dec_last_reclaims m e n own :
  owns m (e :: own) → heap m !! e = Some n → refcnt n = 1%Z →
  ∃ m', dec e m = Ok ((), m') ∧
    if reclaimable (body n) then heap m' !! e = None else m' = m.
Proof.
  intros Ho He Hr. destruct (dec_last m e n own Ho He Hr) as (m' & Hrun & Hs).
  exists m'. split; [done|]. unfold without in Hs.
  destruct (reclaimable (body n)) eqn:Erc.
  - destruct (heap m' !! e) as [n'|] eqn:E; [|done].
    destruct (Hs e n' E) as (? & ? & _). by simplify_map_eq.
  - apply (dec_unreclaimable m e n) in Erc; [congruence|done..|].
    pose proof (owns_covers _ _ Ho) as Hc. split; [|by eapply cov_term].
    by destruct (covers_own _ _ _ Hc) as (? & _ & ? & _).
Qed.

Lemma dec_last_reclaims_witness : ∃ m', dec 4%N demo_mem = Ok ((), m') ∧ heap m' !! 4%N = None.
Proof.
  destruct (dec_last_reclaims demo_mem 4%N (Node 1 false (PSymS "d" 1)) [1; 3]%N)
    as (m' & Hrun & Hgone).
  - apply ownsb_sound. vm_compute. reflexivity.
  - reflexivity.
  - reflexivity.
  - exists m'. split; [exact Hrun|exact Hgone].
Defined.

(** Extending an application (the loop over the arguments in [check], and
    [read_case]) neither leaks nor frees too early.  From a reference to [e1] and one to
    [e2] it makes a reference to an application of [e1] to [e2]; the copied kids
    of a [CExpr] get references of their own and the old application is
    dropped.  The counts of the kids must be below their bound. *)
Theorem extend_app_safe m e1 e2 n1 own :
  owns m (e1 :: e2 :: own) → heap m !! e1 = Some n1 → room m (outs (body n1)) →
  ∃ r m' n, extend_app e1 e2 m = Ok (r, m') ∧ owns m' (r :: own) ∧
    heap m' !! r = Some n ∧ body n = PC APP (app_kids e1 (body n1) ++ [e2; null]).
Proof.
  intros Ho He1 Hr. destruct (decide (class_of (body n1) = CEXPR)) as [Hc|Hc].
  - replace (app_kids e1 (body n1)) with (outs (body n1)) by (by destruct (body n1)).
    by apply extend_app_cexpr.
  - replace (app_kids e1 (body n1)) with [e1] by (by destruct (body n1)).
    by eapply extend_app_leaf.
Qed.

Lemma extend_app_safe_witness : ∃ r m', extend_app 1%N 3%N demo_mem = Ok (r, m') ∧ owns m' [r; 4]%N.
Proof.
  destruct (extend_app_safe demo_mem 1%N 3%N (Node 2 false (PC APP [2; 3; 0]%N)) [4]%N)
    as (r & m' & n & Hrun & Ho & _).
  - apply ownsb_sound. vm_compute. reflexivity.
  - reflexivity.
  - intros a n. unfold demo_mem. simpl. intros Ha.
    repeat apply lookup_insert_Some in Ha as [[<- <-]|[_ Ha]]; try (vm_compute; discriminate).
    apply lookup_singleton_Some in Ha as [<- <-]. vm_compute. discriminate.
  - exists r, m'. split; [exact Hrun|exact Ho].
Defined.
