(* ===== verification/LexerSpec.v ===== *)
(** * What the reader reads

    [scan] and [split_id] are one-pass reference definitions of blank skipping
    and of identifiers; [non_ws] and [prefix_id] compute them, positions
    included, and always come to an end.  The one-character push-back buffer is
    transparent for characters of positive value only. *)

From Stdlib Require Import Ascii.
From stdpp Require Import base tactics list strings gmap numbers.
From S2P Require Import Prelude Lexer.

(** ** The characters to come *)

Definition first (s : string) : Ascii.ascii :=
  match s with EmptyString => EOFc | String c _ => c end.
Definition tail (s : string) : string :=
  match s with EmptyString => EmptyString | String _ s => s end.

(** The push-back buffer is empty or holds a character [our_getc] gives back. *)
Definition lex_ok (l : lex) : Prop := (0 ≤ char_val (our_getc_c l))%Z.

Definition rest (l : lex) : string :=
  if decide (our_getc_c l = NUL) then input l else String (our_getc_c l) (input l).

(** The position after a character. *)
Definition bump (c : Ascii.ascii) (pos : Z * Z) : Z * Z :=
  if decide (c = NL) then (pos.1 + 1, 1)%Z
  else if decide (c = EOFc) then pos else (pos.1, pos.2 + 1)%Z.

(** A state with an empty buffer. *)
Definition at_pos (s : string) (pos : Z * Z) (op : Z) : lex := Lex s NUL pos.1 pos.2 op.
Definition pos_of (l : lex) : Z * Z := (linenum l, colnum l).

(** Blanks: white space, and comments from a semicolon to the end of the line;
    [cm] says that a comment is open. *)
Fixpoint scan (cm : bool) (s : string) (pos : Z * Z) : Ascii.ascii * string * (Z * Z) :=
  match s with
  | EmptyString => (EOFc, EmptyString, pos)
  | String c s =>
      let pos := bump c pos in
      if cm then scan (negb (bool_decide (c = NL ∨ c = EOFc))) s pos
      else if isspace c then scan false s pos
      else if decide (c = ";"%char) then scan true s pos
      else (c, s, pos)
  end.

(** The longest prefix without a delimiter. *)
Fixpoint split_id (s : string) : string * string :=
  match s with
  | EmptyString => (EmptyString, EmptyString)
  | String c s' => if ends_id c then (EmptyString, s)
                   else let '(id, r) := split_id s' in (String c id, r)
  end.

(** ** One character *)

Lemma char_val_NUL c : char_val c = 0%Z ↔ c = NUL.
Proof. split; [|by intros ->]. intros H. by apply char_val_inj. Qed.

Lemma getc_run l :
  lex_ok l →
  our_getc l = Ok (first (rest l), at_pos (tail (rest l)) (bump (first (rest l)) (pos_of l)) (open_parens l)).
Proof.
  destruct l as [s p ln cn op]. unfold lex_ok, our_getc, rest, at_pos, pos_of, bump. simpl. intros Hok.
  rewrite (bind_run _ _ _ (Lex s p ln cn op) (Lex s p ln cn op)) by done. simpl.
  case_decide as Hp; simpl.
  - subst p. destruct s as [|c s]; [done|]. simpl. unfold mbind, M_bind, fgetc. simpl.
    by repeat case_decide.
  - destruct (Z.ltb_spec 0 (char_val p)) as [Hlt|Hle].
    + unfold mbind, M_bind, set_pushback, modify. simpl. by repeat case_decide.
    + destruct Hp. apply char_val_NUL. lia.
Qed.

Lemma getc_at s pos op :
  our_getc (at_pos s pos op) = Ok (first s, at_pos (tail s) (bump (first s) pos) op).
Proof. destruct pos. by rewrite getc_run. Qed.

(** ** Blanks *)

Fixpoint scan_ws (s : string) (pos : Z * Z) : Ascii.ascii * string * (Z * Z) :=
  match s with
  | EmptyString => (EOFc, EmptyString, pos)
  | String c s => if isspace c then scan_ws s (bump c pos) else (c, s, bump c pos)
  end.

Fixpoint scan_line (s : string) (pos : Z * Z) : string * (Z * Z) :=
  match s with
  | EmptyString => (EmptyString, pos)
  | String c s => if decide (c = NL ∨ c = EOFc) then (s, bump c pos) else scan_line s (bump c pos)
  end.

Lemma skip_ws_run s fuel pos op :
  String.length s < fuel →
  skip_ws fuel (at_pos s pos op) = let '(c, s', pos') := scan_ws s pos in Ok (c, at_pos s' pos' op).
Proof.
  revert fuel pos. induction s as [|c s IH]; intros [|fuel] pos Hf; simpl in Hf; try lia; simpl.
  - by rewrite (bind_run _ _ _ _ _ (getc_at _ _ _)).
  - rewrite (bind_run _ _ _ _ _ (getc_at _ _ _)). simpl.
    destruct (isspace c); [apply IH; lia|done].
Qed.

Lemma skip_line_run s fuel pos op :
  String.length s < fuel →
  skip_line fuel (at_pos s pos op) = let '(s', pos') := scan_line s pos in Ok ((), at_pos s' pos' op).
Proof.
  revert fuel pos. induction s as [|c s IH]; intros [|fuel] pos Hf; simpl in Hf; try lia; simpl.
  - by rewrite (bind_run _ _ _ _ _ (getc_at _ _ _)).
  - rewrite (bind_run _ _ _ _ _ (getc_at _ _ _)). simpl.
    case_decide; [done|apply IH; lia].
Qed.

Lemma scan_ws_length s pos : 
  let '(c, s', _) := scan_ws s pos in
  String.length s' ≤ String.length s ∧ (c ≠ EOFc → String.length s' < String.length s).
Proof.
  revert pos. induction s as [|c s IH]; intros pos; simpl; [done|].
  destruct (isspace c); [|simpl; lia].
  specialize (IH (bump c pos)). destruct (scan_ws s (bump c pos)) as [[c' s'] p'].
  destruct IH as [? IH]. split; [lia|]. intros ?%IH. lia.
Qed.

Lemma scan_line_length s pos : String.length (scan_line s pos).1 ≤ String.length s.
Proof.
  revert pos. induction s as [|c s IH]; intros pos; simpl; [done|].
  case_decide; simpl; [lia|]. specialize (IH (bump c pos)). lia.
Qed.

Lemma scan_comment s pos :
  scan true s pos = let '(s', pos') := scan_line s pos in scan false s' pos'.
Proof.
  revert pos. induction s as [|c s IH]; intros pos; simpl; [done|].
  case_decide as H; [by rewrite bool_decide_true|]. rewrite bool_decide_false by done. apply IH.
Qed.

Lemma scan_unfold s pos :
  scan false s pos =
    let '(c, s', pos') := scan_ws s pos in
    if decide (c = ";"%char) then let '(s'', pos'') := scan_line s' pos' in scan false s'' pos''
    else (c, s', pos').
Proof.
  revert pos. induction s as [|c s IH]; intros pos; simpl; [done|].
  destruct (isspace c); [apply IH|]. case_decide; [apply scan_comment|done].
Qed.

Lemma rest_at s pos op : rest (at_pos s pos op) = s.
Proof. done. Qed.

(** The buffer only changes where the first character comes from. *)
Lemma getc_rest l :
  lex_ok l → our_getc l = our_getc (at_pos (rest l) (pos_of l) (open_parens l)).
Proof. intros Hok. by rewrite getc_run, getc_at. Qed.

Lemma rest_length l : String.length (rest l) < lex_fuel l.
Proof. unfold rest, lex_fuel. case_decide; simpl; lia. Qed.

Lemma skip_ws_rest l fuel :
  lex_ok l → String.length (rest l) < fuel →
  skip_ws fuel l = let '(c, s', pos') := scan_ws (rest l) (pos_of l) in
                   Ok (c, at_pos s' pos' (open_parens l)).
Proof.
  intros Hok Hf. rewrite <-(skip_ws_run _ fuel) by done. destruct fuel as [|fuel]; [lia|].
  simpl. unfold mbind, M_bind. by rewrite getc_rest.
Qed.

Lemma non_ws_fuel_run fuel l :
  lex_ok l → String.length (rest l) < fuel →
  non_ws_fuel fuel l = let '(c, s', pos') := scan false (rest l) (pos_of l) in
                       Ok (c, at_pos s' pos' (open_parens l)).
Proof.
  revert l. induction fuel as [|fuel IH]; intros l Hok Hf; [lia|]. simpl.
  rewrite (bind_run _ _ _ l l) by done.
  pose proof (scan_ws_length (rest l) (pos_of l)) as Hlen. rewrite scan_unfold.
  pose proof (skip_ws_rest l (lex_fuel l) Hok (rest_length l)) as Hrun.
  destruct (scan_ws (rest l) (pos_of l)) as [[c s'] pos'].
  rewrite (bind_run _ _ _ _ _ Hrun). case_decide as Hc; [|done]. subst c.
  set (l1 := at_pos s' pos' (open_parens l)).
  rewrite (bind_run _ _ _ l1 l1) by done.
  pose proof (skip_line_run s' (lex_fuel l1) pos' (open_parens l)) as Hrun2.
  pose proof (scan_line_length s' pos') as Hlen2.
  destruct (scan_line s' pos') as [s'' pos'']. simpl in Hlen2.
  rewrite (bind_run _ _ _ _ _ (Hrun2 ltac:(unfold lex_fuel; simpl; lia))).
  destruct Hlen as [_ Hlt]. specialize (Hlt ltac:(done)).
  rewrite IH; rewrite ?rest_at; [by destruct pos''|done|lia].
Qed.

Lemma non_ws_run l :
  lex_ok l →
  non_ws l = let '(c, s, pos) := scan false (rest l) (pos_of l) in
             Ok (c, at_pos s pos (open_parens l)).
Proof.
  intros Hok. unfold non_ws. rewrite (bind_run _ _ _ l l) by done.
  by apply non_ws_fuel_run, rest_length.
Qed.

(** ** Identifiers *)

Lemma id_loop_run s steps i pos op :
  i ≤ IDBUF_LEN → IDBUF_LEN - i < steps →
  let '(id, r) := split_id s in
  if decide (String.length id + i ≤ IDBUF_LEN) then
    ∃ pos', id_loop steps i (first s) (at_pos (tail s) pos op) =
      Ok ((id, first r), at_pos (tail r) pos' op)
  else id_loop steps i (first s) (at_pos (tail s) pos op) = Err (Fatal "Identifier is too long").
Proof.
  revert s i pos. induction steps as [|steps IH]; intros s i pos Hi Hs; [lia|].
  destruct s as [|c s]; simpl.
  { rewrite decide_True by lia. eauto. }
  destruct (ends_id c) eqn:Hc; simpl; [rewrite decide_True by lia; eauto|].
  destruct (split_id s) as [id r] eqn:E. simpl.
  destruct (decide (i = IDBUF_LEN)) as [Hmax|Hmax]; [by rewrite decide_False by lia|].
  rewrite (bind_run _ _ _ _ _ (getc_at _ _ _)).
  specialize (IH s (S i) (bump (first s) pos) ltac:(lia) ltac:(lia)). rewrite E in IH.
  destruct (decide (String.length id + S i ≤ IDBUF_LEN)) as [Hle|Hle].
  - rewrite decide_True by lia. destruct IH as [pos' Hrun]. exists pos'.
    by rewrite (bind_run _ _ _ _ _ Hrun).
  - rewrite decide_False by lia. by rewrite (bind_err _ _ _ _ IH).
Qed.

(** The position after a push-back: the column of the line before is unknown. *)
Definition unbump (c : Ascii.ascii) (pos : Z * Z) : Z * Z :=
  if decide (c = NL) then (pos.1 - 1, -1)%Z else (pos.1, pos.2 - 1)%Z.

Lemma ungetc_run c s pos op :
  our_ungetc c (at_pos s pos op) = Ok ((), Lex s c (unbump c pos).1 (unbump c pos).2 op).
Proof.
  destruct pos as [ln cn]. unfold our_ungetc, at_pos, unbump.
  rewrite (bind_run _ _ _ (Lex s NUL ln cn op) (Lex s NUL ln cn op)) by done.
  simpl. by case_decide.
Qed.

Lemma getc_pushed c s ln cn op :
  (0 < char_val c)%Z → our_getc (Lex s c ln cn op) = Ok (c, at_pos s (bump c (ln, cn)) op).
Proof.
  intros Hc. rewrite getc_run by (unfold lex_ok; simpl; lia). unfold rest. simpl.
  rewrite decide_False; [done|]. by intros ->.
Qed.

Lemma bump_unbump c pos : c ≠ EOFc → bump c (unbump c (bump c pos)) = bump c pos.
Proof.
  intros Hc. destruct pos. unfold bump, unbump.
  repeat case_decide; simplify_eq; f_equal; simpl; lia.
Qed.

(** ** Properties *)

(** [non_ws] always returns, and what it returns is the first character
    outside white space and comments (or the end of the file), with the line and
    the column counted over every character it passed. *)
Theorem non_ws_scans l :
  lex_ok l →
  non_ws l = let '(c, s, pos) := scan false (rest l) (pos_of l) in
             Ok (c, at_pos s pos (open_parens l)).
Proof. apply non_ws_run. Qed.

Lemma non_ws_scans_witness :
  non_ws (Lex (" ;a" +:+ String NL " x") NUL 1 1 0) = Ok ("x"%char, Lex EmptyString NUL 2 3 0).
Proof. rewrite non_ws_scans; [reflexivity|vm_compute; discriminate]. Defined.

(** [prefix_id] reads the longest run of characters up to white space, a
    parenthesis or the end of the file, and leaves the character that ended it in
    the push-back buffer.  It accepts exactly the names of at most 2047
    characters, so that the terminating 0 is always inside [idbuf]; longer ones
    are an error. *)
Theorem prefix_id_reads l :
  lex_ok l →
  let '(c, s, pos) := scan false (rest l) (pos_of l) in
  let '(id, r) := split_id (String c s) in
  if decide (String.length id < IDBUF_LEN) then
    ∃ pos', prefix_id l = Ok (c_string id, Lex (tail r) (first r) pos'.1 pos'.2 (open_parens l))
  else prefix_id l = Err (Fatal "Identifier is too long").
Proof.
  intros Hok. pose proof (non_ws_run l Hok) as Hrun.
  destruct (scan false (rest l) (pos_of l)) as [[c s] pos].
  pose proof (id_loop_run (String c s) (S (S IDBUF_LEN)) 1 pos (open_parens l)) as Hid.
  specialize (Hid ltac:(unfold IDBUF_LEN; lia) ltac:(lia)).
  destruct (split_id (String c s)) as [id r] eqn:Esp. cbn [first tail] in Hid.
  unfold prefix_id. rewrite (bind_run _ _ _ _ _ Hrun).
  destruct (decide (String.length id < IDBUF_LEN)) as [Hlt|Hge].
  - rewrite decide_True in Hid by lia. destruct Hid as [pos1 Hid].
    rewrite (bind_run _ _ _ _ _ Hid). exists (unbump (first r) pos1).
    by rewrite (bind_run _ _ _ _ _ (ungetc_run _ _ _ _)).
  - rewrite decide_False in Hid by lia. by rewrite (bind_err _ _ _ _ Hid).
Qed.

Lemma prefix_id_reads_witness :
  ∃ pos', prefix_id (Lex "(f a)" NUL 1 1 0) = Ok (EmptyString, Lex "f a)" "("%char pos'.1 pos'.2 0).
Proof.
  assert (H : lex_ok (Lex "(f a)" NUL 1 1 0)) by (vm_compute; discriminate).
  exact (prefix_id_reads _ H).
Defined.

(** Pushing back the character just read and reading again changes nothing,
    for characters of positive value; line and column included. *)
Theorem pushback_roundtrip l c l1 :
  lex_ok l → our_getc l = Ok (c, l1) → (0 < char_val c)%Z →
  (our_ungetc c;; our_getc) l1 = Ok (c, l1).
Proof.
  intros Hok Hget Hc. rewrite getc_run in Hget by done. injection Hget as <- <-.
  assert (Hne : first (rest l) ≠ EOFc) by (intros E; by rewrite E in Hc).
  rewrite (bind_run _ _ _ _ _ (ungetc_run _ _ _ _)), getc_pushed by done.
  rewrite <-surjective_pairing. by rewrite bump_unbump.
Qed.

Lemma pushback_roundtrip_witness :
  (our_ungetc "a"%char;; our_getc) (Lex "b" NUL 1 2 0) = Ok ("a"%char, Lex "b" NUL 1 2 0).
Proof.
  apply (pushback_roundtrip (Lex "ab" NUL 1 1 0)); [vm_compute; discriminate|reflexivity|reflexivity].
Defined.

(** A character of negative value (a byte of 0x80 or more, or the end of the
    file) is lost when it is pushed back: the next read gives the character after
    it, the buffer stays full, and the next push-back, of any character, ends the
    program with an internal error. *)
Theorem pushback_loses_negative c s pos op :
  (char_val c < 0)%Z →
  ∃ l1 l2, our_ungetc c (at_pos s pos op) = Ok ((), l1) ∧ our_getc l1 = Ok (first s, l2) ∧
    input l2 = tail s ∧
    ∀ c2, our_ungetc c2 l2 = Err (Fatal "Internal error: our_ungetc buffer full").
Proof.
  intros Hc. pose proof (ungetc_run c s pos op) as Hu. destruct (unbump c pos) as [ln cn].
  assert (Hn : c ≠ NUL) by (by intros ->).
  assert (Hb : (0 <? char_val c)%Z = false) by (apply Z.ltb_ge; lia).
  exists (Lex s c ln cn op). eexists (Lex (tail s) c _ _ op). split_and!; [done| |done|].
  - unfold our_getc. rewrite (bind_run _ _ _ (Lex s c ln cn op) (Lex s c ln cn op)) by done.
    cbn [our_getc_c linenum colnum]. rewrite Hb.
    rewrite (bind_run _ _ _ (first s) (Lex (tail s) c ln cn op)) by (by destruct s).
    instantiate (1 := if decide (first s = NL) then 1%Z else if decide (first s = EOFc) then cn else (cn + 1)%Z).
    instantiate (1 := if decide (first s = NL) then (ln + 1)%Z else ln).
    by repeat case_decide.
  - intros c2. unfold our_ungetc, mbind, M_bind, get_st. simpl. by rewrite decide_True.
Qed.

Lemma pushback_loses_negative_witness :
  ∃ l1 l2, our_ungetc EOFc (at_pos "ab" (1, 1)%Z 0) = Ok ((), l1) ∧ our_getc l1 = Ok ("a"%char, l2).
Proof.
  destruct (pushback_loses_negative EOFc "ab" (1, 1)%Z 0) as (l1 & l2 & H1 & H2 & _); [reflexivity|].
  exists l1, l2. split; [exact H1|exact H2].
Defined.
