(* ===== verification/Follow.v ===== *)
(** * Following definitions

    [followDefs] recurses along a chain of values.  A chain that ends passes
    each object at most once, so the bound the model gives the recursion is
    always enough; a chain that does not end is the only way to miss it. *)

From stdpp Require Import base tactics list strings gmap numbers.
From S2P Require Import Prelude Header Memory Expr.

(** The object a hole or symbol stands for directly. *)
Definition next (h : gmap N node) (e : ptr) : option ptr :=
  n ← h !! e;
  match body n with
  | PHole v | PSym v | PSymS _ v => if decide (v = null) then None else Some v
  | _ => None
  end.

(** [leads h e k a]: the chain from [e] ends at [a] after [k] steps. *)
Inductive leads (h : gmap N node) : ptr → nat → ptr → Prop :=
  | leads_stop e : e ≠ null → is_Some (h !! e) → next h e = None → leads h e 0 e
  | leads_step e v k a : e ≠ null → next h e = Some v → leads h v k a → leads h e (S k) a.

Lemma leads_det h e k a k' a' : leads h e k a → leads h e k' a' → k = k' ∧ a = a'.
Proof.
  intros H. revert k' a'. induction H as [e|e v k a ? Hn H IH]; intros k' a' H';
    inversion H'; subst; try congruence; [done|].
  assert (v0 = v) as -> by congruence. by edestruct IH as [-> ->].
Qed.

Lemma leads_live h e k a : leads h e k a → e ≠ null ∧ is_Some (h !! e).
Proof. destruct 1 as [|e v k a ? Hn]; [done|]. unfold next in Hn. by destruct (h !! e). Qed.

(** The objects of a chain: [e] at distance [k] from the end, and so on down. *)
Lemma leads_path h e k a :
  leads h e k a → ∃ l, length l = S k ∧ NoDup l ∧
    ∀ x, x ∈ l → ∃ j, j ≤ k ∧ leads h x j a.
Proof.
  induction 1 as [e ? ? ?|e v k a ? Hn H IH].
  - exists [e]. split_and!; [done|apply NoDup_singleton|].
    intros x ->%list_elem_of_singleton. exists 0. split; [done|by constructor].
  - destruct IH as (l & Hl & Hnd & Hx). exists (e :: l). split_and!; [simpl; lia| |].
    + constructor; [|done]. intros (j & Hj & Hlead)%Hx.
      destruct (leads_det _ _ _ _ (S k) a Hlead) as [-> _]; [by econstructor|lia].
    + intros x [->|Hxl]%elem_of_cons; [exists (S k); split; [done|by econstructor]|].
      destruct (Hx x Hxl) as (j & ? & ?). exists j. split; [lia|done].
Qed.

Lemma leads_bound h e k a : leads h e k a → k < size h.
Proof.
  intros H. destruct (leads_path _ _ _ _ H) as (l & Hl & Hnd & Hx).
  assert (list_to_set l ⊆ dom h) as Hsub.
  { intros x (j & _ & Hj)%elem_of_list_to_set%Hx. apply elem_of_dom. by apply leads_live in Hj as [_ ?]. }
  apply subseteq_size in Hsub. rewrite size_list_to_set, Hl, size_dom in Hsub by done. lia.
Qed.

Lemma follow_defs_step n e m nd :
  e ≠ null → heap m !! e = Some nd →
  follow_defs (S n) e m =
    match next (heap m) e with Some v => follow_defs n v m | None => Ok (e, m) end.
Proof.
  intros Hne He. simpl. unfold load, mbind at 1, M_bind. rewrite decide_False, He by done.
  unfold next. rewrite He. simpl. destruct (body nd); try done; by case_decide.
Qed.

Lemma leads_follow n m e k a : leads (heap m) e k a → k < n → follow_defs n e m = Ok (a, m).
Proof.
  intros H. revert n. induction H as [e Hne [nd He] Hn|e v k a Hne Hn H IH]; intros n Hlt;
    (destruct n as [|n]; [lia|]).
  - by rewrite (follow_defs_step n e m nd), Hn.
  - assert (is_Some (heap m !! e)) as [nd He] by (unfold next in Hn; by destruct (heap m !! e)).
    rewrite (follow_defs_step n e m nd), Hn by done. apply IH. lia.
Qed.

Lemma followDefs_leads m e k a : leads (heap m) e k a → followDefs e m = Ok (a, m).
Proof.
  intros H. unfold followDefs. rewrite (bind_run _ _ _ m m) by done.
  apply (leads_follow _ _ _ k); [done|]. apply leads_bound in H. lia.
Qed.

Lemma follow_defs_leads n m e a m' :
  follow_defs n e m = Ok (a, m') → m' = m ∧ ∃ k, leads (heap m) e k a.
Proof.
  revert e. induction n as [|n IH]; intros e H; [done|].
  assert (e ≠ null ∧ is_Some (heap m !! e)) as [Hne [nd He]].
  { simpl in H. unfold load, mbind, M_bind in H. case_decide; [done|].
    by destruct (heap m !! e). }
  rewrite (follow_defs_step n e m nd) in H by done.
  destruct (next (heap m) e) as [v|] eqn:Hn.
  - destruct (IH v H) as [-> [k Hk]]. split; [done|]. exists (S k). by econstructor.
  - simplify_eq. split; [done|]. exists 0. constructor; eauto.
Qed.

(** C35: [followDefs] ends whenever the chain of values does, without changing
    the store, at an object that stands for itself: an unfilled hole, a symbol
    without a value or a term.  Applying it again gives the same object. *)
Theorem followDefs_spec m e a m' n :
  follow_defs n e m = Ok (a, m') →
  followDefs e m = Ok (a, m) ∧ followDefs a m = Ok (a, m) ∧ next (heap m) a = None.
Proof.
  intros [-> [k Hk]]%follow_defs_leads. split; [by eapply followDefs_leads|].
  assert (Hstop : leads (heap m) a 0 a).
  { clear n. induction Hk; [by constructor|done]. }
  split; [by eapply followDefs_leads|]. by inversion Hstop.
Qed.

Definition chain_mem : mem :=
  Mem {[1%N := Node 1 false (PSymS "x" 2); 2%N := Node 1 false (PHole 3);
        3%N := Node 1 false (PInt 7)]} 4 ∅ EmptyString false false 0 scc_none.

Lemma followDefs_spec_witness :
  followDefs 1%N chain_mem = Ok (3%N, chain_mem) ∧ followDefs 3%N chain_mem = Ok (3%N, chain_mem) ∧
  next (heap chain_mem) 3%N = None.
Proof. apply (followDefs_spec chain_mem 1%N 3%N chain_mem 5). reflexivity. Defined.
