(* ===== verification/Alpha.v ===== *)
(** * What [defeq] decides

    [read] turns an expression in the store into a tree without pointers:
    definitions and filled holes are unfolded and bound variables become indices,
    so that two trees are equal exactly when the expressions are equal up to
    the names of bound variables.  It has no tree for unfilled holes, redexes,
    side conditions, partial applications that were given a name and stand at
    the head of an application, and variables bound twice.  On two expressions
    with trees that share no binder [defeq] decides equality of the trees, and
    leaves the store as it found it although it uses the values of bound
    variables to pair them. *)

From Stdlib Require Import QArith_base Qreduction.
From stdpp Require Import base tactics list strings gmap numbers.
From S2P Require Import Prelude Header Memory Expr Follow.

(** ** Trees *)

Inductive tm :=
  | TBound (i : nat)
  | TFree (a : ptr)
  | TInt (z : Z)
  | TRat (q : Q)
  | TC (o : op) (ts : list tm).

(** An application whose head is a [TC] may be a redex, or a partial application
    that was given a name. *)
Definition is_head (t : tm) : bool := match t with TC _ _ => false | _ => true end.

(** Does a tree contain a literal? *)
Fixpoint has_lit (t : tm) : bool :=
  match t with
  | TInt _ | TRat _ => true
  | TC _ ts => existsb has_lit ts
  | _ => false
  end.

Fixpoint index (x : ptr) (ρ : list ptr) : option nat :=
  match ρ with
  | [] => None
  | y :: ρ => if decide (x = y) then Some 0 else S <$> index x ρ
  end.

Definition is_sym (b : payload) : bool := match b with PSym _ | PSymS _ _ => true | _ => false end.

(** A variable that may be bound here: in [B], not bound yet, without a value. *)
Definition binder_ok (h : gmap N node) (B ρ : list ptr) (x : ptr) : bool :=
  bool_decide (x ∈ B ∧ (x ∉ ρ) ∧ x ≠ null) &&
  (if (h !! x) is Some n then is_sym (body n) && bool_decide (next h x = None) else false).

(** [read fuel h B X ρ e]: the tree of [e] under the bound variables [ρ].  The
    variables it binds are in [B], and it meets no object of [X]. *)
Fixpoint read (fuel : nat) (h : gmap N node) (B X ρ : list ptr) (e : ptr) : option tm :=
  match fuel with
  | 0 => None
  | S fuel =>
      n ← h !! e;
      if bool_decide (e = null ∨ e ∈ X) then None else
      match body n with
      | PSym v | PSymS _ v =>
          if decide (v = null) then
            Some (if index e ρ is Some i then TBound i else TFree e)
          else if bool_decide (e ∈ ρ) then None else read fuel h B X ρ v
      | PHole v =>
          if decide (v = null) then None
          else if bool_decide (e ∈ ρ) then None else read fuel h B X ρ v
      | PInt z => Some (TInt z)
      | PRat q => Some (TRat (Qred q))
      | PC PI [x; d; b; 0%N] =>
          if binder_ok h B ρ x && bool_decide (x ∉ X) then
            td ← read fuel h B X ρ d;
            tb ← read fuel h B X (x :: ρ) b;
            Some (TC PI [td; tb])
          else None
      | PC LAM [x; b; 0%N] =>
          if binder_ok h B ρ x && bool_decide (x ∉ X) then
            tb ← read fuel h B X (x :: ρ) b;
            Some (TC LAM [tb])
          else None
      | PC APP ks =>
          l ← upto_null ks;
          if bool_decide (ks = l ++ [null]) then
            ts ← mapM (read fuel h B X ρ) l;
            if ts is t0 :: _ then if is_head t0 then Some (TC APP ts) else None else None
          else None
      | PC TYPE _ => Some (TC TYPE [])
      | PC KIND _ => Some (TC KIND [])
      | PC MPZ _ => Some (TC MPZ [])
      | PC MPQ _ => Some (TFree e)
      | _ => None
      end
  end.

(** ** Variables paired by their values *)

Definition with_val (v : ptr) (n : node) : node :=
  Node (refcnt n) (exmark n)
    (match body n with PSym _ => PSym v | PSymS s _ => PSymS s v | b => b end).

Definition set_val (h : gmap N node) (x v : ptr) : gmap N node :=
  if h !! x is Some n then <[x := with_val v n]> h else h.

(** The store while [defeq] is under binders: each bound variable of the left
    side has that of the right side as its value. *)
Fixpoint paired (σ : list (ptr * ptr)) (h : gmap N node) : gmap N node :=
  match σ with
  | [] => h
  | (x, y) :: σ => set_val (paired σ h) x y
  end.

Lemma index_Some x ρ i : index x ρ = Some i → ρ !! i = Some x.
Proof.
  revert i. induction ρ as [|y ρ IH]; intros i; simpl; [done|].
  case_decide as E; [intros [= <-]; by subst|]. destruct (index x ρ); intros [= <-]. simpl. auto.
Qed.

Lemma index_None x ρ : index x ρ = None ↔ x ∉ ρ.
Proof.
  induction ρ as [|y ρ IH]; simpl; [split; [intros _; apply not_elem_of_nil|done]|].
  rewrite not_elem_of_cons. case_decide; [split; [done|tauto]|]. rewrite fmap_None, IH. tauto.
Qed.

Lemma index_lookup x ρ i : NoDup ρ → ρ !! i = Some x → index x ρ = Some i.
Proof.
  intros Hnd Hi. destruct (index x ρ) as [j|] eqn:Hj.
  - apply index_Some in Hj. by rewrite (NoDup_lookup _ _ _ _ Hnd Hi Hj).
  - apply index_None in Hj. destruct Hj. by apply list_elem_of_lookup_2 in Hi.
Qed.

Lemma set_val_ne h x v a : a ≠ x → set_val h x v !! a = h !! a.
Proof. intros. unfold set_val. destruct (h !! x); [by rewrite lookup_insert_ne|done]. Qed.

Lemma set_val_eq h x v : set_val h x v !! x = with_val v <$> h !! x.
Proof. unfold set_val. destruct (h !! x) eqn:E; [by rewrite lookup_insert_eq|by rewrite E]. Qed.

Lemma set_val_dom h x v a : is_Some (set_val h x v !! a) ↔ is_Some (h !! a).
Proof.
  destruct (decide (a = x)) as [->|]; [by rewrite set_val_eq, fmap_is_Some|by rewrite set_val_ne].
Qed.

(** Giving a variable without a value its value back. *)
Lemma set_val_restore h x v n :
  h !! x = Some n → with_val null n = n → set_val (set_val h x v) x null = h.
Proof.
  intros Hx Hn. apply map_eq. intros a. destruct (decide (a = x)) as [->|].
  - rewrite !set_val_eq, Hx. simpl. rewrite <-Hn at 2. f_equal. unfold with_val. simpl.
    by destruct (body n).
  - by rewrite !set_val_ne.
Qed.

Lemma paired_notin σ h a : a ∉ σ.*1 → paired σ h !! a = h !! a.
Proof.
  induction σ as [|[x y] σ IH]; simpl; [done|]. rewrite not_elem_of_cons. intros [? ?].
  rewrite set_val_ne by done. auto.
Qed.

Lemma paired_in σ h a y : NoDup σ.*1 → (a, y) ∈ σ → paired σ h !! a = with_val y <$> h !! a.
Proof.
  induction σ as [|[x z] σ IH]; simpl; [by intros _ ?%not_elem_of_nil|].
  intros HND [[= -> ->]|Hin]%elem_of_cons; inversion HND as [|? ? Hx Hnd]; subst.
  - by rewrite set_val_eq, paired_notin.
  - rewrite set_val_ne; [auto|]. intros ->. apply Hx. by apply (list_elem_of_fmap_2 fst) in Hin.
Qed.

(** ** The cases of [read] *)

Inductive view (fuel : nat) (h : gmap N node) (B X ρ : list ptr) (e : ptr) (n : node) : tm → Prop :=
  | V_var : is_sym (body n) = true → next h e = None →
      view fuel h B X ρ e n (if index e ρ is Some i then TBound i else TFree e)
  | V_def v t : next h e = Some v → e ∉ ρ → read fuel h B X ρ v = Some t → view fuel h B X ρ e n t
  | V_int z : body n = PInt z → view fuel h B X ρ e n (TInt z)
  | V_rat q : body n = PRat q → view fuel h B X ρ e n (TRat (Qred q))
  | V_const o ks : body n = PC o ks → o = TYPE ∨ o = KIND ∨ o = MPZ → view fuel h B X ρ e n (TC o [])
  | V_mpq ks : body n = PC MPQ ks → view fuel h B X ρ e n (TFree e)
  | V_pi x d b td tb : body n = PC PI [x; d; b; null] → binder_ok h B ρ x = true → x ∉ X →
      read fuel h B X ρ d = Some td → read fuel h B X (x :: ρ) b = Some tb →
      view fuel h B X ρ e n (TC PI [td; tb])
  | V_lam x b tb : body n = PC LAM [x; b; null] → binder_ok h B ρ x = true → x ∉ X →
      read fuel h B X (x :: ρ) b = Some tb → view fuel h B X ρ e n (TC LAM [tb])
  | V_app l t0 ts : body n = PC APP (l ++ [null]) → upto_null (l ++ [null]) = Some l →
      mapM (read fuel h B X ρ) l = Some (t0 :: ts) → is_head t0 = true →
      view fuel h B X ρ e n (TC APP (t0 :: ts)).

Lemma next_eq h e n :
  h !! e = Some n →
  next h e = match body n with
             | PHole v | PSym v | PSymS _ v => if decide (v = null) then None else Some v
             | _ => None
             end.
Proof. intros He. unfold next. by rewrite He. Qed.

Lemma read_view fuel h B X ρ e t :
  read fuel h B X ρ e = Some t →
  ∃ f n, fuel = S f ∧ h !! e = Some n ∧ e ≠ null ∧ (e ∉ X) ∧ view f h B X ρ e n t.
Proof.
  destruct fuel as [|f]; [done|]. simpl. destruct (h !! e) as [n|] eqn:He; [|done]. simpl.
  case_bool_decide as HX; [done|]. intros Hr. exists f, n.
  split_and!; [done..|tauto|tauto|]. pose proof (next_eq h e n He) as Hnext.
  destruct (body n) as [o ks|z|q|v|v|s v] eqn:Eb.
  - destruct o; try done; try (injection Hr as <-; by eapply V_const; eauto);
      try (injection Hr as <-; by eapply V_mpq).
    + destruct (upto_null ks) as [l|] eqn:Eu; [|done]. simpl in Hr.
      case_bool_decide as Ek; [|done]. destruct (mapM _ l) as [ts|] eqn:Em; [|done]. simpl in Hr.
      destruct ts as [|t0 ts]; [done|]. destruct (is_head t0) eqn:Eh; [|done]. injection Hr as <-.
      subst ks. by eapply V_app.
    + destruct ks as [|x [|d [|b [|[|?] [|? ?]]]]]; try done.
      destruct (binder_ok h B ρ x) eqn:Ebo; [|done]. simpl in Hr. case_bool_decide; [|done].
      destruct (read f h B X ρ d) as [td|] eqn:Ed; [|done]. simpl in Hr.
      destruct (read f h B X (x :: ρ) b) as [tb|] eqn:Er; [|done]. injection Hr as <-. by eapply V_pi.
    + destruct ks as [|x [|b [|[|?] [|? ?]]]]; try done.
      destruct (binder_ok h B ρ x) eqn:Ebo; [|done]. simpl in Hr. case_bool_decide; [|done].
      destruct (read f h B X (x :: ρ) b) as [tb|] eqn:Er; [|done]. injection Hr as <-. by eapply V_lam.
  - injection Hr as <-. by eapply V_int.
  - injection Hr as <-. by eapply V_rat.
  - case_decide; [done|]. case_bool_decide; [done|]. by eapply V_def.
  - case_decide; [injection Hr as <-; apply V_var; rewrite ?Eb; done|].
    case_bool_decide; [done|]. by eapply V_def.
  - case_decide; [injection Hr as <-; apply V_var; rewrite ?Eb; done|].
    case_bool_decide; [done|]. by eapply V_def.
Qed.

(** ** Runs of the primitives *)

Lemma load_run m e n : e ≠ null → heap m !! e = Some n → load e m = Ok (n, m).
Proof. intros Hne He. unfold load. by rewrite decide_False, He. Qed.

Lemma getop_run m e n : e ≠ null → heap m !! e = Some n → getop e m = Ok (op_of (body n), m).
Proof. intros Hne He. unfold getop. by rewrite (bind_run _ _ _ _ _ (load_run m e n Hne He)). Qed.

Lemma getclass_run m e n :
  e ≠ null → heap m !! e = Some n → getclass e m = Ok (class_of (body n), m).
Proof. intros Hne He. unfold getclass. by rewrite (bind_run _ _ _ _ _ (load_run m e n Hne He)). Qed.

Lemma kid_run m e n o ks i k :
  e ≠ null → heap m !! e = Some n → body n = PC o ks → ks !! i = Some k → kid e i m = Ok (k, m).
Proof.
  intros Hne He Eb Hk. unfold kid, kids_of.
  rewrite (bind_run _ _ _ ks m); [by rewrite Hk|].
  by rewrite (bind_run _ _ _ _ _ (load_run m e n Hne He)), Eb.
Qed.

Lemma sym_val_run m e n :
  e ≠ null → heap m !! e = Some n → is_sym (body n) = true →
  sym_val e m = Ok (default null (next (heap m) e), m).
Proof.
  intros Hne He Hs. unfold sym_val. rewrite (bind_run _ _ _ _ _ (load_run m e n Hne He)).
  rewrite (next_eq _ _ _ He). destruct (body n); try done; case_decide; by subst.
Qed.

Lemma set_sym_val_run m e n v :
  e ≠ null → heap m !! e = Some n → is_sym (body n) = true →
  set_sym_val e v m = Ok ((), set_heap (set_val (heap m) e v) m).
Proof.
  intros Hne He Hs. unfold set_sym_val, set_val, with_val.
  rewrite (bind_run _ _ _ _ _ (load_run m e n Hne He)), He. by destruct (body n).
Qed.

(** ** Applications in head normal form *)

(** The objects at which the head of a normal application can end. *)
Definition headish (b : payload) : bool :=
  match b with PC APP _ | PC LAM _ | PHole _ => false | _ => true end.

(** The head of [e] leads to such an object. *)
Definition head_normal (h : gmap N node) (e : ptr) : Prop :=
  ∃ k a n, leads h e k a ∧ h !! a = Some n ∧ headish (body n) = true.

Lemma get_head_run m e n k ks :
  e ≠ null → heap m !! e = Some n → body n = PC APP (k :: ks) → head_normal (heap m) k →
  ∃ a na, get_head e true m = Ok (a, m) ∧ a ≠ null ∧ heap m !! a = Some na ∧ headish (body na) = true.
Proof.
  intros Hne He Eb (j & a & na & Hl & Ha & Hh). exists a, na.
  assert (Hane : a ≠ null) by (clear -Hl; induction Hl; done).
  split_and!; [|done..]. unfold get_head. rewrite (bind_run _ _ _ m m) by done.
  assert (0 < size (heap m)) as Hsz.
  { apply Nat.neq_0_lt_0, map_size_ne_0_lookup. eauto. }
  destruct (size (heap m)) as [|sz]; [lia|]. cbn [descend].
  rewrite (bind_run _ _ _ _ _ (getop_run m e n Hne He)), Eb. simpl.
  rewrite (bind_run _ _ _ _ _ (kid_run m e n APP (k :: ks) 0 k Hne He Eb eq_refl)).
  rewrite (bind_run _ _ _ _ _ (followDefs_leads m k j a Hl)).
  rewrite (bind_run _ _ _ _ _ (getop_run m a na Hane Ha)).
  rewrite decide_False; [done|]. destruct (body na) as [[] ?| | | | |]; simpl in *; congruence.
Qed.

Lemma whr_normal fuel m e n k ks :
  e ≠ null → heap m !! e = Some n → body n = PC APP (k :: ks) → head_normal (heap m) k →
  whr fuel e m = Ok (e, m).
Proof.
  intros Hne He Eb Hn. destruct (get_head_run m e n k ks) as (a & na & Hg & Hane & Ha & Hh); [done..|].
  unfold whr. rewrite (bind_run _ _ _ _ _ Hg), (bind_run _ _ _ _ _ (getop_run m a na Hane Ha)).
  rewrite decide_False; [done|]. destruct (body na) as [[] ?| | | | |]; simpl in *; congruence.
Qed.

(** ** One round of [defeq] *)

Definition left_stuck (fuel : nat) (m : mem) (e1 : ptr) : Prop :=
  ∀ rec e2, defeq_left rec fuel e1 e2 m = Ok (None, m).
Definition right_stuck (fuel : nat) (m : mem) (e2 : ptr) : Prop :=
  ∀ rec e1, defeq_right rec fuel e1 e2 m = Ok (None, m).

(** Neither a hole, an ascription nor an application. *)
Definition plain (b : payload) : bool :=
  match b with PHole _ | PC ASCRIBE _ | PC APP _ => false | _ => true end.

Lemma plain_stuck fuel m e n :
  e ≠ null → heap m !! e = Some n → next (heap m) e = None → plain (body n) = true →
  left_stuck fuel m e ∧ right_stuck fuel m e.
Proof.
  intros Hne He Hn Hp. rewrite (next_eq _ _ _ He) in Hn.
  split; intros rec e'; unfold defeq_left, defeq_right;
    rewrite (bind_run _ _ _ _ _ (load_run m e n Hne He));
    destruct (body n) as [[] ?| | | | |]; try done; by case_decide.
Qed.

Lemma app_stuck fuel m e n k ks :
  e ≠ null → heap m !! e = Some n → body n = PC APP (k :: ks) → head_normal (heap m) k →
  left_stuck fuel m e ∧ right_stuck fuel m e.
Proof.
  intros Hne He Eb Hn. pose proof (whr_normal fuel m e n k ks Hne He Eb Hn) as Hw.
  destruct (get_head_run m e n k ks) as (a & na & Hg & Hane & Ha & Hh); [done..|].
  split; intros rec e'; unfold defeq_left, defeq_right;
    rewrite (bind_run _ _ _ _ _ (load_run m e n Hne He)), Eb;
    rewrite (bind_run _ _ _ _ _ Hw); rewrite decide_True by done; [|done].
  rewrite (bind_run _ _ _ _ _ Hg), (bind_run _ _ _ _ _ (getclass_run m a na Hane Ha)).
  rewrite decide_False; [done|]. by destruct (body na).
Qed.

Lemma defeq_left_val fuel m e1 e2 n2 v :
  e1 ≠ e2 → e1 ≠ null → next (heap m) e1 = Some v → e2 ≠ null → heap m !! e2 = Some n2 →
  defeq (S fuel) e1 e2 m = defeq fuel v e2 m.
Proof.
  intros Hne H1 Hn H2 He2. simpl. rewrite decide_False by done.
  destruct (heap m !! e1) as [n1|] eqn:He1; [|unfold next in Hn; by rewrite He1 in Hn].
  rewrite (bind_run _ _ _ _ _ (getop_run m e1 n1 H1 He1)).
  rewrite (bind_run _ _ _ _ _ (getop_run m e2 n2 H2 He2)).
  unfold mbind at 1, M_bind. unfold defeq_left. rewrite (bind_run _ _ _ _ _ (load_run m e1 n1 H1 He1)).
  rewrite (next_eq _ _ _ He1) in Hn.
  destruct (body n1) as [| | |v'|v'|s v']; try done; case_decide; simplify_eq;
    unfold fmap, M_fmap, mbind, M_bind; by destruct (defeq fuel v e2 m) as [[b m']|].
Qed.

Lemma defeq_right_val fuel m e1 e2 n1 v :
  e1 ≠ e2 → e1 ≠ null → heap m !! e1 = Some n1 → left_stuck fuel m e1 →
  e2 ≠ null → next (heap m) e2 = Some v →
  defeq (S fuel) e1 e2 m = defeq fuel e1 v m.
Proof.
  intros Hne H1 He1 Hst H2 Hn. simpl. rewrite decide_False by done.
  destruct (heap m !! e2) as [n2|] eqn:He2; [|unfold next in Hn; by rewrite He2 in Hn].
  rewrite (bind_run _ _ _ _ _ (getop_run m e1 n1 H1 He1)).
  rewrite (bind_run _ _ _ _ _ (getop_run m e2 n2 H2 He2)).
  rewrite (bind_run _ _ _ _ _ (Hst _ _)).
  unfold mbind at 1, M_bind. unfold defeq_right. rewrite (bind_run _ _ _ _ _ (load_run m e2 n2 H2 He2)).
  rewrite (next_eq _ _ _ He2) in Hn.
  destruct (body n2) as [| | |v'|v'|s v']; try done; case_decide; simplify_eq;
    unfold fmap, M_fmap, mbind, M_bind; by destruct (defeq fuel e1 v m) as [[b m']|].
Qed.

Lemma defeq_both_stuck fuel m e1 e2 n1 n2 :
  e1 ≠ e2 → e1 ≠ null → heap m !! e1 = Some n1 → left_stuck fuel m e1 →
  e2 ≠ null → heap m !! e2 = Some n2 → right_stuck fuel m e2 →
  defeq (S fuel) e1 e2 m =
    if decide (op_of (body n1) = op_of (body n2)) then defeq_same (defeq fuel) e1 e2 m
    else Ok (false, m).
Proof.
  intros Hne H1 He1 Hs1 H2 He2 Hs2. simpl. rewrite decide_False by done.
  rewrite (bind_run _ _ _ _ _ (getop_run m e1 n1 H1 He1)).
  rewrite (bind_run _ _ _ _ _ (getop_run m e2 n2 H2 He2)).
  rewrite (bind_run _ _ _ _ _ (Hs1 _ _)), (bind_run _ _ _ _ _ (Hs2 _ _)). by case_decide.
Qed.

Lemma Forall2_det {A B} (P Q : A → B → Prop) l k k' :
  Forall2 P l k → Forall2 Q l k' → (∀ x y y', P x y → Q x y' → y = y') → k = k'.
Proof.
  intros HP. revert k'. induction HP as [|x y l k Hxy _ IH]; intros k' HQ HPQ; inversion HQ; subst; [done|].
  f_equal; eauto.
Qed.

(** ** The comparison under binders *)

(** How a comparison ends: with the answer, or at a literal on the left that is
    compared with something that is not a literal of its class. *)
Definition verdict (r : result (bool * mem)) (m : mem) (t1 t2 : tm) : Prop :=
  (r = Ok (true, m) ∧ t1 = t2) ∨
  (t1 ≠ t2 ∧ (r = Ok (false, m) ∨ r = Err (Undefined BadCast) ∧ has_lit t1 = true)).

Section compare.
Context (h : gmap N node) (B1 B2 : list ptr).

(** The variables bound so far, with the store of that moment. *)
Record under (ρ1 ρ2 : list ptr) (m : mem) : Prop := Under {
  un_len : length ρ1 = length ρ2;
  un_nd1 : NoDup ρ1;
  un_nd2 : NoDup ρ2;
  un_1 : ∀ x, x ∈ ρ1 → x ∈ B1 ∧ (x ∉ B2) ∧ binder_ok h B1 [] x = true;
  un_2 : ∀ y, y ∈ ρ2 → y ∈ B2 ∧ (y ∉ B1) ∧ binder_ok h B2 [] y = true;
  un_heap : heap m = paired (zip ρ1 ρ2) h
}.

Lemma binder_ok_spec B ρ x :
  binder_ok h B ρ x = true →
  x ∈ B ∧ (x ∉ ρ) ∧ x ≠ null ∧ ∃ n, h !! x = Some n ∧ is_sym (body n) = true ∧ next h x = None.
Proof.
  unfold binder_ok. intros [H1%bool_decide_eq_true H2]%andb_true_iff.
  destruct (h !! x) as [n|]; [|done]. apply andb_true_iff in H2 as [? H2%bool_decide_eq_true].
  destruct H1 as (? & ? & ?). eauto 10.
Qed.

Lemma binder_ok_nil B ρ x : binder_ok h B ρ x = true → binder_ok h B [] x = true.
Proof.
  intros (? & _ & ? & n & Hx & Hs & Hn)%binder_ok_spec. unfold binder_ok. rewrite Hx, Hs, Hn.
  rewrite !bool_decide_true; [done..|]. split_and!; [done|apply not_elem_of_nil|done].
Qed.

Lemma under_fst ρ1 ρ2 m : under ρ1 ρ2 m → (zip ρ1 ρ2).*1 = ρ1.
Proof. intros H. apply fst_zip. by rewrite (un_len _ _ _ H). Qed.

Lemma under_notin ρ1 ρ2 m a : under ρ1 ρ2 m → a ∉ ρ1 → heap m !! a = h !! a.
Proof. intros H Ha. rewrite (un_heap _ _ _ H). apply paired_notin. by rewrite (under_fst _ _ _ H). Qed.

(** The right side sees the store as it was. *)
Lemma under_right ρ1 ρ2 m a : under ρ1 ρ2 m → a ∉ B1 → heap m !! a = h !! a.
Proof. intros H Ha. eapply under_notin; [done|]. intros Hin. by destruct (un_1 _ _ _ H a Hin). Qed.

Lemma next_same (H : gmap N node) a : H !! a = h !! a → next H a = next h a.
Proof. unfold next. by intros ->. Qed.

(** A bound variable of the left side stands for that of the right side. *)
Lemma under_left ρ1 ρ2 m x i :
  under ρ1 ρ2 m → ρ1 !! i = Some x →
  ∃ y n, ρ2 !! i = Some y ∧ x ≠ null ∧ next (heap m) x = Some y ∧ heap m !! x = Some n ∧
    y ≠ null ∧ (y ∉ ρ1).
Proof.
  intros Hu Hi. destruct (lookup_lt_is_Some_2 ρ2 i) as [y Hy].
  { rewrite <-(un_len _ _ _ Hu). by eapply lookup_lt_Some. }
  pose proof (un_1 _ _ _ Hu x (list_elem_of_lookup_2 _ _ _ Hi)) as (_ & _ & Hb).
  apply binder_ok_spec in Hb as (_ & _ & Hxn & n & Hx & Hs & Hn).
  pose proof (un_2 _ _ _ Hu y (list_elem_of_lookup_2 _ _ _ Hy)) as (_ & Hy1 & Hb).
  apply binder_ok_spec in Hb as (_ & _ & Hyn & _).
  assert (heap m !! x = Some (with_val y n)) as Hx'.
  { rewrite (un_heap _ _ _ Hu), (paired_in _ h x y), Hx; [done|by rewrite (under_fst _ _ _ Hu); apply (un_nd1 _ _ _ Hu)|].
    apply (list_elem_of_lookup_2 _ i), lookup_zip_Some. by split. }
  exists y, (with_val y n). split_and!; [done..| |done|done|].
  - rewrite (next_eq _ _ _ Hx'). unfold with_val. destruct (body n); try done; simpl; by rewrite decide_False.
  - intros Hin. by destruct (un_1 _ _ _ Hu y Hin).
Qed.

(** A variable of the right side has no value. *)
Lemma under_var ρ1 ρ2 m y :
  under ρ1 ρ2 m → y ∈ ρ2 →
  ∃ n, y ≠ null ∧ heap m !! y = Some n ∧ is_sym (body n) = true ∧ next (heap m) y = None.
Proof.
  intros Hu Hy. destruct (un_2 _ _ _ Hu y Hy) as (_ & Hy1 & (_ & _ & ? & n & ? & ? & ?)%binder_ok_spec).
  pose proof (under_right _ _ _ _ Hu Hy1) as E. exists n. rewrite E, (next_same _ _ E). done.
Qed.

(** ** Heads *)

(** [H] gives the objects [read] meets the fields they have in [h]; bound
    variables may stand for other variables. *)
Definition sees (H : gmap N node) (X ρ : list ptr) : Prop :=
  ∀ e, e ∉ X →
    (e ∉ ρ → H !! e = h !! e) ∧
    (e ∈ ρ → ∃ k a n, leads H e k a ∧ H !! a = Some n ∧ is_sym (body n) = true).

Lemma sees_left ρ1 ρ2 m : under ρ1 ρ2 m → sees (heap m) B2 ρ1.
Proof.
  intros Hu e _. split; [by eapply under_notin|]. intros [i Hi]%list_elem_of_lookup.
  destruct (under_left _ _ _ _ _ Hu Hi) as (y & n & Hy & ? & Hn & _ & _ & _).
  destruct (under_var _ _ _ y Hu (list_elem_of_lookup_2 _ _ _ Hy)) as (ny & ? & Hny & ? & ?).
  exists 1, y, ny. split_and!; [|done..]. econstructor; [done..|]. constructor; eauto.
Qed.

Lemma sees_right ρ1 ρ2 m : under ρ1 ρ2 m → sees (heap m) B1 ρ2.
Proof.
  intros Hu e He. split; [intros _; by eapply under_right|]. intros Hin.
  destruct (under_var _ _ _ e Hu Hin) as (n & ? & ? & ? & ?).
  exists 0, e, n. split_and!; [|done..]. constructor; eauto.
Qed.

Lemma read_head H B X ρ fuel e t :
  sees H X ρ → read fuel h B X ρ e = Some t → is_head t = true → head_normal H e.
Proof.
  intros Hs. revert e t. induction fuel as [|fuel IH]; intros e t Hr Ht; [done|].
  apply read_view in Hr as (f & n & [= <-] & He & Hne & HX & Hv). destruct (Hs e HX) as [Hout Hin].
  destruct (decide (e ∈ ρ)) as [Hρ|Hρ].
  { destruct (Hin Hρ) as (k & a & na & ? & ? & ?). exists k, a, na. split_and!; [done..|].
    by destruct (body na). }
  specialize (Hout Hρ). pose proof (next_same _ _ Hout) as Hn. rewrite He in Hout.
  assert (Hstop : next h e = None → headish (body n) = true → head_normal H e).
  { intros Hnone Hh. exists 0, e, n. split_and!; [|done..]. constructor; [done|eauto|congruence]. }
  destruct Hv as [Hsym Hnone|v t Hnx _ Hv|z Eb|q Eb|o ks Eb Ho|ks Eb|x d b td tb Eb _ _ _ _|x b tb Eb _ _ _|l t0 ts Eb _ _ _];
    try done.
  - apply Hstop; [done|]. by destruct (body n).
  - destruct (IH v t Hv Ht) as (k & a & na & ? & ? & ?). exists (S k), a, na.
    split_and!; [|done..]. apply (leads_step _ _ v); [done|congruence|done].
  - apply Hstop; [by rewrite (next_eq _ _ _ He), Eb|by rewrite Eb].
  - apply Hstop; [by rewrite (next_eq _ _ _ He), Eb|by rewrite Eb].
  - apply Hstop; [by rewrite (next_eq _ _ _ He), Eb|by rewrite Eb].
Qed.

(** ** Normal forms are stuck *)

(** What a normal form that is not a bound variable or a definition looks like
    to [defeq], on either side. *)
Lemma read_stuck H m B X ρ fuel F e n t :
  heap m = H → sees H X ρ → H !! e = Some n → e ≠ null → next H e = None →
  view fuel h B X ρ e n t → h !! e = Some n →
  left_stuck F m e ∧ right_stuck F m e.
Proof.
  intros EH Hs He Hne Hnx Hv Heh. subst H.
  destruct Hv as [Hsym Hnone|v t Hd Hρ Hv|z Eb|q Eb|o ks Eb Ho|ks Eb|x d b td tb Eb _ _ _ _|x b tb Eb _ _ _|l t0 ts Eb Eu Em Eh];
    try (apply (plain_stuck F m e n); [done..|by rewrite Eb]).
  - apply (plain_stuck F m e n); [done..|]. by destruct (body n).
  - exfalso. rewrite (next_eq _ _ _ Heh) in Hd. rewrite (next_eq _ _ _ He) in Hnx. congruence.
  - apply (plain_stuck F m e n); [done..|]. rewrite Eb. by destruct Ho as [->|[->| ->]].
  - apply mapM_Some in Em. inversion Em as [|k ? l' ? Hk]; subst.
    apply (app_stuck F m e n k (l' ++ [null])); [done..|]. eapply read_head; [exact Hs|exact Hk|done].
Qed.

(** The tree of an object without a value, by its fields. *)
Definition shape (ρ : list ptr) (e : ptr) (b : payload) (t : tm) : Prop :=
  match b with
  | PSym _ | PSymS _ _ => t = if index e ρ is Some i then TBound i else TFree e
  | PInt z => t = TInt z
  | PRat q => t = TRat (Qred q)
  | PC MPQ _ => t = TFree e
  | PC o _ => ∃ ts, t = TC o ts
  | PHole _ => False
  end.

Lemma view_shape fuel B X ρ e n t :
  h !! e = Some n → next h e = None → view fuel h B X ρ e n t → shape ρ e (body n) t.
Proof.
  intros He Hnx Hv. destruct Hv as [Hs _|v t Hd _ _|z Eb|q Eb|o ks Eb Ho|ks Eb|x d b td tb Eb _ _ _ _|x b tb Eb _ _ _|l t0 ts Eb _ _ _];
    try congruence; unfold shape; try (rewrite Eb; eauto).
  - by destruct (body n).
  - destruct Ho as [->|[->| ->]]; eauto.
Qed.

Lemma view_def fuel B X ρ e n t v :
  h !! e = Some n → next h e = Some v → view fuel h B X ρ e n t → read fuel h B X ρ v = Some t.
Proof.
  intros He Hnx Hv. destruct Hv as [Hs ?|v' t Hd _ ?|z Eb|q Eb|o ks Eb Ho|ks Eb|x d b td tb Eb _ _ _ _|x b tb Eb _ _ _|l t0 ts Eb _ _ _];
    try congruence; by rewrite (next_eq _ _ _ He), Eb in Hnx.
Qed.

(** Two readings of the same object: it contains no binder. *)
Lemma read_same f1 f2 ρ1 ρ2 e t1 t2 :
  (∀ x, x ∈ ρ1 → x ∈ B1) → (∀ y, y ∈ ρ2 → y ∈ B2) →
  read f1 h B1 B2 ρ1 e = Some t1 → read f2 h B2 B1 ρ2 e = Some t2 → t1 = t2.
Proof.
  intros H1 H2. revert f2 e t1 t2. induction f1 as [|f1 IH]; intros f2 e t1 t2 Hr1 Hr2; [done|].
  apply read_view in Hr1 as (f & n & [= <-] & He & _ & HX1 & Hv1).
  apply read_view in Hr2 as (f2' & n' & -> & He' & _ & HX2 & Hv2). rewrite He in He'. simplify_eq.
  assert (Hn1 : index e ρ1 = None) by (apply index_None; auto).
  assert (Hn2 : index e ρ2 = None) by (apply index_None; auto).
  destruct Hv1 as [S1 N1|v t N1 _ R1|z E1|q E1|o ks E1 O1|ks E1|x d b td tb E1 K1 X1 _ _|x b tb E1 K1 X1 _|l t0 ts E1 _ M1 _];
  destruct Hv2 as [S2 N2|v' t' N2 _ R2|z' E2|q' E2|o' ks' E2 O2|ks' E2|x' d' b' td' tb' E2 K2 X2 _ _|x' b' tb' E2 K2 X2 _|l' t0' ts' E2 _ M2 _].
  all: rewrite ?Hn1, ?Hn2; try congruence; rewrite ?(next_eq _ _ _ He) in *.
  all: try (rewrite E1 in *); try (rewrite E2 in *); try done; simplify_eq; try done.
  all: try (by destruct O1 as [?|[?|?]]); try (by destruct O2 as [?|[?|?]]).
  - by eapply IH.
  - by apply binder_ok_spec in K1 as [? _].
  - by apply binder_ok_spec in K1 as [? _].
  - apply mapM_Some in M1. apply mapM_Some in M2. f_equal. apply app_inj_tail in E2 as [-> _].
    eapply Forall2_det; [exact M1|exact M2|]. intros x y y'. apply IH.
Qed.

(** ** A bound variable of the left side *)

Lemma verdict_ne (r : result (bool * mem)) m t1 t2 : t1 ≠ t2 → r = Ok (false, m) → verdict r m t1 t2.
Proof. intros ? ->. right. auto. Qed.

(** After one step the variable [y] of the right side stands for it. *)
Lemma compare_var F f2 ρ1 ρ2 m i y e2 t2 :
  under ρ1 ρ2 m → ρ2 !! i = Some y → f2 ≤ F → read f2 h B2 B1 ρ2 e2 = Some t2 →
  verdict (defeq F y e2 m) m (TBound i) t2.
Proof.
  intros Hu Hi. revert f2 e2 t2. induction F as [|F IH]; intros f2 e2 t2 HF Hr.
  { by replace f2 with 0 in Hr by lia. }
  pose proof (list_elem_of_lookup_2 _ _ _ Hi) as Hin.
  destruct (under_var _ _ _ y Hu Hin) as (ny & Hyn & Hy & Hys & Hynx).
  apply read_view in Hr as (f & n & -> & He & Hne & HX & Hv).
  pose proof (under_right _ _ _ _ Hu HX) as Esame. pose proof (next_same _ _ Esame) as Enx.
  rewrite He in Esame. destruct (next h e2) as [v|] eqn:Hnx.
  { assert (y ≠ e2) by congruence.
    destruct (plain_stuck F m y ny) as [Hst _]; [done..|by destruct (body ny)|].
    rewrite (defeq_right_val F m y e2 ny v) by (done || congruence).
    apply (IH f); [lia|]. by eapply view_def. }
  pose proof (view_shape _ _ _ _ _ _ _ He Hnx Hv) as Hsh.
  destruct (decide (y = e2)) as [<-|Hye].
  { left. split; [simpl; by rewrite decide_True|]. rewrite Hy in Esame. simplify_eq.
    unfold shape in Hsh. rewrite (index_lookup _ _ _ (un_nd2 _ _ _ Hu) Hi) in Hsh.
    by destruct (body n). }
  destruct (plain_stuck F m y ny) as [Hst _]; [done..|by destruct (body ny)|].
  destruct (read_stuck (heap m) m B2 B1 ρ2 f F e2 n t2) as [_ Hst2];
    [done|by eapply sees_right|done..|congruence|done|done|].
  apply verdict_ne.
  - intros <-. unfold shape in Hsh.
    destruct (body n) as [[] ?| | | | |]; try done; try (by destruct Hsh);
      destruct (index e2 ρ2) as [j|] eqn:Ej; simplify_eq;
      apply index_Some in Ej; congruence.
  - rewrite (defeq_both_stuck F m y e2 ny n) by done. case_decide; [|done].
    unfold defeq_same. rewrite (bind_run _ _ _ _ _ (load_run m y ny Hyn Hy)).
    destruct (body ny); try done; by rewrite bool_decide_false.
Qed.

Lemma shape_op_ne ρ1 ρ2 e1 e2 b1 b2 t1 t2 :
  e1 ≠ e2 → index e1 ρ1 = None → shape ρ1 e1 b1 t1 → shape ρ2 e2 b2 t2 → op_of b1 ≠ op_of b2 → t1 ≠ t2.
Proof.
  intros Hne Hix H1 H2 Hop ->. unfold shape in *. rewrite Hix in H1.
  destruct b1 as [o1 ?| | | | |], b2 as [o2 ?| | | | |]; simpl in Hop; try done;
    destruct (index e2 ρ2); try destruct o1; try destruct o2;
    repeat match goal with H : ∃ _, _ |- _ => destruct H end; congruence.
Qed.

(** ** Recursive comparisons *)

Definition compares (F : nat) : Prop :=
  ∀ f1 f2 ρ1 ρ2 m e1 e2 t1 t2, f1 + f2 ≤ F → under ρ1 ρ2 m →
    read f1 h B1 B2 ρ1 e1 = Some t1 → read f2 h B2 B1 ρ2 e2 = Some t2 →
    verdict (defeq F e1 e2 m) m t1 t2.

Lemma read_nonnull fuel B X ρ e t : read fuel h B X ρ e = Some t → e ≠ null.
Proof. by intros (? & ? & _ & _ & ? & _)%read_view. Qed.

Lemma compare_kids F f1 f2 ρ1 ρ2 m e1 e2 n1 n2 l1 l2 ts1 ts2 pre1 pre2 steps :
  compares F → f1 + f2 ≤ F → under ρ1 ρ2 m →
  e1 ≠ null → heap m !! e1 = Some n1 → body n1 = PC APP (pre1 ++ l1 ++ [null]) →
  e2 ≠ null → heap m !! e2 = Some n2 → body n2 = PC APP (pre2 ++ l2 ++ [null]) →
  length pre1 = length pre2 → length l1 < steps →
  Forall2 (λ k t, read f1 h B1 B2 ρ1 k = Some t) l1 ts1 →
  Forall2 (λ k t, read f2 h B2 B1 ρ2 k = Some t) l2 ts2 →
  verdict (defeq_kids (defeq F) steps (length pre1) e1 e2 m) m (TC APP ts1) (TC APP ts2).
Proof.
  intros Hc HF Hu Hn1 He1 Eb1 Hn2 He2 Eb2 Hlen Hst H1. revert pre1 pre2 steps l2 ts2 Eb1 Eb2 Hlen Hst.
  induction H1 as [|k1 t1 l1 ts1 Hr1 _ IH]; intros pre1 pre2 steps l2 ts2 Eb1 Eb2 Hlen Hst H2;
    (destruct steps as [|steps]; [simpl in Hst; lia|]); cbn [defeq_kids].
  - rewrite (bind_run _ _ _ _ _ (kid_run m e1 n1 _ _ (length pre1) null Hn1 He1 Eb1 (list_lookup_middle _ _ _ _ eq_refl))).
    rewrite decide_True by done. destruct H2 as [|k2 t2 l2 ts2 Hr2 _].
    + rewrite (bind_run _ _ _ _ _ (kid_run m e2 n2 _ _ _ null Hn2 He2 Eb2 (list_lookup_middle _ _ _ _ Hlen))).
      by left.
    + rewrite (bind_run _ _ _ _ _ (kid_run m e2 n2 _ _ _ k2 Hn2 He2 Eb2 (list_lookup_middle _ _ _ _ Hlen))).
      apply verdict_ne; [congruence|]. by rewrite bool_decide_false by (by eapply read_nonnull).
  - rewrite (bind_run _ _ _ _ _ (kid_run m e1 n1 _ _ (length pre1) k1 Hn1 He1 Eb1 (list_lookup_middle _ _ _ _ eq_refl))).
    rewrite decide_False by (by eapply read_nonnull). destruct H2 as [|k2 t2 l2 ts2 Hr2 H2].
    + rewrite (bind_run _ _ _ _ _ (kid_run m e2 n2 _ _ _ null Hn2 He2 Eb2 (list_lookup_middle _ _ _ _ Hlen))).
      by apply verdict_ne.
    + rewrite (bind_run _ _ _ _ _ (kid_run m e2 n2 _ _ _ k2 Hn2 He2 Eb2 (list_lookup_middle _ _ _ _ Hlen))).
      rewrite decide_False by (by eapply read_nonnull).
      destruct (Hc f1 f2 ρ1 ρ2 m k1 k2 t1 t2 HF Hu Hr1 Hr2) as [[Hrun ->]|[Hne [Hrun|[Hrun Hlit]]]].
      * rewrite (bind_run _ _ _ _ _ Hrun).
        specialize (IH (pre1 ++ [k1]) (pre2 ++ [k2]) steps l2 ts2).
        rewrite <-!(assoc_L (++)) in IH. rewrite !length_app, Hlen in IH. simpl in IH, Hst.
        specialize (IH Eb1 Eb2 eq_refl ltac:(lia) H2). rewrite Nat.add_1_r in IH. rewrite Hlen.
        destruct IH as [[-> [= ->]]|[? Hr]]; [by left|]. right. split; [congruence|].
        destruct Hr as [Hr|[Hr Hlit]]; [by left|right]. split; [done|].
        simpl in *. by rewrite Hlit, orb_true_r.
      * rewrite (bind_run _ _ _ _ _ Hrun). apply verdict_ne; [congruence|done].
      * rewrite (bind_err _ _ _ _ Hrun). right. split; [congruence|right].
        split; [done|]. simpl. by rewrite Hlit.
Qed.

(** Under one more pair of binders. *)
Lemma under_cons ρ1 ρ2 m x1 x2 :
  under ρ1 ρ2 m → binder_ok h B1 ρ1 x1 = true → x1 ∉ B2 →
  binder_ok h B2 ρ2 x2 = true → x2 ∉ B1 →
  under (x1 :: ρ1) (x2 :: ρ2) (set_heap (set_val (heap m) x1 x2) m).
Proof.
  intros [Hl N1 N2 U1 U2 Hh] K1 X1 K2 X2.
  pose proof (binder_ok_spec _ _ _ K1) as (? & ? & _). pose proof (binder_ok_spec _ _ _ K2) as (? & ? & _).
  split; [simpl; lia|by constructor|by constructor|..|].
  - intros x [->|?]%elem_of_cons; [eauto using binder_ok_nil|auto].
  - intros y [->|?]%elem_of_cons; [eauto using binder_ok_nil|auto].
  - simpl. by rewrite Hh.
Qed.

(** A binder variable and the store before and after its body is compared. *)
Lemma with_val_null n : is_sym (body n) = true →
  match body n with PSym v | PSymS _ v => v = null | _ => True end → with_val null n = n.
Proof. destruct n as [r x b]. unfold with_val. simpl. destruct b; try done; by intros _ ->. Qed.

Lemma set_val_back m x n v :
  heap m !! x = Some n → is_sym (body n) = true → next (heap m) x = None →
  set_heap (set_val (heap (set_heap (set_val (heap m) x v) m)) x null) (set_heap (set_val (heap m) x v) m) = m.
Proof.
  intros Hx Hs Hn. destruct m as [hp ? ? ? ? ? ?]. simpl in *. unfold set_heap. simpl. f_equal.
  apply (set_val_restore _ _ _ n); [done|]. apply with_val_null; [done|].
  rewrite (next_eq _ _ _ Hx) in Hn. destruct (body n); try done; by case_decide.
Qed.

Lemma compare_binder F f1 f2 ρ1 ρ2 m e1 e2 n1 n2 o1 o2 ks1 ks2 last x1 x2 b1 b2 t1 t2 :
  compares F → f1 + f2 ≤ F → under ρ1 ρ2 m →
  e1 ≠ null → heap m !! e1 = Some n1 → body n1 = PC o1 ks1 → ks1 !! 0 = Some x1 → ks1 !! last = Some b1 →
  e2 ≠ null → heap m !! e2 = Some n2 → body n2 = PC o2 ks2 → ks2 !! 0 = Some x2 → ks2 !! last = Some b2 →
  binder_ok h B1 ρ1 x1 = true → x1 ∉ B2 → binder_ok h B2 ρ2 x2 = true → x2 ∉ B1 →
  read f1 h B1 B2 (x1 :: ρ1) b1 = Some t1 → read f2 h B2 B1 (x2 :: ρ2) b2 = Some t2 →
  verdict (defeq_binder (defeq F) last e1 e2 m) m t1 t2.
Proof.
  intros Hc HF Hu Hn1 He1 Eb1 K1 L1 Hn2 He2 Eb2 K2 L2 O1 X1 O2 X2 R1 R2.
  pose proof (under_cons _ _ _ _ _ Hu O1 X1 O2 X2) as Hu'.
  apply binder_ok_spec in O1 as (? & Hρ1 & Hx1 & nx1 & Hhx1 & Hs1 & Hnx1).
  apply binder_ok_spec in O2 as (? & Hρ2 & Hx2 & nx2 & Hhx2 & Hs2 & Hnx2).
  pose proof (under_notin _ _ _ _ Hu Hρ1) as Ex1. pose proof (next_same _ _ Ex1) as Nx1.
  pose proof (under_right _ _ _ _ Hu X2) as Ex2. pose proof (next_same _ _ Ex2) as Nx2.
  rewrite Hhx1 in Ex1. rewrite Hhx2 in Ex2. rewrite Hnx1 in Nx1. rewrite Hnx2 in Nx2.
  unfold defeq_binder. rewrite (bind_run _ _ _ _ _ (kid_run m e1 n1 _ _ _ _ Hn1 He1 Eb1 K1)).
  rewrite (bind_run _ _ _ _ _ (sym_val_run m x1 nx1 Hx1 Ex1 Hs1)), Nx1. cbn [default].
  rewrite (bind_run _ _ _ _ _ (kid_run m e2 n2 _ _ _ _ Hn2 He2 Eb2 K2)).
  rewrite (bind_run _ _ _ _ _ (followDefs_leads m x2 0 x2 ltac:(constructor; eauto))).
  rewrite (bind_run _ _ _ _ _ (set_sym_val_run m x1 nx1 x2 Hx1 Ex1 Hs1)).
  set (m1 := set_heap (set_val (heap m) x1 x2) m) in *.
  assert (D1 : e1 ≠ x1) by (intros ->; rewrite He1 in Ex1; simplify_eq; by rewrite Eb1 in Hs1).
  assert (D2 : e2 ≠ x1) by (intros ->; rewrite He2 in Ex1; simplify_eq; by rewrite Eb2 in Hs1).
  assert (He1' : heap m1 !! e1 = Some n1) by (simpl; by rewrite set_val_ne).
  assert (He2' : heap m1 !! e2 = Some n2) by (simpl; by rewrite set_val_ne).
  rewrite (bind_run _ _ _ _ _ (kid_run m1 e1 n1 _ _ _ _ Hn1 He1' Eb1 L1)).
  rewrite (bind_run _ _ _ _ _ (kid_run m1 e2 n2 _ _ _ _ Hn2 He2' Eb2 L2)).
  assert (Hback : set_sym_val x1 null m1 = Ok ((), m)).
  { rewrite (set_sym_val_run m1 x1 (with_val x2 nx1)); [|done| |by unfold with_val; destruct (body nx1)].
    - unfold m1. by rewrite (set_val_back m x1 nx1).
    - simpl. by rewrite set_val_eq, Ex1. }
  destruct (Hc f1 f2 _ _ m1 b1 b2 t1 t2 HF Hu' R1 R2) as [[Hrun ->]|[Hne [Hrun|[Hrun Hlit]]]].
  - left. split; [|done]. by rewrite (bind_run _ _ _ _ _ Hrun), (bind_run _ _ _ _ _ Hback).
  - apply verdict_ne; [done|]. by rewrite (bind_run _ _ _ _ _ Hrun), (bind_run _ _ _ _ _ Hback).
  - rewrite (bind_err _ _ _ _ Hrun). right. auto.
Qed.

(** ** Objects with the same operator *)

Lemma compare_sym F m e1 e2 n1 n2 ρ2 t2 :
  e1 ≠ e2 → e1 ≠ null → heap m !! e1 = Some n1 → is_sym (body n1) = true →
  op_of (body n2) = NOT_CEXPR → shape ρ2 e2 (body n2) t2 →
  verdict (defeq_same (defeq F) e1 e2 m) m (TFree e1) t2.
Proof.
  intros Hne Hn1 He1 Hs Hop Hsh. apply verdict_ne.
  - intros <-. unfold shape in Hsh. destruct (body n2) as [[] ?| | | | |]; try done;
      try (by destruct Hsh); destruct (index e2 ρ2); congruence.
  - unfold defeq_same. rewrite (bind_run _ _ _ _ _ (load_run m e1 n1 Hn1 He1)).
    destruct (body n1); try done; by rewrite bool_decide_false.
Qed.

(** A literal is compared with what the other object would hold as a literal. *)
Lemma compare_int F m e1 e2 n1 n2 ρ2 z t2 :
  e1 ≠ null → heap m !! e1 = Some n1 → body n1 = PInt z →
  e2 ≠ null → heap m !! e2 = Some n2 → shape ρ2 e2 (body n2) t2 →
  verdict (defeq_same (defeq F) e1 e2 m) m (TInt z) t2.
Proof.
  intros Hn1 He1 Eb1 Hn2 He2 Hsh. unfold defeq_same, int_of.
  rewrite (bind_run _ _ _ _ _ (load_run m e1 n1 Hn1 He1)), Eb1.
  destruct (body n2) as [o ks|z2| | | |] eqn:Eb2; simpl in Hsh;
    try (right; split; [intros <-; (by destruct o; try done; destruct Hsh) || by destruct (index e2 ρ2)|right];
         split; [|done]; unfold mbind, M_bind; rewrite (load_run m e2 n2 Hn2 He2), Eb2; done).
  subst t2. rewrite (bind_run _ _ _ z2 m).
  2:{ by rewrite (bind_run _ _ _ _ _ (load_run m e2 n2 Hn2 He2)), Eb2. }
  destruct (Z.eqb_spec z z2) as [->|]; [by left|]. apply verdict_ne; [congruence|done].
Qed.

Lemma compare_rat F m e1 e2 n1 n2 ρ2 q t2 :
  e1 ≠ null → heap m !! e1 = Some n1 → body n1 = PRat q →
  e2 ≠ null → heap m !! e2 = Some n2 → shape ρ2 e2 (body n2) t2 →
  verdict (defeq_same (defeq F) e1 e2 m) m (TRat (Qred q)) t2.
Proof.
  intros Hn1 He1 Eb1 Hn2 He2 Hsh. unfold defeq_same, rat_of.
  rewrite (bind_run _ _ _ _ _ (load_run m e1 n1 Hn1 He1)), Eb1.
  destruct (body n2) as [o ks| |q2| | |] eqn:Eb2; simpl in Hsh;
    try (right; split; [intros <-; (by destruct o; try done; destruct Hsh) || by destruct (index e2 ρ2)|right];
         split; [|done]; unfold mbind, M_bind; rewrite (load_run m e2 n2 Hn2 He2), Eb2; done).
  subst t2. rewrite (bind_run _ _ _ q2 m).
  2:{ by rewrite (bind_run _ _ _ _ _ (load_run m e2 n2 Hn2 He2)), Eb2. }
  destruct (Qeq_bool q q2) eqn:Eq.
  - left. split; [done|]. f_equal. apply Qred_complete. by apply Qeq_bool_iff.
  - apply verdict_ne; [|done]. intros [= E]. apply Qeq_bool_neq in Eq. apply Eq.
    by rewrite <-(Qred_correct q), E, Qred_correct.
Qed.

(** What the right side is, when its operator is that of a [CExpr]. *)
Lemma view_op fuel B X ρ e n t o :
  h !! e = Some n → next h e = None → view fuel h B X ρ e n t → op_of (body n) = o →
  match o with
  | PI => ∃ x d b td tb, body n = PC PI [x; d; b; null] ∧ binder_ok h B ρ x = true ∧ (x ∉ X) ∧
      read fuel h B X ρ d = Some td ∧ read fuel h B X (x :: ρ) b = Some tb ∧ t = TC PI [td; tb]
  | LAM => ∃ x b tb, body n = PC LAM [x; b; null] ∧ binder_ok h B ρ x = true ∧ (x ∉ X) ∧
      read fuel h B X (x :: ρ) b = Some tb ∧ t = TC LAM [tb]
  | APP => ∃ l ts, body n = PC APP (l ++ [null]) ∧
      Forall2 (λ k t, read fuel h B X ρ k = Some t) l ts ∧ t = TC APP ts
  | TYPE | KIND | MPZ => t = TC o []
  | MPQ => t = TFree e
  | _ => True
  end.
Proof.
  intros He Hnx Hv <-. destruct Hv as [Hs ?|v' t Hd _ ?|z Eb|q Eb|o ks Eb Ho|ks Eb|x d b td tb Eb ? ? ? ?|x b tb Eb ? ? ?|l t0 ts Eb _ Em _];
    try congruence; rewrite ?Eb; simpl; eauto 20.
  - by destruct (body n).
  - by destruct Ho as [->|[->| ->]].
  - apply mapM_Some in Em. eauto.
Qed.

Lemma compare_pi F f1 f2 ρ1 ρ2 m e1 e2 n1 n2 x1 d1 b1 td1 tb1 x2 d2 b2 td2 tb2 :
  compares F → f1 + f2 ≤ F → under ρ1 ρ2 m →
  e1 ≠ null → heap m !! e1 = Some n1 → body n1 = PC PI [x1; d1; b1; null] →
  e2 ≠ null → heap m !! e2 = Some n2 → body n2 = PC PI [x2; d2; b2; null] →
  binder_ok h B1 ρ1 x1 = true → x1 ∉ B2 → binder_ok h B2 ρ2 x2 = true → x2 ∉ B1 →
  read f1 h B1 B2 ρ1 d1 = Some td1 → read f1 h B1 B2 (x1 :: ρ1) b1 = Some tb1 →
  read f2 h B2 B1 ρ2 d2 = Some td2 → read f2 h B2 B1 (x2 :: ρ2) b2 = Some tb2 →
  verdict (defeq_same (defeq F) e1 e2 m) m (TC PI [td1; tb1]) (TC PI [td2; tb2]).
Proof.
  intros Hc HF Hu Hn1 He1 Eb1 Hn2 He2 Eb2 K1 X1 K2 X2 Rd1 Rb1 Rd2 Rb2.
  unfold defeq_same. rewrite (bind_run _ _ _ _ _ (load_run m e1 n1 Hn1 He1)), Eb1.
  rewrite (bind_run _ _ _ _ _ (kid_run m e1 n1 _ _ 1 d1 Hn1 He1 Eb1 eq_refl)).
  rewrite (bind_run _ _ _ _ _ (kid_run m e2 n2 _ _ 1 d2 Hn2 He2 Eb2 eq_refl)).
  destruct (Hc f1 f2 _ _ m d1 d2 td1 td2 HF Hu Rd1 Rd2) as [[Hrun ->]|[Hd [Hrun|[Hrun Hlit]]]].
  - rewrite (bind_run _ _ _ _ _ Hrun).
    destruct (compare_binder F f1 f2 ρ1 ρ2 m e1 e2 n1 n2 PI PI [x1; d1; b1; null] [x2; d2; b2; null] 2 x1 x2 b1 b2 tb1 tb2)
      as [[Hr ->]|[? Hr]]; [done..|by left|]. right. split; [congruence|].
    destruct Hr as [Hr|[Hr Hlit]]; [by left|right]. split; [done|]. simpl. by rewrite Hlit, orb_true_r.
  - rewrite (bind_run _ _ _ _ _ Hrun). apply verdict_ne; [congruence|done].
  - rewrite (bind_err _ _ _ _ Hrun). right. split; [congruence|right]. split; [done|]. simpl. by rewrite Hlit.
Qed.

Lemma compare_same F f1 f2 ρ1 ρ2 m e1 e2 n1 n2 t1 t2 :
  compares F → f1 + f2 ≤ F → under ρ1 ρ2 m → e1 ≠ e2 → index e1 ρ1 = None →
  e1 ≠ null → heap m !! e1 = Some n1 → h !! e1 = Some n1 → next h e1 = None → view f1 h B1 B2 ρ1 e1 n1 t1 →
  e2 ≠ null → heap m !! e2 = Some n2 → h !! e2 = Some n2 → next h e2 = None → view f2 h B2 B1 ρ2 e2 n2 t2 →
  op_of (body n1) = op_of (body n2) →
  verdict (defeq_same (defeq F) e1 e2 m) m t1 t2.
Proof.
  intros Hc HF Hu Hne Hix Hn1 He1 Hh1 Nx1 V1 Hn2 He2 Hh2 Nx2 V2 Hop.
  pose proof (view_shape _ _ _ _ _ _ _ Hh2 Nx2 V2) as Hsh. symmetry in Hop.
  pose proof (view_op _ _ _ _ _ _ _ _ Hh2 Nx2 V2 Hop) as V2'.
  destruct V1 as [Hs ?|v' t Hd _ ?|z Eb|q Eb|o ks Eb Ho|ks Eb|x d b td tb Eb K1 X1 Rd Rb|x b tb Eb K1 X1 Rb|l t0 ts Eb _ Em _];
    try congruence.
  - rewrite Hix. eapply compare_sym; [done..| |done]. rewrite Hop. by destruct (body n1).
  - by eapply compare_int.
  - by eapply compare_rat.
  - rewrite Eb in V2'. left. unfold defeq_same. rewrite (bind_run _ _ _ _ _ (load_run m e1 n1 Hn1 He1)), Eb.
    by destruct Ho as [->|[->| ->]]; simpl in V2'; subst.
  - rewrite Eb in V2'. simpl in V2'. subst t2. apply verdict_ne; [congruence|].
    unfold defeq_same. by rewrite (bind_run _ _ _ _ _ (load_run m e1 n1 Hn1 He1)), Eb.
  - rewrite Eb in V2'. destruct V2' as (x2 & d2 & b2 & td2 & tb2 & Eb2 & K2 & X2 & Rd2 & Rb2 & ->).
    by eapply compare_pi.
  - rewrite Eb in V2'. destruct V2' as (x2 & b2 & tb2 & Eb2 & K2 & X2 & Rb2 & ->).
    unfold defeq_same. rewrite (bind_run _ _ _ _ _ (load_run m e1 n1 Hn1 He1)), Eb.
    destruct (compare_binder F f1 f2 ρ1 ρ2 m e1 e2 n1 n2 LAM LAM [x; b; null] [x2; b2; null] 1 x x2 b b2 tb tb2)
      as [[Hr ->]|[? Hr]]; [done..|by left|]. right. split; [congruence|].
    destruct Hr as [Hr|[Hr Hlit]]; [by left|right]. split; [done|]. simpl. by rewrite Hlit.
  - rewrite Eb in V2'. destruct V2' as (l2 & ts2 & Eb2 & Em2 & ->). apply mapM_Some in Em.
    unfold defeq_same. rewrite (bind_run _ _ _ _ _ (load_run m e1 n1 Hn1 He1)), Eb.
    apply (compare_kids F f1 f2 ρ1 ρ2 m e1 e2 n1 n2 l l2 (t0 :: ts) ts2 [] []); try done.
    rewrite length_app. simpl. lia.
Qed.

Lemma compares_all F : compares F.
Proof.
  induction F as [|F IH]; intros f1 f2 ρ1 ρ2 m e1 e2 t1 t2 HF Hu R1 R2.
  { by replace f1 with 0 in R1 by lia. }
  destruct (decide (e1 = e2)) as [<-|Hne].
  { left. split; [simpl; by rewrite decide_True|]. eapply read_same; [..|exact R1|exact R2].
    - intros x Hx. by destruct (un_1 _ _ _ Hu x Hx).
    - intros x Hx. by destruct (un_2 _ _ _ Hu x Hx). }
  pose proof R1 as R1'. pose proof R2 as R2'.
  apply read_view in R1 as (g1 & n1 & -> & Hh1 & Hn1 & X1 & V1).
  apply read_view in R2 as (g2 & n2 & -> & Hh2 & Hn2 & X2 & V2).
  pose proof (under_right _ _ _ _ Hu X2) as E2. pose proof (next_same _ _ E2) as N2.
  rewrite Hh2 in E2. destruct (index e1 ρ1) as [i|] eqn:Hix.
  { pose proof (index_Some _ _ _ Hix) as Hi.
    destruct (under_left _ _ _ _ _ Hu Hi) as (y & n & Hy & Hx & Hnx & Hxm & _ & _).
    rewrite (defeq_left_val F m e1 e2 n2 y) by done.
    assert (t1 = TBound i) as ->.
    { destruct (un_1 _ _ _ Hu e1 (list_elem_of_lookup_2 _ _ _ Hi)) as (_ & _ & (_ & _ & _ & n' & ? & Hs & Hnone)%binder_ok_spec).
      simplify_eq. pose proof (view_shape _ _ _ _ _ _ _ Hh1 Hnone V1) as Hsh. unfold shape in Hsh.
      rewrite Hix in Hsh. by destruct (body n1). }
    by eapply (compare_var F (S g2)); [..|lia|]. }
  assert (Hρ : e1 ∉ ρ1) by (by apply index_None).
  pose proof (under_notin _ _ _ _ Hu Hρ) as E1. pose proof (next_same _ _ E1) as N1.
  rewrite Hh1 in E1. destruct (next h e1) as [v|] eqn:Nx1.
  { rewrite (defeq_left_val F m e1 e2 n2 v) by done.
    eapply (IH g1 (S g2)); [lia|done| |done]. by eapply (view_def _ _ _ _ e1). }
  destruct (read_stuck (heap m) m B1 B2 ρ1 g1 F e1 n1 t1) as [S1 _];
    [done|by eapply sees_left|done..|].
  destruct (next h e2) as [v|] eqn:Nx2.
  { rewrite (defeq_right_val F m e1 e2 n1 v) by done.
    eapply (IH (S g1) g2); [lia|done..|]. by eapply (view_def _ _ _ _ e2). }
  destruct (read_stuck (heap m) m B2 B1 ρ2 g2 F e2 n2 t2) as [_ S2];
    [done|by eapply sees_right|done..|].
  rewrite (defeq_both_stuck F m e1 e2 n1 n2) by done. case_decide as Hop.
  - eapply (compare_same F g1 g2); try done. lia.
  - apply verdict_ne; [|done]. eapply shape_op_ne; [exact Hne|exact Hix|..|exact Hop];
      by eapply view_shape.
Qed.
End compare.

(** ** Properties *)

(** C25: on the terms [read] accepts, [defeq] decides equality up to the names of
    bound variables.  Let [e1] and [e2] have the trees [t1] and [t2].  That they
    have trees means: there is no unfilled hole, no redex and no side condition
    in them; the head of an application, with definitions unfolded, is a symbol
    or a variable, so it is not a partial application that was given a name; no
    variable is bound twice on a path, and a bound variable has no value; and the
    terms share no binder, that is, the variables bound in one ([B1], [B2]) do not
    occur in the other.  With fuel for the two readings, the comparison comes to
    an end.  If the trees are equal it answers true, and if they differ it answers
    false; the store is the one it started with.  The one exception is a literal
    on the left that meets something else: the code then reads the other object as
    a literal. *)
Theorem defeq_decides_alpha m B1 B2 f1 f2 e1 e2 t1 t2 fuel :
  read f1 (heap m) B1 B2 [] e1 = Some t1 → read f2 (heap m) B2 B1 [] e2 = Some t2 →
  f1 + f2 ≤ fuel →
  (t1 = t2 → defeq fuel e1 e2 m = Ok (true, m)) ∧
  (t1 ≠ t2 → defeq fuel e1 e2 m = Ok (false, m) ∨
             defeq fuel e1 e2 m = Err (Undefined BadCast) ∧ has_lit t1 = true).
Proof.
  intros R1 R2 HF.
  assert (Hu : under (heap m) B1 B2 [] [] m).
  { split; try done; try apply NoDup_nil_2; by intros x ?%not_elem_of_nil. }
  destruct (compares_all _ _ _ fuel f1 f2 [] [] m e1 e2 t1 t2 HF Hu R1 R2) as [[-> ->]|[Hne Hr]];
    split; intros; done.
Qed.

(** Two types [(! x o (t x))] with variables of their own. *)
Definition alpha_mem : mem :=
  Mem {[1%N := Node 9 false (PSymS "o" 0); 2%N := Node 9 false (PSymS "t" 0);
        3%N := Node 2 false (PSymS "x" 0); 4%N := Node 1 false (PC APP [2; 3; 0]%N);
        5%N := Node 1 true (PC PI [3; 1; 4; 0]%N);
        6%N := Node 2 false (PSymS "y" 0); 7%N := Node 1 false (PC APP [2; 6; 0]%N);
        8%N := Node 1 true (PC PI [6; 1; 7; 0]%N)]}
    9 ∅ EmptyString false false 0 scc_none.

Lemma defeq_decides_alpha_witness : defeq 8 5%N 8%N alpha_mem = Ok (true, alpha_mem).
Proof.
  destruct (defeq_decides_alpha alpha_mem [3]%N [6]%N 4 4 5%N 8%N
    (TC PI [TFree 1; TC APP [TFree 2; TBound 0]]) (TC PI [TFree 1; TC APP [TFree 2; TBound 0]]) 8)
    as [H _]; [vm_compute; reflexivity|vm_compute; reflexivity|lia|].
  apply H. reflexivity.
Defined.

(** A literal compared with a symbol.  When an integer or a rational literal
    on the left meets a symbol without a value on the right, [defeq] casts the
    symbol to a literal and reads a field it does not have. *)
Theorem defeq_literal_bad_cast fuel m e1 e2 n1 n2 :
  e1 ≠ null → heap m !! e1 = Some n1 → (∃ z, body n1 = PInt z) ∨ (∃ q, body n1 = PRat q) →
  e2 ≠ null → heap m !! e2 = Some n2 → (∃ s, body n2 = PSymS s null) →
  defeq (S fuel) e1 e2 m = Err (Undefined BadCast).
Proof.
  intros Hn1 He1 Hb1 Hn2 He2 [s Eb2].
  assert (e1 ≠ e2) by (intros <-; rewrite He1 in He2; destruct Hb1 as [[? E]|[? E]]; congruence).
  assert (Hx1 : next (heap m) e1 = None) by (rewrite (next_eq _ _ _ He1); by destruct Hb1 as [[? ->]|[? ->]]).
  assert (Hx2 : next (heap m) e2 = None) by (by rewrite (next_eq _ _ _ He2), Eb2).
  destruct (plain_stuck fuel m e1 n1) as [S1 _]; [done..|by destruct Hb1 as [[? ->]|[? ->]]|].
  destruct (plain_stuck fuel m e2 n2) as [_ S2]; [done..|by rewrite Eb2|].
  rewrite (defeq_both_stuck fuel m e1 e2 n1 n2), Eb2 by done. simpl.
  assert (op_of (body n1) = NOT_CEXPR) as -> by (by destruct Hb1 as [[? ->]|[? ->]]). simpl.
  unfold defeq_same, int_of, rat_of. rewrite (bind_run _ _ _ _ _ (load_run m e1 n1 Hn1 He1)).
  destruct Hb1 as [[z ->]|[q ->]]; unfold mbind, M_bind; by rewrite (load_run m e2 n2 Hn2 He2), Eb2.
Qed.

Definition literal_mem : mem :=
  Mem {[1%N := Node 1 false (PInt 0); 2%N := Node 1 false (PSymS "n" 0)]} 3 ∅ EmptyString false false 0 scc_none.

Lemma defeq_literal_bad_cast_witness : defeq 3 1%N 2%N literal_mem = Err (Undefined BadCast).
Proof.
  apply (defeq_literal_bad_cast 2 literal_mem 1%N 2%N (Node 1 false (PInt 0)) (Node 1 false (PSymS "n" 0)));
    [discriminate|reflexivity|left; exists 0%Z; reflexivity|discriminate|reflexivity|exists "n"%string; reflexivity].
Defined.
