(* ===== verification/Owned.v ===== *)
(** * Reasoning about code that owns references

    The state of straight-line code that holds references: each reference comes
    with the term it leads to ([own]), and the invariant of RefCount.v holds for
    them.  [wp r Q X] says how a run ends, normally or with an error; the rules
    below are one per operation the generated code of SccCode.v is made of.  A
    rule takes references from [own] and puts references there, and the rest of
    the list, with all that is known about it, is the frame. *)

From Stdlib Require Import QArith_base.
From stdpp Require Import base tactics list strings gmap numbers sorting.
From S2P Require Import Prelude Header Memory Expr Code Follow Alpha RefCount.

(** A member of a list that is written out. *)
Ltac here := repeat first [apply list_elem_of_here | apply list_elem_of_further].

(** ** How a run ends *)

Definition wp {S A} (r : result (A * S)) (Q : A → S → Prop) (X : error → Prop) : Prop :=
  match r with Ok (a, w) => Q a w | Err e => X e end.

Section wp.
Context {S : Type}.
Implicit Types X : error → Prop.

Lemma wp_bind {A B} (c : M S A) (f : A → M S B) w Q X :
  wp (c w) (λ a w', wp (f a w') Q X) X → wp ((c ≫= f) w) Q X.
Proof. unfold mbind, M_bind. by destruct (c w) as [[a w']|]. Qed.

Lemma wp_run {A} (c : M S A) w a w' (Q : A → S → Prop) X : c w = Ok (a, w') → Q a w' → wp (c w) Q X.
Proof. by intros ->. Qed.

Lemma wp_mono {A} (r : result (A * S)) (Q Q' : A → S → Prop) X X' :
  wp r Q X → (∀ a w, Q a w → Q' a w) → (∀ e, X e → X' e) → wp r Q' X'.
Proof. destruct r as [[a w]|]; simpl; eauto. Qed.
Lemma wp_ok {A} (r : result (A * S)) (Q : A → S → Prop) :
  wp r Q (λ _, False) → ∃ a w, r = Ok (a, w) ∧ Q a w.
Proof. destruct r as [[a w]|]; simpl; [eauto|done]. Qed.
End wp.

(** ** Terms in the store *)

(** What is known about the object a pointer leads to.  Applications name the
    pointers they store. *)
Inductive tm :=
  | TRef (p : ptr)                              (* the object itself, whatever it is *)
  | TAtom (p : ptr)                             (* a symbol without value *)
  | TInt (z : Z)
  | TRat (q : Q)
  | TApp1 (f a : ptr) (tf ta : tm)
  | TApp2 (f a b : ptr) (tf ta tb : tm).

Inductive repr (h : gmap N node) : ptr → tm → Prop :=
  | R_ref e n : e ≠ null → h !! e = Some n → repr h e (TRef e)
  | R_atom e n : e ≠ null → h !! e = Some n → next h e = None → op_of (body n) ≠ APP →
      repr h e (TAtom e)
  | R_int e n z : e ≠ null → h !! e = Some n → body n = PInt z → repr h e (TInt z)
  | R_rat e n q : e ≠ null → h !! e = Some n → body n = PRat q → repr h e (TRat q)
  | R_app1 e n f a tf ta : e ≠ null → h !! e = Some n → body n = PC APP [f; a; null] →
      f ≠ null → a ≠ null → repr h f tf → repr h a ta → repr h e (TApp1 f a tf ta)
  | R_app2 e n f a b tf ta tb : e ≠ null → h !! e = Some n → body n = PC APP [f; a; b; null] →
      f ≠ null → a ≠ null → b ≠ null → repr h f tf → repr h a ta → repr h b tb →
      repr h e (TApp2 f a b tf ta tb)
  | R_def e v t : e ≠ null → next h e = Some v → repr h v t → repr h e t.

Lemma repr_live h e t : repr h e t → e ≠ null ∧ is_Some (h !! e).
Proof.
  destruct 1 as [| | | | | |e v t ? Hn]; eauto. unfold next in Hn. by destruct (h !! e).
Qed.

(** Objects that are still there, with the same fields. *)
Definition stays (h h' : gmap N node) (e : ptr) : Prop :=
  ∀ n, h !! e = Some n → ∃ n', h' !! e = Some n' ∧ body n' = body n.

Lemma stays_next h h' e : stays h h' e → is_Some (h !! e) → next h' e = next h e.
Proof. intros Hs [n Hn]. destruct (Hs n Hn) as (n' & Hn' & Eb). unfold next. rewrite Hn, Hn'. simpl. by rewrite Eb. Qed.

(** A term survives when the objects it is made of stay, where [live] is closed
    under the references that objects hold. *)
Lemma repr_stays h h' (live : ptr → Prop) e t :
  (∀ a, live a → stays h h' a) →
  (∀ a n k, live a → h !! a = Some n → k ∈ outs (body n) → live k) →
  repr h e t → live e → repr h' e t.
Proof.
  intros Hs Hc H. induction H as [e n ? He|e n ? He ? ?|e n z ? He Eb|e n q ? He Eb|e n f a tf ta ? He Eb ?? Hf IHf Ha IHa
    |e n f a b tf ta tb ? He Eb ??? Hf IHf Ha IHa Hb IHb|e v t ? Hn Hv IH]; intros Hl.
  - destruct (Hs e Hl n He) as (n' & ? & ?). by econstructor.
  - destruct (Hs e Hl n He) as (n' & ? & Eb'). apply (R_atom _ e n'); [done..| |by rewrite Eb'].
    rewrite (stays_next h h'); eauto.
  - destruct (Hs e Hl n He) as (n' & ? & ?). eapply R_int; [done..|congruence].
  - destruct (Hs e Hl n He) as (n' & ? & ?). eapply R_rat; [done..|congruence].
  - assert (∀ k, k ∈ [f; a] → live k) as Hk.
    { intros k Hk. apply (Hc e n k); [done..|]. rewrite Eb. simpl. by rewrite !decide_False by done. }
    destruct (Hs e Hl n He) as (n' & ? & ?).
    eapply (R_app1 _ e n'); [done..|congruence|done|done|apply IHf|apply IHa]; apply Hk; set_solver.
  - assert (∀ k, k ∈ [f; a; b] → live k) as Hk.
    { intros k Hk. apply (Hc e n k); [done..|]. rewrite Eb. simpl. by rewrite !decide_False by done. }
    destruct (Hs e Hl n He) as (n' & ? & ?).
    eapply (R_app2 _ e n'); [done..|congruence|done|done|done|apply IHf|apply IHa|apply IHb];
      apply Hk; set_solver.
  - assert (∃ n, h !! e = Some n ∧ v ∈ outs (body n)) as (n & He & Hv').
    { unfold next in Hn. destruct (h !! e) as [n|]; [|done]. exists n. split; [done|]. simpl in Hn.
      destruct (body n); simpl in *; try done; case_decide; simplify_eq; set_solver. }
    apply (R_def _ e v); [done|by rewrite (stays_next h h'); eauto|]. apply IH. by eapply Hc.
Qed.

Lemma repr_grow h h' e t : (∀ a, stays h h' a) → repr h e t → repr h' e t.
Proof. intros Hs H. apply (repr_stays h h' (λ _, True)); eauto. Qed.

Lemma repr_shrink h h' own e t :
  shrinks h h' → covers h' own → is_Some (h' !! e) → repr h e t → repr h' e t.
Proof.
  intros Hs Hc Hl H. apply (repr_stays h h' (λ a, is_Some (h' !! a))); [| |done..].
  - intros a [n' Hn'] n Hn. destruct (Hs a n' Hn') as (n0 & ? & Eb & _). simplify_eq. eauto.
  - intros a n k [n' Hn'] Hn Hk. destruct (Hs a n' Hn') as (n0 & ? & Eb & _). simplify_eq.
    apply (covers_outs h' own a n' k); [done..|]. by rewrite Eb.
Qed.

(** ** What the reading operations find *)

(** The object at the end of the chain of definitions. *)
Definition target (t : tm) (a : ptr) (b : payload) : Prop :=
  match t with
  | TRef _ => False
  | TAtom p => a = p ∧ op_of b ≠ APP
  | TInt z => b = PInt z
  | TRat q => b = PRat q
  | TApp1 f a _ _ => b = PC APP [f; a; null]
  | TApp2 f a b' _ _ _ => b = PC APP [f; a; b'; null]
  end.

Definition known (t : tm) : bool := match t with TRef _ => false | _ => true end.

Lemma repr_target h e t :
  known t = true → repr h e t →
  ∃ k a n, leads h e k a ∧ a ≠ null ∧ h !! a = Some n ∧ target t a (body n).
Proof.
  intros Ht H. induction H as [|e n ? He ? ?|e n z ? He Eb|e n q ? He Eb|e n f a tf ta ? He Eb|e n f a b tf ta tb ? He Eb
    |e v t ? Hn Hv IH]; [done|..].
  6:{ destruct (IH Ht) as (k & a & n & Hl & ?). exists (S k), a, n. split; [by econstructor|done]. }
  all: exists 0, e, n; split_and!; [|done..]; constructor; [done|eauto|unfold next; rewrite He; simpl].
  all: first [by rewrite Eb | unfold next in *; by simplify_option_eq].
Qed.

Lemma repr_followDefs m e t :
  known t = true → repr (heap m) e t →
  ∃ a n, followDefs e m = Ok (a, m) ∧ a ≠ null ∧ heap m !! a = Some n ∧ target t a (body n).
Proof.
  intros Ht H. destruct (repr_target _ _ _ Ht H) as (k & a & n & Hl & Hne & Ha & Hb).
  exists a, n. split_and!; [by eapply followDefs_leads|done..].
Qed.

(** [get_head] of an application whose function is a constant, and of a
    constant. *)
Lemma get_head_atom m e n : e ≠ null → heap m !! e = Some n → op_of (body n) ≠ APP →
  get_head e true m = Ok (e, m).
Proof.
  intros Hne He Hop. unfold get_head. rewrite (bind_run _ _ _ m m) by done. cbn [descend].
  by rewrite (bind_run _ _ _ _ _ (getop_run m e n Hne He)), decide_False.
Qed.

Lemma get_head_app m e n f ks c :
  e ≠ null → heap m !! e = Some n → body n = PC APP (f :: ks) → repr (heap m) f (TAtom c) →
  get_head e true m = Ok (c, m).
Proof.
  intros Hne He Eb Hf. destruct (repr_followDefs m f (TAtom c)) as (a & na & Hfd & Hane & Ha & -> & Hop);
    [done..|].
  unfold get_head. rewrite (bind_run _ _ _ m m) by done.
  assert (0 < size (heap m)) as Hsz by (apply Nat.neq_0_lt_0, map_size_ne_0_lookup; eauto).
  destruct (size (heap m)) as [|sz]; [lia|]. cbn [descend].
  rewrite (bind_run _ _ _ _ _ (getop_run m e n Hne He)), Eb. simpl.
  rewrite (bind_run _ _ _ _ _ (kid_run m e n APP (f :: ks) 0 f Hne He Eb eq_refl)).
  rewrite (bind_run _ _ _ _ _ Hfd).
  by rewrite (bind_run _ _ _ _ _ (getop_run m c na Hane Ha)), decide_False.
Qed.

(** ** The state *)

(** Terms that can be reached from the references that are held. *)
Inductive borrows (own : list (ptr * tm)) : ptr → tm → Prop :=
  | B_own e t : (e, t) ∈ own → borrows own e t
  | B_app1_fun e f a tf ta : borrows own e (TApp1 f a tf ta) → borrows own f tf
  | B_app1_arg e f a tf ta : borrows own e (TApp1 f a tf ta) → borrows own a ta
  | B_app2_fun e f a b tf ta tb : borrows own e (TApp2 f a b tf ta tb) → borrows own f tf
  | B_app2_arg1 e f a b tf ta tb : borrows own e (TApp2 f a b tf ta tb) → borrows own a ta
  | B_app2_arg2 e f a b tf ta tb : borrows own e (TApp2 f a b tf ta tb) → borrows own b tb.

(** [held g k μ own m]: in [m] the code holds the references [own], [k] more
    references to any object are below the bound of the count, the marks are [μ]
    and the globals of the compiled code are [g]. *)
Record held (g : scc_globals) (k : nat) (μ : N → Z) (own : list (ptr * tm)) (m : mem) : Prop := Held {
  held_owns : owns m own.*1;
  held_repr : ∀ e t, (e, t) ∈ own → repr (heap m) e t;
  held_room : ∀ a n, heap m !! a = Some n → (refcnt n + Z.of_nat k ≤ max_refcnt)%Z;
  held_new : (1 + Z.of_nat k ≤ max_refcnt)%Z;
  held_marks : ∀ a, default 0%Z (mark_map m !! a) = μ a;
  held_vars : scc_vars m = g
}.

Lemma repr_app1_kids h e f a tf ta : repr h e (TApp1 f a tf ta) → repr h f tf ∧ repr h a ta.
Proof. intros H. remember (TApp1 f a tf ta) as t eqn:E. by induction H; simplify_eq; eauto. Qed.
Lemma repr_app2_kids h e f a b tf ta tb :
  repr h e (TApp2 f a b tf ta tb) → repr h f tf ∧ repr h a ta ∧ repr h b tb.
Proof. intros H. remember (TApp2 f a b tf ta tb) as t eqn:E. by induction H; simplify_eq; eauto. Qed.

Section held.
Context (g : scc_globals).
Implicit Types (k : nat) (μ : N → Z) (own : list (ptr * tm)) (m : mem) (X : error → Prop).

Lemma held_borrows k μ own m e t : held g k μ own m → borrows own e t → repr (heap m) e t.
Proof.
  intros Hh. induction 1; [by eapply held_repr|..].
  all: first [apply repr_app1_kids in IHborrows | apply repr_app2_kids in IHborrows];
    by destruct_and?.
Qed.

Lemma held_weaken k k' μ own m : k' ≤ k → held g k μ own m → held g k' μ own m.
Proof. intros Hk [Ho Hr Hm Hn Hmk Hg]. split; try done; [|lia]. intros a n Ha. specialize (Hm a n Ha). lia. Qed.

Lemma held_perm k μ own own' m : own ≡ₚ own' → held g k μ own m → held g k μ own' m.
Proof.
  intros HP [Ho Hr Hm Hn Hmk Hg]. split; try done.
  - by eapply owns_perm; [|done]; rewrite HP.
  - intros e t. rewrite <-HP. apply Hr.
Qed.

Lemma wp_inc k μ own m e t (Q : () → mem → Prop) X :
  held g k μ own m → borrows own e t → 1 ≤ k →
  (∀ m', held g (k - 1) μ ((e, t) :: own) m' → Q () m') → wp (inc e m) Q X.
Proof.
  intros Hh Hb Hk HQ. pose proof (held_borrows _ _ _ _ _ _ Hh Hb) as Hr.
  destruct (repr_live _ _ _ Hr) as [Hne [n He]], Hh as [Ho Hre Hm Hn Hmk Hg].
  pose proof (Hm e n He) as Hle.
  destruct (inc_owns m e n own.*1) as (m' & Hrun & Ho' & Eh & En); [done..|lia|].
  eapply wp_run; [exact Hrun|]. apply HQ.
  assert (Hst : ∀ a, stays (heap m) (heap m') a).
  { intros a na Ha. rewrite Eh. destruct (decide (a = e)) as [->|];
      [rewrite lookup_insert_eq|rewrite lookup_insert_ne by done]; simplify_eq; eauto. }
  assert (m' = set_heap (heap m') m) as Em.
  { unfold inc in Hrun. rewrite (bind_run _ _ _ _ _ (load_run m e n Hne He)) in Hrun.
    apply modify_ok in Hrun as ->. done. }
  split; [done| | |lia|by rewrite Em..].
  - intros e' t' [[= -> ->]|?]%elem_of_cons; eapply repr_grow; eauto.
  - intros a na. rewrite Eh. intros [[<- <-]|[_ Ha]]%lookup_insert_Some; simpl; [lia|].
    specialize (Hm a na Ha). lia.
Qed.

Lemma wp_inc_null m (Q : () → mem → Prop) X : X (Undefined NullDeref) → wp (inc null m) Q X.
Proof. done. Qed.

Lemma wp_dec_null m (Q : () → mem → Prop) X : X (Undefined NullDeref) → wp (dec null m) Q X.
Proof. done. Qed.

Lemma wp_dec k μ own own' m e t (Q : () → mem → Prop) X :
  held g k μ own m → own ≡ₚ (e, t) :: own' →
  (∀ m', held g k μ own' m' → Q () m') → wp (dec e m) Q X.
Proof.
  intros Hh HP HQ. apply (held_perm _ _ _ _ _ HP) in Hh as [Ho Hre Hm Hn Hmk Hg].
  destruct (dec_owns m e own'.*1 Ho) as (m' & Hrun & Em & Ho' & Hs).
  eapply wp_run; [exact Hrun|]. apply HQ. split; [done| | |done|by rewrite Em..].
  - intros e' t' He'. destruct (covers_live (heap m') own'.*1 e') as (n' & Hn' & _); [by apply Ho'| |].
    { apply list_elem_of_fmap. by exists (e', t'). }
    eapply repr_shrink; [done|by apply Ho'|eauto|]. apply Hre. by constructor.
  - intros a n' Ha. destruct (Hs a n' Ha) as (n & Han & _ & _ & ?). specialize (Hm a n Han). lia.
Qed.

(** A new object takes over the references it stores. *)
Lemma held_new_object k μ own m b (ks : list (ptr * tm)) t :
  held g k μ (ks ++ own) m → outs b = ks.*1 → terminated b →
  (∀ h, (∀ e' t', (e', t') ∈ ks → repr h e' t') → h !! next_addr m = Some (Node 1 false b) →
    next_addr m ≠ null → repr h (next_addr m) t) →
  ∃ m', new b m = Ok (next_addr m, m') ∧ held g k μ ((next_addr m, t) :: own) m'.
Proof.
  intros [Ho Hre Hm Hn Hmk Hg] Hb Ht Hrepr. rewrite fmap_app, <-Hb in Ho.
  destruct (new_owns m b own.*1 Ho Ht) as (m' & Hrun & Ho' & Eh).
  exists m'. split; [done|]. assert (Hf : heap m !! next_addr m = None).
  { destruct (heap m !! next_addr m) as [n|] eqn:E; [|done]. apply (owns_fresh _ _ Ho) in E. lia. }
  assert (Hst : ∀ a, stays (heap m) (heap m') a).
  { intros a na Ha. rewrite Eh, lookup_insert_ne by congruence. eauto. }
  split; [done| | |done|injection Hrun as <-; done..].
  - intros e' t' [[= -> ->]|He']%elem_of_cons.
    + apply Hrepr; [|by rewrite Eh, lookup_insert_eq|pose proof (owns_next _ _ Ho); lia].
      intros e' t' He'. apply (repr_grow (heap m)); [done|]. apply Hre. set_solver.
    + apply (repr_grow (heap m)); [done|]. apply Hre. set_solver.
  - intros a na. rewrite Eh. intros [[<- <-]|[_ Ha]]%lookup_insert_Some; [simpl; lia|eauto].
Qed.

Lemma held_nonnull k μ own m e t : held g k μ own m → (e, t) ∈ own → e ≠ null.
Proof. intros Hh He. by destruct (repr_live _ _ _ (held_repr _ _ _ _ _ Hh e t He)). Qed.

Lemma wp_new_int k μ own m z (Q : ptr → mem → Prop) X :
  held g k μ own m → (∀ e m', held g k μ ((e, TInt z) :: own) m' → Q e m') → wp (new_int z m) Q X.
Proof.
  intros Hh HQ. destruct (held_new_object k μ own m (PInt z) [] (TInt z)) as (m' & Hrun & Hh'); [done..| |].
  { intros h _ Hl Hne. by eapply R_int. }
  eapply wp_run; [exact Hrun|]. by apply HQ.
Qed.

Lemma wp_new_app1 k μ own own' m f tf a ta (Q : ptr → mem → Prop) X :
  held g k μ own m → own ≡ₚ (f, tf) :: (a, ta) :: own' →
  (∀ e m', held g k μ ((e, TApp1 f a tf ta) :: own') m' → Q e m') →
  wp (new_cexpr APP [f; a] m) Q X.
Proof.
  intros Hh HP HQ. apply (held_perm _ _ _ _ _ HP) in Hh.
  assert (f ≠ null ∧ a ≠ null) as [??] by (split; (eapply held_nonnull; [exact Hh|here])).
  destruct (held_new_object k μ own' m (PC APP [f; a; null]) [(f, tf); (a, ta)] (TApp1 f a tf ta))
    as (m' & Hrun & Hh'); [done|simpl; by rewrite !decide_False by done| | |].
  - simpl. rewrite !decide_False by done. eauto.
  - intros h Hk Hl Hne. eapply R_app1; [done..|apply Hk; set_solver|apply Hk; set_solver].
  - eapply wp_run; [exact Hrun|]. by apply HQ.
Qed.

Lemma wp_new_app2 k μ own own' m f tf a ta b tb (Q : ptr → mem → Prop) X :
  held g k μ own m → own ≡ₚ (f, tf) :: (a, ta) :: (b, tb) :: own' →
  (∀ e m', held g k μ ((e, TApp2 f a b tf ta tb) :: own') m' → Q e m') →
  wp (new_cexpr APP [f; a; b] m) Q X.
Proof.
  intros Hh HP HQ. apply (held_perm _ _ _ _ _ HP) in Hh.
  assert (f ≠ null ∧ a ≠ null ∧ b ≠ null) as (?&?&?) by (split_and!; (eapply held_nonnull; [exact Hh|here])).
  destruct (held_new_object k μ own' m (PC APP [f; a; b; null]) [(f, tf); (a, ta); (b, tb)]
    (TApp2 f a b tf ta tb)) as (m' & Hrun & Hh'); [done|simpl; by rewrite !decide_False by done| | |].
  - simpl. rewrite !decide_False by done. eauto.
  - intros h Hk Hl Hne. eapply R_app2; [done..|apply Hk; set_solver|apply Hk; set_solver|apply Hk; set_solver].
  - eapply wp_run; [exact Hrun|]. by apply HQ.
Qed.
End held.

(** ** Deciding the state *)

#[global] Instance fraction_eq_dec : EqDecision Q.
Proof. solve_decision. Defined.

(** [repr] without definitions in between. *)
Fixpoint reprb (h : gmap N node) (e : ptr) (t : tm) : bool :=
  bool_decide (e ≠ null) &&
  match h !! e with
  | None => false
  | Some n =>
      match t with
      | TRef p => bool_decide (p = e)
      | TAtom p => bool_decide (p = e) && bool_decide (next h e = None) && bool_decide (op_of (body n) ≠ APP)
      | TInt z => if body n is PInt z' then bool_decide (z' = z) else false
      | TRat q => if body n is PRat q' then bool_decide (q' = q) else false
      | TApp1 f a tf ta =>
          (if body n is PC APP ks then bool_decide (ks = [f; a; null]) else false) &&
          reprb h f tf && reprb h a ta
      | TApp2 f a b tf ta tb =>
          (if body n is PC APP ks then bool_decide (ks = [f; a; b; null]) else false) &&
          reprb h f tf && reprb h a ta && reprb h b tb
      end
  end.

Lemma reprb_nonnull h e t : reprb h e t = true → e ≠ null.
Proof. destruct t; cbn [reprb]; by intros [?%bool_decide_eq_true _]%andb_true_iff. Qed.

Lemma reprb_sound h e t : reprb h e t = true → repr h e t.
Proof.
  revert e. induction t; intros e; cbn [reprb]; rewrite andb_true_iff, bool_decide_eq_true;
    intros [Hne H]; destruct (h !! e) as [n|] eqn:He; try done.
  - apply bool_decide_eq_true in H as ->. by eapply R_ref.
  - rewrite !andb_true_iff, !bool_decide_eq_true in H. destruct H as [[-> ?] ?]. by eapply R_atom.
  - destruct (body n) eqn:Eb; try done. apply bool_decide_eq_true in H as ->. by eapply R_int.
  - destruct (body n) eqn:Eb; try done. apply bool_decide_eq_true in H as ->. by eapply R_rat.
  - rewrite !andb_true_iff in H. destruct H as [[Hb ?] ?].
    destruct (body n) as [[] ks| | | | |] eqn:Eb; try done. apply bool_decide_eq_true in Hb as ->.
    eapply R_app1; eauto using reprb_nonnull.
  - rewrite !andb_true_iff in H. destruct H as [[[Hb ?] ?] ?].
    destruct (body n) as [[] ks| | | | |] eqn:Eb; try done. apply bool_decide_eq_true in Hb as ->.
    eapply R_app2; eauto using reprb_nonnull.
Qed.

(** The marks of a state. *)
Definition marks_of (m : mem) : N → Z := λ a, default 0%Z (mark_map m !! a).

Definition heldb (k : nat) (own : list (ptr * tm)) (m : mem) : bool :=
  ownsb m own.*1 && forallb (λ p, reprb (heap m) p.1 p.2) own &&
  forallb (λ p : N * node, (refcnt p.2 + Z.of_nat k <=? max_refcnt)%Z) (map_to_list (heap m)) &&
  (1 + Z.of_nat k <=? max_refcnt)%Z.

Lemma heldb_sound k own m : heldb k own m = true → held (scc_vars m) k (marks_of m) own m.
Proof.
  unfold heldb. rewrite !andb_true_iff, !forallb_forall, Z.leb_le. intros [[[Ho Hr] Hm] Hn].
  split; [by apply ownsb_sound| | |done|done|done].
  - intros e t He%list_elem_of_In%Hr. by apply reprb_sound.
  - intros a n Ha%elem_of_map_to_list%list_elem_of_In%Hm. by apply Z.leb_le.
Qed.
