(* ===== verification/SccRules.v ===== *)
(** * Rules for the generated code

    One rule of the logic of Owned.v for each translation of SccCode.v: matching
    on the head of a term, marking variables, numbers, and applications. *)

From stdpp Require Import base tactics list strings gmap numbers sorting.
From S2P Require Import Prelude Header Memory Expr Code Follow Alpha RefCount SccCode Owned.

(** ** Bits of a mark word *)

Lemma bit_get_testbit k i : (0 ≤ i)%Z → bit_get k i = Z.b2z (Z.testbit k i).
Proof.
  intros Hi. unfold bit_get. change 1%Z with (Z.ones 1). rewrite Z.land_ones by lia.
  by rewrite Z.testbit_spec', Z.shiftr_div_pow2.
Qed.

Lemma bit_set_setbit k i : (0 ≤ i < 31)%Z → bit_set k i = Z.setbit k i.
Proof.
  intros Hi. unfold bit_set, Z.setbit. f_equal. rewrite Z.shiftl_1_l. unfold wrap32.
  assert (0 < 2 ^ i < 2 ^ 31)%Z by (split; [lia|apply Z.pow_lt_mono_r; lia]).
  rewrite Z.mod_small; lia.
Qed.

Lemma bit_clear_clearbit k i : (0 ≤ i < 31)%Z → bit_clear k i = Z.clearbit k i.
Proof.
  intros Hi. unfold bit_clear, Z.clearbit. rewrite Z.ldiff_land. do 2 f_equal.
  rewrite Z.shiftl_1_l. unfold wrap32.
  assert (0 < 2 ^ i < 2 ^ 31)%Z by (split; [lia|apply Z.pow_lt_mono_r; lia]).
  rewrite Z.mod_small; lia.
Qed.

Definition put (μ : N → Z) (p : ptr) (z : Z) : N → Z := λ a, if decide (a = p) then z else μ a.

(** The marks after [(markvar p)]. *)
Definition flip (μ : N → Z) (p : ptr) (i : Z) : N → Z :=
  put μ p (if Z.testbit (μ p) i then Z.clearbit (μ p) i else Z.setbit (μ p) i).

Lemma testbit_flip μ p i p' i' :
  (0 ≤ i)%Z → (0 ≤ i')%Z →
  Z.testbit (flip μ p i p') i' =
    if decide (p' = p ∧ i' = i) then negb (Z.testbit (μ p) i) else Z.testbit (μ p') i'.
Proof.
  intros Hi Hi'. unfold flip, put. destruct (decide (p' = p)) as [->|Hne].
  2:{ by rewrite decide_False by tauto. }
  destruct (decide (i' = i)) as [->|Hne].
  - rewrite decide_True by done. destruct (Z.testbit (μ p) i) eqn:E;
      [by rewrite Z.clearbit_eq|by rewrite Z.setbit_eq].
  - rewrite decide_False by tauto.
    destruct (Z.testbit (μ p) i); [by rewrite Z.clearbit_neq|by rewrite Z.setbit_neq].
Qed.

(** ** Steps *)

Lemma borrows_mono own own' e t :
  (∀ p, p ∈ own → p ∈ own') → borrows own e t → borrows own' e t.
Proof. intros Hs. induction 1; eauto using borrows. Qed.

(** A reference in a list that is written out up to a frame. *)
Ltac member := repeat first [eassumption | apply list_elem_of_here | apply list_elem_of_further].
Ltac members := intros ? ?; repeat first [eassumption | apply list_elem_of_further].
Ltac borrow :=
  first [apply B_own; solve [member] | eassumption | eapply borrows_mono; [|eassumption]; solve [members]].

Ltac without_ref e l :=
  lazymatch l with
  | (e, ?t) :: ?r => constr:(r)
  | ?a :: ?r => let r' := without_ref e r in constr:(a :: r')
  | ?a ++ ?r => let r' := without_ref e r in constr:(a ++ r')
  end.
Ltac ref_term e l :=
  lazymatch l with
  | (e, ?t) :: ?r => constr:(t)
  | ?a :: ?r => ref_term e r
  | ?a ++ ?r => ref_term e r
  end.

(** One statement: the rule, and the new state in place of the old one. *)
Ltac wnext H := let H' := fresh in intros ? H'; clear H; rename H' into H; cbn [app] in H.
Ltac wstep :=
  lazymatch goal with
  | |- wp ((_ ≫= _) _) _ _ => apply wp_bind; wstep
  | H : held ?g ?k ?μ ?own ?m |- wp (inc ?e ?m) _ _ =>
      eapply (wp_inc g k μ own m e); [exact H|borrow|lia|wnext H]
  | H : held ?g ?k ?μ ?own ?m |- wp (dec ?e ?m) _ _ =>
      let t := ref_term e own in let own' := without_ref e own in
      apply (wp_dec g k μ own own' m e t); [exact H|solve_Permutation|wnext H]
  | |- wp (mret _ _) _ _ => simpl
  end.

(** [head_is t c]: the head of [t] is the constant [c]. *)
Inductive head_is : tm → ptr → Prop :=
  | H_atom c : head_is (TAtom c) c
  | H_app1 f a c ta : head_is (TApp1 f a (TAtom c) ta) c
  | H_app2 f a b c ta tb : head_is (TApp2 f a b (TAtom c) ta tb) c.

Section rules.
Context (g : scc_globals).
Implicit Types (k : nat) (μ : N → Z) (own : list (ptr * tm)) (m : mem) (X : error → Prop).

(** ** Reading *)

Lemma head_of_run k μ own m e t c :
  held g k μ own m → borrows own e t → head_is t c → head_of e m = Ok (c, m).
Proof.
  intros Hh Hb Hc. pose proof (held_borrows _ _ _ _ _ _ _ Hh Hb) as Hr.
  destruct (repr_followDefs m e t) as (a & n & Hf & Hne & Ha & Ht); [by destruct Hc|done|].
  unfold head_of. rewrite (bind_run _ _ _ _ _ Hf). destruct Hc as [c|f a' c ta|f a' b c ta tb]; simpl in Ht.
  - destruct Ht as [<- Hop]. by eapply get_head_atom.
  - apply repr_app1_kids in Hr as [Hf' _]. by eapply get_head_app.
  - apply repr_app2_kids in Hr as (Hf' & _ & _). by eapply get_head_app.
Qed.

Definition nth_arg (t : tm) (i : nat) : option (ptr * tm) :=
  match t, i with
  | TApp1 _ a _ ta, 1 => Some (a, ta)
  | TApp2 _ a _ _ ta _, 1 => Some (a, ta)
  | TApp2 _ _ b _ _ tb, 2 => Some (b, tb)
  | _, _ => None
  end.

Lemma arg_of_run k μ own m e t i a ta :
  held g k μ own m → borrows own e t → nth_arg t i = Some (a, ta) →
  arg_of e i m = Ok (a, m) ∧ borrows own a ta.
Proof.
  intros Hh Hb Hi. pose proof (held_borrows _ _ _ _ _ _ _ Hh Hb) as Hr.
  destruct (repr_followDefs m e t) as (d & n & Hf & Hne & Hd & Ht); [by destruct t|done|].
  unfold arg_of. rewrite (bind_run _ _ _ _ _ Hf).
  destruct t as [| | | |f a' tf ta'|f a' b tf ta' tb], i as [|[|[|]]]; simplify_eq/=;
    (split; [by eapply kid_run|eauto using borrows]).
Qed.

Lemma followDefs_atom k μ own m e p :
  held g k μ own m → borrows own e (TAtom p) → followDefs e m = Ok (p, m).
Proof.
  intros Hh Hb. pose proof (held_borrows _ _ _ _ _ _ _ Hh Hb) as Hr.
  by destruct (repr_followDefs m e (TAtom p)) as (d & n & Hf & Hne & Hd & -> & _).
Qed.

(** ** Marks *)

Lemma held_set_marks k μ μ' own m mk :
  held g k μ own m → (∀ a, default 0%Z (mk !! a) = μ' a) → held g k μ' own (set_marks mk m).
Proof. intros [[Hc Hf Hx] Hre Hm Hn Hmk Hg] Hmk'. by split. Qed.

(** [mark] adds an entry for a symbol it does not know. *)
Lemma mark_run k μ own m p :
  held g k μ own m → ∃ m', mark p m = Ok (μ p, m') ∧ held g k μ own m'.
Proof.
  intros Hh. pose proof (held_marks _ _ _ _ _ Hh p) as Hp. unfold mark.
  destruct (mark_map m !! p) as [z|] eqn:E; simpl in Hp; rewrite <-Hp; [by exists m|].
  eexists. split; [done|]. eapply held_set_marks; [done|]. intros a.
  destruct (decide (a = p)) as [->|]; [by rewrite lookup_insert_eq|].
  rewrite lookup_insert_ne by done. by apply Hh.
Qed.

Lemma wp_getmark k μ own m p i (Q : Z → mem → Prop) X :
  held g k μ own m → (∀ m', held g k μ own m' → Q (bit_get (μ p) i) m') → wp (getmark p i m) Q X.
Proof.
  intros Hh HQ. destruct (mark_run k μ own m p Hh) as (m' & Hrun & Hh').
  unfold getmark. rewrite (bind_run _ _ _ _ _ Hrun). by apply HQ.
Qed.

Lemma wp_smark k μ own m p z (Q : () → mem → Prop) X :
  held g k μ own m → (∀ m', held g k (put μ p z) own m' → Q () m') → wp (smark p z m) Q X.
Proof.
  intros Hh HQ. apply HQ. eapply held_set_marks; [done|]. intros a. unfold put.
  case_decide; [subst; by rewrite lookup_insert_eq|]. rewrite lookup_insert_ne by done. by apply Hh.
Qed.

(** [if (getmark(i)) clearmark(i); else setmark(i);] *)
Lemma wp_toggle k μ own m p i (Q : () → mem → Prop) X :
  held g k μ own m → (0 ≤ i < 31)%Z →
  (∀ m', held g k (flip μ p i) own m' → Q () m') →
  wp ((if decide (bit_get (μ p) i ≠ 0%Z) then clearmark p i else setmark p i) m) Q X.
Proof.
  intros Hh Hi HQ. destruct (mark_run k μ own m p Hh) as (m' & Hrun & Hh').
  rewrite bit_get_testbit by lia. unfold flip in HQ.
  destruct (Z.testbit (μ p) i); simpl.
  - unfold clearmark. rewrite (bind_run _ _ _ _ _ Hrun), bit_clear_clearbit by done. by eapply wp_smark.
  - unfold setmark. rewrite (bind_run _ _ _ _ _ Hrun), bit_set_setbit by done. by eapply wp_smark.
Qed.

(** ** Generated statements *)

Lemma wp_gen_sym k μ own m e t (Q : ptr → mem → Prop) X :
  held g k μ own m → borrows own e t → 1 ≤ k →
  (∀ m', held g (k - 1) μ ((e, t) :: own) m' → Q e m') → wp (gen_sym e m) Q X.
Proof. intros Hh Hb Hk HQ. unfold gen_sym. wstep. apply HQ. done. Qed.

Lemma wp_drop k μ own m (c : M mem ptr) (Q : () → mem → Prop) X :
  wp (c m) (λ e m', ∃ t, held g k μ ((e, t) :: own) m' ∧ ∀ m2, held g k μ own m2 → Q () m2) X →
  wp (gen_drop c m) Q X.
Proof.
  intros H. unfold gen_drop. apply wp_bind. eapply wp_mono; [exact H| |done].
  intros e m' (t & Hh & HQ). wstep. by apply HQ.
Qed.

Lemma wp_markvar k μ own m v p i (Q : ptr → mem → Prop) X :
  held g k μ own m → borrows own v (TAtom p) → 2 ≤ k → (0 ≤ i < 31)%Z →
  (∀ m', held g (k - 2) (flip μ p i) ((v, TAtom p) :: own) m' → Q v m') →
  wp (gen_markvar v i m) Q X.
Proof.
  intros Hh Hb Hk Hi HQ. unfold gen_markvar. wstep.
  rewrite (bind_run _ _ _ _ _ (followDefs_atom _ _ _ _ v p Hh ltac:(borrow))).
  apply wp_bind. eapply wp_getmark; [exact Hh|]. wnext Hh.
  rewrite (bind_run _ _ _ _ _ (followDefs_atom _ _ _ _ v p Hh ltac:(borrow))).
  apply wp_bind. eapply wp_toggle; [exact Hh|done|]. wnext Hh.
  do 3 wstep. apply HQ. eapply held_weaken; [|done]. lia.
Qed.

(** The branch ends with [k'], [μ'] and the references [res] of its result. *)
Lemma wp_ifmarked k μ own m v p i (yes no : M mem ptr) (Q : ptr → mem → Prop) X :
  held g k μ own m → borrows own v (TAtom p) → 1 ≤ k → (0 ≤ i)%Z →
  (∀ m', held g (k - 1) μ ((v, TAtom p) :: own) m' →
    wp ((if Z.testbit (μ p) i then yes else no) m') (λ e m2, ∃ k' μ' res,
      held g k' μ' (res ++ (v, TAtom p) :: own) m2 ∧
      ∀ m3, held g k' μ' (res ++ own) m3 → Q e m3) X) →
  wp (gen_ifmarked v i yes no m) Q X.
Proof.
  intros Hh Hb Hk Hi HB. unfold gen_ifmarked. wstep.
  rewrite (bind_run _ _ _ _ _ (followDefs_atom _ _ _ _ v p Hh ltac:(borrow))).
  apply wp_bind. eapply wp_getmark; [exact Hh|]. wnext Hh. apply wp_bind.
  eapply wp_mono; [| |done].
  { rewrite bit_get_testbit by done. specialize (HB _ Hh). by destruct (Z.testbit (μ p) i). }
  intros e m2 (k' & μ' & res & Hh2 & HQ). clear Hh. wstep. by apply HQ.
Qed.

Lemma wp_match2 k μ own m f c t hd ct1 ct2 (case1 case2 : M mem ptr) (Q : ptr → mem → Prop) X :
  held g k μ own m → borrows own c t → head_is t hd → borrows own ct1 (TAtom ct1) →
  borrows own ct2 (TAtom ct2) → 3 ≤ k → hd = ct1 ∨ (hd = ct2 ∧ ct1 ≠ ct2) →
  (∀ m', held g (k - 3) μ ((ct2, TAtom ct2) :: (ct1, TAtom ct1) :: (c, t) :: own) m' →
    wp ((if decide (hd = ct1) then case1 else case2) m') (λ e m2, ∃ k' μ' res,
      held g k' μ' (res ++ (ct2, TAtom ct2) :: (ct1, TAtom ct1) :: (c, t) :: own) m2 ∧
      ∀ m3, held g k' μ' (res ++ own) m3 → Q e m3) X) →
  wp (gen_match2 f c ct1 ct2 case1 case2 m) Q X.
Proof.
  intros Hh Hb Hhd H1 H2 Hk Hor HB. unfold gen_match2. wstep.
  rewrite (bind_run _ _ _ _ _ (head_of_run _ _ _ _ c t hd Hh ltac:(borrow) Hhd)). do 2 wstep.
  apply wp_bind. eapply wp_mono; [| |done].
  { eapply held_weaken in Hh; [specialize (HB _ Hh)|lia]. destruct Hor as [->|[-> Hne]].
    - rewrite decide_True in HB |- * by done. exact HB.
    - rewrite decide_False in HB |- * by done. rewrite decide_True by done. exact HB. }
  intros e m2 (k' & μ' & res & Hh2 & HQ). clear Hh. do 3 wstep. by apply HQ.
Qed.

Lemma wp_gen_app1 k μ own own' m f tf a ta (Q : ptr → mem → Prop) X :
  held g k μ own m → borrows own f tf → own ≡ₚ (a, ta) :: own' → 1 ≤ k →
  (∀ e m', held g (k - 1) μ ((e, TApp1 f a tf ta) :: own') m' → Q e m') →
  wp (gen_app f [a] m) Q X.
Proof.
  intros Hh Hb HP Hk HQ. unfold gen_app. apply wp_bind.
  eapply wp_inc; [exact Hh|exact Hb|done|]. wnext Hh.
  eapply wp_new_app1; [exact Hh|by rewrite HP|]. exact HQ.
Qed.

Lemma wp_gen_app2 k μ own own' m f tf a ta b tb (Q : ptr → mem → Prop) X :
  held g k μ own m → borrows own f tf → own ≡ₚ (a, ta) :: (b, tb) :: own' → 1 ≤ k →
  (∀ e m', held g (k - 1) μ ((e, TApp2 f a b tf ta tb) :: own') m' → Q e m') →
  wp (gen_app f [a; b] m) Q X.
Proof.
  intros Hh Hb HP Hk HQ. unfold gen_app. apply wp_bind.
  eapply wp_inc; [exact Hh|exact Hb|done|]. wnext Hh.
  eapply wp_new_app2; [exact Hh|by rewrite HP|]. exact HQ.
Qed.
End rules.

(** [c = ((CExpr* )e->followDefs())->kids[i]] *)
Ltac warg e t i :=
  lazymatch goal with
  | H : held ?g ?k ?μ ?own ?m |- wp ((arg_of e i ≫= _) ?m) _ _ =>
      let Hr := fresh in let Hb := fresh "Hb" in
      edestruct (arg_of_run g k μ own m e t i) as [Hr Hb]; [exact H|borrow|reflexivity|];
      rewrite (bind_run _ _ _ _ _ Hr); clear Hr
  end.

(** [gen_app], whose result is a new reference. *)
Ltac wresult H := let H' := fresh in intros ? ? H'; clear H; rename H' into H.
Ltac wapp :=
  lazymatch goal with
  | |- wp ((_ ≫= _) _) _ _ => apply wp_bind; wapp
  | H : held ?g ?k ?μ ?own ?m |- wp (gen_app ?f [?a; ?b] ?m) _ _ =>
      let ta := ref_term a own in let own1 := without_ref a own in
      let tb := ref_term b own1 in let own2 := without_ref b own1 in
      eapply (wp_gen_app2 g k μ own own2 m f _ a ta b tb);
        [exact H|borrow|solve_Permutation|lia|wresult H]
  | H : held ?g ?k ?μ ?own ?m |- wp (gen_app ?f [?a] ?m) _ _ =>
      let ta := ref_term a own in let own1 := without_ref a own in
      eapply (wp_gen_app1 g k μ own own1 m f _ a ta);
        [exact H|borrow|solve_Permutation|lia|wresult H]
  end.
