(* ===== verification/ClauseSpec.v ===== *)
(** * What the compiled clause programs compute (scccode.cpp)

    [f_append] concatenates clauses, and [f_simplify_clause] evaluates a general
    clause, in which [concat_cl] joins two clauses and [clr] removes a literal
    that has to occur: the result lists exactly the literals of the meaning of
    the clause, the marks are put back, and every reference is accounted for. *)

From stdpp Require Import base tactics list strings gmap numbers sorting.
From S2P Require Import Prelude Header Memory Expr Code Follow Alpha RefCount SccCode Owned SccRules.

(** ** Literals and clauses *)

Inductive lit := Pos (v : ptr) | Neg (v : ptr).
#[global] Instance lit_eq_dec : EqDecision lit.
Proof. solve_decision. Defined.

Inductive clause :=
  | Cln
  | Clc (l : lit) (c : clause)
  | Concat (c1 c2 : clause)
  | Clr (l : lit) (c : clause).

(** The meaning of a clause is the set of the literals that occur in it. *)
Fixpoint occurs (l : lit) (c : clause) : bool :=
  match c with
  | Cln => false
  | Clc l' c => bool_decide (l = l') || occurs l c
  | Concat c1 c2 => occurs l c1 || occurs l c2
  | Clr l' c => bool_decide (l ≠ l') && occurs l c
  end.

(** A literal that is removed has to be there. *)
Fixpoint removable (c : clause) : bool :=
  match c with
  | Cln => true
  | Clc _ c => removable c
  | Concat c1 c2 => removable c1 && removable c2
  | Clr l c => occurs l c && removable c
  end.

Fixpoint nodes (c : clause) : nat :=
  match c with
  | Cln => 1
  | Clc _ c | Clr _ c => S (nodes c)
  | Concat c1 c2 => S (nodes c1 + nodes c2)
  end.

(** References the code takes along the way, at most. *)
Definition append_cost (n : nat) : nat := 8 * S n.
Fixpoint simplify_cost (c : clause) : nat :=
  match c with
  | Cln => 6
  | Clc _ c | Clr _ c => 40 + simplify_cost c
  | Concat c1 c2 => 7 + simplify_cost c1 + simplify_cost c2 + append_cost (nodes c1)
  end.

(** ** Marks

    Each literal has two marks: one that says it is to be removed, and one that
    says it was removed. *)

Definition lvar (l : lit) : ptr := match l with Pos v | Neg v => v end.
Definition ri (l : lit) : Z := match l with Pos _ => 0 | Neg _ => 1 end.
Definition fi (l : lit) : Z := match l with Pos _ => 2 | Neg _ => 3 end.

Definition removing (μ : N → Z) (l : lit) : bool := Z.testbit (μ (lvar l)) (ri l).
Definition removed (μ : N → Z) (l : lit) : bool := Z.testbit (μ (lvar l)) (fi l).
Definition flip_r (μ : N → Z) (l : lit) : N → Z := flip μ (lvar l) (ri l).
Definition flip_f (μ : N → Z) (l : lit) : N → Z := flip μ (lvar l) (fi l).

(** Only literals that are to be removed were removed. *)
Definition tidy (μ : N → Z) : Prop := ∀ l, removed μ l = true → removing μ l = true.

(** The marks after a clause: the literals that were removed from it are added. *)
Definition after (μ : N → Z) (c : clause) (μ' : N → Z) : Prop :=
  (∀ l, removing μ' l = removing μ l) ∧
  (∀ l, removed μ' l = removed μ l || (removing μ l && occurs l c)) ∧
  (∀ p i, (4 ≤ i)%Z → Z.testbit (μ' p) i = Z.testbit (μ p) i).

Ltac bit_tac := destruct_and?; simplify_eq; first [done | exfalso; by eauto].

Lemma removing_flip_r μ l l' :
  removing (flip_r μ l) l' = if decide (l' = l) then negb (removing μ l) else removing μ l'.
Proof.
  unfold removing, flip_r. rewrite testbit_flip by (by destruct l, l').
  destruct l, l'; simpl; repeat case_decide; bit_tac.
Qed.
Lemma removed_flip_r μ l l' : removed (flip_r μ l) l' = removed μ l'.
Proof.
  unfold removed, flip_r. rewrite testbit_flip by (by destruct l, l').
  destruct l, l'; simpl; case_decide; bit_tac.
Qed.
Lemma removing_flip_f μ l l' : removing (flip_f μ l) l' = removing μ l'.
Proof.
  unfold removing, flip_f. rewrite testbit_flip by (by destruct l, l').
  destruct l, l'; simpl; case_decide; bit_tac.
Qed.
Lemma removed_flip_f μ l l' :
  removed (flip_f μ l) l' = if decide (l' = l) then negb (removed μ l) else removed μ l'.
Proof.
  unfold removed, flip_f. rewrite testbit_flip by (by destruct l, l').
  destruct l, l'; simpl; repeat case_decide; bit_tac.
Qed.
Lemma high_flip_r μ l p i : (4 ≤ i)%Z → Z.testbit (flip_r μ l p) i = Z.testbit (μ p) i.
Proof.
  intros Hi. unfold flip_r. rewrite testbit_flip by (destruct l; simpl; lia).
  rewrite decide_False; [done|]. destruct l; simpl; lia.
Qed.
Lemma high_flip_f μ l p i : (4 ≤ i)%Z → Z.testbit (flip_f μ l p) i = Z.testbit (μ p) i.
Proof.
  intros Hi. unfold flip_f. rewrite testbit_flip by (destruct l; simpl; lia).
  rewrite decide_False; [done|]. destruct l; simpl; lia.
Qed.

Lemma after_cln μ : after μ Cln μ.
Proof. split_and!; intros; simpl; by rewrite ?andb_false_r, ?orb_false_r. Qed.

Lemma after_concat μ c1 μ1 c2 μ2 : after μ c1 μ1 → after μ1 c2 μ2 → after μ (Concat c1 c2) μ2.
Proof.
  intros (R1 & F1 & H1) (R2 & F2 & H2). split_and!; intros; simpl.
  - by rewrite R2.
  - rewrite F2, F1, R1. by destruct (removed μ l), (removing μ l), (occurs l c1).
  - by rewrite H2, H1.
Qed.

Lemma after_tidy μ c μ' : tidy μ → after μ c μ' → tidy μ'.
Proof.
  intros Ht (HR & HF & _) l. rewrite HR, HF. specialize (Ht l).
  destruct (removed μ l), (removing μ l); simpl; auto.
Qed.

(** A literal that is to be removed, found again. *)
Lemma after_clc_removed μ l c μ1 :
  removing μ l = true → after μ c μ1 → after μ (Clc l c) (if removed μ1 l then μ1 else flip_f μ1 l).
Proof.
  intros Hl (HR & HF & Hh).
  assert (E : ∀ l', removed (if removed μ1 l then μ1 else flip_f μ1 l) l' =
    if decide (l' = l) then true else removed μ1 l').
  { intros l'. destruct (removed μ1 l) eqn:E; rewrite ?removed_flip_f, ?E; case_decide; by subst. }
  split_and!; intros.
  - destruct (removed μ1 l); by rewrite ?removing_flip_f.
  - rewrite E, HF. simpl. case_decide; [subst|rewrite bool_decide_false by done; done].
    rewrite bool_decide_true, Hl by done. by destruct (removed μ l).
  - rewrite <-Hh by done. destruct (removed μ1 l); [done|by apply high_flip_f].
Qed.

(** A literal that stays: the copies of it in the rest of the clause go. *)
Lemma after_clc_kept μ l c μ1 :
  tidy μ → removing μ l = false → after (flip_r μ l) c μ1 →
  after μ (Clc l c) (flip_r (if removed μ1 l then flip_f μ1 l else μ1) l).
Proof.
  intros Ht Hl (HR & HF & Hh).
  assert (Hf : removed μ l = false) 
    by (destruct (removed μ l) eqn:E; [by rewrite (Ht l E) in Hl|done]).
  assert (E : ∀ l', removed (if removed μ1 l then flip_f μ1 l else μ1) l' =
    if decide (l' = l) then false else removed μ1 l').
  { intros l'. destruct (removed μ1 l) eqn:E; rewrite ?removed_flip_f, ?E; case_decide; by subst. }
  assert (E' : ∀ l', removing (if removed μ1 l then flip_f μ1 l else μ1) l' = removing μ1 l').
  { intros l'. destruct (removed μ1 l); by rewrite ?removing_flip_f. }
  split_and!; intros; simpl.
  - rewrite removing_flip_r, !E', !HR, !removing_flip_r. case_decide; [subst|done].
    by rewrite decide_True, Hl.
  - rewrite removed_flip_r, E. case_decide; [subst; by rewrite Hf, Hl|].
    by rewrite HF, removed_flip_r, removing_flip_r, decide_False, bool_decide_false by done.
  - rewrite high_flip_r by done. destruct (removed μ1 l); rewrite ?high_flip_f by done;
      by rewrite Hh, high_flip_r by done.
Qed.

(** The marks [clr] starts its clause with, and what it leaves. *)
Definition clr_start (μ : N → Z) (l : lit) : N → Z :=
  let μ1 := if removing μ l then μ else flip_r μ l in if removed μ1 l then flip_f μ1 l else μ1.
Definition clr_end (μ μ2 : N → Z) (l : lit) : N → Z :=
  let μ3 := if removed μ l then μ2 else flip_f μ2 l in if removing μ l then μ3 else flip_r μ3 l.

Lemma removing_clr_start μ l l' :
  removing (clr_start μ l) l' = if decide (l' = l) then true else removing μ l'.
Proof.
  unfold clr_start. destruct (removing μ l) eqn:E; [destruct (removed μ l)|destruct (removed (flip_r μ l) l)];
    rewrite ?removing_flip_f, ?removing_flip_r, ?E; case_decide; by subst.
Qed.

Lemma removed_clr_start μ l l' :
  removed (clr_start μ l) l' = if decide (l' = l) then false else removed μ l'.
Proof.
  unfold clr_start. destruct (removing μ l); [|rewrite removed_flip_r]; destruct (removed μ l) eqn:E;
    rewrite ?removed_flip_f, ?removed_flip_r, ?E; case_decide; by subst.
Qed.

Lemma high_clr_start μ l p i : (4 ≤ i)%Z → Z.testbit (clr_start μ l p) i = Z.testbit (μ p) i.
Proof.
  intros Hi. unfold clr_start. destruct (removing μ l); [|rewrite removed_flip_r];
    destruct (removed μ l); by rewrite ?high_flip_f, ?high_flip_r by done.
Qed.

Lemma clr_start_tidy μ l : tidy μ → tidy (clr_start μ l).
Proof. intros Ht l'. rewrite removing_clr_start, removed_clr_start. case_decide; [done|apply Ht]. Qed.

Lemma removed_after_clr μ l c μ2 : after (clr_start μ l) c μ2 → removed μ2 l = occurs l c.
Proof. intros (_ & HF & _). by rewrite HF, removed_clr_start, removing_clr_start, !decide_True. Qed.

Lemma after_clr μ l c μ2 :
  tidy μ → occurs l c = true → after (clr_start μ l) c μ2 → after μ (Clr l c) (clr_end μ μ2 l).
Proof.
  intros Ht Ho Ha. pose proof (removed_after_clr _ _ _ _ Ha) as Hl. rewrite Ho in Hl.
  destruct Ha as (HR & HF & Hh). unfold clr_end. split_and!; intros; simpl.
  - destruct (removing μ l) eqn:E1, (removed μ l); rewrite ?removing_flip_r, ?removing_flip_f, !HR, !removing_clr_start;
      repeat case_decide; by subst.
  - assert (removed (if removed μ l then μ2 else flip_f μ2 l) l0 =
      if decide (l0 = l) then removed μ l else removed μ2 l0) as E.
    { destruct (removed μ l) eqn:E1; rewrite ?removed_flip_f; case_decide; subst; by rewrite ?Hl. }
    transitivity (removed (if removed μ l then μ2 else flip_f μ2 l) l0).
    { destruct (removing μ l); by rewrite ?removed_flip_r. }
    rewrite E. case_decide; [subst; rewrite bool_decide_false by tauto; simpl; by rewrite andb_false_r, orb_false_r|].
    by rewrite HF, removed_clr_start, removing_clr_start, !decide_False, bool_decide_true by done.
  - destruct (removing μ l), (removed μ l); rewrite ?high_flip_r, ?high_flip_f by done;
      by rewrite Hh, high_clr_start by done.
Qed.

(** ** Clauses in the store *)

Section clauses.
Context (g : scc_globals).

(** A clause made with [cln] and [clc] only: the terms of its literals. *)
Inductive clause_list : tm → list tm → Prop :=
  | CL_nil : clause_list (TAtom (e_cln g)) []
  | CL_cons f a b tl tc ls : clause_list tc ls →
      clause_list (TApp2 f a b (TAtom (e_clc g)) tl tc) (tl :: ls).

Inductive lit_is : tm → lit → Prop :=
  | LI_pos f a v : lit_is (TApp1 f a (TAtom (e_pos g)) (TAtom v)) (Pos v)
  | LI_neg f a v : lit_is (TApp1 f a (TAtom (e_neg g)) (TAtom v)) (Neg v).

Inductive clause_is : tm → clause → Prop :=
  | CI_cln : clause_is (TAtom (e_cln g)) Cln
  | CI_clc f a b tl tc l c : lit_is tl l → clause_is tc c →
      clause_is (TApp2 f a b (TAtom (e_clc g)) tl tc) (Clc l c)
  | CI_concat f a b t1 t2 c1 c2 : clause_is t1 c1 → clause_is t2 c2 →
      clause_is (TApp2 f a b (TAtom (e_concat_cl g)) t1 t2) (Concat c1 c2)
  | CI_clr f a b tl tc l c : lit_is tl l → clause_is tc c →
      clause_is (TApp2 f a b (TAtom (e_clr g)) tl tc) (Clr l c).

(** The constructors are held by somebody, and are different symbols. *)
Record sat_consts (own : list (ptr * tm)) : Prop := SatConsts {
  has_cln : (e_cln g, TAtom (e_cln g)) ∈ own;
  has_clc : (e_clc g, TAtom (e_clc g)) ∈ own;
  has_concat : (e_concat_cl g, TAtom (e_concat_cl g)) ∈ own;
  has_clr : (e_clr g, TAtom (e_clr g)) ∈ own;
  has_pos : (e_pos g, TAtom (e_pos g)) ∈ own;
  has_neg : (e_neg g, TAtom (e_neg g)) ∈ own;
  has_tt : (e_tt g, TAtom (e_tt g)) ∈ own;
  has_ff : (e_ff g, TAtom (e_ff g)) ∈ own
}.

Definition sat_distinct : Prop :=
  NoDup [e_cln g; e_clc g; e_concat_cl g; e_clr g] ∧ e_pos g ≠ e_neg g ∧ e_tt g ≠ e_ff g.

Implicit Types (k : nat) (μ : N → Z) (own : list (ptr * tm)) (m : mem) (X : error → Prop).

(** ** [f_append] *)

Lemma wp_append ls1 ls2 fuel k μ own m c1 t1 c2 t2 (Q : ptr → mem → Prop) X :
  e_cln g ≠ e_clc g → length ls1 < fuel → append_cost (length ls1) ≤ k →
  held g k μ own m → (e_cln g, TAtom (e_cln g)) ∈ own → (e_clc g, TAtom (e_clc g)) ∈ own →
  borrows own c1 t1 → borrows own c2 t2 → clause_list t1 ls1 → clause_list t2 ls2 →
  (∀ e t m', held g (k - append_cost (length ls1)) μ ((e, t) :: own) m' →
    clause_list t (ls1 ++ ls2) → Q e m') →
  wp (f_append fuel c1 c2 m) Q X.
Proof.
  intros Hne. revert fuel k own m c1 t1 Q. unfold append_cost.
  induction ls1 as [|l ls1 IH]; intros fuel k own m c1 t1 Q Hf Hk Hh Hn Hc H1 H2 L1 L2 HQ;
    (destruct fuel as [|fuel]; [simpl in Hf; lia|]); simpl in Hf, Hk; cbn [f_append];
    apply wp_bind; (eapply wp_run; [done|]); rewrite (held_vars _ _ _ _ _ Hh);
    inversion L1 as [|f a b tl tc ls' L1']; subst.
  - eapply (wp_match2 g k μ own); [exact Hh|exact H1|constructor|by apply B_own|by apply B_own|lia|by left|].
    wnext Hh. rewrite decide_True by done. wstep. simpl. eexists (k - 4), μ, [(c2, t2)].
    split; [eapply held_weaken; [|done]; lia|]. intros m3 Hh3.
    eapply (HQ c2 t2); [|done]. eapply held_weaken; [|done]. simpl. lia.
  - eapply (wp_match2 g k μ own); [exact Hh|exact H1|constructor|by apply B_own|by apply B_own|lia|by right|].
    wnext Hh. rewrite decide_False by done.
    set (t1 := TApp2 f a b (TAtom (e_clc g)) l tc) in *.
    warg c1 t1 1. warg c1 t1 2. do 3 wstep. apply wp_bind.
    eapply (IH fuel); [lia| |exact Hh|member|member|borrow|borrow|done|done|]; [lia|].
    clear Hh. intros e4 t4 m4 Hh L4. do 2 wstep.
    wapp. eexists _, _, [_]. split; [exact Hh|]. intros m6 Hh6.
    eapply HQ; [|by constructor]. eapply held_weaken; [|done]. cbn [length]. lia.
Qed.

(** A clause that is not there. *)
Lemma wp_append_null ls fuel k μ own m c1 t1 (Q : ptr → mem → Prop) X :
  e_cln g ≠ e_clc g → 6 ≤ k → held g k μ own m →
  (e_cln g, TAtom (e_cln g)) ∈ own → (e_clc g, TAtom (e_clc g)) ∈ own →
  borrows own c1 t1 → clause_list t1 ls → X (Undefined NullDeref) →
  wp (f_append (S fuel) c1 null m) Q X.
Proof.
  intros Hne Hk Hh Hn Hc H1 L1 HX. cbn [f_append]. apply wp_bind. eapply wp_run; [done|].
  rewrite (held_vars _ _ _ _ _ Hh). destruct L1 as [|f a b l tc ls' L1'].
  - eapply (wp_match2 g k μ own); [exact Hh|exact H1|constructor|by apply B_own|by apply B_own|lia|by left|].
    intros m' _. rewrite decide_True by done. apply wp_bind. by apply wp_inc_null.
  - eapply (wp_match2 g k μ own); [exact Hh|exact H1|constructor|by apply B_own|by apply B_own|lia|by right|].
    wnext Hh. rewrite decide_False by done. set (t1 := TApp2 f a b (TAtom (e_clc g)) l tc) in *.
    warg c1 t1 1. warg c1 t1 2. do 2 wstep. apply wp_bind. by apply wp_inc_null.
Qed.

(** ** Marking *)

Definition truth (b : bool) : ptr := if b then e_tt g else e_ff g.

(** Set the mark unless it is set; tell whether it was. *)
Lemma wp_set_unmarked k μ own m v p i (Q : ptr → mem → Prop) X :
  held g k μ own m → borrows own v (TAtom p) → (0 ≤ i < 31)%Z → 5 ≤ k →
  (e_tt g, TAtom (e_tt g)) ∈ own → (e_ff g, TAtom (e_ff g)) ∈ own →
  (∀ m', let b := Z.testbit (μ p) i in
    held g (k - 5) (if b then μ else flip μ p i) ((truth b, TAtom (truth b)) :: own) m' → Q (truth b) m') →
  wp (set_unmarked g v i m) Q X.
Proof.
  intros Hh Hb Hi Hk Ht Hf HQ. unfold set_unmarked.
  eapply wp_ifmarked; [exact Hh|exact Hb|lia|lia|]. wnext Hh.
  destruct (Z.testbit (μ p) i) eqn:E; simpl in HQ.
  - eapply wp_gen_sym; [exact Hh|borrow|lia|]. wnext Hh. eexists _, _, [_].
    split; [exact Hh|]. intros m3 Hh3. apply HQ. eapply held_weaken; [|done]. lia.
  - apply wp_bind. eapply wp_drop, wp_markvar; [exact Hh|borrow|lia|lia|]. wnext Hh.
    eexists. split; [exact Hh|]. wnext Hh. eapply wp_gen_sym; [exact Hh|borrow|lia|]. wnext Hh.
    eexists _, _, [_]. split; [exact Hh|]. intros m3 Hh3. apply HQ. eapply held_weaken; [|done]. lia.
Qed.

(** Clear the mark if it is set; tell whether it was. *)
Lemma wp_clear_marked k μ own m v p i (Q : ptr → mem → Prop) X :
  held g k μ own m → borrows own v (TAtom p) → (0 ≤ i < 31)%Z → 5 ≤ k →
  (e_tt g, TAtom (e_tt g)) ∈ own → (e_ff g, TAtom (e_ff g)) ∈ own →
  (∀ m', let b := Z.testbit (μ p) i in
    held g (k - 5) (if b then flip μ p i else μ) ((truth b, TAtom (truth b)) :: own) m' → Q (truth b) m') →
  wp (gen_ifmarked v i (gen_drop (gen_markvar v i);; gen_sym (e_tt g)) (gen_sym (e_ff g)) m) Q X.
Proof.
  intros Hh Hb Hi Hk Ht Hf HQ.
  eapply wp_ifmarked; [exact Hh|exact Hb|lia|lia|]. wnext Hh.
  destruct (Z.testbit (μ p) i) eqn:E; simpl in HQ.
  - apply wp_bind. eapply wp_drop, wp_markvar; [exact Hh|borrow|lia|lia|]. wnext Hh.
    eexists. split; [exact Hh|]. wnext Hh. eapply wp_gen_sym; [exact Hh|borrow|lia|]. wnext Hh.
    eexists _, _, [_]. split; [exact Hh|]. intros m3 Hh3. apply HQ. eapply held_weaken; [|done]. lia.
  - eapply wp_gen_sym; [exact Hh|borrow|lia|]. wnext Hh. eexists _, _, [_].
    split; [exact Hh|]. intros m3 Hh3. apply HQ. eapply held_weaken; [|done]. lia.
Qed.

(** Bring the mark to a value: set it, or clear it. *)
Lemma wp_ensure (set : bool) k μ own m v p i (Q : () → mem → Prop) X :
  held g k μ own m → borrows own v (TAtom p) → (0 ≤ i < 31)%Z → 4 ≤ k →
  (∀ m', held g (k - 4) (if eqb (Z.testbit (μ p) i) set then μ else flip μ p i) own m' → Q () m') →
  wp (gen_drop (gen_ifmarked v i (if set then gen_sym v else gen_markvar v i)
        (if set then gen_markvar v i else gen_sym v)) m) Q X.
Proof.
  intros Hh Hb Hi Hk HQ.
  eapply (wp_drop g (k - 4) (if eqb (Z.testbit (μ p) i) set then μ else flip μ p i) own), wp_ifmarked; [exact Hh|exact Hb|lia|lia|]. wnext Hh.
  assert (Hs : Z.testbit (μ p) i = set → wp (gen_sym v m') (λ e m2, ∃ k' μ' res,
    held g k' μ' (res ++ (v, TAtom p) :: own) m2 ∧ ∀ m3, held g k' μ' (res ++ own) m3 →
      ∃ t, held g (k - 4) (if eqb (Z.testbit (μ p) i) set then μ else flip μ p i) ((e, t) :: own) m3 ∧
      ∀ m4, held g (k - 4) (if eqb (Z.testbit (μ p) i) set then μ else flip μ p i) own m4 → Q () m4) X).
  { intros E. rewrite E, eqb_reflx in HQ |- *. eapply wp_gen_sym; [exact Hh|borrow|lia|]. wnext Hh.
    eexists _, _, [_]. split; [exact Hh|]. intros m3 Hh3. eexists. split; [|done].
    eapply held_weaken; [|done]. lia. }
  assert (Hm : Z.testbit (μ p) i ≠ set → wp (gen_markvar v i m') (λ e m2, ∃ k' μ' res,
    held g k' μ' (res ++ (v, TAtom p) :: own) m2 ∧ ∀ m3, held g k' μ' (res ++ own) m3 →
      ∃ t, held g (k - 4) (if eqb (Z.testbit (μ p) i) set then μ else flip μ p i) ((e, t) :: own) m3 ∧
      ∀ m4, held g (k - 4) (if eqb (Z.testbit (μ p) i) set then μ else flip μ p i) own m4 → Q () m4) X).
  { intros Hne. rewrite (proj2 (eqb_false_iff _ _) Hne) in *.
    eapply wp_markvar; [exact Hh|borrow|lia|lia|]. wnext Hh.
    eexists _, _, [_]. split; [exact Hh|]. intros m3 Hh3. eexists. split; [|done].
    eapply held_weaken; [|done]. lia. }
  destruct set, (Z.testbit (μ p) i); [apply Hs|apply Hm|apply Hm|apply Hs]; done.
Qed.

(** ** [f_simplify_clause] *)

(** The result [t] lists the literals of [cl] that are not to be removed. *)
Definition simplified (μ : N → Z) (cl : clause) (t : tm) (μ' : N → Z) : Prop :=
  ∃ tls ls, clause_list t tls ∧ Forall2 lit_is tls ls ∧ length ls ≤ nodes cl ∧
    (∀ l, l ∈ ls ↔ occurs l cl = true ∧ removing μ l = false) ∧ after μ cl μ'.

(** [f] returns the simplified clause, or null when a literal that is to be
    removed does not occur; below another constructor the null pointer is used. *)
Definition simplifies (f : ptr → M mem ptr) (cl : clause) : Prop :=
  ∀ c t own k μ m (Q : ptr → mem → Prop) X,
    held g k μ own m → clause_is t cl → borrows own c t → sat_consts own → tidy μ →
    simplify_cost cl ≤ k →
    (removable cl = true → ∀ e t' μ' m', held g (k - simplify_cost cl) μ' ((e, t') :: own) m' →
      simplified μ cl t' μ' → Q e m') →
    (removable cl = false →
      (∀ μ' m', held g (k - simplify_cost cl) μ' own m' → tidy μ' → Q null m') ∧
      X (Undefined NullDeref)) →
    wp (f c m) Q X.

Lemma sat_consts_cons own r : sat_consts own → sat_consts (r :: own).
Proof. intros []. split; by apply list_elem_of_further. Qed.

Lemma lit_arg tl l : lit_is tl l → ∃ a, nth_arg tl 1 = Some (a, TAtom (lvar l)).
Proof. destruct 1; simpl; eauto. Qed.

Lemma ri_range l : (0 ≤ ri l < 31)%Z.
Proof. destruct l; simpl; lia. Qed.
Lemma fi_range l : (0 ≤ fi l < 31)%Z.
Proof. destruct l; simpl; lia. Qed.

Lemma simplified_clc_removed μ l cl t μ1 :
  removing μ l = true → simplified μ cl t μ1 →
  simplified μ (Clc l cl) t (if removed μ1 l then μ1 else flip_f μ1 l).
Proof.
  intros Hl (tls & ls & Ht & Hls & Hn & Hin & Ha). exists tls, ls.
  split_and!; [done..|simpl; lia| |by apply after_clc_removed]. intros l'. rewrite Hin. simpl.
  case_bool_decide; [subst|done]. rewrite Hl. simpl. by intuition.
Qed.

Lemma simplified_clc_kept μ l cl f a b tl t μ1 :
  tidy μ → removing μ l = false → lit_is tl l → simplified (flip_r μ l) cl t μ1 →
  simplified μ (Clc l cl) (TApp2 f a b (TAtom (e_clc g)) tl t)
    (flip_r (if removed μ1 l then flip_f μ1 l else μ1) l).
Proof.
  intros Ht Hl Htl (tls & ls & Hc & Hls & Hn & Hin & Ha). exists (tl :: tls), (l :: ls).
  split_and!; [by constructor|by constructor|simpl; lia| |by apply after_clc_kept].
  intros l'. rewrite elem_of_cons, Hin, removing_flip_r. simpl.
  case_decide; subst; [rewrite bool_decide_true, Hl by done|rewrite bool_decide_false by done];
    simpl; by intuition.
Qed.

Lemma simplified_clr μ l cl t μ2 :
  tidy μ → occurs l cl = true → simplified (clr_start μ l) cl t μ2 →
  simplified μ (Clr l cl) t (clr_end μ μ2 l).
Proof.
  intros Ht Ho (tls & ls & Hc & Hls & Hn & Hin & Ha). exists tls, ls.
  split_and!; [done..|simpl; lia| |by apply after_clr]. intros l'.
  rewrite Hin, removing_clr_start. simpl.
  case_decide; subst; [rewrite bool_decide_false by tauto|rewrite bool_decide_true by done];
    simpl; by intuition.
Qed.

Context (Hdistinct : sat_distinct).

(** The two results of a recursive call that is not the outermost: the clause,
    or a null pointer, which is an error further on. *)
Definition after_rec (cl : clause) (μ : N → Z) (k : nat) own (Q : ptr → mem → Prop) : Prop :=
  (removable cl = true → ∀ e t' μ' m', held g (k - simplify_cost cl) μ' ((e, t') :: own) m' →
    simplified μ cl t' μ' → Q e m') ∧
  (removable cl = false →
    ∀ μ' m', held g (k - simplify_cost cl) μ' own m' → tidy μ' → Q null m').

(** A call with the argument held, as the generated code makes it. *)
Lemma wp_rec rec cl c1 tc own k μ m (f : ptr → M mem ptr) (Q : ptr → mem → Prop) X :
  simplifies rec cl → held g k μ own m → clause_is tc cl → borrows own c1 tc → sat_consts own →
  tidy μ → 1 + simplify_cost cl ≤ k → (removable cl = false → X (Undefined NullDeref)) →
  after_rec cl μ (k - 1) own (λ e m', wp (f e m') Q X) →
  wp ((inc c1;; ch ← rec c1; dec c1;; f ch) m) Q X.
Proof.
  intros Hrec Hh Hc Hb Hs Ht Hk HX [Hok Hno]. wstep. apply wp_bind.
  eapply (Hrec c1 tc); [exact Hh|done|borrow|by apply sat_consts_cons|done|lia| |].
  - intros Hr e t' μ' m2 Hh' Hsi. clear Hh. wstep. by eapply Hok.
  - intros Hr. split; [|by apply HX]. intros μ' m2 Hh' Ht'. clear Hh. wstep. by eapply Hno.
Qed.

Lemma truth_tt b : e_tt g ≠ e_ff g → truth b = e_tt g ∨ (truth b = e_ff g ∧ e_tt g ≠ e_ff g).
Proof. destruct b; simpl; auto. Qed.

(** The end of the case [clc], after the recursive call. *)
Definition clc_rest (l v m ch : ptr) (i j : Z) : M mem ptr :=
  e0 ← gen_match2 "f_simplify_clause" m (e_tt g) (e_ff g)
    (gen_drop (gen_ifmarked v j (gen_sym v) (gen_markvar v j));; inc ch;; mret ch)
    (gen_drop (gen_ifmarked v j (gen_markvar v j) (gen_sym v));;
     gen_drop (gen_markvar v i);; inc l;; inc ch;; gen_app (e_clc g) [l; ch]);
  dec ch;; dec m;; mret e0.

Lemma wp_clc_removed cl l lp v ch t own k μ μ1 m (Q : ptr → mem → Prop) X :
  held g k μ1 ((ch, t) :: (e_tt g, TAtom (e_tt g)) :: own) m → sat_consts own → 20 ≤ k →
  removing μ l = true → simplified μ cl t μ1 → borrows own v (TAtom (lvar l)) →
  (∀ μ' m', held g (k - 20) μ' ((ch, t) :: own) m' → simplified μ (Clc l cl) t μ' → Q ch m') →
  wp (clc_rest lp v (e_tt g) ch (ri l) (fi l) m) Q X.
Proof.
  intros Hh [h1 h2 h3 h4 h5 h6 h7 h8] Hk El Hsi Hbv HQ.
  pose proof (fi_range l) as Hfi. unfold clc_rest. apply wp_bind.
  eapply (wp_match2 g _ _ _ _ _ _ _ (e_tt g));
    [exact Hh|borrow|constructor|borrow|borrow|lia|by left|]. wnext Hh.
  rewrite decide_True by done. apply wp_bind.
  eapply (wp_ensure true); [exact Hh|borrow|done|lia|]. wnext Hh. wstep. simpl.
  eexists _, _, [_]. split; [exact Hh|]. wnext Hh. do 2 wstep. simpl.
  eapply HQ; [eapply held_weaken; [|exact Hh]; lia|].
  pose proof (simplified_clc_removed _ _ _ _ _ El Hsi) as H.
  by destruct (removed μ1 l) eqn:E; unfold removed in E; rewrite E in *.
Qed.

Lemma wp_clc_kept cl l lp tl v ch t own k μ μ1 m (Q : ptr → mem → Prop) X :
  held g k μ1 ((ch, t) :: (e_ff g, TAtom (e_ff g)) :: own) m → sat_consts own → 20 ≤ k → tidy μ →
  removing μ l = false → simplified (flip_r μ l) cl t μ1 → lit_is tl l → borrows own lp tl →
  borrows own v (TAtom (lvar l)) →
  (∀ e t' μ' m', held g (k - 20) μ' ((e, t') :: own) m' → simplified μ (Clc l cl) t' μ' → Q e m') →
  wp (clc_rest lp v (e_ff g) ch (ri l) (fi l) m) Q X.
Proof.
  intros Hh [h1 h2 h3 h4 h5 h6 h7 h8] Hk Ht El Hsi Hl Hbl Hbv HQ.
  pose proof (fi_range l) as Hfi. pose proof (ri_range l) as Hri. destruct Hdistinct as (_ & _ & Htf).
  unfold clc_rest. apply wp_bind.
  eapply (wp_match2 g _ _ _ _ _ _ _ (e_ff g));
    [exact Hh|borrow|constructor|borrow|borrow|lia|by right|]. wnext Hh.
  rewrite decide_False by done. apply wp_bind.
  eapply (wp_ensure false); [exact Hh|borrow|done|lia|]. wnext Hh. apply wp_bind.
  eapply wp_drop, wp_markvar; [exact Hh|borrow|lia|lia|]. wnext Hh.
  eexists. split; [exact Hh|]. wnext Hh. do 2 wstep. wapp.
  eexists _, _, [_]. split; [exact Hh|]. wnext Hh. do 2 wstep. simpl.
  eapply HQ; [eapply held_weaken; [|exact Hh]; lia|].
  pose proof (simplified_clc_kept μ l cl (e_clc g) lp ch tl t μ1 Ht El Hl Hsi) as H.
  by destruct (removed μ1 l) eqn:E; unfold removed in E; rewrite E in *.
Qed.

(** The recursive call failed. *)
Lemma wp_clc_null b lp tl l v own k μ m (Q : ptr → mem → Prop) X :
  held g k μ ((truth b, TAtom (truth b)) :: own) m → sat_consts own → 20 ≤ k →
  borrows own lp tl → borrows own v (TAtom (lvar l)) → X (Undefined NullDeref) →
  wp (clc_rest lp v (truth b) null (ri l) (fi l) m) Q X.
Proof.
  intros Hh [h1 h2 h3 h4 h5 h6 h7 h8] Hk Hbl Hbv HX.
  pose proof (fi_range l) as Hfi. pose proof (ri_range l) as Hri. destruct Hdistinct as (_ & _ & Htf).
  unfold clc_rest. apply wp_bind.
  eapply (wp_match2 g _ _ _ _ _ _ _ (truth b));
    [exact Hh|borrow|constructor|borrow|borrow|lia|by apply truth_tt|]. wnext Hh.
  destruct b; simpl; [rewrite decide_True by done|rewrite decide_False by done]; apply wp_bind.
  - eapply (wp_ensure true); [exact Hh|borrow|done|lia|]. wnext Hh. apply wp_bind. by apply wp_inc_null.
  - eapply (wp_ensure false); [exact Hh|borrow|done|lia|]. wnext Hh. apply wp_bind.
    eapply wp_drop, wp_markvar; [exact Hh|borrow|lia|lia|]. wnext Hh.
    eexists. split; [exact Hh|]. wnext Hh. wstep. apply wp_bind. by apply wp_inc_null.
Qed.

Lemma wp_simplify_clc rec l cl lp tl c1 tc own k μ m (Q : ptr → mem → Prop) X :
  simplifies rec cl → held g k μ own m → lit_is tl l → clause_is tc cl → borrows own lp tl →
  borrows own c1 tc → sat_consts own → tidy μ → 30 + simplify_cost cl ≤ k →
  (removable cl = false → X (Undefined NullDeref)) →
  (removable cl = true → ∀ e t' μ' m', held g (k - (30 + simplify_cost cl)) μ' ((e, t') :: own) m' →
    simplified μ (Clc l cl) t' μ' → Q e m') →
  wp (simplify_clc rec lp c1 (ri l) (fi l) m) Q X.
Proof.
  intros Hrec Hh Hl Hc Hbl Hbc Hs Ht Hk HX HQ. destruct Hdistinct as (_ & _ & Htf).
  unfold simplify_clc. apply wp_bind. eapply wp_run; [done|]. rewrite (held_vars _ _ _ _ _ Hh).
  destruct (lit_arg tl l Hl) as [v Hv].
  destruct (arg_of_run g k μ own m lp tl 1 v _ Hh Hbl Hv) as [Hrun Hbv].
  rewrite (bind_run _ _ _ _ _ Hrun). clear Hrun. apply wp_bind.
  pose proof (ri_range l) as Hri. pose proof (fi_range l) as Hfi.
  destruct Hs as [h1 h2 h3 h4 h5 h6 h7 h8]. pose proof (SatConsts own h1 h2 h3 h4 h5 h6 h7 h8) as Hs.
  eapply wp_set_unmarked; [exact Hh|exact Hbv|done|lia|done|done|]. cbn zeta. wnext Hh.
  fold (removing μ l) in *. fold (flip_r μ l) in *.
  eapply (wp_rec rec cl c1 tc); [done|exact Hh|done|borrow|by apply sat_consts_cons| |lia|done|].
  { destruct (removing μ l) eqn:E; [done|]. intros l'. rewrite removed_flip_r, removing_flip_r.
    case_decide; [by rewrite E|apply Ht]. }
  clear Hh. split.
  - intros Hr ch t' μ1 m1 Hh Hsi. change (wp (clc_rest lp v (truth (removing μ l)) ch (ri l) (fi l) m1) Q X).
    destruct (removing μ l) eqn:E.
    + eapply (wp_clc_removed cl l lp); [exact Hh|done|lia|done|done|done|]. intros μ' m2 Hh2.
      apply HQ; [done|]. eapply held_weaken; [|done]. lia.
    + eapply (wp_clc_kept cl l lp tl); [exact Hh|done|lia|done..|]. intros e t2 μ' m2 Hh2.
      apply HQ; [done|]. eapply held_weaken; [|done]. lia.
  - intros Hr μ' m1 Hh _. change (wp (clc_rest lp v (truth (removing μ l)) null (ri l) (fi l) m1) Q X).
    eapply wp_clc_null; [exact Hh|done|lia|done|done|by apply HX].
Qed.

(** Put a mark back that [set_unmarked] or its converse changed. *)
Lemma wp_restore (b : bool) v p i own k μ m (Q : () → mem → Prop) X :
  held g k μ own m → borrows own (truth b) (TAtom (truth b)) → sat_consts own → 6 ≤ k →
  borrows own v (TAtom p) → (0 ≤ i < 31)%Z →
  (∀ m', held g (k - 6) (if b then μ else flip μ p i) own m' → Q () m') →
  wp (gen_drop (gen_match2 "f_simplify_clause" (truth b) (e_tt g) (e_ff g) (gen_sym v) (gen_markvar v i)) m) Q X.
Proof.
  intros Hh Hbb [h1 h2 h3 h4 h5 h6 h7 h8] Hk Hbv Hi HQ. destruct Hdistinct as (_ & _ & Htf).
  eapply (wp_drop g (k - 6) (if b then μ else flip μ p i) own), (wp_match2 g _ _ _ _ _ _ _ (truth b));
    [exact Hh|borrow|constructor|borrow|borrow|lia|by apply truth_tt|]. wnext Hh.
  destruct b; simpl; [rewrite decide_True by done|rewrite decide_False by done].
  - eapply wp_gen_sym; [exact Hh|borrow|lia|]. wnext Hh. eexists _, _, [_]. split; [exact Hh|].
    wnext Hh. eexists. split; [eapply held_weaken; [|exact Hh]; lia|done].
  - eapply wp_markvar; [exact Hh|borrow|lia|lia|]. wnext Hh. eexists _, _, [_]. split; [exact Hh|].
    wnext Hh. eexists. split; [eapply held_weaken; [|exact Hh]; lia|done].
Qed.

(** The end of the case [clr], after the recursive call. *)
Definition clr_rest (v m m3 ch : ptr) (i j : Z) : M mem ptr :=
  e0 ← gen_ifmarked v j
    (gen_drop (gen_match2 "f_simplify_clause" m3 (e_tt g) (e_ff g) (gen_sym v) (gen_markvar v j));;
     gen_drop (gen_match2 "f_simplify_clause" m (e_tt g) (e_ff g) (gen_sym v) (gen_markvar v i));;
     inc ch;; mret ch)
    (mret null);
  dec ch;; dec m3;; dec m;; mret e0.

Lemma wp_clr_rest b b3 l v ch t own k μ m (Q : ptr → mem → Prop) X :
  held g k μ ((ch, t) :: (truth b3, TAtom (truth b3)) :: (truth b, TAtom (truth b)) :: own) m →
  sat_consts own → 20 ≤ k → borrows own v (TAtom (lvar l)) →
  (∀ m', let μ1 := if b3 then μ else flip_f μ l in
    held g (k - 20) (if b then μ1 else flip_r μ1 l) ((ch, t) :: own) m' → removed μ l = true → Q ch m') →
  (∀ m', held g (k - 20) μ own m' → removed μ l = false → Q null m') →
  wp (clr_rest v (truth b) (truth b3) ch (ri l) (fi l) m) Q X.
Proof.
  intros Hh Hs Hk Hbv Hyes Hno.
  pose proof (fi_range l) as Hfi. pose proof (ri_range l) as Hri. unfold clr_rest. apply wp_bind.
  eapply wp_ifmarked; [exact Hh|borrow|lia|lia|]. fold (removed μ l). wnext Hh.
  assert (∀ a b c d, sat_consts (a :: b :: c :: d :: own)) as Hs' by (intros; by repeat apply sat_consts_cons).
  destruct (removed μ l) eqn:E.
  - apply wp_bind. eapply wp_restore; [exact Hh|borrow|apply Hs'|lia|borrow|done|].
    fold (flip_f μ l). wnext Hh. apply wp_bind.
    eapply wp_restore; [exact Hh|borrow|apply Hs'|lia|borrow|done|]. wnext Hh. wstep. simpl.
    eexists _, _, [_]. split; [exact Hh|]. wnext Hh. do 3 wstep. simpl. apply Hyes; [|done].
    eapply held_weaken; [|exact Hh]. lia.
  - simpl. eexists _, _, []. split; [exact Hh|]. wnext Hh. do 3 wstep. simpl. apply Hno; [|done].
    eapply held_weaken; [|exact Hh]. lia.
Qed.

Lemma wp_clr_null b b3 l v own k μ m (Q : ptr → mem → Prop) X :
  held g k μ ((truth b3, TAtom (truth b3)) :: (truth b, TAtom (truth b)) :: own) m →
  sat_consts own → 20 ≤ k → borrows own v (TAtom (lvar l)) → X (Undefined NullDeref) →
  wp (clr_rest v (truth b) (truth b3) null (ri l) (fi l) m) Q X.
Proof.
  intros Hh Hs Hk Hbv HX.
  pose proof (fi_range l) as Hfi. pose proof (ri_range l) as Hri. unfold clr_rest. apply wp_bind.
  eapply wp_ifmarked; [exact Hh|borrow|lia|lia|]. wnext Hh.
  assert (∀ a b c, sat_consts (a :: b :: c :: own)) as Hs' by (intros; by repeat apply sat_consts_cons).
  destruct (Z.testbit _ _) eqn:E.
  - apply wp_bind. eapply wp_restore; [exact Hh|borrow|apply Hs'|lia|borrow|done|]. wnext Hh. apply wp_bind.
    eapply wp_restore; [exact Hh|borrow|apply Hs'|lia|borrow|done|]. wnext Hh.
    apply wp_bind. by apply wp_inc_null.
  - simpl. eexists _, _, []. split; [exact Hh|]. by intros m3 _.
Qed.

Lemma wp_simplify_clr rec l cl lp tl c1 tc own k μ m (Q : ptr → mem → Prop) X :
  simplifies rec cl → held g k μ own m → lit_is tl l → clause_is tc cl → borrows own lp tl →
  borrows own c1 tc → sat_consts own → tidy μ → 31 + simplify_cost cl ≤ k →
  (removable cl = false → X (Undefined NullDeref)) →
  (removable cl = true → occurs l cl = true → ∀ e t' μ' m',
    held g (k - (31 + simplify_cost cl)) μ' ((e, t') :: own) m' → simplified μ (Clr l cl) t' μ' → Q e m') →
  (removable cl = true → occurs l cl = false → ∀ μ' m',
    held g (k - (31 + simplify_cost cl)) μ' own m' → tidy μ' → Q null m') →
  wp (simplify_clr rec lp c1 (ri l) (fi l) m) Q X.
Proof.
  intros Hrec Hh Hl Hc Hbl Hbc Hs Ht Hk HX HQ HN. unfold simplify_clr.
  apply wp_bind. eapply wp_run; [done|]. rewrite (held_vars _ _ _ _ _ Hh).
  destruct (lit_arg tl l Hl) as [v Hv].
  destruct (arg_of_run g k μ own m lp tl 1 v _ Hh Hbl Hv) as [Hrun Hbv].
  rewrite (bind_run _ _ _ _ _ Hrun). clear Hrun. apply wp_bind.
  pose proof (ri_range l) as Hri. pose proof (fi_range l) as Hfi.
  destruct Hs as [h1 h2 h3 h4 h5 h6 h7 h8]. pose proof (SatConsts own h1 h2 h3 h4 h5 h6 h7 h8) as Hs.
  eapply wp_set_unmarked; [exact Hh|exact Hbv|done|lia|done|done|]. cbn zeta. wnext Hh.
  fold (removing μ l) in *. fold (flip_r μ l) in *. apply wp_bind.
  eapply wp_clear_marked; [exact Hh|borrow|done|lia|member|member|]. cbn zeta. wnext Hh.
  set (b := removing μ l) in *. set (μ1 := if b then μ else flip_r μ l) in *.
  fold (removed μ1 l) in *. fold (flip_f μ1 l) in *.
  change (if removed μ1 l then flip_f μ1 l else μ1) with (clr_start μ l) in Hh.
  assert (E3 : removed μ1 l = removed μ l) by (unfold μ1; destruct b; by rewrite ?removed_flip_r).
  rewrite E3 in *.
  eapply (wp_rec rec cl c1 tc); [done|exact Hh|done|borrow|by do 2 apply sat_consts_cons
    |by apply clr_start_tidy|lia|done|]. clear Hh. split.
  - intros Hr ch t' μ2 m1 Hh Hsi. eapply (wp_clr_rest b (removed μ l) l); [exact Hh|done|lia|done|..].
    all: destruct Hsi as (tls & ls & Hrest); pose proof (proj2 (proj2 (proj2 (proj2 Hrest)))) as Ha.
    all: rewrite (removed_after_clr _ _ _ _ Ha); cbn zeta; intros m2 Hh2 Ho.
    + apply (HQ Hr Ho _ t' (clr_end μ μ2 l)); [eapply held_weaken; [|exact Hh2]; lia|].
      apply simplified_clr; [done..|]. by exists tls, ls.
    + apply (HN Hr Ho μ2); [eapply held_weaken; [|exact Hh2]; lia|].
      eapply after_tidy; [by apply clr_start_tidy|exact Ha].
  - intros Hr μ' m1 Hh _. eapply (wp_clr_null b (removed μ l) l); [exact Hh|done|lia|done|by apply HX].
Qed.

Lemma simplified_concat μ c1 tls1 ls1 μ1 c2 tls2 ls2 t μ2 :
  Forall2 lit_is tls1 ls1 → length ls1 ≤ nodes c1 →
  (∀ l, l ∈ ls1 ↔ occurs l c1 = true ∧ removing μ l = false) → after μ c1 μ1 →
  Forall2 lit_is tls2 ls2 → length ls2 ≤ nodes c2 →
  (∀ l, l ∈ ls2 ↔ occurs l c2 = true ∧ removing μ1 l = false) → after μ1 c2 μ2 →
  clause_list t (tls1 ++ tls2) → simplified μ (Concat c1 c2) t μ2.
Proof.
  intros H1 Hn1 Hin1 Ha1 H2 Hn2 Hin2 Ha2 Ht. exists (tls1 ++ tls2), (ls1 ++ ls2).
  split_and!; [done|by apply Forall2_app|rewrite length_app; simpl; lia| |by eapply after_concat].
  intros l. rewrite elem_of_app, Hin1, Hin2, (proj1 Ha1). simpl. rewrite orb_true_iff. tauto.
Qed.

(** The case [concat_cl]. *)
Lemma wp_simplify_concat fuel cl1 cl2 c1 t1 c2 t2 own k μ m (Q : ptr → mem → Prop) X :
  simplifies (f_simplify_clause (S fuel)) cl1 → simplifies (f_simplify_clause (S fuel)) cl2 →
  nodes cl1 ≤ fuel → held g k μ own m → clause_is t1 cl1 → clause_is t2 cl2 →
  borrows own c1 t1 → borrows own c2 t2 → sat_consts own → tidy μ →
  2 + simplify_cost cl1 + simplify_cost cl2 + append_cost (nodes cl1) ≤ k →
  (removable cl1 && removable cl2 = false → X (Undefined NullDeref)) →
  (removable cl1 && removable cl2 = true → ∀ e t' μ' m',
    held g (k - (2 + simplify_cost cl1 + simplify_cost cl2 + append_cost (nodes cl1))) μ' ((e, t') :: own) m' →
    simplified μ (Concat cl1 cl2) t' μ' → Q e m') →
  wp ((inc c1;; e25 ← f_simplify_clause (S fuel) c1; dec c1;;
       inc c2;; e26 ← f_simplify_clause (S fuel) c2; dec c2;;
       e0 ← f_append (S fuel) e25 e26; dec e25;; dec e26;; mret e0) m) Q X.
Proof.
  intros Hr1 Hr2 Hf Hh H1 H2 Hb1 Hb2 Hs Ht Hk HX HQ.
  assert (Hd : e_cln g ≠ e_clc g).
  { destruct Hdistinct as (Hnd & _ & _). intros E. rewrite E in Hnd.
    apply NoDup_cons_1_1 in Hnd. apply Hnd. here. }
  destruct Hs as [h1 h2 h3 h4 h5 h6 h7 h8]. pose proof (SatConsts own h1 h2 h3 h4 h5 h6 h7 h8) as Hs.
  unfold append_cost in *.
  eapply (wp_rec _ cl1); [done|exact Hh|done..|lia|by intros E; apply HX; rewrite E|]. clear Hh. split.
  - intros E1 e25 t25 μ1 m1 Hh Hs1.
    pose proof (Hs1) as (tls1 & ls1 & L1 & F1 & N1 & I1 & A1).
    eapply (wp_rec _ cl2); [done|exact Hh|done|borrow|by apply sat_consts_cons|by eapply after_tidy|lia
      |by intros E; apply HX; rewrite E, andb_false_r|]. clear Hh. split.
    + intros E2 e26 t26 μ2 m2 Hh (tls2 & ls2 & L2 & F2 & N2 & I2 & A2).
      pose proof (Forall2_length _ _ _ F1) as Hlen. apply wp_bind.
      eapply (wp_append tls1 tls2); [done|lia| |exact Hh|member|member|borrow|borrow|done|done|];
        unfold append_cost; [lia|]. clear Hh. intros e0 t0 m3 Hh L0. do 2 wstep. simpl.
      eapply HQ; [by rewrite E1, E2|eapply held_weaken; [|exact Hh]; lia|].
      by eapply (simplified_concat μ cl1 tls1 ls1 μ1 cl2 tls2 ls2).
    + intros E2 μ2 m2 Hh _. apply wp_bind.
      eapply wp_append_null; [done| |exact Hh|member|member|borrow|done|]; [lia|].
      apply HX. by rewrite E2, andb_false_r.
  - intros E1 μ1 m1 Hh Ht1. assert (Herr : X (Undefined NullDeref)) by (apply HX; by rewrite E1).
    eapply (wp_rec _ cl2); [done|exact Hh|done..|lia|done|]. by split.
Qed.

(** What [f_simplify_clause] does before and after the match. *)
Lemma wp_simplify_frame fuel c t hd own k μ m (Q : ptr → mem → Prop) X :
  held g k μ own m → borrows own c t → head_is t hd → sat_consts own → 5 ≤ k →
  (∀ own' m', own' = (e_clr g, TAtom (e_clr g)) :: (e_concat_cl g, TAtom (e_concat_cl g)) ::
      (e_clc g, TAtom (e_clc g)) :: (e_cln g, TAtom (e_cln g)) :: (c, t) :: own →
    held g (k - 5) μ own' m' →
    wp (simplify_cases (f_simplify_clause fuel) (f_append fuel) g c hd m') (λ e m2, ∃ k' μ' res,
      held g k' μ' (res ++ own') m2 ∧ ∀ m3, held g k' μ' (res ++ own) m3 → Q e m3) X) →
  wp (f_simplify_clause (S fuel) c m) Q X.
Proof.
  intros Hh Hb Hhd [h1 h2 h3 h4 h5 h6 h7 h8] Hk HB. cbn [f_simplify_clause].
  apply wp_bind. eapply wp_run; [done|]. rewrite (held_vars _ _ _ _ _ Hh). wstep.
  rewrite (bind_run _ _ _ _ _ (head_of_run _ _ _ _ _ c t hd Hh ltac:(borrow) Hhd)). do 4 wstep.
  apply wp_bind. eapply wp_mono; [eapply (HB _ _ eq_refl)| |done].
  { eapply held_weaken; [|exact Hh]. lia. }
  intros e m2 (k' & μ' & res & Hh2 & HQ). clear Hh.
  do 5 wstep. by apply HQ.
Qed.

(** A match on a literal picks its marks. *)
Lemma wp_match_lit (f : Z → Z → M mem ptr) s lp tl l own k μ m (Q : ptr → mem → Prop) X :
  held g k μ own m → borrows own lp tl → lit_is tl l → sat_consts own → 3 ≤ k →
  (∀ own' m', own' = (e_neg g, TAtom (e_neg g)) :: (e_pos g, TAtom (e_pos g)) :: (lp, tl) :: own →
    held g (k - 3) μ own' m' → wp (f (ri l) (fi l) m') (λ e m2, ∃ k' μ' res,
      held g k' μ' (res ++ own') m2 ∧ ∀ m3, held g k' μ' (res ++ own) m3 → Q e m3) X) →
  wp (gen_match2 s lp (e_pos g) (e_neg g) (f 0 2)%Z (f 1 3)%Z m) Q X.
Proof.
  intros Hh Hb Hl [h1 h2 h3 h4 h5 h6 h7 h8] Hk HB. destruct Hdistinct as (_ & Hpn & _).
  destruct Hl as [f0 a v|f0 a v].
  - eapply wp_match2; [exact Hh|exact Hb|constructor|borrow|borrow|lia|by left|].
    intros m' Hh'. rewrite decide_True by done. by apply HB.
  - eapply wp_match2; [exact Hh|exact Hb|constructor|borrow|borrow|lia|by right|].
    intros m' Hh'. rewrite decide_False by done. by apply HB.
Qed.

Lemma sat_tests :
  (e_clc g ≠ e_cln g ∧ e_concat_cl g ≠ e_cln g ∧ e_concat_cl g ≠ e_clc g) ∧
  e_clr g ≠ e_cln g ∧ e_clr g ≠ e_clc g ∧ e_clr g ≠ e_concat_cl g.
Proof.
  destruct Hdistinct as (Hnd & _). rewrite !NoDup_cons, !not_elem_of_cons in Hnd.
  destruct_and?. split_and!; congruence.
Qed.

Lemma simplify_cln fuel : simplifies (f_simplify_clause (S fuel)) Cln.
Proof.
  intros c t own k μ m Q X Hh Hc Hb Hs Ht Hk HQ _. inversion Hc; subst. simpl in Hk.
  eapply wp_simplify_frame; [exact Hh|exact Hb|constructor|done|lia|]. clear Hh.
  intros own' m' -> Hh. unfold simplify_cases. rewrite decide_True by done.
  eapply wp_gen_sym; [exact Hh|borrow|lia|]. wnext Hh. eexists _, _, [_]. split; [exact Hh|]. wnext Hh.
  apply (HQ eq_refl _ (TAtom (e_cln g)) μ); [eapply held_weaken; [|exact Hh]; simpl; lia|].
  exists [], []. split_and!; [constructor..|simpl; lia| |apply after_cln].
  intros l. split; [by intros ?%elem_of_nil|by intros [? _]].
Qed.

Lemma simplify_clc_case fuel l cl :
  simplifies (f_simplify_clause fuel) cl → simplifies (f_simplify_clause (S fuel)) (Clc l cl).
Proof.
  intros IH c t own k μ m Q X Hh Hc Hb Hs Ht Hk HQ HN. inversion Hc as [|f a b tl tc ? ? Hl Htc| |]; subst.
  simpl in Hk, HN. eapply wp_simplify_frame; [exact Hh|exact Hb|constructor|done|lia|]. clear Hh.
  intros own' m' -> Hh. unfold simplify_cases. destruct sat_tests as ((? & _) & _).
  rewrite decide_False, decide_True by done. set (t := TApp2 f a b (TAtom (e_clc g)) tl tc) in *.
  warg c t 1. warg c t 2.
  eapply (wp_match_lit (simplify_clc (f_simplify_clause fuel) a b)); [exact Hh|done|done
    |by repeat apply sat_consts_cons|lia|]. clear Hh. intros own' m2 -> Hh.
  eapply (wp_simplify_clc _ l cl a tl b tc); [done|exact Hh|done|done|borrow|borrow
    |by repeat apply sat_consts_cons|done|lia|by apply HN|]. clear Hh.
  intros Hr e t' μ' m3 Hh Hsi. eexists _, _, [_]. split; [exact Hh|]. wnext Hh.
  eexists _, _, [_]. split; [exact Hh|]. wnext Hh.
  apply (HQ Hr _ t' μ'); [eapply held_weaken; [|exact Hh]; simpl; lia|done].
Qed.

Lemma simplify_clr_case fuel l cl :
  simplifies (f_simplify_clause fuel) cl → simplifies (f_simplify_clause (S fuel)) (Clr l cl).
Proof.
  intros IH c t own k μ m Q X Hh Hc Hb Hs Ht Hk HQ HN. inversion Hc as [| | |f a b tl tc ? ? Hl Htc]; subst.
  simpl in Hk, HN, HQ. eapply wp_simplify_frame; [exact Hh|exact Hb|constructor|done|lia|]. clear Hh.
  intros own' m' -> Hh. unfold simplify_cases. destruct sat_tests as (_ & ? & ? & ?).
  rewrite !decide_False, decide_True by done. set (t := TApp2 f a b (TAtom (e_clr g)) tl tc) in *.
  warg c t 1. warg c t 2.
  eapply (wp_match_lit (simplify_clr (f_simplify_clause fuel) a b)); [exact Hh|done|done
    |by repeat apply sat_consts_cons|lia|]. clear Hh. intros own' m2 -> Hh.
  eapply (wp_simplify_clr _ l cl a tl b tc); [done|exact Hh|done|done|borrow|borrow
    |by repeat apply sat_consts_cons|done|lia|..]; clear Hh.
  - intros Hr. apply HN. by rewrite Hr, andb_false_r.
  - intros Hr Ho e t' μ' m3 Hh Hsi. eexists _, _, [_]. split; [exact Hh|]. wnext Hh.
    eexists _, _, [_]. split; [exact Hh|]. wnext Hh.
    eapply HQ; [by rewrite Ho|eapply held_weaken; [|exact Hh]; lia|done].
  - intros Hr Ho μ' m3 Hh Ht'. eexists _, _, []. split; [exact Hh|]. wnext Hh.
    eexists _, _, []. split; [exact Hh|]. wnext Hh.
    eapply HN; [by rewrite Ho|eapply held_weaken; [|exact Hh]; lia|done].
Qed.

Lemma simplify_concat_case fuel cl1 cl2 :
  nodes cl1 ≤ fuel → simplifies (f_simplify_clause (S fuel)) cl1 →
  simplifies (f_simplify_clause (S fuel)) cl2 → simplifies (f_simplify_clause (S (S fuel))) (Concat cl1 cl2).
Proof.
  intros Hf IH1 IH2 c t own k μ m Q X Hh Hc Hb Hs Ht Hk HQ HN.
  inversion Hc as [| |f a b t1 t2 ? ? H1 H2|]; subst. simpl in Hk, HN, HQ.
  eapply wp_simplify_frame; [exact Hh|exact Hb|constructor|done|lia|]. clear Hh.
  intros own' m' -> Hh. unfold simplify_cases. destruct sat_tests as ((? & ? & ?) & _).
  rewrite !decide_False, decide_True by done. set (t := TApp2 f a b (TAtom (e_concat_cl g)) t1 t2) in *.
  warg c t 1. warg c t 2.
  eapply (wp_simplify_concat fuel cl1 cl2 a t1 b t2); [done|done|done|exact Hh|done|done|borrow|borrow
    |by repeat apply sat_consts_cons|done|lia|by apply HN|]. clear Hh.
  intros Hr e t' μ' m3 Hh Hsi. eexists _, _, [_]. split; [exact Hh|]. wnext Hh.
  eapply HQ; [done|eapply held_weaken; [|exact Hh]; lia|done].
Qed.

Lemma simplify_all cl fuel : nodes cl < fuel → simplifies (f_simplify_clause fuel) cl.
Proof.
  revert fuel. induction cl as [|l cl IH|cl1 IH1 cl2 IH2|l cl IH]; simpl; intros [|fuel] Hf; try lia.
  - apply simplify_cln.
  - apply simplify_clc_case, IH. lia.
  - destruct fuel as [|fuel]; [lia|].
    apply simplify_concat_case; [lia|apply IH1; lia|apply IH2; lia].
  - apply simplify_clr_case, IH. lia.
Qed.
End clauses.

(** ** Properties *)

Section properties.
Context (g : scc_globals).
Implicit Types (k : nat) (μ : N → Z) (own : list (ptr * tm)) (m : mem).

(** The compiled [append] concatenates clauses.  On a clause with the literals
    [ls1] and one with the literals [ls2] it ends, with a clause that has the
    literals [ls1 ++ ls2] and to which the caller gets a reference; all that the
    caller held is still there, with its references counted. *)
Theorem f_append_correct fuel k μ own m c1 t1 ls1 c2 t2 ls2 :
  e_cln g ≠ e_clc g → held g k μ own m → (e_cln g, TAtom (e_cln g)) ∈ own →
  (e_clc g, TAtom (e_clc g)) ∈ own → (c1, t1) ∈ own → (c2, t2) ∈ own →
  clause_list g t1 ls1 → clause_list g t2 ls2 → length ls1 < fuel → append_cost (length ls1) ≤ k →
  ∃ e m', f_append fuel c1 c2 m = Ok (e, m') ∧ ∃ t, clause_list g t (ls1 ++ ls2) ∧
    held g (k - append_cost (length ls1)) μ ((e, t) :: own) m'.
Proof.
  intros Hd Hh Hn Hc H1 H2 L1 L2 Hf Hk. apply wp_ok.
  eapply (wp_append g ls1 ls2); [done|done|done|exact Hh|done|done|by apply B_own|by apply B_own|done|done|].
  intros e t m' Hh' Ht. eauto.
Qed.

(** No literal is marked. *)
Definition unmarked μ : Prop := ∀ l, removing μ l = false ∧ removed μ l = false.

Lemma after_unmarked μ cl μ' : unmarked μ → after μ cl μ' → ∀ p, μ' p = μ p.
Proof.
  intros Hu (HR & HF & Hh) p. apply Z.bits_inj'. intros i Hi.
  assert (E : (i = 0 ∨ i = 1 ∨ i = 2 ∨ i = 3 ∨ 4 ≤ i)%Z) by lia.
  destruct E as [->|[->|[->|[->|E]]]]; [apply (HR (Pos p))|apply (HR (Neg p))|..|by apply Hh].
  - pose proof (HF (Pos p)) as H. by rewrite (proj1 (Hu _)), orb_false_r in H.
  - pose proof (HF (Neg p)) as H. by rewrite (proj1 (Hu _)), orb_false_r in H.
Qed.

Lemma held_marks_ext k μ μ' own m : (∀ p, μ' p = μ p) → held g k μ' own m → held g k μ own m.
Proof. intros E [? ? ? ? Hm ?]. split; try done. intros a. by rewrite Hm, E. Qed.

(** How [f_simplify_clause] ends on a clause without marks. *)
Lemma simplify_unmarked fuel k μ own m c t cl :
  sat_distinct g → held g k μ own m → sat_consts g own → (c, t) ∈ own → clause_is g t cl →
  unmarked μ → nodes cl < fuel → simplify_cost cl ≤ k →
  wp (f_simplify_clause fuel c m)
    (λ e m', if removable cl
      then ∃ t' tls ls, clause_list g t' tls ∧ Forall2 (lit_is g) tls ls ∧
        (∀ l, l ∈ ls ↔ occurs l cl = true) ∧ held g (k - simplify_cost cl) μ ((e, t') :: own) m'
      else e = null)
    (λ x, removable cl = false ∧ x = Undefined NullDeref).
Proof.
  intros Hd Hh Hs Hc Ht Hu Hf Hk. assert (tidy μ) as Htidy.
  { intros l Hl. by rewrite (proj2 (Hu l)) in Hl. }
  eapply (simplify_all g Hd cl fuel Hf c t); [exact Hh|done|by apply B_own|done..| |].
  - intros -> e t' μ' m' Hh' (tls & ls & ? & ? & _ & Hin & Ha). exists t', tls, ls.
    split_and!; [done..| |by eapply held_marks_ext; [eapply after_unmarked|]].
    intros l. rewrite Hin. pose proof (proj1 (Hu l)). tauto.
  - intros ->. eauto.
Qed.

(** C2: the compiled [simplify_clause] computes the meaning of a general clause.
    When every literal that the clause removes occurs in it, the function ends
    with a clause of [cln] and [clc] that lists exactly the literals of the
    meaning, the caller gets a reference to it, everything the caller held is
    still counted, and no mark has changed. *)
Theorem f_simplify_clause_correct fuel k μ own m c t cl :
  sat_distinct g → held g k μ own m → sat_consts g own → (c, t) ∈ own → clause_is g t cl →
  unmarked μ → nodes cl < fuel → simplify_cost cl ≤ k → removable cl = true →
  ∃ e m', f_simplify_clause fuel c m = Ok (e, m') ∧ ∃ t' tls ls,
    clause_list g t' tls ∧ Forall2 (lit_is g) tls ls ∧ (∀ l, l ∈ ls ↔ occurs l cl = true) ∧
    held g (k - simplify_cost cl) μ ((e, t') :: own) m'.
Proof.
  intros Hd Hh Hs Hc Ht Hu Hf Hk Hr. apply wp_ok.
  eapply wp_mono; [by apply (simplify_unmarked fuel k μ own m c t cl)|..]; rewrite Hr; [done|by intros ? []].
Qed.

(** The compiled [simplify_clause] never accepts a clause that removes a
    literal which does not occur.  It returns the null pointer, which stands for
    failure, or it uses the null pointer that a recursive call returned, which
    the generated code does not test. *)
Theorem f_simplify_clause_rejects fuel k μ own m c t cl :
  sat_distinct g → held g k μ own m → sat_consts g own → (c, t) ∈ own → clause_is g t cl →
  unmarked μ → nodes cl < fuel → simplify_cost cl ≤ k → removable cl = false →
  (∃ m', f_simplify_clause fuel c m = Ok (null, m')) ∨
  f_simplify_clause fuel c m = Err (Undefined NullDeref).
Proof.
  intros Hd Hh Hs Hc Ht Hu Hf Hk Hr.
  pose proof (simplify_unmarked fuel k μ own m c t cl Hd Hh Hs Hc Ht Hu Hf Hk) as H. rewrite Hr in H.
  destruct (f_simplify_clause fuel c m) as [[e m']|x]; simpl in H; subst; [eauto|].
  destruct H as [_ ->]. by right.
Qed.

(** A valuation makes a literal true; a clause holds if one of its literals is. *)
Definition true_in (ρ : ptr → bool) (l : lit) : bool := match l with Pos v => ρ v | Neg v => negb (ρ v) end.

Definition holds_in (ρ : ptr → bool) (c : clause) : Prop := ∃ l, occurs l c = true ∧ true_in ρ l = true.

Definition opp (l : lit) : lit := match l with Pos v => Neg v | Neg v => Pos v end.

(** The clauses that the rules [R] and [Q] of sat.plf build from given ones: [R]
    resolves on a positive literal of its first premise, [Q] on a negative one. *)
Inductive resolved (given : clause → Prop) : clause → Prop :=
  | Given c : given c → resolved given c
  | Resolve l c1 c2 : resolved given c1 → resolved given c2 →
      resolved given (Concat (Clr l c1) (Clr (opp l) c2)).

Lemma true_in_opp ρ l : true_in ρ (opp l) = negb (true_in ρ l).
Proof. destruct l; simpl; [done|by rewrite negb_involutive]. Qed.

Lemma holds_clr ρ l c : holds_in ρ c → true_in ρ l = false → holds_in ρ (Clr l c).
Proof.
  intros (l1 & O1 & T1) Hl. exists l1. split; [|done]. simpl. rewrite O1.
  rewrite bool_decide_true; [done|]. intros ->. congruence.
Qed.

Lemma resolved_holds ρ given cl : (∀ c, given c → holds_in ρ c) → resolved given cl → holds_in ρ cl.
Proof.
  intros Hg. induction 1 as [c Hc|l c1 c2 _ IH1 _ IH2]; [by apply Hg|].
  destruct (true_in ρ l) eqn:E.
  - destruct (holds_clr ρ (opp l) c2 IH2) as (l2 & O2 & T2); [by rewrite true_in_opp, E|].
    exists l2. split; [|done]. cbn [occurs]. cbn [occurs] in O2. by rewrite O2, orb_true_r.
  - destruct (holds_clr ρ l c1 IH1 E) as (l1 & O1 & T1). exists l1. split; [|done].
    cbn [occurs]. cbn [occurs] in O1. by rewrite O1.
Qed.

(** C3: resolution with the compiled [simplify_clause] is sound.  Take a clause
    that the rules [R] and [Q] build, in any number of steps, from clauses that
    all hold in a valuation, represented with the constructor that the compiled
    code compares with, the one named [concat_cl].  If the function returns a
    clause for it, that clause is a list of literals one of which is true in
    the valuation.  (sat.plf itself names its constructor [concat]; what the
    compiled code does then is [simplify_without_concat_cl].) *)
Theorem resolution_sound fuel k μ own m c t given cl e m' ρ :
  sat_distinct g → held g k μ own m → sat_consts g own → (c, t) ∈ own → clause_is g t cl →
  unmarked μ → nodes cl < fuel → simplify_cost cl ≤ k →
  f_simplify_clause fuel c m = Ok (e, m') → e ≠ null →
  resolved given cl → (∀ c, given c → holds_in ρ c) →
  ∃ t' tls ls, repr (heap m') e t' ∧ clause_list g t' tls ∧ Forall2 (lit_is g) tls ls ∧
    ∃ l, l ∈ ls ∧ true_in ρ l = true.
Proof.
  intros Hd Hh Hs Hc Ht Hu Hf Hk Hrun Hne Hres Hg.
  destruct (resolved_holds ρ given cl Hg Hres) as (l & Ol & Tl).
  pose proof (simplify_unmarked fuel k μ own m c t cl Hd Hh Hs Hc Ht Hu Hf Hk) as H.
  rewrite Hrun in H. simpl in H. destruct (removable cl); [|done].
  destruct H as (t' & tls & ls & Hcl & Hls & Hin & Hh').
  exists t', tls, ls. split_and!; [apply (held_repr _ _ _ _ _ Hh'); constructor|done..|].
  exists l. split; [by apply Hin|done].
Qed.

(** C36: without a constructor named [concat_cl] every call of the compiled
    [simplify_clause] ends in a null pointer dereference, whatever the clause.
    sat.plf names the constructor [concat], so this is what [--run-scc] does
    with it. *)
Theorem simplify_without_concat_cl fuel k μ own m c t hd :
  e_concat_cl g = null → held g k μ own m → (e_cln g, TAtom (e_cln g)) ∈ own →
  (e_clc g, TAtom (e_clc g)) ∈ own → (c, t) ∈ own → head_is t hd → 3 ≤ k →
  f_simplify_clause (S fuel) c m = Err (Undefined NullDeref).
Proof.
  intros E Hh Hn Hl Hc Hhd Hk.
  assert (wp (f_simplify_clause (S fuel) c m) (λ _ _, False) (λ x, x = Undefined NullDeref)) as H.
  { cbn [f_simplify_clause]. apply wp_bind. eapply wp_run; [done|].
    rewrite (held_vars _ _ _ _ _ Hh), E. wstep.
    rewrite (bind_run _ _ _ _ _ (head_of_run _ _ _ _ _ c t hd Hh ltac:(borrow) Hhd)). do 2 wstep.
    apply wp_bind. by apply wp_inc_null. }
  destruct (f_simplify_clause (S fuel) c m) as [[]|]; simpl in H; [done|congruence].
Qed.
End properties.

(** ** A store with clauses *)

Definition sym_node (s : string) : node := Node 90 false (PSymS s null).
Definition app_node (ks : list ptr) : node := Node 90 false (PC APP (ks ++ [null])).

Definition sat_globals (concat_cl : ptr) : scc_globals :=
  SccGlobals 1 2 concat_cl 4 5 6 7 8 null null null null null null null null null null.

(** The variables [v] and [w] are at 9 and 10; 19 is
    [(concat_cl (clr (pos v) (clc (pos v) (clc (pos w) cln))) (clr (neg v) (clc (neg v) cln)))]
    and 21 is [(clr (neg v) (clc (pos v) cln))]. *)
Definition sat_mem (concat_cl : ptr) : mem :=
  Mem (list_to_map [(1, sym_node "cln"); (2, sym_node "clc"); (3, sym_node "concat_cl"); (4, sym_node "clr");
        (5, sym_node "pos"); (6, sym_node "neg"); (7, sym_node "tt"); (8, sym_node "ff");
        (9, sym_node "v"); (10, sym_node "w");
        (11, app_node [5; 9]); (12, app_node [6; 9]); (13, app_node [5; 10]);
        (15, app_node [2; 13; 1]); (14, app_node [2; 11; 15]); (16, app_node [2; 12; 1]);
        (17, app_node [4; 11; 14]); (18, app_node [4; 12; 16]); (19, app_node [3; 17; 18]);
        (20, app_node [2; 11; 1]); (21, app_node [4; 12; 20])]%N)
    22 ∅ EmptyString false false 0 (sat_globals concat_cl).

Definition t_lit (s v : ptr) : tm := TApp1 s v (TAtom s) (TAtom v).
Definition t_c1 : tm :=
  TApp2 2 11 15 (TAtom 2) (t_lit 5 9) (TApp2 2 13 1 (TAtom 2) (t_lit 5 10) (TAtom 1)).
Definition t_c2 : tm := TApp2 2 12 1 (TAtom 2) (t_lit 6 9) (TAtom 1).
Definition t_res : tm :=
  TApp2 3 17 18 (TAtom 3) (TApp2 4 11 14 (TAtom 4) (t_lit 5 9) t_c1)
    (TApp2 4 12 16 (TAtom 4) (t_lit 6 9) t_c2).
Definition t_bad : tm :=
  TApp2 4 12 20 (TAtom 4) (t_lit 6 9) (TApp2 2 11 1 (TAtom 2) (t_lit 5 9) (TAtom 1)).

Definition c1_lits : clause := Clc (Pos 9) (Clc (Pos 10) Cln).
Definition c2_lits : clause := Clc (Neg 9) Cln.
Definition resolvent : clause := Concat (Clr (Pos 9) c1_lits) (Clr (Neg 9) c2_lits).

Definition sat_own : list (ptr * tm) :=
  [(19%N, t_res); (21%N, t_bad); (14%N, t_c1); (16%N, t_c2); (1%N, TAtom 1); (2%N, TAtom 2); (3%N, TAtom 3);
   (4%N, TAtom 4); (5%N, TAtom 5); (6%N, TAtom 6); (7%N, TAtom 7); (8%N, TAtom 8)].

Lemma sat_held c : held (sat_globals c) 500 (marks_of (sat_mem c)) sat_own (sat_mem c).
Proof. apply (heldb_sound 500 sat_own (sat_mem c)). vm_compute. reflexivity. Qed.

Lemma sat_distinct_3 : sat_distinct (sat_globals 3).
Proof. split_and!; [apply (bool_decide_unpack _); vm_compute; exact I|done|done]. Qed.

Lemma sat_consts_own : sat_consts (sat_globals 3) sat_own.
Proof. unfold sat_own. split; here. Qed.

Lemma sat_unmarked c : unmarked (marks_of (sat_mem c)).
Proof. intros l. unfold removing, removed, marks_of. simpl. by rewrite !lookup_empty, !Z.testbit_0_l. Qed.

Lemma f_append_correct_witness :
  ∃ e m', f_append 3 14 16 (sat_mem 3) = Ok (e, m') ∧
    ∃ t, clause_list (sat_globals 3) t ([t_lit 5 9; t_lit 5 10] ++ [t_lit 6 9]) ∧
    held (sat_globals 3) (500 - append_cost 2) (marks_of (sat_mem 3)) ((e, t) :: sat_own) m'.
Proof.
  apply (f_append_correct (sat_globals 3) 3 500 (marks_of (sat_mem 3)) sat_own (sat_mem 3) 14 t_c1
    [t_lit 5 9; t_lit 5 10] 16 t_c2 [t_lit 6 9]);
    [done|apply sat_held|unfold sat_own; here..|repeat constructor|repeat constructor|simpl; lia|].
  vm_compute. repeat constructor.
Defined.

Lemma f_simplify_clause_correct_witness :
  ∃ e m', f_simplify_clause 20 19 (sat_mem 3) = Ok (e, m') ∧ ∃ t' tls ls,
    clause_list (sat_globals 3) t' tls ∧ Forall2 (lit_is (sat_globals 3)) tls ls ∧
    (∀ l, l ∈ ls ↔ occurs l resolvent = true) ∧
    held (sat_globals 3) (500 - simplify_cost resolvent) (marks_of (sat_mem 3)) ((e, t') :: sat_own) m'.
Proof.
  apply (f_simplify_clause_correct (sat_globals 3) 20 500 (marks_of (sat_mem 3)) sat_own (sat_mem 3) 19 t_res
    resolvent); [apply sat_distinct_3|apply sat_held|apply sat_consts_own|unfold sat_own; here
    |repeat constructor|apply sat_unmarked|simpl; lia|vm_compute; lia|reflexivity].
Defined.

Lemma f_simplify_clause_rejects_witness :
  (∃ m', f_simplify_clause 5 21 (sat_mem 3) = Ok (null, m')) ∨
  f_simplify_clause 5 21 (sat_mem 3) = Err (Undefined NullDeref).
Proof.
  apply (f_simplify_clause_rejects (sat_globals 3) 5 500 (marks_of (sat_mem 3)) sat_own (sat_mem 3) 21 t_bad
    (Clr (Neg 9) (Clc (Pos 9) Cln))); [apply sat_distinct_3|apply sat_held|apply sat_consts_own
    |unfold sat_own; here|repeat constructor|apply sat_unmarked|simpl; lia|vm_compute; lia|reflexivity].
Defined.

Lemma simplify_without_concat_cl_witness :
  f_simplify_clause 1 19 (sat_mem null) = Err (Undefined NullDeref).
Proof.
  apply (simplify_without_concat_cl (sat_globals null) 0 500 (marks_of (sat_mem null)) sat_own (sat_mem null)
    19 t_res 3); [reflexivity|apply sat_held|unfold sat_own; here..|constructor|lia].
Defined.

Definition only_w (v : ptr) : bool := bool_decide (v = 10%N).

Lemma resolution_sound_witness :
  match f_simplify_clause 20 19 (sat_mem 3) with
  | Ok (e, m') => ∃ t' tls ls, repr (heap m') e t' ∧ clause_list (sat_globals 3) t' tls ∧
      Forall2 (lit_is (sat_globals 3)) tls ls ∧ ∃ l, l ∈ ls ∧ true_in only_w l = true
  | Err _ => False
  end.
Proof.
  assert (H : match f_simplify_clause 20 19 (sat_mem 3) with
    | Ok (e, _) => negb (N.eqb e null) | Err _ => false end = true) by (vm_compute; reflexivity).
  destruct (f_simplify_clause 20 19 (sat_mem 3)) as [[e m']|] eqn:Hrun;
    [|exact (Bool.diff_false_true H)].
  apply (resolution_sound (sat_globals 3) 20 500 (marks_of (sat_mem 3)) sat_own (sat_mem 3) 19 t_res
    (λ c, c = c1_lits ∨ c = c2_lits) resolvent e m' only_w); [apply sat_distinct_3|apply sat_held|apply sat_consts_own
    |unfold sat_own; here|repeat constructor|apply sat_unmarked|simpl; lia|vm_compute; lia|exact Hrun
    |intros E; rewrite E in H; exact (Bool.diff_false_true H)| |].
  - apply (Resolve _ (Pos 9)); constructor; [left|right]; reflexivity.
  - intros c0 [->| ->]; [exists (Pos 10)|exists (Neg 9)]; split; reflexivity.
Defined.
