(* ===== verification/KindSpec.v ===== *)
(** * What the compiled k-induction programs build (scccode.cpp)

    [f_base] and [f_step] build the proof obligations of k-induction for the
    initial states [I], the transition relation [T] and the property [P]: no
    state within [k] steps violates [P], and [k] steps through states with [P]
    lead to a state with [P].  The formulas they build are the intended ones, and
    if both are unsatisfiable then [P] is invariant. *)

From Stdlib Require Import QArith_base.
From stdpp Require Import base tactics list strings gmap numbers sorting.
From S2P Require Import Prelude Header Memory Expr Code Follow Alpha RefCount SccCode Owned SccRules.

(** ** Formulas *)

(** Formulas over the states of a run: atoms say that state [i] is initial, that
    states [i] and [j] are in the transition relation, and that state [i] has
    the property. *)
Inductive form :=
  | FInit (i : Z)
  | FTrans (i j : Z)
  | FProp (i : Z)
  | FAnd (a b : form)
  | FOr (a b : form)
  | FNot (a : form).

(** [n] steps from an initial state. *)
Fixpoint unroll_from (n : nat) : form :=
  match n with
  | 0 => FInit 0
  | S n => FAnd (unroll_from n) (FTrans (Z.of_nat n) (Z.of_nat (S n)))
  end.

(** Some state within [n] steps of an initial one violates the property. *)
Fixpoint base_k (n : nat) : form :=
  match n with
  | 0 => FAnd (unroll_from 0) (FNot (FProp 0))
  | S n' => FOr (base_k n') (FAnd (unroll_from n) (FNot (FProp (Z.of_nat n))))
  end.

(** [n] steps through states with the property. *)
Fixpoint unroll_with (n : nat) : form :=
  match n with
  | 0 => FProp 0
  | S n' =>
      match n' with
      | 0 => FAnd (FProp 0) (FTrans 0 1)
      | S _ => FAnd (unroll_with n') (FAnd (FProp (Z.of_nat n')) (FTrans (Z.of_nat n') (Z.of_nat n)))
      end
  end.

Definition step (n : nat) : form := FAnd (unroll_with n) (FNot (FProp (Z.of_nat n))).

(** References the code takes along the way, at most. *)
Definition unroll_cost (n : nat) : nat := 20 * S n.
Fixpoint base_cost (n : nat) : nat :=
  match n with
  | 0 => 20 + unroll_cost 0
  | S n' => 30 + base_cost n' + unroll_cost n
  end.

(** ** Formulas in the store *)

Section kind.
Context (g : scc_globals) (I T P : ptr).
Implicit Types (k : nat) (μ : N → Z) (own : list (ptr * tm)) (m : mem) (X : error → Prop).

Inductive form_is : tm → form → Prop :=
  | FI_init a z : form_is (TApp1 I a (TRef I) (TInt z)) (FInit z)
  | FI_prop a z : form_is (TApp1 P a (TRef P) (TInt z)) (FProp z)
  | FI_trans a b i j : form_is (TApp2 T a b (TRef T) (TInt i) (TInt j)) (FTrans i j)
  | FI_and f a b ta tb φ ψ : form_is ta φ → form_is tb ψ →
      form_is (TApp2 f a b (TAtom (e_and g)) ta tb) (FAnd φ ψ)
  | FI_or f a b ta tb φ ψ : form_is ta φ → form_is tb ψ →
      form_is (TApp2 f a b (TAtom (e_or g)) ta tb) (FOr φ ψ)
  | FI_not f a ta φ : form_is ta φ → form_is (TApp1 f a (TAtom (e_not g)) ta) (FNot φ).

(** The connectives and the three parameters are held by somebody. *)
Record kind_consts own : Prop := KindConsts {
  has_and : (e_and g, TAtom (e_and g)) ∈ own;
  has_or : (e_or g, TAtom (e_or g)) ∈ own;
  has_not : (e_not g, TAtom (e_not g)) ∈ own;
  has_I : (I, TRef I) ∈ own;
  has_T : (T, TRef T) ∈ own;
  has_P : (P, TRef P) ∈ own
}.

Lemma kind_consts_cons own r : kind_consts own → kind_consts (r :: own).
Proof. intros []. split; by apply list_elem_of_further. Qed.

(** ** Numbers *)

(** A reference that is forgotten. *)
Lemma held_forget k μ own m r : held g k μ (r :: own) m → held g k μ own m.
Proof.
  intros [[Hc Hf Hn] Hr ? ? ? ?]. split; try done.
  - split; [|done..]. destruct r. by eapply covers_drop.
  - intros e t He. apply Hr. by constructor.
Qed.

(** A literal is made with one reference more than the code gives up. *)
Lemma wp_gen_int k μ own m n (Q : ptr → mem → Prop) X :
  held g k μ own m → 1 ≤ k →
  (∀ e m', held g (k - 1) μ ((e, TInt n) :: own) m' → Q e m') → wp (gen_int n m) Q X.
Proof.
  intros Hh Hk HQ. unfold gen_int. apply wp_bind. eapply wp_new_int; [exact Hh|]. wresult Hh.
  wstep. simpl. apply HQ. by eapply held_forget.
Qed.

Lemma number_run k μ own m e z :
  held g k μ own m → borrows own e (TInt z) →
  ∃ d, followDefs e m = Ok (d, m) ∧ getclass d m = Ok (INT_EXPR, m) ∧ int_of d m = Ok (z, m).
Proof.
  intros Hh Hb. pose proof (held_borrows _ _ _ _ _ _ _ Hh Hb) as Hr.
  destruct (repr_followDefs m e (TInt z)) as (d & n & Hf & Hne & Hd & Eb); [done..|]. simpl in Eb.
  exists d. split_and!; [done|by rewrite (getclass_run m d n Hne Hd), Eb|].
  unfold int_of. by rewrite (bind_run _ _ _ _ _ (load_run m d n Hne Hd)), Eb.
Qed.

Lemma wp_ifsign (test : Z → bool) k μ own m e z (yes no : M mem ptr) (Q : ptr → mem → Prop) X :
  held g k μ own m → borrows own e (TInt z) → 1 ≤ k →
  (∀ m', held g (k - 1) μ ((e, TInt z) :: own) m' →
    wp ((if test (Z.sgn z) then yes else no) m') (λ r m2, ∃ k' μ' res,
      held g k' μ' (res ++ (e, TInt z) :: own) m2 ∧
      ∀ m3, held g k' μ' (res ++ own) m3 → Q r m3) X) →
  wp (gen_ifsign test e yes no m) Q X.
Proof.
  intros Hh Hb Hk HB. unfold gen_ifsign. wstep.
  destruct (number_run _ _ _ _ e z Hh ltac:(borrow)) as (d & Hf & Hc & Hi).
  rewrite (bind_run _ _ _ _ _ Hf), (bind_run _ _ _ _ _ Hc). apply wp_bind.
  rewrite (bind_run _ _ _ z m') by (by rewrite (bind_run _ _ _ _ _ Hf)).
  eapply wp_mono; [by apply HB| |done].
  intros r m2 (k' & μ' & res & Hh2 & HQ). clear Hh. wstep. by apply HQ.
Qed.

Lemma wp_gen_add k μ own m e z n (Q : ptr → mem → Prop) X :
  held g k μ own m → borrows own e (TInt z) → 2 ≤ k →
  (∀ j m', held g (k - 2) μ ((j, TInt (z + n)) :: own) m' → Q j m') → wp (gen_add e n m) Q X.
Proof.
  intros Hh Hb Hk HQ. unfold gen_add. wstep. apply wp_bind.
  eapply wp_gen_int; [exact Hh|lia|]. clear Hh. intros e2 m2 Hh.
  destruct (number_run _ _ _ _ e z Hh ltac:(borrow)) as (d & Hf & Hc & Hi).
  destruct (number_run _ _ _ _ e2 n Hh ltac:(borrow)) as (d2 & Hf2 & Hc2 & Hi2).
  rewrite (bind_run _ _ _ _ _ Hf), (bind_run _ _ _ _ _ Hc). apply wp_bind.
  rewrite (bind_run _ _ _ z m2) by (by rewrite (bind_run _ _ _ _ _ Hf)).
  rewrite (bind_run _ _ _ n m2) by (by rewrite (bind_run _ _ _ _ _ Hf2)).
  eapply wp_new_int; [exact Hh|]. wresult Hh. do 2 wstep. simpl. apply HQ.
  eapply held_weaken; [|exact Hh]. lia.
Qed.

(** ** Applications *)

Lemma wp_gen_at k μ own m f n (Q : ptr → mem → Prop) X :
  held g k μ own m → borrows own f (TRef f) → 2 ≤ k →
  (∀ e a m', held g (k - 2) μ ((e, TApp1 f a (TRef f) (TInt n)) :: own) m' → Q e m') →
  wp (gen_at f n m) Q X.
Proof.
  intros Hh Hb Hk HQ. unfold gen_at. apply wp_bind. eapply wp_gen_int; [exact Hh|lia|]. wresult Hh.
  wapp. eapply HQ, held_weaken; [|exact Hh]. lia.
Qed.

Lemma wp_gen_set k μ own m f e z (Q : ptr → mem → Prop) X :
  held g k μ own m → borrows own f (TRef f) → borrows own e (TInt z) → 2 ≤ k →
  (∀ r m', held g (k - 2) μ ((r, TApp1 f e (TRef f) (TInt z)) :: own) m' → Q r m') →
  wp (gen_set f e m) Q X.
Proof.
  intros Hh Hb He Hk HQ. unfold gen_set. wstep. wapp. eapply HQ, held_weaken; [|exact Hh]. lia.
Qed.

Lemma wp_gen_rel k μ own m f a i b j (Q : ptr → mem → Prop) X :
  held g k μ own m → borrows own f (TRef f) → borrows own a (TInt i) → borrows own b (TInt j) → 3 ≤ k →
  (∀ r m', held g (k - 3) μ ((r, TApp2 f a b (TRef f) (TInt i) (TInt j)) :: own) m' → Q r m') →
  wp (gen_rel f a b m) Q X.
Proof.
  intros Hh Hb Ha Hbj Hk HQ. unfold gen_rel. do 2 wstep. wapp. eapply HQ, held_weaken; [|exact Hh]. lia.
Qed.

(** ** [f_unroll_from] *)

(** The tests a program makes on its bound: below zero, zero, or a predecessor. *)
Lemma wp_bound (n : nat) k μ own m e (neg zero succ : M mem ptr) (Q : ptr → mem → Prop) X :
  held g k μ own m → borrows own e (TInt (Z.of_nat n)) → 2 ≤ k →
  (∀ own' m', own' = (e, TInt (Z.of_nat n)) :: (e, TInt (Z.of_nat n)) :: own → held g (k - 2) μ own' m' →
    wp ((if n is 0 then zero else succ) m') (λ r m2, ∃ k' t,
      held g k' μ ((r, t) :: own') m2 ∧ ∀ m3, held g k' μ ((r, t) :: own) m3 → Q r m3) X) →
  wp (gen_ifneg e neg (gen_ifzero e zero succ) m) Q X.
Proof.
  intros Hh Hb Hk HB. eapply wp_ifsign; [exact Hh|exact Hb|lia|]. wnext Hh.
  replace (Z.sgn (Z.of_nat n) <? 0)%Z with false by (symmetry; apply Z.ltb_ge; lia).
  eapply wp_ifsign; [exact Hh|borrow|lia|]. wnext Hh.
  replace (Z.sgn (Z.of_nat n) =? 0)%Z with (if n is 0 then true else false) 
    by (destruct n; [done|symmetry; apply Z.eqb_neq; lia]).
  eapply wp_mono; [| |done]. { destruct n; (eapply HB; [done|eapply held_weaken; [|exact Hh]; lia]). }
  intros r m2 (k' & t & Hh2 & HQ). eexists k', μ, [(r, t)]. split; [done|]. intros m3 Hh3.
  eexists k', μ, [(r, t)]. split; [done|]. done.
Qed.

Lemma wp_bound_negative z k μ own m e (c : M mem ptr) (Q : ptr → mem → Prop) X :
  held g k μ own m → borrows own e (TInt z) → 1 ≤ k → (z < 0)%Z →
  (∀ m', held g (k - 1) μ own m' → Q null m') → wp (gen_ifneg e (mret null) c m) Q X.
Proof.
  intros Hh Hb Hk Hz HQ. eapply wp_ifsign; [exact Hh|exact Hb|lia|]. wnext Hh.
  replace (Z.sgn z <? 0)%Z with true by (symmetry; apply Z.ltb_lt; lia). simpl. eexists _, _, []. split; [exact Hh|]. done.
Qed.

Lemma wp_unroll_from n fuel k μ own m e (Q : ptr → mem → Prop) X :
  held g k μ own m → kind_consts own → borrows own e (TInt (Z.of_nat n)) → n < fuel →
  unroll_cost n ≤ k →
  (∀ r t m', held g (k - unroll_cost n) μ ((r, t) :: own) m' → form_is t (unroll_from n) → Q r m') →
  wp (f_unroll_from fuel T I e m) Q X.
Proof.
  revert fuel k own m e Q. unfold unroll_cost.
  induction n as [|n IH]; intros fuel k own m e Q Hh Hc Hb Hf Hk HQ;
    (destruct fuel as [|fuel]; [lia|]); cbn [f_unroll_from]; apply wp_bind; (eapply wp_run; [done|]);
    rewrite (held_vars _ _ _ _ _ Hh); destruct Hc as [c1 c2 c3 c4 c5 c6];
    (eapply wp_bound; [exact Hh|exact Hb|lia|]); clear Hh; intros own' m' -> Hh.
  - eapply wp_gen_at; [exact Hh|borrow|lia|]. clear Hh. intros r a m2 Hh. eexists _, _.
    split; [exact Hh|]. intros m3 Hh3. eapply HQ; [|constructor]. eapply held_weaken; [|done]. lia.
  - apply wp_bind. eapply wp_gen_add; [exact Hh|borrow|lia|]. clear Hh. intros j m2 Hh.
    replace (Z.of_nat (S n) + -1)%Z with (Z.of_nat n) in Hh by lia.
    unfold gen_call. cbn [for_each]. do 4 wstep. apply wp_bind.
    eapply IH; [exact Hh|by repeat apply kind_consts_cons|borrow|lia|lia|].
    clear Hh. intros e3 t3 m3 Hh H3. do 4 wstep. apply wp_bind.
    eapply (wp_gen_rel _ _ _ _ T j _ e); [exact Hh|borrow|borrow|borrow|lia|]. wresult Hh.
    wapp. wstep. simpl. eexists _, _. split; [exact Hh|]. intros m4 Hh4.
    eapply HQ; [eapply held_weaken; [|exact Hh4]; lia|]. constructor; [done|constructor].
Qed.

(** ** [f_base] *)

Lemma wp_base_k n fuel k μ own m e (Q : ptr → mem → Prop) X :
  held g k μ own m → kind_consts own → borrows own e (TInt (Z.of_nat n)) → S n < fuel →
  base_cost n ≤ k →
  (∀ r t m', held g (k - base_cost n) μ ((r, t) :: own) m' → form_is t (base_k n) → Q r m') →
  wp (f_base_k fuel I T P e m) Q X.
Proof.
  revert fuel k own m e Q.
  induction n as [|n IH]; intros fuel k own m e Q Hh Hc Hb Hf Hk HQ;
    (destruct fuel as [|fuel]; [lia|]); cbn [f_base_k base_cost] in *; apply wp_bind; (eapply wp_run; [done|]);
    rewrite (held_vars _ _ _ _ _ Hh); pose proof Hc as [c1 c2 c3 c4 c5 c6];
    (eapply wp_bound; [exact Hh|exact Hb|unfold unroll_cost in *; lia|]); clear Hh; intros own' m' -> Hh.
  - do 2 wstep. apply wp_bind. eapply wp_gen_int; [exact Hh|unfold unroll_cost in *; lia|]. wresult Hh.
    apply wp_bind. eapply (wp_unroll_from 0); [exact Hh|by repeat apply kind_consts_cons|borrow|lia|lia|].
    clear Hh. intros e1 t1 m2 Hh H1. do 3 wstep. apply wp_bind.
    eapply wp_gen_at; [exact Hh|borrow|lia|]. clear Hh. intros e4 a m3 Hh. do 2 wapp.
    eexists _, _. split; [exact Hh|]. intros m4 Hh4.
    eapply HQ; [eapply held_weaken; [|exact Hh4]; lia|]. repeat constructor. done.
  - apply wp_bind. eapply wp_gen_add; [exact Hh|borrow|lia|]. clear Hh. intros j m2 Hh.
    replace (Z.of_nat (S n) + -1)%Z with (Z.of_nat n) in Hh by lia.
    unfold gen_call. cbn [for_each]. do 5 wstep. apply wp_bind.
    eapply IH; [exact Hh|by repeat apply kind_consts_cons|borrow|lia|lia|].
    clear Hh. intros e9 t9 m3 Hh H9. do 5 wstep.
    do 4 wstep. apply wp_bind.
    eapply (wp_unroll_from (S n)); [exact Hh|by repeat apply kind_consts_cons|borrow|lia|lia|].
    clear Hh. intros e11 t11 m4 Hh H11. do 4 wstep. apply wp_bind.
    eapply (wp_gen_set _ _ _ _ P e); [exact Hh|borrow|borrow|lia|]. wresult Hh. do 3 wapp. wstep. simpl.
    eexists _, _. split; [exact Hh|]. intros m5 Hh5.
    eapply HQ; [eapply held_weaken; [|exact Hh5]; lia|]. by repeat constructor.
Qed.

Lemma wp_base n fuel k μ own m e (Q : ptr → mem → Prop) X :
  held g k μ own m → kind_consts own → borrows own e (TInt (Z.of_nat (S n))) → S n < fuel →
  5 + base_cost n ≤ k →
  (∀ r t m', held g (k - (5 + base_cost n)) μ ((r, t) :: own) m' → form_is t (base_k n) → Q r m') →
  wp (f_base fuel I T P e m) Q X.
Proof.
  intros Hh Hc Hb Hf Hk HQ. pose proof Hc as [c1 c2 c3 c4 c5 c6]. unfold f_base. do 3 wstep. apply wp_bind.
  eapply wp_gen_add; [exact Hh|borrow|lia|]. clear Hh. intros j m2 Hh.
  replace (Z.of_nat (S n) + -1)%Z with (Z.of_nat n) in Hh by lia. apply wp_bind.
  eapply (wp_base_k n); [exact Hh|by repeat apply kind_consts_cons|borrow|lia|lia|].
  clear Hh. intros e0 t0 m3 Hh H0. do 4 wstep. simpl.
  eapply HQ; [eapply held_weaken; [|exact Hh]; lia|done].
Qed.

Lemma wp_base_negative z fuel k μ own m e (Q : ptr → mem → Prop) X :
  held g k μ own m → kind_consts own → borrows own e (TInt z) → (z ≤ 0)%Z → 6 ≤ k →
  (∀ m', held g (k - 6) μ own m' → Q null m') → wp (f_base (S fuel) I T P e m) Q X.
Proof.
  intros Hh [c1 c2 c3 c4 c5 c6] Hb Hz Hk HQ. unfold f_base. do 3 wstep. apply wp_bind.
  eapply wp_gen_add; [exact Hh|borrow|lia|]. clear Hh. intros j m2 Hh. apply wp_bind. cbn [f_base_k].
  apply wp_bind. eapply wp_run; [done|].
  eapply (wp_bound_negative (z + -1)); [exact Hh|borrow|lia|lia|]. wnext Hh. do 4 wstep. simpl.
  apply HQ. eapply held_weaken; [|exact Hh]. lia.
Qed.

(** ** [f_step] *)

Lemma wp_unroll_with n fuel k μ own m e (Q : ptr → mem → Prop) X :
  held g k μ own m → kind_consts own → borrows own e (TInt (Z.of_nat n)) → n < fuel →
  unroll_cost n ≤ k →
  (∀ r t m', held g (k - unroll_cost n) μ ((r, t) :: own) m' → form_is t (unroll_with n) → Q r m') →
  wp (f_unroll_with fuel T P e m) Q X.
Proof.
  revert fuel k own m e Q. unfold unroll_cost.
  induction n as [|n IH]; intros fuel k own m e Q Hh Hc Hb Hf Hk HQ;
    (destruct fuel as [|fuel]; [lia|]); cbn [f_unroll_with]; apply wp_bind; (eapply wp_run; [done|]);
    rewrite (held_vars _ _ _ _ _ Hh); pose proof Hc as [c1 c2 c3 c4 c5 c6];
    (eapply wp_bound; [exact Hh|exact Hb|lia|]); clear Hh; intros own' m' -> Hh.
  - eapply wp_gen_at; [exact Hh|borrow|lia|]. clear Hh. intros r a m2 Hh. eexists _, _.
    split; [exact Hh|]. intros m3 Hh3. eapply HQ; [|constructor]. eapply held_weaken; [|done]. lia.
  - apply wp_bind. eapply wp_gen_add; [exact Hh|borrow|lia|]. clear Hh. intros j m2 Hh.
    replace (Z.of_nat (S n) + -1)%Z with (Z.of_nat n) in Hh by lia. apply wp_bind.
    eapply wp_ifsign; [exact Hh|borrow|lia|]. wnext Hh.
    replace (Z.sgn (Z.of_nat n) =? 0)%Z with (if n is 0 then true else false)
      by (destruct n; [done|symmetry; apply Z.eqb_neq; lia]).
    destruct n as [|n].
    + apply wp_bind. eapply wp_gen_at; [exact Hh|borrow|lia|]. clear Hh. intros e3 a m3 Hh. apply wp_bind.
      eapply wp_gen_int; [exact Hh|lia|]. clear Hh. intros e6 m4 Hh. apply wp_bind.
      eapply wp_gen_int; [exact Hh|lia|]. wresult Hh. do 2 wapp.
      eexists _, _, [_]. split; [exact Hh|]. wnext Hh. wstep. simpl. eexists _, _. split; [exact Hh|].
      wnext Hh. eapply HQ; [eapply held_weaken; [|exact Hh]; lia|]. by repeat constructor.
    + unfold gen_call. cbn [for_each]. do 4 wstep. apply wp_bind.
      eapply IH; [exact Hh|by repeat apply kind_consts_cons|borrow|lia|lia|].
      clear Hh. intros e9 t9 m3 Hh H9. do 4 wstep. apply wp_bind.
      eapply (wp_gen_set _ _ _ _ P j); [exact Hh|borrow|borrow|lia|]. wresult Hh. apply wp_bind.
      eapply (wp_gen_rel _ _ _ _ T j _ e); [exact Hh|borrow|borrow|borrow|lia|]. wresult Hh. do 2 wapp.
      eexists _, _, [_]. split; [exact Hh|]. wnext Hh. wstep. simpl. eexists _, _. split; [exact Hh|].
      wnext Hh. eapply HQ; [eapply held_weaken; [|exact Hh]; lia|]. by repeat constructor.
Qed.

Lemma wp_step n fuel k μ own m e (Q : ptr → mem → Prop) X :
  held g k μ own m → kind_consts own → borrows own e (TInt (Z.of_nat n)) → n < fuel →
  10 + unroll_cost n ≤ k →
  (∀ r t m', held g (k - (10 + unroll_cost n)) μ ((r, t) :: own) m' → form_is t (step n) → Q r m') →
  wp (f_step fuel T P e m) Q X.
Proof.
  intros Hh Hc Hb Hf Hk HQ. pose proof Hc as [c1 c2 c3 c4 c5 c6]. unfold f_step.
  apply wp_bind. eapply wp_run; [done|]. rewrite (held_vars _ _ _ _ _ Hh).
  unfold gen_call. cbn [for_each]. do 4 wstep. apply wp_bind.
  eapply (wp_unroll_with n); [exact Hh|by repeat apply kind_consts_cons|borrow|lia|lia|].
  clear Hh. intros e1 t1 m2 Hh H1. do 4 wstep. apply wp_bind.
  eapply (wp_gen_set _ _ _ _ P e); [exact Hh|borrow|borrow|lia|]. wresult Hh. do 2 wapp.
  eapply HQ; [eapply held_weaken; [|exact Hh]; lia|]. by repeat constructor.
Qed.
End kind.

(** ** What the formulas mean *)

Section meaning.
Context {St : Type} (init : St → Prop) (trans : St → St → Prop) (prop : St → bool).

(** A formula about the states [s 0], [s 1], ... *)
Fixpoint den (s : Z → St) (φ : form) : Prop :=
  match φ with
  | FInit i => init (s i)
  | FTrans i j => trans (s i) (s j)
  | FProp i => prop (s i) = true
  | FAnd a b => den s a ∧ den s b
  | FOr a b => den s a ∨ den s b
  | FNot a => ¬ den s a
  end.

Definition is_run (s : Z → St) : Prop := init (s 0%Z) ∧ ∀ i, (0 ≤ i)%Z → trans (s i) (s (i + 1)%Z).

Lemma den_unroll_from s n : is_run s → den s (unroll_from n).
Proof.
  intros [Hi Ht]. induction n as [|n IH]; [done|]. cbn [unroll_from den]. split; [done|].
  rewrite Nat2Z.inj_succ. apply Ht. lia.
Qed.

Lemma den_base_k s n i : is_run s → i ≤ n → prop (s (Z.of_nat i)) = false → den s (base_k n).
Proof.
  intros Hr. induction n as [|n IH]; intros Hi Hp.
  - assert (i = 0) as -> by lia. split; [by apply (den_unroll_from s 0)|]. change (Z.of_nat 0) with 0%Z in Hp. cbn [den]. intros ?. congruence.
  - destruct (decide (i = S n)) as [->|]; [right|left; apply IH; [lia|done]].
    split; [by apply den_unroll_from|]. cbn [den]. intros ?. congruence.
Qed.

Lemma den_unroll_with s n :
  (∀ i, (0 ≤ i)%Z → trans (s i) (s (i + 1)%Z)) → (∀ i, i ≤ n → prop (s (Z.of_nat i)) = true) →
  den s (unroll_with (S n)).
Proof.
  intros Ht. induction n as [|n IH]; intros Hp.
  - split; [apply (Hp 0); lia|apply (Ht 0%Z); lia].
  - split; [apply IH; intros; apply Hp; lia|]. cbn [den]. split; [apply Hp; lia|].
    rewrite (Nat2Z.inj_succ (S n)). apply Ht. lia.
Qed.

Lemma induction_sound n :
  (∀ s, ¬ den s (base_k n)) → (∀ s, ¬ den s (step (S n))) →
  ∀ s, is_run s → ∀ i, prop (s (Z.of_nat i)) = true.
Proof.
  intros HB HS s Hr i. induction (lt_wf i) as [i _ IH].
  destruct (prop (s (Z.of_nat i))) eqn:E; [done|exfalso].
  destruct (decide (i ≤ n)) as [Hle|Hgt]; [by apply (HB s), (den_base_k s n i)|].
  apply (HS (λ z, s (z + Z.of_nat (i - S n))%Z)). split.
  - apply (den_unroll_with (λ z, s (z + Z.of_nat (i - S n))%Z)).
    + intros j Hj. replace (j + 1 + Z.of_nat (i - S n))%Z with (j + Z.of_nat (i - S n) + 1)%Z by lia.
      apply Hr. lia.
    + intros j Hj. rewrite <-Nat2Z.inj_add. apply IH. lia.
  - cbn [den]. rewrite <-Nat2Z.inj_add. replace (S n + (i - S n)) with i by lia. intros ?. congruence.
Qed.
End meaning.

(** ** Properties *)

Section properties.
Context (g : scc_globals) (I T P : ptr).
Implicit Types (k : nat) (μ : N → Z) (own : list (ptr * tm)) (m : mem).

(** The compiled [base] builds the base case of k-induction.  For a bound
    [n + 1] it ends with a reference to the formula that some state within [n]
    steps of an initial state violates the property; for a bound of zero or less
    it fails, as the program does.  What the caller held stays counted. *)
Theorem f_base_correct fuel k μ own m e z :
  held g k μ own m → kind_consts g I T P own → (e, TInt z) ∈ own → Z.to_nat z < fuel →
  6 + base_cost (Z.to_nat z) ≤ k →
  ∃ r m', f_base fuel I T P e m = Ok (r, m') ∧
    if decide (0 < z)%Z
    then ∃ t k', form_is g I T P t (base_k (Z.to_nat (z - 1))) ∧ held g k' μ ((r, t) :: own) m'
    else r = null ∧ ∃ k', held g k' μ own m'.
Proof.
  intros Hh Hc He Hf Hk. apply wp_ok. case_decide as Hz.
  - destruct (Z.to_nat z) as [|n] eqn:E; [lia|]. assert (z = Z.of_nat (S n)) as -> by lia.
    replace (Z.to_nat (Z.of_nat (S n) - 1)) with n by lia.
    eapply (wp_base g I T P n); [exact Hh|done|by apply B_own|lia|simpl in Hk; lia|]. eauto.
  - destruct fuel as [|fuel]; [lia|].
    eapply (wp_base_negative g I T P z); [exact Hh|done|by apply B_own|lia|lia|]. eauto.
Qed.

(** The compiled [step] builds the step of k-induction: for a bound [n] that
    is not negative, the formula that [n] steps through states with the property
    lead to a state without it. *)
Theorem f_step_correct n fuel k μ own m e :
  held g k μ own m → kind_consts g I T P own → (e, TInt (Z.of_nat n)) ∈ own → n < fuel →
  10 + unroll_cost n ≤ k →
  ∃ r m', f_step fuel T P e m = Ok (r, m') ∧
    ∃ t k', form_is g I T P t (step n) ∧ held g k' μ ((r, t) :: own) m'.
Proof.
  intros Hh Hc He Hf Hk. apply wp_ok.
  eapply (wp_step g I T P n); [exact Hh|done|by apply B_own|lia|lia|]. eauto.
Qed.

(** C4: the obligations are sound.  From a bound that is positive [f_base] and then
    [f_step] build two formulas; if neither is satisfiable by any sequence of
    states of a transition system, then every state of every run of the system
    has the property. *)
Theorem kinduction_sound n fuel k μ own m e :
  held g k μ own m → kind_consts g I T P own → (e, TInt (Z.of_nat (S n))) ∈ own → S n < fuel →
  15 + base_cost n + unroll_cost (S n) ≤ k →
  ∃ B m1 S m2 tB tS φB φS,
    f_base fuel I T P e m = Ok (B, m1) ∧ f_step fuel T P e m1 = Ok (S, m2) ∧
    repr (heap m2) B tB ∧ repr (heap m2) S tS ∧ form_is g I T P tB φB ∧ form_is g I T P tS φS ∧
    ∀ (St : Type) init trans (prop : St → bool),
      (∀ s, ¬ den init trans prop s φB) → (∀ s, ¬ den init trans prop s φS) →
      ∀ s, is_run init trans s → ∀ i, prop (s (Z.of_nat i)) = true.
Proof.
  intros Hh Hc He Hf Hk.
  destruct (wp_ok (f_base fuel I T P e m) (λ r m', ∃ t, form_is g I T P t (base_k n) ∧
    held g (k - (5 + base_cost n)) μ ((r, t) :: own) m')) as (B & m1 & HB & tB & FB & HhB).
  { eapply (wp_base g I T P n); [exact Hh|done|by apply B_own|lia|lia|]. eauto. }
  destruct (wp_ok (f_step fuel T P e m1) (λ r m', ∃ t k', form_is g I T P t (step (S n)) ∧
    held g k' μ ((r, t) :: (B, tB) :: own) m')) as (S' & m2 & HS & tS & k' & FS & HhS).
  { eapply (wp_step g I T P (S n)); [exact HhB|by apply kind_consts_cons|borrow|lia|lia|]. eauto. }
  exists B, m1, S', m2, tB, tS, (base_k n), (step (S n)).
  split_and!; [done|done|apply (held_repr _ _ _ _ _ HhS); here|apply (held_repr _ _ _ _ _ HhS); here|done|done|].
  intros St init trans prop. by apply induction_sound.
Qed.

(** The compiled [step] does not fail for a negative bound.  The program does:
    its call of [unroll_with] fails.  The compiled code stores the null pointer
    that stands for the failure as an argument of [and], and returns the
    application, whose arguments end there. *)
Theorem f_step_negative_accepted fuel k μ own m e z :
  held g k μ own m → kind_consts g I T P own → (e, TInt z) ∈ own → (z < 0)%Z → 10 ≤ k →
  ∃ r m' n e2, f_step (S fuel) T P e m = Ok (r, m') ∧ r ≠ null ∧ heap m' !! r = Some n ∧
    body n = PC APP [e_and g; null; e2; null].
Proof.
  intros Hh Hc He Hz Hk. pose proof Hc as [c1 c2 c3 c4 c5 c6].
  destruct (wp_ok (f_step (S fuel) T P e m) (λ r m', ∃ n e2, r ≠ null ∧ heap m' !! r = Some n ∧
    body n = PC APP [e_and g; null; e2; null])) as (r & m' & Hrun & n & e2 & Hrest).
  2:{ exists r, m', n, e2. tauto. }
  unfold f_step. apply wp_bind. eapply wp_run; [done|]. rewrite (held_vars _ _ _ _ _ Hh).
  unfold gen_call. cbn [for_each f_unroll_with]. do 4 wstep. apply wp_bind. apply wp_bind.
  eapply wp_run; [done|].
  eapply (wp_bound_negative g z); [exact Hh|borrow|lia|done|]. wnext Hh. do 4 wstep. apply wp_bind.
  eapply (wp_gen_set g _ _ _ _ P e z); [exact Hh|borrow|borrow|lia|]. wresult Hh. wapp.
  unfold gen_app. wstep. eapply wp_run; [done|]. simpl.
  eexists _, _. split_and!; [|apply lookup_insert_eq|done]. pose proof (owns_next _ _ (held_owns _ _ _ _ _ Hh)). lia.
Qed.

(** A rational bound is undefined behaviour.  [f_base] subtracts the literal 1,
    an integer, and for a rational bound it reads that literal as a rational. *)
Theorem f_base_rational_bad_cast fuel k μ own m e q :
  held g k μ own m → kind_consts g I T P own → (e, TRat q) ∈ own → 6 ≤ k →
  f_base fuel I T P e m = Err (Undefined BadCast).
Proof.
  intros Hh [c1 c2 c3 c4 c5 c6] He Hk.
  assert (wp (f_base fuel I T P e m) (λ _ _, False) (λ x, x = Undefined BadCast)) as H.
  { unfold f_base, gen_add. do 3 wstep. apply wp_bind. wstep. apply wp_bind.
    eapply wp_gen_int; [exact Hh|lia|]. clear Hh. intros e2 m2 Hh.
    destruct (repr_followDefs m2 e (TRat q)) as (d & n & Hf & Hne & Hd & Eb); [done|
      apply (held_repr _ _ _ _ _ Hh); member|]. simpl in Eb.
    destruct (repr_followDefs m2 e2 (TInt (-1))) as (d2 & n2 & Hf2 & Hne2 & Hd2 & Eb2); [done|
      apply (held_repr _ _ _ _ _ Hh); member|]. simpl in Eb2.
    rewrite (bind_run _ _ _ _ _ Hf), (bind_run _ _ _ _ _ (getclass_run m2 d n Hne Hd)), Eb. simpl.
    apply wp_bind. rewrite (bind_run _ _ _ q m2).
    2:{ rewrite (bind_run _ _ _ _ _ Hf). unfold rat_of.
        by rewrite (bind_run _ _ _ _ _ (load_run m2 d n Hne Hd)), Eb. }
    rewrite (bind_err _ _ _ (Undefined BadCast)); [done|]. rewrite (bind_run _ _ _ _ _ Hf2). unfold rat_of.
    by rewrite (bind_run _ _ _ _ _ (load_run m2 d2 n2 Hne2 Hd2)), Eb2. }
  destruct (f_base fuel I T P e m) as [[]|]; simpl in H; [done|congruence].
Qed.
End properties.

(** ** A store with a transition system *)

Definition kind_sym (s : string) : node := Node 90 false (PSymS s null).

(** [I], [T] and [P] are at 4, 5 and 6; the bounds 2, -1 and 1/2 at 7, 8 and 9. *)
Definition kind_mem : mem :=
  Mem (list_to_map [(1, kind_sym "and"); (2, kind_sym "or"); (3, kind_sym "not"); (4, kind_sym "I");
        (5, kind_sym "T"); (6, kind_sym "P"); (7, Node 90 false (PInt 2)); (8, Node 90 false (PInt (-1)));
        (9, Node 90 false (PRat (Qmake 1 2)))]%N)
    10 ∅ EmptyString false false 0
    (SccGlobals null null null null null null null null 1 3 2 null null null null null null null).

Definition kind_own : list (ptr * tm) :=
  [(1%N, TAtom 1); (2%N, TAtom 2); (3%N, TAtom 3); (4%N, TRef 4); (5%N, TRef 5); (6%N, TRef 6);
   (7%N, TInt 2); (8%N, TInt (-1)); (9%N, TRat (Qmake 1 2))].

Lemma kind_held : held (scc_vars kind_mem) 500 (marks_of kind_mem) kind_own kind_mem.
Proof. apply (heldb_sound 500 kind_own kind_mem). vm_compute. reflexivity. Qed.

Lemma kind_consts_own : kind_consts (scc_vars kind_mem) 4 5 6 kind_own.
Proof. unfold kind_own. split; here. Qed.

Lemma f_base_correct_witness :
  ∃ r m', f_base 9 4 5 6 7 kind_mem = Ok (r, m') ∧
    if decide (0 < 2)%Z
    then ∃ t k', form_is (scc_vars kind_mem) 4 5 6 t (base_k (Z.to_nat (2 - 1))) ∧
      held (scc_vars kind_mem) k' (marks_of kind_mem) ((r, t) :: kind_own) m'
    else r = null ∧ ∃ k', held (scc_vars kind_mem) k' (marks_of kind_mem) kind_own m'.
Proof.
  apply (f_base_correct (scc_vars kind_mem) 4 5 6 9 500 (marks_of kind_mem) kind_own kind_mem 7 2);
    [apply kind_held|apply kind_consts_own|unfold kind_own; here|lia|vm_compute; lia].
Defined.

Lemma f_step_correct_witness :
  ∃ r m', f_step 9 5 6 7 kind_mem = Ok (r, m') ∧
    ∃ t k', form_is (scc_vars kind_mem) 4 5 6 t (step 2) ∧
      held (scc_vars kind_mem) k' (marks_of kind_mem) ((r, t) :: kind_own) m'.
Proof.
  apply (f_step_correct (scc_vars kind_mem) 4 5 6 2 9 500 (marks_of kind_mem) kind_own kind_mem 7);
    [apply kind_held|apply kind_consts_own|unfold kind_own; here|lia|vm_compute; lia].
Defined.

Lemma kinduction_sound_witness :
  ∃ B m1 S m2 tB tS φB φS,
    f_base 9 4 5 6 7 kind_mem = Ok (B, m1) ∧ f_step 9 5 6 7 m1 = Ok (S, m2) ∧
    repr (heap m2) B tB ∧ repr (heap m2) S tS ∧
    form_is (scc_vars kind_mem) 4 5 6 tB φB ∧ form_is (scc_vars kind_mem) 4 5 6 tS φS ∧
    ∀ (St : Type) init trans (prop : St → bool),
      (∀ s, ¬ den init trans prop s φB) → (∀ s, ¬ den init trans prop s φS) →
      ∀ s, is_run init trans s → ∀ i, prop (s (Z.of_nat i)) = true.
Proof.
  apply (kinduction_sound (scc_vars kind_mem) 4 5 6 1 9 500 (marks_of kind_mem) kind_own kind_mem 7);
    [apply kind_held|apply kind_consts_own|unfold kind_own; here|lia|vm_compute; lia].
Defined.

Lemma f_step_negative_accepted_witness :
  ∃ r m' n e2, f_step 1 5 6 8 kind_mem = Ok (r, m') ∧ r ≠ null ∧ heap m' !! r = Some n ∧
    body n = PC APP [1%N; null; e2; null].
Proof.
  apply (f_step_negative_accepted (scc_vars kind_mem) 4 5 6 0 500 (marks_of kind_mem) kind_own kind_mem 8 (-1));
    [apply kind_held|apply kind_consts_own|unfold kind_own; here|lia|lia].
Defined.

Lemma f_base_rational_bad_cast_witness : f_base 1 4 5 6 9 kind_mem = Err (Undefined BadCast).
Proof.
  apply (f_base_rational_bad_cast (scc_vars kind_mem) 4 5 6 1 500 (marks_of kind_mem) kind_own kind_mem 9
    (Qmake 1 2)); [apply kind_held|apply kind_consts_own|unfold kind_own; here|lia].
Defined.
