(* ===== verification/Whr.v ===== *)
(** * Weak head reduction of an application to one argument

    [whr] finds the abstraction at the head by going down through nested
    applications and definitions, but takes its arguments from the outermost
    application only.  When the head is an abstraction the step is a beta step.
    When the head is defined as a partial application, the code treats that
    application as if it were the abstraction. *)

From stdpp Require Import base tactics list strings gmap numbers.
From S2P Require Import Prelude Header Memory Expr Follow Alpha.

Definition inc_node (n : node) : node := Node (inc_ref (refcnt n)) (exmark n) (body n).
Definition flag_node (n : node) : node := Node (refcnt n) true (body n).

(** The heap after a step at the object [h] with the first kid [x]: [h] is
    flagged, [x] stands for [a], and [a] and the result [b] have one more
    reference. *)
Definition stepped (hp : gmap N node) (h x a b : ptr) : gmap N node :=
  alter inc_node b (alter inc_node a (set_val (alter flag_node h hp) x a)).

Lemma inc_run m e n : e ≠ null → heap m !! e = Some n →
  inc e m = Ok ((), set_heap (alter inc_node e (heap m)) m).
Proof.
  intros Hne He. unfold inc. rewrite (bind_run _ _ _ _ _ (load_run m e n Hne He)).
  unfold store, modify. do 3 f_equal. apply map_eq. intros a.
  destruct (decide (a = e)) as [->|].
  - by rewrite lookup_insert_eq, lookup_alter_eq, He.
  - by rewrite lookup_insert_ne, lookup_alter_ne.
Qed.

Lemma setcloned_run m e n : e ≠ null → heap m !! e = Some n →
  setcloned e m = Ok ((), set_heap (alter flag_node e (heap m)) m).
Proof.
  intros Hne He. unfold setcloned, setexmark. rewrite (bind_run _ _ _ _ _ (load_run m e n Hne He)).
  unfold store, modify. do 3 f_equal. apply map_eq. intros a.
  destruct (decide (a = e)) as [->|].
  - by rewrite lookup_insert_eq, lookup_alter_eq, He.
  - by rewrite lookup_insert_ne, lookup_alter_ne.
Qed.

(** Chains of values depend on the fields only. *)
Lemma alter_body f (h : gmap N node) a e : (∀ n, body (f n) = body n) → body <$> alter f a h !! e = body <$> h !! e.
Proof.
  intros Hf. rewrite lookup_alter. case_decide; [|done]. subst. destruct (h !! e); simpl; by rewrite ?Hf.
Qed.

Lemma body_lookup (h h' : gmap N node) e n :
  (∀ a, body <$> h' !! a = body <$> h !! a) → h !! e = Some n → ∃ n', h' !! e = Some n' ∧ body n' = body n.
Proof.
  intros Hb He. specialize (Hb e). rewrite He in Hb. destruct (h' !! e) as [n'|]; [|done].
  exists n'. split; [done|]. by injection Hb.
Qed.

Lemma leads_body h h' e k a :
  (∀ x, body <$> h' !! x = body <$> h !! x) → leads h e k a → leads h' e k a.
Proof.
  intros Hb. assert (∀ x, next h' x = next h x) as Hnext.
  { intros x. specialize (Hb x). unfold next. destruct (h !! x), (h' !! x); try done.
    simpl in *. by injection Hb as ->. }
  induction 1 as [e ? [n Hn] ?|e v k a ? ? ? IH].
  - constructor; [done| |by rewrite Hnext]. destruct (body_lookup _ _ _ _ Hb Hn) as (n' & ? & _). by exists n'.
  - econstructor; [done|by rewrite Hnext|done].
Qed.

Lemma leads_nonnull h e k a : leads h e k a → a ≠ null ∧ is_Some (h !! a).
Proof. induction 1; done. Qed.

Section step.
Context (m : mem) (e p h a a' x b l : ptr) (ne nh nx nb nl : node) (o : op) (ks : list ptr) (k j : nat).
Hypotheses (Hen : e ≠ null) (He : heap m !! e = Some ne) (Ee : body ne = PC APP [p; a; null]).
Hypotheses (Hp : leads (heap m) p k h) (Ha : leads (heap m) a j a').
Hypotheses (Hh : heap m !! h = Some nh) (Eh : body nh = PC o (x :: b :: ks)) (Ef : exmark nh = false).
Hypotheses (Hxn : x ≠ null) (Hx : heap m !! x = Some nx) (Sx : is_sym (body nx) = true).
Hypotheses (Hbn : b ≠ null) (Hb : heap m !! b = Some nb).
Hypotheses (Hl : get_head e true m = Ok (l, m)) (Hln : l ≠ null) (Hll : heap m !! l = Some nl)
  (El : op_of (body nl) = LAM).

(** The part of [whr] after the choice of the head. *)
Lemma beta_loop_run hp :
  (∀ y, body <$> hp !! y = body <$> heap m !! y) →
  let hp' := alter inc_node a' (set_val hp x a') in
  beta_loop h [a] (set_heap hp m) = Ok ((b, []), set_heap hp' m).
Proof using Hp Ha Hh Eh Hxn Hx Sx Hbn Hb.
  intros Hbody hp'. destruct (leads_nonnull _ _ _ _ Hp) as [Hhn _], (leads_nonnull _ _ _ _ Ha) as [Han [na Hna]].
  cbn [beta_loop].
  rewrite (bind_run _ _ _ _ _ (followDefs_leads (set_heap hp m) a j a' (leads_body _ _ _ _ _ Hbody Ha))).
  destruct (body_lookup _ _ _ _ Hbody Hh) as (nh1 & Hh1 & Eh1), (body_lookup _ _ _ _ Hbody Hx) as (nx1 & Hx1 & Ex1),
    (body_lookup _ _ _ _ Hbody Hna) as (na1 & Hna1 & _), (body_lookup _ _ _ _ Hbody Hb) as (nb1 & Hb1 & _).
  rewrite Eh in Eh1. rewrite <-Ex1 in Sx.
  rewrite (bind_run _ _ _ _ _ (kid_run (set_heap hp m) h nh1 _ _ 0 x Hhn Hh1 Eh1 eq_refl)).
  rewrite (bind_run _ _ _ _ _ (set_sym_val_run (set_heap hp m) x nx1 a' Hxn Hx1 Sx)).
  destruct (proj2 (set_val_dom hp x a' a') (mk_is_Some _ _ Hna1)) as [na2 Hna2].
  rewrite (bind_run _ _ _ _ _ (inc_run (set_heap (set_val hp x a') m) a' na2 Han Hna2)).
  assert (h ≠ x) as Hhx. { intros ->. rewrite Hh1 in Hx1. injection Hx1 as ->. by rewrite Eh1 in Sx. }
  assert (∃ nh2, hp' !! h = Some nh2 ∧ body nh2 = PC o (x :: b :: ks)) as (nh2 & Hh2 & Eh2).
  { destruct (body_lookup (set_val hp x a') hp' h nh1) as (n' & ? & ?); [|by rewrite set_val_ne|exists n'; split; [done|congruence]].
    intros y. by apply alter_body. }
  rewrite (bind_run _ _ _ _ _ (kid_run (set_heap hp' m) h nh2 _ _ 1 b Hhn Hh2 Eh2 eq_refl)).
  assert (is_Some (hp' !! b)) as [nb2 Hb2].
  { apply lookup_alter_is_Some, set_val_dom. eauto. }
  rewrite (bind_run _ _ _ _ _ (getop_run (set_heap hp' m) b nb2 Hbn Hb2)). by case_decide.
Qed.

Lemma whr_step_run fuel : whr fuel e m = Ok (b, set_heap (stepped (heap m) h x a' b) m).
Proof using All.
  unfold whr. rewrite (bind_run _ _ _ _ _ Hl), (bind_run _ _ _ _ _ (getop_run m l nl Hln Hll)).
  rewrite decide_True by done. destruct (leads_nonnull _ _ _ _ Hp) as [Hhn _].
  assert (collect_args e true m = Ok ((h, [a]), m)) as Hc.
  { unfold collect_args. rewrite (bind_run _ _ _ _ _ (getop_run m e ne Hen He)), Ee. simpl.
    rewrite (bind_run _ _ m (p, [a]) m).
    - by rewrite (bind_run _ _ _ _ _ (followDefs_leads m p k h Hp)).
    - rewrite (bind_run _ _ _ _ _ (kid_run m e ne _ _ 0 p Hen He Ee eq_refl)).
      assert (kids_list e m = Ok ([p; a], m)) as Hk; [|by rewrite (bind_run _ _ _ _ _ Hk)].
      assert (kids_of e m = Ok ([p; a; null], m)) as Hk.
      { unfold kids_of. by rewrite (bind_run _ _ _ _ _ (load_run m e ne Hen He)), Ee. }
      unfold kids_list. rewrite (bind_run _ _ _ _ _ Hk). unfold kid_list. simpl.
      destruct (leads_live _ _ _ _ Hp) as [Hpn _], (leads_live _ _ _ _ Ha) as [Hap _].
      by rewrite (decide_False (P:=p = null)), (decide_False (P:=a = null)). }
  rewrite (bind_run _ _ _ _ _ Hc). unfold cloned, getexmark.
  rewrite (bind_run _ _ m false m) by (by rewrite (bind_run _ _ _ _ _ (load_run m h nh Hhn Hh)), Ef).
  set (hp := alter flag_node h (heap m)).
  rewrite (bind_run _ _ m (h, null) (set_heap hp m)) by (by rewrite (bind_run _ _ _ _ _ (setcloned_run m h nh Hhn Hh))).
  rewrite (bind_run _ _ _ _ _ (beta_loop_run hp (λ y, alter_body flag_node _ _ _ (λ _, eq_refl)))).
  cbv beta iota zeta. rewrite (bind_run (for_each inc []) _ _ () _ eq_refl).
  assert (is_Some (alter inc_node a' (set_val hp x a') !! b)) as [nb2 Hb2].
  { apply lookup_alter_is_Some, set_val_dom, lookup_alter_is_Some. eauto. }
  rewrite (bind_run _ _ _ _ _ (inc_run (set_heap _ m) b nb2 Hbn Hb2)). done.
Qed.
End step.

(** The head of an application whose first kid leads to an abstraction. *)
Lemma get_head_lam m e p k h ne nh ks ks' :
  e ≠ null → heap m !! e = Some ne → body ne = PC APP (p :: ks) → leads (heap m) p k h →
  heap m !! h = Some nh → body nh = PC LAM ks' → get_head e true m = Ok (h, m).
Proof.
  intros Hen He Ee Hp Hh Eh. destruct (leads_nonnull _ _ _ _ Hp) as [Hhn _].
  unfold get_head. rewrite (bind_run _ _ _ m m) by done.
  assert (0 < size (heap m)) as Hsz by (apply Nat.neq_0_lt_0, map_size_ne_0_lookup; eauto).
  destruct (size (heap m)) as [|sz]; [lia|]. cbn [descend].
  rewrite (bind_run _ _ _ _ _ (getop_run m e ne Hen He)), Ee. simpl.
  rewrite (bind_run _ _ _ _ _ (kid_run m e ne APP (p :: ks) 0 p Hen He Ee eq_refl)).
  rewrite (bind_run _ _ _ _ _ (followDefs_leads m p k h Hp)).
  by rewrite (bind_run _ _ _ _ _ (getop_run m h nh Hhn Hh)), Eh.
Qed.

Lemma get_head_partial m e p k h f j l ne nh nf nl ks ks' ks'' :
  e ≠ null → heap m !! e = Some ne → body ne = PC APP (p :: ks) → leads (heap m) p k h →
  heap m !! h = Some nh → body nh = PC APP (f :: ks') → heap m !! f = Some nf → is_sym (body nf) = true →
  leads (heap m) f j l → heap m !! l = Some nl → body nl = PC LAM ks'' →
  get_head e true m = Ok (l, m).
Proof.
  intros Hen He Ee Hp Hh Eh Hf Sf Hl Hll El. destruct (leads_nonnull _ _ _ _ Hp) as [Hhn _].
  destruct (leads_nonnull _ _ _ _ Hl) as [Hln _].
  assert (1 < size (heap m)) as Hsz.
  { pose proof (leads_bound _ _ _ _ Hl). destruct j as [|j]; [|lia]. inversion Hl; subst.
    assert (nl = nf) as -> by congruence. by rewrite El in Sf. }
  unfold get_head. rewrite (bind_run _ _ _ m m) by done.
  destruct (size (heap m)) as [|[|sz]]; [lia..|]. cbn [descend].
  rewrite (bind_run _ _ _ _ _ (getop_run m e ne Hen He)), Ee. simpl.
  rewrite (bind_run _ _ _ _ _ (kid_run m e ne APP (p :: ks) 0 p Hen He Ee eq_refl)).
  rewrite (bind_run _ _ _ _ _ (followDefs_leads m p k h Hp)).
  rewrite (bind_run _ _ _ _ _ (getop_run m h nh Hhn Hh)), Eh. simpl.
  rewrite (bind_run _ _ _ _ _ (kid_run m h nh APP (f :: ks') 0 f Hhn Hh Eh eq_refl)).
  rewrite (bind_run _ _ _ _ _ (followDefs_leads m f j l Hl)).
  by rewrite (bind_run _ _ _ _ _ (getop_run m l nl Hln Hll)), El.
Qed.

(** Weak head reduction of [(h a)], for a head defined as an abstraction
    that is not in use, is a beta step.  It always comes to an end with the body
    of the abstraction, in which the bound variable now stands for the argument;
    nothing else changes but the flag of the abstraction and two counts. *)
Theorem whr_beta fuel m e p k h a j a' x b ne nh nx nb :
  e ≠ null → heap m !! e = Some ne → body ne = PC APP [p; a; null] →
  leads (heap m) p k h → heap m !! h = Some nh → body nh = PC LAM [x; b; null] → exmark nh = false →
  leads (heap m) a j a' →
  x ≠ null → heap m !! x = Some nx → is_sym (body nx) = true →
  b ≠ null → heap m !! b = Some nb →
  whr fuel e m = Ok (b, set_heap (stepped (heap m) h x a' b) m).
Proof.
  intros Hen He Ee Hp Hh Eh Ef Ha Hxn Hx Sx Hbn Hb. destruct (leads_nonnull _ _ _ _ Hp) as [Hhn _].
  eapply (whr_step_run m e p h a a' x b h ne nh nx nb nh LAM [null] k j); try done.
  - by eapply get_head_lam.
  - by rewrite Eh.
Qed.

(** [((\ x x) 7)] *)
Definition beta_mem : mem :=
  Mem {[1%N := Node 1 false (PSymS "x" 0); 2%N := Node 1 false (PC LAM [1; 1; 0]%N);
        3%N := Node 1 false (PInt 7); 4%N := Node 1 false (PC APP [2; 3; 0]%N)]} 5 ∅ EmptyString false false 0 scc_none.

Lemma whr_beta_witness :
  whr 0 4%N beta_mem = Ok (1%N, set_heap (stepped (heap beta_mem) 2 1 3 1) beta_mem).
Proof.
  eapply (whr_beta 0 beta_mem 4 2 0 2 3 0 3 1 1); try reflexivity; try discriminate;
    (constructor; [discriminate|eexists; reflexivity|reflexivity]).
Defined.

(** C37: weak head reduction is wrong for a named partial application.  For
    [(p a)], where [p] is defined as the application [(f b)], whose mark is not
    set, of a symbol [f] that is defined as an abstraction of whatever body, it
    gives [b]: the argument [a] is dropped, and so is the function.  The
    definition of [f] itself is overwritten: from then on [f] stands for [a]. *)
Theorem whr_partial_application fuel m e p k h f i l a j a' b ne nh nf nb nl ks :
  e ≠ null → heap m !! e = Some ne → body ne = PC APP [p; a; null] →
  leads (heap m) p k h → heap m !! h = Some nh → body nh = PC APP [f; b; null] → exmark nh = false →
  f ≠ null → heap m !! f = Some nf → is_sym (body nf) = true →
  leads (heap m) f i l → heap m !! l = Some nl → body nl = PC LAM ks →
  leads (heap m) a j a' → b ≠ null → heap m !! b = Some nb →
  whr fuel e m = Ok (b, set_heap (stepped (heap m) h f a' b) m) ∧
  next (stepped (heap m) h f a' b) f = Some a'.
Proof.
  intros Hen He Ee Hp Hh Eh Ef Hfn Hf Sf Hl Hll El Ha Hbn Hb.
  destruct (leads_nonnull _ _ _ _ Hl) as [Hln _], (leads_nonnull _ _ _ _ Ha) as [Han _]. split.
  - eapply (whr_step_run m e p h a a' f b l ne nh nf nb nl APP [null] k j); try done.
    + by eapply get_head_partial.
    + by rewrite El.
  - assert (h ≠ f) as Hne by (intros ->; rewrite Hh in Hf; injection Hf as ->; by rewrite Eh in Sf).
    destruct (body_lookup (set_val (alter flag_node h (heap m)) f a') (stepped (heap m) h f a' b) f
                (with_val a' nf)) as (n' & Hn' & En').
    + intros y. unfold stepped. by rewrite !alter_body.
    + by rewrite set_val_eq, lookup_alter_ne, Hf.
    + unfold next. rewrite Hn'. simpl. rewrite En'. unfold with_val.
      destruct (body nf); try done; simpl; by rewrite decide_False.
Qed.

(** [f] is [(\ x (\ y y))], [p] is [(f 7)] and the application is [(p 8)]. *)
Definition partial_mem : mem :=
  Mem {[1%N := Node 1 false (PSymS "x" 0); 2%N := Node 1 false (PSymS "y" 0);
        3%N := Node 1 false (PC LAM [2; 2; 0]%N); 4%N := Node 1 false (PC LAM [1; 3; 0]%N);
        5%N := Node 1 false (PSymS "f" 4); 6%N := Node 1 false (PInt 7);
        7%N := Node 1 false (PC APP [5; 6; 0]%N); 8%N := Node 1 false (PSymS "p" 7);
        9%N := Node 1 false (PInt 8); 10%N := Node 1 false (PC APP [8; 9; 0]%N)]} 11 ∅
    EmptyString false false 0 scc_none.

Lemma whr_partial_application_witness :
  whr 0 10%N partial_mem = Ok (6%N, set_heap (stepped (heap partial_mem) 7 5 9 6) partial_mem) ∧
  next (stepped (heap partial_mem) 7 5 9 6) 5 = Some 9%N.
Proof.
  eapply (whr_partial_application 0 partial_mem 10 8 1 7 5 1 4 9 0 9 6);
    try reflexivity; try discriminate;
    repeat (econstructor; try reflexivity; try discriminate).
Defined.
