(* ===== verification/RunSpec.v ===== *)
(** * What running arithmetic code computes

    [aexp] is the integer fragment of the side-condition language (literals,
    variables, arithmetic, conditionals, [do], [let] and [fail]) and [eval] its
    meaning.  [run_code] refines it: on code in the store that represents an
    expression it comes to an end with the value, the failure or the division by
    zero that [eval] gives, puts the values of bound variables back, and leaves
    nothing behind in the store but the result. *)

From stdpp Require Import base tactics list strings gmap numbers pretty.
From S2P Require Import Prelude Header Memory Expr Lexer Follow Alpha Run.

(** ** Expressions and their meaning *)

Inductive aexp :=
  | ALit (z : Z)
  | AVar (x : ptr)
  | AArith (o : op) (a b : aexp)
  | ANeg (a : aexp)
  | AIf (o : op) (c a b : aexp)
  | AFail
  | ADo (a b : aexp)
  | ALet (x : ptr) (a b : aexp).

Inductive outc := Val (z : Z) | Failed | DivZero.

Definition arith (o : op) (x y : Z) : outc :=
  match o with
  | ADD => Val (x + y)
  | MUL => Val (x * y)
  | _ => if decide (y = 0%Z) then DivZero else Val (- ((- x) / y))
  end.

(** Go on with a value; failures and errors are passed on. *)
Definition on_val (o : outc) (f : Z → outc) : outc :=
  match o with Val z => f z | Failed => Failed | DivZero => DivZero end.

Fixpoint eval (ρ : gmap N Z) (a : aexp) : outc :=
  match a with
  | ALit z => Val z
  | AVar x => if ρ !! x is Some z then Val z else Failed
  | AArith o a b => on_val (eval ρ a) (λ x, on_val (eval ρ b) (arith o x))
  | ANeg a => on_val (eval ρ a) (λ x, Val (- x))
  | AIf o c a b => on_val (eval ρ c) (λ x, if sign_test o x then eval ρ a else eval ρ b)
  | AFail => Failed
  | ADo a b => on_val (eval ρ a) (λ _, eval ρ b)
  | ALet x a b => on_val (eval ρ a) (λ v, eval (<[x := v]> ρ) b)
  end%Z.

Fixpoint asize (a : aexp) : nat :=
  match a with
  | ALit _ | AVar _ | AFail => 1
  | AArith _ a b | ADo a b | ALet _ a b => S (asize a + asize b)
  | ANeg a => S (asize a)
  | AIf _ c a b => S (asize c + asize a + asize b)
  end.

(** ** Code in the store *)

Definition is_arith (o : op) : bool := match o with ADD | MUL | DIV => true | _ => false end.
Definition is_if (o : op) : bool := match o with IFNEG | IFZERO => true | _ => false end.

Inductive code_at (h : gmap N node) : ptr → aexp → Prop :=
  | CA_lit e n z : e ≠ null → h !! e = Some n → body n = PInt z → code_at h e (ALit z)
  | CA_var e n s v : e ≠ null → h !! e = Some n → body n = PSymS s v → code_at h e (AVar e)
  | CA_arith e n o k0 k1 a b : e ≠ null → h !! e = Some n → body n = PC o [k0; k1; null] →
      is_arith o = true → code_at h k0 a → code_at h k1 b → code_at h e (AArith o a b)
  | CA_neg e n k0 a : e ≠ null → h !! e = Some n → body n = PC NEG [k0; null] →
      code_at h k0 a → code_at h e (ANeg a)
  | CA_if e n o k0 k1 k2 c a b : e ≠ null → h !! e = Some n → body n = PC o [k0; k1; k2; null] →
      is_if o = true → code_at h k0 c → code_at h k1 a → code_at h k2 b → code_at h e (AIf o c a b)
  | CA_fail e n ks : e ≠ null → h !! e = Some n → body n = PC FAIL ks → code_at h e AFail
  | CA_do e n k0 k1 a b : e ≠ null → h !! e = Some n → body n = PC DO [k0; k1; null] →
      code_at h k0 a → code_at h k1 b → code_at h e (ADo a b)
  | CA_let e n x nx s v k1 k2 a b : e ≠ null → h !! e = Some n → body n = PC LET [x; k1; k2; null] →
      x ≠ null → h !! x = Some nx → body nx = PSymS s v →
      code_at h k1 a → code_at h k2 b → code_at h e (ALet x a b).

(** A variable that has the value [z]. *)
Definition var_at (h : gmap N node) (x : ptr) (z : Z) : Prop :=
  ∃ n s v nv, x ≠ null ∧ h !! x = Some n ∧ body n = PSymS s v ∧ v ≠ null ∧
    h !! v = Some nv ∧ body nv = PInt z.

(** Every free variable of [a] is bound in [ρ]. *)
Fixpoint closed_in (ρ : gset N) (a : aexp) : bool :=
  match a with
  | ALit _ | AFail => true
  | AVar x => bool_decide (x ∈ ρ)
  | AArith _ a b | ADo a b => closed_in ρ a && closed_in ρ b
  | ANeg a => closed_in ρ a
  | AIf _ c a b => closed_in ρ c && closed_in ρ a && closed_in ρ b
  | ALet x a b => closed_in ρ a && closed_in ({[x]} ∪ ρ) b
  end.

(** ** References *)

Definition bump (n : node) : node := Node (refcnt n + 1) (exmark n) (body n).

(** The store with one more reference to [r], an integer [z]. *)
Definition give (r : ptr) (z : Z) (h : gmap N node) : gmap N node :=
  <[r := if (h !! r) is Some n then bump n else Node 1 false (PInt z)]> h.

(** Counts are positive and [k] more references do not reach the bound. *)
Definition roomy (m : mem) (k : nat) : Prop :=
  (0 < next_addr m)%N ∧ (1 + Z.of_nat k < max_refcnt)%Z ∧
  ∀ a n, heap m !! a = Some n →
    (a < next_addr m)%N ∧ (1 ≤ refcnt n)%Z ∧ (refcnt n + Z.of_nat k < max_refcnt)%Z.

(** Everything but the heap and the next address. *)
Definition same_rest (m m' : mem) : Prop :=
  m' = Mem (heap m') (next_addr m') (mark_map m) (cout m) (dbg_prog m) (run_scc m)
         (dbg_prog_indent_lvl m) (scc_vars m).

(** [r] is an owned reference to the integer [z], and nothing else changed. *)
Record yields (m : mem) (z : Z) (r : ptr) (m' : mem) : Prop := Yields {
  y_heap : heap m' = give r z (heap m);
  y_old : ∀ n, heap m !! r = Some n → body n = PInt z;
  y_new : heap m !! r = None → (next_addr m ≤ r)%N;
  y_lt : (r < next_addr m')%N;
  y_nn : r ≠ null;
  y_next : (next_addr m ≤ next_addr m')%N;
  y_rest : same_rest m m'
}.

(** A failed run may have left references behind. *)
Record grown (m m' : mem) : Prop := Grown {
  g_keep : ∀ a n, heap m !! a = Some n →
    ∃ n', heap m' !! a = Some n' ∧ body n' = body n ∧ exmark n' = exmark n ∧ (refcnt n ≤ refcnt n')%Z;
  g_next : (next_addr m ≤ next_addr m')%N;
  g_rest : same_rest m m'
}.

(** ** Stores that still represent the code *)

Definition same_shape (b b' : payload) : Prop :=
  match b with PSymS s _ => ∃ v, b' = PSymS s v | _ => b' = b end.

Definition evolves (h h' : gmap N node) : Prop :=
  ∀ a n, h !! a = Some n → ∃ n', h' !! a = Some n' ∧ same_shape (body n) (body n').

Lemma same_shape_refl b : same_shape b b.
Proof. destruct b; simpl; eauto. Qed.

#[global] Instance evolves_preorder : PreOrder evolves.
Proof.
  split; [intros h a n H; eauto using same_shape_refl|].
  intros h1 h2 h3 H12 H23 a n1 H1. destruct (H12 a n1 H1) as (n2 & H2 & S2).
  destruct (H23 a n2 H2) as (n3 & H3 & S3). exists n3. split; [done|].
  destruct (body n1); simpl in *; try (rewrite S2 in S3; exact S3).
  destruct S2 as [v2 E2]. rewrite E2 in S3. exact S3.
Qed.

Lemma evolves_body h h' e n b :
  evolves h h' → h !! e = Some n → body n = b →
  ∃ n', h' !! e = Some n' ∧ same_shape b (body n').
Proof. intros Hev He <-. by apply Hev. Qed.

Lemma code_at_evolves h h' e a : evolves h h' → code_at h e a → code_at h' e a.
Proof.
  intros Hev H. induction H;
    repeat match goal with H : h !! _ = Some ?n, E : body ?n = _ |- _ =>
      let S := fresh "S" in
      destruct (evolves_body _ _ _ _ _ Hev H E) as (? & ? & S); clear H E; simpl in S end;
    repeat match goal with S : ∃ _, _ |- _ => destruct S end; econstructor; eauto.
Qed.

Lemma give_eq r z h :
  give r z h !! r = Some (if (h !! r) is Some n then bump n else Node 1 false (PInt z)).
Proof. apply lookup_insert_eq. Qed.
Lemma give_ne r z h a : a ≠ r → give r z h !! a = h !! a.
Proof. intros. by apply lookup_insert_ne. Qed.

Lemma give_keep r z h a n :
  h !! a = Some n →
  ∃ n', give r z h !! a = Some n' ∧ body n' = body n ∧ exmark n' = exmark n ∧
    (refcnt n ≤ refcnt n' ≤ refcnt n + 1)%Z.
Proof.
  intros Ha. destruct (decide (a = r)) as [->|].
  - rewrite give_eq, Ha. eexists. split_and!; [done|done|done|simpl; lia..].
  - rewrite give_ne by done. exists n. split_and!; done || lia.
Qed.

Lemma give_evolves r z h : evolves h (give r z h).
Proof.
  intros a n Ha. destruct (give_keep r z h a n Ha) as (n' & ? & Eb & _).
  exists n'. rewrite Eb. eauto using same_shape_refl.
Qed.

Lemma give_swap r1 z1 r2 z2 h :
  r1 ≠ r2 → give r1 z1 (give r2 z2 h) = give r2 z2 (give r1 z1 h).
Proof.
  intros Hne. unfold give at 1 3. rewrite !give_ne by done. unfold give. by rewrite insert_insert_ne.
Qed.

Lemma yields_grown m z r m' : yields m z r m' → grown m m'.
Proof.
  intros [Hh _ _ _ _ Hn Hr]. split; [|done..]. intros a n Ha. rewrite Hh.
  destruct (give_keep r z (heap m) a n Ha) as (n' & ? & ? & ? & ?). exists n'. split_and!; done || lia.
Qed.

Lemma yields_roomy m z r m' k : yields m z r m' → roomy m (S k) → roomy m' k.
Proof.
  intros [Hh Ho Hnew Hlt Hnn Hn Hr] (H0 & Hk & H). split_and!; [lia..|]. intros a n. rewrite Hh.
  unfold give. intros [[<- <-]|[_ Ha]]%lookup_insert_Some.
  - destruct (heap m !! r) as [nr|] eqn:E; simpl; [|lia]. destruct (H r nr E) as (? & ? & ?). lia.
  - destruct (H a n Ha) as (? & ? & ?). lia.
Qed.

Lemma same_rest_refl m : same_rest m m.
Proof. by destruct m. Qed.
Lemma same_rest_trans m1 m2 m3 : same_rest m1 m2 → same_rest m2 m3 → same_rest m1 m3.
Proof. unfold same_rest. intros E2 E3. rewrite E3, E2. done. Qed.
Lemma same_rest_set_heap m h m' : same_rest m m' → same_rest m (set_heap h m').
Proof. unfold same_rest. destruct m'; simpl. by intros [= -> -> -> -> -> ->]. Qed.

(** ** The steps that touch references *)

(** An owned reference given up: the store is the one before it was given. *)
Lemma dec_give m r z h :
  heap m = give r z h → r ≠ null →
  (∀ n, h !! r = Some n → body n = PInt z ∧ (1 ≤ refcnt n)%Z) →
  dec r m = Ok ((), set_heap h m).
Proof.
  intros Hh Hnn Hold. unfold dec, dec_then. rewrite (bind_run _ _ _ m m) by done.
  pose proof (give_eq r z h) as Hr. rewrite <-Hh in Hr.
  rewrite (bind_run _ _ _ _ _ (load_run m r _ Hnn Hr)).
  destruct (h !! r) as [n|] eqn:E.
  - destruct (Hold n eq_refl) as [Eb Hpos]. simpl. rewrite Z.add_simpl_r.
    rewrite (proj2 (Z.eqb_neq (refcnt n) 0)) by lia. unfold store, modify.
    replace (Node (refcnt n) (exmark n) (body n)) with n by (by destruct n).
    do 3 f_equal. rewrite Hh. unfold give. by rewrite insert_insert_eq, insert_id.
  - simpl. rewrite (bind_run _ _ _ _ _ (load_run m r _ Hnn Hr)). simpl.
    unfold free, modify. do 3 f_equal. rewrite Hh. unfold give. by rewrite delete_insert_id.
Qed.

Lemma inc_yields m e n z :
  e ≠ null → heap m !! e = Some n → body n = PInt z → roomy m 0 →
  ∃ m', inc e m = Ok ((), m') ∧ yields m z e m'.
Proof.
  intros Hne He Eb (H0 & _ & H). destruct (H e n He) as (? & ? & ?). unfold inc.
  rewrite (bind_run _ _ _ _ _ (load_run m e n Hne He)). eexists. split; [done|].
  split; simpl; try done; [|congruence|congruence].
  unfold give. rewrite He. unfold bump, inc_ref. by rewrite (proj2 (Z.ltb_lt _ _)) by lia.
Qed.

Lemma new_int_yields m z :
  roomy m 0 → ∃ m', new_int z m = Ok (next_addr m, m') ∧ yields m z (next_addr m) m'.
Proof.
  intros (H0 & _ & H). assert (heap m !! next_addr m = None) as Hf.
  { destruct (heap m !! next_addr m) as [n|] eqn:E; [|done]. apply H in E. lia. }
  eexists. split; [done|]. split; simpl; try done; [unfold give; by rewrite Hf|congruence|lia..].
Qed.

Lemma yields_node m z r m' :
  yields m z r m' → ∃ n, heap m' !! r = Some n ∧ body n = PInt z.
Proof.
  intros H. rewrite (y_heap _ _ _ _ H), give_eq. eexists. split; [done|].
  destruct (heap m !! r) as [n|] eqn:E; simpl; [|done]. by apply (y_old _ _ _ _ H).
Qed.

Lemma roomy_le m j k : j ≤ k → roomy m k → roomy m j.
Proof. intros Hjk (H0 & Hk & H). split_and!; [lia..|]. intros a n Ha. destruct (H a n Ha) as (?&?&?). lia. Qed.

(** ** Giving references up *)

(** The store is as it was, apart from addresses used in between. *)
Record restored (m m' : mem) : Prop := Restored {
  r_heap : heap m' = heap m;
  r_next : (next_addr m ≤ next_addr m')%N;
  r_rest : same_rest m m'
}.

Lemma drop_yields m z r m' :
  yields m z r m' → roomy m 0 → ∃ m'', dec r m' = Ok ((), m'') ∧ restored m m''.
Proof.
  intros H (_ & _ & Hr). exists (set_heap (heap m) m'). split.
  - apply (dec_give _ _ z); [apply H..|]. intros n Hn. destruct (Hr r n Hn) as (? & ? & ?).
    split; [by apply (y_old _ _ _ _ H)|done].
  - split; [done|apply H|]. apply same_rest_set_heap, H.
Qed.

(** The first of two results is given up. *)
Lemma drop_first m x r1 m1 y r2 m2 :
  yields m x r1 m1 → yields m1 y r2 m2 → roomy m 0 →
  ∃ m3, dec r1 m2 = Ok ((), m3) ∧ yields m y r2 m3.
Proof.
  intros H1 H2 (_ & _ & Hr).
  assert (Hsame : r1 = r2 → x = y).
  { intros <-. destruct (yields_node _ _ _ _ H1) as (n & Hn & Eb).
    pose proof (y_old _ _ _ _ H2 n Hn). congruence. }
  assert (Hold : ∀ n, heap m !! r2 = Some n → body n = PInt y).
  { intros n Hn. destruct (give_keep r1 x _ _ _ Hn) as (n' & Hn' & <- & _).
    apply (y_old _ _ _ _ H2). by rewrite (y_heap _ _ _ _ H1). }
  exists (set_heap (give r2 y (heap m)) m2). split.
  - apply (dec_give _ _ x).
    + rewrite (y_heap _ _ _ _ H2), (y_heap _ _ _ _ H1).
      destruct (decide (r1 = r2)) as [Heq|]; [|by rewrite give_swap].
      rewrite (Hsame Heq), Heq. done.
    + apply H1.
    + intros n. destruct (decide (r1 = r2)) as [Heq|Hne].
      * rewrite Heq, give_eq. intros [= <-]. rewrite (Hsame Heq).
        destruct (heap m !! r2) as [n|] eqn:E; [|done]. destruct (Hr _ _ E) as (?&?&?). simpl.
        split; [auto|lia].
      * rewrite give_ne by done. intros Hn. destruct (Hr _ _ Hn) as (?&?&?).
        split; [by apply (y_old _ _ _ _ H1)|done].
  - destruct H1 as [Hh1 Ho1 Hw1 Hl1 Hn1 Hx1 Hs1], H2 as [Hh2 Ho2 Hw2 Hl2 Hn2 Hx2 Hs2].
    split; simpl; try done; [|lia|exact (same_rest_set_heap _ _ _ (same_rest_trans _ _ _ Hs1 Hs2))].
    intros Hnone. destruct (decide (r2 = r1)) as [->|Hne]; [by apply Hw1|].
    etrans; [exact Hx1|]. apply Hw2. by rewrite Hh1, give_ne.
Qed.

(** After a failure the result of an earlier run is given up. *)
Lemma drop_grown m x r m1 m2 :
  yields m x r m1 → grown m1 m2 → roomy m 0 →
  ∃ m3, dec r m2 = Ok ((), m3) ∧ grown m m3.
Proof.
  intros H1 [Hk Hx Hs] (_ & _ & Hr). destruct (yields_node _ _ _ _ H1) as (n1 & Hn1 & Eb1).
  destruct (Hk r n1 Hn1) as (n2 & Hn2 & Eb2 & _ & Hc2).
  assert (Hnn : r ≠ null) by apply H1. pose proof (y_heap _ _ _ _ H1) as Hh1.
  assert (Hc1 : refcnt n1 = (if heap m !! r is Some n then refcnt n + 1 else 1)%Z).
  { rewrite Hh1, give_eq in Hn1. injection Hn1 as <-. by destruct (heap m !! r). }
  assert (Hg : ∀ h, (∀ a n, a ≠ r → heap m2 !! a = Some n → h !! a = Some n) →
    (∀ n, heap m !! r = Some n → ∃ n', h !! r = Some n' ∧ body n' = body n ∧
       exmark n' = exmark n ∧ (refcnt n ≤ refcnt n')%Z) → grown m (set_heap h m2)).
  { intros h Ho Hrr. split; simpl; [|pose proof (y_next _ _ _ _ H1); lia|
      exact (same_rest_set_heap _ _ _ (same_rest_trans _ _ _ (y_rest _ _ _ _ H1) Hs))].
    intros a n Ha. destruct (decide (a = r)) as [->|Hne]; [by apply Hrr|].
    destruct (Hk a n) as (n' & Hn' & Hrest); [by rewrite Hh1, give_ne|]. exists n'. eauto. }
  unfold dec, dec_then. rewrite (bind_run _ _ _ m2 m2) by done.
  rewrite (bind_run _ _ _ _ _ (load_run m2 r n2 Hnn Hn2)).
  destruct (Z.eqb_spec (refcnt n2 - 1) 0) as [Hz|Hz].
  - simpl. rewrite (bind_run _ _ _ _ _ (load_run m2 r n2 Hnn Hn2)), Eb2, Eb1.
    eexists. split; [done|]. apply Hg; [intros; by rewrite lookup_delete_ne|].
    intros n Hn. rewrite Hn in Hc1. destruct (Hr r n Hn) as (?&?&?). lia.
  - eexists. split; [done|]. apply Hg; [intros; by rewrite lookup_insert_ne|].
    intros n Hn. destruct (Hk r n1 Hn1) as (n2' & Hn2' & ? & He & _). rewrite Hn in Hc1.
    eexists. rewrite lookup_insert_eq. split; [done|]. simpl.
    rewrite Hh1, give_eq, Hn in Hn1. injection Hn1 as <-. simpl in *. assert (n2' = n2) as -> by congruence.
    split_and!; [congruence|congruence|lia].
Qed.

(** ** Binding a variable *)

Lemma set_val_undo h x n s v w :
  h !! x = Some n → body n = PSymS s v → set_val (set_val h x w) x v = h.
Proof.
  intros Hx Eb. apply map_eq. intros a. destruct (decide (a = x)) as [->|]; [|by rewrite !set_val_ne].
  rewrite !set_val_eq, Hx. simpl. f_equal. destruct n as [c f b]. simpl in Eb. by subst b.
Qed.

Lemma set_val_give h x r z v :
  x ≠ r → set_val (give r z h) x v = give r z (set_val h x v).
Proof.
  intros Hne. unfold give. rewrite set_val_ne by done. unfold set_val at 1. rewrite lookup_insert_ne by done.
  unfold set_val. destruct (h !! x); [by rewrite insert_insert_ne|done].
Qed.

Lemma set_val_shape h x n s v w :
  h !! x = Some n → body n = PSymS s v → evolves h (set_val h x w).
Proof.
  intros Hx Eb a na Ha. destruct (decide (a = x)) as [->|Hne].
  - rewrite set_val_eq, Ha. assert (na = n) as -> by congruence. eexists. split; [done|].
    unfold with_val. rewrite Eb. simpl. eauto.
  - rewrite set_val_ne by done. eauto using same_shape_refl.
Qed.

Definition bound (m : mem) (x v : ptr) : mem := set_heap (set_val (heap m) x v) m.

Section binding.
Context (m m' : mem) (x v : ptr) (n : node) (s : string) (prev : ptr).
Hypotheses (Hxn : x ≠ null) (Hx : heap m !! x = Some n) (Eb : body n = PSymS s prev).

Lemma bind_val_run : set_sym_val x v m = Ok ((), bound m x v).
Proof. apply (set_sym_val_run _ _ n); [done..|]. by rewrite Eb. Qed.

Lemma bound_node : heap (bound m x v) !! x = Some (with_val v n).
Proof. simpl. by rewrite set_val_eq, Hx. Qed.

Lemma bound_roomy k : roomy m k → roomy (bound m x v) k.
Proof.
  intros (H0 & Hk & H). split_and!; [done..|]. intros a na Ha. simpl in Ha.
  destruct (decide (a = x)) as [->|]; [|rewrite set_val_ne in Ha by done; by apply H].
  rewrite set_val_eq, Hx in Ha. injection Ha as <-. by apply (H x n).
Qed.

Lemma yields_unbind z r :
  yields (bound m x v) z r m' →
  ∃ m'', set_sym_val x prev m' = Ok ((), m'') ∧ yields m z r m''.
Proof.
  intros [Hh Ho Hw Hl Hn Hnx Hs]. simpl in *.
  assert (x ≠ r) as Hne.
  { intros Heq. pose proof bound_node as Hb. rewrite <-Heq in Ho. specialize (Ho _ Hb).
    unfold with_val in Ho. by rewrite Eb in Ho. }
  assert (heap m' !! x = Some (with_val v n)) as Hx'.
  { rewrite Hh, give_ne by done. apply bound_node. }
  exists (set_heap (set_val (heap m') x prev) m'). split.
  { apply (set_sym_val_run _ _ (with_val v n)); [done..|]. unfold with_val. by rewrite Eb. }
  split; simpl; try done.
  - rewrite Hh, set_val_give by done. by rewrite (set_val_undo _ _ n s).
  - intros nr Hr. apply Ho. by rewrite set_val_ne.
  - intros Hr. apply Hw. by rewrite set_val_ne.
  - by apply same_rest_set_heap.
Qed.

Lemma grown_unbind :
  grown (bound m x v) m' → ∃ m'', set_sym_val x prev m' = Ok ((), m'') ∧ grown m m''.
Proof.
  intros [Hk Hnx Hs]. destruct (Hk _ _ bound_node) as (nx & Hx' & Ebx & Emx & Hcx).
  exists (set_heap (set_val (heap m') x prev) m'). split.
  { apply (set_sym_val_run _ _ nx); [done..|]. rewrite Ebx. unfold with_val. by rewrite Eb. }
  split; simpl; [|done|by apply same_rest_set_heap]. intros a na Ha.
  destruct (decide (a = x)) as [->|].
  - assert (na = n) as -> by congruence. rewrite set_val_eq, Hx'. eexists. split; [done|].
    unfold with_val in *. simpl in *. rewrite Ebx, Eb. done.
  - destruct (Hk a na) as (n' & ? & ?); [simpl; by rewrite set_val_ne|].
    exists n'. by rewrite set_val_ne.
Qed.
End binding.

(** ** The refinement *)

(** Every variable of [ρ] has its value in the store. *)
Definition env_at (h : gmap N node) (ρ : gmap N Z) : Prop :=
  ∀ x z, ρ !! x = Some z → var_at h x z.

(** The result of a run from [m], against the outcome of the expression. *)
Definition refines (o : outc) (m : mem) (res : result (ptr * mem)) : Prop :=
  match o with
  | Val z => ∃ r m', res = Ok (r, m') ∧ yields m z r m'
  | Failed => ∃ m', res = Ok (null, m') ∧ grown m m'
  | DivZero => res = Err DivisionByZero
  end.

Lemma grown_trans m1 m2 m3 : grown m1 m2 → grown m2 m3 → grown m1 m3.
Proof.
  intros [H12 Hx12 Hs12] [H23 Hx23 Hs23]. split; [|lia|by eapply same_rest_trans].
  intros a n Ha. destruct (H12 a n Ha) as (n2 & Ha2 & ? & ? & ?).
  destruct (H23 a n2 Ha2) as (n3 & Ha3 & ? & ? & ?). exists n3. split_and!; congruence || lia.
Qed.

Lemma grown_refl m : grown m m.
Proof. split; [|done|apply same_rest_refl]. intros a n Ha. exists n. split_and!; done. Qed.

Lemma restored_roomy m m' k : restored m m' → roomy m k → roomy m' k.
Proof.
  intros [Hh Hx _] (H0 & Hk & H). split_and!; [lia..|]. rewrite Hh. intros a n Ha.
  destruct (H a n Ha) as (? & ? & ?). lia.
Qed.

Lemma refines_restored o m m' res : restored m m' → refines o m' res → refines o m res.
Proof.
  intros [Hh Hx Hs]. destruct o; simpl; [| |done].
  - intros (r & m2 & -> & [Hh2 Ho2 Hw2 Hl2 Hn2 Hx2 Hs2]). rewrite Hh in *. exists r, m2. split; [done|].
    split; try done; [intros ?%Hw2; lia|lia|by eapply same_rest_trans].
  - intros (m2 & -> & Hg). exists m2. split; [done|]. eapply grown_trans; [|done].
    split; [|done..]. rewrite Hh. apply (g_keep _ _ (grown_refl m)).
Qed.

Lemma yields_code m z r m' e a : yields m z r m' → code_at (heap m) e a → code_at (heap m') e a.
Proof. intros H. rewrite (y_heap _ _ _ _ H). apply code_at_evolves, give_evolves. Qed.

Lemma yields_env m z r m' ρ : yields m z r m' → env_at (heap m) ρ → env_at (heap m') ρ.
Proof.
  intros H He x y Hx. destruct (He x y Hx) as (n & s & v & nv & ? & Hn & Eb & ? & Hv & Ev).
  rewrite (y_heap _ _ _ _ H).
  destruct (give_keep r z _ _ _ Hn) as (n' & ? & Eb' & _), (give_keep r z _ _ _ Hv) as (nv' & ? & Ev' & _).
  exists n', s, v, nv'. split_and!; congruence.
Qed.

Lemma bound_env m x v nx s prev n z ρ :
  x ≠ null → heap m !! x = Some nx → body nx = PSymS s prev → v ≠ null → heap m !! v = Some n →
  body n = PInt z → env_at (heap m) ρ → env_at (heap (bound m x v)) (<[x := z]> ρ).
Proof.
  intros Hxn Hx Ex Hvn Hv Ev He y w.
  assert (Hkeep : ∀ a na k, heap m !! a = Some na → body na = PInt k → set_val (heap m) x v !! a = Some na).
  { intros a na k Ha Ea. rewrite set_val_ne; [done|]. intros ->. congruence. }
  intros [[<- <-]|[Hne Hy]]%lookup_insert_Some.
  - exists (with_val v nx), s, v, n. simpl. rewrite set_val_eq, Hx. split_and!; try done; [|eauto].
    unfold with_val. by rewrite Ex.
  - destruct (He y w Hy) as (ny & s' & u & nu & ? & Hny & Ey & ? & Hu & Eu).
    exists ny, s', u, nu. simpl. rewrite set_val_ne by done. split_and!; eauto.
Qed.

(** A run and what is done with its result; a failure is passed on. *)
Lemma refines_seq o m (c : M mem ptr) (k : ptr → M mem ptr) (f : Z → outc) :
  refines o m (c m) →
  (∀ z r m1, o = Val z → yields m z r m1 → refines (f z) m (k r m1)) →
  refines (on_val o f) m
    ((r ← c; if decide (r = null) then mret null else k r) m).
Proof.
  intros Hc Hk. destruct o as [z| |]; simpl in Hc.
  - destruct Hc as (r & m1 & Hc & Hy). rewrite (bind_run _ _ _ _ _ Hc), decide_False by apply Hy. eauto.
  - destruct Hc as (m1 & Hc & Hg). rewrite (bind_run _ _ _ _ _ Hc), decide_True by done. exists m1. eauto.
  - by rewrite (bind_err _ _ _ _ Hc).
Qed.

(** A second run from the store the first one left. *)
Lemma refines_seq_second o m z r m1 (c : M mem ptr) (k : ptr → M mem ptr) (f : Z → outc) :
  yields m z r m1 →
  refines o m1 (c m1) →
  (∀ y r' m2, o = Val y → yields m1 y r' m2 → refines (f y) m (k r' m2)) →
  refines (on_val o f) m
    ((r' ← c; if decide (r' = null) then mret null else k r') m1).
Proof.
  intros H1 Hc Hk. destruct o as [y| |]; simpl in Hc.
  - destruct Hc as (r' & m2 & Hc & Hy). rewrite (bind_run _ _ _ _ _ Hc), decide_False by apply Hy. eauto.
  - destruct Hc as (m2 & Hc & Hg). rewrite (bind_run _ _ _ _ _ Hc), decide_True by done.
    exists m2. split; [done|]. eapply grown_trans; [by eapply yields_grown|done].
  - by rewrite (bind_err _ _ _ _ Hc).
Qed.

(** A reference is given up and the run goes on. *)
Lemma refines_drop o m z r m1 (c : M mem ptr) :
  yields m z r m1 → roomy m 0 → (∀ m2, restored m m2 → refines o m2 (c m2)) →
  refines o m ((dec r;; c) m1).
Proof.
  intros Hy Hr Hc. destruct (drop_yields _ _ _ _ Hy Hr) as (m2 & Hd & Hres).
  rewrite (bind_run _ _ _ _ _ Hd). eapply refines_restored; eauto.
Qed.

Lemma refines_new_int m z : roomy m 0 → refines (Val z) m (new_int z m).
Proof. intros Hr. destruct (new_int_yields m z Hr) as (m' & -> & ?). simpl. eauto. Qed.

Section constructs.
Context (rec : ptr → M mem ptr).

Lemma run_do_refines m e n k0 k1 o1 o2 :
  e ≠ null → heap m !! e = Some n → body n = PC DO [k0; k1; null] → roomy m 0 →
  refines o1 m (rec k0 m) → (∀ m2, restored m m2 → refines o2 m2 (rec k1 m2)) →
  refines (on_val o1 (λ _, o2)) m (run_do rec e m).
Proof.
  intros Hne He Eb Hr H1 H2. unfold run_do.
  rewrite (bind_run _ _ _ _ _ (kid_run m e n _ _ 0 k0 Hne He Eb eq_refl)).
  apply (refines_seq o1 m _ _ (λ _, o2)); [done|]. intros z r m1 _ Hy.
  apply (refines_drop _ _ z _ _ _ Hy Hr). intros m2 Hres. rewrite <-(r_heap _ _ Hres) in He.
  rewrite (bind_run _ _ _ _ _ (kid_run m2 e n _ _ 1 k1 Hne He Eb eq_refl)). by apply H2.
Qed.

Lemma run_neg_refines m e n k0 o1 :
  e ≠ null → heap m !! e = Some n → body n = PC NEG [k0; null] → roomy m 0 →
  refines o1 m (rec k0 m) →
  refines (on_val o1 (λ x, Val (- x))) m (run_neg rec e m).
Proof.
  intros Hne He Eb Hr H1. unfold run_neg.
  rewrite (bind_run _ _ _ _ _ (kid_run m e n _ _ 0 k0 Hne He Eb eq_refl)).
  apply (refines_seq o1 m _ _ (λ x, Val (- x))); [done|]. intros z r m1 _ Hy.
  destruct (yields_node _ _ _ _ Hy) as (n1 & Hn1 & E1).
  rewrite (bind_run _ _ _ _ _ (load_run m1 r n1 (y_nn _ _ _ _ Hy) Hn1)), E1.
  apply (refines_drop _ _ z _ _ _ Hy Hr). intros m2 Hres. by eapply refines_new_int, restored_roomy.
Qed.

Lemma run_if_refines m e n o k0 k1 k2 o1 oa ob :
  e ≠ null → heap m !! e = Some n → body n = PC o [k0; k1; k2; null] → roomy m 0 →
  refines o1 m (rec k0 m) →
  (∀ m2, restored m m2 → refines oa m2 (rec k1 m2) ∧ refines ob m2 (rec k2 m2)) →
  refines (on_val o1 (λ x, if sign_test o x then oa else ob)) m (run_if rec o e m).
Proof.
  intros Hne He Eb Hr H1 H2. unfold run_if.
  rewrite (bind_run _ _ _ _ _ (kid_run m e n _ _ 0 k0 Hne He Eb eq_refl)).
  apply (refines_seq o1 m _ _ (λ x, if sign_test o x then oa else ob)); [done|]. intros z r m1 _ Hy.
  destruct (yields_node _ _ _ _ Hy) as (n1 & Hn1 & E1).
  rewrite (bind_run _ _ _ _ _ (load_run m1 r n1 (y_nn _ _ _ _ Hy) Hn1)), E1.
  apply (refines_drop _ _ z _ _ _ Hy Hr). intros m2 Hres. rewrite <-(r_heap _ _ Hres) in He.
  destruct (H2 m2 Hres) as [Ha Hb]. destruct (sign_test o z).
  - by rewrite (bind_run _ _ _ _ _ (kid_run m2 e n _ _ 1 k1 Hne He Eb eq_refl)).
  - by rewrite (bind_run _ _ _ _ _ (kid_run m2 e n _ _ 2 k2 Hne He Eb eq_refl)).
Qed.

Lemma int_arith_run o x y m :
  is_arith o = true →
  int_arith o x y m = match arith o x y with Val z => Ok (z, m) | _ => Err DivisionByZero end.
Proof. destruct o; try done; simpl; intros _; unfold int_arith, arith; by case_decide. Qed.

Lemma arith_not_failed o x y : arith o x y ≠ Failed.
Proof. destruct o; simpl; try done; by case_decide. Qed.

Lemma run_arith_refines m e n o k0 k1 o1 o2 :
  e ≠ null → heap m !! e = Some n → body n = PC o [k0; k1; null] → is_arith o = true → roomy m 0 →
  refines o1 m (rec k0 m) →
  (∀ z r m1, yields m z r m1 → refines o2 m1 (rec k1 m1)) →
  refines (on_val o1 (λ x, on_val o2 (arith o x))) m
    (run_arith rec o e m).
Proof.
  intros Hne He Eb Ho Hr H1 H2. unfold run_arith.
  rewrite (bind_run _ _ _ _ _ (kid_run m e n _ _ 0 k0 Hne He Eb eq_refl)).
  apply (refines_seq o1 m _ _ (λ x, on_val o2 (arith o x))); [done|].
  intros x r1 m1 _ Hy1. destruct (g_keep _ _ (yields_grown _ _ _ _ Hy1) e n He) as (n' & He' & Eb' & _).
  rewrite Eb in Eb'. rewrite (bind_run _ _ _ _ _ (kid_run m1 e n' _ _ 1 k1 Hne He' Eb' eq_refl)).
  apply (refines_seq_second o2 m x r1 m1 _ _ (arith o x)); [done|by eapply H2|].
  intros y r2 m2 _ Hy2. destruct (yields_node _ _ _ _ Hy1) as (n1 & Hn1 & E1).
  destruct (g_keep _ _ (yields_grown _ _ _ _ Hy2) r1 n1 Hn1) as (n1' & Hn1' & E1' & _).
  destruct (yields_node _ _ _ _ Hy2) as (n2 & Hn2 & E2). rewrite E1 in E1'.
  rewrite (bind_run _ _ _ _ _ (load_run m2 r1 n1' (y_nn _ _ _ _ Hy1) Hn1')).
  rewrite (bind_run _ _ _ _ _ (load_run m2 r2 n2 (y_nn _ _ _ _ Hy2) Hn2)), E1', E2.
  pose proof (int_arith_run o x y m2 Ho) as Hi. pose proof (arith_not_failed o x y) as Hnf.
  destruct (arith o x y) as [z| |] eqn:Ez; [|done|by rewrite (bind_err _ _ _ _ Hi)].
  rewrite (bind_run _ _ _ _ _ Hi).
  destruct (drop_first _ _ _ _ _ _ _ Hy1 Hy2 Hr) as (m3 & Hd & Hy3). rewrite (bind_run _ _ _ _ _ Hd).
  apply (refines_drop _ _ y _ _ _ Hy3 Hr). intros m4 Hres. by eapply refines_new_int, restored_roomy.
Qed.

Lemma run_let_refines m e n x nx s v k1 k2 o1 (f : Z → outc) :
  e ≠ null → heap m !! e = Some n → body n = PC LET [x; k1; k2; null] →
  x ≠ null → heap m !! x = Some nx → body nx = PSymS s v → roomy m 0 →
  refines o1 m (rec k1 m) →
  (∀ z r m1, yields m z r m1 → refines (f z) (bound m1 x r) (rec k2 (bound m1 x r))) →
  refines (on_val o1 f) m (run_let rec e m).
Proof.
  intros Hne He Eb Hxn Hx Ex Hr H1 H2. unfold run_let.
  rewrite (bind_run _ _ _ _ _ (kid_run m e n _ _ 1 k1 Hne He Eb eq_refl)).
  apply refines_seq; [done|]. intros z r0 m1 _ Hy1. specialize (H2 z r0 m1 Hy1).
  pose proof (yields_grown _ _ _ _ Hy1) as Hg1.
  destruct (g_keep _ _ Hg1 e n He) as (n1 & He1 & Eb1 & _), (g_keep _ _ Hg1 x nx Hx) as (nx1 & Hx1 & Ex1 & _).
  rewrite Eb in Eb1. rewrite Ex in Ex1.
  rewrite (bind_run _ _ _ _ _ (kid_run m1 e n1 _ _ 0 x Hne He1 Eb1 eq_refl)).
  assert (sym_val x m1 = Ok (v, m1)) as Hv.
  { unfold sym_val. by rewrite (bind_run _ _ _ _ _ (load_run m1 x nx1 Hxn Hx1)), Ex1. }
  rewrite (bind_run _ _ _ _ _ Hv), (bind_run _ _ _ _ _ (bind_val_run m1 x r0 nx1 s v Hxn Hx1 Ex1)).
  assert (heap (bound m1 x r0) !! e = Some n1) as He1'.
  { simpl. rewrite set_val_ne; [done|]. intros ->. congruence. }
  rewrite (bind_run _ _ _ _ _ (kid_run _ e n1 _ _ 2 k2 Hne He1' Eb1 eq_refl)).
  destruct (f z) as [y| |]; simpl in H2; [| |by rewrite (bind_err _ _ _ _ H2)].
  - destruct H2 as (r1 & m2 & H2 & Hy2). rewrite (bind_run _ _ _ _ _ H2).
    destruct (yields_unbind m1 m2 x r0 nx1 s v Hxn Hx1 Ex1 y r1 Hy2) as (m3 & Hu & Hy3).
    rewrite (bind_run _ _ _ _ _ Hu).
    destruct (drop_first _ _ _ _ _ _ _ Hy1 Hy3 Hr) as (m4 & Hd & Hy4).
    rewrite (bind_run _ _ _ _ _ Hd). simpl. eauto.
  - destruct H2 as (m2 & H2 & Hg2). rewrite (bind_run _ _ _ _ _ H2).
    destruct (grown_unbind m1 m2 x r0 nx1 s v Hxn Hx1 Ex1 Hg2) as (m3 & Hu & Hg3).
    rewrite (bind_run _ _ _ _ _ Hu).
    destruct (drop_grown _ _ _ _ _ Hy1 Hg3 Hr) as (m4 & Hd & Hg4).
    rewrite (bind_run _ _ _ _ _ Hd). simpl. eauto.
Qed.
End constructs.

Lemma run_var_refines m x z n s v :
  var_at (heap m) x z → heap m !! x = Some n → body n = PSymS s v → roomy m 0 →
  refines (Val z) m (run_leaf x (body n) m).
Proof.
  intros (n' & s' & v' & nv & Hxn & Hx & Ex & Hvn & Hv & Ev) Hx' Ex' Hr.
  assert (n' = n) as -> by congruence. assert (v' = v) as -> by congruence. rewrite Ex'. unfold run_leaf.
  assert (leads (heap m) x 1 v) as Hl.
  { eapply leads_step; [done| |].
    - unfold next. rewrite Hx. simpl. by rewrite Ex', decide_False.
    - apply leads_stop; [done|eauto|]. unfold next. rewrite Hv. simpl. by rewrite Ev. }
  rewrite (bind_run _ _ _ _ _ (followDefs_leads _ _ _ _ Hl)).
  destruct (inc_yields m v nv z Hvn Hv Ev Hr) as (m' & Hi & Hy).
  rewrite (bind_run _ _ _ _ _ Hi). simpl. eauto.
Qed.

Section run_code_eval.
Context (scc : ptr → list ptr → M mem ptr).

(** What is shown of an expression, by induction. *)
Definition runs (a : aexp) : Prop := ∀ fuel ρ m e,
  code_at (heap m) e a → closed_in (dom ρ) a = true → env_at (heap m) ρ →
  roomy m (asize a) → asize a ≤ fuel → refines (eval ρ a) m (run_code scc fuel e m).

Lemma runs_restored a fuel ρ m m2 e k :
  runs a → restored m m2 → code_at (heap m) e a → closed_in (dom ρ) a = true → env_at (heap m) ρ →
  roomy m k → asize a ≤ k → asize a ≤ fuel → refines (eval ρ a) m2 (run_code scc fuel e m2).
Proof.
  intros IH HR Hc Hcl He Hr Hk Hf. apply IH; rewrite ?(r_heap _ _ HR); try done.
  eapply restored_roomy; [done|]. exact (roomy_le _ _ _ Hk Hr).
Qed.

Lemma run_code_step fuel e m n :
  e ≠ null → heap m !! e = Some n →
  run_code scc (S fuel) e m =
    match body n with
    | PC FAIL _ => mret null
    | PC DO _ => run_do (run_code scc fuel) e
    | PC LET _ => run_let (run_code scc fuel) e
    | PC NEG _ => run_neg (run_code scc fuel) e
    | PC o _ => if is_arith o then run_arith (run_code scc fuel) o e
                else if is_if o then run_if (run_code scc fuel) o e
                else λ m, run_code scc (S fuel) e m
    | b => run_leaf e b
    end m.
Proof.
  intros Hne He. cbn [run_code].
  destruct (body n) as [[] ?| | | | |] eqn:Eb; cbn [is_arith is_if]; try done;
    by rewrite (bind_run _ _ _ _ _ (load_run _ _ _ Hne He)), Eb.
Qed.

Local Ltac less_room := eapply (roomy_le _ _ (S _)); [|eassumption]; lia.

Lemma runs_all a : runs a.
Proof.
  induction a as [z|x|o a IHa b IHb|a IHa|o c IHc a IHa b IHb| |a IHa b IHb|x a IHa b IHb];
    intros fuel ρ m e Hc Hcl He Hr Hf; (destruct fuel as [|fuel]; [simpl in Hf; lia|]);
    simpl in Hcl, Hr, Hf; rewrite ?andb_true_iff in Hcl;
    pose proof (roomy_le _ 0 _ (Nat.le_0_l _) Hr) as Hr0;
    inversion Hc as [e0 n z0 Hne Hn Eb|e0 n s v Hne Hn Eb|e0 n o0 k0 k1 a0 b0 Hne Hn Eb Ho Ha Hb
      |e0 n k0 a0 Hne Hn Eb Ha|e0 n o0 k0 k1 k2 c0 a0 b0 Hne Hn Eb Ho Hc0 Ha Hb|e0 n ks Hne Hn Eb
      |e0 n k0 k1 a0 b0 Hne Hn Eb Ha Hb|e0 n x0 nx s v k1 k2 a0 b0 Hne Hn Eb Hxn Hx Ex Ha Hb];
    subst; rewrite (run_code_step _ _ _ n Hne Hn), Eb; cbn [eval].
  - destruct (inc_yields m e n z) as (m' & Hi & Hy); [done..|].
    unfold run_leaf. rewrite (bind_run _ _ _ _ _ Hi). simpl. eauto.
  - apply bool_decide_eq_true, elem_of_dom in Hcl as [z Hz]. rewrite Hz.
    rewrite <-Eb. by eapply run_var_refines; eauto.
  - destruct Hcl as [Hca Hcb].
    replace (match o with FAIL => _ | _ => _ end m) with (run_arith (run_code scc fuel) o e m)
      by (by destruct o).
    apply (run_arith_refines _ m e n o k0 k1 (eval ρ a) (eval ρ b)); try done.
    + apply IHa; try done; [less_room|lia].
    + intros z r m1 Hy. apply IHb; [by eapply yields_code|done|by eapply yields_env| |lia].
      eapply yields_roomy; [done|]. less_room.
  - apply (run_neg_refines _ m e n k0 (eval ρ a)); try done. apply IHa; try done; [less_room|lia].
  - destruct Hcl as [[Hcc Hca] Hcb].
    replace (match o with FAIL => _ | _ => _ end m) with (run_if (run_code scc fuel) o e m)
      by (by destruct o).
    apply (run_if_refines _ m e n o k0 k1 k2 (eval ρ c) (eval ρ a) (eval ρ b)); try done.
    + apply IHc; try done; [less_room|lia].
    + intros m2 HR. split; eapply (runs_restored _ _ _ m _ _ (S _)); eauto; lia.
  - simpl. eauto using grown_refl.
  - destruct Hcl as [Hca Hcb]. apply (run_do_refines _ m e n k0 k1 (eval ρ a) (eval ρ b)); try done.
    + apply IHa; try done; [less_room|lia].
    + intros m2 HR. eapply (runs_restored _ _ _ m _ _ (S _)); eauto; lia.
  - destruct Hcl as [Hca Hcb].
    apply (run_let_refines _ m e n x nx s v k1 k2 (eval ρ a) (λ z, eval (<[x:=z]> ρ) b)); try done.
    + apply IHa; try done; [less_room|lia].
    + intros z r m1 Hy. destruct (g_keep _ _ (yields_grown _ _ _ _ Hy) x nx Hx) as (nx1 & Hx1 & Ex1 & _).
      rewrite Ex in Ex1. destruct (yields_node _ _ _ _ Hy) as (n1 & Hn1 & E1). apply IHb.
      * eapply code_at_evolves; [by eapply set_val_shape|]. by eapply yields_code.
      * by rewrite dom_insert_L.
      * eapply bound_env; eauto using y_nn, yields_env.
      * eapply bound_roomy; [done|]. eapply yields_roomy; [done|]. less_room.
      * lia.
Qed.
End run_code_eval.

(** C1: Running the arithmetic fragment of side-condition code computes its
    meaning.  With fuel for the size of the code, the run comes to an end with
    the value [eval] gives in a reference of its own, or null where [eval]
    fails, or the division by zero.  After a value everything else is as it was:
    variables bound by [let] have their old values and every intermediate
    reference was given up.  After a failure what was there is still there with
    its fields, and no reference to it was lost. *)
Theorem run_code_refines_eval scc fuel ρ m e a :
  code_at (heap m) e a → closed_in (dom ρ) a = true → env_at (heap m) ρ →
  roomy m (asize a) → asize a ≤ fuel → refines (eval ρ a) m (run_code scc fuel e m).
Proof. apply runs_all. Qed.

(** [(let x (mp_div 7 2) (mp_add x (mp_neg 1)))], with [x] at 1. *)
Definition let_mem : mem :=
  Mem {[1%N := Node 1 false (PSymS "x" 0); 2%N := Node 1 false (PInt 7); 3%N := Node 1 false (PInt 2);
        4%N := Node 1 false (PC DIV [2; 3; 0]%N); 5%N := Node 1 false (PInt 1);
        6%N := Node 1 false (PC NEG [5; 0]%N); 7%N := Node 1 false (PC ADD [1; 6; 0]%N);
        8%N := Node 1 false (PC LET [1; 4; 7; 0]%N)]} 9 ∅ EmptyString false false 0 scc_none.

Definition let_code : aexp :=
  ALet 1 (AArith DIV (ALit 7) (ALit 2)) (AArith ADD (AVar 1) (ANeg (ALit 1))).

Lemma run_code_refines_eval_witness :
  ∃ r m', run_code (λ _ _, mret null) 20 8%N let_mem = Ok (r, m') ∧ yields let_mem 3 r m'.
Proof.
  change (refines (Val 3) let_mem (run_code (λ _ _, mret null) 20 8%N let_mem)).
  replace (Val 3) with (eval ∅ let_code) by (vm_compute; reflexivity).
  apply (run_code_refines_eval (λ _ _, mret null) 20 ∅ let_mem 8%N let_code).
  - repeat (econstructor; try done).
  - vm_compute. reflexivity.
  - intros x z Hx. by rewrite lookup_empty in Hx.
  - split_and!; [done..|]. intros a n Ha. unfold let_mem in Ha. simpl in Ha.
    repeat (apply lookup_insert_Some in Ha as [[<- <-]|[_ Ha]]; [by vm_compute|]).
    by apply lookup_singleton_Some in Ha as [<- <-].
  - vm_compute. lia.
Defined.
