(* ===== verification/Frame.v ===== *)
(** * Frame properties of reading code

    What the reader of characters and [read_code] leave alone.  [read_code] keeps
    every relation on states that the operations on the memory and on the
    reader keep, and that [match] cases and [let] keep as a whole: those enter
    names in the symbol table and take them out again. *)

From Stdlib Require Import Ascii.
From stdpp Require Import base tactics list strings gmap numbers pretty.
From S2P Require Import Prelude SymTab Header Memory Expr Lexer World Code.

(** ** The reader *)

Definition lex_open (l l' : lex) : Prop := open_parens l' = open_parens l.

#[global] Instance lex_open_preorder : PreOrder lex_open.
Proof. split; [done|]. intros l1 l2 l3 H12 H23. unfold lex_open in *. congruence. Qed.

Lemma keeps_modify {S} (R : relation S) f : (∀ w, R w (f w)) → keeps R (modify f).
Proof. intros Hf w a w' H. inv_run. apply Hf. Qed.

Lemma fgetc_open : keeps lex_open fgetc.
Proof. intros l a l' H. unfold fgetc in H. destruct (input l); by simplify_eq. Qed.
Lemma set_pos_open ln cn : keeps lex_open (set_pos ln cn).
Proof. by apply keeps_modify. Qed.
Lemma set_pushback_open c : keeps lex_open (set_pushback c).
Proof. by apply keeps_modify. Qed.
#[export] Hint Resolve fgetc_open set_pos_open set_pushback_open : keeps.

Lemma our_peekc_open : keeps lex_open our_peekc.
Proof. unfold our_peekc. keeps_tac. Qed.
Lemma report_error_keeps {S A} (R : relation S) msg : keeps R (report_error (A:=A) msg).
Proof. apply keeps_throw. Qed.
#[export] Hint Resolve our_peekc_open report_error_keeps : keeps.

Lemma our_ungetc_open c : keeps lex_open (our_ungetc c).
Proof. unfold our_ungetc. keeps_tac. Qed.
Lemma our_getc_open : keeps lex_open our_getc.
Proof. unfold our_getc. keeps_tac. Qed.
#[export] Hint Resolve our_ungetc_open our_getc_open : keeps.

Lemma skip_ws_open fuel : keeps lex_open (skip_ws fuel).
Proof. induction fuel; simpl; keeps_tac. Qed.
Lemma skip_line_open fuel : keeps lex_open (skip_line fuel).
Proof. induction fuel; simpl; keeps_tac. Qed.
#[export] Hint Resolve skip_ws_open skip_line_open : keeps.
Lemma non_ws_fuel_open fuel : keeps lex_open (non_ws_fuel fuel).
Proof. induction fuel; simpl; keeps_tac. Qed.
#[export] Hint Resolve non_ws_fuel_open : keeps.
Lemma non_ws_open : keeps lex_open non_ws.
Proof. unfold non_ws. keeps_tac. Qed.
#[export] Hint Resolve non_ws_open : keeps.
Lemma eat_char_open c : keeps lex_open (eat_char c).
Proof. unfold eat_char. keeps_tac. Qed.
Lemma id_loop_open steps i c : keeps lex_open (id_loop steps i c).
Proof. revert i c. induction steps; intros; simpl; keeps_tac. Qed.
#[export] Hint Resolve eat_char_open id_loop_open : keeps.
Lemma prefix_id_open : keeps lex_open prefix_id.
Proof. unfold prefix_id. keeps_tac. Qed.
Lemma eat_chars_open s : keeps lex_open (eat_chars s).
Proof. induction s; simpl; keeps_tac. Qed.
#[export] Hint Resolve prefix_id_open eat_chars_open : keeps.
Lemma eat_str_open s b : keeps lex_open (eat_str s b).
Proof. unfold eat_str. keeps_tac. Qed.
Lemma read_digits_open fuel : keeps lex_open (read_digits fuel).
Proof. induction fuel; simpl; keeps_tac. Qed.
#[export] Hint Resolve eat_str_open read_digits_open : keeps.
Lemma digits_open : keeps lex_open digits.
Proof. unfold digits. keeps_tac. Qed.
#[export] Hint Resolve digits_open : keeps.
Lemma read_index_open : keeps lex_open read_index.
Proof. unfold read_index. keeps_tac. Qed.
Lemma read_numeral_open : keeps lex_open read_numeral.
Proof. unfold read_numeral. keeps_tac. Qed.
#[export] Hint Resolve read_index_open read_numeral_open : keeps.

(** ** Code *)

Section code.
Context {T : Type} {ST : SymTab T entry}.
Local Abbreviation W := (world T).
Context (R : relation W) `{!PreOrder R}.
Context (Hlm : ∀ A (c : M mem A), keeps R (lm c)).
Context (Hlx : ∀ A (c : M lex A), keeps lex_open c → keeps R (lx c)).
Context (Hprogs : ∀ s, keeps R (progs_get s)).
Context (Hcase : ∀ rec, keeps R rec → keeps R (read_case rec)).
Context (Hlet : ∀ rec, keeps R rec → keeps R (read_let rec)).

Lemma symbols_get_keeps s : keeps R (symbols_get s).
Proof. apply keeps_gets, _. Qed.
Hint Resolve symbols_get_keeps : keeps.

Section rec.
Context (rec : M W ptr) (Hrec : keeps R rec).
Let Hcase' : keeps R (read_case rec) := Hcase rec Hrec.
Let Hlet' : keeps R (read_let rec) := Hlet rec Hrec.

Lemma keyword_keeps c s b bef k : keeps R k → keeps R (keyword c s b bef k).
Proof. intros. unfold keyword. keeps_tac. Qed.
Hint Resolve keyword_keeps : keeps.
Lemma do_loop_keeps steps ret : keeps R (do_loop rec steps ret).
Proof. revert ret. induction steps; intros; simpl; keeps_tac. Qed.
Lemma match_loop_keeps steps : keeps R (match_loop rec steps).
Proof. induction steps; simpl; keeps_tac. Qed.
Lemma app_loop_keeps steps ret : keeps R (app_loop rec steps ret).
Proof. revert ret. induction steps; intros; simpl; keeps_tac. Qed.
Hint Resolve do_loop_keeps match_loop_keeps app_loop_keeps : keeps.

Lemma read_args1_keeps o : keeps R (read_args1 o rec).
Proof. unfold read_args1. keeps_tac. Qed.
Lemma read_args2_keeps o : keeps R (read_args2 o rec).
Proof. unfold read_args2. keeps_tac. Qed.
Lemma read_args3_keeps o : keeps R (read_args3 o rec).
Proof. unfold read_args3. keeps_tac. Qed.
Lemma read_match_keeps : keeps R (read_match rec).
Proof. unfold read_match. keeps_tac. Qed.
Lemma read_markvar_keeps : keeps R (read_markvar rec).
Proof. unfold read_markvar. keeps_tac. Qed.
Lemma read_ifmarked_keeps : keeps R (read_ifmarked rec).
Proof. unfold read_ifmarked. keeps_tac. Qed.
Lemma read_do_keeps : keeps R (read_do rec).
Proof. unfold read_do. keeps_tac. Qed.
Lemma read_fail_keeps : keeps R (read_fail rec).
Proof. unfold read_fail. keeps_tac. Qed.
Lemma read_neg_keeps : keeps R (read_neg rec).
Proof. unfold read_neg. keeps_tac. Qed.
Lemma read_compare_keeps : keeps R (read_compare rec).
Proof. unfold read_compare. keeps_tac. Qed.
Hint Resolve read_args1_keeps read_args2_keeps read_args3_keeps read_match_keeps read_markvar_keeps
  read_ifmarked_keeps read_do_keeps read_fail_keeps read_neg_keeps read_compare_keeps : keeps.

Lemma read_m_keeps : keeps R (read_m rec).
Proof.
  unfold read_m, read_m_a, read_m_p, read_mp_op, read_mp_if, read_mp_mul, read_m_default. keeps_tac.
Qed.
Hint Resolve read_m_keeps : keeps.

Lemma read_paren_keeps : keeps R (read_paren rec).
Proof. unfold read_paren. keeps_tac. Qed.
Lemma read_app_keeps pref : keeps R (read_app rec pref).
Proof. unfold read_app. keeps_tac. Qed.
End rec.

Lemma read_ident_keeps : keeps R read_ident.
Proof. unfold read_ident. keeps_tac. Qed.
Hint Resolve read_paren_keeps read_app_keeps read_ident_keeps : keeps.

Lemma read_code_keeps fuel : keeps R (read_code fuel).
Proof. induction fuel; simpl; keeps_tac. Qed.
End code.
