(* ===== verification/Parens.v ===== *)
(** * Counting parentheses

    [check] may leave parentheses open when it ends with a tail call;
    [open_parens] counts them and [eat_excess] closes them later.  The count is
    exact: no part of a command but [check] changes it, [check] never lowers it,
    and every command leaves it as it was. *)

From Stdlib Require Import Ascii.
From stdpp Require Import base tactics list strings gmap numbers pretty.
From S2P Require Import Prelude SymTab Header Memory Expr Lexer World Code Run SccCode Check CheckFile Frame Sample.

(** ** Code *)

Section code.
Context {T : Type} {ST : SymTab T entry}.
Local Abbreviation W := (world T).

Definition opn (w : W) : Z := open_parens (w_lex w).
Definition same_open (w w' : W) : Prop := opn w' = opn w.

#[global] Instance same_open_preorder : PreOrder same_open.
Proof. split; [done|]. intros w1 w2 w3 H12 H23. unfold same_open in *. congruence. Qed.

Lemma lm_open {A} (c : M mem A) : keeps same_open (lm c).
Proof. by apply keeps_zoom. Qed.
Lemma lx_open {A} (c : M lex A) : keeps lex_open c → keeps same_open (lx c).
Proof. intros Hc. apply keeps_zoom. intros w a s H. by apply (Hc _ _ _ H). Qed.
Lemma symbols_get_open s : keeps same_open (symbols_get s).
Proof. apply keeps_gets, _. Qed.
Lemma symbols_insert_open s x : keeps same_open (symbols_insert s x).
Proof. intros w a w' H. unfold symbols_insert in H. destruct (st_insert _ _ _) as [[??]|]; by simplify_eq. Qed.
Lemma progs_get_open s : keeps same_open (progs_get (T:=T) s).
Proof. intros w a w' H. unfold progs_get in H. destruct (progs w !! s); by simplify_eq. Qed.
Lemma get_stat_open f : keeps same_open (get_stat (T:=T) f).
Proof. apply keeps_gets, _. Qed.
Hint Resolve lm_open lx_open symbols_get_open symbols_insert_open progs_get_open get_stat_open : keeps.

Lemma restore_entries_open prevs : keeps same_open (restore_entries prevs).
Proof. unfold restore_entries. keeps_tac. Qed.
Hint Resolve restore_entries_open : keeps.

Lemma read_case_open (rec : M W ptr) : keeps same_open rec → keeps same_open (read_case rec).
Proof.
  intros Hrec. assert (keeps same_open read_ctor) by (unfold read_ctor; keeps_tac).
  assert (∀ steps pat, keeps same_open (read_pattern_vars steps pat)).
  { induction steps; intros; simpl; keeps_tac. }
  unfold read_case. keeps_tac.
Qed.

Lemma read_let_open (rec : M W ptr) : keeps same_open rec → keeps same_open (read_let rec).
Proof. intros. unfold read_let. keeps_tac. Qed.

Lemma read_code_open fuel : keeps same_open (read_code fuel).
Proof.
  apply read_code_keeps; [typeclasses eauto|apply @lm_open|apply @lx_open|apply progs_get_open
    |apply read_case_open|apply read_let_open].
Qed.
End code.

(** ** Terms *)

Lemma incr_open_run d l u l' :
  incr_open d l = Ok (u, l') → open_parens l' = (open_parens l + d)%Z.
Proof. unfold incr_open, set_open_parens. intros H. inv_run. done. Qed.

Lemma eat_rparen_run l u l' : eat_rparen l = Ok (u, l') → open_parens l' = (open_parens l - 1)%Z.
Proof.
  unfold eat_rparen. intros H. inv_run. apply eat_char_open in H. apply incr_open_run in H0.
  unfold lex_open in H. lia.
Qed.

Lemma eat_rparens_run n l u l' :
  eat_rparens n l = Ok (u, l') → open_parens l' = (open_parens l - Z.of_nat n)%Z.
Proof.
  revert l u. induction n as [|n IH]; intros l u H; simpl in H; inv_run; [lia|].
  apply eat_rparen_run in H. apply IH in H0. lia.
Qed.

Lemma eat_excess_run prev l u l' :
  eat_excess prev l = Ok (u, l') → open_parens l' = Z.min (open_parens l) prev.
Proof. unfold eat_excess. intros H. inv_run. apply eat_rparens_run in H0. lia. Qed.

Section check.
Context {T : Type} {ST : SymTab T entry}.
Context (scc : ptr → list ptr → M mem ptr).
Local Abbreviation W := (world T).

Lemma lx_incr d (w : W) u w' : lx (incr_open d) w = Ok (u, w') → opn w' = (opn w + d)%Z.
Proof. intros (s & H & ->)%zoom_ok. by apply incr_open_run in H. Qed.
Lemma lx_rparen (w : W) u w' : lx eat_rparen w = Ok (u, w') → opn w' = (opn w - 1)%Z.
Proof. intros (s & H & ->)%zoom_ok. by apply eat_rparen_run in H. Qed.
Lemma lx_excess prev (w : W) u w' : lx (eat_excess prev) w = Ok (u, w') → opn w' = Z.min (opn w) prev.
Proof. intros (s & H & ->)%zoom_ok. by apply eat_excess_run in H. Qed.

Lemma put_computed_open p tp : keeps same_open (put_computed (T:=T) p tp).
Proof. unfold put_computed. keeps_tac. Qed.
Lemma read_computed_open c : keeps same_open (read_computed (T:=T) c).
Proof. unfold read_computed. keeps_tac. Qed.

(** [open_facts]: what each statement of a run does to the count. *)
Ltac open_facts :=
  repeat match goal with
  | H : lx (incr_open _) _ = Ok _ |- _ => apply lx_incr in H
  | H : lx eat_rparen _ = Ok _ |- _ => apply lx_rparen in H
  | H : lx (eat_excess _) _ = Ok _ |- _ => apply lx_excess in H
  | H : lx ?c _ = Ok _ |- _ => apply (lx_open c ltac:(eauto with keeps nocore)) in H
  | H : lm _ _ = Ok _ |- _ => apply lm_open in H
  | H : symbols_get _ _ = Ok _ |- _ => apply symbols_get_open in H
  | H : symbols_insert _ _ _ = Ok _ |- _ => apply symbols_insert_open in H
  | H : get_stat _ _ = Ok _ |- _ => apply get_stat_open in H
  | H : read_code _ _ = Ok _ |- _ => apply read_code_open in H
  | H : put_computed _ _ _ = Ok _ |- _ => apply put_computed_open in H
  | H : read_computed _ _ = Ok _ |- _ => apply read_computed_open in H
  end.
Ltac open_done := unfold same_open, opn, compose in *; simpl in *; lia.

Section rec.
Context (rec : cargs → M W outcome).
Context (Hrec : ∀ p w o w', rec p w = Ok (o, w') → (opn w ≤ opn w')%Z).
Ltac rec_facts := repeat match goal with H : rec _ _ = Ok _ |- _ => apply Hrec in H end.

Lemma check_pi_open fuel p w o w' : check_pi rec fuel p w = Ok (o, w') → (opn w - 1 ≤ opn w')%Z.
Proof. unfold check_pi. intros H. inv_branch; open_facts; rec_facts; open_done. Qed.
Lemma check_biglam_open p w o w' : check_biglam rec p w = Ok (o, w') → (opn w - 1 ≤ opn w')%Z.
Proof. unfold check_biglam. intros H. inv_branch; open_facts; rec_facts; open_done. Qed.

Lemma check_lambda_open p w o w' : check_lambda rec p w = Ok (o, w') → (opn w - 1 ≤ opn w')%Z.
Proof. unfold check_lambda, close_lambda. intros H. inv_branch; open_facts; rec_facts; open_done. Qed.

Lemma check_run_open fuel p w o w' : check_run rec fuel p w = Ok (o, w') → (opn w - 1 ≤ opn w')%Z.
Proof. unfold check_run, code_result_type. intros H. inv_branch; open_facts; rec_facts; open_done. Qed.

Lemma check_ascription_open fuel p w o w' :
  check_ascription rec fuel p w = Ok (o, w') → (opn w - 1 ≤ opn w')%Z.
Proof. unfold check_ascription. intros H. inv_branch; open_facts; rec_facts; open_done. Qed.

Lemma check_local_def_open p w o w' : check_local_def rec p w = Ok (o, w') → (opn w - 1 ≤ opn w')%Z.
Proof. unfold check_local_def. intros H. inv_branch; open_facts; rec_facts; open_done. Qed.

Lemma check_neg_open p w o w' : check_neg rec p w = Ok (o, w') → (opn w - 1 ≤ opn w')%Z.
Proof. unfold check_neg. intros H. inv_branch; open_facts; rec_facts; open_done. Qed.

Lemma app_step_open fuel p headtrm headtp holes w s w' :
  app_step scc rec fuel p (opn w) headtrm headtp holes w = Ok (s, w') → opn w' = opn w.
Proof.
  unfold app_step, app_tail, app_arg. intros H. inv_branch; open_facts; rec_facts; open_done.
Qed.

Lemma app_args_open fuel steps p headtrm headtp holes w r w' :
  app_args scc rec fuel steps p (opn w) headtrm headtp holes w = Ok (r, w') →
  match r with inl _ => (opn w ≤ opn w')%Z | inr _ => opn w' = opn w end.
Proof.
  revert headtrm headtp holes w. induction steps as [|steps IH]; intros headtrm headtp holes w H;
    simpl in H; [inv_run|].
  apply bind_ok in H as (c & w1 & Hc & H). apply (lx_open _ non_ws_open) in Hc. unfold same_open in Hc.
  case_decide; [inv_run; done|].
  apply bind_ok in H as (u & w2 & Hu & H). apply (lx_open _ (our_ungetc_open _)) in Hu. unfold same_open in Hu.
  apply bind_ok in H as (s & w3 & Hs & H).
  replace (opn w) with (opn w2) in Hs by congruence. apply app_step_open in Hs.
  replace (opn w) with (opn w3) by congruence. destruct s as [dom cmp|trm tp hs].
  - inv_run. rec_facts. done.
  - apply IH with trm tp hs. by replace (opn w3) with (opn w) by congruence.
Qed.

Lemma close_holes_open b holes : keeps same_open (close_holes (T:=T) b holes).
Proof.
  assert (∀ l, keeps same_open (modify (λ w : W, set_ascHoles (ascHoles w ++ l) w)))
    by (intros; by apply keeps_modify).
  pose proof (@lm_open T). unfold close_holes. keeps_tac.
Qed.

Lemma finish_app_open fuel p headtrm headtp holes (w : W) o w' :
  finish_app scc fuel p headtrm headtp holes w = Ok (o, w') → opn w' = opn w.
Proof.
  unfold finish_app. intros H. inv_branch; open_facts;
    repeat match goal with H : close_holes _ _ _ = Ok _ |- _ => apply close_holes_open in H end; open_done.
Qed.

Lemma check_app_open fuel p c w o w' :
  check_app scc rec fuel p c w = Ok (o, w') → (opn w - 1 ≤ opn w')%Z.
Proof.
  unfold check_app. intros H. inv_run. open_facts. rec_facts. unfold compose in *.
  match goal with H : app_args _ _ _ _ _ ?prev _ _ _ ?w1 = Ok _ |- _ =>
    change prev with (opn x0) in H; replace (opn x0) with (opn w1) in H by open_done;
    apply app_args_open in H end.
  destruct x11 as [out|[[trm tp] hs]]; inv_run; [open_done|]. open_facts.
  match goal with H : finish_app _ _ _ _ _ _ _ = Ok _ |- _ => apply finish_app_open in H end. open_done.
Qed.

Lemma check_paren_open fuel p w o w' :
  check_paren scc rec fuel p w = Ok (o, w') → (opn w ≤ opn w')%Z.
Proof.
  unfold check_paren. intros H. inv_run. open_facts. unfold same_open in *.
  repeat match goal with H : (if decide ?P then _ else _) _ = Ok _ |- _ => destruct (decide P) end; inv_run;
    first [apply check_pi_open in H1 | apply check_biglam_open in H1 | apply check_lambda_open in H1
          | apply check_run_open in H1 | apply check_ascription_open in H1
          | apply check_local_def_open in H1 | apply check_neg_open in H1 | apply check_app_open in H1]; lia.
Qed.
End rec.

Lemma check_open fuel p w o w' : check scc fuel p w = Ok (o, w') → (opn w ≤ opn w')%Z.
Proof.
  revert p w o w'. induction fuel as [|fuel IH]; intros p w o w' H; simpl in H; [inv_run|].
  apply bind_ok in H as (c & w1 & Hc & H). apply (lx_open _ non_ws_open) in Hc. unfold same_open in Hc.
  unfold check_numeral, check_hole, check_ident in H.
  destruct (decide (c = "("%char)); [apply (check_paren_open _ IH) in H; lia|].
  inv_branch; open_facts; open_done.
Qed.
End check.

(** ** Commands *)

Section commands.
Context {T : Type} {ST : SymTab T entry}.
Context (scc : ptr → list ptr → M mem ptr).
Context (init_scc : M (world T) ()) (Hinit : keeps same_open init_scc).
Local Abbreviation W := (world T).
Hint Resolve lm_open lx_open symbols_get_open symbols_insert_open progs_get_open get_stat_open
  restore_entries_open read_code_open put_computed_open read_computed_open : keeps.

Section code_types.
Context (rec : ptr → M W ptr) (Hrec : ∀ e, keeps same_open (rec e)).

Lemma check_branches_open msg e i : keeps same_open (check_branches rec msg e i).
Proof. unfold check_branches. keeps_tac. Qed.
Lemma is_data_type_open tp : keeps same_open (is_data_type (T:=T) tp).
Proof. unfold is_data_type, kind_of. keeps_tac. Qed.
Lemma is_num_type_open tp : keeps same_open (is_num_type (T:=T) tp).
Proof. unfold is_num_type. keeps_tac. Qed.
Lemma bind_pattern_open vars tp : keeps same_open (bind_pattern vars tp).
Proof. revert tp. induction vars; intros; simpl; keeps_tac. Qed.
Hint Resolve check_branches_open is_data_type_open is_num_type_open bind_pattern_open : keeps.
Lemma check_case_open c : keeps same_open (check_case rec c).
Proof. unfold check_case. keeps_tac. Qed.
Hint Resolve check_case_open : keeps.
Lemma check_cases_open mtp cs : keeps same_open (check_cases rec mtp cs).
Proof. revert mtp. induction cs; intros; simpl; keeps_tac. Qed.
Hint Resolve check_cases_open : keeps.

Lemma check_code_step_open fuel e n :
  keeps same_open
    match body n with
    | PInt _ => get_stat statMpz
    | PRat _ => get_stat statMpq
    | PSym _ => report_error "Internal error: an LF variable is encountered in code"
    | PSymS _ _ => check_symbol e
    | PHole _ => report_error "Encountered a hole unexpectedly in code."
    | PC APP _ => check_code_app rec fuel e
    | PC MPZ _ | PC MPQ _ => get_stat statType
    | PC DO _ => k0 ← lm (kid e 0); _ ← rec k0; k1 ← lm (kid e 1); rec k1
    | PC LET _ => check_code_let rec e
    | PC ADD _ | PC MUL _ | PC DIV _ => check_code_arith rec e
    | PC NEG _ => check_code_neg rec e
    | PC IFNEG _ | PC IFZERO _ => check_code_if rec e
    | PC FAIL _ => check_code_fail rec e
    | PC MARKVAR _ => check_code_markvar rec e
    | PC IFMARKED _ => check_code_ifmarked rec e
    | PC COMPARE _ => check_code_compare rec e
    | PC MATCH _ => check_code_match rec e
    | PC _ _ => report_error "Type checking an unrecognized form of code (internal error)."
    end.
Proof.
  unfold check_symbol, check_code_app, check_code_let, check_code_arith, check_code_neg,
    check_code_if, check_code_fail, check_code_markvar, check_code_ifmarked, check_code_compare,
    check_code_match. keeps_tac.
Qed.
End code_types.

Lemma check_code_open fuel e : keeps same_open (check_code fuel e).
Proof.
  revert e. induction fuel as [|fuel IH]; intros e; simpl; [keeps_tac|].
  apply keeps_bind; [typeclasses eauto|apply lm_open|intros n]. by apply check_code_step_open.
Qed.
Hint Resolve check_code_open : keeps.

Lemma expect_chars_open s : keeps same_open (expect_chars (T:=T) s).
Proof. induction s; simpl; unfold bad_command; keeps_tac. Qed.
Lemma replace_symbol_open id s tp : keeps same_open (replace_symbol id s tp).
Proof. unfold replace_symbol. keeps_tac. Qed.
Lemma refuse_kind_open tp : keeps same_open (refuse_kind (T:=T) tp).
Proof. unfold refuse_kind. keeps_tac. Qed.
Lemma check_param_type_open tp : keeps same_open (check_param_type (T:=T) tp).
Proof. unfold check_param_type. keeps_tac. Qed.
Lemma remove_params_open ps : keeps same_open (remove_params ps).
Proof. unfold remove_params. keeps_tac. Qed.
Lemma modify_open (f : W → W) : (∀ w, opn (f w) = opn w) → keeps same_open (modify f).
Proof. intros Hf. apply keeps_modify. exact Hf. Qed.
Hint Resolve expect_chars_open replace_symbol_open refuse_kind_open check_param_type_open
  remove_params_open : keeps.
Hint Extern 1 (keeps same_open (modify _)) => apply modify_open; reflexivity : keeps.
Lemma add_scc_open s e : keeps same_open (add_scc (T:=T) s e).
Proof. by apply modify_open. Qed.
Lemma add_symbol_open s t : keeps same_open (add_symbol (T:=T) s t).
Proof. by apply modify_open. Qed.
Hint Resolve add_scc_open add_symbol_open : keeps.
Lemma print_holes_open fuel : keeps same_open (print_holes (T:=T) fuel).
Proof. unfold print_holes. keeps_tac. Qed.
Lemma restore_locals_open : keeps same_open (restore_locals (T:=T)).
Proof. unfold restore_locals. keeps_tac. Qed.
Hint Resolve print_holes_open restore_locals_open : keeps.

Ltac cmd_facts :=
  repeat match goal with
  | H : lx (eat_excess _) _ = Ok _ |- _ => apply lx_excess in H
  | H : check _ _ _ _ = Ok _ |- _ => apply check_open in H
  | H : ?c _ = Ok _ |- _ =>
      let K := fresh in assert (K : keeps same_open c) by eauto 3 with keeps nocore;
      apply K in H; clear K
  end.
Ltac cmd_done := unfold same_open, opn, compose in *; simpl in *; lia.

Lemma cmd_define_open fuel w u w' : cmd_define scc fuel w = Ok (u, w') → opn w' = opn w.
Proof. unfold cmd_define, check_top. intros H. inv_run. destruct x5. inv_run. cmd_facts. cmd_done. Qed.

Lemma cmd_declare_open fuel w u w' : cmd_declare scc fuel w = Ok (u, w') → opn w' = opn w.
Proof. unfold cmd_declare, check_top. intros H. inv_branch; cmd_facts; cmd_done. Qed.

Lemma cmd_opaque_open fuel w u w' : cmd_opaque scc fuel w = Ok (u, w') → opn w' = opn w.
Proof. unfold cmd_opaque, check_top. intros H. inv_branch; cmd_facts; cmd_done. Qed.

Lemma cmd_check_open f fuel w u w' : cmd_check scc init_scc f fuel w = Ok (u, w') → opn w' = opn w.
Proof.
  unfold cmd_check. intros H. inv_run.
  assert (∀ b, keeps same_open (when b init_scc)) by (intros; by apply keeps_when; [typeclasses eauto|]).
  cmd_facts. cmd_done.
Qed.

Lemma cmd_run_open fuel w u w' : cmd_run scc fuel w = Ok (u, w') → opn w' = opn w.
Proof. unfold cmd_run. intros H. inv_branch; cmd_facts; cmd_done. Qed.

Lemma read_param_open fuel w p w' : read_param scc fuel w = Ok (p, w') → opn w' = opn w.
Proof. unfold read_param. intros H. inv_branch; cmd_facts; cmd_done. Qed.

Lemma read_params_open fuel steps : keeps same_open (read_params scc fuel steps).
Proof.
  assert (keeps same_open (read_param scc fuel)) by (intros w a w'; apply read_param_open).
  induction steps; simpl; keeps_tac.
Qed.
Hint Resolve read_params_open : keeps.

Lemma cmd_program_open fuel w u w' : cmd_program scc fuel w = Ok (u, w') → opn w' = opn w.
Proof. unfold cmd_program. intros H. inv_branch; cmd_facts; cmd_done. Qed.

Lemma command_open f fuel : keeps same_open (command scc init_scc f fuel).
Proof.
  assert (keeps same_open (cmd_define scc fuel)) by (intros w a w'; apply cmd_define_open).
  assert (keeps same_open (cmd_declare scc fuel)) by (intros w a w'; apply cmd_declare_open).
  assert (keeps same_open (cmd_opaque scc fuel)) by (intros w a w'; apply cmd_opaque_open).
  assert (keeps same_open (cmd_check scc init_scc f fuel)) by (intros w a w'; apply cmd_check_open).
  assert (keeps same_open (cmd_run scc fuel)) by (intros w a w'; apply cmd_run_open).
  assert (keeps same_open (cmd_program scc fuel)) by (intros w a w'; apply cmd_program_open).
  unfold command, bad_command. keeps_tac.
Qed.

Lemma commands_open f fuel steps : keeps same_open (commands scc init_scc f fuel steps).
Proof. pose proof (command_open f fuel). induction steps; simpl; keeps_tac. Qed.

Lemma check_file_open f contents a fuel w w' :
  check_file scc init_scc f contents a fuel w = Ok ((), w') → opn w' = opn w.
Proof.
  intros H. unfold check_file in H. inv_run. apply commands_open in H1.
  apply zoom_ok in H2 as (s & H2 & ->). inv_run. unfold same_open, opn in *. by simpl in *.
Qed.
End commands.

Lemma init_compiled_scc_open {T} {ST : SymTab T entry} : keeps same_open (init_compiled_scc (T:=T)).
Proof.
  pose proof (@progs_get_open T). pose proof (@symbols_get_open T ST).
  assert (∀ s, keeps same_open (symbol (T:=T) s)) by (intros; by apply keeps_fmap; [typeclasses eauto|]).
  pose proof (@lm_open T). unfold init_compiled_scc. keeps_tac.
Qed.

(** C40: the count of open parentheses is exact.  A call of [check] never closes
    a parenthesis of its caller, and when a file has been read without error the
    count is what it was before, although [check] ends many calls with
    parentheses still open. *)
Theorem open_parens_exact {T} {ST : SymTab T entry} n fuel :
  (∀ p (w : world T) o w', check (run_compiled_scc n) fuel p w = Ok (o, w') → (opn w ≤ opn w')%Z) ∧
  (∀ f contents a (w w' : world T),
    check_file (run_compiled_scc n) init_compiled_scc f contents a fuel w = Ok ((), w') → opn w' = opn w).
Proof.
  split; [intros p w o w'; apply check_open|]. intros f contents a w w'.
  apply check_file_open, init_compiled_scc_open.
Qed.

Lemma open_parens_exact_witness :
  let read := check_file (run_compiled_scc 10) init_compiled_scc "t.plf"
    "(declare o type)(declare p (! x o (! y o type)))" args_init 100 in
  read started = Ok ((), final read started) ∧ opn (final read started) = opn started.
Proof.
  intros read. assert (read started = Ok ((), final read started)) as H by (vm_compute; reflexivity).
  split; [exact H|].
  exact (proj2 (open_parens_exact 10 100) _ _ _ _ _ H).
Defined.
