(* ===== verification/Scope.v ===== *)
(** * Scopes

    A term that is built ([create] is true) binds names in the symbol table while
    it is read.  Afterwards every name has the entry it had before, or one
    without a classifier, which no term can be checked with: building a term
    makes no hypothesis available to what follows. *)

From Stdlib Require Import Ascii.
From stdpp Require Import base tactics list strings gmap numbers pretty.
From S2P Require Import Prelude SymTab Trie Header Memory Expr Lexer World Code Run Check CheckFile Frame Parens Sample.

Section scope.
Context {T : Type} `{!SymTab T entry} `{!SymTabLaws T entry}.
Context (scc : ptr → list ptr → M mem ptr).
Local Abbreviation W := (world T).

Definition sg (w : W) (s : string) : entry := st_get (symbols w) s.

(** An entry that may be in the table after [w] was the state. *)
Definition entry_ok (w : W) (s : string) (x : entry) : Prop := x = sg w s ∨ x.2 = null.

Definition scoped (w w' : W) : Prop :=
  st_wf (symbols w) →
  st_wf (symbols w') ∧ (∀ s, entry_ok w s (sg w' s)) ∧ local_sym_names w' = local_sym_names w.

#[global] Instance scoped_preorder : PreOrder scoped.
Proof.
  split; [intros w Hw; split_and!; [done|by left|done]|].
  intros w1 w2 w3 H12 H23 Hw. destruct (H12 Hw) as (W2 & E2 & L2). destruct (H23 W2) as (W3 & E3 & L3).
  split_and!; [done| |congruence]. intros s. destruct (E3 s) as [->|]; [apply E2|by right].
Qed.

Lemma same_symbols_scoped (w w' : W) :
  symbols w' = symbols w → local_sym_names w' = local_sym_names w → scoped w w'.
Proof. intros Es El Hw. unfold entry_ok, sg. rewrite Es. auto. Qed.

Lemma symbols_insert_run s x (w w' : W) old :
  symbols_insert s x w = Ok (old, w') → st_wf (symbols w) →
  old = sg w s ∧ st_wf (symbols w') ∧ (∀ s', sg w' s' = if decide (s = s') then x else sg w s') ∧
  local_sym_names w' = local_sym_names w.
Proof.
  unfold symbols_insert, sg. intros H Hw. destruct (st_insert (symbols w) s x) as [[o t]|] eqn:E; [|done].
  apply st_insert_ok in E as (-> & Hw' & Hg); [|done]. simplify_eq/=. auto.
Qed.

(** Entering a name and putting back what it replaced. *)
Lemma scoped_bracket s x old (w1 w2 w3 w4 : W) u :
  symbols_insert s x w1 = Ok (old, w2) → scoped w2 w3 → symbols_insert s old w3 = Ok (u, w4) →
  scoped w1 w4.
Proof.
  intros H1 H23 H4 Hw. destruct (symbols_insert_run _ _ _ _ _ H1 Hw) as (-> & W2 & G2 & L2).
  destruct (H23 W2) as (W3 & G3 & L3). destruct (symbols_insert_run _ _ _ _ _ H4 W3) as (_ & W4 & G4 & L4).
  split_and!; [done| |congruence]. intros s'. rewrite G4. case_decide as E; [subst; by left|].
  destruct (G3 s') as [->|]; [|by right]. rewrite G2. rewrite decide_False by done. by left.
Qed.

(** An entry that is allowed. *)
Lemma scoped_insert s x (w0 w w' : W) old :
  scoped w0 w → entry_ok w0 s x → symbols_insert s x w = Ok (old, w') → st_wf (symbols w0) →
  scoped w0 w' ∧ entry_ok w0 s old.
Proof.
  intros H0 Hx H Hw0. destruct (H0 Hw0) as (Hw & G & L).
  destruct (symbols_insert_run _ _ _ _ _ H Hw) as (-> & W' & G' & L').
  split; [|apply G]. intros _. split_and!; [done| |congruence]. intros s'. rewrite G'.
  case_decide; [by subst|apply G].
Qed.

Lemma lm_scoped {A} (c : M mem A) : keeps scoped (lm c).
Proof. apply keeps_zoom. intros. by apply same_symbols_scoped. Qed.
Lemma lx_scoped {A} (c : M lex A) : keeps scoped (lx c).
Proof. apply keeps_zoom. intros. by apply same_symbols_scoped. Qed.
Lemma symbols_get_scoped s : keeps scoped (symbols_get s).
Proof. apply keeps_gets, _. Qed.
Lemma get_stat_scoped f : keeps scoped (get_stat (T:=T) f).
Proof. apply keeps_gets, _. Qed.
Lemma progs_get_scoped s : keeps scoped (progs_get (T:=T) s).
Proof.
  intros w a w' H. unfold progs_get in H.
  destruct (progs w !! s); simplify_eq; by apply same_symbols_scoped.
Qed.
Lemma symbols_insert_null_scoped s v : keeps scoped (symbols_insert s (v, null)).
Proof.
  intros w old w' H Hw. destruct (scoped_insert s (v, null) w w w' old) as [Hs _];
    [reflexivity|by right|done..|]. by apply Hs.
Qed.
Lemma modify_scoped (f : W → W) :
  (∀ w, symbols (f w) = symbols w) → (∀ w, local_sym_names (f w) = local_sym_names w) →
  keeps scoped (modify f).
Proof. intros Hs Hl. apply keeps_modify. intros w. by apply same_symbols_scoped. Qed.
Hint Resolve lm_scoped lx_scoped symbols_get_scoped get_stat_scoped progs_get_scoped
  symbols_insert_null_scoped report_error_keeps : keeps.
Hint Extern 1 (keeps scoped (modify _)) => apply modify_scoped; reflexivity : keeps.

(** ** Code *)

Lemma read_pattern_vars_scoped steps pat (w0 w : W) r w' :
  scoped w0 w → st_wf (symbols w0) → read_pattern_vars steps pat w = Ok (r, w') →
  scoped w0 w' ∧ Forall (λ p : string * entry, entry_ok w0 p.1 p.2) r.2.
Proof.
  intros H0 Hw. revert pat w r H0. induction steps as [|steps IH]; intros pat w r H0 H; simpl in H; [inv_run|].
  apply bind_ok in H as (c & w1 & H1 & H). apply lx_scoped in H1. case_decide as Hc.
  { inv_run. split; [by etrans|constructor]. }
  apply bind_ok in H as (u & w2 & H2 & H). apply bind_ok in H as (s & w3 & H3 & H).
  apply bind_ok in H as (var & w4 & H4 & H). apply bind_ok in H as (prev & w5 & H5 & H).
  apply bind_ok in H as (pat' & w6 & H6 & H). apply bind_ok in H as ([pat'' prevs] & w7 & H7 & H). inv_run.
  apply lx_scoped in H2. apply lx_scoped in H3. apply lm_scoped in H4. apply lm_scoped in H6.
  assert (S4 : scoped w0 w4) by (do 4 (etrans; [eassumption|]); done).
  edestruct (scoped_insert s (var, null) w0) as [S5 O5]; [exact S4|by right|exact H5|done|].
  edestruct IH as [S F]; [|exact H7|]; [by etrans|]. split; [done|]. by constructor.
Qed.

Lemma restore_entries_scoped prevs (w0 w : W) u w' :
  scoped w0 w → st_wf (symbols w0) → Forall (λ p : string * entry, entry_ok w0 p.1 p.2) prevs →
  restore_entries prevs w = Ok (u, w') → scoped w0 w'.
Proof.
  intros H0 Hw HF. revert w H0. induction HF as [|[s x] prevs Hx _ IH]; intros w H0 H;
    unfold restore_entries in H; simpl in H; inv_run; [done|].
  rename H into Hins. edestruct (scoped_insert s x w0) as [S1 _]; [exact H0|done|exact Hins|done|].
  by eapply IH.
Qed.

(** [scope_facts]: which statements keep the scopes; [scope_chain] composes them. *)
Ltac scope_facts :=
  repeat match goal with
  | H : ?c _ = Ok _ |- _ =>
      lazymatch c with symbols_insert _ _ => fail | _ => idtac end;
      let K := fresh in assert (K : keeps scoped c) by eauto 3 with keeps nocore;
      apply K in H; clear K
  end.
Ltac scope_chain :=
  repeat match goal with
  | H : scoped (set_allow_run _ ?a) ?b |- _ => change (scoped a b) in H
  | H1 : scoped ?a ?b, H2 : scoped ?b ?c |- _ =>
      lazymatch a with b => fail | _ => assert (scoped a c) by (transitivity b; assumption); clear H1 H2 end
  | H1 : symbols_insert ?s _ ?a = Ok (?old, ?b), H2 : symbols_insert ?s ?old ?b = Ok (_, ?d) |- _ =>
      assert (scoped a d) by (eapply scoped_bracket; [exact H1|reflexivity|exact H2]); clear H1 H2
  | H1 : symbols_insert ?s _ ?a = Ok (?old, ?b), H : scoped ?b ?c,
    H2 : symbols_insert ?s ?old ?c = Ok (_, ?d) |- _ =>
      assert (scoped a d) by (eapply scoped_bracket; [exact H1|exact H|exact H2]); clear H1 H H2
  end.

Lemma read_case_scoped (rec : M W ptr) : keeps scoped rec → keeps scoped (read_case rec).
Proof.
  intros Hrec w a w' H Hw. unfold read_case in H.
  apply bind_ok in H as (u & w1 & H1 & H). apply bind_ok in H as (d & w2 & H2 & H).
  apply bind_ok in H as ([pat prevs] & w3 & H3 & H).
  apply lx_scoped in H1. apply lx_scoped in H2. assert (S2 : scoped w w2) by (by etrans).
  assert (scoped w w3 ∧ Forall (λ p : string * entry, entry_ok w p.1 p.2) prevs) as [S3 F].
  { destruct (decide (d = "("%char)) as [Hd|Hd].
    - apply bind_ok in H3 as (c & w4 & H3 & H4).
      assert (keeps scoped read_ctor) as K by (unfold read_ctor; keeps_tac). apply K in H3.
      apply bind_ok in H4 as (l & w5 & [-> ->]%gets_ok & H4).
      eapply (read_pattern_vars_scoped _ _ w) in H4; [done|by etrans|done].
    - assert (keeps scoped read_ctor) as K by (unfold read_ctor; keeps_tac).
      clear H. inv_branch; simplify_eq; scope_facts; (split; [scope_chain; done|constructor]). }
  apply bind_ok in H as (bd & w4 & H4 & H). apply Hrec in H4.
  apply bind_ok in H as (ret & w5 & H5 & H).
  assert (S5 : scoped w4 w5) by (destruct (decide (pat = null)); inv_run; [done|by apply lm_scoped in H5]).
  apply bind_ok in H as (u' & w6 & H6 & H). inv_run. apply lx_scoped in H.
  assert (S6 : scoped w w6).
  { eapply restore_entries_scoped; [|done|exact F|exact H6]. etrans; [exact S3|by etrans]. }
  by apply (transitivity S6 H).
Qed.

Lemma read_let_scoped (rec : M W ptr) : keeps scoped rec → keeps scoped (read_let rec).
Proof.
  intros Hrec w a w' H. unfold read_let in H. inv_run. scope_facts. scope_chain. done.
Qed.

Lemma read_code_scoped fuel : keeps scoped (read_code fuel).
Proof.
  apply read_code_keeps; [typeclasses eauto|apply @lm_scoped|intros; apply lx_scoped
    |apply progs_get_scoped|apply read_case_scoped|apply read_let_scoped].
Qed.

(** ** Terms *)

Section rec.
Context (rec : cargs → M W outcome).
Context (Hrec : ∀ p, create p = true → keeps scoped (rec p)).
Ltac rec_facts :=
  repeat match goal with
  | H : rec ?p _ = Ok _ |- _ => apply (Hrec p) in H; [|simpl; first [done | assumption]]
  end.
Ltac scope_done := scope_facts; rec_facts; scope_chain; first [assumption | reflexivity].

Lemma put_computed_scoped p tp : keeps scoped (put_computed (T:=T) p tp).
Proof. unfold put_computed. keeps_tac. Qed.
Lemma read_computed_scoped c : keeps scoped (read_computed (T:=T) c).
Proof. unfold read_computed. keeps_tac. Qed.
Hint Resolve put_computed_scoped read_computed_scoped read_code_scoped : keeps.

Lemma check_pi_scoped fuel p : create p = true → keeps scoped (check_pi rec fuel p).
Proof. intros Hp w a w' H. unfold check_pi in H. rewrite Hp in H. inv_branch; scope_done. Qed.

Lemma check_biglam_scoped p : create p = true → keeps scoped (check_biglam rec p).
Proof.
  intros Hp w a w' H. unfold check_biglam in H. apply bind_ok in H as (bc & w1 & _ & H).
  rewrite decide_True in H by tauto. inv_run.
Qed.

Lemma check_lambda_scoped p : create p = true → keeps scoped (check_lambda rec p).
Proof.
  intros Hp w a w' H. unfold check_lambda, close_lambda in H. rewrite Hp in H.
  inv_branch; rewrite ?andb_false_r in *; try done; scope_done.
Qed.

Lemma check_run_scoped fuel p : create p = true → keeps scoped (check_run rec fuel p).
Proof. intros Hp w a w' H. unfold check_run, code_result_type in H. inv_branch; scope_done. Qed.

Lemma check_ascription_scoped fuel p : create p = true → keeps scoped (check_ascription rec fuel p).
Proof. intros Hp w a w' H. unfold check_ascription in H. inv_branch; scope_done. Qed.

Lemma check_local_def_scoped p : create p = true → keeps scoped (check_local_def rec p).
Proof.
  intros Hp w a w' H. unfold check_local_def in H. rewrite Hp in H.
  inv_branch; rewrite ?andb_false_r in *; try done; scope_done.
Qed.

Lemma check_neg_scoped p : create p = true → keeps scoped (check_neg rec p).
Proof. intros Hp w a w' H. unfold check_neg in H. inv_branch; scope_done. Qed.

Lemma app_step_scoped fuel p prev headtrm headtp holes w r w' :
  create p = true → app_step scc rec fuel p prev headtrm headtp holes w = Ok (r, w') →
  scoped w w' ∧ ∃ trm tp hs, r = Next trm tp hs.
Proof.
  intros Hp H. unfold app_step, app_arg in H. rewrite Hp in H.
  inv_branch; rewrite ?andb_false_r in *; try done; (split; [scope_done|eauto]).
Qed.

Lemma app_args_scoped fuel steps p prev headtrm headtp holes :
  create p = true → keeps scoped (app_args scc rec fuel steps p prev headtrm headtp holes).
Proof.
  intros Hp. revert headtrm headtp holes.
  induction steps as [|steps IH]; intros headtrm headtp holes w r w' H; simpl in H; [inv_run|].
  apply bind_ok in H as (c & w1 & Hc & H). apply lx_scoped in Hc. case_decide; [by inv_run|].
  apply bind_ok in H as (u & w2 & Hu & H). apply lx_scoped in Hu.
  apply bind_ok in H as (s & w3 & Hs & H). apply app_step_scoped in Hs as (Hs & trm & tp & hs & ->); [|done].
  apply IH in H. scope_chain. done.
Qed.

Lemma close_holes_scoped b holes : keeps scoped (close_holes (T:=T) b holes).
Proof. unfold close_holes. keeps_tac. Qed.
Hint Resolve close_holes_scoped app_args_scoped : keeps.

Lemma check_app_scoped fuel p c : create p = true → keeps scoped (check_app scc rec fuel p c).
Proof.
  intros Hp w a w' H. unfold check_app, finish_app in H. inv_branch; scope_done.
Qed.

Lemma check_paren_scoped fuel p : create p = true → keeps scoped (check_paren scc rec fuel p).
Proof.
  pose proof check_pi_scoped. pose proof check_biglam_scoped. pose proof check_lambda_scoped.
  pose proof check_run_scoped. pose proof check_ascription_scoped. pose proof check_local_def_scoped.
  pose proof check_neg_scoped. pose proof check_app_scoped. intros Hp. unfold check_paren. keeps_tac.
Qed.
End rec.

Lemma check_scoped fuel p : create p = true → keeps scoped (check scc fuel p).
Proof.
  revert p. induction fuel as [|fuel IH]; intros p Hp; simpl; [keeps_tac|].
  assert (∀ d, keeps scoped (check_numeral (T:=T) p d)).
  { intros d. pose proof put_computed_scoped. unfold check_numeral. keeps_tac. }
  assert (keeps scoped (check_hole (T:=T) p)) by (unfold check_hole; keeps_tac).
  assert (∀ d, keeps scoped (check_ident fuel p d)) by (intros; unfold check_ident; keeps_tac).
  pose proof (check_paren_scoped _ IH fuel p Hp). keeps_tac.
Qed.

(** C30: building a term leaves no hypothesis behind.  When [check] is called
    with [create] set, whatever the term binds (by pi, lambda, local definition,
    or in the side conditions in it), every name has afterwards its old entry or
    an entry without a classifier, and no name waits to be restored at the end of
    the command. *)
Theorem create_leaks_no_hypothesis fuel p w o w' :
  create p = true → st_wf (symbols w) → check scc fuel p w = Ok (o, w') →
  st_wf (symbols w') ∧
  (∀ s, st_get (symbols w') s = st_get (symbols w) s ∨ (st_get (symbols w') s).2 = null) ∧
  local_sym_names w' = local_sym_names w.
Proof. intros Hp Hw H. by apply (check_scoped fuel p Hp w o w' H). Qed.
End scope.

Definition nested_pi : string := "(! x mpz (! y mpz mpz))".

Lemma create_leaks_no_hypothesis_witness :
  let w := reading nested_pi in
  let w' := term_final (infer true true) nested_pi in
  st_wf (symbols w') ∧
  (∀ s, st_get (symbols w') s = st_get (symbols w) s ∨ (st_get (symbols w') s).2 = null) ∧
  local_sym_names w' = local_sym_names w.
Proof.
  assert (term_ok (infer true true) nested_pi = true) as H by (vm_compute; reflexivity).
  exact (create_leaks_no_hypothesis no_scc 100 (infer true true) (reading nested_pi)
           (term_out (infer true true) nested_pi) (term_final (infer true true) nested_pi)
           eq_refl I (term_runs _ _ H)).
Defined.
