(* ===== verification/Locals.v ===== *)
(** * Names restored after a check

    The abstractions of a checked term that end with a tail call do not take
    their names out of the symbol table; they are recorded in
    [local_sym_names], and the [check] command puts the old entries back from
    the first to the last.  That is right for names bound once.  A name bound
    twice gets back the entry of its first binding, not the one it had before. *)

From stdpp Require Import base tactics list strings gmap numbers.
From S2P Require Import Prelude SymTab Header Memory Lexer World Code Check CheckFile Frame Parens Sample Scope.

(** The entry of [s] after writing the entries of [l] in turn. *)
Fixpoint entry_after (l : list (string * entry)) (s : string) (d : entry) : entry :=
  match l with
  | [] => d
  | (s', x) :: l => entry_after l s (if decide (s' = s) then x else d)
  end.

(** The entries that the bindings [bs] replace, given those before. *)
Fixpoint replaced (bs : list (string * entry)) (g : string → entry) : list (string * entry) :=
  match bs with
  | [] => []
  | (s, x) :: bs => (s, g s) :: replaced bs (λ s', if decide (s = s') then x else g s')
  end.

Lemma entry_after_app l1 l2 s d : entry_after (l1 ++ l2) s d = entry_after l2 s (entry_after l1 s d).
Proof. revert d. induction l1 as [|[s' x] l1 IH]; intros d; simpl; [done|]. by rewrite IH. Qed.

Lemma entry_after_absent l s d : s ∉ l.*1 → entry_after l s d = d.
Proof.
  revert d. induction l as [|[s' x] l IH]; intros d Hs; simpl; [done|].
  apply not_elem_of_cons in Hs as [Hne Hs]. simpl in Hne. rewrite decide_False by congruence. by apply IH.
Qed.

Lemma replaced_names bs g : (replaced bs g).*1 = bs.*1.
Proof. revert g. induction bs as [|[s x] bs IH]; intros g; simpl; [done|]. by rewrite IH. Qed.

Lemma replaced_ext bs g g' : (∀ s, g s = g' s) → replaced bs g = replaced bs g'.
Proof.
  revert g g'. induction bs as [|[s x] bs IH]; intros g g' H; simpl; [done|].
  rewrite H. f_equal. apply IH. intros s'. by rewrite H.
Qed.

Lemma replaced_app l1 l2 g :
  replaced (l1 ++ l2) g = replaced l1 g ++ replaced l2 (λ s, entry_after l1 s (g s)).
Proof. revert g. induction l1 as [|[s x] l1 IH]; intros g; simpl; [done|]. by rewrite IH. Qed.

(** Writing back what was replaced, for a name whose last binding is known. *)
Lemma entry_after_replaced l1 s x l2 g d :
  s ∉ l2.*1 → entry_after (replaced (l1 ++ (s, x) :: l2) g) s d = entry_after l1 s (g s).
Proof.
  intros Hs. rewrite replaced_app, entry_after_app. simpl. rewrite decide_True by done.
  by apply entry_after_absent; rewrite replaced_names.
Qed.

Section locals.
Context {T : Type} `{!SymTab T entry, !SymTabLaws T entry}.
Local Abbreviation W := (world T).

(** What an abstraction that ends with a tail call does to the table: enter its
    name and record the entry it replaced. *)
Definition enter_local (s : string) (x : entry) : M W () :=
  prevpr ← symbols_insert s x;
  modify (λ w, set_locals (local_sym_names w ++ [(s, prevpr)]) w).

Definition enter_locals (bs : list (string * entry)) : M W () :=
  for_each (λ b : string * entry, enter_local b.1 b.2) bs.

(** Tables that hold only names which every table takes. *)
Definition takes (w : W) : Prop := st_wf (symbols w) ∧ st_plain (symbols w).
Definition names_ok (bs : list (string * entry)) : Prop := Forall (λ b, st_name b.1 = true) bs.

Lemma insert_total s x (w : W) : takes w → st_name s = true →
  ∃ w', symbols_insert s x w = Ok (sg w s, w') ∧ takes w' ∧
    (∀ s', sg w' s' = if decide (s = s') then x else sg w s') ∧ local_sym_names w' = local_sym_names w.
Proof.
  intros [Hw Hp] Hs. destruct (st_insert_plain (symbols w) s x Hw Hp Hs) as (old & t & E & Hp').
  assert (symbols_insert s x w = Ok (old, set_symbols t w)) as H by (unfold symbols_insert; by rewrite E).
  destruct (symbols_insert_run s x w _ old H Hw) as (-> & W1 & G1 & L1). exists (set_symbols t w). by split_and!.
Qed.

Lemma enter_locals_run bs : ∀ w : W, takes w → names_ok bs →
  ∃ w', enter_locals bs w = Ok ((), w') ∧ takes w' ∧
    (∀ s, sg w' s = entry_after bs s (sg w s)) ∧
    local_sym_names w' = local_sym_names w ++ replaced bs (sg w).
Proof.
  induction bs as [|[s x] bs IH]; intros w Hw Hb.
  - exists w. by rewrite app_nil_r.
  - apply Forall_cons_iff in Hb as [Hs Hb]. destruct (insert_total s x w Hw Hs) as (w1 & H1 & W1 & G1 & L1).
    set (w2 := set_locals (local_sym_names w1 ++ [(s, sg w s)]) w1).
    destruct (IH w2 W1 Hb) as (w3 & H3 & W3 & G3 & L3). exists w3. split_and!; [|done| |].
    + assert (enter_local s x w = Ok ((), w2)) as H2.
      { unfold enter_local. by rewrite (bind_run _ _ _ _ _ H1). }
      change ((enter_local s x;; enter_locals bs) w = Ok ((), w3)). by rewrite (bind_run _ _ _ _ _ H2).
    + intros s'. rewrite G3. simpl. by rewrite <-G1.
    + rewrite L3. simpl. rewrite L1, <-app_assoc. simpl. do 2 f_equal. by apply replaced_ext.
Qed.

Lemma restore_entries_run l : ∀ w : W, takes w → names_ok l →
  ∃ w', restore_entries l w = Ok ((), w') ∧ takes w' ∧
    (∀ s, sg w' s = entry_after l s (sg w s)).
Proof.
  induction l as [|[s x] l IH]; intros w Hw Hl; [by exists w|].
  apply Forall_cons_iff in Hl as [Hs Hl]. destruct (insert_total s x w Hw Hs) as (w1 & H1 & W1 & G1 & _).
  destruct (IH w1 W1 Hl) as (w2 & H2 & W2 & G2). exists w2. split_and!; [|done|].
  - unfold restore_entries. cbn [for_each]. rewrite (bind_run _ _ w () w1); [exact H2|].
    by rewrite (bind_run _ _ _ _ _ H1).
  - intros s'. rewrite G2. simpl. by rewrite <-G1.
Qed.

Lemma locals_run bs (w : W) :
  takes w → names_ok bs → local_sym_names w = [] →
  ∃ w', (enter_locals bs;; restore_locals) w = Ok ((), w') ∧ local_sym_names w' = [] ∧
    ∀ s, sg w' s = entry_after (replaced bs (sg w)) s (entry_after bs s (sg w s)).
Proof.
  intros Hw Hb Hl. destruct (enter_locals_run bs w Hw Hb) as (w1 & H1 & W1 & G1 & L1). rewrite Hl in L1.
  assert (names_ok (replaced bs (sg w))) as Hr.
  { unfold names_ok. apply (Forall_fmap fst (λ s, st_name s = true)). rewrite replaced_names. by apply Forall_fmap. }
  destruct (restore_entries_run (replaced bs (sg w)) w1 W1 Hr) as (w2 & H2 & W2 & G2).
  exists (set_locals [] w2). rewrite (bind_run _ _ _ _ _ H1). split_and!; [|done|].
  - unfold restore_locals. rewrite (bind_run _ _ w1 (local_sym_names w1) w1) by done.
    rewrite L1. simpl. by rewrite (bind_run _ _ _ _ _ H2).
  - intros s. unfold sg at 1. simpl. fold (sg w2 s). by rewrite G2, G1.
Qed.

(** C38: the names of the abstractions of a checked term leave the symbol table
    at the end of the command.  Whatever sequence of names was entered, for a
    table that takes them (in the trie, names without the byte 0xFF), the
    restoration comes to an end and nothing is left to restore.  A name entered
    at most once has its old entry again; a name entered twice has the entry of
    its last binding but one, so a shadowed hypothesis outlives the proof that
    introduced it. *)
Theorem restore_locals_spec bs (w : W) :
  takes w → names_ok bs → local_sym_names w = [] →
  ∃ w', (enter_locals bs;; restore_locals) w = Ok ((), w') ∧ local_sym_names w' = [] ∧
    (∀ s, s ∉ bs.*1 → sg w' s = sg w s) ∧
    (∀ l1 s x l2, bs = l1 ++ (s, x) :: l2 → s ∉ l1.*1 → s ∉ l2.*1 → sg w' s = sg w s) ∧
    (∀ l1 s x l2 y l3, bs = l1 ++ (s, x) :: l2 ++ (s, y) :: l3 → s ∉ l2.*1 → s ∉ l3.*1 → sg w' s = x).
Proof.
  intros Hw Hb Hl. destruct (locals_run bs w Hw Hb Hl) as (w' & H & L & G). exists w'.
  split_and!; [done..| | |].
  - intros s Hs. rewrite G, !entry_after_absent by (rewrite ?replaced_names; done). done.
  - intros l1 s x l2 -> H1 H2. by rewrite G, entry_after_replaced, entry_after_absent.
  - intros l1 s x l2 y l3 -> H2 H3. rewrite G. rewrite app_comm_cons, app_assoc.
    rewrite entry_after_replaced, entry_after_app by done. simpl. rewrite decide_True by done.
    by apply entry_after_absent.
Qed.
End locals.

(** [(% x o (% x o x))]: the second [x] shadows the first. *)
Lemma restore_locals_spec_witness :
  ∃ w', (enter_locals [("x", (10, 5)); ("x", (11, 5))]%N;; restore_locals) started = Ok ((), w') ∧
    sg w' "x" = (10, 5)%N ∧ sg started "x" = (null, null).
Proof.
  assert (takes started) as Hw by (split; exact I).
  destruct (restore_locals_spec [("x", (10, 5)); ("x", (11, 5))]%N started Hw ltac:(repeat constructor) eq_refl)
    as (w' & H & _ & _ & _ & Hdup).
  exists w'. split; [exact H|]. split; [|reflexivity].
  apply (Hdup [] "x"%string _ [] (11, 5)%N []); [reflexivity|inversion 1..].
Defined.
