(* ===== verification/Contract.v ===== *)
(** * The contract of [check]

    The comment before [check] describes four modes, by [create] and by whether
    a classifier is expected.  This file proves what a caller may rely on, and
    what follows for ascriptions and for the flag that the head of an
    application shares between two uses. *)

From Stdlib Require Import Ascii.
From stdpp Require Import base tactics list strings gmap numbers pretty.
From S2P Require Import Prelude SymTab Header Memory Expr Lexer World Code Run Check CheckFile Frame Sample.

(** What a successful call with the parameters [p] gives. *)
Record contract (p : cargs) (o : outcome) : Prop := Contract {
  ct_hole : o_hole o = true → is_hole p = true;
  ct_null : create p = false → expected p ≠ null → o_trm o = null ∨ o_hole o = true;
  ct_computed : expected p = null → computed p = true → o_hole o = false → is_Some (o_computed o)
}.

Lemma load_nonnull e m r : load e m = Ok r → e ≠ null.
Proof. unfold load. case_decide; [done|]. done. Qed.
Lemma getop_nonnull e m r : getop e m = Ok r → e ≠ null.
Proof. destruct r. unfold getop. intros H. inv_run. by eapply load_nonnull. Qed.
Lemma follow_defs_nonnull fuel e m r : follow_defs fuel e m = Ok r → e ≠ null.
Proof. destruct r, fuel; simpl; intros H; inv_run. by eapply load_nonnull. Qed.
Lemma followDefs_nonnull e m r : followDefs e m = Ok r → e ≠ null.
Proof. destruct r. unfold followDefs. intros H. inv_run. by eapply follow_defs_nonnull. Qed.

Section contract.
Context {T : Type} {ST : SymTab T entry}.
Context (scc : ptr → list ptr → M mem ptr).
Local Abbreviation W := (world T).

Lemma lm_getop_nonnull e (w : W) r : lm (getop e) w = Ok r → e ≠ null.
Proof. destruct r. intros (s & H & _)%zoom_ok. by eapply getop_nonnull. Qed.
Lemma lm_followDefs_nonnull e (w : W) r : lm (followDefs e) w = Ok r → e ≠ null.
Proof. destruct r. intros (s & H & _)%zoom_ok. by eapply followDefs_nonnull. Qed.
Lemma lm_dec_nonnull e (w : W) r : lm (dec e) w = Ok r → e ≠ null.
Proof.
  destruct r. intros (s & H & _)%zoom_ok. unfold dec, dec_then in H. inv_run. by eapply load_nonnull.
Qed.

(** Comparing something with null meets a null pointer. *)
Lemma defeq_nonnull fuel e1 e2 m r : e1 ≠ null → defeq fuel e1 e2 m = Ok r → e2 ≠ null.
Proof.
  destruct r, fuel; simpl; intros Hne H; [inv_run|]. case_decide; [by subst|]. inv_run.
  by eapply getop_nonnull.
Qed.
Lemma lm_defeq_nonnull fuel e1 e2 (w : W) r : e1 ≠ null → lm (defeq fuel e1 e2) w = Ok r → e2 ≠ null.
Proof. destruct r. intros Hne (s & H & _)%zoom_ok. by eapply defeq_nonnull. Qed.

Lemma put_computed_some p tp (w : W) c w' : put_computed p tp w = Ok (c, w') → c = Some tp.
Proof. unfold put_computed. intros H. inv_branch. done. Qed.

Ltac null_facts :=
  repeat match goal with
  | H : lm (getop _) _ = Ok _ |- _ => apply lm_getop_nonnull in H
  | H : lm (followDefs _) _ = Ok _ |- _ => apply lm_followDefs_nonnull in H
  | H : put_computed _ _ _ = Ok _ |- _ => apply put_computed_some in H; subst
  end.

Section rec.
Context (rec : cargs → M W outcome).
Context (Hrec : ∀ p w o w', rec p w = Ok (o, w') → contract p o).

Lemma contract_no_hole p o : contract p o → is_hole p = false → o_hole o = false.
Proof. intros [H _ _] Hp. destruct (o_hole o); [|done]. by rewrite H in Hp. Qed.

(** The facts about each recursive call, then the three parts of the contract. *)
Ltac rec_facts :=
  repeat match goal with
  | H : rec _ _ = Ok _ |- _ => apply Hrec in H
  end;
  repeat match goal with
  | H : contract ?p ?o |- _ =>
      try pose proof (contract_no_hole p o H ltac:(reflexivity));
      destruct H as [? ? ?]; simpl in *
  end.
Ltac contract_done :=
  null_facts; rec_facts; split; simpl in *; intros; subst; eauto;
  try (match goal with H : create ?p = false |- context [create ?p] => rewrite H end; auto);
  try congruence; try (exfalso; tauto); intuition (eauto; congruence).

Lemma check_pi_contract fuel p w o w' : check_pi rec fuel p w = Ok (o, w') → contract p o.
Proof. unfold check_pi. intros H. inv_branch; contract_done. Qed.

Lemma check_biglam_contract p w o w' : check_biglam rec p w = Ok (o, w') → contract p o.
Proof. unfold check_biglam. intros H. inv_branch; contract_done. Qed.

Lemma check_lambda_contract p w o w' : check_lambda rec p w = Ok (o, w') → contract p o.
Proof. unfold check_lambda, close_lambda. intros H. inv_branch; contract_done. Qed.

Lemma check_run_contract fuel p w o w' : check_run rec fuel p w = Ok (o, w') → contract p o.
Proof. unfold check_run. intros H. inv_branch; contract_done. Qed.

Lemma check_ascription_contract fuel p w o w' :
  check_ascription rec fuel p w = Ok (o, w') → contract p o.
Proof. unfold check_ascription. intros H. inv_branch; contract_done. Qed.

Lemma check_local_def_contract p w o w' : check_local_def rec p w = Ok (o, w') → contract p o.
Proof. unfold check_local_def. intros H. inv_branch; contract_done. Qed.

Lemma check_neg_contract p w o w' : check_neg rec p w = Ok (o, w') → contract p o.
Proof. unfold check_neg. intros H. inv_branch; contract_done. Qed.

Lemma app_step_tail fuel p prev headtrm headtp holes w dom c w' :
  app_step scc rec fuel p prev headtrm headtp holes w = Ok (Tail dom c, w') →
  dom ≠ null ∧ create p = false ∧ (expected p = null → is_Some c).
Proof.
  unfold app_step, app_tail, app_arg. intros H. inv_branch; try done; simplify_eq; null_facts;
    repeat match goal with H : _ && _ = true |- _ => apply andb_true_iff in H as [? ?] end;
    (split_and!; [done|by destruct (create p)|]); intros; try congruence; eauto.
Qed.

Lemma app_args_contract fuel steps p prev headtrm headtp holes w out w' :
  app_args scc rec fuel steps p prev headtrm headtp holes w = Ok (inl out, w') → contract p out.
Proof.
  revert headtrm headtp holes w. induction steps as [|steps IH]; intros headtrm headtp holes w H;
    simpl in H; [inv_run|].
  apply bind_ok in H as (c & w1 & _ & H). case_decide; [inv_run; done|].
  apply bind_ok in H as (u & w2 & _ & H). apply bind_ok in H as (s & w3 & Hs & H).
  destruct s as [dom cmp|trm tp hs]; [|by eapply IH].
  apply app_step_tail in Hs as (? & ? & ?). inv_run. simplify_eq. contract_done.
Qed.

Lemma check_app_contract fuel p c w o w' : check_app scc rec fuel p c w = Ok (o, w') → contract p o.
Proof.
  unfold check_app, finish_app. intros H. inv_branch; [by eapply app_args_contract|contract_done..].
Qed.

Lemma check_paren_contract fuel p w o w' : check_paren scc rec fuel p w = Ok (o, w') → contract p o.
Proof.
  unfold check_paren. intros H. inv_branch;
    eauto using check_pi_contract, check_biglam_contract, check_lambda_contract, check_run_contract,
      check_ascription_contract, check_local_def_contract, check_neg_contract, check_app_contract.
Qed.
End rec.

Lemma check_contract fuel p w o w' : check scc fuel p w = Ok (o, w') → contract p o.
Proof.
  revert p w o w'. induction fuel as [|fuel IH]; intros p w o w' H; simpl in H; [inv_run|].
  apply bind_ok in H as (c & w1 & _ & H).
  destruct (decide (c = "("%char)); [by eapply check_paren_contract|].
  unfold check_numeral, check_hole, check_ident in H.
  inv_branch; null_facts; split; simpl in *; intros; eauto; congruence.
Qed.

(** In checking mode the term of an ascription is null, and is released. *)
Lemma ascription_fails fuel fuel' p w r :
  expected p ≠ null → create p = false → check_ascription (check scc fuel) fuel' p w = Ok r → False.
Proof.
  intros He Hc. destruct r as [o w']. unfold check_ascription. rewrite Hc. intros H.
  inv_branch; try congruence; try contradiction.
  match goal with H : lm (defeq _ _ _) _ = Ok _ |- _ => apply lm_defeq_nonnull in H; [|done] end.
  repeat match goal with H : check _ _ _ _ = Ok _ |- _ => apply check_contract in H end.
  match goal with H : contract (Cargs false _ _ _ _ _) ?t |- _ =>
    pose proof (contract_no_hole _ _ H eq_refl); destruct H as [_ Hn _]; simpl in Hn;
    destruct Hn; [done|done| |congruence]
  end.
  match goal with H : lm (dec (o_trm _)) _ = Ok _ |- _ => by apply lm_dec_nonnull in H end.
Qed.

Definition unfilled_hole (m : mem) (e : ptr) : Prop := heap m !! e = Some (Node 1 false (PHole null)).

(** A hole is read only where the caller allows it: the result is a new hole
    without a value, whatever [create] is, and nothing is computed. *)
Lemma check_hole_spec p (w : W) o w' :
  check_hole p w = Ok (o, w') →
  is_hole p = true ∧ o_hole o = true ∧ o_computed o = None ∧ unfilled_hole (w_mem w') (o_trm o).
Proof.
  unfold check_hole. intros H. destruct (is_hole p); [|inv_run].
  apply bind_ok in H as (u & w3 & _ & H). apply bind_ok in H as (h & w4 & Hh & H). inv_run.
  apply zoom_ok in Hh as (m & Hn & ->). injection Hn as <- <-. split_and!; [done..|].
  unfold unfilled_hole. simpl. apply lookup_insert_eq.
Qed.

(** C33: the contract of [check].  Without an expected classifier the caller's
    [computed] is set, unless the term is a hole.  With an expected classifier
    and without [create] the result is null, as the comment before [check]
    says, except for a hole, which the comment does not name: there
    [check_hole] returns a new hole that has no value and sets no [computed].
    A hole is reported only to a caller that allows one. *)
Theorem check_contract_holds fuel p w o w' :
  check scc fuel p w = Ok (o, w') →
  (expected p = null → computed p = true → o_hole o = false → is_Some (o_computed o)) ∧
  (expected p ≠ null → create p = false → o_hole o = false → o_trm o = null) ∧
  (o_hole o = true → is_hole p = true) ∧
  (∀ q (u : W) h u', check_hole q u = Ok (h, u') →
     is_hole q = true ∧ o_hole h = true ∧ o_computed h = None ∧ unfilled_hole (w_mem u') (o_trm h)).
Proof.
  intros H. pose proof (check_contract _ _ _ _ _ H) as [Hh Hn Hc]. split_and!; [done| |done|apply check_hole_spec].
  intros He Hcr Ho. destruct (Hn Hcr He); [done|congruence].
Qed.

(** An ascription can never be checked against a classifier.  In that mode
    (an ascription inside an ascription, or as an argument that need not be
    built) [check] calls [dec] on the null pointer its recursive call returned,
    so no input is accepted. *)
Theorem ascription_checked_fails fuel fuel' p w r :
  expected p ≠ null → create p = false → check_ascription (check scc fuel) fuel' p w ≠ Ok r.
Proof. intros He Hc H. by eapply ascription_fails. Qed.
End contract.

(** Checking against [mpz], which is at 3 in the initial state. *)
Definition against_mpz : cargs := Cargs false 3%N false false true false.

Lemma check_contract_holds_witness : o_trm (term_out against_mpz "0 ") = null.
Proof.
  assert (term_ok against_mpz "0 " = true) as H by (vm_compute; reflexivity).
  pose proof (check_contract_holds no_scc 100 against_mpz (reading "0 ") (term_out against_mpz "0 ")
    (term_final against_mpz "0 ") (term_runs _ _ H)) as (_ & Hn & _).
  apply Hn; [discriminate|reflexivity|vm_compute; reflexivity].
Defined.

Lemma ascription_checked_fails_witness :
  check_ascription (check no_scc 100) 100 against_mpz (reading "mpz 0)") ≠
    Ok (Out null None false, started).
Proof.
  exact (ascription_checked_fails no_scc 100 100 against_mpz (reading "mpz 0)")
    (Out null None false, started) ltac:(discriminate) eq_refl).
Defined.
