(* ===== verification/HeadFlag.v ===== *)
(** * The shared flag of a head type

    One bit of the header says, of a pi type, both that its variable occurs in
    its range ([get_free_in]) and that an application is using it ([cloned]).
    [check] sets it in the second sense before it reads it in the first. *)

From Stdlib Require Import Ascii.
From stdpp Require Import base tactics list strings gmap numbers pretty.
From S2P Require Import Prelude SymTab Header Memory Expr Lexer World Code Run Check CheckFile Frame Sample Contract.

(** Addresses of objects are below the next one. *)
Definition fresh (m : mem) : Prop := ∀ a n, heap m !! a = Some n → (a < next_addr m)%N.

(** No flag of an old object is cleared. *)
Definition flagged (m m' : mem) : Prop :=
  fresh m → fresh m' ∧ (next_addr m ≤ next_addr m')%N ∧
  ∀ a n', heap m' !! a = Some n' → (a < next_addr m)%N →
    ∃ n, heap m !! a = Some n ∧ (exmark n = true → exmark n' = true).

#[global] Instance flagged_preorder : PreOrder flagged.
Proof.
  split; [intros m Hf; split_and!; [done|lia|eauto]|].
  intros m1 m2 m3 H12 H23 F1. destruct (H12 F1) as (F2 & L2 & E2). destruct (H23 F2) as (F3 & L3 & E3).
  split_and!; [done|lia|]. intros a n3 H3 Ha. destruct (E3 a n3 H3) as (n2 & H2 & ?); [lia|].
  destruct (E2 a n2 H2 Ha) as (n1 & H1 & ?). eauto.
Qed.

Lemma load_flagged e : keeps flagged (load e).
Proof.
  intros m n m' H. unfold load in H. case_decide; [done|].
  destruct (heap m !! e); [|done]. by simplify_eq.
Qed.
Lemma free_flagged e : keeps flagged (free e).
Proof.
  intros m u m' H. unfold free in H. inv_run. intros F. split_and!; [|simpl; lia|];
    intros a n; simpl; intros [_ Ha]%lookup_delete_Some; eauto.
Qed.
Lemma new_flagged b : keeps flagged (new b).
Proof.
  intros m a m' H. unfold new in H. simplify_eq. intros F. split_and!; simpl; [|lia|].
  - intros a n; simpl; intros [[<- _]|[_ Ha%F]]%lookup_insert_Some; lia.
  - intros a n' [[<- _]|[_ Ha]]%lookup_insert_Some ?; [lia|eauto].
Qed.
(** Writing an object back with its flag. *)
Lemma store_flagged e n n' m u m' :
  heap m !! e = Some n → (exmark n = true → exmark n' = true) → store e n' m = Ok (u, m') → flagged m m'.
Proof.
  intros He Hx H. unfold store in H. inv_run. intros F. split_and!; simpl; [|lia|].
  - intros a n1; simpl; intros [[<- _]|[_ Ha]]%lookup_insert_Some; eauto.
  - intros a n1 [[<- <-]|[_ Ha]]%lookup_insert_Some _; eauto.
Qed.
Lemma load_inv e m n m' : load e m = Ok (n, m') → m' = m ∧ heap m !! e = Some n.
Proof.
  unfold load. case_decide; [done|]. destruct (heap m !! e); [|done]. intros [= -> ->]. done.
Qed.

(** A statement that loads an object and stores it with its flag. *)
Ltac flag_store :=
  intros; let m := fresh "m" in let u := fresh "u" in let m' := fresh "m'" in let H := fresh "H" in
  intros m u m' H; inv_branch;
  repeat match goal with H : load _ _ = Ok _ |- _ => apply load_inv in H as [-> ?] end;
  first [reflexivity | eapply store_flagged; [eassumption| |eassumption]; simpl; done].

Lemma inc_flagged e : keeps flagged (inc e).
Proof. unfold inc. flag_store. Qed.
Lemma setexmark_flagged e : keeps flagged (setexmark e).
Proof. unfold setexmark. flag_store. Qed.
Lemma set_sym_val_flagged e v : keeps flagged (set_sym_val e v).
Proof. unfold set_sym_val. flag_store. Qed.
#[local] Hint Resolve load_flagged free_flagged new_flagged inc_flagged setexmark_flagged
  set_sym_val_flagged report_error_keeps : keeps.

Lemma kid_flagged e i : keeps flagged (kid e i).
Proof. unfold kid, kids_of. keeps_tac. Qed.
Lemma sym_val_flagged e : keeps flagged (sym_val e).
Proof. unfold sym_val. keeps_tac. Qed.
Lemma sym_name_flagged e : keeps flagged (sym_name e).
Proof. unfold sym_name. keeps_tac. Qed.

(** Counting changes neither the fields nor the flags of the objects it leaves. *)
Definition trimmed (m m' : mem) : Prop :=
  next_addr m' = next_addr m ∧
  ∀ a n', heap m' !! a = Some n' →
    ∃ n, heap m !! a = Some n ∧ body n' = body n ∧ exmark n' = exmark n.

#[global] Instance trimmed_preorder : PreOrder trimmed.
Proof.
  split; [intros m; split; eauto|]. intros m1 m2 m3 [L2 E2] [L3 E3]. split; [congruence|].
  intros a n3 H3. destruct (E3 a n3 H3) as (n2 & H2 & ? & ?). destruct (E2 a n2 H2) as (n1 & H1 & ? & ?).
  exists n1. split_and!; congruence.
Qed.

Lemma trimmed_flagged m m' : trimmed m m' → flagged m m'.
Proof.
  intros [L E] F. split_and!; [|lia|].
  - intros a n' Ha. destruct (E a n' Ha) as (n & ? & _). rewrite L. eauto.
  - intros a n' Ha _. destruct (E a n' Ha) as (n & ? & _ & Ex). exists n. split; [done|congruence].
Qed.

Lemma load_trimmed e : keeps trimmed (load e).
Proof. intros m n m' [-> _]%load_inv. reflexivity. Qed.
Lemma free_trimmed e : keeps trimmed (free e).
Proof.
  intros m u m' H. unfold free in H. inv_run. split; [done|].
  intros a n; simpl; intros [_ Ha]%lookup_delete_Some; eauto.
Qed.
Lemma store_trimmed e n n' m u m' :
  heap m !! e = Some n → body n' = body n → exmark n' = exmark n → store e n' m = Ok (u, m') → trimmed m m'.
Proof.
  intros He Hb Hx H. unfold store in H. inv_run. split; [done|].
  intros a n1. simpl. intros [[<- <-]|[_ Ha]]%lookup_insert_Some; eauto.
Qed.
Lemma inc_trimmed e : keeps trimmed (inc e).
Proof.
  intros m u m' H. unfold inc in H. inv_run. apply load_inv in H as [-> ?].
  by eapply store_trimmed; [eassumption|..|eassumption].
Qed.
#[local] Hint Resolve load_trimmed free_trimmed : keeps.

Lemma dec_then_trimmed d e : (∀ e, keeps trimmed (d e)) → keeps trimmed (dec_then d e).
Proof.
  intros Hd m u m' H. unfold dec_then in H. inv_branch; apply load_inv in H as [-> ?].
  - by eapply Hd.
  - by eapply store_trimmed; [eassumption|..|eassumption].
Qed.

Lemma destroy_trimmed fuel b e : keeps trimmed (destroy fuel b e).
Proof.
  revert b e. induction fuel as [|fuel IH]; intros b e; simpl; [keeps_tac|].
  assert (∀ b e, keeps trimmed (dec_then (destroy fuel b) e)) by (intros; apply dec_then_trimmed, IH).
  assert (∀ l, keeps trimmed (destroy_kids (dec_then (destroy fuel true)) (dec_then (destroy fuel b)) e l)).
  { induction l as [|k [|k' l] IHl]; simpl in *; keeps_tac. }
  unfold kid_list, destroy_sym, getop. keeps_tac.
Qed.

Lemma dec_trimmed e : keeps trimmed (dec e).
Proof. unfold dec. keeps_tac. apply dec_then_trimmed. intros. apply destroy_trimmed. Qed.
Lemma dec_flagged e : keeps flagged (dec e).
Proof. intros m u m' H. by eapply trimmed_flagged, dec_trimmed. Qed.
#[local] Hint Resolve dec_flagged : keeps.

Lemma clone_flagged fuel e : keeps flagged (clone fuel e).
Proof.
  revert e. induction fuel as [|fuel IH]; intros e; simpl; [keeps_tac|].
  unfold getop, kid, kids_of, kid_list, sym_name, sym_val, getexmark, new_syms, new_cexpr. keeps_tac.
Qed.

Lemma flagged_read m m' a n n' :
  flagged m m' → fresh m → heap m !! a = Some n → exmark n = true → heap m' !! a = Some n' →
  exmark n' = true.
Proof.
  intros H F Ha Hx Ha'. destruct (H F) as (_ & _ & E). destruct (E a n' Ha') as (n0 & ? & Hn0);
    [by eapply F|]. simplify_eq. auto.
Qed.

Lemma setexmark_sets e m u m' : setexmark e m = Ok (u, m') → ∃ n, heap m' !! e = Some n ∧ exmark n = true.
Proof.
  unfold setexmark. intros H. inv_run. apply load_inv in H as [-> ?]. unfold store in H0. inv_run.
  simpl. rewrite lookup_insert_eq. eauto.
Qed.

(** The copy of a pi type has the flag when the original has it. *)
Lemma clone_pi_flag fuel e m n ks r m' :
  fresh m → heap m !! e = Some n → body n = PC PI ks → exmark n = true →
  clone fuel e m = Ok (r, m') → ∃ n', heap m' !! r = Some n' ∧ exmark n' = true.
Proof.
  intros F He Eb Hx H. destruct fuel as [|fuel]; [done|]. simpl in H.
  apply bind_ok in H as (n0 & m0 & [-> He0]%load_inv & H). simplify_eq. rewrite Eb in H.
  apply bind_ok in H as (var & m1 & H1 & H). apply bind_ok in H as (s & m2 & H2 & H).
  apply bind_ok in H as (newvar & m3 & H3 & H). apply bind_ok in H as (k1 & m4 & H4 & H).
  apply bind_ok in H as (tp & m5 & H5 & H). apply bind_ok in H as (prev & m6 & H6 & H).
  apply bind_ok in H as (u7 & m7 & H7 & H). apply bind_ok in H as (k2 & m8 & H8 & H).
  apply bind_ok in H as (bod & m9 & H9 & H). apply bind_ok in H as (u10 & m10 & H10 & H).
  apply bind_ok in H as (ret & m11 & H11 & H). apply bind_ok in H as (b & m12 & H12 & H).
  apply kid_flagged in H1, H4, H8. apply sym_name_flagged in H2. apply new_flagged in H3, H11.
  apply clone_flagged in H5, H9. apply sym_val_flagged in H6. apply set_sym_val_flagged in H7, H10.
  assert (HF : flagged m m11) by (repeat (etrans; [eassumption|]); reflexivity).
  unfold getexmark in H12. inv_run.
  match goal with H : load e m11 = Ok _ |- _ => apply load_inv in H as [-> He11] end.
  rewrite (flagged_read m m11 e _ _ HF F He Hx He11) in *. simpl in *.
  by eapply setexmark_sets.
Qed.

Lemma followDefs_same e : keeps eq (followDefs e).
Proof.
  assert (∀ fuel e, keeps eq (follow_defs fuel e)) as Hf.
  { induction fuel as [|fuel IH]; intros e' m a m' H; simpl in H; [inv_run|].
    apply bind_ok in H as (n & m1 & [-> _]%load_inv & H). inv_branch; try done; by eapply IH. }
  intros m a m' H. unfold followDefs in H. inv_run. by eapply Hf.
Qed.

(** The head type [check] works with has the flag. *)
Lemma own_headtp_flag fuel hc e m ne ks h m' n :
  fresh m → followDefs hc m = Ok (e, m) → heap m !! e = Some ne → body ne = PC PI ks →
  own_headtp fuel hc m = Ok (h, m') → heap m' !! h = Some n → exmark n = true.
Proof.
  intros F Hfd He0 Eb0 H Hh. unfold own_headtp in H. rewrite (bind_run _ _ _ _ _ Hfd) in H.
  apply bind_ok in H as (u1 & m1 & H1 & H).
  apply bind_ok in H as (u2 & m2 & H2 & H). apply bind_ok in H as (b & m3 & H3 & H).
  assert (HT : trimmed m m2) by (apply inc_trimmed in H1; apply dec_trimmed in H2; by etrans).
  destruct (trimmed_flagged _ _ HT F) as (F2 & _ & _). unfold cloned, getexmark in H3.
  apply bind_ok in H3 as (ne2 & ? & [-> He]%load_inv & H3). inv_run. destruct (exmark ne2) eqn:Ex.
  - apply bind_ok in H as (h' & m4 & H4 & H). apply bind_ok in H as (u5 & m5 & H5 & H). inv_run.
    assert (body ne2 = PC PI ks) as Eb2.
    { destruct HT as [_ HT]. destruct (HT e ne2 He) as (? & ? & -> & _). congruence. }
    destruct (clone_pi_flag _ _ _ _ _ _ _ F2 He Eb2 Ex H4) as (n4 & Hn4 & Hx4).
    apply dec_trimmed in H5 as [_ H5]. destruct (H5 h n Hh) as (? & ? & _ & ?). congruence.
  - inv_run. match goal with H : setcloned _ _ = Ok _ |- _ => apply setexmark_sets in H as (n' & ? & ?) end.
    congruence.
Qed.

Section first_arg.
Context {T : Type} {ST : SymTab T entry}.
Context (scc : ptr → list ptr → M mem ptr).

Lemma lm_same {A} (c : M mem A) : keeps eq c → keeps eq (lm (T:=T) c).
Proof. intros Hc. apply keeps_zoom. intros w a m H. apply Hc in H as <-. by destruct w. Qed.
Lemma load_same e : keeps eq (load e).
Proof. by intros m n m' [-> _]%load_inv. Qed.
Lemma getop_same e : keeps eq (lm (T:=T) (getop e)).
Proof. apply lm_same. pose proof load_same. unfold getop. keeps_tac. Qed.
Lemma kid_same e i : keeps eq (lm (T:=T) (kid e i)).
Proof. apply lm_same. pose proof load_same. unfold kid, kids_of. keeps_tac. Qed.

(** The flag of the head type is read after it was set.  [check] asks
    [get_free_in] whether the range of the head's type depends on its variable,
    but [own_headtp] has just set that very bit to say that the type is in use.
    So the answer is yes for the first argument of every application: the tail
    call that spares building an argument is never made for it, whether or not
    the type depends on it. *)
Theorem first_argument_always_built rec fuel p prev headtrm hc e h holes (w : world T) m ne ks dom c w' :
  fresh m → followDefs hc m = Ok (e, m) → heap m !! e = Some ne → body ne = PC PI ks →
  own_headtp fuel hc m = Ok (h, w_mem w) →
  app_step scc rec fuel p prev headtrm h holes w ≠ Ok (Tail dom c, w').
Proof.
  intros F Hfd He Eb Hown H. unfold app_step in H.
  apply bind_ok in H as (o & w1 & <-%getop_same & H). case_decide; [inv_run|].
  apply bind_ok in H as (var & w1 & <-%kid_same & H). apply bind_ok in H as (d & w1 & <-%kid_same & H).
  apply bind_ok in H as (range & w1 & <-%kid_same & H). apply bind_ok in H as (od & w1 & <-%getop_same & H).
  case_decide; [by inv_run|]. apply bind_ok in H as (b & w1 & Hb & H).
  apply zoom_ok in Hb as (s & Hb & ->). unfold get_free_in, getexmark in Hb. inv_run.
  match goal with H : load h _ = Ok _ |- _ => apply load_inv in H as [-> Hh] end.
  rewrite (own_headtp_flag _ _ _ _ _ _ _ _ _ F Hfd He Eb Hown Hh) in *.
  unfold app_arg in *. inv_branch; rewrite ?orb_true_r, ?andb_false_r in *; done.
Qed.
End first_arg.

(** A function from [mpz] to [mpz]: its range does not depend on its variable. *)
Definition plain_pi : mem :=
  Mem {[3%N := Node 3 false (PC MPZ [null]); 5%N := Node 2 false (PC PI [6; 3; 3; null]%N);
        6%N := Node 1 false (PSymS "x" null)]} 7 ∅ EmptyString false false 0 scc_none.

Lemma first_argument_always_built_witness :
  app_step no_scc (check no_scc 100) 10 against_mpz 0 null 5 []
    (set_mem (final (own_headtp 10 5) plain_pi) (reading "4)")) ≠ Ok (Tail 3%N None, started).
Proof.
  apply (first_argument_always_built no_scc (check no_scc 100) 10 against_mpz 0 null 5 5 5 []
           (set_mem (final (own_headtp 10 5) plain_pi) (reading "4)")) plain_pi
           (Node 2 false (PC PI [6; 3; 3; null]%N)) [6; 3; 3; null]%N 3%N None started); [|reflexivity..].
  intros a n Ha. unfold plain_pi in *. simpl in *.
  repeat (apply lookup_insert_Some in Ha as [[<- _]|[_ Ha]]; [lia|]).
  apply lookup_singleton_Some in Ha as [<- _]. lia.
Defined.
