(* ===== verification/Lockstep.v ===== *)
(** * Two runs in lockstep

    A relation between two runs of the program that differ only in what their
    writers were given, and one lemma per routine that says that both runs make
    the same step.  Writers.v uses it for runs with and without the options that
    ask for compiled code. *)

From Stdlib Require Import Ascii.
From stdpp Require Import base tactics list strings gmap numbers pretty.
From S2P Require Import Prelude SymTab Header Memory Expr Lexer World Code Run SccCode Check CheckFile.

(** A relation between what the writers of two runs have been given. *)
Class OutRel := out_rel : writers → writers → Prop.
Class OutLaws `{OutRel} := {
  out_scc s e o1 o2 : out_rel o1 o2 → out_rel (give_scc s e o1) (give_scc s e o2);
  out_symbol s t o1 o2 : out_rel o1 o2 → out_rel (give_symbol s t o1) (give_symbol s t o2)
}.

Section lockstep.
Context `{OR : OutRel, OL : !OutLaws}.
Context {T : Type} {ST : SymTab T entry}.

(** States that agree in all but the writers. *)
Record wsim (w1 : world T) (w2 : world T) : Prop := Wsim {
  ws_mem : w_mem w1 = w_mem w2;
  ws_lex : w_lex w1 = w_lex w2;
  ws_progs : progs w1 = progs w2;
  ws_stat : stat w1 = stat w2;
  ws_run : allow_run w1 = allow_run w2;
  ws_tail : tail_calls w1 = tail_calls w2;
  ws_big : big_check w1 = big_check w2;
  ws_holes : ascHoles w1 = ascHoles w2;
  ws_locals : local_sym_names w1 = local_sym_names w2;
  ws_out : out_rel (w_out w1) (w_out w2);
  ws_symbols : symbols w1 = symbols w2
}.

(** Results that agree: the same value and states that agree, or the same error. *)
Definition rsim {A} (r1 : result (A * world T)) (r2 : result (A * world T)) : Prop :=
  match r1, r2 with
  | Ok (a1, w1), Ok (a2, w2) => a1 = a2 ∧ wsim w1 w2
  | Err e1, Err e2 => e1 = e2
  | _, _ => False
  end.

Definition sim {A} (m1 : M (world T) A) (m2 : M (world T) A) : Prop :=
  ∀ w1 w2, wsim w1 w2 → rsim (m1 w1) (m2 w2).

Lemma sim_ret {A} (a : A) : sim (mret a) (mret a).
Proof. by intros w1 w2 H. Qed.
Lemma sim_throw {A} e : sim (throw (A:=A) e) (throw e).
Proof. by intros w1 w2 H. Qed.
Lemma sim_undefined {A} e : sim (undefined (A:=A) e) (undefined e).
Proof. by intros w1 w2 H. Qed.
Lemma sim_report {A} e : sim (report_error (A:=A) e) (report_error e).
Proof. by intros w1 w2 H. Qed.

Lemma sim_bind {A B} m1 m2 (f1 : A → M (world T) B) f2 :
  sim m1 m2 → (∀ a, sim (f1 a) (f2 a)) → sim (m1 ≫= f1) (m2 ≫= f2).
Proof.
  intros Hm Hf w1 w2 H. specialize (Hm w1 w2 H). unfold rsim, mbind, M_bind in *.
  destruct (m1 w1) as [[a1 v1]|], (m2 w2) as [[a2 v2]|]; try done.
  destruct Hm as [-> Hv]. by apply Hf.
Qed.
Lemma sim_fmap {A B} (f : A → B) m1 m2 : sim m1 m2 → sim (f <$> m1) (f <$> m2).
Proof. intros H. apply sim_bind; [done|]. intros a. apply sim_ret. Qed.
Lemma sim_when b m1 m2 : sim m1 m2 → sim (when b m1) (when b m2).
Proof. destruct b; [done|]. intros _. apply sim_ret. Qed.
Lemma sim_for_each {A} (f1 : A → M (world T) ()) f2 l :
  (∀ a, sim (f1 a) (f2 a)) → sim (for_each f1 l) (for_each f2 l).
Proof.
  intros Hf. induction l as [|a l IH]; [apply sim_ret|]. apply sim_bind; [apply Hf|by intros _].
Qed.

Lemma sim_map_m {A B} (f1 : A → M (world T) B) f2 l :
  (∀ a, sim (f1 a) (f2 a)) → sim (map_m f1 l) (map_m f2 l).
Proof.
  intros Hf. induction l as [|a l IH]; [apply sim_ret|]. apply sim_bind; [apply Hf|intros b].
  apply sim_bind; [done|]. intros bs. apply sim_ret.
Qed.

Lemma sim_lm {A} (c : M mem A) : sim (lm c) (lm c).
Proof.
  intros w1 w2 H. unfold rsim, lm, zoom. rewrite (ws_mem _ _ H). destruct (c (w_mem w2)) as [[a m]|]; [|done].
  split; [done|]. by destruct H; split.
Qed.
Lemma sim_lx {A} (c : M lex A) : sim (lx c) (lx c).
Proof.
  intros w1 w2 H. unfold rsim, lx, zoom. rewrite (ws_lex _ _ H). destruct (c (w_lex w2)) as [[a m]|]; [|done].
  split; [done|]. by destruct H; split.
Qed.

Lemma sim_gets {A} (f1 : world T → A) f2 :
  (∀ w1 w2, wsim w1 w2 → f1 w1 = f2 w2) → sim (gets f1) (gets f2).
Proof. intros Hf w1 w2 H. split; [by apply Hf|done]. Qed.
Lemma sim_modify f1 f2 :
  (∀ w1 w2, wsim w1 w2 → wsim (f1 w1) (f2 w2)) → sim (modify f1) (modify f2).
Proof. intros Hf w1 w2 H. split; [done|by apply Hf]. Qed.
Lemma sim_bind_get {B} (f1 : world T → M (world T) B) f2 :
  (∀ w1 w2, wsim w1 w2 → sim (f1 w1) (f2 w2)) → sim (get_st ≫= f1) (get_st ≫= f2).
Proof. intros Hf w1 w2 H. by apply (Hf w1 w2 H). Qed.

Lemma sim_symbols_get s : sim (symbols_get s) (symbols_get s).
Proof. apply sim_gets. intros w1 w2 H. by rewrite (ws_symbols _ _ H). Qed.
Lemma sim_symbols_insert s x : sim (symbols_insert s x) (symbols_insert s x).
Proof.
  intros w1 w2 H. unfold symbols_insert. rewrite (ws_symbols _ _ H).
  destruct (st_insert (symbols w2) s x) as [[o t]|]; [|done]. split; [done|]. by destruct H; split.
Qed.
Lemma sim_progs_get s : sim (progs_get s) (progs_get s).
Proof.
  intros w1 w2 H. unfold progs_get. rewrite (ws_progs _ _ H).
  destruct (progs w2 !! s); (split; [done|]); [done|]. destruct H; split; simpl; congruence || done.
Qed.
Lemma sim_get_stat f : sim (get_stat f) (get_stat f).
Proof. apply sim_gets. intros w1 w2 H. by rewrite (ws_stat _ _ H). Qed.
End lockstep.

Create HintDb sim.
#[export] Hint Resolve sim_ret sim_throw sim_undefined sim_report sim_lm sim_lx sim_symbols_get
  sim_symbols_insert sim_progs_get sim_get_stat : sim.

(** [sim_tac]: both sides make the same step. *)
Ltac sim_step :=
  lazymatch goal with
  | |- sim (get_st ≫= _) _ =>
      apply sim_bind_get; let H := fresh in intros ? ? H; rewrite ?(ws_tail _ _ H), ?(ws_big _ _ H)
  | |- sim (_ ≫= _) _ => apply sim_bind; [|intros ?]
  | |- sim (_ <$> _) _ => apply sim_fmap
  | |- sim (when _ _) _ => apply sim_when
  | |- sim (for_each _ _) _ => apply sim_for_each; intros ?
  | |- sim (map_m _ _) _ => apply sim_map_m; intros ?
  | |- sim (gets _) _ => apply sim_gets; intros ? ? []; simpl; congruence
  | |- sim (modify _) _ => apply sim_modify; intros ? ? []; split; simpl; congruence || done
  | |- sim (match ?x with _ => _ end) _ => destruct x
  | |- sim (let '_ := ?x in _) _ => destruct x
  end.
Ltac sim_tac := repeat first [solve [eauto 3 with sim nocore] | sim_step].

Section program.
Context `{OR : OutRel, OL : !OutLaws}.
Context {T : Type} {ST : SymTab T entry}.
Local Abbreviation W1 := (world T).
Local Abbreviation W2 := (world T).
Local Abbreviation same := (sim (T:=T)).

(** ** Code *)

Section read.
Context (rec1 : M W1 ptr) (rec2 : M W2 ptr) (Hrec : same rec1 rec2).

Lemma sim_restore_entries l : same (restore_entries l) (restore_entries l).
Proof. unfold restore_entries. sim_tac. Qed.
Hint Resolve sim_restore_entries : sim.
Lemma sim_read_ctor : same read_ctor read_ctor.
Proof. unfold read_ctor. sim_tac. Qed.
Lemma sim_read_pattern_vars steps pat : same (read_pattern_vars steps pat) (read_pattern_vars steps pat).
Proof. revert pat. induction steps; intros; simpl; sim_tac. Qed.
Hint Resolve sim_read_ctor sim_read_pattern_vars : sim.
Lemma sim_read_case : same (read_case rec1) (read_case rec2).
Proof. unfold read_case. sim_tac. Qed.
Hint Resolve sim_read_case : sim.

Lemma sim_do_loop steps ret : same (do_loop rec1 steps ret) (do_loop rec2 steps ret).
Proof. revert ret. induction steps; intros; simpl; sim_tac. Qed.
Lemma sim_match_loop steps : same (match_loop rec1 steps) (match_loop rec2 steps).
Proof. induction steps; simpl; sim_tac. Qed.
Lemma sim_app_loop steps ret : same (app_loop rec1 steps ret) (app_loop rec2 steps ret).
Proof. revert ret. induction steps; intros; simpl; sim_tac. Qed.
Hint Resolve sim_do_loop sim_match_loop sim_app_loop : sim.

Lemma sim_read_m : same (read_m rec1) (read_m rec2).
Proof.
  unfold read_m, read_m_a, read_m_p, read_mp_op, read_mp_if, read_mp_mul, read_m_default,
    read_match, read_markvar, read_args1, read_args2, read_args3, keyword. sim_tac.
Qed.
Hint Resolve sim_read_m : sim.
Lemma sim_read_paren : same (read_paren rec1) (read_paren rec2).
Proof.
  unfold read_paren, read_do, read_fail, read_let, read_neg, read_ifmarked, read_compare,
    keyword. sim_tac.
Qed.
Lemma sim_read_app pref : same (read_app rec1 pref) (read_app rec2 pref).
Proof. unfold read_app. sim_tac. Qed.
Lemma sim_read_ident : same read_ident read_ident.
Proof. unfold read_ident. sim_tac. Qed.
End read.

Hint Resolve sim_restore_entries sim_read_paren sim_read_app sim_read_ident : sim.
Lemma sim_read_code fuel : same (read_code fuel) (read_code fuel).
Proof. induction fuel; simpl; sim_tac. Qed.

Section check_code.
Context (rec1 : ptr → M W1 ptr) (rec2 : ptr → M W2 ptr) (Hrec : ∀ e, same (rec1 e) (rec2 e)).

Lemma sim_check_branches msg e i : same (check_branches rec1 msg e i) (check_branches rec2 msg e i).
Proof. unfold check_branches. sim_tac. Qed.
Lemma sim_is_data_type tp : same (is_data_type tp) (is_data_type tp).
Proof. unfold is_data_type, kind_of. sim_tac. Qed.
Lemma sim_is_num_type tp : same (is_num_type tp) (is_num_type tp).
Proof. unfold is_num_type. sim_tac. Qed.
Lemma sim_bind_pattern vars tp : same (bind_pattern vars tp) (bind_pattern vars tp).
Proof. revert tp. induction vars; intros; simpl; sim_tac. Qed.
Hint Resolve sim_check_branches sim_is_data_type sim_is_num_type sim_bind_pattern : sim.
Lemma sim_check_case c : same (check_case rec1 c) (check_case rec2 c).
Proof. unfold check_case. sim_tac. Qed.
Hint Resolve sim_check_case : sim.
Lemma sim_check_cases mtp cs : same (check_cases rec1 mtp cs) (check_cases rec2 mtp cs).
Proof. revert mtp. induction cs; intros; simpl; sim_tac. Qed.
End check_code.
Hint Resolve sim_check_branches sim_is_data_type sim_is_num_type sim_check_cases : sim.

Lemma sim_check_code fuel e : same (check_code fuel e) (check_code fuel e).
Proof.
  revert e. induction fuel; intros; simpl; [sim_tac|].
  unfold check_symbol, check_code_app, check_code_let, check_code_arith, check_code_neg,
    check_code_if, check_code_fail, check_code_markvar, check_code_ifmarked, check_code_compare,
    check_code_match. sim_tac.
Qed.
Hint Resolve sim_read_code sim_check_code : sim.

(** ** Terms *)

Context (scc : ptr → list ptr → M mem ptr).

Lemma sim_put_computed p tp : same (put_computed p tp) (put_computed p tp).
Proof. unfold put_computed. sim_tac. Qed.
Lemma sim_read_computed c : same (read_computed c) (read_computed c).
Proof. unfold read_computed. sim_tac. Qed.
Hint Resolve sim_put_computed sim_read_computed : sim.

Section check.
Context (rec1 : cargs → M W1 outcome) (rec2 : cargs → M W2 outcome).
Context (Hrec : ∀ p, same (rec1 p) (rec2 p)).

Lemma sim_check_pi fuel p : same (check_pi rec1 fuel p) (check_pi rec2 fuel p).
Proof. unfold check_pi. sim_tac. Qed.
Lemma sim_check_biglam p : same (check_biglam rec1 p) (check_biglam rec2 p).
Proof. unfold check_biglam. sim_tac. Qed.
Lemma sim_check_lambda p : same (check_lambda rec1 p) (check_lambda rec2 p).
Proof. unfold check_lambda, close_lambda. sim_tac. Qed.
Lemma sim_check_run fuel p : same (check_run rec1 fuel p) (check_run rec2 fuel p).
Proof. unfold check_run, code_result_type. sim_tac. Qed.
Lemma sim_check_ascription fuel p : same (check_ascription rec1 fuel p) (check_ascription rec2 fuel p).
Proof. unfold check_ascription. sim_tac. Qed.
Lemma sim_check_local_def p : same (check_local_def rec1 p) (check_local_def rec2 p).
Proof. unfold check_local_def. sim_tac. Qed.
Lemma sim_check_neg p : same (check_neg rec1 p) (check_neg rec2 p).
Proof. unfold check_neg. sim_tac. Qed.

Lemma sim_close_holes b holes : same (close_holes b holes) (close_holes b holes).
Proof. unfold close_holes. sim_tac. Qed.
Hint Resolve sim_close_holes : sim.
Lemma sim_app_step fuel p prev headtrm headtp holes :
  same (app_step scc rec1 fuel p prev headtrm headtp holes)
       (app_step scc rec2 fuel p prev headtrm headtp holes).
Proof. unfold app_step, app_tail, app_arg. sim_tac. Qed.
Hint Resolve sim_app_step : sim.
Lemma sim_app_args fuel steps p prev headtrm headtp holes :
  same (app_args scc rec1 fuel steps p prev headtrm headtp holes)
       (app_args scc rec2 fuel steps p prev headtrm headtp holes).
Proof. revert headtrm headtp holes. induction steps; intros; simpl; sim_tac. Qed.
Hint Resolve sim_app_args : sim.
Lemma sim_check_app fuel p c : same (check_app scc rec1 fuel p c) (check_app scc rec2 fuel p c).
Proof. unfold check_app, finish_app. sim_tac. Qed.
Hint Resolve sim_check_pi sim_check_biglam sim_check_lambda sim_check_run sim_check_ascription
  sim_check_local_def sim_check_neg sim_check_app : sim.
Lemma sim_check_paren fuel p : same (check_paren scc rec1 fuel p) (check_paren scc rec2 fuel p).
Proof. unfold check_paren. sim_tac. Qed.
End check.
Hint Resolve sim_check_paren : sim.

Lemma sim_check fuel p : same (check scc fuel p) (check scc fuel p).
Proof.
  revert p. induction fuel; intros; simpl; [sim_tac|].
  unfold check_hole, check_numeral, check_ident. sim_tac.
Qed.
Hint Resolve sim_check : sim.

(** ** Commands *)

Context (init1 : M W1 ()) (init2 : M W2 ()) (Hinit : same init1 init2).

Lemma sim_expect_chars s : same (expect_chars s) (expect_chars s).
Proof. induction s; simpl; unfold bad_command; sim_tac. Qed.
Lemma sim_replace_symbol id s tp : same (replace_symbol id s tp) (replace_symbol id s tp).
Proof. unfold replace_symbol. sim_tac. Qed.
Lemma sim_check_top fuel b : same (check_top scc fuel b) (check_top scc fuel b).
Proof. unfold check_top. sim_tac. Qed.
Lemma sim_refuse_kind tp : same (refuse_kind tp) (refuse_kind tp).
Proof. unfold refuse_kind. sim_tac. Qed.
Lemma sim_print_holes fuel : same (print_holes fuel) (print_holes fuel).
Proof. unfold print_holes. sim_tac. Qed.
Lemma sim_restore_locals : same restore_locals restore_locals.
Proof. unfold restore_locals. sim_tac. Qed.
Hint Resolve sim_expect_chars sim_replace_symbol sim_check_top sim_refuse_kind sim_print_holes
  sim_restore_locals : sim.

Lemma sim_read_params fuel steps : same (read_params scc fuel steps) (read_params scc fuel steps).
Proof. induction steps; simpl; unfold read_param, check_param_type; sim_tac. Qed.
Lemma sim_remove_params ps : same (remove_params ps) (remove_params ps).
Proof. unfold remove_params. sim_tac. Qed.
Hint Resolve sim_read_params sim_remove_params : sim.

Lemma sim_add_scc s e : same (add_scc s e) (add_scc s e).
Proof. apply sim_modify. intros ? ? []. split; simpl; try done. by apply out_scc. Qed.
Lemma sim_add_symbol s t : same (add_symbol s t) (add_symbol s t).
Proof. apply sim_modify. intros ? ? []. split; simpl; try done. by apply out_symbol. Qed.
Hint Resolve sim_add_scc sim_add_symbol : sim.
Lemma sim_command f fuel : same (command scc init1 f fuel) (command scc init2 f fuel).
Proof.
  unfold command, cmd_define, cmd_declare, cmd_check, cmd_opaque, cmd_run, cmd_program, bad_command.
  sim_tac.
Qed.
Hint Resolve sim_command : sim.
Lemma sim_commands f fuel steps : same (commands scc init1 f fuel steps) (commands scc init2 f fuel steps).
Proof. induction steps; simpl; sim_tac. Qed.
Hint Resolve sim_commands : sim.
(** Options that differ only in what is to be compiled. *)
Definition same_options (a1 a2 : args) : Prop :=
  files a1 = files a2 ∧ show_runs a1 = show_runs a2 ∧ no_tail_calls a1 = no_tail_calls a2 ∧
  do_run_scc a1 = do_run_scc a2.

Lemma sim_check_file f s a1 a2 fuel : same_options a1 a2 →
  same (check_file scc init1 f s a1 fuel) (check_file scc init2 f s a2 fuel).
Proof. intros (_ & E1 & E2 & E3). unfold check_file. rewrite E1, E2, E3. sim_tac. Qed.
Lemma sim_process_file fs a1 a2 fuel f : same_options a1 a2 →
  same (process_file scc init1 fs a1 fuel f) (process_file scc init2 fs a2 fuel f).
Proof. intros. unfold process_file. destruct (fs f); [by apply sim_check_file|sim_tac]. Qed.
Lemma sim_init : same init init.
Proof. unfold init. sim_tac. Qed.

Lemma sim_init_compiled_scc : same init_compiled_scc init_compiled_scc.
Proof. unfold init_compiled_scc, symbol. sim_tac. Qed.

Lemma wsim_start (o1 o2 : writers) : out_rel o1 o2 →
  wsim (T:=T) (set_out o1 world_start) (set_out o2 world_start).
Proof. by split. Qed.
End program.
