(* ===== verification/Writers.v ===== *)
(** * What the writers of compiled code do

    The writers only read: they leave the memory as it is and print their lines,
    so that asking for compiled code does not change what is checked.  The text
    they write is shown on programs of the signature sat.plf, against the code
    that is checked in as scccode.cpp. *)

From Stdlib Require Import Ascii.
From stdpp Require Import base tactics list strings gmap numbers pretty.
From S2P Require Import Prelude SymTab Trie Header Memory Expr SccWriter LibWriter Lexer World Code Run SccCode Check CheckFile Sample Frame Lockstep.

(** ** Readers *)

Section readers.
Context (R : relation mem) `{!PreOrder R}.

Lemma keeps_load e : keeps R (load e).
Proof. intros m n m' H. unfold load in H. case_decide; [done|]. destruct (heap m !! e); by simplify_eq. Qed.
Hint Resolve keeps_load : keeps.

Lemma keeps_getclass e : keeps R (getclass e).
Proof. unfold getclass. keeps_tac. Qed.
Lemma keeps_getop e : keeps R (getop e).
Proof. unfold getop. keeps_tac. Qed.
Lemma keeps_sym_name e : keeps R (sym_name e).
Proof. unfold sym_name. keeps_tac. Qed.
Lemma keeps_int_of e : keeps R (int_of e).
Proof. unfold int_of. keeps_tac. Qed.
Lemma keeps_kids_of e : keeps R (kids_of e).
Proof. unfold kids_of. keeps_tac. Qed.
Lemma keeps_kid_list ks : keeps R (kid_list ks).
Proof. unfold kid_list. keeps_tac. Qed.
Hint Resolve keeps_getclass keeps_getop keeps_kids_of keeps_kid_list keeps_int_of : keeps.
Lemma keeps_kid e i : keeps R (kid e i).
Proof. unfold kid. keeps_tac. Qed.
Lemma keeps_kids_list e : keeps R (kids_list e).
Proof. unfold kids_list. keeps_tac. Qed.
Lemma keeps_get_num e : keeps R (get_num e).
Proof. unfold get_num. keeps_tac. Qed.
Hint Resolve keeps_kid keeps_kids_list : keeps.
Lemma keeps_follow_defs fuel e : keeps R (follow_defs fuel e).
Proof. revert e. induction fuel; intros; simpl; keeps_tac. Qed.
Hint Resolve keeps_follow_defs : keeps.
Lemma keeps_followDefs e : keeps R (followDefs e).
Proof. unfold followDefs. keeps_tac. Qed.
Hint Resolve keeps_followDefs : keeps.
Lemma keeps_collect_args e b : keeps R (collect_args e b).
Proof. unfold collect_args. keeps_tac. Qed.
Lemma keeps_descend fuel o i b e : keeps R (descend fuel o i b e).
Proof. revert e. induction fuel; intros; simpl; keeps_tac. Qed.
Hint Resolve keeps_descend : keeps.
Lemma keeps_get_head e b : keeps R (get_head e b).
Proof. unfold get_head. keeps_tac. Qed.
Lemma keeps_any_kid f ks : (∀ k, keeps R (f k)) → keeps R (any_kid f ks).
Proof. intros. induction ks; simpl; keeps_tac. Qed.
Hint Resolve keeps_any_kid : keeps.
Lemma keeps_free_in fuel e x : keeps R (free_in fuel e x).
Proof. revert e. induction fuel; intros; simpl; keeps_tac. Qed.
End readers.
#[export] Hint Resolve keeps_load keeps_getclass keeps_getop keeps_sym_name keeps_kid keeps_kids_list
  keeps_get_num keeps_collect_args keeps_get_head keeps_free_in : keeps.

(** ** The writers only print *)

(** The same memory, with more text printed. *)
Definition printed (m m' : mem) : Prop := ∃ s, m' = set_cout (cout m +:+ s) m.

#[global] Instance printed_preorder : PreOrder printed.
Proof.
  split.
  - intros m. exists EmptyString. destruct m. unfold set_cout. simpl. by rewrite string_app_empty_r.
  - intros m1 m2 m3 [s1 ->] [s2 ->]. exists (s1 +:+ s2). unfold set_cout. simpl.
    by rewrite string_app_assoc.
Qed.

Lemma print_out_printed s : keeps printed (print_out s).
Proof. apply keeps_modify. intros m. by exists s. Qed.
#[export] Hint Resolve print_out_printed : keeps.

Definition wr_printed (w w' : writer) : Prop := printed (wr_mem w) (wr_mem w').
#[global] Instance wr_printed_preorder : PreOrder wr_printed.
Proof. unfold wr_printed. split; [by intros ?|]. intros w1 w2 w3. apply transitivity. Qed.

Lemma rd_printed {A} (c : M mem A) : keeps printed c → keeps wr_printed (rd c).
Proof. intros H. apply keeps_zoom. intros w a s Hs. exact (H _ _ _ Hs). Qed.
Lemma same_mem_printed w w' : wr_mem w' = wr_mem w → wr_printed w w'.
Proof. unfold wr_printed. by intros ->. Qed.
#[local] Hint Resolve same_mem_printed : core.
Lemma emit_printed s : keeps wr_printed (emit s).
Proof. apply keeps_modify. auto. Qed.
Lemma fresh_expr_printed : keeps wr_printed fresh_expr.
Proof. intros w a w' [= _ <-]. auto. Qed.
Lemma fresh_args_printed : keeps wr_printed fresh_args.
Proof. intros w a w' [= _ <-]. auto. Qed.
Lemma fresh_rnum_printed : keeps wr_printed fresh_rnum.
Proof. intros w a w' [= _ <-]. auto. Qed.
Lemma push_var_printed s : keeps wr_printed (push_var s).
Proof. apply keeps_modify. auto. Qed.
Lemma add_global_sym_printed s : keeps wr_printed (add_global_sym s).
Proof. apply keeps_modify. intros w. case_decide; auto. Qed.
Lemma reset_names_printed : keeps wr_printed reset_names.
Proof. apply keeps_modify. auto. Qed.
Lemma take_os_printed : keeps wr_printed take_os.
Proof. intros w a w' [= _ <-]. auto. Qed.
#[export] Hint Extern 1 (keeps wr_printed (rd _)) => apply rd_printed; keeps_tac : keeps.
#[export] Hint Resolve emit_printed fresh_expr_printed fresh_args_printed fresh_rnum_printed push_var_printed
  add_global_sym_printed reset_names_printed take_os_printed : keeps.

Section scc_printed.
Context (progs : list (string * ptr)) (curr : string).
Context (rec : ptr → nat → string → Z → M writer ()) (Hrec : ∀ e i r o, keeps wr_printed (rec e i r o)).

Lemma line_printed i s : keeps wr_printed (line i s).
Proof. apply emit_printed. Qed.
Lemma indent_printed i : keeps wr_printed (indent i).
Proof. apply emit_printed. Qed.
Lemma write_dec_printed s i : keeps wr_printed (write_dec s i).
Proof. apply line_printed. Qed.
Lemma is_var_printed s : keeps wr_printed (is_var s).
Proof. unfold is_var. keeps_tac. Qed.
Hint Resolve line_printed indent_printed write_dec_printed is_var_printed : keeps.
Lemma write_expr_printed e i o : keeps wr_printed (write_expr rec e i o).
Proof. unfold write_expr. keeps_tac. Qed.
Hint Resolve write_expr_printed : keeps.
Lemma write_args_printed ks i b o : keeps wr_printed (write_args rec ks i b o).
Proof. revert b. induction ks; intros; simpl; keeps_tac. Qed.
Lemma write_pattern_printed s xs b i : keeps wr_printed (write_pattern s xs b i).
Proof. revert b. induction xs; intros; simpl; keeps_tac. Qed.
Hint Resolve write_args_printed write_pattern_printed : keeps.
Lemma write_cases_printed h s args ks a i r : keeps wr_printed (write_cases rec h s args ks a i r).
Proof. revert a. induction ks; intros; simpl; keeps_tac. Qed.
Hint Resolve write_cases_printed : keeps.
Lemma write_app_printed e i r : keeps wr_printed (write_app progs rec e i r).
Proof. unfold write_app. keeps_tac. Qed.
Lemma write_match_printed e i r : keeps wr_printed (write_match curr rec e i r).
Proof. unfold write_match. keeps_tac. Qed.
Lemma write_do_printed ks i r : keeps wr_printed (write_do rec ks i r).
Proof. induction ks as [|k [|k' ks] IH]; simpl; keeps_tac. Qed.
Lemma write_let_printed e i r : keeps wr_printed (write_let rec e i r).
Proof. unfold write_let. keeps_tac. Qed.
Lemma write_branches_printed c k1 k2 i r : keeps wr_printed (write_branches rec c k1 k2 i r).
Proof. unfold write_branches. keeps_tac. Qed.
Lemma write_number_printed t c n s r i : keeps wr_printed (write_number t c n s r i).
Proof. unfold write_number. keeps_tac. Qed.
Hint Resolve write_branches_printed write_number_printed : keeps.
Lemma write_marks_printed e i r :
  keeps wr_printed (write_markvar rec e i r) ∧ keeps wr_printed (write_ifmarked rec e i r) ∧
  keeps wr_printed (write_compare rec e i r) ∧ keeps wr_printed (write_neg rec e i r).
Proof. unfold write_markvar, write_ifmarked, write_compare, write_neg. split_and!; keeps_tac. Qed.
Lemma write_numbers_printed o e i r :
  keeps wr_printed (write_arith rec o e i r) ∧ keeps wr_printed (write_if rec o e i r).
Proof. unfold write_arith, write_if. split_and!; keeps_tac. Qed.
Lemma write_case_printed e i r o : keeps wr_printed (write_case rec e i r o).
Proof. unfold write_case. keeps_tac. Qed.
Lemma write_sym_printed s i r : keeps wr_printed (write_sym s i r).
Proof. unfold write_sym. keeps_tac. Qed.
End scc_printed.
#[export] Hint Resolve line_printed indent_printed write_expr_printed write_app_printed write_match_printed
  write_do_printed write_let_printed write_case_printed write_sym_printed : keeps.
#[export] Hint Resolve write_dec_printed is_var_printed : keeps.

Lemma write_code_printed progs curr fuel e i r o :
  keeps wr_printed (write_code progs curr fuel e i r o).
Proof.
  revert e i r o. induction fuel as [|fuel IH]; intros; simpl; [keeps_tac|].
  pose proof (λ e, write_marks_printed _ IH e i r) as Hm. pose proof (λ o e, write_numbers_printed _ IH o e i r) as Hn.
  keeps_tac; first [apply Hm|apply Hn].
Qed.
#[export] Hint Resolve write_code_printed : keeps.

Section files_printed.
Context (progs : list (string * ptr)) (debug : bool).

Lemma prog_vars_printed n : keeps wr_printed (prog_vars progs n).
Proof. unfold prog_vars. keeps_tac. Qed.
Hint Resolve prog_vars_printed : keeps.
Lemma print_vars_printed b vs : keeps wr_printed (print_vars b vs).
Proof. revert b. induction vs; intros; simpl; keeps_tac. Qed.
Hint Resolve print_vars_printed : keeps.
Lemma write_function_header_printed n b d : keeps wr_printed (write_function_header progs n b d).
Proof. unfold write_function_header. keeps_tac. Qed.
Hint Resolve write_function_header_printed : keeps.
Lemma write_h_printed ns : keeps wr_printed (write_h progs ns).
Proof. unfold write_h. keeps_tac. Qed.
Lemma write_functions_printed fuel n ns : keeps wr_printed (write_functions progs debug fuel n ns).
Proof. revert n. induction ns; intros; simpl; unfold write_function; keeps_tac. Qed.
Lemma write_dispatch_printed b ns : keeps wr_printed (write_dispatch progs b ns).
Proof. revert b. induction ns; intros; simpl; keeps_tac. Qed.
Hint Resolve write_h_printed write_functions_printed write_dispatch_printed : keeps.
Lemma write_scc_printed fuel : keeps wr_printed (write_scc progs debug fuel).
Proof. unfold write_scc, write_cpp. keeps_tac. Qed.

Lemma scc_files_printed fuel : keeps printed (scc_files progs debug fuel).
Proof.
  intros m r m'. unfold scc_files. destruct (write_scc _ _ _ _) as [[r' w]|] eqn:E; [|done].
  intros [= <- <-]. exact (write_scc_printed _ _ _ _ E).
Qed.
End files_printed.

Lemma mark_given_printed fuel t args : keeps printed (mark_given fuel t args).
Proof. induction args; simpl; keeps_tac. Qed.
#[export] Hint Resolve mark_given_printed : keeps.
Lemma rule_args_printed fuel n c args : keeps printed (rule_args fuel n c args).
Proof. revert c args. induction n; intros; simpl; keeps_tac. Qed.
#[export] Hint Resolve rule_args_printed : keeps.
Lemma write_symbol_printed fuel s t l : keeps printed (write_symbol fuel s t l).
Proof. unfold write_symbol, arg_names. keeps_tac. Qed.
#[export] Hint Resolve write_symbol_printed : keeps.
Lemma write_symbols_printed fuel syms l : keeps printed (write_symbols fuel syms l).
Proof. revert l. induction syms; intros; simpl; keeps_tac. Qed.
#[export] Hint Resolve write_symbols_printed : keeps.
Lemma lib_files_printed fuel syms : keeps printed (lib_files fuel syms).
Proof. unfold lib_files. keeps_tac. Qed.
#[export] Hint Resolve scc_files_printed lib_files_printed : keeps.

(** ** Asking for compiled code *)

Definition compile_flags : list string := ["--compile-scc"; "--compile-scc-debug"; "--compile-lib"].

(** The command line without the options that ask for compiled code. *)
Definition without_compile (argv : list string) : list string :=
  filter (λ f, f ∉ compile_flags) argv.

(** The writers of the first run are null pointers. *)
#[local] Instance quiet_out : OutRel := λ o _, scw o = None ∧ lw o = None.
#[local] Instance quiet_out_laws : OutLaws.
Proof. by split; intros ? ? ? ? [E1 E2]; split; simpl; rewrite ?E1, ?E2. Qed.

(** The options of the second run; those of the first do not ask for code. *)
Definition quiet_options (a1 a2 : args) : Prop :=
  same_options a1 a2 ∧ compile_scc a1 = false ∧ compile_lib a1 = false.

Lemma set_flag_compile f a1 a2 :
  f ∈ compile_flags → quiet_options a1 a2 → quiet_options a1 (set_flag f a2) ∧ is_help f = false.
Proof.
  intros Hf H. destruct a2. unfold compile_flags in Hf.
  repeat (apply elem_of_cons in Hf as [->|Hf]; [by split; [destruct H as [(?&?&?&?) ?]|]|]).
  by apply not_elem_of_nil in Hf.
Qed.

Lemma set_flag_other f a1 a2 :
  f ∉ compile_flags → quiet_options a1 a2 → quiet_options (set_flag f a1) (set_flag f a2).
Proof.
  intros Hf [(E1 & E2 & E3 & E4) [E5 E6]]. destruct a1, a2; simpl in *; subst. unfold set_flag.
  repeat (case_decide; [subst; first
    [exfalso; apply Hf; apply (bool_decide_unpack _); vm_compute; exact I|by split_and!]|]).
  by split_and!.
Qed.

Lemma parse_args_quiet argv a1 a2 :
  quiet_options a1 a2 →
  option_Forall2 quiet_options (parse_args (without_compile argv) a1) (parse_args argv a2).
Proof.
  unfold without_compile. revert a1 a2. induction argv as [|f argv IH]; intros a1 a2 H; [by constructor|].
  rewrite filter_cons. simpl. case_decide as Hf.
  - simpl. destruct (is_help f); [constructor|]. by apply IH, set_flag_other.
  - destruct (set_flag_compile f a1 a2 Hf H) as [H' ->]. by apply IH.
Qed.

(** States that differ in nothing but what the writers were given. *)
Definition checked_alike {T} (w w' : world T) : Prop :=
  w_mem w' = w_mem w ∧ w_lex w' = w_lex w ∧ symbols w' = symbols w ∧ progs w' = progs w ∧
  stat w' = stat w ∧ local_sym_names w' = local_sym_names w.

(** A state after files were written: at most more was printed. *)
Definition only_printed {T} (w w' : world T) : Prop :=
  printed (w_mem w) (w_mem w') ∧ w_lex w' = w_lex w ∧ symbols w' = symbols w ∧ progs w' = progs w ∧
  stat w' = stat w ∧ local_sym_names w' = local_sym_names w.

#[global] Instance only_printed_preorder T : PreOrder (only_printed (T:=T)).
Proof.
  split; [by intros w|]. intros w1 w2 w3 (?&?&?&?&?&?) (?&?&?&?&?&?). split_and!; [by etrans|congruence..].
Qed.

Section undisturbed.
Context {T : Type} {ST : SymTab T entry}.
Context (scc : ptr → list ptr → M mem ptr).
Context (init1 : M (world T) ()) (Hinit : sim init1 init1).

Lemma wsim_alike (w1 w2 : world T) : wsim w1 w2 → checked_alike w1 w2.
Proof. by intros []. Qed.

Lemma write_scc_files_prints debug fuel : keeps (only_printed (T:=T)) (write_scc_files debug fuel).
Proof.
  intros w [] w' H. unfold write_scc_files in H. rewrite (bind_run _ _ w _ w eq_refl) in H.
  destruct (scw (w_out w)) as [ps|]; [|by injection H as <-].
  unfold lm, zoom, mbind, M_bind in H. destruct (scc_files ps debug fuel (w_mem w)) as [[r m]|e] eqn:E; simpl in H; [|done].
  pose proof (scc_files_printed _ _ _ _ _ _ E). by injection H as <-.
Qed.

Lemma write_lib_files_prints fuel : keeps (only_printed (T:=T)) (write_lib_files fuel).
Proof.
  intros w [] w' H. unfold write_lib_files in H. rewrite (bind_run _ _ w _ w eq_refl) in H.
  destruct (lw (w_out w)) as [syms|]; [|by injection H as <-].
  unfold lm, zoom, mbind, M_bind in H. destruct (lib_files fuel syms (w_mem w)) as [[r m]|e] eqn:E; simpl in H; [|done].
  pose proof (lib_files_printed _ _ _ _ _ E). by injection H as <-.
Qed.

Lemma write_files_prints a fuel : keeps (only_printed (T:=T)) (write_files a fuel).
Proof.
  unfold write_files. destruct (files a); [by apply keeps_ret, _|].
  apply keeps_bind; [apply _|apply write_scc_files_prints|intros _; apply write_lib_files_prints].
Qed.

(** Without writers there is nothing to write. *)
Lemma write_files_quiet a fuel (w : world T) : scw (w_out w) = None → lw (w_out w) = None → write_files a fuel w = Ok ((), w).
Proof.
  intros E1 E2. unfold write_files. destruct (files a); [done|].
  unfold write_scc_files, write_lib_files, gets, mbind, M_bind. rewrite E1. simpl. by rewrite E2.
Qed.

Lemma wsim_set_out o1 o2 (w1 w2 : world T) :
  out_rel o1 o2 → wsim w1 w2 → wsim (set_out o1 w1) (set_out o2 w2).
Proof. intros Ho []. by split. Qed.

Lemma sim_check_files fs a1 a2 fuel : quiet_options a1 a2 → sim (check_files scc init1 fs a1 fuel) (check_files scc init1 fs a2 fuel).
Proof.
  intros [Hs [E1 E2]]. unfold check_files. apply sim_bind; [apply sim_init|intros _].
  pose proof (λ f, sim_process_file scc init1 init1 Hinit fs a1 a2 fuel f Hs) as Hf.
  destruct Hs as [<- _]. destruct (files a1) as [|f fl]; [apply Hf|]. rewrite E1, E2.
  apply sim_bind; [apply sim_modify; intros; by apply wsim_set_out|intros _]. by apply sim_for_each.
Qed.
End undisturbed.

(** C26: Asking for compiled code does not change what is checked, whatever the
    command line.  The run with the options [--compile-scc], [--compile-scc-debug]
    and [--compile-lib] checks all files first: with the error with which the run
    without them ends, or with a state that is the final state of that run in
    memory, reader, symbols, programs and constants.  Only then, and from that
    state, the writers run; all that they change is what has been printed. *)
Theorem compiling_does_not_interfere n fs argv fuel :
  let init1 := init_compiled_scc (T:=trie entry) in
  let plain_run := main (run_compiled_scc n) init1 fs (without_compile argv) fuel world_start in
  let run := main (run_compiled_scc n) init1 fs argv fuel world_start in
  match parse_args argv args_init with
  | None => plain_run = Ok ((), world_start) ∧ run = Ok ((), world_start)
  | Some a =>
      match check_files (run_compiled_scc n) init1 fs a fuel world_start with
      | Err e => plain_run = Err e ∧ run = Err e
      | Ok (_, u) => ∃ w, plain_run = Ok ((), w) ∧ checked_alike w u ∧ run = write_files a fuel u ∧
          ∀ w', run = Ok ((), w') → only_printed u w'
      end
  end.
Proof.
  intros init1 plain_run run. unfold plain_run, run, main. assert (quiet_options args_init args_init) as Hq by done.
  destruct (parse_args_quiet argv _ _ Hq) as [a1 a2 Ha|]; [|done].
  pose proof (sim_check_files (run_compiled_scc n) init1 sim_init_compiled_scc fs a1 a2 fuel Ha world_start world_start) as H.
  assert (wsim (T:=trie entry) world_start world_start) as Hw by (by apply (wsim_start (Writers None None []) (Writers None None []))).
  specialize (H Hw). unfold rsim in H.
  destruct (check_files _ _ fs a2 fuel world_start) as [[[] u]|e] eqn:E2, (check_files _ _ fs a1 fuel world_start) as [[[] w]|e'] eqn:E1; try done.
  - destruct H as [_ H]. exists w. rewrite (bind_run _ _ _ _ _ E1), (bind_run _ _ _ _ _ E2). destruct (ws_out _ _ H) as [O1 O2].
    split; [by apply write_files_quiet|]. split; [by apply wsim_alike|]. split; [done|]. intros w' Hrun. by apply (write_files_prints a2 fuel u () w').
  - subst. by rewrite (bind_err _ _ _ _ E1), (bind_err _ _ _ _ E2).
Qed.

(** ** Names *)

(** Letters, digits and the underscore. *)
Definition is_ident_char (a : ascii) : bool :=
  let c := char_val a in
  ((48 <=? c) && (c <=? 57) || (65 <=? c) && (c <=? 90) || (97 <=? c) && (c <=? 122) || (c =? 95))%Z.

(** The characters an identifier of a signature can have. *)
Definition is_graphic (a : ascii) : bool := ((33 <=? char_val a) && (char_val a <=? 126))%Z.

Fixpoint all_chars (f : ascii → bool) (s : string) : bool :=
  match s with EmptyString => true | String a s => f a && all_chars f s end.

Lemma var_char_ident a : is_graphic a = true → is_ident_char (var_char a) = true.
Proof. by destruct a as [[] [] [] [] [] [] [] []]; vm_compute. Qed.

(** The names the writers make for C++ consist of letters, digits and
    underscores, for every name of graphic characters.  A name that consists of
    these already is kept; but different names can be mapped to the same one, so
    that two variables of a program can become one. *)
Theorem get_var_name_ident s :
  all_chars is_graphic s = true →
  all_chars is_ident_char (get_var_name s) = true ∧
  (all_chars is_ident_char s = true → get_var_name s = s) ∧
  get_var_name "c1'" = get_var_name "c1h".
Proof.
  intros H. split_and!; [|clear H|done].
  - induction s as [|a s IH]; [done|]. simpl in *. apply andb_true_iff in H as [Ha Hs].
    by rewrite var_char_ident, IH.
  - induction s as [|a s IH]; [done|]. simpl. intros [Ha Hs]%andb_true_iff. rewrite IH by done. f_equal.
    revert Ha. by destruct a as [[] [] [] [] [] [] [] []]; vm_compute.
Qed.

Lemma get_var_name_ident_witness :
  all_chars is_ident_char (get_var_name "a+b_1") = true.
Proof. exact (proj1 (get_var_name_ident "a+b_1" eq_refl)). Defined.

(** ** The text *)

(** Single quotes stand for double quotes. *)
Fixpoint quotes (s : string) : string :=
  match s with
  | EmptyString => EmptyString
  | String a s => String (if decide (a = "'"%char) then ascii_of_nat 34 else a) (quotes s)
  end.

(** The file that is written under a name by [lfsc --compile-scc sat.plf]. *)
Definition compiled (name contents : string) : option string :=
  match main no_scc (mret ()) (λ _, Some contents) ["--compile-scc"%string; "sat.plf"%string] 200
    (world_start (T:=table)) with
  | Ok (_, w) => snd <$> head (filter (λ f : string * string, f.1 = name) (written (w_out w)))
  | Err _ => None
  end.

(** The part of sat.plf that has to do with [append]. *)
Definition append_plf : string :=
  "(declare lit type)
   (declare clause type)
   (declare cln clause)
   (declare clc (! x lit (! c clause clause)))
   (program append ((c1 clause) (c2 clause)) clause
     (match c1 (cln c2) ((clc l c1') (clc l (append c1' c2)))))".

(** [f_append], as it is checked in. *)
Definition f_append_text : string := quotes
"Expr* f_append( Expr* c1, Expr* c2 ){
   Expr* e0;
   c1->inc();
   Expr* e1 = c1->followDefs()->get_head();
   Expr* e2;
   e2 = e_cln;
   e2->inc();
   Expr* e3;
   e3 = e_clc;
   e3->inc();
   if( e1==e2 ){
      e0 = c2;
      e0->inc();
   }else if( e1==e3 ){
      Expr* l = ((CExpr*)c1->followDefs())->kids[1];
      Expr* c1h = ((CExpr*)c1->followDefs())->kids[2];
      l->inc();
      Expr* e4;
      c1h->inc();
      c2->inc();
      e4 = f_append( c1h, c2 );
      c1h->dec();
      c2->dec();
      static Expr* e5;
      e5 = e_clc;
      e5->inc();
      e0 = new CExpr( APP, e5, l, e4 );
   }else{
      std::cout << 'Could not find match for expression in function f_append ';
      e1->print( std::cout );
      std::cout << std::endl;
      exit( 1 );
   }
   c1->dec();
   e2->dec();
   e3->dec();
   return e0;
}
".

(** The rest of the file for this signature. *)
Definition append_start : string := quotes
"#include 'scccode.h'

Expr* e_cln;
Expr* e_clc;
Expr* e_append;

void init_compiled_scc(){
   e_cln = symbols->get('cln').first;
   e_clc = symbols->get('clc').first;
   e_append = progs['append'];
}

Expr* run_compiled_scc( Expr* p, std::vector< Expr* >& args ){
   if( p==e_append ){
      return f_append( args[0], args[1] );
   }else{
      return NULL;
   }
}

".

(** The writer gives the code that is checked in.  On the clauses of sat.plf
    with the program [append] it writes a scccode.cpp with the constants, the
    initialisation, the dispatch and the very text of [f_append] in the
    repository. *)
Theorem append_is_compiled :
  compiled "scccode.cpp" append_plf = Some (append_start +:+ f_append_text +:+ nl).
Proof. vm_compute. reflexivity. Qed.

(** The code written for [(mp_div n m)]. *)
Definition div_plf : string := "(program quot ((n mpz) (m mpz)) mpz (mp_div n m))".

(** Whether [s] occurs in a text. *)
Definition has_text (s : string) (text : option string) : bool :=
  match text with Some t => if String.index 0 s t is Some _ then true else false | None => false end.

(** The compiled form of an integer division multiplies.  For
    [(mp_div n m)] the function [mpz_mul] is called and no division of integers;
    for rationals the function is [mpq_div]. *)
Theorem division_is_compiled_to_multiplication :
  let text := compiled "scccode.cpp" div_plf in
  has_text "mpz_mul( rnum0, ((IntExpr*)n->followDefs())->n, ((IntExpr*)m->followDefs())->n);" text = true ∧
  has_text "mpq_div( rnum0, ((RatExpr*)n->followDefs())->n, ((RatExpr*)m->followDefs())->n);" text = true ∧
  has_text "mpz_div" text = false ∧ has_text "mpz_cdiv" text = false.
Proof. vm_compute. split_and!; reflexivity. Qed.

(** ** The arguments of a constructor *)

Section rule_args.
Context (fuel : nat) (m : mem).

(** An argument of a rule: its variable, and its type or, for a side condition
    (then the flag is set), the pattern of its result. *)
Record arg := Arg { arg_var : ptr; arg_run : bool; arg_type : ptr }.

(** [pis c l d]: the type [c] has the arguments [l] and ends in [d]. *)
Inductive pis : ptr → list arg → ptr → Prop :=
  | pis_end c o : getop c m = Ok (o, m) → o ≠ PI → pis c [] c
  | pis_arg c x t r l d o :
      getop c m = Ok (PI, m) → kid c 0 m = Ok (x, m) → kid c 1 m = Ok (t, m) → kid c 2 m = Ok (r, m) →
      getop t m = Ok (o, m) → o ≠ RUN → pis r l d → pis c (Arg x false t :: l) d
  | pis_run c x t p r l d :
      getop c m = Ok (PI, m) → kid c 0 m = Ok (x, m) → kid c 1 m = Ok (t, m) → kid c 2 m = Ok (r, m) →
      getop t m = Ok (RUN, m) → kid t 1 m = Ok (p, m) → pis r l d → pis c (Arg x true p :: l) d.

Definition given_by (x t : ptr) : bool := match free_in fuel t x m with Ok (b, _) => b | Err _ => false end.

(** [x] occurs in none of the types and patterns. *)
Definition not_given (l : list arg) (x : ptr) : bool := forallb (λ a, negb (given_by x (arg_type a))) l.

(** The arguments of the constructor; those that are asked for are not given by
    the type of a later argument. *)
Fixpoint asked (l : list arg) : list (ptr * bool) :=
  match l with
  | [] => []
  | a :: l => if arg_run a then asked l else (arg_var a, not_given (a :: l) (arg_var a)) :: asked l
  end.

Definition still (l : list arg) (args : list (ptr * bool)) : list (ptr * bool) :=
  (λ a : ptr * bool, (a.1, a.2 && not_given l a.1)) <$> args.

Lemma reads {A} (c : M mem A) a m' : keeps eq c → c m = Ok (a, m') → m' = m.
Proof. intros H E. symmetry. exact (H _ _ _ E). Qed.

Lemma mark_given_still t args args' m' :
  mark_given fuel t args m = Ok (args', m') →
  m' = m ∧ args' = (λ a : ptr * bool, (a.1, a.2 && negb (given_by a.1 t))) <$> args.
Proof.
  revert args' m'. induction args as [|[x need] args IH]; intros args' m' H; [by injection H as <- <-|].
  apply bind_ok in H as (b & m1 & Hb & H).
  assert (m1 = m ∧ need && negb b = need && negb (given_by x t)) as [-> Eb].
  { destruct need; [|by apply ret_ok in Hb as [_ <-]].
    pose proof (reads _ _ _ (keeps_free_in _ _ _ _) Hb) as ->. unfold given_by. by rewrite Hb. }
  apply bind_ok in H as (rest & m2 & Hr & H). destruct (IH _ _ Hr) as [-> ->].
  apply ret_ok in H as [<- <-]. simpl. by rewrite Eb.
Qed.

Lemma still_cons a l acc :
  still l ((λ b : ptr * bool, (b.1, b.2 && negb (given_by b.1 (arg_type a)))) <$> acc) = still (a :: l) acc.
Proof.
  unfold still. rewrite <-list_fmap_compose. apply list_fmap_ext. intros i [x b] _. simpl.
  by rewrite andb_assoc.
Qed.

Lemma rule_args_still n c acc args d m' :
  rule_args fuel n c acc m = Ok ((args, d), m') →
  ∃ l, pis c l d ∧ args = still l acc ++ asked l.
Proof.
  revert c acc m'. induction n as [|n IH]; intros c acc m' H; [done|].
  apply bind_ok in H as (o & m1 & Ho & H). pose proof (reads _ _ _ (keeps_getop _ _) Ho) as ->.
  case_decide as Hpi; [subst o|].
  - apply bind_ok in H as (k1 & m1 & Hk1 & H). pose proof (reads _ _ _ (keeps_kid _ _ _) Hk1) as ->.
    apply bind_ok in H as (o1 & m1 & Ho1 & H). pose proof (reads _ _ _ (keeps_getop _ _) Ho1) as ->.
    apply bind_ok in H as (x & m1 & Hx & H). pose proof (reads _ _ _ (keeps_kid _ _ _) Hx) as ->.
    apply bind_ok in H as (t & m1 & Ht & H).
    apply bind_ok in H as (args1 & m2 & Ha & H). apply bind_ok in H as (k2 & m3 & Hk2 & H).
    destruct (decide (o1 = RUN)) as [->|Hrun].
    + pose proof (reads _ _ _ (keeps_kid _ _ _) Ht) as ->. apply mark_given_still in Ha as [-> ->].
      pose proof (reads _ _ _ (keeps_kid _ _ _) Hk2) as ->. destruct (IH _ _ _ H) as (l & Hl & ->).
      exists (Arg x true t :: l). split; [by econstructor|]. by rewrite (still_cons (Arg x true t)).
    + apply ret_ok in Ht as [<- <-]. apply mark_given_still in Ha as [-> ->].
      pose proof (reads _ _ _ (keeps_kid _ _ _) Hk2) as ->. destruct (IH _ _ _ H) as (l & Hl & ->).
      exists (Arg x false k1 :: l). split; [by econstructor|].
      rewrite (still_cons (Arg x false k1)). unfold still. rewrite fmap_app, <-app_assoc. done.
  - injection H as <- <- <-. exists []. split; [by econstructor|].
    unfold still. simpl. rewrite app_nil_r, <-(list_fmap_id acc) at 1.
    apply list_fmap_ext. intros i [x b] _. simpl. by rewrite andb_true_r.
Qed.
End rule_args.

(** Which arguments the constructor of a rule asks for.  The arguments are
    the variables of the pis of the rule's type in their order, those of side
    conditions left out; one is asked for just when it occurs neither in its own
    nor in a later argument's type, nor in the pattern of a later side
    condition.  The others are filled with holes. *)
Theorem rule_args_spec fuel n c args d m m' :
  rule_args fuel n c [] m = Ok ((args, d), m') →
  ∃ l, pis m c l d ∧ args = asked fuel m l.
Proof. intros H. by apply rule_args_still in H. Qed.

(** [(! c clause (! u (holds c) (holds c)))], at 7. *)
Definition rule_mem : mem :=
  Mem {[1%N := Node 1 false (PSymS "c" 0); 2%N := Node 1 false (PSymS "clause" 0);
        3%N := Node 1 false (PSymS "u" 0); 4%N := Node 1 false (PSymS "holds" 0);
        5%N := Node 2 false (PC APP [4; 1; 0]%N); 6%N := Node 1 false (PC PI [3; 5; 5; 0]%N);
        7%N := Node 1 false (PC PI [1; 2; 6; 0]%N)]} 8 ∅ EmptyString false false 0 scc_none.

Lemma rule_args_spec_witness :
  ∃ l, pis rule_mem 7 l 5 ∧ [(1%N, false); (3%N, true)] = asked 10 rule_mem l.
Proof.
  apply (rule_args_spec 10 10 7%N [(1%N, false); (3%N, true)] 5%N rule_mem rule_mem).
  vm_compute. reflexivity.
Defined.
