(* ===== verification/TypeSpec.v ===== *)
(** * The types of side-condition code

    [typed] states the typing rules of the side-condition language over code in
    memory, with an environment of symbol-table entries.  [check_code] follows
    them: what it accepts has the type it returns, and it leaves the memory as it
    was and every name with its entry. *)

From stdpp Require Import base tactics list strings gmap numbers.
From S2P Require Import Prelude SymTab Header Memory Expr Lexer World Code Frame Sample Writers.

(** An environment: the entry of a name, with the type in second place. *)
Definition env : Type := string → entry.
Definition upd (s : string) (x : entry) (E : env) : env := λ s', if decide (s = s') then x else E s'.

Lemma upd_back s x E s' : upd s (E s) (upd s x E) s' = E s'.
Proof. unfold upd. by repeat case_decide; subst. Qed.

Section typing.
Context (m : mem) (st : statics).

(** A computation that only reads gives [a]. *)
Local Notation "c ⇓ a" := (c m = Ok (a, m)) (at level 70).

Definition numeric (t : ptr) : Prop := t = statMpz st ∨ t = statMpq st.
Definition base (t : ptr) : Prop := is_base_type t ⇓ true.

(** A base type whose own classifier ends in [type]. *)
Definition data (E : env) (t : ptr) : Prop :=
  ∃ s, base t ∧ sym_name t ⇓ s ∧ isType (statType st) (E s).2 ⇓ true.

(** The type of a function: that of a program, or of a symbol. *)
Inductive head_type (E : env) (h : ptr) : ptr → Prop :=
  | head_prog t : getop h ⇓ PROG → kid h 0 ⇓ t → head_type E h t
  | head_sym o s : getop h ⇓ o → o ≠ PROG → sym_name h ⇓ s → head_type E h (E s).2.

(** The variable of a pi does not occur in its range, or the flag says so. *)
Definition not_dependent (cur : ptr) : Prop :=
  get_free_in cur ⇓ false ∨
  ∃ fuel m1 range var, clearexmark cur m = Ok ((), m1) ∧ kid cur 2 m1 = Ok (range, m1) ∧
    kid cur 0 m1 = Ok (var, m1) ∧ free_in fuel range var m1 = Ok (false, m1).

(** The part of an argument's type that is compared: the head of an application. *)
Inductive compared (a : ptr) : ptr → Prop :=
  | compared_app a' : getop a ⇓ APP → kid a 0 ⇓ a' → compared a a'
  | compared_other o : getop a ⇓ o → o ≠ APP → compared a a.

(** A function of type [cur] applied to arguments of the given types. *)
Inductive applies : ptr → list ptr → ptr → Prop :=
  | applies_nil cur o : getop cur ⇓ o → o ≠ PI → applies cur [] cur
  | applies_cons cur a dom range ts t :
      getop cur ⇓ PI → compared a dom → kid cur 1 ⇓ dom → not_dependent cur → kid cur 2 ⇓ range →
      applies range ts t → applies cur (a :: ts) t.

(** The variables of a pattern get the domains of the constructor's type. *)
Inductive binds : env → list ptr → ptr → env → Prop :=
  | binds_nil E tp : binds E [] tp E
  | binds_cons E v vs tp pi s dom range E' :
      followDefs tp ⇓ pi → getop pi ⇓ PI → sym_name v ⇓ s → kid pi 1 ⇓ dom → kid pi 2 ⇓ range →
      binds (upd s (null, dom) E) vs range E' → binds E (v :: vs) tp E'.

Inductive typed : env → ptr → ptr → Prop :=
  | T_int E e n z : load e ⇓ n → body n = PInt z → typed E e (statMpz st)
  | T_rat E e n q : load e ⇓ n → body n = PRat q → typed E e (statMpq st)
  | T_sym E e n s v : load e ⇓ n → body n = PSymS s v → (E s).2 ≠ null → typed E e (E s).2
  | T_num E e o : getop e ⇓ o → o = MPZ ∨ o = MPQ → typed E e (statType st)
  | T_do E e k0 k1 t0 t : getop e ⇓ DO → kid e 0 ⇓ k0 → kid e 1 ⇓ k1 →
      typed E k0 t0 → typed E k1 t → typed E e t
  | T_let E e x s k1 k2 t1 t : getop e ⇓ LET → kid e 0 ⇓ x → sym_name x ⇓ s →
      kid e 1 ⇓ k1 → kid e 2 ⇓ k2 →
      typed E k1 t1 → typed (upd s (null, t1) E) k2 t → typed E e t
  | T_arith E e o k0 k1 t : getop e ⇓ o → o = ADD ∨ o = MUL ∨ o = DIV → kid e 0 ⇓ k0 → kid e 1 ⇓ k1 →
      typed E k0 t → typed E k1 t → numeric t → typed E e t
  | T_neg E e k0 t : getop e ⇓ NEG → kid e 0 ⇓ k0 → typed E k0 t → numeric t → typed E e t
  | T_if E e o k0 k1 k2 t0 t : getop e ⇓ o → o = IFNEG ∨ o = IFZERO →
      kid e 0 ⇓ k0 → kid e 1 ⇓ k1 → kid e 2 ⇓ k2 → typed E k0 t0 → numeric t0 →
      typed E k1 t → typed E k2 t → base t → typed E e t
  | T_fail E e t : getop e ⇓ FAIL → kid e 0 ⇓ t → typed E t (statType st) → typed E e t
  | T_markvar E e k t : getop e ⇓ MARKVAR → kid e 1 ⇓ k → typed E k t → data E t → typed E e t
  | T_ifmarked E e k1 k2 k3 t1 t : getop e ⇓ IFMARKED → kid e 1 ⇓ k1 → kid e 2 ⇓ k2 → kid e 3 ⇓ k3 →
      typed E k1 t1 → data E t1 → typed E k2 t → typed E k3 t → base t → typed E e t
  | T_compare E e k0 k1 k2 k3 t0 t1 t : getop e ⇓ COMPARE →
      kid e 0 ⇓ k0 → kid e 1 ⇓ k1 → kid e 2 ⇓ k2 → kid e 3 ⇓ k3 →
      typed E k0 t0 → base t0 → typed E k1 t1 → base t1 →
      typed E k2 t → typed E k3 t → base t → typed E e t
  | T_app E e k0 h ks ts tp pi t : getop e ⇓ APP → kid e 0 ⇓ k0 → followDefs k0 ⇓ h → kids_list e ⇓ ks →
      Forall2 (typed E) (drop 1 ks) ts → head_type E h tp → followDefs tp ⇓ pi → getop pi ⇓ PI →
      applies pi ts t → typed E e t
  | T_match E e k0 ks t0 t : getop e ⇓ MATCH → kid e 0 ⇓ k0 → typed E k0 t0 → data E t0 →
      kids_list e ⇓ ks → drop 1 ks ≠ [] → Forall (λ c, typed_case E c t) (drop 1 ks) → typed E e t
with typed_case : env → ptr → ptr → Prop :=
  | C_default E c o t : getop c ⇓ o → o ≠ CASE → typed E c t → typed_case E c t
  | C_constant E c pat b t : getop c ⇓ CASE → kid c 0 ⇓ pat → getclass pat ⇓ SYMS_EXPR → kid c 1 ⇓ b →
      typed E b t → typed_case E c t
  | C_pattern E c pat cls ctor vars s b E' t : getop c ⇓ CASE → kid c 0 ⇓ pat → getclass pat ⇓ cls →
      cls ≠ SYMS_EXPR → collect_args pat true ⇓ (ctor, vars) → sym_name ctor ⇓ s →
      binds E vars (E s).2 E' → kid c 1 ⇓ b → typed E' b t → typed_case E c t.

(** What the reader sees to: matches have cases, and (this it does not see to)
    the variables of a pattern are different. *)
Record code_ok : Prop := CodeOk {
  co_statics : statType st ≠ null ∧ statMpz st ≠ null ∧ statMpq st ≠ null;
  co_match e ks : getop e ⇓ MATCH → kids_list e ⇓ ks → drop 1 ks ≠ [];
  co_linear c pat ctor vars names :
    getop c ⇓ CASE → kid c 0 ⇓ pat → collect_args pat true ⇓ (ctor, vars) →
    map_m sym_name vars ⇓ names → NoDup names
}.
End typing.

(** ** Runs with an environment *)

Section runs.
Context {T : Type} `{!SymTab T entry, !SymTabLaws T entry}.
Context (m : mem) (st : statics).
Local Abbreviation W := (world T).
Local Notation "c ⇓ a" := (c m = Ok (a, m)) (at level 70).

(** The state has the memory [m] and the entries of [E]. *)
Record at_env (E : env) (w : W) : Prop := AtEnv {
  ae_mem : w_mem w = m;
  ae_stat : stat w = st;
  ae_wf : st_wf (symbols w);
  ae_get s : st_get (symbols w) s = E s
}.

(** A run from [E] ends, if it ends normally, at [E'] with a result in [Q]. *)
Definition gives {A} (E : env) (c : M W A) (E' : env) (Q : A → Prop) : Prop :=
  ∀ w a w', at_env E w → c w = Ok (a, w') → at_env E' w' ∧ Q a.

Lemma gives_ret {A} E (a : A) (Q : A → Prop) : Q a → gives E (mret a) E Q.
Proof. intros H w b w' Hw [<- <-]%ret_ok. done. Qed.
Lemma gives_bind {A B} E E1 E2 (c : M W A) (f : A → M W B) P Q :
  gives E c E1 P → (∀ a, P a → gives E1 (f a) E2 Q) → gives E (c ≫= f) E2 Q.
Proof.
  intros Hc Hf w b w' Hw (a & w1 & Ha & Hb)%bind_ok. destruct (Hc _ _ _ Hw Ha) as [Hw1 HP]. by eapply Hf.
Qed.
Lemma gives_report {A} E E' msg (Q : A → Prop) : gives E (report_error msg) E' Q.
Proof. by intros w a w' _ H%report_error_ok. Qed.
Lemma gives_throw {A} E E' e (Q : A → Prop) : gives E (throw e) E' Q.
Proof. by intros w a w' _ H%throw_ok. Qed.
Lemma gives_mono {A} E E' E1 (c : M W A) (P Q : A → Prop) :
  gives E c E1 P → (∀ s, E1 s = E' s) → (∀ a, P a → Q a) → gives E c E' Q.
Proof.
  intros H HE HQ w a w' Hw Ha. destruct (H _ _ _ Hw Ha) as [[] HP]. split; [|by apply HQ].
  split; try done. intros s. by rewrite <-HE.
Qed.

(** Reading the memory. *)
Lemma gives_lm {A} E (c : M mem A) : keeps eq c → gives E (lm c) E (λ a, c ⇓ a).
Proof.
  intros Hk w a w' [Hm Hs Hwf Hg] (m' & Ha & ->)%zoom_ok. rewrite Hm in Ha.
  pose proof (Hk _ _ _ Ha) as <-. split; [|done]. by split.
Qed.

Lemma gives_get_stat E f : gives E (get_stat f) E (λ a, a = f st).
Proof. intros w a w' Hw [-> ->]%gets_ok. by rewrite (ae_stat _ _ Hw). Qed.
Lemma gives_symbols_get E s : gives E (symbols_get s) E (λ a, a = E s).
Proof. intros w a w' Hw [-> ->]%gets_ok. by rewrite (ae_get _ _ Hw). Qed.
Lemma gives_symbols_insert E s x : gives E (symbols_insert s x) (upd s x E) (λ a, a = E s).
Proof.
  intros w a w' [Hm Hs Hwf Hg]. unfold symbols_insert.
  destruct (st_insert (symbols w) s x) as [[old t]|] eqn:I; [|done]. apply st_insert_ok in I as (-> & Hw' & Hg'); [|done].
  simpl in *. intros [= <- <-]. split; [|done]. split; try done. intros s'. simpl. rewrite Hg'. unfold upd. by rewrite Hg.
Qed.
End runs.

(** [gives_tac]: one step of a run; what was read stays as a hypothesis.  The
    database [gives] has the operations on the whole state. *)
Create HintDb gives.
Ltac gives_step :=
  lazymatch goal with
  | |- gives _ _ _ (_ ≫= _) _ _ => eapply gives_bind; [gives_step|let H := fresh "H" in intros ? H; cbv beta in H]
  | |- gives _ _ _ (lm _) _ _ => apply gives_lm; keeps_tac
  | |- gives _ _ _ (get_stat _) _ _ => apply gives_get_stat
  | |- gives _ _ _ (symbols_get _) _ _ => apply gives_symbols_get
  | |- gives _ _ _ (symbols_insert _ _) _ _ => apply gives_symbols_insert
  | |- gives _ _ _ (report_error _) _ _ => apply gives_report
  | |- gives _ _ _ (throw _) _ _ => apply gives_throw
  | |- gives _ _ _ (if decide ?P then _ else _) _ _ => destruct (decide P)
  | |- gives _ _ _ (if negb ?b then _ else _) _ _ => destruct b; simpl
  | |- gives _ _ _ (if ?b then _ else _) _ _ => destruct b
  | |- gives _ _ _ (mret _) _ _ => apply gives_ret
  | |- gives _ _ _ _ _ _ => solve [eauto with gives nocore]
  end.
Ltac gives_tac := repeat (gives_step; subst).

Section readers.
Context (R : relation mem) `{!PreOrder R}.
Lemma keeps_sym_val e : keeps R (sym_val e).
Proof. unfold sym_val. keeps_tac. Qed.
Hint Resolve keeps_sym_val : keeps.
Lemma keeps_is_base_type t : keeps R (is_base_type t).
Proof. unfold is_base_type. keeps_tac. Qed.
Lemma keeps_is_type fuel s t : keeps R (is_type fuel s t).
Proof. revert t. induction fuel; intros; simpl; keeps_tac. Qed.
Hint Resolve keeps_is_type : keeps.
Lemma keeps_isType s t : keeps R (isType s t).
Proof. unfold isType. keeps_tac. Qed.
Lemma keeps_get_free_in e : keeps R (get_free_in e).
Proof. unfold get_free_in, getexmark. keeps_tac. Qed.
End readers.
#[export] Hint Resolve keeps_is_base_type keeps_isType keeps_get_free_in keeps_followDefs : keeps.

Section cases.
Context {T : Type} `{!SymTab T entry, !SymTabLaws T entry}.
Context (m : mem) (st : statics) (Hok : code_ok m st).
Local Abbreviation W := (world T).
Local Notation "c ⇓ a" := (c m = Ok (a, m)) (at level 70).
Local Abbreviation has_type E e := (λ t, typed m st E e t ∧ t ≠ null).

(** *** Tests *)

Lemma loads_nonnull e n m' : load e m = Ok (n, m') → e ≠ null.
Proof. intros H ->. done. Qed.
Lemma getop_live e o m' : getop e m = Ok (o, m') → e ≠ null.
Proof. intros (n & m1 & H & _)%bind_ok. by eapply loads_nonnull. Qed.
Lemma kid_nonnull e i k : kid e i ⇓ k → e ≠ null.
Proof. intros (ks & m1 & (n & m2 & H & _)%bind_ok & _)%bind_ok. by eapply loads_nonnull. Qed.
Lemma typed_nonnull E e t : typed m st E e t → e ≠ null.
Proof. destruct 1; eauto using loads_nonnull, getop_live. Qed.
Lemma base_nonnull t : base m t → t ≠ null.
Proof. intros (c & m1 & (n & m2 & H & _)%bind_ok & _)%bind_ok. by eapply loads_nonnull. Qed.
Lemma numeric_nonnull t : numeric st t → t ≠ null.
Proof. destruct (co_statics _ _ Hok) as (? & ? & ?). by intros [->| ->]. Qed.

Lemma gives_is_num_type E t :
  gives m st E (is_num_type (T:=T) t) E (λ b, b = true → numeric st t).
Proof. unfold is_num_type. gives_tac. by intros ?%bool_decide_eq_true. Qed.

Lemma gives_is_data_type E t :
  gives m st E (is_data_type (T:=T) t) E (λ b, b = true → data m st E t).
Proof.
  unfold is_data_type, kind_of.
  eapply (gives_bind _ _ _ E _ _ _ (λ k, k = null ∨ ∃ s, base m t ∧ sym_name t ⇓ s ∧ k = (E s).2)).
  - gives_tac; eauto 6.
  - intros k Hk. eapply gives_bind; [gives_step|]. intros ? ->.
    eapply gives_mono; [gives_step|done|]. intros b Hb ->.
    destruct Hk as [->|(s & Ht & Hs & ->)]; [|by exists s].
    apply bind_ok in Hb as (m1 & m2 & _ & Hb). destruct (co_statics _ _ Hok) as (Hn & _). simpl in Hb.
    by rewrite decide_False in Hb.
Qed.

(** *** Applications *)

Lemma set_clear_exmark e n m1 m2 m3 :
  load e ⇓ n → exmark n = true → clearexmark e m = Ok ((), m1) → m2 = m1 → setexmark e m2 = Ok ((), m3) →
  m3 = m.
Proof.
  intros Hn Hx Hc -> Hs. unfold clearexmark in Hc. rewrite (bind_run _ _ _ _ _ Hn) in Hc.
  injection Hc as <-. unfold setexmark in Hs. unfold load in Hn. destruct (decide (e = null)); [done|].
  destruct (heap m !! e) as [n'|] eqn:He; [|done]. injection Hn as <-.
  unfold load, store, modify, mbind, M_bind in Hs. simpl in Hs.
  rewrite decide_False, lookup_insert_eq in Hs by done. injection Hs as <-.
  destruct m as [h ?]. simpl in *. unfold set_heap. simpl. f_equal. rewrite insert_insert_eq.
  apply insert_id. rewrite He. destruct n'; simpl in *. by subst.
Qed.

(** The loop leaves the flag of a pi as it found it. *)
Lemma check_dependent fuel cur b m1 :
  get_free_in cur ⇓ b →
  (if b then
     calc_free_in fuel cur;;
     b' ← get_free_in cur;
     if (b' : bool) then report_error "A dependently typed function is being applied in code."
     else setexmark cur
   else mret ()) m = Ok ((), m1) →
  m1 = m ∧ not_dependent m cur.
Proof.
  intros Hb H. destruct b; [|apply ret_ok in H as [_ <-]; by split; [|left]].
  apply bind_ok in H as ([] & m2 & Hc & H). unfold calc_free_in in Hc.
  apply bind_ok in Hc as ([] & m3 & Hcl & Hc). apply bind_ok in Hc as (range & m4 & Hr & Hc).
  pose proof (keeps_kid eq _ _ _ _ _ Hr) as <-. apply bind_ok in Hc as (var & m4 & Hv & Hc).
  pose proof (keeps_kid eq _ _ _ _ _ Hv) as <-. apply bind_ok in Hc as (f & m4 & Hf & Hc).
  pose proof (keeps_free_in eq _ _ _ _ _ _ Hf) as <-.
  apply bind_ok in Hb as (n & m4 & Hn & [Hx ->]%ret_ok).
  apply bind_ok in H as (b' & m5 & Hb' & H). pose proof (keeps_get_free_in eq _ _ _ _ Hb') as <-.
  destruct b'; [by apply report_error_ok in H|].
  assert (f = false) as ->.
  { destruct f; [|done]. exfalso. cbn in Hc. apply bind_ok in Hc as (n1 & m4 & Hn1 & [= <-]).
    apply bind_ok in Hb' as (n2 & m5 & Hn2 & [E _]%ret_ok). unfold load in Hn2. simpl in Hn2.
    case_decide; [done|]. rewrite lookup_insert_eq in Hn2. by simplify_eq/=. }
  apply ret_ok in Hc as [_ <-].
  split; [by eapply set_clear_exmark|]. right. by exists fuel, m3, range, var.
Qed.

Lemma check_app_args_applies fuel ts cur t m' :
  check_app_args fuel ts cur m = Ok (t, m') → m' = m ∧ applies m cur ts t ∧ t ≠ null.
Proof.
  revert cur m'. induction ts as [|a ts IH]; intros cur m' H; simpl in H;
    apply bind_ok in H as (o & m1 & Ho & H); pose proof (keeps_getop eq _ _ _ _ Ho) as <-;
    case_decide as Hpi; try by apply report_error_ok in H.
  - apply ret_ok in H as [<- <-]. split_and!; [done|by econstructor|by eapply getop_live].
  - subst. apply bind_ok in H as (oa & m1 & Hoa & H). pose proof (keeps_getop eq _ _ _ _ Hoa) as <-.
    apply bind_ok in H as (a' & m1 & Ha & H).
    assert (m1 = m ∧ compared m a a') as [-> Hcmp].
    { case_decide; [subst; pose proof (keeps_kid eq _ _ _ _ _ Ha) as <-; by split; [|constructor]|].
      apply ret_ok in Ha as [<- <-]. split; [done|by econstructor]. }
    apply bind_ok in H as (dom & m1 & Hd & H). pose proof (keeps_kid eq _ _ _ _ _ Hd) as <-.
    destruct (decide (a' ≠ dom)) as [|Hne]; [by apply report_error_ok in H|]. apply dec_stable in Hne as <-.
    apply bind_ok in H as (b & m1 & Hb & H). pose proof (keeps_get_free_in eq _ _ _ _ Hb) as <-.
    apply bind_ok in H as ([] & m1 & Hdep & H). destruct (check_dependent _ _ _ _ Hb Hdep) as [-> Hnd].
    apply bind_ok in H as (range & m1 & Hr & H). pose proof (keeps_kid eq _ _ _ _ _ Hr) as <-.
    destruct (IH _ _ H) as (-> & Ht & Hn). split_and!; [done|by econstructor|done].
Qed.
Lemma gives_check_app_args E fuel ts cur :
  gives m st E (lm (T:=T) (check_app_args fuel ts cur)) E (λ t, applies m cur ts t ∧ t ≠ null).
Proof.
  intros w t w' [Hm Hs Hwf Hg] (m' & Ha & ->)%zoom_ok. rewrite Hm in Ha.
  apply check_app_args_applies in Ha as (-> & Ha). split; [|done]. by split.
Qed.
Hint Resolve gives_is_num_type gives_is_data_type : gives.

(** *** The forms of code *)

Section forms.
Context (rec : ptr → M W ptr) (Hrec : ∀ E e, gives m st E (rec e) E (has_type E e)).

Lemma same_base (b : bool) (t1 t2 : ptr) : ¬ (b = false ∨ t1 ≠ t2) → b = true ∧ t1 = t2.
Proof. intros H. destruct b; [|tauto]. split; [done|]. apply dec_stable. tauto. Qed.

Lemma gives_check_branches E msg e i :
  gives m st E (check_branches rec msg e i) E
    (λ t, ∃ k1 k2, kid e i ⇓ k1 ∧ kid e (S i) ⇓ k2 ∧ typed m st E k1 t ∧ typed m st E k2 t ∧ base m t).
Proof.
  unfold check_branches. gives_tac. destruct_and!.
  match goal with H : ¬ (_ ∨ _) |- _ => apply same_base in H as [-> ->] end. eauto 10.
Qed.
Hint Resolve gives_check_branches : gives.

Ltac branches :=
  eapply gives_mono; [apply gives_check_branches|done|]; cbv beta; intros t (? & ? & ? & ? & ? & ? & ?).

Lemma gives_map_rec E l : gives m st E (map_m rec l) E (λ ts, Forall2 (typed m st E) l ts).
Proof.
  induction l as [|e l IH]; simpl; [apply gives_ret; constructor|]. gives_tac. destruct_and!. by constructor.
Qed.
Hint Resolve gives_map_rec : gives.

Lemma gives_arith E e o :
  getop e ⇓ o → o = ADD ∨ o = MUL ∨ o = DIV → gives m st E (check_code_arith rec e) E (has_type E e).
Proof.
  intros He Ho. unfold check_code_arith. gives_tac. destruct_and!.
  match goal with H : ¬ (_ ≠ _) |- _ => apply dec_stable in H; subst end.
  split; [|done]. eapply T_arith; eauto.
Qed.
Lemma gives_neg E e : getop e ⇓ NEG → gives m st E (check_code_neg rec e) E (has_type E e).
Proof. intros He. unfold check_code_neg. gives_tac. destruct_and!. split; [|done]. eapply T_neg; eauto. Qed.
Lemma gives_if E e o :
  getop e ⇓ o → o = IFNEG ∨ o = IFZERO → gives m st E (check_code_if rec e) E (has_type E e).
Proof.
  intros He Ho. unfold check_code_if. gives_tac. destruct_and!. branches.
  split; [|by apply base_nonnull]. eapply T_if; eauto.
Qed.
Lemma gives_fail E e : getop e ⇓ FAIL → gives m st E (check_code_fail rec e) E (has_type E e).
Proof.
  intros He. unfold check_code_fail. gives_tac. destruct_and!.
  match goal with H : ¬ (_ ≠ _) |- _ => apply dec_stable in H; subst end.
  split; [by apply T_fail|]. by eapply typed_nonnull.
Qed.
Lemma gives_markvar E e : getop e ⇓ MARKVAR → gives m st E (check_code_markvar rec e) E (has_type E e).
Proof.
  intros He. unfold check_code_markvar. gives_tac. destruct_and!. split; [|done]. eapply T_markvar; eauto.
Qed.
Lemma gives_ifmarked E e : getop e ⇓ IFMARKED → gives m st E (check_code_ifmarked rec e) E (has_type E e).
Proof.
  intros He. unfold check_code_ifmarked. gives_tac. destruct_and!. branches.
  split; [|by apply base_nonnull]. eapply T_ifmarked; eauto.
Qed.
Lemma gives_compare E e : getop e ⇓ COMPARE → gives m st E (check_code_compare rec e) E (has_type E e).
Proof.
  intros He. unfold check_code_compare. gives_tac. destruct_and!. branches.
  split; [|by apply base_nonnull]. eapply T_compare; eauto.
Qed.
Lemma gives_let E e : getop e ⇓ LET → gives m st E (check_code_let rec e) E (has_type E e).
Proof.
  intros He. unfold check_code_let. gives_tac. destruct_and!.
  eapply (gives_mono _ _ _ _ _ _ (eq _)); [by apply gives_ret|apply upd_back|]. intros ? <-.
  split; [|done]. eapply T_let; eauto.
Qed.

Lemma gives_app E e fuel : getop e ⇓ APP → gives m st E (check_code_app rec fuel e) E (has_type E e).
Proof.
  intros He. unfold check_code_app. gives_step.
  eapply gives_bind; [gives_step|]. cbv beta. intros h Hh. do 3 gives_step.
  eapply (gives_bind _ _ _ E _ _ _ (head_type m E h)).
  { destruct (decide _) as [->|].
    - eapply gives_mono; [gives_step|done|]. cbv beta. by constructor.
    - gives_tac. by econstructor. }
  intros tp Htp. do 4 (gives_step; subst; try done).
  match goal with H : ¬ (_ ≠ PI) |- _ => apply dec_stable in H; subst end.
  eapply gives_mono; [apply gives_check_app_args|done|]. intros t [Ht Hn].
  split; [|done]. eapply T_app; eauto.
Qed.

(** *** Matches *)

(** The entries of the pattern's variables are kept, if they are different. *)
Lemma bind_pattern_binds vars : ∀ E tp w prevs w',
  at_env m st E w → bind_pattern vars tp w = Ok (prevs, w') →
  ∃ E' names, at_env m st E' w' ∧ binds m E vars tp E' ∧ map_m sym_name vars ⇓ names ∧
    (NoDup names → prevs = (λ s, (s, E s)) <$> names ∧ ∀ s, s ∉ names → E' s = E s).
Proof.
  induction vars as [|v vars IH]; intros E tp w prevs w' Hw H.
  { apply ret_ok in H as [<- <-]. exists E, []. split_and!; [done|constructor|done|done]. }
  simpl in H. apply bind_ok in H as (pi & w1 & Hpi & H).
  destruct (gives_lm m st E _ (keeps_followDefs eq tp) _ _ _ Hw Hpi) as [Hw1 Hfd].
  apply bind_ok in H as (o & w2 & Ho & H).
  destruct (gives_lm m st E _ (keeps_getop eq pi) _ _ _ Hw1 Ho) as [Hw2 Hop].
  destruct (decide (o ≠ PI)) as [|Hpi'%dec_stable]; [by apply report_error_ok in H|subst o].
  apply bind_ok in H as (s & w3 & Hs & H).
  destruct (gives_lm m st E _ (keeps_sym_name eq v) _ _ _ Hw2 Hs) as [Hw3 Hnm].
  apply bind_ok in H as (dom & w4 & Hd & H).
  destruct (gives_lm m st E _ (keeps_kid eq pi 1) _ _ _ Hw3 Hd) as [Hw4 Hdom].
  apply bind_ok in H as (prev & w5 & Hp & H).
  destruct (gives_symbols_insert m st E s (null, dom) _ _ _ Hw4 Hp) as [Hw5 ->].
  apply bind_ok in H as (range & w6 & Hr & H).
  destruct (gives_lm m st _ _ (keeps_kid eq pi 2) _ _ _ Hw5 Hr) as [Hw6 Hrange].
  apply bind_ok in H as (prevs' & w7 & Hb & [<- <-]%ret_ok).
  destruct (IH _ _ _ _ _ Hw6 Hb) as (E' & names & Hw7 & Hbs & Hnames & Hrest).
  exists E', (s :: names). split_and!; [done|by econstructor| |].
  - simpl. by rewrite (bind_run _ _ _ _ _ Hnm), (bind_run _ _ _ _ _ Hnames).
  - intros Hnd'. inversion Hnd' as [|? ? Hs' Hnd]; subst. destruct (Hrest Hnd) as [-> HE]. split.
    + simpl. f_equal. apply list_fmap_ext. intros i s' Hi%list_elem_of_lookup_2. unfold upd.
      by rewrite decide_False by (by intros ->).
    + intros s' [Hne Hni]%not_elem_of_cons. rewrite HE by done. unfold upd. by rewrite decide_False.
Qed.

Lemma gives_restore E prevs :
  gives m st E (restore_entries (T:=T) prevs) (foldl (λ E '(s, x), upd s x E) E prevs) (λ _, True).
Proof.
  unfold restore_entries. revert E. induction prevs as [|[s x] prevs IH]; intros E; simpl; [by apply gives_ret|].
  eapply (gives_bind _ _ _ _ _ _ _ (λ _, True)); [gives_step; by apply gives_ret|]. intros _ _. apply IH.
Qed.

Lemma restored_env E E' names s :
  (∀ s, s ∉ names → E' s = E s) →
  foldl (λ E '(s, x), upd s x E) E' ((λ s, (s, E s)) <$> names) s = E s.
Proof.
  revert E'. induction names as [|s1 names IH]; intros E' H; simpl; [by apply H; intros ?%not_elem_of_nil|].
  apply IH. intros s' Hs'. unfold upd. case_decide; [by subst|]. apply H. by intros [->|]%elem_of_cons.
Qed.

Lemma gives_case E c :
  gives m st E (check_case rec c) E (λ t, typed_case m st E c t ∧ t ≠ null).
Proof.
  unfold check_case. eapply gives_bind; [gives_step|]. cbv beta. intros o Ho.
  destruct (decide (o ≠ CASE)) as [|Hc%dec_stable].
  { eapply gives_mono; [apply Hrec|done|]. intros t [Ht Hn]. split; [by econstructor|done]. }
  subst o. eapply gives_bind; [gives_step|]. cbv beta. intros pat Hpat.
  eapply gives_bind; [gives_step|]. cbv beta. intros cls Hcls.
  destruct (decide (cls = SYMS_EXPR)) as [->|Hne].
  { gives_step. eapply gives_mono; [apply Hrec|done|]. intros t [Ht Hn]. split; [by econstructor|done]. }
  eapply gives_bind; [gives_step|]. cbv beta. intros [ctor vars] Hargs.
  eapply gives_bind; [gives_step|]. cbv beta. intros s Hs.
  eapply gives_bind; [gives_step|]. intros p ->.
  intros w t w' Hw (prevs & w1 & Hb & H)%bind_ok.
  destruct (bind_pattern_binds _ _ _ _ _ _ Hw Hb) as (E' & names & Hw1 & Hbs & Hnames & Hkept).
  destruct (Hkept (co_linear _ _ Hok _ _ _ _ _ Ho Hpat Hargs Hnames)) as [-> HE].
  clear Hb Hw. revert w1 t w' Hw1 H.
  change (gives m st E' (b ← lm (kid c 1); tp ← rec b; restore_entries ((λ s, (s, E s)) <$> names);; mret tp)
    E (λ t, typed_case m st E c t ∧ t ≠ null)).
  do 2 gives_step. eapply gives_bind; [apply gives_restore|]. intros _ _.
  eapply (gives_mono _ _ _ _ _ _ (eq _)); [by apply gives_ret|intros; by apply restored_env|]. intros ? <-.
  destruct_and!. split; [|done]. by eapply C_pattern.
Qed.

Lemma gives_cases E mtp cs :
  gives m st E (check_cases rec mtp cs) E
    (λ t, Forall (λ c, typed_case m st E c t) cs ∧ (mtp ≠ null → t = mtp) ∧ (mtp ≠ null ∨ cs ≠ [] → t ≠ null)).
Proof.
  revert mtp. induction cs as [|c cs IH]; intros mtp; simpl.
  { apply gives_ret. split_and!; [constructor|done|]. by intros [|]. }
  eapply gives_bind; [apply gives_case|]. intros t [Ht Hn]. case_decide; [subst|].
  - eapply gives_mono; [apply IH|done|]. intros t' (Hcs & He & Hn'). rewrite He in * by done.
    split_and!; [by constructor|done|done].
  - case_decide as Hne; [apply gives_report|]. subst.
    eapply gives_mono; [apply IH|done|]. intros t' (Hcs & He & Hn'). rewrite He in * by done.
    split_and!; [by constructor|done|done].
Qed.

Lemma gives_match E e : getop e ⇓ MATCH → gives m st E (check_code_match rec e) E (has_type E e).
Proof.
  intros He. unfold check_code_match. gives_step. gives_step. gives_step. gives_step; [|apply gives_report].
  eapply gives_bind; [gives_step|]. cbv beta. intros ks Hks. destruct_and!.
  eapply gives_mono; [apply gives_cases|done|]. intros t (Hcs & _ & Hn).
  pose proof (co_match _ _ Hok _ _ He Hks) as Hne. split; [|by apply Hn; right].
  eapply T_match; eauto.
Qed.
End forms.

Lemma getop_body e n o ks : load e ⇓ n → body n = PC o ks → getop e ⇓ o.
Proof. intros Hn Eb. unfold getop. by rewrite (bind_run _ _ _ _ _ Hn), Eb. Qed.

Lemma gives_stat E e f :
  f st ≠ null → typed m st E e (f st) → gives m st E (get_stat (T:=T) f) E (has_type E e).
Proof. intros Hn Ht. eapply gives_mono; [apply gives_get_stat|done|]. by intros t ->. Qed.

Lemma gives_check_symbol E e n s v :
  load e ⇓ n → body n = PSymS s v → gives m st E (check_symbol (T:=T) e) E (has_type E e).
Proof.
  intros Hn Eb. assert (sym_name e ⇓ s) as Hs by (unfold sym_name; by rewrite (bind_run _ _ _ _ _ Hn), Eb).
  unfold check_symbol. eapply gives_bind; [gives_step|]. cbv beta. intros s' Hs'.
  rewrite Hs in Hs'. injection Hs' as <-. gives_tac. split; [by eapply T_sym|done].
Qed.

Lemma gives_check_code fuel E e : gives m st E (check_code (T:=T) fuel e) E (has_type E e).
Proof.
  destruct (co_statics _ _ Hok) as (Hty & Hz & Hq).
  revert E e. induction fuel as [|fuel IH]; intros E e; [apply gives_throw|]. cbn [check_code].
  eapply gives_bind; [gives_step|]. cbv beta. intros n Hn.
  destruct (body n) as [o ks| | | | |] eqn:Eb; try apply gives_report.
  - pose proof (getop_body _ _ _ _ Hn Eb) as Ho.
    destruct o; try apply gives_report;
      eauto using gives_app, gives_let, gives_arith, gives_neg, gives_if, gives_fail, gives_markvar,
        gives_ifmarked, gives_compare, gives_match, gives_stat, T_num.
    do 3 gives_step. eapply gives_mono; [apply IH|done|]. intros t [Ht Hn']. destruct_and!.
    split; [by eapply T_do|done].
  - apply gives_stat; [done|by eapply T_int].
  - apply gives_stat; [done|by eapply T_rat].
  - by eapply gives_check_symbol.
Qed.
End cases.

(** C27: [check_code] follows the typing rules.  Code it accepts has the type it
    returns, by the rules [typed] in the environment the symbol table gives; and
    afterwards the memory is as it was, flags included, and every name has the
    entry it had, the variables of patterns and of [let] too.  It is assumed that
    matches have cases, which the reader ensures, and that the variables of a
    pattern are different, which nothing ensures. *)
Theorem check_code_sound {T} `{!SymTab T entry, !SymTabLaws T entry} fuel e t (w w' : world T) :
  code_ok (w_mem w) (stat w) → st_wf (symbols w) → check_code fuel e w = Ok (t, w') →
  typed (w_mem w) (stat w) (st_get (symbols w)) e t ∧
  w_mem w' = w_mem w ∧ ∀ s, st_get (symbols w') s = st_get (symbols w) s.
Proof.
  intros Hok Hwf H.
  destruct (gives_check_code _ _ Hok fuel (st_get (symbols w)) e w t w') as [[Hm _ _ Hg] [Ht _]]; [|done|].
  - by split.
  - done.
Qed.

(** A test for [code_ok]. *)
Definition case_okb (m : mem) (e : ptr) (n : node) : bool :=
  match body n with
  | PC MATCH _ => if kids_list e m is Ok (ks, _) then bool_decide (drop 1 ks ≠ []) else true
  | PC CASE _ =>
      match (pat ← kid e 0; '(_, vars) ← collect_args pat true; map_m sym_name vars) m with
      | Ok (names, _) => bool_decide (NoDup names)
      | Err _ => true
      end
  | _ => true
  end.
Definition code_okb (m : mem) (st : statics) : bool :=
  bool_decide (statType st ≠ null ∧ statMpz st ≠ null ∧ statMpq st ≠ null) &&
  forallb (λ p : ptr * node, case_okb m p.1 p.2) (map_to_list (heap m)).

Lemma code_okb_sound m st : code_okb m st = true → code_ok m st.
Proof.
  intros [Hst%bool_decide_eq_true H]%andb_true_iff. rewrite forallb_forall in H.
  assert (∀ e o, getop e m = Ok (o, m) → ∃ n ks, case_okb m e n = true ∧
    (o ≠ NOT_CEXPR → body n = PC o ks)) as Hnode.
  { intros e o (n & m1 & Hl & [Ho ->]%ret_ok)%bind_ok. unfold load in Hl. case_decide; [done|].
    destruct (heap m !! e) as [n'|] eqn:E; [|done]. injection Hl as ->.
    assert (case_okb m e n = true) by (apply (H (e, n)), list_elem_of_In, elem_of_map_to_list, E).
    destruct (body n) as [o' ks| | | | |] eqn:Eb; simpl in Ho; subst; [by eauto|..];
      (exists n, []; by split). }
  split; [done| |].
  - intros e ks He Hk. destruct (Hnode _ _ He) as (n & l & Hn & Eb). unfold case_okb in Hn.
    rewrite Eb, Hk in Hn by done. by apply bool_decide_eq_true in Hn.
  - intros c pat ctor vars names Hc Hp Ha Hn. destruct (Hnode _ _ Hc) as (n & l & Hb & Eb).
    unfold case_okb in Hb. rewrite Eb in Hb by done.
    rewrite (bind_run _ _ _ _ _ Hp), (bind_run _ _ _ _ _ Ha), Hn in Hb. by apply bool_decide_eq_true in Hb.
Qed.

(** [(match x (z z) ((s y) y))], at 15, where [nat] is at 5. *)
Definition match_mem : mem :=
  Mem (list_to_map [(1%N, Node 1 false (PC TYPE [0; 0]%N)); (2%N, Node 1 false (PC KIND [0; 0]%N));
        (3%N, Node 1 false (PC MPZ [0; 0]%N)); (4%N, Node 1 false (PC MPQ [0; 0]%N));
        (5%N, Node 1 false (PSymS "nat" 0)); (6%N, Node 1 false (PSymS "z" 0));
        (7%N, Node 1 false (PSymS "s" 0)); (8%N, Node 1 false (PC PI [9; 5; 5; 0]%N));
        (9%N, Node 1 false (PSymS "a" 0)); (10%N, Node 1 false (PSymS "x" 0));
        (11%N, Node 1 false (PSymS "y" 0)); (12%N, Node 1 false (PC APP [7; 11; 0]%N));
        (13%N, Node 1 false (PC CASE [6; 6; 0]%N)); (14%N, Node 1 false (PC CASE [12; 11; 0]%N));
        (15%N, Node 1 false (PC MATCH [10; 13; 14; 0]%N))]) 16 ∅ EmptyString false false 0 scc_none.

Definition match_world : world table :=
  World match_mem (Lex EmptyString NUL 1 1 0)
    (<["nat" := (5, 1)]> (<["z" := (6, 5)]> (<["s" := (7, 8)]> {["x" := (10, 5)]})))%N ∅ (Statics 1 2 3 4)
    false true true [] [] (Writers None None []).

Lemma check_code_sound_witness :
  typed match_mem (Statics 1 2 3 4) (st_get (symbols match_world)) 15 5.
Proof.
  apply (check_code_sound 20 15%N 5%N match_world (final (check_code 20 15%N) match_world)).
  - apply code_okb_sound. vm_compute. reflexivity.
  - done.
  - vm_compute. reflexivity.
Defined.
