(* ===== verification/Examples.v ===== *)
(** * Whole runs of the checker

    The program evaluated on files: a signature with a side condition that
    works as intended, and files on which it does something else than its
    documentation says. *)

From stdpp Require Import base tactics list strings gmap numbers.
From S2P Require Import Prelude SymTab Header Memory Lexer World Check CheckFile Sample SccCode.

(** Every command of the file was accepted. *)
Definition accepted (s : string) : bool := match run_on s with Ok _ => true | Err _ => false end.

(** How a file that was not accepted ended. *)
Definition stopped (s : string) : option error := match run_on s with Ok _ => None | Err e => Some e end.

(** Addition of unary numbers as a side condition: [(i x y r)] proves [(is r)]
    when [(add x y)] runs to [r]. *)
Definition addition : string :=
  "(declare nat type)(declare z nat)(declare s (! x nat nat))
   (program add ((x nat)(y nat)) nat (match x (z y) ((s n) (s (add n y)))))
   (declare is (! x nat type))
   (declare i (! x nat (! y nat (! r nat (! u (^ (add x y) r) (is r))))))".

(** A run of the whole program on a signature with a recursive side
    condition.  The proof that two plus one is three is accepted, with the
    result left as a hole that the side condition fills; the same proof for
    another number is rejected. *)
Example addition_checked :
  accepted (addition +:+ "(check (: (is (s (s (s z)))) (i (s (s z)) (s z) _)))") = true ∧
  stopped (addition +:+ "(check (: (is (s (s z))) (i (s (s z)) (s z) _)))") =
    Some (Fatal "The type expected for an application does not match the computed type.(2)") ∧
  stopped (addition +:+ "(check (i (s (s z)) (s z) (s z)))") =
    Some (Fatal "The expected result of a side condition does not match the computed result.").
Proof. vm_compute. split_and!; reflexivity. Qed.

Definition two_hypotheses : string := "(declare o type)(check (% x o (% x o x)))".

(** A hypothesis of a checked proof stays after it.  After a proof that
    binds [x] twice has been checked, the bare [x] is accepted as a proof of
    [o]; without that proof, or with two different names, it is undeclared. *)
Example shadowed_hypothesis_leaks :
  accepted (two_hypotheses +:+ "(check (: o x))") = true ∧
  stopped "(declare o type)(check (: o x))" = Some (Fatal "Undeclared identifier: x") ∧
  stopped "(declare o type)(check (% x o (% y o x)))(check (: o x))" =
    Some (Fatal "Undeclared identifier: x").
Proof. vm_compute. split_and!; reflexivity. Qed.

(** [f] is the second projection, [a] and [b] are different constants and [t]
    is a predicate on them. *)
Definition projection : string :=
  "(declare o type)(declare a o)(declare b o)(declare t (! x o type))
   (define f (: (! x o (! y o o)) (\ x (\ y y))))".

(** Definitional equality is unsound for partial applications.  With [p]
    defined as [(f a)], a proof of [(t (p b))] passes for a proof of [(t a)]
    and does not pass for one of [(t b)], although [(p b)] is [(f a b)], that is
    [b]; written out as [(f a b)] the same proof is treated correctly. *)
Example partial_application_unsound :
  accepted (projection +:+ "(define p (f a))(declare k (t (p b)))(check (: (t a) k))") = true ∧
  accepted (projection +:+ "(define p (f a))(declare k (t (p b)))(check (: (t b) k))") = false ∧
  accepted (projection +:+ "(declare k (t (f a b)))(check (: (t a) k))") = false ∧
  accepted (projection +:+ "(declare k (t (f a b)))(check (: (t b) k))") = true.
Proof. vm_compute. split_and!; reflexivity. Qed.

(** The declared return type of a program is not compared with the type of
    its code.  A program from [mpz] to [mpz] whose code is a constant of another
    type is accepted, and running it gives that constant. *)
Example return_type_unchecked :
  transcript "(declare o type)(declare a o)(program s ((x mpz)) mpz a)(run (s 3))" =
    inl (("[Running-sc (s 3)] = " +:+ String NL EmptyString) +:+ ("a" +:+ String NL EmptyString)).
Proof. vm_compute. reflexivity. Qed.

(** A program whose name is the beginning of a keyword of the code
    language cannot be called.  The reader takes the name for the beginning of
    the identifier that follows it, across white space. *)
Example keyword_prefix_not_callable :
  stopped "(program f ((x mpz)) mpz x)(run (f 3))" =
    Some (Fatal "Undeclared identifier at head of an application: f3") ∧
  accepted "(program g ((x mpz)) mpz x)(run (g 3))" = true.
Proof. vm_compute. split_and!; reflexivity. Qed.

(** A program with a pattern that has the variables [x] and [y]; [x] is also
    declared. *)
Definition pattern_file (y : string) : string :=
  "(declare nat type)(declare x nat)(declare z nat)(declare p (! a nat (! b nat nat)))
   (program f ((n nat)) nat (match n ((p x " +:+ y +:+ ") z) (default z)))
   (check x)".

(** A pattern with the same variable twice takes a declared symbol away: the
    entries are put back from the first to the last, and the second one is that of
    the first variable. *)
Example repeated_pattern_variable :
  accepted (pattern_file "y") = true ∧
  stopped (pattern_file "x") = Some (Fatal "Undeclared identifier: x").
Proof. vm_compute. split; reflexivity. Qed.

(** ** Compiled side conditions *)

(** The clauses of sat.plf with [simplify_clause]; [concat] is the name of the
    constructor for the clause of two clauses. *)
Definition sat_plf (concat : string) : string :=
  "(declare bool type)(declare tt bool)(declare ff bool)(declare var type)
   (declare lit type)(declare pos (! x var lit))(declare neg (! x var lit))
   (declare clause type)(declare cln clause)(declare clc (! x lit (! c clause clause)))
   (declare " +:+ concat +:+ " (! c1 clause (! c2 clause clause)))
   (declare clr (! l lit (! c clause clause)))
   (program append ((c1 clause) (c2 clause)) clause
     (match c1 (cln c2) ((clc l c1') (clc l (append c1' c2)))))
   (program simplify_clause ((c clause)) clause
     (match c (cln cln)
       ((clc l c1)
         (match l
           ((pos v)
             (let m (ifmarked v tt (do (markvar v) ff))
             (let c' (simplify_clause c1)
               (match m (tt (do (ifmarked3 v v (markvar3 v)) c'))
                        (ff (do (ifmarked3 v (markvar3 v) v) (markvar v) (clc l c')))))))
           ((neg v)
             (let m (ifmarked2 v tt (do (markvar2 v) ff))
             (let c' (simplify_clause c1)
               (match m (tt (do (ifmarked4 v v (markvar4 v)) c'))
                        (ff (do (ifmarked4 v (markvar4 v) v) (markvar2 v) (clc l c')))))))))
       ((" +:+ concat +:+ " c1 c2) (append (simplify_clause c1) (simplify_clause c2)))
       ((clr l c1)
         (match l
           ((pos v)
             (let m (ifmarked v tt (do (markvar v) ff))
             (let m3 (ifmarked3 v (do (markvar3 v) tt) ff)
             (let c' (simplify_clause c1)
               (ifmarked3 v (do (match m3 (tt v) (ff (markvar3 v))) (match m (tt v) (ff (markvar v))) c')
                            (fail clause))))))
           ((neg v)
             (let m2 (ifmarked2 v tt (do (markvar2 v) ff))
             (let m4 (ifmarked4 v (do (markvar4 v) tt) ff)
             (let c' (simplify_clause c1)
               (ifmarked4 v (do (match m4 (tt v) (ff (markvar4 v))) (match m2 (tt v) (ff (markvar2 v))) c')
                            (fail clause))))))))))
   (declare holds (! c clause type))
   (declare satlem_simplify (! c1 clause (! c2 clause (! c3 clause (! u1 (holds c1)
     (! r (^ (simplify_clause c1) c2) (! u2 (! x (holds c2) (holds c3)) (holds c3))))))))
   (check (% v1 var (% v2 var
     (% u1 (holds (" +:+ concat +:+ " (clr (neg v2) (clc (neg v2) (clc (pos v1) cln))) cln))
     (: (holds (clc (pos v1) cln)) (satlem_simplify _ _ _ u1 (\ x x)))))))".

(** How the checker with the compiled side conditions ends on a file. *)
Definition compiled_run (options : list string) (s : string) : option error :=
  match main (run_compiled_scc 100) init_compiled_scc (λ _, Some s) (options ++ ["sat.plf"%string]) 1000
    (world_start (T:=table)) with
  | Ok _ => None
  | Err e => Some e
  end.

(** The compiled side conditions do not fit the signature they come with.  A
    resolution proof over the clauses of sat.plf, whose constructor is [concat],
    is accepted by running [simplify_clause]; with [--run-scc] the compiled one is
    called, which knows the constructor as [concat_cl] and dereferences a null
    pointer.  With the constructor renamed both accept the proof. *)
Example compiled_concat_crashes :
  compiled_run [] (sat_plf "concat") = None ∧
  compiled_run ["--run-scc"%string] (sat_plf "concat") = Some (Undefined NullDeref) ∧
  compiled_run [] (sat_plf "concat_cl") = None ∧
  compiled_run ["--run-scc"%string] (sat_plf "concat_cl") = None.
Proof. vm_compute. split_and!; reflexivity. Qed.

(** With [--run-scc] the first [check] looks the compiled programs up and so
    enters their names; a program that is declared later under such a name is
    refused. *)
Example compiled_name_is_taken :
  let later := "(declare clause type)(declare cln clause)(check cln)
                (program append ((c1 clause) (c2 clause)) clause c2)"%string in
  compiled_run [] later = None ∧
  compiled_run ["--run-scc"%string] later = Some (Fatal "Redeclaring program append.").
Proof. vm_compute. split; reflexivity. Qed.
