(* ===== verification/ZmqWire.v ===== *)
(** * Bytes on the wire (libzmq/src/wire.hpp)

    Integers in network byte order, as the encoders write them into a buffer and
    the decoders read them back.  A byte is an integer from 0 to 255; a buffer is
    the list of its bytes, and a read past its end gives nothing. *)

From stdpp Require Import base tactics list numbers.
From S2P Require Import Prelude.

Local Open Scope Z_scope.

(** ** Machine integers *)

Definition u8 (z : Z) : Z := z `mod` 2 ^ 8.
Definition u16 (z : Z) : Z := z `mod` 2 ^ 16.
Definition u32 (z : Z) : Z := z `mod` 2 ^ 32.
Definition u64 (z : Z) : Z := z `mod` 2 ^ 64.

(** The value of type [int] and [int64_t] with the given low bits. *)
Definition i32 (z : Z) : Z := (z + 2 ^ 31) `mod` 2 ^ 32 - 2 ^ 31.
Definition i64 (z : Z) : Z := (z + 2 ^ 63) `mod` 2 ^ 64 - 2 ^ 63.

Definition is_byte (z : Z) : Prop := 0 ≤ z < 256.

#[global] Instance is_byte_dec z : Decision (is_byte z).
Proof. unfold is_byte. apply _. Defined.

(** ** wire.hpp *)

Definition put_uint8 (value : Z) : list Z := [value].

Definition get_uint8 (buffer : list Z) : option Z := buffer !! 0%nat.

Definition put_uint16 (value : Z) : list Z :=
  [ Z.land (value ≫ 8) 0xff; Z.land value 0xff ].

Definition get_uint16 (buffer : list Z) : option Z :=
  b0 ← buffer !! 0%nat; b1 ← buffer !! 1%nat;
  Some (u16 (Z.lor (b0 ≪ 8) b1)).

Definition put_uint32 (value : Z) : list Z :=
  [ Z.land (value ≫ 24) 0xff; Z.land (value ≫ 16) 0xff; Z.land (value ≫ 8) 0xff;
    Z.land value 0xff ].

Definition get_uint32 (buffer : list Z) : option Z :=
  b0 ← buffer !! 0%nat; b1 ← buffer !! 1%nat; b2 ← buffer !! 2%nat; b3 ← buffer !! 3%nat;
  Some (Z.lor (Z.lor (Z.lor (u32 (b0 ≪ 24)) (u32 (b1 ≪ 16))) (u32 (b2 ≪ 8))) b3).

Definition put_uint64 (value : Z) : list Z :=
  [ Z.land (value ≫ 56) 0xff; Z.land (value ≫ 48) 0xff; Z.land (value ≫ 40) 0xff;
    Z.land (value ≫ 32) 0xff; Z.land (value ≫ 24) 0xff; Z.land (value ≫ 16) 0xff;
    Z.land (value ≫ 8) 0xff; Z.land value 0xff ].

Definition get_uint64 (buffer : list Z) : option Z :=
  b0 ← buffer !! 0%nat; b1 ← buffer !! 1%nat; b2 ← buffer !! 2%nat; b3 ← buffer !! 3%nat;
  b4 ← buffer !! 4%nat; b5 ← buffer !! 5%nat; b6 ← buffer !! 6%nat; b7 ← buffer !! 7%nat;
  Some (Z.lor (Z.lor (Z.lor (Z.lor (Z.lor (Z.lor (Z.lor
    (u64 (b0 ≪ 56)) (u64 (b1 ≪ 48))) (u64 (b2 ≪ 40))) (u64 (b3 ≪ 32)))
    (u64 (b4 ≪ 24))) (u64 (b5 ≪ 16))) (u64 (b6 ≪ 8))) b7).

(** ** The number a list of bytes stands for *)

Fixpoint be_val (bs : list Z) : Z :=
  match bs with
  | [] => 0
  | b :: bs => b * 256 ^ Z.of_nat (length bs) + be_val bs
  end.

Lemma be_val_app bs bs' : be_val (bs ++ bs') = be_val bs * 256 ^ Z.of_nat (length bs') + be_val bs'.
Proof.
  induction bs as [|b bs IH]; simpl; [lia|].
  rewrite IH, length_app, Nat2Z.inj_add, Z.pow_add_r by lia. ring.
Qed.

Lemma be_val_bound bs : Forall is_byte bs → 0 ≤ be_val bs < 256 ^ Z.of_nat (length bs).
Proof.
  induction 1 as [|b bs [Hb Hb'] _ IH]; simpl length; [done|].
  change (be_val (b :: bs)) with (b * 256 ^ Z.of_nat (length bs) + be_val bs).
  rewrite Nat2Z.inj_succ, Z.pow_succ_r by lia.
  assert (0 < 256 ^ Z.of_nat (length bs)) by (apply Z.pow_pos_nonneg; lia). nia.
Qed.

(** A byte shifted left by whole bytes, or'ed with what lies below it, is the
    sum of both. *)
Lemma lor_shift b k r : 0 ≤ k → 0 ≤ r < 2 ^ k → Z.lor (b ≪ k) r = b * 2 ^ k + r.
Proof.
  intros Hk Hr. rewrite Z.shiftl_mul_pow2 by done. rewrite <-Z.add_lor_land.
  replace (Z.land (b * 2 ^ k) r) with 0; [ring|].
  symmetry. apply Z.bits_inj'. intros n Hn. rewrite Z.land_spec, Z.bits_0.
  rewrite <-Z.shiftl_mul_pow2, Z.shiftl_spec by done.
  destruct (decide (n < k)).
  - by rewrite Z.testbit_neg_r by lia.
  - rewrite andb_comm. destruct (decide (r = 0)) as [->|].
    + by rewrite Z.bits_0.
    + rewrite (Z.bits_above_log2 r); [done|lia|].
      apply Z.log2_lt_pow2; [lia|]. destruct Hr. eapply Z.lt_le_trans; [done|].
      apply Z.pow_le_mono_r; lia.
Qed.

Lemma land_byte z : Z.land z 0xff = z `mod` 256.
Proof. change 0xff with (Z.ones 8). by rewrite Z.land_ones. Qed.

Lemma land_byte_is_byte z : is_byte (Z.land z 0xff).
Proof. rewrite land_byte. by apply Z.mod_pos_bound. Qed.
#[export] Hint Resolve land_byte_is_byte : core.

Lemma put_uint64_bytes v : Forall is_byte (put_uint64 v).
Proof. unfold put_uint64. repeat constructor; apply land_byte_is_byte. Qed.

Lemma put_uint64_length v : length (put_uint64 v) = 8%nat.
Proof. done. Qed.

(** [norm_pow]: evaluate the powers of literals. *)
Ltac norm_pow :=
  repeat match goal with
  | |- context [Z.pow_pos ?a ?b] =>
      let v := eval vm_compute in (Z.pow_pos a b) in change (Z.pow_pos a b) with v
  | |- context [Z.pow ?a ?b] =>
      let v := eval vm_compute in (Z.pow a b) in change (Z.pow a b) with v
  | H : context [Z.pow ?a ?b] |- _ =>
      let v := eval vm_compute in (Z.pow a b) in change (Z.pow a b) with v in H
  end.

Lemma put_uint64_val v : 0 ≤ v < 2 ^ 64 → be_val (put_uint64 v) = v.
Proof.
  intros Hv. unfold put_uint64. rewrite !land_byte, !Z.shiftr_div_pow2 by done. cbn.
  norm_pow.
  Z.div_mod_to_equations. lia.
Qed.

(** [lor_sum]: turn nested ors of shifted bytes into sums, from the lowest byte. *)
Ltac lor_sum tac :=
  repeat match goal with
  | |- context [Z.lor (?b ≪ ?k) ?r] =>
      lazymatch r with
      | context [Z.lor _ _] => fail
      | _ => rewrite (lor_shift b k r); [|done|tac]
      end
  end.

(** Reading the bytes of a buffer gives the number they stand for. *)
Lemma get_uint64_val bs rest :
  Forall is_byte bs → length bs = 8%nat → get_uint64 (bs ++ rest) = Some (be_val bs).
Proof.
  intros Hb Hl. destruct bs as [|b0 [|b1 [|b2 [|b3 [|b4 [|b5 [|b6 [|b7 [|]]]]]]]]]; try done.
  rewrite !Forall_cons_iff in Hb. unfold is_byte in Hb.
  unfold get_uint64, u64. cbn [lookup list_lookup app mbind option_bind]. f_equal.
  rewrite <-!Z.lor_assoc.
  repeat match goal with |- context [(?b ≪ ?k) `mod` ?m] =>
    rewrite (Z.mod_small (b ≪ k) m) by (rewrite Z.shiftl_mul_pow2 by done; cbn; norm_pow; lia) end.
  lor_sum ltac:(cbn; norm_pow; lia). cbn. norm_pow. lia.
Qed.

Lemma put_get_uint64 v rest : 0 ≤ v < 2 ^ 64 → get_uint64 (put_uint64 v ++ rest) = Some v.
Proof.
  intros Hv. rewrite get_uint64_val by (apply put_uint64_bytes || done). by rewrite put_uint64_val.
Qed.

Lemma put_get_uint32 v rest : 0 ≤ v < 2 ^ 32 → get_uint32 (put_uint32 v ++ rest) = Some v.
Proof.
  intros Hv. unfold get_uint32, u32. cbn [lookup list_lookup app put_uint32 mbind option_bind].
  rewrite !land_byte, <-!Z.lor_assoc. f_equal.
  repeat match goal with |- context [(?b ≪ ?k) `mod` ?m] =>
    rewrite (Z.mod_small (b ≪ k) m)
      by (rewrite Z.shiftl_mul_pow2 by done; cbn; norm_pow; Z.div_mod_to_equations; lia) end.
  rewrite !Z.shiftr_div_pow2 by done. change (2 ^ 32) with 4294967296 in Hv.
  lor_sum ltac:(cbn; norm_pow; Z.div_mod_to_equations; lia).
  cbn. norm_pow. Z.div_mod_to_equations. lia.
Qed.

Lemma put_get_uint16 v rest : 0 ≤ v < 2 ^ 16 → get_uint16 (put_uint16 v ++ rest) = Some v.
Proof.
  intros Hv. unfold get_uint16, u16. cbn [lookup list_lookup app put_uint16 mbind option_bind].
  rewrite !land_byte, Z.shiftr_div_pow2 by done. f_equal. change (2 ^ 16) with 65536 in *.
  lor_sum ltac:(cbn; norm_pow; Z.div_mod_to_equations; lia).
  cbn. norm_pow. rewrite Z.mod_small; Z.div_mod_to_equations; lia.
Qed.
