(* ===== verification/ZmqEncoder.v ===== *)
(** * Framing of outgoing messages (libzmq/src)

    [encoder_base_t] of encoder.hpp with the actions of [v1_encoder_t],
    [v2_encoder_t] and [raw_encoder_t], and the part of [stream_engine_t] that
    fills the output buffer and hands it to the socket.

    A pointer to data that is still to be written is the list of the bytes it
    points at.  A pointer to a member function is the name of the function. *)

From stdpp Require Import base tactics list numbers strings.
From S2P Require Import Prelude ZmqWire.

Local Open Scope Z_scope.

(** What the encoders see of a message: its flags and its data. *)
Record wmsg := WMsg { wm_flags : Z; wm_data : list Z }.

(** Flags of msg.hpp and of v2_protocol.hpp. *)
Definition msg_more : Z := 1.
Definition msg_command : Z := 2.
Definition more_flag : Z := 1.
Definition large_flag : Z := 2.
Definition command_flag : Z := 4.

Definition has_flag (flags f : Z) : bool := negb (Z.land flags f =? 0).

Definition wm_size (m : wmsg) : Z := Z.of_nat (length (wm_data m)).

(** ** The state machines *)

Inductive estep :=
  | v1_size_ready | v1_message_ready
  | v2_size_ready | v2_message_ready
  | raw_message_ready.

#[global] Instance estep_eq_dec : EqDecision estep.
Proof. solve_decision. Defined.

Record encoder := Encoder {
  write_pos : list Z;
  to_write : nat;
  next : estep;
  new_msg_flag : bool;
  bufsize : nat;
  in_progress : option wmsg
}.

Definition next_step (write_pos_ : list Z) (to_write_ : nat) (next_ : estep)
    (new_msg_flag_ : bool) (e : encoder) : encoder :=
  Encoder write_pos_ to_write_ next_ new_msg_flag_ (bufsize e) (in_progress e).

Definition set_in_progress (m : option wmsg) (e : encoder) : encoder :=
  Encoder (write_pos e) (to_write e) (next e) (new_msg_flag e) (bufsize e) m.

(** The constructors: nothing to write, and a message is expected. *)
Definition v1_encoder_t (bufsize_ : nat) : encoder :=
  Encoder [] 0 v1_message_ready true bufsize_ None.
Definition v2_encoder_t (bufsize_ : nat) : encoder :=
  Encoder [] 0 v2_message_ready true bufsize_ None.
Definition raw_encoder_t (bufsize_ : nat) : encoder :=
  Encoder [] 0 raw_message_ready true bufsize_ None.

Definition v1_size_ready_step (m : wmsg) (e : encoder) : encoder :=
  next_step (wm_data m) (length (wm_data m)) v1_message_ready true e.

Definition v1_message_ready_step (m : wmsg) (e : encoder) : encoder :=
  let size := u64 (wm_size m + 1) in
  if size <? 255 then
    let tmpbuf := [u8 size; Z.land (wm_flags m) msg_more] in
    next_step tmpbuf 2 v1_size_ready false e
  else
    let tmpbuf := [0xff] ++ put_uint64 size ++ [Z.land (wm_flags m) msg_more] in
    next_step tmpbuf 10 v1_size_ready false e.

Definition v2_message_ready_step (m : wmsg) (e : encoder) : encoder :=
  let protocol_flags := 0 in
  let protocol_flags :=
    if has_flag (wm_flags m) msg_more then Z.lor protocol_flags more_flag else protocol_flags in
  let protocol_flags :=
    if 255 <? wm_size m then Z.lor protocol_flags large_flag else protocol_flags in
  let protocol_flags :=
    if has_flag (wm_flags m) msg_command then Z.lor protocol_flags command_flag
    else protocol_flags in
  let size := wm_size m in
  if 255 <? size then
    next_step (protocol_flags :: put_uint64 size) 9 v2_size_ready false e
  else
    next_step [protocol_flags; u8 size] 2 v2_size_ready false e.

Definition v2_size_ready_step (m : wmsg) (e : encoder) : encoder :=
  next_step (wm_data m) (length (wm_data m)) v2_message_ready true e.

Definition raw_message_ready_step (m : wmsg) (e : encoder) : encoder :=
  next_step (wm_data m) (length (wm_data m)) raw_message_ready true e.

(** [(static_cast <T*> (this)->*next) ()] *)
Definition run_next (e : encoder) : result encoder :=
  match in_progress e with
  | None => Err (Undefined NullDeref)
  | Some m => Ok
      match next e with
      | v1_size_ready => v1_size_ready_step m e
      | v1_message_ready => v1_message_ready_step m e
      | v2_size_ready => v2_size_ready_step m e
      | v2_message_ready => v2_message_ready_step m e
      | raw_message_ready => raw_message_ready_step m e
      end
  end.

(** What [*data_] points at: nothing, the buffer of the encoder or of the caller,
    or the data of the message itself. *)
Inductive opos := pos_null | pos_buf | pos_data.

#[global] Instance opos_eq_dec : EqDecision opos.
Proof. solve_decision. Defined.

(** The loop of [encode].  [own] says that the caller gave no buffer; [out] is
    what is in the buffer so far. *)
Fixpoint encode_loop (fuel : nat) (own : bool) (buffersize : nat) (out : list Z)
    (e : encoder) : result (opos * list Z * encoder) :=
  match fuel with
  | O => Err OutOfFuel
  | S fuel =>
      if decide (length out < buffersize)%nat then
        if decide (to_write e = 0%nat ∧ new_msg_flag e = true) then
          Ok (pos_buf, out, set_in_progress None e)
        else
          match (if decide (to_write e = 0%nat) then run_next e else Ok e) with
          | Err err => Err err
          | Ok e =>
              if decide (length out = 0%nat ∧ own = true ∧ (buffersize ≤ to_write e)%nat) then
                Ok (pos_data, take (to_write e) (write_pos e),
                    next_step [] 0 (next e) (new_msg_flag e) e)
              else
                let to_copy := Nat.min (to_write e) (buffersize - length out) in
                encode_loop fuel own buffersize (out ++ take to_copy (write_pos e))
                  (next_step (drop to_copy (write_pos e)) (to_write e - to_copy) (next e)
                     (new_msg_flag e) e)
          end
      else Ok (pos_buf, out, e)
  end.

(** [encode (data_, size_)], with what [*data_] points at afterwards.  Only two
    iterations can leave the buffer as it was, so the bound is enough. *)
Definition encode (data : opos) (size_ : nat) (e : encoder) : result (opos * list Z * encoder) :=
  let own := bool_decide (data = pos_null) in
  let buffersize := if own then bufsize e else size_ in
  match in_progress e with
  | None => Ok (data, [], e)
  | Some _ => encode_loop (buffersize + 3) own buffersize [] e
  end.

Definition load_msg (m : wmsg) (e : encoder) : result encoder :=
  match in_progress e with
  | Some _ => Err (Fatal "Assertion failed: in_progress == NULL")
  | None => run_next (set_in_progress (Some m) e)
  end.

(** ** The output side of the engine (stream_engine.cpp) *)

Record out_engine := OutEngine {
  oe_encoder : encoder;
  oe_out : list Z;             (* the [outsize] bytes at [outpos] *)
  oe_queue : list wmsg;        (* what [next_msg] delivers *)
  oe_sent : list Z;            (* what the socket accepted *)
  oe_output_stopped : bool
}.

(** The loop of [out_event] that batches messages.  What follows the batch in
    memory is only known to be free while the batch is in the encoder's buffer. *)
Fixpoint fill_loop (send_buffer_size : nat) (queue : list wmsg) (outpos : opos) (out : list Z)
    (e : encoder) : result (list wmsg * list Z * encoder) :=
  if decide (length out < send_buffer_size)%nat then
    match queue with
    | [] => Ok ([], out, e)
    | m :: queue =>
        match load_msg m e with
        | Err err => Err err
        | Ok e =>
            match encode outpos (send_buffer_size - length out) e with
            | Err err => Err err
            | Ok (bufptr, bytes, e) =>
                if decide (length bytes = 0%nat) then Err (Fatal "Assertion failed: n > 0")
                else if decide (outpos = pos_data ∨
                                (outpos = pos_buf ∧ (bufsize e < length out + length bytes)%nat)) then
                  Err (Undefined OutOfBounds)
                else
                  fill_loop send_buffer_size queue
                    (if decide (outpos = pos_null) then bufptr else outpos) (out ++ bytes) e
            end
        end
    end
  else Ok (queue, out, e).

(** The end of [out_event]: [accepted] is what [tcp_write] returns for the data
    it is given, [None] for an error. *)
Definition out_write (accepted : nat → option nat) (stopped : bool) (queue : list wmsg)
    (out sent : list Z) (e : encoder) : out_engine :=
  match accepted (length out) with
  | None => OutEngine e out queue sent stopped
  | Some n => OutEngine e (drop n out) queue (sent ++ take n out) stopped
  end.

Definition out_event (send_buffer_size : nat) (accepted : nat → option nat) (s : out_engine)
    : result out_engine :=
  if decide (length (oe_out s) = 0%nat) then
    match encode pos_null 0 (oe_encoder s) with
    | Err err => Err err
    | Ok (outpos, out, e) =>
        match fill_loop send_buffer_size (oe_queue s) outpos out e with
        | Err err => Err err
        | Ok (queue, out, e) =>
            if decide (length out = 0%nat) then
              Ok (OutEngine e out queue (oe_sent s) true)
            else Ok (out_write accepted (oe_output_stopped s) queue out (oe_sent s) e)
        end
    end
  else
    Ok (out_write accepted (oe_output_stopped s) (oe_queue s) (oe_out s) (oe_sent s)
          (oe_encoder s)).

(** What can happen on the output side: a message is put in the queue, or the
    socket takes some of the output. *)
Inductive out_act :=
  | act_push (m : wmsg)
  | act_out (accepted : nat → option nat).

Definition push_out (m : wmsg) (s : out_engine) : out_engine :=
  OutEngine (oe_encoder s) (oe_out s) (oe_queue s ++ [m]) (oe_sent s) (oe_output_stopped s).

Fixpoint run_out (send_buffer_size : nat) (acts : list out_act) (s : out_engine)
    : result out_engine :=
  match acts with
  | [] => Ok s
  | act_push m :: acts => run_out send_buffer_size acts (push_out m s)
  | act_out accepted :: acts =>
      match out_event send_buffer_size accepted s with
      | Err err => Err err
      | Ok s => run_out send_buffer_size acts s
      end
  end.

(** ** Frames *)

Inductive codec := V1 | V2 | Raw.

Definition encoder_of (c : codec) : nat → encoder :=
  match c with V1 => v1_encoder_t | V2 => v2_encoder_t | Raw => raw_encoder_t end.

Definition v1_header (m : wmsg) : list Z :=
  if wm_size m + 1 <? 255 then [wm_size m + 1; Z.land (wm_flags m) 1]
  else 0xff :: put_uint64 (wm_size m + 1) ++ [Z.land (wm_flags m) 1].

Definition v2_flags (m : wmsg) : Z :=
  (if has_flag (wm_flags m) 1 then 1 else 0) + (if 255 <? wm_size m then 2 else 0)
  + (if has_flag (wm_flags m) 2 then 4 else 0).

Definition v2_header (m : wmsg) : list Z :=
  v2_flags m :: (if 255 <? wm_size m then put_uint64 (wm_size m) else [wm_size m]).

Definition header (c : codec) (m : wmsg) : list Z :=
  match c with V1 => v1_header m | V2 => v2_header m | Raw => [] end.

Definition frame (c : codec) (m : wmsg) : list Z := header c m ++ wm_data m.

(** A message the encoders can send: its size and one more fit in [size_t], and a
    raw message is not empty. *)
Definition sendable (c : codec) (m : wmsg) : Prop :=
  wm_size m + 1 < 2 ^ 64 ∧ (c = Raw → wm_data m ≠ []).

(** ** The invariant of an encoder *)

Definition msg_step (c : codec) : estep :=
  match c with V1 => v1_message_ready | V2 => v2_message_ready | Raw => raw_message_ready end.

Definition size_step (c : codec) : option estep :=
  match c with V1 => Some v1_size_ready | V2 => Some v2_size_ready | Raw => None end.

Definition enc_wf (c : codec) (e : encoder) : Prop :=
  match in_progress e with
  | None => to_write e = 0%nat ∧ next e = msg_step c ∧ new_msg_flag e = true
  | Some m =>
      to_write e = length (write_pos e) ∧ sendable c m ∧
      if new_msg_flag e then next e = msg_step c else size_step c = Some (next e)
  end.

(** What is left to write of the message in progress. *)
Definition pending (e : encoder) : list Z :=
  match in_progress e with
  | None => []
  | Some m => write_pos e ++ (if new_msg_flag e then [] else wm_data m)
  end.

Lemma run_next_msg c e m :
  in_progress e = Some m → next e = msg_step c → sendable c m →
  ∃ e', run_next e = Ok e' ∧ in_progress e' = Some m ∧ enc_wf c e' ∧ bufsize e' = bufsize e ∧
    pending e' = frame c m.
Proof.
  intros Hm Hn [Hs Hr]. unfold run_next. rewrite Hm, Hn.
  assert (Hsz : 0 ≤ wm_size m) by (unfold wm_size; lia).
  destruct c; cbn [msg_step]; eexists; (split; [done|]).
  - unfold v1_message_ready_step, frame, header, v1_header. unfold u64.
    rewrite (Z.mod_small (wm_size m + 1)) by lia.
    case_match eqn:E; unfold enc_wf, pending; cbn; rewrite !Hm; (split_and!; try done).
    unfold u8. rewrite Z.mod_small; [done|]. norm_pow. lia.
  - unfold v2_message_ready_step, frame, header, v2_header, v2_flags, msg_more, msg_command.
    destruct (Z.ltb_spec 255 (wm_size m)); unfold enc_wf, pending; cbn; rewrite !Hm;
      (split_and!; try done); f_equal; [by repeat case_match| |].
    + by repeat case_match.
    + unfold u8. rewrite Z.mod_small; [done|]. norm_pow. lia.
  - unfold raw_message_ready_step, enc_wf, pending; cbn. rewrite !Hm. split_and!; try done.
    by rewrite app_nil_r.
Qed.

Lemma run_next_size c e m :
  in_progress e = Some m → size_step c = Some (next e) →
  run_next e = Ok (next_step (wm_data m) (length (wm_data m)) (msg_step c) true e).
Proof. intros Hm Hn. unfold run_next. rewrite Hm. by destruct c; simplify_eq/=; rewrite <-?Hn. Qed.

(** ** What [encode] does *)

(** The ways a call of [encode] ends: the message is done and there is room left,
    the buffer is full, or the data are handed out without copying. *)
Definition enc_end (own : bool) (bs : nat) (m : wmsg) (p : opos) (out new : list Z)
    (e' : encoder) : Prop :=
  (in_progress e' = None ∧ p = pos_buf ∧ (length (out ++ new) < bs)%nat) ∨
  (in_progress e' = Some m ∧ p = pos_buf ∧ length (out ++ new) = bs) ∨
  (in_progress e' = Some m ∧ p = pos_data ∧ own = true ∧ out = [] ∧ (bs ≤ length new)%nat).

Lemma encode_loop_copy c e m k :
  in_progress e = Some m → enc_wf c e → (k ≤ to_write e)%nat →
  let e' := next_step (drop k (write_pos e)) (to_write e - k) (next e) (new_msg_flag e) e in
  in_progress e' = Some m ∧ enc_wf c e' ∧ take k (write_pos e) ++ pending e' = pending e.
Proof.
  intros Hm Hwf Hk. unfold enc_wf, pending in *. cbn. rewrite Hm in *.
  destruct Hwf as (Hw & Hs & Hn). split_and!; try done.
  - rewrite length_drop. lia.
  - by rewrite (assoc_L (++)), take_drop.
Qed.

Lemma encode_loop_step c e m :
  in_progress e = Some m → enc_wf c e → ¬ (to_write e = 0%nat ∧ new_msg_flag e = true) →
  ∃ e1, (if decide (to_write e = 0%nat) then run_next e else Ok e) = Ok e1 ∧
    in_progress e1 = Some m ∧ enc_wf c e1 ∧ bufsize e1 = bufsize e ∧ pending e1 = pending e ∧
    (0 < to_write e1 ∨ new_msg_flag e = false ∧ new_msg_flag e1 = true)%nat ∧
    (new_msg_flag e1 = false → new_msg_flag e = false).
Proof.
  intros Hm Hwf Hne. pose proof Hwf as Hwf'. unfold enc_wf in Hwf. rewrite Hm in Hwf.
  destruct Hwf as (Hw & Hs & Hn). destruct (decide (to_write e = 0%nat)) as [E|E].
  - destruct (new_msg_flag e) eqn:Ef; [naive_solver|].
    rewrite (run_next_size c e m) by done. eexists; split_and!; try done.
    + unfold enc_wf. cbn. by rewrite Hm.
    + unfold pending. cbn. rewrite Hm, Ef, app_nil_r.
      rewrite (nil_length_inv (write_pos e)) by congruence. done.
    + by right.
  - exists e. split_and!; try done. left. lia.
Qed.

Lemma encode_loop_spec c own bs fuel out e m :
  in_progress e = Some m → enc_wf c e → (length out ≤ bs)%nat →
  ((bs - length out) + (if new_msg_flag e then 0 else 1) < fuel)%nat →
  ∃ p new e', encode_loop fuel own bs out e = Ok (p, out ++ new, e') ∧ enc_wf c e' ∧
    bufsize e' = bufsize e ∧ new ++ pending e' = pending e ∧ enc_end own bs m p out new e'.
Proof.
  revert out e. induction fuel as [|fuel IH]; intros out e Hm Hwf Hl Hf; [lia|]. cbn [encode_loop].
  case_decide as Hlt; [|exists pos_buf, [], e; rewrite app_nil_r; split_and!; try done;
    right; left; rewrite app_nil_r; split_and!; [done..|lia]].
  case_decide as Hdone.
  { destruct Hdone as [Hw Hfl]. exists pos_buf, [], (set_in_progress None e).
    pose proof Hwf as Hwf'. unfold enc_wf in Hwf'. rewrite Hm in Hwf'. destruct Hwf' as (Hw' & _ & Hn).
    rewrite Hfl in Hn. rewrite app_nil_r. split_and!; try done.
    - unfold pending. cbn. rewrite Hm, Hfl, app_nil_r. symmetry. apply nil_length_inv. congruence.
    - left. rewrite app_nil_r. done. }
  destruct (encode_loop_step c e m Hm Hwf Hdone) as (e1 & -> & Hm1 & Hwf1 & Hb1 & Hp1 & Hprog & Hfl1).
  case_decide as Hzc.
  { destruct Hzc as (Ho & Hown & Hbs). apply nil_length_inv in Ho as ->.
    pose proof Hwf1 as Hwf'. unfold enc_wf in Hwf'. rewrite Hm1 in Hwf'. destruct Hwf' as (Hw' & Hs' & Hn).
    exists pos_data, (write_pos e1), (next_step [] 0 (next e1) (new_msg_flag e1) e1).
    rewrite take_ge by lia. split_and!; try done.
    - unfold enc_wf. cbn. by rewrite Hm1.
    - rewrite <-Hp1. unfold pending. cbn. by rewrite Hm1.
    - right; right. split_and!; try done. lia. }
  set (k := Nat.min (to_write e1) (bs - length out)).
  destruct (encode_loop_copy c e1 m k Hm1 Hwf1 ltac:(lia)) as (Hm2 & Hwf2 & Hp2).
  pose proof Hwf1 as Hwf'. unfold enc_wf in Hwf'. rewrite Hm1 in Hwf'. destruct Hwf' as (Hw' & _ & _).
  assert (Hk : length (take k (write_pos e1)) = k) by (rewrite length_take; lia).
  destruct (IH (out ++ take k (write_pos e1)) _ Hm2 Hwf2) as (p & new & e' & -> & Hwfe & Hbe & Hpe & Hend).
  { rewrite length_app, Hk. lia. }
  { rewrite length_app, Hk. cbn. destruct (new_msg_flag e), (new_msg_flag e1), Hprog as [?|[? ?]]; try done; lia. }
  exists p, (take k (write_pos e1) ++ new), e'. rewrite !(assoc_L (++)). split_and!; try done.
  - by rewrite Hbe.
  - rewrite <-(assoc_L (++)), Hpe, Hp2. done.
  - destruct Hend as [?|[?|(? & ? & ? & Hnil & ?)]]; unfold enc_end; rewrite !(assoc_L (++)).
    + by left.
    + by right; left.
    + apply app_eq_nil in Hnil as [-> Htk]. exfalso. rewrite Htk in Hk. cbn in Hk, Hlt. unfold k in Hk. cbn in Hk.
      destruct Hprog as [|[_ Hfl]]; [lia|].
      assert (pending e1 = []) as Hnil.
      { unfold pending. rewrite Hm1, Hfl, app_nil_r. apply nil_length_inv. lia. }
      rewrite Htk, Hnil in Hp2. cbn in Hp2. rewrite Hp2 in Hpe.
      apply app_eq_nil in Hpe as [-> _]. cbn in *. lia.
Qed.

Lemma encode_spec c e m p sz :
  in_progress e = Some m → enc_wf c e →
  ∃ p' new e', encode p sz e = Ok (p', new, e') ∧ enc_wf c e' ∧ bufsize e' = bufsize e ∧
    new ++ pending e' = pending e ∧
    enc_end (bool_decide (p = pos_null)) (if bool_decide (p = pos_null) then bufsize e else sz)
      m p' [] new e'.
Proof.
  intros Hm Hwf. unfold encode. rewrite Hm.
  edestruct (encode_loop_spec c (bool_decide (p = pos_null))
    (if bool_decide (p = pos_null) then bufsize e else sz)
    ((if bool_decide (p = pos_null) then bufsize e else sz) + 3)%nat [] e m)
    as (p' & new & e' & Hr & ?); [done..| | |].
  - simpl. lia.
  - simpl. destruct (new_msg_flag e); lia.
  - exists p', new, e'. by rewrite Hr.
Qed.

Lemma load_msg_spec c e m :
  in_progress e = None → enc_wf c e → sendable c m →
  ∃ e', load_msg m e = Ok e' ∧ in_progress e' = Some m ∧ enc_wf c e' ∧ bufsize e' = bufsize e ∧
    pending e' = frame c m.
Proof.
  intros Hn Hwf Hs. unfold load_msg. rewrite Hn. unfold enc_wf in Hwf. rewrite Hn in Hwf.
  destruct Hwf as (_ & Hx & _). by apply (run_next_msg c (set_in_progress (Some m) e) m).
Qed.

Lemma frame_nonempty c m : sendable c m → frame c m ≠ [].
Proof.
  intros [_ Hr]. unfold frame. destruct c; simpl; [|done|by apply Hr].
  unfold v1_header. by case_match.
Qed.

(** A batch is in the encoder's buffer or, if it is not, at least as large. *)
Definition batch_ok (B : nat) (p : opos) (out : list Z) (e : encoder) : Prop :=
  (p = pos_null → out = []) ∧ (p = pos_data → B ≤ length out)%nat ∧
  (p = pos_buf → length out ≤ B)%nat ∧ (is_Some (in_progress e) → B ≤ length out)%nat.

(** One message more in the batch. *)
Lemma batch_step c B p out m e e2 p2 new :
  (0 < B)%nat → (length out < B)%nat → batch_ok B p out e → sendable c m →
  new ++ pending e2 = frame c m →
  enc_end (bool_decide (p = pos_null)) (if bool_decide (p = pos_null) then B else B - length out)%nat
    m p2 [] new e2 →
  length new ≠ 0%nat ∧ batch_ok B (if decide (p = pos_null) then p2 else p) (out ++ new) e2 ∧
  ¬ (p = pos_data ∨ p = pos_buf ∧ (B < length out + length new)%nat).
Proof.
  intros HB Hlt (Hnull & Hdata & Hbuf & Hprog) Hm Hp2 Hend. split.
  { intros E%nil_length_inv. subst new. destruct Hend as [(Hn & _)|[(_ & _ & E)|(_ & _ & _ & _ & E)]].
    - unfold pending in Hp2. rewrite Hn in Hp2. by apply (frame_nonempty c m).
    - cbn in E. case_bool_decide; lia.
    - cbn in E. case_bool_decide; lia. }
  unfold batch_ok, enc_end in *. rewrite !length_app. destruct p; cbn in *.
  - rewrite Hnull in * by done. cbn in *.
    destruct Hend as [(->&->&?)|[(->&->&?)|(->&->&_&_&?)]]; unfold is_Some; naive_solver lia.
  - destruct Hend as [(->&->&?)|[(->&->&?)|(_&_&?&_)]]; [| |done]; unfold is_Some; naive_solver lia.
  - specialize (Hdata eq_refl). lia.
Qed.

Lemma fill_loop_spec c B queue p out e :
  (0 < B)%nat → bufsize e = B → enc_wf c e → Forall (sendable c) queue → batch_ok B p out e →
  ∃ msgs queue' new e', fill_loop B queue p out e = Ok (queue', out ++ new, e') ∧
    queue = msgs ++ queue' ∧ bufsize e' = B ∧ enc_wf c e' ∧
    new ++ pending e' = pending e ++ concat (frame c <$> msgs) ∧
    (length (out ++ new) < B → queue' = [] ∧ in_progress e' = None)%nat.
Proof.
  intros HB. revert p out e. induction queue as [|m queue IH]; intros p out e Hb Hwf Hq Hok.
  all: assert (pending e = [] ∨ B ≤ length out)%nat as Hpend by
    (destruct Hok as (_ & _ & _ & Hok); destruct (in_progress e) eqn:E;
     [right; eauto|left; unfold pending; by rewrite E]).
  - exists [], [], [], e. cbn [fill_loop]. rewrite !app_nil_r.
    case_decide; split_and!; try done; intros; try lia.
    split; [done|]. destruct (in_progress e) eqn:E; [|done]. destruct Hok as (_ & _ & _ & Hok).
    specialize (Hok ltac:(rewrite E; eauto)). lia.
  - apply Forall_cons_iff in Hq as [Hm Hq]. cbn [fill_loop]. case_decide as Hlt;
      [|exists [], (m :: queue), [], e; rewrite !app_nil_r; split_and!; try done; lia].
    assert (in_progress e = None) as Hnone.
    { destruct (in_progress e) eqn:E; [|done]. destruct Hok as (_ & _ & _ & Hok).
      rewrite E in Hok. specialize (Hok ltac:(eauto)). lia. }
    destruct (load_msg_spec c e m Hnone Hwf Hm) as (e1 & -> & Hm1 & Hwf1 & Hb1 & Hp1).
    destruct (encode_spec c e1 m p (B - length out) Hm1 Hwf1) as (p2 & new & e2 & -> & Hwf2 & Hb2 & Hp2 & Hend).
    rewrite Hp1 in Hp2. rewrite Hb1, Hb in Hend.
    destruct (batch_step c B p out m e e2 p2 new) as (Hne & Hok' & Hnub); try done.
    rewrite decide_False by done. rewrite Hb2, Hb1, Hb, decide_False by done.
    destruct (IH _ (out ++ new) e2 ltac:(congruence) Hwf2 Hq Hok') as (msgs & q' & new' & e' & Hr & -> & ? & ? & Hp & Hlast).
    exists (m :: msgs), q', (new ++ new'), e'. rewrite (assoc_L (++)). split_and!; try done.
    rewrite <-(assoc_L (++)), Hp, (assoc_L (++)), Hp2. destruct Hpend as [->|]; [done|lia].
Qed.

(** ** The bytes on the wire *)

Definition oe_start (c : codec) (B : nat) : out_engine := OutEngine (encoder_of c B) [] [] [] false.

Definition pushed (acts : list out_act) : list wmsg :=
  omap (λ a, match a with act_push m => Some m | act_out _ => None end) acts.

(** The bytes of the messages taken from the queue are the ones sent, the ones in
    the output buffer and the ones still in the encoder, in this order. *)
Definition oe_ok (c : codec) (B : nat) (msgs : list wmsg) (s : out_engine) : Prop :=
  bufsize (oe_encoder s) = B ∧ enc_wf c (oe_encoder s) ∧ Forall (sendable c) (oe_queue s) ∧
  oe_sent s ++ oe_out s ++ pending (oe_encoder s) = concat (frame c <$> msgs).

Lemma encode_batch c B e :
  (0 < B)%nat → bufsize e = B → enc_wf c e →
  ∃ p out e', encode pos_null 0 e = Ok (p, out, e') ∧ bufsize e' = B ∧ enc_wf c e' ∧
    out ++ pending e' = pending e ∧ batch_ok B p out e'.
Proof.
  intros HB Hb Hwf. destruct (in_progress e) as [m|] eqn:Hm.
  - destruct (encode_spec c e m pos_null 0 Hm Hwf) as (p & out & e' & Hr & Hwf' & Hb' & Hp & Hend).
    exists p, out, e'. split_and!; try done; [congruence|]. rewrite Hb in Hend. cbn in Hend.
    unfold batch_ok, is_Some. destruct Hend as [(->&->&?)|[(->&->&?)|(->&->&_&_&?)]]; naive_solver lia.
  - exists pos_null, [], e. unfold encode, batch_ok. rewrite Hm. split_and!; done.
Qed.

(** An event that sends [out]: nothing, or what the socket accepts of it. *)
Lemma out_write_ok c B msgs acc st queue out sent e :
  oe_ok c B msgs (OutEngine e out queue sent st) → oe_ok c B msgs (out_write acc st queue out sent e).
Proof.
  unfold oe_ok, out_write. cbn. intros (? & ? & ? & Hc). destruct (acc (length out)) as [n|]; [|done].
  cbn. split_and!; try done. by rewrite <-(assoc_L (++)), (assoc_L _ (take n out)), take_drop.
Qed.

Lemma out_event_spec c B msgs acc s :
  (0 < B)%nat → oe_ok c B msgs s →
  ∃ s' more, out_event B acc s = Ok s' ∧ oe_queue s = more ++ oe_queue s' ∧
    oe_ok c B (msgs ++ more) s' ∧
    ((∀ n, acc n = Some n) →
      (length (oe_sent s) < length (oe_sent s'))%nat ∨
      oe_queue s' = [] ∧ oe_sent s' = concat (frame c <$> msgs ++ more)).
Proof.
  intros HB Hok. pose proof Hok as (Hb & Hwf & Hq & Hc). unfold out_event. case_decide as Hl.
  - apply nil_length_inv in Hl. rewrite Hl in Hc. cbn in Hc.
    destruct (encode_batch c B _ HB Hb Hwf) as (p & out & e & -> & Hb1 & Hwf1 & Hp1 & Hbat).
    destruct (fill_loop_spec c B (oe_queue s) p out e HB Hb1 Hwf1 Hq Hbat)
      as (more & q' & new & e' & -> & Hq' & Hb2 & Hwf2 & Hp2 & Hlast).
    assert (oe_ok c B (msgs ++ more) (OutEngine e' (out ++ new) q' (oe_sent s) (oe_output_stopped s))) as Hok'.
    { unfold oe_ok. cbn. rewrite Hq' in Hq. apply Forall_app in Hq as [_ Hq]. split_and!; try done.
      by rewrite fmap_app, concat_app, <-Hc, <-Hp1, <-!(assoc_L (++)), Hp2. }
    case_decide as Hz.
    + apply nil_length_inv in Hz. eexists _, more. split_and!; [done|done| |].
      * by rewrite Hz in *.
      * intros _. right. cbn. rewrite Hz in *. destruct (Hlast ltac:(cbn; lia)) as [-> Hn].
        destruct Hok' as (_ & _ & _ & Hok'). cbn in Hok'. unfold pending in Hok'. rewrite Hn in Hok'.
        by rewrite app_nil_r in Hok'.
    + eexists _, more. split_and!; [done| |by apply out_write_ok|].
      * unfold out_write. by destruct (acc _).
      * intros Hacc. left. unfold out_write. rewrite Hacc. cbn. rewrite length_app, take_ge by done. lia.
  - exists (out_write acc (oe_output_stopped s) (oe_queue s) (oe_out s) (oe_sent s) (oe_encoder s)), [].
    rewrite !app_nil_r. split_and!; [done| |by apply out_write_ok|].
    + unfold out_write. by destruct (acc _).
    + intros Hacc. left. unfold out_write. rewrite Hacc. cbn. rewrite length_app, take_ge by done. lia.
Qed.

Lemma run_out_spec c B acts msgs s :
  (0 < B)%nat → oe_ok c B msgs s → Forall (sendable c) (pushed acts) →
  ∃ s' more, run_out B acts s = Ok s' ∧ oe_queue s ++ pushed acts = more ++ oe_queue s' ∧
    oe_ok c B (msgs ++ more) s'.
Proof.
  intros HB. revert msgs s. induction acts as [|[m|acc] acts IH]; intros msgs s Hok Hs; cbn [run_out].
  - exists s, []. by rewrite !app_nil_r.
  - apply Forall_cons_iff in Hs as [Hm Hs].
    destruct (IH msgs (push_out m s)) as (s' & more & Hr & Hq & Hok'); [|done|].
    + destruct Hok as (? & ? & ? & ?). split_and!; try done. cbn. apply Forall_app. split; [done|].
      by apply Forall_singleton.
    + exists s', more. split_and!; try done. cbn in Hq. by rewrite <-(assoc_L (++)) in Hq.
  - destruct (out_event_spec c B msgs acc s HB Hok) as (s1 & m1 & -> & Hq1 & Hok1 & _).
    destruct (IH _ _ Hok1 Hs) as (s' & more & Hr & Hq & Hok'). exists s', (m1 ++ more).
    rewrite (assoc_L (++) msgs). split_and!; try done. cbn.
    rewrite Hq1, <-!(assoc_L (++)). by f_equal.
Qed.

Lemma run_out_drains c B acc msgs s :
  (0 < B)%nat → (∀ n, acc n = Some n) → oe_ok c B msgs s →
  ∃ k s', run_out B (replicate k (act_out acc)) s = Ok s' ∧
    oe_sent s' = concat (frame c <$> msgs ++ oe_queue s).
Proof.
  intros HB Hacc. remember (length (concat (frame c <$> msgs ++ oe_queue s)) - length (oe_sent s))%nat as k eqn:Hk.
  revert msgs s Hk. induction (lt_wf k) as [k _ IH]. intros msgs s -> Hok.
  destruct (out_event_spec c B msgs acc s HB Hok) as (s1 & more & Hr & Hq & Hok1 & Hp).
  destruct (Hp Hacc) as [Hlt|[Hqe Hall]].
  - destruct (IH (length (concat (frame c <$> (msgs ++ more) ++ oe_queue s1)) - length (oe_sent s1))%nat)
      with (msgs := msgs ++ more) (s := s1) as (k & s' & Hr' & Hs'); try done.
    + rewrite Hq, (assoc_L (++)). destruct Hok1 as (_ & _ & _ & Hc).
      rewrite fmap_app, concat_app, <-Hc, !length_app. lia.
    + exists (S k), s'. cbn [replicate run_out]. rewrite Hr. split; [done|].
      by rewrite Hs', Hq, (assoc_L (++)).
  - exists 1%nat, s1. cbn. rewrite Hr. split; [done|]. by rewrite Hq, Hqe, app_nil_r.
Qed.

Lemma oe_start_ok c B : oe_ok c B [] (oe_start c B).
Proof. unfold oe_ok, enc_wf, pending. by destruct c; cbn; split_and!. Qed.

Lemma run_out_all c B acts acc :
  (0 < B)%nat → (∀ n, acc n = Some n) → Forall (sendable c) (pushed acts) →
  ∃ s k s', run_out B acts (oe_start c B) = Ok s ∧ run_out B (replicate k (act_out acc)) s = Ok s' ∧
    oe_sent s' = concat (frame c <$> pushed acts).
Proof.
  intros HB Hacc Hs. destruct (run_out_spec c B acts [] _ HB (oe_start_ok c B) Hs) as (s & msgs & Hr & Hq & Hok).
  destruct (run_out_drains c B acc msgs s HB Hacc Hok) as (k & s' & Hr' & E).
  exists s, k, s'. cbn in Hq. by rewrite Hq.
Qed.

(** C15: however the socket takes the output, the engine and its encoder run
    without an error, and what the socket has got, followed by what is in the
    output buffer and in the encoder, are the frames of the messages taken from the
    queue, in order and complete; and when the socket takes all it is offered, it
    gets the frames of every message that was put in the queue.  The output buffer
    is not empty, the size of each message and one more fit in [size_t], and no
    message for the raw encoder is empty: it has no header, so [out_event] would
    fail its assertion that the encoder gives at least a byte (the ROUTER and
    STREAM sockets close the connection for an empty message instead of sending
    it). *)
Theorem output_is_frames c B acts :
  (0 < B)%nat → Forall (sendable c) (pushed acts) →
  ∃ s msgs, run_out B acts (oe_start c B) = Ok s ∧ pushed acts = msgs ++ oe_queue s ∧
    oe_sent s ++ oe_out s ++ pending (oe_encoder s) = concat (frame c <$> msgs) ∧
    ∀ acc, (∀ n, acc n = Some n) →
      ∃ k s', run_out B (replicate k (act_out acc)) s = Ok s' ∧
        oe_sent s' = concat (frame c <$> pushed acts).
Proof.
  intros HB Hs. destruct (run_out_spec c B acts [] _ HB (oe_start_ok c B) Hs) as (s & msgs & Hr & Hq & Hok).
  exists s, msgs. cbn in Hq. split_and!; [done..|by destruct Hok as (_ & _ & _ & ?)|].
  intros acc Hacc. rewrite Hq. by apply (run_out_drains c B acc msgs s).
Qed.

Lemma output_is_frames_witness :
  ∃ s msgs, run_out 4 [act_push (WMsg 1 [7; 8]); act_out (λ n, Some (min n 3))] (oe_start V2 4) = Ok s ∧
    [WMsg 1 [7; 8]] = msgs ++ oe_queue s ∧
    oe_sent s ++ oe_out s ++ pending (oe_encoder s) = concat (frame V2 <$> msgs) ∧
    ∀ acc, (∀ n, acc n = Some n) →
      ∃ k s', run_out 4 (replicate k (act_out acc)) s = Ok s' ∧ oe_sent s' = [1; 2; 7; 8].
Proof.
  apply (output_is_frames V2 4 [act_push (WMsg 1 [7; 8]); act_out (λ n, Some (min n 3))]); [lia|].
  constructor; [|constructor]. split; [vm_compute; reflexivity|discriminate].
Defined.
