(* ===== verification/ZmqMsg.v ===== *)
(** * Messages and their storage (libzmq/src/msg.cpp, atomic_counter.hpp)

    A message is a small object that holds its data itself (vsm), points at a
    block of its own with the data (lmsg), at constant data (cmsg), or at data in
    the receive buffer of a decoder (zclmsg).  Blocks are shared between messages
    and counted.

    Memory is a finite map of blocks.  A block has an address, bytes, and the
    counters that the program keeps in it; a byte that was never written is
    [None].  A freed block is not used again, so a use after free and a double
    free are errors.  [malloc] is an oracle: for the number of the call and the
    size it gives an address or fails. *)

From stdpp Require Import base tactics list numbers gmap strings.
From S2P Require Import Prelude ZmqWire ZmqEncoder.

Local Open Scope Z_scope.

Definition mbyte := option Z.

Inductive ptr := pnull | pat (b : N) (off : Z).

#[global] Instance ptr_eq_dec : EqDecision ptr.
Proof. solve_decision. Defined.

(** The functions that release data: the one of the decoders' buffers, and one
    that belongs to the user of the library. *)
Inductive free_fn := call_dec_ref | user_free.

#[global] Instance free_fn_eq_dec : EqDecision free_fn.
Proof. solve_decision. Defined.

(** [content_t] of msg.hpp. *)
Record content_t := Content {
  ct_data : ptr; ct_size : Z; ct_ffn : option free_fn; ct_hint : option N; ct_refcnt : Z
}.

(** A block: the address of its bytes, the bytes, the counter at its start and
    the counters after the bytes (buffers of decoders), the [content_t] at its
    start (messages). *)
Record block := Block {
  b_addr : Z; b_bytes : list mbyte; b_ctr : Z; b_ctrs : list Z; b_content : option content_t
}.

Record mem := Mem {
  blocks : gmap N block;
  calls : N;                       (* calls of [malloc] so far *)
  metas : gmap N Z;                (* reference counts of [metadata_t] objects *)
  user_freed : list (ptr * option N)    (* calls of the user's function *)
}.

Definition set_blocks (f : gmap N block → gmap N block) (m : mem) : mem :=
  Mem (f (blocks m)) (calls m) (metas m) (user_freed m).
Definition set_metas (f : gmap N Z → gmap N Z) (m : mem) : mem :=
  Mem (blocks m) (calls m) (f (metas m)) (user_freed m).

Definition fatal_assert {S} (b : bool) (msg : string) : M S () :=
  if b then mret () else throw (Fatal msg).

(** ** Access to memory *)

Definition get_block (b : N) : M mem block := λ m,
  match blocks m !! b with Some k => Ok (k, m) | None => Err (Undefined Dangling) end.
Definition put_block (b : N) (k : block) : M mem () := modify (set_blocks <[b := k]>).

Definition free (b : N) : M mem () := get_block b;; modify (set_blocks (delete b)).

Definition in_range (off : Z) (n : nat) (k : block) : bool :=
  (0 <=? off) && (off + Z.of_nat n <=? Z.of_nat (length (b_bytes k))).

(** The source and the target of [memcpy]. *)
Definition load (p : ptr) (n : nat) : M mem (list mbyte) :=
  if decide (n = 0%nat) then mret [] else
  match p with
  | pnull => undefined NullDeref
  | pat b off =>
      k ← get_block b;
      if in_range off n k then mret (take n (drop (Z.to_nat off) (b_bytes k)))
      else undefined OutOfBounds
  end.

Definition overwrite (off : nat) (bs l : list mbyte) : list mbyte :=
  take off l ++ bs ++ drop (off + length bs) l.

Definition store (p : ptr) (bs : list mbyte) : M mem () :=
  if decide (length bs = 0%nat) then mret () else
  match p with
  | pnull => undefined NullDeref
  | pat b off =>
      k ← get_block b;
      if in_range off (length bs) k then
        put_block b (Block (b_addr k) (overwrite (Z.to_nat off) bs (b_bytes k)) (b_ctr k)
                       (b_ctrs k) (b_content k))
      else undefined OutOfBounds
  end.

(** ** Counters (atomic_counter.hpp)

    A counter is at the start of a block, in its array of counters, or in the
    content at its start. *)
Inductive cptr := c_start (b : N) | c_arr (b : N) (i : nat) | c_content (b : N).

#[global] Instance cptr_eq_dec : EqDecision cptr.
Proof. solve_decision. Defined.

Definition ctr_get (c : cptr) : M mem Z :=
  match c with
  | c_start b => k ← get_block b; mret (b_ctr k)
  | c_arr b i =>
      k ← get_block b;
      match b_ctrs k !! i with Some v => mret v | None => undefined OutOfBounds end
  | c_content b =>
      k ← get_block b;
      match b_content k with Some c => mret (ct_refcnt c) | None => undefined BadCast end
  end.

Definition ctr_set (c : cptr) (v : Z) : M mem () :=
  match c with
  | c_start b =>
      k ← get_block b;
      put_block b (Block (b_addr k) (b_bytes k) v (b_ctrs k) (b_content k))
  | c_arr b i =>
      k ← get_block b;
      match b_ctrs k !! i with
      | Some _ =>
          put_block b (Block (b_addr k) (b_bytes k) (b_ctr k) (<[i := v]> (b_ctrs k)) (b_content k))
      | None => undefined OutOfBounds
      end
  | c_content b =>
      k ← get_block b;
      match b_content k with
      | Some c =>
          put_block b (Block (b_addr k) (b_bytes k) (b_ctr k) (b_ctrs k)
            (Some (Content (ct_data c) (ct_size c) (ct_ffn c) (ct_hint c) v)))
      | None => undefined BadCast
      end
  end.

(** [add] returns the old value, [sub] whether the new one is not zero. *)
Definition ctr_add (c : cptr) (increment : Z) : M mem Z :=
  v ← ctr_get c; ctr_set c (u32 (v + increment));; mret v.

Definition ctr_sub (c : cptr) (decrement : Z) : M mem bool :=
  v ← ctr_get c; ctr_set c (u32 (v - decrement));; mret (negb (u32 (v - decrement) =? 0)).

(** ** Messages *)

Inductive mbody :=
  | vsm (data : list mbyte)          (* [u.vsm.data], its first [u.vsm.size] bytes *)
  | lmsg (content : option N)
  | delimiter
  | cmsg (data : ptr) (size : Z)
  | zclmsg (data : ptr) (size : Z) (ffn : option free_fn) (hint : option N) (refcnt : cptr)
  | invalid.                         (* [u.base.type] is 0 *)

Record msg_t := Msg {
  body : mbody; flags : Z; metadata : option N; routing_id : Z; file_desc : Z
}.

Definition msg_credential : Z := 32.
Definition msg_identity : Z := 64.
Definition msg_shared : Z := 128.

Definition sizeof_content_t : Z := 40.
Definition max_vsm_size : Z := 64 - (8 + 8 + 3 + 4).

(** [errno] after a call that returns -1; [None] is a return of 0. *)
Inductive errno := EFAULT | ENOMEM | EINVAL | EMSGSIZE | EPROTO | EAGAIN.

#[global] Instance errno_eq_dec : EqDecision errno.
Proof. solve_decision. Defined.

Definition set_flags (f : Z) (m : msg_t) : msg_t :=
  Msg (body m) (Z.lor (flags m) f) (metadata m) (routing_id m) (file_desc m).
Definition reset_flags (f : Z) (m : msg_t) : msg_t :=
  Msg (body m) (Z.ldiff (flags m) f) (metadata m) (routing_id m) (file_desc m).
Definition set_fd (fd : Z) (m : msg_t) : msg_t :=
  Msg (body m) (flags m) (metadata m) (routing_id m) fd.
Definition set_body (b : mbody) (m : msg_t) : msg_t :=
  Msg b (flags m) (metadata m) (routing_id m) (file_desc m).
Definition set_md (md : option N) (m : msg_t) : msg_t :=
  Msg (body m) (flags m) md (routing_id m) (file_desc m).

Definition check (m : msg_t) : bool := match body m with invalid => false | _ => true end.
Definition is_identity (m : msg_t) : bool := Z.land (flags m) msg_identity =? msg_identity.
Definition is_credential (m : msg_t) : bool := Z.land (flags m) msg_credential =? msg_credential.
Definition is_delimiter (m : msg_t) : bool := match body m with delimiter => true | _ => false end.
Definition is_vsm (m : msg_t) : bool := match body m with vsm _ => true | _ => false end.
Definition is_cmsg (m : msg_t) : bool := match body m with cmsg _ _ => true | _ => false end.
Definition is_zcmsg (m : msg_t) : bool := match body m with zclmsg _ _ _ _ _ => true | _ => false end.

Definition set_routing_id (id : Z) (m : msg_t) : option errno * msg_t :=
  if id =? 0 then (Some EINVAL, m)
  else (None, Msg (body m) (flags m) (metadata m) id (file_desc m)).

Section msg.
Context (malloc : N → Z → option Z).

(** [malloc (total)]: the new block is named after the call. *)
Definition new_block (total : Z) (k : Z → block) : M mem (option N) := λ m,
  let n := calls m in
  match malloc n total with
  | Some a => Ok (Some n, Mem (<[n := k a]> (blocks m)) (n + 1)%N (metas m) (user_freed m))
  | None => Ok (None, Mem (blocks m) (n + 1)%N (metas m) (user_freed m))
  end.

Definition init : msg_t := Msg (vsm []) 0 None 0 (-1).

Definition init_size (size_ : Z) : M mem (option errno * msg_t) :=
  if size_ <=? max_vsm_size then
    mret (None, Msg (vsm (replicate (Z.to_nat size_) None)) 0 None 0 (-1))
  else
    content ←
      (if u64 (sizeof_content_t + size_) >? size_ then
         new_block (sizeof_content_t + size_)
           (λ a, Block (a + sizeof_content_t) (replicate (Z.to_nat size_) None) 0 [] None)
       else mret None);
    match content with
    | None => mret (Some ENOMEM, Msg (lmsg None) 0 None 0 (-1))
    | Some b =>
        k ← get_block b;
        put_block b (Block (b_addr k) (b_bytes k) (b_ctr k) (b_ctrs k)
                       (Some (Content (pat b 0) size_ None None 0)));;
        mret (None, Msg (lmsg (Some b)) 0 None 0 (-1))
    end.

Definition init_external_storage (data_ : ptr) (size_ : Z) (ctr : option cptr)
    (ffn_ : option free_fn) (hint_ : option N) : M mem msg_t :=
  fatal_assert (bool_decide (data_ ≠ pnull)) "Assertion failed: NULL != data_";;
  match ctr with
  | None => throw (Fatal "Assertion failed: NULL != ctr")
  | Some ctr =>
      ctr_set ctr 0;;
      mret (Msg (zclmsg data_ size_ ffn_ hint_ ctr) 0 None 0 (-1))
  end.

Definition init_data (data_ : ptr) (size_ : Z) (ffn_ : option free_fn) (hint_ : option N)
    : M mem (option errno * msg_t) :=
  fatal_assert (bool_decide (data_ ≠ pnull ∨ size_ = 0)) "Assertion failed: data_ != NULL || size_ == 0";;
  match ffn_ with
  | None => mret (None, Msg (cmsg data_ size_) 0 None 0 (-1))
  | Some f =>
      content ← new_block sizeof_content_t
        (λ a, Block (a + sizeof_content_t) [] 0 [] (Some (Content data_ size_ (Some f) hint_ 0)));
      match content with
      | None => mret (Some ENOMEM, Msg (lmsg None) 0 None 0 (-1))
      | Some b => mret (None, Msg (lmsg (Some b)) 0 None 0 (-1))
      end
  end.

(** [init (data_, size_, ffn_, hint, refcnt_)]: small data are copied. *)
Definition init_from (data_ : ptr) (size_ : Z) (ffn_ : option free_fn) (hint : option N)
    (refcnt_ : option cptr) : M mem (option errno * msg_t) :=
  if size_ <? max_vsm_size then
    '(rc, m) ← init_size size_;
    match rc with
    | None => bs ← load data_ (Z.to_nat size_); mret (None, set_body (vsm bs) m)
    | Some e => mret (Some e, m)
    end
  else
    match refcnt_ with
    | Some c => m ← init_external_storage data_ size_ (Some c) ffn_ hint; mret (None, m)
    | None => init_data data_ size_ ffn_ hint
    end.

Definition init_delimiter : msg_t := Msg delimiter 0 None 0 (-1).

(** [shared_message_memory_allocator::call_dec_ref], which lets go of a decoder's
    buffer, and the call of a function that releases data. *)
Definition run_call_dec_ref (hint : option N) : M mem () :=
  match hint with
  | None => throw (Fatal "Assertion failed: hint")
  | Some b => more ← ctr_sub (c_start b) 1; if more : bool then mret () else free b
  end.

Definition call_ffn (f : free_fn) (data : ptr) (hint : option N) : M mem () :=
  match f with
  | call_dec_ref => run_call_dec_ref hint
  | user_free => modify (λ m, Mem (blocks m) (calls m) (metas m) (user_freed m ++ [(data, hint)]))
  end.

Definition get_content (b : option N) : M mem (N * content_t) :=
  match b with
  | None => undefined NullDeref
  | Some b =>
      k ← get_block b;
      match b_content k with Some c => mret (b, c) | None => undefined BadCast end
  end.

Definition is_shared (m : msg_t) : bool := has_flag (flags m) msg_shared.

(** The content of a long message is released when its last user lets go of it. *)
Definition release_content (b : N) : M mem () :=
  '(_, c) ← get_content (Some b);
  match ct_ffn c with Some f => call_ffn f (ct_data c) (ct_hint c) | None => mret () end;;
  free b.

(** [metadata_t::add_ref], and [drop_ref] with the deletion that follows it. *)
Definition meta_add_ref (i : N) : M mem () := λ m,
  match metas m !! i with
  | Some n => Ok ((), set_metas <[i := u32 (n + 1)]> m)
  | None => Err (Undefined Dangling)
  end.
Definition meta_drop_ref (i : N) : M mem () := λ m,
  match metas m !! i with
  | Some n =>
      Ok ((), set_metas (if u32 (n - 1) =? 0 then delete i else <[i := u32 (n - 1)]>) m)
  | None => Err (Undefined Dangling)
  end.

Definition close_body (m : msg_t) : M mem () :=
  match body m with
  | lmsg content =>
      '(b, _) ← get_content content;
      more ← (if is_shared m then ctr_sub (c_content b) 1 else mret false);
      if more : bool then mret () else release_content b
  | zclmsg data _ ffn hint refcnt =>
      match ffn with
      | None => throw (Fatal "Assertion failed: u.zclmsg.ffn")
      | Some f =>
          more ← (if is_shared m then ctr_sub refcnt 1 else mret false);
          if more : bool then mret () else call_ffn f data hint
      end
  | _ => mret ()
  end.

Definition close (m : msg_t) : M mem (option errno * msg_t) :=
  if negb (check m) then mret (Some EFAULT, m)
  else
    close_body m;;
    match metadata m with Some i => meta_drop_ref i | None => mret () end;;
    mret (None, Msg invalid (flags m) None (routing_id m) (file_desc m)).

(** [move] and [copy] into the first message, from the second. *)
Definition move (this src : msg_t) : M mem (option errno * msg_t * msg_t) :=
  if negb (check src) then mret (Some EFAULT, this, src)
  else
    '(rc, this) ← close this;
    match rc with
    | Some e => mret (Some e, this, src)
    | None => mret (None, src, init)
    end.

Definition refcnt_of (m : msg_t) : M mem cptr :=
  match body m with
  | lmsg content => '(b, _) ← get_content content; mret (c_content b)
  | zclmsg _ _ _ _ refcnt => mret refcnt
  | _ => throw (Fatal "Assertion failed: false")
  end.

(** One reference more for a message with a counter; the first one counts two. *)
Definition share (src : msg_t) : M mem msg_t :=
  match body src with
  | lmsg _ | zclmsg _ _ _ _ _ =>
      c ← refcnt_of src;
      if is_shared src then ctr_add c 1;; mret src
      else ctr_set c 2;; mret (set_flags msg_shared src)
  | _ => mret src
  end.

Definition copy (this src : msg_t) : M mem (option errno * msg_t * msg_t) :=
  if negb (check src) then mret (Some EFAULT, this, src)
  else
    '(rc, this) ← close this;
    match rc with
    | Some e => mret (Some e, this, src)
    | None =>
        src ← share src;
        match metadata src with Some i => meta_add_ref i | None => mret () end;;
        mret (None, src, src)
    end.

(** [data ()]: an address in the message object itself or elsewhere. *)
Inductive dptr := in_msg | in_heap (p : ptr).

Definition data (m : msg_t) : M mem dptr :=
  match body m with
  | vsm _ => mret in_msg
  | lmsg content => '(_, c) ← get_content content; mret (in_heap (ct_data c))
  | cmsg d _ => mret (in_heap d)
  | zclmsg d _ _ _ _ => mret (in_heap d)
  | delimiter => throw (Fatal "Assertion failed: false")
  | invalid => throw (Fatal "Assertion failed: check ()")
  end.

Definition size (m : msg_t) : M mem Z :=
  match body m with
  | vsm bs => mret (Z.of_nat (length bs))
  | lmsg content => '(_, c) ← get_content content; mret (ct_size c)
  | zclmsg _ s _ _ _ => mret s
  | cmsg _ s => mret s
  | delimiter => throw (Fatal "Assertion failed: false")
  | invalid => throw (Fatal "Assertion failed: check ()")
  end.

(** The [size ()] bytes at [data ()]. *)
Definition contents (m : msg_t) : M mem (list mbyte) :=
  d ← data m; n ← size m;
  match d with
  | in_msg => match body m with vsm bs => mret bs | _ => undefined BadCast end
  | in_heap p => load p (Z.to_nat n)
  end.

(** A write of the user to the data, from the offset [off] on. *)
Definition write_data (off : nat) (bs : list mbyte) (m : msg_t) : M mem msg_t :=
  d ← data m;
  match d with
  | in_msg =>
      match body m with
      | vsm old =>
          if (off + length bs <=? length old)%nat then mret (set_body (vsm (overwrite off bs old)) m)
          else undefined OutOfBounds
      | _ => undefined BadCast
      end
  | in_heap (pat b o) => store (pat b (o + Z.of_nat off)) bs;; mret m
  | in_heap pnull => store pnull bs;; mret m
  end.

Definition set_metadata (i : N) (m : msg_t) : M mem msg_t :=
  fatal_assert (bool_decide (metadata m = None)) "Assertion failed: u.base.metadata == NULL";;
  meta_add_ref i;;
  mret (set_md (Some i) m).

Definition reset_metadata (m : msg_t) : M mem msg_t :=
  match metadata m with
  | Some i => meta_drop_ref i;; mret (set_md None m)
  | None => mret m
  end.

(** [add_refs] announces copies made without [copy]; [rm_refs] takes them back and
    returns false when the message is gone. *)
Definition add_refs (refs : Z) (m : msg_t) : M mem msg_t :=
  fatal_assert (0 <=? refs) "Assertion failed: refs_ >= 0";;
  fatal_assert (bool_decide (metadata m = None)) "Assertion failed: u.base.metadata == NULL";;
  if refs =? 0 then mret m
  else
    match body m with
    | lmsg _ | zclmsg _ _ _ _ _ =>
        c ← refcnt_of m;
        if is_shared m then ctr_add c refs;; mret m
        else ctr_set c (u32 (refs + 1));; mret (set_flags msg_shared m)
    | _ => mret m
    end.

Definition rm_refs (refs : Z) (m : msg_t) : M mem (bool * msg_t) :=
  fatal_assert (0 <=? refs) "Assertion failed: refs_ >= 0";;
  fatal_assert (bool_decide (metadata m = None)) "Assertion failed: u.base.metadata == NULL";;
  if refs =? 0 then mret (true, m)
  else
    match body m, is_shared m with
    | lmsg content, true =>
        '(b, _) ← get_content content;
        more ← ctr_sub (c_content b) refs;
        if more : bool then mret (true, m) else release_content b;; mret (false, m)
    | zclmsg d _ ffn hint refcnt, true =>
        more ← ctr_sub refcnt refs;
        if more : bool then mret (true, m)
        else
          match ffn with Some f => call_ffn f d hint | None => mret () end;;
          mret (false, m)
    | _, _ => '(_, m) ← close m; mret (false, m)
    end.
End msg.
