(* ===== verification/ZmqMsgSpec.v ===== *)
(** * Shared messages are safe (libzmq/src/msg.cpp)

    The invariant of memory with respect to the messages that exist: each counter
    counts the messages that share it, each block has a user, and each buffer
    counts the groups of messages in it and the references that decoders hold.
    Closing, copying, moving and making messages keep it, never meet undefined
    behaviour and leave the data of the other messages alone; a block is freed
    with its last user. *)

From stdpp Require Import base tactics list numbers gmap strings.
From S2P Require Import Prelude ZmqWire ZmqEncoder ZmqMsg.

Local Open Scope Z_scope.

(** ** Who uses what *)

(** The counter a message shares with others. *)
Definition key (m : msg_t) : option cptr :=
  match body m with
  | lmsg (Some b) => Some (c_content b)
  | zclmsg _ _ _ _ c => Some c
  | _ => None
  end.

Definition nusers (k : cptr) (ms : list msg_t) : nat := length (filter (λ m, key m = Some k) ms).

(** The number of counters in use in the array of a buffer. *)
Fixpoint groups (b : N) (n : nat) (ms : list msg_t) : nat :=
  match n with
  | O => 0
  | S n => (if decide (nusers (c_arr b n) ms = 0) then 0 else 1) + groups b n ms
  end%nat.

Definition held_refs (b : N) (held : list N) : nat := length (filter (λ x, x = b) held).

Definition ctr_val (mm : mem) (c : cptr) : option Z :=
  match c with
  | c_start b => b_ctr <$> blocks mm !! b
  | c_arr b i => k ← blocks mm !! b; b_ctrs k !! i
  | c_content b => k ← blocks mm !! b; ct_refcnt <$> b_content k
  end.

(** Data a content describes: bytes of its own block, or the user's. *)
Definition content_ok (b : N) (k : block) (c : content_t) : Prop :=
  (ct_ffn c = None ∧ ct_data c = pat b 0 ∧ ct_size c = Z.of_nat (length (b_bytes k))) ∨
  ct_ffn c = Some user_free.

Definition msg_wf (mm : mem) (m : msg_t) : Prop :=
  metadata m = None ∧
  match body m with
  | lmsg (Some b) =>
      ∃ k c, blocks mm !! b = Some k ∧ b_content k = Some c ∧ content_ok b k c
  | lmsg None | invalid => False
  | zclmsg d s ffn hint c =>
      ∃ b i off k, c = c_arr b i ∧ hint = Some b ∧ ffn = Some call_dec_ref ∧ d = pat b off ∧
        blocks mm !! b = Some k ∧ b_content k = None ∧ (i < length (b_ctrs k))%nat ∧
        0 ≤ off ∧ 0 ≤ s ∧ off + s ≤ Z.of_nat (length (b_bytes k))
  | _ => True
  end.

(** The invariant of memory, for the messages [ms] and the references [held] to
    buffers. *)
Record msgs_inv (mm : mem) (ms : list msg_t) (held : list N) : Prop := {
  inv_wf m : m ∈ ms → msg_wf mm m;
  inv_cnt m k : m ∈ ms → key m = Some k →
    if is_shared m then ctr_val mm k = Some (Z.of_nat (nusers k ms)) else nusers k ms = 1%nat;
  inv_agree m m' : m ∈ ms → m' ∈ ms → key m = key m' → is_Some (key m) → body m = body m';
  inv_content b k c : blocks mm !! b = Some k → b_content k = Some c →
    (0 < nusers (c_content b) ms)%nat;
  inv_buffer b k : blocks mm !! b = Some k → b_content k = None →
    b_ctr k = Z.of_nat (groups b (length (b_ctrs k)) ms + held_refs b held) ∧ 0 < b_ctr k;
  inv_held b : b ∈ held → ∃ k, blocks mm !! b = Some k ∧ b_content k = None;
  inv_fresh b : is_Some (blocks mm !! b) → (b < calls mm)%N;
  inv_room : Z.of_nat (length ms + length held) < 2 ^ 31
}.

(** ** Counting *)

Lemma nusers_cons k m ms :
  nusers k (m :: ms) = ((if decide (key m = Some k) then 1 else 0) + nusers k ms)%nat.
Proof. unfold nusers. rewrite filter_cons. by case_decide. Qed.

Lemma nusers_nokey k m ms : key m = None → nusers k (m :: ms) = nusers k ms.
Proof. intros E. rewrite nusers_cons, E. by case_decide. Qed.

Lemma nusers_other k m ms : key m ≠ Some k → nusers k (m :: ms) = nusers k ms.
Proof. intros E. rewrite nusers_cons. by case_decide. Qed.

Lemma nusers_same k m ms : key m = Some k → nusers k (m :: ms) = S (nusers k ms).
Proof. intros E. rewrite nusers_cons. by case_decide. Qed.

#[global] Instance nusers_perm k : Proper ((≡ₚ) ==> (=)) (nusers k).
Proof. intros l l' Hl. unfold nusers. by rewrite Hl. Qed.

Lemma nusers_pos k ms : (0 < nusers k ms)%nat ↔ ∃ m, m ∈ ms ∧ key m = Some k.
Proof.
  unfold nusers. split.
  - intros H. destruct (filter _ _) as [|m l] eqn:E; [simpl in H; lia|].
    exists m. assert (m ∈ filter (λ m, key m = Some k) ms) as Hm by (rewrite E; left).
    apply list_elem_of_filter in Hm. tauto.
  - intros (m & Hm & Hk). assert (m ∈ filter (λ m, key m = Some k) ms) as Hf
      by (by apply list_elem_of_filter). destruct (filter _ _); [by apply not_elem_of_nil in Hf|simpl; lia].
Qed.

Lemma nusers_le k ms : (nusers k ms ≤ length ms)%nat.
Proof. apply length_filter. Qed.

Lemma groups_ext b n ms ms' :
  (∀ i, (i < n)%nat → nusers (c_arr b i) ms = 0%nat ↔ nusers (c_arr b i) ms' = 0%nat) →
  groups b n ms = groups b n ms'.
Proof.
  induction n as [|n IH]; intros H; [done|]. cbn [groups]. rewrite IH by (intros; apply H; lia).
  specialize (H n ltac:(lia)). repeat case_decide; tauto.
Qed.

#[global] Instance groups_perm b n : Proper ((≡ₚ) ==> (=)) (groups b n).
Proof. intros l l' Hl. apply groups_ext. intros i _. by rewrite Hl. Qed.

Lemma groups_nokey b n m ms : (∀ i, key m ≠ Some (c_arr b i)) → groups b n (m :: ms) = groups b n ms.
Proof. intros H. apply groups_ext. intros i _. by rewrite nusers_other by apply H. Qed.

Lemma groups_more b n m ms i :
  key m = Some (c_arr b i) → nusers (c_arr b i) ms ≠ 0%nat → groups b n (m :: ms) = groups b n ms.
Proof.
  intros H Hn. apply groups_ext. intros j _. rewrite nusers_cons. case_decide; [|done].
  simplify_eq. lia.
Qed.

Lemma groups_first b n m ms i :
  key m = Some (c_arr b i) → nusers (c_arr b i) ms = 0%nat → (i < n)%nat →
  groups b n (m :: ms) = S (groups b n ms).
Proof.
  intros H Hn. induction n as [|n IH]; intros Hi; [lia|]. cbn [groups].
  destruct (decide (i = n)) as [->|].
  - rewrite (nusers_same _ m ms) by done. rewrite Hn. rewrite decide_False by lia.
    rewrite decide_True by done. cbn. f_equal. apply groups_ext. intros j Hj.
    rewrite nusers_other; [done|]. intros E. simplify_eq. lia.
  - rewrite IH by lia. rewrite (nusers_other (c_arr b n)) by congruence. lia.
Qed.

Lemma groups_pos b n ms j : (j < n)%nat → nusers (c_arr b j) ms ≠ 0%nat → (0 < groups b n ms)%nat.
Proof.
  intros Hj Hn. induction n as [|n IH]; [lia|]. cbn [groups]. case_decide; [|lia].
  destruct (decide (j = n)) as [->|]; [lia|]. apply IH. lia.
Qed.

Lemma groups_le b n ms : (groups b n ms ≤ length ms)%nat.
Proof.
  induction ms as [|m ms IH]; cbn [length].
  - clear. induction n as [|n IH]; [done|]. cbn [groups]. rewrite decide_True by done. done.
  - assert (groups b n (m :: ms) = groups b n ms ∨ groups b n (m :: ms) = S (groups b n ms)) as [->| ->]; [|lia..].
    destruct (key m) as [[b'|b' i|b']|] eqn:Hk; try (left; apply groups_nokey; congruence).
    destruct (decide (b' = b)) as [->|]; [|left; apply groups_nokey; congruence].
    destruct (decide (nusers (c_arr b i) ms = 0%nat)) as [Hn|Hn]; [|left; by eapply groups_more].
    destruct (decide (i < n)%nat); [right; by eapply groups_first|].
    left. apply groups_ext. intros j Hj. rewrite nusers_other; [done|]. intros ?. simplify_eq. lia.
Qed.

(** ** Memory that only lost blocks and changed counters *)

Definition same_content (c c' : content_t) : Prop :=
  ct_data c' = ct_data c ∧ ct_size c' = ct_size c ∧ ct_ffn c' = ct_ffn c ∧ ct_hint c' = ct_hint c.

Definition shape (k k' : block) : Prop :=
  b_addr k' = b_addr k ∧ b_bytes k' = b_bytes k ∧ length (b_ctrs k') = length (b_ctrs k) ∧
  match b_content k, b_content k' with
  | None, None => True
  | Some c, Some c' => same_content c c'
  | _, _ => False
  end.

#[global] Instance shape_refl : Reflexive shape.
Proof. intros k. unfold shape. split_and!; try done. by destruct (b_content k). Qed.

#[global] Instance shape_trans : Transitive shape.
Proof.
  intros k1 k2 k3 (?&?&?&Hc1) (?&?&?&Hc2). unfold shape. split_and!; try congruence.
  destruct (b_content k1), (b_content k2), (b_content k3); try done. unfold same_content in *.
  destruct_and!. split_and!; congruence.
Qed.

Definition mem_le (mm mm' : mem) : Prop :=
  calls mm' = calls mm ∧
  ∀ b k', blocks mm' !! b = Some k' → ∃ k, blocks mm !! b = Some k ∧ shape k k'.

#[global] Instance mem_le_preorder : PreOrder mem_le.
Proof.
  split.
  - intros mm. split; [done|]. intros b k H. by exists k.
  - intros m1 m2 m3 [E1 H1] [E2 H2]. split; [congruence|]. intros b k3 H3.
    destruct (H2 b k3 H3) as (k2 & Hk2 & S2). destruct (H1 b k2 Hk2) as (k1 & Hk1 & S1).
    exists k1. split; [done|]. by trans k2.
Qed.

Definition cblk (c : cptr) : N := match c with c_start b | c_arr b _ | c_content b => b end.

Definition upd_block (c : cptr) (v : Z) (k : block) : block :=
  match c with
  | c_start _ => Block (b_addr k) (b_bytes k) v (b_ctrs k) (b_content k)
  | c_arr _ i => Block (b_addr k) (b_bytes k) (b_ctr k) (<[i := v]> (b_ctrs k)) (b_content k)
  | c_content _ => Block (b_addr k) (b_bytes k) (b_ctr k) (b_ctrs k)
      ((λ c, Content (ct_data c) (ct_size c) (ct_ffn c) (ct_hint c) v) <$> b_content k)
  end.

Definition upd_ctr (c : cptr) (v : Z) (mm : mem) : mem := set_blocks (alter (upd_block c v) (cblk c)) mm.

Lemma upd_block_shape c v k : shape k (upd_block c v k).
Proof.
  unfold shape. destruct c; cbn; split_and!; try done; try (by destruct (b_content k)).
  by rewrite length_insert.
Qed.

Lemma upd_ctr_le c v mm : mem_le mm (upd_ctr c v mm).
Proof.
  split; [done|]. intros b k'. cbn. destruct (decide (b = cblk c)) as [->|].
  - rewrite lookup_alter_eq, fmap_Some. intros (k & Hk & ->). exists k. split; [done|].
    apply upd_block_shape.
  - rewrite lookup_alter_ne by done. intros Hk. by exists k'.
Qed.

Lemma ctr_get_run mm c v : ctr_val mm c = Some v → ctr_get c mm = Ok (v, mm).
Proof.
  unfold ctr_val, ctr_get, get_block, mbind, M_bind. destruct c; cbn.
  all: destruct (blocks mm !! b) as [k|] eqn:Hk; cbn; [|done]; intros H; rewrite ?Hk; cbn.
  - by simplify_eq.
  - rewrite H. done.
  - destruct (b_content k); cbn in *; by simplify_eq.
Qed.

Lemma ctr_set_run mm c v v0 : ctr_val mm c = Some v0 → ctr_set c v mm = Ok ((), upd_ctr c v mm).
Proof.
  unfold ctr_val, ctr_set, get_block, mbind, M_bind, put_block, modify, upd_ctr, set_blocks.
  destruct c; cbn [cblk].
  all: destruct (blocks mm !! b) as [k|] eqn:Hk; cbn; [|done]; rewrite (alter_alt_Some _ _ _ k) by done.
  - done.
  - by intros ->.
  - cbn. by destruct (b_content k).
Qed.

Lemma ctr_sub_run mm c v d :
  ctr_val mm c = Some v → 0 ≤ v - d < 2 ^ 32 →
  ctr_sub c d mm = Ok (negb (v - d =? 0), upd_ctr c (v - d) mm).
Proof.
  intros Hv Hr. unfold ctr_sub. rewrite (bind_run _ _ mm v mm) by by apply ctr_get_run.
  unfold u32. rewrite Z.mod_small by done.
  by rewrite (bind_run _ _ mm () (upd_ctr c (v - d) mm)) by by eapply ctr_set_run.
Qed.

Lemma ctr_add_run mm c v d :
  ctr_val mm c = Some v → 0 ≤ v + d < 2 ^ 32 → ctr_add c d mm = Ok (v, upd_ctr c (v + d) mm).
Proof.
  intros Hv Hr. unfold ctr_add. rewrite (bind_run _ _ mm v mm) by by apply ctr_get_run.
  unfold u32. rewrite Z.mod_small by done.
  by rewrite (bind_run _ _ mm () (upd_ctr c (v + d) mm)) by by eapply ctr_set_run.
Qed.

Lemma upd_ctr_val mm c v c' v0 :
  ctr_val mm c = Some v0 → ctr_val (upd_ctr c v mm) c' = if decide (c' = c) then Some v else ctr_val mm c'.
Proof.
  unfold ctr_val, upd_ctr, set_blocks. intros Hv.
  destruct c as [b|b i|b], c' as [b'|b' i'|b']; cbn in *.
  all: destruct (decide (b' = b)) as [->|Hb]; [rewrite lookup_alter_eq|rewrite lookup_alter_ne by done].
  all: try (destruct (blocks mm !! b) as [k|]; [|done]; cbn in *).
  all: try (case_decide; simplify_eq; try done).
  - by rewrite list_lookup_insert_eq by (by eapply lookup_lt_Some).
  - rewrite list_lookup_insert_ne; [done|]. congruence.
  - by destruct (b_content k).
Qed.

Lemma free_run mm b : is_Some (blocks mm !! b) → free b mm = Ok ((), set_blocks (delete b) mm).
Proof. intros [k Hk]. unfold free, get_block, mbind, M_bind. by rewrite Hk. Qed.

Lemma delete_le b mm : mem_le mm (set_blocks (delete b) mm).
Proof. split; [done|]. intros b' k'. cbn. intros [_ H]%lookup_delete_Some. by exists k'. Qed.

(** ** Taking a message away *)

Lemma msg_wf_mono mm mm' m :
  msg_wf mm m → mem_le mm mm' → (∀ k, key m = Some k → is_Some (blocks mm' !! cblk k)) → msg_wf mm' m.
Proof.
  intros [Hmd Hwf] [_ Hle] Hs. split; [done|]. unfold key in Hs. destruct (body m) as [|[b|]| | |d s ffn hint c|]; try done.
  - destruct Hwf as (k & c & Hk & Hc & Hok). destruct (Hs _ eq_refl) as [k' Hk'].
    destruct (Hle _ _ Hk') as (k0 & Hk0 & Ha & Hb & _ & Hsh). cbn in Hk0. simplify_eq.
    rewrite Hc in Hsh. destruct (b_content k') as [c'|] eqn:Hc'; [|done].
    destruct Hsh as (? & ? & ? & ?). exists k', c'. split_and!; try done.
    unfold content_ok in *. rewrite Hb. destruct Hok as [(? & ? & ?)|?]; [left|right]; split_and?; congruence.
  - destruct Hwf as (b & i & off & k & -> & -> & -> & -> & Hk & Hc & Hi & ? & ? & ?).
    destruct (Hs _ eq_refl) as [k' Hk']. destruct (Hle _ _ Hk') as (k0 & Hk0 & Ha & Hb & Hl & Hsh).
    cbn in Hk0, Hk'. simplify_eq. rewrite Hc in Hsh. exists b, i, off, k'.
    rewrite Hb, Hl. destruct (b_content k') eqn:?; [done|]. by split_and!.
Qed.

Lemma msgs_inv_remove mm mm' m ms held :
  msgs_inv mm (m :: ms) held → mem_le mm mm' →
  (∀ m' k, m' ∈ ms → key m' = Some k → is_Some (blocks mm' !! cblk k)) →
  (∀ m' k, m' ∈ ms → key m' = Some k → is_shared m' = true →
    ctr_val mm' k = Some (Z.of_nat (nusers k ms))) →
  (∀ b k c, blocks mm' !! b = Some k → b_content k = Some c → (0 < nusers (c_content b) ms)%nat) →
  (∀ b k, blocks mm' !! b = Some k → b_content k = None →
    b_ctr k = Z.of_nat (groups b (length (b_ctrs k)) ms + held_refs b held) ∧ 0 < b_ctr k) →
  (∀ b, b ∈ held → is_Some (blocks mm' !! b)) →
  msgs_inv mm' ms held.
Proof.
  intros Hinv Hle Hblk Hcnt Hcont Hbuf Hheld. split; try done.
  - intros m' Hm'. eapply msg_wf_mono; [apply Hinv; by right|done|by intros; eapply Hblk].
  - intros m' k Hm' Hk. destruct (is_shared m') eqn:Hs; [by eapply Hcnt|].
    pose proof (inv_cnt _ _ _ Hinv m' k ltac:(by right) Hk) as H. rewrite Hs, nusers_cons in H.
    assert (0 < nusers k ms)%nat by (apply nusers_pos; eauto). lia.
  - intros m1 m2 H1 H2. eapply inv_agree; [done|by right..].
  - intros b Hb. destruct (Hheld b Hb) as [k' Hk']. destruct (proj2 Hle _ _ Hk') as (k & Hk & _ & _ & _ & Hsh).
    destruct (inv_held _ _ _ Hinv b Hb) as (k0 & Hk0 & Hc). simplify_eq. rewrite Hc in Hsh.
    exists k'. split; [done|]. by destruct (b_content k').
  - intros b [k' Hk']. destruct (proj2 Hle _ _ Hk') as (k & Hk & _). rewrite (proj1 Hle).
    eapply inv_fresh; [done|]. by exists k.
  - pose proof (inv_room _ _ _ Hinv) as H. cbn in H. lia.
Qed.

(** The messages that remain find their blocks, and counters that nothing changed
    still count their users. *)
Lemma inv_block mm ms held m k : msgs_inv mm ms held → m ∈ ms → key m = Some k → is_Some (blocks mm !! cblk k).
Proof.
  intros Hinv Hm Hk. destruct (inv_wf _ _ _ Hinv m Hm) as [_ Hwf]. unfold key in Hk.
  destruct (body m) as [|[b|]| | |d s ffn hint c|]; simplify_eq.
  - destruct Hwf as (k & c & Hk & _). by exists k.
  - destruct Hwf as (b & i & off & k0 & -> & _ & _ & _ & Hk & _). by exists k0.
Qed.

Lemma inv_shared_val mm ms held m k :
  msgs_inv mm ms held → m ∈ ms → key m = Some k → is_shared m = true →
  ctr_val mm k = Some (Z.of_nat (nusers k ms)).
Proof. intros Hinv Hm Hk Hs. pose proof (inv_cnt _ _ _ Hinv m k Hm Hk) as H. by rewrite Hs in H. Qed.

Lemma remove_nokey mm m ms held : msgs_inv mm (m :: ms) held → key m = None → msgs_inv mm ms held.
Proof.
  intros Hinv Hk. eapply msgs_inv_remove; [done|done|..].
  - intros m' k Hm' Hk'. eapply inv_block; [done|by right|done].
  - intros m' k Hm' Hk' Hs. rewrite <-(nusers_nokey k m) by done. eapply inv_shared_val; [done|by right|done..].
  - intros b k c Hb Hc. rewrite <-(nusers_nokey _ m) by done. by eapply inv_content.
  - intros b k Hb Hc. rewrite <-(groups_nokey b _ m) by congruence. by eapply inv_buffer.
  - intros b Hb. destruct (inv_held _ _ _ Hinv b Hb) as (k & ? & _). by exists k.
Qed.

Lemma upd_ctr_lookup mm c v b :
  blocks (upd_ctr c v mm) !! b = (if decide (b = cblk c) then upd_block c v <$> blocks mm !! b else blocks mm !! b).
Proof.
  cbn. case_decide as E; [subst b; apply lookup_alter_eq|by apply lookup_alter_ne].
Qed.

Lemma groups_keep b n m ms k :
  key m = Some k → nusers k ms ≠ 0%nat → groups b n (m :: ms) = groups b n ms.
Proof.
  intros Hk Hn. apply groups_ext. intros i _. rewrite nusers_cons. case_decide; [|done]. simplify_eq. lia.
Qed.

Lemma inv_key_not_start mm ms held m k : msgs_inv mm ms held → m ∈ ms → key m = Some k → ∀ b, k ≠ c_start b.
Proof.
  intros Hinv Hm Hk b ->. destruct (inv_wf _ _ _ Hinv m Hm) as [_ Hwf]. unfold key in Hk.
  destruct (body m) as [|[]| | | |]; simplify_eq. naive_solver.
Qed.

(** One of several users goes: the counter says how many are left. *)
Lemma remove_more mm m ms held k :
  msgs_inv mm (m :: ms) held → key m = Some k → is_shared m = true → nusers k ms ≠ 0%nat →
  msgs_inv (upd_ctr k (Z.of_nat (nusers k ms)) mm) ms held.
Proof.
  intros Hinv Hk Hs Hn.
  pose proof (inv_shared_val _ _ _ m k Hinv ltac:(left) Hk Hs) as Hv.
  eapply msgs_inv_remove; [done|apply upd_ctr_le|..].
  - intros m' k' Hm' Hk'. rewrite upd_ctr_lookup.
    destruct (inv_block _ _ _ m' k' Hinv ltac:(by right) Hk') as [? ->]. case_decide; by eexists.
  - intros m' k' Hm' Hk' Hs'. erewrite upd_ctr_val by done. case_decide as E; [by subst|].
    rewrite <-(nusers_other k' m) by congruence. eapply inv_shared_val; [done|by right|done..].
  - intros b kb c Hb Hc. destruct (decide (k = c_content b)) as [->|]; [lia|].
    rewrite <-(nusers_other _ m) by congruence. destruct (proj2 (upd_ctr_le k (Z.of_nat (nusers k ms)) mm) b kb Hb) as (kb0 & Hb0 & Hsh).
    destruct Hsh as (_ & _ & _ & Hsh). rewrite Hc in Hsh. destruct (b_content kb0) eqn:?; [|done].
    by eapply inv_content.
  - intros b kb Hb Hc. rewrite <-(groups_keep b _ m ms k) by done.
    pose proof (inv_key_not_start _ _ _ m k Hinv ltac:(left) Hk) as Hns.
    rewrite upd_ctr_lookup in Hb. case_decide; [|by eapply inv_buffer].
    apply fmap_Some in Hb as (kb0 & Hb & ->).
    destruct k; cbn in *; [by destruct (Hns b0)| |].
    + rewrite length_insert. by eapply inv_buffer.
    + eapply inv_buffer; [done..|]. by destruct (b_content kb0).
  - intros b Hb. rewrite upd_ctr_lookup. destruct (inv_held _ _ _ Hinv b Hb) as (kb & -> & _).
    case_decide; by eexists.
Qed.

Lemma inv_key_content mm ms held m b :
  msgs_inv mm ms held → m ∈ ms → key m = Some (c_content b) →
  body m = lmsg (Some b) ∧
  ∃ k c, blocks mm !! b = Some k ∧ b_content k = Some c ∧ content_ok b k c.
Proof.
  intros Hinv Hm Hk. destruct (inv_wf _ _ _ Hinv m Hm) as [_ Hwf]. unfold key in Hk.
  destruct (body m) as [|[]| | | |]; simplify_eq; naive_solver.
Qed.

Lemma inv_key_arr mm ms held m b i :
  msgs_inv mm ms held → m ∈ ms → key m = Some (c_arr b i) →
  ∃ off s k, body m = zclmsg (pat b off) s (Some call_dec_ref) (Some b) (c_arr b i) ∧
    blocks mm !! b = Some k ∧ b_content k = None ∧ (i < length (b_ctrs k))%nat.
Proof.
  intros Hinv Hm Hk. destruct (inv_wf _ _ _ Hinv m Hm) as [_ Hwf]. unfold key in Hk.
  destruct (body m) as [|[]| | | |]; simplify_eq.
  destruct Hwf as (b' & i' & off & k & ? & -> & -> & -> & ? & ? & ? & ?). simplify_eq.
  naive_solver.
Qed.

(** The last user of a content goes, and the block with it. *)
Lemma remove_content mm mm' m ms held b :
  msgs_inv mm (m :: ms) held → key m = Some (c_content b) → nusers (c_content b) ms = 0%nat →
  blocks mm' = delete b (blocks mm) → calls mm' = calls mm →
  msgs_inv mm' ms held ∧ mem_le mm mm'.
Proof.
  intros Hinv Hk Hn Hb Hcalls. assert (mem_le mm mm') as Hle.
  { split; [done|]. rewrite Hb. intros b' k' [_ ?]%lookup_delete_Some. by exists k'. }
  split; [|done].
  destruct (inv_key_content _ _ _ m b Hinv ltac:(left) Hk) as (_ & kb & c & Hkb & Hc & _).
  assert (∀ m' k, m' ∈ ms → key m' = Some k → cblk k ≠ b) as Hother.
  { intros m' k Hm' Hk' E. destruct k as [b'|b' i|b']; cbn in E; subst b'.
    - by eapply (inv_key_not_start _ _ _ m' _ Hinv ltac:(by right) Hk').
    - destruct (inv_key_arr _ _ _ m' b i Hinv ltac:(by right) Hk') as (? & ? & ? & _ & ? & ? & _). by simplify_eq.
    - assert (0 < nusers (c_content b) ms)%nat by (apply nusers_pos; eauto). lia. }
  eapply msgs_inv_remove; [done|done|..].
  - intros m' k Hm' Hk'. rewrite Hb, lookup_delete_ne by (symmetry; by eapply Hother).
    eapply inv_block; [done|by right|done].
  - intros m' k Hm' Hk' Hs.
    assert (ctr_val mm' k = ctr_val mm k) as ->.
    { unfold ctr_val. rewrite Hb. specialize (Hother m' k Hm' Hk'). destruct k; cbn in *; by rewrite lookup_delete_ne. }
    rewrite <-(nusers_other k m) by (rewrite Hk; intros [= <-]; by eapply Hother).
    eapply inv_shared_val; [done|by right|done..].
  - intros b' k' c' Hb' Hc'. rewrite Hb in Hb'. apply lookup_delete_Some in Hb' as [? Hb'].
    rewrite <-(nusers_other _ m) by congruence. by eapply inv_content.
  - intros b' k' Hb' Hc'. rewrite Hb in Hb'. apply lookup_delete_Some in Hb' as [? Hb'].
    rewrite <-(groups_nokey _ _ m) by congruence. by eapply inv_buffer.
  - intros b' Hb'. destruct (inv_held _ _ _ Hinv b' Hb') as (k' & Hk' & Hc').
    rewrite Hb, lookup_delete_ne; [by exists k'|]. intros ->. by simplify_eq.
Qed.

(** The last user of a counter of a buffer goes: the buffer has one reference less,
    or goes as well. *)
Lemma remove_group mm mm' m ms held b i kb kb' :
  msgs_inv mm (m :: ms) held → key m = Some (c_arr b i) → nusers (c_arr b i) ms = 0%nat →
  blocks mm !! b = Some kb → shape kb kb' → b_ctr kb' = b_ctr kb - 1 →
  (∀ j, j ≠ i → b_ctrs kb' !! j = b_ctrs kb !! j) →
  blocks mm' = (if b_ctr kb - 1 =? 0 then delete b (blocks mm) else <[b := kb']> (blocks mm)) →
  calls mm' = calls mm →
  msgs_inv mm' ms held ∧ mem_le mm mm'.
Proof.
  intros Hinv Hk Hn Hkb Hsh Hctr Hctrs Hb Hcalls.
  destruct (inv_key_arr _ _ _ m b i Hinv ltac:(left) Hk) as (_ & _ & k0 & _ & Hk0 & Hc0 & Hi). simplify_eq.
  destruct (inv_buffer _ _ _ Hinv b kb Hkb Hc0) as [Hcnt Hpos].
  rewrite (groups_first b _ m ms i) in Hcnt by done.
  assert (∀ b', b' ≠ b → blocks mm' !! b' = blocks mm !! b') as Hne.
  { intros b' ?. rewrite Hb. case_match; [by rewrite lookup_delete_ne|by rewrite lookup_insert_ne]. }
  assert (blocks mm' !! b = if b_ctr kb - 1 =? 0 then None else Some kb') as Hbb.
  { rewrite Hb. case_match; [apply lookup_delete_eq|apply lookup_insert_eq]. }
  assert (mem_le mm mm') as Hle.
  { split; [done|]. intros b' k' Hb'. destruct (decide (b' = b)) as [->|].
    - rewrite Hbb in Hb'. case_match; simplify_eq. by exists kb.
    - rewrite Hne in Hb' by done. by exists k'. }
  split; [|done].
  assert (∀ m' k, m' ∈ ms → key m' = Some k → cblk k = b → ∃ j, k = c_arr b j ∧ j ≠ i ∧ b_ctr kb - 1 ≠ 0) as Hsame.
  { intros m' k Hm' Hk' E. destruct k as [b'|b' j|b']; cbn in E; subst b'.
    - by destruct (inv_key_not_start _ _ _ m' _ Hinv ltac:(by right) Hk' b).
    - exists j. assert (0 < nusers (c_arr b j) ms)%nat as Hpos' by (apply nusers_pos; eauto).
      split_and!; [done|intros ->; lia|].
      destruct (inv_key_arr _ _ _ m' b j Hinv ltac:(by right) Hk') as (_ & _ & k1 & _ & ? & _ & Hj). simplify_eq.
      pose proof (groups_pos b _ ms j Hj). lia.
    - destruct (inv_key_content _ _ _ m' b Hinv ltac:(by right) Hk') as (_ & ? & ? & ? & ? & _). by simplify_eq. }
  eapply msgs_inv_remove; [done|done|..].
  - intros m' k Hm' Hk'. destruct (decide (cblk k = b)) as [E|].
    + destruct (Hsame m' k Hm' Hk' E) as (j & -> & _ & ?). cbn. rewrite Hbb. case_match; [lia|by eexists].
    + rewrite Hne by done. eapply inv_block; [done|by right|done].
  - intros m' k Hm' Hk' Hs.
    assert (ctr_val mm' k = ctr_val mm k ∧ k ≠ c_arr b i) as [-> ?].
    { destruct (decide (cblk k = b)) as [E|E].
      - destruct (Hsame m' k Hm' Hk' E) as (j & -> & Hj & ?). cbn. rewrite Hbb, Hkb.
        case_match; [lia|]. cbn. split; [by apply Hctrs|congruence].
      - unfold ctr_val. destruct k; cbn in *; rewrite Hne by done; split; congruence. }
    rewrite <-(nusers_other k m) by congruence. eapply inv_shared_val; [done|by right|done..].
  - intros b' k' c' Hb' Hc'. rewrite <-(nusers_other _ m) by congruence.
    destruct (proj2 Hle _ _ Hb') as (k & Hk1 & _ & _ & _ & Hsh'). rewrite Hc' in Hsh'.
    destruct (b_content k) eqn:?; [|done]. by eapply inv_content.
  - intros b' k' Hb' Hc'. destruct (decide (b' = b)) as [->|].
    + rewrite Hbb in Hb'. case_match eqn:E; [done|]. simplify_eq.
      destruct Hsh as (_ & _ & -> & _). rewrite Hctr, Hcnt. lia.
    + rewrite Hne in Hb' by done. rewrite <-(groups_nokey _ _ m) by congruence. by eapply inv_buffer.
  - intros b' Hb'. destruct (inv_held _ _ _ Hinv b' Hb') as (k' & Hk' & Hc').
    destruct (decide (b' = b)) as [->|]; [|rewrite Hne by done; by exists k'].
    rewrite Hbb. case_match eqn:E; [|by eexists]. exfalso.
    assert (0 < held_refs b held)%nat; [|lia]. unfold held_refs.
    assert (b ∈ filter (λ x, x = b) held) as Hf by (by apply list_elem_of_filter).
    destruct (filter _ _); [by apply not_elem_of_nil in Hf|simpl; lia].
Qed.

(** ** Closing a message *)

Lemma delete_alter_eq (f : block → block) b (bs : gmap N block) : delete b (alter f b bs) = delete b bs.
Proof.
  apply map_eq. intros b'. destruct (decide (b' = b)) as [->|].
  - by rewrite !lookup_delete_eq.
  - by rewrite !lookup_delete_ne, lookup_alter_ne.
Qed.

Lemma release_content_spec mm mm1 m ms held b :
  msgs_inv mm (m :: ms) held → key m = Some (c_content b) → nusers (c_content b) ms = 0%nat →
  (mm1 = mm ∨ ∃ v, mm1 = upd_ctr (c_content b) v mm) →
  ∃ mm', release_content b mm1 = Ok ((), mm') ∧ msgs_inv mm' ms held ∧ mem_le mm mm'.
Proof.
  intros Hinv Hk Hn Hmm.
  destruct (inv_key_content _ _ _ m b Hinv ltac:(left) Hk) as (_ & kb & c & Hkb & Hc & Hok).
  assert (∃ kb1 c1, blocks mm1 !! b = Some kb1 ∧ b_content kb1 = Some c1 ∧ ct_ffn c1 = ct_ffn c ∧
    delete b (blocks mm1) = delete b (blocks mm) ∧ calls mm1 = calls mm) as (kb1 & c1 & Hkb1 & Hc1 & Hffn & Hdel & Hcalls).
  { destruct Hmm as [->|[v ->]]; [by exists kb, c|].
    exists (upd_block (c_content b) v kb). eexists. rewrite upd_ctr_lookup, decide_True by done.
    rewrite Hkb. cbn. rewrite Hc. cbn. split_and!; try done. apply delete_alter_eq. }
  unfold release_content. rewrite (bind_run _ _ mm1 (b, c1) mm1).
  2:{ unfold get_content, get_block, mbind, M_bind. rewrite Hkb1, Hc1. done. }
  rewrite Hffn. destruct Hok as [(-> & _ & _)| ->].
  - rewrite (bind_run _ _ mm1 () mm1) by done. rewrite free_run by (by eexists).
    eexists. split; [done|]. by eapply remove_content.
  - eexists. split; [unfold call_ffn, modify, mbind at 1, M_bind; rewrite free_run; [done|by eexists]|].
    by eapply remove_content.
Qed.

Lemma call_dec_ref_spec mm mm1 m ms held b i :
  msgs_inv mm (m :: ms) held → key m = Some (c_arr b i) → nusers (c_arr b i) ms = 0%nat →
  (mm1 = mm ∨ ∃ v, mm1 = upd_ctr (c_arr b i) v mm) →
  ∃ mm', run_call_dec_ref (Some b) mm1 = Ok ((), mm') ∧ msgs_inv mm' ms held ∧ mem_le mm mm'.
Proof.
  intros Hinv Hk Hn Hmm.
  destruct (inv_key_arr _ _ _ m b i Hinv ltac:(left) Hk) as (_ & _ & kb & _ & Hkb & Hc & Hi).
  destruct (inv_buffer _ _ _ Hinv b kb Hkb Hc) as [Hcnt Hpos].
  pose proof (groups_le b (length (b_ctrs kb)) (m :: ms)) as Hgl.
  assert (held_refs b held ≤ length held)%nat as Hhl by apply length_filter.
  pose proof (inv_room _ _ _ Hinv) as Hroom.
  assert (∃ kb1, blocks mm1 = <[b := kb1]> (blocks mm) ∧ shape kb kb1 ∧ b_ctr kb1 = b_ctr kb ∧
    (∀ j, j ≠ i → b_ctrs kb1 !! j = b_ctrs kb !! j) ∧ calls mm1 = calls mm) as (kb1 & Hb1 & Hsh & Hctr & Hctrs & Hcalls).
  { destruct Hmm as [->|[v ->]].
    - exists kb. split_and!; try done. by rewrite insert_id.
    - exists (upd_block (c_arr b i) v kb). split_and!; try done.
      + by apply (alter_alt_Some (upd_block (c_arr b i) v)).
      + apply upd_block_shape.
      + intros j Hj. cbn. by apply list_lookup_insert_ne. }
  assert (ctr_val mm1 (c_start b) = Some (b_ctr kb)) as Hv by (cbn; by rewrite Hb1, lookup_insert_eq, <-Hctr).
  unfold run_call_dec_ref. rewrite (bind_run _ _ mm1 _ _ (ctr_sub_run mm1 (c_start b) _ 1 Hv ltac:(lia))).
  set (kb' := upd_block (c_start b) (b_ctr kb - 1) kb1).
  assert (shape kb kb') as Hsh' by (trans kb1; [done|apply upd_block_shape]).
  destruct (b_ctr kb - 1 =? 0) eqn:E; cbn [negb]; eexists; (split;
    [first [apply free_run; rewrite upd_ctr_lookup, Hb1; case_decide; rewrite lookup_insert_eq; by eexists|done]|]).
  - eapply (remove_group mm _ m ms held b i kb kb'); try done. rewrite E. cbn. rewrite delete_alter_eq, Hb1.
    apply delete_insert_eq.
  - eapply (remove_group mm _ m ms held b i kb kb'); try done. rewrite E. cbn. rewrite Hb1.
    by rewrite alter_insert_eq.
Qed.

Lemma close_body_spec mm m ms held :
  msgs_inv mm (m :: ms) held →
  ∃ mm', close_body m mm = Ok ((), mm') ∧ msgs_inv mm' ms held ∧ mem_le mm mm'.
Proof.
  intros Hinv. pose proof (inv_wf _ _ _ Hinv m ltac:(left)) as [_ Hwf].
  pose proof (inv_room _ _ _ Hinv) as Hroom.
  destruct (key m) as [k|] eqn:Hk.
  2:{ exists mm. split_and!; [|by eapply remove_nokey|done]. unfold close_body, key in *.
      destruct (body m) as [|[]| | | |]; done. }
  pose proof (nusers_le k ms) as Hle. cbn [length] in Hroom.
  assert (∀ c, c = k → ∃ mm1 more, (if is_shared m then ctr_sub c 1 else mret false) mm = Ok (more, mm1) ∧
    if more : bool then msgs_inv mm1 ms held ∧ mem_le mm mm1
    else nusers k ms = 0%nat ∧ (mm1 = mm ∨ ∃ v, mm1 = upd_ctr k v mm)) as Hcount.
  { intros c ->. pose proof (inv_cnt _ _ _ Hinv m k ltac:(left) Hk) as Hcnt.
    destruct (is_shared m) eqn:Hs.
    - rewrite nusers_same in Hcnt by done. rewrite (ctr_sub_run mm k _ 1 Hcnt) by lia.
      replace (Z.of_nat (S (nusers k ms)) - 1) with (Z.of_nat (nusers k ms)) by lia.
      eexists _, _. split; [done|]. destruct (Z.eqb_spec (Z.of_nat (nusers k ms)) 0); cbn.
      + split; [lia|eauto].
      + split; [eapply remove_more; [done..|lia]|apply upd_ctr_le].
    - exists mm, false. rewrite nusers_same in Hcnt by done. split_and!; [done|lia|by left]. }
  unfold close_body, key in *. destruct (body m) as [|[b|]| | |d s ffn hint c|] eqn:Hbody; simplify_eq.
  - destruct (Hcount _ eq_refl) as (mm1 & more & Hr & Hm).
    destruct Hwf as (kb & c & Hkb & Hc & _).
    rewrite (bind_run _ _ mm (b, c) mm) by (unfold get_content, get_block, mbind, M_bind; by rewrite Hkb, Hc).
    rewrite (bind_run _ _ mm _ _ Hr). destruct more; [by exists mm1|]. destruct Hm as [Hn Hm].
    eapply release_content_spec; try done. unfold key. by rewrite Hbody.
  - destruct (Hcount _ eq_refl) as (mm1 & more & Hr & Hm).
    destruct Hwf as (b & i & off & kb & -> & -> & -> & -> & Hkb & Hc & _).
    rewrite (bind_run _ _ mm _ _ Hr). destruct more; [by exists mm1|]. destruct Hm as [Hn Hm].
    eapply call_dec_ref_spec; try done. unfold key. by rewrite Hbody.
Qed.

Lemma close_spec mm m ms held :
  msgs_inv mm (m :: ms) held →
  ∃ mm' m', close m mm = Ok ((None, m'), mm') ∧ msgs_inv mm' ms held ∧ mem_le mm mm'.
Proof.
  intros Hinv. destruct (close_body_spec mm m ms held Hinv) as (mm' & Hr & Hinv' & Hle).
  destruct (inv_wf _ _ _ Hinv m ltac:(left)) as [Hmd Hwf]. unfold close, check.
  destruct (body m) eqn:Hb; try done; cbn [negb].
  all: rewrite (bind_run _ _ mm () mm' Hr), Hmd; rewrite (bind_run _ _ mm' () mm' eq_refl); by eexists _, _.
Qed.

(** ** One message more *)

#[global] Instance msgs_inv_perm mm : Proper ((≡ₚ) ==> (=) ==> iff) (msgs_inv mm).
Proof.
  assert (∀ ms ms' held, ms ≡ₚ ms' → msgs_inv mm ms held → msgs_inv mm ms' held) as H.
  { intros ms ms' held Hp Hinv. split.
    - intros m. rewrite <-!Hp. apply Hinv.
    - intros m k. rewrite <-!Hp. exact (inv_cnt _ _ _ Hinv m k).
    - intros m m'. rewrite <-!Hp. apply Hinv.
    - intros b k c. rewrite <-!Hp. apply Hinv.
    - intros b k. rewrite <-!Hp. apply Hinv.
    - apply Hinv.
    - apply Hinv.
    - rewrite <-!Hp. apply Hinv. }
  intros ms ms' Hp held ? <-. split; by apply H.
Qed.

Lemma add_nokey mm m ms held :
  msgs_inv mm ms held → msg_wf mm m → key m = None →
  Z.of_nat (length (m :: ms) + length held) < 2 ^ 31 → msgs_inv mm (m :: ms) held.
Proof.
  intros Hinv Hwf Hk Hroom. split; try done.
  - intros m' [->|Hm']%elem_of_cons; [done|by eapply inv_wf].
  - intros m' k [->|Hm']%elem_of_cons Hk'; [congruence|]. rewrite nusers_nokey by done. by eapply inv_cnt.
  - intros m1 m2 [->|H1]%elem_of_cons [->|H2]%elem_of_cons E [k Hs]; try congruence. by eapply inv_agree; eauto.
  - intros b k c Hb Hc. rewrite nusers_nokey by done. by eapply inv_content.
  - intros b k Hb Hc. rewrite groups_nokey by congruence. by eapply inv_buffer.
  - apply Hinv.
  - apply Hinv.
Qed.

Lemma key_body m m' : body m' = body m → key m' = key m.
Proof. unfold key. by intros ->. Qed.

Lemma msg_wf_body mm m m' : body m' = body m → metadata m' = metadata m → msg_wf mm m → msg_wf mm m'.
Proof. unfold msg_wf. by intros -> ->. Qed.

(** A second message for the same data, once the counter is right. *)
Lemma add_shared mm m m' ms held k :
  msgs_inv mm (m :: ms) held → key m = Some k → body m' = body m → metadata m' = None →
  is_shared m' = true → is_Some (ctr_val mm k) →
  Z.of_nat (length (m :: m :: ms) + length held) < 2 ^ 31 →
  msgs_inv (upd_ctr k (Z.of_nat (S (nusers k (m :: ms)))) mm) (m' :: m' :: ms) held.
Proof.
  intros Hinv Hk Hbody Hmd Hs [v0 Hv0] Hroom.
  pose proof (key_body _ _ Hbody) as Hkey. rewrite Hk in Hkey.
  pose proof (upd_ctr_le k (Z.of_nat (S (nusers k (m :: ms)))) mm) as Hle.
  assert (∀ k', k' ≠ k → nusers k' (m' :: m' :: ms) = nusers k' (m :: ms)) as Hne.
  { intros k' ?. by rewrite !nusers_other by congruence. }
  assert (nusers k (m' :: m' :: ms) = S (nusers k (m :: ms))) as He by (by rewrite !nusers_same).
  assert (∀ b n, groups b n (m' :: m' :: ms) = groups b n (m :: ms)) as Hg.
  { intros b n. apply groups_ext. intros i _. destruct (decide (c_arr b i = k)) as [<-|].
    - rewrite He, nusers_same by done. lia.
    - by rewrite Hne. }
  assert (∀ b, is_Some (blocks mm !! b) → is_Some (blocks (upd_ctr k (Z.of_nat (S (nusers k (m :: ms)))) mm) !! b)) as Hblk.
  { intros b [kb Hb]. rewrite upd_ctr_lookup, Hb. case_decide; by eexists. }
  assert (∀ m0, m0 ∈ m' :: m' :: ms → ∃ m1, m1 ∈ m :: ms ∧ body m1 = body m0 ∧ metadata m1 = metadata m0 ∧ (m1 = m0 ∨ m0 = m')) as Hin.
  { assert (metadata m = None) by (by destruct (inv_wf _ _ _ Hinv m ltac:(left))).
    intros m0 [->|[->|Hm0]%elem_of_cons]%elem_of_cons; [exists m|exists m|exists m0];
      (split_and!; [by (left||right)|congruence|congruence|auto]). }
  split.
  - intros m0 Hm0. destruct (Hin m0 Hm0) as (m1 & Hm1 & Hb1 & Hmd1 & _).
    eapply msg_wf_body; [by symmetry|by symmetry|].
    eapply msg_wf_mono; [by eapply inv_wf|done|]. intros k' Hk'. apply Hblk. by eapply inv_block.
  - intros m0 k' Hm0 Hk'. erewrite upd_ctr_val by done. destruct (Hin m0 Hm0) as (m1 & Hm1 & Hb1 & _ & [->| ->]).
    + pose proof (inv_cnt _ _ _ Hinv m0 k' Hm1 Hk') as Hc. case_decide as E.
      * subst k'. rewrite He. destruct (is_shared m0) eqn:Hs0; [done|].
        apply elem_of_cons in Hm0 as [->|[->|Hm0]%elem_of_cons]; [congruence..|].
        rewrite nusers_same in Hc by done. assert (0 < nusers k ms)%nat by (apply nusers_pos; eauto). lia.
      * by rewrite Hne.
    + rewrite Hs. assert (k' = k) as -> by congruence. by rewrite decide_True, He.
  - intros m1 m2 H1 H2 E Hs'. destruct (Hin m1 H1) as (n1 & Hn1 & Hb1 & _). destruct (Hin m2 H2) as (n2 & Hn2 & Hb2 & _).
    pose proof (key_body _ _ Hb1) as Hk1. pose proof (key_body _ _ Hb2) as Hk2.
    rewrite <-Hb1, <-Hb2. eapply inv_agree; [done..|congruence|congruence].
  - intros b kb c Hb Hc. destruct (decide (c_content b = k)) as [<-|]; [rewrite He; lia|]. rewrite Hne by done.
    destruct (proj2 Hle _ _ Hb) as (kb0 & Hb0 & _ & _ & _ & Hsh). rewrite Hc in Hsh.
    destruct (b_content kb0) eqn:?; [|done]. by eapply inv_content.
  - intros b kb Hb Hc. rewrite Hg. pose proof (inv_key_not_start _ _ _ m k Hinv ltac:(left) Hk) as Hns.
    rewrite upd_ctr_lookup in Hb. case_decide; [|by eapply inv_buffer].
    apply fmap_Some in Hb as (kb0 & Hb & ->). destruct k; cbn in *; [by destruct (Hns b0)| |].
    + rewrite length_insert. by eapply inv_buffer.
    + eapply inv_buffer; [done..|]. by destruct (b_content kb0).
  - intros b Hb. destruct (inv_held _ _ _ Hinv b Hb) as (kb & Hkb & Hc). rewrite upd_ctr_lookup, Hkb.
    case_decide; [|by exists kb]. eexists. split; [done|]. destruct k; cbn; rewrite ?Hc; done.
  - intros b [kb Hb]. destruct (proj2 Hle _ _ Hb) as (kb0 & Hb0 & _). rewrite (proj1 Hle).
    eapply inv_fresh; [done|]. by exists kb0.
  - done.
Qed.

Lemma is_shared_set m : is_shared (set_flags msg_shared m) = true.
Proof.
  unfold is_shared, has_flag, set_flags. cbn [flags].
  assert (Z.land (Z.lor (flags m) msg_shared) msg_shared = msg_shared) as ->; [|done].
  apply Z.bits_inj'. intros n _. rewrite Z.land_spec, Z.lor_spec. by destruct (Z.testbit _ _), (Z.testbit _ _).
Qed.

Lemma refcnt_of_run mm ms held m k :
  msgs_inv mm ms held → m ∈ ms → key m = Some k →
  refcnt_of m mm = Ok (k, mm) ∧ is_Some (ctr_val mm k) ∧
  (∀ A (x : A) (f : A), match body m with lmsg _ | zclmsg _ _ _ _ _ => x | _ => f end = x).
Proof.
  intros Hinv Hm Hk. destruct (inv_wf _ _ _ Hinv m Hm) as [_ Hwf]. unfold refcnt_of, key in *.
  destruct (body m) as [|[b|]| | |d s ffn hint c|]; simplify_eq.
  - destruct Hwf as (kb & c & Hkb & Hc & _). split_and!; [|cbn; rewrite Hkb; cbn; rewrite Hc; by eexists|done].
    rewrite (bind_run _ _ mm (b, c) mm); [done|].
    unfold get_content, get_block, mbind, M_bind. by rewrite Hkb, Hc.
  - destruct Hwf as (b & i & off & kb & -> & _ & _ & _ & Hkb & _ & Hi & _). split_and!; [done| |done].
    cbn. rewrite Hkb. cbn. by apply lookup_lt_is_Some.
Qed.

Lemma share_spec mm m ms held :
  msgs_inv mm (m :: ms) held → Z.of_nat (length (m :: m :: ms) + length held) < 2 ^ 31 →
  ∃ m' mm', share m mm = Ok (m', mm') ∧ msgs_inv mm' (m' :: m' :: ms) held ∧ mem_le mm mm' ∧
    body m' = body m ∧ metadata m' = None.
Proof.
  intros Hinv Hroom. destruct (inv_wf _ _ _ Hinv m ltac:(left)) as [Hmd Hwf].
  destruct (key m) as [k|] eqn:Hk.
  - destruct (refcnt_of_run _ _ _ m k Hinv ltac:(left) Hk) as (Hr & Hv & Hmatch).
    pose proof (inv_cnt _ _ _ Hinv m k ltac:(left) Hk) as Hcnt.
    pose proof (nusers_le k (m :: ms)) as Hl. pose proof Hroom as Hroom'. cbn [length] in Hl, Hroom'.
    unfold share. rewrite Hmatch, (bind_run _ _ mm k mm Hr). destruct (is_shared m) eqn:Hs.
    + rewrite (bind_run _ _ mm _ _ (ctr_add_run mm k _ 1 Hcnt ltac:(lia))). eexists _, _. split; [done|].
      replace (Z.of_nat (nusers k (m :: ms)) + 1) with (Z.of_nat (S (nusers k (m :: ms)))) by lia.
      split_and!; [by apply add_shared|apply upd_ctr_le|done..].
    + destruct Hv as [v0 Hv0]. rewrite (bind_run _ _ mm _ _ (ctr_set_run mm k 2 v0 Hv0)). eexists _, _. split; [done|].
      replace 2 with (Z.of_nat (S (nusers k (m :: ms)))) by (rewrite Hcnt; done).
      split_and!; [|apply upd_ctr_le|done..]. apply add_shared; try done. apply is_shared_set.
  - exists m, mm. assert (share m mm = Ok (m, mm)) as ->.
    { unfold share, key in *. by destruct (body m) as [|[]| | | |]. }
    split_and!; try done. by apply add_nokey.
Qed.

Lemma copy_spec mm this src ms held :
  msgs_inv mm (this :: src :: ms) held →
  ∃ m' mm', copy this src mm = Ok ((None, m', m'), mm') ∧ msgs_inv mm' (m' :: m' :: ms) held ∧
    mem_le mm mm' ∧ body m' = body src.
Proof.
  intros Hinv. pose proof (inv_room _ _ _ Hinv) as Hroom.
  destruct (close_spec mm this (src :: ms) held Hinv) as (mm1 & this' & Hr1 & Hinv1 & Hle1).
  destruct (inv_wf _ _ _ Hinv src ltac:(right; left)) as [_ Hwf]. unfold copy.
  assert (check src = true) as ->.
  { unfold check. by destruct (body src). }
  cbn [negb]. rewrite (bind_run _ _ mm _ _ Hr1).
  destruct (share_spec mm1 src ms held Hinv1) as (m' & mm' & Hr2 & Hinv2 & Hle2 & Hb & Hmd); [done|].
  rewrite (bind_run _ _ mm1 _ _ Hr2), Hmd. exists m', mm'. split_and!; try done. by trans mm1.
Qed.

Lemma move_spec mm this src ms held :
  msgs_inv mm (this :: src :: ms) held →
  ∃ mm', move this src mm = Ok ((None, src, init), mm') ∧ msgs_inv mm' (src :: init :: ms) held ∧
    mem_le mm mm'.
Proof.
  intros Hinv. pose proof (inv_room _ _ _ Hinv) as Hroom.
  destruct (close_spec mm this (src :: ms) held Hinv) as (mm1 & this' & Hr1 & Hinv1 & Hle1).
  destruct (inv_wf _ _ _ Hinv src ltac:(right; left)) as [_ Hwf]. unfold move.
  assert (check src = true) as ->.
  { unfold check. by destruct (body src). }
  cbn [negb]. rewrite (bind_run _ _ mm _ _ Hr1). exists mm1. split_and!; try done.
  rewrite (Permutation_swap init src ms). by apply add_nokey.
Qed.

(** ** The data of a message *)

Definition slice (mm : mem) (p : ptr) (n : nat) : option (list mbyte) :=
  match p with
  | pnull => None
  | pat b off =>
      k ← blocks mm !! b;
      if in_range off n k then Some (take n (drop (Z.to_nat off) (b_bytes k))) else None
  end.

(** [None] for data that belong to the user. *)
Definition msg_bytes (mm : mem) (m : msg_t) : option (list mbyte) :=
  match body m with
  | vsm bs => Some bs
  | lmsg (Some b) =>
      k ← blocks mm !! b; c ← b_content k;
      match ct_ffn c with None => Some (b_bytes k) | Some _ => None end
  | zclmsg d s _ _ _ => slice mm d (Z.to_nat s)
  | _ => None
  end.

Lemma load_slice mm p n bs : slice mm p n = Some bs → load p n mm = Ok (bs, mm).
Proof.
  unfold slice, load. destruct p as [|b off]; [done|]. intros H.
  destruct (blocks mm !! b) as [k|] eqn:Hk; [|done]. cbn in H. case_match eqn:Hr; simplify_eq.
  case_decide as E; [by subst n|]. unfold get_block, mbind, M_bind. by rewrite Hk, Hr.
Qed.

Lemma slice_full mm b k n :
  blocks mm !! b = Some k → n = length (b_bytes k) → slice mm (pat b 0) n = Some (b_bytes k).
Proof.
  intros Hk ->. unfold slice. rewrite Hk. cbn. unfold in_range.
  destruct (Z.leb_spec (0 + Z.of_nat (length (b_bytes k))) (Z.of_nat (length (b_bytes k)))); [|lia].
  cbn. by rewrite take_ge by (rewrite drop_0; done).
Qed.

(** [data] and [size] lead to the bytes of the message. *)
Lemma contents_run mm m bs :
  msg_wf mm m → msg_bytes mm m = Some bs → contents m mm = Ok (bs, mm).
Proof.
  intros [_ Hwf] Hb. unfold contents, data, size, msg_bytes in *.
  destruct (body m) as [|[b|]| | |d s ffn hint c|]; simplify_eq.
  - done.
  - destruct Hwf as (k & c & Hk & Hc & Hok). rewrite Hk in Hb. cbn in Hb. rewrite Hc in Hb. cbn in Hb.
    unfold get_content, get_block, mbind, M_bind. rewrite Hk, Hc. cbn. rewrite Hk, Hc. cbn.
    destruct Hok as [(Hf & -> & ->)|Hf]; rewrite Hf in Hb; [|done]. simplify_eq.
    apply load_slice. rewrite Nat2Z.id. by apply slice_full.
  - unfold mbind, M_bind. cbn. by apply load_slice.
Qed.

Lemma slice_shape mm mm' b k k' off n :
  blocks mm !! b = Some k → blocks mm' !! b = Some k' → shape k k' →
  slice mm' (pat b off) n = slice mm (pat b off) n.
Proof. intros Hk Hk' (_ & Hb & _). unfold slice. rewrite Hk, Hk'. cbn. unfold in_range. by rewrite Hb. Qed.

Lemma msg_bytes_le mm mm' m :
  mem_le mm mm' → msg_wf mm' m → msg_bytes mm' m = msg_bytes mm m.
Proof.
  intros [_ Hle] [_ Hwf]. unfold msg_bytes. destruct (body m) as [|[b|]| | |d s ffn hint c|]; try done.
  - destruct Hwf as (k' & c' & Hk' & Hc' & _). destruct (Hle _ _ Hk') as (k & Hk & _ & Hb & _ & Hc).
    rewrite Hk, Hk'. cbn. rewrite Hc' in *. destruct (b_content k) as [c|]; [|done]. cbn.
    destruct Hc as (_ & _ & -> & _). by rewrite Hb.
  - destruct Hwf as (b & i & off & k' & _ & _ & _ & -> & Hk' & _). destruct (Hle _ _ Hk') as (k & Hk & Hsh).
    by eapply slice_shape.
Qed.

(** Memory with more blocks. *)
Definition mem_ext (mm mm' : mem) : Prop := blocks mm ⊆ blocks mm'.

#[global] Instance mem_ext_preorder : PreOrder mem_ext.
Proof. split; unfold mem_ext; [intros mm; reflexivity|]. intros m1 m2 m3 H1 H2. by trans (blocks m2). Qed.

Lemma msg_bytes_ext mm mm' m : mem_ext mm mm' → msg_wf mm m → msg_bytes mm' m = msg_bytes mm m.
Proof.
  intros Hle [_ Hwf]. unfold msg_bytes. destruct (body m) as [|[b|]| | |d s ffn hint c|]; try done.
  - destruct Hwf as (k & c & Hk & _). by rewrite (lookup_weaken _ _ _ _ Hk Hle), Hk.
  - destruct Hwf as (b & i & off & k & _ & _ & _ & -> & Hk & _). unfold slice.
    by rewrite (lookup_weaken _ _ _ _ Hk Hle), Hk.
Qed.

Lemma msg_wf_ext mm mm' m : mem_ext mm mm' → msg_wf mm m → msg_wf mm' m.
Proof.
  intros Hle [Hmd Hwf]. split; [done|]. destruct (body m) as [|[b|]| | |d s ffn hint c|]; try done.
  - destruct Hwf as (k & c & Hk & Hwf). exists k, c. split; [|done]. by eapply lookup_weaken.
  - destruct Hwf as (b & i & off & k & ? & ? & ? & ? & Hk & Hwf). exists b, i, off, k.
    destruct_and!. split_and!; try done. by eapply lookup_weaken.
Qed.

Lemma ctr_val_ext mm mm' c v : mem_ext mm mm' → ctr_val mm c = Some v → ctr_val mm' c = Some v.
Proof.
  intros Hle. unfold ctr_val. destruct c; cbn; destruct (blocks mm !! b) eqn:E; try done;
    by rewrite (lookup_weaken _ _ _ _ E Hle).
Qed.

(** A new block for a new message. *)
Lemma add_content mm m ms held b k c :
  msgs_inv mm ms held → b = calls mm → body m = lmsg (Some b) → metadata m = None → is_shared m = false →
  b_content k = Some c → content_ok b k c → Z.of_nat (length (m :: ms) + length held) < 2 ^ 31 →
  msgs_inv (Mem (<[b := k]> (blocks mm)) (b + 1)%N (metas mm) (user_freed mm)) (m :: ms) held.
Proof.
  intros Hinv -> Hbody Hmd Hs Hc Hok Hroom. set (b := calls mm) in *.
  assert (blocks mm !! b = None) as Hfresh.
  { destruct (blocks mm !! b) eqn:E; [|done]. pose proof (inv_fresh _ _ _ Hinv b ltac:(by eexists)). lia. }
  assert (key m = Some (c_content b)) as Hk by (unfold key; by rewrite Hbody).
  assert (mem_ext mm (Mem (<[b := k]> (blocks mm)) (b + 1)%N (metas mm) (user_freed mm))) as Hext
    by (by apply insert_subseteq).
  assert (∀ m' k', m' ∈ ms → key m' = Some k' → cblk k' ≠ b) as Hother.
  { intros m' k' Hm' Hk' E. destruct (inv_block _ _ _ m' k' Hinv Hm' Hk') as [? H]. congruence. }
  assert (nusers (c_content b) ms = 0%nat) as Hn.
  { destruct (nusers (c_content b) ms) eqn:E; [done|].
    destruct (proj1 (nusers_pos (c_content b) ms)) as (m' & Hm' & Hk'); [lia|]. by destruct (Hother _ _ Hm' Hk'). }
  split.
  - intros m' [->|Hm']%elem_of_cons; [|eapply msg_wf_ext; [done|by eapply inv_wf]].
    split; [done|]. rewrite Hbody. exists k, c. cbn. by rewrite lookup_insert_eq.
  - intros m' k' [->|Hm']%elem_of_cons Hk'.
    + simplify_eq. rewrite Hs, nusers_same, Hn by done. done.
    + assert (k' ≠ c_content b) by (intros ->; by eapply Hother). rewrite nusers_other by congruence.
      pose proof (inv_cnt _ _ _ Hinv m' k' Hm' Hk'). destruct (is_shared m'); [by eapply ctr_val_ext|done].
  - intros m1 m2 [->|H1]%elem_of_cons [->|H2]%elem_of_cons E Hk'; [done|..].
    + rewrite Hk in E. by destruct (Hother m2 _ H2 (eq_sym E)).
    + rewrite Hk in E. by destruct (Hother m1 _ H1 E).
    + by eapply inv_agree.
  - intros b' k' c'. cbn [blocks]. destruct (decide (b' = b)) as [->|].
    + intros _ _. rewrite nusers_same by done. lia.
    + rewrite lookup_insert_ne by done. intros. rewrite nusers_other by congruence. by eapply inv_content.
  - intros b' k'. cbn [blocks]. rewrite groups_nokey by congruence. destruct (decide (b' = b)) as [->|].
    + rewrite lookup_insert_eq. intros [= <-]. congruence.
    + rewrite lookup_insert_ne by done. apply Hinv.
  - intros b' Hb'. destruct (inv_held _ _ _ Hinv b' Hb') as (k' & Hk' & ?). exists k'. split; [|done].
    by eapply lookup_weaken.
  - intros b'. cbn. destruct (decide (b' = b)) as [->|]; [lia|]. rewrite lookup_insert_ne by done.
    intros H. pose proof (inv_fresh _ _ _ Hinv b' H). lia.
  - done.
Qed.

Lemma msgs_inv_calls mm ms held n :
  msgs_inv mm ms held → (calls mm ≤ n)%N → msgs_inv (Mem (blocks mm) n (metas mm) (user_freed mm)) ms held.
Proof.
  intros Hinv Hn. split; try apply Hinv. intros b Hb. pose proof (inv_fresh _ _ _ Hinv b Hb). cbn. lia.
Qed.

Section init.
Context (malloc : N → Z → option Z).

Lemma init_size_spec mm ms held n :
  msgs_inv mm ms held → 0 ≤ n → Z.of_nat (S (length ms) + length held) < 2 ^ 31 →
  ∃ rc m mm', init_size malloc n mm = Ok ((rc, m), mm') ∧ mem_ext mm mm' ∧
    match rc with
    | None => msgs_inv mm' (m :: ms) held ∧ is_shared m = false ∧
        msg_bytes mm' m = Some (replicate (Z.to_nat n) None)
    | Some e => e = ENOMEM ∧ msgs_inv mm' ms held
    end.
Proof.
  intros Hinv Hn Hroom. unfold init_size. case_match.
  { eexists None, _, mm. split; [done|]. split; [done|]. split_and!; [|done|done].
    by apply add_nokey. }
  case_match.
  - unfold new_block, mbind, M_bind. destruct (malloc (calls mm) (sizeof_content_t + n)) as [a|].
    + cbn. unfold get_block. cbn. rewrite lookup_insert_eq. cbn. unfold put_block, modify, set_blocks. cbn.
      rewrite insert_insert_eq. eexists None, _, _. split; [done|].
      assert (blocks mm !! calls mm = None) as Hfresh.
      { destruct (blocks mm !! calls mm) eqn:E; [|done].
        pose proof (inv_fresh _ _ _ Hinv (calls mm) ltac:(by eexists)). lia. }
      split; [by apply insert_subseteq|]. split_and!.
      * eapply add_content; try done. left. split_and!; try done. cbn. rewrite length_replicate. lia.
      * done.
      * cbn. by rewrite lookup_insert_eq.
    + eexists (Some ENOMEM), _, _. split; [done|]. split_and!; [unfold mem_ext; reflexivity|done|]. apply msgs_inv_calls; [done|lia].
  - eexists (Some ENOMEM), _, mm. by split_and!.
Qed.

Lemma init_data_spec mm ms held d n ffn hint :
  msgs_inv mm ms held → (d ≠ pnull ∨ n = 0) → ffn ≠ Some call_dec_ref →
  Z.of_nat (S (length ms) + length held) < 2 ^ 31 →
  ∃ rc m mm', init_data malloc d n ffn hint mm = Ok ((rc, m), mm') ∧ mem_ext mm mm' ∧
    match rc with
    | None => msgs_inv mm' (m :: ms) held ∧ msg_bytes mm' m = None
    | Some e => e = ENOMEM ∧ msgs_inv mm' ms held
    end.
Proof.
  intros Hinv Hd Hf Hroom. unfold init_data, fatal_assert. rewrite bool_decide_true by done.
  rewrite (bind_run _ _ mm () mm eq_refl). destruct ffn as [[|]|]; [done| |].
  - unfold new_block, mbind, M_bind. destruct (malloc (calls mm) sizeof_content_t) as [a|].
    + eexists None, _, _. split; [done|].
      assert (blocks mm !! calls mm = None) as Hfresh.
      { destruct (blocks mm !! calls mm) eqn:E; [|done].
        pose proof (inv_fresh _ _ _ Hinv (calls mm) ltac:(by eexists)). lia. }
      split; [by apply insert_subseteq|]. split.
      * eapply add_content; try done. by right.
      * cbn. by rewrite lookup_insert_eq.
    + eexists (Some ENOMEM), _, _. split; [done|]. split_and!; [unfold mem_ext; reflexivity|done|]. apply msgs_inv_calls; [done|lia].
  - eexists None, _, mm. split_and!; [done..|by apply add_nokey|done].
Qed.
End init.

(** ** Writing data *)

Definition put_bytes (bs : list mbyte) (k : block) : block :=
  Block (b_addr k) bs (b_ctr k) (b_ctrs k) (b_content k).

(** The same memory with other bytes in one block. *)
Definition set_bytes (b : N) (f : list mbyte → list mbyte) (mm : mem) : mem :=
  set_blocks (alter (λ k, put_bytes (f (b_bytes k)) k) b) mm.

Lemma set_bytes_lookup b f mm b' :
  blocks (set_bytes b f mm) !! b' =
  (if decide (b' = b) then (λ k, put_bytes (f (b_bytes k)) k) <$> blocks mm !! b' else blocks mm !! b').
Proof. cbn. case_decide as E; [subst; apply lookup_alter_eq|by apply lookup_alter_ne]. Qed.

Lemma set_bytes_ctr b f mm c : ctr_val (set_bytes b f mm) c = ctr_val mm c.
Proof.
  unfold ctr_val. destruct c as [b'|b' i|b']; rewrite set_bytes_lookup; case_decide; try done; subst;
    by destruct (blocks mm !! b).
Qed.

Lemma msg_wf_set_bytes b f mm m :
  (∀ l, length (f l) = length l) → msg_wf mm m → msg_wf (set_bytes b f mm) m.
Proof.
  intros Hf [Hmd Hwf]. split; [done|]. destruct (body m) as [|[b'|]| | |d s ffn hint c|]; try done.
  - destruct Hwf as (k & c & Hk & Hc & Hok). rewrite set_bytes_lookup, Hk. case_decide; [|by exists k, c].
    eexists _, c. split_and!; [done..|]. unfold content_ok in *. cbn. by rewrite Hf.
  - destruct Hwf as (b' & i & off & k & -> & -> & -> & -> & Hk & Hwf). exists b', i, off.
    rewrite set_bytes_lookup, Hk. case_decide; [|exists k; by split_and!; destruct_and!].
    eexists. split_and!; try done; cbn; rewrite ?Hf; naive_solver.
Qed.

Lemma msgs_inv_set_bytes b f mm ms held :
  (∀ l, length (f l) = length l) → msgs_inv mm ms held → msgs_inv (set_bytes b f mm) ms held.
Proof.
  intros Hf Hinv. assert (∀ b' k', blocks (set_bytes b f mm) !! b' = Some k' →
    ∃ k, blocks mm !! b' = Some k ∧ b_content k' = b_content k ∧ b_ctr k' = b_ctr k ∧ b_ctrs k' = b_ctrs k) as Hb.
  { intros b' k'. rewrite set_bytes_lookup. case_decide; [|naive_solver].
    rewrite fmap_Some. intros (k & Hk & ->). by exists k. }
  split.
  - intros m Hm. apply msg_wf_set_bytes; [done|by eapply inv_wf].
  - intros m k Hm Hk. rewrite set_bytes_ctr. by eapply inv_cnt.
  - apply Hinv.
  - intros b' k' c Hk' Hc. destruct (Hb b' k' Hk') as (k & Hk & E & _). rewrite E in Hc. by eapply inv_content.
  - intros b' k' Hk' Hc. destruct (Hb b' k' Hk') as (k & Hk & E & -> & ->). rewrite E in Hc. by eapply inv_buffer.
  - intros b' Hb'. destruct (inv_held _ _ _ Hinv b' Hb') as (k & Hk & Hc). rewrite set_bytes_lookup, Hk.
    case_decide; [|by exists k]. by eexists.
  - intros b' [k' Hk']. destruct (Hb b' k' Hk') as (k & Hk & _). apply (inv_fresh _ _ _ Hinv b'). by eexists.
  - apply Hinv.
Qed.

Lemma overwrite_length off bs l : (off + length bs ≤ length l)%nat → length (overwrite off bs l) = length l.
Proof. intros H. unfold overwrite. rewrite !length_app, length_take, length_drop. lia. Qed.

(** [overwrite] where it fits, nothing elsewhere: a change that keeps lengths. *)
Definition overwrite_in (off : nat) (bs l : list mbyte) : list mbyte :=
  if decide (off + length bs ≤ length l)%nat then overwrite off bs l else l.

Lemma overwrite_in_length off bs l : length (overwrite_in off bs l) = length l.
Proof. unfold overwrite_in. case_decide; [by apply overwrite_length|done]. Qed.

Lemma set_bytes_id b f mm : (∀ l, f l = l) → set_bytes b f mm = mm.
Proof.
  intros Hf. destruct mm as [bs c ms u]. unfold set_bytes, set_blocks. cbn. f_equal.
  apply alter_id. intros [] _. unfold put_bytes. cbn. by rewrite Hf.
Qed.

Lemma store_run mm b k off bs :
  blocks mm !! b = Some k → (off + length bs ≤ length (b_bytes k))%nat →
  store (pat b (Z.of_nat off)) bs mm = Ok ((), set_bytes b (overwrite_in off bs) mm).
Proof.
  intros Hk Hr. unfold store. case_decide as Hne.
  { rewrite set_bytes_id; [done|]. intros k'. apply nil_length_inv in Hne as ->.
    unfold overwrite_in, overwrite. case_decide; [|done]. cbn. by rewrite Nat.add_0_r, take_drop. }
  unfold get_block, mbind, M_bind. rewrite Hk. unfold in_range.
  destruct (Z.leb_spec 0 (Z.of_nat off)); [|lia].
  destruct (Z.leb_spec (Z.of_nat off + Z.of_nat (length bs)) (Z.of_nat (length (b_bytes k)))); [|lia].
  cbn. unfold put_block, modify, set_bytes, set_blocks.
  rewrite (alter_alt_Some _ _ _ k) by done. unfold put_bytes, overwrite_in. rewrite decide_True by done.
  by rewrite Nat2Z.id.
Qed.

(** ** Programs that use messages

    The messages of a program are in numbered places.  An operation that the
    interface does not allow there (a place initialised twice, a message used
    after [close], data of a shared message written) is left out. *)

Inductive mop :=
  | op_init (i : nat)
  | op_init_size (i : nat) (n : Z)
  | op_init_data (i : nat) (d : ptr) (n : Z) (user : bool) (hint : option N)
  | op_write (i : nat) (off : nat) (bs : list Z)
  | op_close (i : nat)
  | op_move (i j : nat)
  | op_copy (i j : nat).

Record places := Places { p_mem : mem; p_msgs : gmap nat msg_t }.

Definition no_memory : mem := Mem ∅ 0 ∅ [].

Section programs.
Context (malloc : N → Z → option Z).

(** The new message of an initialisation that succeeded. *)
Definition store_new (i : nat) (p : places) (r : result ((option errno * msg_t) * mem))
    : result (option errno * places) :=
  match r with
  | Ok ((None, m), mm) => Ok (None, Places mm (<[i := m]> (p_msgs p)))
  | Ok ((Some e, _), mm) => Ok (Some e, Places mm (p_msgs p))
  | Err e => Err e
  end.

(** The two messages that [move] or [copy] leaves. *)
Definition store_two (i j : nat) (p : places) (r : result ((option errno * msg_t * msg_t) * mem))
    : result (option errno * places) :=
  match r with
  | Ok ((rc, mi, mj), mm) => Ok (rc, Places mm (<[i := mi]> (<[j := mj]> (p_msgs p))))
  | Err e => Err e
  end.

(** What the interface allows. *)
Definition allowed (o : mop) (p : places) : bool :=
  match o with
  | op_init i => bool_decide (p_msgs p !! i = None)
  | op_init_size i n => bool_decide (p_msgs p !! i = None ∧ 0 ≤ n)
  | op_init_data i d n _ _ => bool_decide (p_msgs p !! i = None ∧ (d ≠ pnull ∨ n = 0))
  | op_write i off bs =>
      match p_msgs p !! i with
      | Some m =>
          match msg_bytes (p_mem p) m with
          | Some old => bool_decide ((off + length bs ≤ length old)%nat ∧ is_shared m = false)
          | None => false
          end
      | None => false
      end
  | op_close i => bool_decide (is_Some (p_msgs p !! i))
  | op_move i j | op_copy i j =>
      bool_decide (i ≠ j ∧ is_Some (p_msgs p !! i) ∧ is_Some (p_msgs p !! j))
  end.

Definition run_mop (o : mop) (p : places) : result (option errno * places) :=
  match o with
  | op_init i => Ok (None, Places (p_mem p) (<[i := init]> (p_msgs p)))
  | op_init_size i n => store_new i p (init_size malloc n (p_mem p))
  | op_init_data i d n user hint =>
      store_new i p (init_data malloc d n (if user then Some user_free else None) hint (p_mem p))
  | op_write i off bs =>
      match p_msgs p !! i with
      | Some m =>
          match write_data off (Some <$> bs) m (p_mem p) with
          | Ok (m, mm) => Ok (None, Places mm (<[i := m]> (p_msgs p)))
          | Err e => Err e
          end
      | None => Err (Undefined NullDeref)
      end
  | op_close i =>
      match p_msgs p !! i with
      | Some m =>
          match close m (p_mem p) with
          | Ok ((rc, _), mm) => Ok (rc, Places mm (delete i (p_msgs p)))
          | Err e => Err e
          end
      | None => Err (Undefined NullDeref)
      end
  | op_move i j =>
      match p_msgs p !! i, p_msgs p !! j with
      | Some mi, Some mj => store_two i j p (move mi mj (p_mem p))
      | _, _ => Err (Undefined NullDeref)
      end
  | op_copy i j =>
      match p_msgs p !! i, p_msgs p !! j with
      | Some mi, Some mj => store_two i j p (copy mi mj (p_mem p))
      | _, _ => Err (Undefined NullDeref)
      end
  end.

(** Run a program, with the operations it may do and their return codes. *)
Fixpoint run_mops (os : list mop) (p : places) : result (list (mop * option errno) * places) :=
  match os with
  | [] => Ok ([], p)
  | o :: os =>
      if allowed o p then
        match run_mop o p with
        | Ok (rc, p) =>
            match run_mops os p with Ok (l, p) => Ok ((o, rc) :: l, p) | Err e => Err e end
        | Err e => Err e
        end
      else run_mops os p
  end.
End programs.

(** ** Messages as values

    What a program should see: a place holds a list of bytes of its own ([None] for
    data of the user), and no place affects another one. *)

Notation values := (gmap nat (option (list mbyte))).

Definition spec_mop (o : mop) (v : values) : values :=
  match o with
  | op_init i => <[i := Some []]> v
  | op_init_size i n => <[i := Some (replicate (Z.to_nat n) None)]> v
  | op_init_data i _ _ _ _ => <[i := None]> v
  | op_write i off bs => alter (fmap (overwrite off (Some <$> bs))) i v
  | op_close i => delete i v
  | op_move i j => match v !! j with Some x => <[i := x]> (<[j := Some []]> v) | None => v end
  | op_copy i j => match v !! j with Some x => <[i := x]> v | None => v end
  end.

(** An operation that fails has no effect. *)
Definition spec_mops (l : list (mop * option errno)) : values :=
  foldl (λ v '(o, rc), match rc with None => spec_mop o v | Some _ => v end) ∅ l.

(** The places of the program and what they should hold. *)
Record places_ok (p : places) (v : values) (n : nat) : Prop := {
  pk_inv : msgs_inv (p_mem p) (map_to_list (p_msgs p)).*2 [];
  pk_vals i : msg_bytes (p_mem p) <$> p_msgs p !! i = v !! i;
  pk_nozc i m : p_msgs p !! i = Some m → is_zcmsg m = false;
  pk_size : (length (map_to_list (p_msgs p)) ≤ n)%nat
}.

Section programs_ok.
Context (malloc : N → Z → option Z).

Lemma msgs_insert (ps : gmap nat msg_t) i m :
  ps !! i = None → (map_to_list (<[i := m]> ps)).*2 ≡ₚ m :: (map_to_list ps).*2.
Proof. intros H. by rewrite map_to_list_insert. Qed.

Lemma msgs_delete (ps : gmap nat msg_t) i m :
  ps !! i = Some m → (map_to_list ps).*2 ≡ₚ m :: (map_to_list (delete i ps)).*2.
Proof. intros H. by rewrite <-(map_to_list_delete ps i m H). Qed.

Lemma msgs_elem (ps : gmap nat msg_t) i m : ps !! i = Some m → m ∈ (map_to_list ps).*2.
Proof. intros H. apply list_elem_of_fmap. exists (i, m). by rewrite elem_of_map_to_list. Qed.

(** The other places keep their data. *)
Lemma vals_le mm mm' (ps : gmap nat msg_t) :
  mem_le mm mm' → msgs_inv mm' (map_to_list ps).*2 [] →
  ∀ i, msg_bytes mm' <$> ps !! i = msg_bytes mm <$> ps !! i.
Proof.
  intros Hle Hinv i. destruct (ps !! i) as [m|] eqn:E; [|done]. cbn. f_equal.
  apply msg_bytes_le; [done|]. eapply inv_wf; [done|]. by eapply msgs_elem.
Qed.

Lemma vals_ext mm mm' (ps : gmap nat msg_t) :
  mem_ext mm mm' → msgs_inv mm (map_to_list ps).*2 [] →
  ∀ i, msg_bytes mm' <$> ps !! i = msg_bytes mm <$> ps !! i.
Proof.
  intros Hle Hinv i. destruct (ps !! i) as [m|] eqn:E; [|done]. cbn. f_equal.
  apply msg_bytes_ext; [done|]. eapply inv_wf; [done|]. by eapply msgs_elem.
Qed.

Lemma places_ok_new p v n i m mm x :
  places_ok p v n → p_msgs p !! i = None → mem_ext (p_mem p) mm →
  msgs_inv mm (m :: (map_to_list (p_msgs p)).*2) [] → msg_bytes mm m = x → is_zcmsg m = false →
  places_ok (Places mm (<[i := m]> (p_msgs p))) (<[i := x]> v) (S n).
Proof.
  intros Hok Hi Hext Hinv <- Hz. split; cbn [p_mem p_msgs].
  - by rewrite msgs_insert.
  - intros j. destruct (decide (j = i)) as [->|]; [by rewrite !lookup_insert_eq|].
    rewrite !lookup_insert_ne by done. rewrite <-(pk_vals _ _ _ Hok). apply vals_ext; [done|apply Hok].
  - intros j m'. destruct (decide (j = i)) as [->|]; [rewrite lookup_insert_eq; by intros [= <-]|].
    rewrite lookup_insert_ne by done. apply Hok.
  - rewrite map_to_list_insert by done. cbn. apply le_n_S, Hok.
Qed.

Lemma places_ok_same p v n mm :
  places_ok p v n → mem_ext (p_mem p) mm → msgs_inv mm (map_to_list (p_msgs p)).*2 [] →
  places_ok (Places mm (p_msgs p)) v (S n).
Proof.
  intros Hok Hext Hinv. split; cbn [p_mem p_msgs]; [done| |apply Hok|].
  - intros j. rewrite <-(pk_vals _ _ _ Hok). apply vals_ext; [done|apply Hok].
  - apply Nat.le_le_succ_r, Hok.
Qed.

(** Two places whose messages were replaced, by [move] or [copy]. *)
Lemma places_ok_two p v n i j mi mj mi' mj' mm xi xj :
  places_ok p v n → i ≠ j → p_msgs p !! i = Some mi → p_msgs p !! j = Some mj →
  mem_le (p_mem p) mm →
  (∀ ms, msgs_inv (p_mem p) (mi :: mj :: ms) [] → ms = (map_to_list (delete j (delete i (p_msgs p)))).*2 →
    msgs_inv mm (mi' :: mj' :: ms) []) →
  msg_bytes mm mi' = xi → msg_bytes mm mj' = xj → is_zcmsg mi' = false → is_zcmsg mj' = false →
  places_ok (Places mm (<[i := mi']> (<[j := mj']> (p_msgs p)))) (<[i := xi]> (<[j := xj]> v)) (S n).
Proof.
  intros Hok Hij Hi Hj Hle Hinv <- <- Hzi Hzj.
  assert (delete i (p_msgs p) !! j = Some mj) as Hj' by (by rewrite lookup_delete_ne).
  set (rest := delete j (delete i (p_msgs p))) in *.
  pose proof (pk_inv _ _ _ Hok) as H0. rewrite (msgs_delete _ i mi Hi), (msgs_delete _ j mj Hj') in H0.
  specialize (Hinv _ H0 eq_refl).
  assert (<[i := mi']> (<[j := mj']> (p_msgs p)) = <[i := mi']> (<[j := mj']> rest)) as ->.
  { unfold rest. apply map_eq. intros l. destruct (decide (l = i)) as [->|]; [by rewrite !lookup_insert_eq|].
    rewrite !(lookup_insert_ne _ i) by done. destruct (decide (l = j)) as [->|]; [by rewrite !lookup_insert_eq|].
    rewrite !lookup_insert_ne by done. by rewrite !lookup_delete_ne. }
  assert (rest !! j = None) as Hrj by apply lookup_delete_eq.
  assert (<[j := mj']> rest !! i = None) as Hri.
  { rewrite lookup_insert_ne by done. unfold rest. rewrite lookup_delete_ne by done. apply lookup_delete_eq. }
  assert (msgs_inv mm (map_to_list (<[i := mi']> (<[j := mj']> rest))).*2 []) as Hinv'.
  { by rewrite msgs_insert, msgs_insert. }
  split; cbn [p_mem p_msgs]; [done|..].
  - intros l. destruct (decide (l = i)) as [->|]; [by rewrite !lookup_insert_eq|].
    rewrite !(lookup_insert_ne _ i) by done. destruct (decide (l = j)) as [->|]; [by rewrite !lookup_insert_eq|].
    rewrite !lookup_insert_ne by done. rewrite <-(pk_vals _ _ _ Hok).
    replace (p_msgs p !! l) with (rest !! l) by (unfold rest; by rewrite !lookup_delete_ne).
    destruct (rest !! l) as [m|] eqn:E; [|done]. cbn. f_equal. apply msg_bytes_le; [done|].
    eapply inv_wf; [apply Hinv|]. right; right. by eapply msgs_elem.
  - intros l m. destruct (decide (l = i)) as [->|]; [rewrite lookup_insert_eq; by intros [= <-]|].
    rewrite lookup_insert_ne by done. destruct (decide (l = j)) as [->|]; [rewrite lookup_insert_eq; by intros [= <-]|].
    rewrite lookup_insert_ne by done. unfold rest. rewrite !lookup_delete_ne by done. apply Hok.
  - pose proof (pk_size _ _ _ Hok) as Hs. rewrite <-(map_to_list_delete _ i mi Hi), <-(map_to_list_delete _ j mj Hj') in Hs.
    rewrite map_to_list_insert, map_to_list_insert by done. cbn in *. fold rest in Hs. lia.
Qed.

(** The data of a message that is not shared can be written. *)
Lemma write_data_spec mm m ms old off (bs : list mbyte) :
  msgs_inv mm (m :: ms) [] → msg_bytes mm m = Some old → (off + length bs ≤ length old)%nat →
  is_shared m = false → is_zcmsg m = false →
  ∃ m' mm', write_data off bs m mm = Ok (m', mm') ∧ msgs_inv mm' (m' :: ms) [] ∧
    msg_bytes mm' m' = Some (overwrite off bs old) ∧ is_zcmsg m' = false ∧
    ∀ m1, m1 ∈ ms → is_zcmsg m1 = false → msg_bytes mm' m1 = msg_bytes mm m1.
Proof.
  intros Hinv Hold Hr Hs Hz. destruct (inv_wf _ _ _ Hinv m ltac:(left)) as [Hmd Hwf].
  unfold write_data, data, msg_bytes, is_zcmsg in *. destruct (body m) as [bs0|[b|]| | |d s ffn hint c|] eqn:Hb; simplify_eq.
  - rewrite (bind_run _ _ mm in_msg mm eq_refl). rewrite (proj2 (Nat.leb_le _ _)) by done.
    eexists _, mm. split_and!; try done. apply add_nokey; [|done|done|apply Hinv].
    eapply remove_nokey; [done|]. unfold key. by rewrite Hb.
  - destruct Hwf as (k & c & Hk & Hc & Hok). rewrite Hk in Hold. cbn in Hold. rewrite Hc in Hold. cbn in Hold.
    destruct Hok as [(Hf & Hd & Hsz)|Hf]; rewrite Hf in Hold; [|done]. simplify_eq.
    rewrite (bind_run _ _ mm (in_heap (pat b 0)) mm).
    2:{ unfold get_content, get_block, mbind, M_bind. rewrite Hk, Hc. cbn. by rewrite Hd. }
    assert (store (pat b (0 + Z.of_nat off)) bs mm = Ok ((), set_bytes b (overwrite_in off bs) mm)) as Hst
      by (by apply store_run with k).
    rewrite (bind_run _ _ mm _ _ Hst). eexists m, _. split; [done|]. rewrite Hb.
    split_and!; [by apply msgs_inv_set_bytes; [apply overwrite_in_length|]| |done|].
    + rewrite set_bytes_lookup, decide_True by done. rewrite Hk. cbn. rewrite Hc. cbn. rewrite Hf.
      unfold overwrite_in. by rewrite decide_True.
    + intros m1 Hm1 Hz1. destruct (body m1) as [|[b1|]| | | |] eqn:Hb1; try done.
      assert (b1 ≠ b) as Hne.
      { intros ->. pose proof (inv_cnt _ _ _ Hinv m (c_content b) ltac:(left)) as Hcnt. unfold key in Hcnt.
        rewrite Hb, Hs in Hcnt. specialize (Hcnt eq_refl). rewrite nusers_same in Hcnt by (unfold key; by rewrite Hb).
        assert (0 < nusers (c_content b) ms)%nat; [|lia]. apply nusers_pos. exists m1. unfold key. by rewrite Hb1. }
      by rewrite set_bytes_lookup, decide_False.
Qed.

Lemma init_size_nozc n mm rc m mm' : init_size malloc n mm = Ok ((rc, m), mm') → is_zcmsg m = false.
Proof.
  unfold init_size. intros H. inv_branch; simplify_eq/=; try done; by inv_run; simplify_eq.
Qed.

Lemma init_data_nozc d n f hint mm rc m mm' :
  init_data malloc d n f hint mm = Ok ((rc, m), mm') → is_zcmsg m = false.
Proof.
  unfold init_data, fatal_assert. intros H. inv_branch; simplify_eq/=; try done; by inv_run; simplify_eq.
Qed.

Lemma places_ok_write p v n i m m' mm f old :
  places_ok p v n → p_msgs p !! i = Some m → msg_bytes (p_mem p) m = Some old →
  msgs_inv mm (m' :: (map_to_list (delete i (p_msgs p))).*2) [] →
  msg_bytes mm m' = Some (f old) → is_zcmsg m' = false →
  (∀ m1, m1 ∈ (map_to_list (delete i (p_msgs p))).*2 → is_zcmsg m1 = false →
    msg_bytes mm m1 = msg_bytes (p_mem p) m1) →
  places_ok (Places mm (<[i := m']> (p_msgs p))) (alter (fmap f) i v) (S n).
Proof.
  intros Hok Hi Hold Hinv Hb Hz Hoth. split; cbn [p_mem p_msgs].
  - by rewrite <-insert_delete_eq, msgs_insert by apply lookup_delete_eq.
  - intros j. destruct (decide (j = i)) as [->|].
    + rewrite lookup_insert_eq, lookup_alter_eq, <-(pk_vals _ _ _ Hok), Hi. cbn.
      change (Some (msg_bytes mm m') = Some (f <$> msg_bytes (p_mem p) m)). by rewrite Hb, Hold.
    + rewrite lookup_insert_ne, lookup_alter_ne by done. rewrite <-(pk_vals _ _ _ Hok).
      destruct (p_msgs p !! j) as [m1|] eqn:Hj; [|done].
      change (Some (msg_bytes mm m1) = Some (msg_bytes (p_mem p) m1)). f_equal.
      apply Hoth; [|by eapply Hok]. apply (msgs_elem _ j). by rewrite lookup_delete_ne.
  - intros j m1. destruct (decide (j = i)) as [->|]; [rewrite lookup_insert_eq; by intros [= <-]|].
    rewrite lookup_insert_ne by done. apply Hok.
  - rewrite <-insert_delete_eq, map_to_list_insert by apply lookup_delete_eq.
    pose proof (pk_size _ _ _ Hok) as Hs. rewrite <-(map_to_list_delete _ i m Hi) in Hs. cbn in *. lia.
Qed.

Lemma places_ok_close p v n i m mm :
  places_ok p v n → p_msgs p !! i = Some m → mem_le (p_mem p) mm →
  msgs_inv mm (map_to_list (delete i (p_msgs p))).*2 [] →
  places_ok (Places mm (delete i (p_msgs p))) (delete i v) (S n).
Proof.
  intros Hok Hi Hle Hinv. split; cbn [p_mem p_msgs]; [done|..].
  - intros j. rewrite (vals_le _ _ _ Hle Hinv). destruct (decide (j = i)) as [->|];
      [by rewrite !lookup_delete_eq|rewrite !lookup_delete_ne by done; apply Hok].
  - intros j m1 [_ Hj]%lookup_delete_Some. by eapply Hok.
  - pose proof (pk_size _ _ _ Hok) as Hs. rewrite <-(map_to_list_delete _ i m Hi) in Hs. cbn in *. lia.
Qed.

Lemma is_zcmsg_body m m' : body m' = body m → is_zcmsg m' = is_zcmsg m.
Proof. unfold is_zcmsg. by intros ->. Qed.

Lemma msg_bytes_body mm m m' : body m' = body m → msg_bytes mm m' = msg_bytes mm m.
Proof. unfold msg_bytes. by intros ->. Qed.

Lemma places_val p v n i m : places_ok p v n → p_msgs p !! i = Some m → v !! i = Some (msg_bytes (p_mem p) m).
Proof. intros Hok Hi. by rewrite <-(pk_vals _ _ _ Hok), Hi. Qed.

(** Each operation does to memory what it should do to the values. *)
Lemma run_mop_ok o p v n :
  places_ok p v n → Z.of_nat (S n) < 2 ^ 31 → allowed o p = true →
  ∃ rc p', run_mop malloc o p = Ok (rc, p') ∧
    match rc with
    | None => places_ok p' (spec_mop o v) (S n)
    | Some e => e = ENOMEM ∧ places_ok p' v (S n)
    end.
Proof.
  intros Hok Hn Hall. pose proof (pk_inv _ _ _ Hok) as Hinv. pose proof (pk_size _ _ _ Hok) as Hsz.
  assert (Z.of_nat (S (length (map_to_list (p_msgs p)).*2) + length (A:=N) []) < 2 ^ 31) as Hroom
    by (rewrite length_fmap; cbn [length]; lia).
  destruct o as [i|i sz|i d sz user hint|i off bs|i|i j|i j]; cbn [run_mop allowed spec_mop] in *.
  - apply bool_decide_eq_true in Hall. eexists None, _. split; [done|].
    apply places_ok_new; try done. by apply add_nokey.
  - apply bool_decide_eq_true in Hall as [Hi Hsz0].
    destruct (init_size_spec malloc (p_mem p) _ [] sz Hinv Hsz0 Hroom) as (rc & m & mm & Hr & Hext & Hm).
    pose proof (init_size_nozc _ _ _ _ _ Hr). rewrite Hr. cbn. destruct rc; eexists _, _; (split; [done|]).
    + destruct Hm as [-> Hm]. split; [done|]. by apply places_ok_same.
    + destruct Hm as (Hm & _ & Hb). by apply places_ok_new.
  - apply bool_decide_eq_true in Hall as [Hi Hd].
    destruct (init_data_spec malloc (p_mem p) _ [] d sz (if user then Some user_free else None) hint Hinv Hd)
      as (rc & m & mm & Hr & Hext & Hm); [by destruct user|done|].
    pose proof (init_data_nozc _ _ _ _ _ _ _ _ Hr). rewrite Hr. cbn. destruct rc; eexists _, _; (split; [done|]).
    + destruct Hm as [-> Hm]. split; [done|]. by apply places_ok_same.
    + destruct Hm as (Hm & Hb). by apply places_ok_new.
  - destruct (p_msgs p !! i) as [m|] eqn:Hi; [|done].
    destruct (msg_bytes (p_mem p) m) as [old|] eqn:Hold; [|done]. apply bool_decide_eq_true in Hall as [Hr Hs].
    rewrite (msgs_delete _ i m Hi) in Hinv.
    destruct (write_data_spec (p_mem p) m _ old off (Some <$> bs) Hinv Hold) as (m' & mm & -> & Hinv' & Hb' & Hz' & Hoth);
      [by rewrite length_fmap|done|by eapply Hok|].
    eexists None, _. split; [done|]. by eapply places_ok_write.
  - apply bool_decide_eq_true in Hall as [m Hi]. rewrite Hi. rewrite (msgs_delete _ i m Hi) in Hinv.
    destruct (close_spec _ _ _ _ Hinv) as (mm & m' & -> & Hinv' & Hle). eexists None, _. split; [done|]. by eapply places_ok_close.
  - apply bool_decide_eq_true in Hall as (Hij & [mi Hi] & [mj Hj]). rewrite Hi, Hj.
    assert (delete i (p_msgs p) !! j = Some mj) as Hj' by (by rewrite lookup_delete_ne).
    rewrite (msgs_delete _ i mi Hi), (msgs_delete _ j mj Hj') in Hinv.
    destruct (move_spec _ _ _ _ _ Hinv) as (mm & -> & Hinv' & Hle). eexists None, _. split; [done|].
    rewrite (places_val _ _ _ j mj Hok Hj).
    apply (places_ok_two p v n i j mi mj); try done; [by intros ms _ ->| |by eapply Hok].
    apply msg_bytes_le; [done|]. eapply inv_wf; [done|left].
  - apply bool_decide_eq_true in Hall as (Hij & [mi Hi] & [mj Hj]). rewrite Hi, Hj.
    assert (delete i (p_msgs p) !! j = Some mj) as Hj' by (by rewrite lookup_delete_ne).
    rewrite (msgs_delete _ i mi Hi), (msgs_delete _ j mj Hj') in Hinv.
    destruct (copy_spec _ _ _ _ _ Hinv) as (m' & mm & -> & Hinv' & Hle & Hb). eexists None, _. split; [done|].
    rewrite (places_val _ _ _ j mj Hok Hj).
    assert (v = <[j := msg_bytes (p_mem p) mj]> v) as Hv by (symmetry; apply insert_id; by apply (places_val _ _ n)).
    assert (msg_bytes mm m' = msg_bytes (p_mem p) mj) as Hb'.
    { rewrite <-(msg_bytes_body _ mj m') by done. apply msg_bytes_le; [done|]. eapply inv_wf; [done|left]. }
    assert (is_zcmsg m' = false) as Hz by (rewrite (is_zcmsg_body mj m') by done; by eapply Hok).
    rewrite Hv at 1. apply (places_ok_two p v n i j mi mj); try done. by intros ms _ ->.
Qed.

Lemma places_ok_mono p v n n' : (n ≤ n')%nat → places_ok p v n → places_ok p v n'.
Proof. intros H [????]. split; try done. lia. Qed.

Lemma run_mops_ok os p v n :
  places_ok p v n → Z.of_nat (n + length os) < 2 ^ 31 →
  ∃ l p', run_mops malloc os p = Ok (l, p') ∧
    places_ok p' (foldl (λ v '(o, rc), match rc with None => spec_mop o v | Some _ => v end) v l)
      (n + length os) ∧
    Forall (λ '(_, rc), rc = None ∨ rc = Some ENOMEM) l.
Proof.
  revert p v n. induction os as [|o os IH]; intros p v n Hok Hn; cbn [run_mops length].
  { exists [], p. rewrite Nat.add_0_r. by split_and!. }
  cbn [length] in Hn. destruct (allowed o p) eqn:Hall.
  - destruct (run_mop_ok o p v n Hok) as (rc & p1 & -> & Hrc); [lia|done|].
    destruct (IH p1 (match rc with None => spec_mop o v | Some _ => v end) (S n)) as (l & p' & -> & Hok' & Hl);
      [by destruct rc as [e|]; [destruct Hrc|]|lia|].
    exists ((o, rc) :: l), p'. split_and!; [done| |].
    + cbn. eapply places_ok_mono; [|done]. lia.
    + constructor; [|done]. destruct rc as [e|]; [destruct Hrc as [-> _]; by right|by left].
  - destruct (IH p v n Hok) as (l & p' & -> & Hok' & Hl); [lia|]. exists l, p'. split_and!; [done| |done].
    eapply places_ok_mono; [|done]. lia.
Qed.
End programs_ok.

(** C14: a program that makes, writes, copies, moves and closes messages as the
    interface allows sees messages as values of their own, however memory is
    handed out and whether or not it is shared: no operation goes wrong or fails
    other than for lack of memory, every place reads as the list of bytes it
    should hold, and when every message is closed all memory is freed. *)
Theorem messages_refine_values malloc os :
  Z.of_nat (length os) < 2 ^ 31 →
  ∃ l p, run_mops malloc os (Places no_memory ∅) = Ok (l, p) ∧
    Forall (λ '(_, rc), rc = None ∨ rc = Some ENOMEM) l ∧
    dom (p_msgs p) = dom (spec_mops l) ∧
    (∀ i m bs, p_msgs p !! i = Some m → spec_mops l !! i = Some (Some bs) →
      contents m (p_mem p) = Ok (bs, p_mem p)) ∧
    (p_msgs p = ∅ → blocks (p_mem p) = ∅).
Proof.
  intros Hn. assert (places_ok (Places no_memory ∅) ∅ 0) as H0.
  { split; cbn; try done. split; try done; cbn; try (intros; set_solver). all: intros; by rewrite ?lookup_empty in *. }
  destruct (run_mops_ok malloc os _ ∅ 0 H0) as (l & p & Hr & Hok & Hl); [done|].
  exists l, p. split_and!; [done|done|..].
  - apply set_eq. intros i. rewrite !elem_of_dom. pose proof (pk_vals _ _ _ Hok i) as Hv.
    unfold spec_mops. rewrite <-Hv. by rewrite fmap_is_Some.
  - intros i m bs Hi Hs. apply contents_run.
    + eapply inv_wf; [apply Hok|]. by eapply msgs_elem.
    + pose proof (pk_vals _ _ _ Hok i) as Hv. rewrite Hi in Hv. unfold spec_mops in Hs. rewrite Hs in Hv. by simplify_eq/=.
  - intros Hempty. pose proof (pk_inv _ _ _ Hok) as Hinv. rewrite Hempty, map_to_list_empty in Hinv.
    apply map_eq. intros b. rewrite lookup_empty. destruct (blocks (p_mem p) !! b) as [k|] eqn:Hb; [|done].
    exfalso. destruct (b_content k) as [c|] eqn:Hc.
    + pose proof (inv_content _ _ _ Hinv b k c Hb Hc) as H. cbn in H. lia.
    + destruct (inv_buffer _ _ _ Hinv b k Hb Hc) as [H1 H2]. rewrite H1 in H2.
      pose proof (groups_le b (length (b_ctrs k)) []) as Hg. cbn in *. lia.
Qed.

(** Two references to one large message, of which one is closed. *)
Definition sharing_program : list mop :=
  [op_init 0; op_init 1; op_close 0; op_init_size 0 40; op_write 0 0 [1; 2]; op_copy 1 0; op_close 0].

Lemma messages_refine_values_witness :
  ∃ l p, run_mops (λ _ _, Some 4096) sharing_program (Places no_memory ∅) = Ok (l, p) ∧
    Forall (λ '(_, rc), rc = None ∨ rc = Some ENOMEM) l ∧
    dom (p_msgs p) = dom (spec_mops l) ∧
    (∀ i m bs, p_msgs p !! i = Some m → spec_mops l !! i = Some (Some bs) →
      contents m (p_mem p) = Ok (bs, p_mem p)) ∧
    (p_msgs p = ∅ → blocks (p_mem p) = ∅).
Proof. apply (messages_refine_values (λ _ _, Some 4096) sharing_program). vm_compute. reflexivity. Defined.
