(* ===== verification/ZmqDecoder.v ===== *)
(** * Framing of incoming messages (libzmq/src)

    [decoder_base_t] of decoder.hpp with the actions of [v1_decoder_t] and
    [v2_decoder_t], the buffers of decoder_allocators.cpp, [raw_decoder_t], and the
    part of [stream_engine_t] that reads from the socket and passes messages on.

    The version 2 decoder does not copy the data of large messages: they stay in
    the receive buffer, and the message counts as a user of the buffer.  Addresses
    are 64-bit integers and pointer arithmetic wraps around, as on the machine.  An
    error of the connection while the input is stopped is not modelled, and the file
    descriptor of a delimiter, which its constructor leaves unset, is -1. *)

From stdpp Require Import base tactics list numbers gmap strings.
From S2P Require Import Prelude ZmqWire ZmqEncoder ZmqMsg.

Local Open Scope Z_scope.

Inductive dstep :=
  | d1_one_byte_size_ready | d1_eight_byte_size_ready | d1_flags_ready | d1_message_ready
  | d2_flags_ready | d2_one_byte_size_ready | d2_eight_byte_size_ready | d2_message_ready.

#[global] Instance dstep_eq_dec : EqDecision dstep.
Proof. solve_decision. Defined.

(** Where data is read to: [tmpbuf], the body of the message in progress, or a
    block of memory. *)
Inductive rptr := r_tmp (off : Z) | r_msg (off : Z) | r_heap (p : ptr).

#[global] Instance rptr_eq_dec : EqDecision rptr.
Proof. solve_decision. Defined.

Definition ptr_add (p : ptr) (n : Z) : ptr :=
  match p with pnull => pnull | pat b off => pat b (off + n) end.
Definition r_add (p : rptr) (n : Z) : rptr :=
  match p with
  | r_tmp off => r_tmp (off + n)
  | r_msg off => r_msg (off + n)
  | r_heap p => r_heap (ptr_add p n)
  end.

(** [c_single_allocator] and [shared_message_memory_allocator]. *)
Inductive allocator :=
  | single (buf : N) (bufsize : Z)
  | shared (buf : option N) (bufsize max_size : Z) (msg_refcnt : nat) (maxCounters : nat).

Record decoder := Decoder {
  d_next : dstep;
  d_read_pos : rptr;
  d_to_read : Z;
  d_alloc : allocator;
  d_tmpbuf : list mbyte;
  d_msg_flags : Z;
  d_in_progress : msg_t;
  d_maxmsgsize : Z
}.

Record dst := Dst { ds_mem : mem; ds_dec : decoder }.

Definition D := M dst.

Definition in_mem {A} (c : M mem A) : D A := zoom ds_mem (λ m s, Dst m (ds_dec s)) c.
Definition dget {A} (f : decoder → A) : D A := gets (f ∘ ds_dec).
Definition dset (f : decoder → decoder) : D () := modify (λ s, Dst (ds_mem s) (f (ds_dec s))).

Definition set_next_step (p : rptr) (n : Z) (st : dstep) (d : decoder) : decoder :=
  Decoder st p n (d_alloc d) (d_tmpbuf d) (d_msg_flags d) (d_in_progress d) (d_maxmsgsize d).
Definition set_alloc (a : allocator) (d : decoder) : decoder :=
  Decoder (d_next d) (d_read_pos d) (d_to_read d) a (d_tmpbuf d) (d_msg_flags d)
    (d_in_progress d) (d_maxmsgsize d).
Definition set_tmpbuf (t : list mbyte) (d : decoder) : decoder :=
  Decoder (d_next d) (d_read_pos d) (d_to_read d) (d_alloc d) t (d_msg_flags d)
    (d_in_progress d) (d_maxmsgsize d).
Definition set_msg_flags (f : Z) (d : decoder) : decoder :=
  Decoder (d_next d) (d_read_pos d) (d_to_read d) (d_alloc d) (d_tmpbuf d) f
    (d_in_progress d) (d_maxmsgsize d).
Definition set_dmsg (m : msg_t) (d : decoder) : decoder :=
  Decoder (d_next d) (d_read_pos d) (d_to_read d) (d_alloc d) (d_tmpbuf d) (d_msg_flags d)
    m (d_maxmsgsize d).

Definition next_step_d (p : rptr) (n : Z) (st : dstep) : D () := dset (set_next_step p n st).

(** Reads and writes through a pointer. *)
Definition list_range (off : Z) (n : nat) (l : list mbyte) : bool :=
  (0 <=? off) && (off + Z.of_nat n <=? Z.of_nat (length l)).

Definition r_load (p : rptr) (n : nat) : D (list mbyte) :=
  match p with
  | r_tmp off =>
      t ← dget d_tmpbuf;
      if list_range off n t then mret (take n (drop (Z.to_nat off) t)) else undefined OutOfBounds
  | r_msg off =>
      m ← dget d_in_progress;
      match body m with
      | vsm t =>
          if list_range off n t then mret (take n (drop (Z.to_nat off) t)) else undefined OutOfBounds
      | _ => undefined BadCast
      end
  | r_heap p => in_mem (load p n)
  end.

Definition r_store (p : rptr) (bs : list mbyte) : D () :=
  match p with
  | r_tmp off =>
      t ← dget d_tmpbuf;
      if list_range off (length bs) t then dset (set_tmpbuf (overwrite (Z.to_nat off) bs t))
      else undefined OutOfBounds
  | r_msg off =>
      m ← dget d_in_progress;
      match body m with
      | vsm t =>
          if list_range off (length bs) t then
            dset (set_dmsg (set_body (vsm (overwrite (Z.to_nat off) bs t)) m))
          else undefined OutOfBounds
      | _ => undefined BadCast
      end
  | r_heap p => in_mem (store p bs)
  end.

(** A byte of [tmpbuf]. *)
Definition tmp_byte (i : nat) : D Z :=
  t ← dget d_tmpbuf;
  match t !! i with Some (Some v) => mret v | _ => undefined Uninitialised end.

Definition tmp_uint64 : D Z :=
  t ← dget d_tmpbuf;
  match mapM id t with
  | Some bs => match get_uint64 bs with Some v => mret v | None => undefined OutOfBounds end
  | None => undefined Uninitialised
  end.

Definition data_ptr (m : msg_t) : D rptr :=
  d ← in_mem (data m); mret match d with in_msg => r_msg 0 | in_heap p => r_heap p end.

Definition sizeof_counter : Z := 4.

Section decoder.
Context (malloc : N → Z → option Z).

(** ** decoder_allocators.cpp *)

Definition alloc_size (a : allocator) : Z :=
  match a with single _ n => n | shared _ n _ _ _ => n end.

Definition release (a : allocator) : allocator :=
  match a with
  | shared _ _ max_size _ maxCounters => shared None 0 max_size 0 maxCounters
  | _ => a
  end.

(** [malloc] with [alloc_assert]. *)
Definition new_buffer (max_size : Z) (maxCounters : nat) : D N :=
  b ← in_mem (new_block malloc
        (max_size + sizeof_counter + Z.of_nat maxCounters * sizeof_counter)
        (λ a, Block (a + sizeof_counter) (replicate (Z.to_nat max_size) None) 1
                (replicate maxCounters 0) None));
  match b with Some b => mret b | None => throw (Fatal "FATAL ERROR: OUT OF MEMORY") end.

Definition allocate : D ptr :=
  a ← dget d_alloc;
  match a with
  | single buf _ => mret (pat buf 0)
  | shared buf bufsize max_size refcnt maxCounters =>
      buf ← match buf with
            | Some b =>
                more ← in_mem (ctr_sub (c_start b) 1);
                mret (if more : bool then None else Some b)
            | None => mret None
            end;
      b ← match buf with
          | None => new_buffer max_size maxCounters
          | Some b => in_mem (ctr_set (c_start b) 1);; mret b
          end;
      dset (set_alloc (shared (Some b) max_size max_size 0 maxCounters));;
      mret (pat b 0)
  end.

Definition resize_buffer (new_size : Z) : D () :=
  a ← dget d_alloc;
  dset (set_alloc
    match a with
    | single b _ => single b new_size
    | shared b _ max_size refcnt maxCounters => shared b new_size max_size refcnt maxCounters
    end).

(** [deallocate], when the decoder is destroyed. *)
Definition deallocate : D () :=
  a ← dget d_alloc;
  match a with
  | single _ _ => mret ()
  | shared buf _ _ _ _ =>
      match buf with
      | Some b => more ← in_mem (ctr_sub (c_start b) 1);
                  if more : bool then mret () else in_mem (free b)
      | None => mret ()
      end;;
      dset (set_alloc (release a))
  end.

(** ** The version 2 decoder (v2_decoder.cpp) *)

Inductive drc := rc_more | rc_done | rc_err (e : errno).

(** The address a pointer into a block stands for. *)
Definition address (p : ptr) : D Z :=
  match p with
  | pnull => mret 0
  | pat b off => k ← in_mem (get_block b); mret (u64 (b_addr k + off))
  end.

Definition d2_flags_ready_step : D drc :=
  t0 ← tmp_byte 0;
  let f := if has_flag t0 more_flag then Z.lor 0 msg_more else 0 in
  let f := if has_flag t0 command_flag then Z.lor f msg_command else f in
  dset (set_msg_flags f);;
  (if has_flag t0 large_flag then next_step_d (r_tmp 0) 8 d2_eight_byte_size_ready
   else next_step_d (r_tmp 0) 1 d2_one_byte_size_ready);;
  mret rc_more.

(** [(unsigned char* ) read_pos + msg_size > (data() + size())]; the comparison is
    meaningless for a pointer that is not into a buffer. *)
Definition exceeds_buffer (read_pos : rptr) (msg_size : Z) : D bool :=
  a ← dget d_alloc;
  match a, read_pos with
  | shared (Some b) bufsize _ _ _, r_heap p =>
      pa ← address p; da ← address (pat b 0);
      mret (u64 (pa + msg_size) >? u64 (da + bufsize))
  | _, _ => undefined OutOfBounds
  end.

(** A message whose data is in the buffer, or a copy of them. *)
Definition init_in_buffer (read_pos : rptr) (msg_size : Z) : D (option errno * msg_t) :=
  a ← dget d_alloc;
  match a, read_pos with
  | shared (Some b) bufsize max_size refcnt maxCounters, r_heap p =>
      '(rc, m) ← in_mem (init_from malloc p msg_size (Some call_dec_ref) (Some b) (Some (c_arr b refcnt)));
      (if is_zcmsg m then
         dset (set_alloc (shared (Some b) bufsize max_size (S refcnt) maxCounters));;
         in_mem (ctr_add (c_start b) 1);; mret ()
       else mret ());;
      mret (rc, m)
  | _, _ => undefined NullDeref
  end.

Definition d2_size_ready (msg_size : Z) (read_pos : rptr) : D drc :=
  maxmsgsize ← dget d_maxmsgsize;
  if (0 <=? maxmsgsize) && (msg_size >? u64 maxmsgsize) then mret (rc_err EMSGSIZE)
  else if negb (msg_size =? u64 msg_size) then mret (rc_err EMSGSIZE)
  else
    m ← dget d_in_progress;
    '(rc, m) ← in_mem (close m);
    in_mem (fatal_assert (bool_decide (rc = None)) "Assertion failed: rc == 0");;
    dset (set_dmsg m);;
    big ← exceeds_buffer read_pos msg_size;
    '(rc, m) ← (if big : bool then in_mem (init_size malloc msg_size)
                else init_in_buffer read_pos msg_size);
    match rc with
    | Some _ => dset (set_dmsg init);; mret (rc_err ENOMEM)
    | None =>
        flags ← dget d_msg_flags;
        dset (set_dmsg (set_flags flags m));;
        p ← data_ptr m; n ← in_mem (size m);
        next_step_d p n d2_message_ready;;
        mret rc_more
    end.

Definition d2_one_byte_size_ready_step (read_from : rptr) : D drc :=
  n ← tmp_byte 0; d2_size_ready n read_from.

Definition d2_eight_byte_size_ready_step (read_from : rptr) : D drc :=
  n ← tmp_uint64; d2_size_ready n read_from.

Definition d2_message_ready_step : D drc :=
  next_step_d (r_tmp 0) 1 d2_flags_ready;; mret rc_done.

(** ** The version 1 decoder (v1_decoder.cpp) *)

(** A new message of the announced size, and then its flags. *)
Definition d1_new_message (msg_size : Z) : D drc :=
  m ← dget d_in_progress;
  '(rc, m) ← in_mem (close m);
  in_mem (fatal_assert (bool_decide (rc = None)) "Assertion failed: rc == 0");;
  '(rc, m) ← in_mem (init_size malloc msg_size);
  match rc with
  | Some _ => dset (set_dmsg init);; mret (rc_err ENOMEM)
  | None =>
      dset (set_dmsg m);;
      next_step_d (r_tmp 0) 1 d1_flags_ready;;
      mret rc_more
  end.

Definition d1_one_byte_size_ready_step : D drc :=
  t0 ← tmp_byte 0;
  if t0 =? 0xff then next_step_d (r_tmp 0) 8 d1_eight_byte_size_ready;; mret rc_more
  else if t0 =? 0 then mret (rc_err EPROTO)
  else
    maxmsgsize ← dget d_maxmsgsize;
    if (0 <=? maxmsgsize) && (t0 - 1 >? maxmsgsize) then mret (rc_err EMSGSIZE)
    else d1_new_message (t0 - 1).

Definition d1_eight_byte_size_ready_step : D drc :=
  payload_length ← tmp_uint64;
  if payload_length =? 0 then mret (rc_err EPROTO)
  else
    maxmsgsize ← dget d_maxmsgsize;
    if (0 <=? maxmsgsize) && (u64 (payload_length - 1) >? u64 maxmsgsize) then mret (rc_err EMSGSIZE)
    else if u64 (payload_length - 1) >? 2 ^ 64 - 1 then mret (rc_err EMSGSIZE)
    else d1_new_message (u64 (payload_length - 1)).

Definition d1_flags_ready_step : D drc :=
  t0 ← tmp_byte 0;
  m ← dget d_in_progress;
  dset (set_dmsg (set_flags (Z.land t0 msg_more) m));;
  p ← data_ptr m; n ← in_mem (size m);
  next_step_d p n d1_message_ready;;
  mret rc_more.

Definition d1_message_ready_step : D drc :=
  next_step_d (r_tmp 0) 1 d1_one_byte_size_ready;; mret rc_done.

(** ** decoder.hpp *)

(** [(static_cast <T *> (this)->*next) (pos)] *)
Definition run_dnext (pos : rptr) : D drc :=
  st ← dget d_next;
  match st with
  | d1_one_byte_size_ready => d1_one_byte_size_ready_step
  | d1_eight_byte_size_ready => d1_eight_byte_size_ready_step
  | d1_flags_ready => d1_flags_ready_step
  | d1_message_ready => d1_message_ready_step
  | d2_flags_ready => d2_flags_ready_step
  | d2_one_byte_size_ready => d2_one_byte_size_ready_step pos
  | d2_eight_byte_size_ready => d2_eight_byte_size_ready_step pos
  | d2_message_ready => d2_message_ready_step
  end.

Definition get_buffer : D (rptr * Z) :=
  buf ← allocate;
  a ← dget d_alloc; to_read ← dget d_to_read;
  if to_read >=? alloc_size a then p ← dget d_read_pos; mret (p, to_read)
  else mret (r_heap buf, alloc_size a).

(** [while (to_read == 0)]: actions until one needs data or ends the call.  From
    any action there are at most three, the last one needs a byte or ends the
    call, so the bound is enough. *)
Fixpoint run_actions (fuel : nat) (pos : rptr) : D drc :=
  match fuel with
  | O => throw OutOfFuel
  | S fuel =>
      to_read ← dget d_to_read;
      if to_read =? 0 then
        rc ← run_dnext pos;
        match rc with rc_more => run_actions fuel pos | _ => mret rc end
      else mret rc_more
  end.

Definition advance_read (n : Z) : D () :=
  dset (λ d, set_next_step (r_add (d_read_pos d) n) (d_to_read d - n) (d_next d) d).

(** The loop over the data; each turn takes at least one byte. *)
Fixpoint decode_loop (fuel : nat) (data_ : rptr) (size_ used : Z) : D (drc * Z) :=
  match fuel with
  | O => throw OutOfFuel
  | S fuel =>
      if used <? size_ then
        to_read ← dget d_to_read; read_pos ← dget d_read_pos;
        let to_copy := Z.min to_read (size_ - used) in
        (if decide (read_pos = r_add data_ used) then mret ()
         else bs ← r_load (r_add data_ used) (Z.to_nat to_copy); r_store read_pos bs);;
        advance_read to_copy;;
        let used := used + to_copy in
        rc ← run_actions 4 (r_add data_ used);
        match rc with rc_more => decode_loop fuel data_ size_ used | _ => mret (rc, used) end
      else mret (rc_more, used)
  end.

(** [decode (data_, size_, bytes_used_)]: the return code and [bytes_used_]. *)
Definition decode (data_ : rptr) (size_ : Z) : D (drc * Z) :=
  read_pos ← dget d_read_pos;
  if decide (data_ = read_pos) then
    to_read ← dget d_to_read;
    in_mem (fatal_assert (size_ <=? to_read) "Assertion failed: size_ <= to_read");;
    advance_read size_;;
    rc ← run_actions 4 (r_add data_ size_);
    mret (rc, size_)
  else decode_loop (S (Z.to_nat size_)) data_ size_ 0.

(** ** raw_decoder.cpp: what was read is one message *)

Definition raw_get_buffer : D (ptr * Z) :=
  buf ← allocate; a ← dget d_alloc; mret (buf, alloc_size a).

Definition raw_decode (data_ : ptr) (size_ : Z) : D (drc * Z) :=
  a ← dget d_alloc;
  match a with
  | shared (Some b) bufsize max_size refcnt maxCounters =>
      '(rc, m) ← in_mem (init_from malloc data_ size_ (Some call_dec_ref) (Some b) (Some (c_arr b refcnt)));
      dset (set_dmsg m);;
      (if is_zcmsg m then dset (set_alloc (release a)) else mret ());;
      in_mem (fatal_assert (bool_decide (rc = None)) "errno_assert: rc != -1");;
      mret (rc_done, size_)
  | _ => undefined NullDeref
  end.

(** The constructors.  The base class allocates the first buffer. *)
Definition max_counters (bufsize_ : Z) : nat :=
  Z.to_nat ((bufsize_ + max_vsm_size - 1) / max_vsm_size).

Definition v2_decoder_t (bufsize_ maxmsgsize_ : Z) : M mem decoder := λ mm,
  let d := Decoder d2_flags_ready (r_tmp 0) 0
             (shared None 0 bufsize_ 0 (max_counters bufsize_)) (replicate 8 None) 0 init maxmsgsize_ in
  match (allocate;; next_step_d (r_tmp 0) 1 d2_flags_ready) (Dst mm d) with
  | Ok (_, s) => Ok (ds_dec s, ds_mem s)
  | Err e => Err e
  end.

Definition v1_decoder_t (bufsize_ maxmsgsize_ : Z) : M mem decoder :=
  b ← new_block malloc bufsize_ (λ a, Block a (replicate (Z.to_nat bufsize_) None) 1 [] None);
  match b with
  | Some b =>
      mret (Decoder d1_one_byte_size_ready (r_tmp 0) 1 (single b bufsize_) (replicate 8 None) 0
              init maxmsgsize_)
  | None => throw (Fatal "FATAL ERROR: OUT OF MEMORY")
  end.
End decoder.

(** ** The input side of the engine (stream_engine.cpp) *)

Record in_engine := InEngine {
  ie_st : dst;
  ie_inpos : rptr;
  ie_insize : Z;
  ie_stream : list Z;          (* what the socket still has to deliver *)
  ie_delivered : list msg_t;   (* messages the session has taken *)
  ie_stopped : bool            (* [input_stopped] *)
}.

(** The way an event of the engine ends: the connection goes on or it is closed. *)
Inductive in_result := in_go (s : in_engine) | in_closed (e : errno) (s : in_engine).

Section engine.
Context (malloc : N → Z → option Z).

(** [process_msg]: the session takes the message while it has room for it. *)
Definition push_msg (room : nat) (s : in_engine) : option (nat * in_engine) :=
  match room with
  | O => None
  | S room =>
      let d := ds_dec (ie_st s) in
      Some (room, InEngine (Dst (ds_mem (ie_st s)) (set_dmsg init d)) (ie_inpos s) (ie_insize s)
                    (ie_stream s) (ie_delivered s ++ [d_in_progress d]) (ie_stopped s))
  end.

Definition set_stopped (b : bool) (s : in_engine) : in_engine :=
  InEngine (ie_st s) (ie_inpos s) (ie_insize s) (ie_stream s) (ie_delivered s) b.

(** The loop of [in_event] and of [restart_input]; each turn takes a byte or ends it. *)
Fixpoint process_input (fuel : nat) (room : nat) (s : in_engine) : result in_result :=
  match fuel with
  | O => Err OutOfFuel
  | S fuel =>
      if 0 <? ie_insize s then
        match decode malloc (ie_inpos s) (ie_insize s) (ie_st s) with
        | Err e => Err e
        | Ok ((rc, processed), st) =>
            if ie_insize s <? processed then Err (Fatal "Assertion failed: processed <= insize")
            else
              let s := InEngine st (r_add (ie_inpos s) processed) (ie_insize s - processed)
                         (ie_stream s) (ie_delivered s) (ie_stopped s) in
              match rc with
              | rc_more => Ok (in_go (set_stopped false s))
              | rc_err e => Ok (in_closed e s)
              | rc_done =>
                  match push_msg room s with
                  | None => Ok (in_go (set_stopped true s))
                  | Some (room, s) => process_input fuel room s
                  end
              end
        end
      else Ok (in_go (set_stopped false s))
  end.

(** [in_event]: the socket delivers at most [limit] bytes, the session has room for
    [room] messages. *)
Definition in_event (limit : Z) (room : nat) (s : in_engine) : result in_result :=
  if ie_stopped s then Ok (in_go s)
  else if ie_insize s =? 0 then
    match get_buffer malloc (ie_st s) with
    | Err e => Err e
    | Ok ((inpos, bufsize), st) =>
        let n := Nat.min (Z.to_nat (Z.min limit bufsize)) (length (ie_stream s)) in
        if decide (n = 0%nat) then
          Ok (in_go (InEngine st inpos 0 (ie_stream s) (ie_delivered s) (ie_stopped s)))
        else
          match (r_store inpos (Some <$> take n (ie_stream s));; resize_buffer (Z.of_nat n)) st with
          | Err e => Err e
          | Ok (_, st) =>
              process_input (S n) room
                (InEngine st inpos (Z.of_nat n) (drop n (ie_stream s)) (ie_delivered s) (ie_stopped s))
          end
    end
  else process_input (S (Z.to_nat (ie_insize s))) room s.

(** [restart_input], when the session has room again, for [room] messages and then,
    after another read, for [room'] more. *)
Definition restart_input (limit : Z) (room room' : nat) (s : in_engine) : result in_result :=
  if negb (ie_stopped s) then Err (Fatal "Assertion failed: input_stopped")
  else
    match push_msg room s with
    | None => Ok (in_go s)
    | Some (room, s) =>
        match process_input (S (Z.to_nat (ie_insize s))) room s with
        | Ok (in_go s) => if ie_stopped s then Ok (in_go s) else in_event limit room' s
        | r => r
        end
    end.
End engine.
