(* ===== verification/ZmqDecoderSpec.v ===== *)
(** * The decoder gives back what the encoder was given (libzmq/src)

    A parser that takes one byte at a time says which messages a stream of bytes
    holds.  The version 2 decoder with its buffers and shared messages follows it,
    however the stream is cut into reads. *)

From stdpp Require Import base tactics list numbers gmap strings.
From S2P Require Import Prelude ZmqWire ZmqEncoder ZmqMsg ZmqMsgSpec ZmqDecoder.

Local Open Scope Z_scope.

(** ** A parser for version 2 frames *)

Inductive pstate :=
  | p_flags
  | p_one (f : Z)
  | p_eight (f : Z) (got : list Z)
  | p_body (f : Z) (n : Z) (got : list Z).

(** The flags of the message, from the flags of the frame. *)
Definition flags_of (t0 : Z) : Z :=
  (if has_flag t0 1 then 1 else 0) + (if has_flag t0 4 then 2 else 0).

(** The size is known. *)
Definition p_size (f n : Z) : pstate * list wmsg :=
  if n =? 0 then (p_flags, [WMsg f []]) else (p_body f n [], []).

Definition feed (p : pstate) (x : Z) : pstate * list wmsg :=
  match p with
  | p_flags => ((if has_flag x 2 then p_eight (flags_of x) [] else p_one (flags_of x)), [])
  | p_one f => p_size f x
  | p_eight f got =>
      if decide (length got = 7%nat) then p_size f (be_val (got ++ [x])) else (p_eight f (got ++ [x]), [])
  | p_body f n got =>
      if Z.of_nat (length got) + 1 =? n then (p_flags, [WMsg f (got ++ [x])])
      else (p_body f n (got ++ [x]), [])
  end.

Fixpoint feeds (p : pstate) (xs : list Z) : pstate * list wmsg :=
  match xs with
  | [] => (p, [])
  | x :: xs =>
      let '(p, out) := feed p x in
      let '(p, out') := feeds p xs in (p, out ++ out')
  end.

Lemma feeds_app p xs ys :
  feeds p (xs ++ ys) =
  ((feeds (feeds p xs).1 ys).1, (feeds p xs).2 ++ (feeds (feeds p xs).1 ys).2).
Proof.
  revert p. induction xs as [|x xs IH]; intros p; cbn [feeds app].
  - cbn. by destruct (feeds p ys).
  - destruct (feed p x) as [p1 out]. rewrite IH. destruct (feeds p1 xs) as [p2 out2]. cbn [fst snd].
    destruct (feeds p2 ys). cbn. by rewrite (assoc_L (++)).
Qed.

Lemma feeds_one p x : feeds p [x] = feed p x.
Proof. cbn. destruct (feed p x). by rewrite app_nil_r. Qed.

Lemma feeds_eight f got xs :
  (length got + length xs < 8)%nat → feeds (p_eight f got) xs = (p_eight f (got ++ xs), []).
Proof.
  revert got. induction xs as [|x xs IH]; intros got H; cbn [feeds]; [by rewrite app_nil_r|].
  cbn [length] in H. cbn [feed]. rewrite decide_False by lia. rewrite IH by (rewrite length_app; cbn; lia).
  by rewrite <-(assoc_L (++)).
Qed.

Lemma feeds_eight_full f got xs :
  (length got + length xs = 8)%nat → (length got < 8)%nat → feeds (p_eight f got) xs = p_size f (be_val (got ++ xs)).
Proof.
  intros H Hl. destruct xs as [|x xs _] using rev_ind; [cbn in H; lia|].
  rewrite length_app in H. cbn in H. rewrite feeds_app, feeds_eight by lia. cbn [fst snd].
  rewrite feeds_one. cbn [feed]. rewrite decide_True by (rewrite length_app; lia).
  rewrite <-(assoc_L (++)). by destruct (p_size _ _).
Qed.

Lemma feeds_body f n got xs :
  Z.of_nat (length got + length xs) < n → feeds (p_body f n got) xs = (p_body f n (got ++ xs), []).
Proof.
  revert got. induction xs as [|x xs IH]; intros got H; cbn [feeds]; [by rewrite app_nil_r|].
  cbn [length] in H. cbn [feed]. destruct (Z.eqb_spec (Z.of_nat (length got) + 1) n); [lia|].
  rewrite IH by (rewrite length_app; cbn; lia). by rewrite <-(assoc_L (++)).
Qed.

Lemma feeds_body_full f n got xs :
  Z.of_nat (length got + length xs) = n → xs ≠ [] → feeds (p_body f n got) xs = (p_flags, [WMsg f (got ++ xs)]).
Proof.
  intros H Hne. destruct xs as [|x xs _] using rev_ind; [done|].
  rewrite length_app in H. cbn in H. rewrite feeds_app, feeds_body by lia. cbn [fst snd].
  rewrite feeds_one. cbn [feed]. rewrite length_app.
  destruct (Z.eqb_spec (Z.of_nat (length got + length xs) + 1) n); [|lia]. by rewrite <-(assoc_L (++)).
Qed.

(** ** Frames are parsed *)

Definition sent_flags (m : wmsg) : Z :=
  (if has_flag (wm_flags m) 1 then 1 else 0) + (if has_flag (wm_flags m) 2 then 2 else 0).

(** The message that arrives. *)
Definition received (m : wmsg) : wmsg := WMsg (sent_flags m) (wm_data m).

Lemma v2_flags_bits m :
  flags_of (v2_flags m) = sent_flags m ∧ has_flag (v2_flags m) 2 = (255 <? wm_size m).
Proof.
  unfold v2_flags, flags_of, sent_flags. by destruct (has_flag (wm_flags m) 1), (has_flag (wm_flags m) 2), (255 <? wm_size m).
Qed.

Lemma feeds_size f n xs : Z.of_nat (length xs) = n →
  (feeds (p_size f n).1 xs).1 = p_flags ∧ (p_size f n).2 ++ (feeds (p_size f n).1 xs).2 = [WMsg f xs].
Proof.
  intros Hn. unfold p_size. destruct (Z.eqb_spec n 0).
  - destruct xs; [done|cbn in Hn; lia].
  - cbn [fst snd]. rewrite feeds_body_full; [done|cbn; lia|]. intros ->. cbn in Hn. lia.
Qed.

Lemma feeds_frame m : wm_size m < 2 ^ 64 → feeds p_flags (frame V2 m) = (p_flags, [received m]).
Proof.
  intros Hs. destruct (v2_flags_bits m) as [Hf Hl]. unfold frame. cbn [header]. unfold v2_header.
  assert (0 ≤ wm_size m) as H0 by (unfold wm_size; lia).
  destruct (feeds_size (sent_flags m) (wm_size m) (wm_data m) eq_refl) as [H1 H2].
  cbn [app feeds feed]. rewrite Hl, Hf. destruct (Z.ltb_spec 255 (wm_size m)).
  - rewrite feeds_app, feeds_eight_full by (cbn; lia). cbn [app]. rewrite put_uint64_val by lia.
    rewrite H1, H2. done.
  - cbn [app feeds feed]. destruct (p_size (sent_flags m) (wm_size m)) as [p out]. cbn [fst snd] in *.
    destruct (feeds p (wm_data m)) as [p2 out2]. cbn in *. unfold received. rewrite <-H2. by subst.
Qed.

Lemma feeds_frames ms rest :
  Forall (λ m, wm_size m < 2 ^ 64) ms →
  feeds p_flags (concat (frame V2 <$> ms) ++ rest) =
  ((feeds p_flags rest).1, (received <$> ms) ++ (feeds p_flags rest).2).
Proof.
  induction 1 as [|m ms Hm Hms IH]; [cbn; by destruct (feeds p_flags rest)|].
  cbn [fmap list_fmap concat]. rewrite <-(assoc_L (++)), feeds_app, feeds_frame by done. cbn [fst snd].
  rewrite IH. done.
Qed.

(** ** A message in a buffer *)

Lemma add_group mm m ms held b i kb off s :
  msgs_inv mm ms held → blocks mm !! b = Some kb → b_content kb = None →
  (i < length (b_ctrs kb))%nat → nusers (c_arr b i) ms = 0%nat →
  body m = zclmsg (pat b off) s (Some call_dec_ref) (Some b) (c_arr b i) → metadata m = None →
  is_shared m = false → 0 ≤ off → 0 ≤ s → off + s ≤ Z.of_nat (length (b_bytes kb)) →
  Z.of_nat (length (m :: ms) + length held) < 2 ^ 31 →
  msgs_inv (upd_ctr (c_start b) (b_ctr kb + 1) (upd_ctr (c_arr b i) 0 mm)) (m :: ms) held.
Proof.
  intros Hinv Hkb Hc Hi Hn Hbody Hmd Hs Hoff Hsz Hrange Hroom.
  set (mm' := upd_ctr (c_start b) (b_ctr kb + 1) (upd_ctr (c_arr b i) 0 mm)).
  assert (mem_le mm mm') as Hle by (etrans; apply upd_ctr_le).
  assert (key m = Some (c_arr b i)) as Hk by (unfold key; by rewrite Hbody).
  set (kb' := upd_block (c_start b) (b_ctr kb + 1) (upd_block (c_arr b i) 0 kb)).
  assert (blocks mm' !! b = Some kb') as Hkb'.
  { unfold mm'. rewrite upd_ctr_lookup, decide_True by done. rewrite upd_ctr_lookup, decide_True by done. by rewrite Hkb. }
  assert (∀ b', b' ≠ b → blocks mm' !! b' = blocks mm !! b') as Hne.
  { intros b' ?. unfold mm'. by rewrite !upd_ctr_lookup, !decide_False. }
  assert (∀ b', is_Some (blocks mm !! b') → is_Some (blocks mm' !! b')) as Hdom.
  { intros b' ?. destruct (decide (b' = b)) as [->|]; [by exists kb'|by rewrite Hne]. }
  split.
  - intros m' [->|Hm']%elem_of_cons.
    + split; [done|]. rewrite Hbody. exists b, i, off, kb'. split_and!; try done. cbn. by rewrite length_insert.
    + eapply msg_wf_mono; [by eapply inv_wf|done|]. intros k Hk'. apply Hdom. by eapply inv_block.
  - intros m' k [->|Hm']%elem_of_cons Hk'.
    + rewrite Hs. simplify_eq. by rewrite nusers_same, Hn.
    + assert (k ≠ c_arr b i) as Hkne.
      { intros ->. assert (0 < nusers (c_arr b i) ms)%nat by (apply nusers_pos; eauto). lia. }
      rewrite nusers_other by congruence. pose proof (inv_cnt _ _ _ Hinv m' k Hm' Hk') as H.
      destruct (is_shared m'); [|done]. unfold mm'.
      assert (is_Some (b_ctrs kb !! i)) as [vi Hvi] by (by apply lookup_lt_is_Some).
      assert (ctr_val mm (c_arr b i) = Some vi) as Hv1 by (cbn; by rewrite Hkb).
      erewrite upd_ctr_val; [|by erewrite upd_ctr_val; [rewrite decide_False by done; cbn; rewrite Hkb|done]].
      rewrite decide_False by (by eapply inv_key_not_start). erewrite upd_ctr_val by done. by rewrite decide_False.
  - intros m1 m2 [->|H1]%elem_of_cons [->|H2]%elem_of_cons E Hsk; [done|..].
    + assert (0 < nusers (c_arr b i) ms)%nat by (apply nusers_pos; exists m2; split; congruence). lia.
    + assert (0 < nusers (c_arr b i) ms)%nat by (apply nusers_pos; exists m1; split; congruence). lia.
    + by eapply inv_agree.
  - intros b' k' c Hb' Hc'. rewrite nusers_other by congruence.
    destruct (proj2 Hle _ _ Hb') as (k & Hk0 & _ & _ & _ & Hsh). rewrite Hc' in Hsh.
    destruct (b_content k) eqn:?; [|done]. by eapply inv_content.
  - intros b' k' Hb' Hc'. destruct (decide (b' = b)) as [->|].
    + simplify_eq. destruct (inv_buffer _ _ _ Hinv b kb Hkb Hc) as [Hcnt Hpos]. cbn. rewrite length_insert.
      rewrite (groups_first b _ m ms i) by done. lia.
    + rewrite Hne in Hb' by done. rewrite groups_nokey by congruence. by eapply inv_buffer.
  - intros b' Hb'. destruct (inv_held _ _ _ Hinv b' Hb') as (k' & Hk' & Hc'). destruct (decide (b' = b)) as [->|].
    + exists kb'. by simplify_eq.
    + exists k'. by rewrite Hne.
  - intros b' Hb'. rewrite (proj1 Hle). apply (inv_fresh _ _ _ Hinv). destruct Hb' as [k' Hb'].
    destruct (proj2 Hle _ _ Hb') as (k & ? & _). by exists k.
  - done.
Qed.

(** ** The decoder between two reads

    [malloc] gives what is asked for, up to [lim] bytes and in the lower half of
    the address space. *)

Definition malloc_ok (malloc : N → Z → option Z) (lim : Z) : Prop :=
  ∀ n sz, 0 ≤ sz ≤ lim → ∃ a, malloc n sz = Some a ∧ 0 ≤ a ∧ a + sz < 2 ^ 63.

Section decoding.
Context (malloc : N → Z → option Z) (lim bs : Z).
Context (Hmalloc : malloc_ok malloc lim) (Hbs : 0 < bs).
Context (Hlim : bs + sizeof_counter + Z.of_nat (max_counters bs) * sizeof_counter ≤ lim).
Context (Hlim63 : sizeof_content_t ≤ lim < 2 ^ 63).

(** [b] is the buffer of the decoder, [kb] the block, of which the first [bufsz]
    bytes were read; [pos] bytes of them are used up, and [rc] counters. *)
Record dec_inv (s : dst) (live : list msg_t) (b : N) (kb : block) (bufsz pos : Z) (rc : nat) : Prop := {
  di_alloc : d_alloc (ds_dec s) = shared (Some b) bufsz bs rc (max_counters bs);
  di_block : blocks (ds_mem s) !! b = Some kb;
  di_buffer : b_content kb = None;
  di_bytes : Z.of_nat (length (b_bytes kb)) = bs;
  di_ctrs : length (b_ctrs kb) = max_counters bs;
  di_addr : 0 ≤ b_addr kb ∧ b_addr kb + bs < 2 ^ 63;
  di_free i : (rc ≤ i)%nat → nusers (c_arr b i) (d_in_progress (ds_dec s) :: live) = 0%nat;
  di_pos : Z.of_nat rc * max_vsm_size ≤ pos;
  di_bufsz : pos ≤ bufsz ≤ bs;
  di_inv : msgs_inv (ds_mem s) (d_in_progress (ds_dec s) :: live) [b];
  di_tmp : length (d_tmpbuf (ds_dec s)) = 8%nat;
  di_max : d_maxmsgsize (ds_dec s) = -1
}.

(** The data of the messages [ms] are the same. *)
Definition same_data (mm mm' : mem) (ms : list msg_t) : Prop :=
  ∀ m, m ∈ ms → msg_bytes mm' m = msg_bytes mm m.

(** The message in progress holds [got], and reading goes on behind it. *)
Definition body_at (s : dst) (f n : Z) (got : list Z) (p : rptr) : Prop :=
  let m := d_in_progress (ds_dec s) in
  flags m = f ∧ has_flag f msg_shared = false ∧
  ∃ bytes, msg_bytes (ds_mem s) m = Some bytes ∧ Z.of_nat (length bytes) = n ∧
    take (length got) bytes = Some <$> got ∧
    match body m with
    | vsm _ => p = r_msg (Z.of_nat (length got))
    | lmsg (Some c) => p = r_heap (pat c (Z.of_nat (length got)))
    | _ => False
    end.

(** The decoder is where the parser is. *)
Definition dec_at (s : dst) (p : pstate) : Prop :=
  let d := ds_dec s in
  match p with
  | p_flags => d_next d = d2_flags_ready ∧ d_read_pos d = r_tmp 0 ∧ d_to_read d = 1
  | p_one f =>
      d_next d = d2_one_byte_size_ready ∧ d_read_pos d = r_tmp 0 ∧ d_to_read d = 1 ∧
      d_msg_flags d = f ∧ has_flag f msg_shared = false
  | p_eight f got =>
      d_next d = d2_eight_byte_size_ready ∧ d_read_pos d = r_tmp (Z.of_nat (length got)) ∧
      d_to_read d = 8 - Z.of_nat (length got) ∧ (length got < 8)%nat ∧ d_msg_flags d = f ∧
      has_flag f msg_shared = false ∧ take (length got) (d_tmpbuf d) = Some <$> got ∧
      Forall is_byte got
  | p_body f n got =>
      d_next d = d2_message_ready ∧ d_to_read d = n - Z.of_nat (length got) ∧
      Z.of_nat (length got) < n ∧ body_at s f n got (d_read_pos d)
  end.

Lemma flags_of_small x : has_flag (flags_of x) msg_shared = false.
Proof. unfold flags_of. by destruct (has_flag x 1), (has_flag x 4). Qed.

(** Closing the old message frees none of the others. *)
Lemma close_in_progress s live b kb bufsz pos rc :
  dec_inv s live b kb bufsz pos rc →
  ∃ mm m' kb', close (d_in_progress (ds_dec s)) (ds_mem s) = Ok ((None, m'), mm) ∧
    msgs_inv mm live [b] ∧ same_data (ds_mem s) mm live ∧
    blocks mm !! b = Some kb' ∧ shape kb kb'.
Proof.
  intros Hd. pose proof (di_inv _ _ _ _ _ _ _ Hd) as Hinv.
  destruct (close_spec _ _ _ _ Hinv) as (mm & m' & Hr & Hinv' & Hle).
  destruct (inv_held _ _ _ Hinv' b ltac:(left)) as (kb' & Hkb' & _).
  exists mm, m', kb'. split_and!; try done.
  - intros m Hm. apply msg_bytes_le; [done|by eapply inv_wf].
  - destruct (proj2 Hle _ _ Hkb') as (k & Hk & Hsh). pose proof (di_block _ _ _ _ _ _ _ Hd). by simplify_eq.
Qed.

Lemma nusers_tail m ms k : nusers k (m :: ms) = 0%nat → nusers k ms = 0%nat.
Proof. rewrite nusers_cons. lia. Qed.

(** ** Runs of the decoder's statements *)

Lemma in_mem_run {A} (c : M mem A) s a mm : c (ds_mem s) = Ok (a, mm) → in_mem c s = Ok (a, Dst mm (ds_dec s)).
Proof. unfold in_mem, zoom. by intros ->. Qed.

Lemma dget_bind {A B} (f : decoder → A) (k : A → D B) s : (dget f ≫= k) s = k (f (ds_dec s)) s.
Proof. done. Qed.

Lemma dset_bind {B} f (k : () → D B) s : (dset f ≫= k) s = k () (Dst (ds_mem s) (f (ds_dec s))).
Proof. done. Qed.

Lemma in_mem_bind {A B} (c : M mem A) (k : A → D B) s a mm :
  c (ds_mem s) = Ok (a, mm) → (in_mem c ≫= k) s = k a (Dst mm (ds_dec s)).
Proof. intros H. by rewrite (bind_run _ _ s _ _ (in_mem_run c s a mm H)). Qed.

Lemma init_from_small mm b kb off n hint c :
  blocks mm !! b = Some kb → 0 ≤ off → 0 ≤ n < max_vsm_size → off + n ≤ Z.of_nat (length (b_bytes kb)) →
  ∃ bytes, Z.of_nat (length bytes) = n ∧
    init_from malloc (pat b off) n (Some call_dec_ref) hint c mm = Ok ((None, Msg (vsm bytes) 0 None 0 (-1)), mm).
Proof.
  intros Hb Hoff Hn Hr. unfold init_from. destruct (Z.ltb_spec n max_vsm_size); [|lia].
  exists (take (Z.to_nat n) (drop (Z.to_nat off) (b_bytes kb))). split.
  { rewrite length_take, length_drop. lia. }
  unfold init_size. destruct (Z.leb_spec n max_vsm_size); [|lia].
  rewrite (bind_run _ _ mm _ mm eq_refl).
  rewrite (bind_run _ _ mm (take (Z.to_nat n) (drop (Z.to_nat off) (b_bytes kb))) mm); [done|].
  apply load_slice. unfold slice. rewrite Hb. cbn. unfold in_range.
  destruct (Z.leb_spec 0 off); [|lia].
  destruct (Z.leb_spec (off + Z.of_nat (Z.to_nat n)) (Z.of_nat (length (b_bytes kb)))); [done|lia].
Qed.

Lemma init_from_large mm b kb off n hint i :
  blocks mm !! b = Some kb → (i < length (b_ctrs kb))%nat → max_vsm_size ≤ n →
  init_from malloc (pat b off) n (Some call_dec_ref) hint (Some (c_arr b i)) mm =
  Ok ((None, Msg (zclmsg (pat b off) n (Some call_dec_ref) hint (c_arr b i)) 0 None 0 (-1)), upd_ctr (c_arr b i) 0 mm).
Proof.
  intros Hb Hi Hn. unfold init_from. destruct (Z.ltb_spec n max_vsm_size); [lia|].
  rewrite (bind_run _ _ mm (Msg (zclmsg (pat b off) n (Some call_dec_ref) hint (c_arr b i)) 0 None 0 (-1))
    (upd_ctr (c_arr b i) 0 mm)); [done|].
  unfold init_external_storage. rewrite (bind_run _ _ mm () mm) by done.
  assert (is_Some (b_ctrs kb !! i)) as [v Hv] by (by apply lookup_lt_is_Some).
  rewrite (bind_run _ _ mm () (upd_ctr (c_arr b i) 0 mm)); [done|].
  eapply ctr_set_run. cbn. by rewrite Hb.
Qed.

(** [exceeds_buffer] says what it means to as long as nothing wraps around. *)
Lemma exceeds_buffer_run s b kb bufsz pos rc n :
  d_alloc (ds_dec s) = shared (Some b) bufsz bs rc (max_counters bs) →
  blocks (ds_mem s) !! b = Some kb → 0 ≤ b_addr kb → b_addr kb + bs < 2 ^ 63 →
  0 ≤ pos ≤ bufsz → bufsz ≤ bs → 0 ≤ n < 2 ^ 63 →
  exceeds_buffer (r_heap (pat b pos)) n s = Ok (bool_decide (bufsz < pos + n), s).
Proof.
  intros Ha Hb H1 H2 Hp Hbz Hn. unfold exceeds_buffer.
  rewrite dget_bind, Ha.
  assert (∀ off, 0 ≤ off ≤ bs → address (pat b off) s = Ok (b_addr kb + off, s)) as Haddr.
  { intros off Hoff. unfold address. rewrite (bind_run _ _ s kb s).
    - unfold u64. rewrite Z.mod_small; [done|]. lia.
    - rewrite (in_mem_run _ s kb (ds_mem s)); [by destruct s|]. unfold get_block. by rewrite Hb. }
  rewrite (bind_run _ _ s _ s (Haddr pos ltac:(lia))), (bind_run _ _ s _ s (Haddr 0 ltac:(lia))).
  unfold u64. rewrite !Z.mod_small by lia. do 2 f_equal. rewrite Z.gtb_ltb.
  destruct (Z.ltb_spec (b_addr kb + 0 + bufsz) (b_addr kb + pos + n)); case_bool_decide; lia || done.
Qed.

(** Where the data of a message are. *)
Definition data_at (m : msg_t) : rptr :=
  match body m with
  | vsm _ => r_msg 0
  | lmsg (Some c) => r_heap (pat c 0)
  | zclmsg d _ _ _ _ => r_heap d
  | _ => r_tmp 0
  end.

Lemma data_size_run s m bytes :
  msg_wf (ds_mem s) m → msg_bytes (ds_mem s) m = Some bytes →
  data_ptr m s = Ok (data_at m, s) ∧
  in_mem (size m) s = Ok (Z.of_nat (length bytes), s).
Proof.
  intros [_ Hwf] Hb. unfold data_ptr, data_at, data, size, msg_bytes in *. destruct s as [mm d]. cbn [ds_mem ds_dec] in *.
  destruct (body m) as [|[c|]| | |dp sz ffn hint ctr|]; simplify_eq; [done| |].
  - destruct Hwf as (k & ct & Hk & Hc & Hok). rewrite Hk in Hb. cbn in Hb. rewrite Hc in Hb. cbn in Hb.
    destruct Hok as [(Hf & Hd & Hsz)|Hf]; rewrite Hf in Hb; simplify_eq.
    assert (get_content (Some c) mm = Ok ((c, ct), mm)) as Hg.
    { unfold get_content, get_block, mbind, M_bind. by rewrite Hk, Hc. }
    split.
    + erewrite in_mem_bind; [|cbn; rewrite (bind_run _ _ mm _ _ Hg); done]. cbn. by rewrite Hd.
    + erewrite in_mem_run; [|cbn; rewrite (bind_run _ _ mm _ _ Hg); done]. cbn. by rewrite Hsz.
  - split; [done|]. unfold in_mem, zoom. cbn. destruct Hwf as (b & i & off & k & -> & -> & -> & -> & Hk & _ & _ & ? & ? & ?).
    unfold slice in Hb. rewrite Hk in Hb. cbn in Hb. case_match; simplify_eq.
    rewrite length_take, length_drop. do 3 f_equal. lia.
Qed.

(** The end of [size_ready]: the message gets its flags, and its data come next. *)
Definition finish_size (m : msg_t) : D drc :=
  flags ← dget d_msg_flags;
  dset (set_dmsg (set_flags flags m));;
  p ← data_ptr m; n ← in_mem (size m);
  next_step_d p n d2_message_ready;;
  mret rc_more.

Lemma finish_size_run s m bytes f :
  d_msg_flags (ds_dec s) = f → msg_wf (ds_mem s) m → msg_bytes (ds_mem s) m = Some bytes →
  finish_size m s = Ok (rc_more, Dst (ds_mem s)
    (set_next_step (data_at m) (Z.of_nat (length bytes)) d2_message_ready
      (set_dmsg (set_flags f m) (ds_dec s)))).
Proof.
  intros Hf Hwf Hb. unfold finish_size. rewrite dget_bind, dset_bind, Hf.
  set (s' := Dst (ds_mem s) (set_dmsg (set_flags f m) (ds_dec s))).
  destruct (data_size_run s' m bytes Hwf Hb) as [H1 H2].
  rewrite (bind_run _ _ s' _ _ H1), (bind_run _ _ s' _ _ H2). done.
Qed.

Lemma set_flags_key f m : key (set_flags f m) = key m.
Proof. done. Qed.

Lemma set_flags_shared f m : flags m = 0 → has_flag f msg_shared = false → is_shared (set_flags f m) = false.
Proof. unfold is_shared, set_flags. cbn [flags]. intros ->. by rewrite Z.lor_0_l. Qed.

(** The flags that the decoder sets do not matter for memory. *)
Lemma msgs_inv_flags mm m m' ms held :
  body m' = body m → metadata m' = metadata m → is_shared m' = is_shared m →
  msgs_inv mm (m :: ms) held → msgs_inv mm (m' :: ms) held.
Proof.
  intros Hb Hmd Hs Hinv. pose proof (key_body _ _ Hb) as Hk.
  assert (∀ k, nusers k (m' :: ms) = nusers k (m :: ms)) as Hn by (intros k; by rewrite !nusers_cons, Hk).
  assert (∀ b n, groups b n (m' :: ms) = groups b n (m :: ms)) as Hg.
  { intros b n. apply groups_ext. intros i _. by rewrite Hn. }
  split.
  - intros m0 [->|Hm0]%elem_of_cons; [eapply msg_wf_body; [done..|]; eapply inv_wf; [done|left]|].
    eapply inv_wf; [done|by right].
  - intros m0 k [->|Hm0]%elem_of_cons Hk0; rewrite Hn.
    + rewrite Hs. eapply (inv_cnt _ _ _ Hinv); [left|congruence].
    + eapply (inv_cnt _ _ _ Hinv); [by right|done].
  - intros m1 m2 [->|H1]%elem_of_cons [->|H2]%elem_of_cons E Hsk; [done| | |].
    + rewrite Hb. eapply (inv_agree _ _ _ Hinv); [left|by right|congruence|congruence].
    + rewrite Hb. eapply (inv_agree _ _ _ Hinv); [by right|left|congruence|congruence].
    + eapply (inv_agree _ _ _ Hinv); by try right.
  - intros b k c. rewrite Hn. apply Hinv.
  - intros b k. rewrite Hg. apply Hinv.
  - apply Hinv.
  - apply Hinv.
  - apply Hinv.
Qed.

(** The message made by [size_ready] is in place, and memory is as it should be. *)
Lemma size_ready_done s s2 live b kb kb2 bufsz pos pos' rc rc' f n m bytes :
  dec_inv s live b kb bufsz pos rc → has_flag f msg_shared = false →
  d_msg_flags (ds_dec s2) = f → d_tmpbuf (ds_dec s2) = d_tmpbuf (ds_dec s) →
  d_maxmsgsize (ds_dec s2) = d_maxmsgsize (ds_dec s) →
  d_alloc (ds_dec s2) = shared (Some b) bufsz bs rc' (max_counters bs) →
  blocks (ds_mem s2) !! b = Some kb2 → shape kb kb2 →
  (∀ i, (rc' ≤ i)%nat → nusers (c_arr b i) (m :: live) = 0%nat) →
  Z.of_nat rc' * max_vsm_size ≤ pos' ≤ bufsz →
  msgs_inv (ds_mem s2) (m :: live) [b] → flags m = 0 → is_shared m = false →
  msg_bytes (ds_mem s2) m = Some bytes → Z.of_nat (length bytes) = n →
  ∃ s', finish_size m s2 = Ok (rc_more, s') ∧ dec_inv s' live b kb2 bufsz pos' rc' ∧
    ds_mem s' = ds_mem s2 ∧ d_next (ds_dec s') = d2_message_ready ∧ d_to_read (ds_dec s') = n ∧
    d_read_pos (ds_dec s') = data_at m ∧ d_in_progress (ds_dec s') = set_flags f m.
Proof.
  intros Hd Hf Hmf Htmp Hmax Ha Hkb2 (Haddr & Hbytes & Hctrs & Hcont) Hfree Hpos Hinv Hfl Hsh Hb Hn.
  pose proof (inv_wf _ _ _ Hinv m ltac:(left)) as Hwf.
  rewrite (finish_size_run s2 m bytes f Hmf Hwf Hb). eexists. split; [done|]. rewrite Hn.
  split_and!; try done. split; cbn [ds_mem ds_dec set_next_step set_dmsg d_alloc d_in_progress d_tmpbuf d_maxmsgsize]; try done.
  - rewrite (di_buffer _ _ _ _ _ _ _ Hd) in Hcont. by destruct (b_content kb2).
  - rewrite Hbytes. apply Hd.
  - rewrite Hctrs. apply Hd.
  - rewrite Haddr. apply Hd.
  - intros i Hi. rewrite <-(Hfree i Hi), !nusers_cons. done.
  - lia.
  - split; [lia|apply Hd].
  - apply (msgs_inv_flags _ m); [done|done| |done]. by rewrite set_flags_shared, Hsh.
  - rewrite Htmp. apply Hd.
  - rewrite Hmax. apply Hd.
Qed.

Lemma init_size_ok mm n :
  0 ≤ n → n + sizeof_content_t ≤ lim →
  ∃ m mm', init_size malloc n mm = Ok ((None, m), mm') ∧ flags m = 0 ∧
    ((∃ bytes, body m = vsm bytes) ∨ ∃ c, body m = lmsg (Some c)).
Proof.
  intros Hn Hl. unfold init_size. destruct (Z.leb_spec n max_vsm_size).
  - eexists _, mm. split_and!; [done..|]. left. by eexists.
  - unfold sizeof_content_t in *. unfold u64. rewrite Z.mod_small by lia. rewrite Z.gtb_ltb.
    destruct (Z.ltb_spec n (40 + n)); [|lia].
    destruct (Hmalloc (calls mm) (40 + n) ltac:(lia)) as (a & Ha & _).
    unfold new_block, mbind, M_bind. rewrite Ha. cbn. unfold get_block. cbn. rewrite lookup_insert_eq. cbn.
    eexists _, _. split_and!; [done..|]. right. by eexists.
Qed.

(** No message in the buffer has one of the counters that are still free. *)
Lemma nusers_nokey_zero b (rc : nat) m live :
  (∀ i, (rc ≤ i)%nat → nusers (c_arr b i) live = 0%nat) → (∀ i, key m ≠ Some (c_arr b i)) →
  ∀ i, (rc ≤ i)%nat → nusers (c_arr b i) (m :: live) = 0%nat.
Proof. intros H Hk i Hi. rewrite nusers_other by apply Hk. by apply H. Qed.

Lemma init_in_buffer_small s b kb bufsz rc off n :
  d_alloc (ds_dec s) = shared (Some b) bufsz bs rc (max_counters bs) →
  blocks (ds_mem s) !! b = Some kb → 0 ≤ off → 0 ≤ n < max_vsm_size →
  off + n ≤ Z.of_nat (length (b_bytes kb)) →
  ∃ bytes, Z.of_nat (length bytes) = n ∧
    init_in_buffer malloc (r_heap (pat b off)) n s = Ok ((None, Msg (vsm bytes) 0 None 0 (-1)), s).
Proof.
  intros Ha Hb Hoff Hn Hr.
  destruct (init_from_small (ds_mem s) b kb off n (Some b) (Some (c_arr b rc)) Hb Hoff Hn Hr) as (bytes & Hl & Hrun).
  exists bytes. split; [done|]. unfold init_in_buffer. rewrite dget_bind, Ha.
  rewrite (in_mem_bind (init_from _ _ _ _ _ _) _ s _ _ Hrun). by destruct s.
Qed.

Lemma init_in_buffer_large s b kb bufsz rc off n :
  d_alloc (ds_dec s) = shared (Some b) bufsz bs rc (max_counters bs) →
  blocks (ds_mem s) !! b = Some kb → (rc < length (b_ctrs kb))%nat → max_vsm_size ≤ n →
  0 ≤ b_ctr kb + 1 < 2 ^ 32 →
  init_in_buffer malloc (r_heap (pat b off)) n s =
  Ok ((None, Msg (zclmsg (pat b off) n (Some call_dec_ref) (Some b) (c_arr b rc)) 0 None 0 (-1)),
      Dst (upd_ctr (c_start b) (b_ctr kb + 1) (upd_ctr (c_arr b rc) 0 (ds_mem s)))
          (set_alloc (shared (Some b) bufsz bs (S rc) (max_counters bs)) (ds_dec s))).
Proof.
  intros Ha Hb Hi Hn Hctr. unfold init_in_buffer. rewrite dget_bind, Ha.
  rewrite (in_mem_bind (init_from _ _ _ _ _ _) _ s _ _ (init_from_large (ds_mem s) b kb off n (Some b) rc Hb Hi Hn)).
  cbn [is_zcmsg body]. set (s1 := Dst (upd_ctr (c_arr b rc) 0 (ds_mem s)) (ds_dec s)).
  rewrite (bind_run _ _ s1 () (Dst (upd_ctr (c_start b) (b_ctr kb + 1) (upd_ctr (c_arr b rc) 0 (ds_mem s)))
          (set_alloc (shared (Some b) bufsz bs (S rc) (max_counters bs)) (ds_dec s)))); [done|].
  rewrite dset_bind. rewrite (in_mem_bind (ctr_add _ _) _ _ (b_ctr kb) (upd_ctr (c_start b) (b_ctr kb + 1) (upd_ctr (c_arr b rc) 0 (ds_mem s)))); [done|].
  apply ctr_add_run; [|done]. cbn. by rewrite lookup_alter_eq, Hb.
Qed.

(** [size_ready]: the message has storage of its own, or it is in the buffer with
    all its data. *)
Lemma size_ready_spec s live b kb bufsz pos rc n f :
  dec_inv s live b kb bufsz pos rc → 0 ≤ n → n + sizeof_content_t ≤ lim →
  d_msg_flags (ds_dec s) = f → has_flag f msg_shared = false → Z.of_nat (length live + 2) < 2 ^ 31 →
  ∃ s' kb', d2_size_ready malloc n (r_heap (pat b pos)) s = Ok (rc_more, s') ∧
    same_data (ds_mem s) (ds_mem s') live ∧ b_bytes kb' = b_bytes kb ∧
    d_next (ds_dec s') = d2_message_ready ∧ d_to_read (ds_dec s') = n ∧
    ((dec_inv s' live b kb' bufsz pos rc ∧ body_at s' f n [] (d_read_pos (ds_dec s'))) ∨
     (pos + n ≤ bufsz ∧ 0 < n ∧ dec_inv s' live b kb' bufsz (pos + n) (S rc) ∧
      d_read_pos (ds_dec s') = r_heap (pat b pos) ∧ flags (d_in_progress (ds_dec s')) = f ∧
      msg_bytes (ds_mem s') (d_in_progress (ds_dec s')) =
        Some (take (Z.to_nat n) (drop (Z.to_nat pos) (b_bytes kb))))).
Proof.
  intros Hd Hn Hnl <- Hfs Hroom. pose proof (di_bufsz _ _ _ _ _ _ _ Hd) as Hbufsz.
  pose proof (di_pos _ _ _ _ _ _ _ Hd) as Hposrc. pose proof (di_addr _ _ _ _ _ _ _ Hd) as Haddr.
  pose proof (di_bytes _ _ _ _ _ _ _ Hd) as Hbytes. unfold max_vsm_size in Hposrc.
  unfold d2_size_ready. rewrite dget_bind, (di_max _ _ _ _ _ _ _ Hd). cbn [Z.leb Z.compare andb].
  assert (n < 2 ^ 63) as Hn63 by (unfold sizeof_content_t in Hnl; lia).
  unfold u64 at 1. rewrite Z.mod_small by lia. rewrite Z.eqb_refl. cbn [negb]. rewrite dget_bind.
  destruct (close_in_progress _ _ _ _ _ _ _ Hd) as (mm1 & m1 & kb1 & Hcl & Hinv1 & Hsame1 & Hkb1 & Hsh1).
  rewrite (in_mem_bind (close (d_in_progress (ds_dec s))) _ s _ _ Hcl). cbn [ds_dec].
  rewrite (in_mem_bind (fatal_assert _ _) _ (Dst mm1 (ds_dec s)) () mm1) by done. rewrite dset_bind. cbn [ds_mem ds_dec].
  set (s1 := Dst mm1 (set_dmsg m1 (ds_dec s))).
  rewrite (bind_run _ _ s1 (bool_decide (bufsz < pos + n)) s1).
  2:{ apply (exceeds_buffer_run s1 b kb1 bufsz pos rc n); try done; try lia; [apply Hd| |];
      destruct Hsh1 as (-> & _); lia. }
  assert (nusers_zero : ∀ i, (rc ≤ i)%nat → nusers (c_arr b i) live = 0%nat).
  { intros i Hi. eapply nusers_tail. by apply (di_free _ _ _ _ _ _ _ Hd). }
  case_bool_decide as Hbig.
  - (* the message does not fit into the buffer *)
    destruct (init_size_ok mm1 n Hn Hnl) as (m & mm2 & Hr & Hfl & Hown).
    destruct (init_size_spec malloc mm1 live [b] n Hinv1 Hn) as (rc0 & m' & mm2' & Hr' & Hext & Hm); [cbn; lia|].
    rewrite Hr in Hr'. simplify_eq. destruct Hm as (Hinv2 & Hsh & Hby).
    set (s2 := Dst mm2' (set_dmsg m1 (ds_dec s))).
    assert (in_mem (init_size malloc n) s1 = Ok ((None, m'), s2)) as Hrun by (by apply in_mem_run).
    rewrite (bind_run _ _ s1 _ s2 Hrun).
    assert (∀ i, key m' ≠ Some (c_arr b i)) as Hkey.
    { intros i. unfold key. destruct Hown as [[? ->]|[? ->]]; done. }
    destruct (size_ready_done s s2 live b kb kb1 bufsz pos pos rc rc (d_msg_flags (ds_dec s)) n m'
      (replicate (Z.to_nat n) None)) as (s' & Hfin & Hd' & Hmem & Hnx & Htr & Hrp & Hip); try done.
    { apply Hd. }
    { by eapply lookup_weaken. }
    { by apply nusers_nokey_zero. }
    { unfold max_vsm_size. lia. }
    { rewrite length_replicate. lia. }
    exists s', kb1. split; [exact Hfin|]. split_and!; try done.
    + intros m0 Hm0. rewrite Hmem. cbn. rewrite (msg_bytes_ext mm1 mm2') by (done || by eapply inv_wf). by apply Hsame1.
    + apply Hsh1.
    + left. split; [done|]. unfold body_at. rewrite Hip, Hmem. cbn. split_and!; [by rewrite Hfl|done|].
      exists (replicate (Z.to_nat n) None). split_and!; [by rewrite (msg_bytes_body _ m')|rewrite length_replicate; lia|done|].
      rewrite Hrp. unfold data_at. destruct Hown as [[? ->]|[? ->]]; done.
  - destruct (decide (n < max_vsm_size)) as [Hsm|Hlg].
    + (* small data are copied out of the buffer *)
      destruct (init_in_buffer_small s1 b kb1 bufsz rc pos n) as (bytes & Hl & Hrun); try done; try lia.
      { apply Hd. }
      { destruct Hsh1 as (_ & -> & _). lia. }
      rewrite (bind_run _ _ s1 _ _ Hrun).
      destruct (size_ready_done s s1 live b kb kb1 bufsz pos pos rc rc (d_msg_flags (ds_dec s)) n
        (Msg (vsm bytes) 0 None 0 (-1)) bytes) as (s' & Hfin & Hd' & Hmem & Hnx & Htr & Hrp & Hip); try done.
      { apply Hd. }
      { unfold max_vsm_size. lia. }
      { apply add_nokey; [done|done|done|cbn; lia]. }
      exists s', kb1. split; [exact Hfin|]. split_and!; try done.
      * rewrite Hmem. apply Hsame1.
      * apply Hsh1.
      * left. split; [done|]. unfold body_at. rewrite Hip, Hmem. split_and!; [done|done|].
        exists bytes. by split_and!.
    + (* large data stay in the buffer *)
      assert (b_content kb1 = None) as Hc1.
      { destruct Hsh1 as (_ & _ & _ & Hsh1). rewrite (di_buffer _ _ _ _ _ _ _ Hd) in Hsh1. by destruct (b_content kb1). }
      destruct (inv_buffer _ _ _ Hinv1 b kb1 Hkb1 Hc1) as [Hcnt Hctr].
      pose proof (groups_le b (length (b_ctrs kb1)) live) as Hgl.
      assert (held_refs b [b] ≤ 1)%nat as Hheld by apply (length_filter (λ x, x = b) [b]).
      assert (rc < length (b_ctrs kb1))%nat as Hrc.
      { destruct Hsh1 as (_ & _ & -> & _). rewrite (di_ctrs _ _ _ _ _ _ _ Hd). unfold max_counters, max_vsm_size in *.
        Z.div_mod_to_equations. lia. }
      assert (0 ≤ b_ctr kb1 + 1 < 2 ^ 32) as Hroom1.
      { rewrite Hcnt. lia. }
      assert (d_alloc (ds_dec s1) = shared (Some b) bufsz bs rc (max_counters bs)) as Ha1 by apply Hd.
      pose proof (init_in_buffer_large s1 b kb1 bufsz rc pos n Ha1 Hkb1 Hrc ltac:(lia) Hroom1) as Hrun.
      rewrite (bind_run _ _ s1 _ _ Hrun). cbn [ds_mem].
      set (m := Msg (zclmsg (pat b pos) n (Some call_dec_ref) (Some b) (c_arr b rc)) 0 None 0 (-1)).
      set (s2 := Dst _ _).
      assert (msgs_inv (ds_mem s2) (m :: live) [b]) as Hinv2.
      { eapply add_group; try done; try lia; [by apply nusers_zero| |cbn; lia].
        destruct Hsh1 as (_ & -> & _). lia. }
      assert (mem_le mm1 (ds_mem s2)) as Hle2 by (etrans; apply upd_ctr_le).
      destruct (inv_held _ _ _ Hinv2 b ltac:(left)) as (kb2 & Hkb2 & _).
      assert (shape kb kb2) as Hsh2.
      { destruct (proj2 Hle2 _ _ Hkb2) as (k & Hk & ?). rewrite Hkb1 in Hk. injection Hk as ->. by trans k. }
      assert (msg_bytes (ds_mem s2) m = Some (take (Z.to_nat n) (drop (Z.to_nat pos) (b_bytes kb)))) as Hby.
      { unfold msg_bytes, slice. cbn [body m]. rewrite Hkb2. cbn. unfold in_range. destruct Hsh2 as (_ & -> & _).
        destruct (Z.leb_spec 0 pos); [|lia].
        destruct (Z.leb_spec (pos + Z.of_nat (Z.to_nat n)) (Z.of_nat (length (b_bytes kb)))); [done|lia]. }
      destruct (size_ready_done s s2 live b kb kb2 bufsz pos (pos + n) rc (S rc) (d_msg_flags (ds_dec s)) n m
          (take (Z.to_nat n) (drop (Z.to_nat pos) (b_bytes kb))))
        as (s' & Hfin & Hd' & Hmem & Hnx & Htr & Hrp & Hip); try done.
      { intros i Hi. rewrite nusers_other; [apply nusers_zero; lia|]. intros [= ->]. lia. }
      { unfold max_vsm_size in *. lia. }
      { rewrite length_take, length_drop. lia. }
      exists s', kb2. split; [exact Hfin|]. split_and!; try done.
      * intros m0 Hm0. rewrite Hmem, (msg_bytes_le mm1 (ds_mem s2)); [by apply Hsame1|done|].
        eapply inv_wf; [exact Hinv2|by right].
      * apply Hsh2.
      * right. rewrite Hip, Hmem. split_and!; try done; [lia|unfold max_vsm_size in *; lia].
Qed.

(** ** Data is copied to where it belongs *)

Lemma overwrite_take (got xs : list Z) (l : list mbyte) :
  (length got + length xs ≤ length l)%nat → take (length got) l = Some <$> got →
  take (length (got ++ xs)) (overwrite (length got) (Some <$> xs) l) = Some <$> (got ++ xs).
Proof.
  intros Hl Hg. unfold overwrite. rewrite Hg, length_app, (assoc_L (++)), fmap_app.
  rewrite take_app_le by (rewrite length_app, !length_fmap; lia).
  rewrite take_ge; [done|]. rewrite length_app, !length_fmap. lia.
Qed.

Lemma take_fmap_length (got : list Z) (l : list mbyte) :
  take (length got) l = Some <$> got → (length got ≤ length l)%nat.
Proof. intros H. apply (f_equal length) in H. rewrite length_take, length_fmap in H. lia. Qed.

(** Data of other messages do not change when a block of its own is written. *)
Lemma same_data_set_bytes mm m live held c f :
  msgs_inv mm (m :: live) held → body m = lmsg (Some c) → is_shared m = false →
  same_data mm (set_bytes c f mm) live.
Proof.
  intros Hinv Hb Hs m1 Hm1. assert (key m = Some (c_content c)) as Hk by (unfold key; by rewrite Hb).
  destruct (inv_key_content _ _ _ m c Hinv ltac:(left) Hk) as (_ & kc & cc & Hkc & Hcc & _).
  pose proof (inv_wf _ _ _ Hinv m1 ltac:(by right)) as [_ Hwf].
  unfold msg_bytes. destruct (body m1) as [|[c1|]| | |d sz ffn hint ctr|] eqn:Hb1; try done.
  - assert (c1 ≠ c) as Hne.
    { intros ->. pose proof (inv_cnt _ _ _ Hinv m (c_content c) ltac:(left) Hk) as Hcnt. rewrite Hs, nusers_same in Hcnt by done.
      assert (0 < nusers (c_content c) live)%nat; [|lia]. apply nusers_pos. exists m1. unfold key. by rewrite Hb1. }
    by rewrite set_bytes_lookup, decide_False.
  - destruct Hwf as (b & i & off & k & -> & -> & -> & -> & Hbk & Hbc & _). unfold slice.
    rewrite set_bytes_lookup, decide_False; [done|]. intros ->. by simplify_eq.
Qed.

Lemma store_msg s live b kb bufsz pos rc f n got xs :
  dec_inv s live b kb bufsz pos rc → body_at s f n got (d_read_pos (ds_dec s)) →
  Z.of_nat (length got + length xs) ≤ n →
  ∃ mm m, r_store (d_read_pos (ds_dec s)) (Some <$> xs) s = Ok ((), Dst mm (set_dmsg m (ds_dec s))) ∧
    dec_inv (Dst mm (set_dmsg m (ds_dec s))) live b kb bufsz pos rc ∧ same_data (ds_mem s) mm live ∧
    body_at (Dst mm (set_dmsg m (ds_dec s))) f n (got ++ xs) (r_add (d_read_pos (ds_dec s)) (Z.of_nat (length xs))).
Proof.
  intros Hd (Hfl & Hfs & bytes & Hby & Hlen & Htk & Hrp) Hn.
  pose proof (di_inv _ _ _ _ _ _ _ Hd) as Hinv. set (m := d_in_progress (ds_dec s)) in *.
  assert (is_shared m = false) as Hsh by (unfold is_shared; by rewrite Hfl).
  pose proof (inv_wf _ _ _ Hinv m ltac:(left)) as Hwf.
  unfold msg_bytes in Hby. destruct (body m) as [t|[c|]| | | |] eqn:Hb; try done; rewrite Hrp; cbn [r_store].
  - injection Hby as ->. rewrite dget_bind. fold m. rewrite Hb. unfold list_range. rewrite length_fmap.
    destruct (Z.leb_spec 0 (Z.of_nat (length got))); [|lia].
    destruct (Z.leb_spec (Z.of_nat (length got) + Z.of_nat (length xs)) (Z.of_nat (length bytes))); [|lia].
    cbn [andb]. rewrite Nat2Z.id. eexists (ds_mem s), _. split; [done|].
    set (m' := set_body (vsm (overwrite (length got) (Some <$> xs) bytes)) m).
    assert (key m = None) as Hk by (unfold key; by rewrite Hb).
    split_and!.
    + destruct Hd. split; cbn [ds_mem ds_dec set_dmsg d_alloc d_in_progress d_tmpbuf d_maxmsgsize]; try done.
      * intros i Hi. rewrite nusers_nokey by done. rewrite <-(di_free0 i Hi), nusers_nokey; done.
      * apply add_nokey; [|by destruct Hwf|done|apply Hinv]. by eapply remove_nokey.
    + by intros m0 _.
    + unfold body_at. split_and!; [exact Hfl|done|]. exists (overwrite (length got) (Some <$> xs) bytes). split_and!; [done| | |].
      * rewrite overwrite_length; [lia|]. rewrite length_fmap. lia.
      * apply overwrite_take; [lia|done].
      * cbn. rewrite length_app. f_equal. lia.
  - destruct Hwf as [_ Hwf]. rewrite Hb in Hwf. destruct Hwf as (kc & cc & Hkc & Hcc & Hok). rewrite Hkc in Hby. cbn in Hby. rewrite Hcc in Hby. cbn in Hby.
    destruct Hok as [(Hff & Hdt & Hsz)|Hff]; rewrite Hff in Hby; [|done]. injection Hby as <-.
    assert (c ≠ b) as Hcb.
    { intros ->. pose proof (di_block _ _ _ _ _ _ _ Hd). pose proof (di_buffer _ _ _ _ _ _ _ Hd). by simplify_eq. }
    set (mm := set_bytes c (overwrite_in (length got) (Some <$> xs)) (ds_mem s)).
    exists mm, m. assert (set_dmsg m (ds_dec s) = ds_dec s) as Hdec by (unfold m; by destruct (ds_dec s)).
    rewrite Hdec. split_and!.
    + apply in_mem_run. apply store_run with kc; [done|]. rewrite length_fmap. lia.
    + destruct Hd. split; try done.
      * unfold mm. cbn [ds_mem]. by rewrite set_bytes_lookup, decide_False.
      * apply msgs_inv_set_bytes; [intros; apply overwrite_in_length|done].
    + by eapply same_data_set_bytes.
    + unfold body_at. split_and!; [exact Hfl|done|]. cbn [ds_mem ds_dec]. fold m. exists (overwrite (length got) (Some <$> xs) (b_bytes kc)). split_and!.
      * unfold msg_bytes. rewrite Hb. unfold mm. rewrite set_bytes_lookup, decide_True by done. rewrite Hkc. cbn.
        rewrite Hcc. cbn. rewrite Hff. unfold overwrite_in. rewrite decide_True; [done|]. rewrite length_fmap. lia.
      * rewrite overwrite_length; [lia|]. rewrite length_fmap. lia.
      * apply overwrite_take; [lia|done].
      * rewrite Hb. cbn. rewrite length_app. do 3 f_equal. lia.
Qed.

(** The decoder at the stage [p], with the bytes [xs] read for it. *)
Definition dec_part (s : dst) (p : pstate) (xs : list Z) : Prop :=
  let d := ds_dec s in
  match p with
  | p_flags =>
      d_next d = d2_flags_ready ∧ d_to_read d = 0 ∧ ∃ x, xs = [x] ∧ d_tmpbuf d !! 0%nat = Some (Some x)
  | p_one f =>
      d_next d = d2_one_byte_size_ready ∧ d_to_read d = 0 ∧ d_msg_flags d = f ∧
      has_flag f msg_shared = false ∧ ∃ x, xs = [x] ∧ d_tmpbuf d !! 0%nat = Some (Some x)
  | p_eight f got =>
      d_next d = d2_eight_byte_size_ready ∧ d_read_pos d = r_tmp (Z.of_nat (length (got ++ xs))) ∧
      d_to_read d = 8 - Z.of_nat (length (got ++ xs)) ∧ d_msg_flags d = f ∧
      has_flag f msg_shared = false ∧ take (length (got ++ xs)) (d_tmpbuf d) = Some <$> (got ++ xs) ∧
      (length (got ++ xs) ≤ 8)%nat ∧ Forall is_byte (got ++ xs)
  | p_body f n got =>
      d_next d = d2_message_ready ∧ d_to_read d = n - Z.of_nat (length (got ++ xs)) ∧
      Z.of_nat (length (got ++ xs)) ≤ n ∧ body_at s f n (got ++ xs) (d_read_pos d)
  end.

Lemma dec_inv_same s s' live b kb bufsz pos rc :
  dec_inv s live b kb bufsz pos rc → ds_mem s' = ds_mem s →
  d_alloc (ds_dec s') = d_alloc (ds_dec s) → d_in_progress (ds_dec s') = d_in_progress (ds_dec s) →
  length (d_tmpbuf (ds_dec s')) = length (d_tmpbuf (ds_dec s)) →
  d_maxmsgsize (ds_dec s') = d_maxmsgsize (ds_dec s) → dec_inv s' live b kb bufsz pos rc.
Proof. intros [] Hm Ha Hi Ht Hx. split; rewrite ?Hm, ?Ha, ?Hi, ?Ht, ?Hx; done. Qed.

Lemma dec_inv_pos s live b kb bufsz pos pos' rc :
  dec_inv s live b kb bufsz pos rc → pos ≤ pos' ≤ bufsz → dec_inv s live b kb bufsz pos' rc.
Proof. intros [] Hp. split; try done; lia. Qed.

Lemma tmp_first (got xs : list Z) (l : list mbyte) x :
  take (length (got ++ xs)) l = Some <$> (got ++ xs) → got ++ xs = [x] → l !! 0%nat = Some (Some x).
Proof. intros H E. rewrite E in H. destruct l as [|y l]; by simplify_eq/=. Qed.

Lemma store_tmp s live b kb bufsz pos rc got xs :
  dec_inv s live b kb bufsz pos rc → d_read_pos (ds_dec s) = r_tmp (Z.of_nat (length got)) →
  (length got + length xs ≤ 8)%nat → take (length got) (d_tmpbuf (ds_dec s)) = Some <$> got →
  ∃ t, (r_store (d_read_pos (ds_dec s)) (Some <$> xs);; advance_read (Z.of_nat (length xs))) s =
      Ok ((), Dst (ds_mem s) (set_next_step (r_tmp (Z.of_nat (length (got ++ xs))))
        (d_to_read (ds_dec s) - Z.of_nat (length xs)) (d_next (ds_dec s)) (set_tmpbuf t (ds_dec s)))) ∧
    length t = 8%nat ∧ take (length (got ++ xs)) t = Some <$> (got ++ xs).
Proof.
  intros Hd Hrp Hl Htk. pose proof (di_tmp _ _ _ _ _ _ _ Hd) as Ht.
  exists (overwrite (length got) (Some <$> xs) (d_tmpbuf (ds_dec s))). split_and!.
  - rewrite (bind_run _ _ s () (Dst (ds_mem s) (set_tmpbuf (overwrite (length got) (Some <$> xs) (d_tmpbuf (ds_dec s))) (ds_dec s)))).
    + unfold advance_read, dset, modify. cbn. rewrite Hrp. cbn. rewrite length_app, Nat2Z.inj_add. done.
    + rewrite Hrp. cbn [r_store]. rewrite dget_bind. unfold list_range. rewrite length_fmap, Ht.
      destruct (Z.leb_spec 0 (Z.of_nat (length got))); [|lia].
      destruct (Z.leb_spec (Z.of_nat (length got) + Z.of_nat (length xs)) (Z.of_nat 8)); [|lia].
      cbn [andb]. by rewrite Nat2Z.id.
  - rewrite overwrite_length; [done|]. rewrite length_fmap, Ht. lia.
  - apply overwrite_take; [rewrite Ht; lia|done].
Qed.

Lemma stage_store s live b kb bufsz pos rc p xs :
  dec_inv s live b kb bufsz pos rc → dec_at s p → Forall is_byte xs → xs ≠ [] →
  Z.of_nat (length xs) ≤ d_to_read (ds_dec s) →
  ∃ s1, (r_store (d_read_pos (ds_dec s)) (Some <$> xs);; advance_read (Z.of_nat (length xs))) s = Ok ((), s1) ∧
    dec_inv s1 live b kb bufsz pos rc ∧ same_data (ds_mem s) (ds_mem s1) live ∧ dec_part s1 p xs.
Proof.
  intros Hd Hat Hb Hne Hl. destruct p as [|f|f got|f n got]; cbn [dec_at] in Hat.
  - destruct Hat as (Hnx & Hrp & Htr). destruct (store_tmp s live b kb bufsz pos rc [] xs Hd) as (t & Hr & Ht & Htk);
      [done|cbn; lia|done|]. eexists. split_and!; [exact Hr| |by intros m0 _|].
    + eapply dec_inv_same; try done. cbn. rewrite Ht. symmetry. apply Hd.
    + assert (∃ x, xs = [x]) as [x ->] by (destruct xs as [|x [|]]; [done|by eexists|cbn in Hl; lia]).
      cbn. split_and!; [done|rewrite Htr; done|]. exists x. split; [done|]. by apply (tmp_first [] [x]).
  - destruct Hat as (Hnx & Hrp & Htr & Hf & Hfs). destruct (store_tmp s live b kb bufsz pos rc [] xs Hd) as (t & Hr & Ht & Htk);
      [done|cbn; lia|done|]. eexists. split_and!; [exact Hr| |by intros m0 _|].
    + eapply dec_inv_same; try done. cbn. rewrite Ht. symmetry. apply Hd.
    + assert (∃ x, xs = [x]) as [x ->] by (destruct xs as [|x [|]]; [done|by eexists|cbn in Hl; lia]).
      cbn. split_and!; [done|rewrite Htr; done|done|done|]. exists x. split; [done|]. by apply (tmp_first [] [x]).
  - destruct Hat as (Hnx & Hrp & Htr & Hlt & Hf & Hfs & Htk0 & Hgb).
    destruct (store_tmp s live b kb bufsz pos rc got xs Hd) as (t & Hr & Ht & Htk); [done|lia|done|].
    eexists. split_and!; [exact Hr| |by intros m0 _|].
    + eapply dec_inv_same; try done. cbn. rewrite Ht. symmetry. apply Hd.
    + cbn. rewrite length_app in *. split_and!; try done; try lia. by apply Forall_app.
  - destruct Hat as (Hnx & Htr & Hlt & Hbody).
    destruct (store_msg s live b kb bufsz pos rc f n got xs Hd Hbody) as (mm & m & Hr & Hd1 & Hsame & Hbody1); [lia|].
    eexists. split_and!; [rewrite (bind_run _ _ s _ _ Hr); done|by eapply dec_inv_same|done|].
    cbn. rewrite length_app in *. split_and!; [done|lia|lia|done].
Qed.

(** ** Actions *)

(** The message in progress is complete. *)
Definition delivered_msg (mm : mem) (m : msg_t) (w : wmsg) : Prop :=
  flags m = wm_flags w ∧ msg_bytes mm m = Some (Some <$> wm_data w).

Lemma run_actions_more fuel pos s : d_to_read (ds_dec s) ≠ 0 → run_actions malloc (S fuel) pos s = Ok (rc_more, s).
Proof. intros H. cbn. rewrite dget_bind. by destruct (Z.eqb_spec (d_to_read (ds_dec s)) 0). Qed.

Lemma run_actions_step fuel pos s s' :
  d_to_read (ds_dec s) = 0 → run_dnext malloc pos s = Ok (rc_more, s') →
  run_actions malloc (S fuel) pos s = run_actions malloc fuel pos s'.
Proof. intros H Hr. cbn. rewrite dget_bind, H. cbn. by rewrite (bind_run _ _ s _ _ Hr). Qed.

Lemma run_actions_message fuel pos s live b kb bufsz p rc :
  d_to_read (ds_dec s) = 0 → d_next (ds_dec s) = d2_message_ready → dec_inv s live b kb bufsz p rc →
  ∃ s', run_actions malloc (S fuel) pos s = Ok (rc_done, s') ∧ dec_inv s' live b kb bufsz p rc ∧
    ds_mem s' = ds_mem s ∧ d_in_progress (ds_dec s') = d_in_progress (ds_dec s) ∧ dec_at s' p_flags.
Proof.
  intros H Hn Hd. exists (Dst (ds_mem s) (set_next_step (r_tmp 0) 1 d2_flags_ready (ds_dec s))). split.
  - cbn. rewrite dget_bind, H. cbn [Z.eqb].
    rewrite (bind_run _ _ s rc_done (Dst (ds_mem s) (set_next_step (r_tmp 0) 1 d2_flags_ready (ds_dec s)))); [done|].
    unfold run_dnext. rewrite dget_bind, Hn. done.
  - split_and!; try done. by eapply dec_inv_same.
Qed.

Lemma act_flags pos s live b kb bufsz p rc x :
  dec_part s p_flags [x] → dec_inv s live b kb bufsz p rc →
  ∃ s', run_actions malloc 4 pos s = Ok (rc_more, s') ∧ dec_inv s' live b kb bufsz p rc ∧
    ds_mem s' = ds_mem s ∧ dec_at s' (feed p_flags x).1.
Proof.
  intros (Hnx & Htr & y & [= <-] & Hx) Hd.
  set (d' := (if has_flag x 2 then set_next_step (r_tmp 0) 8 d2_eight_byte_size_ready
              else set_next_step (r_tmp 0) 1 d2_one_byte_size_ready) (set_msg_flags (flags_of x) (ds_dec s))).
  assert (run_dnext malloc pos s = Ok (rc_more, Dst (ds_mem s) d')) as Hr.
  { unfold run_dnext. rewrite dget_bind, Hnx. unfold d2_flags_ready_step, tmp_byte.
    rewrite (bind_run _ _ s x s) by (rewrite dget_bind, Hx; done). rewrite dset_bind.
    unfold more_flag, command_flag, large_flag, msg_more, msg_command.
    assert ((if has_flag x 4 then Z.lor (if has_flag x 1 then Z.lor 0 1 else 0) 2 else if has_flag x 1 then Z.lor 0 1 else 0)
      = flags_of x) as -> by (unfold flags_of; by destruct (has_flag x 4), (has_flag x 1)).
    unfold d'. by destruct (has_flag x 2). }
  rewrite (run_actions_step 3 pos s _ Htr Hr). rewrite run_actions_more by (unfold d'; by destruct (has_flag x 2)).
  eexists. split_and!; [done| |done|].
  - eapply dec_inv_same; try done; unfold d'; by destruct (has_flag x 2).
  - unfold d'. cbn [feed fst]. destruct (has_flag x 2); cbn; split_and!; try done; try lia; apply flags_of_small.
Qed.

(** The size is known: the message is empty and complete, or it has storage of its
    own, or it is in the buffer. *)
Lemma act_size s live b kb bufsz pos rc n f :
  dec_inv s live b kb bufsz pos rc → d_to_read (ds_dec s) = 0 →
  run_dnext malloc (r_heap (pat b pos)) s = d2_size_ready malloc n (r_heap (pat b pos)) s →
  0 ≤ n → n + sizeof_content_t ≤ lim → d_msg_flags (ds_dec s) = f → has_flag f msg_shared = false →
  Z.of_nat (length live + 2) < 2 ^ 31 →
  ∃ s' kb' r, run_actions malloc 4 (r_heap (pat b pos)) s = Ok (r, s') ∧
    same_data (ds_mem s) (ds_mem s') live ∧ b_bytes kb' = b_bytes kb ∧
    ((r = rc_done ∧ n = 0 ∧ dec_inv s' live b kb' bufsz pos rc ∧ dec_at s' p_flags ∧
      delivered_msg (ds_mem s') (d_in_progress (ds_dec s')) (WMsg f [])) ∨
     (r = rc_more ∧ 0 < n ∧ dec_inv s' live b kb' bufsz pos rc ∧ dec_at s' (p_body f n [])) ∨
     (r = rc_more ∧ 0 < n ∧ pos + n ≤ bufsz ∧ dec_inv s' live b kb' bufsz (pos + n) (S rc) ∧
      d_next (ds_dec s') = d2_message_ready ∧ d_to_read (ds_dec s') = n ∧
      d_read_pos (ds_dec s') = r_heap (pat b pos) ∧ flags (d_in_progress (ds_dec s')) = f ∧
      msg_bytes (ds_mem s') (d_in_progress (ds_dec s')) =
        Some (take (Z.to_nat n) (drop (Z.to_nat pos) (b_bytes kb))))).
Proof.
  intros Hd Htr Hrun Hn Hnl Hf Hfs Hroom.
  destruct (size_ready_spec s live b kb bufsz pos rc n f Hd Hn Hnl Hf Hfs Hroom)
    as (s1 & kb1 & Hr & Hsame & Hby & Hnx & Htr1 & Hcase).
  rewrite <-Hrun in Hr. rewrite (run_actions_step 3 _ s s1 Htr Hr). destruct (decide (n = 0)) as [->|Hn0].
  - destruct Hcase as [[Hd1 Hb1]|(_ & ? & _)]; [|lia].
    destruct (run_actions_message 2 (r_heap (pat b pos)) s1 live b kb1 bufsz pos rc Htr1 Hnx Hd1)
      as (s2 & Hr2 & Hd2 & Hm2 & Hip2 & Hat2). exists s2, kb1, rc_done. rewrite Hm2, Hip2. split_and!; try done.
    left. split_and!; try done. destruct Hb1 as (Hfl & _ & bytes & Hbb & Hlen & _).
    split; [done|]. rewrite Hbb. destruct bytes; [done|cbn in Hlen; lia].
  - rewrite run_actions_more by lia. exists s1, kb1, rc_more. split_and!; try done.
    destruct Hcase as [[Hd1 Hb1]|(Hfit & Hpos & Hd1 & Hrp & Hfl & Hbb)]; right; [left|right].
    + split_and!; try done; [lia|]. cbn. split_and!; try done; lia.
    + by split_and!.
Qed.

(** ** The loop over the data that was read *)

(** The bytes of the buffer from [pos] on. *)
Definition input (kb : block) (bufsz pos : Z) (rest : list Z) : Prop :=
  take (Z.to_nat (bufsz - pos)) (drop (Z.to_nat pos) (b_bytes kb)) = Some <$> rest ∧
  Z.of_nat (length rest) = bufsz - pos ∧ 0 ≤ pos.

Lemma input_take kb bufsz pos rest k :
  input kb bufsz pos rest → (k ≤ length rest)%nat →
  take k (drop (Z.to_nat pos) (b_bytes kb)) = Some <$> take k rest.
Proof using Type.
  clear Hmalloc Hbs Hlim Hlim63.
  intros (H & Hl & Hp) Hk. rewrite fmap_take, <-H, take_take. f_equal. lia.
Qed.

Lemma input_drop kb bufsz pos rest k :
  input kb bufsz pos rest → (k ≤ length rest)%nat → input kb bufsz (pos + Z.of_nat k) (drop k rest).
Proof using Type.
  clear Hmalloc Hbs Hlim Hlim63.
  intros (H & Hl & Hp) Hk. split_and!; [|rewrite length_drop; lia|lia].
  rewrite fmap_drop, <-H, skipn_firstn_comm, drop_drop. f_equal; [lia|]. f_equal. lia.
Qed.

Lemma input_same kb kb' bufsz pos rest : b_bytes kb' = b_bytes kb → input kb bufsz pos rest → input kb' bufsz pos rest.
Proof using Type.
  clear Hmalloc Hbs Hlim Hlim63. unfold input. by intros ->. Qed.

(** Every size the data announce can be allocated. *)
Definition sizes_ok (p : pstate) (rest : list Z) : Prop :=
  ∀ k f n got, (feeds p (take k rest)).1 = p_body f n got → n + sizeof_content_t ≤ lim.

Lemma sizes_ok_drop p rest k : (k ≤ length rest)%nat → sizes_ok p rest → sizes_ok (feeds p (take k rest)).1 (drop k rest).
Proof using Type.
  clear Hmalloc Hbs Hlim Hlim63.
  intros Hk H j f n got E. apply (H (k + j)%nat f n got). rewrite <-E.
  rewrite <-(take_drop k rest) at 1. rewrite take_app_add' by (rewrite length_take; lia).
  by rewrite feeds_app.
Qed.

(** Reading where the data already are copies nothing. *)
Lemma read_pos_elsewhere s live b kb bufsz pos rc p :
  dec_inv s live b kb bufsz pos rc → dec_at s p → d_read_pos (ds_dec s) ≠ r_heap (pat b pos).
Proof.
  intros Hd Hat E. destruct p as [|f|f got|f n got]; cbn [dec_at] in Hat; rewrite E in Hat.
  1-3: by destruct Hat as (_ & ? & _).
  destruct Hat as (_ & _ & _ & _ & _ & bytes & _ & _ & _ & Hp).
  pose proof (inv_wf _ _ _ (di_inv _ _ _ _ _ _ _ Hd) (d_in_progress (ds_dec s)) ltac:(left)) as [_ Hwf].
  destruct (body (d_in_progress (ds_dec s))) as [|[c|]| | | |]; try done. injection Hp as <- _.
  destruct Hwf as (k & ct & Hk & Hc & _). pose proof (di_block _ _ _ _ _ _ _ Hd). pose proof (di_buffer _ _ _ _ _ _ _ Hd).
  by simplify_eq.
Qed.

Lemma load_input s live b kb bufsz pos rc rest k :
  dec_inv s live b kb bufsz pos rc → input kb bufsz pos rest → (k ≤ length rest)%nat →
  r_load (r_heap (pat b pos)) k s = Ok (Some <$> take k rest, s).
Proof.
  intros Hd Hin Hk. cbn [r_load]. rewrite (in_mem_run _ s (Some <$> take k rest) (ds_mem s)); [by destruct s|].
  apply load_slice. unfold slice. rewrite (di_block _ _ _ _ _ _ _ Hd). cbn. unfold in_range.
  pose proof Hin as (_ & Hl & Hp). pose proof (di_bufsz _ _ _ _ _ _ _ Hd). pose proof (di_bytes _ _ _ _ _ _ _ Hd).
  destruct (Z.leb_spec 0 pos); [|lia]. destruct (Z.leb_spec (pos + Z.of_nat k) (Z.of_nat (length (b_bytes kb)))); [|lia].
  cbn. by rewrite (input_take _ _ _ _ _ Hin).
Qed.

Lemma dec_at_to_read s p : dec_at s p → 0 < d_to_read (ds_dec s).
Proof using Type.
  clear Hmalloc Hbs Hlim Hlim63.
  destruct p; cbn [dec_at].
  1: intros (_ & _ & ?); lia.
  1: intros (_ & _ & ? & _); lia.
  - intros (_ & _ & ? & ? & _). lia.
  - intros (_ & ? & ? & _). lia.
Qed.

(** One turn of the loop, up to the actions. *)
Lemma decode_turn fuel s live b kb bufsz o used rc p rest :
  dec_inv s live b kb bufsz (o + used) rc → dec_at s p → input kb bufsz (o + used) rest →
  Forall is_byte rest → rest ≠ [] → 0 ≤ used →
  ∃ k s1, (0 < k ≤ length rest)%nat ∧
    Z.of_nat k = Z.min (d_to_read (ds_dec s)) (Z.of_nat (length rest)) ∧
    dec_inv s1 live b kb bufsz (o + used + Z.of_nat k) rc ∧ same_data (ds_mem s) (ds_mem s1) live ∧
    dec_part s1 p (take k rest) ∧
    decode_loop malloc (S fuel) (r_heap (pat b o)) (bufsz - o) used s =
      (r ← run_actions malloc 4 (r_heap (pat b (o + used + Z.of_nat k)));
       match r with
       | rc_more => decode_loop malloc fuel (r_heap (pat b o)) (bufsz - o) (used + Z.of_nat k)
       | _ => mret (r, used + Z.of_nat k)
       end) s1.
Proof.
  intros Hd Hat Hin Hbs' Hne Hu. pose proof Hin as (_ & Hl & Hp). pose proof (dec_at_to_read _ _ Hat) as Htr.
  assert (0 < length rest)%nat as Hlr by (destruct rest; [done|cbn; lia]).
  set (k := Z.to_nat (Z.min (d_to_read (ds_dec s)) (Z.of_nat (length rest)))).
  assert (Hlk : length (take k rest) = k) by (rewrite length_take; lia).
  destruct (stage_store s live b kb bufsz (o + used) rc p (take k rest) Hd Hat) as (s1 & Hr & Hd1 & Hsame & Hpart);
    [by apply Forall_take|intros E; rewrite E in Hlk; cbn in Hlk; lia|lia|].
  exists k, s1. split_and!; [lia|lia|lia| |done|done|].
  { eapply dec_inv_pos; [done|]. lia. }
  cbn [decode_loop]. destruct (Z.ltb_spec used (bufsz - o)); [|lia]. rewrite !dget_bind.
  replace (Z.min (d_to_read (ds_dec s)) (bufsz - o - used)) with (Z.of_nat k) by lia.
  cbn [r_add ptr_add]. rewrite decide_False by (by eapply read_pos_elsewhere).
  rewrite Nat2Z.id. unfold mbind at 1, M_bind.
  rewrite (bind_run _ _ s _ _ (load_input _ _ _ _ _ _ _ _ k Hd Hin ltac:(lia))).
  rewrite Hlk in Hr. unfold mbind, M_bind in Hr. destruct (r_store _ _ s) as [[[] s0]|]; [|done].
  unfold mbind at 1, M_bind. rewrite Hr. rewrite Z.add_assoc. done.
Qed.

(** The message in progress is in the buffer, at [pos], and to be skipped. *)
Definition in_place (s : dst) (b : N) (kb : block) (pos n f : Z) : Prop :=
  d_next (ds_dec s) = d2_message_ready ∧ d_to_read (ds_dec s) = n ∧
  d_read_pos (ds_dec s) = r_heap (pat b pos) ∧ flags (d_in_progress (ds_dec s)) = f ∧
  msg_bytes (ds_mem s) (d_in_progress (ds_dec s)) = Some (take (Z.to_nat n) (drop (Z.to_nat pos) (b_bytes kb))).

(** What the actions leave, for the result [pr] of the parser. *)
Definition acted (s : dst) (live : list msg_t) (b : N) (kb : block) (bufsz pos : Z) (rc : nat)
    (r : drc) (pr : pstate * list wmsg) : Prop :=
  (r = rc_more ∧ pr.2 = [] ∧ dec_inv s live b kb bufsz pos rc ∧ dec_at s pr.1) ∨
  (∃ w, r = rc_done ∧ pr = (p_flags, [w]) ∧ dec_inv s live b kb bufsz pos rc ∧ dec_at s p_flags ∧
    delivered_msg (ds_mem s) (d_in_progress (ds_dec s)) w) ∨
  (∃ f n, r = rc_more ∧ pr = (p_body f n [], []) ∧ 0 < n ∧ pos + n ≤ bufsz ∧
    dec_inv s live b kb bufsz (pos + n) (S rc) ∧ in_place s b kb pos n f).

Lemma act_sized s live b kb bufsz pos rc n f :
  dec_inv s live b kb bufsz pos rc → d_to_read (ds_dec s) = 0 →
  run_dnext malloc (r_heap (pat b pos)) s = d2_size_ready malloc n (r_heap (pat b pos)) s →
  0 ≤ n → (∀ got, (p_size f n).1 = p_body f n got → n + sizeof_content_t ≤ lim) →
  d_msg_flags (ds_dec s) = f → has_flag f msg_shared = false → Z.of_nat (length live + 2) < 2 ^ 31 →
  ∃ s' kb' r, run_actions malloc 4 (r_heap (pat b pos)) s = Ok (r, s') ∧
    same_data (ds_mem s) (ds_mem s') live ∧ b_bytes kb' = b_bytes kb ∧
    acted s' live b kb' bufsz pos rc r (p_size f n).
Proof.
  intros Hd Htr Hrun Hn Hnl Hf Hfs Hroom. unfold p_size in *.
  destruct (act_size s live b kb bufsz pos rc n f Hd Htr Hrun) as (s' & kb' & r & Hr & Hsame & Hby & Hcase); try done.
  { destruct (Z.eqb_spec n 0) as [->|]; [lia|]. by eapply Hnl. }
  exists s', kb', r. split_and!; try done.
  destruct Hcase as [(-> & -> & ? & ? & ?)|[(-> & ? & ? & ?)|(-> & ? & ? & ? & Hnx & Htr' & Hrp & Hfl & Hbb)]].
  - right; left. by eexists.
  - left. destruct (Z.eqb_spec n 0); [lia|done].
  - right; right. exists f, n. destruct (Z.eqb_spec n 0); [lia|]. split_and!; try done.
    unfold in_place. rewrite Hby. by split_and!.
Qed.

Lemma mapM_id_Some {A} (l : list A) : mapM id (Some <$> l) = Some l.
Proof. induction l as [|x l IH]; [done|]. cbn. by rewrite IH. Qed.

Lemma tmp_uint64_run s xs :
  length (d_tmpbuf (ds_dec s)) = 8%nat → length xs = 8%nat → Forall is_byte xs →
  take (length xs) (d_tmpbuf (ds_dec s)) = Some <$> xs → tmp_uint64 s = Ok (be_val xs, s).
Proof.
  intros Ht Hx Hb Htk. rewrite take_ge in Htk by lia. unfold tmp_uint64. rewrite dget_bind, Htk, mapM_id_Some.
  pose proof (get_uint64_val xs [] Hb Hx) as Hg. rewrite app_nil_r in Hg. by rewrite Hg.
Qed.

Lemma act_part s live b kb bufsz pos rc p xs :
  dec_inv s live b kb bufsz pos rc → dec_part s p xs → Forall is_byte xs → xs ≠ [] →
  (∀ f n got, (feeds p xs).1 = p_body f n got → n + sizeof_content_t ≤ lim) →
  Z.of_nat (length live + 2) < 2 ^ 31 →
  ∃ s' kb' r, run_actions malloc 4 (r_heap (pat b pos)) s = Ok (r, s') ∧
    same_data (ds_mem s) (ds_mem s') live ∧ b_bytes kb' = b_bytes kb ∧
    acted s' live b kb' bufsz pos rc r (feeds p xs).
Proof.
  intros Hd Hp Hb Hne Hsz Hroom. destruct p as [|f|f got|f n got].
  - pose proof Hp as (_ & _ & x & -> & _).
    destruct (act_flags (r_heap (pat b pos)) s live b kb bufsz pos rc x Hp Hd) as (s' & Hr & Hd' & Hm & Hat).
    exists s', kb, rc_more. split_and!; [done|by rewrite Hm|done|]. left. rewrite feeds_one. by split_and!.
  - destruct Hp as (Hnx & Htr & Hf & Hfs & x & -> & Hx). rewrite feeds_one in *. cbn [feed] in *.
    rewrite Forall_cons_iff in Hb. destruct Hb as [[Hb _] _].
    apply act_sized; try done; [|by intros; eapply Hsz].
    unfold run_dnext. rewrite dget_bind, Hnx. unfold d2_one_byte_size_ready_step, tmp_byte.
    by rewrite (bind_run _ _ s x s) by (rewrite dget_bind, Hx; done).
  - destruct Hp as (Hnx & Hrp & Htr & Hf & Hfs & Htk & Hl & Hb8). rewrite length_app in *.
    assert (0 < length xs)%nat by (destruct xs; [done|cbn; lia]).
    destruct (decide (length got + length xs = 8)%nat) as [E|E].
    + rewrite feeds_eight_full in * by lia. apply act_sized; try done; [lia|..].
      * unfold run_dnext. rewrite dget_bind, Hnx. unfold d2_eight_byte_size_ready_step.
        rewrite (bind_run _ _ s (be_val (got ++ xs)) s); [done|]. apply tmp_uint64_run; rewrite ?length_app; try done; try lia. apply Hd.
      * by apply be_val_bound.
      * intros; by eapply Hsz.
    + rewrite feeds_eight by lia. exists s, kb, rc_more. rewrite run_actions_more by lia.
      split_and!; try done. left. split_and!; try done. cbn. rewrite length_app. split_and!; try done; lia.
  - destruct Hp as (Hnx & Htr & Hl & Hbody). rewrite length_app in *.
    destruct (decide (Z.of_nat (length got + length xs) = n)) as [E|E].
    + rewrite feeds_body_full by done.
      destruct (run_actions_message 3 (r_heap (pat b pos)) s live b kb bufsz pos rc) as (s2 & Hr2 & Hd2 & Hm2 & Hip2 & Hat2);
        try done; [lia|]. exists s2, kb, rc_done. split_and!; [done|by rewrite Hm2|done|]. right; left. eexists. split_and!; try done.
      rewrite Hm2, Hip2. destruct Hbody as (Hfl & _ & bytes & Hbb & Hlen & Htk & _). split; [done|]. cbn.
      rewrite Hbb, <-Htk. f_equal. rewrite take_ge; [done|]. rewrite length_app. lia.
    + rewrite feeds_body by lia. exists s, kb, rc_more. rewrite run_actions_more by lia.
      split_and!; try done. left. split_and!; try done. cbn. rewrite length_app. split_and!; try done; lia.
Qed.

Lemma same_data_trans mm1 mm2 mm3 ms : same_data mm1 mm2 ms → same_data mm2 mm3 ms → same_data mm1 mm3 ms.
Proof. intros H1 H2 m Hm. by rewrite H2, H1. Qed.

Lemma feeds_split p xs k :
  (feeds p (take k xs)).2 = [] → ∀ j, feeds p (take (k + j) xs) = feeds (feeds p (take k xs)).1 (take j (drop k xs)).
Proof using Type.
  clear Hmalloc Hbs Hlim Hlim63.
  intros Hn j. rewrite <-(take_drop k xs) at 1. destruct (decide (k ≤ length xs)%nat).
  - rewrite take_app_add' by (rewrite length_take; lia). rewrite feeds_app, Hn. by destruct (feeds _ (take j _)).
  - rewrite (drop_ge xs k), take_nil, app_nil_r by lia. rewrite (take_ge xs k) in * by lia.
    rewrite take_ge by lia. cbn. destruct (feeds p xs). cbn in *. by subst.
Qed.

(** What a call to the loop that takes [k] bytes of [rest] leaves. *)
Definition decoded (s : dst) (live : list msg_t) (p : pstate) (rest : list Z) (k : nat) (r : drc) : Prop :=
  dec_at s (feeds p (take k rest)).1 ∧
  ((r = rc_more ∧ k = length rest ∧ (feeds p rest).2 = []) ∨
   (∃ w, r = rc_done ∧ (0 < k ≤ length rest)%nat ∧ feeds p (take k rest) = (p_flags, [w]) ∧
      delivered_msg (ds_mem s) (d_in_progress (ds_dec s)) w)).

Lemma decoded_later s live p rest k k' r :
  (k ≤ length rest)%nat → (feeds p (take k rest)).2 = [] →
  decoded s live (feeds p (take k rest)).1 (drop k rest) k' r → decoded s live p rest (k + k') r.
Proof using Type.
  clear Hmalloc Hbs Hlim Hlim63.
  intros Hk Hn [Hat Hc]. split; [by rewrite feeds_split|]. rewrite length_drop in Hc.
  destruct Hc as [(-> & -> & Hn')|(w & -> & Hk' & Hf & Hdel)].
  - left. split_and!; [done|lia|]. rewrite <-(take_drop k rest), feeds_app. cbn [snd]. by rewrite Hn, Hn'.
  - right. exists w. split_and!; [done|lia|lia|by rewrite feeds_split by done|done].
Qed.

(** The message that is in the buffer is complete at the next turn. *)
Lemma decode_in_place fuel s live b kb bufsz o used rc f n rest :
  dec_inv s live b kb bufsz (o + used + n) rc → in_place s b kb (o + used) n f →
  input kb bufsz (o + used) rest → 0 < n → o + used + n ≤ bufsz → 0 ≤ used →
  ∃ s', decode_loop malloc (S fuel) (r_heap (pat b o)) (bufsz - o) used s = Ok ((rc_done, used + n), s') ∧
    dec_inv s' live b kb bufsz (o + used + n) rc ∧ ds_mem s' = ds_mem s ∧
    decoded s' live (p_body f n []) rest (Z.to_nat n) rc_done.
Proof.
  intros Hd (Hnx & Htr & Hrp & Hfl & Hbb) Hin Hn Hfit Hu. pose proof Hin as (_ & Hl & Hp).
  set (s1 := Dst (ds_mem s) (set_next_step (r_heap (pat b (o + used + n))) 0 d2_message_ready (ds_dec s))).
  assert (dec_inv s1 live b kb bufsz (o + used + n) rc) as Hd1 by (by eapply dec_inv_same).
  destruct (run_actions_message 3 (r_heap (pat b (o + (used + n)))) s1 live b kb bufsz (o + used + n) rc)
    as (s2 & Hr2 & Hd2 & Hm2 & Hip2 & Hat2); try done.
  exists s2. split_and!; try done; [|split].
  - cbn [decode_loop]. destruct (Z.ltb_spec used (bufsz - o)); [|lia]. rewrite !dget_bind, Htr, Hrp.
    replace (Z.min n (bufsz - o - used)) with n by lia. cbn [r_add ptr_add]. rewrite decide_True by done.
    unfold mbind at 1, M_bind. cbn [mret M_ret]. unfold advance_read. rewrite dset_bind.
    rewrite Hnx, Hrp, Htr, Z.sub_diag. cbn [r_add ptr_add]. fold s1.
    by rewrite (bind_run _ _ s1 rc_done s2 Hr2).
  - rewrite feeds_body_full; [done|rewrite length_take; cbn; lia|].
    intros E%(f_equal length). rewrite length_take in E. cbn in E. lia.
  - right. exists (WMsg f (take (Z.to_nat n) rest)). split_and!; [done|lia|lia| |].
    + rewrite feeds_body_full; [done|rewrite length_take; cbn; lia|].
      intros E%(f_equal length). rewrite length_take in E. cbn in E. lia.
    + rewrite Hm2, Hip2. split; [done|]. cbn [s1 ds_mem ds_dec d_in_progress set_next_step]. cbn.
      rewrite Hbb. f_equal. apply (input_take _ _ _ _ _ Hin). lia.
Qed.

Lemma decode_loop_spec fuel s live b kb bufsz o used rc p rest :
  dec_inv s live b kb bufsz (o + used) rc → dec_at s p → input kb bufsz (o + used) rest →
  Forall is_byte rest → sizes_ok p rest → 0 ≤ used → (length rest < fuel)%nat →
  Z.of_nat (length live + 2) < 2 ^ 31 →
  ∃ s' kb' rc' r k,
    decode_loop malloc fuel (r_heap (pat b o)) (bufsz - o) used s = Ok ((r, used + Z.of_nat k), s') ∧
    (k ≤ length rest)%nat ∧ dec_inv s' live b kb' bufsz (o + used + Z.of_nat k) rc' ∧
    same_data (ds_mem s) (ds_mem s') live ∧ b_bytes kb' = b_bytes kb ∧ decoded s' live p rest k r.
Proof.
  revert s kb used rc p rest. induction fuel as [|fuel IH]; intros s kb used rc p rest Hd Hat Hin Hb Hsz Hu Hfuel Hroom; [lia|].
  destruct (decide (rest = [])) as [->|Hne].
  { exists s, kb, rc, rc_more, 0%nat. cbn [decode_loop]. pose proof Hin as (_ & Hl & _). cbn in Hl.
    destruct (Z.ltb_spec used (bufsz - o)); [lia|]. rewrite !Z.add_0_r. split_and!; try done. split; [done|by left]. }
  destruct (decode_turn fuel s live b kb bufsz o used rc p rest Hd Hat Hin Hb Hne Hu)
    as (k & s1 & Hk & Hkz & Hd1 & Hsame1 & Hpart & ->).
  assert (length (take k rest) = k) as Hlk by (rewrite length_take; lia).
  destruct (act_part s1 live b kb bufsz (o + used + Z.of_nat k) rc p (take k rest)) as (s2 & kb2 & r & Hr & Hsame2 & Hby & Hcase);
    [done|done|by apply Forall_take|intros E; rewrite E in Hlk; cbn in Hlk; lia|intros; by eapply Hsz|done|].
  rewrite (bind_run _ _ s1 r s2 Hr). pose proof (same_data_trans _ _ _ _ Hsame1 Hsame2) as Hsame.
  assert (input kb2 bufsz (o + used + Z.of_nat k) (drop k rest)) as Hin2
    by (eapply input_same; [done|]; apply input_drop; [done|lia]).
  destruct Hcase as [(-> & Hn & Hd2 & Hat2)|[(w & -> & Hf & Hd2 & Hat2 & Hdel)|(f & n & -> & Hf & Hn0 & Hfit & Hd2 & Hip)]].
  - rewrite <-Z.add_assoc in Hd2, Hin2.
    destruct (IH s2 kb2 (used + Z.of_nat k) rc (feeds p (take k rest)).1 (drop k rest))
      as (s' & kb' & rc' & r' & k' & Hr' & Hk' & Hd' & Hsame' & Hby' & Hdec);
      [done|done|done|by apply Forall_drop|by apply sizes_ok_drop; [lia|]|lia|rewrite length_drop; lia|done|].
    rewrite length_drop in Hk'. exists s', kb', rc', r', (k + k')%nat.
    rewrite Hr', Nat2Z.inj_add, !Z.add_assoc. rewrite !Z.add_assoc in Hd'.
    split_and!; [done|lia|done|by eapply same_data_trans|congruence|]. apply decoded_later; [lia|done|done].
  - exists s2, kb2, rc, rc_done, k. split_and!; try done; [lia|]. split; [by rewrite Hf|]. right. exists w. split_and!; try done; lia.
  - destruct fuel as [|fuel]; [lia|].
    rewrite <-(Z.add_assoc o) in Hd2, Hin2, Hip, Hfit.
    destruct (decode_in_place fuel s2 live b kb2 bufsz o (used + Z.of_nat k) (S rc) f n (drop k rest))
      as (s' & Hr' & Hd' & Hm' & Hdec); try done; [lia|].
    pose proof Hin2 as (_ & Hl & _). rewrite length_drop in Hl.
    exists s', kb2, (S rc), rc_done, (k + Z.to_nat n)%nat. rewrite Hr', Nat2Z.inj_add, Z2Nat.id by lia.
    rewrite !Z.add_assoc in *. split_and!; [done|lia|done|by rewrite Hm'|done|].
    apply decoded_later; [lia|by rewrite Hf|by rewrite Hf].
Qed.
End decoding.
