(* ===== verification/ZmqInput.v ===== *)
(** The input side of the engine (stream_engine.cpp, in_event and restart_input)
    over the version 2 decoder and its shared buffers (decoder_allocators.cpp).
    Whatever pieces the socket delivers, whatever room the session has and whenever
    the application reads and closes the messages it got, every message arrives,
    once and in order, with its data, and no buffer is used after it was freed or
    while a message still uses it. *)
From stdpp Require Import base tactics list numbers gmap strings.
From S2P Require Import Prelude ZmqWire ZmqEncoder ZmqMsg ZmqMsgSpec ZmqDecoder ZmqDecoderSpec.

Local Open Scope Z_scope.

(** ** Buffers that are released and allocated *)

Lemma held_refs_cons b b' held : held_refs b (b' :: held) = ((if decide (b' = b) then 1 else 0) + held_refs b held)%nat.
Proof. unfold held_refs. rewrite filter_cons. by case_decide. Qed.

Lemma release_hold mm ms held b kb :
  msgs_inv mm ms (b :: held) → blocks mm !! b = Some kb → 1 < b_ctr kb →
  msgs_inv (upd_ctr (c_start b) (b_ctr kb - 1) mm) ms held.
Proof.
  intros Hinv Hkb Hc. pose proof (upd_ctr_le (c_start b) (b_ctr kb - 1) mm) as Hle.
  assert (∀ b', is_Some (blocks mm !! b') → is_Some (blocks (upd_ctr (c_start b) (b_ctr kb - 1) mm) !! b')) as Hdom.
  { intros b' H. rewrite upd_ctr_lookup. case_decide; [|done]. by destruct H as [? ->]. }
  destruct (inv_held _ _ _ Hinv b ltac:(left)) as (kb0 & ? & Hnc). simplify_eq.
  split.
  - intros m Hm. eapply msg_wf_mono; [by eapply inv_wf|done|]. intros k Hk. apply Hdom. by eapply inv_block.
  - intros m k Hm Hk. pose proof (inv_cnt _ _ _ Hinv m k Hm Hk) as H. destruct (is_shared m); [|done].
    erewrite upd_ctr_val by (cbn; by rewrite Hkb). by rewrite decide_False by (by eapply inv_key_not_start).
  - apply Hinv.
  - intros b' k' c. rewrite upd_ctr_lookup. case_decide; [|by apply Hinv].
    rewrite fmap_Some. intros (k & Hk & ->). cbn. by eapply inv_content.
  - intros b' k'. rewrite upd_ctr_lookup. case_decide as E; cbn in E.
    + subst b'. rewrite Hkb. cbn. intros [= <-] _. cbn.
      destruct (inv_buffer _ _ _ Hinv b kb Hkb Hnc) as [H _]. rewrite held_refs_cons, decide_True in H by done. lia.
    + intros H1 H2. pose proof (inv_buffer _ _ _ Hinv b' k' H1 H2) as H.
      by rewrite held_refs_cons, decide_False in H by congruence.
  - intros b' Hb'. destruct (inv_held _ _ _ Hinv b' ltac:(by right)) as (k & Hk & Hkc).
    rewrite upd_ctr_lookup, Hk. case_decide; cbn; by eexists.
  - intros b' Hb'. apply (inv_fresh _ _ _ Hinv). rewrite upd_ctr_lookup in Hb'. case_decide; [|done].
    destruct Hb' as [? (? & ? & _)%fmap_Some]. by eexists.
  - pose proof (inv_room _ _ _ Hinv) as H. cbn in *. lia.
Qed.

Lemma hold_new mm ms held k :
  msgs_inv mm ms held → b_content k = None → b_ctr k = 1 → Z.of_nat (length ms + S (length held)) < 2 ^ 31 →
  msgs_inv (Mem (<[calls mm := k]> (blocks mm)) (calls mm + 1)%N (metas mm) (user_freed mm)) ms (calls mm :: held).
Proof.
  intros Hinv Hc H1 Hroom. set (b := calls mm) in *.
  assert (blocks mm !! b = None) as Hfresh.
  { destruct (blocks mm !! b) eqn:E; [|done]. pose proof (inv_fresh _ _ _ Hinv b ltac:(by eexists)). lia. }
  assert (mem_ext mm (Mem (<[b := k]> (blocks mm)) (b + 1)%N (metas mm) (user_freed mm))) as Hext
    by (by apply insert_subseteq).
  assert (groups b (length (b_ctrs k)) ms = 0%nat) as Hg.
  { rewrite (groups_ext b _ ms []); [by induction (length (b_ctrs k))|]. intros i _. cbn.
    destruct (nusers (c_arr b i) ms) eqn:E; [done|].
    destruct (proj1 (nusers_pos (c_arr b i) ms)) as (m' & Hm' & Hk'); [lia|].
    destruct (inv_block _ _ _ m' _ Hinv Hm' Hk') as [? H]. cbn in H. congruence. }
  assert (held_refs b held = 0%nat) as Hh.
  { unfold held_refs. destruct (filter _ held) as [|x l] eqn:E; [done|].
    assert (x ∈ filter (λ x, x = b) held) as Hx by (rewrite E; left).
    apply list_elem_of_filter in Hx as [-> Hx]. destruct (inv_held _ _ _ Hinv b Hx) as (? & ? & _). congruence. }
  split.
  - intros m' Hm'. eapply msg_wf_ext; [done|by eapply inv_wf].
  - intros m' k' Hm' Hk'. pose proof (inv_cnt _ _ _ Hinv m' k' Hm' Hk'). destruct (is_shared m'); [by eapply ctr_val_ext|done].
  - apply Hinv.
  - intros b' k' c'. cbn [blocks]. destruct (decide (b' = b)) as [->|].
    + rewrite lookup_insert_eq. congruence.
    + rewrite lookup_insert_ne by done. apply Hinv.
  - intros b' k'. cbn [blocks]. rewrite held_refs_cons. destruct (decide (b' = b)) as [->|].
    + rewrite lookup_insert_eq, decide_True by done. intros [= <-] _. rewrite Hg, Hh, H1. done.
    + rewrite lookup_insert_ne, decide_False by done. apply Hinv.
  - intros b' [->|Hb']%elem_of_cons.
    + exists k. cbn. by rewrite lookup_insert_eq.
    + destruct (inv_held _ _ _ Hinv b' Hb') as (k' & Hk' & ?). exists k'. split; [|done]. by eapply lookup_weaken.
  - intros b'. cbn. destruct (decide (b' = b)) as [->|]; [lia|]. rewrite lookup_insert_ne by done.
    intros H. pose proof (inv_fresh _ _ _ Hinv b' H). lia.
  - done.
Qed.

Section input.
Context (malloc : N → Z → option Z) (lim bs : Z).
Context (Hmalloc : malloc_ok malloc lim) (Hbs : 8 < bs).
Context (Hlim : bs + sizeof_counter + Z.of_nat (max_counters bs) * sizeof_counter ≤ lim).
Context (Hlim63 : sizeof_content_t ≤ lim < 2 ^ 63).

Notation dec_inv := (dec_inv bs).

(** The decoder when the data it was given are used up. *)
Record dec_idle (s : dst) (live : list msg_t) (b : N) (kb : block) : Prop := {
  id_alloc : ∃ bufsz rc, d_alloc (ds_dec s) = shared (Some b) bufsz bs rc (max_counters bs);
  id_block : blocks (ds_mem s) !! b = Some kb;
  id_buffer : b_content kb = None;
  id_bytes : Z.of_nat (length (b_bytes kb)) = bs;
  id_ctrs : length (b_ctrs kb) = max_counters bs;
  id_addr : 0 ≤ b_addr kb ∧ b_addr kb + bs < 2 ^ 63;
  id_inv : msgs_inv (ds_mem s) (d_in_progress (ds_dec s) :: live) [b];
  id_tmp : length (d_tmpbuf (ds_dec s)) = 8%nat;
  id_max : d_maxmsgsize (ds_dec s) = -1
}.

Lemma dec_inv_idle s live b kb bufsz pos rc : dec_inv s live b kb bufsz pos rc → dec_idle s live b kb.
Proof. intros []. split; try done. by eexists _, _. Qed.

Definition fresh_alloc (b : N) : allocator := shared (Some b) bs bs 0 (max_counters bs).

Lemma idle_fresh s live b kb :
  dec_idle s live b kb → d_alloc (ds_dec s) = fresh_alloc b →
  (∀ i, nusers (c_arr b i) (d_in_progress (ds_dec s) :: live) = 0%nat) → dec_inv s live b kb bs 0 0.
Proof. intros [] Ha Hn. split; try done; lia. Qed.

Definition new_buf (a : Z) : block := Block a (replicate (Z.to_nat bs) None) 1 (replicate (max_counters bs) 0) None.

Definition with_buf (a : Z) (mm : mem) : mem :=
  Mem (<[calls mm := new_buf a]> (blocks mm)) (calls mm + 1)%N (metas mm) (user_freed mm).

Lemma new_buffer_run s :
  ∃ a, 0 ≤ a ∧ a + bs < 2 ^ 63 ∧
    new_buffer malloc bs (max_counters bs) s = Ok (calls (ds_mem s), Dst (with_buf a (ds_mem s)) (ds_dec s)).
Proof.
  destruct (Hmalloc (calls (ds_mem s)) (bs + sizeof_counter + Z.of_nat (max_counters bs) * sizeof_counter)) as (a & Ha & ? & ?);
    [unfold sizeof_counter in *; lia|].
  exists (a + sizeof_counter). split_and!; [unfold sizeof_counter; lia|unfold sizeof_counter in *; lia|].
  unfold new_buffer. rewrite (in_mem_bind _ _ s (Some (calls (ds_mem s))) (with_buf (a + sizeof_counter) (ds_mem s))); [done|].
  unfold new_block. by rewrite Ha.
Qed.

(** A decoder [d] without a buffer gets a new one. *)
Lemma with_buf_fresh a mm d live :
  msgs_inv mm (d_in_progress d :: live) [] → 0 ≤ a → a + bs < 2 ^ 63 →
  Z.of_nat (length live + 2) < 2 ^ 31 → length (d_tmpbuf d) = 8%nat → d_maxmsgsize d = -1 →
  dec_inv (Dst (with_buf a mm) (set_alloc (fresh_alloc (calls mm)) d)) live (calls mm) (new_buf a) bs 0 0 ∧
  same_data mm (with_buf a mm) (d_in_progress d :: live).
Proof.
  intros Hinv Ha Hab Hroom Ht Hx.
  assert (blocks mm !! calls mm = None) as Hfresh.
  { destruct (blocks mm !! calls mm) eqn:E; [|done]. pose proof (inv_fresh _ _ _ Hinv _ ltac:(by eexists)). lia. }
  split.
  - apply idle_fresh; [split; cbn; try done|done|].
    + by eexists _, _.
    + by rewrite lookup_insert_eq.
    + rewrite length_replicate. lia.
    + by rewrite length_replicate.
    + apply hold_new; try done. cbn. lia.
    + intros i. cbn [d_in_progress ds_dec set_alloc]. destruct (nusers (c_arr (calls mm) i) (d_in_progress d :: live)) eqn:E; [done|].
      destruct (proj1 (nusers_pos (c_arr (calls mm) i) (d_in_progress d :: live))) as (m & Hm & Hk); [lia|].
      destruct (inv_block _ _ _ m _ Hinv Hm Hk) as [? H]. cbn in H. congruence.
  - intros m Hm. apply msg_bytes_ext; [by apply insert_subseteq|by eapply inv_wf].
Qed.

Lemma upd_start_same b v kb mm :
  blocks mm !! b = Some kb → b_ctr kb = 1 → upd_ctr (c_start b) 1 (upd_ctr (c_start b) v mm) = mm.
Proof.
  intros Hkb H1. destruct mm as [bl ca me uf]. unfold upd_ctr, set_blocks. cbn in *. f_equal.
  apply map_eq. intros b'. destruct (decide (b' = b)) as [->|].
  - rewrite !lookup_alter_eq, Hkb. cbn. destruct kb. cbn in *. by subst.
  - by rewrite !lookup_alter_ne.
Qed.

Lemma groups_zero b n ms : groups b n ms = 0%nat → ∀ i, (i < n)%nat → nusers (c_arr b i) ms = 0%nat.
Proof. intros H i Hi. destruct (decide (nusers (c_arr b i) ms = 0%nat)) as [|Hn]; [done|]. pose proof (groups_pos b n ms i Hi Hn). lia. Qed.

Lemma nusers_arr_bound mm ms held b kb i :
  msgs_inv mm ms held → blocks mm !! b = Some kb → (length (b_ctrs kb) ≤ i)%nat → nusers (c_arr b i) ms = 0%nat.
Proof.
  intros Hinv Hkb Hi. destruct (nusers (c_arr b i) ms) eqn:E; [done|].
  destruct (proj1 (nusers_pos (c_arr b i) ms)) as (m & Hm & Hk); [lia|].
  destruct (inv_key_arr _ _ _ _ _ _ Hinv Hm Hk) as (off & sz & k & _ & ? & _ & ?). simplify_eq. lia.
Qed.

(** [allocate]: the buffer is used again only when no message is in it. *)
Lemma allocate_spec s live b kb :
  dec_idle s live b kb → Z.of_nat (length live + 2) < 2 ^ 31 →
  ∃ mm' b' kb', allocate malloc s = Ok (pat b' 0, Dst mm' (set_alloc (fresh_alloc b') (ds_dec s))) ∧
    dec_inv (Dst mm' (set_alloc (fresh_alloc b') (ds_dec s))) live b' kb' bs 0 0 ∧
    same_data (ds_mem s) mm' (d_in_progress (ds_dec s) :: live).
Proof.
  intros Hd Hroom. destruct (id_alloc _ _ _ _ Hd) as (bufsz & rc & Ha). pose proof (id_inv _ _ _ _ Hd) as Hinv.
  pose proof (id_block _ _ _ _ Hd) as Hkb. destruct (inv_buffer _ _ _ Hinv b kb Hkb (id_buffer _ _ _ _ Hd)) as [Hctr Hpos].
  pose proof (inv_room _ _ _ Hinv) as Hr31. cbn in Hr31.
  pose proof (groups_le b (length (b_ctrs kb)) (d_in_progress (ds_dec s) :: live)) as Hgl. cbn in Hgl.
  rewrite held_refs_cons, decide_True in Hctr by done. cbn in Hctr.
  assert (ctr_sub (c_start b) 1 (ds_mem s) = Ok (negb (b_ctr kb - 1 =? 0), upd_ctr (c_start b) (b_ctr kb - 1) (ds_mem s))) as Hsub.
  { apply ctr_sub_run; [cbn; by rewrite Hkb|]. cbn in Hctr, Hgl. lia. }
  unfold allocate. rewrite dget_bind, Ha. rewrite (bind_run _ _ s (if negb (b_ctr kb - 1 =? 0) then None else Some b)
    (Dst (upd_ctr (c_start b) (b_ctr kb - 1) (ds_mem s)) (ds_dec s))) by (by rewrite (in_mem_bind _ _ s _ _ Hsub)).
  destruct (Z.eqb_spec (b_ctr kb - 1) 0) as [E|E]; cbn [negb].
  - assert (b_ctr kb = 1) as E1 by lia.
    rewrite (bind_run _ _ _ b s).
    + rewrite dset_bind. eexists (ds_mem s), b, kb. split; [done|]. split; [|by intros m _].
      apply idle_fresh; [|done|].
      * destruct Hd. split; try done. by eexists _, _.
      * cbn [d_in_progress ds_dec set_alloc]. intros i. destruct (decide (i < length (b_ctrs kb))%nat) as [Hi|Hi].
        -- apply (groups_zero b (length (b_ctrs kb))); [lia|done].
        -- eapply nusers_arr_bound; [done|done|lia].
    + rewrite (in_mem_bind _ _ _ () (upd_ctr (c_start b) 1 (upd_ctr (c_start b) (b_ctr kb - 1) (ds_mem s)))).
      * rewrite (upd_start_same _ _ kb) by done. by destruct s.
      * eapply ctr_set_run. cbn. rewrite lookup_alter_eq, Hkb. done.
  - pose proof (release_hold _ _ _ _ _ Hinv Hkb ltac:(lia)) as Hinv1.
    set (s1 := Dst (upd_ctr (c_start b) (b_ctr kb - 1) (ds_mem s)) (ds_dec s)) in *.
    destruct (new_buffer_run s1) as (a & Ha0 & Hab & Hrun). rewrite (bind_run _ _ _ _ _ Hrun), dset_bind.
    destruct (with_buf_fresh a (ds_mem s1) (ds_dec s) live) as [Hd1 Hsame]; try done; try apply Hd.
    eexists _, (calls (ds_mem s1)), (new_buf a). split; [done|]. split; [done|].
    eapply same_data_trans; [|done]. intros m Hm. apply msg_bytes_le; [apply upd_ctr_le|by eapply inv_wf].
Qed.

(** ** Reading from the socket *)

Lemma dec_at_same s s' p :
  dec_at s p → d_next (ds_dec s') = d_next (ds_dec s) → d_read_pos (ds_dec s') = d_read_pos (ds_dec s) →
  d_to_read (ds_dec s') = d_to_read (ds_dec s) → d_tmpbuf (ds_dec s') = d_tmpbuf (ds_dec s) →
  d_msg_flags (ds_dec s') = d_msg_flags (ds_dec s) → d_in_progress (ds_dec s') = d_in_progress (ds_dec s) →
  msg_bytes (ds_mem s') (d_in_progress (ds_dec s)) = msg_bytes (ds_mem s) (d_in_progress (ds_dec s)) → dec_at s' p.
Proof. intros Hat E1 E2 E3 E4 E5 E6 E7. destruct p; cbn in *; unfold body_at in *; by rewrite ?E1, ?E2, ?E3, ?E4, ?E5, ?E6, ?E7. Qed.

(** Data that are read into a buffer no message uses. *)
Lemma same_data_buffer mm ms held b kb f :
  msgs_inv mm ms held → blocks mm !! b = Some kb → b_content kb = None →
  (∀ i, nusers (c_arr b i) ms = 0%nat) → same_data mm (set_bytes b f mm) ms.
Proof.
  intros Hinv Hkb Hc Hn m Hm. destruct (inv_wf _ _ _ Hinv m Hm) as [_ Hwf]. unfold msg_bytes.
  destruct (body m) as [|[c|]| | |d sz ffn hint c|] eqn:Hb; try done.
  - rewrite set_bytes_lookup. case_decide as E; [|done]. destruct Hwf as (k & ct & ? & ? & _). simplify_eq.
  - destruct Hwf as (b' & i & off & k & -> & _ & _ & -> & _). unfold slice. rewrite set_bytes_lookup.
    case_decide as E; [|done]. subst b'. assert (0 < nusers (c_arr b i) ms)%nat; [|rewrite Hn in *; lia].
    apply nusers_pos. exists m. split; [done|]. unfold key. by rewrite Hb.
Qed.

Lemma resize_run s b bufsz rc n :
  d_alloc (ds_dec s) = shared (Some b) bufsz bs rc (max_counters bs) →
  resize_buffer n s = Ok ((), Dst (ds_mem s) (set_alloc (shared (Some b) n bs rc (max_counters bs)) (ds_dec s))).
Proof. intros Ha. unfold resize_buffer. by rewrite dget_bind, Ha. Qed.

Lemma read_buffer s live b kb p xs :
  dec_inv s live b kb bs 0 0 → dec_at s p → Z.of_nat (length xs) ≤ bs →
  ∃ s' kb', (r_store (r_heap (pat b 0)) (Some <$> xs);; resize_buffer (Z.of_nat (length xs))) s = Ok ((), s') ∧
    dec_inv s' live b kb' (Z.of_nat (length xs)) 0 0 ∧ dec_at s' p ∧ input kb' (Z.of_nat (length xs)) 0 xs ∧
    same_data (ds_mem s) (ds_mem s') live.
Proof.
  intros Hd Hat Hl. set (f := overwrite_in 0 (Some <$> xs)).
  assert (same_data (ds_mem s) (set_bytes b f (ds_mem s)) (d_in_progress (ds_dec s) :: live)) as Hsame.
  { eapply same_data_buffer; [apply Hd..|]. intros i. apply (di_free _ _ _ _ _ _ _ _ Hd). lia. }
  pose proof (di_bytes _ _ _ _ _ _ _ _ Hd) as Hbl. pose proof (di_block _ _ _ _ _ _ _ _ Hd) as Hkb.
  set (s1 := Dst (set_bytes b f (ds_mem s)) (ds_dec s)).
  exists (Dst (ds_mem s1) (set_alloc (shared (Some b) (Z.of_nat (length xs)) bs 0 (max_counters bs)) (ds_dec s))),
    (put_bytes (f (b_bytes kb)) kb). split_and!.
  - rewrite (bind_run _ _ s () s1).
    + apply (resize_run s1 b bs 0). apply (di_alloc _ _ _ _ _ _ _ _ Hd).
    + cbn [r_store]. apply in_mem_run. apply (store_run _ _ kb 0); [done|]. rewrite length_fmap. lia.
  - destruct Hd. split; cbn [ds_mem ds_dec set_alloc d_alloc d_in_progress d_tmpbuf d_maxmsgsize s1]; try done.
    + rewrite set_bytes_lookup, decide_True, Hkb by done. done.
    + cbn. unfold f. by rewrite overwrite_in_length.
    + lia.
    + apply msgs_inv_set_bytes; [|done]. apply overwrite_in_length.
  - eapply dec_at_same; try done. apply Hsame. left.
  - split_and!; [|lia|done]. cbn. rewrite drop_0, Z.sub_0_r, Nat2Z.id. unfold f, overwrite_in.
    rewrite length_fmap, decide_True by lia. unfold overwrite. rewrite take_0, app_nil_l.
    rewrite take_app_length' by (by rewrite length_fmap). done.
  - intros m Hm. apply Hsame. by right.
Qed.

Lemma r_store_keeps p xs s s' :
  r_store p xs s = Ok ((), s') →
  d_next (ds_dec s') = d_next (ds_dec s) ∧ d_read_pos (ds_dec s') = d_read_pos (ds_dec s) ∧
  d_to_read (ds_dec s') = d_to_read (ds_dec s) ∧ d_alloc (ds_dec s') = d_alloc (ds_dec s).
Proof.
  destruct p; cbn [r_store].
  - rewrite dget_bind. case_match; [|done]. intros [= <-]. done.
  - rewrite dget_bind. repeat case_match; try done. intros [= <-]. done.
  - unfold in_mem, zoom. repeat case_match; try done. intros. by simplify_eq.
Qed.

Lemma actions_direct s live b kb f n got xs pos :
  dec_idle s live b kb → dec_part s (p_body f n got) xs → xs ≠ [] →
  ∃ s' r, run_actions malloc 4 pos s = Ok (r, s') ∧ dec_idle s' live b kb ∧ ds_mem s' = ds_mem s ∧
    decoded s' live (p_body f n got) xs (length xs) r.
Proof.
  intros Hd (Hnx & Htr & Hle & Hbody) Hne. rewrite length_app in *.
  assert (0 < length xs)%nat by (destruct xs; [done|cbn; lia]).
  unfold decoded. rewrite take_ge by done. destruct (decide (Z.of_nat (length got + length xs) = n)) as [E|E].
  - rewrite feeds_body_full by done.
    exists (Dst (ds_mem s) (set_next_step (r_tmp 0) 1 d2_flags_ready (ds_dec s))), rc_done. split_and!; try done.
    + cbn. rewrite dget_bind. destruct (Z.eqb_spec (d_to_read (ds_dec s)) 0); [|lia].
      unfold run_dnext, mbind at 1, M_bind at 1. rewrite dget_bind, Hnx. done.
    + destruct Hd. by split.
    + right. exists (WMsg f (got ++ xs)). split_and!; try done.
      destruct Hbody as (Hfl & _ & bytes & Hbb & Hlen & Htk & _). split; [done|]. cbn.
      rewrite Hbb, <-Htk. f_equal. rewrite take_ge; [done|]. rewrite length_app. lia.
  - rewrite feeds_body by lia. exists s, rc_more. rewrite run_actions_more by lia. split_and!; try done; [|by left].
    cbn. rewrite length_app. split_and!; try done; lia.
Qed.

(** A large message is read where it belongs. *)
Lemma read_direct s live b kb f n got xs :
  dec_inv s live b kb bs 0 0 → dec_at s (p_body f n got) → Forall is_byte xs → xs ≠ [] →
  Z.of_nat (length xs) ≤ d_to_read (ds_dec s) →
  ∃ s1 s2 r, (r_store (d_read_pos (ds_dec s)) (Some <$> xs);; resize_buffer (Z.of_nat (length xs))) s = Ok ((), s1) ∧
    decode malloc (d_read_pos (ds_dec s)) (Z.of_nat (length xs)) s1 = Ok ((r, Z.of_nat (length xs)), s2) ∧
    dec_idle s2 live b kb ∧ same_data (ds_mem s) (ds_mem s1) live ∧ ds_mem s2 = ds_mem s1 ∧
    decoded s2 live (p_body f n got) xs (length xs) r.
Proof.
  intros Hd Hat Hb Hne Hl. destruct (stage_store bs s live b kb bs 0 0 _ xs Hd Hat Hb Hne Hl) as (s' & Hr & Hd' & Hsame & Hpart).
  destruct (r_store (d_read_pos (ds_dec s)) (Some <$> xs) s) as [[[] s0]|] eqn:Hst;
    [|unfold mbind, M_bind in Hr; by rewrite Hst in Hr].
  rewrite (bind_run _ _ s _ _ Hst) in Hr. rewrite (bind_run _ _ s _ _ Hst). destruct (r_store_keeps _ _ _ _ Hst) as (Ek1 & Ek2 & Ek3 & Ek4).
  set (A := shared (Some b) (Z.of_nat (length xs)) bs 0 (max_counters bs)).
  injection Hr as Hs'. set (s1 := Dst (ds_mem s0) (set_alloc A (ds_dec s0))).
  set (s2 := Dst (ds_mem s') (set_alloc A (ds_dec s'))).
  assert (advance_read (Z.of_nat (length xs)) s1 = Ok ((), s2)) as Hadv by (unfold s2; by rewrite <-Hs').
  assert (dec_idle s2 live b kb) as Hidle by (destruct Hd'; split; try done; by eexists _, _).
  destruct (actions_direct s2 live b kb f n got xs (r_add (d_read_pos (ds_dec s)) (Z.of_nat (length xs))) Hidle Hpart Hne)
    as (s3 & r & Hr3 & Hi3 & Hm3 & Hdec).
  exists s1, s3, r. split_and!; try done.
  - apply (resize_run s0 b bs 0). rewrite Ek4. apply (di_alloc _ _ _ _ _ _ _ _ Hd).
  - unfold decode. rewrite dget_bind. cbn [s1 ds_dec set_alloc d_read_pos]. rewrite decide_True by done.
    rewrite dget_bind. rewrite (in_mem_bind _ _ s1 () (ds_mem s1)).
    2: { cbn [s1 ds_dec set_alloc d_to_read]. rewrite Ek3. by destruct (Z.leb_spec (Z.of_nat (length xs)) (d_to_read (ds_dec s))); [|lia]. }
    rewrite (bind_run _ _ _ _ _ Hadv). by rewrite (bind_run _ _ _ _ _ Hr3).
  - by rewrite <-Hs' in Hsame.
  - rewrite Hm3. cbn. by rewrite <-Hs'.
Qed.

(** ** The engine *)

Definition emem (e : in_engine) : mem := ds_mem (ie_st e).
Definition current (e : in_engine) : msg_t := d_in_progress (ds_dec (ie_st e)).

Definition vals (mm : mem) : list msg_t → list wmsg → Prop := Forall2 (delivered_msg mm).

Lemma vals_same mm mm' ms ws : same_data mm mm' ms → vals mm ms ws → vals mm' ms ws.
Proof.
  intros Hs Hv. induction Hv as [|m w ms ws [H1 H2] Hv IH]; constructor.
  - split; [done|]. rewrite Hs; [done|left].
  - apply IH. intros m' Hm'. apply Hs. by right.
Qed.

(** The engine has the bytes [rest] of what it read. *)
Definition reading (e : in_engine) (live : list msg_t) (rest : list Z) : Prop :=
  ie_insize e = Z.of_nat (length rest) ∧
  ((rest = [] ∧ ∃ b kb, dec_idle (ie_st e) live b kb) ∨
   (∃ b kb bufsz pos rc, dec_inv (ie_st e) live b kb bufsz pos rc ∧ input kb bufsz pos rest ∧
      ie_inpos e = r_heap (pat b pos))).

(** The values of the messages that were taken and of the one that has to wait. *)
Definition waiting (e : in_engine) (p : pstate) (pend : list wmsg) : Prop :=
  if ie_stopped e then p = p_flags ∧ ∃ w, pend = [w] ∧ delivered_msg (emem e) (current e) w else pend = [].

Definition taken (e : in_engine) : in_engine :=
  InEngine (Dst (emem e) (set_dmsg init (ds_dec (ie_st e)))) (ie_inpos e) (ie_insize e) (ie_stream e)
    (ie_delivered e ++ [current e]) (ie_stopped e).

Lemma take_inv mm m live held :
  msgs_inv mm (m :: live) held → Z.of_nat (length live + 2 + length held) < 2 ^ 31 →
  msgs_inv mm (init :: live ++ [m]) held.
Proof.
  intros Hinv Hroom. assert (init :: live ++ [m] ≡ₚ init :: m :: live) as Hp by (constructor; symmetry; apply Permutation_cons_append).
  rewrite Hp. apply add_nokey; try done. cbn. lia.
Qed.

Lemma take_reading e live rest :
  reading e live rest → Z.of_nat (length live + 3) < 2 ^ 31 → reading (taken e) (live ++ [current e]) rest.
Proof.
  intros [Hi Hc] Hroom. split; [done|]. destruct Hc as [(-> & b & kb & Hd)|(b & kb & bufsz & pos & rc & Hd & Hin & Hip)].
  - left. split; [done|]. exists b, kb. destruct Hd. split; try done. apply take_inv; [done|]. cbn. lia.
  - right. exists b, kb, bufsz, pos, rc. split_and!; try done. destruct Hd. split; try done.
    + intros i Hi'. rewrite <-(di_free i Hi'). cbn [taken ie_st ds_dec set_dmsg d_in_progress].
      rewrite nusers_nokey by done. apply nusers_perm. symmetry. apply Permutation_cons_append.
    + apply take_inv; [done|]. cbn. lia.
Qed.

Lemma take_flags e : dec_at (ie_st e) p_flags → dec_at (ie_st (taken e)) p_flags.
Proof. done. Qed.

Lemma push_msg_run room e : push_msg (S room) e = Some (room, taken e).
Proof. done. Qed.

(** The engine when [k] bytes were used. *)
Definition used (e : in_engine) (st : dst) (k : nat) : in_engine :=
  InEngine st (r_add (ie_inpos e) (Z.of_nat k)) (ie_insize e - Z.of_nat k) (ie_stream e) (ie_delivered e) (ie_stopped e).

Lemma decode_step e live p rest :
  reading e live rest → rest ≠ [] → dec_at (ie_st e) p → Forall is_byte rest → sizes_ok lim p rest →
  Z.of_nat (length live + 2) < 2 ^ 31 →
  ∃ st r k, decode malloc (ie_inpos e) (ie_insize e) (ie_st e) = Ok ((r, Z.of_nat k), st) ∧ (k ≤ length rest)%nat ∧
    reading (used e st k) live (drop k rest) ∧ same_data (emem e) (ds_mem st) live ∧ decoded st live p rest k r.
Proof.
  intros [Hi [[-> _]|(b & kb & bufsz & pos & rc & Hd & Hin & Hip)]] Hne Hat Hb Hsz Hroom; [done|].
  pose proof Hin as (_ & Hl & Hp). rewrite <-(Z.add_0_r pos) in Hd, Hin.
  destruct (decode_loop_spec malloc lim bs Hmalloc ltac:(lia) Hlim Hlim63 (S (length rest)) (ie_st e) live b kb bufsz pos 0 rc p rest)
    as (st & kb' & rc' & r & k & Hr & Hk & Hd' & Hsame & Hby & Hdec); try done; [lia|].
  exists st, r, k. split_and!; try done.
  - unfold decode. rewrite dget_bind, Hip, Hi, Nat2Z.id. rewrite decide_False.
    + by rewrite Hl.
    + intros E. rewrite Z.add_0_r in Hd. by apply (read_pos_elsewhere bs _ _ _ _ _ _ _ _ Hd Hat).
  - split; [cbn; rewrite length_drop, Hi; lia|]. right. exists b, kb', bufsz, (pos + Z.of_nat k), rc'.
    rewrite Z.add_0_r in Hd', Hin. split_and!; [done| |cbn; by rewrite Hip].
    eapply input_same; [done|]. by apply input_drop.
Qed.

(** The engine [e'] has gone on from [e], with the parser at [p], by the bytes [c]:
    the messages they complete were taken, but for the last when the engine is
    stopped. *)
Record went_on (e e' : in_engine) (app : list msg_t) (p : pstate) (c rest : list Z) : Prop := {
  wo_more : ∃ ms ws pend, ie_delivered e' = ie_delivered e ++ ms ∧ vals (emem e') ms ws ∧
    (feeds p c).2 = ws ++ pend ∧ waiting e' (feeds p c).1 pend;
  wo_reading : reading e' (app ++ ie_delivered e') rest;
  wo_at : dec_at (ie_st e') (feeds p c).1;
  wo_same : same_data (emem e) (emem e') (app ++ ie_delivered e);
  wo_rest : if ie_stopped e' then c ≠ [] else rest = []
}.

Definition processed (fuel room : nat) (e : in_engine) (app : list msg_t) (p : pstate) (rest : list Z) : Prop :=
  ∃ e' c rest', process_input malloc fuel room e = Ok (in_go e') ∧ rest = c ++ rest' ∧
    ie_stream e' = ie_stream e ∧ went_on e e' app p c rest'.

(** Enough room for the messages in [rest]. *)
Definition roomy (e : in_engine) (app : list msg_t) (p : pstate) (rest : list Z) : Prop :=
  Z.of_nat (length app + length (ie_delivered e) + length (feeds p rest).2 + 3) < 2 ^ 31.

Definition processable (fuel room : nat) (e : in_engine) (app : list msg_t) (p : pstate) (rest : list Z) : Prop :=
  reading e (app ++ ie_delivered e) rest → dec_at (ie_st e) p → Forall is_byte rest → sizes_ok lim p rest →
  (length rest < fuel)%nat → roomy e app p rest → processed fuel room e app p rest.

Lemma waiting_false e p : ie_stopped e = false → waiting e p [].
Proof. intros E. unfold waiting. by rewrite E. Qed.

Lemma stay_put e app p : reading e (app ++ ie_delivered e) [] → dec_at (ie_st e) p →
  went_on e (set_stopped false e) app p [] [].
Proof.
  intros Hrd Hat. split; try done. exists [], [], []. rewrite app_nil_r. split_and!; try done. constructor.
Qed.

(** The first message of [rest] was taken. *)
Lemma went_on_taken e st k app p rest c rest' e' w :
  feeds p (take k rest) = (p_flags, [w]) → delivered_msg (ds_mem st) (d_in_progress (ds_dec st)) w →
  same_data (emem e) (ds_mem st) (app ++ ie_delivered e) →
  drop k rest = c ++ rest' → went_on (taken (used e st k)) e' app p_flags c rest' →
  went_on e e' app p (take k rest ++ c) rest'.
Proof.
  intros Hf Hdel Hsame Hc [(ms & ws & pend & Hdl & Hv & Hf2 & Hw) Hrd Hat Hs Hst].
  assert (feeds p (take k rest ++ c) = ((feeds p_flags c).1, w :: (feeds p_flags c).2)) as Hfc by (by rewrite feeds_app, Hf).
  cbn [taken used ie_delivered emem ie_st ds_mem] in *. split; rewrite ?Hfc; try done.
  - exists (current (used e st k) :: ms), (w :: ws), pend. rewrite Hdl, <-(assoc_L (++)). split_and!; [done| |by rewrite Hf2|done].
    constructor; [|done]. destruct Hdel as [Hd1 Hd2]. split; [done|]. rewrite Hs; [done|].
    apply elem_of_app. right. apply elem_of_app. right. by left.
  - eapply same_data_trans; [done|]. intros m Hm. apply Hs. rewrite (assoc_L (++)). apply elem_of_app. by left.
  - destruct (ie_stopped e'); [|done]. by destruct (take k rest).
Qed.

(** A turn of the loop in which [decode] takes [k] bytes. *)
Lemma process_turn fuel room e app p rest st r k :
  ie_insize e = Z.of_nat (length rest) → rest ≠ [] →
  decode malloc (ie_inpos e) (ie_insize e) (ie_st e) = Ok ((r, Z.of_nat k), st) → (k ≤ length rest)%nat →
  reading (used e st k) (app ++ ie_delivered e) (drop k rest) →
  same_data (emem e) (ds_mem st) (app ++ ie_delivered e) → decoded st (app ++ ie_delivered e) p rest k r →
  Forall is_byte rest → sizes_ok lim p rest → (length rest < S fuel)%nat → roomy e app p rest →
  (∀ room e p rest, processable fuel room e app p rest) → processed (S fuel) room e app p rest.
Proof.
  intros Hi Hne Hr Hk Hrd' Hsame [Hat' Hdec] Hb Hsz Hfuel Hroom IH. unfold processed. cbn [process_input].
  assert (0 < length rest)%nat by (destruct rest; [done|cbn; lia]).
  destruct (Z.ltb_spec 0 (ie_insize e)); [|lia]. rewrite Hr.
  destruct (Z.ltb_spec (ie_insize e) (Z.of_nat k)); [lia|]. change (InEngine st _ _ _ _ _) with (used e st k).
  destruct Hdec as [(-> & -> & Hn)|(w & -> & Hk0 & Hf & Hdel)].
  { exists (set_stopped false (used e st (length rest))), rest, []. rewrite app_nil_r, drop_all, take_ge in * by done.
    split_and!; try done. split; try done. exists [], [], []. rewrite app_nil_r. split_and!; try done. constructor. }
  destruct room as [|room].
  { exists (set_stopped true (used e st k)), (take k rest), (drop k rest). rewrite take_drop. split_and!; try done.
    split; try done.
    - exists [], [], [w]. rewrite app_nil_r, Hf. split_and!; try done; [constructor|]. split; [done|]. by exists w.
    - cbn. destruct rest, k; cbn in *; try lia; done. }
  rewrite push_msg_run. assert (length (feeds p rest).2 = S (length (feeds p_flags (drop k rest)).2)) as Hlen.
  { rewrite <-(take_drop k rest) at 1. by rewrite feeds_app, Hf. }
  unfold roomy in Hroom. apply take_reading in Hrd'; [|rewrite length_app; lia].
  destruct (IH room (taken (used e st k)) p_flags (drop k rest)) as (e' & c & rest' & Hr' & Hc & Hstr & Hwo).
  - cbn [taken used ie_delivered]. by rewrite (assoc_L (++)).
  - rewrite Hf in Hat'. done.
  - by apply Forall_drop.
  - pose proof (sizes_ok_drop lim p rest k Hk Hsz) as H'. by rewrite Hf in H'.
  - rewrite length_drop. lia.
  - unfold roomy. cbn. rewrite length_app. cbn. lia.
  - exists e', (take k rest ++ c), rest'. rewrite <-(assoc_L (++)), <-Hc, take_drop. split_and!; try done.
    by eapply went_on_taken.
Qed.

Lemma process_input_spec fuel room e app p rest : processable fuel room e app p rest.
Proof.
  revert room e p rest. induction fuel as [|fuel IH]; intros room e p rest Hrd Hat Hb Hsz Hfuel Hroom; [lia|].
  destruct (decide (rest = [])) as [->|Hne].
  { exists (set_stopped false e), [], []. cbn [process_input]. rewrite (proj1 Hrd). split_and!; try done. by apply stay_put. }
  destruct (decode_step e (app ++ ie_delivered e) p rest) as (st & r & k & Hr & Hk & Hrd' & Hsame & Hdec); try done.
  { unfold roomy in Hroom. rewrite length_app. lia. }
  eapply process_turn; try done. apply Hrd.
Qed.

Lemma get_buffer_spec s live b kb p :
  dec_idle s live b kb → dec_at s p → Z.of_nat (length live + 2) < 2 ^ 31 →
  ∃ s' b' kb', get_buffer malloc s =
      Ok ((if d_to_read (ds_dec s) >=? bs then (d_read_pos (ds_dec s'), d_to_read (ds_dec s')) else (r_heap (pat b' 0), bs)), s') ∧
    d_to_read (ds_dec s') = d_to_read (ds_dec s) ∧
    dec_inv s' live b' kb' bs 0 0 ∧ dec_at s' p ∧ same_data (ds_mem s) (ds_mem s') live.
Proof.
  intros Hd Hat Hroom. destruct (allocate_spec s live b kb Hd Hroom) as (mm' & b' & kb' & Hr & Hd' & Hsame).
  exists (Dst mm' (set_alloc (fresh_alloc b') (ds_dec s))), b', kb'. split_and!; [|done|exact Hd'|eapply dec_at_same; try done; apply Hsame; left|].
  - unfold get_buffer. rewrite (bind_run _ _ s _ _ Hr), !dget_bind. cbn [ds_dec set_alloc d_alloc fresh_alloc alloc_size d_to_read].
    by case_match.
  - intros m Hm. apply Hsame. by right.
Qed.

Lemma sizes_ok_take p xs n : sizes_ok lim p xs → sizes_ok lim p (take n xs).
Proof using Type.
  clear Hmalloc Hbs Hlim Hlim63. intros H k f m got E. rewrite take_take in E. by eapply H. Qed.

Lemma feeds_take_length p xs n : (length (feeds p (take n xs)).2 ≤ length (feeds p xs).2)%nat.
Proof using Type.
  clear Hmalloc Hbs Hlim Hlim63. rewrite <-(take_drop n xs) at 2. rewrite feeds_app. cbn. rewrite length_app. lia. Qed.

Lemma to_read_large s p : dec_at s p → bs ≤ d_to_read (ds_dec s) → ∃ f n got, p = p_body f n got.
Proof.
  destruct p as [|f|f got|f n got]; cbn [dec_at]; [..|by eauto].
  - intros (_ & _ & ?) ?. lia.
  - intros (_ & _ & ? & _) ?. lia.
  - intros (_ & _ & ? & ? & _) ?. lia.
Qed.

(** What was read, wherever it was put, is processed. *)
Lemma read_process room e s b kb app p n :
  dec_inv s (app ++ ie_delivered e) b kb bs 0 0 → dec_at s p →
  Forall is_byte (take n (ie_stream e)) → sizes_ok lim p (take n (ie_stream e)) → roomy e app p (take n (ie_stream e)) →
  (0 < n ≤ length (ie_stream e))%nat →
  let '(inpos, bufsize) := if d_to_read (ds_dec s) >=? bs then (d_read_pos (ds_dec s), d_to_read (ds_dec s)) else (r_heap (pat b 0), bs) in
  Z.of_nat n ≤ bufsize →
  ∃ s1, (r_store inpos (Some <$> take n (ie_stream e));; resize_buffer (Z.of_nat n)) s = Ok ((), s1) ∧
    let e1 := InEngine s1 inpos (Z.of_nat n) (drop n (ie_stream e)) (ie_delivered e) (ie_stopped e) in
    ∃ e' c rest', process_input malloc (S n) room e1 = Ok (in_go e') ∧ take n (ie_stream e) = c ++ rest' ∧
      ie_stream e' = drop n (ie_stream e) ∧
      went_on (InEngine s inpos (Z.of_nat n) (ie_stream e) (ie_delivered e) (ie_stopped e)) e' app p c rest'.
Proof.
  intros Hd Hat Hb Hsz Hroom Hn. set (xs := take n (ie_stream e)) in *.
  assert (length xs = n) as Hl by (unfold xs; rewrite length_take; lia).
  assert (xs ≠ []) as Hne by (intros E; rewrite E in Hl; cbn in Hl; lia).
  assert (∀ e1 e2 e' c rest', ie_delivered e1 = ie_delivered e2 → same_data (emem e2) (emem e1) (app ++ ie_delivered e2) →
    went_on e1 e' app p c rest' → went_on e2 e' app p c rest') as Hwo.
  { intros e1 e2 e' c rest' Ed Hs []. split; try done; [by rewrite <-Ed|]. eapply same_data_trans; [done|]. by rewrite <-Ed. }
  destruct (d_to_read (ds_dec s) >=? bs) eqn:Hge; intros Hnb; rewrite <-Hl in Hnb |- *.
  - rewrite Z.geb_leb in Hge. apply Z.leb_le in Hge. destruct (to_read_large s p Hat Hge) as (f & m & got & ->).
    destruct (read_direct s _ b kb f m got xs Hd Hat Hb Hne Hnb) as (s1 & s2 & r & Hr1 & Hr2 & Hi2 & Hs1 & Hm2 & Hdec).
    exists s1. split; [done|]. cbn zeta.
    destruct (process_turn (length xs) room (InEngine s1 (d_read_pos (ds_dec s)) (Z.of_nat (length xs)) (drop n (ie_stream e)) (ie_delivered e) (ie_stopped e))
      app (p_body f m got) xs s2 r (length xs)) as (e' & c & rest' & ? & ? & ? & Hw); try done.
    + split; [cbn; rewrite drop_all; cbn; lia|]. left. rewrite drop_all. split; [done|]. by exists b, kb.
    + unfold emem. cbn. rewrite Hm2. by intros ? _.
    + lia.
    + intros. apply process_input_spec.
    + exists e', c, rest'. rewrite Hl in *. split_and!; try done. eapply Hwo; [..|exact Hw]; done.
  - destruct (read_buffer s _ b kb p xs Hd Hat Hnb) as (s1 & kb1 & Hr1 & Hd1 & Hat1 & Hin1 & Hs1).
    exists s1. split; [done|]. cbn zeta.
    destruct (process_input_spec (S (length xs)) room (InEngine s1 (r_heap (pat b 0)) (Z.of_nat (length xs)) (drop n (ie_stream e)) (ie_delivered e) (ie_stopped e))
      app p xs) as (e' & c & rest' & ? & ? & ? & Hw); try done.
    + split; [done|]. right. by eexists b, kb1, _, _, _.
    + lia.
    + exists e', c, rest'. rewrite Hl in *. split_and!; try done. eapply Hwo; [..|exact Hw]; done.
Qed.

Lemma went_on_progress e e' app p c rest : went_on e e' app p c rest → c ++ rest ≠ [] → c ≠ [].
Proof. intros [_ _ _ _ H] Hne ->. destruct (ie_stopped e'); [done|]. by subst rest. Qed.

Lemma in_event_spec limit room e app p :
  ie_stopped e = false → reading e (app ++ ie_delivered e) [] → dec_at (ie_st e) p →
  Forall is_byte (ie_stream e) → sizes_ok lim p (ie_stream e) → roomy e app p (ie_stream e) →
  ∃ e' c rest', in_event malloc limit room e = Ok (in_go e') ∧ ie_stream e = c ++ rest' ++ ie_stream e' ∧
    went_on e e' app p c rest' ∧ (0 < limit → ie_stream e ≠ [] → c ≠ []).
Proof.
  intros Hst [Hi Hc] Hat Hb Hsz Hroom. unfold in_event. rewrite Hst, Hi. cbn [length]. change (Z.of_nat 0 =? 0) with true. cbv iota.
  assert (∃ b kb, dec_idle (ie_st e) (app ++ ie_delivered e) b kb) as (b & kb & Hd).
  { destruct Hc as [[_ ?]|(b & kb & ? & ? & ? & Hd & _)]; [done|]. exists b, kb. by eapply dec_inv_idle. }
  destruct (get_buffer_spec (ie_st e) _ b kb p Hd Hat) as (s & b' & kb' & -> & Htr & Hd' & Hat' & Hs).
  { unfold roomy in Hroom. rewrite length_app. lia. }
  pose proof (read_process room e s b' kb' app p) as Hrp. rewrite Htr in Hrp.
  pose proof (dec_at_to_read _ _ Hat') as Htr0. rewrite Htr in *.
  destruct (if d_to_read (ds_dec (ie_st e)) >=? bs then _ else _) as [inpos bufsize] eqn:Eb.
  assert (0 < bufsize) as Hbuf by (case_match; simplify_eq; lia).
  set (n := Nat.min (Z.to_nat (Z.min limit bufsize)) (length (ie_stream e))) in *. case_decide as Hn.
  - eexists _, [], []. split; [done|]. split; [done|]. split.
    + split; try done.
      * exists [], [], []. rewrite app_nil_r. split_and!; try done. constructor.
      * split; [done|]. left. split; [done|]. exists b', kb'. by eapply dec_inv_idle.
    + intros. destruct (ie_stream e); [done|]. cbn in n. lia.
  - destruct (Hrp n) as (s1 & -> & e' & c & rest' & Hr & Hx & Hstr & Hw); try done.
    + by apply Forall_take.
    + by apply sizes_ok_take.
    + unfold roomy in *. pose proof (feeds_take_length p (ie_stream e) n). lia.
    + lia.
    + lia.
    + exists e', c, rest'. split_and!; [by rewrite <-Hr, Hst| | |].
      * rewrite (assoc_L (++)), <-Hx, Hstr. by rewrite take_drop.
      * destruct Hw. split; try done. eapply same_data_trans; [exact Hs|done].
      * intros _ _. eapply went_on_progress; [exact Hw|]. rewrite <-Hx. intros E%(f_equal length).
        rewrite length_take in E. cbn in E. lia.
Qed.

(** ** A stream [str] that holds messages *)

Context (str : list Z) (HSb : Forall is_byte str) (HSz : sizes_ok lim p_flags str).
Context (HSn : Z.of_nat (length (feeds p_flags str).2 + 3) < 2 ^ 31).

(** The engine has parsed a part of [str], with the messages [ws] in it. *)
Definition eng_mid (e : in_engine) (app : list msg_t) (ws : list wmsg) (p : pstate) (rest : list Z) : Prop :=
  ∃ c, str = c ++ rest ++ ie_stream e ∧ feeds p_flags c = (p, ws) ∧
    reading e (app ++ ie_delivered e) rest ∧ dec_at (ie_st e) p.

(** The messages [ws] were taken so far; one more waits when the engine is stopped. *)
Definition eng_inv (e : in_engine) (app : list msg_t) (ws : list wmsg) : Prop :=
  if ie_stopped e then
    ∃ w rest, eng_mid e app (ws ++ [w]) p_flags rest ∧ delivered_msg (emem e) (current e) w
  else ∃ p, eng_mid e app ws p [].

Lemma eng_mid_rest e app ws p rest :
  eng_mid e app ws p rest →
  Forall is_byte (rest ++ ie_stream e) ∧ sizes_ok lim p (rest ++ ie_stream e) ∧
  (feeds p_flags str).2 = ws ++ (feeds p (rest ++ ie_stream e)).2.
Proof.
  intros (c & HS & Hf & _). split_and!.
  - rewrite HS in HSb. by apply Forall_app in HSb as [_ ?].
  - intros k f n got E. apply (HSz (length c + k)%nat f n got). rewrite HS, take_app_add, feeds_app, Hf. done.
  - rewrite HS at 1. by rewrite feeds_app, Hf.
Qed.

Lemma eng_step e e' app ws p rest c rest' :
  eng_mid e app ws p rest → went_on e e' app p c rest' → rest ++ ie_stream e = c ++ rest' ++ ie_stream e' →
  ∃ ms ws', ie_delivered e' = ie_delivered e ++ ms ∧ vals (emem e') ms ws' ∧ eng_inv e' app (ws ++ ws').
Proof.
  intros (c0 & HS & Hf & _ & _) [(ms & ws' & pend & Hdl & Hv & Hf' & Hw) Hrd Hat Hs Hst] Hc.
  exists ms, ws'. split_and!; try done. unfold eng_inv, waiting in *.
  assert (∀ x, x = ws' ++ pend → feeds p_flags (c0 ++ c) = ((feeds p c).1, ws ++ x)) as Hfc
    by (intros x ->; rewrite feeds_app, Hf; cbn [fst snd]; by rewrite Hf').
  assert (str = (c0 ++ c) ++ rest' ++ ie_stream e') as HS' by (by rewrite HS, Hc, (assoc_L (++))).
  destruct (ie_stopped e').
  - destruct Hw as (Hp & w & -> & Hdel). exists w, rest'. split; [|done]. exists (c0 ++ c).
    split_and!; try done; [|by rewrite <-Hp]. by rewrite <-(assoc_L (++)), (Hfc _ eq_refl), Hp.
  - subst. rewrite app_nil_r in Hfc. exists (feeds p c).1, (c0 ++ c). split_and!; try done. by apply Hfc.
Qed.

Lemma roomy_prefix e app ws p rest k :
  eng_mid e app ws p rest → (length app + length (ie_delivered e) ≤ length ws)%nat →
  roomy e app p (take k (rest ++ ie_stream e)).
Proof.
  intros Hm Hl. destruct (eng_mid_rest _ _ _ _ _ Hm) as (_ & _ & E).
  pose proof (feeds_take_length p (rest ++ ie_stream e) k). unfold roomy. rewrite E, length_app in HSn. lia.
Qed.

(** How far the engine has to go. *)
Definition to_go (e : in_engine) : nat :=
  (2 * length (ie_stream e) + Z.to_nat (ie_insize e) + (if ie_stopped e then 1 else 0))%nat.

Lemma in_event_step limit room e app ws :
  ie_stopped e = false → eng_inv e app ws → (length app + length (ie_delivered e) ≤ length ws)%nat →
  ∃ e' ms ws', in_event malloc limit room e = Ok (in_go e') ∧ ie_delivered e' = ie_delivered e ++ ms ∧
    vals (emem e') ms ws' ∧ eng_inv e' app (ws ++ ws') ∧ same_data (emem e) (emem e') (app ++ ie_delivered e) ∧
    (to_go e' ≤ to_go e)%nat ∧ (0 < limit → ie_stream e ≠ [] → (to_go e' < to_go e)%nat).
Proof.
  intros Hst Hinv Hl. unfold eng_inv in Hinv. rewrite Hst in Hinv. destruct Hinv as [p Hm].
  destruct (eng_mid_rest _ _ _ _ _ Hm) as (Hb & Hsz & _). pose proof Hm as (c0 & HS & Hf & Hrd & Hat).
  pose proof (roomy_prefix _ _ _ _ _ (length (ie_stream e)) Hm Hl) as Hr. rewrite take_ge in Hr by done.
  destruct (in_event_spec limit room e app p Hst Hrd Hat Hb Hsz Hr) as (e' & c & rest' & Hrun & Hx & Hw & Hprog).
  destruct (eng_step e e' app ws p [] c rest' Hm Hw Hx) as (ms & ws' & Hdl & Hv & Hinv').
  exists e', ms, ws'. split_and!; try done; [apply Hw| |]; unfold to_go; rewrite Hx, !length_app.
  - destruct Hw as [_ [-> _] _ _ Hc]. destruct (ie_stopped e'); [destruct c; [done|cbn]; lia|]. subst. cbn. lia.
  - intros H1 H2. specialize (Hprog H1). rewrite <-Hx in *. specialize (Hprog H2).
    destruct Hw as [_ [-> _] _ _ Hc]. destruct c; [done|]. destruct (ie_stopped e'); cbn; [lia|]. subst. cbn. lia.
Qed.

Lemma eng_taken e app ws w rest :
  eng_mid e app (ws ++ [w]) p_flags rest → (length app + length (ie_delivered e) ≤ length ws)%nat →
  eng_mid (taken e) app (ws ++ [w]) p_flags rest.
Proof.
  intros Hm Hl. destruct (eng_mid_rest _ _ _ _ _ Hm) as (_ & _ & E). destruct Hm as (c & HS & Hf & Hrd & Hat).
  exists c. split_and!; try done. cbn [taken ie_delivered]. rewrite (assoc_L (++)). apply take_reading; [done|].
  rewrite E, !length_app in HSn. rewrite length_app. cbn in HSn. lia.
Qed.

Lemma restart_input_step limit room room' e app ws :
  ie_stopped e = true → eng_inv e app ws → (length app + length (ie_delivered e) ≤ length ws)%nat →
  ∃ e' ms ws', restart_input malloc limit room room' e = Ok (in_go e') ∧ ie_delivered e' = ie_delivered e ++ ms ∧
    vals (emem e') ms ws' ∧ eng_inv e' app (ws ++ ws') ∧ same_data (emem e) (emem e') (app ++ ie_delivered e) ∧
    (to_go e' ≤ to_go e)%nat ∧ ((0 < room)%nat → (to_go e' < to_go e)%nat).
Proof.
  intros Hst Hinv Hl. unfold restart_input. rewrite Hst. cbn [negb]. destruct room as [|room].
  { exists e, [], []. rewrite !app_nil_r. split_and!; try done; [constructor|lia]. }
  rewrite push_msg_run. unfold eng_inv in Hinv. rewrite Hst in Hinv. destruct Hinv as (w & rest & Hm & Hdel).
  pose proof (eng_taken _ _ _ _ _ Hm Hl) as Hm1. destruct (eng_mid_rest _ _ _ _ _ Hm1) as (Hb & Hsz & _).
  assert (length app + length (ie_delivered (taken e)) ≤ length (ws ++ [w]))%nat as Hl1
    by (cbn; rewrite !length_app; cbn; lia).
  pose proof (roomy_prefix _ _ _ _ _ (length rest) Hm1 Hl1) as Hr. rewrite take_app_length in Hr.
  pose proof Hm1 as (c0 & HS & Hf & Hrd & Hat). pose proof (proj1 Hrd) as Hi. rewrite Hi, Nat2Z.id.
  destruct (process_input_spec (S (length rest)) room (taken e) app p_flags rest) as (e1 & c & rest' & Hrun & Hx & Hstr & Hw); try done.
  { by apply Forall_app in Hb as [? _]. }
  { intros k f n got E. apply (Hsz (k `min` length rest)%nat f n got). rewrite <-E, take_app_le by lia. by rewrite <-take_take, firstn_all. }
  { lia. }
  destruct (eng_step (taken e) e1 app (ws ++ [w]) p_flags rest c rest' Hm1 Hw) as (ms & ws' & Hdl & Hv & Hinv1).
  { by rewrite Hx, Hstr, <-(assoc_L (++)). }
  assert (delivered_msg (emem e1) (current e) w) as Hdel1.
  { destruct Hdel as [Hd1 Hd2]. split; [done|]. rewrite <-Hd2. apply (wo_same _ _ _ _ _ _ Hw). cbn.
    apply elem_of_app. right. apply elem_of_app. right. by left. }
  assert (same_data (emem e) (emem e1) (app ++ ie_delivered e)) as Hs1.
  { intros m Hin. apply (wo_same _ _ _ _ _ _ Hw). cbn. rewrite (assoc_L (++)). apply elem_of_app. by left. }
  cbn [taken ie_delivered] in Hdl. rewrite <-(assoc_L (++)) in Hdl. rewrite <-(assoc_L (++)) in Hinv1.
  assert (to_go e1 < to_go e)%nat as Hgo.
  { unfold to_go. rewrite Hstr, Hst. cbn [taken ie_stream]. cbn in Hi. rewrite Hi, Nat2Z.id, Hx, length_app.
    destruct Hw as [_ [-> _] _ _ Hc]. rewrite Nat2Z.id. destruct (ie_stopped e1); [destruct c; [done|cbn]; lia|]. subst. cbn. lia. }
  rewrite Hrun. destruct (ie_stopped e1) eqn:Hst1.
  { exists e1, (current e :: ms), (w :: ws'). split_and!; try done; [by constructor|lia]. }
  destruct (in_event_step limit room' e1 app (ws ++ [w] ++ ws')) as (e2 & ms2 & ws2 & -> & Hdl2 & Hv2 & Hinv2 & Hs2 & Hle2 & _); try done.
  { apply Forall2_length in Hv. rewrite Hdl, !length_app. cbn. lia. }
  exists e2, ((current e :: ms) ++ ms2), ((w :: ws') ++ ws2). split_and!; try done.
  - rewrite Hdl2, Hdl. by rewrite <-(assoc_L (++)).
  - apply Forall2_app; [|done]. eapply vals_same; [|by constructor]. intros m Hin. apply Hs2. rewrite Hdl.
    apply elem_of_app. right. apply elem_of_app. by right.
  - by rewrite <-!(assoc_L (++)) in Hinv2.
  - eapply same_data_trans; [done|]. intros m Hin. apply Hs2. rewrite Hdl, (assoc_L (++)). apply elem_of_app. by left.
  - lia.
  - lia.
Qed.

(** ** The application *)

(** A message that was taken is closed. *)
Lemma close_live_mem mm m ip live live' b kb :
  live ≡ₚ m :: live' → msgs_inv mm (ip :: live) [b] → blocks mm !! b = Some kb →
  ∃ mm' m' kb', close m mm = Ok ((None, m'), mm') ∧ msgs_inv mm' (ip :: live') [b] ∧
    same_data mm mm' (ip :: live') ∧ blocks mm' !! b = Some kb' ∧ shape kb kb'.
Proof.
  intros Hp Hinv Hkb. assert (ip :: live ≡ₚ m :: ip :: live') as Hp' by (rewrite Hp; apply Permutation_swap).
  rewrite Hp' in Hinv. destruct (close_spec _ _ _ _ Hinv) as (mm' & m' & Hr & Hinv' & Hle).
  destruct (inv_held _ _ _ Hinv' b ltac:(left)) as (kb' & Hkb' & _).
  exists mm', m', kb'. split_and!; try done.
  - intros m1 Hm1. apply msg_bytes_le; [done|by eapply inv_wf].
  - destruct (proj2 Hle _ _ Hkb') as (k & Hk & Hsh). by simplify_eq.
Qed.

Definition with_mem (mm : mem) (e : in_engine) : in_engine :=
  InEngine (Dst mm (ds_dec (ie_st e))) (ie_inpos e) (ie_insize e) (ie_stream e) (ie_delivered e) (ie_stopped e).

Lemma shape_buffer kb kb' : shape kb kb' → b_content kb = None →
  b_content kb' = None ∧ b_bytes kb' = b_bytes kb ∧ length (b_ctrs kb') = length (b_ctrs kb) ∧ b_addr kb' = b_addr kb.
Proof. intros (? & ? & ? & Hc) Hn. rewrite Hn in Hc. by destruct (b_content kb'). Qed.

Lemma close_reading e m live live' rest :
  live ≡ₚ m :: live' → reading e live rest →
  ∃ mm' m', close m (emem e) = Ok ((None, m'), mm') ∧ reading (with_mem mm' e) live' rest ∧
    same_data (emem e) mm' (current e :: live').
Proof.
  intros Hp [Hi [(-> & b & kb & Hd)|(b & kb & bufsz & pos & rc & Hd & Hin & Hip)]].
  - destruct (close_live_mem _ _ _ _ _ b kb Hp (id_inv _ _ _ _ Hd) (id_block _ _ _ _ Hd)) as (mm' & m' & kb' & Hr & Hinv & Hs & Hkb & Hsh).
    exists mm', m'. split_and!; try done. split; [done|]. left. split; [done|]. exists b, kb'.
    destruct (shape_buffer _ _ Hsh (id_buffer _ _ _ _ Hd)) as (Hc & Hb & Hl & Ha).
    destruct Hd. split; cbn; rewrite ?Hb, ?Hl, ?Ha; done.
  - destruct (close_live_mem _ _ _ _ _ b kb Hp (di_inv _ _ _ _ _ _ _ _ Hd) (di_block _ _ _ _ _ _ _ _ Hd)) as (mm' & m' & kb' & Hr & Hinv & Hs & Hkb & Hsh).
    exists mm', m'. split_and!; try done. split; [done|]. right. exists b, kb', bufsz, pos, rc.
    destruct (shape_buffer _ _ Hsh (di_buffer _ _ _ _ _ _ _ _ Hd)) as (Hc & Hb & Hl & Ha).
    split_and!; [|by eapply input_same|done]. destruct Hd. split; cbn [with_mem ie_st ds_mem ds_dec]; rewrite ?Hb, ?Hl, ?Ha; try done.
    intros i Hi'. specialize (di_free i Hi'). rewrite Hp in di_free. rewrite !nusers_cons in *. lia.
Qed.

Lemma close_eng e m app app' ws :
  app ≡ₚ m :: app' → ie_delivered e = [] → eng_inv e app ws →
  ∃ mm' m', close m (emem e) = Ok ((None, m'), mm') ∧ eng_inv (with_mem mm' e) app' ws ∧ same_data (emem e) mm' app'.
Proof.
  intros Hp Hdl Hinv. unfold eng_inv, eng_mid in *. cbn [with_mem ie_stopped ie_delivered ie_stream]. rewrite Hdl, !app_nil_r in *.
  assert (∀ p mm', same_data (emem e) mm' (current e :: app') → dec_at (ie_st e) p → dec_at (ie_st (with_mem mm' e)) p) as Hat'.
  { intros p mm' Hs Hat. eapply dec_at_same; try done. apply Hs. left. }
  destruct (ie_stopped e).
  - destruct Hinv as (w & rest & (c & HS & Hf & Hrd & Hat) & Hd1 & Hd2).
    destruct (close_reading e m app app' rest Hp Hrd) as (mm' & m' & Hr & Hrd' & Hs). exists mm', m'. split_and!; [done| |].
    + exists w, rest. split; [exists c; split_and!; try done; by apply Hat'|]. split; [done|].
      cbn. rewrite <-Hd2. apply Hs. left.
    + intros m1 Hm1. apply Hs. by right.
  - destruct Hinv as (p & c & HS & Hf & Hrd & Hat).
    destruct (close_reading e m app app' [] Hp Hrd) as (mm' & m' & Hr & Hrd' & Hs). exists mm', m'. split_and!; [done| |].
    + exists p, c. split_and!; try done. by apply Hat'.
    + intros m1 Hm1. apply Hs. by right.
Qed.
End input.

(** ** Runs of the engine

    The poller and the session drive the engine: [restart_input] when it is stopped,
    [in_event] otherwise.  The messages it delivers get slots; the application reads
    the message in a slot and closes it, in any order. *)

Inductive rx_op := rx_poll (limit : Z) (room room' : nat) | rx_read (i : nat).

Record rx := Rx { rx_eng : in_engine; rx_slots : list (msg_t + wmsg) }.

Definition drained (e : in_engine) : in_engine :=
  InEngine (ie_st e) (ie_inpos e) (ie_insize e) (ie_stream e) [] (ie_stopped e).

Section runs.
Context (malloc : N → Z → option Z).

Definition poll (limit : Z) (room room' : nat) (e : in_engine) : result in_result :=
  if ie_stopped e then restart_input malloc limit room room' e else in_event malloc limit room e.

Definition read_msg (m : msg_t) : M mem wmsg :=
  bs ← contents m;
  match mapM id bs with
  | Some bs => '(rc, _) ← close m; mret (WMsg (flags m) bs)
  | None => undefined Uninitialised
  end.

Definition run_rx1 (op : rx_op) (s : rx) : result rx :=
  match op with
  | rx_poll limit room room' =>
      match poll limit room room' (rx_eng s) with
      | Ok (in_go e) => Ok (Rx (drained e) (rx_slots s ++ (inl <$> ie_delivered e)))
      | Ok (in_closed _ _) => Err (Fatal "the connection is closed")
      | Err e => Err e
      end
  | rx_read i =>
      match rx_slots s !! i with
      | Some (inl m) =>
          match read_msg m (emem (rx_eng s)) with
          | Ok (w, mm) => Ok (Rx (with_mem mm (rx_eng s)) (<[i := inr w]> (rx_slots s)))
          | Err e => Err e
          end
      | _ => Ok s
      end
  end.

Fixpoint run_rx (ops : list rx_op) (s : rx) : result rx :=
  match ops with
  | [] => Ok s
  | op :: ops => match run_rx1 op s with Ok s => run_rx ops s | Err e => Err e end
  end.

(** The engine when the version 2 decoder was made. *)
Definition rx_start (bs : Z) (str : list Z) : result rx :=
  match v2_decoder_t malloc bs (-1) no_memory with
  | Ok (d, mm) => Ok (Rx (InEngine (Dst mm d) (r_heap pnull) 0 str [] false) [])
  | Err e => Err e
  end.
End runs.

(** What is in a slot. *)
Definition slot_val (mm : mem) (x : msg_t + wmsg) (w : wmsg) : Prop :=
  match x with inl m => delivered_msg mm m w | inr w' => w' = w end.

Definition in_slots (xs : list (msg_t + wmsg)) : list msg_t :=
  omap (λ x, match x with inl m => Some m | inr _ => None end) xs.

Lemma in_slots_app xs ys : in_slots (xs ++ ys) = in_slots xs ++ in_slots ys.
Proof. apply omap_app. Qed.

Lemma in_slots_inl ms : in_slots (inl <$> ms) = ms.
Proof. induction ms as [|m ms IH]; [done|]. cbn. by f_equal. Qed.

Lemma in_slots_length xs : (length (in_slots xs) ≤ length xs)%nat.
Proof. unfold in_slots. induction xs as [|[] xs IH]; cbn; [done|lia..]. Qed.

Lemma in_slots_read xs i m w : xs !! i = Some (inl m) → in_slots xs ≡ₚ m :: in_slots (<[i := inr w]> xs).
Proof.
  revert i. induction xs as [|x xs IH]; intros [|i] H; cbn in H; [done|done|by simplify_eq|].
  cbn. destruct x as [m'|]; [|by apply IH]. rewrite (IH i H). apply Permutation_swap.
Qed.

Lemma slot_val_same mm mm' xs ws :
  same_data mm mm' (in_slots xs) → Forall2 (slot_val mm) xs ws → Forall2 (slot_val mm') xs ws.
Proof.
  intros Hs Hv. induction Hv as [|x w xs ws Hx Hv IH]; constructor.
  - destruct x as [m|]; [|done]. destruct Hx as [H1 H2]. split; [done|]. rewrite Hs; [done|]. cbn. left.
  - apply IH. intros m Hm. apply Hs. destruct x; cbn; [by right|done].
Qed.

Lemma slots_inl mm ms ws : vals mm ms ws → Forall2 (slot_val mm) (inl <$> ms) ws.
Proof. induction 1; by constructor. Qed.

Section runs_spec.
Context (malloc : N → Z → option Z) (lim bs : Z).
Context (Hmalloc : malloc_ok malloc lim) (Hbs : 8 < bs).
Context (Hlim : bs + sizeof_counter + Z.of_nat (max_counters bs) * sizeof_counter ≤ lim).
Context (Hlim63 : sizeof_content_t ≤ lim < 2 ^ 63).
Context (str : list Z) (HSb : Forall is_byte str) (HSz : sizes_ok lim p_flags str).
Context (HSn : Z.of_nat (length (feeds p_flags str).2 + 3) < 2 ^ 31).

Record rx_ok (s : rx) (ws : list wmsg) : Prop := {
  ro_inv : eng_inv bs str (rx_eng s) (in_slots (rx_slots s)) ws;
  ro_none : ie_delivered (rx_eng s) = [];
  ro_vals : Forall2 (slot_val (emem (rx_eng s))) (rx_slots s) ws
}.

Lemma poll_step limit room room' s ws :
  rx_ok s ws → ∃ s' ws', run_rx1 malloc (rx_poll limit room room') s = Ok s' ∧ rx_ok s' (ws ++ ws') ∧
    (to_go (rx_eng s') ≤ to_go (rx_eng s))%nat ∧
    (0 < limit → (0 < room)%nat → (0 < to_go (rx_eng s))%nat → (to_go (rx_eng s') < to_go (rx_eng s))%nat).
Proof.
  intros [Hinv Hnone Hv]. set (e := rx_eng s) in *.
  assert (length (in_slots (rx_slots s)) + length (ie_delivered e) ≤ length ws)%nat as Hl.
  { rewrite Hnone, <-(Forall2_length _ _ _ Hv). pose proof (in_slots_length (rx_slots s)). cbn. lia. }
  assert (∃ e' ms ws', poll malloc limit room room' e = Ok (in_go e') ∧ ie_delivered e' = ie_delivered e ++ ms ∧
    vals (emem e') ms ws' ∧ eng_inv bs str e' (in_slots (rx_slots s)) (ws ++ ws') ∧
    same_data (emem e) (emem e') (in_slots (rx_slots s) ++ ie_delivered e) ∧ (to_go e' ≤ to_go e)%nat ∧
    (0 < limit → (0 < room)%nat → (0 < to_go e)%nat → (to_go e' < to_go e)%nat)) as (e' & ms & ws' & Hr & Hdl & Hv' & Hinv' & Hs & Hle & Hlt).
  { unfold poll. destruct (ie_stopped e) eqn:Hst.
    - destruct (restart_input_step malloc lim bs Hmalloc Hbs Hlim Hlim63 str HSb HSz HSn limit room room' e _ ws Hst Hinv Hl)
        as (e' & ms & ws' & ? & ? & ? & ? & ? & ? & ?). exists e', ms, ws'. split_and!; auto.
    - destruct (in_event_step malloc lim bs Hmalloc Hbs Hlim Hlim63 str HSb HSz HSn limit room e _ ws Hst Hinv Hl)
        as (e' & ms & ws' & ? & ? & ? & ? & ? & ? & Hp). exists e', ms, ws'. split_and!; auto. intros Hlim0 _ Hgo. apply Hp; [done|].
      unfold eng_inv in Hinv. rewrite Hst in Hinv. destruct Hinv as (p & c & _ & _ & [Hi _] & _).
      unfold to_go in Hgo. rewrite Hi, Hst in Hgo. intros E. rewrite E in Hgo. cbn in Hgo. lia. }
  rewrite Hnone in Hdl. cbn in Hdl. exists (Rx (drained e') (rx_slots s ++ (inl <$> ie_delivered e'))), ws'.
  cbn [run_rx1]. fold e. rewrite Hr. split_and!; try done. split; cbn [rx_eng rx_slots].
  - rewrite in_slots_app, in_slots_inl. unfold eng_inv, eng_mid in *. cbn [drained ie_stopped ie_delivered ie_stream].
    rewrite app_nil_r. done.
  - done.
  - apply Forall2_app; [|rewrite Hdl; by apply slots_inl]. eapply slot_val_same; [|done].
    intros m Hm. apply Hs. apply elem_of_app. by left.
Qed.

Lemma reading_wf e live rest m : reading bs e live rest → m ∈ live → msg_wf (emem e) m.
Proof.
  intros [_ [(_ & b & kb & Hd)|(b & kb & bufsz & pos & rc & Hd & _)]] Hm.
  - eapply inv_wf; [apply (id_inv _ _ _ _ _ Hd)|by right].
  - eapply inv_wf; [apply (di_inv _ _ _ _ _ _ _ _ Hd)|by right].
Qed.

Lemma eng_inv_wf e app ws m : eng_inv bs str e app ws → m ∈ app → msg_wf (emem e) m.
Proof.
  unfold eng_inv, eng_mid. intros H Hm.
  assert (∃ rest, reading bs e (app ++ ie_delivered e) rest) as [rest Hr] by (destruct (ie_stopped e); naive_solver).
  eapply reading_wf; [done|]. apply elem_of_app. by left.
Qed.

Lemma read_step i s ws :
  rx_ok s ws → ∃ s', run_rx1 malloc (rx_read i) s = Ok s' ∧ rx_ok s' ws ∧ to_go (rx_eng s') = to_go (rx_eng s).
Proof.
  intros [Hinv Hnone Hv]. cbn [run_rx1]. destruct (rx_slots s !! i) as [[m|w]|] eqn:Hi; [|by exists s..].
  destruct (Forall2_lookup_l _ _ _ _ _ Hv Hi) as (w & Hw & Hfl & Hb). pose proof (in_slots_read _ _ _ w Hi) as Hp.
  assert (m ∈ in_slots (rx_slots s)) as Hm by (rewrite Hp; left).
  destruct (close_eng bs str HSn _ _ _ _ _ Hp Hnone Hinv) as (mm' & m' & Hr & Hinv' & Hs).
  exists (Rx (with_mem mm' (rx_eng s)) (<[i := inr w]> (rx_slots s))). split_and!; [|split; try done|done].
  - unfold read_msg. rewrite (bind_run _ _ _ _ _ (contents_run _ _ _ (eng_inv_wf _ _ _ _ Hinv Hm) Hb)).
    rewrite mapM_id_Some, (bind_run _ _ _ _ _ Hr). cbn. rewrite Hfl. by destruct w.
  - cbn [rx_eng rx_slots with_mem emem ie_st ds_mem]. eapply slot_val_same; [done|].
    rewrite <-(list_insert_id ws i w) by done. by apply Forall2_insert.
Qed.

Lemma run_rx_ok ops s ws :
  rx_ok s ws → ∃ s' ws', run_rx malloc ops s = Ok s' ∧ rx_ok s' (ws ++ ws') ∧ (to_go (rx_eng s') ≤ to_go (rx_eng s))%nat.
Proof.
  revert s ws. induction ops as [|op ops IH]; intros s ws Hok; cbn [run_rx].
  { exists s, []. by rewrite app_nil_r. }
  destruct op as [limit room room'|i].
  - destruct (poll_step limit room room' s ws Hok) as (s1 & ws1 & -> & Hok1 & Hle & _).
    destruct (IH s1 _ Hok1) as (s' & ws' & -> & Hok' & Hle'). exists s', (ws1 ++ ws'). rewrite (assoc_L (++)). split_and!; try done. lia.
  - destruct (read_step i s ws Hok) as (s1 & -> & Hok1 & E). destruct (IH s1 _ Hok1) as (s' & ws' & -> & Hok' & Hle').
    exists s', ws'. split_and!; try done. lia.
Qed.

(** Polled often enough, the engine delivers all of the stream. *)
Lemma run_rx_drains limit room room' s ws :
  0 < limit → (0 < room)%nat → rx_ok s ws →
  ∃ n s', run_rx malloc (replicate n (rx_poll limit room room')) s = Ok s' ∧ to_go (rx_eng s') = 0%nat.
Proof.
  intros Hl Hr. remember (to_go (rx_eng s)) as g eqn:Hg. revert s ws Hg. induction (lt_wf g) as [g _ IH].
  intros s ws Hg Hok. destruct (decide (g = 0%nat)) as [->|Hne]; [by exists 0%nat, s|].
  destruct (poll_step limit room room' s ws Hok) as (s1 & ws1 & Hr1 & Hok1 & _ & Hlt).
  destruct (IH (to_go (rx_eng s1)) ltac:(subst g; apply Hlt; lia) s1 _ eq_refl Hok1) as (n & s' & Hr' & Hgo).
  exists (S n), s'. cbn [replicate run_rx]. by rewrite Hr1.
Qed.

Lemma rx_ok_prefix s ws : rx_ok s ws → ws `prefix_of` (feeds p_flags str).2.
Proof.
  intros [Hinv _ _]. unfold eng_inv in Hinv. destruct (ie_stopped (rx_eng s)).
  - destruct Hinv as (w & rest & (c & Hc & Hf & _) & _). rewrite Hc, feeds_app, Hf. cbn. rewrite <-(assoc_L (++)). by eexists.
  - destruct Hinv as (p & c & Hc & Hf & _). rewrite Hc, feeds_app, Hf. by eexists.
Qed.

Lemma rx_ok_all s ws : rx_ok s ws → to_go (rx_eng s) = 0%nat → ws = (feeds p_flags str).2.
Proof.
  intros [Hinv _ _] Hgo. unfold eng_inv, to_go in *. destruct (ie_stopped (rx_eng s)); [lia|].
  destruct Hinv as (p & c & Hc & Hf & _). destruct (ie_stream (rx_eng s)); [|cbn in Hgo; lia].
  rewrite Hc, !app_nil_r, Hf. done.
Qed.

Lemma rx_start_ok : ∃ s, rx_start malloc bs str = Ok s ∧ rx_ok s [] ∧ rx_slots s = [].
Proof.
  unfold rx_start, v2_decoder_t.
  set (d := Decoder d2_flags_ready (r_tmp 0) 0 (shared None 0 bs 0 (max_counters bs)) (replicate 8 None) 0 init (-1)).
  destruct (new_buffer_run malloc lim bs Hmalloc Hbs Hlim (Dst no_memory d)) as (a & Ha & Hab & Hr).
  assert (msgs_inv no_memory [init] []) as Hinv0.
  { apply add_nokey; try done. split; try done; try (intros; set_solver). by intros b []. }
  destruct (with_buf_fresh bs Hbs a no_memory d [] Hinv0 Ha Hab) as [Hd _]; try done.
  assert ((allocate malloc;; next_step_d (r_tmp 0) 1 d2_flags_ready) (Dst no_memory d) =
    Ok ((), Dst (with_buf bs a no_memory) (set_next_step (r_tmp 0) 1 d2_flags_ready (set_alloc (fresh_alloc bs 0%N) d)))) as ->.
  { unfold allocate. unfold mbind at 1, M_bind at 1. rewrite dget_bind. cbn [d d_alloc ds_dec].
    rewrite (bind_run _ _ _ None (Dst no_memory d) eq_refl), (bind_run _ _ _ _ _ Hr), dset_bind. done. }
  eexists. split; [done|]. split; [|done]. split; [|done|constructor].
  exists p_flags, []. split_and!; try done. split; [done|]. left. split; [done|].
  exists 0%N, (new_buf bs a). eapply dec_inv_idle, dec_inv_same; [exact Hd|done..].
Qed.
End runs_spec.

(** ** From frames to messages *)

Definition pwf (p : pstate) : Prop :=
  match p with
  | p_eight _ got => Forall is_byte got
  | p_body _ n got => Z.of_nat (length got) < n
  | _ => True
  end.

Lemma p_size_wf f n : 0 ≤ n → pwf (p_size f n).1.
Proof. intros H. unfold p_size. destruct (Z.eqb_spec n 0); cbn; [done|lia]. Qed.

Lemma feeds_wf p xs : pwf p → Forall is_byte xs → pwf (feeds p xs).1.
Proof.
  intros Hp Hb. revert p Hp. induction Hb as [|x xs Hx Hb IH]; intros p Hp; [done|]. cbn [feeds].
  assert (pwf (feed p x).1) as Hp'.
  { destruct p as [|f|f got|f n got]; cbn [feed].
    - destruct (has_flag x 2); cbn; [constructor|done].
    - apply p_size_wf. unfold is_byte in Hx. lia.
    - assert (Forall is_byte (got ++ [x])) as Hg by (apply Forall_app; split; [done|by constructor]).
      case_decide; [|done]. apply p_size_wf. by apply be_val_bound.
    - destruct (Z.eqb_spec (Z.of_nat (length got) + 1) n); [done|]. cbn in *. rewrite length_app. cbn. lia. }
  destruct (feed p x) as [p1 out]. specialize (IH p1 Hp'). by destruct (feeds p1 xs).
Qed.

(** A body that the parser is in has the size of a message of the stream, when the
    stream ends between two frames. *)
Lemma body_size_out str out k f n got :
  Forall is_byte str → feeds p_flags str = (p_flags, out) → (feeds p_flags (take k str)).1 = p_body f n got →
  ∃ w, w ∈ out ∧ wm_size w = n.
Proof.
  intros Hb Hall E. pose proof (feeds_wf p_flags (take k str) I ltac:(by apply Forall_take)) as Hwf. rewrite E in Hwf. cbn in Hwf.
  rewrite <-(take_drop k str), feeds_app, E in Hall. set (ys := drop k str) in *.
  destruct (decide (Z.of_nat (length got + length ys) < n)) as [Hlt|Hge].
  { rewrite feeds_body in Hall by done. done. }
  set (j := Z.to_nat (n - Z.of_nat (length got))). exists (WMsg f (got ++ take j ys)).
  assert (length (take j ys) = j) as Hj by (rewrite length_take; lia).
  rewrite <-(take_drop j ys) in Hall. rewrite feeds_app, (feeds_body_full f n got (take j ys)) in Hall.
  - injection Hall as _ <-. split; [set_solver|]. unfold wm_size. cbn. rewrite length_app. lia.
  - lia.
  - intros E'. rewrite E' in Hj. cbn in Hj. lia.
Qed.

Definition fits (lim : Z) (m : wmsg) : Prop := Forall is_byte (wm_data m) ∧ wm_size m + sizeof_content_t ≤ lim.

Lemma frame_bytes m : Forall is_byte (wm_data m) → Forall is_byte (frame V2 m).
Proof.
  intros Hm. unfold frame. cbn [header]. unfold v2_header. rewrite Forall_app, Forall_cons_iff. split_and!; [| |done].
  - unfold v2_flags, is_byte. destruct (has_flag (wm_flags m) 1), (has_flag (wm_flags m) 2), (255 <? wm_size m); vm_compute; split; done.
  - destruct (Z.ltb_spec 255 (wm_size m)); [apply put_uint64_bytes|]. constructor; [|done]. unfold is_byte, wm_size in *. lia.
Qed.

Section frames.
Context (lim : Z) (msgs : list wmsg) (Hlim63 : lim < 2 ^ 63) (Hfits : Forall (fits lim) msgs).

Lemma frames_parsed : feeds p_flags (concat (frame V2 <$> msgs)) = (p_flags, received <$> msgs).
Proof.
  pose proof (feeds_frames msgs []) as H. rewrite !app_nil_r in H. rewrite H; [done|].
  eapply Forall_impl; [done|]. intros m [_ Hm]. unfold sizeof_content_t in Hm. lia.
Qed.

Lemma frames_bytes : Forall is_byte (concat (frame V2 <$> msgs)).
Proof. apply Forall_concat, Forall_fmap. eapply Forall_impl; [done|]. intros m [Hm _]. by apply frame_bytes. Qed.

Lemma frames_sizes : sizes_ok lim p_flags (concat (frame V2 <$> msgs)).
Proof.
  intros k f n got E. destruct (body_size_out _ _ k f n got frames_bytes frames_parsed E) as (w & Hw & <-).
  apply list_elem_of_fmap in Hw as (m & -> & Hm). rewrite Forall_forall in Hfits. apply (Hfits m Hm).
Qed.
End frames.

Lemma rx_frames malloc lim bs msgs ops :
  malloc_ok malloc lim → 8 < bs → bs + sizeof_counter + Z.of_nat (max_counters bs) * sizeof_counter ≤ lim →
  sizeof_content_t ≤ lim < 2 ^ 63 → Forall (fits lim) msgs → Z.of_nat (length msgs + 3) < 2 ^ 31 →
  ∃ s0 s, rx_start malloc bs (concat (frame V2 <$> msgs)) = Ok s0 ∧ run_rx malloc ops s0 = Ok s ∧
    Forall2 (slot_val (emem (rx_eng s))) (rx_slots s) (take (length (rx_slots s)) (received <$> msgs)) ∧
    ∀ limit room room', 0 < limit → (0 < room)%nat →
      ∃ n s', run_rx malloc (replicate n (rx_poll limit room room')) s = Ok s' ∧
        Forall2 (slot_val (emem (rx_eng s'))) (rx_slots s') (received <$> msgs).
Proof.
  intros Hm Hbs Hlim H63 Hfits Hn. set (str := concat (frame V2 <$> msgs)).
  pose proof (frames_parsed lim msgs (proj2 H63) Hfits) as Hp. fold str in Hp.
  pose proof (frames_bytes lim msgs Hfits) as Hb. pose proof (frames_sizes lim msgs (proj2 H63) Hfits) as Hz. fold str in Hb, Hz.
  assert (Z.of_nat (length (feeds p_flags str).2 + 3) < 2 ^ 31) as Hn' by (rewrite Hp; cbn [snd]; by rewrite length_fmap).
  destruct (rx_start_ok malloc lim bs Hm Hbs Hlim H63 str Hb Hz Hn') as (s0 & Hs0 & Hok0 & _).
  destruct (run_rx_ok malloc lim bs Hm Hbs Hlim H63 str Hb Hz Hn' ops s0 [] Hok0) as (s & ws & Hs & Hok & _).
  exists s0, s. split_and!; try done.
  - pose proof (rx_ok_prefix _ _ _ _ Hok) as [more E]. rewrite Hp in E. cbn [snd app] in E. rewrite E.
    rewrite (Forall2_length _ _ _ (ro_vals _ _ _ _ Hok)), take_app_length. apply Hok.
  - intros limit room room' Hl Hr.
    destruct (run_rx_drains malloc lim bs Hm Hbs Hlim H63 str Hb Hz Hn' limit room room' s _ Hl Hr Hok) as (n & s' & Hs' & Hgo).
    exists n, s'. split; [done|].
    destruct (run_rx_ok malloc lim bs Hm Hbs Hlim H63 str Hb Hz Hn' (replicate n (rx_poll limit room room')) s _ Hok) as (s'' & ws' & Hs'' & Hok' & _).
    rewrite Hs' in Hs''. injection Hs'' as <-. pose proof (rx_ok_all bs str Hn' _ _ Hok' Hgo) as E. rewrite Hp in E. cbn [snd] in E.
    rewrite <-E. apply Hok'.
Qed.

(** C5: messages cross the wire.  The sender's engine and encoder send what is put
    in its queue to its socket; a receiver with the version 2 decoder gets these
    bytes in pieces of any size, takes messages when its session has room, and its
    application reads and closes them in any order.  The receiver never fails, the
    messages it has got are a prefix of the ones sent, in order, each with the data
    it was sent with as long as it is not closed, and when the socket is polled often
    enough it gets all of them. *)
Theorem messages_cross_the_wire malloc lim bs B acts ops :
  malloc_ok malloc lim → 8 < bs → bs + sizeof_counter + Z.of_nat (max_counters bs) * sizeof_counter ≤ lim →
  sizeof_content_t ≤ lim < 2 ^ 63 → (0 < B)%nat → Forall (fits lim) (pushed acts) →
  Z.of_nat (length (pushed acts) + 3) < 2 ^ 31 →
  ∃ o k o' s0 s, run_out B acts (oe_start V2 B) = Ok o ∧
    run_out B (replicate k (act_out Some)) o = Ok o' ∧
    rx_start malloc bs (oe_sent o') = Ok s0 ∧ run_rx malloc ops s0 = Ok s ∧
    Forall2 (slot_val (emem (rx_eng s))) (rx_slots s) (take (length (rx_slots s)) (received <$> pushed acts)) ∧
    ∀ limit room room', 0 < limit → (0 < room)%nat →
      ∃ n s', run_rx malloc (replicate n (rx_poll limit room room')) s = Ok s' ∧
        Forall2 (slot_val (emem (rx_eng s'))) (rx_slots s') (received <$> pushed acts).
Proof.
  intros Hm Hbs Hlim H63 HB Hfits Hn.
  assert (Forall (sendable V2) (pushed acts)) as Hs.
  { eapply Forall_impl; [done|]. intros m [_ Hm']. unfold sizeof_content_t in *. split; [lia|done]. }
  destruct (run_out_all V2 B acts Some HB ltac:(done) Hs) as (o & k & o' & Ho & Ho' & E).
  destruct (rx_frames malloc lim bs (pushed acts) ops Hm Hbs Hlim H63 Hfits Hn) as (s0 & s & H1 & H2 & H3 & H4).
  exists o, k, o', s0, s. rewrite E. by split_and!.
Qed.

(** An allocator that has 1 MB at most for each of its answers. *)
Definition arena_malloc (n : N) (sz : Z) : option Z :=
  if sz <=? 2 ^ 20 then Some (4096 + (Z.of_N n mod 1024) * 2 ^ 20) else None.

Lemma arena_malloc_ok : malloc_ok arena_malloc (2 ^ 20).
Proof.
  intros n sz Hsz. exists (4096 + (Z.of_N n mod 1024) * 2 ^ 20). unfold arena_malloc.
  destruct (Z.leb_spec sz (2 ^ 20)); [|lia]. pose proof (Z.mod_pos_bound (Z.of_N n) 1024 ltac:(done)).
  split; [done|]. lia.
Qed.

Lemma messages_cross_the_wire_witness :
  ∃ o k o' s0 s, run_out 4 [act_push (WMsg 1 [7; 8]); act_out Some] (oe_start V2 4) = Ok o ∧
    run_out 4 (replicate k (act_out Some)) o = Ok o' ∧
    rx_start arena_malloc 64 (oe_sent o') = Ok s0 ∧ run_rx arena_malloc [rx_poll 3 1 1; rx_read 0] s0 = Ok s ∧
    Forall2 (slot_val (emem (rx_eng s))) (rx_slots s) (take (length (rx_slots s)) [WMsg 1 [7; 8]]) ∧
    ∀ limit room room', 0 < limit → (0 < room)%nat →
      ∃ n s', run_rx arena_malloc (replicate n (rx_poll limit room room')) s = Ok s' ∧
        Forall2 (slot_val (emem (rx_eng s'))) (rx_slots s') [WMsg 1 [7; 8]].
Proof.
  apply (messages_cross_the_wire arena_malloc (2 ^ 20) 64 4 [act_push (WMsg 1 [7; 8]); act_out Some] [rx_poll 3 1 1; rx_read 0]).
  - apply arena_malloc_ok.
  - lia.
  - vm_compute. discriminate.
  - vm_compute. split; [discriminate|done].
  - lia.
  - constructor; [|constructor]. split; [repeat constructor|]; vm_compute; discriminate.
  - vm_compute. done.
Defined.
