(* ===== verification/ZmqOverflow.v ===== *)
(** * A size that wraps around (libzmq/src/v2_decoder.cpp)

    [v2_decoder_t::size_ready] takes a message to be in the buffer when
    [read_pos + msg_size] is not greater than the end of the data.  The sum is
    one of pointers, 64 bits wide, and the size is the peer's.  For the sizes from
    2^64 - 9 on it wraps around wherever the buffer is, and what the peer sends
    next is written behind the end of the buffer. *)

From stdpp Require Import base tactics list numbers gmap strings.
From S2P Require Import Prelude ZmqWire ZmqMsg ZmqMsgSpec ZmqEncoder ZmqDecoder ZmqDecoderSpec ZmqInput.

Local Open Scope Z_scope.

Section overflow.
Context (malloc : N → Z → option Z) (lim bs : Z).
Context (Hmalloc : malloc_ok malloc lim) (Hbs : 8 < bs).
Context (Hlim : bs + sizeof_counter + Z.of_nat (max_counters bs) * sizeof_counter ≤ lim).
Context (Hlim63 : sizeof_content_t ≤ lim < 2 ^ 63).

(** What is left of the invariant: the buffer is there, and somebody else uses it. *)
Record past_end (s : dst) (b : N) (pos n : Z) : Prop := {
  pe_alloc : ∃ bufsz rc, d_alloc (ds_dec s) = shared (Some b) bufsz bs rc (max_counters bs);
  pe_block : ∃ kb, blocks (ds_mem s) !! b = Some kb ∧ Z.of_nat (length (b_bytes kb)) = bs ∧ 2 ≤ b_ctr kb < 2 ^ 32;
  pe_fresh : (b < calls (ds_mem s))%N;
  pe_to_read : d_to_read (ds_dec s) = n;
  pe_read_pos : d_read_pos (ds_dec s) = r_heap (pat b pos)
}.

Lemma exceeds_buffer_wraps s b kb bufsz pos rc n :
  d_alloc (ds_dec s) = shared (Some b) bufsz bs rc (max_counters bs) →
  blocks (ds_mem s) !! b = Some kb → 0 ≤ b_addr kb → b_addr kb + bs < 2 ^ 63 →
  0 ≤ pos ≤ bufsz → bufsz ≤ bs → n < 2 ^ 64 ≤ b_addr kb + pos + n →
  exceeds_buffer (r_heap (pat b pos)) n s = Ok (false, s).
Proof.
  intros Ha Hb H1 H2 Hp Hbz Hn. unfold exceeds_buffer. rewrite dget_bind, Ha.
  assert (∀ off, 0 ≤ off ≤ bs → address (pat b off) s = Ok (b_addr kb + off, s)) as Haddr.
  { intros off Hoff. unfold address. rewrite (bind_run _ _ s kb s).
    - unfold u64. rewrite Z.mod_small; [done|]. lia.
    - rewrite (in_mem_run _ s kb (ds_mem s)); [by destruct s|]. unfold get_block. by rewrite Hb. }
  rewrite (bind_run _ _ s _ s (Haddr pos ltac:(lia))), (bind_run _ _ s _ s (Haddr 0 ltac:(lia))).
  unfold u64. rewrite (Z.mod_small (b_addr kb + 0 + bufsz)) by lia.
  replace (b_addr kb + pos + n) with (b_addr kb + pos + n - 2 ^ 64 + 1 * 2 ^ 64) by lia.
  rewrite Z.mod_add, Z.mod_small by lia. rewrite Z.gtb_ltb.
  by destruct (Z.ltb_spec (b_addr kb + 0 + bufsz) (b_addr kb + pos + n - 2 ^ 64)); [lia|].
Qed.

Lemma size_ready_wraps s live b kb bufsz pos rc n :
  dec_inv bs s live b kb bufsz pos rc → (rc < max_counters bs)%nat →
  n < 2 ^ 64 ≤ b_addr kb + pos + n → Z.of_nat (length live + 2) < 2 ^ 31 →
  ∃ s', d2_size_ready malloc n (r_heap (pat b pos)) s = Ok (rc_more, s') ∧ past_end s' b pos n.
Proof.
  intros Hd Hrc Hn Hroom. pose proof (di_bufsz _ _ _ _ _ _ _ _ Hd) as Hbufsz.
  pose proof (di_pos _ _ _ _ _ _ _ _ Hd) as Hposrc. pose proof (di_addr _ _ _ _ _ _ _ _ Hd) as Haddr.
  unfold max_vsm_size in Hposrc. unfold d2_size_ready. rewrite dget_bind, (di_max _ _ _ _ _ _ _ _ Hd). cbn [Z.leb Z.compare andb].
  unfold u64 at 1. rewrite Z.mod_small by lia. rewrite Z.eqb_refl. cbn [negb]. rewrite dget_bind.
  destruct (close_in_progress _ _ _ _ _ _ _ _ Hd) as (mm1 & m1 & kb1 & Hcl & Hinv1 & _ & Hkb1 & Hsh1).
  rewrite (in_mem_bind (close (d_in_progress (ds_dec s))) _ s _ _ Hcl). cbn [ds_dec].
  rewrite (in_mem_bind (fatal_assert _ _) _ (Dst mm1 (ds_dec s)) () mm1) by done. rewrite dset_bind. cbn [ds_mem ds_dec].
  set (s1 := Dst mm1 (set_dmsg m1 (ds_dec s))). destruct Hsh1 as (Eaddr & Ebytes & Ectrs & Econt).
  assert (d_alloc (ds_dec s1) = shared (Some b) bufsz bs rc (max_counters bs)) as Ha1 by apply Hd.
  rewrite (bind_run _ _ s1 false s1) by (apply (exceeds_buffer_wraps s1 b kb1 bufsz pos rc n); try done; lia).
  assert (b_content kb1 = None) as Hc1.
  { rewrite (di_buffer _ _ _ _ _ _ _ _ Hd) in Econt. by destruct (b_content kb1). }
  destruct (inv_buffer _ _ _ Hinv1 b kb1 Hkb1 Hc1) as [Hcnt Hctr].
  pose proof (groups_le b (length (b_ctrs kb1)) live) as Hgl.
  assert (held_refs b [b] ≤ 1)%nat as Hheld by apply (length_filter (λ x, x = b) [b]).
  pose proof (init_in_buffer_large malloc bs s1 b kb1 bufsz rc pos n Ha1 Hkb1) as Hrun.
  rewrite Ectrs, (di_ctrs _ _ _ _ _ _ _ _ Hd) in Hrun.
  specialize (Hrun Hrc ltac:(unfold max_vsm_size; lia) ltac:(rewrite Hcnt; lia)).
  rewrite (bind_run _ _ s1 _ _ Hrun), dget_bind. eexists. split; [done|]. split; cbn; try done.
  - by eexists _, _.
  - rewrite !lookup_alter_eq, Hkb1. eexists. split; [done|]. cbn. rewrite Ebytes. split; [apply Hd|lia].
  - apply (inv_fresh _ _ _ Hinv1). by eexists.
Qed.

(** The nine bytes of the header are read, and the message taken to be in the buffer. *)
Lemma decode_header s live b kb fl n :
  dec_inv bs s live b kb 9 0 0 → dec_at s p_flags → input kb 9 0 (fl :: put_uint64 n) →
  is_byte fl → has_flag fl 2 = true → 2 ^ 64 - 9 ≤ n < 2 ^ 64 → Z.of_nat (length live + 2) < 2 ^ 31 →
  ∃ s', decode malloc (r_heap (pat b 0)) 9 s = Ok ((rc_more, 9), s') ∧ past_end s' b 9 n.
Proof.
  intros Hd Hat Hin Hfl Hlg Hn Hroom.
  assert (length (put_uint64 n) = 8%nat ∧ Forall is_byte (put_uint64 n)) as [Hl8 Hby8].
  { split; [done|]. apply put_uint64_bytes. }
  assert (decode malloc (r_heap (pat b 0)) 9 s = decode_loop malloc 10 (r_heap (pat b 0)) (9 - 0) 0 s) as ->.
  { unfold decode. rewrite dget_bind, decide_False; [done|].
    apply not_eq_sym. eapply (read_pos_elsewhere bs); [exact Hd|done]. }
  destruct (decode_turn malloc bs 9 s live b kb 9 0 0 0 p_flags (fl :: put_uint64 n))
    as (k & s1 & _ & Hk & Hd1 & _ & Hp1 & ->); try done.
  { by constructor. }
  assert (k = 1%nat) as -> by (destruct Hat as (_ & _ & Htr); rewrite Htr in Hk; cbn [length] in Hk; lia).
  destruct (act_flags malloc bs (r_heap (pat b (0 + 0 + Z.of_nat 1))) s1 live b kb 9 _ 0 fl Hp1 Hd1)
    as (s2 & Hr2 & Hd2 & _ & Hat2).
  rewrite (bind_run _ _ s1 _ _ Hr2). cbn [feed fst] in Hat2. rewrite Hlg in Hat2.
  apply (input_drop _ _ _ _ 1) in Hin; [|cbn; lia]. cbn [drop] in Hin.
  destruct (decode_turn malloc bs 8 s2 live b kb 9 0 1 0 (p_eight (flags_of fl) []) (put_uint64 n))
    as (k & s3 & _ & Hk3 & Hd3 & _ & Hp3 & Hrun3); try done.
  assert (k = 8%nat) as -> by (destruct Hat2 as (_ & _ & Htr & _); rewrite Htr, Hl8 in Hk3; cbn in Hk3; lia).
  change (0 + Z.of_nat 1) with 1. rewrite Hrun3. change (0 + 1 + Z.of_nat 8) with 9 in *.
  rewrite take_ge in Hp3 by lia. destruct Hp3 as (Hnx & _ & Htr & _ & _ & Htk & _). cbn [app] in *. rewrite Hl8 in Htr.
  pose proof (di_addr _ _ _ _ _ _ _ _ Hd3) as Ha.
  destruct (size_ready_wraps s3 live b kb 9 9 0 n) as (s' & Hr' & Hpe); try done; try lia.
  { unfold max_counters, max_vsm_size. Z.div_mod_to_equations. lia. }
  exists s'. split; [|done]. rewrite (bind_run _ _ s3 rc_more s').
  - cbn [decode_loop]. done.
  - rewrite (run_actions_step malloc 3 _ s3 s' Htr).
    + apply run_actions_more. rewrite (pe_to_read _ _ _ _ Hpe). lia.
    + unfold run_dnext. rewrite dget_bind, Hnx. unfold d2_eight_byte_size_ready_step.
      rewrite (bind_run _ _ s3 n s3); [done|].
      rewrite (tmp_uint64_run bs s3 (put_uint64 n)); [|apply Hd3|done..].
      by rewrite put_uint64_val by lia.
Qed.

Lemma event_header e live fl n data room :
  reading bs e live [] → dec_at (ie_st e) p_flags → ie_stopped e = false → Z.of_nat (length live + 2) < 2 ^ 31 →
  is_byte fl → has_flag fl 2 = true → 2 ^ 64 - 9 ≤ n < 2 ^ 64 → ie_stream e = fl :: put_uint64 n ++ data →
  ∃ s b, in_event malloc 9 room e = Ok (in_go (InEngine s (r_heap (pat b 9)) 0 data (ie_delivered e) false)) ∧
    past_end s b 9 n.
Proof.
  intros [Hsz Hrd] Hat Hst Hroom Hfl Hlg Hn Hstr.
  assert (∃ b kb, dec_idle bs (ie_st e) live b kb) as (b & kb & Hd).
  { destruct Hrd as [[_ H]|(b & kb & ? & ? & ? & H & _)]; [done|]. exists b, kb. by eapply dec_inv_idle. }
  destruct (get_buffer_spec malloc lim bs Hmalloc Hbs Hlim (ie_st e) live b kb p_flags Hd Hat Hroom)
    as (s1 & b1 & kb1 & Hr1 & _ & Hd1 & Hat1 & _).
  destruct (read_buffer bs s1 live b1 kb1 p_flags (fl :: put_uint64 n) Hd1 Hat1) as (s2 & kb2 & Hr2 & Hd2 & Hat2 & Hin2 & _);
    [cbn; lia|].
  destruct (decode_header s2 live b1 kb2 fl n Hd2 Hat2 Hin2 Hfl Hlg Hn Hroom) as (s3 & Hr3 & Hpe).
  exists s3, b1. split; [|done]. unfold in_event. rewrite Hst, Hsz, Hr1. cbn [Z.of_nat length Z.eqb].
  destruct Hat as (_ & _ & ->). destruct (Z.geb_spec 1 bs); [lia|].
  rewrite Hstr. replace (Nat.min _ _) with 9%nat by (cbn; lia). cbn [decide].
  change (take 9 (fl :: put_uint64 n ++ data)) with (fl :: put_uint64 n).
  change (Z.of_nat (length (fl :: put_uint64 n))) with 9 in Hr2. change (Z.of_nat 9) with 9. rewrite Hr2.
  cbn [process_input ie_insize ie_inpos ie_st]. rewrite Hr3. done.
Qed.

Lemma event_past_end e b n limit room :
  past_end (ie_st e) b 9 n → ie_stopped e = false → ie_insize e = 0 → 2 ^ 63 ≤ n →
  bs - 9 < limit → bs - 9 < Z.of_nat (length (ie_stream e)) →
  in_event malloc limit room e = Err (Undefined OutOfBounds).
Proof.
  intros [(bufsz & rc & Ha) (kb & Hkb & Hlen & Hctr) Hfr Htr Hrp] Hst Hsz Hn Hl1 Hl2.
  assert (bs < 2 ^ 63) as Hbs63 by (unfold sizeof_counter in *; lia).
  unfold in_event. rewrite Hst, Hsz. cbn [Z.eqb]. set (s := ie_st e) in *.
  set (s1 := Dst (upd_ctr (c_start b) (b_ctr kb - 1) (ds_mem s)) (ds_dec s)).
  destruct (new_buffer_run malloc lim bs Hmalloc Hbs Hlim s1) as (a & _ & _ & Hnew).
  set (s2 := Dst (with_buf bs a (ds_mem s1)) (set_alloc (fresh_alloc bs (calls (ds_mem s1))) (ds_dec s))).
  assert (allocate malloc s = Ok (pat (calls (ds_mem s1)) 0, s2)) as Hall.
  { unfold allocate. rewrite dget_bind, Ha. rewrite (bind_run _ _ s None s1).
    - by rewrite (bind_run _ _ s1 _ _ Hnew), dset_bind.
    - rewrite (in_mem_bind _ _ s true (ds_mem s1)); [done|]. rewrite (ctr_sub_run _ _ (b_ctr kb)); [|cbn; by rewrite Hkb|lia].
      by destruct (Z.eqb_spec (b_ctr kb - 1) 0); [lia|]. }
  assert (get_buffer malloc s = Ok ((r_heap (pat b 9), n), s2)) as ->.
  { unfold get_buffer. rewrite (bind_run _ _ s _ _ Hall), !dget_bind. cbn. rewrite Htr.
    destruct (Z.geb_spec n bs); [by rewrite dget_bind, <-Hrp|lia]. }
  set (xs := take _ (ie_stream e)). assert (bs - 9 < Z.of_nat (length xs)) as Hxs.
  { unfold xs. rewrite length_take. lia. }
  rewrite decide_False by lia.
  assert (r_store (r_heap (pat b 9)) (Some <$> xs) s2 = Err (Undefined OutOfBounds)) as Hs.
  { cbn [r_store]. unfold in_mem, zoom, store. rewrite length_fmap, decide_False by lia.
    assert (blocks (ds_mem s2) !! b = Some (upd_block (c_start b) (b_ctr kb - 1) kb)) as Hb2.
    { cbn. rewrite lookup_insert_ne by (cbn; lia). by rewrite lookup_alter_eq, Hkb. }
    unfold get_block, mbind, M_bind. rewrite Hb2. unfold in_range. cbn.
    by destruct (Z.leb_spec (9 + Z.of_nat (length xs)) (Z.of_nat (length (b_bytes kb)))); [lia|]. }
  unfold mbind, M_bind. by rewrite Hs.
Qed.


(** A new engine is between two messages. *)
Lemma rx_start_between str :
  ∃ s, rx_start malloc bs str = Ok s ∧ reading bs (rx_eng s) [] [] ∧ dec_at (ie_st (rx_eng s)) p_flags ∧
    ie_stopped (rx_eng s) = false ∧ ie_stream (rx_eng s) = str ∧ ie_delivered (rx_eng s) = [].
Proof.
  assert (sizes_ok lim p_flags []) as Hsz by (intros k f n got; by rewrite take_nil).
  destruct (rx_start_ok malloc lim bs Hmalloc Hbs Hlim Hlim63 [] ltac:(constructor) Hsz ltac:(done)) as (s & Hs & Hok & _).
  revert Hs. unfold rx_start. destruct (v2_decoder_t malloc bs (-1) no_memory) as [[d mm]|]; intros [= <-].
  destruct Hok as [(p & c & Hc & Hp & Hrd & Hat) _ _]. eexists. split; [done|].
  symmetry in Hc. apply app_nil in Hc as [-> _]. by injection Hp as <-.
Qed.
End overflow.

Definition oversized : list Z := 2 :: put_uint64 (2 ^ 64 - 9) ++ replicate 64 65.

