(* ===== verification/ZmqYpipe.v ===== *)
(** * The lock-free queue between two threads (libzmq/src)

    yqueue.hpp, ypipe.hpp and the operations of atomic_ptr.hpp that they use.  One
    thread writes, another one reads; the operations are cut into steps with one
    access to what the threads share each, and the steps of the two threads are
    interleaved in any way. *)

From stdpp Require Import base tactics list numbers gmap strings.
From S2P Require Import Prelude.

(** ** The state *)

Section ypipe.
Context {T : Type}.

(** The granularity, [N] in the source, and the allocator: it answers with an address
    that is not in use, which may have been in use before. *)
Context (G : nat).

(** [chunk_t].  A slot that was never written has no value. *)
Record chunk := Chunk { values : list (option T); prev : option N; next : option N }.

Context (malloc : gmap N chunk → option N).

(** A [T *]: a slot of a chunk. *)
Definition slot : Type := N * nat.

(** The members of yqueue_t and of ypipe_t. *)
Record ypipe_t := Ypipe {
  heap : gmap N chunk;
  spare_chunk : option N;
  begin_chunk : N; begin_pos : nat;
  back_chunk : option N; back_pos : nat;
  end_chunk : N; end_pos : nat;
  yw : slot; yr : option slot; yf : slot; yc : option slot
}.

Notation Y := (M ypipe_t).

Definition set_heap (h : gmap N chunk → gmap N chunk) (y : ypipe_t) : ypipe_t :=
  Ypipe (h (heap y)) (spare_chunk y) (begin_chunk y) (begin_pos y) (back_chunk y) (back_pos y)
    (end_chunk y) (end_pos y) (yw y) (yr y) (yf y) (yc y).
Definition set_spare (s : option N) (y : ypipe_t) : ypipe_t :=
  Ypipe (heap y) s (begin_chunk y) (begin_pos y) (back_chunk y) (back_pos y)
    (end_chunk y) (end_pos y) (yw y) (yr y) (yf y) (yc y).
Definition set_begin (b : N) (p : nat) (y : ypipe_t) : ypipe_t :=
  Ypipe (heap y) (spare_chunk y) b p (back_chunk y) (back_pos y)
    (end_chunk y) (end_pos y) (yw y) (yr y) (yf y) (yc y).
Definition set_back (b : option N) (p : nat) (y : ypipe_t) : ypipe_t :=
  Ypipe (heap y) (spare_chunk y) (begin_chunk y) (begin_pos y) b p
    (end_chunk y) (end_pos y) (yw y) (yr y) (yf y) (yc y).
Definition set_end (b : N) (p : nat) (y : ypipe_t) : ypipe_t :=
  Ypipe (heap y) (spare_chunk y) (begin_chunk y) (begin_pos y) (back_chunk y) (back_pos y)
    b p (yw y) (yr y) (yf y) (yc y).
Definition set_w (p : slot) (y : ypipe_t) : ypipe_t :=
  Ypipe (heap y) (spare_chunk y) (begin_chunk y) (begin_pos y) (back_chunk y) (back_pos y)
    (end_chunk y) (end_pos y) p (yr y) (yf y) (yc y).
Definition set_r (p : option slot) (y : ypipe_t) : ypipe_t :=
  Ypipe (heap y) (spare_chunk y) (begin_chunk y) (begin_pos y) (back_chunk y) (back_pos y)
    (end_chunk y) (end_pos y) (yw y) p (yf y) (yc y).
Definition set_f (p : slot) (y : ypipe_t) : ypipe_t :=
  Ypipe (heap y) (spare_chunk y) (begin_chunk y) (begin_pos y) (back_chunk y) (back_pos y)
    (end_chunk y) (end_pos y) (yw y) (yr y) p (yc y).
Definition set_c (p : option slot) (y : ypipe_t) : ypipe_t :=
  Ypipe (heap y) (spare_chunk y) (begin_chunk y) (begin_pos y) (back_chunk y) (back_pos y)
    (end_chunk y) (end_pos y) (yw y) (yr y) (yf y) p.

(** ** Accesses to chunks; one to a chunk that was freed is undefined *)

Definition get_chunk (b : N) : Y chunk :=
  y ← gets id; match heap y !! b with Some k => mret k | None => undefined Dangling end.

Definition put_chunk (b : N) (k : chunk) : Y () := modify (set_heap (insert b k)).

Definition get_next (b : N) : Y N :=
  k ← get_chunk b; match next k with Some n => mret n | None => undefined NullDeref end.
Definition get_prev (b : N) : Y N :=
  k ← get_chunk b; match prev k with Some n => mret n | None => undefined NullDeref end.
Definition set_next (b : N) (n : option N) : Y () :=
  k ← get_chunk b; put_chunk b (Chunk (values k) (prev k) n).
Definition set_prev (b : N) (p : option N) : Y () :=
  k ← get_chunk b; put_chunk b (Chunk (values k) p (next k)).

Definition load (p : slot) : Y T :=
  k ← get_chunk p.1;
  match values k !! p.2 with
  | Some (Some v) => mret v
  | Some None => undefined Uninitialised
  | None => undefined OutOfBounds
  end.

Definition store (p : slot) (v : T) : Y () :=
  k ← get_chunk p.1;
  if decide (p.2 < length (values k)) then put_chunk p.1 (Chunk (<[p.2 := Some v]> (values k)) (prev k) (next k))
  else undefined OutOfBounds.

Definition free (b : N) : Y () := k ← get_chunk b; modify (set_heap (delete b)).

(** [malloc (sizeof (chunk_t))] with [alloc_assert]; the links of a new chunk are not
    initialised. *)
Definition new_chunk : Y N :=
  y ← gets id;
  match malloc (heap y) with
  | Some b => put_chunk b (Chunk (replicate G None) None None);; mret b
  | None => throw (Fatal "FATAL ERROR: OUT OF MEMORY")
  end.

(** atomic_ptr.hpp: [xchg] of [spare_chunk], and [cas] of [c], which answers the value
    before. *)
Definition xchg_spare (s : option N) : Y (option N) :=
  o ← gets spare_chunk; modify (set_spare s);; mret o.

#[global] Instance slot_eq_dec : EqDecision slot.
Proof. unfold slot. apply _. Defined.

Definition cas_c (cmp val : option slot) : Y (option slot) :=
  o ← gets yc; (if decide (o = cmp) then modify (set_c val) else mret ());; mret o.

(** ** yqueue_t *)

(** [& queue.front ()] and [& queue.back ()]. *)
Definition front_ptr (y : ypipe_t) : slot := (begin_chunk y, begin_pos y).
Definition back_ptr : Y slot :=
  y ← gets id; match back_chunk y with Some b => mret (b, back_pos y) | None => undefined NullDeref end.

(** [push]: up to the test whether a chunk is needed; ... *)
Definition push_pos : Y bool :=
  y ← gets id;
  modify (set_back (Some (end_chunk y)) (end_pos y));;
  modify (set_end (end_chunk y) (S (end_pos y)));;
  mret (bool_decide (S (end_pos y) = G)).
(** ... [spare_chunk.xchg (NULL)]; ... *)
Definition push_xchg : Y (option N) := xchg_spare None.
(** ... the link to the next chunk, which is the spare one or a new one; ... *)
Definition push_next (sc : option N) : Y () :=
  n ← match sc with Some n => mret n | None => new_chunk end;
  e ← gets end_chunk;
  set_next e (Some n).
(** ... its link back; ... *)
Definition push_prev : Y () := e ← gets end_chunk; n ← get_next e; set_prev n (Some e).
(** ... and the new end. *)
Definition push_end : Y () := e ← gets end_chunk; n ← get_next e; modify (set_end n 0).

Definition push : Y () :=
  full ← push_pos;
  if full : bool then sc ← push_xchg; push_next sc;; push_prev;; push_end else mret ().

(** [unpush]: the position [back]; ... *)
Definition unpush_back : Y () :=
  y ← gets id;
  match back_pos y, back_chunk y with
  | S p, b => modify (set_back b p)
  | O, Some b => n ← get_prev b; modify (set_back (Some n) (G - 1))
  | O, None => undefined NullDeref
  end.
(** ... the position [end], when it is not the first of its chunk; ... *)
Definition unpush_pos : Y bool :=
  y ← gets id;
  match end_pos y with
  | S p => modify (set_end (end_chunk y) p);; mret false
  | O => mret true
  end.
(** ... and the steps back to the chunk before. *)
Definition unpush_end : Y () := e ← gets end_chunk; n ← get_prev e; modify (set_end n (G - 1)).
Definition unpush_free : Y () := e ← gets end_chunk; n ← get_next e; free n.
Definition unpush_null : Y () := e ← gets end_chunk; set_next e None.

(** [pop]: up to the test; ... *)
Definition pop_pos : Y bool :=
  y ← gets id;
  modify (set_begin (begin_chunk y) (S (begin_pos y)));;
  mret (bool_decide (S (begin_pos y) = G)).
(** ... the next chunk, and the old one; ... *)
Definition pop_next : Y N :=
  y ← gets id; n ← get_next (begin_chunk y);
  modify (set_begin n (begin_pos y));; mret (begin_chunk y).
(** ... its link back; ... *)
Definition pop_prev : Y () :=
  b ← gets begin_chunk; set_prev b None;; modify (set_begin b 0).
(** ... the old chunk as the spare one, and the one that was. *)
Definition pop_xchg (o : N) : Y (option N) := xchg_spare (Some o).
Definition pop_free (cs : option N) : Y () := match cs with Some b => free b | None => mret () end.

(** ** The operations of ypipe_t as programs of two threads *)

Inductive wop := write (value_ : T) (incomplete_ : bool) | unwrite | flush.
Inductive wres := wrote | unwrote (v : option T) | flushed (b : bool).
(** [probe] is only called when [check_read] has answered [true]. *)
Inductive rop := check_read | read | check_probe.
Inductive rres := checked (b : bool) | got (v : option T) | probed (v : T).

(** Where a thread is in an operation. *)
Inductive wpc :=
  | w_xchg (incomplete_ : bool) | w_next (incomplete_ : bool) (sc : option N)
  | w_prev (incomplete_ : bool) | w_end (incomplete_ : bool)
  | u_end | u_free | u_null | u_val
  | f_set.
Inductive rpc :=
  | r_probe | r_seen | r_front | r_next (v : T) | r_prev (v : T) (o : N) | r_xchg (v : T) (o : N)
  | r_free (v : T) (cs : option N).

(** [if (!incomplete_) f = & queue.back ()] *)
Definition move_f (incomplete_ : bool) : Y () :=
  if incomplete_ then mret () else p ← back_ptr; modify (set_f p).

(** The first step of an operation of the writer, and the ones that follow. *)
Definition w_begin (op : wop) : Y (wpc + wres) :=
  match op with
  | write v inc =>
      p ← back_ptr; store p v;;
      full ← push_pos;
      if full : bool then mret (inl (w_xchg inc)) else move_f inc;; mret (inr wrote)
  | unwrite =>
      p ← back_ptr; y ← gets id;
      if decide (yf y = p) then mret (inr (unwrote None))
      else
        unpush_back;; first ← unpush_pos;
        mret (inl (if first : bool then u_end else u_val))
  | flush =>
      y ← gets id;
      if decide (yw y = yf y) then mret (inr (flushed true))
      else
        o ← cas_c (Some (yw y)) (Some (yf y));
        if decide (o = Some (yw y)) then modify (set_w (yf y));; mret (inr (flushed true))
        else mret (inl f_set)
  end.

Definition w_cont (pc : wpc) : Y (wpc + wres) :=
  match pc with
  | w_xchg inc => sc ← push_xchg; mret (inl (w_next inc sc))
  | w_next inc sc => push_next sc;; mret (inl (w_prev inc))
  | w_prev inc => push_prev;; mret (inl (w_end inc))
  | w_end inc => push_end;; move_f inc;; mret (inr wrote)
  | u_end => unpush_end;; mret (inl u_free)
  | u_free => unpush_free;; mret (inl u_null)
  | u_null => unpush_null;; mret (inl u_val)
  | u_val => p ← back_ptr; v ← load p; mret (inr (unwrote (Some v)))
  | f_set => y ← gets id; modify (set_c (Some (yf y)));; modify (set_w (yf y));; mret (inr (flushed false))
  end.

(** [check_read] *)
Definition do_check_read : Y bool :=
  y ← gets id;
  if decide (yr y ≠ None ∧ yr y ≠ Some (front_ptr y)) then mret true
  else
    o ← cas_c (Some (front_ptr y)) None;
    modify (set_r o);;
    mret (bool_decide (o ≠ None ∧ o ≠ Some (front_ptr y))).

Definition r_begin (op : rop) : Y (rpc + rres) :=
  b ← do_check_read;
  mret match op, b with
       | check_read, _ | check_probe, false => inr (checked b)
       | read, false => inr (got None)
       | read, true => inl r_front
       | check_probe, true => inl r_probe
       end.

Definition r_cont (pc : rpc) : Y (rpc + rres) :=
  match pc with
  | r_probe =>
      rc ← do_check_read;
      if rc : bool then mret (inl r_seen) else throw (Fatal "Assertion failed: rc")
  | r_seen => y ← gets id; v ← load (front_ptr y); mret (inr (probed v))
  | r_front =>
      y ← gets id; v ← load (front_ptr y);
      last ← pop_pos; mret (if last : bool then inl (r_next v) else inr (got (Some v)))
  | r_next v => o ← pop_next; mret (inl (r_prev v o))
  | r_prev v o => pop_prev;; mret (inl (r_xchg v o))
  | r_xchg v o => cs ← pop_xchg o; mret (inl (r_free v cs))
  | r_free v cs => pop_free cs;; mret (inr (got (Some v)))
  end.

(** The constructor: the first chunk, the terminator and the pointers. *)
Definition ypipe_start : result ypipe_t :=
  match malloc ∅ with
  | None => Err (Fatal "FATAL ERROR: OUT OF MEMORY")
  | Some b =>
      let y := Ypipe {[b := Chunk (replicate G None) None None]} None b 0 None 0 b 0 (b, 0) None (b, 0) None in
      match (push;; p ← back_ptr; modify (set_r (Some p));; modify (set_w p);; modify (set_f p);;
             modify (set_c (Some p))) y with
      | Ok (_, y) => Ok y
      | Err e => Err e
      end
  end.

(** The destructor of yqueue_t; [fuel] bounds the number of chunks. *)
Fixpoint free_chunks (fuel : nat) : Y () :=
  match fuel with
  | O => throw OutOfFuel
  | S fuel =>
      y ← gets id;
      if decide (begin_chunk y = end_chunk y) then free (begin_chunk y)
      else n ← get_next (begin_chunk y); modify (set_begin n (begin_pos y));; free (begin_chunk y);; free_chunks fuel
  end.

Definition destroy : Y () :=
  y ← gets id; free_chunks (S (size (heap y)));; sc ← xchg_spare None;
  match sc with Some b => free b | None => mret () end.

(** ** The two threads *)

(** The operations that have ended, in this order. *)
Inductive event := ew (op : wop) (res : wres) | er (op : rop) (res : rres).

Record sys := Sys {
  sy : ypipe_t;
  wat : option wpc; wprog : list wop;
  rat : option rpc; rprog : list rop;
  log : list event
}.

Inductive thread := writer | reader.

Definition wstep (s : sys) : result sys :=
  match wprog s with
  | [] => Ok s
  | op :: ops =>
      match (match wat s with None => w_begin op | Some pc => w_cont pc end) (sy s) with
      | Ok (inl pc, y) => Ok (Sys y (Some pc) (wprog s) (rat s) (rprog s) (log s))
      | Ok (inr res, y) => Ok (Sys y None ops (rat s) (rprog s) (log s ++ [ew op res]))
      | Err e => Err e
      end
  end.

Definition rstep (s : sys) : result sys :=
  match rprog s with
  | [] => Ok s
  | op :: ops =>
      match (match rat s with None => r_begin op | Some pc => r_cont pc end) (sy s) with
      | Ok (inl pc, y) => Ok (Sys y (wat s) (wprog s) (Some pc) (rprog s) (log s))
      | Ok (inr res, y) => Ok (Sys y (wat s) (wprog s) None ops (log s ++ [er op res]))
      | Err e => Err e
      end
  end.

Fixpoint run_threads (sched : list thread) (s : sys) : result sys :=
  match sched with
  | [] => Ok s
  | t :: sched =>
      match (match t with writer => wstep | reader => rstep end) s with
      | Ok s => run_threads sched s
      | Err e => Err e
      end
  end.

Definition sys_start (ws : list wop) (rs : list rop) : result sys :=
  match ypipe_start with
  | Ok y => Ok (Sys y None ws None rs [])
  | Err e => Err e
  end.
End ypipe.
