(* ===== verification/ZmqYpipeSpec.v ===== *)
(** * The lock-free queue is a queue (libzmq/src, yqueue.hpp and ypipe.hpp)

    However the steps of the two threads are interleaved, no step touches a chunk
    that was freed, and the operations answer as the ones of a sequential queue
    would, in the order in which they end.  The sequential queue says what the
    sleeping reader relies on: once [check_read] has failed, the next [flush] that
    gives the reader something answers [false]. *)

From stdpp Require Import base tactics list numbers gmap strings.
From S2P Require Import Prelude ZmqYpipe.

(** ** The sequential queue *)

Section spec.
Context {T : Type}.

(** The items that were written and not taken back, how many of them are complete,
    flushed and read, and whether the reader sleeps. *)
Record qspec := Q { q_items : list T; q_f : nat; q_w : nat; q_r : nat; q_asleep : bool }.

Definition q_start : qspec := Q [] 0 0 0 false.

Definition q_wop (op : wop) (q : qspec) : wres * qspec :=
  match op with
  | write v inc =>
      (wrote, Q (q_items q ++ [v]) (if inc then q_f q else S (length (q_items q))) (q_w q) (q_r q) (q_asleep q))
  | unwrite =>
      if decide (q_f q = length (q_items q)) then (unwrote None, q)
      else (unwrote (last (q_items q)),
            Q (take (pred (length (q_items q))) (q_items q)) (q_f q) (q_w q) (q_r q) (q_asleep q))
  | flush =>
      if decide (q_w q = q_f q) then (flushed true, q)
      else (flushed (negb (q_asleep q)), Q (q_items q) (q_f q) (q_f q) (q_r q) false)
  end.

Definition q_sleep (q : qspec) : qspec := Q (q_items q) (q_f q) (q_w q) (q_r q) true.

Definition q_rop (op : rop) (q : qspec) : rres * qspec :=
  match op, decide (q_r q < q_w q) with
  | check_read, left _ => (checked true, q)
  | check_probe, left _ =>
      match q_items q !! q_r q with Some v => (probed v, q) | None => (checked false, q) end
  | read, left _ =>
      (got (q_items q !! q_r q), Q (q_items q) (q_f q) (q_w q) (S (q_r q)) (q_asleep q))
  | read, right _ => (got None, q_sleep q)
  | _, right _ => (checked false, q_sleep q)
  end.

(** The queue after a history, if the answers in it are its answers. *)
Definition q_event (q : qspec) (e : event) (q' : qspec) : Prop :=
  match e with
  | ew op res => q_wop op q = (res, q')
  | er op res => q_rop op q = (res, q')
  end.

Inductive legal : list event → qspec → Prop :=
  | legal_nil : legal [] q_start
  | legal_snoc l q e q' : legal l q → q_event q e q' → legal (l ++ [e]) q'.
Lemma legal_bounds l q : legal l q → q_r q ≤ q_w q ∧ q_w q ≤ q_f q ∧ q_f q ≤ length (q_items q).
Proof.
  induction 1 as [|l q e q' Hl IH He]; [by cbn|]. destruct e as [op res|op res]; cbn in He.
  - destruct op as [v inc| |]; cbn in He.
    + injection He as _ <-. cbn. rewrite length_app. cbn. destruct inc; lia.
    + case_decide; injection He as _ <-; [done|]. cbn. rewrite length_take. lia.
    + case_decide; injection He as _ <-; [done|]. cbn. lia.
  - unfold q_rop in He. destruct (decide (q_r q < q_w q)), op; repeat case_match; injection He as _ <-; cbn; lia.
Qed.
(** What was read are the first items in their order, and while the reader sleeps it
    has read all that was flushed. *)
Lemma legal_reads l q :
  legal l q → omap (λ e, match e with er _ (got v) => v | _ => None end) l = take (q_r q) (q_items q) ∧
    (q_asleep q = true → q_r q = q_w q).
Proof.
  induction 1 as [|l q e q' Hl [IH1 IH2] He]; [done|]. pose proof (legal_bounds _ _ Hl) as (B1 & B2 & B3).
  rewrite omap_app, IH1. destruct e as [op res|op res]; cbn in He; cbn [omap list_omap].
  - rewrite app_nil_r. destruct op as [v inc| |]; cbn in He.
    + injection He as _ <-. cbn. split; [|done]. by rewrite take_app_le by lia.
    + case_decide; injection He as _ <-; [done|]. cbn. split; [|done]. rewrite take_take. f_equal. lia.
    + case_decide; injection He as _ <-; done.
  - unfold q_rop in He. destruct (decide (q_r q < q_w q)) as [Hlt|Hlt], op; cbn in He.
    + injection He as <- <-. by rewrite app_nil_r.
    + injection He as <- <-. assert (is_Some (q_items q !! q_r q)) as [v Hv] by (apply lookup_lt_is_Some; lia).
      rewrite Hv. cbn. split; [by rewrite (take_S_r _ _ v)|]. intros Ha. specialize (IH2 Ha). lia.
    + destruct (q_items q !! q_r q); injection He as <- <-; by rewrite app_nil_r.
    + injection He as <- <-. rewrite app_nil_r. cbn. split; [done|lia].
    + injection He as <- <-. rewrite app_nil_r. cbn. split; [done|lia].
    + injection He as <- <-. rewrite app_nil_r. cbn. split; [done|lia].
Qed.
End spec.

(** ** Positions

    The chunks in use, from the one that is read to the last one; [off] is the number
    of the first slot in them, counted from the first slot ever used.  Of the items,
    [gf] are complete, [gw] flushed and [gn] read. *)

Section ypipe_spec.
Context {T : Type} (G : nat) (HG : 0 < G).
Notation chunk := (@chunk T).
Notation ypipe_t := (@ypipe_t T).
Notation sys := (@sys T).
Notation wop := (@wop T).
Notation rpc := (@rpc T).
Context (malloc : gmap N chunk → option N).
Context (Hmalloc : ∀ h, ∃ b, malloc h = Some b ∧ h !! b = None).

Record ghost := Gh { off : nat; chs : list N; items : list T; gf : nat; gw : nat; gn : nat }.

Definition loc (g : ghost) (i : nat) : option slot :=
  if decide (off g ≤ i) then b ← chs g !! ((i - off g) `div` G); Some (b, (i - off g) `mod` G) else None.

Lemma loc_at g k p b : chs g !! k = Some b → p < G → loc g (off g + G * k + p) = Some (b, p).
Proof using HG.
  intros Hk Hp. unfold loc. rewrite decide_True by lia. replace (off g + G * k + p - off g) with (p + k * G) by lia.
  rewrite Nat.div_add, Nat.Div0.mod_add, Nat.div_small, Nat.mod_small by lia. cbn. by rewrite Hk.
Qed.

Lemma loc_inv g i b p : loc g i = Some (b, p) → ∃ k, chs g !! k = Some b ∧ p < G ∧ i = off g + G * k + p.
Proof using HG.
  unfold loc. case_decide; [|done]. destruct (chs g !! _) as [b'|] eqn:E; [|done]. intros [= -> <-].
  exists ((i - off g) `div` G). split_and!; [done|apply Nat.mod_upper_bound; lia|].
  pose proof (Nat.div_mod (i - off g) G). lia.
Qed.

Lemma loc_inj g i j p : NoDup (chs g) → loc g i = Some p → loc g j = Some p → i = j.
Proof using HG.
  destruct p as [b p]. intros Hnd (k & Hk & _ & ->)%loc_inv (k' & Hk' & _ & ->)%loc_inv.
  assert (k = k') as -> by (by eapply NoDup_lookup). done.
Qed.

Lemma loc_some g i : off g ≤ i → i < off g + G * length (chs g) → is_Some (loc g i).
Proof using HG.
  intros H1 H2. assert (is_Some (chs g !! ((i - off g) `div` G))) as [b Hb].
  { apply lookup_lt_is_Some. apply Nat.Div0.div_lt_upper_bound. lia. }
  unfold loc. rewrite decide_True by done. rewrite Hb. by eexists.
Qed.

(** The slots up to number [n] are where they were. *)
Definition agree (g g' : ghost) (n : nat) : Prop := ∀ i, off g' ≤ i → i ≤ n → loc g' i = loc g i.

Lemma agree_chs g g' n :
  off g' = off g → (∀ k, G * k + off g ≤ n → chs g' !! k = chs g !! k) → agree g g' n.
Proof using HG.
  intros Ho Hk i H1 H2. unfold loc. rewrite Ho in *. rewrite !decide_True by done.
  rewrite Hk; [done|]. pose proof (Nat.Div0.mul_div_le (i - off g) G). lia.
Qed.

(** ** The invariant *)

Record hp (g : ghost) (linking : bool) (h : gmap N chunk) : Prop := {
  hp_len b ch : h !! b = Some ch → length (values ch) = G;
  hp_next k b b' ch : chs g !! k = Some b → chs g !! S k = Some b' → h !! b = Some ch → next ch = Some b';
  hp_prev k b b' ch : chs g !! k = Some b → chs g !! S k = Some b' → h !! b' = Some ch →
    (linking = true ∧ S (S k) = length (chs g)) ∨ prev ch = Some b;
  hp_val i v : gn g ≤ i → items g !! i = Some v →
    ∃ b p ch, loc g i = Some (b, p) ∧ h !! b = Some ch ∧ values ch !! p = Some (Some v)
}.

(** Chunks that only one thread knows. *)
Definition w_owns (pc : option wpc) : list N :=
  match pc with Some (w_next _ (Some b)) => [b] | _ => [] end.
Definition r_owns (pc : option rpc) : list N :=
  match pc with
  | Some (r_prev _ o) | Some (r_xchg _ o) => [o]
  | Some (r_free _ (Some b)) => [b]
  | _ => []
  end.

(** The end of the queue, as the writer has it at each step. *)
Definition end_ok (y : ypipe_t) (g : ghost) (pc : option wpc) : Prop :=
  let n := length (chs g) in let B := length (items g) in
  match pc with
  | None | Some u_val | Some f_set =>
      chs g !! pred n = Some (end_chunk y) ∧ end_pos y < G ∧ off g + G * pred n + end_pos y = S B
  | Some (w_xchg _) | Some (w_next _ _) =>
      chs g !! pred n = Some (end_chunk y) ∧ end_pos y = G ∧ off g + G * n = S B
  | Some (w_prev _) | Some (w_end _) =>
      2 ≤ n ∧ chs g !! pred (pred n) = Some (end_chunk y) ∧ end_pos y = G ∧ off g + G * pred n = S B
  | Some u_end =>
      2 ≤ n ∧ chs g !! pred n = Some (end_chunk y) ∧ end_pos y = 0 ∧ off g + G * pred n = S (S B)
  | Some u_free =>
      2 ≤ n ∧ chs g !! pred (pred n) = Some (end_chunk y) ∧ end_pos y = G - 1 ∧ off g + G * pred n = S (S B)
  | Some u_null =>
      chs g !! pred n = Some (end_chunk y) ∧ end_pos y = G - 1 ∧ off g + G * n = S (S B)
  end.

Definition linking (pc : option wpc) : bool := match pc with Some (w_prev _) => true | _ => false end.

(** The front of the queue, as the reader has it at each step. *)
Definition front_ok (y : ypipe_t) (g : ghost) (pc : option rpc) : Prop :=
  loc g (off g) = Some (begin_chunk y, 0) ∧
  match pc with
  | None | Some r_probe | Some r_seen | Some r_front => begin_pos y < G ∧ gn g = off g + begin_pos y
  | Some (r_next _) => begin_pos y = G ∧ gn g = off g + G
  | Some (r_prev _ _) => gn g = off g
  | Some (r_xchg _ _) | Some (r_free _ _) => begin_pos y = 0 ∧ gn g = off g
  end.

(** What was prefetched: [r] is behind the front, strictly when an item was seen. *)
Definition fetched (y : ypipe_t) (g : ghost) (seen : bool) : Prop :=
  match yr y with
  | Some p => ∃ i, loc g i = Some p ∧ gn g ≤ i ≤ gw g ∧ (seen = true → gn g < i)
  | None => seen = false
  end.

Definition sees (pc : option rpc) : bool :=
  match pc with Some r_probe | Some r_seen | Some r_front => true | _ => false end.

(** The operation a thread is in, and the sequential queue. *)
Definition w_spec (g : ghost) (q : @qspec T) (h : gmap N chunk) (pc : option wpc) (ops : list wop) : Prop :=
  match pc with
  | None => q_items q = items g
  | Some f_set => q_items q = items g ∧ gw g ≠ gf g ∧ ∃ l, ops = flush :: l
  | Some (w_xchg inc) | Some (w_next inc _) | Some (w_prev inc) | Some (w_end inc) =>
      ∃ v l, ops = write v inc :: l ∧ items g = q_items q ++ [v]
  | _ => ∃ v l b p ch, ops = unwrite :: l ∧ q_items q = items g ++ [v] ∧
      loc g (length (items g)) = Some (b, p) ∧ h !! b = Some ch ∧ values ch !! p = Some (Some v)
  end.

Definition r_spec (g : ghost) (q : @qspec T) (pc : option rpc) (ops : list rop) : Prop :=
  match pc with
  | None => q_r q = gn g
  | Some r_probe | Some r_seen => q_r q = gn g ∧ ∃ l, ops = check_probe :: l
  | Some r_front => q_r q = gn g ∧ ∃ l, ops = read :: l
  | Some (r_next v) | Some (r_prev v _) | Some (r_xchg v _) | Some (r_free v _) =>
      S (q_r q) = gn g ∧ items g !! q_r q = Some v ∧ ∃ l, ops = read :: l
  end.

Record inv (s : sys) (g : ghost) (q : @qspec T) : Prop := {
  i_hp : hp g (linking (wat s)) (heap (sy s));
  i_nodup : NoDup (chs g ++ option_list (spare_chunk (sy s)) ++ w_owns (wat s) ++ r_owns (rat s));
  i_dom : dom (heap (sy s)) =
    list_to_set (chs g ++ option_list (spare_chunk (sy s)) ++ w_owns (wat s) ++ r_owns (rat s));
  i_idx : off g ≤ gn g ∧ gn g ≤ gw g ∧ gw g ≤ gf g ∧ gf g ≤ length (items g);
  i_back : ∃ b, back_chunk (sy s) = Some b ∧ loc g (length (items g)) = Some (b, back_pos (sy s));
  i_end : end_ok (sy s) g (wat s);
  i_w : loc g (gw g) = Some (yw (sy s));
  i_f : loc g (gf g) = Some (yf (sy s));
  i_front : front_ok (sy s) g (rat s);
  i_fetched : fetched (sy s) g (sees (rat s));
  i_c : match yc (sy s) with
        | Some p => loc g (gw g) = Some p ∧ q_asleep q = false ∧ wat s ≠ Some f_set
        | None => gn g = gw g ∧ sees (rat s) = false ∧ q_asleep q = true
        end;
  i_qf : q_f q = gf g; i_qw : q_w q = gw g;
  i_ws : w_spec g q (heap (sy s)) (wat s) (wprog s);
  i_rs : r_spec g q (rat s) (rprog s);
  i_legal : legal (log s) q
}.

(** ** Changes of the chunks *)

Lemma hp_insert g l h b ch ch' :
  hp g l h → h !! b = Some ch → length (values ch') = G →
  (∀ k b', chs g !! k = Some b → chs g !! S k = Some b' → next ch' = Some b') →
  (∀ k b', chs g !! S k = Some b → chs g !! k = Some b' → (l = true ∧ S (S k) = length (chs g)) ∨ prev ch' = Some b') →
  (∀ i p v, gn g ≤ i → items g !! i = Some v → loc g i = Some (b, p) → values ch' !! p = Some (Some v)) →
  hp g l (<[b := ch']> h).
Proof using HG.
  intros [Hl Hn Hp Hv] Hb Hl' Hn' Hp' Hv'. split.
  - intros b' k. destruct (decide (b' = b)) as [->|]; [rewrite lookup_insert_eq; naive_solver|rewrite lookup_insert_ne by done; apply Hl].
  - intros k b1 b2 k1 H1 H2. destruct (decide (b1 = b)) as [->|]; [rewrite lookup_insert_eq; intros [= <-]; eauto|].
    rewrite lookup_insert_ne by done. eauto.
  - intros k b1 b2 k2 H1 H2. destruct (decide (b2 = b)) as [->|]; [rewrite lookup_insert_eq; intros [= <-]; eauto|].
    rewrite lookup_insert_ne by done. eauto.
  - intros i v Hi Hiv. destruct (Hv i v Hi Hiv) as (b1 & p & k & Hloc & Hk & Hkv). destruct (decide (b1 = b)) as [->|].
    + exists b, p, ch'. rewrite lookup_insert_eq. split_and!; eauto.
    + exists b1, p, k. by rewrite lookup_insert_ne.
Qed.

(** Other links of a chunk do not matter for what it holds. *)
Lemma hp_links g l h b ch pv nx :
  hp g l h → h !! b = Some ch →
  (∀ k b', chs g !! k = Some b → chs g !! S k = Some b' → nx = Some b') →
  (∀ k b', chs g !! S k = Some b → chs g !! k = Some b' → (l = true ∧ S (S k) = length (chs g)) ∨ pv = Some b') →
  hp g l (<[b := Chunk (values ch) pv nx]> h).
Proof using HG.
  intros Hhp Hb Hn Hp. eapply hp_insert; try done; [cbn; by eapply hp_len|].
  intros i p v Hi Hv Hloc. destruct (hp_val _ _ _ Hhp i v Hi Hv) as (? & ? & ? & ? & ? & ?). by simplify_eq.
Qed.

Definition with_items (l : list T) (g : ghost) : ghost := Gh (off g) (chs g) l (gf g) (gw g) (gn g).
Definition with_chs (l : list N) (g : ghost) : ghost := Gh (off g) l (items g) (gf g) (gw g) (gn g).

Lemma hp_delete g l h b : hp g l h → b ∉ chs g → hp g l (delete b h).
Proof using HG.
  intros [Hl Hn Hp Hv] Hb. split.
  - intros b' k [_ H]%lookup_delete_Some. eauto.
  - intros k b1 b2 k1 H1 H2 [_ H]%lookup_delete_Some. eauto.
  - intros k b1 b2 k1 H1 H2 [_ H]%lookup_delete_Some. eauto.
  - intros i v Hi Hiv. destruct (Hv i v Hi Hiv) as (b1 & p & k & Hloc & Hk & Hkv). exists b1, p, k. split_and!; try done.
    rewrite lookup_delete_ne; [done|]. intros ->. apply loc_inv in Hloc as (j & Hj & _). apply Hb. by eapply list_elem_of_lookup_2.
Qed.

Lemma hp_store g l h b p ch v :
  hp g l h → NoDup (chs g) → loc g (length (items g)) = Some (b, p) → h !! b = Some ch →
  hp (with_items (items g ++ [v]) g) l (<[b := Chunk (<[p := Some v]> (values ch)) (prev ch) (next ch)]> h).
Proof using HG.
  intros Hhp Hnd Hloc Hb. destruct (loc_inv _ _ _ _ Hloc) as (k & _ & Hp & _).
  assert (length (values ch) = G) as Hlen by (by eapply hp_len).
  assert (hp g l (<[b := Chunk (<[p := Some v]> (values ch)) (prev ch) (next ch)]> h)) as [Hl Hn Hpv Hv].
  { eapply hp_insert; try done; [cbn [values]; by rewrite length_insert|..].
    - intros k' b' H1 H2. by apply (hp_next _ _ _ Hhp k' b b' ch H1 H2 Hb).
    - intros k' b' H1 H2. by apply (hp_prev _ _ _ Hhp k' b' b ch H2 H1 Hb).
    - intros i p' v' Hi Hv' Hloc'. destruct (hp_val _ _ _ Hhp i v' Hi Hv') as (? & ? & ? & ? & ? & ?). simplify_eq.
      cbn. rewrite list_lookup_insert_ne; [done|]. intros ->. pose proof (loc_inj _ _ _ _ Hnd Hloc Hloc') as <-.
      by apply lookup_lt_Some, Nat.lt_irrefl in Hv'. }
  split; try done. cbn [items with_items gn]. intros i v' Hi Hv'. apply lookup_app_Some in Hv' as [Hv'|[Hi' Hv']].
  - by apply Hv.
  - apply list_lookup_singleton_Some in Hv' as [Hi0 <-]. replace i with (length (items g)) by lia.
    eexists b, p, _. rewrite lookup_insert_eq. split_and!; [done|done|]. cbn. apply list_lookup_insert_eq. lia.
Qed.

Lemma hp_items_le g l h its : hp g l h → its `prefix_of` items g → hp (with_items its g) l h.
Proof using HG.
  intros [Hl Hn Hp Hv] [rest E]. split; try done. cbn. intros i v Hi Hiv.
  apply Hv; [done|]. rewrite E. by apply lookup_app_l_Some.
Qed.

Lemma hp_last g h b ch n chn :
  hp g false h → last (chs g) = Some b → h !! b = Some ch → next ch = Some n →
  h !! n = Some chn → length (items g) < off g + G * length (chs g) →
  hp (with_chs (chs g ++ [n]) g) true h.
Proof using HG.
  intros [Hl Hn Hp Hv] Hlast Hb Hnx Hn' Hlen. rewrite last_lookup in Hlast. split; cbn [chs with_chs items gn].
  - done.
  - intros k b1 b2 k1 H1 H2 H3. apply lookup_app_Some in H2 as [H2|[H2 H2']].
    + rewrite lookup_app_l in H1 by (apply lookup_lt_Some in H2; lia). by apply (Hn k b1 b2 k1).
    + apply list_lookup_singleton_Some in H2' as [? <-]. assert (k = pred (length (chs g))) as -> by lia.
      rewrite lookup_app_l in H1 by (apply lookup_lt_Some in Hlast; lia). by simplify_eq.
  - intros k b1 b2 k2 H1 H2 H3. apply lookup_app_Some in H2 as [H2|[H2 H2']].
    + rewrite lookup_app_l in H1 by (apply lookup_lt_Some in H2; lia). right. by destruct (Hp k b1 b2 k2 H1 H2 H3) as [[]|].
    + apply list_lookup_singleton_Some in H2' as [? <-]. left. rewrite length_app. cbn. split; [done|lia].
  - intros i v Hi Hiv. destruct (Hv i v Hi Hiv) as (b1 & p & k & Hloc & Hk & Hkv). exists b1, p, k. split_and!; try done.
    apply loc_inv in Hloc as (j & Hj & Hpp & ->). apply (loc_at (with_chs (chs g ++ [n]) g) j p); [|done]. by apply lookup_app_l_Some.
Qed.

Lemma hp_new g l h n ch : hp g l h → h !! n = None → n ∉ chs g → length (values ch) = G → hp g l (<[n := ch]> h).
Proof using HG.
  intros [Hl Hn Hp Hv] Hfresh Hnin Hlen. split.
  - intros b k [[_ <-]|[_ H]]%lookup_insert_Some; eauto.
  - intros k b1 b2 k1 H1 H2 H3. apply list_elem_of_lookup_2 in H1 as H1'. rewrite lookup_insert_ne in H3 by congruence. by apply (Hn k b1 b2 k1).
  - intros k b1 b2 k1 H1 H2 H3. apply list_elem_of_lookup_2 in H2 as H2'. rewrite lookup_insert_ne in H3 by congruence. by apply (Hp k b1 b2 k1).
  - intros i v Hi Hiv. destruct (Hv i v Hi Hiv) as (b1 & p & k & Hloc & Hk & Hkv). exists b1, p, k. split_and!; try done.
    rewrite lookup_insert_ne; [done|congruence].
Qed.

Lemma hp_linked g h b n chn :
  hp g true h → chs g !! pred (pred (length (chs g))) = Some b → 2 ≤ length (chs g) → NoDup (chs g) →
  chs g !! pred (length (chs g)) = Some n → h !! n = Some chn → prev chn = Some b → hp g false h.
Proof using HG.
  intros [Hl Hn Hp Hv] Hb H2 Hnd Hlast Hchn Hpv. split; try done. intros k b1 b2 k2 Hk1 Hk2 Hh. right.
  destruct (Hp k b1 b2 k2 Hk1 Hk2 Hh) as [[_ E]|]; [|done].
  replace (pred (pred (length (chs g)))) with k in Hb by lia. replace (pred (length (chs g))) with (S k) in Hlast by lia.
  by simplify_eq.
Qed.

Lemma hp_drop_last g l h b :
  hp g l h → chs g !! pred (length (chs g)) = Some b → NoDup (chs g) → l = false →
  length (items g) < off g + G * pred (length (chs g)) →
  hp (with_chs (take (pred (length (chs g))) (chs g)) g) l (delete b h).
Proof using HG.
  intros Hhp Hlast Hnd -> Hlen. set (m := pred (length (chs g))) in *.
  assert (b ∉ take m (chs g)) as Hnin.
  { intros (k & Hk)%list_elem_of_lookup_1. apply lookup_take_Some in Hk as [Hk Hkm].
    pose proof (NoDup_lookup _ _ _ _ Hnd Hk Hlast). lia. }
  apply hp_delete; [|done]. destruct Hhp as [Hl Hn Hp Hv]. split; cbn [chs with_chs items gn]; try done.
  - intros k b1 b2 k1 H1 H2 H3. apply lookup_take_Some in H1 as [H1 _], H2 as [H2 _]. by apply (Hn k b1 b2 k1).
  - intros k b1 b2 k1 H1 H2 H3. apply lookup_take_Some in H1 as [H1 _], H2 as [H2 _]. right. by destruct (Hp k b1 b2 k1 H1 H2 H3) as [[]|].
  - intros i v Hi Hiv. destruct (Hv i v Hi Hiv) as (b1 & p & k & Hloc & Hk & Hkv). exists b1, p, k. split_and!; try done.
    apply loc_inv in Hloc as (j & Hj & Hpp & ->). apply (loc_at (with_chs (take m (chs g)) g) j p); [|done].
    cbn. apply lookup_take_Some. split; [done|]. apply lookup_lt_Some in Hiv. nia.
Qed.

Definition y_drop_first (g : ghost) : ghost := Gh (off g + G) (tail (chs g)) (items g) (gf g) (gw g) (gn g).

Lemma lookup_tail_S {A} (l : list A) k : tail l !! k = l !! S k.
Proof using HG. by destruct l. Qed.

Lemma agree_first g n : agree g (y_drop_first g) n.
Proof using HG.
  intros i H1 _. cbn in H1. unfold loc. cbn. rewrite !decide_True by lia. rewrite lookup_tail_S.
  replace (i - off g) with ((i - (off g + G)) + 1 * G) by lia.
  rewrite Nat.div_add, Nat.Div0.mod_add by lia. by rewrite Nat.add_1_r.
Qed.

Lemma hp_tail g l h : hp g l h → off g + G ≤ gn g → hp (y_drop_first g) l h.
Proof using HG.
  intros [Hl Hn Hp Hv] Hgn. split; cbn [chs y_drop_first items gn]; try done.
  - intros k b1 b2 k1. rewrite !lookup_tail_S. apply Hn.
  - intros k b1 b2 k1. rewrite !lookup_tail_S. intros H1 H2 H3. destruct (Hp (S k) b1 b2 k1 H1 H2 H3) as [[? E]|]; [left|by right].
    split; [done|]. destruct (chs g); cbn in *; lia.
  - intros i v Hi Hiv. destruct (Hv i v Hi Hiv) as (b1 & p & k & Hloc & Hk & Hkv). exists b1, p, k. split_and!; try done.
    rewrite (agree_first g i); [done|cbn; lia|done].
Qed.

Lemma hp_other g l h fi wi : hp g l h → hp (Gh (off g) (chs g) (items g) fi wi (gn g)) l h.
Proof using HG. intros []. by split. Qed.

(** ** Steps of the writer *)

(** What the reader has is not changed by the writer. *)
Definition same_reader (s s' : sys) : Prop :=
  begin_chunk (sy s') = begin_chunk (sy s) ∧ begin_pos (sy s') = begin_pos (sy s) ∧ yr (sy s') = yr (sy s) ∧
  rat s' = rat s ∧ rprog s' = rprog s.

Lemma inv_writer s s' g g' q q' :
  inv s g q → same_reader s s' → off g' = off g → gn g' = gn g → gw g ≤ gw g' →
  agree g g' (length (items g')) → (∀ i v, i < gw g → items g !! i = Some v → items g' !! i = Some v) →
  gw g' ≤ gf g' ∧ gf g' ≤ length (items g') → q_r q' = q_r q →
  hp g' (linking (wat s')) (heap (sy s')) →
  NoDup (chs g' ++ option_list (spare_chunk (sy s')) ++ w_owns (wat s') ++ r_owns (rat s)) →
  dom (heap (sy s')) = list_to_set (chs g' ++ option_list (spare_chunk (sy s')) ++ w_owns (wat s') ++ r_owns (rat s)) →
  (∃ b, back_chunk (sy s') = Some b ∧ loc g' (length (items g')) = Some (b, back_pos (sy s'))) →
  end_ok (sy s') g' (wat s') → loc g' (gw g') = Some (yw (sy s')) → loc g' (gf g') = Some (yf (sy s')) →
  match yc (sy s') with
  | Some p => loc g' (gw g') = Some p ∧ q_asleep q' = false ∧ wat s' ≠ Some f_set
  | None => gn g' = gw g' ∧ sees (rat s) = false ∧ q_asleep q' = true
  end →
  q_f q' = gf g' → q_w q' = gw g' → w_spec g' q' (heap (sy s')) (wat s') (wprog s') → legal (log s') q' →
  inv s' g' q'.
Proof using HG.
  intros Hinv (Eb & Ep & Er & Ea & Eo) Ho Hn Hw Hag Hit Hidx Hqr Hhp Hnd Hdom Hback Hend Hyw Hyf Hc Hqf Hqw Hws Hl.
  destruct (i_idx _ _ _ Hinv) as (I1 & I2 & I3 & I4). split; rewrite ?Ea; try done; [lia|..].
  - destruct (i_front _ _ _ Hinv) as [F1 F2]. unfold front_ok. rewrite Hag, Ho, Hn, Eb, Ep by lia. done.
  - pose proof (i_fetched _ _ _ Hinv) as F. unfold fetched in *. rewrite Er. destruct (yr (sy s)) as [p|]; [|done].
    destruct F as (i & Hi & Hi1 & Hi2). exists i. rewrite Hag, Hn by lia. split_and!; try done; lia.
  - pose proof (i_rs _ _ _ Hinv) as F. unfold r_spec in *. rewrite Hqr, Hn, Eo.
    destruct (rat s) as [[]|]; try done; destruct F as (F1 & F2 & F3); split_and!; try done; apply Hit; try done; lia.
Qed.

Lemma chs_nodup s g q : inv s g q → NoDup (chs g).
Proof using HG. intros H. pose proof (i_nodup _ _ _ H) as Hnd. by apply NoDup_app in Hnd as [? _]. Qed.

Lemma chs_heap s g q k b : inv s g q → chs g !! k = Some b → ∃ ch, heap (sy s) !! b = Some ch.
Proof using HG.
  intros H Hk. assert (b ∈ dom (heap (sy s))) as Hb; [|by apply elem_of_dom in Hb].
  rewrite (i_dom _ _ _ H). apply elem_of_list_to_set, elem_of_app. left. by eapply list_elem_of_lookup_2.
Qed.

Lemma loc_heap s g q i b p : inv s g q → loc g i = Some (b, p) → ∃ ch, heap (sy s) !! b = Some ch ∧ p < G ∧ length (values ch) = G.
Proof using HG.
  intros H (k & Hk & Hp & _)%loc_inv. destruct (chs_heap _ _ _ _ _ H Hk) as [ch Hch]. exists ch. split_and!; try done.
  eapply hp_len; [apply H|done].
Qed.

Lemma back_ptr_run (y : ypipe_t) b : back_chunk y = Some b → back_ptr y = Ok ((b, back_pos y), y).
Proof using Type. intros E. unfold back_ptr, gets, mbind, M_bind. cbn. by rewrite E. Qed.

Lemma y_store_run (y : ypipe_t) b p v ch :
  heap y !! b = Some ch → p < length (values ch) →
  store (b, p) v y = Ok ((), set_heap (insert b (Chunk (<[p := Some v]> (values ch)) (prev ch) (next ch))) y).
Proof using Type.
  intros Hb Hp. unfold store, get_chunk, gets, mbind, M_bind. cbn. rewrite Hb. cbn. by rewrite decide_True.
Qed.

Lemma y_load_run (y : ypipe_t) b p v ch : heap y !! b = Some ch → values ch !! p = Some (Some v) → load (b, p) y = Ok (v, y).
Proof using Type. intros Hb Hp. unfold load, get_chunk, gets, mbind, M_bind. cbn. rewrite Hb. cbn. by rewrite Hp. Qed.

Lemma push_pos_run (y : ypipe_t) :
  push_pos G y = Ok (bool_decide (S (end_pos y) = G),
    set_end (end_chunk y) (S (end_pos y)) (set_back (Some (end_chunk y)) (end_pos y) y)).
Proof using Type. done. Qed.

Lemma move_f_run inc (y : ypipe_t) b :
  back_chunk y = Some b → move_f inc y = Ok ((), if inc then y else set_f (b, back_pos y) y).
Proof using Type. intros E. destruct inc; [done|]. unfold move_f. by rewrite (bind_run _ _ _ _ _ (back_ptr_run _ _ E)). Qed.

Lemma write_ok s g q v inc l :
  inv s g q → wat s = None → wprog s = write v inc :: l →
  ∃ s' g' q', wstep G malloc s = Ok s' ∧ inv s' g' q'.
Proof using HG.
  intros Hinv Hat Hpr. destruct (i_back _ _ _ Hinv) as (b & Hbc & Hbl).
  destruct (loc_heap _ _ _ _ _ _ Hinv Hbl) as (ch & Hch & Hp & Hlen).
  pose proof (i_end _ _ _ Hinv) as He. rewrite Hat in He. destruct He as (He1 & He2 & He3).
  destruct (i_idx _ _ _ Hinv) as (I1 & I2 & I3 & I4). pose proof (chs_nodup _ _ _ Hinv) as Hnd.
  pose proof (i_ws _ _ _ Hinv) as Hws. rewrite Hat in Hws. cbn in Hws.
  set (h' := <[b := Chunk (<[back_pos (sy s) := Some v]> (values ch)) (prev ch) (next ch)]> (heap (sy s))).
  pose proof (hp_store _ _ _ _ _ _ v (i_hp _ _ _ Hinv) Hnd Hbl Hch) as Hhp. fold h' in Hhp. rewrite Hat in Hhp.
  assert (dom h' = dom (heap (sy s))) as Hdom by (unfold h'; rewrite dom_insert_lookup_L by (by eexists); done).
  set (y1 := set_end (end_chunk (sy s)) (S (end_pos (sy s))) (set_back (Some (end_chunk (sy s))) (end_pos (sy s)) (set_heap (λ _, h') (sy s)))).
  assert (loc g (S (length (items g))) = Some (end_chunk (sy s), end_pos (sy s))) as Hloc.
  { rewrite <-He3. by apply loc_at. }
  pose proof (i_nodup _ _ _ Hinv) as Hnd'. pose proof (i_dom _ _ _ Hinv) as Hd'. rewrite Hat in Hnd', Hd'.
  pose proof (i_c _ _ _ Hinv) as Hc. pose proof (i_qf _ _ _ Hinv). pose proof (i_qw _ _ _ Hinv).
  unfold wstep. rewrite Hpr, Hat. cbn [w_begin]. rewrite (bind_run _ _ _ _ _ (back_ptr_run _ _ Hbc)).
  rewrite (bind_run _ _ _ _ _ (y_store_run (sy s) b (back_pos (sy s)) v ch Hch ltac:(lia))).
  rewrite (bind_run _ _ _ _ _ (push_pos_run _)). change (set_heap (insert b _) (sy s)) with (set_heap (λ _, h') (sy s)).
  cbn [end_pos end_chunk set_heap]. fold y1. destruct (bool_decide_reflect (S (end_pos (sy s)) = G)) as [E|E].
  - eexists _, (with_items (items g ++ [v]) g), q. split; [reflexivity|].
    eapply inv_writer; [exact Hinv|..]; cbn [sy wat wprog log]; try done; try apply Hinv.
    + intros i v' _ Hv. by apply lookup_app_l_Some.
    + cbn. rewrite length_app. lia.
    + change (heap y1) with h'. by rewrite Hdom.
    + exists (end_chunk (sy s)). split; [done|]. cbn. by rewrite length_app, Nat.add_1_r.
    + cbn. rewrite length_app. cbn. split_and!; try done. apply lookup_lt_Some in He1. nia.
    + cbn. destruct (yc (sy s)); naive_solver.
    + cbn. exists v, l. by rewrite Hws.
  - rewrite (bind_run _ _ _ _ _ (move_f_run inc y1 (end_chunk (sy s)) eq_refl)).
    eexists _, (Gh (off g) (chs g) (items g ++ [v]) (if inc then gf g else S (length (items g))) (gw g) (gn g)), (q_wop (write v inc) q).2.
    split; [reflexivity|].
    eapply inv_writer; [exact Hinv|..]; cbn [sy wat wprog log]; try done; try (by destruct inc); try (destruct inc; apply Hinv).
    + intros i v' _ Hv. by apply lookup_app_l_Some.
    + cbn. rewrite length_app. destruct inc; cbn; lia.
    + destruct inc; apply (hp_other _ _ _ _ (gw g) Hhp).
    + by destruct inc; (etrans; [apply Hdom|]).
    + exists (end_chunk (sy s)). destruct inc; (split; [done|]); cbn; by rewrite length_app, Nat.add_1_r.
    + destruct inc; cbn; rewrite length_app; cbn; split_and!; try done; lia.
    + destruct inc; cbn; [apply Hinv|done].
    + destruct inc; cbn; destruct (yc (sy s)); naive_solver.
    + cbn. destruct inc; [done|]. by rewrite Hws.
    + cbn. by rewrite Hws.
    + by apply legal_snoc with q; [apply Hinv|].
Qed.

Lemma get_chunk_run (y : ypipe_t) b ch : heap y !! b = Some ch → get_chunk b y = Ok (ch, y).
Proof using Type. intros E. unfold get_chunk, gets, mbind, M_bind. cbn. by rewrite E. Qed.

Lemma get_next_run (y : ypipe_t) b ch n : heap y !! b = Some ch → next ch = Some n → get_next b y = Ok (n, y).
Proof using Type. intros E En. unfold get_next. rewrite (bind_run _ _ _ _ _ (get_chunk_run _ _ _ E)). by rewrite En. Qed.

Lemma get_prev_run (y : ypipe_t) b ch n : heap y !! b = Some ch → prev ch = Some n → get_prev b y = Ok (n, y).
Proof using Type. intros E En. unfold get_prev. rewrite (bind_run _ _ _ _ _ (get_chunk_run _ _ _ E)). by rewrite En. Qed.

Lemma set_next_run (y : ypipe_t) b ch n :
  heap y !! b = Some ch → set_next b n y = Ok ((), set_heap (insert b (Chunk (values ch) (prev ch) n)) y).
Proof using Type. intros E. unfold set_next. by rewrite (bind_run _ _ _ _ _ (get_chunk_run _ _ _ E)). Qed.

Lemma set_prev_run (y : ypipe_t) b ch n :
  heap y !! b = Some ch → set_prev b n y = Ok ((), set_heap (insert b (Chunk (values ch) n (next ch))) y).
Proof using Type. intros E. unfold set_prev. by rewrite (bind_run _ _ _ _ _ (get_chunk_run _ _ _ E)). Qed.

Lemma y_free_run (y : ypipe_t) b ch : heap y !! b = Some ch → free b y = Ok ((), set_heap (delete b) y).
Proof using Type. intros E. unfold free. by rewrite (bind_run _ _ _ _ _ (get_chunk_run _ _ _ E)). Qed.

Lemma w_xchg_ok s g q inc :
  inv s g q → wat s = Some (w_xchg inc) → ∃ s' g' q', wstep G malloc s = Ok s' ∧ inv s' g' q'.
Proof using HG.
  intros Hinv Hat. pose proof (i_ws _ _ _ Hinv) as Hws. rewrite Hat in Hws. destruct Hws as (v & l & Hpr & Hit).
  pose proof (i_nodup _ _ _ Hinv) as Hnd. pose proof (i_dom _ _ _ Hinv) as Hd. rewrite Hat in Hnd, Hd.
  pose proof (i_end _ _ _ Hinv) as He. rewrite Hat in He. pose proof (i_c _ _ _ Hinv) as Hc.
  pose proof (i_hp _ _ _ Hinv) as Hhp. rewrite Hat in Hhp. destruct (i_idx _ _ _ Hinv) as (I1 & I2 & I3 & I4).
  unfold wstep. rewrite Hpr, Hat. eexists _, g, q. split; [reflexivity|].
  eapply inv_writer; [exact Hinv|..]; cbn [sy wat wprog log]; try done; try apply Hinv; [by destruct (spare_chunk (sy s))..| |].
  - cbn. destruct (yc (sy s)); naive_solver.
  - by exists v, l.
Qed.

Lemma last_is (l : list N) b : last l = Some b ↔ l !! pred (length l) = Some b.
Proof using Type. by rewrite last_lookup. Qed.

(** The new chunk [n] is linked behind the last one. *)
Lemma link_ok s g q inc sc n h :
  inv s g q → wat s = Some (w_next inc sc) → hp g false h → is_Some (h !! n) →
  n ∉ chs g → (∀ b, b ∈ chs g → is_Some (h !! b)) →
  NoDup ((chs g ++ [n]) ++ option_list (spare_chunk (sy s)) ++ r_owns (rat s)) →
  dom h = list_to_set ((chs g ++ [n]) ++ option_list (spare_chunk (sy s)) ++ r_owns (rat s)) →
  ∃ y g', set_next (end_chunk (sy s)) (Some n) (set_heap (λ _, h) (sy s)) = Ok ((), y) ∧
    inv (Sys y (Some (w_prev inc)) (wprog s) (rat s) (rprog s) (log s)) g' q.
Proof using HG.
  intros Hinv Hat Hhp [chn Hn] Hnin Hall Hnd Hd. pose proof (i_ws _ _ _ Hinv) as Hws. rewrite Hat in Hws. destruct Hws as (v & l & Hpr & Hit).
  pose proof (i_end _ _ _ Hinv) as He. rewrite Hat in He. destruct He as (He1 & He2 & He3). pose proof (i_c _ _ _ Hinv) as Hc.
  destruct (i_idx _ _ _ Hinv) as (I1 & I2 & I3 & I4). pose proof (chs_nodup _ _ _ Hinv) as Hndc.
  set (e := end_chunk (sy s)) in *. destruct (Hall e) as [che Hche]; [by eapply list_elem_of_lookup_2|].
  assert (e ≠ n) as Hen by (intros ->; apply Hnin; by eapply list_elem_of_lookup_2).
  set (h' := <[e := Chunk (values che) (prev che) (Some n)]> h).
  assert (dom h' = dom h) as Hd' by (unfold h'; by rewrite dom_insert_lookup_L by (by eexists)).
  assert (hp g false h') as Hhp1.
  { apply hp_links; try done.
    - intros k b' Hk Hk'. assert (k = pred (length (chs g))) as -> by (by eapply NoDup_lookup). apply lookup_lt_Some in Hk'. lia.
    - intros k b' Hk Hk'. by apply (hp_prev _ _ _ Hhp k b' e che). }
  assert (hp (with_chs (chs g ++ [n]) g) true h') as Hhp2.
  { apply (hp_last g h' e (Chunk (values che) (prev che) (Some n)) n chn); try done.
    - by apply last_is.
    - unfold h'. by rewrite lookup_insert_eq.
    - unfold h'. by rewrite lookup_insert_ne.
    - lia. }
  assert (agree g (with_chs (chs g ++ [n]) g) (length (items g))) as Hag.
  { apply agree_chs; [done|]. intros k Hk. cbn. apply lookup_app_l. nia. }
  eexists _, (with_chs (chs g ++ [n]) g). split; [apply set_next_run; exact Hche|].
  eapply inv_writer; [exact Hinv|..]; cbn [sy wat wprog log]; try done; try apply Hinv.
  - by etrans.
  - cbn. destruct (i_back _ _ _ Hinv) as (b & Hb & Hbl). exists b. split; [done|]. by rewrite Hag by (cbn; lia).
  - cbn. rewrite length_app. cbn. rewrite Nat.add_1_r. cbn.
    assert (0 < length (chs g)) by (apply lookup_lt_Some in He1; lia). split_and!; [lia| |done|done].
    by apply lookup_app_l_Some.
  - rewrite Hag by (cbn; lia). apply Hinv.
  - rewrite Hag by (cbn; lia). apply Hinv.
  - cbn. rewrite Hag by (cbn; lia). destruct (yc (sy s)); naive_solver.
  - by exists v, l.
Qed.

Lemma w_next_ok s g q inc sc :
  inv s g q → wat s = Some (w_next inc sc) → ∃ s' g' q', wstep G malloc s = Ok s' ∧ inv s' g' q'.
Proof using HG Hmalloc.
  intros Hinv Hat. pose proof (i_ws _ _ _ Hinv) as Hws. rewrite Hat in Hws. destruct Hws as (v & l & Hpr & Hit).
  pose proof (i_nodup _ _ _ Hinv) as Hnd. pose proof (i_dom _ _ _ Hinv) as Hd. rewrite Hat in Hnd, Hd.
  pose proof (i_hp _ _ _ Hinv) as Hhp. rewrite Hat in Hhp.
  assert (∀ b, b ∈ chs g → is_Some (heap (sy s) !! b)) as Hall.
  { intros b (k & Hk)%list_elem_of_lookup_1. by eapply chs_heap. }
  unfold wstep. rewrite Hpr, Hat. cbn [w_cont]. destruct sc as [n|].
  - cbn [w_owns] in *.
    assert (chs g ++ option_list (spare_chunk (sy s)) ++ [n] ++ r_owns (rat s) ≡ₚ
      (chs g ++ [n]) ++ option_list (spare_chunk (sy s)) ++ r_owns (rat s)) as Hp by (rewrite <-(assoc_L (++)); f_equiv; apply Permutation_app_swap_app).
    assert (n ∈ dom (heap (sy s))) as Hn by (rewrite Hd; apply elem_of_list_to_set; set_solver).
    destruct (link_ok s g q inc (Some n) n (heap (sy s)) Hinv Hat Hhp) as (y & g' & Hr & Hinv'); try done.
    + by apply elem_of_dom.
    + intros Hin. apply NoDup_app in Hnd as (_ & Hnd & _). apply (Hnd n Hin). set_solver.
    + by rewrite <-Hp.
    + rewrite Hd. by apply list_to_set_perm_L.
    + exists (Sys y (Some (w_prev inc)) (wprog s) (rat s) (rprog s) (log s)), g', q. split; [|done].
      replace (set_heap (λ _, heap (sy s)) (sy s)) with (sy s) in Hr by (by destruct (sy s)).
      unfold push_next, mbind, M_bind, gets. cbn. by rewrite Hr, Hpr.
  - destruct (Hmalloc (heap (sy s))) as (n & Hm & Hnone). set (h := <[n := Chunk (replicate G None) None None]> (heap (sy s))).
    assert (n ∉ chs g) as Hnin by (intros Hin; destruct (Hall n Hin); congruence).
    assert (n ∉ dom (heap (sy s))) as Hndom by (by apply not_elem_of_dom).
    destruct (link_ok s g q inc None n h Hinv Hat) as (y & g' & Hr & Hinv'); try done.
    + apply hp_new; try done. apply length_replicate.
    + exists (Chunk (replicate G None) None None). apply lookup_insert_eq.
    + intros b Hb. unfold h. rewrite lookup_insert_ne by congruence. by apply Hall.
    + rewrite <-(assoc_L (++)). cbn. rewrite <-Permutation_middle. constructor; [|done].
      intros Hin. apply Hndom. rewrite Hd. by apply elem_of_list_to_set.
    + unfold h. rewrite dom_insert_L, Hd. cbn [w_owns]. set_solver.
    + exists (Sys y (Some (w_prev inc)) (wprog s) (rat s) (rprog s) (log s)), g', q. split; [|done].
      unfold push_next, new_chunk, mbind, M_bind, gets. cbn. rewrite Hm. cbn.
      change (set_heap (insert n _) (sy s)) with (set_heap (λ _, h) (sy s)). by rewrite Hr, Hpr.
Qed.

Lemma w_prev_ok s g q inc :
  inv s g q → wat s = Some (w_prev inc) → ∃ s' g' q', wstep G malloc s = Ok s' ∧ inv s' g' q'.
Proof using HG.
  intros Hinv Hat. pose proof (i_ws _ _ _ Hinv) as Hws. rewrite Hat in Hws. destruct Hws as (v & l & Hpr & Hit).
  pose proof (i_nodup _ _ _ Hinv) as Hnd. pose proof (i_dom _ _ _ Hinv) as Hd. rewrite Hat in Hnd, Hd.
  pose proof (i_end _ _ _ Hinv) as He. rewrite Hat in He. destruct He as (He0 & He1 & He2 & He3). pose proof (i_c _ _ _ Hinv) as Hc.
  pose proof (i_hp _ _ _ Hinv) as Hhp. rewrite Hat in Hhp. destruct (i_idx _ _ _ Hinv) as (I1 & I2 & I3 & I4).
  pose proof (chs_nodup _ _ _ Hinv) as Hndc. set (e := end_chunk (sy s)) in *.
  assert (is_Some (chs g !! pred (length (chs g)))) as [n Hn] by (apply lookup_lt_is_Some; lia).
  destruct (chs_heap _ _ _ _ _ Hinv He1) as [che Hche]. destruct (chs_heap _ _ _ _ _ Hinv Hn) as [chn Hchn].
  assert (next che = Some n) as Hnx.
  { apply (hp_next _ _ _ Hhp (pred (pred (length (chs g)))) e n che He1); [|done]. by replace (S (pred (pred (length (chs g))))) with (pred (length (chs g))) by lia. }
  set (h' := <[n := Chunk (values chn) (Some e) (next chn)]> (heap (sy s))).
  assert (dom h' = dom (heap (sy s))) as Hd' by (unfold h'; by rewrite dom_insert_lookup_L by (by eexists)).
  assert (hp g true h') as Hhp1.
  { apply hp_links; try done.
    - intros k b' Hk Hk'. by apply (hp_next _ _ _ Hhp k n b' chn).
    - intros k b' Hk Hk'. assert (S k = pred (length (chs g))) by (by eapply NoDup_lookup). left. split; [done|lia]. }
  assert (hp g false h') as Hhp2.
  { eapply hp_linked; try done; [unfold h'; apply lookup_insert_eq|done]. }
  unfold wstep. rewrite Hpr, Hat. cbn [w_cont]. unfold push_prev, mbind, M_bind, gets. cbn. fold e.
  rewrite (get_next_run _ _ _ _ Hche Hnx), (set_prev_run _ _ _ _ Hchn).
  eexists _, g, q. split; [reflexivity|].
  eapply inv_writer; [exact Hinv|..]; cbn [sy wat wprog log]; try done; try apply Hinv.
  - by etrans.
  - cbn. destruct (yc (sy s)); naive_solver.
  - by exists v, l.
Qed.

Lemma w_end_ok s g q inc :
  inv s g q → wat s = Some (w_end inc) → ∃ s' g' q', wstep G malloc s = Ok s' ∧ inv s' g' q'.
Proof using HG.
  intros Hinv Hat. pose proof (i_ws _ _ _ Hinv) as Hws. rewrite Hat in Hws. destruct Hws as (v & l & Hpr & Hit).
  pose proof (i_nodup _ _ _ Hinv) as Hnd. pose proof (i_dom _ _ _ Hinv) as Hd. rewrite Hat in Hnd, Hd.
  pose proof (i_end _ _ _ Hinv) as He. rewrite Hat in He. destruct He as (He0 & He1 & He2 & He3). pose proof (i_c _ _ _ Hinv) as Hc.
  pose proof (i_hp _ _ _ Hinv) as Hhp. rewrite Hat in Hhp. destruct (i_idx _ _ _ Hinv) as (I1 & I2 & I3 & I4).
  destruct (i_back _ _ _ Hinv) as (b & Hb & Hbl). pose proof (i_qf _ _ _ Hinv) as Hqf.
  assert (is_Some (chs g !! pred (length (chs g)))) as [n Hn] by (apply lookup_lt_is_Some; lia).
  destruct (chs_heap _ _ _ _ _ Hinv He1) as [che Hche].
  assert (next che = Some n) as Hnx.
  { apply (hp_next _ _ _ Hhp (pred (pred (length (chs g)))) (end_chunk (sy s)) n che He1); [|done]. by replace (S (pred (pred (length (chs g))))) with (pred (length (chs g))) by lia. }
  assert (w_cont G malloc (w_end inc) (sy s) = Ok (inr wrote, if inc then set_end n 0 (sy s) else set_f (b, back_pos (sy s)) (set_end n 0 (sy s)))) as Hr.
  { cbn [w_cont]. rewrite (bind_run _ _ _ () (set_end n 0 (sy s))).
    - by rewrite (bind_run _ _ _ _ _ (move_f_run inc (set_end n 0 (sy s)) b Hb)).
    - unfold push_end, mbind, M_bind, gets. cbn. by rewrite (get_next_run _ _ _ _ Hche Hnx). }
  unfold wstep. rewrite Hpr, Hat, Hr.
  eexists _, (Gh (off g) (chs g) (items g) (if inc then gf g else length (items g)) (gw g) (gn g)), (q_wop (write v inc) q).2.
  split; [reflexivity|].
  eapply inv_writer; [exact Hinv|..]; cbn [sy wat wprog log]; try done; try (by destruct inc); try (destruct inc; apply Hinv).
  - cbn. destruct inc; lia.
  - destruct inc; apply (hp_other _ _ _ _ (gw g) Hhp).
  - destruct inc; cbn; split_and!; try done; lia.
  - destruct inc; cbn; [apply Hinv|done].
  - destruct inc; cbn; destruct (yc (sy s)); naive_solver.
  - cbn. destruct inc; [done|]. rewrite Hit, length_app. cbn. lia.
  - by apply legal_snoc with q; [apply Hinv|].
Qed.

(** [back] one position backwards. *)
Lemma unpush_back_run s g q b i :
  inv s g q → linking (wat s) = false → back_chunk (sy s) = Some b → loc g (S i) = Some (b, back_pos (sy s)) → off g ≤ i →
  ∃ b' p, unpush_back G (sy s) = Ok ((), set_back (Some b') p (sy s)) ∧ loc g i = Some (b', p).
Proof using HG.
  intros Hinv Hat Hbc Hloc Hi. pose proof (loc_inv _ _ _ _ Hloc) as (k & Hk & Hp & E). unfold unpush_back, mbind, M_bind, gets. cbn.
  rewrite Hbc. destruct (back_pos (sy s)) as [|p].
  - destruct k as [|k]; [lia|]. assert (is_Some (chs g !! k)) as [b' Hb'] by (apply lookup_lt_is_Some; apply lookup_lt_Some in Hk; lia).
    destruct (chs_heap _ _ _ _ _ Hinv Hk) as [ch Hch].
    pose proof (i_hp _ _ _ Hinv) as Hhp. rewrite Hat in Hhp. destruct (hp_prev _ _ _ Hhp k b' b ch Hb' Hk Hch) as [[]|Hpv]; [done|].
    rewrite (get_prev_run _ _ _ _ Hch Hpv). exists b', (G - 1). split; [done|].
    replace i with (off g + G * k + (G - 1)) by nia. apply loc_at; [done|lia].
  - exists b, p. split; [done|]. replace i with (off g + G * k + p) by lia. apply loc_at; [done|lia].
Qed.

Lemma unwrite_ok s g q l :
  inv s g q → wat s = None → wprog s = unwrite :: l → ∃ s' g' q', wstep G malloc s = Ok s' ∧ inv s' g' q'.
Proof using HG.
  intros Hinv Hat Hpr. destruct (i_back _ _ _ Hinv) as (b & Hbc & Hbl). pose proof (i_f _ _ _ Hinv) as Hf.
  pose proof (i_end _ _ _ Hinv) as He. rewrite Hat in He. destruct He as (He1 & He2 & He3).
  destruct (i_idx _ _ _ Hinv) as (I1 & I2 & I3 & I4). pose proof (chs_nodup _ _ _ Hinv) as Hnd.
  pose proof (i_ws _ _ _ Hinv) as Hws. rewrite Hat in Hws. cbn in Hws. pose proof (i_qf _ _ _ Hinv) as Hqf.
  pose proof (i_nodup _ _ _ Hinv) as Hnd'. pose proof (i_dom _ _ _ Hinv) as Hd'. rewrite Hat in Hnd', Hd'.
  pose proof (i_c _ _ _ Hinv) as Hc. pose proof (i_hp _ _ _ Hinv) as Hhp. rewrite Hat in Hhp.
  unfold wstep. rewrite Hpr, Hat. cbn [w_begin]. rewrite (bind_run _ _ _ _ _ (back_ptr_run _ _ Hbc)).
  rewrite (bind_run _ _ (sy s) (sy s) (sy s) eq_refl). case_decide as Ef.
  - rewrite Ef in Hf. pose proof (loc_inj _ _ _ _ Hnd Hf Hbl) as Efb. eexists _, g, q. split; [reflexivity|].
    eapply inv_writer; [exact Hinv|..]; cbn [sy wat wprog log]; try done; try apply Hinv.
    + destruct (yc (sy s)); naive_solver.
    + apply legal_snoc with q; [apply Hinv|]. cbn. rewrite decide_True; [done|]. by rewrite Hqf, Hws.
  - assert (gf g ≠ length (items g)) as Hne by (intros E; rewrite E in Hf; congruence).
    destruct (items g) as [|v its _] eqn:Eit using rev_ind; [cbn in *; lia|]. rewrite length_app in *. cbn in Hbl, I4, He3, Hne.
    rewrite Nat.add_1_r in Hbl, He3. destruct (unpush_back_run s g q b (length its) Hinv) as (b' & p & Hub & Hub'); try done; [by rewrite Hat|lia|].
    rewrite (bind_run _ _ _ _ _ Hub).
    destruct (hp_val _ _ _ Hhp (length its) v) as (b1 & p1 & ch & Hl1 & Hch & Hv); [lia|rewrite Eit; by apply list_lookup_middle|].
    assert (agree g (with_items its g) (length its)) as Hag by (by intros i _ _).
    assert (hp (with_items its g) false (heap (sy s))) as Hhp' by (apply hp_items_le; [done|]; rewrite Eit; by eexists).
    assert (∃ ep pc, unpush_pos (set_back (Some b') p (sy s)) = Ok (ep =? 0, set_end (end_chunk (sy s)) pc (set_back (Some b') p (sy s))) ∧
      end_pos (sy s) = ep ∧ pc = pred ep) as (ep & pc & Hup & Hep & ->).
    { unfold unpush_pos, mbind, M_bind, gets. cbn. destruct (end_pos (sy s)) as [|n] eqn:En.
      - exists 0, 0. split_and!; try done. cbn. destruct (sy s). cbn in *. by subst.
      - by exists (S n), n. }
    rewrite (bind_run _ _ _ _ _ Hup).
    eexists _, (with_items its g), q. split; [reflexivity|].
    eapply inv_writer; [exact Hinv|..]; cbn [sy wat wprog log]; try done; try apply Hinv.
    + intros i v' Hi Hv'. rewrite Eit in Hv'. cbn. rewrite lookup_app_l in Hv' by lia. done.
    + cbn. lia.
    + by destruct (ep =? 0).
    + by destruct (ep =? 0).
    + by destruct (ep =? 0).
    + by exists b'.
    + destruct (Nat.eqb_spec ep 0) as [E0|E0]; cbn; split_and!; try done; lia.
    + cbn. destruct (yc (sy s)); [|naive_solver]. split_and!; try naive_solver. by destruct (ep =? 0).
    + destruct (ep =? 0); exists v, l, b1, p1, ch; split_and!; try done; by rewrite Hws, Eit.
Qed.

Lemma u_end_ok s g q : inv s g q → wat s = Some u_end → ∃ s' g' q', wstep G malloc s = Ok s' ∧ inv s' g' q'.
Proof using HG.
  intros Hinv Hat. pose proof (i_ws _ _ _ Hinv) as Hws. rewrite Hat in Hws. pose proof Hws as (v & l & _ & _ & _ & Hpr & _).
  pose proof (i_nodup _ _ _ Hinv) as Hnd. pose proof (i_dom _ _ _ Hinv) as Hd. rewrite Hat in Hnd, Hd.
  pose proof (i_end _ _ _ Hinv) as He. rewrite Hat in He. destruct He as (He0 & He1 & He2 & He3). pose proof (i_c _ _ _ Hinv) as Hc.
  pose proof (i_hp _ _ _ Hinv) as Hhp. rewrite Hat in Hhp. destruct (i_idx _ _ _ Hinv) as (I1 & I2 & I3 & I4).
  assert (is_Some (chs g !! pred (pred (length (chs g))))) as [n Hn] by (apply lookup_lt_is_Some; lia).
  destruct (chs_heap _ _ _ _ _ Hinv He1) as [che Hche].
  assert (prev che = Some n) as Hpv.
  { destruct (hp_prev _ _ _ Hhp (pred (pred (length (chs g)))) n (end_chunk (sy s)) che Hn) as [[]|]; try done.
    by replace (S (pred (pred (length (chs g))))) with (pred (length (chs g))) by lia. }
  unfold wstep. rewrite Hpr, Hat. cbn [w_cont]. unfold unpush_end, mbind, M_bind, gets. cbn.
  rewrite (get_prev_run _ _ _ _ Hche Hpv). eexists _, g, q. split; [reflexivity|].
  eapply inv_writer; [exact Hinv|..]; cbn [sy wat wprog log]; try done; try apply Hinv.
  - cbn. destruct (yc (sy s)); naive_solver.
  - by rewrite <-Hpr.
Qed.

Lemma take_last (l : list N) b : l !! pred (length l) = Some b → l = take (pred (length l)) l ++ [b].
Proof using HG.
  intros H. rewrite <-(take_drop (pred (length l)) l) at 1. f_equal. rewrite (drop_S _ b) by done.
  by rewrite drop_ge by lia.
Qed.

Lemma u_free_ok s g q : inv s g q → wat s = Some u_free → ∃ s' g' q', wstep G malloc s = Ok s' ∧ inv s' g' q'.
Proof using HG Hmalloc.
  intros Hinv Hat. pose proof (i_ws _ _ _ Hinv) as Hws. rewrite Hat in Hws. destruct Hws as (v & l & b & p & ch & Hpr & Hit & Hbl & Hch & Hv).
  pose proof (i_nodup _ _ _ Hinv) as Hnd. pose proof (i_dom _ _ _ Hinv) as Hd. rewrite Hat in Hnd, Hd.
  pose proof (i_end _ _ _ Hinv) as He. rewrite Hat in He. destruct He as (He0 & He1 & He2 & He3). pose proof (i_c _ _ _ Hinv) as Hc.
  pose proof (i_hp _ _ _ Hinv) as Hhp. rewrite Hat in Hhp. destruct (i_idx _ _ _ Hinv) as (I1 & I2 & I3 & I4).
  assert (is_Some (chs g !! pred (length (chs g)))) as [n Hn] by (apply lookup_lt_is_Some; lia).
  destruct (chs_heap _ _ _ _ _ Hinv He1) as [che Hche]. destruct (chs_heap _ _ _ _ _ Hinv Hn) as [chn Hchn].
  assert (next che = Some n) as Hnx.
  { apply (hp_next _ _ _ Hhp (pred (pred (length (chs g)))) (end_chunk (sy s)) n che He1); [|done]. by replace (S (pred (pred (length (chs g))))) with (pred (length (chs g))) by lia. }
  set (m := pred (length (chs g))) in *. set (g' := with_chs (take m (chs g)) g).
  pose proof (take_last _ _ Hn) as Hsplit. fold m in Hsplit. assert (length (take m (chs g)) = m) as Hlm by (rewrite length_take; lia).
  assert (agree g g' (length (items g))) as Hag.
  { apply agree_chs; [done|]. intros k Hk. cbn. apply lookup_take_lt. nia. }
  assert (hp g' false (delete n (heap (sy s)))) as Hhp'.
  { apply hp_drop_last; try done; [by eapply chs_nodup|]. fold m. lia. }
  rewrite Hsplit in Hnd, Hd. cbn [w_owns] in Hnd, Hd. rewrite <-(assoc_L (++)) in Hnd, Hd.
  cbn [app] in Hnd, Hd. rewrite <-Permutation_middle in Hnd. apply NoDup_cons in Hnd as [Hnin Hnd].
  unfold wstep. rewrite Hpr, Hat. cbn [w_cont]. unfold unpush_free, mbind, M_bind, gets. cbn.
  rewrite (get_next_run _ _ _ _ Hche Hnx), (y_free_run _ _ _ Hchn). eexists _, g', q. split; [reflexivity|].
  eapply inv_writer; [exact Hinv|..]; cbn [sy wat wprog log]; try done; try apply Hinv.
  - cbn. rewrite dom_delete_L, Hd. set_solver.
  - destruct (i_back _ _ _ Hinv) as (b1 & Hb1 & Hbl1). exists b1. split; [done|]. by rewrite Hag by (cbn; lia).
  - cbn. rewrite Hlm. split_and!; try done. rewrite lookup_take_lt by lia. done.
  - rewrite Hag by (cbn; lia). apply Hinv.
  - rewrite Hag by (cbn; lia). apply Hinv.
  - cbn. rewrite Hag by (cbn; lia). destruct (yc (sy s)); naive_solver.
  - exists v, l, b, p, ch. split_and!; try done; [by rewrite Hag by (cbn; lia)|]. cbn. rewrite lookup_delete_ne; [done|].
    rewrite <-(Hag (length (items g))) in Hbl by (cbn; lia). apply loc_inv in Hbl as (k & Hk & _). cbn in Hk.
    apply list_elem_of_lookup_2 in Hk. set_solver.
Qed.

Lemma u_null_ok s g q : inv s g q → wat s = Some u_null → ∃ s' g' q', wstep G malloc s = Ok s' ∧ inv s' g' q'.
Proof using HG.
  intros Hinv Hat. pose proof (i_ws _ _ _ Hinv) as Hws. rewrite Hat in Hws. destruct Hws as (v & l & b & p & ch & Hpr & Hit & Hbl & Hch & Hv).
  pose proof (i_nodup _ _ _ Hinv) as Hnd. pose proof (i_dom _ _ _ Hinv) as Hd. rewrite Hat in Hnd, Hd.
  pose proof (i_end _ _ _ Hinv) as He. rewrite Hat in He. destruct He as (He1 & He2 & He3). pose proof (i_c _ _ _ Hinv) as Hc.
  pose proof (i_hp _ _ _ Hinv) as Hhp. rewrite Hat in Hhp. destruct (i_idx _ _ _ Hinv) as (I1 & I2 & I3 & I4).
  destruct (chs_heap _ _ _ _ _ Hinv He1) as [che Hche]. pose proof (chs_nodup _ _ _ Hinv) as Hndc.
  set (h' := <[end_chunk (sy s) := Chunk (values che) (prev che) None]> (heap (sy s))).
  assert (dom h' = dom (heap (sy s))) as Hd' by (unfold h'; by rewrite dom_insert_lookup_L by (by eexists)).
  assert (hp g false h') as Hhp'.
  { apply hp_links; try done.
    - intros k b' Hk Hk'. assert (k = pred (length (chs g))) as -> by (by eapply NoDup_lookup). apply lookup_lt_Some in Hk'. lia.
    - intros k b' Hk Hk'. by apply (hp_prev _ _ _ Hhp k b' (end_chunk (sy s)) che). }
  unfold wstep. rewrite Hpr, Hat. cbn [w_cont]. unfold unpush_null, mbind, M_bind, gets. cbn.
  rewrite (set_next_run _ _ _ _ Hche). eexists _, g, q. split; [reflexivity|].
  eapply inv_writer; [exact Hinv|..]; cbn [sy wat wprog log]; try done; try apply Hinv.
  - by etrans.
  - cbn. apply lookup_lt_Some in He1 as ?. split_and!; try done; nia.
  - cbn. destruct (yc (sy s)); naive_solver.
  - cbn. destruct (decide (b = end_chunk (sy s))) as [->|]; simplify_eq.
    + exists v, l, (end_chunk (sy s)), p, (Chunk (values ch) (prev ch) None). split_and!; try done. apply lookup_insert_eq.
    + exists v, l, b, p, ch. by rewrite lookup_insert_ne.
Qed.

Lemma u_val_ok s g q : inv s g q → wat s = Some u_val → ∃ s' g' q', wstep G malloc s = Ok s' ∧ inv s' g' q'.
Proof using HG.
  intros Hinv Hat. pose proof (i_ws _ _ _ Hinv) as Hws. rewrite Hat in Hws. destruct Hws as (v & l & b & p & ch & Hpr & Hit & Hbl & Hch & Hv).
  pose proof (i_nodup _ _ _ Hinv) as Hnd. pose proof (i_dom _ _ _ Hinv) as Hd. rewrite Hat in Hnd, Hd.
  pose proof (i_end _ _ _ Hinv) as He. rewrite Hat in He. pose proof (i_c _ _ _ Hinv) as Hc.
  pose proof (i_hp _ _ _ Hinv) as Hhp. rewrite Hat in Hhp. destruct (i_idx _ _ _ Hinv) as (I1 & I2 & I3 & I4).
  destruct (i_back _ _ _ Hinv) as (b1 & Hb1 & Hbl1). rewrite Hbl in Hbl1. injection Hbl1 as -> ->. pose proof (i_qf _ _ _ Hinv) as Hqf.
  unfold wstep. rewrite Hpr, Hat. cbn [w_cont]. rewrite (bind_run _ _ _ _ _ (back_ptr_run _ _ Hb1)), (bind_run _ _ _ _ _ (y_load_run _ _ _ _ _ Hch Hv)).
  eexists _, g, (Q (items g) (q_f q) (q_w q) (q_r q) (q_asleep q)). split; [reflexivity|].
  eapply inv_writer; [exact Hinv|..]; cbn [sy wat wprog log]; try done; try apply Hinv.
  - cbn. destruct (yc (sy s)); naive_solver.
  - apply legal_snoc with q; [apply Hinv|]. cbn. rewrite Hit, decide_False by (rewrite length_app; cbn; lia).
    rewrite last_snoc, length_app. cbn. rewrite Nat.add_1_r. cbn. by rewrite take_app_length.
Qed.

Lemma flush_ok s g q l :
  inv s g q → wat s = None → wprog s = flush :: l → ∃ s' g' q', wstep G malloc s = Ok s' ∧ inv s' g' q'.
Proof using HG.
  intros Hinv Hat Hpr. pose proof (i_w _ _ _ Hinv) as Hw. pose proof (i_f _ _ _ Hinv) as Hf.
  pose proof (i_nodup _ _ _ Hinv) as Hnd. pose proof (i_dom _ _ _ Hinv) as Hd. rewrite Hat in Hnd, Hd.
  pose proof (i_end _ _ _ Hinv) as He. rewrite Hat in He. pose proof (i_c _ _ _ Hinv) as Hc.
  pose proof (i_hp _ _ _ Hinv) as Hhp. rewrite Hat in Hhp. destruct (i_idx _ _ _ Hinv) as (I1 & I2 & I3 & I4).
  pose proof (i_ws _ _ _ Hinv) as Hws. rewrite Hat in Hws. cbn in Hws. pose proof (i_qf _ _ _ Hinv) as Hqf. pose proof (i_qw _ _ _ Hinv) as Hqw.
  pose proof (chs_nodup _ _ _ Hinv) as Hndc.
  unfold wstep. rewrite Hpr, Hat. cbn [w_begin]. rewrite (bind_run _ _ (sy s) (sy s) (sy s) eq_refl). case_decide as Ewf.
  { rewrite Ewf in Hw. pose proof (loc_inj _ _ _ _ Hndc Hw Hf) as E. eexists _, g, q. split; [reflexivity|].
    eapply inv_writer; [exact Hinv|..]; cbn [sy wat wprog log]; try done; try apply Hinv.
    - destruct (yc (sy s)); naive_solver.
    - apply legal_snoc with q; [apply Hinv|]. cbn. rewrite decide_True; [done|]. congruence. }
  assert (gw g ≠ gf g) as Hne by (intros E; rewrite E in Hw; congruence).
  unfold cas_c, mbind, M_bind, gets. cbn. destruct (yc (sy s)) as [p|] eqn:Eyc.
  - destruct Hc as (Hc1 & Hc2 & _). assert (p = yw (sy s)) as -> by congruence. rewrite !decide_True by done. cbn. rewrite decide_True by done.
    eexists _, (Gh (off g) (chs g) (items g) (gf g) (gf g) (gn g)), (Q (q_items q) (q_f q) (q_f q) (q_r q) false). split; [reflexivity|].
    eapply inv_writer; [exact Hinv|..]; cbn [sy wat wprog log]; try done; try apply Hinv.
    + by apply (hp_other _ _ _ (gf g) (gf g) Hhp).
    + apply legal_snoc with q; [apply Hinv|]. cbn. rewrite decide_False by congruence. by rewrite Hc2.
  - cbn. eexists _, g, q. split; [reflexivity|].
    eapply inv_writer; [exact Hinv|..]; cbn [sy wat wprog log]; try done; try apply Hinv.
    + by rewrite Eyc.
    + cbn. split_and!; try done. by exists l.
Qed.

Lemma f_set_ok s g q : inv s g q → wat s = Some f_set → ∃ s' g' q', wstep G malloc s = Ok s' ∧ inv s' g' q'.
Proof using HG.
  intros Hinv Hat. pose proof (i_w _ _ _ Hinv) as Hw. pose proof (i_f _ _ _ Hinv) as Hf.
  pose proof (i_nodup _ _ _ Hinv) as Hnd. pose proof (i_dom _ _ _ Hinv) as Hd. rewrite Hat in Hnd, Hd.
  pose proof (i_end _ _ _ Hinv) as He. rewrite Hat in He. pose proof (i_c _ _ _ Hinv) as Hc. rewrite Hat in Hc.
  pose proof (i_hp _ _ _ Hinv) as Hhp. rewrite Hat in Hhp. destruct (i_idx _ _ _ Hinv) as (I1 & I2 & I3 & I4).
  pose proof (i_ws _ _ _ Hinv) as Hws. rewrite Hat in Hws. destruct Hws as (Hit & Hne & l & Hpr).
  pose proof (i_qf _ _ _ Hinv) as Hqf. pose proof (i_qw _ _ _ Hinv) as Hqw.
  destruct (yc (sy s)); [naive_solver|]. destruct Hc as (Hc1 & Hc2 & Hc3).
  unfold wstep. rewrite Hpr, Hat. cbn [w_cont].
  eexists _, (Gh (off g) (chs g) (items g) (gf g) (gf g) (gn g)), (Q (q_items q) (q_f q) (q_f q) (q_r q) false). split; [reflexivity|].
  eapply inv_writer; [exact Hinv|..]; cbn [sy wat wprog log]; try done; try apply Hinv.
  - by apply (hp_other _ _ _ (gf g) (gf g) Hhp).
  - apply legal_snoc with q; [apply Hinv|]. cbn. rewrite decide_False by congruence. by rewrite Hc3.
Qed.

Lemma wstep_ok s g q : inv s g q → ∃ s' g' q', wstep G malloc s = Ok s' ∧ inv s' g' q'.
Proof using HG Hmalloc.
  intros Hinv. destruct (wat s) as [[]|] eqn:Hat.
  - by eapply w_xchg_ok.
  - by eapply w_next_ok.
  - by eapply w_prev_ok.
  - by eapply w_end_ok.
  - by eapply u_end_ok.
  - by eapply u_free_ok.
  - by eapply u_null_ok.
  - by eapply u_val_ok.
  - by eapply f_set_ok.
  - destruct (wprog s) as [|[v inc| |] l] eqn:Hpr.
    + exists s, g, q. split; [|done]. unfold wstep. by rewrite Hpr.
    + by eapply write_ok.
    + by eapply unwrite_ok.
    + by eapply flush_ok.
Qed.

(** ** Steps of the reader *)

Lemma q_items_same s g q i : inv s g q → i < gw g → q_items q !! i = items g !! i.
Proof using HG.
  intros Hinv Hi. pose proof (legal_bounds _ _ (i_legal _ _ _ Hinv)) as (_ & B1 & B2).
  rewrite (i_qw _ _ _ Hinv), (i_qf _ _ _ Hinv) in *. pose proof (i_ws _ _ _ Hinv) as Hws.
  destruct (i_idx _ _ _ Hinv) as (_ & _ & I3 & I4).
  destruct (wat s) as [[]|]; cbn in Hws.
  1-4: destruct Hws as (v & l & _ & ->); by rewrite lookup_app_l by lia.
  1-4: destruct Hws as (v & l & _ & _ & _ & _ & -> & _); by rewrite lookup_app_l by lia.
  - by destruct Hws as [-> _].
  - by rewrite Hws.
Qed.

(** What the writer has is not changed by the reader. *)
Definition same_writer (s s' : sys) : Prop :=
  back_chunk (sy s') = back_chunk (sy s) ∧ back_pos (sy s') = back_pos (sy s) ∧
  end_chunk (sy s') = end_chunk (sy s) ∧ end_pos (sy s') = end_pos (sy s) ∧
  yw (sy s') = yw (sy s) ∧ yf (sy s') = yf (sy s) ∧ wat s' = wat s ∧ wprog s' = wprog s.

Lemma inv_reader s s' g g' q q' :
  inv s g q → same_writer s s' → items g' = items g → gf g' = gf g → gw g' = gw g →
  off g' ≤ gn g' → gn g ≤ gn g' → gn g' ≤ gw g → agree g g' (length (items g)) →
  q_items q' = q_items q → q_f q' = q_f q → q_w q' = q_w q →
  hp g' (linking (wat s)) (heap (sy s')) →
  (∀ b p ch, loc g (length (items g)) = Some (b, p) → heap (sy s) !! b = Some ch →
    ∃ ch', heap (sy s') !! b = Some ch' ∧ values ch' = values ch) →
  NoDup (chs g' ++ option_list (spare_chunk (sy s')) ++ w_owns (wat s) ++ r_owns (rat s')) →
  dom (heap (sy s')) = list_to_set (chs g' ++ option_list (spare_chunk (sy s')) ++ w_owns (wat s) ++ r_owns (rat s')) →
  end_ok (sy s) g' (wat s) → front_ok (sy s') g' (rat s') → fetched (sy s') g' (sees (rat s')) →
  match yc (sy s') with
  | Some p => loc g' (gw g') = Some p ∧ q_asleep q' = false ∧ wat s ≠ Some f_set
  | None => gn g' = gw g' ∧ sees (rat s') = false ∧ q_asleep q' = true
  end →
  r_spec g' q' (rat s') (rprog s') → legal (log s') q' → inv s' g' q'.
Proof using HG.
  intros Hinv (E1 & E2 & E3 & E4 & E5 & E6 & E7 & E8) Hit Hgf Hgw Ho Hn1 Hn2 Hag Q1 Q2 Q3 Hhp Hval Hnd Hd He Hfr Hfe Hc Hrs Hl.
  destruct (i_idx _ _ _ Hinv) as (I1 & I2 & I3 & I4). destruct (i_back _ _ _ Hinv) as (b & Hb1 & Hb2).
  split; rewrite ?E7, ?E8; try done.
  - rewrite Hit, Hgf, Hgw. lia.
  - exists b. rewrite E1, E2, Hit, Hag by lia. done.
  - unfold end_ok in *. by rewrite E3, E4.
  - rewrite Hgw, Hag, E5 by lia. apply Hinv.
  - rewrite Hgf, Hag, E6 by lia. apply Hinv.
  - rewrite Q2, Hgf. apply Hinv.
  - rewrite Q3, Hgw. apply Hinv.
  - pose proof (i_ws _ _ _ Hinv) as Hws. unfold w_spec in *. rewrite Q1, Hit, Hgw, Hgf. destruct (wat s) as [[]|]; try done.
    all: destruct Hws as (v & l & b1 & p & ch & H1 & H2 & H3 & H4 & H5).
    all: destruct (Hval _ _ _ H3 H4) as (ch' & Hc1 & Hc2). all: exists v, l, b1, p, ch'; rewrite Hc2, Hag by lia; done.
Qed.

Lemma front_loc s g q : inv s g q → begin_pos (sy s) < G → gn g = off g + begin_pos (sy s) → loc g (gn g) = Some (front_ptr (sy s)).
Proof using HG.
  intros Hinv Hp ->. destruct (i_front _ _ _ Hinv) as [Hl _]. apply loc_inv in Hl as (k & Hk & _ & E).
  assert (k = 0) as -> by nia. replace (off g + begin_pos (sy s)) with (off g + G * 0 + begin_pos (sy s)) by lia. by apply loc_at.
Qed.

Definition ready (pc : option rpc) : bool :=
  match pc with None | Some r_probe | Some r_seen | Some r_front => true | _ => false end.

Lemma front_ready s g q : inv s g q → ready (rat s) = true →
  begin_pos (sy s) < G ∧ gn g = off g + begin_pos (sy s) ∧ loc g (gn g) = Some (front_ptr (sy s)).
Proof using HG.
  intros Hinv Hr. pose proof (i_front _ _ _ Hinv) as [_ Hf]. destruct (rat s) as [[]|]; try done.
  all: destruct Hf; split_and!; try done; by eapply front_loc.
Qed.

(** [check_read] answers whether there is an item to read; if there is none it leaves
    [c] empty. *)
Lemma check_read_run s g q :
  inv s g q → ready (rat s) = true →
  ∃ b rr cc, do_check_read (sy s) = Ok (b, set_r rr (set_c cc (sy s))) ∧
    (b = true → gn g < gw g ∧ fetched (set_r rr (set_c cc (sy s))) g true ∧ cc = yc (sy s)) ∧
    (b = false → gn g = gw g ∧ fetched (set_r rr (set_c cc (sy s))) g false ∧ cc = None ∧ sees (rat s) = false).
Proof using HG.
  intros Hinv Hrd. destruct (front_ready _ _ _ Hinv Hrd) as (F1 & F2 & F3). pose proof (i_fetched _ _ _ Hinv) as Hf. pose proof (i_c _ _ _ Hinv) as Hc.
  pose proof (chs_nodup _ _ _ Hinv) as Hnd. destruct (i_idx _ _ _ Hinv) as (I1 & I2 & I3 & I4).
  assert (∀ i p, loc g i = Some p → p ≠ front_ptr (sy s) → gn g ≤ i → gn g < i) as Hlt.
  { intros i p Hi Hp Hle. destruct (decide (i = gn g)) as [->|]; [congruence|lia]. }
  unfold do_check_read, mbind, M_bind, gets. cbn. case_decide as Hpre.
  - exists true, (yr (sy s)), (yc (sy s)). split; [by destruct (sy s)|]. split; [intros _|done]. destruct Hpre as [H1 H2].
    unfold fetched in *. cbn. destruct (yr (sy s)) as [p|]; [|done]. destruct Hf as (i & Hi & Hi' & _).
    assert (gn g < i) by (apply (Hlt i p); [done|congruence|lia]). split_and!; [lia| |done]. exists i. split_and!; try done; lia.
  - assert (sees (rat s) = false) as Hns.
    { destruct (sees (rat s)) eqn:Es; [|done]. unfold fetched in Hf. exfalso. destruct (yr (sy s)) as [p|]; [|done].
      destruct Hf as (i & Hi & Hi' & Hs). apply Hpre. split; [done|]. intros [= ->]. pose proof (loc_inj _ _ _ _ Hnd Hi F3). specialize (Hs eq_refl). lia. }
    destruct (yc (sy s)) as [p|] eqn:Eyc; unfold cas_c, mbind, M_bind, gets; cbn; rewrite Eyc.
    + destruct Hc as (Hc1 & Hc2 & Hc3). case_decide as Ep; cbn.
      * exists false, (Some p), None. injection Ep as ->. rewrite bool_decide_false by naive_solver. split; [done|]. split; [done|]. intros _.
        pose proof (loc_inj _ _ _ _ Hnd Hc1 F3). split_and!; try done. exists (gn g). split_and!; try done; lia.
      * exists true, (Some p), (Some p). rewrite bool_decide_true by (split; [done|congruence]). split; [by destruct (sy s); cbn in *; subst|]. split; [intros _|done].
        assert (gn g < gw g) by (apply (Hlt _ p); [done|congruence|lia]). split_and!; try done. exists (gw g). split_and!; try done.
    + destruct Hc as (Hc1 & Hc2 & Hc3). rewrite decide_False by done. cbn. exists false, None, None.
      split; [by destruct (sy s); cbn in *; subst|]. split; [done|]. by intros _.
Qed.

Lemma front_value s g q :
  inv s g q → ready (rat s) = true → gn g < gw g →
  ∃ v, load (front_ptr (sy s)) (sy s) = Ok (v, sy s) ∧ items g !! gn g = Some v.
Proof using HG.
  intros Hinv Hr Hlt. destruct (front_ready _ _ _ Hinv Hr) as (_ & _ & Hl). destruct (i_idx _ _ _ Hinv) as (I1 & I2 & I3 & I4).
  assert (is_Some (items g !! gn g)) as [v Hv] by (apply lookup_lt_is_Some; lia).
  destruct (hp_val _ _ _ (i_hp _ _ _ Hinv) (gn g) v) as (b & p & ch & Hl' & Hch & Hp); [lia|done|].
  assert (front_ptr (sy s) = (b, p)) as -> by congruence. exists v. split; [|done]. by eapply y_load_run.
Qed.

Lemma same_heap_val g (h : gmap N chunk) b p ch :
  loc g (length (items g)) = Some (b, p) → h !! b = Some ch → ∃ ch', h !! b = Some ch' ∧ values ch' = values ch.
Proof using HG. intros _ H. by exists ch. Qed.

(** [check_read] alone, and as the first step of the other operations. *)
Lemma r_begin_ok s g q :
  inv s g q → rat s = None → ∃ s' g' q', rstep G s = Ok s' ∧ inv s' g' q'.
Proof using HG.
  intros Hinv Hat. destruct (rprog s) as [|op l] eqn:Hpr.
  { exists s, g, q. split; [|done]. unfold rstep. by rewrite Hpr. }
  destruct (check_read_run s g q Hinv) as (b & rr & cc & Hr & Ht & Hf); [by rewrite Hat|].
  pose proof (i_nodup _ _ _ Hinv) as Hnd. pose proof (i_dom _ _ _ Hinv) as Hd. rewrite Hat in Hnd, Hd.
  pose proof (i_front _ _ _ Hinv) as Hfr. rewrite Hat in Hfr. pose proof (i_c _ _ _ Hinv) as Hc. rewrite Hat in Hc.
  destruct (i_idx _ _ _ Hinv) as (I1 & I2 & I3 & I4). pose proof (i_rs _ _ _ Hinv) as Hrs. rewrite Hat in Hrs. cbn in Hrs.
  pose proof (i_qw _ _ _ Hinv) as Hqw. pose proof (i_legal _ _ _ Hinv) as Hl.
  unfold rstep. rewrite Hpr, Hat. unfold r_begin. rewrite (bind_run _ _ _ _ _ Hr). destruct b.
  - destruct (Ht eq_refl) as (Hlt & Hfe & ->). clear Ht Hf.
    assert (fetched (set_r rr (set_c (yc (sy s)) (sy s))) g false) as Hfe'.
    { unfold fetched in *. cbn in *. destruct rr; [|done]. destruct Hfe as (i & ? & ? & _). by exists i. }
    assert (match yc (sy s) with Some p => loc g (gw g) = Some p ∧ q_asleep q = false ∧ wat s ≠ Some f_set | None => False end) as Hc'.
    { destruct (yc (sy s)); [done|]. destruct Hc as [? _]. lia. }
    destruct op; eexists _, g, q; (split; [reflexivity|]).
    all: eapply inv_reader; [exact Hinv|..]; cbn [sy rat rprog log]; try done; try apply Hinv; try apply same_heap_val.
    all: try (cbn; by destruct (yc (sy s))).
    + apply legal_snoc with q; [done|]. cbn. rewrite decide_True by lia. done.
    + split; [done|]. by exists l.
    + split; [done|]. by exists l.
  - destruct (Hf eq_refl) as (Heq & Hfe & -> & _). clear Ht Hf.
    destruct op; eexists _, g, (q_sleep q); (split; [reflexivity|]).
    all: eapply inv_reader; [exact Hinv|..]; cbn [sy rat rprog log]; try done; try apply Hinv; try apply same_heap_val.
    all: apply legal_snoc with q; [done|]; cbn; rewrite decide_False by lia; done.
Qed.

Lemma r_probe_ok s g q : inv s g q → rat s = Some r_probe → ∃ s' g' q', rstep G s = Ok s' ∧ inv s' g' q'.
Proof using HG.
  intros Hinv Hat. destruct (check_read_run s g q Hinv) as (b & rr & cc & Hr & Ht & Hf); [by rewrite Hat|].
  pose proof (i_nodup _ _ _ Hinv) as Hnd. pose proof (i_dom _ _ _ Hinv) as Hd. rewrite Hat in Hnd, Hd.
  pose proof (i_front _ _ _ Hinv) as Hfr. rewrite Hat in Hfr. pose proof (i_c _ _ _ Hinv) as Hc. rewrite Hat in Hc.
  destruct (i_idx _ _ _ Hinv) as (I1 & I2 & I3 & I4). pose proof (i_rs _ _ _ Hinv) as Hrs. rewrite Hat in Hrs. pose proof Hrs as (_ & l & Hpr).
  unfold rstep. rewrite Hpr, Hat. cbn [r_cont]. rewrite (bind_run _ _ _ _ _ Hr). destruct b.
  - destruct (Ht eq_refl) as (Hlt & Hfe & ->). eexists _, g, q; (split; [reflexivity|]).
    eapply inv_reader; [exact Hinv|..]; cbn [sy rat rprog log]; try done; try apply Hinv; try apply same_heap_val.
    all: try (cbn; by destruct (yc (sy s))). by rewrite <-Hpr.
  - destruct (Hf eq_refl) as (_ & _ & _ & Hs). by rewrite Hat in Hs.
Qed.

Lemma seen_lt s g q : inv s g q → sees (rat s) = true → gn g < gw g.
Proof using HG.
  intros Hinv Hs. pose proof (i_fetched _ _ _ Hinv) as Hf. rewrite Hs in Hf. unfold fetched in Hf. destruct (yr (sy s)); [|done].
  destruct Hf as (i & _ & ? & Hlt). specialize (Hlt eq_refl). lia.
Qed.

Lemma r_seen_ok s g q : inv s g q → rat s = Some r_seen → ∃ s' g' q', rstep G s = Ok s' ∧ inv s' g' q'.
Proof using HG.
  intros Hinv Hat. pose proof (seen_lt _ _ _ Hinv ltac:(by rewrite Hat)) as Hlt.
  destruct (front_value s g q Hinv ltac:(by rewrite Hat) Hlt) as (v & Hld & Hv).
  pose proof (i_nodup _ _ _ Hinv) as Hnd. pose proof (i_dom _ _ _ Hinv) as Hd. rewrite Hat in Hnd, Hd.
  pose proof (i_front _ _ _ Hinv) as Hfr. rewrite Hat in Hfr. pose proof (i_c _ _ _ Hinv) as Hc. rewrite Hat in Hc.
  pose proof (i_fetched _ _ _ Hinv) as Hfe. rewrite Hat in Hfe.
  destruct (i_idx _ _ _ Hinv) as (I1 & I2 & I3 & I4). pose proof (i_rs _ _ _ Hinv) as Hrs. rewrite Hat in Hrs. destruct Hrs as (Hqr & l & Hpr).
  unfold rstep. rewrite Hpr, Hat. cbn [r_cont]. rewrite (bind_run _ _ (sy s) (sy s) (sy s) eq_refl), (bind_run _ _ _ _ _ Hld).
  eexists _, g, q; (split; [reflexivity|]).
  eapply inv_reader; [exact Hinv|..]; cbn [sy rat rprog log]; try done; try apply Hinv; try apply same_heap_val.
  - unfold fetched in *. cbn in *. destruct (yr (sy s)); [|done]. destruct Hfe as (i & ? & ? & _). by exists i.
  - cbn. destruct (yc (sy s)); [done|naive_solver].
  - apply legal_snoc with q; [apply Hinv|]. cbn. rewrite (i_qw _ _ _ Hinv), Hqr, decide_True by lia.
    by rewrite (q_items_same _ _ _ _ Hinv Hlt), Hv.
Qed.

Definition with_gn (n : nat) (g : ghost) : ghost := Gh (off g) (chs g) (items g) (gf g) (gw g) n.

Lemma hp_gn g l h n : hp g l h → gn g ≤ n → hp (with_gn n g) l h.
Proof using HG. intros [Hl Hn Hp Hv] Hle. split; try done. intros i v Hi. apply Hv. cbn in Hi. lia. Qed.

Lemma r_front_ok s g q : inv s g q → rat s = Some r_front → ∃ s' g' q', rstep G s = Ok s' ∧ inv s' g' q'.
Proof using HG.
  intros Hinv Hat. pose proof (seen_lt _ _ _ Hinv ltac:(by rewrite Hat)) as Hlt.
  destruct (front_value s g q Hinv ltac:(by rewrite Hat) Hlt) as (v & Hld & Hv).
  pose proof (i_nodup _ _ _ Hinv) as Hnd. pose proof (i_dom _ _ _ Hinv) as Hd. rewrite Hat in Hnd, Hd.
  pose proof (i_front _ _ _ Hinv) as Hfr. rewrite Hat in Hfr. destruct Hfr as (Hf1 & Hf2 & Hf3). pose proof (i_c _ _ _ Hinv) as Hc. rewrite Hat in Hc.
  pose proof (i_fetched _ _ _ Hinv) as Hfe. rewrite Hat in Hfe. pose proof (i_end _ _ _ Hinv) as He.
  destruct (i_idx _ _ _ Hinv) as (I1 & I2 & I3 & I4). pose proof (i_rs _ _ _ Hinv) as Hrs. rewrite Hat in Hrs. destruct Hrs as (Hqr & l & Hpr).
  assert (hp (with_gn (S (gn g)) g) (linking (wat s)) (heap (sy s))) as Hhp by (apply hp_gn; [apply Hinv|lia]).
  assert (fetched (set_begin (begin_chunk (sy s)) (S (begin_pos (sy s))) (sy s)) (with_gn (S (gn g)) g) false) as Hfe'.
  { unfold fetched in *. cbn in *. destruct (yr (sy s)); [|done]. destruct Hfe as (i & ? & ? & Hi). specialize (Hi eq_refl). exists i. split_and!; try done; lia. }
  assert (match yc (sy s) with Some p => loc g (gw g) = Some p ∧ q_asleep q = false ∧ wat s ≠ Some f_set | None => False end) as Hc'.
  { destruct (yc (sy s)); [done|naive_solver]. }
  unfold rstep. rewrite Hpr, Hat. cbn [r_cont]. rewrite (bind_run _ _ (sy s) (sy s) (sy s) eq_refl), (bind_run _ _ _ _ _ Hld).
  unfold pop_pos, mbind, M_bind, gets, modify. cbn. case_bool_decide as Efull.
  - eexists _, (with_gn (S (gn g)) g), q; (split; [reflexivity|]).
    eapply inv_reader; [exact Hinv|..]; cbn [sy rat rprog log]; try done; try apply Hinv; try apply same_heap_val; try (cbn; lia).
    + unfold front_ok. cbn. split_and!; [done|lia|lia].
    + cbn. by destruct (yc (sy s)).
    + cbn. rewrite Hqr. split_and!; try done. by exists l.
  - eexists _, (with_gn (S (gn g)) g), (Q (q_items q) (q_f q) (q_w q) (S (q_r q)) (q_asleep q)); (split; [reflexivity|]).
    eapply inv_reader; [exact Hinv|..]; cbn [sy rat rprog log]; try done; try apply Hinv; try apply same_heap_val; try (cbn; lia).
    + unfold front_ok. cbn. split_and!; [done|lia|lia].
    + cbn. by destruct (yc (sy s)).
    + apply legal_snoc with q; [apply Hinv|]. cbn. rewrite (i_qw _ _ _ Hinv), Hqr, decide_True by lia.
      by rewrite (q_items_same _ _ _ _ Hinv Hlt), Hv.
Qed.

Lemma end_tail y g pc :
  end_ok y g pc → off g + G ≤ length (items g) → 0 < length (chs g) → end_ok y (y_drop_first g) pc.
Proof using HG.
  intros He Hoff Hn. unfold end_ok in *. cbn [chs y_drop_first off items].
  assert (length (tail (chs g)) = pred (length (chs g))) as -> by (by destruct (chs g)).
  set (n := length (chs g)) in *. rewrite !lookup_tail_S.
  destruct pc as [[]|]; destruct_and!; split_and!; try done; try nia.
  all: match goal with H : ?c !! ?k = _ |- ?c !! ?k' = _ => replace k' with k by nia; done end.
Qed.

Lemma r_next_ok s g q v : inv s g q → rat s = Some (r_next v) → ∃ s' g' q', rstep G s = Ok s' ∧ inv s' g' q'.
Proof using HG.
  intros Hinv Hat. pose proof (i_nodup _ _ _ Hinv) as Hnd. pose proof (i_dom _ _ _ Hinv) as Hd. rewrite Hat in Hnd, Hd.
  pose proof (i_front _ _ _ Hinv) as Hfr. rewrite Hat in Hfr. destruct Hfr as (Hf1 & Hf2 & Hf3). pose proof (i_c _ _ _ Hinv) as Hc. rewrite Hat in Hc.
  pose proof (i_fetched _ _ _ Hinv) as Hfe. rewrite Hat in Hfe. pose proof (i_hp _ _ _ Hinv) as Hhp.
  destruct (i_idx _ _ _ Hinv) as (I1 & I2 & I3 & I4). pose proof (i_rs _ _ _ Hinv) as Hrs. rewrite Hat in Hrs. pose proof Hrs as (_ & _ & l & Hpr).
  apply loc_inv in Hf1 as (k0 & Hk0 & _ & E0). assert (k0 = 0) as -> by nia. clear E0.
  assert (is_Some (chs g !! 1)) as [n Hn].
  { destruct (i_back _ _ _ Hinv) as (b & _ & Hb). apply loc_inv in Hb as (k & Hk & ? & ?). apply lookup_lt_Some in Hk. apply lookup_lt_is_Some. nia. }
  destruct (chs_heap _ _ _ _ _ Hinv Hk0) as [ch Hch]. pose proof (hp_next _ _ _ Hhp 0 _ n ch Hk0 Hn Hch) as Hnx.
  assert (chs g = begin_chunk (sy s) :: tail (chs g)) as Hsplit by (destruct (chs g); naive_solver).
  pose proof (agree_first g) as Hag.
  unfold rstep. rewrite Hpr, Hat. cbn [r_cont]. unfold pop_next, mbind, M_bind, gets. cbn. rewrite (get_next_run _ _ _ _ Hch Hnx).
  eexists _, (y_drop_first g), q; (split; [reflexivity|]). cbn [modify].
  eapply inv_reader; [exact Hinv|..]; cbn [sy rat rprog log]; try done; try apply Hinv; try apply same_heap_val; try (cbn; lia).
  - apply hp_tail; [done|lia].
  - rewrite Hsplit in Hnd. cbn [r_owns] in *. cbn [chs y_drop_first]. cbn in Hnd. rewrite app_nil_r in Hnd.
    assert (tail (chs g) ++ option_list (spare_chunk (sy s)) ++ w_owns (wat s) ++ [begin_chunk (sy s)] ≡ₚ
      begin_chunk (sy s) :: tail (chs g) ++ option_list (spare_chunk (sy s)) ++ w_owns (wat s)) as -> by (etrans; [|symmetry; apply Permutation_cons_append]; by rewrite <-!(assoc_L (++))).
    done.
  - etrans; [exact Hd|]. rewrite Hsplit at 1. cbn [chs y_drop_first r_owns]. clear. set_solver.
  - apply end_tail; [apply Hinv|lia|]. apply lookup_lt_Some in Hn. lia.
  - split; [|done]. replace (off (y_drop_first g)) with (off (y_drop_first g) + G * 0 + 0) by lia. apply loc_at; [|lia]. cbn. by rewrite lookup_tail_S.
  - unfold fetched in *. cbn in *. destruct (yr (sy s)); [|done]. destruct Hfe as (i & Hi & ? & ?). exists i. split_and!; try done; try lia.
    rewrite (Hag i i); [done|cbn; lia|done].
  - cbn. destruct (yc (sy s)); [|done]. rewrite (Hag (gw g) (gw g)); [done|cbn; lia|done].
  - by rewrite <-Hpr.
Qed.

Lemma r_prev_ok s g q v o : inv s g q → rat s = Some (r_prev v o) → ∃ s' g' q', rstep G s = Ok s' ∧ inv s' g' q'.
Proof using HG.
  intros Hinv Hat. pose proof (i_nodup _ _ _ Hinv) as Hnd. pose proof (i_dom _ _ _ Hinv) as Hd. rewrite Hat in Hnd, Hd.
  pose proof (i_front _ _ _ Hinv) as Hfr. rewrite Hat in Hfr. destruct Hfr as (Hf1 & Hf3). pose proof (i_c _ _ _ Hinv) as Hc. rewrite Hat in Hc.
  pose proof (i_fetched _ _ _ Hinv) as Hfe. rewrite Hat in Hfe. pose proof (i_hp _ _ _ Hinv) as Hhp. pose proof (chs_nodup _ _ _ Hinv) as Hndc.
  destruct (i_idx _ _ _ Hinv) as (I1 & I2 & I3 & I4). pose proof (i_rs _ _ _ Hinv) as Hrs. rewrite Hat in Hrs. pose proof Hrs as (_ & _ & l & Hpr).
  pose proof Hf1 as (k0 & Hk0 & _ & E0)%loc_inv. assert (k0 = 0) as -> by nia.
  destruct (chs_heap _ _ _ _ _ Hinv Hk0) as [ch Hch]. set (b := begin_chunk (sy s)) in *.
  set (h' := <[b := Chunk (values ch) None (next ch)]> (heap (sy s))).
  assert (dom h' = dom (heap (sy s))) as Hd' by (unfold h'; by rewrite dom_insert_lookup_L by (by eexists)).
  unfold rstep. rewrite Hpr, Hat. cbn [r_cont]. unfold pop_prev, mbind, M_bind, gets. cbn. fold b. rewrite (set_prev_run _ _ _ _ Hch).
  eexists _, g, q; (split; [reflexivity|]).
  eapply inv_reader; [exact Hinv|..]; cbn [sy rat rprog log]; try done; try apply Hinv; try (cbn; lia).
  - apply hp_links; try done.
    + intros k b' Hk Hk'. by apply (hp_next _ _ _ Hhp k b b' ch).
    + intros k b' Hk Hk'. pose proof (NoDup_lookup _ _ _ _ Hndc Hk Hk0). lia.
  - intros b1 p ch1 _ Hb1. cbn. destruct (decide (b1 = b)) as [->|]; simplify_eq.
    + eexists. split; [apply lookup_insert_eq|done].
    + exists ch1. by rewrite lookup_insert_ne.
  - by etrans.
  - by rewrite <-Hpr.
Qed.

Lemma r_xchg_ok s g q v o : inv s g q → rat s = Some (r_xchg v o) → ∃ s' g' q', rstep G s = Ok s' ∧ inv s' g' q'.
Proof using HG.
  intros Hinv Hat. pose proof (i_nodup _ _ _ Hinv) as Hnd. pose proof (i_dom _ _ _ Hinv) as Hd. rewrite Hat in Hnd, Hd.
  pose proof (i_front _ _ _ Hinv) as Hfr. rewrite Hat in Hfr. pose proof (i_c _ _ _ Hinv) as Hc. rewrite Hat in Hc.
  pose proof (i_fetched _ _ _ Hinv) as Hfe. rewrite Hat in Hfe. pose proof (i_hp _ _ _ Hinv) as Hhp.
  destruct (i_idx _ _ _ Hinv) as (I1 & I2 & I3 & I4). pose proof (i_rs _ _ _ Hinv) as Hrs. rewrite Hat in Hrs. pose proof Hrs as (_ & _ & l & Hpr).
  assert (chs g ++ [o] ++ w_owns (wat s) ++ option_list (spare_chunk (sy s)) ≡ₚ
    chs g ++ option_list (spare_chunk (sy s)) ++ w_owns (wat s) ++ [o]) as Hp.
  { apply Permutation_app_head. etrans; [apply Permutation_app_comm|]. rewrite <-(assoc_L (++)).
    etrans; [apply Permutation_app_swap_app|]. done. }
  assert (∀ cs, r_owns (Some (r_free v cs)) = option_list cs) as Ho by (by intros []).
  unfold rstep. rewrite Hpr, Hat. cbn [r_cont]. eexists _, g, q; (split; [reflexivity|]).
  eapply inv_reader; [exact Hinv|..]; cbn [sy rat rprog log]; try done; try apply Hinv; try apply same_heap_val; try (cbn; lia).
  - rewrite Ho. cbn [spare_chunk set_spare option_list]. by rewrite Hp.
  - rewrite Ho. cbn [spare_chunk set_spare option_list heap]. rewrite Hd. symmetry. by apply list_to_set_perm_L.
  - by rewrite <-Hpr.
Qed.

Lemma r_free_ok s g q v cs : inv s g q → rat s = Some (r_free v cs) → ∃ s' g' q', rstep G s = Ok s' ∧ inv s' g' q'.
Proof using HG Hmalloc.
  intros Hinv Hat. pose proof (i_nodup _ _ _ Hinv) as Hnd. pose proof (i_dom _ _ _ Hinv) as Hd. rewrite Hat in Hnd, Hd.
  pose proof (i_front _ _ _ Hinv) as Hfr. rewrite Hat in Hfr. destruct Hfr as (Hf1 & Hf2 & Hf3). pose proof (i_c _ _ _ Hinv) as Hc. rewrite Hat in Hc.
  pose proof (i_fetched _ _ _ Hinv) as Hfe. rewrite Hat in Hfe. pose proof (i_hp _ _ _ Hinv) as Hhp.
  destruct (i_idx _ _ _ Hinv) as (I1 & I2 & I3 & I4). pose proof (i_rs _ _ _ Hinv) as Hrs. rewrite Hat in Hrs. destruct Hrs as (Hqr & Hv & l & Hpr).
  assert (∃ h', pop_free cs (sy s) = Ok ((), set_heap (λ _, h') (sy s)) ∧ hp g (linking (wat s)) h' ∧
    dom h' = list_to_set (chs g ++ option_list (spare_chunk (sy s)) ++ w_owns (wat s)) ∧
    NoDup (chs g ++ option_list (spare_chunk (sy s)) ++ w_owns (wat s)) ∧
    ∀ b ch, b ∈ chs g → heap (sy s) !! b = Some ch → h' !! b = Some ch) as (h' & Hr & Hhp' & Hd' & Hnd' & Hkeep).
  { destruct cs as [b|]; cbn [r_owns] in *.
    - assert (b ∈ dom (heap (sy s))) as [ch Hch]%elem_of_dom by (rewrite Hd; set_solver).
      exists (delete b (heap (sy s))). cbn [pop_free]. rewrite (y_free_run _ _ _ Hch). rewrite !(assoc_L (++)) in Hnd.
      apply NoDup_app in Hnd as (Hnd & Hdis & _). rewrite <-!(assoc_L (++)) in Hnd, Hdis. split; [done|]. split_and!.
      + apply hp_delete; [done|]. intros Hin. eapply Hdis; [|by left]. apply elem_of_app. by left.
      + rewrite dom_delete_L, Hd. apply set_eq. intros x. rewrite elem_of_difference, !elem_of_list_to_set. set_solver.
      + done.
      + intros b1 ch1 Hin Hb1. rewrite lookup_delete_ne; [done|]. intros ->. eapply (Hdis b1); [|by left]. apply elem_of_app. by left.
    - rewrite app_nil_r in *. exists (heap (sy s)). split_and!; try done. cbn. by destruct (sy s). }
  unfold rstep. rewrite Hpr, Hat. cbn [r_cont]. rewrite (bind_run _ _ _ _ _ Hr).
  eexists _, g, (Q (q_items q) (q_f q) (q_w q) (S (q_r q)) (q_asleep q)); (split; [reflexivity|]).
  eapply inv_reader; [exact Hinv|..]; cbn [sy rat rprog log]; try done; try apply Hinv; try (cbn; lia).
  - intros b p ch Hl Hb. exists ch. split; [|done]. apply Hkeep; [|done]. apply loc_inv in Hl as (k & Hk & _). by eapply list_elem_of_lookup_2.
  - cbn [r_owns]. by rewrite app_nil_r.
  - cbn [r_owns]. by rewrite app_nil_r.
  - split; [done|]. cbn. lia.
  - apply legal_snoc with q; [apply Hinv|]. cbn. rewrite (i_qw _ _ _ Hinv), decide_True by lia.
    by rewrite (q_items_same _ _ _ (q_r q) Hinv ltac:(lia)), Hv.
Qed.

Lemma rstep_ok s g q : inv s g q → ∃ s' g' q', rstep G s = Ok s' ∧ inv s' g' q'.
Proof using HG Hmalloc.
  intros Hinv. destruct (rat s) as [[]|] eqn:Hat.
  - by eapply r_probe_ok.
  - by eapply r_seen_ok.
  - by eapply r_front_ok.
  - by eapply r_next_ok.
  - by eapply r_prev_ok.
  - by eapply r_xchg_ok.
  - by eapply r_free_ok.
  - by eapply r_begin_ok.
Qed.

Lemma run_threads_ok sched s g q : inv s g q → ∃ s' g' q', run_threads G malloc sched s = Ok s' ∧ inv s' g' q'.
Proof using HG Hmalloc.
  revert s g q. induction sched as [|t sched IH]; intros s g q Hinv; [by exists s, g, q|]. cbn [run_threads].
  destruct t.
  - destruct (wstep_ok _ _ _ Hinv) as (s1 & g1 & q1 & -> & Hinv1). by eapply IH.
  - destruct (rstep_ok _ _ _ Hinv) as (s1 & g1 & q1 & -> & Hinv1). by eapply IH.
Qed.

(** ** The start *)

Lemma start_loc0 (b : N) l : loc (Gh 0 (b :: l) [] 0 0 0) 0 = Some (b, 0).
Proof using HG. unfold loc. cbn. by rewrite Nat.Div0.div_0_l, Nat.Div0.mod_0_l. Qed.

Lemma y_start_inv (h : gmap N chunk) b l e p ws rs :
  (∀ b' ch, h !! b' = Some ch → length (values ch) = G) → NoDup (b :: l) → dom h = list_to_set (b :: l) →
  (∀ k b1 b2 ch, (b :: l) !! k = Some b1 → (b :: l) !! S k = Some b2 → h !! b1 = Some ch → next ch = Some b2) →
  (∀ k b1 b2 ch, (b :: l) !! k = Some b1 → (b :: l) !! S k = Some b2 → h !! b2 = Some ch → prev ch = Some b1) →
  (b :: l) !! length l = Some e → p < G → G * length l + p = 1 →
  inv (Sys (Ypipe h None b 0 (Some b) 0 e p (b, 0) (Some (b, 0)) (b, 0) (Some (b, 0))) None ws None rs [])
    (Gh 0 (b :: l) [] 0 0 0) q_start.
Proof using HG.
  intros Hl Hnd Hd Hn Hp He Hpos E. pose proof (start_loc0 b l) as H0.
  split; cbn [sy wat rat wprog rprog log heap spare_chunk yc yw yf]; try done.
  - split; try done. intros k b1 b2 ch H1 H2 H3. right. by eapply Hp.
  - cbn [w_owns r_owns option_list chs]. by rewrite app_nil_r.
  - cbn [w_owns r_owns option_list chs]. by rewrite app_nil_r.
  - cbn. by exists b.
  - exists 0. split_and!; try done; cbn; lia.
  - constructor.
Qed.

Lemma sys_start_ok ws rs : ∃ s g q, sys_start G malloc ws rs = Ok s ∧ inv s g q.
Proof using HG Hmalloc.
  destruct (Hmalloc ∅) as (b & Hb & _). unfold sys_start, ypipe_start. rewrite Hb.
  set (new := Chunk (replicate G (@None T)) None None). destruct (decide (G = 1)) as [E1|Hne].
  - destruct (Hmalloc {[b := new]}) as (n & Hn & Hfresh). apply lookup_singleton_None in Hfresh.
    set (h := <[n := Chunk (replicate G None) (Some b) None]> (<[b := Chunk (replicate G None) None (Some n)]> (<[n := new]> {[b := new]})) : gmap N chunk).
    eexists _, (Gh 0 [b; n] [] 0 0 0), q_start. split; [|apply (y_start_inv h b [n] n 0)].
    + unfold push, push_pos, push_xchg, xchg_spare, push_next, new_chunk, push_prev, push_end, mbind, M_bind, gets, modify. cbn.
      rewrite bool_decide_true by lia. cbn. fold new. rewrite Hn. cbn.
      unfold put_chunk, modify, set_next, set_prev, get_next, get_chunk, mbind, M_bind, gets. cbn.
      rewrite lookup_insert_ne, lookup_singleton_eq by done. cbn. rewrite lookup_insert_eq. cbn.
      rewrite lookup_insert_ne, lookup_insert_eq by done. cbn. rewrite lookup_insert_ne, lookup_insert_eq by done. done.
    + unfold h. intros b' ch. rewrite !lookup_insert_Some, lookup_singleton_Some. intros Hin. assert (values ch = replicate G None) as -> by naive_solver. apply length_replicate.
    + repeat constructor; set_solver.
    + unfold h. rewrite !dom_insert_L, dom_singleton_L. set_solver.
    + intros [|[|]] b1 b2 ch [= <-] [= <-]. unfold h. rewrite lookup_insert_ne, lookup_insert_eq by done. by intros [= <-].
    + intros [|[|]] b1 b2 ch [= <-] [= <-]. unfold h. rewrite lookup_insert_eq. by intros [= <-].
    + done.
    + lia.
    + cbn. lia.
  - eexists _, (Gh 0 [b] [] 0 0 0), q_start. split; [|apply (y_start_inv {[b := new]} b [] b 1)].
    + unfold push, push_pos, mbind, M_bind, gets, modify. cbn. rewrite bool_decide_false by lia. done.
    + intros b' ch. rewrite lookup_singleton_Some. intros [_ <-]. apply length_replicate.
    + repeat constructor; set_solver.
    + rewrite dom_singleton_L. set_solver.
    + intros [|[|]] b1 b2 ch; done.
    + intros [|[|]] b1 b2 ch; done.
    + done.
    + lia.
    + cbn. lia.
Qed.

(** ** The programs are run to their end *)

Definition wops (l : list event) : list wop := omap (λ e, match e with ew op _ => Some op | er _ _ => None end) l.
Definition rops (l : list (@event T)) : list rop := omap (λ e, match e with er op _ => Some op | ew _ _ => None end) l.

(** The items that were read. *)
Definition gots (l : list event) : list T := omap (λ e, match e with er _ (got v) => v | _ => None end) l.

Definition w_rank (pc : option wpc) : nat :=
  match pc with
  | None => 0
  | Some (w_xchg _) | Some u_end => 1
  | Some (w_next _ _) | Some u_free => 2
  | Some (w_prev _) | Some u_null => 3
  | Some (w_end _) | Some u_val | Some f_set => 4
  end.
Definition r_rank (pc : option rpc) : nat :=
  match pc with
  | None => 0
  | Some r_probe | Some r_front => 1
  | Some r_seen | Some (r_next _) => 2
  | Some (r_prev _ _) => 3
  | Some (r_xchg _ _) => 4
  | Some (r_free _ _) => 5
  end.

Lemma w_begin_rank (op : wop) y pc y' : w_begin G op y = Ok (inl pc, y') → 0 < w_rank (Some pc).
Proof using HG Hmalloc.
  destruct op; cbn [w_begin]; intros H; inv_branch; simplify_eq; try case_match; cbn; lia.
Qed.

Lemma w_cont_rank pc (y : ypipe_t) pc' y' : w_cont G malloc pc y = Ok (inl pc', y') → w_rank (Some pc) < w_rank (Some pc').
Proof using HG Hmalloc. destruct pc; cbn [w_cont]; intros H; inv_run; simplify_eq; cbn; lia. Qed.

Lemma r_begin_rank op y pc y' : r_begin op y = Ok (inl pc, y') → 0 < r_rank (Some pc).
Proof using HG Hmalloc. unfold r_begin. intros H. inv_run. repeat case_match; simplify_eq; cbn; lia. Qed.

Lemma r_cont_rank pc (y : ypipe_t) pc' y' : r_cont G pc y = Ok (inl pc', y') → r_rank (Some pc) < r_rank (Some pc').
Proof using HG Hmalloc. destruct pc; cbn [r_cont]; intros H; inv_branch; simplify_eq; try case_match; simplify_eq; cbn; lia. Qed.

(** A thread has this many steps left at most. *)
Definition w_left (s : sys) : nat := 5 * length (wprog s) - w_rank (wat s).
Definition r_left (s : sys) : nat := 6 * length (rprog s) - r_rank (rat s).

Record progs (s : sys) (ws : list wop) (rs : list rop) : Prop := {
  pg_w : wops (log s) ++ wprog s = ws;
  pg_r : rops (log s) ++ rprog s = rs
}.

Lemma wstep_progs s s' ws rs :
  wstep G malloc s = Ok s' → progs s ws rs →
  progs s' ws rs ∧ r_left s' = r_left s ∧ w_left s' ≤ pred (w_left s).
Proof using HG Hmalloc.
  intros H [Hw Hr]. unfold wstep in H. unfold w_left, r_left. destruct (wprog s) as [|op ops] eqn:Hpr.
  { injection H as <-. split_and!; [by split; rewrite ?Hpr|done|rewrite Hpr; cbn; lia]. }
  assert (w_rank (wat s) < 5) as H5 by (destruct (wat s) as [[]|]; cbn; lia).
  destruct ((match wat s with None => w_begin G op | Some pc => w_cont G malloc pc end) (sy s)) as [[[pc|res] y]|] eqn:E; [..|done]; injection H as <-; cbn [wat wprog rat rprog log] in *; rewrite ?Hpr in *.
  - split_and!; [by split; cbn; rewrite ?Hpr|done|]. assert (w_rank (wat s) < w_rank (Some pc)); [|lia].
    destruct (wat s); [by eapply w_cont_rank|by eapply w_begin_rank].
  - split_and!; [split; cbn|done|cbn; lia].
    + unfold wops. rewrite omap_app. cbn. by rewrite <-(assoc_L (++)).
    + unfold rops. rewrite omap_app. cbn. by rewrite app_nil_r.
Qed.

Lemma rstep_progs s s' ws rs :
  rstep G s = Ok s' → progs s ws rs →
  progs s' ws rs ∧ w_left s' = w_left s ∧ r_left s' ≤ pred (r_left s).
Proof using HG Hmalloc.
  intros H [Hw Hr]. unfold rstep in H. unfold w_left, r_left. destruct (rprog s) as [|op ops] eqn:Hpr.
  { injection H as <-. split_and!; [by split; rewrite ?Hpr|done|rewrite Hpr; cbn; lia]. }
  assert (r_rank (rat s) < 6) as H6 by (destruct (rat s) as [[]|]; cbn; lia).
  destruct ((match rat s with None => r_begin op | Some pc => r_cont G pc end) (sy s)) as [[[pc|res] y]|] eqn:E; [..|done]; injection H as <-; cbn [wat wprog rat rprog log] in *; rewrite ?Hpr in *.
  - split_and!; [by split; cbn; rewrite ?Hpr|done|]. assert (r_rank (rat s) < r_rank (Some pc)); [|lia].
    destruct (rat s); [by eapply r_cont_rank|by eapply r_begin_rank].
  - split_and!; [split; cbn|done|cbn; lia].
    + unfold wops. rewrite omap_app. cbn. by rewrite app_nil_r.
    + unfold rops. rewrite omap_app. cbn. by rewrite <-(assoc_L (++)).
Qed.

#[local] Instance thread_eq_dec : EqDecision thread.
Proof. solve_decision. Defined.

Definition steps_of (t : thread) (sched : list thread) : nat := length (filter (λ t', t' = t) sched).

Lemma steps_of_cons t t' sched : steps_of t (t' :: sched) = (if decide (t' = t) then 1 else 0) + steps_of t sched.
Proof using Type. unfold steps_of. rewrite filter_cons. by case_decide. Qed.

Lemma run_threads_progs sched s s' ws rs :
  run_threads G malloc sched s = Ok s' → progs s ws rs →
  progs s' ws rs ∧ w_left s' ≤ w_left s - steps_of writer sched ∧ r_left s' ≤ r_left s - steps_of reader sched.
Proof using HG Hmalloc.
  revert s. induction sched as [|t sched IH]; intros s H Hp; cbn [run_threads] in H.
  { injection H as <-. unfold steps_of. cbn [filter list_filter length]. split_and!; [done|lia|lia]. }
  rewrite !steps_of_cons. destruct t.
  - destruct (wstep G malloc s) as [s1|] eqn:E; [|done]. destruct (wstep_progs _ _ _ _ E Hp) as (Hp1 & E1 & L1).
    destruct (IH s1 H Hp1) as (? & ? & ?). cbn [decide]. split_and!; [done| |].
    + destruct (decide _); try done; lia.
    + destruct (decide _); try done; lia.
  - destruct (rstep G s) as [s1|] eqn:E; [|done]. destruct (rstep_progs _ _ _ _ E Hp) as (Hp1 & E1 & L1).
    destruct (IH s1 H Hp1) as (? & ? & ?). cbn [decide]. split_and!; [done| |].
    + destruct (decide _); try done; lia.
    + destruct (decide _); try done; lia.
Qed.

Lemma w_left_zero s : w_left s = 0 → wprog s = [].
Proof using HG Hmalloc.
  unfold w_left. assert (w_rank (wat s) < 5) by (destruct (wat s) as [[]|]; cbn; lia). destruct (wprog s); [done|cbn]. lia.
Qed.

Lemma r_left_zero s : r_left s = 0 → rprog s = [].
Proof using HG Hmalloc.
  unfold r_left. assert (r_rank (rat s) < 6) by (destruct (rat s) as [[]|]; cbn; lia). destruct (rprog s); [done|cbn]. lia.
Qed.

(** ** The destructor *)

Lemma free_chunks_run fuel (y : ypipe_t) l :
  NoDup (begin_chunk y :: l) → last (begin_chunk y :: l) = Some (end_chunk y) →
  (∀ k b1 b2, (begin_chunk y :: l) !! k = Some b1 → (begin_chunk y :: l) !! S k = Some b2 →
    ∃ ch, heap y !! b1 = Some ch ∧ next ch = Some b2) →
  (∀ b, b ∈ begin_chunk y :: l → is_Some (heap y !! b)) → length l < fuel →
  ∃ y', free_chunks fuel y = Ok ((), y') ∧ dom (heap y') = dom (heap y) ∖ list_to_set (begin_chunk y :: l) ∧
    spare_chunk y' = spare_chunk y.
Proof using HG Hmalloc.
  revert y l. induction fuel as [|fuel IH]; intros y l Hnd Hlast Hlink Hin Hf; [lia|].
  destruct (Hin (begin_chunk y)) as [ch Hch]; [by left|]. cbn [free_chunks]. rewrite (bind_run _ _ y y y eq_refl).
  destruct l as [|n l].
  - injection Hlast as E. rewrite decide_True by done. rewrite (y_free_run _ _ _ Hch). eexists. split; [done|]. split; [|done].
    cbn. rewrite dom_delete_L. clear. set_solver.
  - assert (begin_chunk y ≠ end_chunk y) as Hne.
    { intros E. apply NoDup_cons in Hnd as [Hnin _]. apply Hnin. rewrite E. rewrite last_cons_cons in Hlast.
      rewrite last_lookup in Hlast. by eapply list_elem_of_lookup_2. }
    rewrite decide_False by done. destruct (Hlink 0 (begin_chunk y) n eq_refl eq_refl) as (ch' & Hch' & Hnx). simplify_eq.
    rewrite (bind_run _ _ _ _ _ (get_next_run _ _ _ _ Hch Hnx)). rewrite (bind_run _ _ y () (set_begin n (begin_pos y) y) eq_refl).
    rewrite (bind_run _ _ _ () (set_heap (delete (begin_chunk y)) (set_begin n (begin_pos y) y))) by (by apply (y_free_run _ _ ch)).
    set (y1 := set_heap (delete (begin_chunk y)) (set_begin n (begin_pos y) y)).
    apply NoDup_cons in Hnd as [Hnin Hnd]. destruct (IH y1 l) as (y' & Hr & Hd & Hs).
    + done.
    + by rewrite last_cons_cons in Hlast.
    + intros k b1 b2 H1 H2. destruct (Hlink (S k) b1 b2 H1 H2) as (c1 & Hc1 & Hc2). exists c1. split; [|done]. cbn.
      rewrite lookup_delete_ne; [done|]. intros <-. apply Hnin. by eapply list_elem_of_lookup_2.
    + intros b Hb. cbn. rewrite lookup_delete_ne; [apply Hin; by right|]. intros <-. by apply Hnin.
    + cbn in Hf. lia.
    + exists y'. split; [done|]. split; [|done]. rewrite Hd. cbn. rewrite dom_delete_L. clear. set_solver.
Qed.

Lemma destroy_run s g q :
  inv s g q → wat s = None → rat s = None → ∃ y, destroy (sy s) = Ok ((), y) ∧ heap y = ∅.
Proof using HG Hmalloc.
  intros Hinv Hw Hr. pose proof (i_nodup _ _ _ Hinv) as Hnd. pose proof (i_dom _ _ _ Hinv) as Hd. rewrite Hw, Hr in *.
  cbn [w_owns r_owns] in Hnd, Hd. rewrite !app_nil_r in Hnd, Hd. pose proof (i_end _ _ _ Hinv) as He. rewrite Hw in He. destruct He as (He & _ & _).
  destruct (i_front _ _ _ Hinv) as [Hf _]. apply loc_inv in Hf as (k & Hk & _ & E). assert (k = 0) as -> by nia.
  assert (chs g = begin_chunk (sy s) :: tail (chs g)) as Hsplit by (destruct (chs g); naive_solver). set (l := tail (chs g)) in *.
  rewrite Hsplit in Hnd, Hd, He. pose proof (i_hp _ _ _ Hinv) as Hhp.
  apply NoDup_app in Hnd as (Hnd & Hdis & _).
  destruct (free_chunks_run (S (size (heap (sy s)))) (sy s) l) as (y' & Hrun & Hdom & Hsp).
  - done.
  - rewrite last_lookup. done.
  - intros k b1 b2 H1 H2. rewrite <-Hsplit in H1, H2. destruct (chs_heap _ _ _ _ _ Hinv H1) as [ch Hch]. exists ch. split; [done|].
    by apply (hp_next _ _ _ Hhp k b1 b2 ch).
  - intros b Hb. rewrite <-Hsplit in Hb. apply list_elem_of_lookup_1 in Hb as [k Hb]. by eapply chs_heap.
  - rewrite <-size_dom, Hd, list_to_set_app_L. rewrite size_union by (clear -Hdis; set_solver).
    rewrite size_list_to_set by done. cbn. lia.
  - unfold destroy. rewrite (bind_run _ _ (sy s) (sy s) (sy s) eq_refl), (bind_run _ _ _ _ _ Hrun).
    unfold xchg_spare, mbind, M_bind, gets, modify. cbn. rewrite Hsp. rewrite Hd in Hdom. destruct (spare_chunk (sy s)) as [b|].
    + assert (dom (heap y') = {[b]}) as Hd1.
      { rewrite Hdom. apply set_eq. intros x. specialize (Hdis x). cbn [option_list] in *. clear -Hdis. set_solver. }
      assert (b ∈ dom (heap y')) as [ch Hch]%elem_of_dom by (rewrite Hd1; by apply elem_of_singleton).
      rewrite (y_free_run (set_spare None y') b ch) by done. eexists. split; [done|]. cbn. apply dom_empty_inv_L. rewrite dom_delete_L, Hd1. set_solver.
    + eexists. split; [done|]. apply dom_empty_inv_L. cbn. rewrite Hdom. cbn [option_list]. rewrite app_nil_r. clear. set_solver.
Qed.

(** ** Plain accesses do not race

    The steps access chunks without synchronisation; [c] and [spare_chunk] are
    accessed with atomic operations. *)

Inductive cell := c_val (b : N) (p : nat) | c_prev (b : N) | c_next (b : N) | c_all (b : N).

(** A cell and whether it is written; [c_all] is a chunk that is freed. *)
Definition access : Type := cell * bool.

Definition next_of (y : ypipe_t) (b : N) : N := default b (heap y !! b ≫= next).

Definition w_access (s : sys) : list access :=
  let y := sy s in
  let b := default 0%N (back_chunk y) in
  match wat s, wprog s with
  | None, write _ _ :: _ => [(c_val b (back_pos y), true)]
  | None, unwrite :: _ => if decide (yf y = (b, back_pos y) ∨ back_pos y ≠ 0) then [] else [(c_prev b, false)]
  | None, _ | Some (w_xchg _), _ | Some f_set, _ => []
  | Some (w_next _ _), _ => [(c_next (end_chunk y), true)]
  | Some (w_prev _), _ => [(c_next (end_chunk y), false); (c_prev (next_of y (end_chunk y)), true)]
  | Some (w_end _), _ => [(c_next (end_chunk y), false)]
  | Some u_end, _ => [(c_prev (end_chunk y), false)]
  | Some u_free, _ => [(c_next (end_chunk y), false); (c_all (next_of y (end_chunk y)), true)]
  | Some u_null, _ => [(c_next (end_chunk y), true)]
  | Some u_val, _ => [(c_val b (back_pos y), false)]
  end.

Definition r_access (s : sys) : list access :=
  let y := sy s in
  match rat s with
  | None | Some r_probe | Some (r_xchg _ _) | Some (r_free _ None) => []
  | Some r_seen | Some r_front => [(c_val (begin_chunk y) (begin_pos y), false)]
  | Some (r_next _) => [(c_next (begin_chunk y), false)]
  | Some (r_prev _ _) => [(c_prev (begin_chunk y), true)]
  | Some (r_free _ (Some b)) => [(c_all b, true)]
  end.

Definition cell_chunk (c : cell) : N := match c with c_val b _ | c_prev b | c_next b | c_all b => b end.

Definition overlap (c c' : cell) : Prop :=
  match c, c' with
  | c_all b, _ => b = cell_chunk c'
  | _, c_all b => cell_chunk c = b
  | _, _ => c = c'
  end.

Definition race (a a' : access) : Prop := overlap a.1 a'.1 ∧ (a.2 = true ∨ a'.2 = true).

(** The chunks the writer is at, and the position of each. *)
Lemma w_access_at s g q a :
  inv s g q → a ∈ w_access s →
  ∃ k, chs g !! k = Some (cell_chunk a.1) ∧
    match a with
    | (c_val b p, true) => loc g (length (items g)) = Some (b, p)
    | (c_val _ _, false) => True
    | (c_prev _, _) => 0 < k
    | (c_next _, true) => k = pred (length (chs g))
    | (c_next _, false) => True
    | (c_all _, _) => 0 < k ∧ length (items g) < off g + G * k
    end.
Proof using HG Hmalloc.
  intros Hinv Ha. destruct (i_back _ _ _ Hinv) as (b & Hbc & Hbl). pose proof (i_end _ _ _ Hinv) as He.
  pose proof (loc_inv _ _ _ _ Hbl) as (k & Hk & Hp & E). destruct (i_idx _ _ _ Hinv) as (I1 & I2 & I3 & I4).
  pose proof (i_hp _ _ _ Hinv) as Hhp.
  assert (∀ j, chs g !! j = Some (end_chunk (sy s)) → is_Some (chs g !! S j) → chs g !! S j = Some (next_of (sy s) (end_chunk (sy s)))) as Hnx.
  { intros j Hj [n Hn]. destruct (chs_heap _ _ _ _ _ Hinv Hj) as [ch Hch]. unfold next_of. rewrite Hch. cbn.
    by rewrite (hp_next _ _ _ Hhp j _ n ch Hj Hn Hch). }
  unfold w_access in Ha. rewrite Hbc in Ha. cbn [default] in Ha. destruct (wat s) as [[]|] eqn:Hat; cbn in Ha, He.
  - by apply elem_of_nil in Ha.
  - apply list_elem_of_singleton in Ha as ->. destruct He as (He & _ & _). exists (pred (length (chs g))). done.
  - destruct He as (H2 & He & _ & _). assert (S (pred (pred (length (chs g)))) = pred (length (chs g))) as Es by lia.
    apply elem_of_cons in Ha as [->|Ha]; [by eexists|]. apply list_elem_of_singleton in Ha as ->. exists (pred (length (chs g))).
    split; [|lia]. cbn. rewrite <-Es. apply Hnx; [done|]. rewrite Es. apply lookup_lt_is_Some. lia.
  - apply list_elem_of_singleton in Ha as ->. destruct He as (_ & He & _). by eexists.
  - apply list_elem_of_singleton in Ha as ->. destruct He as (H2 & He & _). eexists. split; [done|]. lia.
  - destruct He as (H2 & He & _ & Hsz). assert (S (pred (pred (length (chs g)))) = pred (length (chs g))) as Es by lia.
    apply elem_of_cons in Ha as [->|Ha]; [by eexists|]. apply list_elem_of_singleton in Ha as ->. exists (pred (length (chs g))).
    split; [|lia]. cbn. rewrite <-Es. apply Hnx; [done|]. rewrite Es. apply lookup_lt_is_Some. lia.
  - apply list_elem_of_singleton in Ha as ->. destruct He as (He & _ & _). by eexists.
  - apply list_elem_of_singleton in Ha as ->. by exists k.
  - by apply elem_of_nil in Ha.
  - destruct (wprog s) as [|[] ?]; [by apply elem_of_nil in Ha| | |by apply elem_of_nil in Ha].
    + apply list_elem_of_singleton in Ha as ->. by exists k.
    + case_decide as Hd; [by apply elem_of_nil in Ha|]. apply list_elem_of_singleton in Ha as ->. exists k. split; [done|].
      apply Decidable.not_or in Hd as [Hd1 Hd2]. destruct k as [|k]; [|lia]. exfalso. apply Hd1.
      pose proof (i_f _ _ _ Hinv) as Hf. assert (gf g = length (items g)) as Egf by lia. rewrite Egf in Hf. congruence.
Qed.

Lemma no_race s g q a a' : inv s g q → a ∈ w_access s → a' ∈ r_access s → ¬ race a a'.
Proof using HG Hmalloc.
  intros Hinv Ha Ha' [Hov Hwr]. destruct (w_access_at _ _ _ _ Hinv Ha) as (k & Hk & Hka).
  pose proof (i_front _ _ _ Hinv) as [Hf Hfr]. pose proof (loc_inv _ _ _ _ Hf) as (k0 & Hk0 & _ & E0). assert (k0 = 0) as -> by nia. clear E0.
  destruct (i_idx _ _ _ Hinv) as (I1 & I2 & I3 & I4). pose proof (chs_nodup _ _ _ Hinv) as Hnd.
  assert (∀ j, chs g !! j = Some (begin_chunk (sy s)) → j = 0) as Hb0 by (intros j Hj; by eapply NoDup_lookup).
  assert (1 < length (chs g) ∨ gn g < off g + G) as Htwo.
  { destruct (i_back _ _ _ Hinv) as (b & _ & Hb). apply loc_inv in Hb as (j & Hj & ? & ?). apply lookup_lt_Some in Hj.
    destruct (decide (1 < length (chs g))); [by left|right]. assert (j = 0) as -> by lia. lia. }
  unfold r_access in Ha'. destruct (rat s) as [[| | |v|v o|v o|v [b|]]|] eqn:Hat; try (by apply elem_of_nil in Ha').
  all: apply list_elem_of_singleton in Ha' as ->; cbn in Hov, Hwr, Hfr.
  - pose proof (seen_lt _ _ _ Hinv ltac:(by rewrite Hat)). destruct (front_ready _ _ _ Hinv ltac:(by rewrite Hat)) as (_ & _ & Hfl).
    destruct a as [[] wr]; cbn in *; try done; [|subst; specialize (Hb0 _ Hk); lia]. destruct wr; [|naive_solver].
    injection Hov as -> ->. pose proof (loc_inj _ _ _ _ Hnd Hka Hfl). lia.
  - pose proof (seen_lt _ _ _ Hinv ltac:(by rewrite Hat)). destruct (front_ready _ _ _ Hinv ltac:(by rewrite Hat)) as (_ & _ & Hfl).
    destruct a as [[] wr]; cbn in *; try done; [|subst; specialize (Hb0 _ Hk); lia]. destruct wr; [|naive_solver].
    injection Hov as -> ->. pose proof (loc_inj _ _ _ _ Hnd Hka Hfl). lia.
  - destruct a as [[] wr]; cbn in *; try done; [|subst; specialize (Hb0 _ Hk); lia]. destruct wr; [|naive_solver].
    injection Hov as ->. specialize (Hb0 _ Hk). lia.
  - destruct a as [[] wr]; cbn in *; try done; [injection Hov as ->|subst]; specialize (Hb0 _ Hk); lia.
  - assert (cell_chunk a.1 = b) as Hb by (destruct a as [[] wr]; done). rewrite Hb in Hk. pose proof (i_nodup _ _ _ Hinv) as Hnd'.
    rewrite Hat in Hnd'. apply NoDup_app in Hnd' as (_ & Hdis & _). apply (Hdis b); [by eapply list_elem_of_lookup_2|]. cbn. rewrite !elem_of_app. right. right. by left.
Qed.
End ypipe_spec.

(** C6: the lock-free queue.  Whatever the two threads do and however their steps are
    interleaved, no step fails or touches memory that was freed; the operations have
    answered, in the order in which they ended, as a sequential queue answers; the
    items were read in the order in which they were written, and when the reader was
    told that there is nothing to read it has read all that was flushed, until a
    [flush] answers [false].  Plain accesses of the two threads to the same place never
    race.  Every operation of the writer takes at most five steps and every operation
    of the reader at most six, whatever the other thread does. *)
Theorem ypipe_linearizable {T} G (malloc : gmap N (@chunk T) → option N) ws rs sched :
  0 < G → (∀ h, ∃ b, malloc h = Some b ∧ h !! b = None) →
  ∃ s0 s q, sys_start G malloc ws rs = Ok s0 ∧ run_threads G malloc sched s0 = Ok s ∧
    legal (log s) q ∧ gots (log s) = take (q_r q) (q_items q) ∧ (q_asleep q = true → q_r q = q_w q) ∧
    wops (log s) ++ wprog s = ws ∧ rops (log s) ++ rprog s = rs ∧
    (∀ a a', a ∈ w_access s → a' ∈ r_access s → ¬ race a a') ∧
    (5 * length ws ≤ steps_of writer sched → wprog s = []) ∧
    (6 * length rs ≤ steps_of reader sched → rprog s = []).
Proof.
  intros HG Hm. destruct (sys_start_ok G HG malloc Hm ws rs) as (s0 & g0 & q0 & Hs0 & Hinv0).
  destruct (run_threads_ok G HG malloc Hm sched s0 g0 q0 Hinv0) as (s & g & q & Hs & Hinv).
  pose proof (i_legal _ _ _ _ Hinv) as Hl. destruct (legal_reads _ _ Hl) as [Hr1 Hr2].
  assert (wprog s0 = ws ∧ rprog s0 = rs ∧ log s0 = [] ∧ wat s0 = None ∧ rat s0 = None) as (E1 & E2 & E3 & E4 & E5).
  { unfold sys_start in Hs0. destruct (ypipe_start G malloc); [|done]. by injection Hs0 as <-. }
  destruct (run_threads_progs G HG malloc Hm sched s0 s ws rs Hs) as ([Hw Hr] & Lw & Lr); [split; by rewrite E3|].
  exists s0, s, q. split_and!; try done.
  - intros a a'. by eapply no_race.
  - intros Hn. apply (w_left_zero G HG malloc Hm). assert (w_left s0 = 5 * length ws) as E by (unfold w_left; rewrite E1, E4; cbn; lia). lia.
  - intros Hn. apply (r_left_zero G HG malloc Hm). assert (r_left s0 = 6 * length rs) as E by (unfold r_left; rewrite E2, E5; cbn; lia). lia.
Qed.

(** C18: the destructor of the queue, when no operation is under way, frees every chunk,
    each of them once. *)
Theorem ypipe_destroy_frees {T} G (malloc : gmap N (@chunk T) → option N) ws rs sched :
  0 < G → (∀ h, ∃ b, malloc h = Some b ∧ h !! b = None) →
  ∃ s0 s, sys_start G malloc ws rs = Ok s0 ∧ run_threads G malloc sched s0 = Ok s ∧
    (wat s = None → rat s = None → ∃ y, destroy (sy s) = Ok ((), y) ∧ heap y = ∅).
Proof.
  intros HG Hm. destruct (sys_start_ok G HG malloc Hm ws rs) as (s0 & g0 & q0 & Hs0 & Hinv0).
  destruct (run_threads_ok G HG malloc Hm sched s0 g0 q0 Hinv0) as (s & g & q & Hs & Hinv).
  exists s0, s. split_and!; try done. intros Hw Hr. by eapply (destroy_run G HG malloc Hm s g q).
Qed.

(** An allocator that answers with an address that is not in use. *)
Definition fresh_malloc {T} (h : gmap N (@chunk T)) : option N := Some (fresh (dom h)).

Lemma fresh_malloc_ok {T} (h : gmap N (@chunk T)) : ∃ b, fresh_malloc h = Some b ∧ h !! b = None.
Proof. exists (fresh (dom h)). split; [done|]. apply not_elem_of_dom, is_fresh. Qed.

Lemma ypipe_linearizable_witness :
  let ws := [write 1 true; write 2 false; unwrite; flush] in
  let rs := [check_read; read; read] in
  let sched := [writer; reader; writer; writer; writer; writer; reader; reader; writer; writer; reader] in
  ∃ s0 s q, sys_start 2 fresh_malloc ws rs = Ok s0 ∧ run_threads 2 fresh_malloc sched s0 = Ok s ∧
    legal (log s) q ∧ gots (log s) = take (q_r q) (q_items q) ∧ (q_asleep q = true → q_r q = q_w q) ∧
    wops (log s) ++ wprog s = ws ∧ rops (log s) ++ rprog s = rs ∧
    (∀ a a', a ∈ w_access s → a' ∈ r_access s → ¬ race a a') ∧
    (5 * length ws ≤ steps_of writer sched → wprog s = []) ∧
    (6 * length rs ≤ steps_of reader sched → rprog s = []).
Proof. intros ws rs sched. apply (ypipe_linearizable 2 fresh_malloc ws rs sched); [lia|]. apply fresh_malloc_ok. Defined.

Lemma ypipe_destroy_frees_witness :
  let ws := [write 1 false; write 2 false; flush] in
  ∃ s0 s, sys_start 2 fresh_malloc ws [read] = Ok s0 ∧ run_threads 2 fresh_malloc (replicate 15 writer ++ replicate 6 reader) s0 = Ok s ∧
    (wat s = None → rat s = None → ∃ y, destroy (sy s) = Ok ((), y) ∧ heap y = ∅).
Proof. intros ws. apply (ypipe_destroy_frees 2 fresh_malloc ws [read] (replicate 15 writer ++ replicate 6 reader)); [lia|]. apply fresh_malloc_ok. Defined.
