(* ===== verification/ZmqPipe.v ===== *)
(** * The two ends of a pipe (libzmq/src, pipe.cpp)

    A pipe_t on each side, the ypipes between them and the commands they send each
    other.  The methods and the command handlers are modelled statement by statement.
    The ypipes are the sequential queue that ypipe_linearizable shows them to be, so
    each call of one is one step; a method of an end runs to its end before the other
    end does anything.  Sums of [int] that overflow wrap.  Pipes with [conflate] are
    not modelled. *)

From stdpp Require Import base tactics list numbers gmap strings.
From S2P Require Import Prelude ZmqWire ZmqYpipe ZmqYpipeSpec.

Local Open Scope Z_scope.

(** ** The state *)

(** What pipe.cpp looks at in a message. *)
Record pmsg := PMsg { pm_more : bool; pm_identity : bool; pm_credential : bool; pm_delimiter : bool; pm_data : list Z }.

Inductive pstate_t :=
  | active | delimiter_received | waiting_for_delimiter | term_ack_sent | term_req_sent1 | term_req_sent2.

#[global] Instance pstate_t_eq_dec : EqDecision pstate_t.
Proof. solve_decision. Defined.

(** The members of pipe_t; the peer is the other side, [upipe_t *] an index. *)
Record pipe_t := Pipe {
  inpipe : option N; outpipe : option N;
  in_active : bool; out_active : bool;
  hwm : Z; lwm : Z; inhwmboost : Z; outhwmboost : Z;
  msgs_read : Z; msgs_written : Z; peers_msgs_read : Z;
  state : pstate_t; delay : bool; credential : list Z
}.

Inductive side := left_end | right_end.

#[global] Instance side_eq_dec : EqDecision side.
Proof. solve_decision. Defined.

Definition peer (s : side) : side := match s with left_end => right_end | right_end => left_end end.

(** One thing for each side. *)
Record both (A : Type) := Both { at_left : A; at_right : A }.
Arguments Both {_} _ _.
Arguments at_left {_} _.
Arguments at_right {_} _.

Definition sel {A} (b : both A) (s : side) : A := match s with left_end => at_left b | right_end => at_right b end.
Arguments sel {_} _ !_.
Coercion sel : both >-> Funclass.

Definition upd {A} (s : side) (a : A) (b : both A) : both A :=
  match s with left_end => Both a (at_right b) | right_end => Both (at_left b) a end.
Arguments upd {_} !_ _ _.

Inductive cmd :=
  | activate_read | activate_write (msgs_read_ : Z) | hiccup_cmd (pipe_ : N) | pipe_term | pipe_term_ack.

(** The calls of the sink. *)
Inductive sink_event := read_activated | write_activated | hiccuped | pipe_terminated.

Notation upipe := (@qspec pmsg).

(** Both ends, [None] for one that was deleted; the ypipes; the commands on their way
    to each end; what the sinks were told. *)
Record pair := Pair {
  ends : both (option pipe_t);
  upipes : gmap N upipe;
  upipe_next : N;
  cmds : both (list cmd);
  events : list (side * sink_event)
}.

Notation P := (M pair).

Definition set_ends (f : both (option pipe_t) → both (option pipe_t)) (w : pair) : pair :=
  Pair (f (ends w)) (upipes w) (upipe_next w) (cmds w) (events w).
Definition set_upipes (f : gmap N upipe → gmap N upipe) (w : pair) : pair :=
  Pair (ends w) (f (upipes w)) (upipe_next w) (cmds w) (events w).
Definition set_cmds (f : both (list cmd) → both (list cmd)) (w : pair) : pair :=
  Pair (ends w) (upipes w) (upipe_next w) (f (cmds w)) (events w).

(** ** Accesses *)

Definition get_end (s : side) : P pipe_t :=
  w ← gets id; match ends w s with Some p => mret p | None => undefined Dangling end.
Definition put_end (s : side) (p : pipe_t) : P () := modify (set_ends (upd s (Some p))).

(** A call of a method of a ypipe; one through a null pointer or of one that was
    deleted is undefined. *)
Definition on_upipe {A} (u : option N) (f : upipe → A * upipe) : P A :=
  match u with
  | None => undefined NullDeref
  | Some n =>
      w ← gets id;
      match upipes w !! n with
      | None => undefined Dangling
      | Some q => let '(a, q') := f q in modify (set_upipes (insert n q'));; mret a
      end
  end.

Definition up_write (m : pmsg) (incomplete_ : bool) (q : upipe) : () * upipe :=
  ((), (q_wop (write m incomplete_) q).2).
Definition up_unwrite (q : upipe) : option pmsg * upipe :=
  match q_wop unwrite q with (unwrote v, q') => (v, q') | (_, q') => (None, q') end.
Definition up_flush (q : upipe) : bool * upipe :=
  match q_wop flush q with (flushed b, q') => (b, q') | (_, q') => (true, q') end.
Definition up_check_read (q : upipe) : bool * upipe :=
  match q_rop check_read q with (checked b, q') => (b, q') | (_, q') => (true, q') end.
Definition up_read (q : upipe) : option pmsg * upipe :=
  match q_rop read q with (got v, q') => (v, q') | (_, q') => (None, q') end.
(** [probe (is_delimiter)]; without an item its assertion fails. *)
Definition up_probe (q : upipe) : option bool * upipe :=
  match q_rop check_probe q with (probed v, q') => (Some (pm_delimiter v), q') | (_, q') => (None, q') end.

Definition delete_upipe (u : option N) : P () :=
  match u with
  | None => mret ()
  | Some n =>
      w ← gets id;
      match upipes w !! n with
      | None => undefined Dangling
      | Some _ => modify (set_upipes (delete n))
      end
  end.

Definition new_upipe : P N :=
  w ← gets id;
  modify (λ w, Pair (ends w) (<[upipe_next w := q_start]> (upipes w)) (upipe_next w + 1)%N (cmds w) (events w));;
  mret (upipe_next w).

(** [send_...], of the end [s] to its peer. *)
Definition send (s : side) (c : cmd) : P () := modify (set_cmds (λ b, upd (peer s) (b (peer s) ++ [c]) b)).

Definition notify (s : side) (e : sink_event) : P () :=
  modify (λ w, Pair (ends w) (upipes w) (upipe_next w) (cmds w) (events w ++ [(s, e)])).

Definition zmq_assert (b : bool) : P () := if b then mret () else throw (Fatal "Assertion failed").

(** ** Updates of one member *)

Definition set_inpipe u p := Pipe u (outpipe p) (in_active p) (out_active p) (hwm p) (lwm p) (inhwmboost p) (outhwmboost p)
  (msgs_read p) (msgs_written p) (peers_msgs_read p) (state p) (delay p) (credential p).
Definition set_outpipe u p := Pipe (inpipe p) u (in_active p) (out_active p) (hwm p) (lwm p) (inhwmboost p) (outhwmboost p)
  (msgs_read p) (msgs_written p) (peers_msgs_read p) (state p) (delay p) (credential p).
Definition set_in_active b p := Pipe (inpipe p) (outpipe p) b (out_active p) (hwm p) (lwm p) (inhwmboost p) (outhwmboost p)
  (msgs_read p) (msgs_written p) (peers_msgs_read p) (state p) (delay p) (credential p).
Definition set_out_active b p := Pipe (inpipe p) (outpipe p) (in_active p) b (hwm p) (lwm p) (inhwmboost p) (outhwmboost p)
  (msgs_read p) (msgs_written p) (peers_msgs_read p) (state p) (delay p) (credential p).
Definition set_marks h l p := Pipe (inpipe p) (outpipe p) (in_active p) (out_active p) h l (inhwmboost p) (outhwmboost p)
  (msgs_read p) (msgs_written p) (peers_msgs_read p) (state p) (delay p) (credential p).
Definition set_boosts i o p := Pipe (inpipe p) (outpipe p) (in_active p) (out_active p) (hwm p) (lwm p) i o
  (msgs_read p) (msgs_written p) (peers_msgs_read p) (state p) (delay p) (credential p).
Definition set_msgs_read n p := Pipe (inpipe p) (outpipe p) (in_active p) (out_active p) (hwm p) (lwm p) (inhwmboost p) (outhwmboost p)
  n (msgs_written p) (peers_msgs_read p) (state p) (delay p) (credential p).
Definition set_msgs_written n p := Pipe (inpipe p) (outpipe p) (in_active p) (out_active p) (hwm p) (lwm p) (inhwmboost p) (outhwmboost p)
  (msgs_read p) n (peers_msgs_read p) (state p) (delay p) (credential p).
Definition set_peers_msgs_read n p := Pipe (inpipe p) (outpipe p) (in_active p) (out_active p) (hwm p) (lwm p) (inhwmboost p) (outhwmboost p)
  (msgs_read p) (msgs_written p) n (state p) (delay p) (credential p).
Definition set_state st p := Pipe (inpipe p) (outpipe p) (in_active p) (out_active p) (hwm p) (lwm p) (inhwmboost p) (outhwmboost p)
  (msgs_read p) (msgs_written p) (peers_msgs_read p) st (delay p) (credential p).
Definition set_delay b p := Pipe (inpipe p) (outpipe p) (in_active p) (out_active p) (hwm p) (lwm p) (inhwmboost p) (outhwmboost p)
  (msgs_read p) (msgs_written p) (peers_msgs_read p) (state p) b (credential p).
Definition set_credential c p := Pipe (inpipe p) (outpipe p) (in_active p) (out_active p) (hwm p) (lwm p) (inhwmboost p) (outhwmboost p)
  (msgs_read p) (msgs_written p) (peers_msgs_read p) (state p) (delay p) c.

Definition change (s : side) (f : pipe_t → pipe_t) : P () := p ← get_end s; put_end s (f p).

(** ** Water marks *)

(** [(hwm_ + 1) / 2] on [int]. *)
Definition compute_lwm (hwm_ : Z) : Z := Z.quot (i32 (hwm_ + 1)) 2.

Definition set_hwms (inhwm_ outhwm_ : Z) (p : pipe_t) : pipe_t :=
  let hin := if (inhwm_ <=? 0) || (inhwmboost p <=? 0) then 0 else i32 (inhwm_ + inhwmboost p) in
  let hout := if (outhwm_ <=? 0) || (outhwmboost p <=? 0) then 0 else i32 (outhwm_ + outhwmboost p) in
  set_marks hout (compute_lwm hin) p.

Definition check_hwm (p : pipe_t) : bool :=
  negb ((0 <? hwm p) && (u64 (msgs_written p - peers_msgs_read p) >=? u64 (hwm p))).

(** ** The methods *)

(** The delimiter was read. *)
Definition process_delimiter (s : side) : P () :=
  p ← get_end s;
  zmq_assert (bool_decide (state p = active ∨ state p = waiting_for_delimiter));;
  if decide (state p = active) then change s (set_state delimiter_received)
  else change s (set_outpipe None);; send s pipe_term_ack;; change s (set_state term_ack_sent).

(** [in_active] and the two states in which there is something to read. *)
Definition readable (p : pipe_t) : bool :=
  in_active p && bool_decide (state p = active ∨ state p = waiting_for_delimiter).

Definition pipe_check_read (s : side) : P bool :=
  p ← get_end s;
  if negb (readable p) then mret false
  else
    b ← on_upipe (inpipe p) up_check_read;
    if negb b then change s (set_in_active false);; mret false
    else
      d ← on_upipe (inpipe p) up_probe;
      match d with
      | None => throw (Fatal "Assertion failed: rc")
      | Some true =>
          m ← on_upipe (inpipe p) up_read;
          zmq_assert (bool_decide (is_Some m));;
          process_delimiter s;; mret false
      | Some false => mret true
      end.

(** The loop [read_message] passes over credentials; [fuel] bounds the items in the
    ypipe. *)
Fixpoint read_message (fuel : nat) (s : side) : P (option pmsg) :=
  match fuel with
  | O => throw OutOfFuel
  | S fuel =>
      p ← get_end s;
      o ← on_upipe (inpipe p) up_read;
      match o with
      | None => change s (set_in_active false);; mret None
      | Some m =>
          if pm_credential m then change s (set_credential (pm_data m));; read_message fuel s
          else if pm_delimiter m then process_delimiter s;; mret None
          else
            (if negb (pm_more m) && negb (pm_identity m) then change s (λ p, set_msgs_read (u64 (msgs_read p + 1)) p) else mret ());;
            p ← get_end s;
            (if (0 <? lwm p) && (msgs_read p mod u64 (lwm p) =? 0) then send s (activate_write (msgs_read p)) else mret ());;
            mret (Some m)
      end
  end.

(** The number of items a ypipe can still give, and one more. *)
Definition items_fuel (u : option N) : P nat :=
  w ← gets id; mret (S (default 0%nat (n ← u; q ← upipes w !! n; Some (length (q_items q))))).

Definition pipe_read (s : side) : P (option pmsg) :=
  p ← get_end s;
  if negb (readable p) then mret None
  else fuel ← items_fuel (inpipe p); read_message fuel s.

Definition pipe_check_write (s : side) : P bool :=
  p ← get_end s;
  if negb (out_active p) || negb (bool_decide (state p = active)) then mret false
  else if negb (check_hwm p) then change s (set_out_active false);; mret false
  else mret true.

Definition pipe_write (s : side) (m : pmsg) : P bool :=
  ok ← pipe_check_write s;
  if negb ok then mret false
  else
    p ← get_end s;
    on_upipe (outpipe p) (up_write m (pm_more m));;
    (if negb (pm_more m) && negb (pm_identity m) then change s (λ p, set_msgs_written (u64 (msgs_written p + 1)) p) else mret ());;
    mret true.

Fixpoint rollback_loop (fuel : nat) (u : option N) : P () :=
  match fuel with
  | O => throw OutOfFuel
  | S fuel =>
      o ← on_upipe u up_unwrite;
      match o with
      | Some m => zmq_assert (pm_more m);; rollback_loop fuel u
      | None => mret ()
      end
  end.

Definition pipe_rollback (s : side) : P () :=
  p ← get_end s;
  match outpipe p with
  | None => mret ()
  | Some _ => fuel ← items_fuel (outpipe p); rollback_loop fuel (outpipe p)
  end.

Definition pipe_flush (s : side) : P () :=
  p ← get_end s;
  if decide (state p = term_ack_sent) then mret ()
  else
    match outpipe p with
    | None => mret ()
    | Some _ => b ← on_upipe (outpipe p) up_flush; if b : bool then mret () else send s activate_read
    end.

(** A new inbound ypipe; the peer deletes the old one. *)
Definition pipe_hiccup (s : side) : P () :=
  p ← get_end s;
  if negb (bool_decide (state p = active)) then mret ()
  else
    n ← new_upipe;
    change s (λ p, set_in_active true (set_inpipe (Some n) p));;
    send s (hiccup_cmd n).

Definition set_nodelay (s : side) : P () := change s (set_delay false).

Definition the_delimiter : pmsg := PMsg false false false true [].

Definition stop_outbound (s : side) : P () :=
  change s (set_out_active false);;
  p ← get_end s;
  match outpipe p with
  | None => mret ()
  | Some _ => pipe_rollback s;; on_upipe (outpipe p) (up_write the_delimiter false);; pipe_flush s
  end.

Definition terminate (s : side) (delay_ : bool) : P () :=
  change s (set_delay delay_);;
  p ← get_end s;
  match state p with
  | term_req_sent1 | term_req_sent2 | term_ack_sent => mret ()
  | active => send s pipe_term;; change s (set_state term_req_sent1);; stop_outbound s
  | waiting_for_delimiter =>
      (if delay p then mret ()
       else change s (set_outpipe None);; send s pipe_term_ack;; change s (set_state term_ack_sent));;
      stop_outbound s
  | delimiter_received => send s pipe_term;; change s (set_state term_req_sent1);; stop_outbound s
  end.

(** ** The command handlers *)

Definition process_activate_read (s : side) : P () :=
  p ← get_end s;
  if negb (in_active p) && bool_decide (state p = active ∨ state p = waiting_for_delimiter) then
    change s (set_in_active true);; notify s read_activated
  else mret ().

Definition process_activate_write (s : side) (msgs_read_ : Z) : P () :=
  change s (set_peers_msgs_read msgs_read_);;
  p ← get_end s;
  if negb (out_active p) && bool_decide (state p = active) then
    change s (set_out_active true);; notify s write_activated
  else mret ().

(** What is in the old ypipe is dropped. *)
Fixpoint drop_written (fuel : nat) (s : side) (u : option N) : P () :=
  match fuel with
  | O => throw OutOfFuel
  | S fuel =>
      o ← on_upipe u up_read;
      match o with
      | Some m =>
          (if negb (pm_more m) then change s (λ p, set_msgs_written (u64 (msgs_written p - 1)) p) else mret ());;
          drop_written fuel s u
      | None => mret ()
      end
  end.

Definition process_hiccup (s : side) (pipe_ : N) : P () :=
  p ← get_end s;
  zmq_assert (bool_decide (is_Some (outpipe p)));;
  on_upipe (outpipe p) up_flush;;
  fuel ← items_fuel (outpipe p); drop_written fuel s (outpipe p);;
  delete_upipe (outpipe p);;
  change s (λ p, set_out_active true (set_outpipe (Some pipe_) p));;
  p ← get_end s;
  if decide (state p = active) then notify s hiccuped else mret ().

Definition process_pipe_term (s : side) : P () :=
  p ← get_end s;
  zmq_assert (bool_decide (state p = active ∨ state p = delimiter_received ∨ state p = term_req_sent1));;
  match state p with
  | active =>
      if delay p then change s (set_state waiting_for_delimiter)
      else change s (set_state term_ack_sent);; change s (set_outpipe None);; send s pipe_term_ack
  | delimiter_received => change s (set_state term_ack_sent);; change s (set_outpipe None);; send s pipe_term_ack
  | term_req_sent1 => change s (set_state term_req_sent2);; change s (set_outpipe None);; send s pipe_term_ack
  | _ => mret ()
  end.

Fixpoint drop_unread (fuel : nat) (u : option N) : P () :=
  match fuel with
  | O => throw OutOfFuel
  | S fuel => o ← on_upipe u up_read; match o with Some _ => drop_unread fuel u | None => mret () end
  end.

Definition process_pipe_term_ack (s : side) : P () :=
  notify s pipe_terminated;;
  p ← get_end s;
  (if decide (state p = term_req_sent1) then change s (set_outpipe None);; send s pipe_term_ack
   else zmq_assert (bool_decide (state p = term_ack_sent ∨ state p = term_req_sent2)));;
  fuel ← items_fuel (inpipe p); drop_unread fuel (inpipe p);;
  delete_upipe (inpipe p);;
  modify (set_ends (upd s None)).

Definition process_command (s : side) (c : cmd) : P () :=
  match c with
  | activate_read => process_activate_read s
  | activate_write n => process_activate_write s n
  | hiccup_cmd n => process_hiccup s n
  | pipe_term => process_pipe_term s
  | pipe_term_ack => process_pipe_term_ack s
  end.

(** ** Programs

    What the owner of an end does.  An end that was deleted is not used again: its
    owner was told so by [pipe_terminated]. *)

Inductive pop :=
  | op_check_read | op_read | op_check_write | op_write (m : pmsg) | op_rollback | op_flush
  | op_hiccup | op_set_nodelay | op_terminate (delay_ : bool)
  | op_set_hwms (inhwm_ outhwm_ : Z) | op_set_boosts (i o : Z)
  | op_command.

(** What the owner gets: an answer, or the message of a [read]. *)
Inductive pres := no_res | res_bool (b : bool) | res_msg (m : option pmsg).

Definition take_command (s : side) : P (option cmd) :=
  w ← gets id;
  match cmds w s with
  | [] => mret None
  | c :: l => modify (set_cmds (upd s l));; mret (Some c)
  end.

Definition run_pop (s : side) (o : pop) : P pres :=
  match o with
  | op_check_read => b ← pipe_check_read s; mret (res_bool b)
  | op_read => m ← pipe_read s; mret (res_msg m)
  | op_check_write => b ← pipe_check_write s; mret (res_bool b)
  | op_write m => b ← pipe_write s m; mret (res_bool b)
  | op_rollback => pipe_rollback s;; mret no_res
  | op_flush => pipe_flush s;; mret no_res
  | op_hiccup => pipe_hiccup s;; mret no_res
  | op_set_nodelay => set_nodelay s;; mret no_res
  | op_terminate d => terminate s d;; mret no_res
  | op_set_hwms i o => change s (set_hwms i o);; mret no_res
  | op_set_boosts i o => change s (set_boosts i o);; mret no_res
  | op_command => c ← take_command s; match c with Some c => process_command s c;; mret no_res | None => mret no_res end
  end.

Definition step_pop (s : side) (o : pop) : P pres :=
  w ← gets id; match ends w s with None => mret no_res | Some _ => run_pop s o end.

Fixpoint run_pops (l : list (side * pop)) : P (list (side * pop * pres)) :=
  match l with
  | [] => mret []
  | (s, o) :: l => r ← step_pop s o; rs ← run_pops l; mret ((s, o, r) :: rs)
  end.

(** [pipepair] with the high water marks of the two directions. *)
Definition new_pipe (inp outp : N) (inhwm_ outhwm_ : Z) : pipe_t :=
  Pipe (Some inp) (Some outp) true true outhwm_ (compute_lwm inhwm_) 0 0 0 0 0 active true [].

Definition pipepair (hwm0 hwm1 : Z) : pair :=
  Pair (Both (Some (new_pipe 0 1 hwm1 hwm0)) (Some (new_pipe 1 0 hwm0 hwm1)))
    {[0%N := q_start; 1%N := q_start]} 2 (Both [] []) [].
