(* ===== verification/ZmqPipeSpec.v ===== *)
(** * Two ends that part in good order (libzmq/src, pipe.cpp)

    Every method and every command handler of a pipe is a sequence of small moves of
    one end: it takes an item, writes one, sends a command, changes its state.  The
    moves keep an invariant that says which commands can be on their way in which
    states and who owns which ypipe.  So no assertion fails, nothing is used after it
    was deleted, and when both ends are gone so are all ypipes. *)

From stdpp Require Import base tactics list numbers gmap strings.
From S2P Require Import Prelude ZmqWire ZmqYpipe ZmqYpipeSpec ZmqPipe.

Local Open Scope Z_scope.

(** ** Sides *)

Lemma peer_peer s : peer (peer s) = s.
Proof. by destruct s. Qed.
Lemma peer_ne s : peer s ≠ s.
Proof. by destruct s. Qed.
Lemma side_cases (t s : side) : t = s ∨ t = peer s.
Proof. destruct t, s; auto. Qed.

Section sel.
Context {A : Type}.
Implicit Types b : both A.
Lemma sel_upd b s a : (upd s a b) s = a.
Proof. by destruct s. Qed.
Lemma sel_upd_peer b s a : (upd s a b) (peer s) = b (peer s).
Proof. by destruct s. Qed.
Lemma sel_upd_peer' b s a : (upd (peer s) a b) s = b s.
Proof. by destruct s. Qed.
Lemma upd_upd b s a a' : upd s a (upd s a' b) = upd s a b.
Proof. by destruct s. Qed.
Lemma upd_sel b s : upd s (b s) b = b.
Proof. by destruct b, s. Qed.
End sel.

(** ** Changes of the pair *)

Definition we (s : side) (p : pipe_t) : pair → pair := set_ends (upd s (Some p)).
Definition wk (s : side) : pair → pair := set_ends (upd s None).
Definition wq (n : N) (q : upipe) : pair → pair := set_upipes (insert n q).
Definition wd (n : N) : pair → pair := set_upipes (delete n).
Definition wc (s : side) (c : cmd) : pair → pair := set_cmds (λ b, upd (peer s) (b (peer s) ++ [c]) b).
Definition wt (s : side) (l : list cmd) : pair → pair := set_cmds (upd s l).
Definition wn (s : side) (e : sink_event) (w : pair) : pair :=
  Pair (ends w) (upipes w) (upipe_next w) (cmds w) (events w ++ [(s, e)]).
Definition wnew (w : pair) : pair :=
  Pair (ends w) (<[upipe_next w := q_start]> (upipes w)) (upipe_next w + 1)%N (cmds w) (events w).

Lemma we_we s p p' w : we s p (we s p' w) = we s p w.
Proof. destruct w. unfold we, set_ends. cbn. by rewrite upd_upd. Qed.
Lemma we_wc s t c p w : we s p (wc t c w) = wc t c (we s p w).
Proof. done. Qed.
Lemma wq_wq n q q' w : wq n q (wq n q' w) = wq n q w.
Proof. destruct w. unfold wq, set_upipes. cbn. by rewrite insert_insert_eq. Qed.
Lemma wd_wq n q w : wd n (wq n q w) = wd n w.
Proof. destruct w. unfold wd, wq, set_upipes. cbn. by rewrite delete_insert_eq. Qed.
Lemma we_id s p w : ends w s = Some p → we s p w = w.
Proof. destruct w as [e u nx c ev]. cbn. intros H. unfold we, set_ends. cbn. by rewrite <- H, upd_sel. Qed.
Lemma wq_id n q w : upipes w !! n = Some q → wq n q w = w.
Proof. destruct w. cbn. intros H. unfold wq, set_upipes. cbn. by rewrite insert_id. Qed.

(** ** The queue after each call *)

Definition q_adv (q : upipe) : upipe := Q (q_items q) (q_f q) (q_w q) (S (q_r q)) (q_asleep q).
Definition q_put (m : pmsg) (inc : bool) (q : upipe) : upipe := (q_wop (write m inc) q).2.
Definition q_unput (q : upipe) : upipe :=
  Q (take (pred (length (q_items q))) (q_items q)) (q_f q) (q_w q) (q_r q) (q_asleep q).
Definition q_flushed (q : upipe) : upipe := Q (q_items q) (q_f q) (q_f q) (q_r q) false.

(** Reading never passes what is flushed, and what is not complete can be taken back. *)
Record qwf (q : upipe) : Prop := {
  qf_r : (q_r q ≤ q_w q)%nat;
  qf_w : (q_w q ≤ q_f q)%nat;
  qf_f : (q_f q ≤ length (q_items q))%nat;
  qf_more : Forall (λ m, pm_more m = true) (drop (q_f q) (q_items q))
}.

Lemma qwf_start : qwf q_start.
Proof. split; cbn; [lia..|constructor]. Qed.
Lemma qwf_sleep q : qwf q → qwf (q_sleep q).
Proof. by intros []. Qed.
Lemma qwf_adv q : qwf q → (q_r q < q_w q)%nat → qwf (q_adv q).
Proof. intros [] ?. split; cbn; auto with lia. Qed.
Lemma qwf_flushed q : qwf q → qwf (q_flushed q).
Proof. intros []. split; cbn; auto with lia. Qed.
Lemma qwf_put m q : qwf q → qwf (q_put m (pm_more m) q).
Proof.
  intros [? ? ? Hm]. unfold q_put. cbn. split; cbn; rewrite ?length_app; cbn; [lia|destruct (pm_more m); lia|destruct (pm_more m); lia|].
  destruct (pm_more m) eqn:E.
  - rewrite drop_app_le by lia. apply Forall_app. auto.
  - rewrite drop_ge; [constructor|]. rewrite length_app. cbn. lia.
Qed.
Lemma qwf_unput q : qwf q → q_f q ≠ length (q_items q) → qwf (q_unput q).
Proof.
  intros [? ? ? Hm] Hne. split; cbn; rewrite ?length_take; [lia..|].
  rewrite <- (take_drop (pred (length (q_items q))) (q_items q)) in Hm at 1.
  rewrite drop_app_le in Hm by (rewrite length_take; lia). by apply Forall_app in Hm as [? _].
Qed.
Lemma qwf_item q : qwf q → (q_r q < q_w q)%nat → ∃ m, q_items q !! q_r q = Some m.
Proof. intros [] ?. apply lookup_lt_is_Some. lia. Qed.
Lemma qwf_last q : qwf q → q_f q ≠ length (q_items q) → ∃ m, last (q_items q) = Some m ∧ pm_more m = true.
Proof.
  intros [? ? ? Hm] Hne. destruct (lookup_lt_is_Some_2 (q_items q) (pred (length (q_items q)))) as [m Hl]; [lia|].
  exists m. rewrite last_lookup. split; [done|]. rewrite Forall_lookup in Hm.
  apply (Hm (pred (length (q_items q)) - q_f q)%nat). rewrite lookup_drop, <- Hl. f_equal. lia.
Qed.

(** ** Moves *)

(** What a move lets see. *)
Inductive pev :=
  | e_read (m : pmsg) | e_write (m : pmsg) | e_unwrite | e_delim
  | e_delay (b : bool) | e_marks | e_hiccup | e_hiccuped | e_term.

Definition counted (m : pmsg) : bool := negb (pm_more m) && negb (pm_identity m).
Definition read_one (m : pmsg) (p : pipe_t) : pipe_t :=
  if counted m then set_msgs_read (u64 (msgs_read p + 1)) p else p.
Definition wrote_one (m : pmsg) (p : pipe_t) : pipe_t :=
  if counted m then set_msgs_written (u64 (msgs_written p + 1)) p else p.
(** The low water mark was reached. *)
Definition fires (p : pipe_t) : bool := (0 <? lwm p) && (msgs_read p `mod` u64 (lwm p) =? 0).

Definition in_reading (p : pipe_t) : Prop := state p = active ∨ state p = waiting_for_delimiter.

(** The end, and the ypipe it reads or writes. *)
Definition src (w : pair) (s : side) (p : pipe_t) (n : N) (q : upipe) : Prop :=
  ends w s = Some p ∧ inpipe p = Some n ∧ upipes w !! n = Some q.
Definition dst (w : pair) (s : side) (p : pipe_t) (n : N) (q : upipe) : Prop :=
  ends w s = Some p ∧ outpipe p = Some n ∧ upipes w !! n = Some q.
Definition item (q : upipe) (m : pmsg) : Prop := (q_r q < q_w q)%nat ∧ q_items q !! q_r q = Some m.

(** The end with its acknowledgement sent. *)
Definition gone (st : pstate_t) (p : pipe_t) : pipe_t := set_state st (set_outpipe None p).

Definition wc_if (b : bool) (s : side) (c : cmd) (w : pair) : pair := if b then wc s c w else w.
Definition wn_if (b : bool) (s : side) (e : sink_event) (w : pair) : pair := if b then wn s e w else w.

(** The end as a reader. *)
Inductive micro_in (s : side) (w : pair) : list pev → pair → Prop :=
  | mu_sleep p n q : src w s p n q → in_reading p → (q_w q ≤ q_r q)%nat →
      micro_in s w [] (we s (set_in_active false p) (wq n (q_sleep q) w))
  | mu_credential p n q m : src w s p n q → in_reading p → item q m → pm_credential m = true →
      micro_in s w [] (we s (set_credential (pm_data m) p) (wq n (q_adv q) w))
  | mu_read p n q m : src w s p n q → in_reading p → item q m → pm_credential m = false → pm_delimiter m = false →
      micro_in s w [e_read m]
        (wc_if (fires (read_one m p)) s (activate_write (msgs_read (read_one m p))) (we s (read_one m p) (wq n (q_adv q) w)))
  | mu_delim_active p n q m : src w s p n q → state p = active → item q m → pm_delimiter m = true →
      micro_in s w [] (we s (set_state delimiter_received p) (wq n (q_adv q) w))
  | mu_delim_wait p n q m : src w s p n q → state p = waiting_for_delimiter → item q m → pm_delimiter m = true →
      micro_in s w [] (wc s pipe_term_ack (we s (gone term_ack_sent p) (wq n (q_adv q) w))).

(** The end as a writer. *)
Inductive micro_out (s : side) (w : pair) : list pev → pair → Prop :=
  | mu_full p : ends w s = Some p → state p = active → check_hwm p = false →
      micro_out s w [] (we s (set_out_active false p) w)
  | mu_write p n q m : dst w s p n q → state p = active → out_active p = true → check_hwm p = true →
      micro_out s w [e_write m] (we s (wrote_one m p) (wq n (q_put m (pm_more m) q) w))
  | mu_unwrite p n q : dst w s p n q → q_f q ≠ length (q_items q) →
      micro_out s w [e_unwrite] (wq n (q_unput q) w)
  | mu_flush p n q : dst w s p n q → q_w q ≠ q_f q →
      micro_out s w [] (wc_if (q_asleep q) s activate_read (wq n (q_flushed q) w))
  | mu_delimiter p n q : dst w s p n q → state p = term_req_sent1 ∨ state p = waiting_for_delimiter →
      q_f q = length (q_items q) →
      micro_out s w [e_delim] (wq n (q_put the_delimiter false q) w).

(** What its owner asks of it. *)
Inductive micro_own (s : side) (w : pair) : list pev → pair → Prop :=
  | mu_hiccup p : ends w s = Some p → state p = active →
      micro_own s w [e_hiccup]
        (wc s (hiccup_cmd (upipe_next w)) (we s (set_in_active true (set_inpipe (Some (upipe_next w)) p)) (wnew w)))
  | mu_delay p b : ends w s = Some p → micro_own s w [e_delay b] (we s (set_delay b p) w)
  | mu_marks p h l i o : ends w s = Some p → micro_own s w [e_marks] (we s (set_marks h l (set_boosts i o p)) w)
  | mu_term p : ends w s = Some p → state p = active ∨ state p = delimiter_received →
      micro_own s w [e_term] (wc s pipe_term (we s (set_out_active false (set_state term_req_sent1 p)) w))
  | mu_term_nodelay p : ends w s = Some p → state p = waiting_for_delimiter → delay p = false →
      micro_own s w [e_term] (wc s pipe_term_ack (we s (set_out_active false (gone term_ack_sent p)) w))
  | mu_stop p : ends w s = Some p → state p = waiting_for_delimiter →
      micro_own s w [e_term] (we s (set_out_active false p) w).

(** A command is taken. *)
Inductive micro_cmd (s : side) (w : pair) : list pev → pair → Prop :=
  | mu_activate_read p l : ends w s = Some p → cmds w s = activate_read :: l →
      micro_cmd s w []
        (let b := negb (in_active p) && bool_decide (state p = active ∨ state p = waiting_for_delimiter) in
         wn_if b s read_activated (we s (set_in_active (b || in_active p) p) (wt s l w)))
  | mu_activate_write p l k : ends w s = Some p → cmds w s = activate_write k :: l →
      micro_cmd s w []
        (let b := negb (out_active p) && bool_decide (state p = active) in
         wn_if b s write_activated (we s (set_out_active (b || out_active p) (set_peers_msgs_read k p)) (wt s l w)))
  | mu_hiccuped p o l n k : ends w s = Some p → outpipe p = Some o → cmds w s = hiccup_cmd n :: l →
      micro_cmd s w [e_hiccuped]
        (wn_if (bool_decide (state p = active)) s hiccuped
           (we s (set_out_active true (set_outpipe (Some n) (set_msgs_written k p))) (wd o (wt s l w))))
  | mu_pipe_term_wait p l : ends w s = Some p → cmds w s = pipe_term :: l → state p = active → delay p = true →
      micro_cmd s w [] (we s (set_state waiting_for_delimiter p) (wt s l w))
  | mu_pipe_term p l st : ends w s = Some p → cmds w s = pipe_term :: l →
      (state p = active ∧ delay p = false ∨ state p = delimiter_received) ∧ st = term_ack_sent
        ∨ state p = term_req_sent1 ∧ st = term_req_sent2 →
      micro_cmd s w [] (wc s pipe_term_ack (we s (gone st p) (wt s l w)))
  | mu_pipe_term_ack p n l : ends w s = Some p → inpipe p = Some n → cmds w s = pipe_term_ack :: l →
      micro_cmd s w []
        (wk s (wd n (wc_if (bool_decide (state p = term_req_sent1)) s pipe_term_ack (wn s pipe_terminated (wt s l w))))).

Inductive micro (s : side) (w : pair) : list pev → pair → Prop :=
  | mu_in es w' : micro_in s w es w' → micro s w es w'
  | mu_out es w' : micro_out s w es w' → micro s w es w'
  | mu_own es w' : micro_own s w es w' → micro s w es w'
  | mu_cmd es w' : micro_cmd s w es w' → micro s w es w'.

(** A sequence of moves of one end. *)
Inductive micros (s : side) : pair → list pev → pair → Prop :=
  | ms_nil w : micros s w [] w
  | ms_cons w es w1 es' w2 : micro s w es w1 → micros s w1 es' w2 → micros s w (es ++ es') w2.

Lemma ms_one s w es w1 : micro s w es w1 → micros s w es w1.
Proof. intros H. rewrite <- (app_nil_r es). econstructor; [done|constructor]. Qed.
Lemma ms_app s w es w1 es' w2 : micros s w es w1 → micros s w1 es' w2 → micros s w (es ++ es') w2.
Proof. induction 1 as [|w es w1 es1 w1' H H1 IH]; [done|]. intros. rewrite <- (assoc_L (++)). econstructor; eauto. Qed.
Lemma ms_snoc s w es w1 es' w2 : micros s w es w1 → micro s w1 es' w2 → micros s w (es ++ es') w2.
Proof. intros ? ?%ms_one. by eapply ms_app. Qed.

(** ** The invariant *)

(** Which of the two commands of the shutdown an end has received and sent. *)
Definition received (p : pipe_t) : bool :=
  match state p with waiting_for_delimiter | term_ack_sent | term_req_sent2 => true | _ => false end.
Definition asked_st (p : pipe_t) : bool := match state p with term_req_sent1 | term_req_sent2 => true | _ => false end.
Definition acked_st (p : pipe_t) : bool := match state p with term_ack_sent | term_req_sent2 => true | _ => false end.
Definition asked (o : option pipe_t) : bool := from_option asked_st true o.
Definition acked (o : option pipe_t) : bool := from_option acked_st true o.

(** The commands an end may still get, from the ones it has: nothing after the
    acknowledgement, and no new ypipe after [pipe_term]. *)
Definition track1 (x : bool * bool) (c : cmd) : option (bool * bool) :=
  let '(t, a) := x in
  if a : bool then None
  else match c with
       | activate_read | activate_write _ => Some (t, a)
       | hiccup_cmd _ => if t : bool then None else Some (t, a)
       | pipe_term => if t : bool then None else Some (true, a)
       | pipe_term_ack => Some (t, true)
       end.
Fixpoint track (x : bool * bool) (l : list cmd) : option (bool * bool) :=
  match l with [] => Some x | c :: l => match track1 x c with Some y => track y l | None => None end end.

Lemma track_app x l l' : track x (l ++ l') = match track x l with Some y => track y l' | None => None end.
Proof. revert x. induction l as [|c l IH]; intros x; [done|]. cbn. by destruct (track1 x c). Qed.
Lemma track_acked t l y : track (t, true) l = Some y → l = [] ∧ y = (t, true).
Proof. destruct l; cbn; [intros [= <-]; done|done]. Qed.

Definition payloads (l : list cmd) : list N := omap (λ c, match c with hiccup_cmd n => Some n | _ => None end) l.

Lemma payloads_app l l' : payloads (l ++ l') = payloads l ++ payloads l'.
Proof. apply omap_app. Qed.

Lemma track_asked a l t a' : track (true, a) l = Some (t, a') → t = true ∧ payloads l = [].
Proof.
  revert a. induction l as [|c l IH]; intros a; cbn; [by intros [= -> ->]|].
  destruct a; [done|]. destruct c; cbn; intros H; [by apply IH in H..|done|done|by apply IH in H].
Qed.

(** The ypipes on the way to an end: the one its peer writes, and the new ones its
    peer is to be told about. *)
Definition chain_of (e e' : option pipe_t) (c : list cmd) : list N :=
  match e with
  | None => []
  | Some p =>
      match e' ≫= outpipe with Some o => o :: payloads c | None => option_list (inpipe p) end
  end.
Definition chain (w : pair) (s : side) : list N := chain_of (ends w s) (ends w (peer s)) (cmds w (peer s)).

Record owns (w : pair) : Prop := {
  ow_in s p : ends w s = Some p → ∃ n, inpipe p = Some n ∧ last (chain w s) = Some n;
  ow_nodup s : NoDup (chain w s);
  ow_disj s n : n ∈ chain w s → n ∉ chain w (peer s);
  ow_dom n : is_Some (upipes w !! n) ↔ ∃ s, n ∈ chain w s;
  ow_next n : is_Some (upipes w !! n) → (n < upipe_next w)%N
}.

(** An end tells its sink once that it is terminated, and nothing after that. *)
Definition told (s : side) (w : pair) : Prop :=
  ∃ l, filter (λ e, e.1 = s) (events w) = l ++ (if ends w s then [] else [(s, pipe_terminated)]) ∧ (s, pipe_terminated) ∉ l.

Record pinv (w : pair) : Prop := {
  pv_cmds s p : ends w s = Some p →
    track (received p, false) (cmds w s) = Some (asked (ends w (peer s)), acked (ends w (peer s)));
  pv_dead s : ends w s = None → cmds w s = [] ∧ acked (ends w (peer s)) = true;
  pv_out s p : ends w s = Some p → (outpipe p = None ↔ acked_st p = true);
  pv_own : owns w;
  pv_q n q : upipes w !! n = Some q → qwf q;
  pv_told s : told s w
}.

Lemma pinv_start hwm0 hwm1 : pinv (pipepair hwm0 hwm1).
Proof.
  split.
  - intros [] p [= <-]; done.
  - by intros [].
  - intros [] p [= <-]; done.
  - assert (∀ s, chain (pipepair hwm0 hwm1) s = [if s is left_end then 0%N else 1%N]) as E by by intros [].
    split; intros *; rewrite ?E.
    + destruct s; intros [= <-]; eexists; done.
    + apply NoDup_singleton.
    + destruct s; cbn; set_solver.
    + cbn. rewrite lookup_insert_is_Some, lookup_singleton_is_Some. split.
      * intros [<-|[_ <-]]; [exists left_end|exists right_end]; rewrite E; set_solver.
      * intros [[] Hn]; rewrite E in Hn; apply list_elem_of_singleton in Hn as ->; [by left|right; done].
    + cbn. rewrite lookup_insert_is_Some, lookup_singleton_is_Some. lia.
  - cbn. intros n q [[_ <-]|[_ [_ <-]%lookup_singleton_Some]]%lookup_insert_Some; apply qwf_start.
  - intros s. exists []. destruct s; cbn; split; try done; set_solver.
Qed.

Section facts.
Context (w : pair) (Hw : pinv w).

(** An end that has not sent its acknowledgement has a peer. *)
Lemma peer_alive s p : ends w s = Some p → acked_st p = false → ∃ p', ends w (peer s) = Some p'.
Proof.
  intros He Ha. destruct (ends w (peer s)) as [p'|] eqn:E; [by eauto|].
  apply (pv_dead _ Hw) in E as [_ E]. rewrite peer_peer, He in E. cbn in E. congruence.
Qed.

Lemma out_not_acked s p n : ends w s = Some p → outpipe p = Some n → acked_st p = false.
Proof. intros He Ho. destruct (acked_st p) eqn:E; [|done]. apply (pv_out _ Hw _ _ He) in E. congruence. Qed.

Lemma out_chain s p n : ends w s = Some p → outpipe p = Some n → chain w (peer s) = n :: payloads (cmds w s).
Proof.
  intros He Ho. destruct (peer_alive s p He) as [p' He']; [by eapply out_not_acked|].
  unfold chain. rewrite peer_peer, He, He'. cbn. by rewrite Ho.
Qed.

Lemma in_pipe s p : ends w s = Some p → ∃ n q, src w s p n q ∧ qwf q.
Proof.
  intros He. destruct (ow_in _ (pv_own _ Hw) s p He) as (n & Hi & Hl).
  destruct (proj2 (ow_dom _ (pv_own _ Hw) n)) as [q Hq].
  { exists s. by apply last_Some_elem_of. }
  exists n, q. split; [done|by eapply pv_q].
Qed.

Lemma out_pipe s p n : ends w s = Some p → outpipe p = Some n → ∃ q, dst w s p n q ∧ qwf q.
Proof.
  intros He Ho. destruct (proj2 (ow_dom _ (pv_own _ Hw) n)) as [q Hq].
  { exists (peer s). rewrite (out_chain _ _ _ He Ho). by left. }
  exists q. split; [done|by eapply pv_q].
Qed.

(** An end that has received [pipe_term] gets no new ypipe. *)
Lemma received_asked s p : ends w s = Some p → received p = true → asked (ends w (peer s)) = true ∧ payloads (cmds w s) = [].
Proof. intros He Hr. pose proof (pv_cmds _ Hw s p He) as H. rewrite Hr in H. by eapply track_asked. Qed.

(** The other end does not acknowledge before it is asked. *)
Lemma not_asked s p : ends w s = Some p → asked_st p = false → acked_st p = false → acked (ends w (peer s)) = false.
Proof.
  intros He Hq Ha. destruct (peer_alive s p He Ha) as [p' He']. rewrite He'. cbn.
  destruct (acked_st p') eqn:E; [|done]. assert (received p' = true) as Hr by by unfold received, acked_st in *; destruct (state p').
  destruct (received_asked _ _ He' Hr) as [H _]. rewrite peer_peer, He in H. cbn in H. congruence.
Qed.
End facts.

(** Chains that do not change. *)
Lemma owns_same w w' :
  owns w → (∀ s, chain w' s = chain w s) →
  (∀ s p', ends w' s = Some p' → ∃ p, ends w s = Some p ∧ inpipe p' = inpipe p) →
  (∀ n, is_Some (upipes w' !! n) ↔ is_Some (upipes w !! n)) → upipe_next w' = upipe_next w → owns w'.
Proof.
  intros [Hi Hn Hd Hdom Hx] Hc He Hu Hnx. split; intros *; rewrite ?Hc, ?Hu, ?Hnx; eauto.
  - intros (p0 & H0 & ->)%He. eauto.
  - rewrite Hdom. by setoid_rewrite Hc.
Qed.

Lemma chain_same w w' s p p' :
  ends w s = Some p → ends w' = upd s (Some p') (ends w) → inpipe p' = inpipe p → outpipe p' = outpipe p →
  (∀ t, payloads (cmds w' t) = payloads (cmds w t)) →
  (∀ t, chain w' t = chain w t) ∧ (∀ t x, ends w' t = Some x → ∃ y, ends w t = Some y ∧ inpipe x = inpipe y).
Proof.
  intros He Ew Hi Ho Hc. unfold chain. split; intros t; destruct (side_cases t s) as [->| ->];
    rewrite Ew, ?peer_peer, ?sel_upd, ?sel_upd_peer.
  - rewrite He. unfold chain_of. by rewrite Hc, Hi.
  - rewrite He. unfold chain_of. cbn. by rewrite Hc, Ho.
  - intros x [= <-]. eauto.
  - eauto.
Qed.

(** ** The moves keep the invariant *)

Lemma told_live s t w w' es :
  told t w → events w' = events w ++ ((s,.) <$> es) → pipe_terminated ∉ es → (t = s → is_Some (ends w s)) →
  (is_Some (ends w' t) ↔ is_Some (ends w t)) → told t w'.
Proof.
  intros (l & Hl & Hn) Ev He Hs Ht. unfold told. rewrite Ev, filter_app.
  destruct (decide (t = s)) as [->|Hts].
  - destruct (Hs eq_refl) as [x Hx]. rewrite Hx in Hl, Ht. destruct (proj2 Ht) as [y Hy]; [by eauto|]. rewrite Hy.
    exists (l ++ ((s,.) <$> es)). rewrite app_nil_r in Hl. rewrite Hl, app_nil_r. split.
    + f_equal. clear. induction es as [|e es IH]; [done|]. rewrite fmap_cons, filter_cons_True by done. by rewrite IH.
    + rewrite elem_of_app. intros [H|H]; [done|]. apply list_elem_of_fmap in H as (e & [= <-] & H). done.
  - exists l. split; [|done]. rewrite Hl.
    assert (filter (λ e, e.1 = t) ((s,.) <$> es) = []) as ->.
    { clear -Hts. induction es as [|e es IH]; [done|]. rewrite fmap_cons, filter_cons_False by (cbn; congruence). done. }
    rewrite app_nil_r. f_equal. destruct (ends w' t), (ends w t); try done; exfalso; (destruct (proj1 Ht); [by eauto|done]) || (destruct (proj2 Ht); [by eauto|done]).
Qed.

(** A move of a live end: it may take the first command that waits for it, it sends
    [out], and it tells its sink [es]. *)
Lemma pinv_move s p p' c out es w w' :
  pinv w → ends w s = Some p →
  ends w' = upd s (Some p') (ends w) →
  cmds w s = option_list c ++ cmds w' s → track (received p, false) (option_list c) = Some (received p', false) →
  cmds w' (peer s) = cmds w (peer s) ++ out → track (asked_st p, acked_st p) out = Some (asked_st p', acked_st p') →
  (outpipe p' = None ↔ acked_st p' = true) →
  owns w' → (∀ n q, upipes w' !! n = Some q → qwf q) →
  events w' = events w ++ ((s,.) <$> es) → pipe_terminated ∉ es →
  pinv w'.
Proof.
  intros Hw He Ew Hc Ht Ho Ht' Hout Hown Hq Hev Hes. split; try done.
  - intros t x. destruct (side_cases t s) as [->| ->]; rewrite Ew, ?peer_peer, ?sel_upd, ?sel_upd_peer.
    + intros [= <-]. pose proof (pv_cmds _ Hw _ _ He) as H. by rewrite Hc, track_app, Ht in H.
    + intros Hx. rewrite Ho, track_app, (pv_cmds _ Hw _ _ Hx), peer_peer, He. done.
  - intros t. destruct (side_cases t s) as [->| ->]; rewrite Ew, ?peer_peer, ?sel_upd, ?sel_upd_peer; [done|].
    intros [Hcn Ha]%(pv_dead _ Hw). rewrite peer_peer, He in Ha. cbn in Ha. rewrite Ha in Ht'.
    apply track_acked in Ht' as [-> [= _ E]]. rewrite Ho, Hcn. cbn. done.
  - intros t x. destruct (side_cases t s) as [->| ->]; rewrite Ew, ?sel_upd, ?sel_upd_peer.
    + by intros [= <-].
    + apply (pv_out _ Hw).
  - intros t. eapply (told_live s); [apply (pv_told _ Hw)|done|done|by eauto|].
    rewrite Ew. destruct (side_cases t s) as [->| ->]; rewrite ?sel_upd, ?sel_upd_peer; [|done].
    rewrite He. split; by eauto.
Qed.

(** A move that leaves the end its ypipes. *)
Lemma pinv_quiet s p p' c out es w w' :
  pinv w → ends w s = Some p →
  ends w' = upd s (Some p') (ends w) → inpipe p' = inpipe p → outpipe p' = outpipe p →
  cmds w s = option_list c ++ cmds w' s → track (received p, false) (option_list c) = Some (received p', false) →
  cmds w' (peer s) = cmds w (peer s) ++ out → track (asked_st p, acked_st p) out = Some (asked_st p', acked_st p) →
  payloads (option_list c ++ out) = [] → acked_st p' = acked_st p →
  (∀ n q, upipes w' !! n = Some q → qwf q) → (∀ n, is_Some (upipes w' !! n) ↔ is_Some (upipes w !! n)) →
  upipe_next w' = upipe_next w →
  events w' = events w ++ ((s,.) <$> es) → pipe_terminated ∉ es →
  pinv w'.
Proof.
  intros Hw He Ew Hi Ho Hc Ht Hcp Ht' Hp Ea Hq Hd Hn Hev Hes.
  rewrite payloads_app in Hp. apply app_eq_nil in Hp as [Hp1 Hp2].
  assert (∀ t, payloads (cmds w' t) = payloads (cmds w t)) as Hp.
  { intros t. destruct (side_cases t s) as [->| ->].
    - by rewrite Hc, payloads_app, Hp1.
    - by rewrite Hcp, payloads_app, Hp2, app_nil_r. }
  destruct (chain_same w w' s p p' He Ew Hi Ho Hp) as [Hch Hie].
  eapply (pinv_move s p p' c out es); try done.
  - by rewrite Ea.
  - rewrite Ho, Ea. by apply (pv_out _ Hw s).
  - by eapply owns_same; [apply Hw| | | |].
Qed.

(** The same, for an end that at most sends a command and has one of its ypipes
    changed. *)
Lemma pinv_local s p p' out n q q' w :
  pinv w → ends w s = Some p → upipes w !! n = Some q → qwf q' →
  inpipe p' = inpipe p → outpipe p' = outpipe p → state p' = state p →
  match out with None | Some activate_read => True | Some (activate_write _) => True | _ => False end →
  (is_Some out → acked_st p = false) →
  pinv (from_option (wc s) id out (we s p' (wq n q' w))).
Proof.
  intros Hw He Hn Hq Hi Ho Hst Hout Ha.
  assert (received p' = received p ∧ asked_st p' = asked_st p ∧ acked_st p' = acked_st p) as (Er & Eq & Ea).
  { unfold received, asked_st, acked_st. by rewrite Hst. }
  eapply (pinv_quiet s p p' None (option_list out) [] w); try done.
  - by destruct out.
  - destruct out; cbn; [by rewrite sel_upd_peer'|done].
  - by rewrite Er.
  - destruct out; cbn; [by rewrite sel_upd|by rewrite app_nil_r].
  - rewrite Eq. destruct out as [[]|]; cbn; try done; by rewrite Ha.
  - by destruct out as [[]|].
  - intros n0 q0. assert (upipes (from_option (wc s) id out (we s p' (wq n q' w))) = <[n:=q']> (upipes w)) as -> by by destruct out.
    intros [[_ <-]|[_ H]]%lookup_insert_Some; [done|by eapply pv_q].
  - intros n0. assert (upipes (from_option (wc s) id out (we s p' (wq n q' w))) = <[n:=q']> (upipes w)) as -> by by destruct out.
    rewrite lookup_insert_is_Some'. split; [intros [<-|]; by eauto|by right].
  - by destruct out.
  - destruct out; cbn; by rewrite app_nil_r.
  - apply not_elem_of_nil.
Qed.

(** What an end reads is all that is left of its chain when its peer lets go of it. *)
Lemma chain_let_go w s p p' :
  pinv w → ends w s = Some p → acked_st p = false → payloads (cmds w s) = [] → ends w (peer s) = Some p' →
  chain w (peer s) = option_list (inpipe p').
Proof.
  intros Hw He Ha Hp He'. destruct (outpipe p) as [o|] eqn:Ho.
  - rewrite (out_chain _ Hw _ _ _ He Ho), Hp.
    destruct (ow_in _ (pv_own _ Hw) _ _ He') as (n & Hi & Hl). rewrite (out_chain _ Hw _ _ _ He Ho), Hp in Hl.
    rewrite Hi. cbn in Hl |- *. congruence.
  - apply (pv_out _ Hw _ _ He) in Ho. congruence.
Qed.

(** The end acknowledges and lets go of the ypipe it writes. *)
Lemma pinv_ack s p p' c w w' :
  pinv w → ends w s = Some p → ends w' = upd s (Some p') (ends w) →
  inpipe p' = inpipe p → outpipe p' = None → received p' = true → acked_st p' = true → acked_st p = false →
  asked_st p' = asked_st p →
  cmds w s = option_list c ++ cmds w' s → track (received p, false) (option_list c) = Some (true, false) →
  payloads (option_list c) = [] →
  cmds w' (peer s) = cmds w (peer s) ++ [pipe_term_ack] →
  (∀ n q, upipes w' !! n = Some q → qwf q) → (∀ n, is_Some (upipes w' !! n) ↔ is_Some (upipes w !! n)) →
  upipe_next w' = upipe_next w → events w' = events w → pinv w'.
Proof.
  intros Hw He Ew Hi Ho Hr Ha Hna Hq Hc Ht Hp Hcp Hqw Hd Hn Hev.
  pose proof (pv_cmds _ Hw _ _ He) as Htr. rewrite Hc, track_app, Ht in Htr. apply track_asked in Htr as [_ Hp'].
  assert (payloads (cmds w s) = []) as Hps by (rewrite Hc, payloads_app, Hp; done).
  eapply (pinv_move s p p' c [pipe_term_ack] []); try done.
  - by rewrite Ht, Hr.
  - rewrite Hna, Hq, Ha. done.
  - eapply owns_same; [apply Hw| | |done|done].
    + intros t. unfold chain. rewrite Ew. destruct (side_cases t s) as [->| ->];
        rewrite ?peer_peer, ?sel_upd, ?sel_upd_peer.
      * rewrite He. unfold chain_of. by rewrite Hcp, payloads_app, Hi, app_nil_r.
      * destruct (peer_alive _ Hw s p He Hna) as [pp He'].
        pose proof (chain_let_go w s p pp Hw He Hna Hps He') as E. unfold chain in E. rewrite peer_peer in E.
        rewrite E, He'. cbn. by rewrite Ho.
    + intros t x. rewrite Ew. destruct (side_cases t s) as [->| ->]; rewrite ?sel_upd, ?sel_upd_peer; [|by eauto].
      intros [= <-]. eauto.
  - by rewrite Hev, app_nil_r.
  - apply not_elem_of_nil.
Qed.

Lemma pinv_hiccup s p w :
  pinv w → ends w s = Some p → state p = active →
  pinv (wc s (hiccup_cmd (upipe_next w)) (we s (set_in_active true (set_inpipe (Some (upipe_next w)) p)) (wnew w))).
Proof.
  intros Hw He Hst. set (n := upipe_next w). set (p' := set_in_active true (set_inpipe (Some n) p)). set (w' := wc _ _ _).
  assert (acked_st p = false ∧ asked_st p = false ∧ received p = false) as (Ha & Hq & Hr)
    by (unfold acked_st, asked_st, received; rewrite Hst; done).
  destruct (peer_alive _ Hw s p He Ha) as [pp He'].
  pose proof (not_asked _ Hw s p He Hq Ha) as Hpa. rewrite He' in Hpa. cbn in Hpa.
  destruct (outpipe pp) as [o|] eqn:Ho; [|apply (pv_out _ Hw _ _ He') in Ho; congruence].
  assert (ends w' = upd s (Some p') (ends w)) as Ew by done.
  assert (cmds w' s = cmds w s ∧ cmds w' (peer s) = cmds w (peer s) ++ [hiccup_cmd n]) as [Hc Hcp].
  { cbn. by rewrite sel_upd_peer', sel_upd. }
  assert (chain w' s = chain w s ++ [n] ∧ chain w' (peer s) = chain w (peer s)) as [Es Ep].
  { unfold chain. rewrite Ew, Hcp, ?peer_peer, sel_upd, sel_upd_peer, He, He', Hc. cbn. rewrite Ho, payloads_app. done. }
  assert (∀ t, n ∉ chain w t) as Hfresh.
  { intros t Hin. assert (is_Some (upipes w !! n)) as H by (apply (ow_dom _ (pv_own _ Hw)); by eauto).
    apply (ow_next _ (pv_own _ Hw)) in H. unfold n in H. lia. }
  eapply (pinv_move s p p' None [hiccup_cmd n] []); try done.
  - change (asked_st p') with (asked_st p). change (acked_st p') with (acked_st p). by rewrite Hq, Ha.
  - apply (pv_out _ Hw s p He).
  - destruct (pv_own _ Hw) as [Oi On Od Odom Ox]. split.
    + intros t x. rewrite Ew. destruct (side_cases t s) as [->| ->]; rewrite ?sel_upd, ?sel_upd_peer, ?Es, ?Ep; [|apply Oi].
      intros [= <-]. exists n. split; [done|]. by rewrite last_snoc.
    + intros t. destruct (side_cases t s) as [->| ->]; rewrite ?Es, ?Ep; [|done].
      apply NoDup_app. split; [done|]. split; [|apply NoDup_singleton]. intros x Hx ->%list_elem_of_singleton. by eapply Hfresh.
    + intros t x. destruct (side_cases t s) as [->| ->]; rewrite ?peer_peer, Es, Ep, elem_of_app, list_elem_of_singleton.
      * intros [Hx| ->]; [by apply Od|apply Hfresh].
      * intros Hx [H| ->]; [apply Od in Hx; by rewrite peer_peer in Hx|by eapply Hfresh].
    + intros x. cbn. rewrite lookup_insert_is_Some', Odom. fold n. split.
      * intros [<-|[t Ht]]; [exists s; rewrite Es; set_solver|]. exists t.
        destruct (side_cases t s) as [->| ->]; rewrite ?Es, ?Ep; set_solver.
      * intros [t Ht]. destruct (side_cases t s) as [->| ->]; rewrite ?Es, ?Ep in Ht; [|by eauto].
        apply elem_of_app in Ht as [Ht| ->%list_elem_of_singleton]; by eauto.
    + intros x. cbn. rewrite lookup_insert_is_Some'. intros [<-|H%Ox]; lia.
  - cbn. intros x q [[_ <-]|[_ H]]%lookup_insert_Some; [apply qwf_start|by eapply pv_q].
  - cbn. by rewrite app_nil_r.
  - apply not_elem_of_nil.
Qed.

(** The first ypipe of a chain is deleted. *)
Lemma owns_drop w w' s o :
  owns w → chain w s = o :: chain w' s → chain w' (peer s) = chain w (peer s) →
  (∀ t p', ends w' t = Some p' → ∃ p, ends w t = Some p ∧ inpipe p' = inpipe p ∧ (t = s → chain w' s ≠ [])) →
  upipes w' = delete o (upipes w) → upipe_next w' = upipe_next w → owns w'.
Proof.
  intros [Oi On Od Odom Ox] Es Ep He Eu En.
  pose proof (On s) as Hnd. rewrite Es in Hnd. apply NoDup_cons in Hnd as [Hno Hnd].
  assert (∀ t x, x ∈ chain w' t → x ∈ chain w t) as Hsub.
  { intros t x. destruct (side_cases t s) as [->| ->]; rewrite ?Es, ?Ep; [by right|done]. }
  split.
  - intros t x Hx. destruct (He t x Hx) as (p & Hp & -> & Hr). destruct (Oi t p Hp) as (n & Hi & Hl).
    exists n. split; [done|]. destruct (side_cases t s) as [->| ->]; [|by rewrite Ep].
    rewrite Es in Hl. destruct (chain w' s); [by destruct (Hr eq_refl)|done].
  - intros t. destruct (side_cases t s) as [->| ->]; [done|by rewrite Ep].
  - intros t x Hx Hx'. apply (Od t x); by apply Hsub.
  - intros x. rewrite Eu, lookup_delete_is_Some, Odom. split.
    + intros [Hne [t Ht]]. exists t. destruct (side_cases t s) as [->| ->]; [|by rewrite Ep].
      rewrite Es in Ht. by apply elem_of_cons in Ht as [->|Ht].
    + intros [t Ht]. split; [|exists t; by apply Hsub]. intros <-. destruct (side_cases t s) as [->| ->]; [done|].
      apply Hsub, Od in Ht. rewrite peer_peer, Es in Ht. apply Ht. by left.
  - intros x. rewrite Eu, En, lookup_delete_is_Some. intros [_ H]. by apply Ox.
Qed.

Lemma pinv_hiccuped s p o l n k w :
  pinv w → ends w s = Some p → outpipe p = Some o → cmds w s = hiccup_cmd n :: l →
  pinv (wn_if (bool_decide (state p = active)) s hiccuped
          (we s (set_out_active true (set_outpipe (Some n) (set_msgs_written k p))) (wd o (wt s l w)))).
Proof.
  intros Hw He Ho Hc. set (p' := set_out_active _ _). set (w' := wn_if _ _ _ _).
  assert (ends w' = upd s (Some p') (ends w)) as Ew by (unfold w', wn_if; by case_match).
  assert (cmds w' = upd s l (cmds w)) as Ec by (unfold w', wn_if; by case_match).
  assert (upipes w' = delete o (upipes w) ∧ upipe_next w' = upipe_next w) as [Eu En] by (unfold w', wn_if; by case_match).
  destruct (peer_alive _ Hw s p He) as [pp He']; [by eapply out_not_acked|].
  pose proof (pv_cmds _ Hw _ _ He) as Ht. rewrite Hc in Ht. cbn in Ht.
  assert (acked_st p' = false) as Ha by (by eapply (out_not_acked w Hw s p)).
  eapply (pinv_move s p p' (Some (hiccup_cmd n)) [] (if bool_decide (state p = active) then [hiccuped] else [])); try done.
  - by rewrite Ec, sel_upd.
  - cbn. change (received p') with (received p). by destruct (received p).
  - by rewrite Ec, sel_upd_peer, app_nil_r.
  - split; [done|]. by rewrite Ha.
  - eapply (owns_drop w w' (peer s) o); [apply Hw|..]; try done.
    + rewrite (out_chain _ Hw _ _ _ He Ho), Hc. unfold chain. rewrite peer_peer, Ew, Ec, !sel_upd, sel_upd_peer, He'. done.
    + unfold chain. rewrite peer_peer, Ew, Ec, sel_upd, sel_upd_peer, sel_upd_peer, He. done.
    + intros t x. rewrite Ew. unfold chain. rewrite peer_peer, Ew, Ec, !sel_upd, sel_upd_peer, He'.
      destruct (side_cases t s) as [->| ->]; rewrite ?sel_upd, ?sel_upd_peer; [|by eauto]. intros [= <-]. by eauto.
  - rewrite Eu. intros x q [_ H]%lookup_delete_Some. by eapply pv_q.
  - unfold w', wn_if. destruct (bool_decide (state p = active)); cbn; by rewrite ?app_nil_r.
  - destruct (bool_decide (state p = active)); set_solver.
Qed.

(** The last command is the acknowledgement: both ends are then done with each other. *)
Lemma acked_last w s p l :
  pinv w → ends w s = Some p → cmds w s = pipe_term_ack :: l →
  l = [] ∧ acked (ends w (peer s)) = true ∧
  (state p = term_req_sent1 ∧ (∃ pp, ends w (peer s) = Some pp) ∨ acked_st p = true ∧ (asked_st p = false → ends w (peer s) = None)).
Proof.
  intros Hw He Hc. pose proof (pv_cmds _ Hw _ _ He) as Ht. rewrite Hc in Ht. cbn in Ht.
  apply track_acked in Ht as [-> [= Eq Ea]]. split; [done|]. split; [done|].
  assert (∀ pp, ends w (peer s) = Some pp → asked_st p = true) as Hpp.
  { intros pp He'. rewrite He' in Ea. cbn in Ea.
    assert (received pp = true) as Hr by by unfold received, acked_st in *; destruct (state pp).
    destruct (received_asked _ Hw _ _ He' Hr) as [H _]. by rewrite peer_peer, He in H. }
  destruct (acked_st p) eqn:Hacked.
  - right. split; [done|]. intros Hq. destruct (ends w (peer s)) as [pp|]; [|done]. by rewrite (Hpp pp) in Hq.
  - left. destruct (peer_alive _ Hw s p He Hacked) as [pp He']. split; [|by eauto]. specialize (Hpp pp He').
    unfold asked_st, acked_st in *. by destruct (state p).
Qed.

Lemma pinv_killed s p n l w :
  pinv w → ends w s = Some p → inpipe p = Some n → cmds w s = pipe_term_ack :: l →
  pinv (wk s (wd n (wc_if (bool_decide (state p = term_req_sent1)) s pipe_term_ack (wn s pipe_terminated (wt s l w))))).
Proof.
  intros Hw He Hi Hc. destruct (acked_last w s p l Hw He Hc) as (-> & Ha & Hst). set (w' := wk _ _).
  set (b := bool_decide (state p = term_req_sent1)) in w'.
  assert (ends w' = upd s None (ends w)) as Ew by (unfold w', wc_if; by destruct b).
  assert (cmds w' s = [] ∧ cmds w' (peer s) = cmds w (peer s) ++ (if b then [pipe_term_ack] else [])) as [Ec Ecp].
  { unfold w', wc_if. destruct b; cbn; rewrite ?sel_upd_peer', ?sel_upd, ?sel_upd_peer, ?app_nil_r; done. }
  assert (upipes w' = delete n (upipes w) ∧ upipe_next w' = upipe_next w) as [Eu En] by (unfold w', wc_if; by destruct b).
  assert (events w' = events w ++ [(s, pipe_terminated)]) as Eev by (unfold w', wc_if; by destruct b).
  assert (chain w s = [n]) as Hs.
  { unfold chain, chain_of. rewrite He. destruct (ends w (peer s)) as [pp|] eqn:He'; cbn; [|by rewrite Hi].
    cbn in Ha. apply (pv_out _ Hw _ _ He') in Ha. by rewrite Ha, Hi. }
  assert (chain w' s = []) as Hs' by (unfold chain; by rewrite Ew, sel_upd).
  split; try done.
  - intros t x. destruct (side_cases t s) as [->| ->]; rewrite Ew, ?peer_peer, ?sel_upd, ?sel_upd_peer; [done|].
    intros Hx. rewrite Ecp, track_app, (pv_cmds _ Hw _ _ Hx), peer_peer, He. cbn. destruct Hst as [[Hst _]|[Hak Hna]].
    + unfold b. rewrite bool_decide_true by done. cbn. unfold asked_st, acked_st. by rewrite Hst.
    + unfold b. rewrite Hak. destruct (asked_st p) eqn:Hq; [|by rewrite Hna in Hx].
      rewrite bool_decide_false; [done|]. intros E. unfold acked_st in Hak. by rewrite E in Hak.
  - intros t. destruct (side_cases t s) as [->| ->]; rewrite Ew, ?peer_peer, ?sel_upd, ?sel_upd_peer; [done|].
    intros Hd. split; [|done]. rewrite Ecp. destruct (pv_dead _ Hw _ Hd) as [-> Hak]. rewrite peer_peer, He in Hak. cbn in Hak.
    unfold b. rewrite bool_decide_false; [done|]. intros E. unfold acked_st in Hak. by rewrite E in Hak.
  - intros t x. destruct (side_cases t s) as [->| ->]; rewrite Ew, ?sel_upd, ?sel_upd_peer; [done|apply (pv_out _ Hw)].
  - eapply (owns_drop w w' s n); [apply Hw|..]; try done.
    + by rewrite Hs, Hs'.
    + destruct (ends w (peer s)) as [pp|] eqn:He'; [|unfold chain; by rewrite Ew, sel_upd_peer, He'].
      assert (chain w' (peer s) = option_list (inpipe pp)) as -> by (unfold chain; by rewrite Ew, peer_peer, sel_upd, sel_upd_peer, He').
      destruct (acked_st p) eqn:Hak; [|symmetry; eapply chain_let_go; try done; by rewrite Hc].
      unfold chain. rewrite peer_peer, He, He'. cbn. by rewrite (proj2 (pv_out _ Hw _ _ He) Hak).
    + intros t x. rewrite Ew. destruct (side_cases t s) as [->| ->]; rewrite ?sel_upd, ?sel_upd_peer; [done|].
      intros Hx. exists x. split; [done|]. split; [done|]. intros E. by apply peer_ne in E.
  - rewrite Eu. intros x q [_ H]%lookup_delete_Some. by eapply pv_q.
  - intros t. destruct (pv_told _ Hw t) as (l & Hl & Hn). exists l. split; [|done]. rewrite Eev, filter_app, Hl, Ew.
    destruct (side_cases t s) as [->| ->]; rewrite ?sel_upd, ?sel_upd_peer.
    + by rewrite He, app_nil_r, filter_cons_True.
    + rewrite filter_cons_False by (cbn; intros E; symmetry in E; by apply peer_ne in E). by rewrite app_nil_r.
Qed.

(** An end that takes a command or changes its state, and keeps its ypipes. *)
Lemma pinv_own_state s p p' c out es w w' :
  pinv w → ends w s = Some p →
  ends w' = upd s (Some p') (ends w) → inpipe p' = inpipe p → outpipe p' = outpipe p →
  cmds w s = option_list c ++ cmds w' s → track (received p, false) (option_list c) = Some (received p', false) →
  cmds w' (peer s) = cmds w (peer s) ++ out → track (asked_st p, acked_st p) out = Some (asked_st p', acked_st p) →
  payloads (option_list c ++ out) = [] → acked_st p' = acked_st p →
  upipes w' = upipes w → upipe_next w' = upipe_next w →
  events w' = events w ++ ((s,.) <$> es) → pipe_terminated ∉ es → pinv w'.
Proof.
  intros Hw He Ew Hi Ho Hc Ht Hcp Ht' Hp Ha Eu En Hev Hes.
  eapply (pinv_quiet s p p' c out es w w'); try done; rewrite Eu; [apply (pv_q _ Hw)|done].
Qed.

(** The ypipe of an end after a call. *)
Lemma upipes_change w n q q' :
  pinv w → upipes w !! n = Some q → qwf q' →
  (∀ x y, <[n:=q']> (upipes w) !! x = Some y → qwf y) ∧ (∀ x, is_Some (<[n:=q']> (upipes w) !! x) ↔ is_Some (upipes w !! x)).
Proof.
  intros Hw Hn Hq. split.
  - intros x y [[_ <-]|[_ H]]%lookup_insert_Some; [done|by eapply pv_q].
  - intros x. rewrite lookup_insert_is_Some'. split; [intros [<-|]; by eauto|by right].
Qed.

Lemma micro_in_inv s w es w' : micro_in s w es w' → pinv w → pinv w'.
Proof.
  intros [p n q (He & Hi & Hn) Hr Hq|p n q m (He & Hi & Hn) Hr [Hlt Hit] Hcr|p n q m (He & Hi & Hn) Hr [Hlt Hit] Hcr Hd
    |p n q m (He & Hi & Hn) Hst [Hlt Hit] Hd|p n q m (He & Hi & Hn) Hst [Hlt Hit] Hd] Hw;
    pose proof (pv_q _ Hw _ _ Hn) as Hwf.
  - by eapply (pinv_local s p _ None); [..|apply qwf_sleep| | | | |].
  - by eapply (pinv_local s p _ None); [..|apply qwf_adv| | | | |].
  - assert (pinv (from_option (wc s) id (if fires (read_one m p) then Some (activate_write (msgs_read (read_one m p))) else None)
       (we s (read_one m p) (wq n (q_adv q) w)))) as H.
    { eapply (pinv_local s p); try done; [by apply qwf_adv|unfold read_one; by destruct (counted m)..| |].
      - by destruct (fires _).
      - intros _. unfold acked_st. by destruct Hr as [-> | ->]. }
    unfold wc_if. by destruct (fires _).
  - destruct (upipes_change w n q (q_adv q) Hw Hn) as [H1 H2]; [by apply qwf_adv|].
    eapply (pinv_quiet s p _ None [] []); try done; cbn; unfold received, asked_st, acked_st;
      rewrite ?Hst, ?app_nil_r; try done. apply not_elem_of_nil.
  - destruct (upipes_change w n q (q_adv q) Hw Hn) as [H1 H2]; [by apply qwf_adv|].
    eapply (pinv_ack s p _ None); try done; cbn; unfold acked_st, asked_st, received;
      rewrite ?Hst, ?sel_upd, ?sel_upd_peer'; done.
Qed.

Lemma micro_out_inv s w es w' : micro_out s w es w' → pinv w → pinv w'.
Proof.
  intros [p He Hst Hh|p n q m (He & Ho & Hn) Hst Hoa Hh|p n q (He & Ho & Hn) Hf|p n q (He & Ho & Hn) Hf
    |p n q (He & Ho & Hn) Hst Hf] Hw; try pose proof (pv_q _ Hw _ _ Hn) as Hwf.
  - destruct (in_pipe _ Hw _ _ He) as (n & q & (_ & _ & Hn) & Hq). rewrite <- (wq_id n q w Hn).
    by eapply (pinv_local s p _ None).
  - eapply (pinv_local s p _ None); try done; [by apply qwf_put|unfold wrote_one; by destruct (counted m)..].
  - rewrite <- (we_id s p (wq n (q_unput q) w)) by done. by eapply (pinv_local s p _ None); [..|apply qwf_unput| | | | |].
  - assert (pinv (from_option (wc s) id (if q_asleep q then Some activate_read else None) (we s p (wq n (q_flushed q) w)))) as H.
    { eapply (pinv_local s p); try done; [by apply qwf_flushed|by destruct (q_asleep q)|intros _; by eapply out_not_acked]. }
    rewrite we_id in H by done. unfold wc_if. by destruct (q_asleep q).
  - rewrite <- (we_id s p (wq n _ w)) by done. eapply (pinv_local s p _ None); try done.
    by apply (qwf_put the_delimiter).
Qed.

Lemma micro_own_inv s w es w' : micro_own s w es w' → pinv w → pinv w'.
Proof.
  intros [p He Hst|p b He|p h l i o He|p He Hst|p He Hst Hd|p He Hst] Hw.
  - by apply pinv_hiccup.
  - eapply (pinv_own_state s p (set_delay b p) None [] []); try done; cbn; rewrite ?app_nil_r; try done. apply not_elem_of_nil.
  - eapply (pinv_own_state s p (set_marks h l (set_boosts i o p)) None [] []); try done; cbn; rewrite ?app_nil_r; try done. apply not_elem_of_nil.
  - eapply (pinv_own_state s p _ None [pipe_term] []); try done; cbn; unfold received, asked_st, acked_st;
      rewrite ?sel_upd, ?sel_upd_peer', ?app_nil_r; try (destruct Hst as [-> | ->]; done); try done. apply not_elem_of_nil.
  - eapply (pinv_ack s p _ None); try done; cbn; unfold received, asked_st, acked_st; rewrite ?Hst, ?sel_upd, ?sel_upd_peer'; try done.
    by apply (pv_q _ Hw).
  - eapply (pinv_own_state s p (set_out_active false p) None [] []); try done; cbn; rewrite ?app_nil_r; try done. apply not_elem_of_nil.
Qed.

Lemma micro_cmd_inv s w es w' : micro_cmd s w es w' → pinv w → pinv w'.
Proof.
  intros [p l He Hc|p l k He Hc|p o l n k He Ho Hc|p l He Hc Hst Hd|p l st He Hc Hst|p n l He Hi Hc] Hw.
  - cbv zeta. set (b := negb _ && _).
    eapply (pinv_own_state s p (set_in_active (b || in_active p) p) (Some activate_read) [] (if b then [read_activated] else [])); try done;
      unfold wn_if; destruct b; cbn; rewrite ?Hc, ?sel_upd, ?sel_upd_peer, ?app_nil_r; try done; set_solver.
  - cbv zeta. set (b := negb _ && _).
    eapply (pinv_own_state s p (set_out_active (b || out_active p) (set_peers_msgs_read k p)) (Some (activate_write k)) []
              (if b then [write_activated] else [])); try done;
      unfold wn_if; destruct b; cbn; rewrite ?Hc, ?sel_upd, ?sel_upd_peer, ?app_nil_r; try done; set_solver.
  - by apply pinv_hiccuped.
  - eapply (pinv_own_state s p _ (Some pipe_term) [] []); try done; cbn; unfold received, asked_st, acked_st;
      rewrite ?Hst, ?Hc, ?sel_upd, ?sel_upd_peer, ?app_nil_r; try done. apply not_elem_of_nil.
  - eapply (pinv_ack s p _ (Some pipe_term)); try done; cbn; unfold received, asked_st, acked_st;
      rewrite ?Hc, ?sel_upd, ?sel_upd_peer, ?sel_upd_peer'; try done; try by apply (pv_q _ Hw).
    all: first [by rewrite sel_upd|destruct Hst as [[[[E _]|E] ->]|[E ->]]; cbn; rewrite ?E; done].
  - by apply pinv_killed.
Qed.

Lemma micro_inv s w es w' : micro s w es w' → pinv w → pinv w'.
Proof. intros [? ? H|? ? H|? ? H|? ? H]; eauto using micro_in_inv, micro_out_inv, micro_own_inv, micro_cmd_inv. Qed.

Lemma micros_inv s w es w' : micros s w es w' → pinv w → pinv w'.
Proof. induction 1; eauto using micro_inv. Qed.

(** ** What a move leaves alone *)

(** The result of a conditional command or notification. *)
Ltac ifs := unfold wc_if, wn_if; repeat case_match; cbn; rewrite ?sel_upd, ?sel_upd_peer, ?sel_upd_peer', ?peer_peer.

Lemma micro_other t w es w' : micro t w es w' → ends w' (peer t) = ends w (peer t).
Proof. intros [? ? H|? ? H|? ? H|? ? H]; destruct H; ifs; done. Qed.

(** The end has not been asked to terminate. *)
Definition open_st (p : pipe_t) : Prop := state p = active ∨ state p = delimiter_received.

(** What was not open does not open again, nor does what was not active become so. *)
Lemma micro_open t w es w' p' :
  micro t w es w' → ends w' t = Some p' → open_st p' → ∃ p, ends w t = Some p ∧ open_st p.
Proof.
  intros [? ? H|? ? H|? ? H|? ? H]; destruct H; unfold src, dst in *; destruct_and?; ifs; try done;
    try (intros [= <-] Ho; eexists; split; [eassumption|]; unfold open_st in *; cbn in Ho; unfold read_one, wrote_one in *;
         repeat case_match; cbn in *; try done; naive_solver).
  all: intros E Ho; eexists; split; [eassumption|]; congruence.
Qed.

Lemma micro_active t w es w' p' :
  micro t w es w' → ends w' t = Some p' → state p' = active → ∃ p, ends w t = Some p ∧ state p = active.
Proof.
  intros Hm He Ha. destruct (micro_open _ _ _ _ _ Hm He (or_introl Ha)) as (p & Hp & [?|Hd]); [by eauto|]. exfalso.
  revert He Ha. destruct Hm as [? ? H|? ? H|? ? H|? ? H]; destruct H; unfold src, dst in *; destruct_and?; simplify_eq; ifs; try done.
  all: intros E Ho; try injection E as <-; unfold read_one, wrote_one in *; repeat case_match; cbn in *; naive_solver congruence.
Qed.

Lemma micros_closed t w es w' :
  micros t w es w' → (∀ p, ends w t = Some p → ¬ open_st p) → ∀ p, ends w' t = Some p → ¬ open_st p.
Proof.
  induction 1 as [|w es w1 es' w2 H1 _ IH]; [done|]. intros Hc. apply IH. intros p He Ho.
  destruct (micro_open _ _ _ _ _ H1 He Ho) as (p0 & ? & ?). by eapply Hc.
Qed.

Lemma micros_other t w es w' : micros t w es w' → ends w' (peer t) = ends w (peer t).
Proof. induction 1 as [|w es w1 es' w2 H1 _ IH]; [done|]. rewrite IH. by eapply micro_other. Qed.

Lemma micros_active t w es w' p' :
  micros t w es w' → ends w' t = Some p' → state p' = active → ∃ p, ends w t = Some p ∧ state p = active.
Proof.
  induction 1 as [|w es w1 es' w2 H1 _ IH]; [by eauto|]. intros He Ha. destruct (IH He Ha) as (p & ? & ?). by eapply micro_active.
Qed.

(** ** The methods are made of moves *)

Section runs.
Context (s : side) (w : pair).

Lemma get_end_run p : ends w s = Some p → get_end s w = Ok (p, w).
Proof. intros He. unfold get_end. rewrite (bind_run _ _ _ w w) by done. by rewrite He. Qed.
Lemma change_run p f : ends w s = Some p → change s f w = Ok ((), we s (f p) w).
Proof. intros He. unfold change. by erewrite bind_run by by apply get_end_run. Qed.
Lemma on_upipe_run {A} n q (f : upipe → A * upipe) :
  upipes w !! n = Some q → on_upipe (Some n) f w = Ok ((f q).1, wq n (f q).2 w).
Proof. intros Hn. unfold on_upipe. rewrite (bind_run _ _ _ w w) by done. rewrite Hn. by destruct (f q). Qed.
Lemma delete_upipe_run n q : upipes w !! n = Some q → delete_upipe (Some n) w = Ok ((), wd n w).
Proof. intros Hn. unfold delete_upipe. rewrite (bind_run _ _ _ w w) by done. by rewrite Hn. Qed.
Lemma items_fuel_run n q : upipes w !! n = Some q → items_fuel (Some n) w = Ok (S (length (q_items q)), w).
Proof. intros Hn. unfold items_fuel. rewrite (bind_run _ _ _ w w) by done. cbn. by rewrite Hn. Qed.
Lemma send_run c : send s c w = Ok ((), wc s c w).
Proof. done. Qed.
Lemma notify_run e : notify s e w = Ok ((), wn s e w).
Proof. done. Qed.
Lemma zmq_assert_run b : b = true → zmq_assert b w = Ok ((), w).
Proof. by intros ->. Qed.
End runs.

(** A step of a method whose result is known. *)
Ltac run1 :=
  first
    [ erewrite bind_run by (eapply get_end_run; first [eassumption|cbn; by rewrite ?sel_upd, ?sel_upd_peer'])
    | erewrite bind_run by (eapply change_run; first [eassumption|cbn; by rewrite ?sel_upd, ?sel_upd_peer'])
    | erewrite bind_run by (eapply on_upipe_run; eassumption)
    | erewrite bind_run by (eapply items_fuel_run; eassumption)
    | erewrite bind_run by apply send_run
    | erewrite bind_run by apply notify_run
    | erewrite bind_run by (apply zmq_assert_run; assumption) ].

Lemma up_read_item q m : item q m → up_read q = (Some m, q_adv q).
Proof. intros [Hlt Hi]. unfold up_read, q_rop. rewrite decide_True by done. by rewrite Hi. Qed.
Lemma up_read_none q : ¬ (q_r q < q_w q)%nat → up_read q = (None, q_sleep q).
Proof. intros H. unfold up_read, q_rop. by rewrite decide_False by done. Qed.

(** [process_delimiter] after the delimiter was taken. *)
Lemma process_delimiter_sim s w p n q m :
  src w s p n q → in_reading p → item q m → pm_delimiter m = true →
  ∃ w', process_delimiter s (wq n (q_adv q) w) = Ok ((), w') ∧ micros s w [] w'.
Proof.
  intros Hsrc Hr Hit Hd. pose proof Hsrc as (He & Hi & Hn). unfold process_delimiter.
  erewrite bind_run by (apply get_end_run; exact He).
  erewrite bind_run by (apply zmq_assert_run; by apply bool_decide_true).
  destruct (decide (state p = active)) as [Ha|Hna].
  - eexists. split; [apply change_run; exact He|]. apply ms_one, mu_in. by eapply mu_delim_active.
  - destruct Hr as [?|Hw]; [done|]. run1. run1. eexists.
    split; [eapply change_run; cbn; rewrite sel_upd; reflexivity|].
    rewrite we_wc, we_we.
    apply ms_one, mu_in. by eapply mu_delim_wait.
Qed.

Lemma readable_reading p : readable p = true → in_reading p.
Proof. unfold readable. intros [_ H]%andb_true_iff. by apply bool_decide_eq_true in H. Qed.

Lemma check_read_sim s w p :
  pinv w → ends w s = Some p → ∃ b w', pipe_check_read s w = Ok (b, w') ∧ micros s w [] w'.
Proof.
  intros Hw He. unfold pipe_check_read. run1. destruct (readable p) eqn:Hr; cbn [negb]; [|eexists _, _; split; [done|constructor]].
  apply readable_reading in Hr. destruct (in_pipe _ Hw _ _ He) as (n & q & Hsrc & Hwf). pose proof Hsrc as (_ & Hi & Hn).
  rewrite Hi. run1. unfold up_check_read, q_rop. case_decide as Hlt; cbn [fst snd negb].
  - rewrite wq_id by done. destruct (qwf_item q Hwf Hlt) as [m Hm]. run1. unfold up_probe, q_rop. rewrite decide_True, Hm by done. cbn [fst snd].
    rewrite wq_id by done. destruct (pm_delimiter m) eqn:Hd; [|eexists _, _; split; [done|constructor]].
    run1. rewrite (up_read_item q m) by done. cbn [fst snd].
    erewrite bind_run by by apply zmq_assert_run.
    destruct (process_delimiter_sim s w p n q m Hsrc Hr) as (w' & Hrun & Hms); [done|done|].
    erewrite bind_run by exact Hrun. eauto.
  - erewrite bind_run by (eapply change_run; exact He). eexists _, _. split; [done|].
    apply ms_one, mu_in. eapply mu_sleep; [done..|lia].
Qed.

Lemma read_message_sim s fuel w p n q :
  pinv w → src w s p n q → in_reading p → (length (q_items q) < q_r q + fuel)%nat →
  ∃ o w', read_message fuel s w = Ok (o, w') ∧ micros s w (e_read <$> option_list o) w'.
Proof.
  revert w p q. induction fuel as [|fuel IH]; intros w p q Hw Hsrc Hr Hf.
  { destruct (pv_q _ Hw n q) as [? ? ? _]; [by apply Hsrc|]. lia. }
  pose proof Hsrc as (He & Hi & Hn). pose proof (pv_q _ Hw _ _ Hn) as Hwf. cbn [read_message]. run1. rewrite Hi. run1.
  destruct (decide (q_r q < q_w q)%nat) as [Hlt|Hge].
  2:{ rewrite up_read_none by done. cbn [fst snd]. erewrite bind_run by (eapply change_run; exact He).
      eexists None, _. split; [done|]. apply ms_one, mu_in. eapply mu_sleep; [done..|lia]. }
  destruct (qwf_item q Hwf Hlt) as [m Hm]. assert (item q m) as Hit by done. rewrite (up_read_item q m Hit). cbn [fst snd].
  destruct (pm_credential m) eqn:Hc; [|destruct (pm_delimiter m) eqn:Hd].
  - erewrite bind_run by (eapply change_run; exact He). set (w1 := we _ _ _).
    assert (micro s w [] w1) as Hmu by (apply mu_in; by eapply mu_credential).
    destruct (IH w1 (set_credential (pm_data m) p) (q_adv q)) as (o & w' & Hrun & Hms); [by eapply micro_inv| |done|cbn; lia|].
    + split; [cbn; by rewrite sel_upd|]. split; [done|]. cbn. apply lookup_insert_eq.
    + eexists _, _. split; [done|]. by apply (ms_cons s w [] w1).
  - destruct (process_delimiter_sim s w p n q m Hsrc Hr) as (w' & Hrun & Hms); [done|done|].
    erewrite bind_run by exact Hrun. by eexists None, _.
  - set (w1 := wq n (q_adv q) w). assert (micro s w [e_read m]
        (wc_if (fires (read_one m p)) s (activate_write (msgs_read (read_one m p))) (we s (read_one m p) w1))) as Hmu
      by (apply mu_in; by eapply mu_read).
    erewrite (bind_run _ _ w1 () (we s (read_one m p) w1)).
    2:{ unfold read_one, counted. destruct (negb (pm_more m) && negb (pm_identity m)); [by erewrite change_run by done|by rewrite we_id]. }
    run1. change ((0 <? _) && _) with (fires (read_one m p)). exists (Some m). unfold wc_if in Hmu.
    destruct (fires (read_one m p)); (eexists; split; [done|by apply ms_one]).
Qed.

Lemma read_sim s w p :
  pinv w → ends w s = Some p → ∃ o w', pipe_read s w = Ok (o, w') ∧ micros s w (e_read <$> option_list o) w'.
Proof.
  intros Hw He. unfold pipe_read. run1. destruct (readable p) eqn:Hr; cbn [negb]; [|eexists None, _; split; [done|constructor]].
  apply readable_reading in Hr. destruct (in_pipe _ Hw _ _ He) as (n & q & Hsrc & Hwf). pose proof Hsrc as (_ & Hi & Hn).
  rewrite Hi. run1. eapply read_message_sim; try done. lia.
Qed.

Lemma check_write_sim s w p :
  pinv w → ends w s = Some p →
  ∃ b w' p', pipe_check_write s w = Ok (b, w') ∧ micros s w [] w' ∧ ends w' s = Some p' ∧
    (b = true → p' = p ∧ w' = w ∧ state p = active ∧ out_active p = true ∧ check_hwm p = true).
Proof.
  intros Hw He. unfold pipe_check_write. run1.
  destruct (out_active p) eqn:Ho; cbn [negb orb]; [|eexists _, _, _; split_and!; [done|constructor|done..]].
  destruct (bool_decide (state p = active)) eqn:Hst; cbn [negb orb]; [|eexists _, _, _; split_and!; [done|constructor|done..]].
  apply bool_decide_eq_true in Hst. destruct (check_hwm p) eqn:Hh; cbn [negb].
  - eexists _, _, _. split_and!; [done|constructor|done..].
  - erewrite bind_run by (eapply change_run; exact He). eexists _, _, _. split; [done|]. split; [apply ms_one, mu_out; by eapply mu_full|].
    split; [cbn; by rewrite sel_upd|done].
Qed.

Lemma write_sim s w p m :
  pinv w → ends w s = Some p →
  ∃ b w', pipe_write s m w = Ok (b, w') ∧ micros s w (if b : bool then [e_write m] else []) w'.
Proof.
  intros Hw He. unfold pipe_write. destruct (check_write_sim s w p Hw He) as (b & w1 & p1 & Hrun & Hms & He1 & Hb).
  erewrite bind_run by exact Hrun. destruct b; cbn [negb]; [|by eexists _, _].
  destruct (Hb eq_refl) as (-> & -> & Hst & Hoa & Hh). run1.
  destruct (outpipe p) as [n|] eqn:Ho; [|apply (pv_out _ Hw _ _ He) in Ho; unfold acked_st in Ho; by rewrite Hst in Ho].
  destruct (out_pipe _ Hw _ _ _ He Ho) as (q & Hdst & Hwf). pose proof Hdst as (_ & _ & Hn). run1. cbn [up_write snd].
  set (w1 := wq n _ w). erewrite (bind_run _ _ w1 () (we s (wrote_one m p) w1)).
  2:{ unfold wrote_one, counted. destruct (negb (pm_more m) && negb (pm_identity m)); [by erewrite change_run by done|by rewrite we_id]. }
  eexists _, _. split; [done|]. apply ms_one, mu_out. by eapply mu_write.
Qed.

Lemma up_unwrite_none q : q_f q = length (q_items q) → up_unwrite q = (None, q).
Proof. intros H. unfold up_unwrite. cbn. by rewrite decide_True. Qed.
Lemma up_unwrite_some q : q_f q ≠ length (q_items q) → up_unwrite q = (last (q_items q), q_unput q).
Proof. intros H. unfold up_unwrite. cbn. by rewrite decide_False. Qed.

Lemma rollback_loop_sim s fuel w p n q :
  pinv w → dst w s p n q → (length (q_items q) < q_f q + fuel)%nat →
  ∃ w' q' k, rollback_loop fuel (Some n) w = Ok ((), w') ∧ micros s w (replicate k e_unwrite) w' ∧ dst w' s p n q' ∧
    q_f q' = length (q_items q').
Proof.
  revert w q. induction fuel as [|fuel IH]; intros w q Hw Hdst Hf; [pose proof (pv_q _ Hw n q (proj2 (proj2 Hdst))) as []; lia|].
  pose proof Hdst as (He & Ho & Hn). pose proof (pv_q _ Hw _ _ Hn) as Hwf. cbn [rollback_loop]. run1.
  destruct (decide (q_f q = length (q_items q))) as [E|E].
  - rewrite up_unwrite_none by done. cbn [fst snd]. rewrite wq_id by done. exists w, q, 0%nat. split_and!; [done|constructor|done..].
  - rewrite up_unwrite_some by done. cbn [fst snd]. destruct (qwf_last q Hwf E) as (m & -> & Hm).
    erewrite bind_run by by apply zmq_assert_run. set (w1 := wq n (q_unput q) w).
    assert (micro s w [e_unwrite] w1) as Hmu by (apply mu_out; by eapply mu_unwrite).
    destruct (IH w1 (q_unput q)) as (w' & q' & k & Hrun & Hms & Hd' & Hq'); [by eapply micro_inv| |cbn; rewrite length_take; destruct Hwf; lia|].
    + split; [done|]. split; [done|]. cbn. apply lookup_insert_eq.
    + exists w', q', (S k). split; [done|]. split; [|done]. by apply (ms_cons s w [e_unwrite] w1).
Qed.

Lemma rollback_sim s w p :
  pinv w → ends w s = Some p →
  ∃ w' k, pipe_rollback s w = Ok ((), w') ∧ micros s w (replicate k e_unwrite) w' ∧ ends w' s = Some p ∧
    (∀ n, outpipe p = Some n → ∃ q, dst w' s p n q ∧ q_f q = length (q_items q)).
Proof.
  intros Hw He. unfold pipe_rollback. run1. destruct (outpipe p) as [n|] eqn:Ho.
  - destruct (out_pipe _ Hw _ _ _ He Ho) as (q & Hdst & Hwf). pose proof Hdst as (_ & _ & Hn). run1.
    destruct (rollback_loop_sim s (S (length (q_items q))) w p n q Hw Hdst) as (w' & q' & k & Hrun & Hms & Hd & Hq); [lia|].
    exists w', k. split; [done|]. split; [done|]. split; [by apply Hd|]. intros ? [= <-]. by exists q'.
  - exists w, 0%nat. split_and!; [done|constructor|done..].
Qed.

Lemma up_flush_none q : q_w q = q_f q → up_flush q = (true, q).
Proof. intros H. unfold up_flush. cbn. by rewrite decide_True. Qed.
Lemma up_flush_some q : q_w q ≠ q_f q → up_flush q = (negb (q_asleep q), q_flushed q).
Proof. intros H. unfold up_flush. cbn. by rewrite decide_False. Qed.

(** There is no incomplete message left. *)
Definition settled (w : pair) (s : side) : Prop := ∀ p n q, dst w s p n q → q_f q = length (q_items q).

(** All that is complete is flushed. *)
Definition flushed_all (w : pair) (s : side) : Prop := ∀ p n q, dst w s p n q → q_w q = q_f q.
(** The end has let go of the ypipe it wrote. *)
Definition no_out (w : pair) (s : side) : Prop := ∀ p, ends w s = Some p → outpipe p = None.

Lemma no_out_flushed w s : no_out w s → flushed_all w s.
Proof. intros H p n q (He & Ho & _). rewrite (H p He) in Ho. done. Qed.

Lemma flush_sim s w p :
  pinv w → ends w s = Some p →
  ∃ w', pipe_flush s w = Ok ((), w') ∧ micros s w [] w' ∧ (settled w s → settled w' s) ∧ flushed_all w' s.
Proof.
  intros Hw He. unfold pipe_flush. run1.
  assert (outpipe p = None → flushed_all w s) as Hno by (intros Ho; apply no_out_flushed; intros p'; naive_solver).
  case_decide as Hst.
  { eexists. split_and!; [done|constructor|done|]. apply Hno, (pv_out _ Hw _ _ He). unfold acked_st. by rewrite Hst. }
  destruct (outpipe p) as [n|] eqn:Ho; [|eexists; split_and!; [done|constructor|done|by apply Hno]].
  destruct (out_pipe _ Hw _ _ _ He Ho) as (q & Hdst & Hwf). pose proof Hdst as (_ & _ & Hn). run1.
  destruct (decide (q_w q = q_f q)) as [E|E].
  - rewrite up_flush_none by done. cbn [fst snd]. rewrite wq_id by done. eexists. split_and!; [done|constructor|done|].
    intros p' n' q' (He' & Ho' & Hn'). assert (p' = p ∧ n' = n ∧ q' = q) as (-> & -> & ->) by naive_solver. done.
  - rewrite up_flush_some by done. cbn [fst snd].
    assert (micro s w [] (wc_if (q_asleep q) s activate_read (wq n (q_flushed q) w))) as Hmu by (apply mu_out; by eapply mu_flush).
    assert (settled w s → settled (wq n (q_flushed q) w) s) as Hset.
    { intros Hs p' n' q' (He' & Ho' & Hn'). cbn in He', Hn'. assert (p' = p ∧ n' = n) as [-> ->] by naive_solver.
      rewrite lookup_insert_eq in Hn'. injection Hn' as <-. apply (Hs p n q Hdst). }
    assert (flushed_all (wq n (q_flushed q) w) s) as Hfl.
    { intros p' n' q' (He' & Ho' & Hn'). cbn in He', Hn'. assert (p' = p ∧ n' = n) as [-> ->] by naive_solver.
      rewrite lookup_insert_eq in Hn'. by injection Hn' as <-. }
    unfold wc_if in Hmu. destruct (q_asleep q); (eexists; split_and!; [done|by apply ms_one|done|done]).
Qed.

Lemma hiccup_sim s w p :
  pinv w → ends w s = Some p → ∃ w' es, pipe_hiccup s w = Ok ((), w') ∧ micros s w es w' ∧ (es = [] ∨ es = [e_hiccup]).
Proof.
  intros Hw He. unfold pipe_hiccup. run1. destruct (bool_decide (state p = active)) eqn:Hst; cbn [negb].
  - apply bool_decide_eq_true in Hst. erewrite (bind_run _ _ w (upipe_next w) (wnew w)) by done.
    erewrite bind_run by (eapply change_run; exact He). eexists _, [e_hiccup]. split; [done|]. split; [|by right].
    apply ms_one, mu_own. by eapply mu_hiccup.
  - eexists _, []. split; [done|]. split; [constructor|by left].
Qed.

(** The end of [terminate]: what is incomplete is taken back and the delimiter is
    written. *)
Lemma stop_outbound_sim s w0 p0 w p :
  ends w0 s = Some p0 → we s (set_out_active false p0) w0 = w → ends w s = Some p →
  pinv w → (state p = term_req_sent1 ∨ state p = waiting_for_delimiter ∨ outpipe p = None) →
  ∃ w' es, stop_outbound s w0 = Ok ((), w') ∧ micros s w es w' ∧
    (es = [] ∧ no_out w' s ∨ settled w' s ∧ flushed_all w' s ∧ ∃ k, es = replicate k e_unwrite ++ [e_delim]).
Proof.
  intros He0 Ew He Hw Hst. unfold stop_outbound. erewrite bind_run by (eapply change_run; exact He0). rewrite Ew. run1.
  destruct (outpipe p) as [n|] eqn:Ho; [|eexists _, []; split_and!; [done|constructor|left; split; [done|intros p'; naive_solver]]].
  destruct (rollback_sim s w p Hw He) as (w1 & k & Hrun & Hms & He1 & Hq1). erewrite bind_run by exact Hrun.
  destruct (Hq1 n Ho) as (q & Hdst & Hq). pose proof Hdst as (_ & _ & Hn). run1. cbn [up_write snd].
  set (w2 := wq n _ w1).
  assert (micros s w (replicate k e_unwrite ++ [e_delim]) w2) as Hms2.
  { eapply ms_snoc; [done|]. apply mu_out. eapply mu_delimiter; [done| |done]. destruct Hst as [?|[?|?]]; auto. congruence. }
  assert (settled w2 s) as Hset.
  { intros p' n' q' (He' & Ho' & Hn'). cbn in He', Hn'. assert (p' = p ∧ n' = n) as [-> ->] by naive_solver.
    rewrite lookup_insert_eq in Hn'. injection Hn' as <-. cbn. rewrite length_app. cbn. lia. }
  destruct (flush_sim s w2 p) as (w' & Hrun' & Hms' & Hs' & Hf'); [by eapply micros_inv|done|].
  eexists w', _. split; [done|]. split; [by eapply ms_app|]. right. split; [by apply Hs'|]. split; [done|]. exists k. by rewrite app_nil_r.
Qed.

Definition term_events (d : bool) (w' : pair) (s : side) (es : list pev) : Prop :=
  (∀ p, ends w' s = Some p → ¬ open_st p) ∧
  (es = [e_delay d] ∨
  ∃ es', es = e_delay d :: e_term :: es' ∧ (es' = [] ∧ no_out w' s ∨ settled w' s ∧ flushed_all w' s ∧ ∃ k, es' = replicate k e_unwrite ++ [e_delim])).

Lemma terminate_sim s w p d :
  pinv w → ends w s = Some p → ∃ w' es, terminate s d w = Ok ((), w') ∧ micros s w es w' ∧ term_events d w' s es.
Proof.
  intros Hw He. unfold terminate. erewrite bind_run by (eapply change_run; exact He).
  set (p1 := set_delay d p). set (w1 := we s p1 w).
  assert (ends w1 s = Some p1) as He1 by (cbn; by rewrite sel_upd). run1.
  assert (micro s w [e_delay d] w1) as Hm1 by (apply mu_own; by eapply mu_delay).
  assert (pinv w1) as Hw1 by by eapply micro_inv.
  assert (∀ w0 p0 w2 p2, ends w0 s = Some p0 → we s (set_out_active false p0) w0 = w2 → micro s w1 [e_term] w2 →
    ends w2 s = Some p2 → state p2 = term_req_sent1 ∨ state p2 = waiting_for_delimiter ∨ outpipe p2 = None →
    ∃ w' es, stop_outbound s w0 = Ok ((), w') ∧ micros s w es w' ∧ term_events d w' s es) as Hfin.
  { intros w0 p0 w2 p2 He0 Ew2 Hm2 He2 Hst.
    destruct (stop_outbound_sim s w0 p0 w2 p2) as (w' & es & Hrun & Hms & Hes); [done..|by eapply micro_inv|done|].
    eexists w', _. split; [done|]. split; [eapply (ms_cons _ _ [e_delay d]); [done|]; by eapply (ms_cons _ _ [e_term])|].
    split; [|right; by exists es]. eapply micros_closed; [done|]. intros p3. rewrite He2. intros [= <-] Ho.
    destruct Hst as [E|[E|E]]; [destruct Ho; congruence..|].
    apply (pv_out w2 (micro_inv _ _ _ _ Hm2 Hw1) _ _ He2) in E. unfold acked_st in E. by destruct Ho as [F|F]; rewrite F in E. }
  assert (¬ open_st p1 → ∃ w' es, Ok ((), w1) = Ok ((), w') ∧ micros s w es w' ∧ term_events d w' s es) as Hnop.
  { intros Ho. exists w1, [e_delay d]. split; [done|]. split; [by apply ms_one|]. split; [|by left]. rewrite He1. by intros ? [= <-]. }
  destruct (state p1) eqn:Hst; try (apply Hnop; intros [?|?]; congruence).
  - run1. erewrite bind_run by (eapply change_run; exact He1). eapply Hfin; [cbn; by rewrite sel_upd|reflexivity| |..].
    + rewrite we_we. apply mu_own. apply (mu_term s w1 p1); auto.
    + cbn. by rewrite sel_upd.
    + by left.
  - run1. erewrite bind_run by (eapply change_run; exact He1). eapply Hfin; [cbn; by rewrite sel_upd|reflexivity| |..].
    + rewrite we_we. apply mu_own. apply (mu_term s w1 p1); auto.
    + cbn. by rewrite sel_upd.
    + by left.
  - destruct (delay p1) eqn:Hd.
    + rewrite (bind_run _ _ w1 () w1) by done. eapply Hfin; [done|reflexivity| |..].
      * apply mu_own. by apply (mu_stop s w1 p1).
      * cbn. by rewrite sel_upd.
      * auto.
    + erewrite bind_run.
      2:{ run1. run1. eapply change_run. cbn. by rewrite sel_upd. }
      eapply Hfin; [cbn; by rewrite sel_upd|reflexivity| |..].
      * apply mu_own. pose proof (mu_term_nodelay s w1 p1 He1 Hst Hd) as H.
        by rewrite we_we, we_wc, we_we.
      * cbn. by rewrite sel_upd.
      * auto.
Qed.

(** The loops that empty a ypipe. *)
Lemma drop_written_run s o fuel w p q :
  ends w s = Some p → upipes w !! o = Some q → qwf q → (length (q_items q) < q_r q + fuel)%nat →
  ∃ k q', drop_written fuel s (Some o) w = Ok ((), we s (set_msgs_written k p) (wq o q' w)).
Proof.
  revert w p q. induction fuel as [|fuel IH]; intros w p q He Ho Hq Hf; [destruct Hq; lia|]. cbn [drop_written]. run1.
  destruct (decide (q_r q < q_w q)%nat) as [Hlt|Hge].
  - destruct (qwf_item q Hq Hlt) as [m Hm]. rewrite (up_read_item q m) by done. cbn [fst snd].
    set (w1 := wq o (q_adv q) w). set (p1 := if pm_more m then p else set_msgs_written (u64 (msgs_written p - 1)) p).
    erewrite (bind_run _ _ w1 () (we s p1 w1)).
    2:{ unfold p1. destruct (pm_more m); cbn [negb]; [by rewrite we_id|by erewrite change_run by done]. }
    destruct (IH (we s p1 w1) p1 (q_adv q)) as (k & q' & Hrun);
      [cbn; by rewrite sel_upd|cbn; by rewrite lookup_insert_eq|by apply qwf_adv|cbn; lia|].
    exists k, q'. rewrite Hrun. f_equal. f_equal. change (wq o q' (we s p1 w1)) with (we s p1 (wq o q' w1)).
    rewrite we_we. unfold w1. rewrite wq_wq. f_equal. unfold p1. by destruct (pm_more m).
  - rewrite up_read_none by done. cbn [fst snd]. exists (msgs_written p), (q_sleep q).
    assert (set_msgs_written (msgs_written p) p = p) as -> by by destruct p. by rewrite we_id.
Qed.

Lemma drop_unread_run n fuel w q :
  upipes w !! n = Some q → qwf q → (length (q_items q) < q_r q + fuel)%nat →
  ∃ q', drop_unread fuel (Some n) w = Ok ((), wq n q' w).
Proof.
  revert w q. induction fuel as [|fuel IH]; intros w q Hn Hq Hf; [destruct Hq; lia|]. cbn [drop_unread]. run1.
  destruct (decide (q_r q < q_w q)%nat) as [Hlt|Hge].
  - destruct (qwf_item q Hq Hlt) as [m Hm]. rewrite (up_read_item q m) by done. cbn [fst snd].
    destruct (IH (wq n (q_adv q) w) (q_adv q)) as (q' & Hrun); [cbn; by rewrite lookup_insert_eq|by apply qwf_adv|cbn; lia|].
    exists q'. by rewrite Hrun, wq_wq.
  - rewrite up_read_none by done. eauto.
Qed.

Lemma process_hiccup_sim s w p l n :
  pinv w → ends w s = Some p → cmds w s = hiccup_cmd n :: l →
  ∃ w', process_hiccup s n (wt s l w) = Ok ((), w') ∧ micros s w [e_hiccuped] w'.
Proof.
  intros Hw He Hc. unfold process_hiccup. erewrite bind_run by (apply get_end_run; exact He).
  destruct (outpipe p) as [o|] eqn:Ho.
  2:{ apply (pv_out _ Hw _ _ He) in Ho. assert (received p = true) as Hr by (by unfold received, acked_st in *; destruct (state p)).
      destruct (received_asked _ Hw _ _ He Hr) as [_ Hp]. by rewrite Hc in Hp. }
  destruct (out_pipe _ Hw _ _ _ He Ho) as (q & (_ & _ & Hn) & Hwf). erewrite bind_run by by apply zmq_assert_run.
  erewrite bind_run by (eapply on_upipe_run; exact Hn). set (q1 := (up_flush q).2). set (w1 := wq o q1 (wt s l w)).
  assert (qwf q1) as Hq1.
  { unfold q1. destruct (decide (q_w q = q_f q)); [by rewrite up_flush_none|rewrite up_flush_some by done; by apply qwf_flushed]. }
  assert (upipes w1 !! o = Some q1) as Hn1 by apply lookup_insert_eq. run1.
  destruct (drop_written_run s o (S (length (q_items q1))) w1 p q1) as (k & q2 & Hrun); [done..|lia|].
  erewrite bind_run by exact Hrun. erewrite bind_run by (eapply delete_upipe_run; cbn; apply lookup_insert_eq).
  erewrite bind_run by (eapply change_run; cbn; rewrite sel_upd; reflexivity). run1.
  match goal with |- context [if decide _ then notify s hiccuped else _] => set (p' := set_out_active true _) end.
  set (w2 := we s p' _). assert (w2 = we s p' (wd o (wt s l w))) as ->.
  { unfold w2, w1. change (wd o (we s ?x ?y)) with (we s x (wd o y)). by rewrite we_we, !wd_wq. }
  pose proof (mu_hiccuped s w p o l n k He Ho Hc) as Hmu. unfold wn_if in Hmu. change (state p') with (state p).
  destruct (decide (state p = active)) as [Ha|Ha].
  - rewrite bool_decide_true in Hmu by done. eexists. split; [done|]. by apply ms_one, mu_cmd.
  - rewrite bool_decide_false in Hmu by done. eexists. split; [done|]. by apply ms_one, mu_cmd.
Qed.

Lemma process_pipe_term_sim s w p l :
  pinv w → ends w s = Some p → cmds w s = pipe_term :: l →
  ∃ w', process_pipe_term s (wt s l w) = Ok ((), w') ∧ micros s w [] w'.
Proof.
  intros Hw He Hc. unfold process_pipe_term. erewrite bind_run by (apply get_end_run; exact He).
  pose proof (pv_cmds _ Hw _ _ He) as Ht. rewrite Hc in Ht. cbn in Ht.
  assert (received p = false) as Hr by by destruct (received p).
  assert (state p = active ∨ state p = delimiter_received ∨ state p = term_req_sent1) as Hst.
  { destruct (state p) eqn:E; try (unfold received in Hr; rewrite E in Hr; done); auto. }
  erewrite bind_run by (apply zmq_assert_run; by apply bool_decide_true).
  assert (∀ st, (state p = active ∧ delay p = false ∨ state p = delimiter_received) ∧ st = term_ack_sent
        ∨ state p = term_req_sent1 ∧ st = term_req_sent2 →
     ∃ w', (change s (set_state st);; change s (set_outpipe None);; send s pipe_term_ack) (wt s l w) = Ok ((), w') ∧ micros s w [] w') as Hack.
  { intros st Hs. erewrite bind_run by (eapply change_run; exact He). run1. eexists. split; [done|]. rewrite we_we.
    apply ms_one, mu_cmd. by apply (mu_pipe_term s w p l st). }
  destruct Hst as [E|[E|E]]; rewrite E; [|apply Hack; auto..].
  destruct (delay p) eqn:Hd; [|apply Hack; auto].
  eexists. split; [eapply change_run; exact He|]. apply ms_one, mu_cmd. by apply mu_pipe_term_wait.
Qed.

Lemma process_pipe_term_ack_sim s w p l :
  pinv w → ends w s = Some p → cmds w s = pipe_term_ack :: l →
  ∃ w', process_pipe_term_ack s (wt s l w) = Ok ((), w') ∧ micros s w [] w'.
Proof.
  intros Hw He Hc. destruct (acked_last w s p l Hw He Hc) as (_ & _ & Hst).
  destruct (in_pipe _ Hw _ _ He) as (n & q & (_ & Hi & Hn) & Hwf).
  unfold process_pipe_term_ack. run1. set (w0 := wn s pipe_terminated (wt s l w)).
  erewrite bind_run by (apply get_end_run; exact He). set (b := bool_decide (state p = term_req_sent1)).
  set (p' := if b then set_outpipe None p else p).
  erewrite (bind_run _ _ w0 () (wc_if b s pipe_term_ack (we s p' w0))).
  2:{ unfold p', b. case_decide as E; [rewrite bool_decide_true by done|rewrite (bool_decide_false (state p = term_req_sent1)) by done]; cbn.
      - by erewrite bind_run by (eapply change_run; exact He).
      - rewrite we_id by done. apply zmq_assert_run, bool_decide_true. destruct Hst as [[? _]|[Ha _]]; [done|].
        unfold acked_st in Ha. destruct (state p); auto; done. }
  set (w1 := wc_if _ _ _ _). assert (upipes w1 !! n = Some q) as Hn1 by (unfold w1, wc_if; by destruct b).
  rewrite Hi. run1. destruct (drop_unread_run n (S (length (q_items q))) w1 q) as (q' & Hrun); [done..|lia|].
  erewrite bind_run by exact Hrun. erewrite bind_run by (eapply delete_upipe_run; cbn; apply lookup_insert_eq).
  eexists. split; [done|]. apply ms_one, mu_cmd. pose proof (mu_pipe_term_ack s w p n l He Hi Hc) as Hmu.
  fold b w0 in Hmu. change (set_ends (upd s None)) with (wk s). rewrite wd_wq.
  assert (wk s (wd n w1) = wk s (wd n (wc_if b s pipe_term_ack w0))) as ->; [|done].
  unfold w1, wc_if, wk, wd, wc, we, set_ends, set_upipes, set_cmds. by destruct b; cbn; rewrite upd_upd.
Qed.

Lemma command_sim s w p c l :
  pinv w → ends w s = Some p → cmds w s = c :: l →
  ∃ w' es, process_command s c (wt s l w) = Ok ((), w') ∧ micros s w es w' ∧ (es = [] ∨ es = [e_hiccuped] ∧ ∃ n, c = hiccup_cmd n).
Proof.
  intros Hw He Hc. destruct c as [|k|n| |]; cbn [process_command].
  - unfold process_activate_read. erewrite bind_run by (apply get_end_run; exact He).
    pose proof (mu_activate_read s w p l He Hc) as Hmu. cbv zeta in Hmu. set (b := negb _ && _) in *. unfold wn_if in Hmu. destruct b; cbn [orb] in Hmu.
    + erewrite bind_run by (eapply change_run; exact He). eexists _, []. split_and!; [done|by apply ms_one, mu_cmd|auto].
    + assert (set_in_active (in_active p) p = p) as E by by destruct p. rewrite E, we_id in Hmu by done.
      eexists _, []. split_and!; [done|by apply ms_one, mu_cmd|auto].
  - unfold process_activate_write. erewrite bind_run by (eapply change_run; exact He). run1.
    pose proof (mu_activate_write s w p l k He Hc) as Hmu. cbv zeta in Hmu. cbn [out_active state set_peers_msgs_read].
    set (b := negb _ && _) in *. unfold wn_if in Hmu. destruct b; cbn [orb] in Hmu.
    + run1. rewrite we_we. eexists _, []. split_and!; [done|by apply ms_one, mu_cmd|auto].
    + assert (set_out_active (out_active p) (set_peers_msgs_read k p) = set_peers_msgs_read k p) as E by by destruct p.
      rewrite E in Hmu. eexists _, []. split_and!; [done|by apply ms_one, mu_cmd|auto].
  - destruct (process_hiccup_sim s w p l n Hw He Hc) as (w' & ? & ?). exists w', [e_hiccuped]. split_and!; [done|done|right; by eauto].
  - destruct (process_pipe_term_sim s w p l Hw He Hc) as (w' & ? & ?). exists w', []. auto.
  - destruct (process_pipe_term_ack_sim s w p l Hw He Hc) as (w' & ? & ?). exists w', []. auto.
Qed.

(** What the answer of an operation says about its moves. *)
Definition obs (s : side) (o : pop) (r : pres) (w' : pair) (es : list pev) : Prop :=
  match o with
  | op_read => ∃ m, r = res_msg m ∧ es = e_read <$> option_list m
  | op_write m => ∃ b, r = res_bool b ∧ es = if b : bool then [e_write m] else []
  | op_rollback => settled w' s ∧ ∃ k, es = replicate k e_unwrite
  | op_terminate d => term_events d w' s es
  | op_hiccup => es = [] ∨ es = [e_hiccup]
  | op_set_nodelay => es = [e_delay false]
  | op_set_hwms _ _ | op_set_boosts _ _ => es = [e_marks]
  | op_command => es = [] ∨ es = [e_hiccuped]
  | _ => es = []
  end.

Lemma pop_sim s w p o :
  pinv w → ends w s = Some p → ∃ r w' es, run_pop s o w = Ok (r, w') ∧ micros s w es w' ∧ obs s o r w' es.
Proof.
  intros Hw He. destruct o; cbn [run_pop obs].
  - destruct (check_read_sim s w p Hw He) as (b & w' & Hr & Hm). erewrite bind_run by exact Hr. by eexists _, _, _.
  - destruct (read_sim s w p Hw He) as (m & w' & Hr & Hm). erewrite bind_run by exact Hr. eexists _, _, _. eauto.
  - destruct (check_write_sim s w p Hw He) as (b & w' & _ & Hr & Hm & _). erewrite bind_run by exact Hr. by eexists _, _, _.
  - destruct (write_sim s w p m Hw He) as (b & w' & Hr & Hm). erewrite bind_run by exact Hr. eexists _, _, _. eauto.
  - destruct (rollback_sim s w p Hw He) as (w' & k & Hr & Hm & He' & Hs). erewrite bind_run by exact Hr. eexists _, _, _. split; [done|].
    split; [done|]. split; [|by eauto]. intros p' n q Hd. pose proof Hd as (E1 & E2 & E3). rewrite He' in E1. injection E1 as <-.
    destruct (Hs n E2) as (q' & (_ & _ & E4) & ?). congruence.
  - destruct (flush_sim s w p Hw He) as (w' & Hr & Hm & _). erewrite bind_run by exact Hr. by eexists _, _, _.
  - destruct (hiccup_sim s w p Hw He) as (w' & es & Hr & Hm & Hes). erewrite bind_run by exact Hr. by eexists _, _, _.
  - unfold set_nodelay. erewrite bind_run by (eapply change_run; exact He). eexists _, _, _. split; [done|]. split; [|done].
    apply ms_one, mu_own. by eapply mu_delay.
  - destruct (terminate_sim s w p delay_ Hw He) as (w' & es & Hr & Hm & Hes). erewrite bind_run by exact Hr. by eexists _, _, _.
  - erewrite bind_run by (eapply change_run; exact He). eexists _, _, _. split; [done|]. split; [|done]. apply ms_one, mu_own.
    unfold set_hwms. assert (∀ h l, set_marks h l p = set_marks h l (set_boosts (inhwmboost p) (outhwmboost p) p)) as -> by by destruct p.
    by apply mu_marks.
  - erewrite bind_run by (eapply change_run; exact He). eexists _, _, _. split; [done|]. split; [|done]. apply ms_one, mu_own.
    assert (set_boosts i o p = set_marks (hwm p) (lwm p) (set_boosts i o p)) as -> by by destruct p. by apply mu_marks.
  - destruct (cmds w s) as [|c l] eqn:Hc.
    + erewrite (bind_run _ _ w None w); [|unfold take_command; rewrite (bind_run _ _ _ w w) by done; by rewrite Hc].
      eexists _, _, []. split; [done|]. split; [constructor|by left].
    + erewrite (bind_run _ _ w (Some c) (wt s l w)); [|unfold take_command; rewrite (bind_run _ _ _ w w) by done; by rewrite Hc].
      destruct (command_sim s w p c l Hw He Hc) as (w' & es & Hr & Hm & Hes). erewrite bind_run by exact Hr.
      eexists _, _, _. split; [done|]. split; [done|]. destruct Hes as [?|[? _]]; auto.
Qed.

(** ** Runs *)

Lemma run_pops_cons s o l w r w1 :
  step_pop s o w = Ok (r, w1) → run_pops ((s, o) :: l) w = (rs ← run_pops l; mret ((s, o, r) :: rs)) w1.
Proof. intros H. cbn [run_pops]. by erewrite bind_run by exact H. Qed.

(** What holds at the start and is kept by every operation holds after any run; a run
    never ends in an error. *)
Lemma run_pops_inv (ok : side * pop → Prop) (J : pair → list (side * pop * pres) → Prop) ops w rs :
  (∀ w rs s o, pinv w → J w rs → ok (s, o) → ends w s = None → J w (rs ++ [(s, o, no_res)])) →
  (∀ w rs s o p r w' es, pinv w → J w rs → ok (s, o) → ends w s = Some p →
     micros s w es w' → obs s o r w' es → pinv w' → J w' (rs ++ [(s, o, r)])) →
  pinv w → J w rs → Forall ok ops →
  ∃ rs' w', run_pops ops w = Ok (rs', w') ∧ pinv w' ∧ J w' (rs ++ rs').
Proof.
  intros Hdead Hlive. revert w rs. induction ops as [|[s o] ops IH]; intros w rs Hw HJ Hok.
  { exists [], w. rewrite app_nil_r. done. }
  apply Forall_cons_iff in Hok as [Ho Hok].
  assert (∃ r w1, step_pop s o w = Ok (r, w1) ∧ pinv w1 ∧ J w1 (rs ++ [(s, o, r)])) as (r & w1 & Hrun & Hw1 & HJ1).
  { unfold step_pop. rewrite (bind_run _ _ _ w w) by done. destruct (ends w s) as [p|] eqn:He.
    - destruct (pop_sim s w p o Hw He) as (r & w1 & es & Hrun & Hms & Hobs). exists r, w1.
      pose proof (micros_inv _ _ _ _ Hms Hw). eauto 10.
    - exists no_res, w. eauto. }
  destruct (IH w1 (rs ++ [(s, o, r)]) Hw1 HJ1 Hok) as (rs' & w' & Hrun' & Hw' & HJ').
  exists ((s, o, r) :: rs'), w'. erewrite run_pops_cons by exact Hrun. erewrite bind_run by exact Hrun'.
  split; [done|]. split; [done|]. by rewrite <- (assoc_L (++)) in HJ'.
Qed.

(** C7: Whatever the owners of the two ends do and however their operations and
    the delivery of commands are interleaved, no assertion of pipe.cpp fails and
    nothing is used after it was deleted: no command is on its way to an end that is
    gone, an end tells its sink once that it is terminated and nothing after that, the
    ypipe an end reads exists as long as the end does, and when both ends are gone
    there is no ypipe left. *)
Theorem pipes_part_in_order hwm0 hwm1 ops :
  ∃ rs w, run_pops ops (pipepair hwm0 hwm1) = Ok (rs, w) ∧
    (∀ s, ends w s = None → cmds w s = []) ∧
    (∀ s, told s w) ∧
    (∀ s p, ends w s = Some p → ∃ n q, inpipe p = Some n ∧ upipes w !! n = Some q) ∧
    (ends w left_end = None → ends w right_end = None → upipes w = ∅).
Proof.
  destruct (run_pops_inv (λ _, True) (λ _ _, True) ops (pipepair hwm0 hwm1) []) as (rs & w & Hrun & Hw & _);
    [done|done|apply pinv_start|done|by apply Forall_true|].
  exists rs, w. split; [done|]. split; [|split; [|split]].
  - intros s He. by apply (pv_dead _ Hw s).
  - apply Hw.
  - intros s p He. destruct (in_pipe _ Hw s p He) as (n & q & (_ & ? & ?) & _). by eauto.
  - intros Hl Hr. apply map_eq. intros n. rewrite lookup_empty. destruct (upipes w !! n) as [q|] eqn:Hn; [|done].
    destruct (proj1 (ow_dom _ (pv_own _ Hw) n)) as [s Hs]; [by eauto|].
    unfold chain in Hs. destruct s; rewrite ?Hl, ?Hr in Hs; cbn in Hs; by apply not_elem_of_nil in Hs.
Qed.
