(* ===== verification/ZmqPipeFlow.v ===== *)
(** * What flows through a pipe (libzmq/src, pipe.cpp)

    One direction of a pipe: invariants of the moves of its two ends.  What the reader
    has read and what is in the ypipe is what the writer wrote, in order and without
    gaps; a reader that sleeps on messages is about to be woken; an end that waits is
    not terminated before it has read everything. *)

From stdpp Require Import base tactics list numbers gmap strings.
From S2P Require Import Prelude ZmqWire ZmqYpipe ZmqYpipeSpec ZmqPipe ZmqPipeSpec.

Local Open Scope Z_scope.

(** ** Which ypipe is whose *)

Section whose.
Context (w : pair) (Hw : pinv w).

Lemma src_chain s p n q : src w s p n q → n ∈ chain w s.
Proof.
  intros (He & Hi & _). destruct (ow_in _ (pv_own _ Hw) _ _ He) as (n' & Hi' & Hl).
  assert (n' = n) as -> by congruence. by apply last_Some_elem_of.
Qed.

Lemma dst_chain s p n q : dst w s p n q → n ∈ chain w (peer s).
Proof. intros (He & Ho & _). rewrite (out_chain _ Hw _ _ _ He Ho). by left. Qed.

Lemma src_src_ne s p n q p' n' q' : src w s p n q → src w (peer s) p' n' q' → n' ≠ n.
Proof. intros H1%src_chain H2%src_chain <-. by eapply (ow_disj _ (pv_own _ Hw) s). Qed.

Lemma src_dst_ne s p n q p' n' q' : src w s p n q → dst w s p' n' q' → n' ≠ n.
Proof. intros H1%src_chain H2%dst_chain <-. by eapply (ow_disj _ (pv_own _ Hw) s). Qed.

(** Without a new ypipe under way the writer writes what the reader reads. *)
Lemma dst_src s p n q p' n' q' :
  src w s p n q → dst w (peer s) p' n' q' → payloads (cmds w (peer s)) = [] → n' = n ∧ q' = q.
Proof.
  intros (He & Hi & Hn) (He' & Ho' & Hn') Hp.
  destruct (ow_in _ (pv_own _ Hw) _ _ He) as (n0 & Hi0 & Hl).
  pose proof (out_chain _ Hw _ _ _ He' Ho') as Hc. rewrite peer_peer, Hp in Hc. rewrite Hc in Hl. cbn in Hl.
  assert (n' = n) as -> by congruence. split; [done|congruence].
Qed.
End whose.

(** ** The messages of one direction *)

(** What is left of a list of messages without an incomplete one at its end. *)
Fixpoint complete (l : list pmsg) : list pmsg :=
  match l with
  | [] => []
  | m :: l => match complete l with [] => if pm_more m then [] else [m] | c => m :: c end
  end.

Lemma complete_snoc l m : complete (l ++ [m]) = if pm_more m then complete l else l ++ [m].
Proof.
  induction l as [|x l IH]; cbn; [done|]. rewrite IH. destruct (pm_more m); [done|]. by destruct l.
Qed.
Lemma complete_prefix l : complete l `prefix_of` l.
Proof.
  induction l as [|m l [k IH]]; cbn; [done|]. destruct (complete l) as [|c cs] eqn:E.
  - destruct (pm_more m); [apply prefix_nil|]. by exists l.
  - exists k. cbn. by rewrite IH.
Qed.
Lemma complete_complete l : complete (complete l) = complete l.
Proof.
  induction l as [|m l IH]; cbn; [done|]. destruct (complete l) as [|c cs] eqn:E.
  - by destruct (pm_more m) eqn:Hm; cbn; rewrite ?Hm.
  - cbn [complete] in *. by rewrite IH.
Qed.
Lemma complete_length l : (length (complete l) ≤ length l)%nat.
Proof. apply prefix_length, complete_prefix. Qed.
Lemma complete_take l : complete l = take (length (complete l)) l.
Proof. destruct (complete_prefix l) as [k Hk]. rewrite Hk at 3. by rewrite take_app_length. Qed.

(** What is read is complete. *)
Lemma take_complete q acc : qwf q → q_f q = length (complete acc) → take (q_r q) acc `prefix_of` complete acc.
Proof.
  intros [] Hf. rewrite complete_take, <- Hf. replace (q_r q) with (q_r q `min` q_f q)%nat by lia. rewrite <- take_take.
  apply prefix_take.
Qed.

(** A message that can be taken back is not complete. *)
Lemma complete_unput l : length (complete l) ≠ length l → complete (take (pred (length l)) l) = complete l.
Proof.
  destruct l as [|m l _] using rev_ind; [done|]. rewrite complete_snoc, length_app. cbn. rewrite Nat.add_1_r. cbn.
  rewrite take_app_length. destruct (pm_more m); [done|]. rewrite length_app. cbn. lia.
Qed.

(** Messages, neither credentials nor delimiters. *)
Definition good (m : pmsg) : bool := negb (pm_credential m) && negb (pm_delimiter m).
Definition goods (l : list pmsg) : list pmsg := filter (λ m, good m = true) l.
Definition no_delim (m : pmsg) : Prop := pm_delimiter m = false.
Definition is_delim (m : pmsg) : Prop := m = the_delimiter.

Lemma goods_app l l' : goods (l ++ l') = goods l ++ goods l'.
Proof. apply filter_app. Qed.
Lemma goods_delims l : Forall is_delim l → goods l = [].
Proof. induction 1 as [|m l -> _ IH]; [done|]. unfold goods in *. by rewrite filter_cons_False. Qed.
Lemma goods_prefix l l' : l `prefix_of` l' → goods l `prefix_of` goods l'.
Proof. intros [k ->]. rewrite goods_app. by exists (goods k). Qed.

(** The messages a sequence of moves puts in, and the ones it takes out. *)
Definition put1 (acc : list pmsg) (e : pev) : list pmsg :=
  match e with
  | e_write m => acc ++ [m]
  | e_unwrite => take (pred (length acc)) acc
  | e_delim => acc ++ [the_delimiter]
  | _ => acc
  end.
Definition puts (acc : list pmsg) (es : list pev) : list pmsg := foldl put1 acc es.
Definition takes (es : list pev) : list pmsg := omap (λ e, match e with e_read m => Some m | _ => None end) es.

(** The reader [s] has the messages [rd]; [acc] is all that its peer wrote. *)
Record flow (w : pair) (s : side) (acc rd : list pmsg) : Prop := {
  fl_hic : payloads (cmds w (peer s)) = [];
  fl_shape : ∃ u d, acc = u ++ d ∧ Forall no_delim u ∧ Forall is_delim d ∧
    (∀ pw, ends w (peer s) = Some pw → open_st pw → d = []);
  fl_src p n q : src w s p n q →
    q_items q = acc ∧ q_f q = length (complete acc) ∧ rd = goods (take (q_r q) acc) ∧
    (in_reading p → Forall no_delim (take (q_r q) acc)) ∧
    (state p = delimiter_received → ¬ Forall no_delim (take (q_r q) acc));
  fl_dead : ends w s = None → rd `prefix_of` goods (complete acc)
}.

(** A move of the reader that takes nothing out. *)
Lemma flow_same_own w w' s p p' n q acc rd :
  flow w s acc rd → src w s p n q → ends w' = upd s (Some p') (ends w) → inpipe p' = inpipe p →
  upipes w' !! n = Some q → payloads (cmds w' (peer s)) = payloads (cmds w (peer s)) → (in_reading p' → in_reading p) →
  (state p' = delimiter_received → state p = delimiter_received) → flow w' s acc rd.
Proof.
  intros [Hh Hs Hq Hd] Hsrc Ew Hi Hn Hp Hr Hdr. split.
  - by rewrite Hp.
  - by rewrite Ew, sel_upd_peer.
  - intros p0 n0 q0 (E1 & E2 & E3). rewrite Ew, sel_upd in E1. injection E1 as <-. pose proof Hsrc as (_ & E & _).
    assert (n0 = n) as -> by congruence. assert (q0 = q) as -> by congruence. destruct (Hq _ _ _ Hsrc) as (? & ? & ? & ? & ?). split_and!; auto.
  - by rewrite Ew, sel_upd.
Qed.

(** A move of the reader on its queue. *)
Lemma flow_in_own w w' s p p' n q q' acc rd rd' :
  flow w s acc rd → src w s p n q → ends w' = upd s (Some p') (ends w) → inpipe p' = inpipe p →
  upipes w' !! n = Some q' → q_items q' = q_items q → q_f q' = q_f q →
  payloads (cmds w' (peer s)) = payloads (cmds w (peer s)) →
  rd' = goods (take (q_r q') acc) → (in_reading p' → Forall no_delim (take (q_r q') acc)) →
  (state p' = delimiter_received → ¬ Forall no_delim (take (q_r q') acc)) →
  flow w' s acc rd'.
Proof.
  intros [Hh Hs Hq Hd] Hsrc Ew Hi Hn Ei Ef Hp Hrd Hr Hdr. split.
  - by rewrite Hp.
  - by rewrite Ew, sel_upd_peer.
  - intros p0 n0 q0 (E1 & E2 & E3). rewrite Ew, sel_upd in E1. injection E1 as <-. pose proof Hsrc as (_ & E & _).
    assert (n0 = n) as -> by congruence. assert (q0 = q') as -> by congruence. destruct (Hq _ _ _ Hsrc) as (? & ? & _ & _ & _).
    rewrite Ei, Ef. done.
  - by rewrite Ew, sel_upd.
Qed.

Lemma take_item q m acc : item q m → q_items q = acc → take (S (q_r q)) acc = take (q_r q) acc ++ [m].
Proof. intros [_ Hi] <-. by rewrite (take_S_r _ _ m). Qed.
Lemma goods_bad m : good m = false → goods [m] = [].
Proof. intros H. unfold goods. rewrite filter_cons_False; [done|congruence]. Qed.
Lemma goods_good m : good m = true → goods [m] = [m].
Proof. intros H. unfold goods. by rewrite filter_cons_True. Qed.

Lemma cmds_wc_if b s c w : cmds (wc_if b s c w) (peer s) = cmds w (peer s) ++ (if b then [c] else []).
Proof. unfold wc_if. destruct b; cbn; [by rewrite sel_upd|by rewrite app_nil_r]. Qed.

Lemma flow_item w s acc rd i m : flow w s acc rd → acc !! i = Some m → no_delim m ∨ m = the_delimiter.
Proof.
  intros Hf Hm. destruct (fl_shape _ _ _ _ Hf) as (u & d & -> & Hu & Hd & _). apply list_elem_of_lookup_2 in Hm.
  rewrite Forall_forall in Hu, Hd. apply elem_of_app in Hm as [Hm|Hm]; [left; by apply Hu|right; by apply Hd].
Qed.

Lemma flow_micro_in s w es w' acc rd :
  flow w s acc rd → micro_in s w es w' → flow w' s acc (rd ++ takes es).
Proof.
  intros Hf [p n q Hsrc Hr Hq|p n q m Hsrc Hr Hit Hcr|p n q m Hsrc Hr Hit Hcr Hd
    |p n q m Hsrc Hst Hit Hd|p n q m Hsrc Hst Hit Hd]; destruct (fl_src _ _ _ _ Hf _ _ _ Hsrc) as (Hi & Hqf & Hrd & Hnd & Hdr);
    cbn [takes omap list_omap]; rewrite ?app_nil_r.
  - eapply (flow_in_own _ _ _ p _ n q (q_sleep q)); try done; cbn; apply lookup_insert_eq.
  - assert (no_delim m) as Hm.
    { destruct (flow_item w s acc rd (q_r q) m Hf) as [?| ->]; [rewrite <- Hi; by apply Hit|done|done]. }
    eapply (flow_in_own _ _ _ p _ n q (q_adv q)); try done; [cbn; apply lookup_insert_eq|..]; cbn [q_r q_adv];
      rewrite (take_item q m) by done.
    + rewrite goods_app, goods_bad, app_nil_r; [done|]. unfold good. by rewrite Hcr.
    + intros _. apply Forall_app. split; [by apply Hnd|by constructor].
    + cbn. destruct Hr; congruence.
  - set (p' := read_one m p). assert (state p' = state p) as Est by (unfold p', read_one; by destruct (counted m)).
    eapply (flow_in_own _ _ _ p p' n q (q_adv q)); try done.
    + unfold wc_if. by destruct (fires p').
    + unfold p', read_one. by destruct (counted m).
    + unfold wc_if. destruct (fires p'); cbn; apply lookup_insert_eq.
    + rewrite cmds_wc_if, payloads_app. destruct (fires p'); cbn; by rewrite ?app_nil_r.
    + cbn [q_r q_adv]. rewrite (take_item q m) by done. rewrite goods_app, goods_good, Hrd; [done|].
      unfold good. by rewrite Hcr, Hd.
    + intros _. cbn [q_r q_adv]. rewrite (take_item q m) by done. apply Forall_app. split; [by apply Hnd|by constructor].
    + rewrite Est. destruct Hr; congruence.
  - eapply (flow_in_own _ _ _ p _ n q (q_adv q)); try done; [cbn; apply lookup_insert_eq|..]; cbn [q_r q_adv]; [|by intros [?|?]|];
      rewrite (take_item q m) by done.
    + rewrite goods_app, goods_bad, app_nil_r; [done|]. unfold good. by rewrite Hd, andb_false_r.
    + intros _ [_ H]%Forall_app. apply Forall_cons_iff in H as [H _]. unfold no_delim in H. congruence.
  - eapply (flow_in_own _ _ _ p _ n q (q_adv q)); try done; [cbn; apply lookup_insert_eq|..]; cbn [q_r q_adv]; [| |by intros [?|?]].
    + cbn. rewrite sel_upd, payloads_app. cbn. by rewrite app_nil_r.
    + rewrite (take_item q m) by done. rewrite goods_app, goods_bad, app_nil_r; [done|]. unfold good. by rewrite Hd, andb_false_r.
Qed.

Lemma flow_micro_out s w es w' acc rd : pinv w → flow w s acc rd → micro_out s w es w' → flow w' s acc rd.
Proof.
  intros Hw Hf H. assert (∃ p, ends w s = Some p) as [p He] by (destruct H; unfold dst in *; naive_solver).
  destruct (in_pipe _ Hw _ _ He) as (n & q & Hsrc & _).
  destruct H as [p0 He0 Hst Hh|p0 n0 q0 m Hd Hst Hoa Hh|p0 n0 q0 Hd Hq0|p0 n0 q0 Hd Hq0|p0 n0 q0 Hd Hst Hq0];
    try (pose proof (src_dst_ne _ Hw _ _ _ _ _ _ _ Hsrc Hd) as Hne; pose proof Hd as (He0 & _ & _));
    assert (p0 = p) as -> by congruence; pose proof Hsrc as (_ & _ & Hn).
  - by eapply flow_same_own.
  - eapply (flow_same_own w _ s p (wrote_one m p)); try done.
    + unfold wrote_one. by destruct (counted m).
    + cbn. by rewrite lookup_insert_ne.
    + unfold wrote_one. by destruct (counted m).
    + unfold wrote_one. by destruct (counted m).
  - rewrite <- (we_id s p (wq _ _ w)) by done. eapply (flow_same_own w _ s p p); try done. cbn. by rewrite lookup_insert_ne.
  - rewrite <- (we_id s p (wq _ _ w)) by done. eapply (flow_same_own w _ s p p); try done.
    + unfold wc_if. by destruct (q_asleep q0).
    + unfold wc_if. destruct (q_asleep q0); cbn; by rewrite lookup_insert_ne.
    + rewrite cmds_wc_if, payloads_app. destruct (q_asleep q0); cbn; by rewrite ?app_nil_r.
  - rewrite <- (we_id s p (wq _ _ w)) by done. eapply (flow_same_own w _ s p p); try done. cbn. by rewrite lookup_insert_ne.
Qed.

Lemma flow_micro_own s w es w' acc rd :
  pinv w → flow w s acc rd → micro_own s w es w' → e_hiccup ∉ es → flow w' s acc rd.
Proof.
  intros Hw Hf H Hes. assert (∃ p, ends w s = Some p) as [p He] by (destruct H; eauto).
  destruct (in_pipe _ Hw _ _ He) as (n & q & Hsrc & _). pose proof Hsrc as (_ & _ & Hn).
  destruct H as [p0 He0 Hst|p0 b He0|p0 h l i o He0|p0 He0 Hst|p0 He0 Hst Hd|p0 He0 Hst]; [by destruct Hes; left|..];
    assert (p0 = p) as -> by congruence.
  - by eapply flow_same_own.
  - by eapply flow_same_own.
  - eapply flow_same_own; try done; [|by intros [?|?]]. cbn. rewrite sel_upd, payloads_app. cbn. by rewrite app_nil_r.
  - eapply flow_same_own; try done; [|by intros [?|?]]. cbn. rewrite sel_upd, payloads_app. cbn. by rewrite app_nil_r.
  - by eapply flow_same_own.
Qed.

Lemma flow_micro_cmd s w es w' acc rd : pinv w → flow w s acc rd → micro_cmd s w es w' → flow w' s acc rd.
Proof.
  intros Hw Hf H. assert (∃ p, ends w s = Some p) as [p He] by (destruct H; eauto).
  destruct (in_pipe _ Hw _ _ He) as (n & q & Hsrc & Hwf). pose proof Hsrc as (_ & Hi & Hn).
  destruct H as [p0 l He0 Hc|p0 l k He0 Hc|p0 o l n0 k He0 Ho Hc|p0 l He0 Hc Hst Hd|p0 l st He0 Hc Hst|p0 n0 l He0 Hi0 Hc];
    assert (p0 = p) as -> by congruence.
  - cbv zeta. set (b := negb _ && _). eapply (flow_same_own w _ s p (set_in_active (b || in_active p) p)); try done;
      unfold wn_if; destruct b; cbn; by rewrite ?sel_upd_peer.
  - cbv zeta. set (b := negb _ && _). eapply (flow_same_own w _ s p (set_out_active (b || out_active p) (set_peers_msgs_read k p))); try done;
      unfold wn_if; destruct b; cbn; by rewrite ?sel_upd_peer.
  - destruct (out_pipe _ Hw _ _ _ He Ho) as (q0 & Hd & _). pose proof (src_dst_ne _ Hw _ _ _ _ _ _ _ Hsrc Hd) as Hne.
    eapply (flow_same_own w _ s p (set_out_active true (set_outpipe (Some n0) (set_msgs_written k p)))); try done;
      unfold wn_if; case_match; cbn; by rewrite ?sel_upd_peer, ?lookup_delete_ne.
  - eapply flow_same_own; try done; cbn; [by rewrite sel_upd_peer|by left].
  - eapply flow_same_own; try done; cbn.
    + rewrite sel_upd, payloads_app, sel_upd_peer. cbn. by rewrite app_nil_r.
    + intros [?|?]; cbn in *; naive_solver.
    + naive_solver.
  - destruct (acked_last w s p l Hw He Hc) as (-> & Ha & Hst). destruct Hf as [Hh Hs Hq Hd].
    destruct (Hq _ _ _ Hsrc) as (Hit & Hqf & Hrd & _ & _). split.
    + set (b := bool_decide _). unfold wc_if. destruct b; cbn; rewrite ?sel_upd, ?sel_upd_peer; [|done].
      rewrite payloads_app, Hh. done.
    + destruct Hs as (u & d & ? & ? & ? & Hsd). exists u, d. split_and!; try done. intros pw.
      unfold wc_if. case_match; cbn; rewrite sel_upd_peer; apply Hsd.
    + intros p1 n1 q1 (E & _). unfold wc_if in E. case_match; cbn in E; by rewrite sel_upd in E.
    + intros _. rewrite Hrd. by apply goods_prefix, (take_complete q).
Qed.

(** A move of the writer that leaves the queue alone. *)
Lemma flow_same_peer w w' s acc rd :
  pinv w → flow w s acc rd → ends w' s = ends w s → (∀ p n q, src w s p n q → upipes w' !! n = Some q) →
  payloads (cmds w' (peer s)) = [] →
  (∀ pw, ends w' (peer s) = Some pw → open_st pw → ∃ pw0, ends w (peer s) = Some pw0 ∧ open_st pw0) →
  flow w' s acc rd.
Proof.
  intros Hw [Hh Hs Hq Hd] He Hu Hp Hst. split; [done|..].
  - destruct Hs as (u & d & ? & ? & ? & Hsd). exists u, d. split_and!; try done. intros pw Hp1 Hp2.
    destruct (Hst pw Hp1 Hp2) as (? & ? & ?). eauto.
  - intros p n q (E1 & E2 & E3). rewrite He in E1. destruct (in_pipe _ Hw _ _ E1) as (n0 & q0 & Hsrc & _).
    pose proof Hsrc as (_ & E & _). assert (n0 = n) as -> by congruence. rewrite (Hu _ _ _ Hsrc) in E3.
    injection E3 as <-. by apply (Hq p n q0).
  - by rewrite He.
Qed.

(** A move of the writer on the queue. *)
Lemma flow_out_peer w s acc acc' rd pw n q q' :
  pinv w → flow w s acc rd → dst w (peer s) pw n q →
  q_items q' = acc' → q_f q' = length (complete acc') → q_r q' = q_r q → take (q_r q) acc' = take (q_r q) acc →
  (∃ u d, acc' = u ++ d ∧ Forall no_delim u ∧ Forall is_delim d ∧ (open_st pw → d = [])) →
  ∀ w' pw', ends w' = upd (peer s) (Some pw') (ends w) → state pw' = state pw → upipes w' = <[n:=q']> (upipes w) →
  cmds w' (peer s) = cmds w (peer s) → flow w' s acc' rd.
Proof.
  intros Hw [Hh Hs Hq Hd] Hdst Ei Ef Er Et Hsh w' pw' Ew Est Eu Ec. pose proof Hdst as (Hpw & Ho & Hn).
  destruct (peer_alive _ Hw _ _ Hpw) as [p He]; [by eapply out_not_acked|]. rewrite peer_peer in He.
  destruct (in_pipe _ Hw _ _ He) as (n0 & q0 & Hsrc & _). destruct (dst_src _ Hw _ _ _ _ _ _ _ Hsrc Hdst Hh) as [-> ->].
  assert (ends w' s = Some p) as He' by by rewrite Ew, sel_upd_peer'. destruct (Hq _ _ _ Hsrc) as (_ & _ & Hrd & Hnd & Hdr). split.
  - by rewrite Ec.
  - destruct Hsh as (u & d & ? & ? & ? & Hsd). exists u, d. split_and!; try done. intros x. rewrite Ew, sel_upd. intros [= <-].
    unfold open_st. rewrite Est. done.
  - intros p1 n1 q1 (E1 & E2 & E3). rewrite He' in E1. injection E1 as <-. pose proof Hsrc as (_ & E & _).
    assert (n1 = n0) as -> by congruence. rewrite Eu, lookup_insert_eq in E3. injection E3 as <-. rewrite Er, Et. done.
  - by rewrite He'.
Qed.

Lemma flow_peer_in s w es w' acc rd :
  pinv w → flow w s acc rd → micro_in (peer s) w es w' → flow w' s acc rd ∧ puts acc es = acc.
Proof.
  intros Hw Hf H. pose proof (fl_hic _ _ _ _ Hf) as Hh.
  destruct H as [p n q Hs Hr Hq|p n q m Hs Hr Hit Hcr|p n q m Hs Hr Hit Hcr Hd|p n q m Hs Hst Hit Hd|p n q m Hs Hst Hit Hd];
    (split; [|done]); pose proof Hs as (He & Hi & Hn);
    assert (∀ p0 n0 q0 q', src w s p0 n0 q0 → <[n:=q']> (upipes w) !! n0 = Some q0) as Hne by
      (intros p0 n0 q0 q' Hs0; rewrite lookup_insert_ne by (by eapply src_src_ne); apply Hs0).
  - eapply flow_same_peer; try done; cbn; [by rewrite sel_upd_peer'|by eauto|]. rewrite sel_upd. intros pw [= <-]. eauto.
  - eapply flow_same_peer; try done; cbn; [by rewrite sel_upd_peer'|by eauto|]. rewrite sel_upd. intros pw [= <-]. eauto.
  - set (p' := read_one m p). unfold wc_if. assert (state p' = state p) as Est by (unfold p', read_one; by destruct (counted m)).
    destruct (fires p'); eapply flow_same_peer; try done; cbn; rewrite ?sel_upd_peer', ?peer_peer; try done;
      try by eauto; rewrite ?sel_upd, ?sel_upd_peer; try done; intros pw [= <-]; unfold open_st; rewrite Est; eauto.
  - eapply flow_same_peer; try done; cbn; [by rewrite sel_upd_peer'|by eauto|]. rewrite sel_upd. intros pw [= <-] _. exists p. by split; [|left].
  - eapply flow_same_peer; try done; cbn; [by rewrite sel_upd_peer'|by eauto|by rewrite peer_peer, sel_upd_peer|].
    rewrite sel_upd. by intros pw [= <-] [?|?].
Qed.

Lemma flow_peer_out s w es w' acc rd :
  pinv w → flow w s acc rd → micro_out (peer s) w es w' → (∀ m, e_write m ∈ es → no_delim m) → flow w' s (puts acc es) rd.
Proof.
  intros Hw Hf H Hes. pose proof (fl_hic _ _ _ _ Hf) as Hh.
  assert (∀ p n q, dst w (peer s) p n q → ∃ p0, src w s p0 n q ∧ qwf q) as Hsd.
  { intros p n q Hd. pose proof Hd as (Hp & Ho & _). destruct (peer_alive _ Hw _ _ Hp) as [p0 He]; [by eapply out_not_acked|].
    rewrite peer_peer in He. destruct (in_pipe _ Hw _ _ He) as (n0 & q0 & Hs & Hwf).
    destruct (dst_src _ Hw _ _ _ _ _ _ _ Hs Hd Hh) as [-> ->]. eauto. }
  destruct (fl_shape _ _ _ _ Hf) as (u & d & Eu & Hu & Hdd & Hact).
  destruct H as [p He Hst Hhwm|p n q m Hd Hst Hoa Hhwm|p n q Hd Hq|p n q Hd Hq|p n q Hd Hst Hq]; cbn [puts foldl put1];
    try (destruct (Hsd _ _ _ Hd) as (p0 & Hs & Hwf); destruct (fl_src _ _ _ _ Hf _ _ _ Hs) as (Hi & Hqf & _ & _ & _));
    try pose proof Hd as (He & _ & _).
  - eapply flow_same_peer; try done; cbn; [by rewrite sel_upd_peer'|intros ??? Hs; apply Hs|]. rewrite sel_upd. intros pw [= <-]. eauto.
  - eapply (flow_out_peer w s acc _ rd p n q (q_put m (pm_more m) q)); try done; cbn.
    + by rewrite Hi.
    + rewrite complete_snoc, Hi. destruct (pm_more m); [done|]. rewrite length_app. cbn. lia.
    + apply take_app_le. destruct Hwf. rewrite <- Hi. lia.
    + exists (u ++ [m]), []. rewrite app_nil_r. rewrite (Hact p He (or_introl Hst)), app_nil_r in Eu. subst u. split_and!; try done.
      apply Forall_app. split; [done|]. constructor; [|done]. apply Hes. by left.
    + unfold wrote_one. by destruct (counted m).
  - assert (complete acc ≠ acc) as Hne by (intros E; rewrite E, <- Hi in Hqf; congruence).
    eapply (flow_out_peer w s acc _ rd p n q (q_unput q)); try done; cbn.
    + by rewrite Hi.
    + rewrite complete_unput; [done|]. by rewrite <- Hqf, <- Hi.
    + rewrite take_take. f_equal. destruct Hwf. rewrite <- Hi. lia.
    + destruct d as [|x d _] using rev_ind.
      * rewrite app_nil_r in Eu. exists (take (pred (length acc)) acc), []. rewrite app_nil_r, Eu. split_and!; try done. by apply Forall_take.
      * exfalso. apply Forall_app in Hdd as [_ Hx]. apply Forall_cons_iff in Hx as [Hx _]. apply Hne.
        rewrite Eu, (assoc_L (++)), complete_snoc, Hx. done.
    + by rewrite <- He, upd_sel.
  - eapply (flow_out_peer w s acc _ rd p n q (q_flushed q)) with (pw' := p); try done; cbn.
    + by eauto 10.
    + unfold wc_if. rewrite <- He, upd_sel. by destruct (q_asleep q).
    + unfold wc_if. by destruct (q_asleep q).
    + unfold wc_if. destruct (q_asleep q); [|done]. cbn. by rewrite peer_peer, sel_upd_peer.
  - eapply (flow_out_peer w s acc _ rd p n q (q_put the_delimiter false q)) with (pw' := p); try done; cbn.
    + by rewrite Hi.
    + rewrite complete_snoc, Hi. cbn. rewrite length_app. cbn. lia.
    + apply take_app_le. destruct Hwf. rewrite <- Hi. lia.
    + exists u, (d ++ [the_delimiter]). rewrite Eu, (assoc_L (++)). split_and!; try done.
      * apply Forall_app. split; [done|by constructor].
      * intros [?|?]; destruct Hst; congruence.
    + by rewrite <- He, upd_sel.
Qed.

Lemma flow_peer_own s w es w' acc rd :
  pinv w → flow w s acc rd → micro_own (peer s) w es w' → flow w' s acc rd ∧ puts acc es = acc.
Proof.
  intros Hw Hf H. pose proof (fl_hic _ _ _ _ Hf) as Hh.
  destruct H as [p He Hst|p b He|p h l i o He|p He Hst|p He Hst Hd|p He Hst]; (split; [|done]).
  - eapply flow_same_peer; try done; cbn; rewrite ?sel_upd_peer', ?peer_peer, ?sel_upd, ?sel_upd_peer; try done.
    + intros p0 n0 q0 (He0 & Hi0 & Hn0). rewrite lookup_insert_ne; [done|].
      assert (n0 < upipe_next w)%N by (apply (ow_next _ (pv_own _ Hw)); by eauto). lia.
    + intros pw [= <-]. eauto.
  - eapply flow_same_peer; try done; cbn; [by rewrite sel_upd_peer'|intros ??? Hs; apply Hs|]. rewrite sel_upd. intros pw [= <-]. eauto.
  - eapply flow_same_peer; try done; cbn; [by rewrite sel_upd_peer'|intros ??? Hs; apply Hs|]. rewrite sel_upd. intros pw [= <-]. eauto.
  - eapply flow_same_peer; try done; cbn; [by rewrite sel_upd_peer'|intros ??? Hs; apply Hs|by rewrite peer_peer, sel_upd_peer|].
    rewrite sel_upd. by intros pw [= <-] [?|?].
  - eapply flow_same_peer; try done; cbn; [by rewrite sel_upd_peer'|intros ??? Hs; apply Hs|by rewrite peer_peer, sel_upd_peer|].
    rewrite sel_upd. by intros pw [= <-] [?|?].
  - eapply flow_same_peer; try done; cbn; [by rewrite sel_upd_peer'|intros ??? Hs; apply Hs|]. rewrite sel_upd. intros pw [= <-]. eauto.
Qed.

Lemma flow_peer_cmd s w es w' acc rd :
  pinv w → flow w s acc rd → micro_cmd (peer s) w es w' → flow w' s acc rd ∧ puts acc es = acc.
Proof.
  intros Hw Hf H. pose proof (fl_hic _ _ _ _ Hf) as Hh.
  destruct H as [p l He Hc|p l k He Hc|p o l n k He Ho Hc|p l He Hc Hst Hd|p l st He Hc Hst|p n l He Hi Hc]; (split; [|done]);
    rewrite Hc in Hh; try done.
  - cbv zeta. set (b := negb _ && _). unfold wn_if. destruct b; eapply flow_same_peer; try done; cbn;
      rewrite ?sel_upd_peer', ?sel_upd; try done; try (intros ??? Hs; apply Hs); intros pw [= <-]; eauto.
  - cbv zeta. set (b := negb _ && _). unfold wn_if. destruct b; eapply flow_same_peer; try done; cbn;
      rewrite ?sel_upd_peer', ?sel_upd; try done; try (intros ??? Hs; apply Hs); intros pw [= <-]; eauto.
  - eapply flow_same_peer; try done; cbn; rewrite ?sel_upd_peer', ?sel_upd; try done; [intros ??? Hs; apply Hs|]. by intros pw [= <-] [?|?].
  - eapply flow_same_peer; try done; cbn; rewrite ?sel_upd_peer', ?peer_peer, ?sel_upd_peer, ?sel_upd; try done; [intros ??? Hs; apply Hs|].
    intros pw [= <-] [E|E]; cbn in E; naive_solver.
  - destruct (in_pipe _ Hw _ _ He) as (n0 & q0 & Hs0 & _). pose proof Hs0 as (_ & Hi0 & _). assert (n0 = n) as -> by congruence.
    unfold wc_if. case_match; eapply flow_same_peer; try done; cbn; rewrite ?sel_upd_peer', ?peer_peer, ?sel_upd_peer, ?sel_upd; try done;
      intros p1 n1 q1 Hs1; rewrite lookup_delete_ne by (by eapply src_src_ne); apply Hs1.
Qed.

(** A step of either end. *)
Lemma flow_micro s w es w' acc rd :
  pinv w → flow w s acc rd → micro s w es w' → e_hiccup ∉ es → flow w' s acc (rd ++ takes es).
Proof.
  intros Hw Hf [? ? H|? ? H|? ? H|? ? H] Hes; [by eapply flow_micro_in|..].
  - assert (takes es0 = []) as -> by by destruct H. rewrite app_nil_r. by eapply flow_micro_out.
  - assert (takes es0 = []) as -> by by destruct H. rewrite app_nil_r. by eapply flow_micro_own.
  - assert (takes es0 = []) as -> by by destruct H. rewrite app_nil_r. by eapply flow_micro_cmd.
Qed.

Lemma flow_micro_peer s w es w' acc rd :
  pinv w → flow w s acc rd → micro (peer s) w es w' → (∀ m, e_write m ∈ es → no_delim m) → flow w' s (puts acc es) rd.
Proof.
  intros Hw Hf [? ? H|? ? H|? ? H|? ? H] Hes.
  - by destruct (flow_peer_in _ _ _ _ _ _ Hw Hf H) as [? ->].
  - by eapply flow_peer_out.
  - by destruct (flow_peer_own _ _ _ _ _ _ Hw Hf H) as [? ->].
  - by destruct (flow_peer_cmd _ _ _ _ _ _ Hw Hf H) as [? ->].
Qed.

Lemma flow_micros s w es w' acc rd :
  micros s w es w' → pinv w → flow w s acc rd → e_hiccup ∉ es → flow w' s acc (rd ++ takes es).
Proof.
  intros Hm. revert rd. induction Hm as [w|w es w1 es' w2 H1 _ IH]; intros rd Hw Hf Hes; [by rewrite app_nil_r|].
  rewrite not_elem_of_app in Hes. destruct Hes. unfold takes. rewrite omap_app, (assoc_L (++)).
  apply IH; [by eapply micro_inv|by eapply flow_micro|done].
Qed.

Lemma flow_micros_peer s w es w' acc rd :
  micros (peer s) w es w' → pinv w → flow w s acc rd → (∀ m, e_write m ∈ es → no_delim m) → flow w' s (puts acc es) rd.
Proof.
  intros Hm. revert acc. induction Hm as [w|w es w1 es' w2 H1 _ IH]; intros acc Hw Hf Hes; [done|].
  unfold puts. rewrite foldl_app. apply IH; [by eapply micro_inv| |intros m Hm; apply Hes; set_solver].
  eapply flow_micro_peer; try done. intros m Hm. apply Hes. set_solver.
Qed.

(** ** The reader is woken *)

(** A reader that went to sleep has read everything, or its wake-up is on the way. *)
Definition woken (w : pair) (s : side) : Prop := ∀ p n q,
  src w s p n q → in_reading p → in_active p = false → q_asleep q = true ∧ q_r q = q_w q ∨ activate_read ∈ cmds w s.

Lemma woken_same_own w w' s p p' n q :
  woken w s → src w s p n q → ends w' = upd s (Some p') (ends w) → inpipe p' = inpipe p → upipes w' !! n = Some q →
  (in_reading p' → in_reading p) → (in_active p' = false → in_active p = false) →
  (in_reading p' → in_active p' = false → activate_read ∈ cmds w s → activate_read ∈ cmds w' s) → woken w' s.
Proof.
  intros Hk Hsrc Ew Ei Hn Hr Ha Hc p0 n0 q0 (E1 & E2 & E3) Hr0 Ha0. rewrite Ew, sel_upd in E1. injection E1 as <-.
  pose proof Hsrc as (_ & E & _). assert (n0 = n) as -> by congruence. assert (q0 = q) as -> by congruence.
  destruct (Hk _ _ _ Hsrc) as [?|?]; auto.
Qed.

Lemma woken_micro_in s w es w' : pinv w → woken w s → micro_in s w es w' → woken w' s.
Proof.
  intros Hw Hk [p n q Hsrc Hr Hq|p n q m Hsrc Hr [Hlt _] Hcr|p n q m Hsrc Hr [Hlt _] Hcr Hd
    |p n q m Hsrc Hst Hit Hd|p n q m Hsrc Hst Hit Hd]; intros p0 n0 q0 (E1 & E2 & E3) Hr0 Ha0; pose proof Hsrc as (He & Hi & Hn).
  - cbn in E1, E3. rewrite sel_upd in E1. injection E1 as <-. cbn in E2. assert (n0 = n) as -> by congruence.
    rewrite lookup_insert_eq in E3. injection E3 as <-. left. cbn. split; [done|]. destruct (pv_q _ Hw _ _ Hn). lia.
  - cbn in E1. rewrite sel_upd in E1. injection E1 as <-. right. destruct (Hk _ _ _ Hsrc Hr Ha0) as [[_ ?]|?]; [lia|done].
  - set (p' := read_one m p) in *. assert (ends (wc_if (fires p') s (activate_write (msgs_read p')) (we s p' (wq n (q_adv q) w))) s = Some p') as E0
      by (unfold wc_if; destruct (fires p'); cbn; by rewrite sel_upd).
    rewrite E0 in E1. injection E1 as <-. right. assert (in_active p = false) as Ha by (unfold p', read_one in Ha0; by destruct (counted m)).
    destruct (Hk _ _ _ Hsrc Hr Ha) as [[_ ?]|?]; [lia|]. unfold wc_if. destruct (fires p'); cbn; [by rewrite sel_upd_peer'|done].
  - cbn in E1. rewrite sel_upd in E1. injection E1 as <-. by destruct Hr0.
  - cbn in E1. rewrite sel_upd in E1. injection E1 as <-. by destruct Hr0.
Qed.

Lemma woken_micro_out s w es w' : pinv w → woken w s → micro_out s w es w' → woken w' s.
Proof.
  intros Hw Hk H. assert (∃ p, ends w s = Some p) as [p He] by (destruct H; unfold dst in *; naive_solver).
  destruct (in_pipe _ Hw _ _ He) as (n & q & Hsrc & _).
  destruct H as [p0 He0 Hst Hh|p0 n0 q0 m Hd Hst Hoa Hh|p0 n0 q0 Hd Hq0|p0 n0 q0 Hd Hq0|p0 n0 q0 Hd Hst Hq0];
    try (pose proof (src_dst_ne _ Hw _ _ _ _ _ _ _ Hsrc Hd) as Hne; pose proof Hd as (He0 & _ & _));
    assert (p0 = p) as -> by congruence; pose proof Hsrc as (_ & _ & Hn).
  - by eapply woken_same_own.
  - eapply (woken_same_own w _ s p (wrote_one m p)); try done; [unfold wrote_one; by destruct (counted m)| |unfold wrote_one; by destruct (counted m)..].
    cbn. by rewrite lookup_insert_ne.
  - rewrite <- (we_id s p (wq _ _ w)) by done. eapply (woken_same_own w _ s p p); try done. cbn. by rewrite lookup_insert_ne.
  - rewrite <- (we_id s p (wq _ _ w)) by done. eapply (woken_same_own w _ s p p); try done; unfold wc_if; destruct (q_asleep q0); try done; cbn;
      rewrite ?lookup_insert_ne, ?sel_upd_peer'; done.
  - rewrite <- (we_id s p (wq _ _ w)) by done. eapply (woken_same_own w _ s p p); try done. cbn. by rewrite lookup_insert_ne.
Qed.

Lemma woken_micro_own s w es w' : pinv w → woken w s → micro_own s w es w' → woken w' s.
Proof.
  intros Hw Hk H. assert (∃ p, ends w s = Some p) as [p He] by (destruct H; eauto).
  destruct (in_pipe _ Hw _ _ He) as (n & q & Hsrc & _). pose proof Hsrc as (_ & _ & Hn).
  destruct H as [p0 He0 Hst|p0 b He0|p0 h l i o He0|p0 He0 Hst|p0 He0 Hst Hd|p0 He0 Hst]; assert (p0 = p) as -> by congruence.
  - intros p1 n1 q1 (E & _) _ Ha. cbn in E. rewrite sel_upd in E. by injection E as <-.
  - by eapply woken_same_own.
  - by eapply woken_same_own.
  - intros p1 n1 q1 (E & _) Hr _. cbn in E. rewrite sel_upd in E. injection E as <-. by destruct Hr.
  - intros p1 n1 q1 (E & _) Hr _. cbn in E. rewrite sel_upd in E. injection E as <-. by destruct Hr.
  - by eapply woken_same_own.
Qed.

Lemma woken_micro_cmd s w es w' : pinv w → woken w s → micro_cmd s w es w' → woken w' s.
Proof.
  intros Hw Hk H. assert (∃ p, ends w s = Some p) as [p He] by (destruct H; eauto).
  destruct (in_pipe _ Hw _ _ He) as (n & q & Hsrc & Hwf). pose proof Hsrc as (_ & Hi & Hn).
  destruct H as [p0 l He0 Hc|p0 l k He0 Hc|p0 o l n0 k He0 Ho Hc|p0 l He0 Hc Hst Hd|p0 l st He0 Hc Hst|p0 n0 l He0 Hi0 Hc];
    assert (p0 = p) as -> by congruence.
  - cbv zeta. set (b := negb _ && _). eapply (woken_same_own w _ s p (set_in_active (b || in_active p) p)); try done.
    + unfold wn_if. by destruct b.
    + unfold wn_if. by destruct b.
    + cbn. by intros [_ ?]%orb_false_iff.
    + cbn. intros Hr [Hb Ha]%orb_false_iff _. exfalso. unfold b in Hb. rewrite Ha in Hb. cbn in Hb.
      by apply bool_decide_eq_false in Hb.
  - cbv zeta. set (b := negb _ && _). eapply (woken_same_own w _ s p (set_out_active (b || out_active p) (set_peers_msgs_read k p))); try done.
    + unfold wn_if. by destruct b.
    + unfold wn_if. by destruct b.
    + intros _ _. rewrite Hc. intros [?|?]%elem_of_cons; [done|]. unfold wn_if. destruct b; cbn; by rewrite sel_upd.
  - destruct (out_pipe _ Hw _ _ _ He Ho) as (q0 & Hd & _). pose proof (src_dst_ne _ Hw _ _ _ _ _ _ _ Hsrc Hd) as Hne.
    eapply (woken_same_own w _ s p (set_out_active true (set_outpipe (Some n0) (set_msgs_written k p)))); try done.
    + unfold wn_if. by case_match.
    + unfold wn_if. case_match; cbn; by rewrite lookup_delete_ne.
    + intros _ _. rewrite Hc. intros [?|?]%elem_of_cons; [done|]. unfold wn_if. case_match; cbn; by rewrite sel_upd.
  - eapply woken_same_own; try done; [by left|]. intros _ _. rewrite Hc. intros [?|?]%elem_of_cons; [done|]. cbn. by rewrite sel_upd.
  - intros p1 n1 q1 (E & _) Hr _. cbn in E. rewrite sel_upd in E. injection E as <-. destruct Hr; cbn in *; naive_solver.
  - intros p1 n1 q1 (E & _). unfold wc_if in E. case_match; cbn in E; by rewrite sel_upd in E.
Qed.

Lemma woken_same_peer w w' s :
  pinv w → woken w s → ends w' s = ends w s →
  (∀ p n q, src w s p n q → ∃ q', upipes w' !! n = Some q' ∧ q_asleep q' = q_asleep q ∧ q_r q' = q_r q ∧ q_w q' = q_w q) →
  (activate_read ∈ cmds w s → activate_read ∈ cmds w' s) → woken w' s.
Proof.
  intros Hw Hk He Hu Hc p n q (E1 & E2 & E3) Hr Ha. rewrite He in E1. destruct (in_pipe _ Hw _ _ E1) as (n0 & q0 & Hsrc & _).
  pose proof Hsrc as (_ & E & _). assert (n0 = n) as -> by congruence.
  destruct (Hu _ _ _ Hsrc) as (q1 & E5 & E6 & E7 & E8).
  assert (q1 = q) as -> by congruence. rewrite E6, E7, E8. destruct (Hk _ _ _ Hsrc Hr Ha); auto.
Qed.

(** A call of the writer on some ypipe leaves what the reader knows of its own. *)
Lemma woken_put w s n q q' w' :
  pinv w → woken w s → upipes w !! n = Some q → ends w' s = ends w s → cmds w' s = cmds w s → upipes w' = <[n:=q']> (upipes w) →
  q_asleep q' = q_asleep q → q_r q' = q_r q → q_w q' = q_w q → woken w' s.
Proof.
  intros Hw Hk Hn He Hc Hu E1 E2 E3. eapply woken_same_peer; try done; [|by rewrite Hc].
  intros p0 n0 q0 (_ & _ & Hn0). rewrite Hu. destruct (decide (n0 = n)) as [->|Hne].
  - exists q'. rewrite lookup_insert_eq. assert (q0 = q) as -> by congruence. done.
  - exists q0. by rewrite lookup_insert_ne.
Qed.

Lemma woken_peer_in s w es w' : pinv w → woken w s → micro_in (peer s) w es w' → woken w' s.
Proof.
  intros Hw Hk H.
  assert (∀ p n q q' w1, src w (peer s) p n q → ends w1 s = ends w s → upipes w1 = <[n:=q']> (upipes w) →
    (activate_read ∈ cmds w s → activate_read ∈ cmds w1 s) → woken w1 s) as Hgen.
  { intros p n q q' w1 Hs He Hu Hc. eapply woken_same_peer; try done. intros p0 n0 q0 Hs0. exists q0. rewrite Hu.
    rewrite lookup_insert_ne by (by eapply src_src_ne). by destruct Hs0 as (_ & _ & ?). }
  destruct H as [p n q Hs Hr Hq|p n q m Hs Hr Hit Hcr|p n q m Hs Hr Hit Hcr Hd|p n q m Hs Hst Hit Hd|p n q m Hs Hst Hit Hd].
  - eapply Hgen; try done. cbn. by rewrite sel_upd_peer'.
  - eapply Hgen; try done. cbn. by rewrite sel_upd_peer'.
  - unfold wc_if. case_match; (eapply Hgen; try done; cbn; rewrite ?sel_upd_peer', ?peer_peer, ?sel_upd; try done). set_solver.
  - eapply Hgen; try done. cbn. by rewrite sel_upd_peer'.
  - eapply Hgen; try done; cbn; rewrite ?sel_upd_peer', ?peer_peer, ?sel_upd; [done|set_solver].
Qed.

Lemma woken_peer_out s w es w' : pinv w → woken w s → micro_out (peer s) w es w' → woken w' s.
Proof.
  intros Hw Hk H.
  destruct H as [p He Hst Hhwm|p n q m (He & Ho & Hn) Hst Hoa Hhwm|p n q (He & Ho & Hn) Hq|p n q (He & Ho & Hn) Hq|p n q (He & Ho & Hn) Hst Hq].
  - eapply woken_same_peer; try done; cbn; [by rewrite sel_upd_peer'|]. intros p0 n0 q0 (_ & _ & ?). by exists q0.
  - eapply (woken_put w s n q); try done. cbn. by rewrite sel_upd_peer'.
  - by eapply (woken_put w s n q).
  - intros p0 n0 q0 (E1 & E2 & E3) Hr Ha.
    assert (ends w s = Some p0) as He0 by (unfold wc_if in E1; by destruct (q_asleep q)).
    destruct (in_pipe _ Hw _ _ He0) as (n1 & q1 & Hsrc & _). pose proof Hsrc as (_ & Ei & Hn1). assert (n1 = n0) as -> by congruence.
    assert (<[n:=q_flushed q]> (upipes w) !! n0 = Some q0) as E4 by (unfold wc_if in E3; by destruct (q_asleep q)).
    assert (activate_read ∈ cmds w s → activate_read ∈ cmds (wc_if (q_asleep q) (peer s) activate_read (wq n (q_flushed q) w)) s) as Hin.
    { unfold wc_if. destruct (q_asleep q); [|done]. cbn. rewrite peer_peer, sel_upd. set_solver. }
    destruct (Hk _ _ _ Hsrc Hr Ha) as [[Has Hrw]|Hc]; [|by auto].
    destruct (decide (n0 = n)) as [->|Hne].
    + assert (q1 = q) as -> by congruence. right. unfold wc_if. rewrite Has. cbn. rewrite peer_peer, sel_upd. set_solver.
    + rewrite lookup_insert_ne in E4 by done. assert (q0 = q1) as -> by congruence. by left.
  - by eapply (woken_put w s n q).
Qed.

Lemma woken_peer_own s w es w' : pinv w → woken w s → micro_own (peer s) w es w' → woken w' s.
Proof.
  intros Hw Hk H.
  assert (∀ w1, ends w1 s = ends w s → (∀ n, is_Some (upipes w !! n) → upipes w1 !! n = upipes w !! n) →
    (activate_read ∈ cmds w s → activate_read ∈ cmds w1 s) → woken w1 s) as Hgen.
  { intros w1 He Hu Hc. eapply woken_same_peer; try done. intros p0 n0 q0 (_ & _ & Hn). exists q0. rewrite Hu; eauto. }
  destruct H as [p He Hst|p b He|p h l i o He|p He Hst|p He Hst Hd|p He Hst]; apply Hgen; try done; cbn;
    rewrite ?sel_upd_peer', ?peer_peer, ?sel_upd; try done; try set_solver.
  intros n Hn. rewrite lookup_insert_ne; [done|]. apply (ow_next _ (pv_own _ Hw)) in Hn. lia.
Qed.

Lemma woken_peer_cmd s w es w' : pinv w → woken w s → micro_cmd (peer s) w es w' → woken w' s.
Proof.
  intros Hw Hk H.
  assert (∀ w1, ends w1 s = ends w s → (∀ p n q, src w s p n q → upipes w1 !! n = Some q) →
    (activate_read ∈ cmds w s → activate_read ∈ cmds w1 s) → woken w1 s) as Hgen.
  { intros w1 He Hu Hc. eapply woken_same_peer; try done. intros p0 n0 q0 Hs. exists q0. by rewrite (Hu _ _ _ Hs). }
  destruct H as [p l He Hc|p l k He Hc|p o l n k He Ho Hc|p l He Hc Hst Hd|p l st He Hc Hst|p n l He Hi Hc].
  - cbv zeta. set (b := negb _ && _). unfold wn_if. destruct b; apply Hgen; cbn; rewrite ?sel_upd_peer'; try done; intros ??? Hs; apply Hs.
  - cbv zeta. set (b := negb _ && _). unfold wn_if. destruct b; apply Hgen; cbn; rewrite ?sel_upd_peer'; try done; intros ??? Hs; apply Hs.
  - assert (∀ p0 n0 q0, src w s p0 n0 q0 → o ≠ n0) as Hne.
    { intros p0 n0 q0 (E1 & E2 & _) <-. destruct (ow_in _ (pv_own _ Hw) _ _ E1) as (n1 & E3 & Hl).
      pose proof (out_chain _ Hw _ _ _ He Ho) as Hch. rewrite peer_peer, Hc in Hch. pose proof (ow_nodup _ (pv_own _ Hw) s) as Hnd.
      rewrite Hch in Hl, Hnd. cbn in Hl, Hnd. assert (n1 = o) as -> by congruence. apply last_Some_elem_of in Hl.
      by apply NoDup_cons in Hnd as [? _]. }
    unfold wn_if. case_match; apply Hgen; cbn; rewrite ?sel_upd_peer'; try done; intros p0 n0 q0 Hs;
      rewrite lookup_delete_ne by eauto; apply Hs.
  - apply Hgen; cbn; rewrite ?sel_upd_peer'; try done; intros ??? Hs; apply Hs.
  - apply Hgen; cbn; rewrite ?sel_upd_peer', ?peer_peer, ?sel_upd, ?sel_upd_peer'; try done; [intros ??? Hs; apply Hs|]. set_solver.
  - destruct (in_pipe _ Hw _ _ He) as (n0 & q0 & Hs0 & _). pose proof Hs0 as (_ & Hi0 & _). assert (n0 = n) as -> by congruence.
    unfold wc_if. case_match; apply Hgen; cbn; rewrite ?sel_upd_peer', ?peer_peer, ?sel_upd, ?sel_upd_peer'; try done; try set_solver;
      intros p1 n1 q1 Hs1; rewrite lookup_delete_ne by (by eapply src_src_ne); apply Hs1.
Qed.

Lemma woken_micro t s w es w' : pinv w → woken w s → micro t w es w' → woken w' s.
Proof.
  intros Hw Hk H. destruct (side_cases t s) as [->| ->], H;
    eauto using woken_micro_in, woken_micro_out, woken_micro_own, woken_micro_cmd, woken_peer_in, woken_peer_out, woken_peer_own, woken_peer_cmd.
Qed.

Lemma woken_micros t s w es w' : micros t w es w' → pinv w → woken w s → woken w' s.
Proof. induction 1; eauto using micro_inv, woken_micro. Qed.
