(* ===== verification/ZmqPipeEnd.v ===== *)
(** * Everything is read before the end (libzmq/src, pipe.cpp)

    The theorem on one direction of a pipe, from the invariants of ZmqPipeFlow.v: what
    is read is what was sent, and with [delay] set the reader gets all of it before it
    is terminated. *)

From stdpp Require Import base tactics list numbers gmap strings.
From S2P Require Import Prelude ZmqWire ZmqYpipe ZmqYpipeSpec ZmqPipe ZmqPipeSpec ZmqPipeFlow.

Local Open Scope Z_scope.

(** ** A reader that waits for the delimiter *)

(** The reader has got everything, and nothing more will come. *)
Definition finished (w : pair) (s : side) (acc rd : list pmsg) : Prop :=
  rd = goods acc ∧ the_delimiter ∈ acc ∧ ∀ pw, ends w (peer s) = Some pw → ¬ open_st pw.

(** The reader was not asked to terminate, and not to drop what is under way. *)
Definition patient (w : pair) (s : side) (acc rd : list pmsg) : Prop :=
  match ends w s with
  | Some p => delay p = true ∧
      (in_reading p ∨ (state p = delimiter_received ∨ state p = term_ack_sent) ∧ finished w s acc rd)
  | None => finished w s acc rd
  end.

Definition keeps_waiting (es : list pev) : Prop :=
  ∀ e, e ∈ es → match e with e_term | e_delay false | e_hiccup => False | _ => True end.

Lemma finished_other w w' s acc rd : ends w' (peer s) = ends w (peer s) → finished w s acc rd → finished w' s acc rd.
Proof. intros E (? & ? & ?). unfold finished. by rewrite E. Qed.

(** What the writer has is what the reader will get. *)
Lemma flow_dst w s acc rd p n q :
  pinv w → flow w s acc rd → dst w (peer s) p n q → q_items q = acc ∧ q_f q = length (complete acc) ∧ ∃ p0, src w s p0 n q.
Proof.
  intros Hw Hf Hd. pose proof Hd as (Hp & Ho & _). destruct (peer_alive _ Hw _ _ Hp) as [p0 He]; [by eapply out_not_acked|].
  rewrite peer_peer in He. destruct (in_pipe _ Hw _ _ He) as (n0 & q0 & Hs & _).
  destruct (dst_src _ Hw _ _ _ _ _ _ _ Hs Hd (fl_hic _ _ _ _ Hf)) as [-> ->].
  destruct (fl_src _ _ _ _ Hf _ _ _ Hs) as (? & ? & _). by eauto.
Qed.

(** Once the delimiter is written, all that is written is complete. *)
Lemma flow_ended w s acc rd : flow w s acc rd → the_delimiter ∈ acc → complete acc = acc.
Proof.
  intros Hf Hin. destruct (fl_shape _ _ _ _ Hf) as (u & d & Ea & Hu & Hdd & _). destruct d as [|x d _] using rev_ind.
  - exfalso. rewrite app_nil_r in Ea. subst u. rewrite Forall_forall in Hu. by apply Hu in Hin.
  - apply Forall_app in Hdd as [_ Hx]. apply Forall_cons_iff in Hx as [-> _]. by rewrite Ea, (assoc_L (++)), complete_snoc.
Qed.

(** The delimiter comes after all messages. *)
Lemma flow_at_delimiter w s acc rd p n q m :
  flow w s acc rd → src w s p n q → item q m → pm_delimiter m = true → finished w s acc rd.
Proof.
  intros Hf Hsrc [Hlt Hit] Hd. destruct (fl_src _ _ _ _ Hf _ _ _ Hsrc) as (Hi & _ & Hrd & _). rewrite Hi in Hit.
  destruct (flow_item _ _ _ _ _ _ Hf Hit) as [Hnd| ->]; [unfold no_delim in Hnd; congruence|].
  destruct (fl_shape _ _ _ _ Hf) as (u & d & Ea & Hu & Hdd & Hact).
  assert (length u ≤ q_r q)%nat as Hle.
  { destruct (decide (q_r q < length u)%nat) as [Hl|?]; [|lia]. rewrite Ea, lookup_app_l in Hit by done.
    rewrite Forall_lookup in Hu. by apply Hu in Hit. }
  split_and!.
  - rewrite Hrd, Ea, take_app_ge, !goods_app by done. by rewrite (goods_delims d Hdd), (goods_delims (take _ d)) by by apply Forall_take.
  - by eapply list_elem_of_lookup_2.
  - intros pw He Ho. rewrite Ea, (Hact pw He Ho), app_nil_r in Hit. apply lookup_lt_Some in Hit. lia.
Qed.

Lemma patient_same w w' s p p' acc rd :
  patient w s acc rd → ends w s = Some p → ends w' s = Some p' → ends w' (peer s) = ends w (peer s) →
  state p' = state p → delay p' = delay p → patient w' s acc rd.
Proof.
  unfold patient. intros H He He' E Hst Hd. rewrite He in H. rewrite He', Hd. unfold in_reading in *. rewrite Hst.
  destruct H as [? [?|[? ?]]]; split; auto. right. split; [done|by eapply finished_other].
Qed.

Lemma patient_in s w es w' acc rd :
  flow w s acc rd → patient w s acc rd → micro_in s w es w' → patient w' s acc (rd ++ takes es).
Proof.
  intros Hf Hp H. assert (ends w' (peer s) = ends w (peer s)) as Eo by (by eapply micro_other, mu_in).
  assert (∀ p, ends w s = Some p → delay p = true) as Hdel by (intros p He; unfold patient in Hp; rewrite He in Hp; apply Hp).
  destruct H as [p n q Hsrc Hr Hq|p n q m Hsrc Hr Hit Hcr|p n q m Hsrc Hr Hit Hcr Hd
    |p n q m Hsrc Hst Hit Hd|p n q m Hsrc Hst Hit Hd]; pose proof Hsrc as (He & _); specialize (Hdel _ He);
    unfold patient; cbn [takes omap list_omap]; rewrite ?app_nil_r.
  - cbn. rewrite sel_upd. cbn. auto.
  - cbn. rewrite sel_upd. cbn. auto.
  - assert (∀ x, ends (wc_if (fires (read_one m p)) s x (we s (read_one m p) (wq n (q_adv q) w))) s = Some (read_one m p)) as -> by (intros; ifs; done).
    unfold read_one. by destruct (counted m); auto.
  - cbn. rewrite sel_upd. split; [done|]. right. split; [by left|]. eapply finished_other; [exact Eo|]. by eapply flow_at_delimiter.
  - cbn. rewrite sel_upd. split; [done|]. right. split; [by right|]. eapply finished_other; [exact Eo|]. by eapply flow_at_delimiter.
Qed.

Lemma patient_cmd s w es w' acc rd :
  pinv w → patient w s acc rd → micro_cmd s w es w' → patient w' s acc rd.
Proof.
  intros Hw Hp H. assert (ends w' (peer s) = ends w (peer s)) as Eo by (by eapply micro_other, mu_cmd).
  destruct H as [p l He Hc|p l k He Hc|p o l n k He Ho Hc|p l He Hc Hst Hd|p l st He Hc Hst|p n l He Hi Hc].
  - cbv zeta. set (b := negb _ && _). by eapply (patient_same w _ s p (set_in_active (b || in_active p) p)); try done; ifs.
  - cbv zeta. set (b := negb _ && _).
    by eapply (patient_same w _ s p (set_out_active (b || out_active p) (set_peers_msgs_read k p))); try done; ifs.
  - by eapply (patient_same w _ s p (set_out_active true (set_outpipe (Some n) (set_msgs_written k p)))); try done; ifs.
  - unfold patient in *. rewrite He in Hp. cbn. rewrite sel_upd. cbn. split; [apply Hp|]. by left; right.
  - unfold patient in *. rewrite He in Hp. destruct Hp as [Hd Hp]. cbn. rewrite sel_upd. split; [done|]. right.
    destruct Hst as [[[[E1 E2]|E1] ->]|[E1 ->]]; [congruence| |].
    + destruct Hp as [[?|?]|[_ ?]]; [congruence..|]. split; [by right|by eapply finished_other].
    + exfalso. destruct Hp as [[?|?]|[[?|?] _]]; congruence.
  - destruct (acked_last w s p l Hw He Hc) as (_ & _ & Hst). unfold patient in *. rewrite He in Hp. destruct Hp as [Hd Hp].
    assert (finished w s acc rd) as Hfin.
    { destruct Hp as [[E|E]|[_ ?]]; [..|done]; exfalso; destruct Hst as [[? _]|[Ha _]]; try congruence; unfold acked_st in Ha; by rewrite E in Ha. }
    assert (∀ b, ends (wk s (wd n (wc_if b s pipe_term_ack (wn s pipe_terminated (wt s l w))))) s = None) as ->
      by (intros []; cbn; by rewrite sel_upd).
    by eapply finished_other.
Qed.

Lemma patient_micro s w es w' acc rd :
  pinv w → flow w s acc rd → patient w s acc rd → micro s w es w' → keeps_waiting es → patient w' s acc (rd ++ takes es).
Proof.
  intros Hw Hf Hp Hm Hes. pose proof (micro_other _ _ _ _ Hm) as Eo. destruct Hm as [? ? H|? ? H|? ? H|? ? H].
  - by eapply patient_in.
  - assert (takes es = []) as -> by by destruct H. rewrite app_nil_r.
    destruct H as [p He Hst Hh|p n q m (He & _) Hst Hoa Hh|p n q (He & _) Hq|p n q (He & _) Hq|p n q (He & _) Hst Hq].
    + by eapply (patient_same w _ s p (set_out_active false p)); try done; ifs.
    + eapply (patient_same w _ s p (wrote_one m p)); try done; [by ifs|unfold wrote_one; by destruct (counted m)..].
    + by eapply (patient_same w _ s p p).
    + eapply (patient_same w _ s p p); try done. by ifs.
    + by eapply (patient_same w _ s p p).
  - assert (takes es = []) as -> by by destruct H. rewrite app_nil_r.
    destruct H as [p He Hst|p b He|p h l i o He|p He Hst|p He Hst Hd|p He Hst];
      try (exfalso; by eapply (Hes e_term); left); try (exfalso; by eapply (Hes e_hiccup); left).
    + destruct b; [|exfalso; by eapply (Hes (e_delay false)); left].
      eapply (patient_same w _ s p (set_delay true p)); try done; [by ifs|]. unfold patient in Hp. rewrite He in Hp. by destruct Hp as [-> _].
    + by eapply (patient_same w _ s p (set_marks h l (set_boosts i o p))); try done; ifs.
  - assert (takes es = []) as -> by by destruct H. rewrite app_nil_r. by eapply patient_cmd.
Qed.

(** After its delimiter the writer adds at most another one. *)
Lemma finished_peer s w es w' acc rd :
  pinv w → flow w s acc rd → finished w s acc rd → micro (peer s) w es w' → finished w' s (puts acc es) rd.
Proof.
  intros Hw Hf (Hrd & Hin & Hno) Hm.
  assert (goods (puts acc es) = goods acc ∧ the_delimiter ∈ puts acc es) as [E1 E2].
  { destruct Hm as [? ? H|? ? H|? ? H|? ? H].
    - by destruct (flow_peer_in _ _ _ _ _ _ Hw Hf H) as [_ ->].
    - destruct H as [p He Hst Hh|p n q m (He & _) Hst Hoa Hh|p n q Hd Hq|p n q Hd Hq|p n q Hd Hst Hq]; cbn; try done.
      + exfalso. by eapply (Hno p He); left.
      + exfalso. destruct (flow_dst _ _ _ _ _ _ _ Hw Hf Hd) as (Hi & Hqf & _). apply Hq.
        by rewrite Hqf, Hi, (flow_ended _ _ _ _ Hf Hin).
      + rewrite goods_app, (goods_delims [the_delimiter]), app_nil_r by by repeat constructor. split; [done|set_solver].
    - by destruct (flow_peer_own _ _ _ _ _ _ Hw Hf H) as [_ ->].
    - by destruct (flow_peer_cmd _ _ _ _ _ _ Hw Hf H) as [_ ->]. }
  split_and!; [congruence|done|]. intros pw He Ho. destruct (micro_open _ _ _ _ _ Hm He Ho) as (p & ? & ?). by eapply Hno.
Qed.

Lemma patient_micro_peer s w es w' acc rd :
  pinv w → flow w s acc rd → patient w s acc rd → micro (peer s) w es w' → patient w' s (puts acc es) rd.
Proof.
  intros Hw Hf Hp Hm. pose proof (micro_other _ _ _ _ Hm) as Eo. rewrite peer_peer in Eo. unfold patient in *. rewrite Eo.
  pose proof (finished_peer s w es w' acc rd Hw Hf) as Hfin. destruct (ends w s) as [p|]; [|by auto].
  destruct Hp as [Hd [?|[? ?]]]; split; auto.
Qed.

Lemma patient_micros s w es w' acc rd :
  micros s w es w' → pinv w → flow w s acc rd → patient w s acc rd → keeps_waiting es → patient w' s acc (rd ++ takes es).
Proof.
  intros Hm. revert rd. induction Hm as [w|w es w1 es' w2 H1 _ IH]; intros rd Hw Hf Hp Hes; [by rewrite app_nil_r|].
  assert (keeps_waiting es ∧ keeps_waiting es') as [Hes1 Hes2] by (split; intros e ?; apply Hes; set_solver).
  unfold takes. rewrite omap_app, (assoc_L (++)). apply IH; [by eapply micro_inv| |by eapply patient_micro|done].
  eapply flow_micro; try done. intros H. by apply (Hes1 e_hiccup).
Qed.

Lemma patient_micros_peer s w es w' acc rd :
  micros (peer s) w es w' → pinv w → flow w s acc rd → (∀ m, e_write m ∈ es → no_delim m) → patient w s acc rd →
  patient w' s (puts acc es) rd.
Proof.
  intros Hm. revert acc. induction Hm as [w|w es w1 es' w2 H1 _ IH]; intros acc Hw Hf Hes Hp; [done|].
  unfold puts. rewrite foldl_app. apply IH; [by eapply micro_inv| |intros m ?; apply Hes; set_solver|by eapply patient_micro_peer].
  eapply flow_micro_peer; try done. intros m ?. apply Hes. set_solver.
Qed.

(** ** What the owners see *)

(** The messages that an end accepted from its owner and did not take back, and the
    ones its owner has read. *)
Definition accept1 (s : side) (l : list pmsg) (x : side * pop * pres) : list pmsg :=
  if decide (x.1.1 = s) then
    match x.1.2, x.2 with
    | op_write m, res_bool true => l ++ [m]
    | op_rollback, _ | op_terminate _, _ => complete l
    | _, _ => l
    end
  else l.
Definition accepted (s : side) (rs : list (side * pop * pres)) : list pmsg := foldl (accept1 s) [] rs.
Definition reads (s : side) (rs : list (side * pop * pres)) : list pmsg :=
  omap (λ x, if decide (x.1.1 = s) then match x.1.2, x.2 with op_read, res_msg m => m | _, _ => None end else None) rs.

Lemma accepted_snoc s rs x : accepted s (rs ++ [x]) = accept1 s (accepted s rs) x.
Proof. unfold accepted. by rewrite foldl_app. Qed.

(** The queue holds what was accepted, and delimiters. *)
Definition linked (w : pair) (s : side) (acc l : list pmsg) : Prop :=
  (∃ d, complete acc = complete l ++ d ∧ Forall is_delim d) ∧
  (∀ pw, ends w (peer s) = Some pw → state pw = active → acc = l).

(** Moves that write no message leave what is complete as it is, but for delimiters. *)
Lemma micro_complete s w es w' acc rd :
  pinv w → flow w s acc rd → micro (peer s) w es w' → (∀ m, e_write m ∉ es) →
  ∃ d, complete (puts acc es) = complete acc ++ d ∧ Forall is_delim d.
Proof.
  intros Hw Hf Hm Hes. assert (∃ d, complete acc = complete acc ++ d ∧ Forall is_delim d) as H0 by (exists []; by rewrite app_nil_r).
  destruct Hm as [? ? H|? ? H|? ? H|? ? H].
  - by destruct (flow_peer_in _ _ _ _ _ _ Hw Hf H) as [_ ->].
  - destruct H as [p He Hst Hh|p n q m (He & _) Hst Hoa Hh|p n q Hd Hq|p n q Hd Hq|p n q Hd Hst Hq]; cbn; try done.
    + exfalso. apply (Hes m). by left.
    + destruct (flow_dst _ _ _ _ _ _ _ Hw Hf Hd) as (Hi & Hf' & _). rewrite complete_unput; [done|]. by rewrite <- Hf', <- Hi.
    + destruct (flow_dst _ _ _ _ _ _ _ Hw Hf Hd) as (Hi & Hf' & _). exists [the_delimiter]. rewrite complete_snoc. split; [|by repeat constructor]. cbn. f_equal.
      rewrite complete_take, <- Hf', Hq, Hi, take_ge; done.
  - by destruct (flow_peer_own _ _ _ _ _ _ Hw Hf H) as [_ ->].
  - by destruct (flow_peer_cmd _ _ _ _ _ _ Hw Hf H) as [_ ->].
Qed.

Lemma micros_complete s w es w' acc rd :
  micros (peer s) w es w' → pinv w → flow w s acc rd → (∀ m, e_write m ∉ es) →
  ∃ d, complete (puts acc es) = complete acc ++ d ∧ Forall is_delim d.
Proof.
  intros Hm. revert acc. induction Hm as [w|w es w1 es' w2 H1 _ IH]; intros acc Hw Hf Hes.
  { exists []. by rewrite app_nil_r. }
  unfold puts in *. rewrite foldl_app. assert (∀ m, e_write m ∉ es) as Hes1 by set_solver.
  destruct (micro_complete _ _ _ _ _ _ Hw Hf H1 Hes1) as (d1 & E1 & F1).
  destruct (IH (foldl put1 acc es)) as (d2 & E2 & F2); [by eapply micro_inv| |set_solver|].
  { eapply flow_micro_peer; try done. intros m Hm. by apply Hes1 in Hm. }
  exists (d1 ++ d2). rewrite E2. unfold puts in E1. rewrite E1, (assoc_L (++)). split; [done|]. by apply Forall_app.
Qed.

(** What an operation puts in, if it is not a [write]. *)
Lemma puts_none acc es : (∀ e, e ∈ es → match e with e_write _ | e_unwrite | e_delim => False | _ => True end) → puts acc es = acc.
Proof.
  revert acc. induction es as [|e es IH]; intros acc H; [done|]. cbn. unfold puts in IH.
  assert (put1 acc e = acc) as -> by (specialize (H e ltac:(by left)); by destruct e). apply IH. intros e' ?. apply H. by right.
Qed.

Lemma micros_write t w es w' m : micros t w es w' → e_write m ∈ es → ∃ p, ends w t = Some p ∧ state p = active.
Proof.
  induction 1 as [|w es w1 es' w2 H1 _ IH]; [set_solver|]. intros [Hm|Hm]%elem_of_app.
  - destruct H1 as [? ? H|? ? H|? ? H|? ? H]; destruct H; set_unfold in Hm; try (by naive_solver).
    unfold dst in *. naive_solver.
  - destruct (IH Hm) as (p & ? & ?). by eapply micro_active.
Qed.

(** Delimiters do not come before the end was asked to terminate. *)
Lemma delims_open w s acc rd l d pw :
  flow w s acc rd → ends w (peer s) = Some pw → state pw = active → acc = l ++ d → Forall is_delim d → d = [].
Proof.
  intros Hf He Ha Ea Hd. destruct (fl_shape _ _ _ _ Hf) as (u & d' & E & Hu & _ & Ho).
  rewrite (Ho pw He (or_introl Ha)), app_nil_r in E. subst u. rewrite Ea in Hu. apply Forall_app in Hu as [_ Hu].
  destruct d as [|x d]; [done|]. apply Forall_cons_iff in Hu as [Hx _]. apply Forall_cons_iff in Hd as [-> _]. done.
Qed.

(** A writer that has rolled back has written complete messages only. *)
Lemma settled_complete w s acc rd pw :
  pinv w → flow w s acc rd → settled w (peer s) → ends w (peer s) = Some pw → state pw = active → complete acc = acc.
Proof.
  intros Hw Hf Hs He Ha. destruct (outpipe pw) as [n|] eqn:Ho.
  2:{ apply (pv_out _ Hw _ _ He) in Ho. unfold acked_st in Ho. by rewrite Ha in Ho. }
  destruct (out_pipe _ Hw _ _ _ He Ho) as (q & Hd & _). specialize (Hs _ _ _ Hd).
  destruct (flow_dst _ _ _ _ _ _ _ Hw Hf Hd) as (Hi & Hqf & _). rewrite complete_take, <- Hqf, Hs, Hi. by apply take_ge.
Qed.

Lemma linked_own s w es w' acc l : linked w s acc l → micros s w es w' → linked w' s acc l.
Proof. intros [? H] Hm. split; [done|]. by rewrite (micros_other _ _ _ _ Hm). Qed.

Definition sends_delimiter (o : pop) : bool := if o is op_write m then pm_delimiter m else false.

Lemma obs_writes t o r w' es m : obs t o r w' es → e_write m ∈ es → o = op_write m ∧ r = res_bool true ∧ es = [e_write m].
Proof.
  intros H Hm. destruct o; cbn in H; try (by destruct_or?; subst; set_unfold in Hm; naive_solver).
  - destruct H as (m' & _ & ->). apply list_elem_of_fmap in Hm as (? & [=] & _).
  - destruct H as ([] & -> & ->); set_unfold; naive_solver.
  - destruct H as (_ & k & ->). apply elem_of_replicate in Hm as [[=] _].
  - destruct H as (_ & [-> |(es' & -> & [[-> _]|(_ & _ & k & ->)])]); [set_unfold in Hm; naive_solver..|].
    rewrite !elem_of_cons, elem_of_app, elem_of_replicate, elem_of_cons, elem_of_nil in Hm. naive_solver.
Qed.

Lemma linked_peer s w es w' acc rd l o r :
  pinv w → flow w s acc rd → linked w s acc l → micros (peer s) w es w' → obs (peer s) o r w' es → sends_delimiter o = false →
  linked w' s (puts acc es) (accept1 (peer s) l (peer s, o, r)).
Proof.
  intros Hw Hf [(d & Ed & Hd) Hl] Hm Ho Hsd. unfold accept1. rewrite decide_True by done. cbn.
  assert (∀ m, e_write m ∈ es → no_delim m) as Hnd by (intros m Hin; destruct (obs_writes _ _ _ _ _ _ Ho Hin) as (-> & _); done).
  pose proof (flow_micros_peer _ _ _ _ _ _ Hm Hw Hf Hnd) as Hf'. pose proof (micros_inv _ _ _ _ Hm Hw) as Hw'.
  assert ((∃ m, o = op_write m ∧ r = res_bool true) ∨ ∀ m, e_write m ∉ es) as [(m & -> & ->)|Hno].
  { destruct o; try (right; intros m' Hin; by destruct (obs_writes _ _ _ _ _ _ Ho Hin)).
    destruct Ho as ([] & -> & ->); [by eauto|right; set_solver]. }
  { destruct Ho as (b & [= <-] & ->). cbn. destruct (micros_write _ _ _ _ m Hm) as (pw & He & Ha); [by left|].
    rewrite (Hl pw He Ha). split; [|done]. exists []. by rewrite app_nil_r. }
  destruct (micros_complete _ _ _ _ _ _ Hm Hw Hf Hno) as (d' & Ed' & Hd').
  set (l' := match o with op_write _ => _ | _ => _ end).
  assert (complete l' = complete l) as El.
  { subst l'. destruct o; cbn; try done; [|by rewrite complete_complete..]. destruct Ho as ([] & -> & ->); [|done]. by destruct (Hno m); left. }
  split.
  { exists (d ++ d'). rewrite Ed', Ed, El, (assoc_L (++)). split; [done|]. by apply Forall_app. }
  intros pw He' Ha'. destruct (micros_active _ _ _ _ _ Hm He' Ha') as (p & He & Ha). pose proof (Hl p He Ha) as ->.
  assert (op_rollback = o ∨ puts l es = l') as [<-|?]; [|subst l'|done].
  - subst l'. destruct o; cbn in Ho; try (by right; destruct_or?; subst); [..|by left|].
    + destruct Ho as (m & -> & ->). right. apply puts_none. intros e (? & -> & _)%list_elem_of_fmap. done.
    + destruct Ho as ([] & -> & ->); [by destruct (Hno m); left|by right].
    + exfalso. eapply (proj1 Ho); [done|by left].
  - destruct Ho as [Hs _]. pose proof (settled_complete _ _ _ _ _ Hw' Hf' Hs He' Ha') as E. rewrite <- E at 1.
    assert (d' = []) as -> by (eapply delims_open; [exact Hf'|done..|by rewrite <- E|done]). by rewrite Ed', app_nil_r.
Qed.

Lemma reads_snoc s rs x : reads s (rs ++ [x]) = reads s rs ++ reads s [x].
Proof. apply omap_app. Qed.
Lemma reads_other s o r : reads s [(peer s, o, r)] = [].
Proof. unfold reads. cbn. rewrite decide_False; [done|]. by destruct s. Qed.
Lemma reads_obs s o r w es : obs s o r w es → reads s [(s, o, r)] = takes es.
Proof.
  intros H. unfold reads. cbn. rewrite decide_True by done. destruct o; cbn in H; try (by destruct_or?; subst).
  - destruct H as ([m|] & -> & ->); done.
  - by destruct H as ([] & -> & ->).
  - destruct H as (_ & k & ->). induction k; done.
  - destruct H as (_ & [-> |(es' & -> & [[-> _]|(_ & _ & k & ->)])]); [done..|]. unfold takes. cbn. induction k; done.
Qed.
Lemma reads_dead s t o : reads s [(t, o, no_res)] = [].
Proof. unfold reads. cbn. by repeat case_match. Qed.

Lemma accepted_other s o r l : accept1 (peer s) l (s, o, r) = l.
Proof. unfold accept1. cbn. rewrite decide_False; [done|]. by destruct s. Qed.
Lemma linked_dead w s acc l t o : linked w s acc l → ends w t = None → linked w s acc (accept1 (peer s) l (t, o, no_res)).
Proof.
  intros [(d & E & Hd) Hl] He. unfold accept1. cbn. case_decide as Et; [subst t|by split; eauto].
  assert (complete (match o with op_rollback | op_terminate _ => complete l | _ => l end) = complete l) as E'
    by (destruct o; rewrite ?complete_complete; done).
  split; [|intros pw; by rewrite He]. exists d. destruct o; cbn in *; by rewrite ?E'.
Qed.

Lemma flow_start hwm0 hwm1 s : flow (pipepair hwm0 hwm1) s [] [].
Proof.
  split; [by destruct s|by exists [], []| |by destruct s].
  intros p n q (He & Hi & Hn). assert (q_items q = [] ∧ q_f q = 0%nat ∧ q_r q = 0%nat ∧ state p = active) as (E1 & E2 & E3 & E4).
  { destruct s; cbn in He; injection He as <-; cbn in Hi; injection Hi as <-; vm_compute in Hn; by injection Hn as <-. }
  by rewrite E1, E2, E3, E4.
Qed.

(** ** Delivery *)

(** Operations the theorems on the reader [s] are about: nobody writes a delimiter of
    its own, and [s] does not ask for a new ypipe. *)
Definition plain (s : side) (x : side * pop) : Prop := sends_delimiter x.2 = false ∧ x ≠ (s, op_hiccup).
(** The owner of [s] leaves it to the other side to end the connection. *)
Definition stays (s : side) (x : side * pop) : Prop :=
  x.1 = s → match x.2 with op_terminate _ | op_set_nodelay => False | _ => True end.

Definition delivers (s : side) (P : Prop) (w : pair) (rs : list (side * pop * pres)) : Prop :=
  ∃ acc, flow w s acc (reads s rs) ∧ linked w s acc (accepted (peer s) rs) ∧ (P → patient w s acc (reads s rs)).

Lemma obs_no_hiccup t o r w es : obs t o r w es → o ≠ op_hiccup → e_hiccup ∉ es.
Proof.
  intros H Ho. destruct o; cbn in H; try done; try (by destruct_or?; subst; set_unfold; naive_solver).
  - destruct H as (m & _ & ->). intros (? & ? & _)%list_elem_of_fmap. done.
  - destruct H as ([] & _ & ->); set_unfold; naive_solver.
  - destruct H as (_ & k & ->). intros [? _]%elem_of_replicate. done.
  - destruct H as (_ & [-> |(es' & -> & [[-> _]|(_ & _ & k & ->)])]); [set_unfold; naive_solver..|].
    rewrite !elem_of_cons, elem_of_app, elem_of_replicate, elem_of_cons, elem_of_nil. naive_solver.
Qed.

Lemma obs_stays s o r w es : obs s o r w es → o ≠ op_hiccup → stays s (s, o) → keeps_waiting es.
Proof.
  intros H Ho Hs e He. specialize (Hs eq_refl). destruct o; cbn in H, Hs; try done; try (by destruct_or?; subst; set_unfold in He; naive_solver).
  - destruct H as (m & _ & ->). apply list_elem_of_fmap in He as (? & -> & _). done.
  - destruct H as ([] & _ & ->); set_unfold in He; naive_solver.
  - destruct H as (_ & k & ->). apply elem_of_replicate in He as [-> _]. done.
Qed.

Lemma delivers_op s P w rs t o p r w' es :
  pinv w → delivers s P w rs → plain s (t, o) → (P → stays s (t, o)) → ends w t = Some p →
  micros t w es w' → obs t o r w' es → delivers s P w' (rs ++ [(t, o, r)]).
Proof.
  intros Hw (acc & Hf & Hl & Hp) [Hsd Hh] Hst He Hm Ho. unfold delivers. rewrite reads_snoc, accepted_snoc. cbn in Hsd.
  destruct (side_cases t s) as [->| ->].
  - assert (o ≠ op_hiccup) as Ho' by congruence. exists acc. rewrite (reads_obs _ _ _ _ _ Ho), accepted_other. split_and!.
    + eapply flow_micros; try done. by eapply obs_no_hiccup.
    + by eapply linked_own.
    + intros HP. eapply patient_micros; eauto. by eapply obs_stays; eauto.
  - assert (∀ m, e_write m ∈ es → no_delim m) as Hnd by (intros m Hin; destruct (obs_writes _ _ _ _ _ _ Ho Hin) as (-> & _); done).
    exists (puts acc es). rewrite reads_other, app_nil_r. split_and!.
    + by eapply flow_micros_peer.
    + by eapply linked_peer.
    + intros HP. eapply patient_micros_peer; eauto.
Qed.

Lemma delivers_run s P hwm0 hwm1 ops :
  Forall (plain s) ops → (P → Forall (stays s) ops) →
  ∃ rs w, run_pops ops (pipepair hwm0 hwm1) = Ok (rs, w) ∧ pinv w ∧ delivers s P w rs.
Proof.
  intros Hpl Hst.
  destruct (run_pops_inv (λ x, plain s x ∧ (P → stays s x)) (delivers s P) ops (pipepair hwm0 hwm1) []) as (rs & w & Hrun & Hw & HJ).
  - intros w rs t o Hw (acc & Hf & Hl & Hp) _ He. exists acc. rewrite reads_snoc, reads_dead, app_nil_r, accepted_snoc.
    split_and!; [done|by apply linked_dead|done].
  - intros w rs t o p r w' es Hw HJ [Hpl' Hst'] He Hm Ho _. by eapply delivers_op.
  - apply pinv_start.
  - exists []. split_and!; [apply flow_start|split; [by exists []|done]|]. intros _. unfold patient. destruct s; cbn; split; try done; by left; left.
  - rewrite Forall_forall in Hpl |- *. intros x Hx. split; [by apply Hpl|]. intros HP. by eapply Forall_forall in Hst.
  - exists rs, w. done.
Qed.

Lemma delivers_prefix s P w rs : pinv w → delivers s P w rs → reads s rs `prefix_of` goods (complete (accepted (peer s) rs)).
Proof.
  intros Hw (acc & Hf & [(d & E & Hd) _] & _).
  assert (goods (complete acc) = goods (complete (accepted (peer s) rs))) as <- by (by rewrite E, goods_app, (goods_delims d), app_nil_r).
  destruct (ends w s) as [p|] eqn:He; [|by apply (fl_dead _ _ _ _ Hf)].
  destruct (in_pipe _ Hw _ _ He) as (n & q & Hsrc & Hq). destruct (fl_src _ _ _ _ Hf _ _ _ Hsrc) as (Hi & Hqf & -> & _).
  by apply goods_prefix, take_complete.
Qed.

(** C8: What one owner reads from a pipe is what the other one wrote and did not take
    back: the messages that are neither credentials nor the delimiter, in the order in
    which they were written, none of them changed, lost or duplicated, a message of
    several parts only once its last part is written, and rolled back parts never. An end
    whose owner does not ask it to terminate, and has not told it not to wait, is not
    terminated before all of these messages were read, however early the other end was
    asked to terminate. This is for runs in which the reader does not call [hiccup], which
    drops the messages on their way on purpose, and in which the owners write no delimiter
    of their own: only the pipe makes one. *)
Theorem reader_gets_what_was_sent s hwm0 hwm1 ops :
  Forall (plain s) ops →
  ∃ rs w, run_pops ops (pipepair hwm0 hwm1) = Ok (rs, w) ∧
    reads s rs `prefix_of` goods (complete (accepted (peer s) rs)) ∧
    (Forall (stays s) ops → ends w s = None → reads s rs = goods (complete (accepted (peer s) rs))).
Proof.
  intros Hpl. destruct (delivers_run s (Forall (stays s) ops) hwm0 hwm1 ops) as (rs & w & Hrun & Hw & HJ); [done|done|].
  exists rs, w. split; [done|]. split; [by eapply delivers_prefix|]. intros Hst He.
  destruct HJ as (acc & Hf & [(d & E & Hd) _] & Hp). specialize (Hp Hst). unfold patient in Hp. rewrite He in Hp.
  destruct Hp as (-> & Hin & _). rewrite <- (app_nil_r (goods (complete _))), <- (goods_delims d Hd), <- goods_app, <- E.
  by rewrite (flow_ended _ _ _ _ Hf Hin).
Qed.

(** The two parts of a message, written before the right end terminates, are read by the
    left end after it got [pipe_term]; the third part, whose message is not complete, is
    not. *)
Definition part (n : Z) (more : bool) : pmsg :=
  {| pm_more := more; pm_identity := false; pm_credential := false; pm_delimiter := false; pm_data := [n] |}.
Definition parting : list (side * pop) :=
  [(right_end, op_write (part 1 true)); (right_end, op_write (part 2 false)); (right_end, op_write (part 3 true));
   (right_end, op_terminate true); (left_end, op_command); (left_end, op_check_read); (left_end, op_command);
   (left_end, op_read); (left_end, op_read); (left_end, op_read);
   (right_end, op_command); (right_end, op_command); (right_end, op_command); (left_end, op_command)].

Lemma reader_gets_what_was_sent_witness :
  ∃ rs w, run_pops parting (pipepair 2 2) = Ok (rs, w) ∧ ends w left_end = None ∧
    reads left_end rs = [part 1 true; part 2 false].
Proof.
  destruct (reader_gets_what_was_sent left_end 2 2 parting) as (rs & w & Hrun & _ & Hall).
  { repeat (constructor; [by split|]). constructor. }
  exists rs, w. split; [done|].
  assert (ends w left_end = None ∧ goods (complete (accepted right_end rs)) = [part 1 true; part 2 false]) as [He Ha].
  { vm_compute in Hrun. injection Hrun as <- <-. split; vm_compute; reflexivity. }
  split; [done|]. rewrite <- Ha. apply Hall; [|done]. repeat (constructor; [done|]). constructor.
Defined.
