(* ===== verification/ZmqPipeQuiet.v ===== *)
(** * A pipe that is asked to end comes to its end (libzmq/src, pipe.cpp)

    When no command is under way and the readers have read what there is, a pipe one of
    whose ends was asked to terminate is gone on both sides: no order of the operations
    leaves the shutdown half-way. A hiccup that crosses the request to terminate is the
    exception, and the last theorem shows that the end that sent it waits for ever. *)

From stdpp Require Import base tactics list numbers gmap strings.
From S2P Require Import Prelude ZmqWire ZmqYpipe ZmqYpipeSpec ZmqPipe ZmqPipeSpec ZmqPipeFlow ZmqPipeEnd.

Local Open Scope Z_scope.

(** ** The writer that asked to terminate has flushed the delimiter *)

Definition closed (w : pair) (s : side) (acc : list pmsg) : Prop := ∀ pw n q,
  dst w (peer s) pw n q → state pw = term_req_sent1 → the_delimiter ∈ acc ∧ q_w q = length acc.

Lemma dst_dst_ne w s p n q p' n' q' : pinv w → dst w s p n q → dst w (peer s) p' n' q' → n' ≠ n.
Proof.
  intros Hw H1%(dst_chain _ Hw) H2%(dst_chain _ Hw) <-. rewrite peer_peer in H2. by eapply (ow_disj _ (pv_own _ Hw) s).
Qed.

(** The reader leaves the writer's side of the queue alone. *)
Lemma micro_dst_other s w es w' pw n q' :
  pinv w → micro s w es w' → dst w' (peer s) pw n q' → ∃ q, dst w (peer s) pw n q ∧ q_w q = q_w q'.
Proof.
  intros Hw Hm (He & Ho & Hn). pose proof (micro_other _ _ _ _ Hm) as Eo. rewrite Eo in He.
  destruct (out_pipe _ Hw _ _ _ He Ho) as (q & Hd & _). exists q. split; [done|]. pose proof Hd as (_ & _ & Hq).
  assert (∀ p n0 q0 q1, dst w s p n0 q0 → <[n0:=q1]> (upipes w) !! n = Some q' → q_w q = q_w q') as Hout.
  { intros p n0 q0 q1 Hd0 Hi. rewrite lookup_insert_ne in Hi; [congruence|]. intros <-. by eapply dst_dst_ne. }
  assert (∀ p n0 q0 q1, src w s p n0 q0 → q_w q1 = q_w q0 → <[n0:=q1]> (upipes w) !! n = Some q' → q_w q = q_w q') as Hin.
  { intros p n0 q0 q1 (_ & _ & Hq0) E [[<- <-]|[_ ?]]%lookup_insert_Some; congruence. }
  assert (n < upipe_next w)%N as Hlt by (apply (ow_next _ (pv_own _ Hw)); by eauto).
  destruct Hm as [? ? H|? ? H|? ? H|? ? H]; destruct H; revert Hn; ifs; try congruence;
    try (by eapply Hin); try (by eapply Hout); try (intros [_ ?]%lookup_delete_Some; congruence).
  intros [[? _]|[_ ?]]%lookup_insert_Some; [lia|congruence].
Qed.

Lemma closed_micro s w es w' acc : pinv w → closed w s acc → micro s w es w' → closed w' s acc.
Proof. intros Hw Hc Hm pw n q Hd Hst. destruct (micro_dst_other _ _ _ _ _ _ _ Hw Hm Hd) as (q0 & Hd0 & <-). by eapply Hc. Qed.

(** What an end in [term_req_sent1] can still do to the queue it writes. *)
Lemma micro_closed t w es w' pw' n q' :
  pinv w → micro t w es w' → dst w' t pw' n q' → state pw' = term_req_sent1 → e_term ∉ es → e_delim ∉ es →
  payloads (cmds w t) = [] →
  ∃ pw q, dst w t pw n q ∧ state pw = term_req_sent1 ∧
    (q_w q' = q_w q ∧ (∀ acc, puts acc es = acc) ∨ q_f q ≠ length (q_items q) ∨ q_w q' = q_f q ∧ es = []).
Proof.
  intros Hw Hm (He & Ho & Hn) Hst Ht Hd Hp.
  destruct Hm as [? ? H|? ? H|? ? H|? ? H].
  - destruct H as [p n0 q Hs Hr Hq|p n0 q m Hs Hr Hit Hcr|p n0 q m Hs Hr Hit Hcr Hdm|p n0 q m Hs Hst0 Hit Hdm|p n0 q m Hs Hst0 Hit Hdm];
      exfalso; pose proof Hs as (Hp0 & _); revert He Hst; ifs; intros [= <-] Hst; cbn in Hst; try done;
      try (unfold read_one in Hst; destruct (counted m)); destruct Hr; cbn in Hst; congruence.
  - destruct H as [p He0 Hst0 Hh|p n0 q m Hdd Hst0 Hoa Hh|p n0 q Hdd Hq0|p n0 q Hdd Hq0|p n0 q Hdd Hst0 Hq0].
    + exfalso. revert He Hst. ifs. intros [= <-]. cbn. congruence.
    + exfalso. revert He Hst. ifs. intros [= <-]. unfold wrote_one. destruct (counted m); cbn; congruence.
    + pose proof Hdd as (Hp0 & Ho0 & _). cbn in He. assert (pw' = p ∧ n0 = n) as [-> ->] by (split; congruence).
      exists p, q. split_and!; [done..|]. by right; left.
    + pose proof Hdd as (Hp0 & Ho0 & _). revert He Hn. ifs; intros He Hn; assert (pw' = p ∧ n0 = n) as [-> ->] by (split; congruence);
      exists p, q; rewrite lookup_insert_eq in Hn; injection Hn as <-; (split; [done|]); (split; [done|]); by right; right.
    + set_solver.
  - destruct H as [p He0 Hst0|p b He0|p h l i o He0|p He0 Hst0|p He0 Hst0 Hde|p He0 Hst0]; try set_solver.
    + exfalso. revert He Hst. ifs. intros [= <-]. cbn. congruence.
    + revert He Hn. ifs. intros [= <-] Hn. exists p, q'. split_and!; [done..|]. by left.
    + revert He Hn. ifs. intros [= <-] Hn. exists p, q'. split_and!; [done..|]. by left.
  - destruct H as [p l He0 Hc|p l k He0 Hc|p o l n0 k He0 Ho0 Hc|p l He0 Hc Hst0 Hde|p l st He0 Hc Hst0|p n0 l He0 Hi Hc].
    + cbv zeta in *. set (b := negb _ && _) in *. revert He Hn. ifs; intros [= <-] Hn; exists p, q'; (split_and!; [done..|]); by left.
    + cbv zeta in *. set (b := negb _ && _) in *. revert He Hn. ifs; intros [= <-] Hn; exists p, q'; (split_and!; [done..|]); by left.
    + by rewrite Hc in Hp.
    + exfalso. revert He Hst. ifs. intros [= <-]. cbn. congruence.
    + exfalso. revert He Hst. ifs. intros [= <-]. cbn. destruct Hst0 as [[_ ->]|[_ ->]]; done.
    + exfalso. revert He. ifs; done.
Qed.

Lemma closed_micro_peer s w es w' acc rd :
  pinv w → flow w s acc rd → closed w s acc → micro (peer s) w es w' → e_term ∉ es → e_delim ∉ es → closed w' s (puts acc es).
Proof.
  intros Hw Hf Hc Hm Ht Hd pw' n q' Hdst Hst.
  destruct (micro_closed _ _ _ _ _ _ _ Hw Hm Hdst Hst Ht Hd (fl_hic _ _ _ _ Hf)) as (pw & q & Hdw & Hs & Hcases).
  destruct (Hc _ _ _ Hdw Hs) as [Hin Hq]. destruct (flow_dst _ _ _ _ _ _ _ Hw Hf Hdw) as (Hi & Hqf & _). rewrite (flow_ended _ _ _ _ Hf Hin) in Hqf.
  destruct Hcases as [[E Hn]|[?|[E ->]]].
  - rewrite Hn, E. done.
  - congruence.
  - cbn. split; [done|congruence].
Qed.

Lemma closed_micros s w es w' acc : micros s w es w' → pinv w → closed w s acc → closed w' s acc.
Proof. induction 1 as [|w es w1 es' w2 H1 _ IH]; [done|]. intros. apply IH; [by eapply micro_inv|by eapply closed_micro]. Qed.

Lemma closed_micros_peer s w es w' acc rd :
  micros (peer s) w es w' → pinv w → flow w s acc rd → closed w s acc → e_term ∉ es → e_delim ∉ es →
  (∀ m, e_write m ∈ es → no_delim m) → closed w' s (puts acc es).
Proof.
  intros Hm. revert acc. induction Hm as [w|w es w1 es' w2 H1 _ IH]; intros acc Hw Hf Hc Ht Hd Hes; [done|].
  rewrite not_elem_of_app in Ht, Hd. destruct Ht, Hd. assert (∀ m, e_write m ∈ es → no_delim m) as Hes1 by (intros m ?; apply Hes; set_solver).
  unfold puts. rewrite foldl_app. apply IH; try done; [by eapply micro_inv|by eapply flow_micro_peer|by eapply closed_micro_peer|].
  intros m ?. apply Hes. set_solver.
Qed.

(** Only [terminate] asks, and only it writes a delimiter. *)
Lemma obs_term t o r w es : obs t o r w es → (e_term ∈ es ∨ e_delim ∈ es) → ∃ d, o = op_terminate d.
Proof.
  intros H Hin. destruct o; cbn in H; try (by destruct_or?; subst; set_unfold in Hin; naive_solver).
  - destruct H as (m & _ & ->). rewrite !list_elem_of_fmap in Hin. naive_solver.
  - destruct H as ([] & _ & ->); set_unfold in Hin; naive_solver.
  - destruct H as (_ & k & ->). rewrite !elem_of_replicate in Hin. naive_solver.
Qed.

Lemma closed_op s w es w' acc rd o r :
  pinv w → flow w s acc rd → closed w s acc → micros (peer s) w es w' → obs (peer s) o r w' es → sends_delimiter o = false →
  closed w' s (puts acc es).
Proof.
  intros Hw Hf Hc Hm Ho Hsd. pose proof (micros_inv _ _ _ _ Hm Hw) as Hw'.
  assert (∀ m, e_write m ∈ es → no_delim m) as Hnd by (intros m Hin; destruct (obs_writes _ _ _ _ _ _ Ho Hin) as (-> & _); done).
  pose proof (flow_micros_peer _ _ _ _ _ _ Hm Hw Hf Hnd) as Hf'.
  assert (e_term ∉ es ∧ e_delim ∉ es ∨ ∃ d, o = op_terminate d) as [[? ?]|[d ->]].
  { destruct o; try (left; split; intros Hin; by destruct (obs_term _ _ _ _ _ Ho ltac:(auto))). eauto. }
  { by eapply closed_micros_peer. }
  cbn in Ho. destruct Ho as (_ & [-> |(es' & -> & [[-> Hno]|(Hset & Hfl & k & ->)])]).
  - eapply closed_micros_peer; try done; set_solver.
  - intros pw n q (He & Hou & _). by rewrite (Hno pw He) in Hou.
  - intros pw n q Hd Hst. split; [unfold puts; cbn; rewrite foldl_app; cbn; set_solver|].
    rewrite (Hfl _ _ _ Hd), (Hset _ _ _ Hd).
    by destruct (flow_dst _ _ _ _ _ _ _ Hw' Hf' Hd) as (-> & _).
Qed.

(** ** Nothing ends that nobody asked to end *)

Definition calm (w : pair) : Prop := ∀ s, ∃ p, ends w s = Some p ∧ state p = active.

Lemma calm_no_term w s l c : pinv w → calm w → cmds w s = c :: l → c ≠ pipe_term ∧ c ≠ pipe_term_ack.
Proof.
  intros Hw Hc Hl. destruct (Hc s) as (p & He & Hst). destruct (Hc (peer s)) as (p' & He' & Hst').
  pose proof (pv_cmds _ Hw _ _ He) as Ht. rewrite Hl, He' in Ht. cbn in Ht. unfold received, asked_st, acked_st in Ht. rewrite Hst, Hst' in Ht.
  destruct c; try done; cbn in Ht.
  - apply track_asked in Ht as [? _]. done.
  - apply track_acked in Ht as [_ ?]. done.
Qed.

Lemma calm_micro s w es w' acc rd :
  pinv w → flow w s acc rd → calm w → micro s w es w' → e_term ∉ es → calm w'.
Proof.
  intros Hw Hf Hc Hm Ht. destruct (Hc s) as (p & He & Hst).
  assert (∃ p', ends w' s = Some p' ∧ state p' = active) as Hs.
  2:{ intros t. destruct (side_cases t s) as [->| ->]; [done|]. rewrite (micro_other _ _ _ _ Hm). apply Hc. }
  destruct Hm as [? ? H|? ? H|? ? H|? ? H].
  - destruct H as [p0 n q (He0 & _) Hr Hq|p0 n q m (He0 & _) Hr Hit Hcr|p0 n q m (He0 & _) Hr Hit Hcr Hd|p0 n q m Hs Hst0 Hit Hd|p0 n q m (He0 & _) Hst0 Hit Hd];
      try (assert (p0 = p) as -> by congruence; ifs; eexists; split; [done|]; cbn; congruence).
    { assert (p0 = p) as -> by congruence. exists (read_one m p). split; [by ifs|]. unfold read_one. by destruct (counted m). }
    exfalso. destruct (flow_at_delimiter _ _ _ _ _ _ _ _ Hf Hs Hit Hd) as (_ & _ & Hno).
    destruct (Hc (peer s)) as (p' & He' & Hst'). eapply Hno; [done|by left].
  - destruct H as [p0 He0 _ _|p0 n q m (He0 & _) _ _ _|p0 n q (He0 & _) _|p0 n q (He0 & _) _|p0 n q (He0 & _) _ _];
      assert (p0 = p) as -> by congruence; ifs; eexists; (split; [done|]); unfold wrote_one; try destruct (counted m); done.
  - destruct H as [p0 He0 _|p0 b He0|p0 h l i o He0|p0 He0 _|p0 He0 _ _|p0 He0 _]; try set_solver;
      assert (p0 = p) as -> by congruence; ifs; by eexists.
  - destruct H as [p0 l He0 Hl|p0 l k He0 Hl|p0 o l n k He0 _ Hl|p0 l He0 Hl _ _|p0 l st He0 Hl _|p0 n l He0 _ Hl];
      destruct (calm_no_term _ _ _ _ Hw Hc Hl) as [? ?]; try done; assert (p0 = p) as -> by congruence; cbv zeta;
      try set (b := negb _ && _); ifs; by eexists.
Qed.

Lemma calm_micros s w es w' acc rd :
  micros s w es w' → pinv w → flow w s acc rd → calm w → e_term ∉ es → e_hiccup ∉ es → calm w'.
Proof.
  intros Hm. revert rd. induction Hm as [w|w es w1 es' w2 H1 _ IH]; intros rd Hw Hf Hc Ht Hh; [done|].
  rewrite not_elem_of_app in Ht, Hh. destruct Ht, Hh. eapply IH; try done; [by eapply micro_inv|by eapply flow_micro|by eapply calm_micro].
Qed.

(** ** Quiescence *)

Definition no_hiccups (x : side * pop) : Prop := sends_delimiter x.2 = false ∧ x.2 ≠ op_hiccup.

Definition quiet_inv (w : pair) (rs : list (side * pop * pres)) : Prop :=
  (∀ s, ∃ acc rd, flow w s acc rd ∧ closed w s acc) ∧ (∀ s, woken w s) ∧
  (∀ s d, (s, op_terminate d) ∈ rs.*1 → ∀ p, ends w s = Some p → ¬ open_st p) ∧
  ((∀ s d, (s, op_terminate d) ∉ rs.*1) → calm w).

Lemma quiet_op w rs t o p r w' es :
  pinv w → quiet_inv w rs → no_hiccups (t, o) → ends w t = Some p →
  micros t w es w' → obs t o r w' es → pinv w' → quiet_inv w' (rs ++ [(t, o, r)]).
Proof.
  intros Hw (Hf & Hk & Ht & Hq) [Hsd Hh] He Hm Ho Hw'. cbn in Hsd, Hh. split_and!.
  - intros s. destruct (Hf s) as (acc & rd & Hfl & Hc). destruct (side_cases t s) as [->| ->].
    + exists acc, (rd ++ takes es). split; [|by eapply closed_micros]. eapply flow_micros; try done. by eapply obs_no_hiccup.
    + exists (puts acc es), rd. split; [|by apply (closed_op s w es w' acc rd o r)]. eapply flow_micros_peer; try done.
      intros m Hin. destruct (obs_writes _ _ _ _ _ _ Ho Hin) as (-> & _). done.
  - intros s. destruct (side_cases t s) as [->| ->]; by eapply woken_micros.
  - intros s d. rewrite fmap_app, elem_of_app. intros Hin. destruct (side_cases t s) as [->| ->].
    + destruct Hin as [Hin|[= <-]%list_elem_of_singleton]; [|apply Ho]. eapply micros_closed; [done|]. exact (Ht _ _ Hin).
    + pose proof (micros_other _ _ _ _ Hm) as E. rewrite peer_peer in E. rewrite E.
      destruct Hin as [Hin|[= E' _]%list_elem_of_singleton]; [exact (Ht _ _ Hin)|]. by destruct s.
  - rewrite fmap_app. intros Hno. destruct (Hf t) as (acc & rd & Hfl & _). eapply calm_micros; try done.
    + apply Hq. intros s d Hin. apply (Hno s d). set_solver.
    + intros Hin. destruct (obs_term _ _ _ _ _ Ho (or_introl Hin)) as [d ->]. apply (Hno t d). set_solver.
    + by eapply obs_no_hiccup.
Qed.

Lemma closed_start hwm0 hwm1 s : closed (pipepair hwm0 hwm1) s [].
Proof. intros pw n q (He & _). destruct s; cbn in He; by injection He as <-. Qed.
Lemma woken_start hwm0 hwm1 s : woken (pipepair hwm0 hwm1) s.
Proof. intros p n q (He & _) _. destruct s; cbn in He; by injection He as <-. Qed.

(** The states two ends can be in when no command is under way. *)
Lemma idle_states w s p :
  pinv w → (∀ s, cmds w s = []) → ends w s = Some p →
  ∃ p', ends w (peer s) = Some p' ∧ received p = asked_st p' ∧ received p' = asked_st p ∧ acked_st p = false ∧ acked_st p' = false.
Proof.
  intros Hw Hc He. pose proof (pv_cmds _ Hw _ _ He) as Ht. rewrite Hc in Ht. injection Ht as Hr Ha.
  destruct (ends w (peer s)) as [p'|] eqn:He'; [|done]. pose proof (pv_cmds _ Hw _ _ He') as Ht.
  rewrite Hc, peer_peer, He in Ht. injection Ht as Hr' Ha'. cbn in *. eauto 10.
Qed.

(** An end that waits for the delimiter has not read it yet. *)
Lemma waiting_has_input w s acc rd p p' :
  pinv w → flow w s acc rd → closed w s acc → woken w s → (∀ s, cmds w s = []) →
  ends w s = Some p → state p = waiting_for_delimiter → ends w (peer s) = Some p' → state p' = term_req_sent1 → in_active p = true.
Proof.
  intros Hw Hf Hcl Hk Hc He Hst He' Hst'. destruct (in_active p) eqn:Hia; [done|]. exfalso.
  destruct (in_pipe _ Hw _ _ He) as (n & q & Hsrc & _).
  destruct (Hk _ _ _ Hsrc (or_intror Hst) Hia) as [[_ Hrw]|Hin]; [|rewrite Hc in Hin; by apply not_elem_of_nil in Hin].
  destruct (outpipe p') as [n'|] eqn:Ho.
  2:{ apply (pv_out _ Hw _ _ He') in Ho. unfold acked_st in Ho. by rewrite Hst' in Ho. }
  destruct (out_pipe _ Hw _ _ _ He' Ho) as (q' & Hd & _). destruct (Hcl _ _ _ Hd Hst') as [Hin Hlen].
  destruct (dst_src _ Hw _ _ _ _ _ _ _ Hsrc Hd (fl_hic _ _ _ _ Hf)) as [-> ->].
  destruct (fl_src _ _ _ _ Hf _ _ _ Hsrc) as (_ & _ & _ & Hnd & _). specialize (Hnd (or_intror Hst)).
  rewrite Hrw, Hlen, take_ge, Forall_forall in Hnd by done. by apply Hnd in Hin.
Qed.

Lemma idle_open w rs s p :
  pinv w → quiet_inv w rs → (∀ s, cmds w s = []) →
  (∀ s p, ends w s = Some p → state p = waiting_for_delimiter → in_active p = false) →
  ends w s = Some p → state p = active.
Proof.
  intros Hw (Hfs & Hk & _ & _) Hc Hin He. destruct (idle_states _ _ _ Hw Hc He) as (p' & He' & H1 & H2 & H3 & H4).
  destruct (Hfs s) as (acc & rd & Hf & Hcl). unfold received, asked_st, acked_st in *. destruct (state p) eqn:Hst; try done.
  - exfalso. destruct (in_pipe _ Hw _ _ He) as (n & q & Hsrc & _). destruct (fl_src _ _ _ _ Hf _ _ _ Hsrc) as (_ & _ & _ & _ & Hd).
    apply Hd; [done|]. destruct (fl_shape _ _ _ _ Hf) as (u & d & Ea & Hu & _ & Ho). rewrite Ea, (Ho p' He'), app_nil_r.
    + by apply Forall_take.
    + unfold open_st. by destruct (state p'); auto.
  - exfalso. assert (state p' = term_req_sent1) as Hst' by by destruct (state p').
    pose proof (waiting_has_input _ _ _ _ _ _ Hw Hf Hcl (Hk s) Hc He Hst He' Hst'). by rewrite (Hin s p He Hst) in H.
  - exfalso. assert (state p' = waiting_for_delimiter) as Hst' by by destruct (state p').
    destruct (Hfs (peer s)) as (acc' & rd' & Hf' & Hcl').
    pose proof (waiting_has_input w (peer s) acc' rd' p' p Hw Hf' Hcl' (Hk (peer s)) Hc He' Hst') as H.
    rewrite peer_peer in H. specialize (H He Hst). by rewrite (Hin (peer s) p' He' Hst') in H.
Qed.

Lemma run_pops_ops ops w rs w' : run_pops ops w = Ok (rs, w') → rs.*1 = ops.
Proof.
  revert w rs. induction ops as [|[s o] ops IH]; intros w rs H; cbn in H; [by injection H as <- _|].
  inv_run. cbn. f_equal. by eapply IH.
Qed.

(** C9: The shutdown of a pipe never gets stuck half-way, as long as no hiccup is
    involved: whenever no command is under way any more, and an end that waits for the
    delimiter has been read until it had nothing more to read, both ends of a pipe are
    gone if the owner of one of them has asked it to terminate. If no owner has, both
    ends are there and active, whatever else was done. *)
Theorem shutdown_completes hwm0 hwm1 ops :
  Forall no_hiccups ops →
  ∃ rs w, run_pops ops (pipepair hwm0 hwm1) = Ok (rs, w) ∧
    ((∃ s d, (s, op_terminate d) ∈ ops) → (∀ s, cmds w s = []) →
     (∀ s p, ends w s = Some p → state p = waiting_for_delimiter → in_active p = false) → ∀ s, ends w s = None) ∧
    ((∀ s d, (s, op_terminate d) ∉ ops) → ∀ s, ∃ p, ends w s = Some p ∧ state p = active).
Proof.
  intros Hok. destruct (run_pops_inv no_hiccups quiet_inv ops (pipepair hwm0 hwm1) []) as (rs & w & Hrun & Hw & HJ); try done.
  - intros w rs t o Hw (Hf & Hk & Ht & Hq) _ He. unfold quiet_inv. rewrite fmap_app. split_and!; [done..| |].
    + intros s d [Hin|[= -> <-]%list_elem_of_singleton]%elem_of_app; [exact (Ht _ _ Hin)|]. by rewrite He.
    + intros Hno. apply Hq. intros s d Hin. apply (Hno s d). set_solver.
  - intros w rs t o p r w' es Hw HJ Ho He Hm Hob Hw'. exact (quiet_op _ _ _ _ _ _ _ _ Hw HJ Ho He Hm Hob Hw').
  - apply pinv_start.
  - split_and!; [|apply woken_start|set_solver|intros _ []; cbn; by eexists].
    intros s. exists [], []. split; [apply flow_start|apply closed_start].
  - exists rs, w. split; [done|]. rewrite <- (run_pops_ops _ _ _ _ Hrun). split; [|by apply HJ].
    intros (s & d & Hin) Hc Ha t. destruct (ends w t) as [p|] eqn:He; [|done]. exfalso.
    destruct (idle_states _ _ _ Hw Hc He) as (p' & He' & _).
    assert (∃ p0, ends w s = Some p0) as [p0 He0] by (destruct (side_cases s t) as [->| ->]; by eauto).
    destruct HJ as (Hf & Hk & Ht & Hq). eapply (Ht _ _ Hin); [done|]. left. by eapply idle_open.
Qed.

(** The pipe of the example above: both ends end. *)
Lemma shutdown_completes_witness :
  ∃ rs w, run_pops parting (pipepair 2 2) = Ok (rs, w) ∧ ∀ s, ends w s = None.
Proof.
  destruct (shutdown_completes 2 2 parting) as (rs & w & Hrun & Hend & _).
  { repeat (constructor; [by split|]). constructor. }
  exists rs, w. split; [done|]. vm_compute in Hrun. injection Hrun as _ <-. apply Hend.
  - exists right_end, true. unfold parting. set_solver.
  - by intros [].
  - by intros [].
Defined.

(** ** A hiccup that crosses the request to terminate *)

(** The end waits for a delimiter on a ypipe to which none was written, and the other end
    for the acknowledgement. *)
Definition stuck (w : pair) (s : side) : Prop := ∃ p p' n q,
  src w s p n q ∧ state p = waiting_for_delimiter ∧ delay p = true ∧
  dst w (peer s) p' n q ∧ state p' = term_req_sent1 ∧ q_items q = [] ∧ payloads (cmds w (peer s)) = [].

Lemma empty_queue q : qwf q → q_items q = [] → q_f q = 0%nat ∧ q_w q = 0%nat ∧ q_r q = 0%nat.
Proof. intros [] E. rewrite E in *. cbn in *. lia. Qed.

(** The commands that may be under way change nothing. *)
Lemma stuck_cmds w s : pinv w → stuck w s →
  (∀ t l c, cmds w t = c :: l → match c with activate_read | activate_write _ => True | _ => False end).
Proof.
  intros Hw (p & p' & n & q & (He & _) & Hst & Hd & (He' & _) & Hst' & Hi & Hp) t l c Hc.
  pose proof (pv_cmds _ Hw _ _ He) as T. pose proof (pv_cmds _ Hw _ _ He') as T'. rewrite peer_peer, He in T'. rewrite He' in T.
  cbn in T, T'. unfold received, asked_st, acked_st in T, T'. rewrite Hst, Hst' in T, T'.
  destruct (side_cases t s) as [->| ->]; rewrite Hc in *; destruct c; try done; cbn in T, T', Hp; try done.
  - by apply track_acked in T as [_ ?].
  - by apply track_asked in T' as [? _].
  - by apply track_acked in T' as [_ ?].
Qed.

Lemma stuck_micro_own s w es w' :
  pinv w → stuck w s → micro s w es w' → e_delay false ∉ es → stuck w' s.
Proof.
  intros Hw Hs Hm Hes. pose proof (stuck_cmds _ _ Hw Hs) as Hcm.
  destruct Hs as (p & p' & n & q & Hsrc & Hst & Hd & Hdst & Hst' & Hi & Hp).
  pose proof Hsrc as (He & Hin & Hn). pose proof Hdst as (He' & Ho & _).
  destruct (empty_queue q) as (Hf & Hqw & Hr); [by eapply pv_q|done|].
  assert (∀ w1 p1 q1, ends w1 = upd s (Some p1) (ends w) → upipes w1 !! n = Some q1 → q_items q1 = [] → payloads (cmds w1 (peer s)) = [] →
    state p1 = waiting_for_delimiter → delay p1 = true → inpipe p1 = Some n → stuck w1 s) as Hgo.
  { intros w1 p1 q1 E1 E2 E3 E4 E5 E6 E7. exists p1, p', n, q1. unfold src, dst. rewrite E1, sel_upd, sel_upd_peer. split_and!; done. }
  destruct Hm as [? ? H|? ? H|? ? H|? ? H].
  - destruct H as [p0 n0 q0 Hs0 Hr0 Hq0|p0 n0 q0 m Hs0 Hr0 Hit Hcr|p0 n0 q0 m Hs0 Hr0 Hit Hcr Hdm|p0 n0 q0 m Hs0 Hst0 Hit Hdm|p0 n0 q0 m Hs0 Hst0 Hit Hdm];
      destruct Hs0 as (He0 & Hi0 & Hn0); assert (p0 = p) as -> by congruence; assert (n0 = n) as -> by congruence; assert (q0 = q) as -> by congruence;
      try (exfalso; destruct Hit as [Hlt _]; lia).
    by eapply (Hgo _ (set_in_active false p) (q_sleep q)); try done; cbn; rewrite ?lookup_insert_eq.
  - destruct H as [p0 He0 Hst0 Hh|p0 n0 q0 m Hd0 Hst0 Hoa Hh|p0 n0 q0 Hd0 Hq0|p0 n0 q0 Hd0 Hq0|p0 n0 q0 Hd0 Hst0 Hq0];
      try (pose proof (src_dst_ne _ Hw _ _ _ _ _ _ _ Hsrc Hd0) as Hne; destruct Hd0 as (He0 & Ho0 & Hn0));
      assert (p0 = p) as -> by congruence; try congruence;
      eapply (Hgo _ p q); try done; ifs; rewrite ?lookup_insert_ne by done; try done; try (by rewrite <- He, upd_sel); try (by rewrite payloads_app, Hp).
  - destruct H as [p0 He0 Hst0|p0 b He0|p0 h l i o He0|p0 He0 Hst0|p0 He0 Hst0 Hde|p0 He0 Hst0]; assert (p0 = p) as -> by congruence; try congruence.
    + destruct b; [|set_solver]. by eapply (Hgo _ (set_delay true p) q).
    + by eapply (Hgo _ (set_marks h l (set_boosts i o p)) q).
    + destruct Hst0; congruence.
    + by eapply (Hgo _ (set_out_active false p) q).
  - destruct H as [p0 l He0 Hl|p0 l k He0 Hl|p0 o l n0 k He0 _ Hl|p0 l He0 Hl _ _|p0 l st He0 Hl _|p0 n0 l He0 _ Hl];
      pose proof (Hcm _ _ _ Hl) as Hc; try done; assert (p0 = p) as -> by congruence; cbv zeta; set (b := negb _ && _).
    + eapply (Hgo _ (set_in_active (b || in_active p) p) q); try done; ifs; done.
    + eapply (Hgo _ (set_out_active (b || out_active p) (set_peers_msgs_read k p)) q); try done; ifs; done.
Qed.

Lemma stuck_micro_peer s w es w' :
  pinv w → stuck w s → micro (peer s) w es w' → e_delim ∉ es → stuck w' s ∧ e_term ∉ es.
Proof.
  intros Hw Hs Hm Hes. pose proof (stuck_cmds _ _ Hw Hs) as Hcm.
  destruct Hs as (p & p' & n & q & Hsrc & Hst & Hd & Hdst & Hst' & Hi & Hp).
  pose proof Hsrc as (He & Hin & Hn). pose proof Hdst as (He' & Ho & _).
  destruct (empty_queue q) as (Hf & Hqw & Hr); [by eapply pv_q|done|].
  assert (∀ w1 p1, ends w1 = upd (peer s) (Some p1) (ends w) → upipes w1 = upipes w → payloads (cmds w1 (peer s)) = [] →
    state p1 = term_req_sent1 → outpipe p1 = Some n → stuck w1 s) as Hgo.
  { intros w1 p1 E1 E2 E3 E4 E5. exists p, p1, n, q. unfold src, dst. rewrite E1, E2, sel_upd, sel_upd_peer'. split_and!; done. }
  destruct Hm as [? ? H|? ? H|? ? H|? ? H].
  - exfalso. destruct H as [p0 n0 q0 (He0 & _) Hr0 _|p0 n0 q0 m (He0 & _) Hr0 _ _|p0 n0 q0 m (He0 & _) Hr0 _ _ _|p0 n0 q0 m (He0 & _) Hr0 _ _|p0 n0 q0 m (He0 & _) Hr0 _ _];
      assert (p0 = p') as -> by congruence; unfold in_reading in *; destruct_or?; congruence.
  - exfalso. destruct H as [p0 He0 Hst0 Hh|p0 n0 q0 m (He0 & _) Hst0 Hoa Hh|p0 n0 q0 (He0 & Ho0 & Hn0) Hq0|p0 n0 q0 (He0 & Ho0 & Hn0) Hq0|p0 n0 q0 Hd0 Hst0 Hq0];
      [..|set_solver]; assert (p0 = p') as -> by congruence; try congruence; assert (n0 = n) as -> by congruence; assert (q0 = q) as -> by congruence.
    rewrite Hi in Hq0. by rewrite Hf in Hq0.
  - destruct H as [p0 He0 Hst0|p0 b He0|p0 h l i o He0|p0 He0 Hst0|p0 He0 Hst0 Hde|p0 He0 Hst0]; assert (p0 = p') as -> by congruence; try congruence.
    + split; [|set_solver]. by eapply (Hgo _ (set_delay b p')).
    + split; [|set_solver]. by eapply (Hgo _ (set_marks h l (set_boosts i o p'))).
    + destruct Hst0; congruence.
  - destruct H as [p0 l He0 Hl|p0 l k He0 Hl|p0 o l n0 k He0 _ Hl|p0 l He0 Hl _ _|p0 l st He0 Hl _|p0 n0 l He0 _ Hl];
      pose proof (Hcm _ _ _ Hl) as Hc; try done; (split; [|set_solver]); assert (p0 = p') as -> by congruence; cbv zeta; set (b := negb _ && _);
      rewrite Hl in Hp.
    + eapply (Hgo _ (set_in_active (b || in_active p') p')); ifs; done.
    + eapply (Hgo _ (set_out_active (b || out_active p') (set_peers_msgs_read k p'))); ifs; done.
Qed.

Lemma stuck_micros_own s w es w' : micros s w es w' → pinv w → stuck w s → e_delay false ∉ es → stuck w' s.
Proof.
  induction 1 as [|w es w1 es' w2 H1 _ IH]; [done|]. rewrite not_elem_of_app. intros ? ? [? ?].
  apply IH; [by eapply micro_inv|by eapply stuck_micro_own|done].
Qed.

(** A delimiter would come only after a new request to terminate. *)
Lemma stuck_micros_peer s w es w' :
  micros (peer s) w es w' → pinv w → stuck w s → (∀ es1 es2, es = es1 ++ e_delim :: es2 → e_term ∈ es1) → stuck w' s.
Proof.
  induction 1 as [|w es w1 es' w2 H1 _ IH]; [done|]. intros Hw Hs Hes.
  assert (e_delim ∉ es) as Hd.
  { assert (es = [e_delim] ∨ e_delim ∉ es) as [->|?]; [|exfalso|done].
    - destruct H1 as [? ? H|? ? H|? ? H|? ? H]; destruct H; first [by left|right; set_solver].
    - specialize (Hes [] es' eq_refl). set_solver. }
  destruct (stuck_micro_peer _ _ _ _ Hw Hs H1 Hd) as [Hs1 Ht]. apply IH; [by eapply micro_inv|done|].
  intros es1 es2 ->. specialize (Hes (es ++ es1) es2). rewrite (assoc_L (++)) in Hes. specialize (Hes eq_refl). set_solver.
Qed.

Lemma obs_delim t o r w es es1 es2 : obs t o r w es → es = es1 ++ e_delim :: es2 → e_term ∈ es1.
Proof.
  intros Ho E. assert (e_delim ∈ es) as Hin by (rewrite E; set_solver). destruct (obs_term _ _ _ _ _ Ho (or_intror Hin)) as [d ->].
  cbn in Ho. destruct Ho as (_ & [-> |(es' & -> & _)]); [set_solver|].
  destruct es1 as [|x [|y es1]]; injection E; [done|done|]. intros; subst. set_solver.
Qed.

Definition told_to_wait (s : side) (x : side * pop) : Prop := x ≠ (s, op_set_nodelay) ∧ x ≠ (s, op_terminate false).

Lemma obs_wait s o r w es : obs s o r w es → told_to_wait s (s, o) → e_delay false ∉ es.
Proof.
  intros H [H1 H2]. destruct o; cbn in H; try done; try (by destruct_or?; subst; set_unfold; naive_solver).
  - destruct H as (m & _ & ->). intros (? & ? & _)%list_elem_of_fmap. done.
  - destruct H as ([] & _ & ->); set_unfold; naive_solver.
  - destruct H as (_ & k & ->). intros [? _]%elem_of_replicate. done.
  - destruct delay_; [|done]. destruct H as (_ & [-> |(es' & -> & [[-> _]|(_ & _ & k & ->)])]); [set_unfold; naive_solver..|].
    rewrite !elem_of_cons, elem_of_app, elem_of_replicate, elem_of_cons, elem_of_nil. naive_solver.
Qed.

Lemma run_pops_app l1 l2 w rs1 w1 rs2 w2 :
  run_pops l1 w = Ok (rs1, w1) → run_pops l2 w1 = Ok (rs2, w2) → run_pops (l1 ++ l2) w = Ok (rs1 ++ rs2, w2).
Proof.
  revert w rs1. induction l1 as [|[s o] l1 IH]; intros w rs1 H1 H2; cbn in H1; [by injection H1 as <- ->|].
  inv_run. cbn. erewrite bind_run by done. by erewrite bind_run by (by eapply IH).
Qed.

(** The left end asks for a new ypipe while the right end is asked to terminate. *)
Definition crossing : list (side * pop) :=
  [(left_end, op_hiccup); (right_end, op_terminate true); (right_end, op_command); (left_end, op_command)].

(** C21: A hiccup that crosses a request to terminate makes the pipe hang: the delimiter
    goes to the ypipe that the hiccup gives up, and [process_hiccup] throws it away with
    that ypipe. Whatever the owners do after that, as long as the one of the left end does
    not tell it to drop what is under way, the left end waits for the delimiter and the
    right end for the acknowledgement. *)
Theorem hiccup_loses_the_delimiter hwm0 hwm1 ops :
  Forall (told_to_wait left_end) ops →
  ∃ rs w p p', run_pops (crossing ++ ops) (pipepair hwm0 hwm1) = Ok (rs, w) ∧
    ends w left_end = Some p ∧ state p = waiting_for_delimiter ∧
    ends w right_end = Some p' ∧ state p' = term_req_sent1.
Proof.
  intros Hok.
  destruct (run_pops_inv (λ _, True) (λ _ _, True) crossing (pipepair hwm0 hwm1) []) as (rs0 & w0 & Hrun0 & Hw0 & _);
    [done|done|apply pinv_start|done|by apply Forall_true|].
  assert (stuck w0 left_end) as Hs0.
  { clear Hw0. unfold pipepair, new_pipe in Hrun0. revert Hrun0. generalize (compute_lwm hwm0) (compute_lwm hwm1). intros l0 l1 Hrun0.
    vm_compute in Hrun0. injection Hrun0 as _ <-. eexists _, _, 2%N, _. split_and!; done. }
  destruct (run_pops_inv (told_to_wait left_end) (λ w _, stuck w left_end) ops w0 []) as (rs & w & Hrun & Hw & Hs); try done.
  - intros w rs t o p r w' es Hw Hs Ho He Hm Hob _. destruct (side_cases t left_end) as [->| ->].
    + eapply stuck_micros_own; try done. by eapply obs_wait.
    + eapply stuck_micros_peer; try done. intros es1 es2. by eapply obs_delim.
  - destruct Hs as (p & p' & n & q & (? & _) & ? & _ & (? & _) & ? & _). exists (rs0 ++ rs), w, p, p'.
    split_and!; try done. by eapply run_pops_app.
Qed.

(** Reading again and again does not help. *)
Lemma hiccup_loses_the_delimiter_witness :
  ∃ rs w p p', run_pops (crossing ++ [(left_end, op_read); (left_end, op_command); (right_end, op_command); (left_end, op_terminate true);
                                      (left_end, op_read); (right_end, op_terminate false)]) (pipepair 10 10) = Ok (rs, w) ∧
    ends w left_end = Some p ∧ state p = waiting_for_delimiter ∧
    ends w right_end = Some p' ∧ state p' = term_req_sent1.
Proof. apply hiccup_loses_the_delimiter. repeat (constructor; [done|]). constructor. Defined.
