(* ===== verification/ZmqPipeMarks.v ===== *)
(** * High water marks (libzmq/src, pipe.cpp)

    How many messages a pipe holds, and that a writer that was stopped at the high water
    mark is woken again: the low water marks at which the reader reports, the counters
    that wrap around at 64 bits, and what a credential does to them. *)

From stdpp Require Import base tactics list numbers gmap strings.
From S2P Require Import Prelude ZmqWire ZmqYpipe ZmqYpipeSpec ZmqPipe ZmqPipeSpec ZmqPipeFlow ZmqPipeEnd.

Local Open Scope Z_scope.

(** The messages the marks are about: a last part, which is not an identity. *)
Definition weighs (m : pmsg) : Prop := counted m = true ∧ pm_delimiter m = false.
#[global] Instance weighs_dec m : Decision (weighs m).
Proof. apply _. Defined.
Definition cnt (l : list pmsg) : Z := Z.of_nat (length (filter weighs l)).

Lemma cnt_app l l' : cnt (l ++ l') = cnt l + cnt l'.
Proof. unfold cnt. rewrite filter_app, length_app. lia. Qed.
Lemma cnt_nonneg l : 0 ≤ cnt l.
Proof. unfold cnt. lia. Qed.
Lemma cnt_one m : no_delim m → cnt [m] = if counted m then 1 else 0.
Proof.
  intros H. unfold cnt. destruct (counted m) eqn:E.
  - by rewrite filter_cons_True by by split.
  - rewrite filter_cons_False; [done|]. intros [? _]. congruence.
Qed.
Lemma cnt_light l : Forall (λ m, ¬ weighs m) l → cnt l = 0.
Proof. intros H. unfold cnt. induction H as [|m l Hm _ IH]; [done|]. rewrite filter_cons_False; done. Qed.
Lemma cnt_prefix l l' : l `prefix_of` l' → cnt l ≤ cnt l'.
Proof. intros [k ->]. rewrite cnt_app. pose proof (cnt_nonneg k). lia. Qed.
Lemma cnt_goods l : cnt (goods l) ≤ cnt l.
Proof.
  induction l as [|m l IH] using rev_ind; [done|]. rewrite goods_app, !cnt_app. pose proof (cnt_nonneg [m]).
  destruct (good m) eqn:E; [rewrite (goods_good m E); lia|rewrite (goods_bad m E)]. change (cnt []) with 0. lia.
Qed.

(** Parts that are taken back do not count. *)
Lemma cnt_complete l : cnt (complete l) = cnt l.
Proof.
  induction l as [|m l IH] using rev_ind; [done|]. rewrite complete_snoc. destruct (pm_more m) eqn:E; [|done].
  rewrite cnt_app, IH, (cnt_light [m]); [lia|]. repeat constructor. unfold weighs, counted. rewrite E. naive_solver.
Qed.

(** ** The reports of the reader *)

Definition acks (l : list cmd) : list Z := omap (λ c, match c with activate_write k => Some k | _ => None end) l.
Lemma acks_app l l' : acks (l ++ l') = acks l ++ acks l'.
Proof. apply omap_app. Qed.

(** The reports under way to a writer that knows of [p] messages read: they climb up to
    what was read, [r], rounded down to the low water mark [l]. *)
Fixpoint climb (l r p : Z) (ks : list Z) : Prop :=
  match ks with
  | [] => p ≤ r ∧ (r < 2 ^ 64 → 0 < l → p = r - r mod l)
  | k :: ks => ∃ p', k = u64 p' ∧ p ≤ p' ∧ climb l r p' ks
  end.

Lemma climb_le l r p ks : climb l r p ks → p ≤ r.
Proof. revert p. induction ks as [|k ks IH]; cbn; [tauto|]. intros p (p' & _ & ? & ?%IH). lia. Qed.
Lemma climb_report l r r' p ks : climb l r p ks → r ≤ r' → (r' < 2 ^ 64 → 0 < l → r' mod l = 0) → climb l r' p (ks ++ [u64 r']).
Proof.
  intros H Hr Hm. revert p H. induction ks as [|k ks IH]; cbn; intros p.
  - intros [? _]. exists r'. split; [done|]. split; [lia|]. split; [lia|]. intros. rewrite Hm by done. lia.
  - intros (p' & ? & ? & ?). exists p'. auto.
Qed.
Lemma climb_silent l r r' p ks :
  climb l r p ks → r ≤ r' → (r' < 2 ^ 64 → 0 < l → r' - r' mod l = r - r mod l) → climb l r' p ks.
Proof.
  intros H Hr Hm. revert p H. induction ks as [|k ks IH]; cbn; intros p.
  - intros [? Hp]. split; [lia|]. intros. rewrite Hm by done. apply Hp; [lia|done].
  - intros (p' & ? & ? & ?). exists p'. auto.
Qed.

Lemma u64_sub a b : 0 ≤ a - b < 2 ^ 64 → u64 (u64 a - u64 b) = a - b.
Proof. intros H. unfold u64. rewrite <- Zminus_mod. by apply Z.mod_small. Qed.
Lemma u64_succ a : u64 (u64 a + 1) = u64 (a + 1).
Proof. unfold u64. by rewrite Zplus_mod_idemp_l. Qed.
Lemma u64_small a : 0 ≤ a < 2 ^ 64 → u64 a = a.
Proof. apply Z.mod_small. Qed.

Lemma round_succ r l : 0 < l → 0 ≤ r → (r + 1) mod l ≠ 0 → (r + 1) - (r + 1) mod l = r - r mod l.
Proof.
  intros Hl Hr Hm. pose proof (Z.div_mod r l ltac:(lia)) as E. pose proof (Z.mod_pos_bound r l Hl) as B.
  assert (r mod l + 1 ≠ l) as Hne.
  { intros E1. apply Hm. replace (r + 1) with ((r / l + 1) * l) by nia. apply Z.mod_mul. lia. }
  replace ((r + 1) mod l) with (r mod l + 1); [lia|]. symmetry. rewrite Z.mod_eq by lia.
  replace ((r + 1) / l) with (r / l); [lia|]. apply (Z.div_unique_pos _ _ _ (r mod l + 1)); lia.
Qed.

Lemma compute_lwm_bounds h : 0 < h < 2 ^ 31 - 1 → 0 < compute_lwm h ≤ h.
Proof.
  intros H. unfold compute_lwm, i32. rewrite Z.mod_small by lia. replace (h + 1 + 2 ^ 31 - 2 ^ 31) with (h + 1) by lia.
  rewrite Z.quot_div_nonneg by lia. split; [apply Z.div_str_pos; lia|]. apply Z.div_le_upper_bound; lia.
Qed.
Lemma compute_lwm_range h : compute_lwm h < 2 ^ 64.
Proof.
  unfold compute_lwm, i32. pose proof (Z.mod_pos_bound (h + 1 + 2 ^ 31) (2 ^ 32) ltac:(lia)).
  Z.to_euclidean_division_equations. lia.
Qed.

(** [check_hwm], with the counters unwound. *)
Lemma check_hwm_spec pw h w r :
  hwm pw = h → 0 < h < 2 ^ 31 → msgs_written pw = u64 w → peers_msgs_read pw = u64 r → 0 ≤ w - r ≤ h →
  check_hwm pw = (w - r <? h).
Proof.
  intros E Hh Hw Hr Hd. unfold check_hwm. rewrite E, Hw, Hr, u64_sub, (u64_small h) by lia.
  rewrite (proj2 (Z.ltb_lt 0 _)) by lia. cbn. rewrite Z.geb_leb, <- Z.ltb_antisym. done.
Qed.

(** ** The invariant *)

Record marks (w : pair) (s : side) (h : Z) (acc rd : list pmsg) : Prop := {
  mk_read p : ends w s = Some p → msgs_read p = u64 (cnt rd) ∧ lwm p = compute_lwm h;
  mk_write pw : ends w (peer s) = Some pw → hwm pw = h ∧ msgs_written pw = u64 (cnt acc) ∧
    ∃ r, peers_msgs_read pw = u64 r ∧ climb (compute_lwm h) (cnt rd) r (acks (cmds w (peer s))) ∧ cnt acc - r ≤ h ∧
      (state pw = active → out_active pw = false → cnt acc - r = h)
}.

Section marks.
Context (h : Z) (Hh : 0 < h < 2 ^ 31).

Lemma marks_same_own w w' s p p' acc rd :
  marks w s h acc rd → ends w s = Some p → ends w' s = Some p' → ends w' (peer s) = ends w (peer s) →
  msgs_read p' = msgs_read p → lwm p' = lwm p → acks (cmds w' (peer s)) = acks (cmds w (peer s)) → marks w' s h acc rd.
Proof.
  intros [Hr Hw] He He' Eo E1 E2 E3. split.
  - rewrite He'. intros x [= <-]. rewrite E1, E2. by apply Hr.
  - rewrite Eo, E3. done.
Qed.

Lemma marks_in s w es w' acc rd :
  flow w s acc rd → marks w s h acc rd → micro_in s w es w' → marks w' s h acc (rd ++ takes es).
Proof.
  intros Hf Hm H. assert (ends w' (peer s) = ends w (peer s)) as Eo by (by eapply micro_other, mu_in).
  destruct H as [p n q (He & _) Hr Hq|p n q m (He & _) Hr Hit Hcr|p n q m (He & _) Hr Hit Hcr Hd
    |p n q m (He & _) Hst Hit Hd|p n q m (He & _) Hst Hit Hd]; cbn [takes omap list_omap]; rewrite ?app_nil_r.
  - by eapply (marks_same_own w _ s p (set_in_active false p)); try done; ifs.
  - by eapply (marks_same_own w _ s p (set_credential (pm_data m) p)); try done; ifs.
  - destruct (mk_read _ _ _ _ _ Hm _ He) as [Hmr Hl]. pose proof (cnt_nonneg rd) as Hpos.
    assert (msgs_read (read_one m p) = u64 (cnt (rd ++ [m])) ∧ lwm (read_one m p) = compute_lwm h ∧ cnt rd ≤ cnt (rd ++ [m]) ≤ cnt rd + 1) as (E1 & E2 & E3).
    { rewrite cnt_app, cnt_one by done. unfold read_one. destruct (counted m); cbn; rewrite Hmr, ?u64_succ, ?Z.add_0_r; split_and!; done || lia. }
    split.
    + intros x. ifs; by intros [= <-].
    + rewrite Eo. intros pw Hpw. destruct (mk_write _ _ _ _ _ Hm _ Hpw) as (? & ? & r & ? & Hc & ? & ?). split; [done|]. split; [done|].
      exists r. split; [done|]. split; [|done]. rewrite E1. unfold fires. rewrite E1, E2. pose proof (compute_lwm_range h).
      destruct ((0 <? compute_lwm h) && (u64 (cnt (rd ++ [m])) `mod` u64 (compute_lwm h) =? 0)) eqn:Ef; cbn [wc_if]; ifs.
      * rewrite acks_app. apply (climb_report _ (cnt rd)); [done|lia|]. intros. apply andb_prop in Ef as [_ Ef].
        rewrite !u64_small in Ef by lia. by apply Z.eqb_eq.
      * apply (climb_silent _ (cnt rd)); [done|lia|]. intros ? Hlp. rewrite (proj2 (Z.ltb_lt _ _) Hlp), !u64_small in Ef by lia.
        apply Z.eqb_neq in Ef. assert (cnt (rd ++ [m]) = cnt rd ∨ cnt (rd ++ [m]) = cnt rd + 1) as [->|E] by lia; [done|].
        rewrite E in *. by apply round_succ.
  - by eapply (marks_same_own w _ s p (set_state delimiter_received p)); try done; ifs.
  - by eapply (marks_same_own w _ s p (gone term_ack_sent p)); try done; ifs; rewrite ?acks_app, ?app_nil_r.
Qed.

Lemma marks_micro s w es w' acc rd :
  flow w s acc rd → marks w s h acc rd → micro s w es w' → e_marks ∉ es → marks w' s h acc (rd ++ takes es).
Proof.
  intros Hf Hm Hmi Hes. pose proof (micro_other _ _ _ _ Hmi) as Eo. destruct Hmi as [? ? H|? ? H|? ? H|? ? H]; [by eapply marks_in|..];
    (assert (takes es = []) as -> by by destruct H); rewrite app_nil_r.
  - destruct H as [p He Hst Hhw|p n q m (He & _) Hst Hoa Hhw|p n q (He & _) Hq|p n q (He & _) Hq|p n q (He & _) Hst Hq].
    + by eapply (marks_same_own w _ s p (set_out_active false p)); try done; ifs.
    + eapply (marks_same_own w _ s p (wrote_one m p)); try done; [by ifs|unfold wrote_one; by destruct (counted m)..].
    + by eapply (marks_same_own w _ s p p).
    + eapply (marks_same_own w _ s p p); try done; ifs; by rewrite ?acks_app, ?app_nil_r.
    + by eapply (marks_same_own w _ s p p).
  - destruct H as [p He Hst|p b He|p x l i o He|p He Hst|p He Hst Hd|p He Hst]; [..|set_solver| | |].
    + eapply (marks_same_own w _ s p (set_in_active true (set_inpipe (Some (upipe_next w)) p))); try done; ifs; by rewrite ?acks_app, ?app_nil_r.
    + by eapply (marks_same_own w _ s p (set_delay b p)); try done; ifs.
    + eapply (marks_same_own w _ s p (set_out_active false (set_state term_req_sent1 p))); try done; ifs; by rewrite ?acks_app, ?app_nil_r.
    + eapply (marks_same_own w _ s p (set_out_active false (gone term_ack_sent p))); try done; ifs; by rewrite ?acks_app, ?app_nil_r.
    + by eapply (marks_same_own w _ s p (set_out_active false p)); try done; ifs.
  - destruct H as [p l He Hc|p l k He Hc|p o l n k He Ho Hc|p l He Hc Hst Hd|p l st He Hc Hst|p n l He Hi Hc].
    + cbv zeta in *. set (b := negb _ && _) in *. by eapply (marks_same_own w _ s p (set_in_active (b || in_active p) p)); try done; ifs.
    + cbv zeta in *. set (b := negb _ && _) in *.
      by eapply (marks_same_own w _ s p (set_out_active (b || out_active p) (set_peers_msgs_read k p))); try done; ifs.
    + by eapply (marks_same_own w _ s p (set_out_active true (set_outpipe (Some n) (set_msgs_written k p)))); try done; ifs.
    + by eapply (marks_same_own w _ s p (set_state waiting_for_delimiter p)); try done; ifs.
    + eapply (marks_same_own w _ s p (gone st p)); try done; ifs; by rewrite ?acks_app, ?app_nil_r.
    + destruct Hm as [_ Hw]. split; [intros x; by ifs|]. rewrite Eo. intros pw Hpw. destruct (Hw pw Hpw) as (? & ? & r & ?).
      split; [done|]. split; [done|]. exists r. ifs; by rewrite ?acks_app, ?app_nil_r.
Qed.

(** Nobody has read what was not written. *)
Lemma flow_counts w s acc rd : pinv w → flow w s acc rd → cnt rd ≤ cnt acc.
Proof.
  intros Hw Hf. assert (rd `prefix_of` goods (complete acc)) as Hp.
  { destruct (ends w s) as [p|] eqn:He; [|by apply (fl_dead _ _ _ _ Hf)].
    destruct (in_pipe _ Hw _ _ He) as (n & q & Hsrc & Hq). destruct (fl_src _ _ _ _ Hf _ _ _ Hsrc) as (Hi & Hqf & -> & _).
    by apply goods_prefix, take_complete. }
  rewrite <- (cnt_complete acc). etrans; [by apply cnt_prefix|apply cnt_goods].
Qed.

Lemma marks_same_peer w w' s pw pw' acc acc' rd :
  marks w s h acc rd → ends w (peer s) = Some pw → ends w' (peer s) = Some pw' → ends w' s = ends w s →
  hwm pw' = hwm pw → msgs_written pw' = msgs_written pw → peers_msgs_read pw' = peers_msgs_read pw →
  (state pw' = active → out_active pw' = false → state pw = active ∧ out_active pw = false) →
  acks (cmds w' (peer s)) = acks (cmds w (peer s)) → cnt acc' = cnt acc → marks w' s h acc' rd.
Proof.
  intros [Hr Hw] He He' Eo E1 E2 E3 E4 E5 E6. split; [by rewrite Eo|]. rewrite He', E5. intros x [= <-]. rewrite E1, E2, E3, E6.
  destruct (Hw _ He) as (? & ? & r & ? & ? & ? & Ha). split; [done|]. split; [done|]. exists r. split_and!; try done.
  intros Ha1 Ha2. destruct (E4 Ha1 Ha2). by apply Ha.
Qed.

Lemma marks_peer_out s w es w' acc rd :
  pinv w → flow w s acc rd → marks w s h acc rd → micro_out (peer s) w es w' → (∀ m, e_write m ∈ es → no_delim m) →
  marks w' s h (puts acc es) rd.
Proof.
  intros Hw Hf Hm H Hes. pose proof (flow_counts _ _ _ _ Hw Hf) as Hcnt.
  destruct H as [p He Hst Hhw|p n q m (He & _) Hst Hoa Hhw|p n q Hd Hq|p n q (He & _) Hq|p n q (He & _) Hst Hq].
  - destruct (mk_write _ _ _ _ _ Hm _ He) as (E1 & E2 & r & E3 & Hc & Hle & Hfull). pose proof (climb_le _ _ _ _ Hc) as Hr.
    rewrite (check_hwm_spec p h (cnt acc) r) in Hhw by (done || lia). split; [intros x; ifs; apply Hm|]. intros x. ifs. intros [= <-]. cbn.
    split; [done|]. split; [done|]. exists r. split_and!; try done. intros _ _. apply Z.ltb_ge in Hhw. lia.
  - destruct (mk_write _ _ _ _ _ Hm _ He) as (E1 & E2 & r & E3 & Hc & Hle & Hfull). pose proof (climb_le _ _ _ _ Hc) as Hr.
    rewrite (check_hwm_spec p h (cnt acc) r) in Hhw by (done || lia). apply Z.ltb_lt in Hhw.
    assert (no_delim m) as Hnd by (apply Hes; by left). split; [intros x; ifs; apply Hm|]. intros x. ifs. intros [= <-].
    change (puts acc [e_write m]) with (acc ++ [m]). rewrite cnt_app, cnt_one by done. unfold wrote_one.
    destruct (counted m); cbn; rewrite E2, ?u64_succ, ?Z.add_0_r; (split; [done|]); (split; [done|]); exists r; (split_and!; [done|done|lia|congruence]).
  - pose proof Hd as (He & _ & Hn). eapply (marks_same_peer w _ s p p); try done.
    destruct (flow_dst _ _ _ _ _ _ _ Hw Hf Hd) as (Hi & Hqf & _). rewrite Hi, Hqf in Hq. cbn.
    by rewrite <- (cnt_complete (take _ _)), complete_unput, cnt_complete.
  - eapply (marks_same_peer w _ s p p); try done; ifs; try done; by rewrite acks_app, app_nil_r.
  - eapply (marks_same_peer w _ s p p); try done. cbn. rewrite cnt_app, (cnt_light [the_delimiter]); [lia|].
    repeat constructor. by intros [_ ?].
Qed.

Lemma marks_micro_peer s w es w' acc rd :
  pinv w → flow w s acc rd → marks w s h acc rd → micro (peer s) w es w' → e_marks ∉ es → (∀ m, e_write m ∈ es → no_delim m) →
  marks w' s h (puts acc es) rd.
Proof.
  intros Hw Hf Hm Hmi Hes Hnd. pose proof (micro_other _ _ _ _ Hmi) as Eo. rewrite peer_peer in Eo. destruct Hmi as [? ? H|? ? H|? ? H|? ? H].
  - destruct (flow_peer_in _ _ _ _ _ _ Hw Hf H) as [_ ->].
    destruct H as [p n q (He & _) Hr Hq|p n q m (He & _) Hr Hit Hcr|p n q m (He & _) Hr Hit Hcr Hd
      |p n q m (He & _) Hst Hit Hd|p n q m (He & _) Hst Hit Hd].
    + by eapply (marks_same_peer w _ s p (set_in_active false p)); try done; ifs.
    + by eapply (marks_same_peer w _ s p (set_credential (pm_data m) p)); try done; ifs.
    + eapply (marks_same_peer w _ s p (read_one m p)); try done; try (unfold read_one; by destruct (counted m)); by ifs.
    + by eapply (marks_same_peer w _ s p (set_state delimiter_received p)); try done; ifs.
    + by eapply (marks_same_peer w _ s p (gone term_ack_sent p)); try done; ifs.
  - by eapply marks_peer_out.
  - destruct (flow_peer_own _ _ _ _ _ _ Hw Hf H) as [_ ->].
    destruct H as [p He Hst|p b He|p x l i o He|p He Hst|p He Hst Hd|p He Hst]; [..|set_solver| | |].
    + by eapply (marks_same_peer w _ s p (set_in_active true (set_inpipe (Some (upipe_next w)) p))); try done; ifs.
    + by eapply (marks_same_peer w _ s p (set_delay b p)); try done; ifs.
    + by eapply (marks_same_peer w _ s p (set_out_active false (set_state term_req_sent1 p))); try done; ifs.
    + by eapply (marks_same_peer w _ s p (set_out_active false (gone term_ack_sent p))); try done; ifs.
    + eapply (marks_same_peer w _ s p (set_out_active false p)); try done; ifs; try done. cbn. congruence.
  - destruct (flow_peer_cmd _ _ _ _ _ _ Hw Hf H) as [_ ->].
    destruct H as [p l He Hc|p l k He Hc|p o l n k He Ho Hc|p l He Hc Hst Hd|p l st He Hc Hst|p n l He Hi Hc].
    + cbv zeta in *. set (b := negb _ && _) in *. eapply (marks_same_peer w _ s p (set_in_active (b || in_active p) p)); try done; ifs; by rewrite ?Hc.
    + destruct (mk_write _ _ _ _ _ Hm _ He) as (E1 & E2 & r & E3 & Hcl & Hle & Hfull). rewrite Hc in Hcl. cbn in Hcl.
      destruct Hcl as (r' & -> & Hrr & Hcl). split; [intros x; ifs; apply Hm|]. cbv zeta. intros x Hx.
      assert (x = set_out_active (negb (out_active p) && bool_decide (state p = active) || out_active p) (set_peers_msgs_read (u64 r') p)) as ->
        by (revert Hx; set (b := negb _ && _); ifs; by intros [= <-]).
      cbn. split; [done|]. split; [done|]. exists r'. split; [done|]. split; [set (b := negb _ && _); ifs; done|]. split; [lia|].
      intros Ha Ho. rewrite bool_decide_true in Ho by done. by destruct (out_active p).
    + exfalso. pose proof (fl_hic _ _ _ _ Hf) as Hp. by rewrite Hc in Hp.
    + by eapply (marks_same_peer w _ s p (set_state waiting_for_delimiter p)); try done; ifs; rewrite ?Hc.
    + eapply (marks_same_peer w _ s p (gone st p)); try done; ifs; rewrite ?Hc, ?sel_upd; try done. cbn. destruct Hst as [[_ ->]|[_ ->]]; done.
    + split; [intros x; rewrite Eo; apply Hm|]. intros x. by ifs.
Qed.
End marks.

Lemma marks_micros h s w es w' acc rd :
  0 < h < 2 ^ 31 → micros s w es w' → pinv w → flow w s acc rd → marks w s h acc rd → e_marks ∉ es → e_hiccup ∉ es →
  marks w' s h acc (rd ++ takes es).
Proof.
  intros Hh Hm. revert rd. induction Hm as [w|w es w1 es' w2 H1 _ IH]; intros rd Hw Hf Hmk He Hc; [by rewrite app_nil_r|].
  rewrite not_elem_of_app in He, Hc. destruct He, Hc. unfold takes. rewrite omap_app, (assoc_L (++)).
  apply IH; [by eapply micro_inv|by eapply flow_micro|by eapply marks_micro|done|done].
Qed.

Lemma marks_micros_peer h s w es w' acc rd :
  0 < h < 2 ^ 31 → micros (peer s) w es w' → pinv w → flow w s acc rd → marks w s h acc rd → e_marks ∉ es →
  (∀ m, e_write m ∈ es → no_delim m) → marks w' s h (puts acc es) rd.
Proof.
  intros Hh Hm. revert acc. induction Hm as [w|w es w1 es' w2 H1 _ IH]; intros acc Hw Hf Hmk He Hes; [done|].
  rewrite not_elem_of_app in He. destruct He. assert (∀ m, e_write m ∈ es → no_delim m) by (intros m ?; apply Hes; set_solver).
  unfold puts. rewrite foldl_app.
  apply IH; [by eapply micro_inv|by eapply flow_micro_peer|by eapply marks_micro_peer|done|intros m ?; apply Hes; set_solver].
Qed.

(** A message is taken only while there is room for it. *)
Lemma room_for_write h s w es w' acc rd m :
  0 < h < 2 ^ 31 → micros (peer s) w es w' → pinv w → flow w s acc rd → marks w s h acc rd → es = [e_write m] →
  cnt acc < cnt rd + h.
Proof.
  intros Hh Hm. induction Hm as [w|w es w1 es' w2 H1 _ IH]; intros Hw Hf Hmk Ees; [done|].
  destruct es as [|e es].
  { apply IH; [by eapply micro_inv| | |done].
    - change acc with (puts acc []). eapply flow_micro_peer; [..|done|set_solver]; done.
    - change acc with (puts acc []). eapply marks_micro_peer; [..|set_solver|set_solver]; done. }
  injection Ees as -> _. pose proof (flow_counts _ _ _ _ Hw Hf) as Hcnt.
  inversion H1 as [? ? H|? ? H|? ? H|? ? H]; subst; [by inversion H|..|by inversion H|by inversion H].
  inversion H as [|p n q m0 (He & _) Hst Hoa Hhw| | |]; subst.
  destruct (mk_write _ _ _ _ _ Hmk _ He) as (E1 & E2 & r & E3 & Hc & Hle & Hfull). pose proof (climb_le _ _ _ _ Hc) as Hr.
  rewrite (check_hwm_spec p h (cnt acc) r) in Hhw by (done || lia). apply Z.ltb_lt in Hhw. lia.
Qed.

(** ** Runs *)

Definition keeps_marks (x : side * pop) : Prop := match x.2 with op_set_hwms _ _ | op_set_boosts _ _ => False | _ => True end.

(** The mark up to which the peer of [s] may write. *)
Definition mark_to (s : side) (hwm0 hwm1 : Z) : Z := if s is left_end then hwm1 else hwm0.

Lemma marks_start s hwm0 hwm1 : 0 < mark_to s hwm0 hwm1 → marks (pipepair hwm0 hwm1) s (mark_to s hwm0 hwm1) [] [].
Proof.
  intros Hp. split.
  - intros p He. destruct s; cbn in He; by injection He as <-.
  - intros pw He. destruct s; cbn in He; injection He as <-; (split; [done|]); (split; [done|]); exists 0; cbn in Hp;
      change (cnt []) with 0; (split; [done|]); (split; [split; [done|intros; by rewrite Zmod_0_l]|]); (split; [cbn; lia|done]).
Qed.

Lemma linked_cnt w s acc l : linked w s acc l → cnt acc = cnt l.
Proof.
  intros [(d & E & Hd) _]. rewrite <- (cnt_complete acc), E, cnt_app, cnt_complete, (cnt_light d); [lia|].
  eapply Forall_impl; [done|]. intros m ->. by intros [_ ?].
Qed.

(** How many credentials there are among the messages. *)
Definition credentials (l : list pmsg) : Z := cnt (filter (λ m, pm_credential m = true) l).

Lemma credentials_goods l : cnt l = credentials l + cnt (goods l).
Proof.
  induction l as [|m l IH]; [done|]. unfold credentials, goods in *. rewrite !filter_cons. change (m :: l) with ([m] ++ l). rewrite cnt_app, IH.
  assert (∀ (P : Prop) (d : Decision P) x, cnt (if decide P then m :: x else x) = (if decide P then cnt [m] else 0) + cnt x) as Hif.
  { intros P d x. case_decide; [|lia]. change (m :: x) with ([m] ++ x). by rewrite cnt_app. }
  rewrite !Hif. unfold good. destruct (pm_credential m), (pm_delimiter m) eqn:Ed; cbn -[cnt decide]; repeat case_decide; try done; try lia.
  rewrite (cnt_light [m]); [lia|]. repeat constructor. intros [_ ?]. congruence.
Qed.

(** Every write that comes after as many credentials as the mark allows messages is refused. *)
Definition refused (s : side) (h : Z) (rs : list (side * pop * pres)) : Prop := ∀ rs1 m b rs2,
  rs = rs1 ++ (peer s, op_write m, res_bool b) :: rs2 → h ≤ credentials (accepted (peer s) rs1) → b = false.

Definition weighed (s : side) (h : Z) (w : pair) (rs : list (side * pop * pres)) : Prop :=
  (∃ acc, flow w s acc (reads s rs) ∧ linked w s acc (accepted (peer s) rs) ∧ marks w s h acc (reads s rs)) ∧ refused s h rs ∧
  cnt (accepted (peer s) rs) ≤ cnt (reads s rs) + h.

Lemma refused_snoc s h rs x :
  refused s h rs → (∀ m, x = (peer s, op_write m, res_bool true) → credentials (accepted (peer s) rs) < h) → refused s h (rs ++ [x]).
Proof.
  intros H Hx rs1 m b rs2 E Hc. destruct rs2 as [|y rs2 _] using rev_ind.
  - apply app_inj_tail in E as [-> ->]. destruct b; [|done]. specialize (Hx m eq_refl). lia.
  - rewrite app_comm_cons, (assoc_L (++)) in E. apply app_inj_tail in E as [-> _]. by eapply H.
Qed.

Lemma obs_no_marks t o r w es : obs t o r w es → keeps_marks (t, o) → e_marks ∉ es.
Proof.
  intros H Ho. destruct o; cbn in H, Ho; try done; try (by destruct_or?; subst; set_unfold; naive_solver).
  - destruct H as (m & _ & ->). intros (? & ? & _)%list_elem_of_fmap. done.
  - destruct H as ([] & _ & ->); set_unfold; naive_solver.
  - destruct H as (_ & k & ->). intros [? _]%elem_of_replicate. done.
  - destruct H as (_ & [-> |(es' & -> & [[-> _]|(_ & _ & k & ->)])]); [set_unfold; naive_solver..|].
    rewrite !elem_of_cons, elem_of_app, elem_of_replicate, elem_of_cons, elem_of_nil. naive_solver.
Qed.

(** Only an accepted write adds to what was accepted. *)
Lemma accept1_cnt s l t o r : (∀ m, (t, o, r) ≠ (s, op_write m, res_bool true)) → cnt (accept1 s l (t, o, r)) = cnt l.
Proof.
  intros H. unfold accept1. cbn. case_decide; [subst t|done]. destruct o; try done; try (by rewrite cnt_complete).
  destruct r as [|[]|]; try done. by destruct (H m).
Qed.

Lemma weighed_op s h w rs t o p r w' es :
  0 < h < 2 ^ 31 → pinv w → weighed s h w rs → plain s (t, o) → keeps_marks (t, o) → ends w t = Some p →
  micros t w es w' → obs t o r w' es → weighed s h w' (rs ++ [(t, o, r)]).
Proof.
  intros Hh Hw ((acc & Hf & Hl & Hmk) & Hr & Hb) [Hsd Hhi] Hk He Hm Ho. pose proof (obs_no_marks _ _ _ _ _ Ho Hk) as Hem.
  unfold weighed. rewrite reads_snoc, accepted_snoc. cbn in Hsd. destruct (side_cases t s) as [->| ->].
  - assert (e_hiccup ∉ es) as Hnh by (eapply obs_no_hiccup; [done|congruence]). rewrite (reads_obs _ _ _ _ _ Ho), accepted_other. split_and!.
    + exists acc. split_and!; [by eapply flow_micros|by eapply linked_own|by eapply marks_micros].
    + apply refused_snoc; [done|]. intros m [= E _ _]. by destruct s.
    + rewrite cnt_app. pose proof (cnt_nonneg (takes es)). lia.
  - assert (∀ m, e_write m ∈ es → no_delim m) as Hnd by (intros m Hin; destruct (obs_writes _ _ _ _ _ _ Ho Hin) as (-> & _); done).
    rewrite reads_other, app_nil_r.
    assert (∀ m, (peer s, o, r) = (peer s, op_write m, res_bool true) → cnt (accepted (peer s) rs) < cnt (reads s rs) + h) as Hroom.
    { intros m [= -> ->]. destruct Ho as (b & [= <-] & Hes). rewrite <- (linked_cnt _ _ _ _ Hl). by eapply room_for_write. }
    split_and!.
    + exists (puts acc es). split_and!; [by eapply flow_micros_peer|by eapply linked_peer|by eapply marks_micros_peer].
    + apply refused_snoc; [done|]. intros m E. specialize (Hroom m E). rewrite credentials_goods in Hroom.
      assert (reads s rs `prefix_of` goods (complete (accepted (peer s) rs))) as Hp by (eapply (delivers_prefix s False); [done|]; by exists acc).
      apply cnt_prefix in Hp. pose proof (cnt_prefix _ _ (goods_prefix _ _ (complete_prefix (accepted (peer s) rs)))). lia.
    + destruct o; try (rewrite accept1_cnt by done; done). destruct r as [|[]|]; try (rewrite accept1_cnt by done; done).
      specialize (Hroom m eq_refl). unfold accept1. rewrite decide_True by done. cbn -[cnt]. rewrite cnt_app, cnt_one by done. destruct (counted m); lia.
Qed.

Lemma weighed_run s hwm0 hwm1 ops :
  0 < mark_to s hwm0 hwm1 < 2 ^ 31 → Forall (plain s) ops → Forall keeps_marks ops →
  ∃ rs w, run_pops ops (pipepair hwm0 hwm1) = Ok (rs, w) ∧ pinv w ∧ weighed s (mark_to s hwm0 hwm1) w rs.
Proof.
  intros Hh Hpl Hk.
  destruct (run_pops_inv (λ x, plain s x ∧ keeps_marks x) (weighed s (mark_to s hwm0 hwm1)) ops (pipepair hwm0 hwm1) []) as (rs & w & Hrun & Hw & HJ).
  - intros w rs t o Hw ((acc & Hf & Hl & Hm) & Hr & Hb) _ He. unfold weighed. rewrite reads_snoc, reads_dead, app_nil_r, accepted_snoc.
    split; [exists acc; split_and!; [done|by apply linked_dead|done]|]. split; [by apply refused_snoc|]. by rewrite accept1_cnt.
  - intros w rs t o p r w' es Hw HJ [Hpl' Hk'] He Hm Ho _. by eapply weighed_op.
  - apply pinv_start.
  - split_and!; [|intros rs1 m b rs2 E; by destruct rs1|cbn; lia].
    exists []. split_and!; [apply flow_start|split; [by exists []|done]|apply marks_start; lia].
  - rewrite !Forall_forall in *. auto.
  - exists rs, w. done.
Qed.

Lemma write_ready s w p m :
  pinv w → ends w s = Some p → state p = active → out_active p = true → check_hwm p = true →
  ∃ w', pipe_write s m w = Ok (true, w').
Proof.
  intros Hw He Hst Hoa Hhw. assert (pipe_check_write s w = Ok (true, w)) as Hcw.
  { unfold pipe_check_write. erewrite bind_run by (by apply get_end_run). by rewrite Hoa, bool_decide_true, Hhw. }
  destruct (write_sim s w p m Hw He) as (b & w' & Hrun & _). exists w'. rewrite Hrun. unfold pipe_write in Hrun.
  erewrite bind_run in Hrun by exact Hcw. cbn [negb] in Hrun. inv_run. done.
Qed.

(** C16: A pipe holds no more messages than the high water mark of the writer allows: the
    messages accepted (by their last part, and not counting identities) exceed those read
    by at most the mark. The counters may wrap around as often as they like. This is for
    runs in which the mark is the one the pipe was made with (no [set_hwms] and no
    [set_boosts]), in which the reader does not call [hiccup], and in which the owners
    write no delimiter of their own. *)
Theorem high_water_mark_holds s hwm0 hwm1 ops :
  0 < mark_to s hwm0 hwm1 < 2 ^ 31 → Forall (plain s) ops → Forall keeps_marks ops →
  ∃ rs w, run_pops ops (pipepair hwm0 hwm1) = Ok (rs, w) ∧
    cnt (accepted (peer s) rs) ≤ cnt (reads s rs) + mark_to s hwm0 hwm1.
Proof.
  intros Hh Hpl Hk. destruct (weighed_run s hwm0 hwm1 ops Hh Hpl Hk) as (rs & w & Hrun & _ & _ & _ & Hb). by exists rs, w.
Qed.

(** C17: A writer is not left asleep at the high water mark: when the messages it sent have
    all been read and the reports about that have arrived, an active end takes the next
    message, although the reader reports only every low water mark messages. The counter
    of the messages read must not have wrapped around, and the mark must not be the
    greatest [int]; the mark is the one the pipe was made with (no [set_hwms] and no
    [set_boosts]), the reader does not call [hiccup], and the owners write no delimiter of
    their own. *)
Theorem writer_is_woken s hwm0 hwm1 ops :
  0 < mark_to s hwm0 hwm1 < 2 ^ 31 - 1 → Forall (plain s) ops → Forall keeps_marks ops →
  ∃ rs w, run_pops ops (pipepair hwm0 hwm1) = Ok (rs, w) ∧
    ∀ pw m, ends w (peer s) = Some pw → state pw = active → cmds w (peer s) = [] →
      cnt (reads s rs) = cnt (accepted (peer s) rs) → cnt (reads s rs) < 2 ^ 64 →
      ∃ w', run_pop (peer s) (op_write m) w = Ok (res_bool true, w').
Proof.
  intros Hh Hpl Hk. destruct (weighed_run s hwm0 hwm1 ops ltac:(lia) Hpl Hk) as (rs & w & Hrun & Hw & (acc & Hf & Hl & Hmk) & _ & _).
  exists rs, w. split; [done|]. intros pw m He Hst Hc Hall Hlt. pose proof (linked_cnt _ _ _ _ Hl) as Ecnt.
  destruct (mk_write _ _ _ _ _ Hmk _ He) as (E1 & E2 & r & E3 & Hcl & Hle & Hfull). rewrite Hc in Hcl. destruct Hcl as [Hr Hround].
  pose proof (compute_lwm_bounds _ Hh) as Hl1. specialize (Hround Hlt ltac:(lia)). pose proof (cnt_nonneg (reads s rs)).
  pose proof (Z.mod_pos_bound (cnt (reads s rs)) _ (proj1 Hl1)) as Hmod.
  assert (out_active pw = true) as Hoa by (destruct (out_active pw); [done|]; specialize (Hfull Hst eq_refl); lia).
  assert (check_hwm pw = true) as Hhw by (rewrite (check_hwm_spec pw _ (cnt acc) r E1) by (done || lia); apply Z.ltb_lt; lia).
  destruct (write_ready (peer s) w pw m Hw He Hst Hoa Hhw) as [w' Hrun']. exists w'. cbn. by erewrite bind_run by exact Hrun'.
Qed.

(** C22: Credentials are counted when they are written and not when they are read. When
    as many of them were written as the high water mark allows messages, every message
    that follows is refused, although nothing is left in the pipe. This is for runs in
    which the mark stays what it was when the pipe was made (no [set_hwms] and no
    [set_boosts]), in which the reader does not call [hiccup], which would make a new pipe,
    and in which the owners write no delimiter of their own. *)
Theorem credentials_fill_the_pipe s hwm0 hwm1 ops :
  0 < mark_to s hwm0 hwm1 < 2 ^ 31 → Forall (plain s) ops → Forall keeps_marks ops →
  ∃ rs w, run_pops ops (pipepair hwm0 hwm1) = Ok (rs, w) ∧
    ∀ rs1 m b rs2, rs = rs1 ++ (peer s, op_write m, res_bool b) :: rs2 →
      mark_to s hwm0 hwm1 ≤ credentials (accepted (peer s) rs1) → b = false.
Proof.
  intros Hh Hpl Hk. destruct (weighed_run s hwm0 hwm1 ops Hh Hpl Hk) as (rs & w & Hrun & _ & _ & Hr & _). by exists rs, w.
Qed.

(** Three messages to a pipe for two: the third one is refused, and taken once the first
    two were read. *)
Definition crowd : list (side * pop) :=
  [(right_end, op_write (part 1 false)); (right_end, op_write (part 2 false)); (right_end, op_write (part 3 false));
   (right_end, op_flush); (left_end, op_read); (left_end, op_read); (right_end, op_command); (right_end, op_command)].
Definition credential_of (n : Z) : pmsg :=
  {| pm_more := false; pm_identity := false; pm_credential := true; pm_delimiter := false; pm_data := [n] |}.
Definition credential_first : list (side * pop) :=
  [(right_end, op_write (credential_of 7)); (right_end, op_flush); (left_end, op_read); (left_end, op_command);
   (right_end, op_write (part 1 false))].

Lemma high_water_mark_holds_witness :
  ∃ rs w, run_pops crowd (pipepair 2 2) = Ok (rs, w) ∧ accepted right_end rs = [part 1 false; part 2 false] ∧
    cnt (accepted right_end rs) ≤ cnt (reads left_end rs) + 2.
Proof.
  destruct (high_water_mark_holds left_end 2 2 crowd) as (rs & w & Hrun & Hb); [done|..].
  1,2: repeat (constructor; [done|]); constructor.
  exists rs, w. split; [done|]. split; [|done]. vm_compute in Hrun. injection Hrun as <- _. done.
Defined.

Lemma writer_is_woken_witness :
  ∃ rs w w', run_pops crowd (pipepair 2 2) = Ok (rs, w) ∧ run_pop right_end (op_write (part 3 false)) w = Ok (res_bool true, w').
Proof.
  destruct (writer_is_woken left_end 2 2 crowd) as (rs & w & Hrun & Hwoken); [done|..].
  1,2: repeat (constructor; [done|]); constructor.
  assert (∃ pw, ends w right_end = Some pw ∧ state pw = active ∧ cmds w right_end = [] ∧
    cnt (reads left_end rs) = cnt (accepted right_end rs) ∧ cnt (reads left_end rs) < 2 ^ 64) as (pw & H1 & H2 & H3 & H4 & H5).
  { vm_compute in Hrun. injection Hrun as <- <-. by eexists. }
  destruct (Hwoken pw (part 3 false) H1 H2 H3 H4 H5) as [w' Hw']. by exists rs, w, w'.
Defined.

Lemma credentials_fill_the_pipe_witness :
  ∃ rs w, run_pops credential_first (pipepair 1 1) = Ok (rs, w) ∧ ∃ rs1, rs = rs1 ++ [(right_end, op_write (part 1 false), res_bool false)].
Proof.
  destruct (credentials_fill_the_pipe left_end 1 1 credential_first) as (rs & w & Hrun & Hr); [done|..].
  1,2: repeat (constructor; [done|]); constructor.
  exists rs, w. split; [done|].
  assert (∃ rs1 b, rs = rs1 ++ [(right_end, op_write (part 1 false), res_bool b)] ∧ 1 ≤ credentials (accepted right_end rs1)) as (rs1 & b & E & Hc).
  { vm_compute in Hrun. injection Hrun as <- _. eexists [_; _; _; _], _. split; [reflexivity|]. done. }
  exists rs1. rewrite E. by rewrite (Hr rs1 _ b [] E Hc).
Defined.
