(* ===== verification/ZmqTrie.v ===== *)
(** * Subscriptions (libzmq/src, trie.cpp and mtrie.cpp)

    The two tries in which sockets keep subscriptions: [trie_t], a multiset of
    prefixes, and [mtrie_t], which has a set of pipes for each prefix. A node handles
    the characters from [min] to [min + count - 1]; its union [next] is a pointer to
    the only subnode if [count] is 1, and an array of [count] pointers if it is
    greater. A node owns its subnodes, so a pointer to one is the subnode itself; a
    pointer that may be null is an [option]. The two classes have the same members
    but for the first one, the reference count or the set of pipes, and where their
    text is the same so are the definitions here. The message is a list of bytes.

    Memory is always there: where it is not the program ends in [alloc_assert]. *)

From stdpp Require Import base tactics list numbers gmap sets strings.
From S2P Require Import Prelude ZmqWire.

Local Open Scope Z_scope.

(** ** Nodes *)

(** The union: nothing was stored, a pointer to a node, or one to an array. *)
Inductive next_t (N : Type) := n_unset | n_node (o : option N) | n_table (l : list (option N)).
Arguments n_unset {_}.
Arguments n_node {_} _.
Arguments n_table {_} _.

Inductive tnode (A : Type) := TNode { item : A; tmin : Z; count : Z; live_nodes : Z; next : next_t (tnode A) }.
Arguments TNode {_} _ _ _ _ _.
Arguments item {_} _.
Arguments tmin {_} _.
Arguments count {_} _.
Arguments live_nodes {_} _.
Arguments next {_} _.

Section nodes.
Context {A : Type}.
Implicit Types (t : tnode A) (o : option (tnode A)).

Definition set_item (a : A) t : tnode A := TNode a (tmin t) (count t) (live_nodes t) (next t).
Definition set_min (m : Z) t : tnode A := TNode (item t) m (count t) (live_nodes t) (next t).
Definition set_count (n : Z) t : tnode A := TNode (item t) (tmin t) n (live_nodes t) (next t).
Definition set_live (n : Z) t : tnode A := TNode (item t) (tmin t) (count t) n (next t).
Definition set_next (x : next_t (tnode A)) t : tnode A := TNode (item t) (tmin t) (count t) (live_nodes t) x.

Definition zmq_assert {S} (b : bool) : M S () := if b then mret () else throw (Fatal "Assertion failed").

(** The members of the union; the other one must not be read. *)
Definition next_node : M (tnode A) (option (tnode A)) :=
  t ← get_st; match next t with n_node o => mret o | n_unset => undefined Uninitialised | n_table _ => undefined BadCast end.
Definition next_table : M (tnode A) (list (option (tnode A))) :=
  t ← get_st; match next t with n_table l => mret l | n_unset => undefined Uninitialised | n_node _ => undefined BadCast end.

(** [next.table [i]], read and written. *)
Definition table_at (i : Z) : M (tnode A) (option (tnode A)) :=
  l ← next_table;
  if decide (0 ≤ i) then match l !! Z.to_nat i with Some o => mret o | None => undefined OutOfBounds end else undefined OutOfBounds.
Definition table_put (i : Z) o : M (tnode A) () :=
  l ← next_table;
  if decide (0 ≤ i < Z.of_nat (length l)) then modify (set_next (n_table (<[Z.to_nat i := o]> l))) else undefined OutOfBounds.

(** The slot of [c]: [next.node] or [next.table [c - min]]. *)
Definition slot_at (c : Z) : M (tnode A) (option (tnode A)) :=
  t ← get_st; if count t =? 1 then next_node else table_at (c - tmin t).
Definition slot_put (c : Z) o : M (tnode A) () :=
  t ← get_st; if count t =? 1 then modify (set_next (n_node o)) else table_put (c - tmin t) o.

(** A method of the subnode in the slot of [c]. *)
Definition on_slot {B} (c : Z) (m : M (tnode A) B) : M (tnode A) B :=
  o ← slot_at c;
  match o with
  | None => undefined NullDeref
  | Some n => match m n with Ok (b, n') => slot_put c (Some n');; mret b | Err e => throw e end
  end.

(** [c < min || c >= min + count]. *)
Definition outside (c : Z) t : bool := (c <? tmin t) || (c >=? tmin t + count t).

(** The array gets room for [c]; what is new in it is null. *)
Definition extend (c : Z) : M (tnode A) () :=
  t ← get_st;
  if negb (outside c t) then mret ()
  else if count t =? 0 then modify (set_next (n_node None) ∘ set_count 1 ∘ set_min c)
  else if count t =? 1 then
    let oldc := tmin t in
    oldp ← next_node;
    let n := u16 ((if tmin t <? c then c - tmin t else tmin t - c) + 1) in
    modify (set_next (n_table (replicate (Z.to_nat n) None)) ∘ set_count n);;
    modify (set_min (tmin t `min` c));;
    table_put (oldc - tmin t `min` c) oldp
  else if tmin t <? c then
    let old_count := count t in
    l ← next_table;
    let n := u16 (c - tmin t + 1) in
    modify (set_next (n_table (take (Z.to_nat old_count) l ++ replicate (Z.to_nat (n - old_count)) None)) ∘ set_count n)
  else
    let old_count := count t in
    l ← next_table;
    let n := u16 (tmin t + old_count - c) in
    modify (set_next (n_table (replicate (Z.to_nat (tmin t - c)) None ++ take (Z.to_nat old_count) l)) ∘ set_count n);;
    modify (set_min c).

(** The loops that look for a pointer that is not null: at the indices [f i], [f (i + 1)],
    and so on, [n] of them. *)
Fixpoint find_live (f : Z → Z) (i : Z) (n : nat) : M (tnode A) (option Z) :=
  match n with
  | O => mret None
  | S n => o ← table_at (f i); if o : option (tnode A) then mret (Some i) else find_live f (i + 1) n
  end.

(** A new array with [n] entries, copied from the old one from [off] on. *)
Definition table_move (off n : Z) : M (tnode A) () :=
  l ← next_table;
  if decide (0 ≤ off ∧ 0 ≤ n ∧ off + n ≤ Z.of_nat (length l)) then
    modify (set_next (n_table (take (Z.to_nat n) (drop (Z.to_nat off) l))))
  else undefined OutOfBounds.
End nodes.

(** ** trie_t *)

Definition trie_t : Type := tnode Z.
Definition refcnt (t : trie_t) : Z := item t.
Definition new_trie : trie_t := TNode 0 0 0 0 n_unset.

Definition trie_redundant (t : trie_t) : bool := (refcnt t =? 0) && (live_nodes t =? 0).

(** A missing subnode is made. *)
Definition trie_make (c : Z) : M trie_t () :=
  t ← get_st;
  o ← slot_at c;
  match o with
  | Some _ => mret ()
  | None =>
      slot_put c (Some new_trie);;
      modify (λ t, set_live (u16 (live_nodes t + 1)) t);;
      t ← get_st;
      zmq_assert (if count t =? 1 then live_nodes t =? 1 else live_nodes t >? 1)
  end.

Fixpoint trie_add (prefix_ : list Z) : M trie_t bool :=
  match prefix_ with
  | [] =>
      modify (λ t, set_item (u32 (refcnt t + 1)) t);;
      t ← get_st; mret (refcnt t =? 1)
  | c :: prefix_ => extend c;; trie_make c;; on_slot c (trie_add prefix_)
  end.

(** The three ways to make the array smaller, with [c] the character of the node just
    taken out. *)
Definition trie_to_single (c : Z) : M trie_t () :=
  t ← get_st;
  node ← (if c =? tmin t then
            node ← table_at (count t - 1);
            modify (set_min (u8 (tmin t + (count t - 1))));; mret node
          else if c =? tmin t + count t - 1 then table_at 0
          else mret None);
  zmq_assert (if node : option trie_t then true else false);;
  modify (set_count 1 ∘ set_next (n_node node)).

Definition trie_compact_left : M trie_t () :=
  t ← get_st;
  found ← find_live id 1 (Z.to_nat (count t - 1));
  let new_min := match found with Some i => u8 (i + tmin t) | None => tmin t end in
  zmq_assert (negb (new_min =? tmin t));;
  zmq_assert (new_min >? tmin t);;
  zmq_assert (count t >? new_min - tmin t);;
  let n := u16 (count t - (new_min - tmin t)) in
  modify (set_count n);;
  table_move (new_min - tmin t) n;;
  modify (set_min new_min).

Definition trie_compact_right : M trie_t () :=
  t ← get_st;
  found ← find_live (λ i, count t - 1 - i) 1 (Z.to_nat (count t - 1));
  let new_count := match found with Some i => u16 (count t - i) | None => count t end in
  zmq_assert (negb (new_count =? count t));;
  modify (set_count new_count);;
  table_move 0 new_count.

Definition trie_prune (c : Z) : M trie_t () :=
  t ← get_st;
  zmq_assert (count t >? 0);;
  if count t =? 1 then
    modify (set_count 0 ∘ set_next (n_node None));;
    modify (λ t, set_live (u16 (live_nodes t - 1)) t);;
    t ← get_st;
    zmq_assert (live_nodes t =? 0)
  else
    table_put (c - tmin t) None;;
    zmq_assert (live_nodes t >? 1);;
    modify (set_live (u16 (live_nodes t - 1)));;
    if u16 (live_nodes t - 1) =? 1 then trie_to_single c
    else if c =? tmin t then trie_compact_left
    else if c =? tmin t + count t - 1 then trie_compact_right
    else mret ().

Fixpoint trie_rm (prefix_ : list Z) : M trie_t bool :=
  match prefix_ with
  | [] =>
      t ← get_st;
      if refcnt t =? 0 then mret false
      else
        modify (λ t, set_item (u32 (refcnt t - 1)) t);;
        t ← get_st; mret (refcnt t =? 0)
  | c :: prefix_ =>
      t ← get_st;
      if (count t =? 0) || outside c t then mret false
      else
        o ← slot_at c;
        match o with
        | None => mret false
        | Some _ =>
            ret ← on_slot c (trie_rm prefix_);
            o ← slot_at c;
            match o with
            | None => undefined NullDeref
            | Some n => when (trie_redundant n) (trie_prune c);; mret ret
            end
        end
  end.

(** The loop of [check]; [current] is the state. *)
Fixpoint trie_check (data_ : list Z) : M trie_t bool :=
  t ← get_st;
  if negb (refcnt t =? 0) then mret true
  else
    match data_ with
    | [] => mret false
    | c :: data_ =>
        if outside c t then mret false
        else if count t =? 1 then on_slot c (trie_check data_)
        else
          o ← table_at (c - tmin t);
          match o with
          | None => mret false
          | Some _ => on_slot c (trie_check data_)
          end
    end.

(** ** The buffer of [apply] and [rm] *)

(** The buffer holds as many bytes as were allocated; it starts as a null pointer. A new
    byte is unspecified until it is stored. *)
Definition buffer : Type := list Z.

Definition buff_put (i c : Z) : M buffer () :=
  b ← get_st; if decide (0 ≤ i < Z.of_nat (length b)) then put_st (<[Z.to_nat i := c]> b) else undefined OutOfBounds.

(** The call of [func_] with the buffer and [buffsize_]: the bytes it can see. *)
Definition buff_key (n : Z) : M buffer (list Z) :=
  b ← get_st; if decide (n ≤ Z.of_nat (length b)) then mret (take (Z.to_nat n) b) else undefined OutOfBounds.

(** [realloc], if the buffer is full. *)
Definition buff_adjust (buffsize_ maxbuffsize_ : Z) : M buffer Z :=
  if buffsize_ >=? maxbuffsize_ then
    modify (λ b, take (Z.to_nat (buffsize_ + 256)) b ++ replicate (Z.to_nat (buffsize_ + 256) - length b) 0);;
    mret (buffsize_ + 256)
  else mret maxbuffsize_.

(** [apply_helper]: the keys the function is called with, in order. *)
Fixpoint trie_apply_helper (t : trie_t) (buffsize_ maxbuffsize_ : Z) {struct t} : M buffer (list (list Z)) :=
  own ← (if refcnt t =? 0 then mret [] else k ← buff_key buffsize_; mret [k]);
  maxbuffsize_ ← buff_adjust buffsize_ maxbuffsize_;
  if count t =? 0 then mret own
  else if count t =? 1 then
    buff_put buffsize_ (tmin t);;
    match next t with
    | n_node (Some n) => ks ← trie_apply_helper n (buffsize_ + 1) maxbuffsize_; mret (own ++ ks)
    | n_node None => undefined NullDeref
    | n_unset => undefined Uninitialised
    | n_table _ => undefined BadCast
    end
  else
    match next t with
    | n_table l =>
        ks ← (fix loop (c : Z) (l : list (option trie_t)) : M buffer (list (list Z)) :=
          if c =? count t then mret []
          else
            match l with
            | [] => undefined OutOfBounds
            | o :: l =>
                buff_put buffsize_ (u8 (tmin t + c));;
                ks ← match o with Some n => trie_apply_helper n (buffsize_ + 1) maxbuffsize_ | None => mret [] end;
                ks' ← loop (c + 1) l;
                mret (ks ++ ks')
            end) 0 l;
        mret (own ++ ks)
    | n_unset => undefined Uninitialised
    | n_node _ => undefined BadCast
    end.

Definition trie_apply (t : trie_t) : result (list (list Z)) :=
  match trie_apply_helper t 0 0 [] with Ok (ks, _) => Ok ks | Err e => Err e end.

(** ** mtrie_t *)

(** A pipe is known by its address; [pipes] is null or a set of pipes, which is not
    empty. *)
Definition mtrie_t : Type := tnode (option (gset N)).
Definition pipes (t : mtrie_t) : option (gset N) := item t.
Definition new_mtrie : mtrie_t := TNode None 0 0 0 n_unset.

Definition mtrie_redundant (t : mtrie_t) : bool := (if pipes t then false else true) && (live_nodes t =? 0).

Definition mtrie_make (c : Z) : M mtrie_t () :=
  o ← slot_at c;
  match o with
  | Some _ => mret ()
  | None => slot_put c (Some new_mtrie);; modify (λ t, set_live (u16 (live_nodes t + 1)) t)
  end.

Fixpoint mtrie_add (prefix_ : list Z) (pipe_ : N) : M mtrie_t bool :=
  match prefix_ with
  | [] =>
      t ← get_st;
      let result := if pipes t then false else true in
      modify (set_item (Some ({[pipe_]} ∪ default ∅ (pipes t))));;
      mret result
  | c :: prefix_ => extend c;; mtrie_make c;; on_slot c (mtrie_add prefix_ pipe_)
  end.

(** [pipes->erase (pipe_)], and the set is deleted when it is empty. *)
Definition erase_pipe (pipe_ : N) (s : gset N) : option (gset N) :=
  if decide (s ∖ {[pipe_]} = ∅) then None else Some (s ∖ {[pipe_]}).

Definition mtrie_to_single : M mtrie_t () :=
  t ← get_st;
  found ← find_live id 0 (Z.to_nat (count t));
  match found with
  | None => zmq_assert false
  | Some i =>
      modify (set_count 1 ∘ set_min (u8 (tmin t + i)));;
      oldp ← table_at i;
      modify (set_next (n_node oldp))
  end.

Definition mtrie_compact_left : M mtrie_t () :=
  t ← get_st;
  found ← find_live id 1 (Z.to_nat (count t - 1));
  match found with
  | None => zmq_assert false
  | Some i =>
      let n := u16 (count t - i) in
      modify (set_count n ∘ set_min (u8 (tmin t + i)));;
      table_move i n
  end.

Definition mtrie_compact_right : M mtrie_t () :=
  t ← get_st;
  found ← find_live (λ i, count t - 1 - i) 1 (Z.to_nat (count t - 1));
  match found with
  | None => zmq_assert false
  | Some i =>
      let n := u16 (count t - i) in
      modify (set_count n);;
      table_move 0 n
  end.

Definition mtrie_prune (c : Z) : M mtrie_t () :=
  t ← get_st;
  zmq_assert (count t >? 0);;
  if count t =? 1 then
    modify (set_count 0 ∘ set_next (n_node None));;
    modify (λ t, set_live (u16 (live_nodes t - 1)) t);;
    t ← get_st;
    zmq_assert (live_nodes t =? 0)
  else
    table_put (c - tmin t) None;;
    zmq_assert (live_nodes t >? 1);;
    modify (set_live (u16 (live_nodes t - 1)));;
    if u16 (live_nodes t - 1) =? 1 then mtrie_to_single
    else if c =? tmin t then mtrie_compact_left
    else if c =? tmin t + count t - 1 then mtrie_compact_right
    else mret ().

(** [rm] for one subscription. *)
Fixpoint mtrie_rm (prefix_ : list Z) (pipe_ : N) : M mtrie_t bool :=
  match prefix_ with
  | [] =>
      t ← get_st;
      match pipes t with
      | Some s => zmq_assert (bool_decide (pipe_ ∈ s));; modify (set_item (erase_pipe pipe_ s))
      | None => mret ()
      end;;
      t ← get_st;
      mret (if pipes t then false else true)
  | c :: prefix_ =>
      t ← get_st;
      if (count t =? 0) || outside c t then mret false
      else
        o ← slot_at c;
        match o with
        | None => mret false
        | Some _ =>
            ret ← on_slot c (mtrie_rm prefix_ pipe_);
            o ← slot_at c;
            match o with
            | None => undefined NullDeref
            | Some n => when (mtrie_redundant n) (mtrie_prune c);; mret ret
            end
        end
  end.

(** The end of [rm] for a pipe: the array after its nodes were visited, with the least and
    the greatest character that still has a node. *)
Definition mtrie_shrink (new_min new_max : Z) : M mtrie_t () :=
  t ← get_st;
  zmq_assert (count t >? 1);;
  if live_nodes t =? 0 then modify (set_count 0 ∘ set_next (n_table []))
  else if live_nodes t =? 1 then
    zmq_assert (new_min =? new_max);;
    zmq_assert ((new_min >=? tmin t) && (new_min <? tmin t + count t));;
    node ← table_at (new_min - tmin t);
    zmq_assert (if node : option mtrie_t then true else false);;
    modify (set_min new_min ∘ set_count 1 ∘ set_next (n_node node))
  else if (new_min >? tmin t) || (new_max <? tmin t + count t - 1) then
    zmq_assert (new_max - new_min + 1 >? 1);;
    zmq_assert ((new_min >? tmin t) || (new_max <? tmin t + count t - 1));;
    zmq_assert (new_min >=? tmin t);;
    zmq_assert (new_max <=? tmin t + count t - 1);;
    zmq_assert (new_max - new_min + 1 <? count t);;
    let n := u16 (new_max - new_min + 1) in
    modify (set_count n);;
    table_move (new_min - tmin t) n;;
    modify (set_min new_min)
  else mret ().

(** A method of a node, while the buffer is the state. *)
Definition run_node {B} (m : M mtrie_t B) (t : mtrie_t) : M buffer (B * mtrie_t) :=
  match m t with Ok (b, t') => mret (b, t') | Err e => throw e end.

(** The subscription of the pipe at the node itself: whether the function is called, and
    the node without it. *)
Definition erase_here (pipe_ : N) (call_on_uniq_ : bool) (t : mtrie_t) : bool * mtrie_t :=
  match pipes t with
  | Some s =>
      if decide (pipe_ ∈ s) then (negb call_on_uniq_ || bool_decide (s ∖ {[pipe_]} = ∅), set_item (erase_pipe pipe_ s) t)
      else (false, t)
  | None => (false, t)
  end.

(** [rm_helper] for all subscriptions of a pipe: the keys the function is called with, and
    the node after that. *)
Fixpoint mtrie_rm_pipe_helper (pipe_ : N) (call_on_uniq_ : bool) (t : mtrie_t) (buffsize_ maxbuffsize_ : Z) {struct t}
    : M buffer (list (list Z) * mtrie_t) :=
  let '(call, t1) := erase_here pipe_ call_on_uniq_ t in
  own ← (if call : bool then k ← buff_key buffsize_; mret [k] else mret []);
  maxbuffsize_ ← buff_adjust buffsize_ maxbuffsize_;
  if count t =? 0 then mret (own, t1)
  else if count t =? 1 then
    buff_put buffsize_ (tmin t);;
    match next t with
    | n_node (Some n) =>
        r ← mtrie_rm_pipe_helper pipe_ call_on_uniq_ n (buffsize_ + 1) maxbuffsize_;
        if mtrie_redundant r.2 then
          let live := u16 (live_nodes t - 1) in
          (if live =? 0 then mret () else throw (Fatal "Assertion failed"));;
          mret (own ++ r.1, set_live live (set_count 0 (set_next (n_node None) t1)))
        else mret (own ++ r.1, set_next (n_node (Some r.2)) t1)
    | n_node None => undefined NullDeref
    | n_unset => undefined Uninitialised
    | n_table _ => undefined BadCast
    end
  else
    match next t with
    | n_table l =>
        r ← (fix loop (c live new_min new_max : Z) (l : list (option mtrie_t)) : M buffer (list (list Z) * list (option mtrie_t) * Z * Z * Z) :=
          if c =? count t then mret ([], l, live, new_min, new_max)
          else
            match l with
            | [] => undefined OutOfBounds
            | o :: l =>
                buff_put buffsize_ (u8 (tmin t + c));;
                match o with
                | None =>
                    '(ks, l', live', mn, mx) ← loop (c + 1) live new_min new_max l;
                    mret (ks, None :: l', live', mn, mx)
                | Some n =>
                    r ← mtrie_rm_pipe_helper pipe_ call_on_uniq_ n (buffsize_ + 1) maxbuffsize_;
                    if mtrie_redundant r.2 then
                      (if live >? 0 then mret () else throw (Fatal "Assertion failed"));;
                      '(ks, l', live', mn, mx) ← loop (c + 1) (u16 (live - 1)) new_min new_max l;
                      mret (r.1 ++ ks, None :: l', live', mn, mx)
                    else
                      '(ks, l', live', mn, mx) ← loop (c + 1) live (if c + tmin t <? new_min then u8 (c + tmin t) else new_min)
                                                   (if c + tmin t >? new_max then u8 (c + tmin t) else new_max) l;
                      mret (r.1 ++ ks, Some r.2 :: l', live', mn, mx)
                end
            end) 0 (live_nodes t) (u8 (tmin t + count t - 1)) (tmin t) l;
        let '(ks, l', live', mn, mx) := r in
        r' ← run_node (mtrie_shrink mn mx) (set_live live' (set_next (n_table l') t1));
        mret (own ++ ks, r'.2)
    | n_unset => undefined Uninitialised
    | n_node _ => undefined BadCast
    end.

Definition mtrie_rm_pipe (pipe_ : N) (call_on_uniq_ : bool) : M mtrie_t (list (list Z)) := λ t,
  match mtrie_rm_pipe_helper pipe_ call_on_uniq_ t 0 0 [] with Ok ((ks, t'), _) => Ok (ks, t') | Err e => Err e end.

(** [match]: the pipes the function is called with; the order within a set, which is the one
    of the addresses, is that of [elements]. *)
Fixpoint mtrie_match (data_ : list Z) : M mtrie_t (list N) :=
  t ← get_st;
  let own := match pipes t with Some s => elements s | None => [] end in
  match data_ with
  | [] => mret own
  | d :: data_ =>
      if count t =? 0 then mret own
      else if count t =? 1 then
        if negb (d =? tmin t) then mret own
        else ps ← on_slot d (mtrie_match data_); mret (own ++ ps)
      else if outside d t then mret own
      else
        o ← table_at (d - tmin t);
        match o with
        | None => mret own
        | Some _ => ps ← on_slot d (mtrie_match data_); mret (own ++ ps)
        end
  end.
