(* ===== verification/ZmqTrieSpec.v ===== *)
(** * The tries hold what was put in (libzmq/src, trie.cpp and mtrie.cpp)

    The invariant of the nodes: the array spans exactly the characters from the first
    to the last one with a subnode, [live_nodes] is the number of subnodes, and no
    subnode is redundant. From it, the effect of each operation on the map from keys to
    reference counts, or to sets of pipes; and with that, that no run of a program on
    these tries can be told from one on a multiset of keys, or on a set of pairs of a
    key and a pipe. *)

From stdpp Require Import base tactics list numbers gmap gmultiset sets strings sorting.
From S2P Require Import Prelude ZmqWire ZmqTrie.

Local Open Scope Z_scope.

(** ** Arrays of pointers *)

Section arrays.
Context {N : Type}.
Implicit Types (l : list (option N)) (o : option N).

Definition lv l : nat := length (omap id l).
Definition nulls (n : nat) : list (option N) := replicate n None.

Lemma lv_app l l' : lv (l ++ l') = (lv l + lv l')%nat.
Proof. unfold lv. by rewrite omap_app, length_app. Qed.
Lemma lv_nulls n : lv (nulls n) = 0%nat.
Proof. unfold lv. induction n; done. Qed.
Lemma lv_le l : (lv l ≤ length l)%nat.
Proof. induction l as [|[x|] l IH]; unfold lv in *; cbn; lia. Qed.
Lemma lv_zero l : lv l = 0%nat → l = nulls (length l).
Proof. induction l as [|[x|] l IH]; unfold lv in *; cbn; [done|done|]. intros E. f_equal. by apply IH. Qed.
Lemma lv_insert l i o (x : option N) : l !! i = Some x → (lv (<[i:=o]> l) + (if x then 1 else 0) = lv l + (if o then 1 else 0))%nat.
Proof.
  intros Hi. rewrite <- (take_drop_middle _ _ _ Hi) at 2. rewrite insert_take_drop by by eapply lookup_lt_Some.
  change (?a :: drop (S i) l) with ([a] ++ drop (S i) l). rewrite !lv_app. destruct o, x; cbn; lia.
Qed.
Lemma lv_some l i x : l !! i = Some (Some x) → (1 ≤ lv l)%nat.
Proof. intros Hi. rewrite <- (take_drop_middle _ _ _ Hi), lv_app. unfold lv. cbn. lia. Qed.
Lemma lv_two l i j x y : l !! i = Some (Some x) → l !! j = Some (Some y) → (i < j)%nat → (2 ≤ lv l)%nat.
Proof.
  intros Hi Hj Hlt. rewrite <- (take_drop_middle _ _ _ Hi), lv_app. change (Some x :: ?k) with ([Some x] ++ k). rewrite lv_app.
  assert (1 ≤ lv (drop (S i) l))%nat; [|cbn; lia]. apply (lv_some _ (j - S i) y). rewrite lookup_drop, <- Hj. f_equal. lia.
Qed.

(** The pointer at an index, null outside of the array. *)
Definition ptr l (i : Z) : option N := if decide (0 ≤ i) then mjoin (l !! Z.to_nat i) else None.

Lemma ptr_pad l a b i : ptr (nulls a ++ l ++ nulls b) i = ptr l (i - Z.of_nat a).
Proof.
  unfold ptr, nulls. case_decide; [|by rewrite decide_False by lia]. destruct (decide (i < Z.of_nat a)).
  - rewrite decide_False by lia. rewrite lookup_app_l, lookup_replicate_2; rewrite ?length_replicate; [done|lia..].
  - rewrite decide_True by lia. rewrite lookup_app_r, length_replicate by (rewrite length_replicate; lia).
    replace (Z.to_nat (i - Z.of_nat a)) with (Z.to_nat i - a)%nat by lia.
    destruct (decide (Z.to_nat i - a < length l)%nat); [by rewrite lookup_app_l|]. rewrite lookup_app_r by lia.
    rewrite (lookup_ge_None_2 l) by lia. destruct (replicate b None !! _) as [x|] eqn:E; [|done].
    apply lookup_replicate in E as [-> _]. done.
Qed.

Lemma ptr_insert l o i j : 0 ≤ i < Z.of_nat (length l) → ptr (<[Z.to_nat i:=o]> l) j = if decide (j = i) then o else ptr l j.
Proof.
  intros Hi. unfold ptr. destruct (decide (j = i)) as [->|Hne].
  - rewrite decide_True, list_lookup_insert_eq by lia. done.
  - case_decide; [|done]. by rewrite list_lookup_insert_ne by lia.
Qed.

Lemma ptr_inside l i n : ptr l i = Some n → 0 ≤ i < Z.of_nat (length l) ∧ l !! Z.to_nat i = Some (Some n).
Proof.
  unfold ptr. case_decide; [|done]. destruct (l !! Z.to_nat i) as [o|] eqn:E; [|done]. cbn. intros ->.
  apply lookup_lt_Some in E. split; [lia|done].
Qed.
Lemma ptr_lookup l i : 0 ≤ i < Z.of_nat (length l) → l !! Z.to_nat i = Some (ptr l i).
Proof.
  intros Hi. unfold ptr. rewrite decide_True by lia. destruct (l !! Z.to_nat i) as [o|] eqn:E; [done|].
  apply lookup_ge_None in E. lia.
Qed.

Lemma lv_none l : (∀ i x, l !! i ≠ Some (Some x)) → lv l = 0%nat.
Proof.
  induction l as [|[x|] l IH]; intros H; [done|by destruct (H 0%nat x)|]. unfold lv in *. cbn. apply IH. intros i x. apply (H (S i)).
Qed.

(** A part of the array. *)
Definition cut (a n : Z) l : list (option N) := take (Z.to_nat n) (drop (Z.to_nat a) l).

Lemma ptr_cut a n l i : 0 ≤ a → 0 ≤ n → ptr (cut a n l) i = if decide (0 ≤ i < n) then ptr l (a + i) else None.
Proof.
  intros Ha Hn. unfold ptr, cut. case_decide; [|by rewrite decide_False by lia].
  destruct (decide (0 ≤ i < n)).
  - rewrite lookup_take_lt, lookup_drop, decide_True by lia. f_equal. f_equal. lia.
  - by rewrite lookup_take_ge by lia.
Qed.
Lemma length_cut a n l : 0 ≤ a → 0 ≤ n → a + n ≤ Z.of_nat (length l) → length (cut a n l) = Z.to_nat n.
Proof. intros. unfold cut. rewrite length_take, length_drop. lia. Qed.
Lemma lv_cut a n l :
  0 ≤ a → 0 ≤ n → (∀ i x, ptr l i = Some x → a ≤ i < a + n) → lv (cut a n l) = lv l.
Proof.
  intros Ha Hn H. assert (∀ i x, l !! i = Some (Some x) → a ≤ Z.of_nat i < a + n) as H'.
  { intros i x Hi. apply (H _ x). unfold ptr. rewrite decide_True, Nat2Z.id, Hi by lia. done. }
  unfold cut. rewrite <- (take_drop (Z.to_nat a) l) at 2. rewrite <- (take_drop (Z.to_nat n) (drop (Z.to_nat a) l)) at 2.
  rewrite !lv_app, (lv_none (take (Z.to_nat a) l)), (lv_none (drop _ (drop _ l))); [lia|..].
  - intros i x. rewrite drop_drop, lookup_drop. intros Hi%H'. lia.
  - intros i x [Hi Hlt]%lookup_take_Some. apply H' in Hi. lia.
Qed.
End arrays.

(** ** Nodes *)

Section nodes.
Context {A : Type}.
Implicit Types (t : tnode A) (o : option (tnode A)).

Definition slots t : list (option (tnode A)) :=
  if decide (count t = 0) then [] else match next t with n_unset => [] | n_node o => [o] | n_table l => l end.
(** The subnode for a character. *)
Definition kid (c : Z) t : option (tnode A) := ptr (slots t) (c - tmin t).
Definition inside (c : Z) t : Prop := tmin t ≤ c < tmin t + count t.

(** What holds of a node also while an operation works on it. *)
Record frame t : Prop := {
  fr_count : count t = Z.of_nat (length (slots t));
  fr_min : 0 ≤ tmin t ∧ tmin t + count t ≤ 256;
  fr_one : count t = 1 → ∃ o, next t = n_node o;
  fr_table : 1 < count t → ∃ l, next t = n_table l
}.
Definition lives t : Prop := live_nodes t = Z.of_nat (lv (slots t)).
(** The ends of the array are not null, but for [c]. *)
Definition tight (c : Z) t : Prop := 0 < count t →
  (tmin t = c ∨ is_Some (kid (tmin t) t)) ∧ (tmin t + count t - 1 = c ∨ is_Some (kid (tmin t + count t - 1) t)).
Definition edges t : Prop := 0 < count t → is_Some (kid (tmin t) t) ∧ is_Some (kid (tmin t + count t - 1) t).

Lemma kid_inside c t n : frame t → kid c t = Some n → inside c t.
Proof. intros [Hc _ _ _] [? _]%ptr_inside. unfold inside. lia. Qed.
Lemma outside_spec c t : outside c t = false ↔ inside c t.
Proof. unfold outside, inside. rewrite orb_false_iff, Z.ltb_ge, Z.geb_leb, Z.leb_gt. lia. Qed.
Lemma outside_kid c t : frame t → outside c t = true → kid c t = None.
Proof.
  intros Hf Ho. destruct (kid c t) as [n|] eqn:E; [|done]. apply (kid_inside _ _ _ Hf), outside_spec in E. congruence.
Qed.

Lemma slots_table t l : next t = n_table l → count t ≠ 0 → slots t = l.
Proof. intros E Hc. unfold slots. by rewrite decide_False, E. Qed.
Lemma slots_one t : frame t → count t = 1 → ∃ o, next t = n_node o ∧ slots t = [o].
Proof. intros [_ _ H1 _] Hc. destruct (H1 Hc) as [o E]. exists o. split; [done|]. unfold slots. by rewrite decide_False, E by lia. Qed.
Lemma slots_many t : frame t → 1 < count t → next t = n_table (slots t).
Proof. intros [_ _ _ H2] Hc. destruct (H2 Hc) as [l E]. rewrite (slots_table t l E) by lia. done. Qed.

Lemma next_node_run t o : next t = n_node o → next_node t = Ok (o, t).
Proof. intros E. unfold next_node. rewrite (bind_run _ _ _ t t) by done. by rewrite E. Qed.
Lemma next_table_run t : frame t → 1 < count t → next_table t = Ok (slots t, t).
Proof. intros Hf Hc. pose proof (slots_many t Hf Hc) as E. unfold next_table. rewrite (bind_run _ _ _ t t) by done. by destruct (next t); simplify_eq. Qed.
Lemma table_at_run t i : frame t → 1 < count t → 0 ≤ i < count t → table_at i t = Ok (ptr (slots t) i, t).
Proof.
  intros Hf Hc Hi. unfold table_at. erewrite bind_run by by apply next_table_run. rewrite decide_True by lia.
  rewrite ptr_lookup; [done|]. by rewrite <- fr_count.
Qed.

(** The array with another pointer for [c]. *)
Definition tput (c : Z) o t : tnode A :=
  set_next (if decide (count t = 1) then n_node o else n_table (<[Z.to_nat (c - tmin t) := o]> (slots t))) t.

Lemma table_put_run t c o : frame t → 1 < count t → inside c t → table_put (c - tmin t) o t = Ok ((), tput c o t).
Proof.
  intros Hf Hc Hi. unfold table_put. erewrite bind_run by by apply next_table_run. unfold inside in Hi.
  rewrite decide_True by (rewrite <- fr_count by done; lia). unfold tput. by rewrite decide_False by lia.
Qed.
Lemma slot_at_run t c : frame t → inside c t → slot_at c t = Ok (kid c t, t).
Proof.
  intros Hf Hi. unfold slot_at. rewrite (bind_run _ _ _ t t) by done. unfold inside in Hi. case_match eqn:E.
  - apply Z.eqb_eq in E. destruct (slots_one t Hf E) as (o & Hn & Hs). rewrite (next_node_run t o Hn). unfold kid. rewrite Hs.
    by replace (c - tmin t) with 0 by lia.
  - apply Z.eqb_neq in E. apply table_at_run; [done|lia|lia].
Qed.
Lemma slot_put_run t c o : frame t → inside c t → slot_put c o t = Ok ((), tput c o t).
Proof.
  intros Hf Hi. unfold slot_put. rewrite (bind_run _ _ _ t t) by done. case_match eqn:E.
  - apply Z.eqb_eq in E. unfold tput. by rewrite decide_True.
  - apply Z.eqb_neq in E. apply table_put_run; [done| |done]. unfold inside in Hi. lia.
Qed.

Lemma tput_slots t c o : frame t → inside c t → slots (tput c o t) = <[Z.to_nat (c - tmin t) := o]> (slots t).
Proof.
  intros Hf Hi. unfold inside in Hi. unfold tput. destruct (decide (count t = 1)) as [E|E].
  - destruct (slots_one t Hf E) as (o' & _ & ->). unfold slots. cbn. rewrite decide_False by lia. by replace (Z.to_nat (c - tmin t)) with 0%nat by lia.
  - unfold slots at 1. cbn. by rewrite decide_False by lia.
Qed.
Lemma tput_kid t c o c' : frame t → inside c t → kid c' (tput c o t) = if decide (c' = c) then o else kid c' t.
Proof.
  intros Hf Hi. unfold kid. rewrite tput_slots by done. change (tmin (tput c o t)) with (tmin t). unfold inside in Hi.
  rewrite ptr_insert by (rewrite <- fr_count by done; lia). by repeat case_decide; try lia.
Qed.
Lemma tput_frame t c o : frame t → inside c t → frame (tput c o t).
Proof.
  intros Hf Hi. pose proof (tput_slots t c o Hf Hi) as Hs. destruct Hf as [Hc Hm H1 H2]. split.
  - rewrite Hs, length_insert. done.
  - done.
  - change (count (tput c o t)) with (count t). intros E. unfold tput. rewrite decide_True by done. by eexists.
  - change (count (tput c o t)) with (count t). intros E. unfold tput. rewrite decide_False by lia. by eexists.
Qed.
Lemma tput_lv t c o : frame t → inside c t →
  (lv (slots (tput c o t)) + (if kid c t then 1 else 0) = lv (slots t) + (if o then 1 else 0))%nat.
Proof.
  intros Hf Hi. rewrite tput_slots by done. apply lv_insert. unfold inside in Hi. apply ptr_lookup. rewrite <- fr_count by done. lia.
Qed.

Lemma tput_same t c n : frame t → kid c t = Some n → tput c (Some n) t = t.
Proof.
  intros Hf Hk. assert (inside c t) as Hi by by eapply kid_inside. unfold inside in Hi. unfold tput. pose proof (ptr_inside _ _ _ Hk) as [? Hl].
  destruct (decide (count t = 1)) as [E|E].
  - destruct (slots_one t Hf E) as (o & Hn & Hs). rewrite Hs in Hl. destruct (Z.to_nat _) as [|[]]; [|done..]. injection Hl as ->. destruct t; cbn in *. by subst.
  - rewrite list_insert_id by done. rewrite <- (slots_many t Hf) by lia. by destruct t.
Qed.

Lemma on_slot_run {B} t c n (m : M (tnode A) B) b n' :
  frame t → kid c t = Some n → m n = Ok (b, n') → on_slot c m t = Ok (b, tput c (Some n') t).
Proof.
  intros Hf Hk Hm. assert (inside c t) as Hi by by eapply kid_inside. unfold on_slot.
  erewrite bind_run by by apply slot_at_run. rewrite Hk, Hm. by erewrite bind_run by by apply slot_put_run.
Qed.

(** An array with nulls added, or taken off, at both ends has the same subnodes. *)
Definition padded (a b : nat) t t' : Prop :=
  item t' = item t ∧ live_nodes t' = live_nodes t ∧ tmin t' = tmin t - Z.of_nat a ∧ slots t' = nulls a ++ slots t ++ nulls b.

Lemma padded_kid a b t t' c : padded a b t t' → kid c t' = kid c t.
Proof. intros (_ & _ & Hm & Hs). unfold kid. rewrite Hs, Hm, ptr_pad. f_equal. lia. Qed.
Lemma padded_lives a b t t' : padded a b t t' → lives t ↔ lives t'.
Proof. intros (_ & Hl & _ & Hs). unfold lives. rewrite Hs, Hl, !lv_app, !lv_nulls. f_equiv. lia. Qed.

Lemma table_node t l :
  next t = n_table l → 1 < count t → count t = Z.of_nat (length l) → 0 ≤ tmin t ∧ tmin t + count t ≤ 256 → frame t ∧ slots t = l.
Proof.
  intros Hn Hc Hl Hm. assert (slots t = l) as Hs by (apply slots_table; [done|lia]). split; [|done].
  split; [by rewrite Hs|done|lia|by eexists].
Qed.
Lemma one_node t o : next t = n_node o → count t = 1 → 0 ≤ tmin t ∧ tmin t + count t ≤ 256 → frame t ∧ slots t = [o].
Proof.
  intros Hn Hc Hm. assert (slots t = [o]) as Hs by (unfold slots; by rewrite decide_False, Hn by lia). split; [|done].
  split; [by rewrite Hs|done|by eexists|lia].
Qed.

Lemma extend_above t c : frame t → 0 < count t → tmin t + count t ≤ c < 256 →
  ∃ t', extend c t = Ok ((), t') ∧ frame t' ∧ inside c t' ∧ padded 0 (Z.to_nat (c - (tmin t + count t) + 1)) t t'.
Proof.
  intros Hf Hc Hi. pose proof (fr_min t Hf) as Hm. pose proof (fr_count t Hf) as Hct. unfold extend. rewrite (bind_run _ _ _ t t) by done.
  assert (outside c t = true) as -> by (destruct (outside c t) eqn:E; [done|]; apply outside_spec in E; unfold inside in E; lia). cbn [negb].
  rewrite (proj2 (Z.eqb_neq (count t) 0)) by lia. assert (u16 (c - tmin t + 1) = c - tmin t + 1) as En by (apply Z.mod_small; lia).
  set (k := Z.to_nat (c - (tmin t + count t) + 1)).
  assert (∀ t', item t' = item t → live_nodes t' = live_nodes t → tmin t' = tmin t → count t' = c - tmin t + 1 →
    next t' = n_table (slots t ++ nulls k) → frame t' ∧ inside c t' ∧ padded 0 k t t') as Hgo.
  { intros t' E1 E2 E3 E4 E5. destruct (table_node t' _ E5) as [Hf' Hs'].
    - lia.
    - unfold nulls. rewrite length_app, length_replicate. lia.
    - lia.
    - split; [done|]. unfold inside, padded. split; [lia|]. split_and!; [done|done|lia|done]. }
  destruct (count t =? 1) eqn:E1.
  - apply Z.eqb_eq in E1. destruct (slots_one t Hf E1) as (o & Hn & Hs). erewrite bind_run by by apply next_node_run.
    rewrite (proj2 (Z.ltb_lt (tmin t) c)) by lia. cbv zeta. rewrite En, Z.min_l by lia.
    erewrite bind_run by done. erewrite bind_run by done. rewrite Z.sub_diag. unfold table_put, next_table.
    erewrite bind_run by done. cbn [next set_min set_next set_count compose]. rewrite decide_True by (rewrite length_replicate; lia).
    eexists. split; [done|]. apply Hgo; try done. cbn. rewrite Hs. replace (Z.to_nat (c - tmin t + 1)) with (S k) by lia. done.
  - apply Z.eqb_neq in E1. rewrite (proj2 (Z.ltb_lt (tmin t) c)) by lia. erewrite bind_run by (apply next_table_run; [done|lia]). cbv zeta.
    rewrite En. eexists. split; [done|]. apply Hgo; try done. cbn. rewrite take_ge by lia. by replace (Z.to_nat (c - tmin t + 1 - count t)) with k by lia.
Qed.

Lemma extend_below t c : frame t → 0 < count t → 0 ≤ c < tmin t →
  ∃ t', extend c t = Ok ((), t') ∧ frame t' ∧ inside c t' ∧ padded (Z.to_nat (tmin t - c)) 0 t t'.
Proof.
  intros Hf Hc Hi. pose proof (fr_min t Hf) as Hm. pose proof (fr_count t Hf) as Hct. unfold extend. rewrite (bind_run _ _ _ t t) by done.
  assert (outside c t = true) as -> by (destruct (outside c t) eqn:E; [done|]; apply outside_spec in E; unfold inside in E; lia). cbn [negb].
  rewrite (proj2 (Z.eqb_neq (count t) 0)), (proj2 (Z.ltb_ge (tmin t) c)) by lia. set (k := Z.to_nat (tmin t - c)).
  assert (∀ t', item t' = item t → live_nodes t' = live_nodes t → tmin t' = c → count t' = tmin t + count t - c →
    next t' = n_table (nulls k ++ slots t) → frame t' ∧ inside c t' ∧ padded k 0 t t') as Hgo.
  { intros t' E1 E2 E3 E4 E5. destruct (table_node t' _ E5) as [Hf' Hs'].
    - lia.
    - unfold nulls. rewrite length_app, length_replicate. lia.
    - lia.
    - split; [done|]. unfold inside, padded. split; [lia|]. split_and!; [done|done|lia|]. rewrite Hs'. cbn. by rewrite app_nil_r. }
  destruct (count t =? 1) eqn:E1.
  - apply Z.eqb_eq in E1. destruct (slots_one t Hf E1) as (o & Hn & Hs). erewrite bind_run by by apply next_node_run.
    cbv zeta. rewrite Z.min_r by lia. assert (u16 (tmin t - c + 1) = tmin t + count t - c) as -> by (rewrite E1; unfold u16; rewrite Z.mod_small; lia).
    erewrite bind_run by done. erewrite bind_run by done. unfold table_put, next_table.
    erewrite bind_run by done. cbn [next set_min set_next set_count compose]. rewrite decide_True by (rewrite length_replicate; lia).
    eexists. split; [done|]. apply Hgo; try done. cbn. rewrite Hs. replace (Z.to_nat (tmin t + count t - c)) with (k + 1)%nat by lia.
    rewrite replicate_add, insert_app_r_alt by (rewrite length_replicate; lia). rewrite length_replicate. by replace (Z.to_nat (tmin t - c) - k)%nat with 0%nat by lia.
  - apply Z.eqb_neq in E1. erewrite bind_run by (apply next_table_run; [done|lia]). cbv zeta.
    assert (u16 (tmin t + count t - c) = tmin t + count t - c) as -> by (apply Z.mod_small; lia).
    erewrite bind_run by done. eexists. split; [done|]. apply Hgo; try done. cbn. by rewrite take_ge by lia.
Qed.

(** [extend] makes room and changes nothing else. *)
Lemma extend_run t c : frame t → edges t → is_byte c →
  ∃ t', extend c t = Ok ((), t') ∧ frame t' ∧ inside c t' ∧ tight c t' ∧ item t' = item t ∧ live_nodes t' = live_nodes t ∧
    (lives t → lives t') ∧ ∀ c', kid c' t' = kid c' t.
Proof.
  intros Hf He Hb. unfold is_byte in Hb. destruct (decide (inside c t)) as [Hi|Ho].
  { exists t. unfold extend. rewrite (bind_run _ _ _ t t) by done. rewrite (proj2 (outside_spec c t) Hi). split_and!; try done.
    unfold tight, edges in *. intros Hc. destruct (He Hc). auto. }
  destruct (decide (count t = 0)) as [E0|E0].
  - unfold extend. rewrite (bind_run _ _ _ t t) by done.
    assert (outside c t = true) as -> by (destruct (outside c t) eqn:E; [done|]; apply outside_spec in E; done). cbn [negb].
    rewrite (proj2 (Z.eqb_eq (count t) 0)) by done. eexists. split; [done|]. cbn [compose].
    match goal with |- frame ?x ∧ _ => set (t' := x) end. destruct (one_node t' None) as [Hf' Hs']; [done|done|cbn; lia|].
    assert (slots t = []) as Hs by (unfold slots; by rewrite decide_True).
    assert (∀ c', kid c' t = None) as Hk by (intros c'; unfold kid, ptr; rewrite Hs; by case_decide).
    split_and!; try done; unfold inside, tight; cbn; try lia.
    + unfold lives. rewrite Hs, Hs'. done.
    + intros c'. rewrite Hk. unfold kid, ptr. rewrite Hs'. case_decide; [|done]. by destruct (Z.to_nat _) as [|[]].
  - assert (0 < count t) as Hc by (pose proof (fr_count t Hf); lia). unfold inside in Ho. specialize (He Hc).
    destruct (decide (c < tmin t)).
    + destruct (extend_below t c) as (t' & Hr & Hf' & Hi' & Hp); [done|done|lia|]. exists t'. pose proof Hp as (E1 & E2 & E3 & E4).
      split_and!; try done; [|by apply (padded_lives _ _ _ _ Hp)|intros; by eapply padded_kid].
      assert (count t' = count t + (tmin t - c)) as Ec
        by (rewrite (fr_count t'), (fr_count t), E4 by done; unfold nulls; rewrite !length_app, !length_replicate; lia).
      intros _. rewrite !(padded_kid _ _ _ _ _ Hp). split; [left; lia|]. right. replace (tmin t' + count t' - 1) with (tmin t + count t - 1) by lia. apply He.
    + destruct (extend_above t c) as (t' & Hr & Hf' & Hi' & Hp); [done|done|lia|]. exists t'. pose proof Hp as (E1 & E2 & E3 & E4).
      split_and!; try done; [|by apply (padded_lives _ _ _ _ Hp)|intros; by eapply padded_kid].
      assert (count t' = c - tmin t + 1) as Ec
        by (rewrite (fr_count t'), E4 by done; pose proof (fr_count t Hf); unfold nulls; rewrite !length_app, !length_replicate; lia).
      intros _. rewrite !(padded_kid _ _ _ _ _ Hp). split; [|left; lia]. right. replace (tmin t') with (tmin t) by lia. apply He.
Qed.

(** ** A subnode is taken out *)

Definition pruned (c : Z) t t' : Prop :=
  frame t' ∧ lives t' ∧ edges t' ∧ item t' = item t ∧ ∀ c', kid c' t' = if decide (c' = c) then None else kid c' t.

(** The array while the end that was made null is still there. *)
Record holed (c : Z) t t' : Prop := {
  ho_frame : frame t';
  ho_lives : lives t';
  ho_item : item t' = item t;
  ho_min : tmin t' = tmin t;
  ho_count : count t' = count t;
  ho_kid c' : kid c' t' = if decide (c' = c) then None else kid c' t
}.

Lemma hole_run t c n : frame t → lives t → kid c t = Some n → holed c t (set_live (live_nodes t - 1) (tput c None t)).
Proof.
  intros Hf Hl Hk. assert (inside c t) as Hi by by eapply kid_inside. pose proof (tput_frame t c None Hf Hi) as Hf'.
  pose proof (tput_lv t c None Hf Hi) as E. rewrite Hk in E. split; try done.
  - by destruct Hf'.
  - unfold lives in *. change (slots (set_live _ ?x)) with (slots x). cbn [live_nodes set_live]. lia.
  - intros c'. by apply tput_kid.
Qed.

Lemma prune_cut c t t2 t3 a n :
  holed c t t2 → 0 ≤ a → 1 < n → a + n ≤ count t → item t3 = item t2 → live_nodes t3 = live_nodes t2 →
  tmin t3 = tmin t + a → count t3 = n → next t3 = n_table (cut a n (slots t2)) →
  is_Some (kid (tmin t + a) t2) → is_Some (kid (tmin t + a + n - 1) t2) →
  (∀ c' x, kid c' t2 = Some x → tmin t + a ≤ c' < tmin t + a + n) → pruned c t t3.
Proof.
  intros [Hf Hl Hi Hm Hc Hk] Ha Hn Han E1 E2 E3 E4 E5 K1 K2 Hall. pose proof (fr_min t2 Hf) as Hb. pose proof (fr_count t2 Hf) as Hct.
  destruct (table_node t3 _ E5) as [Hf3 Hs3]; [lia|rewrite length_cut; lia|lia|].
  assert (∀ c', kid c' t3 = kid c' t2) as Hk3.
  { intros c'. unfold kid. rewrite Hs3, ptr_cut, E3, Hm by lia. case_decide; [f_equal; lia|].
    destruct (ptr (slots t2) (c' - tmin t)) as [x|] eqn:E; [|done]. specialize (Hall c' x). unfold kid in Hall. rewrite Hm in Hall.
    specialize (Hall E). lia. }
  split_and!; [done| | |congruence|intros c'; rewrite Hk3; apply Hk].
  - unfold lives in *. rewrite Hs3, E2, Hl, lv_cut; [done|lia|lia|]. intros i x Hx.
    specialize (Hall (i + tmin t) x). unfold kid in Hall. rewrite Hm in Hall. replace (i + tmin t - tmin t) with i in Hall by lia.
    specialize (Hall Hx). lia.
  - intros _. rewrite !Hk3, E3, E4. done.
Qed.

Lemma prune_single c t t2 t3 e x :
  holed c t t2 → lv (slots t2) = 1%nat → kid e t2 = Some x → item t3 = item t2 → live_nodes t3 = live_nodes t2 →
  tmin t3 = e → count t3 = 1 → next t3 = n_node (Some x) → pruned c t t3.
Proof.
  intros [Hf Hl Hi Hm Hc Hk] Hone He E1 E2 E3 E4 E5. assert (inside e t2) as Hin by by eapply kid_inside.
  pose proof (fr_min t2 Hf) as Hb. unfold inside in Hin. destruct (one_node t3 (Some x)) as [Hf3 Hs3]; [done|done|lia|].
  assert (∀ c', kid c' t3 = kid c' t2) as Hk3.
  { intros c'. destruct (decide (c' = e)) as [->|Hne].
    - rewrite He. unfold kid, ptr. rewrite Hs3, E3, Z.sub_diag. done.
    - assert (kid c' t3 = None) as ->.
      { unfold kid, ptr. rewrite Hs3, E3. case_decide; [|done]. destruct (Z.to_nat (c' - e)) as [|[]] eqn:E; try done. lia. }
      destruct (kid c' t2) as [y|] eqn:Ey; [exfalso|done]. apply ptr_inside in He as [? He], Ey as [? Ey].
      destruct (decide (c' < e)); [pose proof (lv_two _ _ _ _ _ Ey He ltac:(lia))|pose proof (lv_two _ _ _ _ _ He Ey ltac:(lia))]; lia. }
  split_and!; [done| | |congruence|intros c'; rewrite Hk3; apply Hk].
  - unfold lives in *. rewrite Hs3, E2, Hl, Hone. done.
  - intros _. rewrite !Hk3, E3, E4. replace (e + 1 - 1) with e by lia. rewrite He. by split.
Qed.

Lemma find_live_run t (f : Z → Z) (g : Z → option (tnode A)) i n :
  (∀ j, i ≤ j < i + Z.of_nat n → table_at (f j) t = Ok (g j, t)) →
  ∃ r, find_live f i n t = Ok (r, t) ∧
    match r with
    | Some j => i ≤ j < i + Z.of_nat n ∧ is_Some (g j) ∧ ∀ m, i ≤ m < j → g m = None
    | None => ∀ m, i ≤ m < i + Z.of_nat n → g m = None
    end.
Proof.
  revert i. induction n as [|n IH]; intros i H; cbn [find_live].
  { exists None. split; [done|]. intros m. lia. }
  erewrite bind_run by (apply H; lia). destruct (g i) as [x|] eqn:E.
  - exists (Some i). split; [done|]. rewrite E. split; [lia|]. split; [done|]. intros m. lia.
  - destruct (IH (i + 1)) as (r & -> & Hr); [intros j Hj; apply H; lia|]. exists r. split; [done|]. destruct r as [j|].
    + destruct Hr as (? & ? & Hr). split; [lia|]. split; [done|]. intros m Hm. destruct (decide (m = i)) as [->|]; [done|]. apply Hr. lia.
    + intros m Hm. destruct (decide (m = i)) as [->|]; [done|]. apply Hr. lia.
Qed.

Lemma table_move_run t off n :
  frame t → 1 < count t → 0 ≤ off → 0 ≤ n → off + n ≤ count t → ∀ t', next t' = next t →
  table_move off n t' = Ok ((), set_next (n_table (cut off n (slots t))) t').
Proof.
  intros Hf Hc H1 H2 H3 t' En. pose proof (slots_many t Hf Hc) as Hn. rewrite <- En in Hn. unfold table_move.
  rewrite (bind_run _ _ t' (slots t) t').
  - rewrite decide_True; [done|]. by rewrite <- fr_count.
  - unfold next_table. rewrite (bind_run _ _ _ t' t') by done. by rewrite Hn.
Qed.

Lemma empty_node t : count t = 0 → live_nodes t = 0 → 0 ≤ tmin t ≤ 256 → frame t ∧ lives t ∧ edges t ∧ ∀ c, kid c t = None.
Proof.
  intros Hc Hl Hm. assert (slots t = []) as Hs by (unfold slots; by rewrite decide_True). split_and!.
  - split; [by rewrite Hs|lia|lia|lia].
  - unfold lives. by rewrite Hs.
  - intros ?. lia.
  - intros c. unfold kid, ptr. rewrite Hs. by case_decide.
Qed.

Lemma prune_last c t t' n :
  frame t → count t = 1 → kid c t = Some n → item t' = item t → tmin t' = tmin t → count t' = 0 → live_nodes t' = 0 → pruned c t t'.
Proof.
  intros Hf Hc Hk E1 E2 E3 E4. assert (inside c t) as Hi by by eapply kid_inside. pose proof (fr_min t Hf).
  destruct (empty_node t') as (? & ? & ? & Hk'); [done|done|lia|]. split_and!; try done. intros c'. rewrite Hk'. case_decide; [done|].
  destruct (kid c' t) as [x|] eqn:E; [|done]. apply (kid_inside _ _ _ Hf) in E. unfold inside in *. lia.
Qed.

(** What is left of an array of several after [c] is gone. *)
Record rest (c : Z) t t2 : Prop := {
  re_holed : holed c t t2;
  re_many : 1 < count t;
  re_inside : inside c t;
  re_edges : edges t
}.

Lemma rest_kids c t t2 c' : rest c t t2 → c' ≠ c → kid c' t2 = kid c' t.
Proof. intros [Hh _ _ _] Hne. rewrite (ho_kid _ _ _ Hh). by rewrite decide_False. Qed.
Lemma rest_first c t t2 : rest c t t2 → c ≠ tmin t → is_Some (kid (tmin t) t2).
Proof. intros Hr Hne. rewrite (rest_kids c t) by done. destruct Hr. by apply re_edges0; lia. Qed.
Lemma rest_last c t t2 : rest c t t2 → c ≠ tmin t + count t - 1 → is_Some (kid (tmin t + count t - 1) t2).
Proof. intros Hr Hne. rewrite (rest_kids c t) by done. destruct Hr. by apply re_edges0; lia. Qed.
Lemma rest_table c t t2 i : rest c t t2 → 0 ≤ i < count t → table_at i t2 = Ok (kid (i + tmin t) t2, t2).
Proof.
  intros [[Hf _ _ Hm Hc _] Hmany _ _] Hi. rewrite table_at_run by (done || lia). unfold kid. rewrite Hm. repeat f_equal. lia.
Qed.

(** Where the scan from the left stops is the first subnode; from the right, the last one. *)
Lemma scan_left c t t2 : rest c t t2 → c = tmin t →
  ∃ i, find_live id 1 (Z.to_nat (count t - 1)) t2 = Ok (Some i, t2) ∧ 1 ≤ i < count t ∧ is_Some (kid (tmin t + i) t2) ∧
    ∀ c' x, kid c' t2 = Some x → tmin t + i ≤ c' < tmin t + count t.
Proof.
  intros Hr ->. pose proof Hr as [Hh Hmany Hin _]. pose proof Hh as [Hf _ _ Hm Hc Hk].
  destruct (find_live_run t2 id (λ j, kid (j + tmin t) t2) 1 (Z.to_nat (count t - 1))) as ([i|] & Hrun & Hfound).
  { intros j Hj. apply (rest_table (tmin t)); [done|lia]. }
  - destruct Hfound as (Hi & Hs & Hnone). exists i. split; [done|]. split; [lia|]. rewrite Z.add_comm. split; [done|]. intros c' x Hx.
    pose proof (kid_inside _ _ _ Hf Hx) as Hin'. unfold inside in Hin'. split; [|lia]. destruct (decide (i + tmin t ≤ c')); [lia|]. exfalso.
    destruct (decide (c' = tmin t)) as [->|]; [rewrite Hk in Hx; by rewrite decide_True in Hx|].
    specialize (Hnone (c' - tmin t) ltac:(lia)). replace (c' - tmin t + tmin t) with c' in Hnone by lia. congruence.
  - exfalso. destruct (rest_last _ _ _ Hr ltac:(lia)) as [x Hx]. specialize (Hfound (count t - 1) ltac:(lia)).
    replace (count t - 1 + tmin t) with (tmin t + count t - 1) in Hfound by lia. congruence.
Qed.

Lemma scan_right c t t2 : rest c t t2 → c = tmin t + count t - 1 →
  ∃ i, find_live (λ i, count t - 1 - i) 1 (Z.to_nat (count t - 1)) t2 = Ok (Some i, t2) ∧ 1 ≤ i < count t ∧
    is_Some (kid (tmin t + count t - 1 - i) t2) ∧ ∀ c' x, kid c' t2 = Some x → tmin t ≤ c' < tmin t + count t - i.
Proof.
  intros Hr ->. pose proof Hr as [Hh Hmany Hin _]. pose proof Hh as [Hf _ _ Hm Hc Hk].
  destruct (find_live_run t2 (λ i, count t - 1 - i) (λ j, kid (count t - 1 - j + tmin t) t2) 1 (Z.to_nat (count t - 1))) as ([i|] & Hrun & Hfound).
  { intros j Hj. apply (rest_table (tmin t + count t - 1)); [done|lia]. }
  - destruct Hfound as (Hi & Hs & Hnone). exists i. split; [done|]. split; [lia|]. replace (tmin t + count t - 1 - i) with (count t - 1 - i + tmin t) by lia.
    split; [done|]. intros c' x Hx. pose proof (kid_inside _ _ _ Hf Hx) as Hin'. unfold inside in Hin'. split; [lia|].
    destruct (decide (c' < tmin t + count t - i)); [done|]. exfalso.
    destruct (decide (c' = tmin t + count t - 1)) as [->|]; [rewrite Hk in Hx; by rewrite decide_True in Hx|].
    specialize (Hnone (tmin t + count t - 1 - c') ltac:(lia)). replace (count t - 1 - (tmin t + count t - 1 - c') + tmin t) with c' in Hnone by lia. congruence.
  - exfalso. destruct (rest_first _ _ _ Hr ltac:(lia)) as [x Hx]. specialize (Hfound (count t - 1) ltac:(lia)).
    replace (count t - 1 - (count t - 1) + tmin t) with (tmin t) in Hfound by lia. congruence.
Qed.

(** In the middle nothing is done. *)
Lemma rest_pruned c t t2 : rest c t t2 → c ≠ tmin t → c ≠ tmin t + count t - 1 → pruned c t t2.
Proof.
  intros Hr H1 H2. pose proof (rest_first _ _ _ Hr H1). pose proof (rest_last _ _ _ Hr H2). destruct Hr as [[Hf Hl Hi Hm Hc Hk] _ _ _].
  split_and!; try done. intros _. by rewrite Hm, Hc.
Qed.

Lemma two_kids t c c' x : lives t → kid c t = Some x → 2 ≤ live_nodes t → (∀ e y, kid e t = Some y → c ≤ e ≤ c') → c < c'.
Proof.
  intros Hl Hk H2 Hall. destruct (decide (c < c')); [done|]. exfalso. unfold lives in Hl.
  assert (lv (cut (c - tmin t) 1 (slots t)) = lv (slots t)) as E.
  { pose proof (ptr_inside _ _ _ Hk) as [? _]. apply lv_cut; [lia|lia|]. intros i y Hy. specialize (Hall (i + tmin t) y). unfold kid in Hall.
    replace (i + tmin t - tmin t) with i in Hall by lia. specialize (Hall Hy). lia. }
  pose proof (lv_le (cut (c - tmin t) 1 (slots t))) as Hle. unfold cut in Hle at 2. rewrite length_take in Hle. lia.
Qed.
End nodes.

(** ** Pruning in trie_t *)

Lemma trie_to_single_run c t t2 : rest c t t2 → live_nodes t2 = 1 → ∃ t', trie_to_single c t2 = Ok ((), t') ∧ pruned c t t'.
Proof.
  intros Hr Hl1. pose proof Hr as [Hh Hmany Hin He]. pose proof Hh as [Hf Hl _ Hm Hc Hk]. pose proof (fr_min t2 Hf). unfold inside in Hin.
  assert (lv (slots t2) = 1%nat) as Hlv by (unfold lives in Hl; lia). unfold trie_to_single. rewrite (bind_run _ _ _ t2 t2) by done. rewrite Hm, Hc.
  destruct (c =? tmin t) eqn:Ec.
  - apply Z.eqb_eq in Ec. destruct (rest_last _ _ _ Hr ltac:(lia)) as [x Hx].
    replace (tmin t + count t - 1) with (count t - 1 + tmin t) in Hx by lia.
    erewrite (bind_run _ _ t2 (Some x)).
    2:{ erewrite bind_run by (apply (rest_table c t); [done|lia]). rewrite Hx. by erewrite bind_run by done. }
    erewrite bind_run by done. eexists. split; [done|].
    apply (prune_single c t t2 _ (tmin t + (count t - 1)) x); try done; [by rewrite Z.add_comm|]. cbn. apply Z.mod_small. lia.
  - apply Z.eqb_neq in Ec. destruct (rest_first _ _ _ Hr Ec) as [x Hx]. destruct (c =? tmin t + count t - 1) eqn:Ec2.
    + erewrite (bind_run _ _ t2 (Some x)) by (rewrite (rest_table c t), Z.add_0_l by (done || lia); by rewrite Hx).
      erewrite bind_run by done. eexists. split; [done|]. by apply (prune_single c t t2 _ (tmin t) x).
    + exfalso. apply Z.eqb_neq in Ec2. destruct (rest_last _ _ _ Hr Ec2) as [y Hy]. apply ptr_inside in Hx as [_ Hx], Hy as [_ Hy].
      pose proof (lv_two _ _ _ _ _ Hx Hy ltac:(lia)). lia.
Qed.

Lemma trie_compact_left_run c t t2 :
  rest c t t2 → c = tmin t → 2 ≤ live_nodes t2 → ∃ t', trie_compact_left t2 = Ok ((), t') ∧ pruned c t t'.
Proof.
  intros Hr Ec Hl2. pose proof Hr as [Hh Hmany Hin He]. pose proof Hh as [Hf Hl _ Hm Hc Hk]. pose proof (fr_min t2 Hf).
  destruct (scan_left _ _ _ Hr Ec) as (i & Hrun & Hi & [x Hx] & Hall). destruct (rest_last _ _ _ Hr ltac:(lia)) as [y Hy].
  assert (tmin t + i < tmin t + count t - 1) as Hlt by (eapply (two_kids t2); [done|exact Hx|done|]; intros e z Hz; specialize (Hall e z Hz); lia).
  unfold trie_compact_left. rewrite (bind_run _ _ _ t2 t2) by done. rewrite Hc, Hm. erewrite bind_run by exact Hrun. cbv zeta iota.
  assert (u8 (i + tmin t) = tmin t + i) as -> by (unfold u8; rewrite Z.mod_small; lia). replace (tmin t + i - tmin t) with i by lia.
  assert (u16 (count t - i) = count t - i) as -> by (apply Z.mod_small; lia).
  rewrite (proj2 (Z.eqb_neq (tmin t + i) (tmin t))), (proj2 (Z.gtb_lt (tmin t + i) (tmin t))), (proj2 (Z.gtb_lt (count t) i)) by lia.
  do 4 erewrite bind_run by done. erewrite bind_run by (apply (table_move_run t2); [done|lia..|done]). eexists. split; [done|].
  apply (prune_cut c t t2 _ i (count t - i)); try done; try lia.
  { replace (tmin t + i + (count t - i) - 1) with (tmin t + count t - 1) by lia. by eexists. }
  intros e z Hz. specialize (Hall e z Hz). lia.
Qed.

Lemma trie_compact_right_run c t t2 :
  rest c t t2 → c = tmin t + count t - 1 → 2 ≤ live_nodes t2 → ∃ t', trie_compact_right t2 = Ok ((), t') ∧ pruned c t t'.
Proof.
  intros Hr Ec Hl2. pose proof Hr as [Hh Hmany Hin He]. pose proof Hh as [Hf Hl _ Hm Hc Hk]. pose proof (fr_min t2 Hf).
  destruct (scan_right _ _ _ Hr Ec) as (i & Hrun & Hi & [x Hx] & Hall). destruct (rest_first _ _ _ Hr ltac:(lia)) as [y Hy].
  assert (tmin t < tmin t + count t - 1 - i) as Hlt by (eapply (two_kids t2); [done|exact Hy|done|]; intros e z Hz; specialize (Hall e z Hz); lia).
  unfold trie_compact_right. rewrite (bind_run _ _ _ t2 t2) by done. rewrite Hc. erewrite bind_run by exact Hrun. cbv zeta iota.
  assert (u16 (count t - i) = count t - i) as -> by (apply Z.mod_small; lia). rewrite (proj2 (Z.eqb_neq (count t - i) (count t))) by lia.
  do 2 erewrite bind_run by done. erewrite (table_move_run t2) by (done || lia). eexists. split; [done|].
  apply (prune_cut c t t2 _ 0 (count t - i)); try done; try lia; cbn; rewrite ?Z.add_0_r; try lia; try by eexists.
  - replace (tmin t + (count t - i) - 1) with (tmin t + count t - 1 - i) by lia. by exists x.
  - intros e z Hz. specialize (Hall e z Hz). lia.
Qed.

Lemma trie_prune_run t c n :
  frame t → lives t → edges t → kid c t = Some n → ∃ t', trie_prune c t = Ok ((), t') ∧ pruned c t t'.
Proof.
  intros Hf Hl He Hk. assert (inside c t) as Hi by by eapply kid_inside. pose proof (fr_min t Hf) as Hm. pose proof (fr_count t Hf) as Hct.
  pose proof (lv_le (slots t)) as Hlv. pose proof Hi as Hi'. unfold inside in Hi'. unfold trie_prune. rewrite (bind_run _ _ _ t t) by done.
  rewrite (proj2 (Z.gtb_lt (count t) 0)) by lia. erewrite bind_run by done. destruct (count t =? 1) eqn:E1.
  { apply Z.eqb_eq in E1. assert (live_nodes t = 1) as Hl1.
    { unfold lives in Hl. destruct (slots_one t Hf E1) as (o & _ & Hs). unfold kid in Hk. rewrite Hs in *. apply ptr_inside in Hk as [? Hk].
      destruct (Z.to_nat _) as [|[]]; [|done..]. injection Hk as ->. done. }
    erewrite bind_run by done. erewrite bind_run by done. erewrite bind_run by done. cbn. rewrite Hl1. eexists. split; [done|].
    by eapply prune_last. }
  apply Z.eqb_neq in E1. erewrite bind_run by (apply table_put_run; [done|lia|done]).
  pose proof (hole_run t c n Hf Hl Hk) as Hh. set (t2 := set_live (live_nodes t - 1) (tput c None t)) in *.
  destruct (He ltac:(lia)) as [[x1 K1] [x2 K2]].
  assert (2 ≤ live_nodes t) as Hl2.
  { unfold lives in Hl. apply ptr_inside in K1 as [_ K1], K2 as [_ K2]. pose proof (lv_two _ _ _ _ _ K1 K2 ltac:(lia)). lia. }
  assert (u16 (live_nodes t - 1) = live_nodes t - 1) as -> by (apply Z.mod_small; unfold lives in Hl; lia).
  rewrite (proj2 (Z.gtb_lt (live_nodes t) 1)) by lia. erewrite bind_run by done. erewrite bind_run by done. fold t2.
  assert (rest c t t2) as Hr by (split; [done|lia|done|done]). change (live_nodes t - 1) with (live_nodes t2).
  destruct (live_nodes t2 =? 1) eqn:El; [apply Z.eqb_eq in El; by apply trie_to_single_run|]. apply Z.eqb_neq in El.
  assert (2 ≤ live_nodes t2) as Hl3 by (subst t2; cbn in *; lia).
  destruct (c =? tmin t) eqn:Ec; [apply Z.eqb_eq in Ec; by apply trie_compact_left_run|].
  destruct (c =? tmin t + count t - 1) eqn:Ec2; [apply Z.eqb_eq in Ec2; by apply trie_compact_right_run|].
  apply Z.eqb_neq in Ec, Ec2. exists t2. split; [done|]. by apply rest_pruned.
Qed.

(** ** The invariant, and what a trie holds *)

Section tries.
Context {A : Type} (a0 : A) (ok : A → Prop).
Implicit Types (t n : tnode A).

(** [is_redundant]. *)
Definition redundant t : Prop := item t = a0 ∧ live_nodes t = 0.

Inductive wf t : Prop :=
  | Wf : frame t → lives t → edges t → ok (item t) → (∀ c n, kid c t = Some n → wf n) → (∀ c n, kid c t = Some n → ¬ redundant n) → wf t.

(** The item under a key. *)
Fixpoint at_key (k : list Z) t : A :=
  match k with
  | [] => item t
  | c :: k => match kid c t with Some n => at_key k n | None => a0 end
  end.

Lemma wf_frame t : wf t → frame t. Proof. by intros []. Qed.
Lemma wf_lives t : wf t → lives t. Proof. by intros []. Qed.
Lemma wf_edges t : wf t → edges t. Proof. by intros []. Qed.
Lemma wf_ok t : wf t → ok (item t). Proof. by intros []. Qed.
Lemma wf_kid c t n : wf t → kid c t = Some n → wf n. Proof. intros [] ?. eauto. Qed.
Lemma wf_red c t n : wf t → kid c t = Some n → ¬ redundant n. Proof. intros [] ?. eauto. Qed.

Lemma wf_new : ok a0 → wf (TNode a0 0 0 0 n_unset).
Proof.
  intros H. destruct (empty_node (TNode a0 0 0 0 n_unset)) as (? & ? & ? & Hk); [done|done|cbn; lia|].
  apply Wf; [done|done|done|done|intros c n; by rewrite Hk..].
Qed.
Lemma at_new k : at_key k (TNode a0 0 0 0 n_unset) = a0.
Proof. destruct k as [|c k]; [done|]. cbn. destruct (empty_node (TNode a0 0 0 0 n_unset)) as (_ & _ & _ & ->); [done|done|cbn; lia|done]. Qed.

Lemma at_ok k t : ok a0 → wf t → ok (at_key k t).
Proof.
  intros H0. revert t. induction k as [|c k IH]; intros t Hw; [by apply wf_ok|]. cbn. destruct (kid c t) eqn:E; [|done].
  apply IH. by eapply wf_kid.
Qed.

(** A node that is not redundant holds something. *)
Lemma lives_zero t : wf t → live_nodes t = 0 ↔ ∀ c, kid c t = None.
Proof.
  intros Hw. pose proof (wf_lives t Hw) as Hl. unfold lives in Hl. split.
  - intros E c. destruct (kid c t) as [n|] eqn:Ek; [|done]. apply ptr_inside in Ek as [_ Ek]. pose proof (lv_some _ _ _ Ek). lia.
  - intros H. rewrite Hl. rewrite lv_none; [done|]. intros i x Hi. specialize (H (Z.of_nat i + tmin t)). unfold kid, ptr in H.
    replace (Z.of_nat i + tmin t - tmin t) with (Z.of_nat i) in H by lia. rewrite decide_True, Nat2Z.id, Hi in H by lia. done.
Qed.

(** The effect of a change below [c]. *)
Lemma at_change c k t t' (f : list Z → A) :
  item t' = item t → (∀ c', c' ≠ c → kid c' t' = kid c' t) → (∀ k', at_key (c :: k') t' = if decide (k' = k) then f k' else at_key (c :: k') t) →
  ∀ k', at_key k' t' = if decide (k' = c :: k) then f k else at_key k' t.
Proof.
  intros Hi Hk Ha [|c' k']; [done|]. destruct (decide (c' = c)) as [->|Hne].
  - rewrite Ha. destruct (decide (k' = k)) as [->|]; [by rewrite decide_True|rewrite decide_False by congruence; done].
  - cbn. rewrite (Hk c' Hne), decide_False by congruence. done.
Qed.

End tries.

Section tries.
Context {A : Type} (a0 : A) (ok : A → Prop).
Implicit Types (t n : tnode A).

(** A node whose slot for [c] is about to be used. *)
Record ready (c : Z) t t' : Prop := {
  rd_frame : frame t';
  rd_inside : inside c t';
  rd_tight : tight c t';
  rd_lives : lives t';
  rd_item : item t' = item t;
  rd_kid c' : c' ≠ c → kid c' t' = kid c' t
}.

Lemma extend_ready t c : wf a0 ok t → is_byte c → ∃ t', extend c t = Ok ((), t') ∧ ready c t t' ∧ kid c t' = kid c t.
Proof.
  intros Hw Hb. destruct (extend_run t c (wf_frame _ _ _ Hw) (wf_edges _ _ _ Hw) Hb) as (t' & Hr & Hf & Hi & Ht & Hit & _ & Hl & Hk).
  exists t'. split; [done|]. split; [|done]. split; try done. by apply Hl, (wf_lives a0 ok).
Qed.

(** The slot gets a new subnode. *)
Lemma ready_put c t t1 n :
  ready c t t1 → kid c t1 = None → live_nodes t1 < 2 ^ 16 - 1 → ready c t (set_live (live_nodes t1 + 1) (tput c (Some n) t1)).
Proof.
  intros [Hf Hi Ht Hl Hit Hk] Hn Hlt. pose proof (tput_frame _ _ (Some n) Hf Hi) as Hf'. pose proof (tput_lv t1 c (Some n) Hf Hi) as E. rewrite Hn in E.
  split; try done.
  - by destruct Hf'.
  - intros Hc. destruct (Ht Hc) as [H1 H2]. change (kid ?x (set_live ?y ?z)) with (kid x z). rewrite !tput_kid by done.
    split; [destruct H1; auto; right; case_decide; [by eexists|done]|]. destruct H2; auto. right. case_decide; [by eexists|done].
  - unfold lives in *. change (slots (set_live _ ?x)) with (slots x). cbn [live_nodes set_live]. lia.
  - intros c' Hne. change (kid c' (set_live ?y ?z)) with (kid c' z). rewrite tput_kid by done. rewrite decide_False by done. by apply Hk.
Qed.

(** The subnode in the slot of a node changes. *)
Lemma ready_child c t t1 n n' :
  wf a0 ok t → ready c t t1 → kid c t1 = Some n → wf a0 ok n' → ¬ redundant a0 n' → wf a0 ok (tput c (Some n') t1).
Proof.
  intros Hw [Hf Hi Ht Hl Hit Hk] Hn Hwn Hrn.
  assert (lives (tput c (Some n') t1)) as Hl'.
  { pose proof (tput_lv t1 c (Some n') Hf Hi) as E. rewrite Hn in E. unfold lives in *. change (live_nodes (tput _ _ ?x)) with (live_nodes x). lia. }
  assert (∀ c' m, kid c' (tput c (Some n') t1) = Some m → wf a0 ok m ∧ ¬ redundant a0 m) as Hk'.
  { intros c' m. rewrite tput_kid by done. case_decide; [by intros [= <-]|]. rewrite Hk by done. intros Hm.
    split; [exact (wf_kid _ _ _ _ _ Hw Hm)|exact (wf_red _ _ _ _ _ Hw Hm)]. }
  apply Wf; [by apply tput_frame|done| |change (item (tput _ _ ?x)) with (item x); rewrite Hit; by apply (wf_ok a0)|intros c' m Hm; apply (Hk' c' m Hm)..].
  intros Hc. change (tmin (tput c (Some n') t1)) with (tmin t1) in *. change (count (tput c (Some n') t1)) with (count t1) in *.
  rewrite !tput_kid by done. destruct (Ht Hc) as [H1 H2]. split; (case_decide; [by eexists|]).
  - destruct H1; [congruence|done].
  - destruct H2; [congruence|done].
Qed.

Lemma at_put c t t1 n k : ready c t t1 → at_key a0 (c :: k) (tput c (Some n) t1) = at_key a0 k n.
Proof. intros [Hf Hi _ _ _ _]. cbn. by rewrite tput_kid, decide_True. Qed.

(** What is below a node that is still there. *)
Lemma wf_ready c t n : wf a0 ok t → kid c t = Some n → ready c t t.
Proof.
  intros Hw Hk. split; [by eapply wf_frame|eapply kid_inside; [by eapply wf_frame|done]| |by eapply wf_lives|done|done].
  intros Hc. destruct (wf_edges _ _ _ Hw Hc). auto.
Qed.
Lemma live_room t : frame t → lives t → live_nodes t ≤ 256.
Proof. intros Hf Hl. pose proof (lv_le (slots t)). pose proof (fr_count t Hf). pose proof (fr_min t Hf). unfold lives in Hl. lia. Qed.
End tries.

(** ** The operations of trie_t *)

Definition is_count (z : Z) : Prop := 0 ≤ z < 2 ^ 32.
Notation twf := (wf 0 is_count).
Notation tat := (at_key 0).

Lemma twf_new : twf new_trie.
Proof. by apply wf_new. Qed.
Lemma tat_count k t : twf t → is_count (tat k t).
Proof. by apply at_ok. Qed.

Lemma trie_make_run c t t1 :
  twf t → ready c t t1 → kid c t1 = kid c t →
  ∃ t2 n, trie_make c t1 = Ok ((), t2) ∧ ready c t t2 ∧ kid c t2 = Some n ∧ twf n ∧ ∀ k, tat k n = tat (c :: k) t.
Proof.
  intros Hw Hr Hk. pose proof Hr as [Hf Hi Ht Hl Hit Hkk]. unfold trie_make. rewrite (bind_run _ _ _ t1 t1) by done.
  erewrite bind_run by by apply slot_at_run. destruct (kid c t1) as [n|] eqn:En.
  { exists t1, n. split; [done|]. split; [done|]. split; [done|]. split; [by eapply wf_kid|]. intros k. cbn. by rewrite <- Hk. }
  pose proof (live_room t1 Hf Hl) as Hroom. pose proof (tput_lv t1 c (Some new_trie) Hf Hi) as Elv. rewrite En in Elv.
  erewrite bind_run by by apply slot_put_run. erewrite bind_run by done. rewrite (bind_run _ _ _ _ _ eq_refl).
  change (live_nodes (tput _ _ ?x)) with (live_nodes x). assert (0 ≤ live_nodes t1) as Hpos by (unfold lives in Hl; lia).
  assert (u16 (live_nodes t1 + 1) = live_nodes t1 + 1) as -> by (apply Z.mod_small; lia).
  set (t2 := set_live (live_nodes t1 + 1) (tput c (Some new_trie) t1)).
  pose proof (ready_put c t t1 new_trie Hr En ltac:(lia)) as Hr2. fold t2 in Hr2. exists t2, new_trie. split_and!; [|done| |apply twf_new|].
  - cbn -[tput]. change (count (tput _ _ ?x)) with (count x). unfold inside in Hi. unfold zmq_assert. case_match eqn:E; [done|]. exfalso.
    apply not_true_iff_false in E. apply E. clear E. pose proof (fr_count t1 Hf) as Hct. unfold lives in Hl. destruct (count t1 =? 1) eqn:E1.
    + apply Z.eqb_eq in E1. apply Z.eqb_eq. pose proof (lv_le (slots t1)). destruct (slots_one t1 Hf E1) as (o & _ & Hs).
      unfold kid in En. rewrite Hs in *. replace (c - tmin t1) with 0 in En by lia. unfold ptr in En. rewrite decide_True in En by lia. change (o = None) in En. subst o. cbn in Hl. lia.
    + apply Z.eqb_neq in E1. apply Z.gtb_lt. destruct (Ht ltac:(lia)) as [H1 H2].
      assert (1 ≤ lv (slots t1))%nat; [|lia].
      destruct H1 as [H1|[x Hx%ptr_inside]]; [|by eapply lv_some; apply Hx]. destruct H2 as [H2|[x Hx%ptr_inside]]; [lia|by eapply lv_some; apply Hx].
  - change (kid c t2) with (kid c (tput c (Some new_trie) t1)). rewrite tput_kid by done. by rewrite decide_True.
  - intros k. unfold new_trie. rewrite at_new. cbn. by rewrite <- Hk.
Qed.

Lemma trie_add_run k t :
  twf t → Forall is_byte k → tat k t < 2 ^ 32 - 1 →
  ∃ t', trie_add k t = Ok (tat k t =? 0, t') ∧ twf t' ∧ ¬ redundant 0 t' ∧ ∀ k', tat k' t' = if decide (k' = k) then tat k t + 1 else tat k' t.
Proof.
  revert t. induction k as [|c k IH]; intros t Hw Hb Hlt; cbn [trie_add].
  - pose proof (wf_ok _ _ _ Hw) as Hc. cbn in Hlt. unfold is_count in Hc. unfold refcnt. rewrite (bind_run _ _ _ _ _ eq_refl). rewrite (bind_run _ _ _ _ _ eq_refl).
    cbn [item set_item]. assert (u32 (item t + 1) = item t + 1) as -> by (apply Z.mod_small; lia). eexists. split; [|split_and!].
    + cbn. assert ((item t + 1 =? 1) = (item t =? 0)) as <- by (destruct (Z.eqb_spec (item t) 0), (Z.eqb_spec (item t + 1) 1); lia || done). done.
    + destruct Hw as [Hf Hl He _ Hk Hr]. apply Wf; try done; [by destruct Hf|unfold is_count; cbn; lia].
    + intros [E _]. cbn in E. lia.
    + intros [|c k']; done.
  - apply Forall_cons_iff in Hb as [Hbc Hb]. destruct (extend_ready _ _ t c Hw Hbc) as (t1 & Hr1 & Hrd & Hk1). erewrite bind_run by exact Hr1.
    destruct (trie_make_run c t t1 Hw Hrd Hk1) as (t2 & n & Hr2 & Hrd2 & Hk2 & Hwn & Hat). erewrite bind_run by exact Hr2.
    destruct (IH n Hwn Hb) as (n' & Hrun & Hwn' & Hrn & Hat'); [by rewrite Hat|]. eexists. rewrite Hat in Hrun.
    split; [by apply (on_slot_run t2 c n); [apply Hrd2|..]|]. split_and!.
    + by eapply (ready_child _ _ c t t2 n).
    + intros [_ E]. pose proof (proj1 (lives_zero _ _ _ (ready_child _ _ c t t2 n n' Hw Hrd2 Hk2 Hwn' Hrn)) E c) as Hno.
      rewrite tput_kid, decide_True in Hno by (done || apply Hrd2). done.
    + apply (at_change 0 c k t _ (λ _, tat (c :: k) t + 1)).
      * apply Hrd2.
      * intros c' Hne. rewrite tput_kid by apply Hrd2. rewrite decide_False by done. by apply Hrd2.
      * intros k'. rewrite (at_put _ _ t) by done. rewrite Hat', !Hat. done.
Qed.

Lemma trie_redundant_spec t : trie_redundant t = true ↔ redundant 0 t.
Proof. unfold trie_redundant, redundant, refcnt. by rewrite andb_true_iff, !Z.eqb_eq. Qed.

Section removal.
Context {A : Type} (a0 : A) (ok : A → Prop).
Implicit Types (t n : tnode A).

Lemma redundant_empty n k : wf a0 ok n → redundant a0 n → at_key a0 k n = a0.
Proof. intros Hw [Hi Hl]. destruct k as [|c k]; [done|]. cbn. by rewrite (proj1 (lives_zero _ _ _ Hw) Hl c). Qed.

(** The node after a redundant subnode was pruned. *)
Lemma pruned_wf c t t1 t' n n' :
  wf a0 ok t → kid c t = Some n → t1 = tput c (Some n') t → pruned c t1 t' → wf a0 ok t'.
Proof.
  intros Hw Hk -> (Hf' & Hl' & He' & Hi' & Hk'). pose proof (wf_ready _ _ _ _ _ Hw Hk) as Hr.
  assert (∀ c' m, kid c' t' = Some m → kid c' t = Some m) as Hkk.
  { intros c' m. rewrite Hk'. case_decide; [done|]. rewrite tput_kid by apply Hr. by rewrite decide_False. }
  apply Wf; [done|done|done|rewrite Hi'; change (item (tput _ _ ?x)) with (item x); by apply (wf_ok a0)|..].
  - intros c' m Hm. exact (wf_kid _ _ _ _ _ Hw (Hkk _ _ Hm)).
  - intros c' m Hm. exact (wf_red _ _ _ _ _ Hw (Hkk _ _ Hm)).
Qed.

Lemma put_edges c t n n' : wf a0 ok t → kid c t = Some n → let t1 := tput c (Some n') t in frame t1 ∧ lives t1 ∧ edges t1 ∧ kid c t1 = Some n'.
Proof.
  intros Hw Hk. pose proof (wf_ready _ _ _ _ _ Hw Hk) as [Hf Hi Ht Hl _ _]. cbv zeta. split_and!.
  - by apply tput_frame.
  - pose proof (tput_lv t c (Some n') Hf Hi) as E. rewrite Hk in E. unfold lives in *. change (live_nodes (tput _ _ ?x)) with (live_nodes x). lia.
  - intros Hc. change (tmin (tput c (Some n') t)) with (tmin t) in *. change (count (tput c (Some n') t)) with (count t) in *.
    rewrite !tput_kid by done. destruct (wf_edges _ _ _ Hw Hc). split; (case_decide; [by eexists|done]).
  - rewrite tput_kid by done. by rewrite decide_True.
Qed.
End removal.

Lemma trie_rm_run k t :
  twf t → ∃ t', trie_rm k t = Ok (tat k t =? 1, t') ∧ twf t' ∧ ∀ k', tat k' t' = if decide (k' = k) then Z.max 0 (tat k t - 1) else tat k' t.
Proof.
  revert t. induction k as [|c k IH]; intros t Hw; cbn [trie_rm].
  - pose proof (wf_ok _ _ _ Hw) as Hc. unfold is_count in Hc. rewrite (bind_run _ _ _ t t) by done. unfold refcnt. destruct (item t =? 0) eqn:E.
    + apply Z.eqb_eq in E. exists t. split; [cbn; by rewrite E|]. split; [done|]. intros [|c k']; [cbn; by rewrite E|done].
    + apply Z.eqb_neq in E. rewrite (bind_run _ _ _ _ _ eq_refl). rewrite (bind_run _ _ _ _ _ eq_refl). cbn [item set_item].
      assert (u32 (item t - 1) = item t - 1) as -> by (apply Z.mod_small; lia). eexists. split; [|split].
      * cbn. assert ((item t - 1 =? 0) = (item t =? 1)) as <- by (destruct (Z.eqb_spec (item t - 1) 0), (Z.eqb_spec (item t) 1); lia || done). done.
      * destruct Hw as [Hf Hl He _ Hk Hr]. apply Wf; try done; [by destruct Hf|unfold is_count; cbn; lia].
      * intros [|c k']; [rewrite decide_True by done; cbn; lia|done].
  - rewrite (bind_run _ _ _ t t) by done. pose proof (wf_frame _ _ _ Hw) as Hf.
    assert (kid c t = None → (tat (c :: k) t =? 1) = false ∧ ∀ k', tat k' t = if decide (k' = c :: k) then Z.max 0 (tat (c :: k) t - 1) else tat k' t) as Hnone.
    { intros Hk. assert (tat (c :: k) t = 0) as E by (cbn; by rewrite Hk). rewrite E. split; [done|]. intros k'. case_decide; [by subst|done]. }
    destruct ((count t =? 0) || outside c t) eqn:Eg.
    { exists t. destruct Hnone as [-> ?]; [|done]. apply outside_kid; [done|]. apply orb_true_iff in Eg as [Eg|]; [|done]. apply Z.eqb_eq in Eg.
      destruct (outside c t) eqn:Eo; [done|]. apply outside_spec in Eo. unfold inside in Eo. lia. }
    apply orb_false_iff in Eg as [_ Eg%outside_spec]. erewrite bind_run by by apply slot_at_run. destruct (kid c t) as [n|] eqn:Hk.
    2:{ exists t. by destruct (Hnone eq_refl) as [-> ?]. }
    clear Hnone. pose proof (wf_kid _ _ _ _ _ Hw Hk) as Hwn. destruct (IH n Hwn) as (n' & Hrun & Hwn' & Hat).
    erewrite bind_run by (by apply (on_slot_run t c n)). destruct (put_edges _ _ c t n n' Hw Hk) as (Hf1 & Hl1 & He1 & Hk1).
    set (t1 := tput c (Some n') t) in *. erewrite bind_run by (apply slot_at_run; [done|by eapply kid_inside]). rewrite Hk1.
    assert (tat (c :: k) t = tat k n) as Ek by (cbn; by rewrite Hk). rewrite Ek. destruct (trie_redundant n') eqn:Er.
    + destruct (trie_prune_run t1 c n' Hf1 Hl1 He1 Hk1) as (t' & Hp & Hpr). unfold when. erewrite bind_run by exact Hp. exists t'. split; [done|].
      split; [exact (pruned_wf _ _ c t t1 t' n n' Hw Hk eq_refl Hpr)|]. destruct Hpr as (_ & _ & _ & Hi' & Hk'). apply trie_redundant_spec in Er.
      apply (at_change 0 c k t _ (λ _, Z.max 0 (tat k n - 1))); [done| |].
      * intros c' Hne. rewrite Hk', decide_False by done. unfold t1. rewrite tput_kid by done. by rewrite decide_False.
      * intros k'. cbn. rewrite Hk', decide_True, Hk by done. rewrite <- Hat. symmetry. by eapply redundant_empty.
    + exists t1. split; [done|]. pose proof (wf_ready _ _ _ _ _ Hw Hk) as Hrd. split.
      * apply (ready_child 0 is_count c t t n n' Hw Hrd Hk Hwn'). rewrite <- trie_redundant_spec. by rewrite Er.
      * apply (at_change 0 c k t _ (λ _, Z.max 0 (tat k n - 1))); [done| |].
        -- intros c' Hne. unfold t1. rewrite tput_kid by done. by rewrite decide_False.
        -- intros k'. unfold t1. rewrite (at_put _ _ t) by done. rewrite Hat. cbn. by rewrite Hk.
Qed.

(** [check]: some prefix of the data is a subscription. *)
Lemma trie_check_run d t :
  twf t → ∃ b, trie_check d t = Ok (b, t) ∧ (b = true ↔ ∃ k, k `prefix_of` d ∧ tat k t ≠ 0).
Proof.
  revert t. induction d as [|c d IH]; intros t Hw; cbn [trie_check]; rewrite (bind_run _ _ _ t t) by done; unfold refcnt;
    (destruct (item t =? 0) eqn:E; cbn [negb];
      [apply Z.eqb_eq in E|apply Z.eqb_neq in E; exists true; split; [done|]; split; [|done]; intros _; exists []; split; [apply prefix_nil|done]]).
  - exists false. split; [done|]. split; [done|]. intros (k & Hk%prefix_nil_inv & Hne). by subst.
  - pose proof (wf_frame _ _ _ Hw) as Hf.
    assert (kid c t = None → ¬ ∃ k, k `prefix_of` c :: d ∧ tat k t ≠ 0) as Hnone.
    { intros Hk ([|c' k] & Hp & Hne); [done|]. apply prefix_cons_inv_1 in Hp. subst c'. cbn in Hne. by rewrite Hk in Hne. }
    destruct (outside c t) eqn:Eo.
    { exists false. split; [done|]. split; [done|]. intros H. by apply Hnone in H; [|apply outside_kid]. }
    apply outside_spec in Eo.
    assert (∀ n, kid c t = Some n → ∃ b, on_slot c (trie_check d) t = Ok (b, t) ∧ (b = true ↔ ∃ k, k `prefix_of` c :: d ∧ tat k t ≠ 0)) as Hsome.
    { intros n Hk. destruct (IH n (wf_kid _ _ _ _ _ Hw Hk)) as (b & Hrun & Hb). exists b. rewrite (on_slot_run t c n _ b n Hf Hk Hrun).
      rewrite tput_same by done. split; [done|]. rewrite Hb. split.
      - intros (k & Hp & Hne). exists (c :: k). split; [by apply prefix_cons|]. cbn. by rewrite Hk.
      - intros ([|c' k] & Hp & Hne); [done|]. pose proof (prefix_cons_inv_1 _ _ _ _ Hp). subst c'. exists k.
        split; [by apply prefix_cons_inv_2 in Hp|]. cbn in Hne. by rewrite Hk in Hne. }
    destruct (count t =? 1) eqn:E1.
    + apply Z.eqb_eq in E1. unfold inside in Eo. destruct (wf_edges _ _ _ Hw ltac:(lia)) as [[n Hn] _]. apply (Hsome n). rewrite <- Hn. f_equal. lia.
    + apply Z.eqb_neq in E1. unfold inside in Eo. erewrite bind_run by (apply table_at_run; [done|lia|lia]). change (ptr (slots t) (c - tmin t)) with (kid c t).
      destruct (kid c t) as [n|]; [by apply (Hsome n)|]. exists false. split; [done|]. split; [done|]. intros H. by apply Hnone in H.
Qed.

(** ** The buffer *)

(** The buffer starts with the key of the node at hand, and has the size it was given. *)
Definition holds (key : list Z) (max : Z) (b : buffer) : Prop := key `prefix_of` b ∧ max ≤ Z.of_nat (length b).

Lemma holds_key key max b : holds key max b → buff_key (Z.of_nat (length key)) b = Ok (key, b).
Proof.
  intros [[k ->] _]. unfold buff_key. rewrite (bind_run _ _ _ _ _ eq_refl). rewrite decide_True by (rewrite length_app; lia).
  rewrite Nat2Z.id, take_app_length. done.
Qed.
Lemma holds_adjust key max b :
  holds key max b → ∃ max' b', buff_adjust (Z.of_nat (length key)) max b = Ok (max', b') ∧ holds key max' b' ∧ max ≤ Z.of_nat (length b') ∧ Z.of_nat (length key) < max'.
Proof.
  intros [[k ->] Hm]. unfold buff_adjust. case_match eqn:E.
  - rewrite Z.geb_leb in E. apply Z.leb_le in E. erewrite bind_run by done. eexists _, _. split; [done|].
    match goal with |- holds key _ ?x ∧ _ => assert (Z.of_nat (length x) = Z.of_nat (length key) + 256) as Hlen end.
    { rewrite length_app, length_take, length_replicate, length_app. lia. }
    split_and!; [split|..]; try lia. rewrite take_app_ge by lia. rewrite <- (assoc_L (++)). by apply prefix_app_r.
  - rewrite Z.geb_leb in E. apply Z.leb_gt in E. eexists _, _. split; [done|]. split_and!; [split; [by apply prefix_app_r|done]|done|done].
Qed.
Lemma holds_put key max b c :
  holds key max b → Z.of_nat (length key) < max → ∃ b', buff_put (Z.of_nat (length key)) c b = Ok ((), b') ∧ holds (key ++ [c]) max b'.
Proof.
  intros [[k ->] Hm] Hlt. rewrite length_app in Hm. destruct k as [|x k]; [cbn in Hm; lia|]. unfold buff_put. rewrite (bind_run _ _ _ _ _ eq_refl).
  rewrite decide_True by (rewrite length_app; cbn; lia). eexists. split; [done|]. rewrite Nat2Z.id, insert_app_r_alt by done.
  rewrite Nat.sub_diag. split; [exists k; by rewrite <- (assoc_L (++))|]. rewrite length_app. cbn in *. lia.
Qed.
Lemma holds_weaken key key' max b : holds (key ++ key') max b → holds key max b.
Proof. intros [[k ->] ?]. split; [|done]. exists (key' ++ k). by rewrite (assoc_L (++)). Qed.

(** The order of the keys. *)
Fixpoint lex (k k' : list Z) : Prop :=
  match k, k' with
  | _, [] => False
  | [], _ :: _ => True
  | c :: k, c' :: k' => c < c' ∨ c = c' ∧ lex k k'
  end.

Lemma sorted_snoc_keys c ks ks' :
  StronglySorted lex ks → StronglySorted lex ks' → (∀ k, k ∈ ks' → ∃ c' k0, k = c' :: k0 ∧ c < c') →
  StronglySorted lex (((c ::.) <$> ks) ++ ks').
Proof.
  intros H1 H2 Hall. induction H1 as [|k ks H1 IH Hk]; [done|]. cbn. constructor; [done|]. apply Forall_app. split.
  - apply Forall_fmap. eapply Forall_impl; [done|]. intros k' ?. cbn. auto.
  - apply Forall_forall. intros k' (c' & k0 & -> & ?)%Hall. cbn. auto.
Qed.

(** ** [apply] *)

Definition lists (t : trie_t) (ks : list (list Z)) : Prop := (∀ k, k ∈ ks ↔ tat k t ≠ 0) ∧ StronglySorted lex ks.

(** [apply_helper] does its work on the node [n] below any key. *)
Definition applies (n : trie_t) : Prop := ∀ key max b, holds key max b →
  ∃ ks b', trie_apply_helper n (Z.of_nat (length key)) max b = Ok ((key ++.) <$> ks, b') ∧ holds key max b' ∧ lists n ks.

(** The loop over the array. *)
Definition apply_loop (t : trie_t) (bs max : Z) : Z → list (option trie_t) → M buffer (list (list Z)) :=
  fix loop (c : Z) (l : list (option trie_t)) : M buffer (list (list Z)) :=
    if c =? count t then mret []
    else
      match l with
      | [] => undefined OutOfBounds
      | o :: l =>
          buff_put bs (u8 (tmin t + c));;
          ks ← match o with Some n => trie_apply_helper n (bs + 1) max | None => mret [] end;
          ks' ← loop (c + 1) l;
          mret (ks ++ ks')
      end.

Lemma applies_child n key c max b : applies n → holds (key ++ [c]) max b →
  ∃ ks b', trie_apply_helper n (Z.of_nat (length key) + 1) max b = Ok ((key ++.) <$> ((c ::.) <$> ks), b') ∧ holds key max b' ∧ lists n ks.
Proof.
  intros Hn Hh. destruct (Hn _ _ _ Hh) as (ks & b' & Hrun & Hh' & Hl). exists ks, b'. rewrite length_app in Hrun. cbn in Hrun.
  replace (Z.of_nat (length key) + 1) with (Z.of_nat (length key + 1)) by lia. rewrite Hrun, <- list_fmap_compose. split_and!; [|by eapply holds_weaken|done].
  do 2 f_equal. apply list_fmap_ext. intros _ k _. cbn. by rewrite <- (assoc_L (++)).
Qed.

Lemma apply_loop_run t key max l i b :
  0 ≤ i → i + Z.of_nat (length l) = count t → 0 ≤ tmin t → tmin t + count t ≤ 256 → (∀ n, Some n ∈ l → applies n) →
  Z.of_nat (length key) < max → holds key max b →
  ∃ ks b', apply_loop t (Z.of_nat (length key)) max i l b = Ok ((key ++.) <$> ks, b') ∧ holds key max b' ∧ StronglySorted lex ks ∧
    (∀ k, k ∈ ks ↔ ∃ j n k0, l !! j = Some (Some n) ∧ k = (tmin t + i + Z.of_nat j) :: k0 ∧ tat k0 n ≠ 0).
Proof.
  intros Hi Hc Hm0 Hm Hl Hmax. revert i b Hi Hc. induction l as [|o l IH]; intros i b Hi Hc Hh.
  { cbn in *. rewrite (proj2 (Z.eqb_eq i (count t))) by lia. exists [], b. split_and!; [done|done|constructor|]. intros k. split; [set_solver|naive_solver]. }
  cbn [length] in Hc. cbn [apply_loop]. rewrite (proj2 (Z.eqb_neq i (count t))) by lia.
  assert (u8 (tmin t + i) = tmin t + i) as -> by (apply Z.mod_small; lia).
  destruct (holds_put key max b (tmin t + i) Hh Hmax) as (b1 & Hput & Hh1). erewrite bind_run by exact Hput.
  assert (∃ ks b2, (match o with Some n => trie_apply_helper n (Z.of_nat (length key) + 1) max | None => mret [] end) b1 = Ok ((key ++.) <$> (((tmin t + i) ::.) <$> ks), b2) ∧
    holds key max b2 ∧ StronglySorted lex ks ∧ ∀ k, k ∈ ks ↔ ∃ n, o = Some n ∧ tat k n ≠ 0) as (ks & b2 & Hr & Hh2 & Hs & Hin).
  { destruct o as [n|].
    - destruct (applies_child n key (tmin t + i) max b1) as (ks & b2 & ? & ? & Hk & ?); [apply Hl; by left|done|]. exists ks, b2. split_and!; try done.
      intros k. rewrite Hk. naive_solver.
    - exists [], b1. split_and!; [done|by eapply holds_weaken|constructor|]. intros k. split; [set_solver|naive_solver]. }
  erewrite bind_run by exact Hr. destruct (IH ltac:(set_solver) (i + 1) b2) as (ks' & b3 & Hr' & Hh3 & Hs' & Hin'); [lia|lia|done|].
  erewrite bind_run by exact Hr'. exists ((((tmin t + i) ::.) <$> ks) ++ ks'), b3. split_and!; [by rewrite fmap_app|done| |].
  - apply sorted_snoc_keys; [done|done|]. intros k (j & n & k0 & _ & -> & _)%Hin'. eexists _, _. split; [done|lia].
  - intros k. rewrite elem_of_app, list_elem_of_fmap, Hin'. split.
    + intros [(k0 & -> & (n & -> & Hne)%Hin)|(j & n & k0 & Hj & -> & Hne)].
      * exists 0%nat, n, k0. split_and!; [done|f_equal; lia|done].
      * exists (S j), n, k0. split_and!; [done|f_equal; lia|done].
    + intros ([|j] & n & k0 & Hj & -> & Hne).
      * left. exists k0. split; [f_equal; lia|]. apply Hin. exists n. by injection Hj as ->.
      * right. exists j, n, k0. split_and!; [done|f_equal; lia|done].
Qed.

Lemma slots_kid {A} (t : tnode A) j n : slots t !! j = Some (Some n) → kid (tmin t + Z.of_nat j) t = Some n.
Proof. intros H. unfold kid, ptr. rewrite decide_True by lia. replace (Z.to_nat (tmin t + Z.of_nat j - tmin t)) with j by lia. by rewrite H. Qed.
Lemma kid_slots {A} (t : tnode A) c n : kid c t = Some n → ∃ j, slots t !! j = Some (Some n) ∧ c = tmin t + Z.of_nat j.
Proof. intros [? H]%ptr_inside. exists (Z.to_nat (c - tmin t)). split; [done|lia]. Qed.

(** The keys below a node, with the one of the node itself. *)
Lemma lists_node (t : trie_t) ks :
  StronglySorted lex ks → (∀ k, k ∈ ks ↔ ∃ j n k0, slots t !! j = Some (Some n) ∧ k = (tmin t + Z.of_nat j) :: k0 ∧ tat k0 n ≠ 0) →
  lists t ((if item t =? 0 then [] else [[]]) ++ ks).
Proof.
  intros Hs Hin. split.
  - intros [|c k].
    + cbn. destruct (Z.eqb_spec (item t) 0) as [E|E]; split; set_solver.
    + cbn. split.
      * intros H. assert ((c :: k) ∈ ks) as (j & n & k0 & Hj & [= -> ->] & Hne)%Hin by (destruct (item t =? 0); set_solver).
        by rewrite (slots_kid _ _ _ Hj).
      * destruct (kid c t) as [n|] eqn:Hk; [|done]. intros Hne. destruct (kid_slots _ _ _ Hk) as (j & Hj & ->).
        apply elem_of_app. right. apply Hin. eauto 10.
  - destruct (item t =? 0); [done|]. cbn. constructor; [done|]. apply Forall_forall. intros k (j & n & k0 & _ & -> & _)%Hin. done.
Qed.

Lemma trie_apply_helper_eq t bs max :
  trie_apply_helper t bs max =
    (own ← (if refcnt t =? 0 then mret [] else k ← buff_key bs; mret [k]);
     max ← buff_adjust bs max;
     if count t =? 0 then mret own
     else if count t =? 1 then
       buff_put bs (tmin t);;
       match next t with
       | n_node (Some n) => ks ← trie_apply_helper n (bs + 1) max; mret (own ++ ks)
       | n_node None => undefined NullDeref
       | n_unset => undefined Uninitialised
       | n_table _ => undefined BadCast
       end
     else
       match next t with
       | n_table l => ks ← apply_loop t bs max 0 l; mret (own ++ ks)
       | n_unset => undefined Uninitialised
       | n_node _ => undefined BadCast
       end).
Proof. by destruct t. Qed.

Lemma wf_applies t : twf t → applies t.
Proof.
  induction 1 as [t Hf Hl He Ho Hk IH Hr]. intros key max b Hh. pose proof (fr_min t Hf) as [Hm0 Hm]. pose proof (fr_count t Hf) as Hct.
  rewrite trie_apply_helper_eq. unfold refcnt. set (own := if item t =? 0 then [] else [[]] : list (list Z)).
  erewrite (bind_run _ _ b ((key ++.) <$> own) b).
  2:{ unfold own. destruct (item t =? 0); [done|]. erewrite bind_run by by eapply holds_key. cbn. by rewrite app_nil_r. }
  destruct (holds_adjust key max b Hh) as (max' & b1 & Hadj & Hh1 & Hle & Hlt). erewrite bind_run by exact Hadj.
  assert (∀ b2, holds key max' b2 → holds key max b2) as Hwk.
  { intros b2 [? ?]. split; [done|]. unfold buff_adjust in Hadj. case_match eqn:E; inv_run; rewrite Z.geb_leb in E; [apply Z.leb_le in E|]; lia. }
  assert (∀ ks b2, holds key max' b2 → StronglySorted lex ks →
    (∀ k, k ∈ ks ↔ ∃ j n k0, slots t !! j = Some (Some n) ∧ k = (tmin t + Z.of_nat j) :: k0 ∧ tat k0 n ≠ 0) →
    ∃ ks0 b', Ok (((key ++.) <$> own) ++ ((key ++.) <$> ks), b2) = Ok ((key ++.) <$> ks0, b') ∧ holds key max b' ∧ lists t ks0) as Hfin.
  { intros ks b2 Hh2 Hs Hin. exists (own ++ ks), b2. rewrite fmap_app. split_and!; [done|by apply Hwk|]. by apply lists_node. }
  destruct (count t =? 0) eqn:E0.
  { apply Z.eqb_eq in E0. rewrite <- (app_nil_r (_ <$> own)). apply (Hfin [] b1); [done|constructor|]. intros k. split; [set_solver|].
    intros (j & n & k0 & Hj & _). apply lookup_lt_Some in Hj. lia. }
  apply Z.eqb_neq in E0. destruct (count t =? 1) eqn:E1.
  - apply Z.eqb_eq in E1. destruct (slots_one t Hf E1) as (o & Hn & Hs). rewrite Hn. destruct (He ltac:(lia)) as [[n Hkn] _].
    destruct (holds_put key max' b1 (tmin t) Hh1 Hlt) as (b2 & Hput & Hh2). erewrite bind_run by exact Hput.
    pose proof (kid_slots _ _ _ Hkn) as (j & Hj & Ej). rewrite Hs in Hj. destruct j as [|j]; [|done]. injection Hj as ->.
    destruct (applies_child n key (tmin t) max' b2 (IH _ _ Hkn) Hh2) as (ks & b3 & Hrun & Hh3 & Hin & Hsrt). erewrite bind_run by exact Hrun.
    apply Hfin; [done| |].
    + rewrite <- (app_nil_r (_ <$> ks)). apply sorted_snoc_keys; [done|constructor|set_solver].
    + intros k. rewrite list_elem_of_fmap, Hs. split.
      * intros (k0 & -> & Hne%Hin). exists 0%nat, n, k0. rewrite Z.add_0_r. done.
      * intros ([|j] & m & k0 & Hj & -> & Hne); [|done]. injection Hj as ->. exists k0. rewrite Z.add_0_r. split; [done|by apply Hin].
  - apply Z.eqb_neq in E1. rewrite (slots_many t Hf) by lia.
    destruct (apply_loop_run t key max' (slots t) 0 b1) as (ks & b2 & Hrun & Hh2 & Hs & Hin); [done|by rewrite Hct|done|done| |done|done|].
    { intros n [j Hj]%list_elem_of_lookup. eapply IH. by apply slots_kid. }
    erewrite bind_run by exact Hrun. apply Hfin; [done|done|]. intros k. rewrite Hin. by setoid_rewrite Z.add_0_r.
Qed.

Lemma trie_apply_run t : twf t → ∃ ks, trie_apply t = Ok ks ∧ lists t ks.
Proof.
  intros Hw. destruct (wf_applies t Hw [] 0 []) as (ks & b & Hrun & _ & Hl); [by split|]. exists ks. unfold trie_apply.
  change (Z.of_nat (length (@nil Z))) with 0 in Hrun. rewrite Hrun.
  split; [|done]. f_equal. exact (list_fmap_id ks).
Qed.

(** ** Programs with a trie, and with a multiset *)

Inductive trie_op := t_add (k : list Z) | t_rm (k : list Z) | t_check (d : list Z) | t_apply.
Inductive trie_res := t_bool (b : bool) | t_keys (ks : list (list Z)).

Definition run_trie (o : trie_op) : M trie_t trie_res :=
  match o with
  | t_add k => b ← trie_add k; mret (t_bool b)
  | t_rm k => b ← trie_rm k; mret (t_bool b)
  | t_check d => b ← trie_check d; mret (t_bool b)
  | t_apply => λ t, match trie_apply t with Ok ks => Ok (t_keys ks, t) | Err e => Err e end
  end.

(** What the answer is, and the multiset after the operation. *)
Definition says (m : gmultiset (list Z)) (o : trie_op) (r : trie_res) (m' : gmultiset (list Z)) : Prop :=
  match o with
  | t_add k => r = t_bool (bool_decide (k ∉ m)) ∧ m' = m ⊎ {[+ k +]}
  | t_rm k => r = t_bool (bool_decide (multiplicity k m = 1%nat)) ∧ m' = m ∖ {[+ k +]}
  | t_check d => m' = m ∧ ∃ b, r = t_bool b ∧ (b = true ↔ ∃ k, k ∈ m ∧ k `prefix_of` d)
  | t_apply => m' = m ∧ ∃ ks, r = t_keys ks ∧ (∀ k, k ∈ ks ↔ k ∈ m) ∧ StronglySorted lex ks
  end.
Fixpoint said (m : gmultiset (list Z)) (ops : list trie_op) (rs : list trie_res) (m' : gmultiset (list Z)) : Prop :=
  match ops, rs with
  | [], [] => m' = m
  | o :: ops, r :: rs => ∃ m1, says m o r m1 ∧ said m1 ops rs m'
  | _, _ => False
  end.

Definition byte_op (o : trie_op) : Prop := match o with t_add k => Forall is_byte k | _ => True end.

Definition keeps (t : trie_t) (m : gmultiset (list Z)) : Prop := twf t ∧ ∀ k, tat k t = Z.of_nat (multiplicity k m).

(** Below a node that is not redundant there is a subscription. *)
Lemma not_redundant_key {A} `{EqDecision A} (a0 : A) ok n : wf a0 ok n → ¬ redundant a0 n → ∃ k, at_key a0 k n ≠ a0.
Proof.
  induction 1 as [t Hf Hl He Ho Hk IH Hr]. intros Hn. destruct (decide (item t = a0)) as [E|E]; [|by exists []].
  assert (live_nodes t ≠ 0) as Hlive by (intros ?; by apply Hn). destruct (decide (count t = 0)) as [E0|E0].
  { exfalso. unfold lives in Hl. pose proof (lv_le (slots t)). pose proof (fr_count t Hf). lia. }
  pose proof (fr_count t Hf). destruct (He ltac:(lia)) as [[n Hkn] _]. destruct (IH _ _ Hkn (Hr _ _ Hkn)) as [k Hne].
  exists (tmin t :: k). cbn. by rewrite Hkn.
Qed.
Lemma wf_all_gone {A} `{EqDecision A} (a0 : A) ok t : wf a0 ok t → (∀ k, at_key a0 k t = a0) → count t = 0.
Proof.
  intros Hw H. destruct (decide (count t = 0)) as [|E0]; [done|]. pose proof (fr_count t (wf_frame _ _ _ Hw)).
  destruct (wf_edges _ _ _ Hw ltac:(lia)) as [[n Hkn] _].
  destruct (not_redundant_key a0 ok n (wf_kid _ _ _ _ _ Hw Hkn) (wf_red _ _ _ _ _ Hw Hkn)) as [k Hne]. exfalso. apply Hne.
  specialize (H (tmin t :: k)). cbn in H. by rewrite Hkn in H.
Qed.

Lemma keeps_op t m o i :
  keeps t m → byte_op o → (∀ k, multiplicity k m ≤ i)%nat → Z.of_nat i < 2 ^ 32 - 1 →
  ∃ r t' m', run_trie o t = Ok (r, t') ∧ says m o r m' ∧ keeps t' m' ∧ (∀ k, multiplicity k m' ≤ S i)%nat.
Proof.
  intros [Hw Hm] Hb Hi Hs. destruct o as [k|k|d|]; cbn [run_trie says].
  - destruct (trie_add_run k t Hw Hb) as (t' & Hrun & Hw' & _ & Hat); [rewrite Hm; specialize (Hi k); lia|]. erewrite bind_run by exact Hrun.
    eexists _, t', _. split; [done|]. split; [split; [|done]|split; [split; [done|]|]].
    + do 2 f_equal. rewrite Hm. symmetry. destruct (Z.eqb_spec (Z.of_nat (multiplicity k m)) 0).
      * apply bool_decide_eq_true_2, not_elem_of_multiplicity. lia.
      * apply bool_decide_eq_false_2. rewrite not_elem_of_multiplicity. lia.
    + intros k'. rewrite Hat, multiplicity_disj_union, multiplicity_singleton, !Hm. case_decide; [subst; lia|lia].
    + intros k'. rewrite multiplicity_disj_union, multiplicity_singleton. specialize (Hi k'). case_decide; lia.
  - destruct (trie_rm_run k t Hw) as (t' & Hrun & Hw' & Hat). erewrite bind_run by exact Hrun.
    eexists _, t', _. split; [done|]. split; [split; [|done]|split; [split; [done|]|]].
    + do 2 f_equal. rewrite Hm. symmetry. destruct (Z.eqb_spec (Z.of_nat (multiplicity k m)) 1).
      * apply bool_decide_eq_true_2. lia.
      * apply bool_decide_eq_false_2. lia.
    + intros k'. rewrite Hat, multiplicity_difference, multiplicity_singleton, !Hm. case_decide; [subst; lia|lia].
    + intros k'. rewrite multiplicity_difference. specialize (Hi k'). lia.
  - destruct (trie_check_run d t Hw) as (b & Hrun & Hbd). erewrite bind_run by exact Hrun. eexists _, t, m. split; [done|].
    split; [|split; [done|intros k; specialize (Hi k); lia]]. split; [done|]. exists b. split; [done|]. rewrite Hbd.
    split; intros (k & H1 & H2); exists k; [rewrite elem_of_multiplicity|rewrite elem_of_multiplicity in H1]; rewrite Hm in *; split; done || lia.
  - destruct (trie_apply_run t Hw) as (ks & Hrun & Hin & Hsrt). rewrite Hrun. eexists _, t, m. split; [done|].
    split; [|split; [done|intros k; specialize (Hi k); lia]]. split; [done|]. exists ks. split; [done|]. split; [|done]. intros k.
    rewrite Hin, elem_of_multiplicity, Hm. lia.
Qed.

(** C10: No program can tell the trie of subscriptions from a multiset of keys: from an
    empty trie on, and whatever is added, removed, checked and listed, [add] says whether
    the key is new, [rm] whether its last copy was removed, [check] whether a key that is
    in it is a prefix of the data, and [apply] calls the function once for each key, in
    lexicographic order. No array is read outside of its bounds, no assertion fails and no
    null pointer is followed. When all keys were removed, all nodes are gone. Fewer than
    2^32 operations are done, so that the 32-bit counts do not wrap around. *)
Theorem trie_refines_multiset ops :
  Forall byte_op ops → Z.of_nat (length ops) < 2 ^ 32 →
  ∃ rs t m, map_m run_trie ops new_trie = Ok (rs, t) ∧ said ∅ ops rs m ∧ (m = ∅ → count t = 0).
Proof.
  intros Hb Hlen.
  assert (∀ t m i, keeps t m → (∀ k, multiplicity k m ≤ i)%nat → Z.of_nat (i + length ops) < 2 ^ 32 →
    ∃ rs t' m', map_m run_trie ops t = Ok (rs, t') ∧ said m ops rs m' ∧ keeps t' m') as Hrun.
  { clear Hlen. induction Hb as [|o ops Ho Hb IH]; intros t m i Hk Hi Hlt; [by exists [], t, m|]. cbn [length] in Hlt.
    destruct (keeps_op t m o i Hk Ho Hi ltac:(lia)) as (r & t1 & m1 & Hr & Hsay & Hk1 & Hi1).
    destruct (IH t1 m1 (S i) Hk1 Hi1 ltac:(lia)) as (rs & t' & m' & Hrs & Hsaid & Hk').
    exists (r :: rs), t', m'. cbn [map_m]. erewrite bind_run by exact Hr. erewrite bind_run by exact Hrs. split; [done|]. split; [|done]. by exists m1. }
  destruct (Hrun new_trie ∅ 0%nat) as (rs & t & m & Hr & Hs & Hw & Hm).
  - split; [apply twf_new|]. intros k. unfold new_trie. rewrite at_new, multiplicity_empty. done.
  - intros k. by rewrite multiplicity_empty.
  - done.
  - exists rs, t, m. split_and!; [done|done|]. intros ->. eapply (wf_all_gone 0); [done|]. intros k. rewrite Hm, multiplicity_empty. done.
Qed.

(** Keys that make the arrays grow and shrink at both ends. *)
Definition subscribing : list trie_op :=
  [t_add [109; 1]; t_add [112]; t_add [97; 98]; t_add [112]; t_check [112; 0]; t_apply; t_rm [97; 98]; t_rm [112]; t_check [109]; t_rm [112];
   t_apply; t_rm [109; 1]; t_check [109; 1]].

Lemma trie_refines_multiset_witness :
  ∃ rs t m, map_m run_trie subscribing new_trie = Ok (rs, t) ∧ said ∅ subscribing rs m ∧ count t = 0.
Proof.
  destruct (trie_refines_multiset subscribing) as (rs & t & m & Hrun & Hs & _); [repeat constructor; done|done|].
  exists rs, t, m. split; [done|]. split; [done|]. vm_compute in Hrun. by injection Hrun as _ <-.
Defined.
