(* ===== verification/ZmqMtrieSpec.v ===== *)
(** * The trie of pipes holds who subscribed to what (libzmq/src, mtrie.cpp)

    The operations of [mtrie_t] on the map from keys to sets of pipes, by the lemmas of
    ZmqTrieSpec.v on nodes, and the refinement to a set of pairs of a key and a pipe.
    The assertion of [rm] is part of that: the theorem says which calls end the
    process. *)

From stdpp Require Import base tactics list numbers gmap sets strings sorting.
From S2P Require Import Prelude ZmqWire ZmqTrie ZmqTrieSpec.

Local Open Scope Z_scope.

Definition is_pipes (x : option (gset N)) : Prop := x ≠ Some ∅.
Notation mwf := (wf None is_pipes).
Notation mat := (at_key None).

Lemma mwf_new : mwf new_mtrie.
Proof. by apply wf_new. Qed.
Lemma mtrie_redundant_spec t : mtrie_redundant t = true ↔ redundant None t.
Proof. unfold mtrie_redundant, redundant, pipes. destruct (item t); cbn; [naive_solver|]. rewrite Z.eqb_eq. naive_solver. Qed.

(** ** Pruning in mtrie_t *)

Lemma table_at_next {A} (t t' : tnode A) i o : next t' = next t → table_at i t = Ok (o, t) → table_at i t' = Ok (o, t').
Proof.
  intros E. unfold table_at, next_table, mbind, M_bind, get_st. rewrite E. destruct (next t); try done. cbn. case_decide; [|done].
  case_match; [|done]. unfold mret, M_ret. congruence.
Qed.

Lemma mtrie_to_single_run c t t2 : rest c t t2 → live_nodes t2 = 1 → ∃ t', mtrie_to_single t2 = Ok ((), t') ∧ pruned c t t'.
Proof.
  intros Hr Hl1. pose proof Hr as [Hh Hmany Hin He]. pose proof Hh as [Hf Hl _ Hm Hc Hk]. pose proof (fr_min t2 Hf).
  assert (lv (slots t2) = 1%nat) as Hlv by (unfold lives in Hl; lia).
  destruct (find_live_run t2 id (λ j, kid (j + tmin t) t2) 0 (Z.to_nat (count t))) as ([i|] & Hrun & Hfound).
  { intros j Hj. apply (rest_table c); [done|lia]. }
  - destruct Hfound as (Hi & [x Hx] & _). unfold mtrie_to_single. rewrite (bind_run _ _ _ t2 t2) by done. rewrite Hc, Hm.
    erewrite bind_run by exact Hrun. cbv zeta iota. erewrite bind_run by done.
    assert (table_at i (set_count 1 (set_min (u8 (tmin t + i)) t2)) = Ok (Some x, set_count 1 (set_min (u8 (tmin t + i)) t2))) as Hat.
    { apply (table_at_next t2); [done|]. by rewrite (rest_table c t), Hx by (done || lia). }
    cbn [compose]. erewrite bind_run by exact Hat. eexists. split; [done|].
    apply (prune_single c t t2 _ (i + tmin t) x); try done. cbn. unfold u8. rewrite Z.mod_small; lia.
  - exfalso. assert (∀ e, kid e t2 = None) as Hno.
    { intros e. destruct (kid e t2) as [x|] eqn:E; [|done]. pose proof (kid_inside _ _ _ Hf E) as Hi. unfold inside in Hi.
      specialize (Hfound (e - tmin t) ltac:(lia)). replace (e - tmin t + tmin t) with e in Hfound by lia. congruence. }
    rewrite lv_none in Hlv; [done|]. intros i x Hi. apply slots_kid in Hi. by rewrite Hno in Hi.
Qed.

Lemma mtrie_compact_left_run c t t2 :
  rest c t t2 → c = tmin t → 2 ≤ live_nodes t2 → ∃ t', mtrie_compact_left t2 = Ok ((), t') ∧ pruned c t t'.
Proof.
  intros Hr Ec Hl2. pose proof Hr as [Hh Hmany Hin He]. pose proof Hh as [Hf Hl _ Hm Hc Hk]. pose proof (fr_min t2 Hf).
  destruct (scan_left _ _ _ Hr Ec) as (i & Hrun & Hi & [x Hx] & Hall). destruct (rest_last _ _ _ Hr ltac:(lia)) as [y Hy].
  assert (tmin t + i < tmin t + count t - 1) as Hlt by (eapply (two_kids t2); [done|exact Hx|done|]; intros e z Hz; specialize (Hall e z Hz); lia).
  unfold mtrie_compact_left. rewrite (bind_run _ _ _ t2 t2) by done. rewrite Hc, Hm. erewrite bind_run by exact Hrun. cbv zeta iota.
  assert (u8 (tmin t + i) = tmin t + i) as -> by (unfold u8; rewrite Z.mod_small; lia).
  assert (u16 (count t - i) = count t - i) as -> by (apply Z.mod_small; lia).
  erewrite bind_run by done. rewrite (table_move_run t2) by (done || lia). eexists. split; [done|].
  apply (prune_cut c t t2 _ i (count t - i)); try done; try lia.
  { replace (tmin t + i + (count t - i) - 1) with (tmin t + count t - 1) by lia. by eexists. }
  intros e z Hz. specialize (Hall e z Hz). lia.
Qed.

Lemma mtrie_compact_right_run c t t2 :
  rest c t t2 → c = tmin t + count t - 1 → 2 ≤ live_nodes t2 → ∃ t', mtrie_compact_right t2 = Ok ((), t') ∧ pruned c t t'.
Proof.
  intros Hr Ec Hl2. pose proof Hr as [Hh Hmany Hin He]. pose proof Hh as [Hf Hl _ Hm Hc Hk]. pose proof (fr_min t2 Hf).
  destruct (scan_right _ _ _ Hr Ec) as (i & Hrun & Hi & [x Hx] & Hall). destruct (rest_first _ _ _ Hr ltac:(lia)) as [y Hy].
  assert (tmin t < tmin t + count t - 1 - i) as Hlt by (eapply (two_kids t2); [done|exact Hy|done|]; intros e z Hz; specialize (Hall e z Hz); lia).
  unfold mtrie_compact_right. rewrite (bind_run _ _ _ t2 t2) by done. rewrite Hc. erewrite bind_run by exact Hrun. cbv zeta iota.
  assert (u16 (count t - i) = count t - i) as -> by (apply Z.mod_small; lia).
  erewrite bind_run by done. erewrite (table_move_run t2) by (done || lia). eexists. split; [done|].
  apply (prune_cut c t t2 _ 0 (count t - i)); try done; try lia; cbn; rewrite ?Z.add_0_r; try lia; try by eexists.
  - replace (tmin t + (count t - i) - 1) with (tmin t + count t - 1 - i) by lia. by exists x.
  - intros e z Hz. specialize (Hall e z Hz). lia.
Qed.

Lemma mtrie_prune_run t c n :
  frame t → lives t → edges t → kid c t = Some n → ∃ t', mtrie_prune c t = Ok ((), t') ∧ pruned c t t'.
Proof.
  intros Hf Hl He Hk. assert (inside c t) as Hi by by eapply kid_inside. pose proof (fr_min t Hf) as Hm. pose proof (fr_count t Hf) as Hct.
  pose proof (lv_le (slots t)) as Hlv. pose proof Hi as Hi'. unfold inside in Hi'. unfold mtrie_prune. rewrite (bind_run _ _ _ t t) by done.
  rewrite (proj2 (Z.gtb_lt (count t) 0)) by lia. erewrite bind_run by done. destruct (count t =? 1) eqn:E1.
  { apply Z.eqb_eq in E1. assert (live_nodes t = 1) as Hl1.
    { unfold lives in Hl. destruct (slots_one t Hf E1) as (o & _ & Hs). unfold kid in Hk. rewrite Hs in *. apply ptr_inside in Hk as [? Hk].
      destruct (Z.to_nat _) as [|[]]; [|done..]. injection Hk as ->. done. }
    erewrite bind_run by done. erewrite bind_run by done. erewrite bind_run by done. cbn. rewrite Hl1. eexists. split; [done|].
    by eapply prune_last. }
  apply Z.eqb_neq in E1. erewrite bind_run by (apply table_put_run; [done|lia|done]).
  pose proof (hole_run t c n Hf Hl Hk) as Hh. set (t2 := set_live (live_nodes t - 1) (tput c None t)) in *.
  destruct (He ltac:(lia)) as [[x1 K1] [x2 K2]].
  assert (2 ≤ live_nodes t) as Hl2.
  { unfold lives in Hl. apply ptr_inside in K1 as [_ K1], K2 as [_ K2]. pose proof (lv_two _ _ _ _ _ K1 K2 ltac:(lia)). lia. }
  assert (u16 (live_nodes t - 1) = live_nodes t - 1) as -> by (apply Z.mod_small; unfold lives in Hl; lia).
  rewrite (proj2 (Z.gtb_lt (live_nodes t) 1)) by lia. erewrite bind_run by done. erewrite bind_run by done. fold t2.
  assert (rest c t t2) as Hr by (split; [done|lia|done|done]). change (live_nodes t - 1) with (live_nodes t2).
  destruct (live_nodes t2 =? 1) eqn:El; [apply Z.eqb_eq in El; by apply mtrie_to_single_run|]. apply Z.eqb_neq in El.
  assert (2 ≤ live_nodes t2) as Hl3 by (subst t2; cbn in *; lia).
  destruct (c =? tmin t) eqn:Ec; [apply Z.eqb_eq in Ec; by apply mtrie_compact_left_run|].
  destruct (c =? tmin t + count t - 1) eqn:Ec2; [apply Z.eqb_eq in Ec2; by apply mtrie_compact_right_run|].
  apply Z.eqb_neq in Ec, Ec2. exists t2. split; [done|]. by apply rest_pruned.
Qed.

(** ** Adding a subscription *)

Lemma mtrie_make_run c t t1 :
  mwf t → ready c t t1 → kid c t1 = kid c t →
  ∃ t2 n, mtrie_make c t1 = Ok ((), t2) ∧ ready c t t2 ∧ kid c t2 = Some n ∧ mwf n ∧ ∀ k, mat k n = mat (c :: k) t.
Proof.
  intros Hw Hr Hk. pose proof Hr as [Hf Hi Ht Hl Hit Hkk]. unfold mtrie_make.
  erewrite bind_run by by apply slot_at_run. destruct (kid c t1) as [n|] eqn:En.
  { exists t1, n. split; [done|]. split; [done|]. split; [done|]. split; [by eapply wf_kid|]. intros k. cbn. by rewrite <- Hk. }
  pose proof (live_room t1 Hf Hl) as Hroom. erewrite bind_run by by apply slot_put_run. assert (0 ≤ live_nodes t1) as Hpos by (unfold lives in Hl; lia).
  set (t2 := set_live (live_nodes t1 + 1) (tput c (Some new_mtrie) t1)). exists t2, new_mtrie. split_and!.
  - unfold modify. change (live_nodes (tput _ _ ?x)) with (live_nodes x). by assert (u16 (live_nodes t1 + 1) = live_nodes t1 + 1) as -> by (apply Z.mod_small; lia).
  - apply ready_put; [done|done|lia].
  - change (kid c t2) with (kid c (tput c (Some new_mtrie) t1)). rewrite tput_kid by done. by rewrite decide_True.
  - apply mwf_new.
  - intros k. unfold new_mtrie. rewrite at_new. cbn. by rewrite <- Hk.
Qed.

Lemma mtrie_add_run k p t :
  mwf t → Forall is_byte k →
  ∃ t', mtrie_add k p t = Ok (if mat k t then false else true, t') ∧ mwf t' ∧ ¬ redundant None t' ∧
    ∀ k', mat k' t' = if decide (k' = k) then Some ({[p]} ∪ default ∅ (mat k t)) else mat k' t.
Proof.
  revert t. induction k as [|c k IH]; intros t Hw Hb; cbn [mtrie_add].
  - unfold pipes. rewrite (bind_run _ _ _ t t) by done. erewrite bind_run by done. eexists. split; [done|]. split_and!.
    + destruct Hw as [Hf Hl He _ Hk Hr]. apply Wf; try done; [by destruct Hf|]. intros [= E]. set_solver.
    + intros [E _]. done.
    + intros [|c k']; done.
  - apply Forall_cons_iff in Hb as [Hbc Hb]. destruct (extend_ready _ _ t c Hw Hbc) as (t1 & Hr1 & Hrd & Hk1). erewrite bind_run by exact Hr1.
    destruct (mtrie_make_run c t t1 Hw Hrd Hk1) as (t2 & n & Hr2 & Hrd2 & Hk2 & Hwn & Hat). erewrite bind_run by exact Hr2.
    destruct (IH n Hwn Hb) as (n' & Hrun & Hwn' & Hrn & Hat'). eexists. rewrite Hat in Hrun.
    split; [by apply (on_slot_run t2 c n); [apply Hrd2|..]|]. split_and!.
    + by eapply (ready_child _ _ c t t2 n).
    + intros [_ E]. pose proof (proj1 (lives_zero _ _ _ (ready_child _ _ c t t2 n n' Hw Hrd2 Hk2 Hwn' Hrn)) E c) as Hno.
      rewrite tput_kid, decide_True in Hno by (done || apply Hrd2). done.
    + apply (at_change None c k t _ (λ _, Some ({[p]} ∪ default ∅ (mat (c :: k) t)))).
      * apply Hrd2.
      * intros c' Hne. rewrite tput_kid by apply Hrd2. rewrite decide_False by done. by apply Hrd2.
      * intros k'. rewrite (at_put _ _ t) by done. rewrite Hat', !Hat. done.
Qed.

(** ** Removing one subscription *)

(** The pipes at a key without one of them. *)
Definition without (p : N) (x : option (gset N)) : option (gset N) := x ≫= erase_pipe p.

Lemma without_ok p x : is_pipes x → is_pipes (without p x).
Proof. unfold is_pipes, without, erase_pipe. destruct x as [s|]; cbn; [|done]. case_decide; congruence. Qed.

(** There is a node for the key. *)
Fixpoint has_node (k : list Z) (t : mtrie_t) : bool :=
  match k with [] => true | c :: k => match kid c t with Some n => has_node k n | None => false end end.

Lemma has_node_spec k t : mwf t → has_node k t = true ↔ k = [] ∨ ∃ k', k `prefix_of` k' ∧ mat k' t ≠ None.
Proof.
  revert t. induction k as [|c k IH]; intros t Hw; cbn; [naive_solver|]. destruct (kid c t) as [n|] eqn:Hk.
  - pose proof (wf_kid _ _ _ _ _ Hw Hk) as Hwn. rewrite (IH n Hwn). split.
    + intros H. right. assert (∃ k', k `prefix_of` k' ∧ mat k' n ≠ None) as (k' & Hp & Hne).
      { destruct H as [->|H]; [|done]. destruct (not_redundant_key None is_pipes n Hwn (wf_red _ _ _ _ _ Hw Hk)) as [k' Hne].
        exists k'. split; [apply prefix_nil|done]. }
      exists (c :: k'). split; [by apply prefix_cons|]. cbn. by rewrite Hk.
    + intros [?|([|c' k'] & Hp & Hne)]; [done|by apply prefix_nil_not in Hp|]. pose proof (prefix_cons_inv_1 _ _ _ _ Hp). subst c'.
      right. exists k'. split; [by apply prefix_cons_inv_2 in Hp|]. cbn in Hne. by rewrite Hk in Hne.
  - split; [done|]. intros [?|([|c' k'] & Hp & Hne)]; [done|by apply prefix_nil_not in Hp|]. pose proof (prefix_cons_inv_1 _ _ _ _ Hp). subst c'.
    cbn in Hne. by rewrite Hk in Hne.
Qed.

Lemma mtrie_rm_run k p t :
  mwf t → (∀ s, mat k t = Some s → p ∈ s) →
  ∃ t', mtrie_rm k p t = Ok (has_node k t && (if without p (mat k t) then false else true), t') ∧ mwf t' ∧
    ∀ k', mat k' t' = if decide (k' = k) then without p (mat k t) else mat k' t.
Proof.
  revert t. induction k as [|c k IH]; intros t Hw Hin; cbn [mtrie_rm has_node].
  - rewrite (bind_run _ _ _ t t) by done. unfold pipes. cbn [at_key] in *. exists (set_item (without p (item t)) t).
    erewrite (bind_run _ _ t () (set_item (without p (item t)) t)).
    2:{ destruct (item t) as [s|] eqn:E; cbn; [|by destruct t; cbn in *; subst]. by rewrite bool_decide_true by by apply Hin. }
    rewrite (bind_run _ _ _ _ _ eq_refl). split; [done|]. split.
    + pose proof (without_ok p _ (wf_ok _ _ _ Hw)). destruct Hw as [Hf Hl He _ Hk Hr]. apply Wf; try done. by destruct Hf.
    + intros [|c k']; done.
  - rewrite (bind_run _ _ _ t t) by done. pose proof (wf_frame _ _ _ Hw) as Hf.
    assert (kid c t = None → ∀ k', mat k' t = if decide (k' = c :: k) then without p (mat (c :: k) t) else mat k' t) as Hnone.
    { intros Hk k'. case_decide; [|done]. subst k'. cbn. by rewrite Hk. }
    destruct ((count t =? 0) || outside c t) eqn:Eg.
    { assert (kid c t = None) as Hk; [|exists t; rewrite Hk; auto]. apply outside_kid; [done|]. apply orb_true_iff in Eg as [Eg|]; [|done]. apply Z.eqb_eq in Eg.
      destruct (outside c t) eqn:Eo; [done|]. apply outside_spec in Eo. unfold inside in Eo. lia. }
    apply orb_false_iff in Eg as [_ Eg%outside_spec]. erewrite bind_run by by apply slot_at_run. destruct (kid c t) as [n|] eqn:Hk.
    2:{ exists t. split; [done|]. split; [done|]. by apply Hnone. }
    clear Hnone. pose proof (wf_kid _ _ _ _ _ Hw Hk) as Hwn. assert (mat (c :: k) t = mat k n) as Ek by (cbn; by rewrite Hk). rewrite Ek in *.
    destruct (IH n Hwn Hin) as (n' & Hrun & Hwn' & Hat).
    erewrite bind_run by (by apply (on_slot_run t c n)). destruct (put_edges _ _ c t n n' Hw Hk) as (Hf1 & Hl1 & He1 & Hk1).
    set (t1 := tput c (Some n') t) in *. erewrite bind_run by (apply slot_at_run; [done|by eapply kid_inside]). rewrite Hk1.
    destruct (mtrie_redundant n') eqn:Er.
    + destruct (mtrie_prune_run t1 c n' Hf1 Hl1 He1 Hk1) as (t' & Hp & Hpr). unfold when. erewrite bind_run by exact Hp. exists t'. split; [done|].
      split; [exact (pruned_wf _ _ c t t1 t' n n' Hw Hk eq_refl Hpr)|]. destruct Hpr as (_ & _ & _ & Hi' & Hk'). apply mtrie_redundant_spec in Er.
      apply (at_change None c k t _ (λ _, without p (mat k n))); [done| |].
      * intros c' Hne. rewrite Hk', decide_False by done. unfold t1. rewrite tput_kid by done. by rewrite decide_False.
      * intros k'. cbn. rewrite Hk', decide_True, Hk by done. rewrite <- Hat. symmetry. by eapply redundant_empty.
    + exists t1. split; [done|]. pose proof (wf_ready _ _ _ _ _ Hw Hk) as Hrd. split.
      * apply (ready_child None is_pipes c t t n n' Hw Hrd Hk Hwn'). rewrite <- mtrie_redundant_spec. by rewrite Er.
      * apply (at_change None c k t _ (λ _, without p (mat k n))); [done| |].
        -- intros c' Hne. unfold t1. rewrite tput_kid by done. by rewrite decide_False.
        -- intros k'. unfold t1. rewrite (at_put _ _ t) by done. rewrite Hat. cbn. by rewrite Hk.
Qed.

(** The pipe is not one of those at the key. *)
Lemma mtrie_rm_abort k p t s : mwf t → mat k t = Some s → p ∉ s → mtrie_rm k p t = Err (Fatal "Assertion failed").
Proof.
  revert t. induction k as [|c k IH]; intros t Hw Hs Hp; cbn [mtrie_rm]; rewrite (bind_run _ _ _ t t) by done.
  - cbn in Hs. unfold pipes. rewrite Hs, bool_decide_false by done. by erewrite bind_err by done.
  - cbn in Hs. destruct (kid c t) as [n|] eqn:Hk; [|done]. pose proof (wf_frame _ _ _ Hw) as Hf. pose proof (kid_inside _ _ _ Hf Hk) as Hi.
    rewrite (proj2 (outside_spec c t) Hi). unfold inside in Hi. rewrite (proj2 (Z.eqb_neq (count t) 0)) by lia. cbn [orb].
    erewrite bind_run by by apply slot_at_run. rewrite Hk. erewrite bind_err; [done|]. unfold on_slot. erewrite bind_run by by apply slot_at_run.
    rewrite Hk. by rewrite (IH n (wf_kid _ _ _ _ _ Hw Hk) Hs Hp).
Qed.

(** ** Matching *)

(** The pipes the function is called with: those of each prefix, the shorter ones first. *)
Fixpoint matches (f : list Z → option (gset N)) (d : list Z) : list N :=
  elements (default ∅ (f [])) ++ match d with [] => [] | c :: d => matches (λ k, f (c :: k)) d end.

Lemma matches_none d : matches (λ _, None) d = [].
Proof. induction d as [|c d IH]; cbn; [done|]. by rewrite IH. Qed.
Lemma matches_ext f g d : (∀ k, f k = g k) → matches f d = matches g d.
Proof. revert f g. induction d as [|c d IH]; intros f g H; cbn; rewrite H; [done|]. f_equal. by apply IH. Qed.

Lemma mtrie_match_run d t : mwf t → mtrie_match d t = Ok (matches (λ k, mat k t) d, t).
Proof.
  revert t. induction d as [|c d IH]; intros t Hw; cbn [mtrie_match matches at_key]; rewrite (bind_run _ _ _ t t) by done; unfold pipes;
    (assert (match item t with Some s => elements s | None => [] end = elements (default ∅ (item t))) as -> by (by destruct (item t))); [by rewrite app_nil_r|].
  set (own := elements (default ∅ (item t))). pose proof (wf_frame _ _ _ Hw) as Hf. pose proof (fr_count t Hf).
  assert (kid c t = None → (mret own : M mtrie_t _) t = Ok (own ++ matches (λ k, match kid c t with Some n => mat k n | None => None end) d, t)) as Hnone.
  { intros ->. by rewrite matches_none, app_nil_r. }
  assert (∀ n, kid c t = Some n → (ps ← on_slot c (mtrie_match d); mret (own ++ ps)) t =
    Ok (own ++ matches (λ k, match kid c t with Some n => mat k n | None => None end) d, t)) as Hsome.
  { intros n Hk. erewrite bind_run by (apply (on_slot_run t c n); [done|done|apply IH; exact (wf_kid _ _ _ _ _ Hw Hk)]). rewrite Hk.
    by rewrite tput_same. }
  destruct (count t =? 0) eqn:E0.
  { apply Z.eqb_eq in E0. apply Hnone. destruct (kid c t) as [n|] eqn:Hk; [|done]. apply (kid_inside _ _ _ Hf) in Hk. unfold inside in Hk. lia. }
  apply Z.eqb_neq in E0. destruct (count t =? 1) eqn:E1.
  - apply Z.eqb_eq in E1. destruct (c =? tmin t) eqn:Ec; cbn [negb].
    + apply Z.eqb_eq in Ec. subst c. destruct (wf_edges _ _ _ Hw ltac:(lia)) as [[n Hn] _]. by apply (Hsome n).
    + apply Z.eqb_neq in Ec. apply Hnone. destruct (kid c t) as [n|] eqn:Hk; [|done]. apply (kid_inside _ _ _ Hf) in Hk. unfold inside in Hk. lia.
  - apply Z.eqb_neq in E1. destruct (outside c t) eqn:Eo; [by apply Hnone, outside_kid|]. apply outside_spec in Eo. unfold inside in Eo.
    erewrite bind_run by (apply table_at_run; [done|lia|lia]). change (ptr (slots t) (c - tmin t)) with (kid c t).
    destruct (kid c t) as [n|] eqn:Hk; [|by apply Hnone]. by apply (Hsome n).
Qed.

(** ** The array after its nodes were visited *)

Lemma holed_self {A} (t : tnode A) : frame t → lives t → holed (-1) t t.
Proof.
  intros Hf Hl. split; try done. intros c'. case_decide as E; [subst c'|done]. destruct (kid (-1) t) as [n|] eqn:Hk; [|done].
  apply (kid_inside _ _ _ Hf) in Hk. unfold inside in Hk. pose proof (fr_min t Hf). lia.
Qed.

Lemma mtrie_shrink_run t mn mx :
  frame t → lives t → 1 < count t →
  (∀ c n, kid c t = Some n → mn ≤ c ≤ mx) → mn ≤ tmin t + count t - 1 → tmin t ≤ mx →
  (mn = tmin t + count t - 1 ∨ is_Some (kid mn t)) → (mx = tmin t ∨ is_Some (kid mx t)) →
  ∃ t', mtrie_shrink mn mx t = Ok ((), t') ∧ pruned (-1) t t'.
Proof.
  intros Hf Hl Hc Hall Hmn Hmx K1 K2. pose proof (holed_self t Hf Hl) as Hh. pose proof (fr_min t Hf) as Hm. unfold mtrie_shrink.
  rewrite (bind_run _ _ _ t t) by done. rewrite (proj2 (Z.gtb_lt (count t) 1)) by lia. erewrite bind_run by done.
  assert (∀ c n, kid c t = Some n → tmin t ≤ c < tmin t + count t) as Hin by (intros c n Hk; by apply (kid_inside _ _ _ Hf) in Hk).
  destruct (live_nodes t =? 0) eqn:E0.
  { apply Z.eqb_eq in E0. assert (∀ c, kid c t = None) as Hno.
    { intros c. destruct (kid c t) as [n|] eqn:Hk; [|done]. apply ptr_inside in Hk as [_ Hk]. pose proof (lv_some _ _ _ Hk). unfold lives in Hl. lia. }
    eexists. split; [done|]. destruct (empty_node (set_count 0 (set_next (n_table []) t))) as (? & ? & ? & Hk'); [done|done|cbn; lia|].
    split_and!; try done. intros c. cbn [compose]. rewrite Hk', Hno. by case_decide. }
  apply Z.eqb_neq in E0. assert (∃ c n, kid c t = Some n) as (e & x & He).
  { destruct (decide (lv (slots t) = 0%nat)) as [E|E]; [unfold lives in Hl; lia|].
    assert (∃ j x, slots t !! j = Some (Some x)) as (j & x & Hj); [|by eexists _, _; apply (slots_kid _ j x)].
    clear -E. induction (slots t) as [|[x|] l IH]; [done|by exists 0%nat, x|]. destruct (IH E) as (j & y & Hj). by exists (S j), y. }
  assert (is_Some (kid mn t)) as [x1 Hx1]. { destruct K1 as [->|]; [|done]. specialize (Hall _ _ He). specialize (Hin _ _ He). assert (e = tmin t + count t - 1) as <- by lia. by eexists. }
  assert (is_Some (kid mx t)) as [x2 Hx2]. { destruct K2 as [->|]; [|done]. specialize (Hall _ _ He). specialize (Hin _ _ He). assert (e = tmin t) as <- by lia. by eexists. }
  clear K1 K2 e x He. pose proof (Hin _ _ Hx1) as I1. pose proof (Hin _ _ Hx2) as I2. pose proof (Hall _ _ Hx1) as I3.
  destruct (live_nodes t =? 1) eqn:E1.
  - apply Z.eqb_eq in E1. assert (lv (slots t) = 1%nat) as Hlv by (unfold lives in Hl; lia).
    assert (mn = mx) as <-.
    { destruct (decide (mn < mx)); [|lia]. apply ptr_inside in Hx1 as [_ Hx1], Hx2 as [_ Hx2]. pose proof (lv_two _ _ _ _ _ Hx1 Hx2 ltac:(lia)). lia. }
    rewrite Z.eqb_refl. erewrite bind_run by done. rewrite Z.geb_leb, (proj2 (Z.leb_le (tmin t) mn)), (proj2 (Z.ltb_lt mn (tmin t + count t))) by lia.
    erewrite bind_run by done. erewrite bind_run by (apply table_at_run; [done|lia|lia]). change (ptr (slots t) (mn - tmin t)) with (kid mn t).
    rewrite Hx1. erewrite bind_run by done. eexists. split; [done|]. by apply (prune_single (-1) t t _ mn x1).
  - apply Z.eqb_neq in E1. assert (2 ≤ live_nodes t) as Hl2 by (unfold lives in Hl; lia).
    assert (mn < mx) as Hlt by (by eapply (two_kids t mn mx)). destruct ((mn >? tmin t) || (mx <? tmin t + count t - 1)) eqn:Eg.
    + apply orb_true_iff in Eg. rewrite Z.gtb_lt, Z.ltb_lt in Eg. rewrite (proj2 (Z.gtb_lt (mx - mn + 1) 1)) by lia. do 2 erewrite bind_run by done.
      rewrite Z.geb_leb, (proj2 (Z.leb_le (tmin t) mn)), (proj2 (Z.leb_le mx (tmin t + count t - 1))), (proj2 (Z.ltb_lt (mx - mn + 1) (count t))) by lia.
      do 3 erewrite bind_run by done. cbv zeta. assert (u16 (mx - mn + 1) = mx - mn + 1) as -> by (apply Z.mod_small; lia).
      erewrite bind_run by done. erewrite bind_run by (apply (table_move_run t); done || lia). eexists. split; [done|].
      apply (prune_cut (-1) t t _ (mn - tmin t) (mx - mn + 1)); try done; try lia; cbn; try lia.
      * replace (tmin t + (mn - tmin t)) with mn by lia. by eexists.
      * replace (tmin t + (mn - tmin t) + (mx - mn + 1) - 1) with mx by lia. by eexists.
      * intros c n Hk. specialize (Hall _ _ Hk). lia.
    + apply orb_false_iff in Eg as [Eg1 Eg2]. rewrite Z.gtb_ltb in Eg1. apply Z.ltb_ge in Eg1, Eg2. exists t. split; [done|]. destruct Hh. split_and!; try done.
      intros _. replace (tmin t) with mn at 1 by lia. replace (tmin t + count t - 1) with mx by lia. rewrite Hx1, Hx2. by split.
Qed.

(** ** Removing all subscriptions of a pipe *)

Section rm_pipe.
Context (p : N) (uniq : bool).

(** The function is called for a key with these pipes. *)
Definition tells (x : option (gset N)) : Prop := ∃ s, x = Some s ∧ p ∈ s ∧ (uniq = true → s ∖ {[p]} = ∅).

Definition notified (t : mtrie_t) (ks : list (list Z)) : Prop := (∀ k, k ∈ ks ↔ tells (mat k t)) ∧ StronglySorted lex ks.
Definition dropped (t t' : mtrie_t) : Prop := mwf t' ∧ ∀ k, mat k t' = without p (mat k t).

(** [rm_helper] does its work on the node [n] below any key. *)
Definition drops (n : mtrie_t) : Prop := ∀ key max b, holds key max b →
  ∃ ks n' b', mtrie_rm_pipe_helper p uniq n (Z.of_nat (length key)) max b = Ok (((key ++.) <$> ks, n'), b') ∧ holds key max b' ∧
    notified n ks ∧ dropped n n'.

(** The loop over the array. *)
Definition rm_loop (t : mtrie_t) (bs max : Z)
    : Z → Z → Z → Z → list (option mtrie_t) → M buffer (list (list Z) * list (option mtrie_t) * Z * Z * Z) :=
  fix loop (c live new_min new_max : Z) (l : list (option mtrie_t)) : M buffer (list (list Z) * list (option mtrie_t) * Z * Z * Z) :=
    if c =? count t then mret ([], l, live, new_min, new_max)
    else
      match l with
      | [] => undefined OutOfBounds
      | o :: l =>
          buff_put bs (u8 (tmin t + c));;
          match o with
          | None =>
              '(ks, l', live', mn, mx) ← loop (c + 1) live new_min new_max l;
              mret (ks, None :: l', live', mn, mx)
          | Some n =>
              r ← mtrie_rm_pipe_helper p uniq n (bs + 1) max;
              if mtrie_redundant r.2 then
                (if live >? 0 then mret () else throw (Fatal "Assertion failed"));;
                '(ks, l', live', mn, mx) ← loop (c + 1) (u16 (live - 1)) new_min new_max l;
                mret (r.1 ++ ks, None :: l', live', mn, mx)
              else
                '(ks, l', live', mn, mx) ← loop (c + 1) live (if c + tmin t <? new_min then u8 (c + tmin t) else new_min)
                                             (if c + tmin t >? new_max then u8 (c + tmin t) else new_max) l;
                mret (r.1 ++ ks, Some r.2 :: l', live', mn, mx)
          end
      end.

Lemma mtrie_rm_pipe_helper_eq t bs max :
  mtrie_rm_pipe_helper p uniq t bs max =
    (let '(call, t1) := erase_here p uniq t in
     own ← (if call : bool then k ← buff_key bs; mret [k] else mret []);
     max ← buff_adjust bs max;
     if count t =? 0 then mret (own, t1)
     else if count t =? 1 then
       buff_put bs (tmin t);;
       match next t with
       | n_node (Some n) =>
           r ← mtrie_rm_pipe_helper p uniq n (bs + 1) max;
           if mtrie_redundant r.2 then
             let live := u16 (live_nodes t - 1) in
             (if live =? 0 then mret () else throw (Fatal "Assertion failed"));;
             mret (own ++ r.1, set_live live (set_count 0 (set_next (n_node None) t1)))
           else mret (own ++ r.1, set_next (n_node (Some r.2)) t1)
       | n_node None => undefined NullDeref
       | n_unset => undefined Uninitialised
       | n_table _ => undefined BadCast
       end
     else
       match next t with
       | n_table l =>
           r ← rm_loop t bs max 0 (live_nodes t) (u8 (tmin t + count t - 1)) (tmin t) l;
           let '(ks, l', live', mn, mx) := r in
           r' ← run_node (mtrie_shrink mn mx) (set_live live' (set_next (n_table l') t1));
           mret (own ++ ks, r'.2)
       | n_unset => undefined Uninitialised
       | n_node _ => undefined BadCast
       end).
Proof. by destruct t. Qed.

Lemma drops_child n key c max b : drops n → holds (key ++ [c]) max b →
  ∃ ks n' b', mtrie_rm_pipe_helper p uniq n (Z.of_nat (length key) + 1) max b = Ok (((key ++.) <$> ((c ::.) <$> ks), n'), b') ∧ holds key max b' ∧
    notified n ks ∧ dropped n n'.
Proof.
  intros Hn Hh. destruct (Hn _ _ _ Hh) as (ks & n' & b' & Hrun & Hh' & Hl & Hd). exists ks, n', b'. rewrite length_app in Hrun. cbn in Hrun.
  replace (Z.of_nat (length key) + 1) with (Z.of_nat (length key + 1)) by lia. rewrite Hrun, <- list_fmap_compose. split_and!; [|by eapply holds_weaken|done|done].
  do 3 f_equal. apply list_fmap_ext. intros _ k _. cbn. by rewrite <- (assoc_L (++)).
Qed.

(** A slot before and after the loop. *)
Definition after (o o' : option mtrie_t) : Prop :=
  match o, o' with
  | None, None => True
  | Some n, Some n' => dropped n n' ∧ ¬ redundant None n'
  | Some n, None => ∀ k, without p (mat k n) = None
  | None, Some _ => False
  end.

(** The characters in [x .. y] are those of subnodes, as far as the loop has come. *)
Definition spans (t : mtrie_t) (i : Z) (l : list (option mtrie_t)) (mn mx mn' mx' : Z) : Prop :=
  (∀ j n, l !! j = Some (Some n) → mn' ≤ tmin t + i + Z.of_nat j ≤ mx') ∧ mn' ≤ mn ∧ mx ≤ mx' ∧
  (mn' = mn ∨ ∃ j n, l !! j = Some (Some n) ∧ mn' = tmin t + i + Z.of_nat j) ∧
  (mx' = mx ∨ ∃ j n, l !! j = Some (Some n) ∧ mx' = tmin t + i + Z.of_nat j).

Lemma spans_none t i l mn mx mn' mx' : spans t (i + 1) l mn mx mn' mx' → spans t i (None :: l) mn mx mn' mx'.
Proof.
  intros (H1 & H2 & H3 & H4 & H5). split_and!; try done.
  - intros [|j] n Hj; [done|]. specialize (H1 j n Hj). lia.
  - destruct H4 as [?|(j & n & Hj & ->)]; [by left|]. right. exists (S j), n. split; [done|lia].
  - destruct H5 as [?|(j & n & Hj & ->)]; [by left|]. right. exists (S j), n. split; [done|lia].
Qed.
Lemma spans_some t i l mn mx mn' mx' n :
  spans t (i + 1) l (mn `min` (i + tmin t)) (mx `max` (i + tmin t)) mn' mx' → spans t i (Some n :: l) mn mx mn' mx'.
Proof.
  intros (H1 & H2 & H3 & H4 & H5). split_and!; try lia.
  - intros [|j] m Hj; [lia|]. specialize (H1 j m Hj). lia.
  - destruct H4 as [E|(j & m & Hj & ->)]; [|right; exists (S j), m; split; [done|lia]].
    destruct (decide (mn ≤ i + tmin t)); [left; lia|]. right. exists 0%nat, n. split; [done|lia].
  - destruct H5 as [E|(j & m & Hj & ->)]; [|right; exists (S j), m; split; [done|lia]].
    destruct (decide (i + tmin t ≤ mx)); [left; lia|]. right. exists 0%nat, n. split; [done|lia].
Qed.

(** The keys the function is called with below the slots of [l]. *)
Definition told_below (t : mtrie_t) (i : Z) (l : list (option mtrie_t)) (ks : list (list Z)) : Prop :=
  StronglySorted lex ks ∧
  ∀ k, k ∈ ks ↔ ∃ j n k0, l !! j = Some (Some n) ∧ k = (tmin t + i + Z.of_nat j) :: k0 ∧ tells (mat k0 n).

Lemma told_nil t i : told_below t i [] [].
Proof. split; [constructor|]. intros k. split; [set_solver|naive_solver]. Qed.
Lemma told_none t i l ks : told_below t (i + 1) l ks → told_below t i (None :: l) ks.
Proof.
  intros [Hs Hin]. split; [done|]. intros k. rewrite Hin. split.
  - intros (j & n & k0 & Hj & -> & Ht). exists (S j), n, k0. split_and!; [done|f_equal; lia|done].
  - intros ([|j] & n & k0 & Hj & -> & Ht); [done|]. exists j, n, k0. split_and!; [done|f_equal; lia|done].
Qed.
Lemma told_cons t i l ks ks' n :
  notified n ks → told_below t (i + 1) l ks' → told_below t i (Some n :: l) ((((tmin t + i) ::.) <$> ks) ++ ks').
Proof.
  intros [Hin Hs] [Hs' Hin']. split.
  - apply sorted_snoc_keys; [done|done|]. intros k (j & m & k0 & _ & -> & _)%Hin'. eexists _, _. split; [done|lia].
  - intros k. rewrite elem_of_app, list_elem_of_fmap, Hin'. split.
    + intros [(k0 & -> & Ht%Hin)|(j & m & k0 & Hj & -> & Ht)].
      * exists 0%nat, n, k0. split_and!; [done|f_equal; lia|done].
      * exists (S j), m, k0. split_and!; [done|f_equal; lia|done].
    + intros ([|j] & m & k0 & Hj & -> & Ht).
      * left. exists k0. injection Hj as ->. split; [f_equal; lia|by apply Hin].
      * right. exists j, m, k0. split_and!; [done|f_equal; lia|done].
Qed.

Lemma rm_loop_run t key max l i live mn mx b :
  0 ≤ i → i + Z.of_nat (length l) = count t → 0 ≤ tmin t → tmin t + count t ≤ 256 → (∀ n, Some n ∈ l → drops n) →
  Z.of_nat (length key) < max → holds key max b → Z.of_nat (lv l) ≤ live < 2 ^ 16 →
  ∃ ks l' live' mn' mx' b', rm_loop t (Z.of_nat (length key)) max i live mn mx l b = Ok (((key ++.) <$> ks, l', live', mn', mx'), b') ∧
    holds key max b' ∧ told_below t i l ks ∧ Forall2 after l l' ∧ live' = live - Z.of_nat (lv l) + Z.of_nat (lv l') ∧ spans t i l' mn mx mn' mx'.
Proof.
  intros Hi Hc Hm0 Hm Hl Hmax. revert i live mn mx b Hi Hc. induction l as [|o l IH]; intros i live mn mx b Hi Hc Hh Hlive.
  { cbn in *. rewrite (proj2 (Z.eqb_eq i (count t))) by lia. exists [], [], live, mn, mx, b.
    split_and!; [done|done|apply told_nil|constructor|cbn; lia|]. split_and!; try lia; auto. done. }
  cbn [length] in Hc. cbn [rm_loop]. rewrite (proj2 (Z.eqb_neq i (count t))) by lia.
  assert (u8 (tmin t + i) = tmin t + i) as -> by (apply Z.mod_small; lia).
  destruct (holds_put key max b (tmin t + i) Hh Hmax) as (b1 & Hput & Hh1). erewrite bind_run by exact Hput.
  specialize (IH ltac:(set_solver)). destruct o as [n|].
  2:{ destruct (IH (i + 1) live mn mx b1) as (ks & l' & live' & mn' & mx' & b2 & Hr & Hh2 & Ht & Ha & Hlv & Hsp); [lia|lia|by eapply holds_weaken|done|].
      erewrite bind_run by exact Hr. exists ks, (None :: l'), live', mn', mx', b2.
      split_and!; [done|done|by apply told_none|by constructor|done|by apply spans_none]. }
  destruct (drops_child n key (tmin t + i) max b1) as (ks & n' & b2 & Hr & Hh2 & Hk & Hd); [apply Hl; by left|done|].
  erewrite bind_run by exact Hr. cbn [fst snd]. change (lv (Some n :: l)) with (S (lv l)) in *. destruct (mtrie_redundant n') eqn:Er.
  - rewrite (proj2 (Z.gtb_lt live 0)) by lia. erewrite bind_run by done. assert (u16 (live - 1) = live - 1) as -> by (apply Z.mod_small; lia).
    destruct (IH (i + 1) (live - 1) mn mx b2) as (ks' & l' & live' & mn' & mx' & b3 & Hr' & Hh3 & Ht & Ha & Hlv & Hsp); [lia|lia|done|lia|].
    erewrite bind_run by exact Hr'. exists ((((tmin t + i) ::.) <$> ks) ++ ks'), (None :: l'), live', mn', mx', b3.
    split_and!; [by rewrite fmap_app|done|by apply told_cons| |change (lv (None :: l')) with (lv l'); lia|by apply spans_none].
    constructor; [|done]. intros k. destruct Hd as [Hw' Hat]. rewrite <- Hat. eapply redundant_empty; [done|]. by apply mtrie_redundant_spec.
  - assert (u8 (i + tmin t) = i + tmin t) as -> by (apply Z.mod_small; lia).
    assert ((if i + tmin t <? mn then i + tmin t else mn) = mn `min` (i + tmin t)) as -> by (destruct (Z.ltb_spec (i + tmin t) mn); lia).
    assert ((if i + tmin t >? mx then i + tmin t else mx) = mx `max` (i + tmin t)) as -> by (rewrite Z.gtb_ltb; destruct (Z.ltb_spec mx (i + tmin t)); lia).
    destruct (IH (i + 1) live (mn `min` (i + tmin t)) (mx `max` (i + tmin t)) b2) as (ks' & l' & live' & mn' & mx' & b3 & Hr' & Hh3 & Ht & Ha & Hlv & Hsp); [lia|lia|done|lia|].
    erewrite bind_run by exact Hr'. exists ((((tmin t + i) ::.) <$> ks) ++ ks'), (Some n' :: l'), live', mn', mx', b3.
    split_and!; [by rewrite fmap_app|done|by apply told_cons| |change (lv (Some n' :: l')) with (S (lv l')); lia|by apply spans_some].
    constructor; [|done]. split; [done|]. rewrite <- mtrie_redundant_spec. by rewrite Er.
Qed.

Lemma erase_here_spec t : is_pipes (item t) → ∃ call, erase_here p uniq t = (call, set_item (without p (item t)) t) ∧ (call = true ↔ tells (item t)).
Proof.
  intros Ho. unfold erase_here, pipes, tells. destruct t as [[s|] a b c d]; cbn in *.
  2:{ exists false. split; [done|]. split; [done|]. naive_solver. }
  case_decide as Hp.
  - eexists. split; [done|]. rewrite orb_true_iff, negb_true_iff, bool_decide_eq_true. split.
    + intros H. exists s. split_and!; [done|done|]. intros ?. by destruct H as [?|?]; [congruence|].
    + intros (s' & [= <-] & _ & H). destruct uniq; [right; by apply H|by left].
  - exists false. split.
    + unfold set_item, erase_pipe. cbn. assert (s ∖ {[p]} = s) as -> by set_solver. rewrite decide_False; [done|]. intros ->. done.
    + split; [done|]. intros (s' & [= <-] & ? & _). done.
Qed.

Lemma notified_node (t : mtrie_t) ks (call : bool) :
  (call = true ↔ tells (item t)) → told_below t 0 (slots t) ks → notified t ((if call then [[]] else []) ++ ks).
Proof.
  intros Hc [Hs Hin]. setoid_rewrite Z.add_0_r in Hin. split.
  - intros [|c k]; cbn [at_key].
    + rewrite <- Hc, elem_of_app, Hin. destruct call; set_solver.
    + rewrite elem_of_app, Hin. split.
      * intros [H|(j & n & k0 & Hj & [= -> ->] & Ht)]; [destruct call; set_solver|]. by rewrite (slots_kid _ _ _ Hj).
      * destruct (kid c t) as [n|] eqn:Hk; [|by intros (s & ? & _)]. intros Ht. destruct (kid_slots _ _ _ Hk) as (j & Hj & ->). right. eauto 10.
  - destruct call; [|done]. cbn. constructor; [done|]. apply Forall_forall. intros k (j & n & k0 & _ & -> & _)%Hin. done.
Qed.

Lemma dropped_node t t' l' :
  mwf t → item t' = without p (item t) → frame t' → lives t' → edges t' → (∀ c, kid c t' = ptr l' (c - tmin t)) → Forall2 after (slots t) l' →
  dropped t t'.
Proof.
  intros Hw Hi Hf Hl He Hk Ha.
  assert (∀ c, match kid c t, kid c t' with
               | Some n, Some n' => dropped n n' ∧ ¬ redundant None n' | Some n, None => ∀ k, without p (mat k n) = None
               | None, Some _ => False | None, None => True end) as Hafter.
  { intros c. rewrite Hk. unfold kid, ptr. case_decide; [|done]. pose proof (Forall2_length _ _ _ Ha) as Hlen.
    destruct (slots t !! Z.to_nat (c - tmin t)) as [o|] eqn:E1.
    - destruct (Forall2_lookup_l _ _ _ _ _ Ha E1) as (o' & E2 & Hoo). unfold mtrie_t in *. by rewrite E2.
    - unfold mtrie_t in *. rewrite (lookup_ge_None_2 l'); [done|]. apply lookup_ge_None in E1. lia. }
  split.
  - apply Wf; [done|done|done|rewrite Hi; apply without_ok; by apply (wf_ok None)|..]; intros c n' Hn'; specialize (Hafter c); rewrite Hn' in Hafter;
      (destruct (kid c t); [|destruct Hafter]); destruct Hafter as [[? _] ?]; assumption.
  - intros [|c k]; [done|]. cbn [at_key]. specialize (Hafter c). destruct (kid c t) as [n|], (kid c t') as [n'|]; [by destruct Hafter as [[_ ?] _]|by rewrite Hafter|done|done].
Qed.

Lemma wf_drops t : mwf t → drops t.
Proof.
  induction 1 as [t Hf Hl He Ho Hk IH Hr]. intros key max b Hh. pose proof (fr_min t Hf) as [Hm0 Hm]. pose proof (fr_count t Hf) as Hct.
  assert (mwf t) as Hw by exact (Wf _ _ t Hf Hl He Ho Hk Hr). rewrite mtrie_rm_pipe_helper_eq. destruct (erase_here_spec t Ho) as (call & -> & Hcall).
  set (t1 := set_item (without p (item t)) t). set (own := if call then [[]] else [] : list (list Z)).
  erewrite (bind_run _ _ b ((key ++.) <$> own) b).
  2:{ unfold own. destruct call; [|done]. erewrite bind_run by by eapply holds_key. cbn. by rewrite app_nil_r. }
  destruct (holds_adjust key max b Hh) as (max' & b1 & Hadj & Hh1 & Hle & Hlt). erewrite bind_run by exact Hadj.
  assert (∀ b2, holds key max' b2 → holds key max b2) as Hwk.
  { intros b2 [? ?]. split; [done|]. unfold buff_adjust in Hadj. case_match eqn:E; inv_run; rewrite Z.geb_leb in E; [apply Z.leb_le in E|]; lia. }
  assert (∀ ks t' l' b2, holds key max' b2 → told_below t 0 (slots t) ks → item t' = without p (item t) → frame t' ∧ lives t' ∧ edges t' →
    (∀ c, kid c t' = ptr l' (c - tmin t)) → Forall2 after (slots t) l' →
    ∃ ks0 n' b', Ok ((((key ++.) <$> own) ++ ((key ++.) <$> ks), t'), b2) = Ok (((key ++.) <$> ks0, n'), b') ∧ holds key max b' ∧ notified t ks0 ∧ dropped t n') as Hfin.
  { intros ks t' l' b2 Hh2 Ht Hi (Hf' & Hl' & He') Hk' Ha. exists (own ++ ks), t', b2. rewrite fmap_app.
    split_and!; [done|by apply Hwk|by apply notified_node|by eapply dropped_node]. }
  assert (∀ x y, kid x (set_item y t) = kid x t) as Hkt1 by done.
  destruct (count t =? 0) eqn:E0.
  { apply Z.eqb_eq in E0. assert (slots t = []) as Hs by (unfold slots; by rewrite decide_True). rewrite <- (app_nil_r (_ <$> own)).
    apply (Hfin [] t1 []); [done|rewrite Hs; apply told_nil|done| | |rewrite Hs; constructor].
    - split_and!; [by destruct Hf|done|done].
    - intros c. unfold kid. change (slots t1) with (slots t). by rewrite Hs. }
  apply Z.eqb_neq in E0. destruct (count t =? 1) eqn:E1.
  - apply Z.eqb_eq in E1. destruct (slots_one t Hf E1) as (o & Hn & Hs). rewrite Hn. destruct (He ltac:(lia)) as [[n Hkn] _].
    destruct (holds_put key max' b1 (tmin t) Hh1 Hlt) as (b2 & Hput & Hh2). erewrite bind_run by exact Hput.
    pose proof (kid_slots _ _ _ Hkn) as (j & Hj & Ej). rewrite Hs in Hj. destruct j as [|j]; [|done]. injection Hj as ->.
    destruct (drops_child n key (tmin t) max' b2 (IH _ _ Hkn) Hh2) as (ks & n' & b3 & Hrun & Hh3 & Hnot & Hd). erewrite bind_run by exact Hrun.
    assert (told_below t 0 (slots t) ((tmin t ::.) <$> ks)) as Htold.
    { rewrite Hs. rewrite <- (app_nil_r (_ <$> ks)). rewrite <- (Z.add_0_r (tmin t)). apply told_cons; [done|apply told_nil]. }
    assert (live_nodes t = 1) as Hl1 by (unfold lives in Hl; by rewrite Hs in Hl). cbn [fst snd]. destruct (mtrie_redundant n') eqn:Er.
    + rewrite Hl1. erewrite bind_run by done. apply (Hfin _ _ [None]); [done|done|done| | |].
      * destruct (empty_node (set_live 0 (set_count 0 (set_next (n_node None) t1)))) as (? & ? & ? & _); [done|done|cbn; lia|done].
      * intros c. destruct (empty_node (set_live 0 (set_count 0 (set_next (n_node None) t1)))) as (_ & _ & _ & ->); [done|done|cbn; lia|].
        unfold ptr. case_decide; [|done]. by destruct (Z.to_nat _) as [|[]].
      * rewrite Hs. constructor; [|constructor]. intros k. destruct Hd as [Hw' Hat]. rewrite <- Hat. eapply redundant_empty; [done|]. by apply mtrie_redundant_spec.
    + set (t' := set_next (n_node (Some n')) t1). destruct (one_node t' (Some n')) as [Hf' Hs']; [done|done|cbn; lia|].
      apply (Hfin _ _ [Some n']); [done|done|done| | |].
      * split_and!; [done|unfold lives; rewrite Hs'; done|]. intros _. change (tmin t') with (tmin t). change (count t') with (count t).
        replace (tmin t + count t - 1) with (tmin t) by lia. unfold kid. rewrite Hs'. change (tmin t') with (tmin t). rewrite Z.sub_diag. split; by eexists.
      * intros c. unfold kid. by rewrite Hs'.
      * rewrite Hs. constructor; [|constructor]. split; [done|]. rewrite <- mtrie_redundant_spec. by rewrite Er.
  - apply Z.eqb_neq in E1. rewrite (slots_many t Hf) by lia. assert (u8 (tmin t + count t - 1) = tmin t + count t - 1) as -> by (apply Z.mod_small; lia).
    pose proof (live_room t Hf Hl) as Hroom.
    destruct (rm_loop_run t key max' (slots t) 0 (live_nodes t) (tmin t + count t - 1) (tmin t) b1)
      as (ks & l' & live' & mn & mx & b2 & Hrun & Hh2 & Ht & Ha & Hlive & Hsp); [done|by rewrite Hct|done|done| |done|done|unfold lives in Hl; split; [by rewrite Hl|lia]|].
    { intros n [j Hj]%list_elem_of_lookup. eapply IH. by apply slots_kid. }
    erewrite bind_run by exact Hrun. cbv iota. unfold lives in Hl. rewrite Hl in Hlive. set (t2 := set_live live' (set_next (n_table l') t1)).
    pose proof (Forall2_length _ _ _ Ha) as Hlen.
    destruct (table_node t2 l') as [Hf2 Hs2]; [done|change (1 < count t); lia|change (count t = Z.of_nat (length l')); rewrite Hct; exact (f_equal Z.of_nat Hlen)|done|].
    assert (∀ c, kid c t2 = ptr l' (c - tmin t)) as Hk2 by (intros c; unfold kid; by rewrite Hs2).
    destruct (mtrie_shrink_run t2 mn mx) as (t' & Hsh & Hpr).
    + done.
    + unfold lives. rewrite Hs2. cbn. unfold mtrie_t in *. lia.
    + change (1 < count t). lia.
    + intros c n Hn. destruct Hsp as (Hall & _). apply kid_slots in Hn as (j & Hj & ->). rewrite Hs2 in Hj. apply Hall in Hj. change (tmin t2) with (tmin t). lia.
    + apply Hsp.
    + apply Hsp.
    + destruct Hsp as (_ & _ & _ & [?|(j & n & Hj & ->)] & _); [by left|]. right. rewrite Z.add_0_r. rewrite <- Hs2 in Hj. apply slots_kid in Hj. by eexists.
    + destruct Hsp as (_ & _ & _ & _ & [?|(j & n & Hj & ->)]); [by left|]. right. rewrite Z.add_0_r. rewrite <- Hs2 in Hj. apply slots_kid in Hj. by eexists.
    + unfold run_node. change (set_live live' (set_next (n_table l') t1)) with t2. rewrite Hsh. erewrite bind_run by done. destruct Hpr as (Hf' & Hl' & He' & Hi' & Hk'). cbn [snd].
      apply (Hfin _ _ l'); [done|done|done|done| |done]. intros c. rewrite Hk'. rewrite Hk2. case_decide; [subst c|done].
      unfold ptr. by rewrite decide_False by lia.
Qed.

Lemma mtrie_rm_pipe_run t : mwf t → ∃ ks t', mtrie_rm_pipe p uniq t = Ok (ks, t') ∧ notified t ks ∧ dropped t t'.
Proof.
  intros Hw. destruct (wf_drops t Hw [] 0 []) as (ks & t' & b & Hrun & _ & Hl & Hd); [by split|]. exists ks, t'. unfold mtrie_rm_pipe.
  change (Z.of_nat (length (@nil Z))) with 0 in Hrun. rewrite Hrun. split; [|done]. f_equal. f_equal. exact (list_fmap_id ks).
Qed.
End rm_pipe.

(** ** Programs with the trie of pipes, and with a set of subscriptions *)

Inductive mtrie_op := m_add (k : list Z) (p : N) | m_rm (k : list Z) (p : N) | m_rm_pipe (p : N) (uniq : bool) | m_match (d : list Z).
Inductive mtrie_res := m_bool (b : bool) | m_keys (ks : list (list Z)) | m_pipes (ps : list N).

Definition run_mtrie (o : mtrie_op) : M mtrie_t mtrie_res :=
  match o with
  | m_add k p => b ← mtrie_add k p; mret (m_bool b)
  | m_rm k p => b ← mtrie_rm k p; mret (m_bool b)
  | m_rm_pipe p uniq => ks ← mtrie_rm_pipe p uniq; mret (m_keys ks)
  | m_match d => ps ← mtrie_match d; mret (m_pipes ps)
  end.

(** Who subscribed to what. *)
Definition subscriptions : Type := gset (list Z * N).

(** The calls of [rm] that the assertion lets pass. *)
Definition may_rm (m : subscriptions) (k : list Z) (p : N) : Prop := (k, p) ∈ m ∨ ∀ q, (k, q) ∉ m.

(** What the answer is, and the subscriptions after the operation. *)
Definition msays (m : subscriptions) (o : mtrie_op) (r : mtrie_res) (m' : subscriptions) : Prop :=
  match o with
  | m_add k p => m' = {[(k, p)]} ∪ m ∧ ∃ b, r = m_bool b ∧ (b = true ↔ ∀ q, (k, q) ∉ m)
  | m_rm k p => may_rm m k p ∧ m' = m ∖ {[(k, p)]} ∧ ∃ b, r = m_bool b ∧
      ((k, p) ∈ m → b = true ↔ ∀ q, (k, q) ∈ m → q = p) ∧
      ((k, p) ∉ m → b = true ↔ k = [] ∨ ∃ k' q, (k', q) ∈ m ∧ k `prefix_of` k')
  | m_rm_pipe p uniq => m' = filter (λ x, x.2 ≠ p) m ∧ ∃ ks, r = m_keys ks ∧ StronglySorted lex ks ∧
      ∀ k, k ∈ ks ↔ (k, p) ∈ m ∧ (uniq = true → ∀ q, (k, q) ∈ m → q = p)
  | m_match d => m' = m ∧ ∃ ps, r = m_pipes ps ∧ ps ≡ₚ (filter (λ x, x.1 `prefix_of` d) (elements m)).*2
  end.
Fixpoint msaid (m : subscriptions) (ops : list mtrie_op) (rs : list mtrie_res) (m' : subscriptions) : Prop :=
  match ops, rs with
  | [], [] => m' = m
  | o :: ops, r :: rs => ∃ m1, msays m o r m1 ∧ msaid m1 ops rs m'
  | _, _ => False
  end.

Definition byte_mop (o : mtrie_op) : Prop := match o with m_add k _ => Forall is_byte k | _ => True end.

Definition mkeeps (t : mtrie_t) (m : subscriptions) : Prop := mwf t ∧ ∀ k p, (k, p) ∈ m ↔ ∃ s, mat k t = Some s ∧ p ∈ s.

Lemma mkeeps_some t m k s : mkeeps t m → mat k t = Some s → (∀ p, p ∈ s ↔ (k, p) ∈ m) ∧ ∃ p, (k, p) ∈ m.
Proof.
  intros [Hw Hm] Hs. assert (∀ p, p ∈ s ↔ (k, p) ∈ m) as H by (intros p; rewrite Hm; naive_solver). split; [done|].
  destruct (decide (s = ∅)) as [->|Hne]; [by destruct (at_ok None is_pipes k t ltac:(done) Hw)|].
  apply set_choose_L in Hne as [p Hp]. exists p. by apply H.
Qed.
Lemma mkeeps_none t m k : mkeeps t m → mat k t = None ↔ ∀ q, (k, q) ∉ m.
Proof.
  intros Hk. split.
  - intros E q Hq. apply Hk in Hq as (s & E' & _). congruence.
  - intros H. destruct (mat k t) as [s|] eqn:E; [|done]. destruct (mkeeps_some _ _ _ _ Hk E) as [_ [p Hp]]. by destruct (H p).
Qed.

(** The calls of [match], with the prefix each one is for. *)
Fixpoint mpairs (f : list Z → option (gset N)) (d : list Z) : list (list Z * N) :=
  (pair [] <$> elements (default ∅ (f []))) ++ match d with [] => [] | c :: d => prod_map (c ::.) id <$> mpairs (λ k, f (c :: k)) d end.

Lemma mpairs_snd f d : (mpairs f d).*2 = matches f d.
Proof.
  revert f. induction d as [|c d IH]; intros f; cbn; rewrite fmap_app, <- !list_fmap_compose; f_equal; try (by rewrite list_fmap_id).
  rewrite <- IH. by apply list_fmap_ext.
Qed.
Lemma elem_of_mpairs f d k p : (k, p) ∈ mpairs f d ↔ k `prefix_of` d ∧ ∃ s, f k = Some s ∧ p ∈ s.
Proof.
  revert f k. induction d as [|c d IH]; intros f k; cbn; rewrite elem_of_app, list_elem_of_fmap.
  - split.
    + intros [(q & [= -> <-] & Hq)|H]; [|set_solver]. split; [apply prefix_nil|]. destruct (f []) as [s|]; cbn in Hq; set_solver.
    + intros [->%prefix_nil_inv (s & E & Hp)]. left. exists p. rewrite E. set_solver.
  - rewrite list_elem_of_fmap. split.
    + intros [(q & [= -> <-] & Hq)|([k' q] & [= -> ->] & Hin)].
      * split; [apply prefix_nil|]. destruct (f []) as [s|]; cbn in Hq; set_solver.
      * apply IH in Hin as [Hp Hs]. split; [by apply prefix_cons|done].
    + intros [Hp (s & E & Hin)]. destruct k as [|c' k]; [left; exists p; rewrite E; set_solver|]. right.
      pose proof (prefix_cons_inv_1 _ _ _ _ Hp) as ->. exists (k, p). split; [done|]. apply IH. apply prefix_cons_inv_2 in Hp. eauto.
Qed.
Lemma NoDup_mpairs f d : NoDup (mpairs f d).
Proof.
  revert f. induction d as [|c d IH]; intros f; cbn; apply NoDup_app; split_and!; try (apply (NoDup_fmap_2 _); apply NoDup_elements).
  - set_solver.
  - constructor.
  - intros x (q & -> & _)%list_elem_of_fmap ([k r] & [=] & _)%list_elem_of_fmap.
  - apply (NoDup_fmap_2 _), IH.
Qed.

Lemma mkeeps_match t m d : mkeeps t m → matches (λ k, mat k t) d ≡ₚ (filter (λ x, x.1 `prefix_of` d) (elements m)).*2.
Proof.
  intros [Hw Hm]. rewrite <- mpairs_snd. apply fmap_Permutation, NoDup_Permutation; [apply NoDup_mpairs|apply NoDup_filter, NoDup_elements|].
  intros [k p]. rewrite elem_of_mpairs, list_elem_of_filter, elem_of_elements, Hm. done.
Qed.

Lemma without_some p x s' : is_pipes x → without p x = Some s' ↔ ∃ s, x = Some s ∧ s' = s ∖ {[p]} ∧ s' ≠ ∅.
Proof. intros _. unfold without, erase_pipe. destruct x as [s|]; cbn; [|naive_solver]. case_decide; naive_solver. Qed.

Lemma mkeeps_add t m k p : mkeeps t m → Forall is_byte k → ∃ r t' m', run_mtrie (m_add k p) t = Ok (r, t') ∧ msays m (m_add k p) r m' ∧ mkeeps t' m'.
Proof.
  intros Hk Hb. pose proof Hk as [Hw Hm]. destruct (mtrie_add_run k p t Hw Hb) as (t' & Hrun & Hw' & _ & Hat). cbn [run_mtrie].
  erewrite bind_run by exact Hrun. eexists _, t', _. split; [done|]. split.
  - split; [done|]. eexists. split; [done|]. rewrite <- (mkeeps_none t m k Hk). by destruct (mat k t).
  - split; [done|]. intros k' q. rewrite elem_of_union, elem_of_singleton, Hm, Hat. case_decide as E.
    + subst k'. split.
      * intros [[= ->]|(s & -> & Hq)]; (eexists; split; [done|]); set_solver.
      * intros (s & [= <-] & [Hq|Hq]%elem_of_union); [left; set_solver|]. right. destruct (mat k t) as [s|]; [by exists s|set_solver].
    + naive_solver.
Qed.

Lemma mkeeps_rm t m k p : mkeeps t m → may_rm m k p → ∃ r t' m', run_mtrie (m_rm k p) t = Ok (r, t') ∧ msays m (m_rm k p) r m' ∧ mkeeps t' m'.
Proof.
  intros Hk Hmay. pose proof Hk as [Hw Hm]. destruct (mtrie_rm_run k p t Hw) as (t' & Hrun & Hw' & Hat).
  { intros s Hs. destruct (mkeeps_some _ _ _ _ Hk Hs) as [H [q Hq]]. destruct Hmay as [?|Hno]; [by apply H|by destruct (Hno q)]. }
  cbn [run_mtrie]. erewrite bind_run by exact Hrun. eexists _, t', _. split; [done|]. split; [split; [done|]; split; [done|]|].
  - eexists. split; [done|]. split.
    + intros Hin. pose proof Hin as (s & Hs & Hp)%Hm. destruct (mkeeps_some _ _ _ _ Hk Hs) as [H _].
      assert (has_node k t = true) as -> by (apply has_node_spec; [done|]; right; exists k; split; [done|congruence]). rewrite Hs. unfold without, erase_pipe. cbn.
      case_decide as E; (split; [intros Hb|intros Hall]); try done.
      * intros q Hq%H. destruct (decide (q = p)) as [|Hne]; [done|]. assert (q ∈ s ∖ {[p]}) by set_solver. set_solver.
      * exfalso. apply E. apply set_eq. intros q. split; [|set_solver]. intros [Hq Hne]%elem_of_difference. apply H, Hall in Hq. set_solver.
    + intros Hnin. assert (mat k t = None) as E by (apply (mkeeps_none t m k Hk); destruct Hmay; done). rewrite E. cbn. rewrite andb_true_r, has_node_spec by done.
      f_equiv. split.
      * intros (k' & Hp & Hne). destruct (mat k' t) as [s|] eqn:Es; [|done]. destruct (mkeeps_some _ _ _ _ Hk Es) as [_ [q Hq]]. eauto.
      * intros (k' & q & Hq & Hp). exists k'. split; [done|]. apply Hm in Hq as (s & -> & _). done.
  - split; [done|]. intros k' q. rewrite elem_of_difference, elem_of_singleton, Hm, Hat. case_decide as E.
    + subst k'. pose proof (without_some p (mat k t)) as Hws. split.
      * intros [(s & Hs & Hq) Hne]. exists (s ∖ {[p]}). split; [|set_solver]. apply Hws; [by apply at_ok|]. exists s. split_and!; [done|done|set_solver].
      * intros (s' & Hs' & Hq). apply Hws in Hs' as (s & Hs & -> & _); [|by apply at_ok]. split; [exists s; set_solver|set_solver].
    + naive_solver.
Qed.

Lemma mkeeps_rm_pipe t m p u : mkeeps t m → ∃ r t' m', run_mtrie (m_rm_pipe p u) t = Ok (r, t') ∧ msays m (m_rm_pipe p u) r m' ∧ mkeeps t' m'.
Proof.
  intros Hk. pose proof Hk as [Hw Hm]. destruct (mtrie_rm_pipe_run p u t Hw) as (ks & t' & Hrun & [Hin Hs] & Hw' & Hat). cbn [run_mtrie].
  erewrite bind_run by exact Hrun. eexists _, t', _. split; [done|]. split; [split; [done|]|split; [done|]].
  - exists ks. split; [done|]. split; [done|]. intros k. rewrite Hin. unfold tells. split.
    + intros (s & Hsk & Hp & Hu). destruct (mkeeps_some _ _ _ _ Hk Hsk) as [H _]. split; [by apply H|]. intros Hu' q Hq%H.
      specialize (Hu Hu'). destruct (decide (q = p)) as [|Hne]; [done|]. assert (q ∈ s ∖ {[p]}) by set_solver. set_solver.
    + intros [(s & Hsk & Hp)%Hm Hu]. exists s. split_and!; [done|done|]. intros Hu'. destruct (mkeeps_some _ _ _ _ Hk Hsk) as [H _].
      apply set_eq. intros q. split; [|set_solver]. intros [Hq Hne]%elem_of_difference. apply H, (Hu Hu') in Hq. set_solver.
  - intros k q. rewrite elem_of_filter, Hm, Hat. cbn. pose proof (without_some p (mat k t)) as Hws. split.
    + intros [Hne (s & Hsk & Hq)]. exists (s ∖ {[p]}). split; [|set_solver]. apply Hws; [by apply at_ok|]. exists s. split_and!; [done|done|set_solver].
    + intros (s' & Hs' & Hq). apply Hws in Hs' as (s & Hsk & -> & _); [|by apply at_ok]. split; [set_solver|]. exists s. set_solver.
Qed.

Lemma mkeeps_op t m o :
  mkeeps t m → byte_mop o →
  (∃ r t' m', run_mtrie o t = Ok (r, t') ∧ msays m o r m' ∧ mkeeps t' m') ∨
  (∃ k p q, o = m_rm k p ∧ (k, p) ∉ m ∧ (k, q) ∈ m ∧ run_mtrie o t = Err (Fatal "Assertion failed")).
Proof.
  intros Hk Hb. destruct o as [k p|k p|p u|d].
  - left. by apply mkeeps_add.
  - destruct (decide ((k, p) ∈ m)) as [Hin|Hnin]; [left; apply mkeeps_rm; [done|by left]|].
    destruct (mat k t) as [s|] eqn:E; [right|left; apply mkeeps_rm; [done|]; right; by apply (mkeeps_none t)].
    destruct (mkeeps_some _ _ _ _ Hk E) as [H [q Hq]]. exists k, p, q. split_and!; [done|done|done|]. cbn [run_mtrie]. apply bind_err.
    eapply mtrie_rm_abort; [apply Hk|exact E|]. by rewrite H.
  - left. by apply mkeeps_rm_pipe.
  - left. exists (m_pipes (matches (λ k, mat k t) d)), t, m. split; [cbn [run_mtrie]; by erewrite bind_run by (by apply mtrie_match_run, Hk)|].
    split; [|done]. split; [done|]. eexists. split; [done|]. by apply mkeeps_match.
Qed.

Lemma mtrie_run ops t m :
  Forall byte_mop ops → mkeeps t m →
  (∃ rs t' m', map_m run_mtrie ops t = Ok (rs, t') ∧ msaid m ops rs m' ∧ mkeeps t' m') ∨
  (map_m run_mtrie ops t = Err (Fatal "Assertion failed") ∧
   ∃ ops1 k p ops2 rs m' q, ops = ops1 ++ m_rm k p :: ops2 ∧ msaid m ops1 rs m' ∧ (k, p) ∉ m' ∧ (k, q) ∈ m').
Proof.
  intros Hb. revert t m. induction Hb as [|o ops Ho Hb IH]; intros t m Hk; [left; by exists [], t, m|]. cbn [map_m].
  destruct (mkeeps_op t m o Hk Ho) as [(r & t1 & m1 & Hr & Hsay & Hk1)|(k & p & q & -> & Hp & Hq & Herr)].
  - erewrite bind_run by exact Hr. destruct (IH t1 m1 Hk1) as [(rs & t' & m' & Hrs & Hsaid & Hk')|(Herr & ops1 & k & p & ops2 & rs & m' & q & -> & Hsaid & Hp & Hq)].
    + left. erewrite bind_run by exact Hrs. exists (r :: rs), t', m'. split; [done|]. split; [by exists m1|done].
    + right. split; [by apply bind_err|]. exists (o :: ops1), k, p, ops2, (r :: rs), m', q. split; [done|]. split; [by exists m1|done].
  - right. split; [by apply bind_err|]. exists [], k, p, ops, [], m, q. done.
Qed.

Lemma mkeeps_new : mkeeps new_mtrie ∅.
Proof. split; [apply mwf_new|]. intros k p. unfold new_mtrie. rewrite at_new. set_solver. Qed.

Lemma msaid_det m ops rs m1 m2 : msaid m ops rs m1 → msaid m ops rs m2 → m1 = m2.
Proof.
  revert m rs. induction ops as [|o ops IH]; intros m [|r rs]; cbn; try done; [by intros -> ->|].
  intros (n1 & H1 & S1) (n2 & H2 & S2). assert (n1 = n2) as <- by (destruct o; cbn in H1, H2; naive_solver). by eapply IH.
Qed.

(** C11: No program can tell the trie of pipes from a set of pairs of a key and a pipe:
    [add] says whether the key is new to all pipes; [rm] of a subscription whether nobody is
    left who has it; [rm] of a pipe removes all its subscriptions, and calls the function
    for each of them in lexicographic order, or for those nobody else has; and [match]
    calls its function once for each subscription whose key is a prefix of the data. When
    all are removed, so are the nodes. A run ends in an error only at a [rm] of a key that
    other pipes have subscribed to and this one has not, and then it is the assertion
    there that fails; [rm] of a key that nobody has returns true when a longer key is
    there, or when it is empty. *)
Theorem mtrie_refines_subscriptions ops :
  Forall byte_mop ops →
  (∃ rs t m, map_m run_mtrie ops new_mtrie = Ok (rs, t) ∧ msaid ∅ ops rs m ∧ (m = ∅ → count t = 0)) ∨
  (map_m run_mtrie ops new_mtrie = Err (Fatal "Assertion failed") ∧
   ∃ ops1 k p ops2 rs m q, ops = ops1 ++ m_rm k p :: ops2 ∧ msaid ∅ ops1 rs m ∧ (k, p) ∉ m ∧ (k, q) ∈ m).
Proof.
  intros Hb. destruct (mtrie_run ops new_mtrie ∅ Hb mkeeps_new) as [(rs & t & m & Hr & Hs & Hw & Hm)|H]; [left|by right].
  exists rs, t, m. split_and!; [done|done|]. intros ->. eapply (wf_all_gone None); [exact Hw|]. intros k. apply (mkeeps_none t ∅ k (conj Hw Hm)). set_solver.
Qed.

(** Two pipes with keys in common. *)
Definition publishing : list mtrie_op :=
  [m_add [98] 1; m_add [98] 2; m_add [97; 97] 1; m_add [99; 1] 2; m_match [97; 97; 0]; m_rm [98] 2; m_rm_pipe 1 true; m_match [99; 1; 7]; m_rm_pipe 2 false].

Lemma mtrie_refines_subscriptions_witness :
  ∃ rs t m, map_m run_mtrie publishing new_mtrie = Ok (rs, t) ∧ msaid ∅ publishing rs m.
Proof.
  destruct (mtrie_refines_subscriptions publishing) as [(rs & t & m & Hrun & Hs & _)|[Herr _]].
  - repeat constructor; done.
  - exists rs, t, m. split; [exact Hrun|exact Hs].
  - exfalso. vm_compute in Herr. discriminate Herr.
Defined.

(** C20: A peer can end the process: an unsubscription that a publisher gets from a pipe is
    passed to [rm] as it is, and when another pipe has that subscription, and this one has
    not, the assertion on the number of erased pipes fails. *)
Theorem foreign_unsubscription_aborts ops rs t m k p q :
  Forall byte_mop ops → map_m run_mtrie ops new_mtrie = Ok (rs, t) → msaid ∅ ops rs m → (k, q) ∈ m → (k, p) ∉ m →
  run_mtrie (m_rm k p) t = Err (Fatal "Assertion failed").
Proof.
  intros Hb Hrun Hsaid Hq Hp. destruct (mtrie_run ops new_mtrie ∅ Hb mkeeps_new) as [(rs' & t' & m' & Hrun' & Hsaid' & Hk)|[Herr _]]; [|congruence].
  rewrite Hrun in Hrun'. injection Hrun' as <- <-. rewrite (msaid_det _ _ _ _ _ Hsaid Hsaid') in *.
  destruct (mkeeps_op t m' (m_rm k p) Hk I) as [(r & t1 & m1 & _ & ([?|Hno] & _) & _)|(k' & p' & q' & [= -> ->] & _ & _ & ?)]; [done|by destruct (Hno q)|done].
Qed.

Lemma foreign_unsubscription_aborts_witness :
  ∃ rs t, map_m run_mtrie [m_add [98] 1; m_add [97] 2] new_mtrie = Ok (rs, t) ∧ run_mtrie (m_rm [98] 2) t = Err (Fatal "Assertion failed").
Proof.
  destruct (mtrie_run [m_add [98] 1; m_add [97] 2] new_mtrie ∅) as [(rs & t & m & Hrun & Hs & _)|[Herr _]].
  - repeat constructor; done.
  - exact mkeeps_new.
  - exists rs, t. split; [exact Hrun|]. assert (m = {[([97], 2%N)]} ∪ ({[([98], 1%N)]} ∪ ∅)) as Em.
    { destruct rs as [|r1 [|r2 [|]]]; cbn in Hs; naive_solver. }
    apply (foreign_unsubscription_aborts [m_add [98] 1; m_add [97] 2] rs t m [98] 2 1); [repeat constructor; done|exact Hrun|exact Hs|rewrite Em; set_solver|rewrite Em; set_solver].
  - exfalso. vm_compute in Herr. discriminate Herr.
Defined.
