(* ===== verification/ZmqZ85.v ===== *)
(** * The Z85 codec (libzmq/src, zmq_utils.cpp)

    [zmq_z85_encode] and [zmq_z85_decode], which write keys as printable text, with
    their tables. The destination is the list of what was stored in it so far, and
    [char_nbr] or [byte_nbr] its length; the source has the bytes of the list, and a
    string ends before its first zero. The reading counters and the values wrap around
    at 32 bits; the destination is taken to hold fewer than 2^32 entries. *)

From stdpp Require Import base tactics list numbers strings.
From Stdlib Require Import Ascii.
From S2P Require Import Prelude ZmqWire.

Local Open Scope Z_scope.

(** ** The tables *)

Definition codes (s : string) : list Z := (λ c, Z.of_nat (nat_of_ascii c)) <$> String.list_ascii_of_string s.

Definition encoder : list Z :=
  codes "0123456789abcdefghijklmnopqrstuvwxyzABCDEFGHIJKLMNOPQRSTUVWXYZ.-:+=^!/*?&<>()[]{}@%$#".

Definition decoder : list Z :=
  [0x00; 0x44; 0x00; 0x54; 0x53; 0x52; 0x48; 0x00;
   0x4B; 0x4C; 0x46; 0x41; 0x00; 0x3F; 0x3E; 0x45;
   0x00; 0x01; 0x02; 0x03; 0x04; 0x05; 0x06; 0x07;
   0x08; 0x09; 0x40; 0x00; 0x49; 0x42; 0x4A; 0x47;
   0x51; 0x24; 0x25; 0x26; 0x27; 0x28; 0x29; 0x2A;
   0x2B; 0x2C; 0x2D; 0x2E; 0x2F; 0x30; 0x31; 0x32;
   0x33; 0x34; 0x35; 0x36; 0x37; 0x38; 0x39; 0x3A;
   0x3B; 0x3C; 0x3D; 0x4D; 0x00; 0x4E; 0x43; 0x00;
   0x00; 0x0A; 0x0B; 0x0C; 0x0D; 0x0E; 0x0F; 0x10;
   0x11; 0x12; 0x13; 0x14; 0x15; 0x16; 0x17; 0x18;
   0x19; 0x1A; 0x1B; 0x1C; 0x1D; 0x1E; 0x1F; 0x20;
   0x21; 0x22; 0x23; 0x4F; 0x00; 0x50; 0x00; 0x00].

(** An entry of a table. *)
Definition entry (l : list Z) (i : Z) : result Z :=
  if decide (0 ≤ i) then match l !! Z.to_nat i with Some x => Ok x | None => Err (Undefined OutOfBounds) end else Err (Undefined OutOfBounds).

(** ** Encoding *)

(** [while (divisor)], with the characters put behind [dest]. *)
Fixpoint put_base85 (fuel : nat) (value divisor : Z) (dest : list Z) : result (list Z) :=
  match fuel with
  | O => Err OutOfFuel
  | S fuel =>
      if divisor =? 0 then Ok dest
      else
        match entry encoder (value `div` divisor `mod` 85) with
        | Ok c => put_base85 fuel value (divisor `div` 85) (dest ++ [c])
        | Err e => Err e
        end
  end.

Fixpoint encode_loop (fuel : nat) (data : list Z) (size byte_nbr value : Z) (dest : list Z) : result (list Z) :=
  match fuel with
  | O => Err OutOfFuel
  | S fuel =>
      if byte_nbr <? size then
        match entry data byte_nbr with
        | Err e => Err e
        | Ok b =>
            let value := u32 (value * 256 + b) in
            let byte_nbr := u32 (byte_nbr + 1) in
            if byte_nbr mod 4 =? 0 then
              match put_base85 6 value (85 * 85 * 85 * 85) dest with
              | Ok dest => encode_loop fuel data size byte_nbr 0 dest
              | Err e => Err e
              end
            else encode_loop fuel data size byte_nbr value dest
        end
      else Ok dest
  end.

(** The text without its terminator, or nothing for EINVAL. *)
Definition zmq_z85_encode (data : list Z) : result (option (list Z)) :=
  let size := Z.of_nat (length data) in
  if negb (size mod 4 =? 0) then Ok None
  else
    match encode_loop (S (length data)) data size 0 0 [] with
    | Ok dest => if Z.of_nat (length dest) =? (size * 5) `div` 4 then Ok (Some dest) else Err (Fatal "Assertion failed")
    | Err e => Err e
    end.

(** ** Decoding *)

Fixpoint put_base256 (fuel : nat) (value divisor : Z) (dest : list Z) : result (list Z) :=
  match fuel with
  | O => Err OutOfFuel
  | S fuel =>
      if divisor =? 0 then Ok dest
      else put_base256 fuel value (divisor `div` 256) (dest ++ [value `div` divisor `mod` 256])
  end.

Fixpoint decode_loop (fuel : nat) (str : list Z) (string_len char_nbr value : Z) (dest : list Z) : result (list Z) :=
  match fuel with
  | O => Err OutOfFuel
  | S fuel =>
      if char_nbr <? string_len then
        match entry str char_nbr with
        | Err e => Err e
        | Ok c =>
            match entry decoder (u8 c - 32) with
            | Err e => Err e
            | Ok d =>
                let value := u32 (value * 85 + d) in
                let char_nbr := u32 (char_nbr + 1) in
                if char_nbr mod 5 =? 0 then
                  match put_base256 5 value (256 * 256 * 256) dest with
                  | Ok dest => decode_loop fuel str string_len char_nbr 0 dest
                  | Err e => Err e
                  end
                else decode_loop fuel str string_len char_nbr value dest
            end
        end
      else Ok dest
  end.

Definition zmq_z85_decode (str : list Z) : result (option (list Z)) :=
  let string_len := Z.of_nat (length str) in
  if negb (string_len mod 5 =? 0) then Ok None
  else
    match decode_loop (S (length str)) str string_len 0 0 [] with
    | Ok dest => if Z.of_nat (length dest) =? (string_len * 4) `div` 5 then Ok (Some dest) else Err (Fatal "Assertion failed")
    | Err e => Err e
    end.

(** ** The tables fit *)

Definition digit (d : Z) : Z := default 0 (encoder !! Z.to_nat d).

Lemma entry_encoder d : 0 ≤ d < 85 → entry encoder d = Ok (digit d).
Proof.
  intros H. unfold entry, digit. rewrite decide_True by lia. destruct (encoder !! Z.to_nat d) eqn:E; [done|].
  apply lookup_ge_None in E. change (length encoder) with 85%nat in E. lia.
Qed.

(** Each digit is a printable character, and decodes to itself. *)
Lemma digit_decodes d : 0 ≤ d < 85 → 32 < digit d < 127 ∧ entry decoder (u8 (digit d) - 32) = Ok d.
Proof.
  intros H. assert (Forall (λ d, 32 < digit d < 127 ∧ entry decoder (u8 (digit d) - 32) = Ok d) (seqZ 0 85)) as Hall.
  { vm_compute. repeat (constructor; [done|]). constructor. }
  rewrite Forall_forall in Hall. apply Hall, elem_of_seqZ. lia.
Qed.

(** ** Groups of four bytes and five characters *)

Definition group (b0 b1 b2 b3 : Z) : Z := ((b0 * 256 + b1) * 256 + b2) * 256 + b3.
Definition digits (v : Z) : list Z := [v `div` 52200625 `mod` 85; v `div` 614125 `mod` 85; v `div` 7225 `mod` 85; v `div` 85 `mod` 85; v `mod` 85].

(** The text for some bytes, group by group. *)
Fixpoint text_of (l : list Z) : list Z :=
  match l with
  | b0 :: b1 :: b2 :: b3 :: l => (digit <$> digits (group b0 b1 b2 b3)) ++ text_of l
  | _ => []
  end.

Lemma group_range b0 b1 b2 b3 : is_byte b0 → is_byte b1 → is_byte b2 → is_byte b3 → 0 ≤ group b0 b1 b2 b3 < 2 ^ 32.
Proof. unfold is_byte, group. lia. Qed.

Lemma digits_value v : 0 ≤ v < 2 ^ 32 →
  let '(d0, d1, d2, d3, d4) := (v `div` 52200625 `mod` 85, v `div` 614125 `mod` 85, v `div` 7225 `mod` 85, v `div` 85 `mod` 85, v `mod` 85) in
  (((d0 * 85 + d1) * 85 + d2) * 85 + d3) * 85 + d4 = v.
Proof.
  intros H. cbv zeta iota beta. change 52200625 with (614125 * 85). change 614125 with (7225 * 85). change 7225 with (85 * 85).
  rewrite <- !Z.div_div by lia. set (q1 := v `div` 85). set (q2 := q1 `div` 85). set (q3 := q2 `div` 85). set (q4 := q3 `div` 85).
  pose proof (Z.div_mod v 85 ltac:(lia)) as E1. pose proof (Z.div_mod q1 85 ltac:(lia)) as E2. pose proof (Z.div_mod q2 85 ltac:(lia)) as E3.
  pose proof (Z.div_mod q3 85 ltac:(lia)) as E4. fold q1 in E1. fold q2 in E2. fold q3 in E3. fold q4 in E4.
  assert (q4 mod 85 = q4) as -> by (apply Z.mod_small; pose proof (Z.mod_pos_bound v 85 ltac:(lia)); pose proof (Z.mod_pos_bound q1 85 ltac:(lia));
    pose proof (Z.mod_pos_bound q2 85 ltac:(lia)); pose proof (Z.mod_pos_bound q3 85 ltac:(lia)); lia).
  lia.
Qed.

Lemma put_base85_step f v d dest : d ≠ 0 → put_base85 (S f) v d dest = put_base85 f v (d `div` 85) (dest ++ [digit (v `div` d `mod` 85)]).
Proof. intros H. cbn [put_base85]. rewrite (proj2 (Z.eqb_neq d 0)) by done. by rewrite entry_encoder by (apply Z.mod_pos_bound; lia). Qed.
Lemma put_base85_run v dest : put_base85 6 v (85 * 85 * 85 * 85) dest = Ok (dest ++ (digit <$> digits v)).
Proof.
  rewrite put_base85_step by lia. change (85 * 85 * 85 * 85) with 52200625. change (52200625 `div` 85) with 614125.
  rewrite put_base85_step by lia. change (614125 `div` 85) with 7225. rewrite put_base85_step by lia. change (7225 `div` 85) with 85.
  rewrite put_base85_step by lia. change (85 `div` 85) with 1. rewrite put_base85_step by lia. change (1 `div` 85) with 0.
  rewrite Z.div_1_r, <- !(assoc_L (++)). done.
Qed.

Lemma put_base256_step f v d dest : d ≠ 0 → put_base256 (S f) v d dest = put_base256 f v (d `div` 256) (dest ++ [v `div` d `mod` 256]).
Proof. intros H. cbn [put_base256]. by rewrite (proj2 (Z.eqb_neq d 0)). Qed.
Lemma put_base256_all v dest :
  put_base256 5 v (256 * 256 * 256) dest = Ok (dest ++ [v `div` 16777216 `mod` 256; v `div` 65536 `mod` 256; v `div` 256 `mod` 256; v `div` 1 `mod` 256]).
Proof.
  rewrite put_base256_step by lia. change (256 * 256 * 256) with 16777216. change (16777216 `div` 256) with 65536.
  rewrite put_base256_step by lia. change (65536 `div` 256) with 256. rewrite put_base256_step by lia. change (256 `div` 256) with 1.
  rewrite put_base256_step by lia. change (1 `div` 256) with 0. rewrite <- !(assoc_L (++)). done.
Qed.
Lemma put_base256_run b0 b1 b2 b3 dest : is_byte b0 → is_byte b1 → is_byte b2 → is_byte b3 →
  put_base256 5 (group b0 b1 b2 b3) (256 * 256 * 256) dest = Ok (dest ++ [b0; b1; b2; b3]).
Proof.
  intros H0 H1 H2 H3. unfold is_byte in *. rewrite put_base256_all. unfold group.
  assert (((((b0 * 256 + b1) * 256 + b2) * 256 + b3) `div` 16777216) `mod` 256 = b0) as -> by (Z.to_euclidean_division_equations; lia).
  assert (((((b0 * 256 + b1) * 256 + b2) * 256 + b3) `div` 65536) `mod` 256 = b1) as -> by (Z.to_euclidean_division_equations; lia).
  assert (((((b0 * 256 + b1) * 256 + b2) * 256 + b3) `div` 256) `mod` 256 = b2) as -> by (Z.to_euclidean_division_equations; lia).
  assert (((((b0 * 256 + b1) * 256 + b2) * 256 + b3) `div` 1) `mod` 256 = b3) as -> by (Z.to_euclidean_division_equations; lia). done.
Qed.

(** A step of each loop. *)
Lemma z85_encode_step f data b size n value dest :
  data !! Z.to_nat n = Some b → 0 ≤ n < size → size < 2 ^ 32 → is_byte b → 0 ≤ value → value * 256 + b < 2 ^ 32 →
  encode_loop (S f) data size n value dest =
    if (n + 1) mod 4 =? 0 then encode_loop f data size (n + 1) 0 (dest ++ (digit <$> digits (value * 256 + b)))
    else encode_loop f data size (n + 1) (value * 256 + b) dest.
Proof.
  intros Hd Hn Hsz Hb Hv Hlt. unfold is_byte in Hb. cbn [encode_loop]. rewrite (proj2 (Z.ltb_lt n size)) by lia.
  unfold entry. rewrite decide_True, Hd by lia. cbv zeta. assert (u32 (value * 256 + b) = value * 256 + b) as -> by (apply Z.mod_small; lia).
  assert (u32 (n + 1) = n + 1) as -> by (apply Z.mod_small; lia). by rewrite put_base85_run.
Qed.

Lemma z85_decode_step f str d size n value dest :
  str !! Z.to_nat n = Some (digit d) → 0 ≤ n < size → size < 2 ^ 32 → 0 ≤ d < 85 → 0 ≤ value → value * 85 + d < 2 ^ 32 →
  decode_loop (S f) str size n value dest =
    if (n + 1) mod 5 =? 0 then
      match put_base256 5 (value * 85 + d) (256 * 256 * 256) dest with
      | Ok dest => decode_loop f str size (n + 1) 0 dest | Err e => Err e end
    else decode_loop f str size (n + 1) (value * 85 + d) dest.
Proof.
  intros Hs Hn Hsz Hd Hv Hlt. cbn [decode_loop]. rewrite (proj2 (Z.ltb_lt n size)) by lia.
  assert (entry str n = Ok (digit d)) as -> by (unfold entry; by rewrite decide_True, Hs by lia).
  destruct (digit_decodes d Hd) as [_ ->]. cbv zeta. assert (u32 (value * 85 + d) = value * 85 + d) as -> by (apply Z.mod_small; lia).
  by assert (u32 (n + 1) = n + 1) as -> by (apply Z.mod_small; lia).
Qed.

Lemma mod_next n k j : 0 < k → n mod k = 0 → 0 ≤ j < k → (n + j) mod k = j.
Proof. intros Hk Hn Hj. rewrite Z.add_mod, Hn, Z.add_0_l, Z.mod_mod by lia. by apply Z.mod_small. Qed.

Lemma length_text_of l g : length l = (4 * g)%nat → length (text_of l) = (5 * g)%nat.
Proof.
  revert l. induction g as [|g IH]; intros l Hl; [by destruct l|]. destruct l as [|b0 [|b1 [|b2 [|b3 l]]]]; cbn in Hl; try lia.
  cbn [text_of]. rewrite length_app, (IH l) by lia. cbn. lia.
Qed.

(** Where the loops are after [pre], and what they do with the rest. *)
Lemma at_offset {X} (pre rest : list X) n j : n = Z.of_nat (length pre) → (pre ++ rest) !! Z.to_nat (n + Z.of_nat j) = rest !! j.
Proof. intros ->. rewrite lookup_app_r by lia. f_equal. lia. Qed.

Lemma encode_groups g pre rest f dest n :
  length rest = (4 * g)%nat → n = Z.of_nat (length pre) → n mod 4 = 0 → Forall is_byte rest → Z.of_nat (length (pre ++ rest)) < 2 ^ 32 → (length rest < f)%nat →
  encode_loop f (pre ++ rest) (Z.of_nat (length (pre ++ rest))) n 0 dest = Ok (dest ++ text_of rest).
Proof.
  revert pre rest f dest n. induction g as [|g IH]; intros pre rest f dest n Hl Hn Hm Hb Hlt Hf.
  { destruct rest; [|done]. destruct f as [|f]; [cbn in Hf; lia|]. cbn [encode_loop]. rewrite app_nil_r in *. by rewrite (proj2 (Z.ltb_ge n _)), app_nil_r by lia. }
  destruct rest as [|b0 [|b1 [|b2 [|b3 rest]]]]; cbn [length] in Hl; try lia. destruct f as [|[|[|[|f]]]]; cbn [length] in Hf; try lia.
  rewrite !Forall_cons_iff in Hb. destruct Hb as (B0 & B1 & B2 & B3 & Hb). pose proof B0 as C0. pose proof B1 as C1. pose proof B2 as C2. pose proof B3 as C3.
  unfold is_byte in C0, C1, C2, C3. set (data := pre ++ b0 :: b1 :: b2 :: b3 :: rest) in *. set (size := Z.of_nat (length data)) in *.
  assert (n + 4 + Z.of_nat (length rest) = size) as Hsz by (unfold size, data; rewrite length_app; cbn [length]; lia).
  assert (∀ j, data !! Z.to_nat (n + Z.of_nat j) = (b0 :: b1 :: b2 :: b3 :: rest) !! j) as L by (intros j; by apply at_offset).
  pose proof (L 0%nat) as L0. pose proof (L 1%nat) as L1. pose proof (L 2%nat) as L2. pose proof (L 3%nat) as L3. clear L. rewrite Z.add_0_r in L0. cbn in L1, L2, L3.
  rewrite (z85_encode_step _ data b0) by (done || lia). rewrite (mod_next n 4 1) by lia. cbn [Z.eqb].
  rewrite (z85_encode_step _ data b1) by (done || lia). replace (n + 1 + 1) with (n + 2) by lia. rewrite (mod_next n 4 2) by lia. cbn [Z.eqb Pos.eqb].
  rewrite (z85_encode_step _ data b2) by (done || lia). replace (n + 2 + 1) with (n + 3) by lia. rewrite (mod_next n 4 3) by lia. cbn [Z.eqb Pos.eqb].
  rewrite (z85_encode_step _ data b3) by (done || lia). replace (n + 3 + 1) with (n + 4) by lia.
  assert ((n + 4) mod 4 = 0) as -> by (replace (n + 4) with (n + 1 * 4) by lia; by rewrite Z.mod_add by lia). cbn [Z.eqb].
  specialize (IH (pre ++ [b0; b1; b2; b3]) rest f (dest ++ (digit <$> digits (group b0 b1 b2 b3))) (n + 4)).
  rewrite <- (assoc_L (++)) in IH. cbn [app] in IH. fold data in IH. fold size in IH. rewrite Z.add_0_l. cbn [text_of]. rewrite (assoc_L (++)). apply IH; try done; try lia.
  - rewrite length_app. cbn. lia.
  - replace (n + 4) with (n + 1 * 4) by lia. by rewrite Z.mod_add by lia.
Qed.

Lemma decode_groups g pre rest f dest n :
  length rest = (4 * g)%nat → n = Z.of_nat (length pre) → n mod 5 = 0 → Forall is_byte rest → Z.of_nat (length (pre ++ text_of rest)) < 2 ^ 32 →
  (length (text_of rest) < f)%nat →
  decode_loop f (pre ++ text_of rest) (Z.of_nat (length (pre ++ text_of rest))) n 0 dest = Ok (dest ++ rest).
Proof.
  revert pre rest f dest n. induction g as [|g IH]; intros pre rest f dest n Hl Hn Hm Hb Hlt Hf.
  { destruct rest; [|done]. destruct f as [|f]; [cbn in Hf; lia|]. cbn [decode_loop text_of]. cbn [text_of] in Hlt. rewrite app_nil_r in *.
    by rewrite (proj2 (Z.ltb_ge n _)), app_nil_r by lia. }
  destruct rest as [|b0 [|b1 [|b2 [|b3 rest]]]]; cbn [length] in Hl; try lia.
  rewrite !Forall_cons_iff in Hb. destruct Hb as (B0 & B1 & B2 & B3 & Hb). cbn [text_of] in *. pose proof (group_range b0 b1 b2 b3 B0 B1 B2 B3) as Hv.
  pose proof (digits_value _ Hv) as Hval. unfold digits in *. set (v := group b0 b1 b2 b3) in *.
  set (d0 := v `div` 52200625 `mod` 85) in *. set (d1 := v `div` 614125 `mod` 85) in *. set (d2 := v `div` 7225 `mod` 85) in *.
  set (d3 := v `div` 85 `mod` 85) in *. set (d4 := v `mod` 85) in *. cbn [fmap list_fmap app] in *. cbv iota beta zeta in Hval.
  assert (0 ≤ d0 < 85 ∧ 0 ≤ d1 < 85 ∧ 0 ≤ d2 < 85 ∧ 0 ≤ d3 < 85 ∧ 0 ≤ d4 < 85) as (D0 & D1 & D2 & D3 & D4)
    by (split_and!; apply Z.mod_pos_bound; lia).
  destruct f as [|[|[|[|[|f]]]]]; cbn [length] in Hf; try lia.
  set (str := pre ++ digit d0 :: digit d1 :: digit d2 :: digit d3 :: digit d4 :: text_of rest) in *. set (size := Z.of_nat (length str)) in *.
  assert (n + 5 + Z.of_nat (length (text_of rest)) = size) as Hsz by (unfold size, str; rewrite length_app; cbn [length]; lia).
  assert (∀ j, str !! Z.to_nat (n + Z.of_nat j) = (digit d0 :: digit d1 :: digit d2 :: digit d3 :: digit d4 :: text_of rest) !! j) as L by (intros j; by apply at_offset).
  pose proof (L 0%nat) as L0. pose proof (L 1%nat) as L1. pose proof (L 2%nat) as L2. pose proof (L 3%nat) as L3. pose proof (L 4%nat) as L4. clear L.
  rewrite Z.add_0_r in L0. cbn in L1, L2, L3, L4.
  rewrite (z85_decode_step _ str d0) by (done || lia). rewrite (mod_next n 5 1) by lia. cbn [Z.eqb Pos.eqb].
  rewrite (z85_decode_step _ str d1) by (done || lia). replace (n + 1 + 1) with (n + 2) by lia. rewrite (mod_next n 5 2) by lia. cbn [Z.eqb Pos.eqb].
  rewrite (z85_decode_step _ str d2) by (done || lia). replace (n + 2 + 1) with (n + 3) by lia. rewrite (mod_next n 5 3) by lia. cbn [Z.eqb Pos.eqb].
  rewrite (z85_decode_step _ str d3) by (done || lia). replace (n + 3 + 1) with (n + 4) by lia. rewrite (mod_next n 5 4) by lia. cbn [Z.eqb Pos.eqb].
  rewrite (z85_decode_step _ str d4) by (done || lia). replace (n + 4 + 1) with (n + 5) by lia.
  assert ((n + 5) mod 5 = 0) as Hm5 by (replace (n + 5) with (n + 1 * 5) by lia; by rewrite Z.mod_add by lia). rewrite Hm5. cbn [Z.eqb].
  replace ((((0 * 85 + d0) * 85 + d1) * 85 + d2) * 85 + d3) with (((d0 * 85 + d1) * 85 + d2) * 85 + d3) by lia. rewrite Hval. unfold v.
  rewrite put_base256_run by done.
  specialize (IH (pre ++ [digit d0; digit d1; digit d2; digit d3; digit d4]) rest f (dest ++ [b0; b1; b2; b3]) (n + 5)).
  rewrite <- (assoc_L (++)) in IH. cbn [app] in IH. fold str in IH. fold size in IH. rewrite IH; try done; try lia.
  - by rewrite <- (assoc_L (++)).
  - rewrite length_app. cbn. lia.
Qed.

(** The text is printable. *)
Lemma text_printable g l : length l = (4 * g)%nat → Forall (λ c, 32 < c < 127) (text_of l).
Proof.
  revert l. induction g as [|g IH]; intros l Hl; [by destruct l|]. destruct l as [|b0 [|b1 [|b2 [|b3 l]]]]; cbn in Hl; try lia.
  cbn [text_of]. apply Forall_app. split; [|apply IH; lia]. unfold digits. cbn [fmap list_fmap].
  repeat (constructor; [apply digit_decodes, Z.mod_pos_bound; lia|]). constructor.
Qed.

Lemma whole_groups (l : list Z) : Z.of_nat (length l) mod 4 = 0 → length l = (4 * (length l / 4))%nat.
Proof. intros H. apply Nat.Div0.div_exact. apply (f_equal Z.to_nat) in H. by rewrite Z2Nat.inj_mod, Nat2Z.id in H by lia. Qed.

(** C23: Encoding and decoding: for fewer than 2^30 bytes, a multiple of four,
    [zmq_z85_encode] gives five printable characters for every four bytes, and
    [zmq_z85_decode] gives the bytes back. For other lengths it refuses. *)
Theorem z85_roundtrip data :
  Forall is_byte data → Z.of_nat (length data) < 2 ^ 30 →
  if bool_decide (Z.of_nat (length data) mod 4 = 0) then
    ∃ text, zmq_z85_encode data = Ok (Some text) ∧ Z.of_nat (length text) = (Z.of_nat (length data) * 5) `div` 4 ∧
      Forall (λ c, 32 < c < 127) text ∧ zmq_z85_decode text = Ok (Some data)
  else zmq_z85_encode data = Ok None.
Proof.
  intros Hb Hlt. case_bool_decide as Hm; unfold zmq_z85_encode; [|by rewrite (proj2 (Z.eqb_neq _ 0)) by done].
  rewrite (proj2 (Z.eqb_eq _ 0) Hm). cbn [negb]. pose proof (whole_groups data Hm) as Hg. set (g := (length data / 4)%nat) in *.
  pose proof (length_text_of data g Hg) as Ht. pose proof (encode_groups g [] data (S (length data)) [] 0) as He.
  pose proof (decode_groups g [] data (S (length (text_of data))) [] 0) as Hd. cbn [app] in He, Hd. rewrite He by (done || lia).
  assert (Z.of_nat (length (text_of data)) = (Z.of_nat (length data) * 5) `div` 4) as E
    by (rewrite Ht, Hg; replace (Z.of_nat (4 * g) * 5) with (Z.of_nat (5 * g) * 4) by lia; by rewrite Z.div_mul by lia).
  rewrite (proj2 (Z.eqb_eq _ _) E). exists (text_of data). split_and!; [done|exact E|by apply (text_printable g)|].
  unfold zmq_z85_decode. rewrite Hd by (done || lia).
  assert (Z.of_nat (length (text_of data)) = Z.of_nat g * 5) as -> by lia. rewrite Z.mod_mul by lia. cbn [Z.eqb negb].
  replace (Z.of_nat g * 5 * 4) with (Z.of_nat (length data) * 5) by lia. rewrite Z.div_mul by lia. by rewrite Z.eqb_refl.
Qed.

Lemma z85_roundtrip_witness :
  ∃ text, zmq_z85_encode [0x86; 0x4F; 0xD2; 0x6F; 0xB5; 0x59; 0xF7; 0x5B] = Ok (Some text) ∧ text = codes "HelloWorld" ∧
    zmq_z85_decode text = Ok (Some [0x86; 0x4F; 0xD2; 0x6F; 0xB5; 0x59; 0xF7; 0x5B]).
Proof.
  assert (Forall is_byte [0x86; 0x4F; 0xD2; 0x6F; 0xB5; 0x59; 0xF7; 0x5B]) as Hb by (repeat (constructor; [unfold is_byte; lia|]); constructor).
  destruct (z85_roundtrip [0x86; 0x4F; 0xD2; 0x6F; 0xB5; 0x59; 0xF7; 0x5B] Hb ltac:(vm_compute; reflexivity)) as (text & He & _ & _ & Hd).
  exists text. split_and!; [exact He| |exact Hd]. vm_compute in He. injection He as <-. vm_compute. reflexivity.
Defined.

(** ** What decoding does not refuse *)

(** The characters [decoder] has an entry for. *)
Definition in_table (c : Z) : Prop := 32 ≤ u8 c < 128.
#[export] Instance in_table_dec c : Decision (in_table c).
Proof. unfold in_table. apply _. Defined.

Lemma entry_decoder c : in_table c → ∃ d, entry decoder (u8 c - 32) = Ok d.
Proof.
  intros H. unfold in_table in H. unfold entry. rewrite decide_True by lia. destruct (decoder !! Z.to_nat (u8 c - 32)) eqn:E; [by eexists|].
  apply lookup_ge_None in E. change (length decoder) with 96%nat in E. lia.
Qed.
Lemma entry_outside c : ¬ in_table c → entry decoder (u8 c - 32) = Err (Undefined OutOfBounds).
Proof.
  intros H. unfold in_table in H. unfold entry. case_decide; [|done]. rewrite lookup_ge_None_2; [done|]. change (length decoder) with 96%nat. lia.
Qed.

Lemma put_base256_any v dest : ∃ more, put_base256 5 v (256 * 256 * 256) dest = Ok (dest ++ more) ∧ length more = 4%nat ∧ Forall is_byte more.
Proof.
  eexists. split; [apply put_base256_all|]. split; [done|]. repeat (constructor; [apply Z.mod_pos_bound; lia|]). constructor.
Qed.

Lemma groups_from n k : 0 < k → 0 ≤ n → (n + 1) `div` k = n `div` k + (if (n + 1) mod k =? 0 then 1 else 0).
Proof. intros Hk Hn. case_match eqn:E; [apply Z.eqb_eq in E|apply Z.eqb_neq in E]; Z.to_euclidean_division_equations; nia. Qed.

(** From its [n]th character on: all is in the table, and the loop stores four bytes
    for each group it completes, or it reads outside of the table. *)
Lemma decode_rest f str n value dest :
  let size := Z.of_nat (length str) in
  size < 2 ^ 32 → 0 ≤ n ≤ size → size - n < Z.of_nat f →
  if decide (Forall in_table (drop (Z.to_nat n) str)) then
    ∃ more, decode_loop f str size n value dest = Ok (dest ++ more) ∧ Forall is_byte more ∧ Z.of_nat (length more) = 4 * (size `div` 5 - n `div` 5)
  else decode_loop f str size n value dest = Err (Undefined OutOfBounds).
Proof.
  intros size Hsz. revert n value dest. induction f as [|f IH]; intros n value dest Hn Hf; [lia|]. cbn [decode_loop].
  destruct (Z.ltb_spec n size) as [Hlt|Hge].
  2:{ assert (n = size) as -> by lia. rewrite drop_ge by lia. rewrite decide_True by constructor. exists []. rewrite app_nil_r, Z.sub_diag. done. }
  destruct (lookup_lt_is_Some_2 str (Z.to_nat n)) as [c Hc]; [lia|]. rewrite (drop_S str c) by done.
  assert (entry str n = Ok c) as -> by (unfold entry; by rewrite decide_True, Hc by lia). replace (S (Z.to_nat n)) with (Z.to_nat (n + 1)) by lia.
  assert (u32 (n + 1) = n + 1) as -> by (apply Z.mod_small; lia). pose proof (groups_from n 5 ltac:(lia) ltac:(lia)) as Hg.
  destruct (decide (in_table c)) as [Hin|Hout].
  2:{ rewrite decide_False by (by rewrite Forall_cons_iff; intros [??]). by rewrite entry_outside. }
  destruct (entry_decoder c Hin) as [d ->]. cbv zeta. set (v := u32 (value * 85 + d)).
  rewrite (decide_ext _ (Forall in_table (drop (Z.to_nat (n + 1)) str))) by (rewrite Forall_cons_iff; naive_solver).
  destruct ((n + 1) mod 5 =? 0).
  - destruct (put_base256_any v dest) as (m1 & -> & Hl1 & Hb1). specialize (IH (n + 1) 0 (dest ++ m1) ltac:(lia) ltac:(lia)). case_decide; [|done].
    destruct IH as (more & -> & Hb & Hl). exists (m1 ++ more). rewrite (assoc_L (++)), length_app, Forall_app. split_and!; [done..|lia].
  - specialize (IH (n + 1) v dest ltac:(lia) ltac:(lia)). case_decide; [|done]. destruct IH as (more & -> & Hb & Hl). exists more. split_and!; [done..|lia].
Qed.

(** C24: What [zmq_z85_decode] does with any string of fewer than 2^32 characters. It
    refuses exactly those whose length is not a multiple of five. A character that is
    not of the alphabet is never refused: as long as all are in the table, the call
    succeeds with four bytes for every five characters, and any other character makes
    it read outside of [decoder]. *)
Theorem z85_decode_checks str :
  Z.of_nat (length str) < 2 ^ 32 →
  if negb (Z.of_nat (length str) mod 5 =? 0) then zmq_z85_decode str = Ok None
  else if decide (Forall in_table str) then
    ∃ data, zmq_z85_decode str = Ok (Some data) ∧ Forall is_byte data ∧ Z.of_nat (length data) = (Z.of_nat (length str) * 4) `div` 5
  else zmq_z85_decode str = Err (Undefined OutOfBounds).
Proof.
  intros Hlt. unfold zmq_z85_decode. destruct (Z.eqb_spec (Z.of_nat (length str) mod 5) 0) as [Hm|]; cbn [negb]; [|done].
  pose proof (decode_rest (S (length str)) str 0 0 [] Hlt ltac:(lia) ltac:(lia)) as H. change (drop (Z.to_nat 0) str) with str in H.
  case_decide; [|by rewrite H]. destruct H as (data & -> & Hb & Hl). cbn [app] in *. change (0 `div` 5) with 0 in Hl.
  assert (Z.of_nat (length data) = (Z.of_nat (length str) * 4) `div` 5) as E by (Z.to_euclidean_division_equations; lia).
  exists data. rewrite (proj2 (Z.eqb_eq _ _) E). done.
Qed.

(** Five quotation marks are not Z85 and decode to zeros; a tabulator reads outside. *)
Lemma z85_decode_checks_witness :
  zmq_z85_decode [34; 34; 34; 34; 34] = Ok (Some [0; 0; 0; 0]) ∧ zmq_z85_decode [9; 48; 48; 48; 48] = Err (Undefined OutOfBounds).
Proof.
  split; [vm_compute; reflexivity|]. pose proof (z85_decode_checks [9; 48; 48; 48; 48] ltac:(vm_compute; reflexivity)) as H.
  cbn [negb length] in H. change (Z.of_nat 5 mod 5 =? 0) with true in H. cbn [negb] in H. rewrite decide_False in H; [exact H|].
  rewrite Forall_cons_iff. intros [[H1 _] _]. vm_compute in H1. by apply H1.
Defined.
