(* ===== verification/ZmqArray.v ===== *)
(** * Arrays of pipes (libzmq/src, array.hpp)

    [array_t], the vector of pointers in which the distributor keeps its pipes,
    partitioned by swapping: each pipe knows its index, so that it is found, swapped and
    erased without a search. A pipe is known by its address; null pointers, which are
    never stored, are left out. The members [array_index] of the pipes are a map here,
    with -1 for one that was never set.

    The distributor sees pipes through the interface [PipeOps], the methods of [pipe_t]
    that it calls; [net] is the instance with the pipes of ZmqPipe.v. *)

From stdpp Require Import base tactics list numbers gmap sets strings.
From S2P Require Import Prelude ZmqWire ZmqYpipe ZmqYpipeSpec ZmqPipe.

Local Open Scope Z_scope.

(** ** The interface of pipes *)

Class PipeOps (W : Type) := {
  p_write : N → pmsg → M W bool;
  p_flush : N → M W ();
  p_check_hwm : N → M W bool
}.

(** Many pipes, with the socket at the left end of each. *)
Notation net := (gmap N pair).

Definition on_pair {A} (p : N) (m : P A) : M net A := λ w,
  match w !! p with
  | None => Err (Undefined Dangling)
  | Some pr => match m pr with Ok (a, pr') => Ok (a, <[p := pr']> w) | Err e => Err e end
  end.

#[export] Instance net_ops : PipeOps net := {|
  p_write p m := on_pair p (pipe_write left_end m);
  p_flush p := on_pair p (pipe_flush left_end);
  p_check_hwm p := on_pair p (e ← get_end left_end; mret (check_hwm e))
|}.

(** ** The array *)

Record array := Array { items : list N; indices : gmap N Z }.

Definition new_array : array := Array [] ∅.
Definition array_size (a : array) : Z := Z.of_nat (length (items a)).
Definition index (a : array) (p : N) : Z := default (-1) (indices a !! p).

Definition set_array_index (p : N) (i : Z) (a : array) : array := Array (items a) (<[p := i32 i]> (indices a)).
Definition set_items (l : list N) (a : array) : array := Array l (indices a).

(** [operator []]. *)
Definition item_at (i : Z) : M array N :=
  a ← get_st;
  if decide (0 ≤ i) then match items a !! Z.to_nat i with Some p => mret p | None => undefined OutOfBounds end else undefined OutOfBounds.

Definition push_back (p : N) : M array () :=
  modify (λ a, set_array_index p (array_size a) a);;
  modify (λ a, set_items (items a ++ [p]) a).

Definition erase_at (i : Z) : M array () :=
  a ← get_st;
  match last (items a) with
  | None => undefined OutOfBounds
  | Some b =>
      modify (set_array_index b i);;
      _ ← item_at i;
      modify (λ a, set_items (<[Z.to_nat i := b]> (items a)) a);;
      modify (λ a, set_items (take (length (items a) - 1) (items a)) a)
  end.

(** The index is an [int] that becomes a [size_type]. *)
Definition erase (p : N) : M array () := a ← get_st; erase_at (u64 (index a p)).

Definition swap (i j : Z) : M array () :=
  p ← item_at i;
  modify (set_array_index p j);;
  q ← item_at j;
  modify (set_array_index q i);;
  modify (λ a, set_items (<[Z.to_nat i := q]> (<[Z.to_nat j := p]> (items a))) a).

(** ** What the operations do *)

(** Each pipe in the array knows where it is. The index is an [int]. *)
Definition awf (a : array) : Prop :=
  (∀ i p, items a !! i = Some p → index a p = Z.of_nat i) ∧ array_size a < 2 ^ 31.

Definition swapped (i j : nat) (l : list N) : list N :=
  match l !! i, l !! j with Some p, Some q => <[i := q]> (<[j := p]> l) | _, _ => l end.

Lemma awf_new : awf new_array.
Proof. by split. Qed.

Lemma awf_inj a i j p : awf a → items a !! i = Some p → items a !! j = Some p → i = j.
Proof. intros [H _] Hi Hj. apply H in Hi, Hj. lia. Qed.
Lemma awf_NoDup a : awf a → NoDup (items a).
Proof. intros H. apply NoDup_alt. intros i j p. by apply awf_inj. Qed.

Lemma awf_index a p : awf a → p ∈ items a → ∃ i : nat, index a p = Z.of_nat i ∧ items a !! i = Some p ∧ (i < length (items a))%nat.
Proof. intros [H _] [i Hi]%list_elem_of_lookup. exists i. split; [by apply H|]. split; [done|]. by eapply lookup_lt_Some. Qed.

Lemma item_at_run a i p : items a !! i = Some p → item_at (Z.of_nat i) a = Ok (p, a).
Proof. intros H. unfold item_at. erewrite bind_run by done. rewrite decide_True, Nat2Z.id, H by lia. done. Qed.

Lemma i32_small i : 0 ≤ i < 2 ^ 31 → i32 i = i.
Proof. intros H. unfold i32. rewrite Z.mod_small by lia. lia. Qed.

Lemma index_set a p q i : 0 ≤ i < 2 ^ 31 → index (set_array_index p i a) q = if decide (p = q) then i else index a q.
Proof.
  intros H. unfold index, set_array_index; cbn. case_decide; subst; [rewrite lookup_insert_eq; cbn; by apply i32_small|by rewrite lookup_insert_ne].
Qed.

Lemma push_back_run a p : awf a → p ∉ items a → array_size a + 1 < 2 ^ 31 → ∃ a', push_back p a = Ok ((), a') ∧ awf a' ∧ items a' = items a ++ [p].
Proof.
  intros [H Hs] Hp Hlt. eexists. split; [done|]. unfold array_size in *. split; [split|done]; cbn [items set_items set_array_index].
  - intros i q Hq. change (index (set_array_index p (Z.of_nat (length (items a))) a) q = Z.of_nat i). rewrite index_set by lia.
    apply lookup_app_Some in Hq as [Hq|[Hle Hq]]; [|apply list_lookup_singleton_Some in Hq as [? <-]; rewrite decide_True by done; lia].
    rewrite decide_False; [by apply H|]. intros ->. by apply Hp, list_elem_of_lookup; exists i.
  - unfold array_size. cbn. rewrite length_app. cbn. lia.
Qed.

Lemma length_swapped i j l : length (swapped i j l) = length l.
Proof. unfold swapped. repeat case_match; by rewrite ?length_insert. Qed.

Lemma lookup_swapped i j l k p q : l !! i = Some p → l !! j = Some q →
  swapped i j l !! k = if decide (k = i) then Some q else if decide (k = j) then Some p else l !! k.
Proof.
  intros Hi Hj. unfold swapped. rewrite Hi, Hj. pose proof (lookup_lt_Some _ _ _ Hi). pose proof (lookup_lt_Some _ _ _ Hj).
  destruct (decide (k = i)) as [->|]; [by rewrite list_lookup_insert_eq by (rewrite length_insert; lia)|]. rewrite list_lookup_insert_ne by done.
  destruct (decide (k = j)) as [->|]; [by rewrite list_lookup_insert_eq by lia|by rewrite list_lookup_insert_ne].
Qed.

Lemma swapped_comm i j l : swapped i j l = swapped j i l.
Proof.
  apply list_eq. intros k. destruct (l !! i) as [p|] eqn:Hi, (l !! j) as [q|] eqn:Hj; try (unfold swapped; rewrite Hi, Hj; done).
  rewrite (lookup_swapped _ _ _ _ _ _ Hi Hj), (lookup_swapped _ _ _ _ _ _ Hj Hi). repeat case_decide; congruence.
Qed.

Lemma swap_run a i j : awf a → (i < length (items a))%nat → (j < length (items a))%nat →
  ∃ a', swap (Z.of_nat i) (Z.of_nat j) a = Ok ((), a') ∧ awf a' ∧ items a' = swapped i j (items a).
Proof.
  intros Hw Hi Hj. pose proof Hw as [H Hs]. unfold array_size in Hs. destruct (lookup_lt_is_Some_2 _ _ Hi) as [p Hp]. destruct (lookup_lt_is_Some_2 _ _ Hj) as [q Hq].
  eexists. split.
  { unfold swap. erewrite bind_run by (by apply item_at_run). erewrite bind_run by done. erewrite bind_run by (by apply item_at_run). by erewrite bind_run. }
  rewrite !Nat2Z.id. cbn [items set_items set_array_index]. assert (swapped i j (items a) = <[i := q]> (<[j := p]> (items a))) as E by (unfold swapped; by rewrite Hp, Hq).
  rewrite <- E. split; [|done]. split; [|unfold array_size; cbn; rewrite length_swapped; lia]. cbn [items]. intros k x.
  change (swapped i j (items a) !! k = Some x → index (set_array_index q (Z.of_nat i) (set_array_index p (Z.of_nat j) a)) x = Z.of_nat k).
  rewrite (lookup_swapped _ _ _ _ _ _ Hp Hq), !index_set by lia. intros Hk.
  destruct (decide (k = i)) as [->|Hni]; [injection Hk as ->; by rewrite decide_True|].
  destruct (decide (k = j)) as [->|Hnj].
  - injection Hk as ->. destruct (decide (q = x)) as [->|]; [|by rewrite decide_True]. by rewrite (awf_inj _ _ _ _ Hw Hp Hq) in Hni.
  - rewrite !decide_False; [by apply H| |]; intros ->; [by apply Hni, (awf_inj a k i x)|by apply Hnj, (awf_inj a k j x)].
Qed.

(** The last item takes the place of the erased one. *)
Lemma erase_run a i p : awf a → items a !! i = Some p →
  ∃ a', erase p a = Ok ((), a') ∧ awf a' ∧ S (length (items a')) = length (items a) ∧
    (∀ k, (S k < length (items a))%nat → k ≠ i → items a' !! k = items a !! k) ∧
    ((S i < length (items a))%nat → items a' !! i = last (items a)) ∧
    (∀ x, x ∈ items a' ↔ x ∈ items a ∧ x ≠ p).
Proof.
  intros Hw Hi. pose proof Hw as [H Hs]. unfold array_size in Hs. pose proof (lookup_lt_Some _ _ _ Hi) as Hlt.
  destruct (last (items a)) as [b|] eqn:Hb; [|apply last_None in Hb; by rewrite Hb in Hlt; cbn in Hlt; lia].
  pose proof Hb as Hb'. rewrite last_lookup in Hb'. eexists. split.
  { unfold erase. erewrite bind_run by done. rewrite (H _ _ Hi). unfold u64. rewrite Z.mod_small by lia. unfold erase_at. erewrite bind_run by done. rewrite Hb.
    erewrite bind_run by done. erewrite bind_run by (by apply item_at_run). by erewrite bind_run. }
  rewrite Nat2Z.id. cbn [items set_items set_array_index]. rewrite length_insert.
  assert (∀ k, take (length (items a) - 1) (<[i := b]> (items a)) !! k =
    if decide (S k < length (items a))%nat then (if decide (k = i) then Some b else items a !! k) else None) as Hl.
  { intros k. case_decide; [rewrite lookup_take_lt by lia|by rewrite lookup_take_ge by lia].
    case_decide; [subst; by rewrite list_lookup_insert_eq|by rewrite list_lookup_insert_ne]. }
  split_and!.
  - split; [|unfold array_size; cbn; rewrite length_take, length_insert; lia]. cbn [items]. intros k x. rewrite Hl. intros Hx.
    change (index (set_array_index b (Z.of_nat i) a) x = Z.of_nat k). rewrite index_set by lia. destruct (decide _); [|done].
    destruct (decide (k = i)) as [->|]; [injection Hx as ->; by rewrite decide_True|]. rewrite decide_False; [by apply H|].
    intros ->. pose proof (awf_inj _ _ _ _ Hw Hx Hb'). lia.
  - rewrite length_take, length_insert. lia.
  - intros k Hk Hne. by rewrite Hl, decide_True, decide_False.
  - intros Hk. by rewrite Hl, decide_True, decide_True.
  - intros x. rewrite !list_elem_of_lookup. setoid_rewrite Hl. split.
    + intros (k & Hk). destruct (decide _) as [Hlk|]; [|done]. destruct (decide (k = i)) as [->|].
      * injection Hk as ->. split; [by eexists|]. intros ->. pose proof (awf_inj _ _ _ _ Hw Hi Hb'). lia.
      * split; [by eexists|]. intros ->. by pose proof (awf_inj _ _ _ _ Hw Hi Hk).
    + intros [[k Hk] Hne]. destruct (decide (S k < length (items a))%nat).
      * exists k. rewrite decide_True by done. rewrite decide_False; [done|]. intros ->. congruence.
      * pose proof (lookup_lt_Some _ _ _ Hk). exists i. assert (k = Nat.pred (length (items a))) as -> by lia. rewrite Hk in Hb'. injection Hb' as ->.
        rewrite decide_True, decide_True; [done|done|]. destruct (decide (i = Nat.pred (length (items a)))) as [->|]; [congruence|lia].
Qed.

(** ** The pipes at the beginning of an array *)

Definition first_of (n : nat) (l : list N) : gset N := list_to_set (take n l).

Lemma elem_of_first n l p : p ∈ first_of n l ↔ ∃ k, (k < n)%nat ∧ l !! k = Some p.
Proof.
  unfold first_of. rewrite elem_of_list_to_set, list_elem_of_lookup. split.
  - intros [k Hk]. apply lookup_take_Some in Hk as [? ?]. by exists k.
  - intros (k & ? & ?). exists k. by apply lookup_take_Some.
Qed.

Lemma first_of_S n l p : l !! n = Some p → first_of (S n) l = {[p]} ∪ first_of n l.
Proof. intros H. unfold first_of. rewrite (take_S_r _ _ _ H), list_to_set_app_L. set_solver. Qed.

Lemma first_of_le n n' l : (n ≤ n')%nat → first_of n l ⊆ first_of n' l.
Proof. intros H p. rewrite !elem_of_first. intros (k & ? & ?). exists k. split; [lia|done]. Qed.

Lemma first_of_app n l l' : (n ≤ length l)%nat → first_of n (l ++ l') = first_of n l.
Proof. intros H. unfold first_of. by rewrite take_app_le. Qed.

(** A swap within the beginning, or behind it, does not change what is in it. *)
Lemma first_of_swapped n i j l :
  (i < length l)%nat → (j < length l)%nat → ((i < n)%nat ↔ (j < n)%nat) → first_of n (swapped i j l) = first_of n l.
Proof.
  intros [p Hi]%lookup_lt_is_Some_2 [q Hj]%lookup_lt_is_Some_2 Hij. apply set_eq. intros x. rewrite !elem_of_first.
  setoid_rewrite (lookup_swapped _ _ _ _ _ _ Hi Hj). split.
  - intros (k & Hk & Hx). destruct (decide (k = i)) as [->|]; [exists j; split; [tauto|congruence]|].
    destruct (decide (k = j)) as [->|]; [exists i; split; [tauto|congruence]|]. by exists k.
  - intros (k & Hk & Hx). destruct (decide (k = i)) as [->|Hni].
    + exists j. split; [tauto|]. destruct (decide (j = i)) as [->|]; [congruence|]. by rewrite decide_True by done; congruence.
    + destruct (decide (k = j)) as [->|]; [exists i; split; [tauto|]; rewrite decide_True by done; congruence|].
      exists k. split; [done|]. by rewrite !decide_False.
Qed.

Lemma swapped_l i j l p q : l !! i = Some p → l !! j = Some q → swapped i j l !! i = Some q.
Proof. intros Hi Hj. by rewrite (lookup_swapped _ _ _ _ _ _ Hi Hj), decide_True. Qed.
Lemma swapped_r i j l p q : l !! i = Some p → l !! j = Some q → swapped i j l !! j = Some p.
Proof. intros Hi Hj. rewrite (lookup_swapped _ _ _ _ _ _ Hi Hj). destruct (decide (j = i)) as [->|]; [congruence|by rewrite decide_True]. Qed.

(** A pipe joins the beginning, or leaves it. *)
Lemma first_of_grow n i l p : (n ≤ i)%nat → l !! i = Some p → first_of (S n) (swapped i n l) = {[p]} ∪ first_of n l.
Proof.
  intros Hn Hi. pose proof (lookup_lt_Some _ _ _ Hi). destruct (lookup_lt_is_Some_2 l n) as [q Hq]; [lia|].
  rewrite (first_of_S _ _ p) by (by eapply swapped_r). by rewrite first_of_swapped by lia.
Qed.

Lemma first_of_shrink n i l p : NoDup l → (i < S n)%nat → (n < length l)%nat → l !! i = Some p → first_of n (swapped i n l) = first_of (S n) l ∖ {[p]}.
Proof.
  intros Hnd Hi Hn Hp. destruct (lookup_lt_is_Some_2 l n) as [q Hq]; [lia|].
  rewrite <- (first_of_swapped (S n) i n l), (first_of_S _ _ p) by (lia || by eapply swapped_r).
  assert (p ∉ first_of n (swapped i n l)); [|set_solver]. rewrite elem_of_first. intros (k & Hk & Hx).
  rewrite (lookup_swapped _ _ _ _ _ _ Hp Hq) in Hx. destruct (decide (k = i)) as [->|].
  - injection Hx as ->. assert (i = n) by (by eapply (NoDup_lookup l)). lia.
  - destruct (decide (k = n)); [lia|]. by assert (k = i) by (by eapply (NoDup_lookup l)).
Qed.
