(* ===== verification/ZmqDist.v ===== *)
(** * Distribution of messages to many pipes (libzmq/src, dist.cpp)

    [dist_t], with which publishers send a message to all pipes that match. The array
    starts with the matching pipes, then come the other active ones, then those that are
    eligible from the next message on, and last the ones that are full. The theorems
    read the four beginnings of the array as sets, and say what each operation does to
    these sets and which pipes a message is written to.

    A message is a value here. The references to the data of one that is not stored in
    the message itself are counted: [distribute] gives the number that are left. That
    such a message has no metadata, which [add_refs] asserts, is not modelled. *)

From stdpp Require Import base tactics list numbers gmap sets strings.
From S2P Require Import Prelude ZmqWire ZmqYpipe ZmqYpipeSpec ZmqPipe ZmqArray.

Local Open Scope Z_scope.

Record dist_t := Dist { d_pipes : array; d_matching : Z; d_active : Z; d_eligible : Z; d_more : bool }.

Definition new_dist : dist_t := Dist new_array 0 0 0 false.

Definition set_d_pipes a d := Dist a (d_matching d) (d_active d) (d_eligible d) (d_more d).
Definition set_d_matching n d := Dist (d_pipes d) n (d_active d) (d_eligible d) (d_more d).
Definition set_d_active n d := Dist (d_pipes d) (d_matching d) n (d_eligible d) (d_more d).
Definition set_d_eligible n d := Dist (d_pipes d) (d_matching d) (d_active d) n (d_more d).
Definition set_d_more b d := Dist (d_pipes d) (d_matching d) (d_active d) (d_eligible d) b.

(** A method of the array. *)
Definition d_array {A} (m : M array A) : M dist_t A := zoom d_pipes set_d_pipes m.

(** [pipes.index (pipe_)], as a [size_type]. *)
Definition d_index (p : N) : M dist_t Z := d ← get_st; mret (u64 (index (d_pipes d) p)).

Definition matching_add (n : Z) : M dist_t () := modify (λ d, set_d_matching (u64 (d_matching d + n)) d).
Definition active_add (n : Z) : M dist_t () := modify (λ d, set_d_active (u64 (d_active d + n)) d).
Definition eligible_add (n : Z) : M dist_t () := modify (λ d, set_d_eligible (u64 (d_eligible d + n)) d).

(** ** The methods *)

Definition dist_attach (p : N) : M dist_t () :=
  d ← get_st;
  if d_more d then
    d_array (push_back p);;
    d ← get_st; d_array (swap (d_eligible d) (array_size (d_pipes d) - 1));;
    eligible_add 1
  else
    d_array (push_back p);;
    d ← get_st; d_array (swap (d_active d) (array_size (d_pipes d) - 1));;
    active_add 1;; eligible_add 1.

Definition dist_match (p : N) : M dist_t () :=
  d ← get_st;
  i ← d_index p;
  if i <? d_matching d then mret ()
  else if i >=? d_eligible d then mret ()
  else d_array (swap i (d_matching d));; matching_add 1.

Definition unmatch : M dist_t () := modify (set_d_matching 0).

(** The loop of [reverse_match], [n] times. *)
Fixpoint reverse_loop (i : Z) (n : nat) : M dist_t () :=
  match n with
  | O => mret ()
  | S n =>
      d ← get_st;
      d_array (swap i (d_matching d));; matching_add 1;;
      reverse_loop (i + 1) n
  end.

Definition reverse_match : M dist_t () :=
  d ← get_st;
  let prev_matching := d_matching d in
  unmatch;;
  reverse_loop prev_matching (Z.to_nat (d_eligible d - prev_matching)).

(** The pipe leaves the matching ones, the active ones, the eligible ones, and the array. *)
Definition out_of_matching (p : N) : M dist_t () :=
  i ← d_index p; d ← get_st; when (i <? d_matching d) (d_array (swap i (d_matching d - 1));; matching_add (-1)).
Definition out_of_active (p : N) : M dist_t () :=
  i ← d_index p; d ← get_st; when (i <? d_active d) (d_array (swap i (d_active d - 1));; active_add (-1)).
Definition out_of_eligible (p : N) : M dist_t () :=
  i ← d_index p; d ← get_st; when (i <? d_eligible d) (d_array (swap i (d_eligible d - 1));; eligible_add (-1)).
Definition dist_pipe_terminated (p : N) : M dist_t () :=
  out_of_matching p;; out_of_active p;; out_of_eligible p;; d_array (erase p).

Definition dist_activated (p : N) : M dist_t () :=
  i ← d_index p; d ← get_st;
  d_array (swap i (d_eligible d));;
  eligible_add 1;;
  d ← get_st;
  if d_more d then mret ()
  else d_array (swap (d_eligible d - 1) (d_active d));; active_add 1.

(** The pipe is full: from matching, active and eligible to passive. *)
Definition make_passive (p : N) : M dist_t () :=
  i ← d_index p; d ← get_st;
  d_array (swap i (d_matching d - 1));; matching_add (-1);;
  i ← d_index p; d ← get_st;
  d_array (swap i (d_active d - 1));; active_add (-1);;
  d ← get_st;
  d_array (swap (d_active d) (d_eligible d - 1));; eligible_add (-1).

Section dist.
Context {W : Type} `{!PipeOps W}.

(** The distributor, and the pipes. *)
Definition on_dist {A} (m : M dist_t A) : M (dist_t * W) A := zoom fst (λ d s, (d, s.2)) m.
Definition on_pipes {D A} (m : M W A) : M (D * W) A := zoom snd (λ w s, (s.1, w)) m.

Definition dist_write (p : N) (m : pmsg) : M (dist_t * W) bool :=
  b ← on_pipes (p_write p m);
  if negb b then on_dist (make_passive p);; mret false
  else when (negb (pm_more m)) (on_pipes (p_flush p));; mret true.

(** The loops of [distribute]: the number of failed writes. A pipe that fails is swapped with
    another one, which is at the same index then. *)
Fixpoint distribute_loop (fuel : nat) (m : pmsg) (i failed : Z) : M (dist_t * W) Z :=
  match fuel with
  | O => throw OutOfFuel
  | S fuel =>
      d ← gets fst;
      if i <? d_matching d then
        p ← on_dist (d_array (item_at i));
        b ← dist_write p m;
        if b : bool then distribute_loop fuel m (i + 1) failed else distribute_loop fuel m i (failed + 1)
      else mret failed
  end.

(** The caller has one reference to the data. *)
Definition distribute (vsm : bool) (m : pmsg) : M (dist_t * W) Z :=
  d ← gets fst;
  let fuel := S (Z.to_nat (d_matching d)) in
  if d_matching d =? 0 then mret 0
  else if vsm then _ ← distribute_loop fuel m 0 0; mret 0
  else
    let refs := 1 + i32 (d_matching d - 1) in
    failed ← distribute_loop fuel m 0 0;
    mret (refs - failed).

Definition send_to_matching (vsm : bool) (m : pmsg) : M (dist_t * W) Z :=
  refs ← distribute vsm m;
  on_dist (when (negb (pm_more m)) (modify (λ d, set_d_active (d_eligible d) d)));;
  on_dist (modify (set_d_more (pm_more m)));;
  mret refs.

Definition send_to_all (vsm : bool) (m : pmsg) : M (dist_t * W) Z :=
  on_dist (modify (λ d, set_d_matching (d_active d) d));;
  send_to_matching vsm m.

(** [check_hwm], from the [i]th matching pipe on, [n] of them. *)
Fixpoint check_hwm_loop (i : Z) (n : nat) : M (dist_t * W) bool :=
  match n with
  | O => mret true
  | S n =>
      p ← on_dist (d_array (item_at i));
      b ← on_pipes (p_check_hwm p);
      if b : bool then check_hwm_loop (i + 1) n else mret false
  end.
Definition dist_check_hwm : M (dist_t * W) bool := d ← gets fst; check_hwm_loop 0 (Z.to_nat (d_matching d)).
End dist.

(** ** The sets of pipes *)

Record dsets := DSets { ds_matching : gset N; ds_active : gset N; ds_eligible : gset N; ds_all : gset N; ds_more : bool }.

Definition dview (d : dist_t) : dsets :=
  let l := items (d_pipes d) in
  DSets (first_of (Z.to_nat (d_matching d)) l) (first_of (Z.to_nat (d_active d)) l) (first_of (Z.to_nat (d_eligible d)) l) (list_to_set l) (d_more d).

Definition dwf (d : dist_t) : Prop :=
  awf (d_pipes d) ∧ 0 ≤ d_matching d ≤ d_active d ∧ d_active d ≤ d_eligible d ≤ array_size (d_pipes d) ∧
  (d_more d = false → d_active d = d_eligible d).

(** What the operations do to the sets. *)
Definition sets_attach (p : N) (v : dsets) : dsets :=
  if ds_more v then DSets (ds_matching v) (ds_active v) ({[p]} ∪ ds_eligible v) ({[p]} ∪ ds_all v) true
  else DSets (ds_matching v) ({[p]} ∪ ds_active v) ({[p]} ∪ ds_eligible v) ({[p]} ∪ ds_all v) false.
Definition sets_match (p : N) (v : dsets) : dsets :=
  if decide (p ∈ ds_eligible v) then DSets ({[p]} ∪ ds_matching v) (ds_active v) (ds_eligible v) (ds_all v) (ds_more v) else v.
Definition sets_unmatch (v : dsets) : dsets := DSets ∅ (ds_active v) (ds_eligible v) (ds_all v) (ds_more v).
Definition sets_reverse (v : dsets) : dsets := DSets (ds_eligible v ∖ ds_matching v) (ds_active v) (ds_eligible v) (ds_all v) (ds_more v).
Definition sets_remove (p : N) (v : dsets) : dsets :=
  DSets (ds_matching v ∖ {[p]}) (ds_active v ∖ {[p]}) (ds_eligible v ∖ {[p]}) (ds_all v ∖ {[p]}) (ds_more v).
Definition sets_activated (p : N) (v : dsets) : dsets :=
  DSets (ds_matching v) (if ds_more v then ds_active v else {[p]} ∪ ds_active v) ({[p]} ∪ ds_eligible v) (ds_all v) (ds_more v).
(** The pipes in [f] were full. *)
Definition sets_refused (f : gset N) (v : dsets) : dsets :=
  DSets (ds_matching v ∖ f) (ds_active v ∖ f) (ds_eligible v ∖ f) (ds_all v) (ds_more v).
Definition sets_sent (more : bool) (v : dsets) : dsets :=
  DSets (ds_matching v) (if more then ds_active v else ds_eligible v) (ds_eligible v) (ds_all v) more.

(** The distributor with its counts as natural numbers. *)
Definition dnat (a : array) (m n e : nat) (b : bool) : dist_t := Dist a (Z.of_nat m) (Z.of_nat n) (Z.of_nat e) b.
Definition dok (a : array) (m n e : nat) (b : bool) : Prop :=
  awf a ∧ (m ≤ n ≤ e)%nat ∧ (e ≤ length (items a))%nat ∧ (b = false → n = e).

Lemma dwf_nat d : dwf d → ∃ a m n e b, d = dnat a m n e b ∧ dok a m n e b.
Proof.
  destruct d as [a m n e b]. intros (Ha & Hm & Hn & Hb). cbn in *. unfold array_size in Hn.
  exists a, (Z.to_nat m), (Z.to_nat n), (Z.to_nat e), b. unfold dnat, dok. rewrite !Z2Nat.id by lia. split; [done|].
  split; [done|]. split; [lia|]. split; [lia|]. intros E. apply Hb in E. lia.
Qed.
Lemma dok_wf a m n e b : dok a m n e b → dwf (dnat a m n e b).
Proof. intros (Ha & Hm & He & Hb). unfold dwf, array_size; cbn. split; [done|]. split; [lia|]. split; [lia|]. intros E. by rewrite (Hb E). Qed.

Lemma dview_nat a m n e b :
  dview (dnat a m n e b) = DSets (first_of m (items a)) (first_of n (items a)) (first_of e (items a)) (list_to_set (items a)) b.
Proof. unfold dview; cbn. by rewrite !Nat2Z.id. Qed.

Lemma all_first l : list_to_set l = first_of (length l) l.
Proof. unfold first_of. by rewrite take_ge. Qed.
Lemma all_swapped i j l : (i < length l)%nat → (j < length l)%nat → list_to_set (swapped i j l) = (list_to_set l : gset N).
Proof. intros Hi Hj. rewrite !all_first, length_swapped. apply first_of_swapped; lia. Qed.

Section runs.
Context (a : array) (m n e : nat) (b : bool) (Ha : awf a).

Lemma d_array_run {A} (f : M array A) r a' : f a = Ok (r, a') → d_array f (dnat a m n e b) = Ok (r, dnat a' m n e b).
Proof. intros H. unfold d_array, zoom. cbn. by rewrite H. Qed.

Lemma d_swap_run i j : (i < length (items a))%nat → (j < length (items a))%nat →
  ∃ a', d_array (swap (Z.of_nat i) (Z.of_nat j)) (dnat a m n e b) = Ok ((), dnat a' m n e b) ∧ awf a' ∧ items a' = swapped i j (items a).
Proof. intros Hi Hj. destruct (swap_run a i j Ha Hi Hj) as (a' & Hr & H). exists a'. split; [by apply d_array_run|done]. Qed.

Lemma awf_len : Z.of_nat (length (items a)) < 2 ^ 31.
Proof. apply Ha. Qed.

Lemma d_index_run p i : items a !! i = Some p → d_index p (dnat a m n e b) = Ok (Z.of_nat i, dnat a m n e b).
Proof.
  intros H. pose proof awf_len. pose proof (lookup_lt_Some _ _ _ H). unfold d_index. erewrite bind_run by done. cbn. rewrite (proj1 Ha _ _ H).
  unfold u64. by rewrite Z.mod_small by lia.
Qed.

Lemma matching_add_run k m' : Z.of_nat m' = Z.of_nat m + k → (m' ≤ length (items a))%nat → matching_add k (dnat a m n e b) = Ok ((), dnat a m' n e b).
Proof. intros H Hl. pose proof awf_len. unfold matching_add, modify, dnat, set_d_matching, u64; cbn. by rewrite <- H, Z.mod_small by lia. Qed.
Lemma active_add_run k n' : Z.of_nat n' = Z.of_nat n + k → (n' ≤ length (items a))%nat → active_add k (dnat a m n e b) = Ok ((), dnat a m n' e b).
Proof. intros H Hl. pose proof awf_len. unfold active_add, modify, dnat, set_d_active, u64; cbn. by rewrite <- H, Z.mod_small by lia. Qed.
Lemma eligible_add_run k e' : Z.of_nat e' = Z.of_nat e + k → (e' ≤ length (items a))%nat → eligible_add k (dnat a m n e b) = Ok ((), dnat a m n e' b).
Proof. intros H Hl. pose proof awf_len. unfold eligible_add, modify, dnat, set_d_eligible, u64; cbn. by rewrite <- H, Z.mod_small by lia. Qed.
End runs.

Lemma dist_attach_run d p : dwf d → p ∉ ds_all (dview d) → array_size (d_pipes d) + 1 < 2 ^ 31 →
  ∃ d', dist_attach p d = Ok ((), d') ∧ dwf d' ∧ dview d' = sets_attach p (dview d) ∧ array_size (d_pipes d') = array_size (d_pipes d) + 1.
Proof.
  intros (a & m & n & e & b & -> & Ha & Hm & He & Hb)%dwf_nat. rewrite dview_nat. cbn [ds_all]. rewrite elem_of_list_to_set. intros Hp Hs. cbn [d_pipes dnat] in Hs.
  destruct (push_back_run a p Ha Hp Hs) as (a1 & Hpush & Ha1 & E1). assert (length (items a1) = S (length (items a))) as Hl1 by (rewrite E1, length_app; cbn; lia).
  assert (Z.of_nat (length (items a1)) - 1 = Z.of_nat (length (items a))) as Hz by lia.
  assert (items a1 !! length (items a) = Some p) as Hlast by (rewrite E1, lookup_app_r, Nat.sub_diag by lia; done).
  assert (list_to_set (items a1) = ({[p]} ∪ list_to_set (items a) : gset N)) as Hall by (rewrite E1, list_to_set_app_L; set_solver).
  assert (∀ k, (k ≤ length (items a))%nat → first_of k (items a1) = first_of k (items a)) as Hf by (intros k Hk; rewrite E1; by apply first_of_app).
  destruct (d_swap_run a1 m n e b Ha1 e (length (items a))) as (a2 & Hsw & Ha2 & E2); [lia..|]. rewrite swapped_comm in E2.
  assert (length (items a2) = S (length (items a))) as Hl2 by (by rewrite E2, length_swapped).
  unfold dist_attach. erewrite bind_run by done. cbn [d_more dnat].
  destruct b; (erewrite bind_run by (apply d_array_run; exact Hpush)); (erewrite bind_run by done);
    cbn [d_eligible d_active d_pipes dnat]; unfold array_size; rewrite Hz.
  - erewrite bind_run by exact Hsw. exists (dnat a2 m n (S e) true).
    split; [apply eligible_add_run; [done|lia..]|]. split; [apply dok_wf; unfold dok; split; [done|]; split; [lia|]; split; [lia|done]|]. cbn [d_pipes dnat]. split; [|lia].
    rewrite dview_nat, E2. unfold sets_attach; cbn. by rewrite all_swapped, Hall, (first_of_grow _ _ _ p), !first_of_swapped, !Hf by (lia || done).
  - pose proof (Hb eq_refl) as ->. erewrite bind_run by exact Hsw. erewrite bind_run by (apply (active_add_run a2 m e e false Ha2 1 (S e)); lia).
    exists (dnat a2 m (S e) (S e) false). split; [apply eligible_add_run; [done|lia..]|].
    split; [apply dok_wf; unfold dok; split; [done|]; split; [lia|]; split; [lia|done]|]. cbn [d_pipes dnat]. split; [|lia].
    rewrite dview_nat, E2. unfold sets_attach; cbn. by rewrite all_swapped, Hall, (first_of_grow _ _ _ p), !first_of_swapped, !Hf by (lia || done).
Qed.

(** A pipe of the array, its index and the sets it is in. *)
Lemma dnat_index a m n e b p : dok a m n e b → p ∈ items a →
  ∃ i, items a !! i = Some p ∧ (i < length (items a))%nat ∧ d_index p (dnat a m n e b) = Ok (Z.of_nat i, dnat a m n e b) ∧
    ∀ k, p ∈ first_of k (items a) ↔ (i < k)%nat.
Proof.
  intros (Ha & _) Hp. destruct (awf_index a p Ha Hp) as (i & _ & Hi & Hlt). exists i. split_and!; [done|done|by apply d_index_run|].
  intros k. rewrite elem_of_first. split; [|by exists i]. intros (j & Hj & Hx). by rewrite (awf_inj _ _ _ _ Ha Hi Hx).
Qed.

Lemma dist_match_run d p : dwf d → d_more d = false → p ∈ ds_all (dview d) →
  ∃ d', dist_match p d = Ok ((), d') ∧ dwf d' ∧ dview d' = sets_match p (dview d) ∧ array_size (d_pipes d') = array_size (d_pipes d).
Proof.
  intros (a & m & n & e & b & -> & Hd)%dwf_nat. rewrite dview_nat. cbn [ds_all d_more dnat]. rewrite elem_of_list_to_set. intros -> Hp.
  destruct (dnat_index _ _ _ _ _ _ Hd Hp) as (i & Hi & Hlt & Hidx & Hin). pose proof Hd as (Ha & Hm & He & Hb).
  unfold dist_match. erewrite bind_run by done. erewrite bind_run by exact Hidx. cbn [d_matching d_eligible dnat]. unfold sets_match; cbn [ds_eligible ds_matching ds_active ds_all ds_more].
  destruct (Z.ltb_spec (Z.of_nat i) (Z.of_nat m)).
  { exists (dnat a m n e false). split; [done|]. split; [by apply dok_wf|]. split; [|done]. rewrite dview_nat, decide_True by (apply Hin; lia). f_equal.
    assert (p ∈ first_of m (items a)) by (apply Hin; lia). set_solver. }
  destruct (Z.geb_spec (Z.of_nat i) (Z.of_nat e)).
  { exists (dnat a m n e false). split; [done|]. split; [by apply dok_wf|]. split; [|done]. rewrite dview_nat, decide_False; [done|]. rewrite Hin. lia. }
  destruct (d_swap_run a m n e false Ha i m) as (a1 & Hsw & Ha1 & E1); [lia..|]. erewrite bind_run by exact Hsw.
  pose proof (length_swapped i m (items a)) as Hl. rewrite <- E1 in Hl.
  exists (dnat a1 (S m) n e false). split; [apply matching_add_run; [done|lia..]|]. rewrite (Hb eq_refl) in *.
  split; [apply dok_wf; unfold dok; split; [done|]; split; [lia|]; split; [lia|done]|]. cbn [d_pipes dnat]. unfold array_size. split; [|by rewrite Hl].
  rewrite dview_nat, decide_True, E1 by (apply Hin; lia). by rewrite all_swapped, (first_of_grow _ _ _ p), !first_of_swapped by (lia || done).
Qed.

(** A pipe leaves the matching ones, then the active ones, then the eligible ones. *)
Definition dpre (a : array) (m n e : nat) : Prop := awf a ∧ (m ≤ n ≤ e)%nat ∧ (e ≤ length (items a))%nat.

Lemma move_out a i k p : awf a → items a !! i = Some p → (i < S k)%nat → (k < length (items a))%nat →
  ∃ a', awf a' ∧ items a' = swapped i k (items a) ∧ swap (Z.of_nat i) (Z.of_nat k) a = Ok ((), a') ∧ items a' !! k = Some p ∧
    length (items a') = length (items a) ∧ first_of k (items a') = first_of (S k) (items a) ∖ {[p]} ∧
    list_to_set (items a') = (list_to_set (items a) : gset N) ∧ ∀ j, ((j ≤ i)%nat ∨ (k < j)%nat) → first_of j (items a') = first_of j (items a).
Proof.
  intros Ha Hi Hik Hk. destruct (swap_run a i k Ha) as (a' & Hsw & Ha' & E); [lia..|]. exists a'. rewrite E, length_swapped.
  destruct (lookup_lt_is_Some_2 (items a) k Hk) as [q Hq]. split_and!; try done.
  - by eapply swapped_r.
  - apply first_of_shrink; [by apply awf_NoDup|lia|lia|done].
  - apply all_swapped; lia.
  - intros j Hj. apply first_of_swapped; lia.
Qed.

Lemma zpred (k : nat) : Z.of_nat (S k) - 1 = Z.of_nat k.
Proof. lia. Qed.

Lemma not_first a i k p : awf a → items a !! i = Some p → (k ≤ i)%nat → first_of k (items a) ∖ {[p]} = first_of k (items a).
Proof.
  intros Ha Hi Hk. apply difference_disjoint_L. intros x Hx ->%elem_of_singleton. apply elem_of_first in Hx as (j & Hj & Hx).
  pose proof (awf_inj _ _ _ _ Ha Hi Hx). lia.
Qed.

Lemma leave_matching a m n e b i p : dpre a m n e → items a !! i = Some p →
  ∃ a' m' i', out_of_matching p (dnat a m n e b)
      = Ok ((), dnat a' m' n e b) ∧ dpre a' m' n e ∧ items a' !! i' = Some p ∧ (m' ≤ i')%nat ∧
    dview (dnat a' m' n e b) = DSets (first_of m (items a) ∖ {[p]}) (first_of n (items a)) (first_of e (items a)) (list_to_set (items a)) b ∧ length (items a') = length (items a).
Proof.
  intros (Ha & Hm & He) Hi. unfold out_of_matching. erewrite bind_run by (by apply d_index_run). erewrite bind_run by done. cbn [d_matching dnat].
  destruct (Z.ltb_spec (Z.of_nat i) (Z.of_nat m)) as [Hlt|Hge]; cbn [when].
  - destruct m as [|m]; [lia|]. rewrite zpred. destruct (move_out a i m p Ha Hi) as (a' & Ha' & E & Hsw & Hk & Hl & Hf & Hall & Hoth); [lia..|].
    exists a', m, m. erewrite bind_run by (by apply d_array_run). rewrite dview_nat, Hf, Hall, !Hoth by lia.
    split; [apply matching_add_run; [done|lia..]|]. split_and!; [split; [done|lia]|done|lia|done|done].
  - exists a, m, i. rewrite dview_nat, not_first with (i := i) by (done || lia). split_and!; [done|split; [done|lia]|done|lia|done|done].
Qed.

Lemma leave_active a m n e b i p : dpre a m n e → items a !! i = Some p → (m ≤ i)%nat →
  ∃ a' n' i', out_of_active p (dnat a m n e b)
      = Ok ((), dnat a' m n' e b) ∧ dpre a' m n' e ∧ items a' !! i' = Some p ∧ (n' ≤ i')%nat ∧ n' = (if decide (i < n)%nat then Nat.pred n else n) ∧ i' = (if decide (i < n)%nat then Nat.pred n else i) ∧
    dview (dnat a' m n' e b) = DSets (first_of m (items a)) (first_of n (items a) ∖ {[p]}) (first_of e (items a)) (list_to_set (items a)) b ∧ length (items a') = length (items a).
Proof.
  intros (Ha & Hm & He) Hi Hmi. unfold out_of_active. erewrite bind_run by (by apply d_index_run). erewrite bind_run by done. cbn [d_active dnat].
  destruct (Z.ltb_spec (Z.of_nat i) (Z.of_nat n)) as [Hlt|Hge]; cbn [when].
  - destruct n as [|n]; [lia|]. rewrite zpred. destruct (move_out a i n p Ha Hi) as (a' & Ha' & E & Hsw & Hk & Hl & Hf & Hall & Hoth); [lia..|].
    exists a', n, n. erewrite bind_run by (by apply d_array_run). rewrite dview_nat, Hf, Hall, !Hoth, !decide_True by lia.
    split; [apply active_add_run; [done|lia..]|]. split_and!; [split; [done|lia]|done|lia|done|done|done|done].
  - exists a, n, i. rewrite dview_nat, not_first with (i := i), !decide_False by (done || lia). split_and!; [done|split; [done|lia]|done|lia|done|done|done|done].
Qed.

Lemma leave_eligible a m n e b i p : dpre a m n e → items a !! i = Some p → (n ≤ i)%nat →
  ∃ a' e' i', out_of_eligible p (dnat a m n e b)
      = Ok ((), dnat a' m n e' b) ∧ dpre a' m n e' ∧ items a' !! i' = Some p ∧ (e' ≤ i')%nat ∧ e' = (if decide (i < e)%nat then Nat.pred e else e) ∧
    dview (dnat a' m n e' b) = DSets (first_of m (items a)) (first_of n (items a)) (first_of e (items a) ∖ {[p]}) (list_to_set (items a)) b ∧ length (items a') = length (items a).
Proof.
  intros (Ha & Hm & He) Hi Hmi. unfold out_of_eligible. erewrite bind_run by (by apply d_index_run). erewrite bind_run by done. cbn [d_eligible dnat].
  destruct (Z.ltb_spec (Z.of_nat i) (Z.of_nat e)) as [Hlt|Hge]; cbn [when].
  - destruct e as [|e]; [lia|]. rewrite zpred. destruct (move_out a i e p Ha Hi) as (a' & Ha' & E & Hsw & Hk & Hl & Hf & Hall & Hoth); [lia..|].
    exists a', e, e. erewrite bind_run by (by apply d_array_run). rewrite dview_nat, Hf, Hall, !Hoth, decide_True by lia.
    split; [apply eligible_add_run; [done|lia..]|]. split_and!; [split; [done|lia]|done|lia|done|done|done].
  - exists a, e, i. rewrite dview_nat, not_first with (i := i), decide_False by (done || lia). split_and!; [done|split; [done|lia]|done|lia|done|done|done].
Qed.

Lemma dist_terminated_run d p : dwf d → p ∈ ds_all (dview d) →
  ∃ d', dist_pipe_terminated p d = Ok ((), d') ∧ dwf d' ∧ dview d' = sets_remove p (dview d) ∧ array_size (d_pipes d') = array_size (d_pipes d) - 1.
Proof.
  intros (a & m & n & e & b & -> & Hd)%dwf_nat. rewrite dview_nat. cbn [ds_all]. rewrite elem_of_list_to_set. intros Hp.
  destruct (dnat_index _ _ _ _ _ _ Hd Hp) as (i & Hi & Hlt & _ & _). pose proof Hd as (Ha & Hm & He & Hb). unfold dist_pipe_terminated.
  destruct (leave_matching a m n e b i p) as (a1 & m1 & i1 & R1 & P1 & I1 & L1 & V1 & Z1); [done..|]. erewrite bind_run by exact R1.
  destruct (leave_active a1 m1 n e b i1 p) as (a2 & n2 & i2 & R2 & P2 & I2 & L2 & Hn2 & Hi2 & V2 & Z2); [done..|]. erewrite bind_run by exact R2.
  destruct (leave_eligible a2 m1 n2 e b i2 p) as (a3 & e3 & i3 & R3 & P3 & I3 & L3 & He3 & V3 & Z3); [done..|]. erewrite bind_run by exact R3.
  rewrite dview_nat in V1, V2, V3. injection V1 as V1m V1n V1e V1a. injection V2 as V2m V2n V2e V2a. injection V3 as V3m V3n V3e V3a.
  destruct P3 as (Ha3 & Hm3 & Hl3). destruct (erase_run a3 i3 p Ha3 I3) as (a4 & R4 & Ha4 & Hl4 & Hlook & _ & Hin4).
  exists (dnat a4 m1 n2 e3 b). split; [by apply d_array_run|].
  assert (∀ k, (k ≤ e3)%nat → first_of k (items a4) = first_of k (items a3)) as Hf.
  { intros k Hk. apply set_eq. intros x. rewrite !elem_of_first. pose proof (lookup_lt_Some _ _ _ I3).
    split; intros (j & Hj & Hx); exists j; (split; [done|]); [rewrite <- Hlook; [done|lia|lia]|rewrite Hlook; [done|lia|lia]]. }
  split.
  { apply dok_wf. unfold dok. pose proof (lookup_lt_Some _ _ _ I3). split; [done|]. split; [lia|]. split; [lia|]. intros E. rewrite (Hb E) in *. clear -Hn2 He3 L2 Hi2.
    destruct (decide (i1 < e)%nat), (decide (i2 < e)%nat); lia. }
  split; [|cbn [d_pipes dnat]; unfold array_size; lia]. rewrite dview_nat. unfold sets_remove; cbn.
  rewrite !Hf, V3m, V3n, V3e, V2m, V2n, V2e, V1m, V1n, V1e by lia. f_equal.
  apply set_eq. intros x. rewrite elem_of_list_to_set, Hin4, elem_of_difference, elem_of_singleton, <- V1a, <- V2a, <- V3a, elem_of_list_to_set. done.
Qed.

Lemma dist_activated_run d p : dwf d → p ∈ ds_all (dview d) → p ∉ ds_eligible (dview d) →
  ∃ d', dist_activated p d = Ok ((), d') ∧ dwf d' ∧ dview d' = sets_activated p (dview d) ∧ array_size (d_pipes d') = array_size (d_pipes d).
Proof.
  intros (a & m & n & e & b & -> & Hd)%dwf_nat. rewrite dview_nat. cbn [ds_all ds_eligible]. rewrite elem_of_list_to_set. intros Hp Hne.
  destruct (dnat_index _ _ _ _ _ _ Hd Hp) as (i & Hi & Hlt & Hidx & Hin). pose proof Hd as (Ha & Hm & He & Hb). rewrite Hin in Hne.
  unfold dist_activated. erewrite bind_run by exact Hidx. erewrite bind_run by done. cbn [d_eligible dnat].
  destruct (d_swap_run a m n e b Ha i e) as (a1 & Hsw & Ha1 & E1); [lia..|]. erewrite bind_run by exact Hsw.
  pose proof (length_swapped i e (items a)) as Hl. rewrite <- E1 in Hl.
  erewrite bind_run by (apply (eligible_add_run a1 m n e b Ha1 1 (S e)); lia). erewrite bind_run by done. cbn [d_more d_eligible d_active dnat]. rewrite zpred.
  assert (first_of (S e) (items a1) = {[p]} ∪ first_of e (items a)) as F1 by (rewrite E1; by apply first_of_grow; [lia|]).
  assert (∀ k, (k ≤ e)%nat → first_of k (items a1) = first_of k (items a)) as F2 by (intros k Hk; rewrite E1; apply first_of_swapped; lia).
  assert (list_to_set (items a1) = (list_to_set (items a) : gset N)) as F3 by (rewrite E1; apply all_swapped; lia).
  destruct b.
  - exists (dnat a1 m n (S e) true). split; [done|]. split; [apply dok_wf; split; [done|]; split; [lia|]; split; [lia|done]|].
    split; [|cbn [d_pipes dnat]; unfold array_size; lia]. rewrite dview_nat. unfold sets_activated; cbn. by rewrite F1, F3, !F2 by lia.
  - pose proof (Hb eq_refl) as ->. destruct (d_swap_run a1 m e (S e) false Ha1 e e) as (a2 & Hsw2 & Ha2 & E2); [lia..|]. erewrite bind_run by exact Hsw2.
    pose proof (length_swapped e e (items a1)) as Hl2. rewrite <- E2 in Hl2. exists (dnat a2 m (S e) (S e) false).
    split; [apply active_add_run; [done|lia..]|]. split; [apply dok_wf; split; [done|]; split; [lia|]; split; [lia|done]|].
    split; [|cbn [d_pipes dnat]; unfold array_size; lia]. rewrite dview_nat, E2. unfold sets_activated; cbn.
    by rewrite all_swapped, !first_of_swapped, F1, F3, !F2 by lia.
Qed.

Lemma take_swapped_ge k i j l : (k ≤ i)%nat → (k ≤ j)%nat → take k (swapped i j l) = take k l.
Proof. intros Hi Hj. unfold swapped. repeat case_match; [|done..]. by rewrite !take_insert_ge. Qed.

(** A matching pipe is found to be full. *)
Lemma make_passive_run a m n e b i p : dpre a (S m) n e → items a !! i = Some p → (i < S m)%nat →
  ∃ a', make_passive p (dnat a (S m) n e b) = Ok ((), dnat a' m (Nat.pred n) (Nat.pred e) b) ∧ dpre a' m (Nat.pred n) (Nat.pred e) ∧ length (items a') = length (items a) ∧
    dview (dnat a' m (Nat.pred n) (Nat.pred e) b) = sets_refused {[p]} (dview (dnat a (S m) n e b)) ∧
    take m (items a') = take m (swapped i m (items a)).
Proof.
  intros (Ha & Hm & He) Hi Hlt. destruct n as [|n]; [lia|]. destruct e as [|e]; [lia|]. cbn [Nat.pred]. unfold make_passive.
  erewrite bind_run by (by apply d_index_run). erewrite bind_run by done. cbn [d_matching dnat]. rewrite zpred.
  destruct (move_out a i m p Ha Hi) as (a1 & Ha1 & E1 & R1 & I1 & L1 & F1 & A1 & O1); [lia..|]. erewrite bind_run by (by apply d_array_run).
  erewrite bind_run by (apply (matching_add_run a1 (S m) (S n) (S e) b Ha1 (-1) m); lia).
  erewrite bind_run by (by apply d_index_run). erewrite bind_run by done. cbn [d_active dnat]. rewrite zpred.
  destruct (move_out a1 m n p Ha1 I1) as (a2 & Ha2 & E2 & R2 & I2 & L2 & F2 & A2 & O2); [lia..|]. erewrite bind_run by (by apply d_array_run).
  erewrite bind_run by (apply (active_add_run a2 m (S n) (S e) b Ha2 (-1) n); lia). erewrite bind_run by done. cbn [d_active d_eligible dnat]. rewrite zpred.
  destruct (move_out a2 n e p Ha2 I2) as (a3 & Ha3 & E3 & R3 & I3 & L3 & F3 & A3 & O3); [lia..|]. erewrite bind_run by (by apply d_array_run).
  exists a3. split; [apply eligible_add_run; [done|lia..]|]. split; [split; [done|lia]|]. split; [lia|]. split.
  - rewrite !dview_nat. unfold sets_refused; cbn. by rewrite A3, A2, A1, F3, O2, O1, (O3 n), F2, O1, (O3 m), (O2 m), F1 by lia.
  - by rewrite E3, take_swapped_ge, E2, take_swapped_ge, E1 by lia.
Qed.

Section sending.
Context {W : Type} `{!PipeOps W}.

(** One pipe gets the message, and a flush if it is the last part. *)
Definition write_out (m : pmsg) (p : N) : M W bool :=
  b ← p_write p m; when (b && negb (pm_more m)) (p_flush p);; mret b.

(** The pipes among [l] that answered [false]. *)
Definition refusing (l : list N) (bs : list bool) : gset N := list_to_set (zip l bs ≫= λ x, if x.2 : bool then [] else [x.1]).

Lemma dist_write_run p m d w :
  dist_write p m (d, w) =
    match write_out m p w with
    | Ok (true, w') => Ok (true, (d, w'))
    | Ok (false, w') => match make_passive p d with Ok (_, d') => Ok (false, (d', w')) | Err e => Err e end
    | Err e => Err e
    end.
Proof.
  unfold dist_write, write_out, on_pipes, on_dist, zoom, mbind, M_bind, mret, M_ret, when; cbn. destruct (p_write p m w) as [[[] w1]|]; cbn; [|by destruct (make_passive p d) as [[[] ?]|]|done].
  destruct (pm_more m); cbn; [done|]. by destruct (p_flush p w1) as [[[] w2]|].
Qed.

Lemma swapped_rest i m (l : list N) p : l !! i = Some p → (i < S m)%nat → (m < length l)%nat →
  p :: drop i (take m (swapped i m l)) ≡ₚ drop i (take (S m) l).
Proof.
  intros Hi Him Hm. destruct (lookup_lt_is_Some_2 l m Hm) as [q Hq]. rewrite (take_S_r l m q Hq). destruct (decide (i = m)) as [->|Hne].
  - assert (q = p) as -> by congruence. rewrite drop_ge by (rewrite length_take; lia). rewrite drop_app_le by (rewrite length_take; lia). by rewrite drop_ge by (rewrite length_take; lia).
  - rewrite drop_app_le by (rewrite length_take; lia). rewrite (drop_S (take m l) p i) by (rewrite lookup_take_lt by lia; done).
    assert (drop i (take m (swapped i m l)) = q :: drop (S i) (take m l)) as ->; [|rewrite <- app_comm_cons; constructor; by rewrite Permutation_app_comm].
    apply list_eq. intros k. rewrite lookup_drop, lookup_take. destruct k as [|k].
    + rewrite Nat.add_0_r, decide_True by lia. by eapply swapped_l.
    + etrans; [|symmetry; apply (lookup_drop (take m l) (S i) k)]. rewrite lookup_take. replace (S i + k)%nat with (i + S k)%nat by lia. case_decide; [|done].
      by rewrite (lookup_swapped _ _ _ _ _ _ Hi Hq), !decide_False by lia.
Qed.

(** The loop writes to every matching pipe from the [i]th on once, in some order. *)
Lemma distribute_loop_run fuel m : ∀ a k n e b i failed w, dpre a k n e → (i ≤ k)%nat → (k - i < fuel)%nat →
  (∃ l bs w' a' k' n' e', l ≡ₚ drop i (take k (items a)) ∧ map_m (write_out m) l w = Ok (bs, w') ∧
     distribute_loop fuel m (Z.of_nat i) failed (dnat a k n e b, w) =
       Ok (failed + Z.of_nat (length (filter (λ x : bool, x = false) bs)), (dnat a' k' n' e' b, w')) ∧
     dpre a' k' n' e' ∧ (n - n' = e - e' ∧ n' ≤ n ∧ e' ≤ e)%nat ∧ length (items a') = length (items a) ∧
     dview (dnat a' k' n' e' b) = sets_refused (refusing l bs) (dview (dnat a k n e b))) ∨
  (∃ l err, l ⊆ drop i (take k (items a)) ∧ map_m (write_out m) l w = Err err ∧ distribute_loop fuel m (Z.of_nat i) failed (dnat a k n e b, w) = Err err).
Proof.
  induction fuel as [|fuel IH]; intros a k n e b i failed w Hd Hik Hf; [lia|]. pose proof Hd as (Ha & Hm & He).
  cbn [distribute_loop]. erewrite bind_run by done. cbn [fst d_matching dnat].
  destruct (Z.ltb_spec (Z.of_nat i) (Z.of_nat k)) as [Hlt|Hge].
  2:{ left. exists [], [], w, a, k, n, e. rewrite drop_ge by (rewrite length_take; lia). split_and!; try done; try lia.
      - cbn. by rewrite Z.add_0_r.
      - rewrite dview_nat. unfold sets_refused, refusing; cbn [ds_matching ds_active ds_eligible ds_all ds_more zip_with mbind list_bind list_to_set]. by rewrite !difference_empty_L. }
  destruct (lookup_lt_is_Some_2 (items a) i) as [p Hp]; [lia|].
  assert (on_dist (d_array (item_at (Z.of_nat i))) (dnat a k n e b, w) = Ok (p, (dnat a k n e b, w))) as Hat.
  { unfold on_dist, zoom; cbn. erewrite d_array_run by (by apply item_at_run). done. }
  erewrite bind_run by exact Hat. pose proof (dist_write_run p m (dnat a k n e b) w) as Hw. destruct k as [|k]; [lia|].
  assert (drop i (take (S k) (items a)) = p :: drop (S i) (take (S k) (items a))) as Hrest by (apply drop_S; rewrite lookup_take_lt by lia; done).
  destruct (write_out m p w) as [[[] w1]|err] eqn:Hwo.
  - erewrite bind_run by exact Hw. replace (Z.of_nat i + 1) with (Z.of_nat (S i)) by lia.
    destruct (IH a (S k) n e b (S i) failed w1 Hd ltac:(lia) ltac:(lia)) as [(l & bs & w' & a' & k' & n' & e' & Hl & Hbs & Hrun & Hd' & Hn & Hlen & Hv)|(l & err & Hl & Herr & Hrun)].
    + left. exists (p :: l), (true :: bs), w', a', k', n', e'. split; [rewrite Hrest; by constructor|]. cbn [map_m]. erewrite bind_run by exact Hwo. erewrite bind_run by exact Hbs.
      split_and!; try done; try lia.
    + right. exists (p :: l), err. split; [rewrite Hrest; set_solver|]. cbn [map_m]. erewrite bind_run by exact Hwo. by erewrite bind_err.
  - destruct (make_passive_run a k n e b i p Hd Hp) as (a1 & Hmp & Hd1 & Hlen1 & Hv1 & Htk); [lia|]. rewrite Hmp in Hw.
    erewrite bind_run by exact Hw. destruct (IH a1 k (Nat.pred n) (Nat.pred e) b i (failed + 1) w1 Hd1 ltac:(lia) ltac:(lia))
      as [(l & bs & w' & a' & k' & n' & e' & Hl & Hbs & Hrun & Hd' & Hn & Hlen & Hv)|(l & err & Hl & Herr & Hrun)]; rewrite Htk in Hl.
    + left. exists (p :: l), (false :: bs), w', a', k', n', e'. split; [rewrite Hl; apply swapped_rest; [done|lia..]|]. cbn [map_m].
      erewrite bind_run by exact Hwo. erewrite bind_run by exact Hbs. split; [done|]. split; [rewrite Hrun, filter_cons_True by done; cbn [length]; do 2 f_equal; lia|]. split_and!; try done; try lia.
      rewrite Hv, Hv1. unfold sets_refused; cbn. unfold refusing; cbn. f_equal; set_solver.
    + right. exists (p :: l), err. split; [|cbn [map_m]; erewrite bind_run by exact Hwo; by erewrite bind_err].
      rewrite <- (swapped_rest i k (items a) p Hp) by lia. set_solver.
  - right. exists [p], err. split; [rewrite Hrest; set_solver|]. cbn [map_m]. split; [by erewrite bind_err|by erewrite bind_err].
Qed.

(** The sets after a part of a message was sent. *)
Definition sets_after (m : pmsg) (l : list N) (bs : list bool) (v : dsets) : dsets := sets_sent (pm_more m) (sets_refused (refusing l bs) v).

Lemma matching_elements a k n e b : awf a → take k (items a) ≡ₚ elements (ds_matching (dview (dnat a k n e b))).
Proof.
  intros Ha. rewrite dview_nat. cbn [ds_matching]. unfold first_of. symmetry. apply elements_list_to_set.
  eapply sublist_NoDup; [by apply awf_NoDup|apply sublist_take].
Qed.

Lemma bools_count (bs : list bool) : (length (filter (λ x, x = true) bs) + length (filter (λ x, x = false) bs) = length bs)%nat.
Proof. induction bs as [|[] bs IH]; [done|rewrite filter_cons_True, filter_cons_False by done|rewrite filter_cons_False, filter_cons_True by done]; cbn [length]; lia. Qed.

Lemma map_m_length {A B} (f : A → M W B) l w bs w' : map_m f l w = Ok (bs, w') → length bs = length l.
Proof. revert w bs. induction l as [|x l IH]; intros w bs H; cbn in H; inv_run; [done|]. cbn. f_equal. by eapply IH. Qed.

(** [distribute], for any number of matching pipes. *)
Lemma distribute_run vsm m a k n e b w : dpre a k n e →
  (∃ l bs w' a' k' n' e', l ≡ₚ take k (items a) ∧ map_m (write_out m) l w = Ok (bs, w') ∧
     distribute vsm m (dnat a k n e b, w) = Ok (if vsm then 0 else Z.of_nat (length (filter (λ x : bool, x = true) bs)), (dnat a' k' n' e' b, w')) ∧
     dpre a' k' n' e' ∧ (n - n' = e - e' ∧ n' ≤ n ∧ e' ≤ e)%nat ∧ length (items a') = length (items a) ∧
     dview (dnat a' k' n' e' b) = sets_refused (refusing l bs) (dview (dnat a k n e b))) ∨
  (∃ l err, l ⊆ take k (items a) ∧ map_m (write_out m) l w = Err err ∧ distribute vsm m (dnat a k n e b, w) = Err err).
Proof.
  intros Hd. pose proof Hd as (Ha & Hm & He). pose proof (awf_len a Ha) as Hlen. unfold distribute. erewrite bind_run by done. cbn [fst d_matching dnat]. cbv zeta. rewrite Nat2Z.id.
  destruct k as [|k].
  { left. exists [], [], w, a, 0%nat, n, e. cbn [Z.of_nat Z.eqb]. rewrite dview_nat. unfold sets_refused, refusing; cbn [ds_matching ds_active ds_eligible ds_all ds_more zip_with mbind list_bind list_to_set].
    rewrite !difference_empty_L. split_and!; try done; try lia. by destruct vsm. }
  rewrite (proj2 (Z.eqb_neq (Z.of_nat (S k)) 0)) by lia. rewrite zpred, i32_small by lia.
  destruct (distribute_loop_run (S (S k)) m a (S k) n e b 0 0 w Hd ltac:(lia) ltac:(lia)) as [(l & bs & w' & a' & k' & n' & e' & Hl & Hbs & Hrun & H)|(l & err & Hl & Herr & Hrun)];
    rewrite drop_0 in Hl; change (Z.of_nat 0) with 0 in Hrun.
  - left. exists l, bs, w', a', k', n', e'. split; [done|]. split; [done|]. split; [|done]. pose proof (bools_count bs) as Hc. rewrite (map_m_length _ _ _ _ _ Hbs), Hl, length_take in Hc.
    destruct vsm; erewrite bind_run by exact Hrun; [done|]. unfold mret, M_ret. do 2 f_equal. lia.
  - right. exists l, err. split; [done|]. split; [done|]. destruct vsm; by erewrite bind_err.
Qed.

(** [send_to_matching] writes the message once to every matching pipe, in some order; a
    pipe that does not take it is no longer eligible. Of the data of a message that is
    not stored in the message itself, every pipe that took it has one reference. *)
Lemma send_to_matching_run vsm m d w : dwf d →
  (∃ l bs w' d', l ≡ₚ elements (ds_matching (dview d)) ∧ map_m (write_out m) l w = Ok (bs, w') ∧
     send_to_matching vsm m (d, w) = Ok (if vsm then 0 else Z.of_nat (length (filter (λ x : bool, x = true) bs)), (d', w')) ∧
     dwf d' ∧ dview d' = sets_after m l bs (dview d) ∧ array_size (d_pipes d') = array_size (d_pipes d)) ∨
  (∃ l err, l ⊆ elements (ds_matching (dview d)) ∧ map_m (write_out m) l w = Err err ∧ send_to_matching vsm m (d, w) = Err err).
Proof.
  intros (a & k & n & e & b & -> & Hd)%dwf_nat. pose proof Hd as (Ha & Hm & He & Hb). pose proof (matching_elements a k n e b Ha) as Hel.
  assert (send_to_matching vsm m (dnat a k n e b, w) = match distribute vsm m (dnat a k n e b, w) with
    | Ok (refs, (d1, w1)) => Ok (refs, (set_d_more (pm_more m) (if pm_more m then d1 else set_d_active (d_eligible d1) d1), w1))
    | Err err => Err err end) as ->.
  { unfold send_to_matching. destruct (distribute vsm m _) as [[refs [d1 w1]]|err] eqn:E; [|by erewrite bind_err].
    erewrite bind_run by done. unfold on_dist, zoom, when, mbind, M_bind, modify, mret, M_ret; cbn. by destruct (pm_more m). }
  destruct (distribute_run vsm m a k n e b w (conj Ha (conj Hm He))) as [(l & bs & w' & a' & k' & n' & e' & Hl & Hbs & -> & Hd' & Hn & Hlen & Hv)|(l & err & Hl & Herr & ->)].
  2:{ right. exists l, err. by rewrite <- Hel. }
  left. destruct Hd' as (Ha' & Hm' & He'). rewrite dview_nat in Hv. injection Hv as V1 V2 V3 V4.
  exists l, bs, w', (dnat a' k' (if pm_more m then n' else e') e' (pm_more m)). split; [by rewrite Hl|]. split; [done|]. split; [by destruct (pm_more m)|]. split_and!.
  - apply dok_wf. unfold dok. destruct (pm_more m); split_and!; (done || lia).
  - rewrite dview_nat. unfold sets_after, sets_sent, sets_refused; cbn. rewrite V1, V3, V4. by destruct (pm_more m); rewrite ?V2, ?V3.
  - cbn [d_pipes dnat]. unfold array_size. lia.
Qed.

(** [check_hwm] asks the matching pipes in some order, up to the first that is full. *)
Fixpoint none_full (l : list N) : M W bool :=
  match l with
  | [] => mret true
  | p :: l => b ← p_check_hwm p; if b : bool then none_full l else mret false
  end.

Lemma check_hwm_run d w : dwf d →
  ∃ l, l ≡ₚ elements (ds_matching (dview d)) ∧ dist_check_hwm (d, w) = match none_full l w with Ok (b, w') => Ok (b, (d, w')) | Err err => Err err end.
Proof.
  intros (a & k & n & e & b & -> & Hd)%dwf_nat. pose proof Hd as (Ha & Hm & He & _). exists (take k (items a)). split; [by apply matching_elements|].
  unfold dist_check_hwm. erewrite bind_run by done. cbn [fst d_matching dnat]. rewrite Nat2Z.id.
  assert (∀ j i w, (i + j = k)%nat → check_hwm_loop (Z.of_nat i) j (dnat a k n e b, w) =
    match none_full (drop i (take k (items a))) w with Ok (b', w') => Ok (b', (dnat a k n e b, w')) | Err err => Err err end) as Hloop; [|by apply (Hloop k 0%nat)].
  clear w. induction j as [|j IH]; intros i w Hij; [by rewrite drop_ge by (rewrite length_take; lia)|]. cbn [check_hwm_loop].
  destruct (lookup_lt_is_Some_2 (items a) i) as [p Hp]; [lia|]. rewrite (drop_S _ p) by (rewrite lookup_take_lt by lia; done). cbn [none_full].
  erewrite bind_run by (unfold on_dist, zoom; cbn; erewrite d_array_run by (by apply item_at_run); done).
  unfold on_pipes, zoom, mbind, M_bind; cbn. destruct (p_check_hwm p w) as [[[] w1]|]; cbn; [|done|done].
  replace (Z.of_nat i + 1) with (Z.of_nat (S i)) by lia. apply IH. lia.
Qed.
End sending.

(** The eligible pipes that did not match come to the front. *)
Lemma reverse_loop_run b e c : ∀ a j i n, awf a → (i + c = e)%nat → (e ≤ length (items a))%nat → (j ≤ i)%nat →
  ∃ a', reverse_loop (Z.of_nat i) c (dnat a j n e b) = Ok ((), dnat a' (j + c) n e b) ∧ awf a' ∧ length (items a') = length (items a) ∧
    first_of (j + c) (items a') = first_of j (items a) ∪ (first_of e (items a) ∖ first_of i (items a)) ∧
    first_of e (items a') = first_of e (items a) ∧ list_to_set (items a') = (list_to_set (items a) : gset N).
Proof.
  induction c as [|c IH]; intros a j i n Ha Hic He Hj; cbn [reverse_loop].
  { exists a. rewrite Nat.add_0_r in *. subst i. split_and!; try done. set_solver. }
  erewrite bind_run by done. cbn [d_matching dnat]. destruct (d_swap_run a j n e b Ha i j) as (a1 & Hsw & Ha1 & E1); [lia..|]. erewrite bind_run by exact Hsw.
  pose proof (length_swapped i j (items a)) as Hl. rewrite <- E1 in Hl. erewrite bind_run by (apply (matching_add_run a1 j n e b Ha1 1 (S j)); lia).
  replace (Z.of_nat i + 1) with (Z.of_nat (S i)) by lia. destruct (IH a1 (S j) (S i) n Ha1) as (a' & Hrun & Ha' & Hl' & F1 & F2 & F3); [lia..|].
  destruct (lookup_lt_is_Some_2 (items a) i) as [p Hp]; [lia|]. exists a'. replace (j + S c)%nat with (S j + c)%nat by lia. split; [done|]. split; [done|]. split; [lia|].
  assert (p ∉ first_of i (items a)) as Hni. { rewrite elem_of_first. intros (x & Hx & Hpx). pose proof (awf_inj _ _ _ _ Ha Hp Hpx). lia. }
  assert (p ∈ first_of e (items a)) as Hpe by (apply elem_of_first; exists i; split; [lia|done]).
  split_and!; [|rewrite F2, E1; apply first_of_swapped; lia|rewrite F3, E1; apply all_swapped; lia].
  rewrite F1, E1, (first_of_grow _ _ _ p), !first_of_swapped by (done || lia). rewrite (first_of_S _ _ _ Hp).
  apply set_eq. intros x. destruct (decide (x = p)) as [->|]; set_solver.
Qed.

Lemma reverse_match_run d : dwf d → d_more d = false →
  ∃ d', reverse_match d = Ok ((), d') ∧ dwf d' ∧ dview d' = sets_reverse (dview d) ∧ array_size (d_pipes d') = array_size (d_pipes d).
Proof.
  intros (a & k & n & e & b & -> & Hd)%dwf_nat. cbn [d_more dnat]. intros ->. pose proof Hd as (Ha & Hm & He & Hb). pose proof (Hb eq_refl) as ->.
  unfold reverse_match. erewrite bind_run by done. cbv zeta. erewrite bind_run by done. cbn [d_matching d_eligible dnat].
  replace (Z.to_nat (Z.of_nat e - Z.of_nat k)) with (e - k)%nat by lia.
  destruct (reverse_loop_run false e (e - k) a 0 k e Ha) as (a' & Hrun & Ha' & Hl' & F1 & F2 & F3); [lia..|].
  exists (dnat a' (e - k) e e false). split; [exact Hrun|]. split; [apply dok_wf; unfold dok; split_and!; (done || lia)|].
  split; [|cbn [d_pipes dnat]; unfold array_size; lia]. rewrite !dview_nat. unfold sets_reverse; cbn. rewrite F2, F3. f_equal. rewrite Nat.add_0_l in F1. rewrite F1. set_solver.
Qed.

(** ** Programs *)

Inductive dop :=
  | op_attach (p : N) | op_match (p : N) | op_reverse_match | op_unmatch | op_terminated (p : N) | op_activated (p : N)
  | op_send (vsm : bool) (m : pmsg) | op_send_all (vsm : bool) (m : pmsg) | op_check_hwm.

(** What the callers see to: a pipe is attached once, and only attached pipes are named; pipes
    are matched between messages; only a pipe that was found to be full is activated. *)
Definition dlegal (v : dsets) (o : dop) : Prop :=
  match o with
  | op_attach p => p ∉ ds_all v ∧ Z.of_nat (size (ds_all v)) + 1 < 2 ^ 31
  | op_match p => p ∈ ds_all v ∧ ds_more v = false
  | op_reverse_match => ds_more v = false
  | op_terminated p => p ∈ ds_all v
  | op_activated p => p ∈ ds_all v ∧ p ∉ ds_eligible v
  | op_unmatch | op_send _ _ | op_send_all _ _ | op_check_hwm => True
  end.
#[export] Instance dlegal_dec v o : Decision (dlegal v o).
Proof. destruct o; cbn; apply _. Defined.

Definition sets_all_match (v : dsets) : dsets := DSets (ds_active v) (ds_active v) (ds_eligible v) (ds_all v) (ds_more v).

Definition nested (v : dsets) : Prop :=
  ds_matching v ⊆ ds_active v ∧ ds_active v ⊆ ds_eligible v ∧ ds_eligible v ⊆ ds_all v ∧ (ds_more v = false → ds_active v = ds_eligible v).

Lemma dwf_nested d : dwf d → nested (dview d).
Proof.
  intros (a & m & n & e & b & -> & Ha & Hm & He & Hb)%dwf_nat. rewrite dview_nat. unfold nested; cbn. rewrite all_first.
  split_and!; [apply first_of_le; lia..|]. intros E. by rewrite (Hb E).
Qed.

Lemma dview_size d : dwf d → Z.of_nat (size (ds_all (dview d))) = array_size (d_pipes d).
Proof. intros (Ha & _). cbn. rewrite size_list_to_set by (by apply awf_NoDup). done. Qed.

Section programs.
Context {W : Type} `{!PipeOps W}.

(** The result of an operation: the references that [send_to_matching] leaves, the answer of
    [check_hwm], and 0 for the others. *)
Definition run_dist (o : dop) : M (dist_t * W) Z :=
  match o with
  | op_attach p => on_dist (dist_attach p);; mret 0
  | op_match p => on_dist (dist_match p);; mret 0
  | op_reverse_match => on_dist reverse_match;; mret 0
  | op_unmatch => on_dist unmatch;; mret 0
  | op_terminated p => on_dist (dist_pipe_terminated p);; mret 0
  | op_activated p => on_dist (dist_activated p);; mret 0
  | op_send vsm m => send_to_matching vsm m
  | op_send_all vsm m => send_to_all vsm m
  | op_check_hwm => b ← dist_check_hwm; mret (if b : bool then 1 else 0)
  end.

(** A part of a message goes to the matching pipes, to each of them once. *)
Definition sent_to (vsm : bool) (m : pmsg) (v : dsets) (w : W) (r : Z) (v' : dsets) (w' : W) : Prop :=
  ∃ l bs, l ≡ₚ elements (ds_matching v) ∧ map_m (write_out m) l w = Ok (bs, w') ∧
    r = (if vsm then 0 else Z.of_nat (length (filter (λ x : bool, x = true) bs))) ∧ v' = sets_after m l bs v.

(** What an operation does to the sets and to the pipes. *)
Definition dspec (v : dsets) (w : W) (o : dop) (r : Z) (v' : dsets) (w' : W) : Prop :=
  match o with
  | op_attach p => r = 0 ∧ v' = sets_attach p v ∧ w' = w
  | op_match p => r = 0 ∧ v' = sets_match p v ∧ w' = w
  | op_reverse_match => r = 0 ∧ v' = sets_reverse v ∧ w' = w
  | op_unmatch => r = 0 ∧ v' = sets_unmatch v ∧ w' = w
  | op_terminated p => r = 0 ∧ v' = sets_remove p v ∧ w' = w
  | op_activated p => r = 0 ∧ v' = sets_activated p v ∧ w' = w
  | op_send vsm m => sent_to vsm m v w r v' w'
  | op_send_all vsm m => sent_to vsm m (sets_all_match v) w r v' w'
  | op_check_hwm => ∃ l (b : bool), l ≡ₚ elements (ds_matching v) ∧ none_full l w = Ok (b, w') ∧ r = (if b then 1 else 0) ∧ v' = v
  end.

(** A pipe that a message is written to, or that is asked, failed. *)
Definition dfails (v : dsets) (w : W) (o : dop) (err : error) : Prop :=
  match o with
  | op_send _ m => ∃ l, l ⊆ elements (ds_matching v) ∧ map_m (write_out m) l w = Err err
  | op_send_all _ m => ∃ l, l ⊆ elements (ds_active v) ∧ map_m (write_out m) l w = Err err
  | op_check_hwm => ∃ l, l ≡ₚ elements (ds_matching v) ∧ none_full l w = Err err
  | _ => False
  end.

Fixpoint dsaid (v : dsets) (w : W) (ops : list dop) (rs : list Z) (v' : dsets) (w' : W) : Prop :=
  match ops, rs with
  | [], [] => v' = v ∧ w' = w
  | o :: ops, r :: rs => ∃ v1 w1, dlegal v o ∧ dspec v w o r v1 w1 ∧ dsaid v1 w1 ops rs v' w'
  | _, _ => False
  end.

(** An operation on the distributor alone. *)
Lemma on_dist_run (m : M dist_t ()) d d' (w : W) : m d = Ok ((), d') → (on_dist m;; mret 0) (d, w) = Ok (0, (d', w)).
Proof. intros H. unfold on_dist, zoom, mbind, M_bind; cbn. by rewrite H. Qed.

Lemma all_match_wf d : dwf d → dwf (set_d_matching (d_active d) d) ∧ dview (set_d_matching (d_active d) d) = sets_all_match (dview d).
Proof. intros (Ha & Hm & Hn & Hb). split; [|done]. unfold dwf; cbn. split; [done|]. split; [lia|]. done. Qed.

Lemma run_dist_spec d w o : dwf d → dlegal (dview d) o →
  (∃ r d' w', run_dist o (d, w) = Ok (r, (d', w')) ∧ dwf d' ∧ dspec (dview d) w o r (dview d') w') ∨
  (∃ err, run_dist o (d, w) = Err err ∧ dfails (dview d) w o err).
Proof.
  intros Hd Hlg. pose proof (dview_size d Hd) as Hsz. destruct o as [p|p| | |p|p|vsm m|vsm m|]; cbn [run_dist dlegal] in *.
  - left. destruct Hlg as [Hp Hs]. destruct (dist_attach_run d p) as (d' & Hr & Hd' & Hv & _); [done|done|lia|]. exists 0, d', w. split; [by apply on_dist_run|done].
  - left. destruct Hlg as [Hp Hs]. destruct (dist_match_run d p) as (d' & Hr & Hd' & Hv & _); [done..|]. exists 0, d', w. split; [by apply on_dist_run|done].
  - left. destruct (reverse_match_run d) as (d' & Hr & Hd' & Hv & _); [done..|]. exists 0, d', w. split; [by apply on_dist_run|done].
  - left. exists 0, (set_d_matching 0 d), w. split; [done|]. split; [|done]. destruct Hd as (Ha & Hm & Hn & Hb). unfold dwf; cbn. split; [done|]. split; [lia|]. done.
  - left. destruct (dist_terminated_run d p) as (d' & Hr & Hd' & Hv & _); [done..|]. exists 0, d', w. split; [by apply on_dist_run|done].
  - left. destruct Hlg as [Hp Hs]. destruct (dist_activated_run d p) as (d' & Hr & Hd' & Hv & _); [done..|]. exists 0, d', w. split; [by apply on_dist_run|done].
  - destruct (send_to_matching_run vsm m d w Hd) as [(l & bs & w' & d' & Hl & Hbs & Hr & Hd' & Hv & _)|(l & err & Hl & Herr & Hr)]; [left|right].
    + eexists _, d', w'. split; [exact Hr|]. split; [done|]. exists l, bs. done.
    + exists err. split; [done|]. by exists l.
  - destruct (all_match_wf d Hd) as [Hd1 Hv1]. unfold send_to_all. erewrite bind_run by done. cbn [fst snd].
    destruct (send_to_matching_run vsm m (set_d_matching (d_active d) d) w Hd1) as [(l & bs & w' & d' & Hl & Hbs & Hr & Hd' & Hv & _)|(l & err & Hl & Herr & Hr)]; rewrite Hv1 in *; [left|right].
    + eexists _, d', w'. split; [exact Hr|]. split; [done|]. exists l, bs. done.
    + exists err. split; [done|]. by exists l.
  - destruct (check_hwm_run d w Hd) as (l & Hl & Hr). destruct (none_full l w) as [[b w']|err] eqn:E; [left|right].
    + exists (if b then 1 else 0), d, w'. erewrite bind_run by exact Hr. split; [done|]. split; [done|]. by exists l, b.
    + exists err. erewrite bind_err by exact Hr. split; [done|]. by exists l.
Qed.

(** C12: No program that uses it as its callers do can tell the distributor from four nested
    sets of pipes, the matching, active, eligible and attached ones: a part of a message is
    written to every matching pipe exactly once, flushed if it is the last one, and a pipe
    that does not take it is out until it is activated again; a pipe that is attached or
    activated in the middle of a message gets none of its parts. After a message whose data
    is counted, the references are as many as the pipes that took it. No swap leaves the
    array and no count wraps around. A run fails only where a pipe does. *)
Theorem dist_refines_sets ops w :
  (∃ rs d w', map_m run_dist ops (new_dist, w) = Ok (rs, (d, w')) ∧ dsaid (dview new_dist) w ops rs (dview d) w' ∧ nested (dview d)) ∨
  (∃ ops1 o ops2 rs d1 w1, ops = ops1 ++ o :: ops2 ∧ map_m run_dist ops1 (new_dist, w) = Ok (rs, (d1, w1)) ∧ dsaid (dview new_dist) w ops1 rs (dview d1) w1 ∧
     (¬ dlegal (dview d1) o ∨ ∃ err, dfails (dview d1) w1 o err ∧ map_m run_dist ops (new_dist, w) = Err err)).
Proof.
  assert (dwf new_dist) as Hd by (split; [apply awf_new|done]). revert Hd. generalize new_dist. intros d. revert d w.
  induction ops as [|o ops IH]; intros d w Hd; [left; exists [], d, w; split; [done|]; split; [done|by apply dwf_nested]|].
  destruct (decide (dlegal (dview d) o)) as [Hlg|Hlg]; [|right; exists [], o, ops, [], d, w; split_and!; [done..|by left]].
  destruct (run_dist_spec d w o Hd Hlg) as [(r & d1 & w1 & Hr & Hd1 & Hs)|(err & Hr & Hf)].
  2:{ right. exists [], o, ops, [], d, w. split_and!; [done..|]. right. exists err. split; [done|]. cbn. by erewrite bind_err. }
  destruct (IH d1 w1 Hd1) as [(rs & d2 & w2 & Hrs & Hsaid & Hn)|(ops1 & o' & ops2 & rs & d2 & w2 & -> & Hrs & Hsaid & Hor)]; [left|right].
  - exists (r :: rs), d2, w2. cbn. erewrite bind_run by exact Hr. erewrite bind_run by exact Hrs. split; [done|]. split; [|done]. exists (dview d1), w1. done.
  - exists (o :: ops1), o', ops2, (r :: rs), d2, w2. split; [done|]. cbn [map_m app]. rewrite !(bind_run _ _ _ _ _ Hr). split; [by erewrite bind_run by exact Hrs|].
    split; [by exists (dview d1), w1|]. destruct Hor as [?|(err & Hf & He)]; [by left|right]. exists err. split; [done|]. by erewrite bind_err.
Qed.
End programs.
