(* ===== verification/ZmqDistPipes.v ===== *)
(** * Distribution over real pipes (libzmq/src, dist.cpp and pipe.cpp)

    The distributor of ZmqDist.v on the pipes of ZmqPipe.v: as long as the socket's ends
    are there, writing to a pipe, flushing it and asking for its high water mark do not
    fail, so that the failures which [dist_refines_sets] leaves to the pipes do not
    occur. *)

From stdpp Require Import base tactics list numbers gmap sets strings.
From S2P Require Import Prelude ZmqWire ZmqYpipe ZmqYpipeSpec ZmqPipe ZmqPipeSpec ZmqArray ZmqDist.

Local Open Scope Z_scope.

(** ** Writing leaves the ends where they are *)

Definition ends_stay (w w' : pair) : Prop := ∀ s, is_Some (ends w s) → is_Some (ends w' s).
#[export] Instance ends_stay_preorder : PreOrder ends_stay.
Proof. split; [by intros w s|]. intros w1 w2 w3 H1 H2 s H. by apply H2, H1. Qed.

Lemma ends_stay_get s : keeps ends_stay (get_end s).
Proof. unfold get_end. keeps_tac. Qed.
Lemma ends_stay_put s p : keeps ends_stay (put_end s p).
Proof. intros w u w' H. unfold put_end in H. inv_run. intros t Ht. cbn. destruct s, t; cbn; done || by eexists. Qed.
Lemma ends_stay_upipes f : keeps ends_stay (modify (set_upipes f)).
Proof. intros w u w' H. inv_run. by intros t. Qed.
Lemma ends_stay_send s c : keeps ends_stay (send s c).
Proof. intros w u w' H. unfold send in H. inv_run. by intros t. Qed.
#[export] Hint Resolve ends_stay_get ends_stay_put ends_stay_upipes ends_stay_send : keeps.
Lemma ends_stay_change s f : keeps ends_stay (change s f).
Proof. unfold change. keeps_tac. Qed.
Lemma ends_stay_upipe {A} u (f : upipe → A * upipe) : keeps ends_stay (on_upipe u f).
Proof. unfold on_upipe. destruct u as [n|]; keeps_tac. Qed.
#[export] Hint Resolve ends_stay_change ends_stay_upipe : keeps.

Lemma ends_stay_write s m : keeps ends_stay (pipe_write s m).
Proof. unfold pipe_write, pipe_check_write. keeps_tac. Qed.
Lemma ends_stay_flush s : keeps ends_stay (pipe_flush s).
Proof. unfold pipe_flush. keeps_tac. Qed.

(** ** The pipes of a socket *)

(** The pipes in [ps] are in good order, and the end of the socket is there. *)
Definition live (ps : gset N) (w : net) : Prop :=
  ∀ p, p ∈ ps → ∃ pr, w !! p = Some pr ∧ pinv pr ∧ is_Some (ends pr left_end).

Lemma live_insert ps w p pr : live ps w → pinv pr → is_Some (ends pr left_end) → live ps (<[p := pr]> w).
Proof.
  intros H Hp He x Hx. destruct (decide (p = x)) as [->|]; [exists pr; by rewrite lookup_insert_eq|]. rewrite lookup_insert_ne by done. by apply H.
Qed.

Lemma write_out_live ps w p m : live ps w → p ∈ ps → ∃ b w', write_out m p w = Ok (b, w') ∧ live ps w'.
Proof.
  intros H Hp. destruct (H p Hp) as (pr & Hl & Hw & [e He]). destruct (write_sim left_end pr e m Hw He) as (b & pr1 & Hr1 & Hm1).
  pose proof (micros_inv _ _ _ _ Hm1 Hw) as Hw1. pose proof (ends_stay_write _ _ _ _ _ Hr1 left_end ltac:(by eexists)) as [e1 He1].
  destruct (flush_sim left_end pr1 e1 Hw1 He1) as (pr2 & Hr2 & Hm2 & _ & _). pose proof (micros_inv _ _ _ _ Hm2 Hw1) as Hw2.
  pose proof (ends_stay_flush _ _ _ _ Hr2 left_end ltac:(by eexists)) as He2.
  assert (p_write p m w = Ok (b, <[p := pr1]> w)) as Ew by (cbn; unfold on_pair; by rewrite Hl, Hr1).
  assert (p_flush p (<[p := pr1]> w) = Ok ((), <[p := pr2]> (<[p := pr1]> w))) as Ef by (cbn; unfold on_pair; by rewrite lookup_insert_eq, Hr2).
  unfold write_out. erewrite bind_run by exact Ew. exists b. destruct (b && negb (pm_more m)); cbn [when].
  - erewrite bind_run by exact Ef. eexists. split; [done|]. apply live_insert; [apply live_insert; [done..|by eexists]|done|done].
  - erewrite bind_run by done. eexists. split; [done|]. apply live_insert; [done..|by eexists].
Qed.

Lemma writes_live ps m l : ∀ w, live ps w → list_to_set l ⊆ ps → ∃ bs w', map_m (write_out m) l w = Ok (bs, w') ∧ live ps w'.
Proof.
  induction l as [|p l IH]; intros w Hw Hl; [by exists [], w|]. cbn in Hl. destruct (write_out_live ps w p m Hw) as (b & w1 & Hr & Hw1); [set_solver|].
  destruct (IH w1 Hw1) as (bs & w2 & Hrs & Hw2); [set_solver|]. exists (b :: bs), w2. cbn. erewrite bind_run by exact Hr. by erewrite bind_run by exact Hrs.
Qed.

Lemma none_full_live ps l : ∀ w, live ps w → list_to_set l ⊆ ps → ∃ b, none_full l w = Ok (b, w).
Proof.
  induction l as [|p l IH]; intros w Hw Hl; [by exists true|]. cbn in Hl. destruct (Hw p) as (pr & Hp & _ & [e He]); [set_solver|]. cbn [none_full].
  assert (p_check_hwm p w = Ok (check_hwm e, w)) as Hr.
  { cbn. unfold on_pair. rewrite Hp. erewrite bind_run by (by apply get_end_run). cbn. by rewrite insert_id. }
  erewrite bind_run by exact Hr. destruct (check_hwm e); [apply IH; [done|set_solver]|by exists false].
Qed.

(** The pipes a distributor has are among [ps] if those it was given are. *)
Definition gives (ps : gset N) (o : dop) : Prop := match o with op_attach p => p ∈ ps | _ => True end.

Lemma dspec_live ps v w o r v' w' : live ps w → ds_all v ⊆ ps → nested v → gives ps o → dspec v w o r v' w' → live ps w' ∧ ds_all v' ⊆ ps.
Proof.
  intros Hw Ha (Hn1 & Hn2 & Hn3 & _) Hg. destruct o as [p|p| | |p|p|vsm m|vsm m|]; cbn [dspec].
  - intros (_ & -> & ->). split; [done|]. unfold sets_attach. destruct (ds_more v); cbn; set_solver.
  - intros (_ & -> & ->). split; [done|]. unfold sets_match. by case_decide.
  - by intros (_ & -> & ->).
  - by intros (_ & -> & ->).
  - intros (_ & -> & ->). split; [done|]. cbn. set_solver.
  - by intros (_ & -> & ->).
  - intros (l & bs & Hl & Hbs & _ & ->). split; [|done]. destruct (writes_live ps m l w Hw) as (bs' & w1 & E & Hw1); [rewrite Hl, list_to_set_elements_L; set_solver|].
    rewrite Hbs in E. by injection E as _ ->.
  - intros (l & bs & Hl & Hbs & _ & ->). split; [|done]. destruct (writes_live ps m l w Hw) as (bs' & w1 & E & Hw1); [rewrite Hl, list_to_set_elements_L; cbn; set_solver|].
    rewrite Hbs in E. by injection E as _ ->.
  - intros (l & b & Hl & Hr & _ & ->). destruct (none_full_live ps l w Hw) as [b' E]; [rewrite Hl, list_to_set_elements_L; set_solver|].
    rewrite Hr in E. by injection E as _ ->.
Qed.

Lemma live_no_fail ps v w o err : live ps w → ds_all v ⊆ ps → nested v → ¬ dfails v w o err.
Proof.
  intros Hw Ha (Hn1 & Hn2 & Hn3 & _). destruct o; cbn [dfails]; try tauto.
  - intros (l & Hl & E). destruct (writes_live ps m l w Hw) as (? & ? & ? & _); [set_solver|congruence].
  - intros (l & Hl & E). destruct (writes_live ps m l w Hw) as (? & ? & ? & _); [set_solver|congruence].
  - intros (l & Hl & E). destruct (none_full_live ps l w Hw) as [? ?]; [rewrite Hl, list_to_set_elements_L; set_solver|congruence].
Qed.

(** C13: On the pipes of pipe.cpp the distributor does not fail: as long as the ends of the
    socket are there, every program that uses it as its callers do runs to its end, and
    does to the pipes and to the four sets what [dspec] says. *)
Theorem distribution_never_fails ps w ops :
  live ps w → Forall (gives ps) ops →
  (∃ rs d w', map_m run_dist ops (new_dist, w) = Ok (rs, (d, w')) ∧ dsaid (dview new_dist) w ops rs (dview d) w' ∧ live ps w') ∨
  (∃ ops1 o ops2 rs d1 w1, ops = ops1 ++ o :: ops2 ∧ map_m run_dist ops1 (new_dist, w) = Ok (rs, (d1, w1)) ∧ ¬ dlegal (dview d1) o).
Proof.
  assert (dwf new_dist) as Hd by (split; [apply awf_new|done]). assert (ds_all (dview new_dist) ⊆ ps) as Ha by (cbn; set_solver).
  revert Hd Ha. generalize new_dist. intros d Hd Ha Hw Hg. revert d w Hd Ha Hw.
  induction Hg as [|o ops Ho Hg IH]; intros d w Hd Ha Hw; [left; by exists [], d, w|].
  destruct (decide (dlegal (dview d) o)) as [Hlg|Hlg]; [|right; by exists [], o, ops, [], d, w].
  destruct (run_dist_spec d w o Hd Hlg) as [(r & d1 & w1 & Hr & Hd1 & Hs)|(err & Hr & Hf)]; [|by destruct (live_no_fail ps _ _ _ _ Hw Ha (dwf_nested d Hd) Hf)].
  destruct (dspec_live ps _ _ _ _ _ _ Hw Ha (dwf_nested d Hd) Ho Hs) as [Hw1 Ha1].
  destruct (IH d1 w1 Hd1 Ha1 Hw1) as [(rs & d2 & w2 & Hrs & Hsaid & Hn)|(ops1 & o' & ops2 & rs & d2 & w2 & -> & Hrs & Hno)]; [left|right].
  - exists (r :: rs), d2, w2. cbn. erewrite bind_run by exact Hr. erewrite bind_run by exact Hrs. split; [done|]. split; [|done]. by exists (dview d1), w1.
  - exists (o :: ops1), o', ops2, (r :: rs), d2, w2. split; [done|]. cbn [map_m]. erewrite bind_run by exact Hr. by erewrite bind_run by exact Hrs.
Qed.

(** Three subscribers with room for one message. A message of two parts for the first two, then
    one for all: the first two are full, and only the third one gets it. *)
Definition three : net := {[1%N := pipepair 1 1; 2%N := pipepair 1 1; 3%N := pipepair 1 1]}.
Definition news (more : bool) : pmsg := PMsg more false false false [7].
Definition broadcast : list dop :=
  [op_attach 1; op_attach 2; op_attach 3; op_match 1; op_match 2; op_send false (news true); op_send false (news false); op_unmatch; op_send_all false (news false)].

(** The operation with number [k] is called as it should be. *)
Definition called_well (k : nat) : bool :=
  match map_m run_dist (take k broadcast) (new_dist, three), broadcast !! k with
  | Ok (_, (d, _)), Some o => bool_decide (dlegal (dview d) o)
  | _, _ => false
  end.

Lemma distribution_never_fails_witness :
  ∃ d w', map_m run_dist broadcast (new_dist, three) = Ok ([0; 0; 0; 0; 0; 2; 2; 0; 1], (d, w')) ∧
    dsaid (dview new_dist) three broadcast [0; 0; 0; 0; 0; 2; 2; 0; 1] (dview d) w' ∧ live {[1%N; 2%N; 3%N]} w'.
Proof.
  assert (live {[1%N; 2%N; 3%N]} three) as Hl.
  { intros p Hp. exists (pipepair 1 1). split; [|split; [apply pinv_start|by eexists]].
    assert (p = 1 ∨ p = 2 ∨ p = 3)%N as [->|[->| ->]] by set_solver; vm_compute; reflexivity. }
  destruct (distribution_never_fails {[1%N; 2%N; 3%N]} three broadcast Hl) as [(rs & d & w' & Hr & Hs & Hl')|(ops1 & o & ops2 & rs & d1 & w1 & E & Hr & Hno)].
  - repeat (constructor; [cbn; set_solver|]). constructor.
  - assert (rs = [0; 0; 0; 0; 0; 2; 2; 0; 1]) as -> by (vm_compute in Hr; injection Hr as <- _ _; reflexivity). exists d, w'. split; [exact Hr|]. split; [exact Hs|exact Hl'].
  - exfalso. apply Hno. assert (called_well (length ops1) = true) as Hc.
    { assert (length ops1 < 9)%nat as Hk by (apply (f_equal length) in E; rewrite length_app in E; cbn in E; lia). clear -Hk. revert Hk. generalize (length ops1). intros k Hk.
      do 9 (destruct k as [|k]; [vm_compute; reflexivity|]). lia. }
    unfold called_well in Hc. rewrite E, take_app_length, Hr, list_lookup_middle in Hc by done. exact (proj1 (bool_decide_eq_true _) Hc).
Defined.
